(* ===== verification/_CoqProject ===== *)
-Q . S2P
Prelude.v
CString.v
H2Framer.v
H2Huffman.v
H2Hpack.v
HttpParser.v
H2Session.v
LruCache.v
NodeEnvelope.v
NodeRouter.v
LineFolder.v
Snowflake.v
FsmEngine.v
Pop3.v
Storage.v
SmtpText.v
Pop3Lock.v
Smtp.v
SmtpSafety.v
Mime.v
ImapText.v
Imap.v
ImapSafety.v
ImapFindings.v
MailCrypto.v
Inbound.v
SmtpInbound.v
SmtpClient.v
Outbox.v
OutboundSign.v
MxRouting.v
OutboundSession.v
OutboundServer.v
PersistRepo.v
PersistQueue.v
DbPool.v
NodeFrame.v
NodeLink.v
NodeSample.v
NodeLinkSafety.v
NodeLinkCalls.v
NodeHandshake.v
HttpSession.v
HttpSessionSafety.v
HttpExchange.v
ShardRouter.v
Submission.v
BcryptTables.v
Bcrypt.v
AccountAuth.v
AccountPolicy.v
MimeComposer.v
