(* ===== verification/Prelude.v ===== *)
(** * ProtoRelay: a verification library

    ProtoRelay is a C++ mail server and relay.  A networking framework
    ([src/include/framework], [src/src/framework]) provides sessions over TCP
    and TLS, a table-driven protocol state machine engine, an HTTP/1 and HTTP/2
    server for static files, an LRU cache, and a node network that carries
    end-to-end envelopes over authenticated links.  The mail system
    ([src/include/mail_system], [src/src/mail_system]) builds SMTP, IMAP and
    POP3 servers on it, with message storage, outbound delivery, a webmail
    interface and database repositories.

    ** Files and the sources they model

    - [Prelude], [CString]: bytes, machine integers, big-endian fields, the C++
      string and number functions the code calls, shared lemmas and tactics.
    - [H2Framer] ([http/h2/h2_framer.cpp], [h2_types.hpp]): HTTP/2 frames.
    - [H2Huffman], [H2Hpack] ([http/h2/h2_hpack.cpp], [h2_huffman_table.h]):
      header compression; the decoder's dynamic table is the record
      [HeaderDecoder].
    - [HttpParser] ([http/http_parser.cpp], [message_processor.cpp]): request
      parsing, body framing, the path guard, static responses.  [std::filesystem]
      path functions are modelled on strings; the file system is a parameter.
    - [H2Session] ([http/codec/h2_codec.cpp], [http/h2/h2_session.tpp]): the
      connection state is the record [H2Session]; one network chunk is
      [on_chunk].
    - [LruCache] ([cache/lru_cache.h]): recency list and index as two
      structures, as in the code.
    - [NodeEnvelope], [NodeRouter] ([node/node_proto.cpp]): the envelope codec
      and the router; posted executor tasks and link callbacks are explicit
      queues that [step] may serve in any order.
    - [LineFolder] ([mail_system/back/algorithm/line_folder.h]): the filter
      between SMTP DATA and the stored file.
    - [Snowflake] ([mail_system/back/algorithm/snow.cpp]): id generation over a
      sequence of clock readings.
    - [FsmEngine] ([fsm/fsm_desc.h], [fsm/fsm_engine.h], [session_base.tpp]):
      protocol tables and the engine that dispatches pipelined commands.
    - [Pop3] ([mailServer/fsm/pop3/], [session/pop3_session.tpp]): the POP3
      server on that engine: command handlers, login and quit operations.
      [Pop3Lock] ([repository/pop3_lock_repository.cpp], the heartbeat, the
      sweeper of [pop3_server.cpp]): the table behind the mailbox lock, a lease.
    - [Storage] ([framework/storage/], [back/storage/mail_body_writer.h]): the
      write stream interface as a class with laws, its two implementations,
      and the buffered writer on top.
    - [SmtpText] ([algorithm/smtp_utils.cpp], [common/account_policy.h]): header
      and multipart parsing of the DATA phase, address rules.
    - [Smtp] ([mailServer/fsm/smtps/], [session/smtps_session.tpp]): the SMTP
      server; the session is the record [SmtpSession], a completed read is
      [smtp_chunk], what a session does is its trace of [SmtpAction]s.
      [SmtpSafety] holds its theorems.
    - [Mime] ([common/mime_tree.h], [mime_parameters.h],
      [mime_metadata_store.h]): the part tree of a stored message, its JSON
      form, the extraction of a part.
    - [ImapText] ([mailServer/fsm/imaps/imap_utils.cpp]), [Imap]
      ([traditional_imaps_fsm.tpp], [imaps_desc.h], [session/imaps_session.tpp]):
      the IMAP server; a handler is a function of its session and of the
      answers it gets ([CmdEnv]), its effects are a list of [ImapAction]s.
      [ImapSafety] has its theorems, [ImapFindings] the runs in which it does
      something else than it says.
    - [MailCrypto] ([common/mail_crypto.h]), [Inbound]
      ([inbound/inbound_verifier.cpp]): canonical forms, SPF, DKIM and DMARC,
      blocking and with callbacks.  [SmtpInbound] puts the verifier where [Smtp]
      has parameters.
    - [SmtpClient] ([smtp_client/client_session.cpp], [common/smtp_wire.h]): one
      connection of the relay to another server, event by event.
    - [Outbox] ([outbound/outbox_repository.cpp]): the delivery queue in the
      database, its statements run against a table, several connections at once.
    - [OutboundSign] ([outbound/outbound_utils.cpp]): splitting, signing and
      framing an outgoing message.
    - [MxRouting] ([outbound/mx_routing_utils.cpp]): host, port and addresses of
      a delivery.
    - [OutboundSession] ([outbound/outbound_smtp_session.cpp]): the queue of one
      mail host; [OutboundServer] ([outbound/outbound_server.cpp]): the scheduler
      that owns these sessions, as overlapping calls of several threads.
    - [PersistRepo] ([repository/persistence_repository.cpp]): the transaction
      that stores a message, the copies on other shards, the removal of
      metadata; [PersistQueue] ([persist_storage/]): the queue in front of it.
    - [DbPool] ([db/mysql_pool.cpp]): lending, validating and returning database
      connections.
    - [NodeFrame] ([node/node_trust.cpp] and the codecs of
      [node/node_link.cpp]), [NodeLink] ([node/node_link.cpp]): the link between
      two nodes with its handshake, requests, heartbeat and reconnecting.
      [NodeSample] has two sample nodes; [NodeLinkSafety], [NodeLinkCalls] and
      [NodeHandshake] hold the theorems.
    - [HttpSession] ([http/http_session.tpp], [http_fsm.h], [http_fsm.tpp],
      [session_base.tpp]): one HTTP/1.1 connection with its pipelined requests
      and responses; an event is a completion, and callbacks are values.
      [HttpSessionSafety] and [HttpExchange] hold the theorems.
    - [ShardRouter] ([back/router/]): the shard of an address, by hash, by domain
      or by a table in the database.
    - [BcryptTables], [Bcrypt] ([common/bcrypt.cpp]): bcrypt, its text form and the
      recognition of stored passwords.  [AccountAuth]
      ([common/account_authentication.cpp], [password_rehash.h], [auth_cache.h]):
      logins that share a cache; [AccountPolicy] ([common/account_policy.cpp]):
      questions about recipients, aliases and quotas.
    - [MimeComposer] ([common/mime_composer.cpp]): a message and its envelope from
      what a web user typed.
    - [Submission] ([submission/mail_submission_service.cpp],
      [storage/mail_object_key_layout.cpp]): the mail of a process of its own, one
      operation from the account check to the answer of the queue, and the keys
      of stored objects.

    ** How the parts meet

    The router is a client of the cache (its replay window is proved against
    the cache's retention lemmas), the HTTP/2 session of the framer and HPACK,
    and the POP3, SMTP and IMAP servers of the engine's tables; [Pop3] also
    connects [LineFolder] with retrieval, and [SmtpSafety] is proved for every
    write stream that obeys the laws of [Storage].  [Imap] uses the part trees of
    [Mime] through [ImapText].  [SmtpInbound] is the composition of [Smtp] and
    [Inbound]; [OutboundSign] that of the signer with the verifier: what is signed
    there passes here ([sign_then_verify]).  [OutboundSession] calls [SmtpClient]
    and [OutboundSign]; [OutboundServer] runs the sessions of [OutboundSession],
    claims from [Outbox] and routes with [MxRouting].  [PersistQueue] hands jobs to
    a repository that answers with a result; [PersistRepo] is the code behind that
    answer.  [NodeLink] carries the frames of [NodeFrame]; the envelopes of
    [NodeEnvelope] are the payloads it hands to [NodeRouter].  [HttpSession] calls
    the parser and the static responses of [HttpParser] and dispatches by a table
    of [FsmEngine].  The table router of [ShardRouter] is a client of [LruCache],
    whose contract shows that the cache is invisible; [Submission] applies the
    address rules of [SmtpText] and hands its mail to the queue of [PersistQueue].
    [AccountAuth] asks for passwords through the class [PasswordHashing], which
    [Bcrypt] implements, and keeps its cache in [LruCache]; it is the code behind the
    authenticator of [Smtp], [Imap] and [Pop3].

    ** What the theorems show

    - Codecs: frames, headers and envelopes survive encoding and decoding,
      decoders accept exactly the images of encoders, the Huffman decoder is
      the inverse of the RFC encoder, tables and buffers stay within their
      limits on hostile input.
    - HTTP/2 sessions: neither the connection's window nor a stream's is overrun,
      bodies are sent whole and in order, every request is produced at most once.
    - HTTP: accepted paths stay below the document root; content lengths are
      exact; the requests of a connection are those of its byte stream however it
      is cut, one response follows the other, files are sent whole.
    - Cache: capacity, contract of each operation, least-recently-used
      retention.
    - Router: completions are called exactly once, except those of envelopes of
      another version, whose task throws; the in-flight bound holds,
      reports never cascade, relays change nothing but the hop fields,
      encryption works end to end, replays inside the window are not delivered.
    - Engine: pipelined commands are handled in order and once, asynchronous
      steps complete once, strict guards keep sessions inside the table.
    - Mail: storing is independent of network chunking, folding terminates and
      is lossless on UTF-8, SMTP-to-POP3 transparency, one message numbering
      for all POP3 commands; the mailbox lock was granted whenever a mailbox is
      open or changed, and excludes other sessions while its heartbeat is kept.
    - SMTP: no mail is relayed for a stranger, and an acknowledged message is
      stored byte for byte and submitted with its envelope; a committed body is
      what was written.
    - IMAP: only mailboxes of the logged-in user are touched, commands with one
      tagged reply are answered and leave the session ready, literals are taken
      exactly, FETCH visits the messages asked for; part trees survive their JSON form.
    - Incoming checks: a pass of SPF names a mechanism that matched, the blocking
      and the asynchronous evaluation of DKIM agree, a pass of DMARC rests on an
      aligned pass, evaluation ends whatever the records include as long as none
      redirects.
    - Outgoing mail: a result of Accepted means the peer took every recipient and
      the message; one result per operation; addresses cannot smuggle commands; no
      password before the TLS handshake; a claimed row belongs to one worker; the
      scheduler's count is what is really pending, every delivery reports once and
      with its own payload.
    - Persistence: a message is stored with all its rows or none, the transaction
      ends on every sequence of answers, the queue accounts for every ticket, its
      files are removed exactly when it is not stored, a connection has one
      borrower.  A submission calls back once, has every recipient allowed and
      leaves no body that nobody owns; a table route is what the table says or an
      error.
    - Accounts: a password verifies against its own hash and the text form loses no
      byte of the digest; a login says yes only to the password of an active
      account, a fresh one only after a second look at the database; whatever was
      typed, a composed message is printable ASCII lines that SMTP carries
      unchanged.
    - Links: an authenticated link that is ready has verified its peer over a fresh
      nonce, the two
      ends agree on each other, revoked peers are dropped, requests are answered
      once, the cutting of the stream into reads is immaterial, two links that
      trust each other get ready.

    Some theorems state what the code does where a comment, an RFC or the
    intent says otherwise; their names end in what happens
    ([folding_diverges], [hpack_long_string_misread],
    [data_opens_streams_without_limit], [error_budget_cumulative],
    [trailing_root_blocks_files], [numbers_shift],
    [failed_auth_changes_identity], [from_rules_skipped],
    [end_of_data_depends_on_reads], [redirect_stalls_session],
    [dmarc_reject_accepted], [lost_delivery_stays_lost],
    [slow_handshake_keeps_link], [revoked_peer_is_dialled],
    [restored_peer_stays_lost], [update_of_another_node],
    [tight_options_never_connect], [rejected_request_served],
    [truncated_file_keeps_connection], [head_error_has_body],
    [second_head_as_body], [sendfile_exceeds_length], [chunk_end_unchecked],
    [dollar_two_locked_out], [late_upgrade_revives_old_password],
    [newlines_outgrow_submission], and
    the examples of [ImapFindings]).

    ** Conventions

    A [std::string] is a list of bytes, a byte is a [Z] in [0..255]; unsigned
    arithmetic that can wrap is written with [to_u8] .. [to_u64], signed with
    [to_i32] and [to_i64].  Exceptions
    and error returns are [option] or a sum.  Callbacks, clocks, random
    numbers, the file system, AEAD, database and storage answers are parameters
    or fields of environment records; what a theorem needs of them is a named
    hypothesis.

    Loops that are not structural take fuel.  Where the fuel is an internal
    bound it is the length of what the loop consumes, and a lemma or the theorem
    itself shows that this is enough: the input of a parser ([decode_loop],
    [pump], [stuff_body], [drain_loop], [feed_loop], [data_loop], [consume],
    [multipart_loop], [parameters], [many], [search_tokens], [read_lines],
    [normalize_loop], [consume_loop] of [NodeLink], [loop] and [scan] of
    [HttpSession], [wrapped] and [subject_words] of [MimeComposer]), the JSON text of a part tree,
    the numbers left of a sequence set ([fetch_drive]), the budget of a clipped
    line ([clip_loop]), the surplus of the session table ([shrink_loop]), the
    nesting depth of 64 of [parse_mime_tree].  Two loops of the code have no such
    bound.  [LineFolder.append_folded] keeps its fuel as an argument because the
    loop can really fail to end; [folding_bounded] gives the fuel that suffices and
    [folding_diverges] the inputs where none does.  The fuel of the SPF evaluation
    is the depth of nested record loads: [spf_terminates] shows that ten are enough
    without redirects, [redirect_stalls_session] that redirects have no limit.

    Concurrency is a step relation in function form: posted functions, answers
    and calls of other threads are the elements of a list of events, and the
    theorems hold for every list.  A critical section of the code is one step.

    ** Not modelled

    The webmail services pass the fields of requests on to repositories and are
    left out; the HTTP sessions below them, the composer and the submission service
    are modelled.  QUIC and HTTP/3 are adapters around a third-party
    transport.  Database drivers and SQL text, sockets, TLS, Ed25519 and its key
    files, thread pools, logging, metrics, configuration and the command
    line are calls of the operating system or of libraries; where a model needs
    their answers, they are its parameters. *)

From Stdlib Require Export ZArith Lia Ascii.
From stdpp Require Export base gmap strings list fin_maps numbers.

#[global] Open Scope Z_scope.

(** ** Bytes and C++ strings

    A [std::string] is a list of byte values.  A [char] that the code reads
    through [unsigned char] or [uint8_t] is the same integer, so a byte is a
    [Z] in [0..255]; the C++ conversions [char(n)] are written [to_u8]. *)

Abbreviation bytes := (list Z).

Definition byte_ok (b : Z) : Prop := 0 ≤ b < 256.
Abbreviation bytes_ok := (Forall byte_ok).

Definition byte_okb (b : Z) : bool := (0 <=? b) && (b <? 256).

Lemma byte_okb_spec b : byte_okb b = true ↔ byte_ok b.
Proof. unfold byte_okb, byte_ok. lia. Qed.

#[export] Instance byte_ok_dec b : Decision (byte_ok b).
Proof. refine (cast_if (decide (byte_okb b = true))); by rewrite <-byte_okb_spec. Defined.

(** A string literal of the source, as bytes. *)
Definition lit (s : string) : bytes :=
  (λ a, Z.of_N (N_of_ascii a)) <$> String.list_ascii_of_string s.

Declare Scope cstr_scope.
Delimit Scope cstr_scope with cstr.
Notation "'s!' s" := (lit s%string) (at level 1, s at level 0, only parsing) : cstr_scope.
#[global] Open Scope cstr_scope.

(** The control characters the protocols use. *)
Definition CR : Z := 13.
Definition LF : Z := 10.
Definition SP : Z := 32.
Definition HTAB : Z := 9.
Definition DQUOTE : Z := 34.
Definition CRLF : bytes := [CR; LF].

(** ** Machine integers *)

Definition to_u8 (z : Z) : Z := z mod 2 ^ 8.
Definition to_u16 (z : Z) : Z := z mod 2 ^ 16.
Definition to_u32 (z : Z) : Z := z mod 2 ^ 32.
Definition to_u64 (z : Z) : Z := z mod 2 ^ 64.

Definition u8_ok (z : Z) : Prop := 0 ≤ z < 2 ^ 8.
Definition u16_ok (z : Z) : Prop := 0 ≤ z < 2 ^ 16.
Definition u32_ok (z : Z) : Prop := 0 ≤ z < 2 ^ 32.
Definition u64_ok (z : Z) : Prop := 0 ≤ z < 2 ^ 64.

(** The two's complement reading of a 64-bit pattern. *)
Definition to_i64 (z : Z) : Z := (z + 2 ^ 63) mod 2 ^ 64 - 2 ^ 63.

(** The same of 32 bits: a cast to [int]. *)
Definition to_i32 (z : Z) : Z := (z + 2 ^ 31) mod 2 ^ 32 - 2 ^ 31.

Definition i32_ok (z : Z) : Prop := - 2 ^ 31 ≤ z < 2 ^ 31.

Lemma to_i32_range z : i32_ok (to_i32 z).
Proof. unfold i32_ok, to_i32. pose proof (Z.mod_pos_bound (z + 2 ^ 31) (2 ^ 32)). lia. Qed.

Lemma to_i32_id z : i32_ok z → to_i32 z = z.
Proof. unfold i32_ok, to_i32. intros. rewrite Z.mod_small by lia. lia. Qed.

(** A wrapped summand may be left unwrapped. *)
Lemma to_i32_add a b : to_i32 (to_i32 a + b) = to_i32 (a + b).
Proof.
  unfold to_i32. f_equal.
  replace ((a + 2 ^ 31) mod 2 ^ 32 - 2 ^ 31 + b + 2 ^ 31) with ((a + 2 ^ 31) mod 2 ^ 32 + b) by lia.
  rewrite Zplus_mod_idemp_l. f_equal. lia.
Qed.

Lemma to_u8_range z : byte_ok (to_u8 z).
Proof. unfold byte_ok, to_u8. pose proof (Z.mod_pos_bound z (2 ^ 8)). lia. Qed.

Lemma to_u8_id z : byte_ok z → to_u8 z = z.
Proof. intros. apply Z.mod_small. unfold byte_ok in *. lia. Qed.

Lemma to_u32_range z : u32_ok (to_u32 z).
Proof. unfold u32_ok, to_u32. apply Z.mod_pos_bound. lia. Qed.

Lemma to_u32_id z : u32_ok z → to_u32 z = z.
Proof. intros. by apply Z.mod_small. Qed.

Lemma to_u64_range z : u64_ok (to_u64 z).
Proof. unfold u64_ok, to_u64. apply Z.mod_pos_bound. lia. Qed.

Lemma to_u64_id z : u64_ok z → to_u64 z = z.
Proof. intros. by apply Z.mod_small. Qed.

Create HintDb proto discriminated.
#[export] Hint Resolve to_u8_range to_u32_range to_u64_range : proto.

(** ** Tactics *)

(** Turn boolean tests in the context into propositions. *)
Ltac bool_prop :=
  repeat match goal with
  | H : (_ && _)%bool = true |- _ => apply andb_true_iff in H as [? ?]
  | H : (_ || _)%bool = false |- _ => apply orb_false_iff in H as [? ?]
  | H : negb _ = true |- _ => apply negb_true_iff in H
  | H : negb _ = false |- _ => apply negb_false_iff in H
  | H : (_ =? _) = true |- _ => apply Z.eqb_eq in H
  | H : (_ =? _) = false |- _ => apply Z.eqb_neq in H
  | H : (_ <? _) = true |- _ => apply Z.ltb_lt in H
  | H : (_ <? _) = false |- _ => apply Z.ltb_ge in H
  | H : (_ <=? _) = true |- _ => apply Z.leb_le in H
  | H : (_ <=? _) = false |- _ => apply Z.leb_gt in H
  | H : (_ >? _) = true |- _ => rewrite Z.gtb_ltb in H; apply Z.ltb_lt in H
  | H : (_ >? _) = false |- _ => rewrite Z.gtb_ltb in H; apply Z.ltb_ge in H
  | H : (_ <? _)%nat = true |- _ => apply Nat.ltb_lt in H
  | H : (_ <? _)%nat = false |- _ => apply Nat.ltb_ge in H
  | H : (_ <=? _)%nat = true |- _ => apply Nat.leb_le in H
  | H : (_ <=? _)%nat = false |- _ => apply Nat.leb_gt in H
  | H : (_ =? _)%nat = true |- _ => apply Nat.eqb_eq in H
  | H : (_ =? _)%nat = false |- _ => apply Nat.eqb_neq in H
  | H : bool_decide _ = true |- _ => apply bool_decide_eq_true in H
  | H : bool_decide _ = false |- _ => apply bool_decide_eq_false in H
  end.

(** Case split on the scrutinee of an [if] or [match] of the goal or of a
    hypothesis, keeping the equation. *)
Ltac case_goal :=
  match goal with
  | |- context [match ?e with _ => _ end] => destruct e eqn:?
  end.

Ltac case_hyp H :=
  match type of H with
  | context [match ?e with _ => _ end] => destruct e eqn:?
  end.

(** Split every test of a boolean guard [H : (if b then x else y) = r] whose
    rejected branches contradict [r]. *)
Ltac guards H := repeat (case_hyp H; try discriminate H); bool_prop.

(** ** Lists *)

Definition slice {A} (l : list A) (pos n : nat) : list A := take n (drop pos l).

Lemma length_slice {A} (l : list A) pos n :
  length (slice l pos n) = (n `min` (length l - pos))%nat.
Proof. unfold slice. by rewrite length_take, length_drop. Qed.

Lemma slice_app {A} (l1 l2 l3 : list A) :
  slice (l1 ++ l2 ++ l3) (length l1) (length l2) = l2.
Proof. unfold slice. by rewrite drop_app_length, take_app_length. Qed.

Lemma slice_app_eq {A} (l1 l2 l3 : list A) p n :
  p = length l1 → n = length l2 → slice (l1 ++ l2 ++ l3) p n = l2.
Proof. intros -> ->. apply slice_app. Qed.

Lemma Forall_filter_keep {A} (P Q : A → Prop) `{!∀ x, Decision (Q x)} (l : list A) :
  Forall P l → Forall P (filter Q l).
Proof.
  rewrite !Forall_forall. intros Hl x Hx%list_elem_of_In.
  apply list_elem_of_filter in Hx as [_ Hx]. by apply Hl, list_elem_of_In.
Qed.

Lemma bytes_ok_app (l1 l2 : bytes) : bytes_ok (l1 ++ l2) ↔ bytes_ok l1 ∧ bytes_ok l2.
Proof. apply Forall_app. Qed.

Lemma bytes_ok_take n (l : bytes) : bytes_ok l → bytes_ok (take n l).
Proof. apply Forall_take. Qed.

Lemma bytes_ok_drop n (l : bytes) : bytes_ok l → bytes_ok (drop n l).
Proof. apply Forall_drop. Qed.

Lemma bytes_ok_slice (l : bytes) p n : bytes_ok l → bytes_ok (slice l p n).
Proof. intros. by apply bytes_ok_take, bytes_ok_drop. Qed.

#[export] Hint Resolve bytes_ok_take bytes_ok_drop bytes_ok_slice : proto.

(** Discharge [bytes_ok] of an explicit list from hypotheses. *)
Ltac solve_bytes :=
  repeat first
    [ assumption | apply List.Forall_nil
    | apply List.Forall_cons; [first [assumption | solve [auto with proto]]|] ].

(** ** Big-endian integers

    [be_put k v] are the [k] low bytes of [v], most significant first (the
    [char(n >> (i * 8))] loops of the codecs); [be_get] folds bytes back with
    [(n << 8) | byte]. *)

Fixpoint be_put (k : nat) (v : Z) : bytes :=
  match k with
  | O => []
  | S k => to_u8 (v ≫ (8 * Z.of_nat k)) :: be_put k v
  end.

Definition be_get (l : bytes) : Z :=
  foldl (λ n b, Z.lor (n ≪ 8) b) 0 l.

Lemma lor_byte n b : byte_ok b → Z.lor (n ≪ 8) b = n * 256 + b.
Proof.
  unfold byte_ok. intros Hb.
  rewrite Z.shiftl_mul_pow2 by lia. change (2 ^ 8) with 256.
  rewrite Z.add_nocarry_lxor, Z.lxor_lor; [done|..].
  all: apply Z.bits_inj'; intros i Hi; rewrite Z.land_spec, Z.bits_0.
  all: change 256 with (2 ^ 8); rewrite <-Z.shiftl_mul_pow2 by lia.
  all: destruct (decide (i < 8)).
  all: try (rewrite Z.shiftl_spec_low by lia; done).
  all: rewrite andb_false_iff; right.
  all: rewrite <-(Z.mod_small b (2 ^ 8)) by lia; apply Z.mod_pow2_bits_high; lia.
Qed.

Lemma be_get_acc_app l1 l2 :
  be_get (l1 ++ l2) = foldl (λ n b, Z.lor (n ≪ 8) b) (be_get l1) l2.
Proof. unfold be_get. by rewrite foldl_app. Qed.

Lemma be_get_acc n l :
  bytes_ok l →
  foldl (λ n b, Z.lor (n ≪ 8) b) n l = n * 256 ^ Z.of_nat (length l) + be_get l.
Proof.
  unfold be_get. intros Hl. revert n.
  induction Hl as [|b l Hb Hl IH]; intros n; [simpl; lia|].
  cbn [foldl length]. rewrite IH, (IH (Z.lor _ _)), !lor_byte by done.
  rewrite Nat2Z.inj_succ, Z.pow_succ_r by lia. lia.
Qed.

Lemma be_get_cons b l :
  bytes_ok (b :: l) → be_get (b :: l) = b * 256 ^ Z.of_nat (length l) + be_get l.
Proof.
  intros Hbl. inversion Hbl as [|? ? Hb Hl]; subst. unfold be_get at 1. cbn [foldl].
  rewrite lor_byte, be_get_acc by done. f_equal.
Qed.

Lemma length_be_put k v : length (be_put k v) = k.
Proof. induction k; simpl; congruence. Qed.

Lemma be_put_ok k v : bytes_ok (be_put k v).
Proof. induction k; simpl; constructor; auto using to_u8_range. Qed.

#[export] Hint Resolve be_put_ok : proto.

Lemma be_get_put k v : be_get (be_put k v) = v mod 256 ^ Z.of_nat k.
Proof.
  induction k as [|k IH]; [symmetry; apply Z.mod_1_r|].
  cbn [be_put]. rewrite be_get_cons, IH, length_be_put
    by (constructor; auto using be_put_ok, to_u8_range).
  unfold to_u8. rewrite Z.shiftr_div_pow2 by lia.
  replace (2 ^ (8 * Z.of_nat k)) with (256 ^ Z.of_nat k)
    by (rewrite (Z.pow_mul_r 2 8) by lia; done).
  rewrite Nat2Z.inj_succ, Z.pow_succ_r by lia. change (2 ^ 8) with 256.
  rewrite (Z.mul_comm 256), Z.rem_mul_r by (try apply Z.pow_nonzero; lia). lia.
Qed.

Lemma be_get_put_id k v : 0 ≤ v < 256 ^ Z.of_nat k → be_get (be_put k v) = v.
Proof. intros. rewrite be_get_put. by apply Z.mod_small. Qed.

Lemma be_get_range l : bytes_ok l → 0 ≤ be_get l < 256 ^ Z.of_nat (length l).
Proof.
  induction 1 as [|b l Hb Hl IH]; [cbn; lia|].
  rewrite be_get_cons by (by constructor). cbn [length].
  rewrite Nat2Z.inj_succ, Z.pow_succ_r by lia. unfold byte_ok in Hb. nia.
Qed.

Lemma be_put_get l : bytes_ok l → be_put (length l) (be_get l) = l.
Proof.
  induction 1 as [|b l Hb Hl IH]; [done|].
  assert (bytes_ok (b :: l)) by (by constructor).
  cbn [length be_put]. rewrite be_get_cons by done.
  pose proof (be_get_range l Hl) as Hr. f_equal.
  - unfold to_u8. rewrite Z.shiftr_div_pow2 by lia.
    replace (2 ^ (8 * Z.of_nat (length l))) with (256 ^ Z.of_nat (length l))
      by (rewrite (Z.pow_mul_r 2 8) by lia; done).
    rewrite Z.div_add_l, Z.div_small by lia. rewrite Z.add_0_r.
    by apply to_u8_id.
  - assert (∀ k v w, (k ≤ length l)%nat →
      be_put k (v * 256 ^ Z.of_nat (length l) + w) = be_put k w) as Hgen.
    { intros k v w. induction k as [|k IHk]; intros Hk; [done|].
      cbn [be_put]. rewrite IHk by lia. f_equal.
      unfold to_u8. rewrite !Z.shiftr_div_pow2 by lia.
      replace (length l) with (S k + (length l - S k))%nat by lia.
      rewrite Nat2Z.inj_add, Z.pow_add_r by lia.
      rewrite Nat2Z.inj_succ, Z.pow_succ_r by lia.
      replace (2 ^ (8 * Z.of_nat k)) with (256 ^ Z.of_nat k)
        by (rewrite (Z.pow_mul_r 2 8) by lia; done).
      replace (v * (256 * 256 ^ Z.of_nat k * 256 ^ Z.of_nat (length l - S k)) + w)
        with ((v * 256 ^ Z.of_nat (length l - S k) * 256) * 256 ^ Z.of_nat k + w) by ring.
      rewrite Z.div_add_l by (apply Z.pow_nonzero; lia).
      change (2 ^ 8) with 256. by rewrite Z.add_comm, Z.mod_add by lia. }
    rewrite Hgen by done. exact IH.
Qed.
