(* ===== verification/CString.v ===== *)
(** * The part of [std::string] and of the C library the sources use

    Searching, case mapping, decimal printing and parsing on byte strings.
    These are models of the language's standard library, shared by the
    protocol files; the round trip of [to_string] with the two parsers the
    code calls ([std::stoull], [std::from_chars]) is proved here once. *)

From S2P Require Import Prelude.

(** ** Searching *)

(** [s.find(c)] *)
Fixpoint find_char (c : Z) (s : bytes) : option nat :=
  match s with
  | [] => None
  | b :: s => if b =? c then Some O else S <$> find_char c s
  end.

(** [s.find(c, pos)]: an absolute index. *)
Definition find_char_from (c : Z) (s : bytes) (pos : nat) : option nat :=
  (λ i, (pos + i)%nat) <$> find_char c (drop pos s).

(** [s.compare(0, p.size(), p) == 0] on a string at least as long as [p]. *)
Fixpoint starts_with (p s : bytes) : bool :=
  match p, s with
  | [], _ => true
  | a :: p, b :: s => (a =? b) && starts_with p s
  | _ :: _, [] => false
  end.

(** [s.find(p)] *)
Fixpoint find_sub (p s : bytes) : option nat :=
  if starts_with p s then Some O else
  match s with
  | [] => None
  | _ :: s => S <$> find_sub p s
  end.

Definition find_sub_from (p s : bytes) (pos : nat) : option nat :=
  (λ i, (pos + i)%nat) <$> find_sub p (drop pos s).

Lemma find_char_Some c s i :
  find_char c s = Some i ↔
  s !! i = Some c ∧ c ∉ take i s.
Proof.
  revert i. induction s as [|b s IH]; intros i; simpl.
  { split; [done|]. by intros [? _]. }
  destruct (Z.eqb_spec b c) as [->|Hne].
  - split.
    + intros [= <-]. split; [done|]. simpl. apply not_elem_of_nil.
    + intros [Hi Hni]. destruct i as [|i]; [done|].
      exfalso. apply Hni. simpl. left.
  - split.
    + intros (j & [Hj Hnj]%IH & ->)%fmap_Some.
      split; [done|]. simpl. rewrite elem_of_cons. naive_solver.
    + intros [Hi Hni]. destruct i as [|i]; [simpl in Hi; congruence|].
      simpl in Hi, Hni. rewrite elem_of_cons in Hni.
      assert (find_char c s = Some i) as -> by (apply IH; naive_solver). done.
Qed.

Lemma find_char_None c s : find_char c s = None ↔ c ∉ s.
Proof.
  induction s as [|b s IH]; simpl.
  { split; [intros _; apply not_elem_of_nil|done]. }
  rewrite not_elem_of_cons. destruct (Z.eqb_spec b c) as [->|Hne]; [naive_solver|].
  rewrite fmap_None, IH. naive_solver.
Qed.

Lemma find_char_lt c s i : find_char c s = Some i → (i < length s)%nat.
Proof. intros [H _]%find_char_Some. by eapply lookup_lt_Some. Qed.

Lemma find_char_app_l c s t : c ∉ s → find_char c (s ++ c :: t) = Some (length s).
Proof.
  induction s as [|b s IH]; simpl.
  - intros _. by rewrite Z.eqb_refl.
  - rewrite not_elem_of_cons. intros [Hb Hs].
    rewrite (proj2 (Z.eqb_neq b c)) by done. by rewrite IH.
Qed.

Lemma starts_with_app p s : starts_with p (p ++ s) = true.
Proof. induction p; simpl; [done|]. by rewrite Z.eqb_refl. Qed.

Lemma starts_with_spec p s : starts_with p s = true ↔ ∃ t, s = p ++ t.
Proof.
  split.
  - revert s. induction p as [|a p IH]; intros [|b s]; simpl; try naive_solver.
    rewrite andb_true_iff. intros [->%Z.eqb_eq [t ->]%IH]. by exists t.
  - intros [t ->]. apply starts_with_app.
Qed.

Lemma starts_with_length p s : starts_with p s = true → (length p ≤ length s)%nat.
Proof. intros [t ->]%starts_with_spec. rewrite length_app. lia. Qed.

Lemma find_sub_Some p s i :
  find_sub p s = Some i → ∃ t, drop i s = p ++ t ∧ (i ≤ length s)%nat.
Proof.
  revert i. induction s as [|b s IH]; intros i; cbn [find_sub];
    destruct (starts_with p _) eqn:E.
  - intros [= <-]. apply starts_with_spec in E as [t E]. exists t. simpl. split; [done|lia].
  - done.
  - intros [= <-]. apply starts_with_spec in E as [t E]. exists t. simpl. split; [done|lia].
  - destruct (find_sub p s) as [j|]; [|done]. intros [= <-].
    destruct (IH j) as (t & ? & ?); [done|]. exists t. simpl. split; [done|lia].
Qed.

(** The match is the first one: no match starts strictly before it. *)
Lemma find_sub_first p s i j :
  find_sub p s = Some i → (j < i)%nat → starts_with p (drop j s) = false.
Proof.
  revert i j. induction s as [|b s IH]; intros i j; cbn [find_sub];
    destruct (starts_with p _) eqn:E; intros Hf Hj; simplify_eq; try lia.
  destruct (find_sub p s) as [k|] eqn:Ek; [|done]. simplify_eq/=.
  destruct j as [|j]; [done|]. simpl. eapply IH; [done|lia].
Qed.

Lemma find_crlf_plain l t : CR ∉ l → find_sub CRLF (l ++ CRLF ++ t) = Some (length l).
Proof.
  induction l as [|c l IH]; intros Hl; [done|]. apply not_elem_of_cons in Hl as [Hc Hl].
  cbn [app find_sub]. assert (starts_with CRLF (c :: l ++ CRLF ++ t) = false) as ->.
  { apply not_true_iff_false. intros (u & Hu)%starts_with_spec. unfold CRLF in Hu. simpl in Hu. congruence. }
  by rewrite IH.
Qed.

Lemma find_sub_None p s : find_sub p s = None → ∀ j, starts_with p (drop j s) = false ∨ (length s < j)%nat.
Proof.
  induction s as [|b s IH]; cbn [find_sub]; destruct (starts_with p _) eqn:E; intros Hf j; try done.
  - left. by rewrite drop_nil.
  - destruct j as [|j]; [by left|]. destruct (find_sub p s) eqn:Ek; [done|].
    destruct (IH eq_refl j) as [?|?]; [left|right; simpl; lia]. done.
Qed.

(** ** Case mapping (the "C" locale) *)

Definition toupper (c : Z) : Z := if (97 <=? c) && (c <=? 122) then c - 32 else c.
Definition tolower (c : Z) : Z := if (65 <=? c) && (c <=? 90) then c + 32 else c.

Lemma toupper_idem c : toupper (toupper c) = toupper c.
Proof. unfold toupper. destruct ((97 <=? c) && (c <=? 122)) eqn:E; [|by rewrite E].
  bool_prop. destruct ((97 <=? c - 32) && (c - 32 <=? 122)) eqn:E2; bool_prop; lia. Qed.

Lemma toupper_tolower c : toupper (tolower c) = toupper c.
Proof.
  unfold toupper, tolower. destruct ((65 <=? c) && (c <=? 90)) eqn:E; [|done].
  bool_prop. repeat case_match; bool_prop; lia.
Qed.

Definition isdigit (c : Z) : bool := (48 <=? c) && (c <=? 57).
Definition isspace (c : Z) : bool := (c =? 32) || ((9 <=? c) && (c <=? 13)).

(** ** Trimming *)

Fixpoint drop_while (p : Z → bool) (s : bytes) : bytes :=
  match s with
  | [] => []
  | b :: t => if p b then drop_while p t else s
  end.

Definition drop_while_end (p : Z → bool) (s : bytes) : bytes :=
  reverse (drop_while p (reverse s)).

Lemma drop_while_suffix p s : ∃ t, s = t ++ drop_while p s ∧ Forall (λ b, p b = true) t.
Proof.
  induction s as [|b s (t & Hs & Ht)]; simpl; [by exists []|].
  destruct (p b) eqn:E; [|by exists []].
  exists (b :: t). split; [by rewrite Hs at 1|by constructor].
Qed.

Lemma drop_while_head p s b t : drop_while p s = b :: t → p b = false.
Proof. induction s as [|a s IH]; simpl; [done|]. destruct (p a) eqn:E; [done|]. by intros [= <- <-]. Qed.

Lemma drop_while_id p b s : p b = false → drop_while p (b :: s) = b :: s.
Proof. intros H. simpl. by rewrite H. Qed.

(** ** Decimal printing and parsing *)

(** [std::to_string] of an unsigned value.  Every step divides by ten, so
    [log2 n + 1] steps reach the last digit. *)
Fixpoint dec_digits (fuel : nat) (n : Z) : bytes :=
  match fuel with
  | O => []
  | S fuel => if n <? 10 then [48 + n] else dec_digits fuel (n / 10) ++ [48 + n mod 10]
  end.

Definition to_string (n : Z) : bytes := dec_digits (S (Z.to_nat (Z.log2 n))) n.

(** Accumulation of decimal digits, most significant first. *)
Definition dec_value (acc : Z) (ds : bytes) : Z := foldl (λ a d, a * 10 + (d - 48)) acc ds.

Fixpoint span_digits (s : bytes) : bytes * bytes :=
  match s with
  | b :: t => if isdigit b then let '(d, r) := span_digits t in (b :: d, r) else ([], s)
  | [] => ([], [])
  end.

(** [std::stoull]: skip white space, accept a sign, read the longest digit
    run; no digits raises [invalid_argument], a magnitude above [2^64-1]
    raises [out_of_range].  Both exceptions are [None]; a minus sign negates
    modulo [2^64]. *)
Definition stoull (s : bytes) : option Z :=
  let s := drop_while isspace s in
  let '(neg, s) := match s with
                   | 45 :: t => (true, t)
                   | 43 :: t => (false, t)
                   | _ => (false, s)
                   end in
  let '(ds, _) := span_digits s in
  match ds with
  | [] => None
  | _ => let v := dec_value 0 ds in
         if v <? 2 ^ 64 then Some (if (neg : bool) then to_u64 (- v) else v) else None
  end.

(** [safe_stoull] of [common/safe_parse.h]: zero instead of an exception. *)
Definition safe_stoull (s : bytes) : Z :=
  match s with [] => 0 | _ => default 0 (stoull s) end.

(** [std::from_chars] on an unsigned 64-bit target, base ten: the value and
    the rest of the input. *)
Definition from_chars_u64 (s : bytes) : option (Z * bytes) :=
  let '(ds, rest) := span_digits s in
  match ds with
  | [] => None
  | _ => let v := dec_value 0 ds in if v <? 2 ^ 64 then Some (v, rest) else None
  end.

Lemma dec_digits_isdigit fuel n :
  0 ≤ n → Forall (λ b, isdigit b = true) (dec_digits fuel n).
Proof.
  revert n. induction fuel as [|f IH]; intros n Hn; simpl; [constructor|].
  pose proof (Z.mod_pos_bound n 10). pose proof (Z.div_pos n 10).
  destruct (Z.ltb_spec n 10).
  - repeat constructor. unfold isdigit. lia.
  - apply Forall_app. split; [apply IH; lia|]. repeat constructor. unfold isdigit. lia.
Qed.

Lemma dec_digits_value fuel n :
  0 ≤ n < 2 ^ Z.of_nat fuel → dec_value 0 (dec_digits fuel n) = n.
Proof.
  revert n. induction fuel as [|f IH]; intros n Hn; [cbn in *; lia|].
  cbn [dec_digits]. destruct (Z.ltb_spec n 10); [cbn; lia|].
  unfold dec_value in *. rewrite foldl_app. cbn [foldl].
  rewrite Nat2Z.inj_succ, Z.pow_succ_r in Hn by lia.
  rewrite IH.
  - pose proof (Z.div_mod n 10). lia.
  - split; [apply Z.div_pos; lia|]. apply Z.div_lt_upper_bound; lia.
Qed.

Lemma to_string_digits n : 0 ≤ n → Forall (λ b, isdigit b = true) (to_string n).
Proof. apply dec_digits_isdigit. Qed.

Lemma to_string_value n : 0 ≤ n → dec_value 0 (to_string n) = n.
Proof.
  intros Hn. apply dec_digits_value. split; [done|].
  destruct (decide (n = 0)) as [->|]; [cbn; lia|].
  rewrite Nat2Z.inj_succ, Z2Nat.id by apply Z.log2_nonneg.
  apply Z.log2_spec. lia.
Qed.

Lemma to_string_not_nil n : to_string n ≠ [].
Proof.
  unfold to_string. cbn [dec_digits]. destruct (n <? 10); [done|].
  intros [_ ?]%app_eq_nil. done.
Qed.

Lemma span_digits_app ds r :
  Forall (λ b, isdigit b = true) ds →
  match r with b :: _ => isdigit b = false | [] => True end →
  span_digits (ds ++ r) = (ds, r).
Proof.
  intros Hds Hr. induction Hds as [|b ds Hb _ IH]; simpl.
  - destruct r as [|b r]; simpl; [done|]. by rewrite Hr.
  - by rewrite Hb, IH.
Qed.

Lemma to_string_head n : 0 ≤ n → ∃ b t, to_string n = b :: t ∧ isdigit b = true.
Proof.
  intros Hn. pose proof (to_string_digits n Hn) as H.
  destruct (to_string n) as [|b t] eqn:E; [by apply to_string_not_nil in E|].
  inversion H; subst. eauto.
Qed.

(** Printing then parsing is the identity on 64-bit values, and [stoull]
    ignores whatever follows the digits. *)
Lemma stoull_to_string n r :
  u64_ok n → match r with b :: _ => isdigit b = false | [] => True end →
  stoull (to_string n ++ r) = Some n.
Proof.
  intros [Hn Hlt] Hr. destruct (to_string_head n Hn) as (b & t & E & Hb).
  unfold stoull. rewrite E. cbn [app]. rewrite drop_while_id.
  2:{ unfold isdigit, isspace in *. bool_prop. lia. }
  assert (b ≠ 45 ∧ b ≠ 43) as [H45 H43] by (unfold isdigit in Hb; bool_prop; lia).
  replace (match b with 45 => (true, t ++ r) | 43 => (false, t ++ r) | _ => (false, b :: t ++ r) end)
    with (false, b :: t ++ r).
  2:{ repeat (case_match; try congruence). }
  change (b :: t ++ r) with ((b :: t) ++ r). rewrite <-E.
  rewrite span_digits_app by auto using to_string_digits.
  rewrite to_string_value, E by done. by rewrite (proj2 (Z.ltb_lt _ _)).
Qed.

Lemma from_chars_to_string n r :
  u64_ok n → match r with b :: _ => isdigit b = false | [] => True end →
  from_chars_u64 (to_string n ++ r) = Some (n, r).
Proof.
  intros [Hn Hlt] Hr. unfold from_chars_u64.
  rewrite span_digits_app by auto using to_string_digits.
  rewrite to_string_value by done.
  destruct (to_string n) eqn:E; [by apply to_string_not_nil in E|].
  by rewrite (proj2 (Z.ltb_lt _ _)).
Qed.

Lemma span_digits_length s d r : span_digits s = (d, r) → s = d ++ r.
Proof.
  revert d r. induction s as [|b s IH]; simpl; intros d r; [naive_solver|].
  destruct (isdigit b); [|naive_solver].
  destruct (span_digits s) as [d' r']. intros [= <- <-]. simpl. f_equal. eauto.
Qed.

Lemma span_digits_Forall s d r :
  span_digits s = (d, r) → Forall (λ b, isdigit b = true) d.
Proof.
  revert d r. induction s as [|b s IH]; simpl; intros d r.
  - intros [= <- <-]. constructor.
  - destruct (isdigit b) eqn:E; [|intros [= <- <-]; constructor].
    destruct (span_digits s) as [d' r']. intros [= <- <-]. constructor; eauto.
Qed.

Lemma dec_value_nonneg acc d :
  0 ≤ acc → Forall (λ b, isdigit b = true) d → 0 ≤ dec_value acc d.
Proof.
  unfold dec_value. intros Ha Hd. revert acc Ha.
  induction Hd as [|b d Hb _ IH]; intros acc Ha; simpl; [done|].
  apply IH. unfold isdigit in Hb. bool_prop. lia.
Qed.

Lemma stoull_range s n : stoull s = Some n → u64_ok n.
Proof.
  unfold stoull.
  match goal with |- context [let '(_, _) := ?e in _] => destruct e as [neg s'] end.
  destruct (span_digits s') as [ds r] eqn:Es.
  destruct ds as [|d ds]; [done|].
  destruct (Z.ltb_spec (dec_value 0 (d :: ds)) (2 ^ 64)); [|done].
  intros [= <-]. pose proof (dec_value_nonneg 0 (d :: ds) ltac:(lia) (span_digits_Forall _ _ _ Es)).
  destruct neg; [apply to_u64_range|]. by split.
Qed.

Lemma safe_stoull_range s : u64_ok (safe_stoull s).
Proof.
  unfold safe_stoull. destruct s as [|c s]; [by split|].
  destruct (stoull (c :: s)) as [n|] eqn:E; simpl; [by eapply stoull_range|by split].
Qed.

Lemma safe_stoull_to_string n : u64_ok n → safe_stoull (to_string n) = n.
Proof.
  intros Hn. unfold safe_stoull. pose proof (stoull_to_string n [] Hn I) as H. rewrite app_nil_r in H.
  destruct (to_string n) eqn:E; [by apply to_string_not_nil in E|]. by rewrite H.
Qed.
