(* ===== verification/H2Framer.v ===== *)
(** * HTTP/2 framing

    Models [src/framework/http/h2/h2_framer.cpp] and the constants of
    [include/framework/http/h2/h2_types.hpp]: the 9-byte frame header, the
    frame builders, and [parse_frame], which the session calls on its read
    buffer.  The theorems show that what the builders write is read back
    exactly, that a truncated frame is never accepted, and that an accepted
    frame determines its bytes. *)

From S2P Require Import Prelude.

(** [FrameType] has underlying type [uint8_t], and [parse_frame] casts an
    arbitrary byte to it, so a frame type is a byte with named values. *)
Module FrameType.
Definition DATA : Z := 0.
Definition HEADERS : Z := 1.
Definition PRIORITY : Z := 2.
Definition RST_STREAM : Z := 3.
Definition SETTINGS : Z := 4.
Definition PUSH_PROMISE : Z := 5.
Definition PING : Z := 6.
Definition GOAWAY : Z := 7.
Definition WINDOW_UPDATE : Z := 8.
Definition CONTINUATION : Z := 9.
End FrameType.

Module Flag.
Definition END_STREAM : Z := 1.
Definition END_HEADERS : Z := 4.
Definition PADDED : Z := 8.
Definition PRIORITY : Z := 32.
Definition ACK : Z := 1.
End Flag.

Inductive ErrorCode :=
  | NO_ERROR | PROTOCOL_ERROR | INTERNAL_ERROR | FLOW_CONTROL_ERROR
  | SETTINGS_TIMEOUT | STREAM_CLOSED | FRAME_SIZE_ERROR | REFUSED_STREAM
  | CANCEL | COMPRESSION_ERROR | CONNECT_ERROR | ENHANCE_YOUR_CALM
  | INADEQUATE_SECURITY | HTTP_1_1_REQUIRED.

#[export] Instance ErrorCode_eq_dec : EqDecision ErrorCode.
Proof. solve_decision. Defined.

Definition error_value (c : ErrorCode) : Z :=
  match c with
  | NO_ERROR => 0 | PROTOCOL_ERROR => 1 | INTERNAL_ERROR => 2 | FLOW_CONTROL_ERROR => 3
  | SETTINGS_TIMEOUT => 4 | STREAM_CLOSED => 5 | FRAME_SIZE_ERROR => 6 | REFUSED_STREAM => 7
  | CANCEL => 8 | COMPRESSION_ERROR => 9 | CONNECT_ERROR => 10 | ENHANCE_YOUR_CALM => 11
  | INADEQUATE_SECURITY => 12 | HTTP_1_1_REQUIRED => 13
  end.

Module SettingsId.
Definition HEADER_TABLE_SIZE : Z := 1.
Definition ENABLE_PUSH : Z := 2.
Definition MAX_CONCURRENT_STREAMS : Z := 3.
Definition INITIAL_WINDOW_SIZE : Z := 4.
Definition MAX_FRAME_SIZE : Z := 5.
Definition MAX_HEADER_LIST_SIZE : Z := 6.
End SettingsId.

Definition kConnectionMagic : bytes :=
  s! "PRI * HTTP/2.0" ++ CRLF ++ CRLF ++ s! "SM" ++ CRLF ++ CRLF.
Definition kMagicSize : nat := 24.
Definition kFrameHeaderSize : nat := 9.
Definition kDefaultWindow : Z := 65535.
Definition kNoStreamId : Z := 0.
Definition kMaxConcurrentStreams : nat := 128.
Definition kMaxRequestBodyBytes : Z := 1024 * 1024.

Record Frame := mkFrame {
  f_type : Z;
  f_flags : Z;
  f_stream_id : Z;
  f_payload : bytes;
}.

#[export] Instance Frame_eq_dec : EqDecision Frame.
Proof. solve_decision. Defined.

(** ** Integer fields

    [s[off]] out of range reads 0 here; every call below is guarded by the
    size test in front of it. *)
Definition at_ (s : bytes) (i : nat) : Z := s !!! i.

Definition be24 (s : bytes) (off : nat) : Z :=
  Z.lor (Z.lor (at_ s off ≪ 16) (at_ s (off + 1) ≪ 8)) (at_ s (off + 2)).

Definition u24 (v : Z) : bytes :=
  [Z.land (v ≫ 16) 255; Z.land (v ≫ 8) 255; Z.land v 255].

Definition be31 (s : bytes) (off : nat) : Z :=
  Z.lor (Z.lor (Z.lor (Z.land (at_ s off) 127 ≪ 24) (at_ s (off + 1) ≪ 16))
    (at_ s (off + 2) ≪ 8)) (at_ s (off + 3)).

(** The four bytes of a 31-bit field, top bit cleared, and of a 32-bit one. *)
Definition u31 (v : Z) : bytes :=
  [Z.land (v ≫ 24) 127; Z.land (v ≫ 16) 255; Z.land (v ≫ 8) 255; Z.land v 255].
Definition u32 (v : Z) : bytes :=
  [Z.land (v ≫ 24) 255; Z.land (v ≫ 16) 255; Z.land (v ≫ 8) 255; Z.land v 255].

(** ** Reading *)

Definition frame_length (raw : bytes) : Z :=
  if (length raw <? kFrameHeaderSize)%nat then 0 else be24 raw 0.

Definition parse_frame (raw : bytes) : option Frame :=
  if (length raw <? kFrameHeaderSize)%nat then None else
  let len := Z.to_nat (be24 raw 0) in
  if (length raw <? kFrameHeaderSize + len)%nat then None else
  Some (mkFrame (at_ raw 3) (at_ raw 4) (be31 raw 5) (slice raw kFrameHeaderSize len)).

(** ** Writing *)

Definition serialize_frame (type flags stream_id : Z) (payload : bytes) : bytes :=
  u24 (to_u32 (Z.of_nat (length payload))) ++ [to_u8 type; to_u8 flags]
    ++ u31 stream_id ++ payload.

Definition settings_entry (id v : Z) : bytes :=
  [Z.land (id ≫ 8) 255; Z.land id 255] ++ u32 v.

Definition build_settings_frame : bytes :=
  serialize_frame FrameType.SETTINGS 0 kNoStreamId
    (settings_entry SettingsId.MAX_CONCURRENT_STREAMS 128 ++
     settings_entry SettingsId.INITIAL_WINDOW_SIZE 65535).

Definition build_settings_ack : bytes :=
  serialize_frame FrameType.SETTINGS Flag.ACK kNoStreamId [].

(** [p.resize(8, '\0')]: pads or truncates to eight bytes. *)
Definition build_ping_ack (opaque8 : bytes) : bytes :=
  serialize_frame FrameType.PING Flag.ACK kNoStreamId (resize 8 0 opaque8).

Definition build_data (stream_id : Z) (body : bytes) (end_stream : bool) : bytes :=
  serialize_frame FrameType.DATA (if end_stream then Flag.END_STREAM else 0) stream_id body.

Definition build_headers (stream_id : Z) (block : bytes) (end_stream : bool) : bytes :=
  serialize_frame FrameType.HEADERS
    (Z.lor Flag.END_HEADERS (if end_stream then Flag.END_STREAM else 0)) stream_id block.

Definition build_headers_200 (stream_id : Z) (end_stream : bool) : bytes :=
  build_headers stream_id [136] end_stream.

Definition build_goaway (last_stream : Z) (code : ErrorCode) : bytes :=
  serialize_frame FrameType.GOAWAY 0 kNoStreamId (u31 last_stream ++ u32 (error_value code)).

Definition build_rst_stream (stream_id : Z) (code : ErrorCode) : bytes :=
  serialize_frame FrameType.RST_STREAM 0 stream_id (u32 (error_value code)).

Definition build_window_update (stream_id increment : Z) : bytes :=
  serialize_frame FrameType.WINDOW_UPDATE 0 stream_id (u31 increment).

(** ** The fields as big-endian integers *)

Lemma land_byte v : Z.land v 255 = to_u8 v.
Proof. change 255 with (Z.ones 8). by rewrite Z.land_ones. Qed.

Lemma u24_be_put v : u24 v = be_put 3 v.
Proof. unfold u24. cbn [be_put]. by rewrite !land_byte, Z.shiftr_0_r. Qed.

Lemma u32_be_put v : u32 v = be_put 4 v.
Proof. unfold u32. cbn [be_put]. by rewrite !land_byte, Z.shiftr_0_r. Qed.

Lemma u31_be_put v : u31 v = be_put 4 (v mod 2 ^ 31).
Proof.
  assert (∀ k, 0 ≤ k ≤ 16 → to_u8 (v ≫ k) = to_u8 ((v mod 2 ^ 31) ≫ k)) as Hlow.
  { intros k Hk. unfold to_u8. apply Z.bits_inj'. intros i Hi.
    destruct (decide (i < 8)); [|by rewrite !Z.mod_pow2_bits_high by lia].
    rewrite !Z.mod_pow2_bits_low, !Z.shiftr_spec by lia.
    by rewrite Z.mod_pow2_bits_low by lia. }
  unfold u31. cbn [be_put]. rewrite !land_byte, Z.shiftr_0_r.
  f_equal; [|f_equal; [by apply Hlow|f_equal; [by apply Hlow|f_equal]]].
  - change 127 with (Z.ones 7). rewrite Z.land_ones by lia. unfold to_u8.
    apply Z.bits_inj'. intros i Hi.
    destruct (decide (i < 8)); [|by rewrite !Z.mod_pow2_bits_high by lia].
    rewrite (Z.mod_pow2_bits_low _ 8), Z.shiftr_spec by lia.
    destruct (decide (i < 7)).
    + rewrite !Z.mod_pow2_bits_low, Z.shiftr_spec by lia. f_equal.
    + rewrite !Z.mod_pow2_bits_high by lia. done.
  - pose proof (Hlow 0) as H0. rewrite !Z.shiftr_0_r in H0. apply H0. lia.
Qed.

Lemma be24_be_get b0 b1 b2 s :
  be24 (b0 :: b1 :: b2 :: s) 0 = be_get [b0; b1; b2].
Proof.
  unfold be24, be_get, at_. cbn. rewrite Z.shiftl_0_l.
  rewrite Z.lor_0_l, !Z.shiftl_lor, Z.shiftl_shiftl by lia. done.
Qed.

Lemma be31_be_get p b0 b1 b2 b3 s :
  length p = 5%nat →
  be31 (p ++ b0 :: b1 :: b2 :: b3 :: s) 5 = be_get [Z.land b0 127; b1; b2; b3].
Proof.
  intros Hp. destruct p as [|? [|? [|? [|? [|? [|]]]]]]; try discriminate.
  unfold be31, be_get, at_. cbn. rewrite Z.shiftl_0_l.
  rewrite Z.lor_0_l, !Z.shiftl_lor, !Z.shiftl_shiftl by lia. done.
Qed.

Lemma length_u24 v : length (u24 v) = 3%nat. Proof. done. Qed.
Lemma length_u31 v : length (u31 v) = 4%nat. Proof. done. Qed.

Lemma length_serialize_frame t fl sid p :
  length (serialize_frame t fl sid p) = (kFrameHeaderSize + length p)%nat.
Proof. done. Qed.

(** Every frame the builders make is a byte string. *)
Lemma serialize_frame_ok t fl sid p :
  bytes_ok p → bytes_ok (serialize_frame t fl sid p).
Proof.
  intros Hp. unfold serialize_frame. rewrite u24_be_put, u31_be_put.
  rewrite !Forall_app. repeat split; auto using be_put_ok.
  repeat constructor; apply to_u8_range.
Qed.

Lemma u24_length_roundtrip (p rest : bytes) :
  Z.of_nat (length p) < 2 ^ 24 →
  be24 (u24 (to_u32 (Z.of_nat (length p))) ++ rest) 0 = Z.of_nat (length p).
Proof.
  intros Hl. rewrite u24_be_put.
  rewrite to_u32_id by (unfold u32_ok; lia).
  pose proof (be_get_put_id 3 (Z.of_nat (length p)) ltac:(cbn; lia)) as Hg.
  cbn [be_put] in *. simpl app. by rewrite be24_be_get.
Qed.

Lemma be31_u31 p sid rest :
  length p = 5%nat → 0 ≤ sid < 2 ^ 31 → be31 (p ++ u31 sid ++ rest) 5 = sid.
Proof.
  intros Hp Hs. pose proof (u31_be_put sid) as Hu.
  rewrite Z.mod_small in Hu by done.
  unfold u31 in *. simpl app. rewrite be31_be_get by done.
  pose proof (be_get_put_id 4 sid ltac:(cbn; lia)) as Hg. rewrite <-Hu in Hg.
  rewrite <-Hg at 5. f_equal. f_equal.
  by rewrite <-Z.land_assoc.
Qed.

(** ** Properties *)

(** The reader accepts exactly the bytes the writer produced, and leaves the
    bytes that follow untouched. *)
Lemma parse_serialize_app t fl sid p rest :
  byte_ok t → byte_ok fl → 0 ≤ sid < 2 ^ 31 → Z.of_nat (length p) < 2 ^ 24 →
  parse_frame (serialize_frame t fl sid p ++ rest) = Some (mkFrame t fl sid p).
Proof.
  intros Ht Hf Hs Hp. unfold parse_frame.
  assert (be24 (serialize_frame t fl sid p ++ rest) 0 = Z.of_nat (length p)) as Hlen.
  { unfold serialize_frame. rewrite <-!app_assoc. by apply u24_length_roundtrip. }
  rewrite Hlen, Nat2Z.id, length_app, length_serialize_frame.
  rewrite (proj2 (Nat.ltb_ge _ _)) by lia.
  rewrite (proj2 (Nat.ltb_ge _ _)) by lia.
  f_equal. f_equal.
  - unfold at_, serialize_frame. cbn. by apply to_u8_id.
  - unfold at_, serialize_frame. cbn. by apply to_u8_id.
  - pose proof (be31_u31 (u24 (to_u32 (Z.of_nat (length p))) ++ [to_u8 t; to_u8 fl])
      sid (p ++ rest) eq_refl Hs) as H31.
    rewrite <-H31 at 2. unfold serialize_frame. by rewrite <-!app_assoc.
  - unfold slice. unfold serialize_frame. cbn. apply take_app_length.
Qed.

(** A strict prefix of a frame is never taken for a frame. *)
Lemma parse_frame_prefix t fl sid p k :
  Z.of_nat (length p) < 2 ^ 24 →
  (k < kFrameHeaderSize + length p)%nat →
  parse_frame (take k (serialize_frame t fl sid p)) = None.
Proof.
  intros Hp Hk. unfold parse_frame.
  rewrite length_take, length_serialize_frame.
  destruct (Nat.ltb_spec (k `min` (kFrameHeaderSize + length p)) kFrameHeaderSize) as [|Hh]; [done|].
  assert (be24 (take k (serialize_frame t fl sid p)) 0 = Z.of_nat (length p)) as ->.
  { unfold serialize_frame.
    rewrite take_app_ge by (rewrite length_u24; unfold kFrameHeaderSize in *; lia).
    by apply u24_length_roundtrip. }
  rewrite Nat2Z.id, (proj2 (Nat.ltb_lt _ _)) by lia. done.
Qed.

(** The frame codec round trip: whatever frame the builders write (a type
    and flags byte, a 31-bit stream id, a payload below [2^24] bytes),
    [parse_frame] reads it back field by field whatever bytes follow it on the
    connection, [frame_length] announces its payload length, and no strict
    prefix of it parses, so the reader consumes exactly the frame. *)
Theorem frame_roundtrip (t fl sid : Z) (p rest : bytes)
  (Ht : byte_ok t) (Hf : byte_ok fl) (Hs : 0 ≤ sid < 2 ^ 31)
  (Hp : Z.of_nat (length p) < 2 ^ 24) :
  parse_frame (serialize_frame t fl sid p ++ rest) = Some (mkFrame t fl sid p) ∧
  frame_length (serialize_frame t fl sid p ++ rest) = Z.of_nat (length p) ∧
  ∀ k, (k < kFrameHeaderSize + length p)%nat →
       parse_frame (take k (serialize_frame t fl sid p)) = None.
Proof.
  split_and!.
  - by apply parse_serialize_app.
  - unfold frame_length. rewrite length_app, length_serialize_frame.
    rewrite (proj2 (Nat.ltb_ge _ _)) by lia.
    unfold serialize_frame. rewrite <-!app_assoc. by apply u24_length_roundtrip.
  - intros k. by apply parse_frame_prefix.
Qed.

Lemma frame_roundtrip_witness :
  parse_frame (serialize_frame FrameType.DATA Flag.END_STREAM 5 (s! "hello") ++ s! "rest")
    = Some (mkFrame FrameType.DATA Flag.END_STREAM 5 (s! "hello")).
Proof.
  apply (frame_roundtrip FrameType.DATA Flag.END_STREAM 5 (s! "hello") (s! "rest"));
    vm_compute; done || split; discriminate || done.
Defined.

Lemma parse_frame_cases raw f :
  parse_frame raw = Some f →
  ∃ b0 b1 b2 b3 b4 b5 b6 b7 b8 tl,
    raw = b0 :: b1 :: b2 :: b3 :: b4 :: b5 :: b6 :: b7 :: b8 :: tl ∧
    f = mkFrame b3 b4 (be_get [Z.land b5 127; b6; b7; b8]) (take (Z.to_nat (be_get [b0; b1; b2])) tl) ∧
    (Z.to_nat (be_get [b0; b1; b2]) ≤ length tl)%nat.
Proof.
  unfold parse_frame.
  destruct raw as [|b0 [|b1 [|b2 [|b3 [|b4 [|b5 [|b6 [|b7 [|b8 tl]]]]]]]]]; try done.
  rewrite be24_be_get. cbn [length]. intros H. guards H. simplify_eq.
  unfold kFrameHeaderSize in *.
  pose proof (be31_be_get [b0; b1; b2; b3; b4] b5 b6 b7 b8 tl eq_refl) as H31.
  simpl in H31. rewrite H31. do 10 eexists. split; [done|]. split; [done|]. lia.
Qed.

(** An accepted frame determines its bytes: when [parse_frame] accepts the
    head of a byte string whose reserved stream-id bit is clear, writing the
    parsed fields back gives exactly the bytes it consumed. *)
Theorem frame_parse_serialize (raw : bytes) (f : Frame)
  (Hok : bytes_ok raw) (Hparse : parse_frame raw = Some f) (Hres : at_ raw 5 < 128) :
  serialize_frame (f_type f) (f_flags f) (f_stream_id f) (f_payload f) =
    take (kFrameHeaderSize + length (f_payload f)) raw.
Proof.
  apply parse_frame_cases in Hparse
    as (b0 & b1 & b2 & b3 & b4 & b5 & b6 & b7 & b8 & tl & -> & -> & Hlen).
  unfold at_ in Hres. cbn in Hres. rewrite !Forall_cons_iff in Hok. destruct_and! Hok.
  assert (Z.land b5 127 = b5) as Hb5.
  { change 127 with (Z.ones 7). rewrite Z.land_ones by lia.
    apply Z.mod_small. unfold byte_ok in *. lia. }
  pose proof (be_get_range [b0; b1; b2] ltac:(solve_bytes)) as H24.
  pose proof (be_get_range [b5; b6; b7; b8] ltac:(solve_bytes)) as H32.
  cbn [f_type f_flags f_stream_id f_payload length] in *. rewrite Hb5 in *.
  change (256 ^ Z.of_nat 3) with (2 ^ 24) in *.
  rewrite length_take, Nat.min_l by lia.
  unfold serialize_frame. rewrite length_take, Nat.min_l by lia.
  rewrite u24_be_put, u31_be_put, !to_u8_id by done.
  rewrite Z2Nat.id by lia. rewrite to_u32_id by (unfold u32_ok; lia).
  rewrite Z.mod_small.
  2:{ rewrite be_get_cons in * by (solve_bytes).
      pose proof (be_get_range [b6; b7; b8] ltac:(solve_bytes)) as Hr3.
      cbn [length] in *. change (256 ^ Z.of_nat 3) with (2 ^ 24) in *.
      unfold byte_ok in *. lia. }
  pose proof (be_put_get [b0; b1; b2] ltac:(solve_bytes)) as P3.
  pose proof (be_put_get [b5; b6; b7; b8] ltac:(solve_bytes)) as P4.
  cbn [length] in P3, P4. rewrite P3, P4. done.
Qed.

Lemma frame_parse_serialize_witness :
  serialize_frame 8 0 3 [0; 0; 1; 0] = take 13 (build_window_update 3 256 ++ s! "x").
Proof.
  apply (frame_parse_serialize (build_window_update 3 256 ++ s! "x") (mkFrame 8 0 3 [0; 0; 1; 0])).
  - apply (bool_decide_eq_true_1 (bytes_ok _)). vm_compute. done.
  - vm_compute. done.
  - vm_compute. done.
Defined.
