(* ===== verification/H2Huffman.v ===== *)
(** * HPACK Huffman decoding

    Models [huffman_decode] of [src/framework/http/h2/h2_hpack.cpp] over the
    code table of [include/framework/http/h2/h2_huffman_table.h].  The
    reference is the RFC 7541 encoder (concatenate the codes, pad the last
    byte with ones); the decoder accepts exactly its outputs and inverts it. *)

From S2P Require Import Prelude.

(** ** The code table: [(bits, length, symbol)], in the order of the header *)

Definition kHuffman : list (Z * Z * Z) := [
  (0, 5, 48); (1, 5, 49); (2, 5, 50); (3, 5, 97); (4, 5, 99); (5, 5, 101); (6, 5, 105);
  (7, 5, 111); (8, 5, 115); (9, 5, 116); (20, 6, 32); (21, 6, 37); (22, 6, 45);
  (23, 6, 46); (24, 6, 47); (25, 6, 51); (26, 6, 52); (27, 6, 53); (28, 6, 54);
  (29, 6, 55); (30, 6, 56); (31, 6, 57); (32, 6, 61); (33, 6, 65); (34, 6, 95);
  (35, 6, 98); (36, 6, 100); (37, 6, 102); (38, 6, 103); (39, 6, 104); (40, 6, 108);
  (41, 6, 109); (42, 6, 110); (43, 6, 112); (44, 6, 114); (45, 6, 117); (92, 7, 58);
  (93, 7, 66); (94, 7, 67); (95, 7, 68); (96, 7, 69); (97, 7, 70); (98, 7, 71);
  (99, 7, 72); (100, 7, 73); (101, 7, 74); (102, 7, 75); (103, 7, 76); (104, 7, 77);
  (105, 7, 78); (106, 7, 79); (107, 7, 80); (108, 7, 81); (109, 7, 82); (110, 7, 83);
  (111, 7, 84); (112, 7, 85); (113, 7, 86); (114, 7, 87); (115, 7, 89); (116, 7, 106);
  (117, 7, 107); (118, 7, 113); (119, 7, 118); (120, 7, 119); (121, 7, 120); (122, 7, 121);
  (123, 7, 122); (248, 8, 38); (249, 8, 42); (250, 8, 44); (251, 8, 59); (252, 8, 88);
  (253, 8, 90); (1016, 10, 33); (1017, 10, 34); (1018, 10, 40); (1019, 10, 41);
  (1020, 10, 63); (2042, 11, 39); (2043, 11, 43); (2044, 11, 124); (4090, 12, 35);
  (4091, 12, 62); (8184, 13, 0); (8185, 13, 36); (8186, 13, 64); (8187, 13, 91);
  (8188, 13, 93); (8189, 13, 126); (16380, 14, 94); (16381, 14, 125); (32764, 15, 60);
  (32765, 15, 96); (32766, 15, 123); (524272, 19, 92); (524273, 19, 195);
  (524274, 19, 208); (1048550, 20, 128); (1048551, 20, 130); (1048552, 20, 131);
  (1048553, 20, 162); (1048554, 20, 184); (1048555, 20, 194); (1048556, 20, 224);
  (1048557, 20, 226); (2097116, 21, 153); (2097117, 21, 161); (2097118, 21, 167);
  (2097119, 21, 172); (2097120, 21, 176); (2097121, 21, 177); (2097122, 21, 179);
  (2097123, 21, 209); (2097124, 21, 216); (2097125, 21, 217); (2097126, 21, 227);
  (2097127, 21, 229); (2097128, 21, 230); (4194258, 22, 129); (4194259, 22, 132);
  (4194260, 22, 133); (4194261, 22, 134); (4194262, 22, 136); (4194263, 22, 146);
  (4194264, 22, 154); (4194265, 22, 156); (4194266, 22, 160); (4194267, 22, 163);
  (4194268, 22, 164); (4194269, 22, 169); (4194270, 22, 170); (4194271, 22, 173);
  (4194272, 22, 178); (4194273, 22, 181); (4194274, 22, 185); (4194275, 22, 186);
  (4194276, 22, 187); (4194277, 22, 189); (4194278, 22, 190); (4194279, 22, 196);
  (4194280, 22, 198); (4194281, 22, 228); (4194282, 22, 232); (4194283, 22, 233);
  (8388568, 23, 1); (8388569, 23, 135); (8388570, 23, 137); (8388571, 23, 138);
  (8388572, 23, 139); (8388573, 23, 140); (8388574, 23, 141); (8388575, 23, 143);
  (8388576, 23, 147); (8388577, 23, 149); (8388578, 23, 150); (8388579, 23, 151);
  (8388580, 23, 152); (8388581, 23, 155); (8388582, 23, 157); (8388583, 23, 158);
  (8388584, 23, 165); (8388585, 23, 166); (8388586, 23, 168); (8388587, 23, 174);
  (8388588, 23, 175); (8388589, 23, 180); (8388590, 23, 182); (8388591, 23, 183);
  (8388592, 23, 188); (8388593, 23, 191); (8388594, 23, 197); (8388595, 23, 231);
  (8388596, 23, 239); (16777194, 24, 9); (16777195, 24, 142); (16777196, 24, 144);
  (16777197, 24, 145); (16777198, 24, 148); (16777199, 24, 159); (16777200, 24, 171);
  (16777201, 24, 206); (16777202, 24, 215); (16777203, 24, 225); (16777204, 24, 236);
  (16777205, 24, 237); (33554412, 25, 199); (33554413, 25, 207); (33554414, 25, 234);
  (33554415, 25, 235); (67108832, 26, 192); (67108833, 26, 193); (67108834, 26, 200);
  (67108835, 26, 201); (67108836, 26, 202); (67108837, 26, 205); (67108838, 26, 210);
  (67108839, 26, 213); (67108840, 26, 218); (67108841, 26, 219); (67108842, 26, 238);
  (67108843, 26, 240); (67108844, 26, 242); (67108845, 26, 243); (67108846, 26, 255);
  (134217694, 27, 203); (134217695, 27, 204); (134217696, 27, 211); (134217697, 27, 212);
  (134217698, 27, 214); (134217699, 27, 221); (134217700, 27, 222); (134217701, 27, 223);
  (134217702, 27, 241); (134217703, 27, 244); (134217704, 27, 245); (134217705, 27, 246);
  (134217706, 27, 247); (134217707, 27, 248); (134217708, 27, 250); (134217709, 27, 251);
  (134217710, 27, 252); (134217711, 27, 253); (134217712, 27, 254); (268435426, 28, 2);
  (268435427, 28, 3); (268435428, 28, 4); (268435429, 28, 5); (268435430, 28, 6);
  (268435431, 28, 7); (268435432, 28, 8); (268435433, 28, 11); (268435434, 28, 12);
  (268435435, 28, 14); (268435436, 28, 15); (268435437, 28, 16); (268435438, 28, 17);
  (268435439, 28, 18); (268435440, 28, 19); (268435441, 28, 20); (268435442, 28, 21);
  (268435443, 28, 23); (268435444, 28, 24); (268435445, 28, 25); (268435446, 28, 26);
  (268435447, 28, 27); (268435448, 28, 28); (268435449, 28, 29); (268435450, 28, 30);
  (268435451, 28, 31); (268435452, 28, 127); (268435453, 28, 220); (268435454, 28, 249);
  (1073741820, 30, 10); (1073741821, 30, 13); (1073741822, 30, 22)
].

(** [by_len[nbits]], scanned in table order for a code equal to [value]. *)
Definition code_match (nbits value : Z) : option Z :=
  snd <$> List.find (λ e, (e.1.2 =? nbits) && (e.1.1 =? value)) kHuffman.

(** ** The decoder *)

Definition bit_of (c : Z) (i : Z) : Z := Z.land (c ≫ i) 1.

(** One bit of input: the loop body over [value], [nbits] and [out].  The
    symbol column is a [uint8_t], so the source's [sym == 256] test never
    fires and the symbol is pushed as it is. *)
Definition huff_step (bit : Z) (st : Z * Z * bytes) : option (Z * Z * bytes) :=
  let '(value, nbits, out) := st in
  let value := to_u32 (Z.lor (value ≪ 1) bit) in
  let nbits := nbits + 1 in
  if nbits >? 30 then None else
  match code_match nbits value with
  | Some sym => Some (0, 0, out ++ [sym])
  | None => Some (value, nbits, out)
  end.

Fixpoint huff_run (bits : list Z) (st : Z * Z * bytes) : option (Z * Z * bytes) :=
  match bits with
  | [] => Some st
  | b :: bits => match huff_step b st with Some st => huff_run bits st | None => None end
  end.

(** The bits of a byte, most significant first. *)
Definition byte_bits (c : Z) : list Z :=
  [bit_of c 7; bit_of c 6; bit_of c 5; bit_of c 4; bit_of c 3; bit_of c 2; bit_of c 1; bit_of c 0].

Definition huffman_decode (inp : bytes) : option bytes :=
  match huff_run (mbind byte_bits inp) (0, 0, []) with
  | None => None
  | Some (value, nbits, out) =>
      if nbits >? 7 then None else
      if nbits >? 0 then if value =? 1 ≪ nbits - 1 then Some out else None
      else Some out
  end.

(** ** The reference encoder (RFC 7541, section 5.2) *)

Definition code_of (sym : Z) : Z * Z :=
  match List.find (λ e, e.2 =? sym) kHuffman with Some e => e.1 | None => (0, 0) end.

(** The [n] low bits of [v], most significant first. *)
Fixpoint bits_of (n : nat) (v : Z) : list Z :=
  match n with O => [] | S k => bit_of v (Z.of_nat k) :: bits_of k v end.

Definition sym_bits (sym : Z) : list Z :=
  let '(v, n) := code_of sym in bits_of (Z.to_nat n) v.

Definition pad_bits (n : nat) : list Z := replicate ((8 - n `mod` 8) `mod` 8)%nat 1.

Definition val8 (b7 b6 b5 b4 b3 b2 b1 b0 : Z) : Z :=
  b7 * 128 + b6 * 64 + b5 * 32 + b4 * 16 + b3 * 8 + b2 * 4 + b1 * 2 + b0.

Fixpoint pack (bs : list Z) : bytes :=
  match bs with
  | b7 :: b6 :: b5 :: b4 :: b3 :: b2 :: b1 :: b0 :: r => val8 b7 b6 b5 b4 b3 b2 b1 b0 :: pack r
  | _ => []
  end.

Definition huffman_encode (s : bytes) : bytes :=
  let bs := mbind sym_bits s in pack (bs ++ pad_bits (length bs)).

(** ** Bits and bytes *)

Abbreviation bits_ok := (Forall (λ b, b = 0 ∨ b = 1)).

Lemma bit_of_01 c i : bit_of c i = 0 ∨ bit_of c i = 1.
Proof.
  unfold bit_of. pose proof (Z.land_ones (c ≫ i) 1) as E.
  change (Z.ones 1) with 1 in E. rewrite E by lia.
  pose proof (Z.mod_pos_bound (c ≫ i) (2 ^ 1)). lia.
Qed.

Lemma bits_of_ok n v : bits_ok (bits_of n v).
Proof. induction n; simpl; constructor; auto using bit_of_01. Qed.

Lemma byte_bits_bits_of c : byte_bits c = bits_of 8 c.
Proof. done. Qed.

Lemma byte_bits_val8 b7 b6 b5 b4 b3 b2 b1 b0 :
  bits_ok [b7; b6; b5; b4; b3; b2; b1; b0] →
  byte_bits (val8 b7 b6 b5 b4 b3 b2 b1 b0) = [b7; b6; b5; b4; b3; b2; b1; b0] ∧
  byte_ok (val8 b7 b6 b5 b4 b3 b2 b1 b0).
Proof.
  rewrite !Forall_cons_iff. intros H. destruct_and! H.
  split; [|unfold byte_ok, val8; lia].
  repeat match goal with H : _ ∨ _ |- _ => destruct H as [->| ->] end; reflexivity.
Qed.

(** A decidable property of every byte value is checked by running it on all of them. *)
Lemma byte_forall (P : Z → Prop) `{!∀ b, Decision (P b)} :
  forallb (λ n, bool_decide (P (Z.of_nat n))) (seq 0 256) = true →
  ∀ b, byte_ok b → P b.
Proof.
  intros Hall b Hb. rewrite forallb_forall in Hall.
  specialize (Hall (Z.to_nat b)). rewrite in_seq in Hall.
  unfold byte_ok in Hb. rewrite Z2Nat.id in Hall by lia.
  apply (bool_decide_eq_true_1 _), Hall. lia.
Qed.

Lemma pack_byte_bits b : byte_ok b → pack (byte_bits b) = [b].
Proof. revert b. apply (byte_forall (λ b, pack (byte_bits b) = [b])). vm_compute. done. Qed.

Lemma pack_app8 l r : length l = 8%nat → pack (l ++ r) = pack l ++ pack r.
Proof. intros H. do 8 (destruct l as [|? l]; [done|]). destruct l; done. Qed.

Lemma pack_unpack l : bytes_ok l → pack (mbind byte_bits l) = l.
Proof.
  induction 1 as [|b l Hb _ IH]; [done|].
  rewrite bind_cons, pack_app8, pack_byte_bits, IH by done. done.
Qed.

Lemma unpack_pack k bs :
  bits_ok bs → length bs = (8 * k)%nat →
  mbind byte_bits (pack bs) = bs ∧ bytes_ok (pack bs).
Proof.
  revert bs. induction k as [|k IH]; intros bs Hbs Hlen.
  { destruct bs; [by split|done]. }
  do 8 (destruct bs as [|? bs]; [simpl in Hlen; lia|]). cbn [pack].
  rewrite !Forall_cons_iff in Hbs. destruct_and! Hbs.
  match goal with
  | |- context [val8 ?a ?b ?c ?d ?e ?f ?g ?h :: _] =>
      destruct (byte_bits_val8 a b c d e f g h) as [Hb Hok]; [solve_bytes|]
  end.
  destruct (IH bs) as [IH1 IH2]; [done|simpl in Hlen; lia|].
  rewrite bind_cons, Hb, IH1. split; [done|]. by constructor.
Qed.

(** The value of a bit string, most significant bit first. *)
Definition bval (r : list Z) : Z := foldl (λ v b, v * 2 + b) 0 r.

Lemma bval_snoc r b : bval (r ++ [b]) = bval r * 2 + b.
Proof. unfold bval. by rewrite foldl_app. Qed.

Lemma bval_range r : bits_ok r → 0 ≤ bval r < 2 ^ Z.of_nat (length r).
Proof.
  induction r as [|b r IH] using rev_ind; intros Hr; [cbn; lia|].
  apply Forall_app in Hr as [Hr Hb]. inversion Hb; subst.
  rewrite bval_snoc, length_app. cbn [length].
  rewrite Nat2Z.inj_add, Z.pow_add_r by lia. change (2 ^ Z.of_nat 1) with 2.
  specialize (IH Hr). lia.
Qed.

Lemma bit_of_div v k : 0 ≤ k → bit_of v k = (v / 2 ^ k) mod 2.
Proof.
  intros Hk. unfold bit_of. pose proof (Z.land_ones (v ≫ k) 1) as E.
  change (Z.ones 1) with 1 in E. rewrite E, Z.shiftr_div_pow2 by lia. done.
Qed.

Lemma bits_of_snoc n v b : (b = 0 ∨ b = 1) → bits_of (S n) (v * 2 + b) = bits_of n v ++ [b].
Proof.
  intros Hb. induction n as [|n IH].
  - cbn [bits_of app]. f_equal. rewrite bit_of_div by lia. cbn [Z.of_nat].
    rewrite Z.pow_0_r, Z.div_1_r, Z.add_comm, Z.mod_add by lia.
    apply Z.mod_small. lia.
  - change (bits_of (S (S n)) (v * 2 + b))
      with (bit_of (v * 2 + b) (Z.of_nat (S n)) :: bits_of (S n) (v * 2 + b)).
    rewrite IH. cbn [bits_of app]. f_equal.
    rewrite !bit_of_div, Nat2Z.inj_succ, Z.pow_succ_r by lia.
    rewrite <-Z.div_div, (Z.div_add_l v 2 b) by lia.
    rewrite (Z.div_small b) by lia. by rewrite Z.add_0_r.
Qed.

Lemma bits_of_bval r : bits_ok r → bits_of (length r) (bval r) = r.
Proof.
  induction r as [|b r IH] using rev_ind; intros Hr; [done|].
  apply Forall_app in Hr as [Hr Hb]. inversion Hb; subst.
  rewrite bval_snoc, length_app, Nat.add_comm. cbn [length Nat.add].
  rewrite bits_of_snoc, IH by done. done.
Qed.

(** ** Runs of the decoder *)

Lemma huff_run_app b1 b2 st :
  huff_run (b1 ++ b2) st = huff_run b1 st ≫= huff_run b2.
Proof.
  revert st. induction b1 as [|b b1 IH]; intros st; simpl; [done|].
  destruct (huff_step b st); [apply IH|done].
Qed.

Definition prepend (out : bytes) (st : Z * Z * bytes) : Z * Z * bytes :=
  (st.1.1, st.1.2, out ++ st.2).

Lemma huff_run_out bits v n out :
  huff_run bits (v, n, out) = prepend out <$> huff_run bits (v, n, []).
Proof.
  revert v n out. induction bits as [|b bits IH]; intros v n out; simpl.
  { unfold prepend. simpl. by rewrite app_nil_r. }
  unfold huff_step. destruct (n + 1 >? 30); [done|]. destruct (code_match _ _) as [sym|].
  - rewrite (IH _ _ (out ++ [sym])), (IH _ _ ([] ++ [sym])).
    destruct (huff_run bits (0, 0, [])); simpl; [|done].
    unfold prepend. simpl. by rewrite <-app_assoc.
  - apply IH.
Qed.

(** The table is a prefix code: fed with the code of a symbol, a fresh decoder
    emits that symbol at the last bit and not before. *)
Lemma sym_run sym : byte_ok sym → huff_run (sym_bits sym) (0, 0, []) = Some (0, 0, [sym]).
Proof.
  revert sym. apply (byte_forall (λ sym, huff_run (sym_bits sym) (0, 0, []) = Some (0, 0, [sym]))).
  vm_compute. done.
Qed.

Lemma syms_run s : bytes_ok s → huff_run (mbind sym_bits s) (0, 0, []) = Some (0, 0, s).
Proof.
  induction 1 as [|c s Hc _ IH]; [done|].
  rewrite bind_cons, huff_run_app, sym_run by done. simpl.
  rewrite huff_run_out, IH. done.
Qed.

(** At most seven one bits are a proper prefix of every code they could start. *)
Lemma pad_run k :
  (k ≤ 7)%nat → huff_run (replicate k 1) (0, 0, []) = Some (2 ^ Z.of_nat k - 1, Z.of_nat k, []).
Proof. intros Hk. do 8 (destruct k as [|k]; [vm_compute; done|]). lia. Qed.

(** Every row of the table is the code of its symbol. *)
Lemma code_match_code n v sym :
  code_match n v = Some sym → code_of sym = (v, n) ∧ byte_ok sym.
Proof.
  unfold code_match. intros (e & He & ->)%fmap_Some.
  apply find_some in He as [Hin Hmatch]. bool_prop. subst.
  assert (forallb (λ e, bool_decide (code_of e.2 = e.1 ∧ byte_ok e.2)) kHuffman = true) as Hall
    by (vm_compute; done).
  rewrite forallb_forall in Hall. specialize (Hall _ Hin).
  apply bool_decide_eq_true in Hall as [-> Hb]. by destruct e as [[? ?] ?].
Qed.

Lemma huff_run_inv bits v n out :
  bits_ok bits → huff_run bits (0, 0, []) = Some (v, n, out) →
  ∃ r, bits = mbind sym_bits out ++ r ∧ v = bval r ∧ n = Z.of_nat (length r) ∧
       n ≤ 30 ∧ bytes_ok out ∧ bits_ok r.
Proof.
  revert v n out. induction bits as [|b bits IH] using rev_ind; intros v n out Hok.
  { intros [= <- <- <-]. exists []. split_and!; done || constructor. }
  apply Forall_app in Hok as [Hok Hb]. inversion Hb as [|? ? Hb01 _]; subst.
  rewrite huff_run_app. intros ([[v0 n0] out0] & Hrun & Hstep)%bind_Some.
  destruct (IH _ _ _ Hok Hrun) as (r & -> & -> & -> & Hn & Hout & Hr).
  simpl in Hstep.
  assert (to_u32 (Z.lor (bval r ≪ 1) b) = bval (r ++ [b])) as Hval.
  { rewrite bval_snoc. replace (Z.lor (bval r ≪ 1) b) with (bval r * 2 + b).
    - apply to_u32_id. pose proof (bval_range r Hr).
      pose proof (Z.pow_le_mono_r 2 (Z.of_nat (length r)) 30 ltac:(lia) ltac:(lia)).
      unfold u32_ok. lia.
    - rewrite Z.shiftl_mul_pow2 by lia. change (2 ^ 1) with 2.
      destruct Hb01 as [-> | ->]; [by rewrite Z.lor_0_r, Z.add_0_r|].
      rewrite (Z.mul_comm (bval r)). symmetry. apply Z.bits_inj'. intros i Hi.
      rewrite Z.lor_spec. destruct (decide (i = 0)) as [->|].
      + rewrite Z.testbit_odd_0, Z.testbit_even_0. done.
      + replace i with (Z.succ (i - 1)) by lia.
        rewrite Z.testbit_odd_succ, Z.testbit_even_succ by lia.
        rewrite (Z.bits_above_log2 1) by (try (cbn; lia); lia). by rewrite orb_false_r. }
  assert (bits_ok (r ++ [b])) as Hrb by (by apply Forall_app).
  unfold huff_step in Hstep. rewrite Hval in Hstep.
  destruct (Z.of_nat (length r) + 1 >? 30) eqn:Hgt; [done|]. bool_prop.
  destruct (code_match _ _) as [sym|] eqn:Hm; simplify_eq.
  - apply code_match_code in Hm as [Hcode Hsym]. exists [].
    split; [|split_and!; [done|done|lia|by apply Forall_app; auto using List.Forall_cons|constructor]].
    rewrite app_nil_r, bind_app, <-app_assoc. f_equal. cbn [mbind list_bind].
    rewrite app_nil_r. unfold sym_bits. rewrite Hcode.
    replace (Z.to_nat (Z.of_nat (length r) + 1)) with (length (r ++ [b]))
      by (rewrite length_app; simpl; lia).
    by rewrite bits_of_bval.
  - exists (r ++ [b]). rewrite length_app, <-app_assoc. simpl. split_and!; done || lia.
Qed.

(** ** The decoder inverts the encoder *)

Lemma pad_length n : ((n + (8 - n `mod` 8) `mod` 8) `mod` 8 = 0)%nat.
Proof.
  pose proof (Nat.mod_upper_bound n 8). pose proof (Nat.div_mod_eq n 8).
  pose proof (Nat.mod_upper_bound (8 - n `mod` 8) 8).
  destruct (decide (n `mod` 8 = 0)%nat) as [E|E].
  - rewrite E. simpl. rewrite Nat.add_0_r. done.
  - rewrite (Nat.mod_small (8 - n `mod` 8)) by lia.
    replace (n + (8 - n `mod` 8))%nat with (8 * S (n / 8))%nat by lia.
    rewrite Nat.mul_comm. apply Nat.Div0.mod_mul.
Qed.

Lemma pad_bound n : ((8 - n `mod` 8) `mod` 8 ≤ 7)%nat.
Proof. pose proof (Nat.mod_upper_bound (8 - n `mod` 8) 8). lia. Qed.

Lemma sym_bits_ok s : bits_ok (mbind sym_bits s).
Proof.
  induction s as [|c s IH]; [constructor|]. rewrite bind_cons. apply Forall_app.
  split; [|done]. unfold sym_bits. destruct (code_of c). apply bits_of_ok.
Qed.

Lemma encoded_bits s :
  mbind byte_bits (huffman_encode s) =
    mbind sym_bits s ++ pad_bits (length (mbind sym_bits s)) ∧ bytes_ok (huffman_encode s).
Proof.
  unfold huffman_encode. set (bs := mbind sym_bits s).
  pose proof (pad_length (length bs)) as Hp. apply Nat.Lcm0.mod_divide in Hp as [k Hk].
  apply (unpack_pack k).
  - apply Forall_app. split; [apply sym_bits_ok|]. apply Forall_replicate. by right.
  - rewrite length_app. unfold pad_bits. rewrite length_replicate. lia.
Qed.

Lemma huffman_decode_encode s : bytes_ok s → huffman_decode (huffman_encode s) = Some s.
Proof.
  intros Hs. destruct (encoded_bits s) as [Hbits _]. unfold huffman_decode.
  rewrite Hbits, huff_run_app, syms_run by done. simpl. rewrite huff_run_out.
  pose proof (pad_bound (length (mbind sym_bits s))) as Hb. unfold pad_bits.
  set (k := ((8 - _) `mod` 8)%nat) in *. rewrite pad_run by done.
  unfold prepend. simpl. rewrite app_nil_r.
  destruct (Z.of_nat k >? 7) eqn:E7; bool_prop; [lia|].
  destruct (Z.of_nat k >? 0) eqn:E0; bool_prop; [|done].
  rewrite Z.shiftl_mul_pow2, Z.mul_1_l by lia. by rewrite Z.eqb_refl.
Qed.

Lemma bval_ones k : bval (replicate k 1) = 2 ^ Z.of_nat k - 1.
Proof.
  induction k as [|k IH]; [done|]. rewrite replicate_S_end, bval_snoc, IH.
  rewrite Nat2Z.inj_succ, Z.pow_succ_r by lia. lia.
Qed.

Lemma pad_unique n k : (k ≤ 7)%nat → ((n + k) `mod` 8 = 0)%nat → k = ((8 - n `mod` 8) `mod` 8)%nat.
Proof.
  intros Hk Hm. pose proof (Nat.div_mod_eq n 8). pose proof (Nat.mod_upper_bound n 8).
  apply Nat.Lcm0.mod_divide in Hm as [q Hq].
  destruct (decide (n `mod` 8 = 0)%nat) as [E|E].
  - rewrite E. simpl. lia.
  - rewrite Nat.mod_small by lia. lia.
Qed.

Lemma length_byte_bits (l : bytes) : length (mbind byte_bits l) = (8 * length l)%nat.
Proof. induction l as [|b l IH]; [done|]. rewrite bind_cons, length_app, IH. simpl. lia. Qed.

Lemma huffman_decode_inv inp s :
  bytes_ok inp → huffman_decode inp = Some s → inp = huffman_encode s ∧ bytes_ok s.
Proof.
  intros Hin. unfold huffman_decode.
  destruct (huff_run _ _) as [[[v n] out]|] eqn:Hrun; [|done]. intros H.
  assert (bits_ok (mbind byte_bits inp)) as Hbits.
  { clear. induction inp as [|b l IH]; [constructor|]. rewrite bind_cons.
    apply Forall_app. split; [|done]. rewrite byte_bits_bits_of. apply bits_of_ok. }
  destruct (huff_run_inv _ _ _ _ Hbits Hrun) as (r & Hr & -> & -> & _ & Hout & Hrok).
  assert (out = s ∧ (length r ≤ 7)%nat ∧ r = replicate (length r) 1) as (-> & H7 & Hones).
  { destruct (Z.of_nat (length r) >? 7) eqn:E7; [done|]. bool_prop.
    destruct (Z.of_nat (length r) >? 0) eqn:E0; bool_prop.
    - destruct (_ =? _) eqn:E; [|done]. bool_prop. simplify_eq.
      rewrite Z.shiftl_mul_pow2, Z.mul_1_l in E by lia. split_and!; [done|lia|].
      rewrite <-bval_ones in E. rewrite <-(bits_of_bval r) at 1 by done.
      rewrite E. rewrite <-(length_replicate (length r) 1) at 1.
      apply bits_of_bval, Forall_replicate. by right.
    - simplify_eq. destruct r; [|simpl in *; lia]. split_and!; [done|simpl; lia|done]. }
  split; [|done]. rewrite <-(pack_unpack inp Hin), Hr. unfold huffman_encode.
  f_equal. f_equal. rewrite Hones at 1. unfold pad_bits. f_equal.
  apply pad_unique; [done|].
  assert (length (mbind byte_bits inp) = length (mbind sym_bits s ++ r)) as Hl by by rewrite Hr.
  rewrite length_byte_bits, length_app in Hl. rewrite <-Hl, Nat.mul_comm.
  apply Nat.Div0.mod_mul.
Qed.

(** [huffman_decode] is the exact inverse of the RFC 7541 Huffman encoder:
    on a byte string it succeeds with [s] if and only if the input is the
    encoding of the byte string [s], padded with at most seven one bits; every
    other input (a truncated code, wrong or overlong padding, the EOS code) is
    rejected. *)
Theorem huffman_decode_spec (inp : bytes) (s : bytes) (Hin : bytes_ok inp) :
  huffman_decode inp = Some s ↔ bytes_ok s ∧ inp = huffman_encode s.
Proof.
  split.
  - intros H. destruct (huffman_decode_inv inp s Hin H). by split.
  - intros [Hs ->]. by apply huffman_decode_encode.
Qed.

(** The RFC 7541 C.4.1 example string. *)
Lemma huffman_decode_spec_witness :
  huffman_decode [241; 227; 194; 229; 242; 58; 107; 160; 171; 144; 244; 255] =
    Some (s! "www.example.com").
Proof.
  apply (huffman_decode_spec [241; 227; 194; 229; 242; 58; 107; 160; 171; 144; 244; 255]).
  - apply (bool_decide_eq_true_1 (bytes_ok _)). vm_compute. done.
  - split; [apply (bool_decide_eq_true_1 (bytes_ok _)); vm_compute; done|].
    vm_compute. done.
Defined.
