(* ===== verification/H2Hpack.v ===== *)
(** * HPACK header compression

    Models [src/framework/http/h2/h2_hpack.cpp]: the static table, the
    connection-level [HeaderDecoder] with its bounded dynamic table, and the
    response encoder.  The read position of the C++ code, the pair of the
    block and an index into it, is the rest of the block here; a failing read
    is [None].  The theorems show that the dynamic table stays within its
    capacity on every input, that decoding inverts the response encoder when
    every string is shorter than 127 bytes, and what happens to longer
    strings. *)

From S2P Require Import Prelude H2Huffman.

Abbreviation Header := (bytes * bytes)%type.

(** ** The static table *)

Definition kStaticTable : list Header := [
  (s! ":authority", []);
  (s! ":method", s! "GET");
  (s! ":method", s! "POST");
  (s! ":path", s! "/");
  (s! ":path", s! "/index.html");
  (s! ":scheme", s! "http");
  (s! ":scheme", s! "https");
  (s! ":status", s! "200");
  (s! ":status", s! "204");
  (s! ":status", s! "206");
  (s! ":status", s! "304");
  (s! ":status", s! "400");
  (s! ":status", s! "404");
  (s! ":status", s! "500");
  (s! "accept-charset", []);
  (s! "accept-encoding", s! "gzip, deflate");
  (s! "accept-language", []);
  (s! "accept-ranges", []);
  (s! "accept", []);
  (s! "access-control-allow-origin", []);
  (s! "age", []);
  (s! "allow", []);
  (s! "authorization", []);
  (s! "cache-control", []);
  (s! "content-disposition", []);
  (s! "content-encoding", []);
  (s! "content-language", []);
  (s! "content-length", []);
  (s! "content-location", []);
  (s! "content-range", []);
  (s! "content-type", []);
  (s! "cookie", []);
  (s! "date", []);
  (s! "etag", []);
  (s! "expect", []);
  (s! "expires", []);
  (s! "from", []);
  (s! "host", []);
  (s! "if-match", []);
  (s! "if-modified-since", []);
  (s! "if-none-match", []);
  (s! "if-range", []);
  (s! "if-unmodified-since", []);
  (s! "last-modified", []);
  (s! "link", []);
  (s! "location", []);
  (s! "max-forwards", []);
  (s! "proxy-authenticate", []);
  (s! "proxy-authorization", []);
  (s! "range", []);
  (s! "referer", []);
  (s! "refresh", []);
  (s! "retry-after", []);
  (s! "server", []);
  (s! "set-cookie", []);
  (s! "strict-transport-security", []);
  (s! "transfer-encoding", []);
  (s! "user-agent", []);
  (s! "vary", []);
  (s! "via", []);
  (s! "www-authenticate", [])
].

Definition static_table_at (index : Z) : Header :=
  if (index <? 1) || (index >? 61) then ([], [])
  else default ([], []) (kStaticTable !! Z.to_nat (index - 1)).

Definition bytes_eqb (a b : bytes) : bool := bool_decide (a = b).

(** First row, counted from 1, that satisfies [p]; 0 when there is none. *)
Fixpoint find_row (p : Header → bool) (i : Z) (t : list Header) : Z :=
  match t with
  | [] => 0
  | h :: t => if p h then i else find_row p (i + 1) t
  end.

Definition static_index_by_name (name : bytes) : Z :=
  find_row (λ h, bytes_eqb name h.1) 1 kStaticTable.

Definition static_table_find (name value : bytes) : Z :=
  find_row (λ h, bytes_eqb name h.1 && bytes_eqb value h.2) 1 kStaticTable.

(** ** Reading integers and strings *)

(** The continuation loop: [pos >= b.size() || shift > 28] fails. *)
Fixpoint read_int_loop (rest : bytes) (value shift : Z) : option (Z * bytes) :=
  match rest with
  | [] => None
  | byte :: rest =>
      if shift >? 28 then None else
      let value := to_u32 (value + to_u32 (Z.land byte 127 ≪ shift)) in
      if Z.land byte 128 =? 0 then Some (value, rest)
      else read_int_loop rest value (shift + 7)
  end.

Definition read_integer (rest : bytes) (prefix : Z) : option (Z * bytes) :=
  match rest with
  | [] => None
  | first :: rest =>
      let mask := 2 ^ prefix - 1 in
      let value := Z.land first mask in
      if value <? mask then Some (value, rest) else read_int_loop rest mask 0
  end.

Definition read_string (rest : bytes) : option (bytes * bytes) :=
  match rest with
  | [] => None
  | first :: _ =>
      let huff := negb (Z.land first 128 =? 0) in
      match read_integer rest 7 with
      | None => None
      | Some (len, rest) =>
          if Z.of_nat (length rest) <? len then None else
          let raw := take (Z.to_nat len) rest in
          let rest := drop (Z.to_nat len) rest in
          if huff then (λ s, (s, rest)) <$> huffman_decode raw else Some (raw, rest)
      end
  end.

(** ** The decoder *)

Definition kMaxHeaderTableSize : Z := 4096.

Record HeaderDecoder := mkDecoder {
  dynamic_ : list Header;   (* newest first: index 62 is row 0 *)
  size_ : Z;
  capacity_ : Z;
}.

Definition new_decoder : HeaderDecoder := mkDecoder [] 0 4096.

Definition entry_bytes (e : Header) : Z := 32 + Z.of_nat (length e.1) + Z.of_nat (length e.2).

(** [while (size_ > capacity_ && !dynamic_.empty())] drop the oldest row.
    [t] is the table reversed, so the oldest row is its head. *)
Fixpoint trim_rev (t : list Header) (size cap : Z) : list Header * Z :=
  match t with
  | e :: t' => if size >? cap then trim_rev t' (to_u64 (size - entry_bytes e)) cap else (t, size)
  | [] => ([], size)
  end.

Definition trim (d : HeaderDecoder) : HeaderDecoder :=
  let '(t, size) := trim_rev (reverse (dynamic_ d)) (size_ d) (capacity_ d) in
  mkDecoder (reverse t) size (capacity_ d).

Definition set_header_table_size (n : Z) (d : HeaderDecoder) : HeaderDecoder :=
  let n := if n >? kMaxHeaderTableSize then kMaxHeaderTableSize else n in
  trim (mkDecoder (dynamic_ d) (size_ d) n).

Definition lookup_name (d : HeaderDecoder) (index : Z) : option bytes :=
  if (1 <=? index) && (index <=? 61) then Some (static_table_at index).1 else
  if 62 <=? index then fst <$> dynamic_ d !! Z.to_nat (index - 62) else None.

Definition read_name (d : HeaderDecoder) (rest : bytes) (idx : Z) : option (bytes * bytes) :=
  if negb (idx =? 0) then (λ n, (n, rest)) <$> lookup_name d idx
  else read_string rest.

(** A literal field: name (indexed or literal) then value. *)
Definition read_literal (d : HeaderDecoder) (rest : bytes) (idx : Z) : option (Header * bytes) :=
  match read_name d rest idx with
  | None => None
  | Some (name, rest) =>
      match read_string rest with
      | None => None
      | Some (val, rest) => Some ((name, val), rest)
      end
  end.

Definition add_entry (d : HeaderDecoder) (h : Header) : HeaderDecoder :=
  let entry_size := to_u32 (32 + to_u32 (Z.of_nat (length h.1)) + to_u32 (Z.of_nat (length h.2))) in
  if entry_size >? capacity_ d then mkDecoder [] 0 (capacity_ d)
  else trim (mkDecoder (h :: dynamic_ d) (size_ d + entry_size) (capacity_ d)).

(** One field of the block.  A failing field changes nothing: the table is
    only written once the whole field has been read. *)
Definition decode_field (d : HeaderDecoder) (rest : bytes)
  : option (HeaderDecoder * bytes * option Header) :=
  match rest with
  | [] => None
  | b :: _ =>
      if negb (Z.land b 128 =? 0) then
        match read_integer rest 7 with
        | None => None
        | Some (idx, rest) =>
            if idx =? 0 then None else
            if (1 <=? idx) && (idx <=? 61) then Some (d, rest, Some (static_table_at idx)) else
            match dynamic_ d !! Z.to_nat (idx - 62) with
            | None => None
            | Some e => Some (d, rest, Some e)
            end
        end
      else if negb (Z.land b 64 =? 0) then
        match read_integer rest 6 with
        | None => None
        | Some (idx, rest) =>
            match read_literal d rest idx with
            | None => None
            | Some (h, rest) => Some (add_entry d h, rest, Some h)
            end
        end
      else if negb (Z.land b 32 =? 0) then
        match read_integer rest 5 with
        | None => None
        | Some (sz, rest) => Some (set_header_table_size sz d, rest, None)
        end
      else
        match read_integer rest 4 with
        | None => None
        | Some (idx, rest) =>
            match read_literal d rest idx with
            | None => None
            | Some (h, rest) => Some (d, rest, Some h)
            end
        end
  end.

(** [while (pos < block.size())].  Every field consumes at least one byte, so
    the length of the block is enough fuel ([decode_loop_fuel] below). *)
Fixpoint decode_loop (fuel : nat) (d : HeaderDecoder) (rest : bytes) (out : list Header)
  : bool * HeaderDecoder * list Header :=
  match rest with
  | [] => (true, d, out)
  | _ =>
      match fuel with
      | O => (false, d, out)
      | S fuel =>
          match decode_field d rest with
          | None => (false, d, out)
          | Some (d, rest, h) => decode_loop fuel d rest (out ++ option_list h)
          end
      end
  end.

Definition decode (d : HeaderDecoder) (block : bytes) : bool * HeaderDecoder * list Header :=
  decode_loop (length block) d block [].

(** ** The response encoder *)

Fixpoint varint (fuel : nat) (v : Z) : bytes :=
  match fuel with
  | O => []
  | S fuel => if v >=? 128 then Z.lor (Z.land v 127) 128 :: varint fuel (v ≫ 7) else [to_u8 v]
  end.

(** Five continuation bytes hold 35 bits, more than a [uint32_t] has. *)
Definition write_integer_raw (value prefix : Z) : bytes :=
  let mask := 2 ^ prefix - 1 in
  if value <? mask then [to_u8 value] else to_u8 mask :: varint 5 (value - mask).

Definition write_string_raw (s : bytes) : bytes :=
  let len := to_u32 (Z.of_nat (length s)) in
  let mask := 127 in
  (if len <? mask then [to_u8 len]
   else to_u8 (Z.lor 128 mask) :: varint 5 (len - mask)) ++ s.

Definition encode_header (h : Header) : bytes :=
  let full := static_table_find h.1 h.2 in
  if full >? 0 then [to_u8 (Z.lor 128 full)] else
  let nidx := static_index_by_name h.1 in
  write_integer_raw nidx 4 ++ (if nidx =? 0 then write_string_raw h.1 else []) ++
  write_string_raw h.2.

Definition encode_response_headers (hs : list Header) : bytes := mbind encode_header hs.

(** ** Integer round trip *)

Lemma land_127 v : Z.land v 127 = v mod 128.
Proof. change 127 with (Z.ones 7). by rewrite Z.land_ones. Qed.

Lemma cont_byte r :
  0 ≤ r < 128 → Z.land (Z.lor r 128) 127 = r ∧ Z.land (Z.lor r 128) 128 = 128.
Proof.
  intros Hr.
  cut (r < 128 → Z.land (Z.lor r 128) 127 = r ∧ Z.land (Z.lor r 128) 128 = 128); [intuition lia|].
  apply (byte_forall (λ r, r < 128 → Z.land (Z.lor r 128) 127 = r ∧ Z.land (Z.lor r 128) 128 = 128)).
  - vm_compute. done.
  - unfold byte_ok. lia.
Qed.

Lemma last_byte v : 0 ≤ v < 128 → Z.land v 127 = v ∧ Z.land v 128 = 0.
Proof.
  intros Hv. cut (v < 128 → Z.land v 127 = v ∧ Z.land v 128 = 0); [intuition lia|].
  apply (byte_forall (λ v, v < 128 → Z.land v 127 = v ∧ Z.land v 128 = 0)).
  - vm_compute. done.
  - unfold byte_ok. lia.
Qed.

Lemma read_varint fuel v acc shift rest :
  0 ≤ v < 2 ^ (7 * Z.of_nat fuel) → 0 ≤ shift →
  shift + 7 * Z.of_nat fuel ≤ 35 → (0 < fuel)%nat →
  read_int_loop (varint fuel v ++ rest) acc shift = Some (to_u32 (acc + v * 2 ^ shift), rest).
Proof.
  revert v acc shift. induction fuel as [|fuel IH]; intros v acc shift Hv Hs Hf Hpos; [lia|].
  cbn [varint]. destruct (v >=? 128) eqn:Hge.
  - rewrite Z.geb_leb in Hge. bool_prop. cbn [app read_int_loop].
    destruct fuel as [|fuel]; [cbn in Hv; lia|].
    assert ((shift >? 28) = false) as -> by (rewrite Z.gtb_ltb; lia).
    rewrite land_127. destruct (cont_byte (v mod 128)) as [E1 E2];
      [apply Z.mod_pos_bound; lia|].
    rewrite E1, E2. cbn [Z.eqb]. rewrite Z.shiftr_div_pow2 by lia. change (2 ^ 7) with 128.
    rewrite IH.
    + f_equal. f_equal. rewrite Z.shiftl_mul_pow2 by lia. unfold to_u32.
      rewrite Zplus_mod_idemp_l, <-Z.add_assoc, (Z.add_comm (_ mod _) _), Z.add_assoc.
      rewrite Z.add_mod_idemp_r, Z.pow_add_r by lia. f_equal.
      pose proof (Z.div_mod v 128). nia.
    + rewrite Nat2Z.inj_succ, Z.mul_succ_r, Z.pow_add_r in Hv by lia.
      split; [apply Z.div_pos; lia|apply Z.div_lt_upper_bound; lia].
    + lia.
    + lia.
    + lia.
  - rewrite Z.geb_leb in Hge. bool_prop. cbn [app read_int_loop].
    assert ((shift >? 28) = false) as -> by (rewrite Z.gtb_ltb; lia).
    rewrite to_u8_id by (unfold byte_ok; lia).
    destruct (last_byte v) as [-> ->]; [lia|]. cbn [Z.eqb].
    rewrite Z.shiftl_mul_pow2 by lia. unfold to_u32.
    by rewrite Z.add_mod_idemp_r by lia.
Qed.

(** Both writers start with a byte whose low [prefix] bits are the length or
    the full mask; the flag bits above them are [hi]. *)
Lemma read_integer_prefixed value prefix hi rest :
  4 ≤ prefix ≤ 7 → u32_ok value → 0 ≤ hi → hi mod 2 ^ prefix = 0 →
  read_integer ((if value <? 2 ^ prefix - 1 then [hi + value]
                 else (hi + (2 ^ prefix - 1)) :: varint 5 (value - (2 ^ prefix - 1))) ++ rest) prefix
  = Some (value, rest).
Proof.
  intros Hp Hv Hhi Hmod. unfold u32_ok in Hv.
  assert (16 ≤ 2 ^ prefix ≤ 128) as Hpow.
  { split; [apply (Z.pow_le_mono_r 2 4)|apply (Z.pow_le_mono_r 2 _ 7)]; lia. }
  assert (∀ x, 0 ≤ x < 2 ^ prefix → Z.land (hi + x) (2 ^ prefix - 1) = x) as Hland.
  { intros x Hx. replace (2 ^ prefix - 1) with (Z.ones prefix) by (rewrite Z.ones_equiv; lia).
    rewrite Z.land_ones, Z.add_mod, Hmod by lia. rewrite Z.add_0_l, Z.mod_mod by lia.
    by apply Z.mod_small. }
  destruct (Z.ltb_spec value (2 ^ prefix - 1)) as [Hlt|Hge]; cbn [app read_integer].
  - rewrite Hland by lia. by rewrite (proj2 (Z.ltb_lt _ _)).
  - rewrite Hland by lia. rewrite Z.ltb_irrefl.
    rewrite read_varint by lia. rewrite Z.mul_1_r. f_equal. f_equal.
    rewrite to_u32_id; [lia|]. unfold u32_ok. lia.
Qed.

Lemma write_integer_raw_eq value prefix :
  4 ≤ prefix ≤ 7 → 0 ≤ value →
  write_integer_raw value prefix =
    if value <? 2 ^ prefix - 1 then [0 + value]
    else (0 + (2 ^ prefix - 1)) :: varint 5 (value - (2 ^ prefix - 1)).
Proof.
  intros Hp Hv. unfold write_integer_raw.
  assert (16 ≤ 2 ^ prefix ≤ 128) as Hpow.
  { split; [apply (Z.pow_le_mono_r 2 4)|apply (Z.pow_le_mono_r 2 _ 7)]; lia. }
  destruct (Z.ltb_spec value (2 ^ prefix - 1)); rewrite to_u8_id by (unfold byte_ok; lia); done.
Qed.

Lemma read_write_integer value prefix rest :
  4 ≤ prefix ≤ 7 → u32_ok value →
  read_integer (write_integer_raw value prefix ++ rest) prefix = Some (value, rest).
Proof.
  intros Hp Hv. rewrite write_integer_raw_eq by (unfold u32_ok in Hv; lia).
  by apply read_integer_prefixed.
Qed.

(** ** String round trip *)

Lemma length_varint_pos fuel v : (0 < fuel)%nat → (0 < length (varint fuel v))%nat.
Proof. destruct fuel; [lia|]. simpl. case_match; simpl; lia. Qed.

(** A string shorter than 127 bytes is written raw and read back as it is. *)
Lemma read_write_string_short s rest :
  Z.of_nat (length s) < 127 → read_string (write_string_raw s ++ rest) = Some (s, rest).
Proof.
  intros Hs. unfold write_string_raw.
  rewrite to_u32_id by (unfold u32_ok; lia). rewrite (proj2 (Z.ltb_lt _ _)) by done.
  rewrite to_u8_id by (unfold byte_ok; lia). rewrite <-app_assoc. cbn [app read_string].
  destruct (last_byte (Z.of_nat (length s))) as [_ ->]; [lia|]. cbn [Z.eqb negb].
  pose proof (read_integer_prefixed (Z.of_nat (length s)) 7 0 (s ++ rest)
    ltac:(lia) ltac:(unfold u32_ok; lia) ltac:(lia) eq_refl) as Hr.
  change (2 ^ 7 - 1) with 127 in Hr. rewrite (proj2 (Z.ltb_lt _ 127)) in Hr by done.
  cbn [app] in Hr. rewrite Z.add_0_l in Hr. rewrite Hr, length_app, Nat2Z.inj_add.
  rewrite (proj2 (Z.ltb_ge _ _)) by lia.
  rewrite Nat2Z.id, take_app_length, drop_app_length. done.
Qed.

(** A longer string is announced as Huffman coded ([0x80 | mask]) but written
    raw, so the reader runs its bytes through [huffman_decode]. *)
Lemma read_write_string_long s rest :
  127 ≤ Z.of_nat (length s) < 2 ^ 32 →
  read_string (write_string_raw s ++ rest) = (λ d, (d, rest)) <$> huffman_decode s.
Proof.
  intros Hs. unfold write_string_raw.
  rewrite to_u32_id by (unfold u32_ok; lia). rewrite (proj2 (Z.ltb_ge _ _)) by lia.
  change (to_u8 (Z.lor 128 127)) with 255. rewrite <-app_assoc. cbn [app read_string].
  change (Z.land 255 128 =? 0) with false. cbn [negb].
  pose proof (read_integer_prefixed (Z.of_nat (length s)) 7 128 (s ++ rest)
    ltac:(lia) ltac:(unfold u32_ok; lia) ltac:(lia) eq_refl) as Hr.
  change (2 ^ 7 - 1) with 127 in Hr. rewrite (proj2 (Z.ltb_ge _ 127)) in Hr by lia.
  cbn [app] in Hr. change (128 + 127) with 255 in Hr.
  rewrite Hr, length_app, Nat2Z.inj_add. rewrite (proj2 (Z.ltb_ge _ _)) by lia.
  rewrite Nat2Z.id, take_app_length, drop_app_length. done.
Qed.

(** ** Consumption: every read shortens the rest of the block *)

Lemma read_int_loop_inv rest v s x rest' :
  read_int_loop rest v s = Some (x, rest') → (length rest' < length rest)%nat ∧ u32_ok x.
Proof.
  revert v s. induction rest as [|b rest IH]; intros v s; simpl; [done|].
  destruct (s >? 28); [done|]. destruct (_ =? 0).
  - intros [= <- <-]. split; [simpl; lia|apply to_u32_range].
  - intros [? ?]%IH. split; [lia|done].
Qed.

Lemma read_integer_inv rest p x rest' :
  4 ≤ p ≤ 7 → read_integer rest p = Some (x, rest') →
  (length rest' < length rest)%nat ∧ u32_ok x.
Proof.
  intros Hp. destruct rest as [|b rest]; simpl; [done|].
  assert (16 ≤ 2 ^ p ≤ 128) as Hpow.
  { split; [apply (Z.pow_le_mono_r 2 4)|apply (Z.pow_le_mono_r 2 _ 7)]; lia. }
  replace (2 ^ p - 1) with (Z.ones p) by (rewrite Z.ones_equiv; lia).
  rewrite Z.land_ones by lia. pose proof (Z.mod_pos_bound b (2 ^ p) ltac:(lia)).
  destruct (_ <? _).
  - intros [= <- <-]. split; [lia|]. unfold u32_ok. lia.
  - intros [? ?]%read_int_loop_inv. split; [lia|done].
Qed.

Lemma huff_run_length bits v n out v' n' out' :
  huff_run bits (v, n, out) = Some (v', n', out') → (length out' ≤ length out + length bits)%nat.
Proof.
  revert v n out. induction bits as [|b bits IH]; intros v n out; cbn [huff_run].
  - intros [= <- <- <-]. simpl. lia.
  - destruct (huff_step b (v, n, out)) as [[[v1 n1] out1]|] eqn:E; [|done].
    intros H%IH. unfold huff_step in E. guards E; simplify_eq;
      rewrite ?length_app in H; simpl in *; lia.
Qed.

Lemma huffman_decode_length inp s : huffman_decode inp = Some s → (length s ≤ 8 * length inp)%nat.
Proof.
  unfold huffman_decode. destruct (huff_run _ _) as [[[v n] out]|] eqn:E; [|done].
  apply huff_run_length in E. rewrite length_byte_bits in E. intros H. guards H; simplify_eq; done.
Qed.

Lemma read_string_inv rest s rest' :
  read_string rest = Some (s, rest') →
  (length rest' < length rest)%nat ∧ (length s ≤ 8 * length rest)%nat.
Proof.
  destruct rest as [|b rest]; [done|]. unfold read_string.
  destruct (read_integer (b :: rest) 7) as [[len r]|] eqn:E; [|done].
  apply read_integer_inv in E as [Hl Hr]; [|lia]. simpl in Hl.
  destruct (Z.ltb_spec (Z.of_nat (length r)) len); [done|]. unfold u32_ok in Hr.
  destruct (negb _).
  - intros (d & Hd & [= -> ->])%fmap_Some. apply huffman_decode_length in Hd.
    rewrite length_take in Hd. rewrite length_drop. cbn [length]. lia.
  - intros [= <- <-]. rewrite length_drop, length_take. cbn [length]. lia.
Qed.

Lemma read_name_inv d rest idx n rest' :
  read_name d rest idx = Some (n, rest') → (length rest' ≤ length rest)%nat.
Proof.
  unfold read_name. destruct (negb _).
  - intros (? & _ & [= _ ->])%fmap_Some. lia.
  - intros [? _]%read_string_inv. lia.
Qed.

Lemma read_literal_inv d rest idx h rest' :
  read_literal d rest idx = Some (h, rest') → (length rest' < length rest)%nat.
Proof.
  unfold read_literal. destruct (read_name d rest idx) as [[n r]|] eqn:E; [|done].
  apply read_name_inv in E. destruct (read_string r) as [[v r']|] eqn:E2; [|done].
  apply read_string_inv in E2 as [? _]. intros [= <- <-]. lia.
Qed.

Lemma decode_field_consumes d rest d' rest' h :
  decode_field d rest = Some (d', rest', h) → (length rest' < length rest)%nat.
Proof.
  unfold decode_field. destruct rest as [|b rest]; [done|]. intros H.
  guards H; simplify_eq;
    repeat match goal with
    | H : read_integer _ _ = Some _ |- _ => apply read_integer_inv in H as [? _]; [|lia]
    | H : read_literal _ _ _ = Some _ |- _ => apply read_literal_inv in H
    end; simpl in *; lia.
Qed.

(** The fuel of [decode] is enough: any larger amount gives the same result. *)
Lemma decode_loop_fuel f1 f2 d rest out :
  (length rest ≤ f1)%nat → (length rest ≤ f2)%nat →
  decode_loop f1 d rest out = decode_loop f2 d rest out.
Proof.
  revert f2 d rest out. induction f1 as [|f1 IH]; intros f2 d rest out H1 H2.
  - destruct rest; [|simpl in H1; lia]. by destruct f2.
  - destruct rest as [|b rest]; [by destruct f2|].
    destruct f2 as [|f2]; [simpl in H2; lia|]. cbn [decode_loop].
    destruct (decode_field d (b :: rest)) as [[[d' r'] h]|] eqn:E; [|done].
    apply decode_field_consumes in E. simpl in *. apply IH; lia.
Qed.

Lemma decode_loop_cons f d rest out d' rest' h :
  (length rest ≤ f)%nat → decode_field d rest = Some (d', rest', h) →
  decode_loop f d rest out = decode_loop (length rest') d' rest' (out ++ option_list h).
Proof.
  intros Hf E. pose proof (decode_field_consumes _ _ _ _ _ E) as Hc.
  destruct rest as [|b rest]; [done|]. destruct f as [|f]; [simpl in Hf; lia|].
  cbn [decode_loop]. rewrite E. apply decode_loop_fuel; simpl in *; lia.
Qed.

(** ** The dynamic table is bounded *)

Definition table_bytes (t : list Header) : Z := foldr (λ e n, entry_bytes e + n) 0 t.

(** [size_] is the RFC 7541 size of the rows, at most the capacity, which is
    at most [kMaxHeaderTableSize]. *)
Definition table_wf (d : HeaderDecoder) : Prop :=
  size_ d = table_bytes (dynamic_ d) ∧ size_ d ≤ capacity_ d ∧
  0 ≤ capacity_ d ≤ kMaxHeaderTableSize.

Lemma table_bytes_app t1 t2 : table_bytes (t1 ++ t2) = table_bytes t1 + table_bytes t2.
Proof. induction t1 as [|e t1 IH]; simpl; [done|]. rewrite IH. lia. Qed.

Lemma table_bytes_reverse t : table_bytes (reverse t) = table_bytes t.
Proof. induction t as [|e t IH]; [done|]. rewrite reverse_cons, table_bytes_app, IH. simpl. lia. Qed.

Lemma entry_bytes_pos e : 32 ≤ entry_bytes e.
Proof. unfold entry_bytes. lia. Qed.

Lemma table_bytes_nonneg t : 0 ≤ table_bytes t.
Proof. induction t as [|e t IH]; simpl; [lia|]. pose proof (entry_bytes_pos e). lia. Qed.

Lemma table_bytes_lookup t i e : t !! i = Some e → entry_bytes e ≤ table_bytes t.
Proof.
  revert i. induction t as [|e' t IH]; intros [|i]; simpl; try done.
  - intros [= ->]. pose proof (table_bytes_nonneg t). lia.
  - intros H%IH. pose proof (entry_bytes_pos e'). lia.
Qed.

Lemma trim_rev_spec t cap t' size' :
  0 ≤ cap → table_bytes t < 2 ^ 64 → trim_rev t (table_bytes t) cap = (t', size') →
  size' = table_bytes t' ∧ size' ≤ cap.
Proof.
  intros Hcap. induction t as [|e t IH]; cbn [trim_rev table_bytes foldr] in *; intros Hlt.
  - intros [= <- <-]. simpl. lia.
  - pose proof (table_bytes_nonneg t). pose proof (entry_bytes_pos e).
    fold (table_bytes t) in *.
    destruct (_ >? cap) eqn:E; bool_prop.
    + rewrite to_u64_id by (unfold u64_ok; lia).
      replace (entry_bytes e + table_bytes t - entry_bytes e) with (table_bytes t) by lia.
      apply IH. lia.
    + intros [= <- <-]. split; [done|lia].
Qed.

Lemma trim_wf d :
  0 ≤ capacity_ d ≤ kMaxHeaderTableSize → size_ d = table_bytes (dynamic_ d) →
  table_bytes (dynamic_ d) < 2 ^ 64 → table_wf (trim d).
Proof.
  intros Hcap Hsize Hlt. unfold trim.
  destruct (trim_rev _ _ _) as [t size] eqn:E.
  rewrite Hsize, <-table_bytes_reverse in E.
  apply trim_rev_spec in E as [-> Hle]; [|lia|by rewrite table_bytes_reverse].
  unfold table_wf. simpl. by rewrite table_bytes_reverse.
Qed.

Lemma new_decoder_wf : table_wf new_decoder.
Proof. unfold table_wf, kMaxHeaderTableSize. simpl. lia. Qed.

Lemma set_header_table_size_wf n d :
  0 ≤ n → table_wf d → table_wf (set_header_table_size n d).
Proof.
  intros Hn (Hs & Hle & Hc). unfold set_header_table_size.
  apply trim_wf; simpl; [|done|unfold kMaxHeaderTableSize in *; lia].
  case_match; bool_prop; unfold kMaxHeaderTableSize in *; lia.
Qed.

Lemma static_name_short idx : Z.of_nat (length (static_table_at idx).1) ≤ 4096.
Proof.
  unfold static_table_at. destruct (_ || _); [simpl; lia|].
  destruct (kStaticTable !! Z.to_nat (idx - 1)) as [e|] eqn:E; [|simpl; lia].
  assert (forallb (λ e, Z.of_nat (length e.1) <=? 4096) kStaticTable = true) as Hall
    by (vm_compute; done).
  rewrite forallb_forall in Hall. apply list_elem_of_lookup_2, list_elem_of_In, Hall in E.
  bool_prop. done.
Qed.

Lemma read_name_short d rest idx n rest' B :
  table_wf d → 4096 ≤ B → 8 * Z.of_nat (length rest) ≤ B →
  read_name d rest idx = Some (n, rest') → Z.of_nat (length n) ≤ B.
Proof.
  intros (Hs & Hle & Hc) HB HB' Hr. unfold read_name in Hr. destruct (negb _).
  - apply fmap_Some in Hr as (n' & Hl & [= -> ->]). unfold lookup_name in Hl.
    destruct ((1 <=? idx) && (idx <=? 61)).
    { simplify_eq. pose proof (static_name_short idx). lia. }
    destruct (62 <=? idx); [|done].
    apply fmap_Some in Hl as (e & He%table_bytes_lookup & ->).
    unfold entry_bytes, kMaxHeaderTableSize in *. lia.
  - apply read_string_inv in Hr. lia.
Qed.

Lemma add_entry_wf d h :
  table_wf d → Z.of_nat (length h.1) < 2 ^ 30 → Z.of_nat (length h.2) < 2 ^ 30 →
  table_wf (add_entry d h).
Proof.
  intros (Hs & Hle & Hc) H1 H2. unfold add_entry, kMaxHeaderTableSize in *.
  rewrite !(to_u32_id (Z.of_nat _)) by (unfold u32_ok; lia).
  rewrite to_u32_id by (unfold u32_ok; lia).
  destruct (_ >? _) eqn:E; bool_prop.
  - unfold table_wf, kMaxHeaderTableSize. simpl. lia.
  - apply trim_wf; simpl; [done| |]; unfold entry_bytes; fold (table_bytes (dynamic_ d)); lia.
Qed.

Lemma decode_field_wf d rest d' rest' h :
  table_wf d → Z.of_nat (length rest) < 2 ^ 24 →
  decode_field d rest = Some (d', rest', h) → table_wf d'.
Proof.
  intros Hwf Hlen. unfold decode_field. destruct rest as [|b rest]; [done|]. intros H.
  guards H; simplify_eq; try done.
  - match goal with H : read_integer _ _ = Some _ |- _ => apply read_integer_inv in H as [? _]; [|lia] end.
    match goal with H : read_literal _ _ _ = Some _ |- _ => unfold read_literal in H; guards H end.
    simplify_eq. simpl length in *.
    match goal with H : read_string _ = Some _ |- _ => apply read_string_inv in H end.
    match goal with H : read_name _ _ _ = Some _ |- _ =>
      pose proof (read_name_inv _ _ _ _ _ H);
      apply (read_name_short _ _ _ _ _ (2 ^ 27)) in H; [|done|lia|lia] end.
    apply add_entry_wf; simpl; [done|lia|lia].
  - match goal with H : read_integer _ _ = Some _ |- _ => apply read_integer_inv in H as [_ [? ?]]; [|lia] end.
    by apply set_header_table_size_wf.
Qed.

Lemma decode_loop_wf f d rest out ok d' out' :
  table_wf d → Z.of_nat (length rest) < 2 ^ 24 →
  decode_loop f d rest out = (ok, d', out') → table_wf d'.
Proof.
  revert d rest out. induction f as [|f IH]; intros d rest out Hwf Hlen;
    (destruct rest as [|b rest]; [simpl; by intros [= _ <- _]|]); cbn [decode_loop].
  { by intros [= _ <- _]. }
  destruct (decode_field d (b :: rest)) as [[[d1 r1] h]|] eqn:E; [|by intros [= _ <- _]].
  pose proof (decode_field_consumes _ _ _ _ _ E).
  apply IH; [by eapply decode_field_wf|simpl in *; lia].
Qed.

(** The HPACK decoder's dynamic table is bounded on every input: whatever
    header block a peer sends (up to [2^24] bytes, more than the codec lets
    through) and whether or not decoding succeeds, afterwards [size_] is
    exactly the RFC size of the stored rows and at most the capacity, which
    never exceeds [kMaxHeaderTableSize]; a capacity update ([n >= 0], from
    SETTINGS or from the block) keeps the same invariant. *)
Theorem hpack_table_bounded (d : HeaderDecoder) (block : bytes) (n : Z)
  (Hwf : table_wf d) (Hlen : Z.of_nat (length block) < 2 ^ 24) (Hn : 0 ≤ n) :
  table_wf (decode d block).1.2 ∧ table_wf (set_header_table_size n d).
Proof.
  split; [|by apply set_header_table_size_wf].
  unfold decode. destruct (decode_loop _ _ _ _) as [[ok d'] out'] eqn:E. simpl.
  by eapply decode_loop_wf.
Qed.

Lemma hpack_table_bounded_witness :
  table_wf (decode new_decoder ([64; 1; 97; 1; 98] ++ [63; 225; 31] ++ [130])).1.2 ∧
  dynamic_ (decode new_decoder ([64; 1; 97; 1; 98] ++ [63; 225; 31] ++ [130])).1.2 = [([97], [98])].
Proof.
  split; [|vm_compute; done].
  apply (hpack_table_bounded new_decoder _ 0); [apply new_decoder_wf|vm_compute; done|lia].
Defined.

(** ** The decoder inverts the response encoder *)

Lemma find_row_spec p i t r :
  find_row p i t = r → 0 < i → r = 0 ∨ (i ≤ r ∧ ∃ h, t !! Z.to_nat (r - i) = Some h ∧ p h = true).
Proof.
  revert i. induction t as [|h t IH]; intros i; simpl; [intros <-; by left|].
  destruct (p h) eqn:E.
  - intros <- Hi. right. split; [lia|]. exists h. by rewrite Z.sub_diag.
  - intros Hr Hi. destruct (IH (i + 1) Hr) as [?|(? & h' & Hl & Hp)]; [lia|by left|].
    right. split; [lia|]. exists h'. split; [|done].
    replace (Z.to_nat (r - i)) with (S (Z.to_nat (r - (i + 1)))) by lia. done.
Qed.

Lemma static_row_at r h :
  1 ≤ r → kStaticTable !! Z.to_nat (r - 1) = Some h → r ≤ 61 ∧ static_table_at r = h.
Proof.
  intros Hr Hl. pose proof (lookup_lt_Some _ _ _ Hl) as Hlt.
  change (length kStaticTable) with 61%nat in Hlt. split; [lia|].
  unfold static_table_at. rewrite (proj2 (Z.ltb_ge _ _)) by lia. rewrite Z.gtb_ltb.
  rewrite (proj2 (Z.ltb_ge _ _)) by lia. simpl. by rewrite Hl.
Qed.

Lemma static_table_find_spec n v k :
  static_table_find n v = k → k = 0 ∨ (1 ≤ k ≤ 61 ∧ static_table_at k = (n, v)).
Proof.
  intros H%find_row_spec; [|lia]. destruct H as [?|(Hk & h & Hl & Hp)]; [by left|].
  right. apply static_row_at in Hl as [? Hat]; [|done]. unfold bytes_eqb in Hp. bool_prop.
  split; [lia|]. rewrite Hat. destruct h. simpl in *. congruence.
Qed.

Lemma static_index_by_name_spec n k :
  static_index_by_name n = k → k = 0 ∨ (1 ≤ k ≤ 61 ∧ (static_table_at k).1 = n).
Proof.
  intros H%find_row_spec; [|lia]. destruct H as [?|(Hk & h & Hl & Hp)]; [by left|].
  right. apply static_row_at in Hl as [? Hat]; [|done]. unfold bytes_eqb in Hp. bool_prop.
  split; [lia|]. by rewrite Hat.
Qed.

(** The first byte of a literal field without indexing selects the last branch. *)
Lemma literal_tag x :
  0 ≤ x ≤ 15 → Z.land x 128 = 0 ∧ Z.land x 64 = 0 ∧ Z.land x 32 = 0.
Proof.
  intros Hx. cut (x ≤ 15 → Z.land x 128 = 0 ∧ Z.land x 64 = 0 ∧ Z.land x 32 = 0); [intuition lia|].
  apply (byte_forall (λ x, x ≤ 15 → Z.land x 128 = 0 ∧ Z.land x 64 = 0 ∧ Z.land x 32 = 0)).
  - vm_compute. done.
  - unfold byte_ok. lia.
Qed.

Lemma decode_field_literal d r n rest idx rest' :
  0 ≤ n ≤ 15 → rest = n :: r → read_integer rest 4 = Some (idx, rest') →
  decode_field d rest =
    match read_literal d rest' idx with
    | None => None
    | Some (h, rest) => Some (d, rest, Some h)
    end.
Proof.
  intros Hn -> Hi. unfold decode_field.
  destruct (literal_tag n Hn) as (-> & -> & ->). cbn [Z.eqb negb]. by rewrite Hi.
Qed.

Lemma write_integer_raw_head v :
  0 ≤ v → ∃ n r, write_integer_raw v 4 = n :: r ∧ 0 ≤ n ≤ 15.
Proof.
  intros Hv. rewrite write_integer_raw_eq by lia. change (2 ^ 4 - 1) with 15.
  destruct (Z.ltb_spec v 15); eexists _, _; (split; [done|lia]).
Qed.

Definition short_header (h : Header) : Prop :=
  Z.of_nat (length h.1) < 127 ∧ Z.of_nat (length h.2) < 127.

Lemma decode_field_encode d h rest :
  short_header h → decode_field d (encode_header h ++ rest) = Some (d, rest, Some h).
Proof.
  intros [Hs1 Hs2]. destruct h as [hn hv]. unfold encode_header. simpl in *.
  destruct (static_table_find hn hv >? 0) eqn:Efull; bool_prop.
  - destruct (static_table_find_spec hn hv _ eq_refl) as [?|[Hk Hat]]; [lia|].
    set (k := static_table_find hn hv) in *.
    destruct (cont_byte k) as [E1 E2]; [lia|]. rewrite Z.lor_comm in E1, E2.
    rewrite to_u8_id; [|].
    2:{ unfold byte_ok. split; [apply Z.lor_nonneg; lia|].
        change 256 with (2 ^ 8). apply Z.log2_lt_cancel. rewrite Z.log2_lor by lia.
        change (Z.log2 (2 ^ 8)) with 8. pose proof (Z.log2_le_mono k 61). cbn in *. lia. }
    cbn [app decode_field read_integer]. rewrite E2. change (128 =? 0) with false. cbn [negb].
    change (2 ^ 7 - 1) with 127. rewrite E1. rewrite (proj2 (Z.ltb_lt k 127)) by lia.
    rewrite (proj2 (Z.eqb_neq k 0)) by lia.
    rewrite (proj2 (Z.leb_le 1 k)), (proj2 (Z.leb_le k 61)) by lia. simpl. by rewrite Hat.
  - pose proof (static_index_by_name_spec hn _ eq_refl) as Hidx.
    set (k := static_index_by_name hn) in *.
    assert (0 ≤ k ≤ 61) as Hk by (destruct Hidx as [|[? ?]]; lia).
    destruct (write_integer_raw_head k) as (n & r & Ew & Hn); [lia|].
    rewrite <-!app_assoc.
    erewrite decode_field_literal; [|exact Hn|rewrite Ew; reflexivity|].
    2:{ apply read_write_integer; [lia|unfold u32_ok; lia]. }
    assert (read_name d ((if k =? 0 then write_string_raw hn else []) ++ write_string_raw hv ++ rest) k
            = Some (hn, write_string_raw hv ++ rest)) as Hname.
    { unfold read_name. destruct (Z.eqb_spec k 0) as [->|Hk0]; simpl.
      - by apply read_write_string_short.
      - unfold lookup_name. rewrite (proj2 (Z.leb_le 1 k)), (proj2 (Z.leb_le k 61)) by lia.
        simpl. destruct Hidx as [?|[_ ->]]; done. }
    unfold read_literal. rewrite Hname. by rewrite read_write_string_short.
Qed.

Lemma decode_loop_encode f d hs out :
  Forall short_header hs → (length (encode_response_headers hs) ≤ f)%nat →
  decode_loop f d (encode_response_headers hs) out = (true, d, out ++ hs).
Proof.
  intros Hs. revert f out. induction Hs as [|h hs Hh Hs IH]; intros f out Hf.
  - destruct f; simpl; by rewrite app_nil_r.
  - change (encode_response_headers (h :: hs)) with (encode_header h ++ encode_response_headers hs) in *.
    erewrite decode_loop_cons; [|done|by apply decode_field_encode].
    rewrite IH by done. simpl. by rewrite <-app_assoc.
Qed.

(** HPACK round trip of the response encoder: when every header name and
    value is shorter than 127 bytes, decoding the block that
    [encode_response_headers] writes succeeds on any decoder, yields exactly
    those headers in order, and leaves the decoder's dynamic table unchanged
    (the encoder never asks for indexing). *)
Theorem hpack_response_roundtrip (d : HeaderDecoder) (hs : list Header)
  (Hshort : Forall short_header hs) :
  decode d (encode_response_headers hs) = (true, d, hs).
Proof. unfold decode. by rewrite decode_loop_encode. Qed.

Lemma hpack_response_roundtrip_witness :
  decode new_decoder (encode_response_headers
    [(s! ":status", s! "200"); (s! "content-type", s! "text/html"); (s! "x-id", s! "7")]) =
  (true, new_decoder, [(s! ":status", s! "200"); (s! "content-type", s! "text/html"); (s! "x-id", s! "7")]).
Proof.
  apply (hpack_response_roundtrip new_decoder).
  repeat apply List.Forall_cons; [..|apply List.Forall_nil]; vm_compute; done.
Defined.

(** A header string of 127 bytes or more does not survive the encoder:
    [write_string_raw] sets the Huffman flag on the length byte
    ([0x80 | mask]) and then appends the raw bytes, so a reader passes them
    through [huffman_decode]; it obtains the string itself only if that string
    is its own Huffman decoding.  For a value of 127 letters [a] the decoder
    fails. *)
Theorem hpack_long_string_misread (s rest : bytes)
  (Hlen : 127 ≤ Z.of_nat (length s) < 2 ^ 32) :
  read_string (write_string_raw s ++ rest) = (λ d, (d, rest)) <$> huffman_decode s ∧
  (decode new_decoder (encode_response_headers [(s! "x-long", replicate 127 97)])).1.1 = false.
Proof. split; [by apply read_write_string_long|]. vm_compute. done. Qed.

Lemma hpack_long_string_misread_witness :
  read_string (write_string_raw (replicate 200 97) ++ [1; 2]) ≠ Some (replicate 200 97, [1; 2]).
Proof.
  rewrite (proj1 (hpack_long_string_misread (replicate 200 97) [1; 2] ltac:(vm_compute; split; [discriminate|done]))).
  vm_compute. discriminate.
Defined.
