(* ===== verification/HttpParser.v ===== *)
(** * HTTP/1.1 request parsing and path resolution

    Models [src/framework/http/http_parser.cpp], [message_processor.cpp] and
    the request and response records of [include/framework/http/http_types.hpp].
    [std::filesystem]'s lexical path operations are modelled (POSIX rules);
    what the disk holds is a record of functions, [FileSystem].

    The main theorem is the directory-traversal guard: a path that
    [resolve_safe_path] lets through is the document root itself or the root
    followed by plain names. *)

From S2P Require Import Prelude CString.

(** ** Requests and responses *)

Record HttpRequest := mkReq {
  rq_method : bytes;
  rq_raw_target : bytes;
  rq_path : bytes;
  rq_query : bytes;
  rq_version : bytes;
  rq_headers : gmap bytes bytes;
}.

Definition empty_request : HttpRequest := mkReq [] [] [] [] [] ∅.

Definition find_header (rq : HttpRequest) (k : bytes) : option bytes := rq_headers rq !! k.

Definition keep_alive (rq : HttpRequest) : bool :=
  match find_header rq (s! "connection") with
  | Some c =>
      if bool_decide (c = s! "close") then false else
      if bool_decide (c = s! "keep-alive") then true else
      bool_decide (rq_version rq = s! "HTTP/1.1")
  | None => bool_decide (rq_version rq = s! "HTTP/1.1")
  end.

Record HttpResponse := mkResp {
  rs_status : Z;
  rs_content_type : bytes;
  rs_body : bytes;
  rs_content_length : Z;
  rs_full_path : bytes;
}.

(** ** Lexing *)

Definition trim (s : bytes) : bytes := drop_while_end isspace (drop_while isspace s).
Definition to_lower (s : bytes) : bytes := tolower <$> s.

Definition SLASH : Z := 47.

(** ["VERB SP target SP HTTP/1.1"]: [None] is [return false]; the request is
    only written on success. *)
Definition parse_request_line (line : bytes) (rq : HttpRequest) : option HttpRequest :=
  match find_char SP line with
  | None => None
  | Some sp1 =>
      match find_char_from SP line (sp1 + 1) with
      | None => None
      | Some sp2 =>
          let method := take sp1 line in
          let target := slice line (sp1 + 1) (sp2 - sp1 - 1) in
          let version := drop (sp2 + 1) line in
          if existsb isspace method then None else
          if negb (bool_decide (version = s! "HTTP/1.1")) &&
             negb (bool_decide (version = s! "HTTP/1.0")) then None else
          match target with
          | [] => None
          | c :: _ =>
              if negb (c =? SLASH) then None else
              let '(path, query) :=
                match find_char 63 target with
                | None => (target, [])
                | Some q => (take q target, drop (q + 1) target)
                end in
              Some (mkReq method target path query version (rq_headers rq))
          end
      end
  end.

Definition parse_header_line (line : bytes) (rq : HttpRequest) : option HttpRequest :=
  match find_char 58 line with
  | None | Some O => None
  | Some colon =>
      let name := to_lower (trim (take colon line)) in
      let value := trim (drop (colon + 1) line) in
      match name with
      | [] => None
      | _ => Some (mkReq (rq_method rq) (rq_raw_target rq) (rq_path rq) (rq_query rq)
                     (rq_version rq) (<[name := value]> (rq_headers rq)))
      end
  end.

(** [s.substr(s.find_last_of(c) + 1)], or all of [s]. *)
Definition after_last (c : Z) (s : bytes) : bytes :=
  match find_char c (reverse s) with
  | None => s
  | Some i => drop (length s - i) s
  end.

Record Framing := mkFraming { fr_chunked : bool; fr_length : Z; fr_has_body : bool }.

(** The decimal loop, with the overflow test of the source: [SIZE_MAX] is
    [2^64 - 1]. *)
Fixpoint content_length_loop (s : bytes) (acc : Z) : option Z :=
  match s with
  | [] => Some acc
  | c :: s =>
      if negb (isdigit c) then None else
      if acc >? (2 ^ 64 - 1 - (c - 48)) / 10 then None else
      content_length_loop s (acc * 10 + (c - 48))
  end.

Definition determine_body_framing (rq : HttpRequest) : option Framing :=
  let cl_part :=
    match find_header rq (s! "content-length") with
    | None => Some (mkFraming false 0 false)
    | Some [] => None
    | Some cl => (λ n, mkFraming false n (negb (n =? 0))) <$> content_length_loop cl 0
    end in
  match find_header rq (s! "transfer-encoding") with
  | Some (c :: te) =>
      let last_coding := trim (after_last 44 (to_lower (c :: te))) in
      if bool_decide (last_coding = s! "chunked") then Some (mkFraming true 0 true) else None
  | _ => cl_part
  end.

(** ** Percent decoding *)

Definition hexval (c : Z) : Z :=
  if (48 <=? c) && (c <=? 57) then c - 48 else
  if (97 <=? c) && (c <=? 102) then c - 97 + 10 else
  if (65 <=? c) && (c <=? 70) then c - 65 + 10 else -1.

Fixpoint percent_decode (s : bytes) : option bytes :=
  match s with
  | [] => Some []
  | c :: s =>
      if c =? 37 then
        match s with
        | h :: l :: s =>
            let hi := hexval h in let lo := hexval l in
            if (hi <? 0) || (lo <? 0) then None else
            let byte := Z.lor (hi ≪ 4) lo in
            if byte =? 0 then None else cons byte <$> percent_decode s
        | _ => None
        end
      else cons c <$> percent_decode s
  end.

(** ** [std::filesystem::path], lexically *)

Definition DOT : bytes := [46].
Definition DOTDOT : bytes := [46; 46].

(** The names between separators, empty ones included. *)
Fixpoint split_slash (s : bytes) : list bytes :=
  match s with
  | [] => [[]]
  | c :: s =>
      if c =? SLASH then [] :: split_slash s
      else match split_slash s with
           | [] => [[c]]
           | w :: ws => (c :: w) :: ws
           end
  end.

Definition is_absolute (s : bytes) : bool :=
  match s with c :: _ => c =? SLASH | [] => false end.

(** The filenames of the path; a separator at the end leaves an empty last name. *)
Definition filenames (s : bytes) : list bytes := filter (λ w, w ≠ []) (split_slash s).
Definition ends_with_slash (s : bytes) : bool :=
  match list.last s with Some c => c =? SLASH | None => false end.

(** [root / rel] *)
Definition path_join (root rel : bytes) : bytes :=
  if is_absolute rel then rel else
  match list.last root with
  | None => rel
  | Some c => if c =? SLASH then root ++ rel else root ++ [SLASH] ++ rel
  end.

(** One filename against the normalised prefix (innermost first): a dot is
    dropped, a dot-dot cancels the name before it, and vanishes at the root of
    an absolute path. *)
Definition norm_step (abs : bool) (stack : list bytes) (w : bytes) : list bytes :=
  if bool_decide (w = DOT) then stack else
  if bool_decide (w = DOTDOT) then
    match stack with
    | t :: rest => if bool_decide (t = DOTDOT) then w :: stack else rest
    | [] => if abs then [] else [w]
    end
  else w :: stack.

Definition norm_names (abs : bool) (ws : list bytes) : list bytes :=
  reverse (foldl (norm_step abs) [] ws).

Fixpoint join_slash (ws : list bytes) : bytes :=
  match ws with
  | [] => []
  | [w] => w
  | w :: ws => w ++ [SLASH] ++ join_slash ws
  end.

(** The string of a normalised path. *)
Definition render (abs : bool) (ws : list bytes) (trailing : bool) : bytes :=
  match ws with
  | [] => if abs then [SLASH] else DOT
  | _ => (if abs then [SLASH] else []) ++ join_slash ws ++
         (if trailing && negb (bool_decide (list.last ws = Some DOTDOT)) then [SLASH] else [])
  end.

(** A last filename that is a dot or a dot-dot leaves a trailing separator. *)
Definition norm_trailing (s : bytes) : bool :=
  ends_with_slash s ||
  match list.last (filenames s) with
  | Some w => bool_decide (w = DOT) || bool_decide (w = DOTDOT)
  | None => false
  end.

Definition lexically_normal (s : bytes) : bytes :=
  match s with
  | [] => []
  | _ => render (is_absolute s) (norm_names (is_absolute s) (filenames s)) (norm_trailing s)
  end.

Example normal_1 : lexically_normal (s! "a/b/..") = s! "a/". Proof. done. Qed.
Example normal_2 : lexically_normal (s! "a/./b//../c") = s! "a/c". Proof. done. Qed.
Example normal_3 : lexically_normal (s! "a/../..") = s! "..". Proof. done. Qed.
Example normal_4 : lexically_normal (s! "/../x/") = s! "/x/". Proof. done. Qed.
Example normal_5 : lexically_normal (s! "a/..") = s! ".". Proof. done. Qed.

(** ** The traversal guard *)

Definition resolve_safe_path (doc_root url_path : bytes) : option bytes :=
  match percent_decode url_path with
  | None => None
  | Some decoded =>
      let rel := match decoded with
                 | c :: t => if c =? SLASH then t else decoded
                 | [] => decoded
                 end in
      let pn := lexically_normal (path_join doc_root rel) in
      let rn := lexically_normal doc_root in
      if (length pn <? length rn)%nat || negb (starts_with rn pn) ||
         ((length rn <? length pn)%nat && negb (default 0 (pn !! length rn) =? SLASH))
      then None else Some pn
  end.

(** ** The static request processor *)

(** What the process sees of the disk. *)
Record FileSystem := mkFS {
  fs_is_directory : bytes → bool;
  fs_size : bytes → option Z;           (* [None]: the file cannot be opened *)
  fs_read : bytes → option bytes;
}.

(** [path.extension()]: from the last dot of the last name, when that name is
    neither a dot, a dot-dot nor starts with that dot. *)
Definition extension (p : bytes) : bytes :=
  let name := after_last SLASH p in
  if bool_decide (name = DOT) || bool_decide (name = DOTDOT) then [] else
  match find_char 46 (reverse name) with
  | None => []
  | Some i => if (S i =? length name)%nat then [] else drop (length name - S i) name
  end.

Definition mime_table : list (bytes * bytes) := [
  (s! ".html", s! "text/html; charset=utf-8"); (s! ".htm", s! "text/html; charset=utf-8");
  (s! ".css", s! "text/css"); (s! ".js", s! "application/javascript");
  (s! ".json", s! "application/json"); (s! ".txt", s! "text/plain; charset=utf-8");
  (s! ".xml", s! "application/xml"); (s! ".svg", s! "image/svg+xml");
  (s! ".png", s! "image/png"); (s! ".jpg", s! "image/jpeg");
  (s! ".jpeg", s! "image/jpeg"); (s! ".gif", s! "image/gif");
  (s! ".webp", s! "image/webp"); (s! ".ico", s! "image/x-icon");
  (s! ".woff", s! "font/woff"); (s! ".woff2", s! "font/woff2");
  (s! ".ttf", s! "font/ttf"); (s! ".otf", s! "font/otf");
  (s! ".pdf", s! "application/pdf"); (s! ".zip", s! "application/zip");
  (s! ".wasm", s! "application/wasm")].

Definition mime_for_extension (ext : bytes) : bytes :=
  match List.find (λ e, bool_decide (ext = e.1)) mime_table with
  | Some e => e.2
  | None => s! "application/octet-stream"
  end.

Definition default_content_type : bytes := s! "text/html; charset=utf-8".

Definition inline_response (status : Z) (body : bytes) : HttpResponse :=
  mkResp status default_content_type body (Z.of_nat (length body)) [].

Definition process_static_request (fs : FileSystem) (rq : HttpRequest) (doc_root : bytes)
  : HttpResponse :=
  if negb (bool_decide (rq_method rq = s! "GET")) && negb (bool_decide (rq_method rq = s! "HEAD"))
  then inline_response 405 (s! "method not allowed" ++ [LF]) else
  match resolve_safe_path doc_root (rq_path rq) with
  | None => inline_response 403 (s! "forbidden" ++ [LF])
  | Some full =>
      let full := if fs_is_directory fs full then path_join full (s! "index.html") else full in
      match fs_size fs full with
      | None => inline_response 404 (s! "not found" ++ [LF])
      | Some len => mkResp 200 (mime_for_extension (extension full)) [] len full
      end
  end.

(** ** Normalised paths *)

Definition comp_ok (w : bytes) : Prop := w ≠ [] ∧ SLASH ∉ w.

(** A plain name: no separator, neither empty, nor a dot, nor a dot-dot. *)
Definition is_name (w : bytes) : Prop := comp_ok w ∧ w ≠ DOT ∧ w ≠ DOTDOT.

Lemma split_slash_no_slash s : Forall (λ w, SLASH ∉ w) (split_slash s).
Proof.
  induction s as [|c s IH]; simpl; [apply Forall_singleton, not_elem_of_nil|].
  destruct (Z.eqb_spec c SLASH); [constructor; [apply not_elem_of_nil|done]|].
  destruct (split_slash s) as [|w ws]; inversion IH; subst.
  - apply Forall_singleton. rewrite list_elem_of_singleton. congruence.
  - constructor; [|done]. rewrite elem_of_cons. naive_solver.
Qed.

Lemma filenames_ok s : Forall comp_ok (filenames s).
Proof.
  unfold filenames. apply Forall_forall. intros w Hw%list_elem_of_In.
  apply list_elem_of_filter in Hw as [Hne Hin]. split; [done|].
  pose proof (split_slash_no_slash s) as H. rewrite Forall_forall in H.
  by apply H, list_elem_of_In.
Qed.

(** Dot-dots first (none in an absolute path), then plain names. *)
Definition norm_form (abs : bool) (N : list bytes) : Prop :=
  ∃ k names, N = replicate k DOTDOT ++ names ∧ Forall is_name names ∧ (abs = true → k = O).

Lemma norm_step_form abs stack w :
  comp_ok w → norm_form abs (reverse stack) → norm_form abs (reverse (norm_step abs stack w)).
Proof.
  intros Hw (k & names & HN & Hnames & Habs). unfold norm_step.
  destruct (bool_decide (w = DOT)) eqn:Ed; bool_prop; [by exists k, names|].
  destruct (bool_decide (w = DOTDOT)) eqn:Edd; bool_prop.
  2:{ exists k, (names ++ [w]). rewrite reverse_cons, HN, <-app_assoc. split_and!; [done| |done].
      apply Forall_app. split; [done|]. apply Forall_singleton. by split. }
  subst w. destruct stack as [|t stack].
  { destruct abs; [by exists O, []|]. exists 1%nat, []. by split_and!. }
  rewrite reverse_cons in HN.
  destruct names as [|n names _] using rev_ind.
  - rewrite app_nil_r in HN. destruct k as [|k].
    { by apply (f_equal length) in HN; rewrite length_app in HN; simpl in HN; lia. }
    rewrite replicate_S_end in HN. apply app_inj_tail in HN as [HN ->].
    rewrite bool_decide_eq_true_2 by done. exists (S (S k)), [].
    rewrite !reverse_cons, HN, app_nil_r, <-!replicate_S_end. split_and!; [done|done|].
    intros ->. by specialize (Habs eq_refl).
  - rewrite app_assoc in HN. apply app_inj_tail in HN as [HN ->].
    apply Forall_app in Hnames as [Hnames Hn]. inversion Hn as [|? ? Hname]; subst.
    rewrite bool_decide_eq_false_2 by apply Hname. by exists k, names.
Qed.

Lemma norm_names_form abs ws : Forall comp_ok ws → norm_form abs (norm_names abs ws).
Proof.
  intros Hws. unfold norm_names.
  assert (∀ st, norm_form abs (reverse st) → norm_form abs (reverse (foldl (norm_step abs) st ws))) as H.
  { induction Hws as [|w ws Hw _ IH]; intros st Hst; simpl; [done|]. by apply IH, norm_step_form. }
  apply H. exists O, []. by split_and!.
Qed.

Lemma norm_form_comp abs N : norm_form abs N → Forall comp_ok N.
Proof.
  intros (k & names & -> & Hn & _). apply Forall_app. split.
  - apply Forall_replicate. split; [done|]. unfold DOTDOT, SLASH.
    rewrite !elem_of_cons, elem_of_nil. naive_solver.
  - eapply List.Forall_impl; [|done]. by intros ? [? _].
Qed.

(** ** Strings of normalised paths *)

(** What can follow a name in a path string. *)
Definition sep_tail (t : bytes) : Prop := t = [] ∨ ∃ t', t = SLASH :: t'.

Lemma name_tail_inj w w' t t' :
  SLASH ∉ w → SLASH ∉ w' → sep_tail t → sep_tail t' → w ++ t = w' ++ t' → w = w' ∧ t = t'.
Proof.
  revert w'. induction w as [|c w IH]; intros [|c' w']; simpl; intros Hw Hw' Ht Ht' E; try done.
  - destruct Ht as [->|[? ->]]; [done|]. injection E as <- _. exfalso. apply Hw'. left.
  - destruct Ht' as [->|[? ->]]; [done|]. injection E as -> _. exfalso. apply Hw. left.
  - rewrite not_elem_of_cons in Hw, Hw'. injection E as -> E.
    destruct (IH w') as [-> ->]; naive_solver.
Qed.

Lemma join_slash_cons w ws : ws ≠ [] → join_slash (w :: ws) = w ++ [SLASH] ++ join_slash ws.
Proof. by destruct ws. Qed.

Lemma join_slash_not_nil ws : ws ≠ [] → Forall comp_ok ws → join_slash ws ≠ [].
Proof.
  destruct ws as [|w [|w' ws]]; intros Hne Hok; [done| |]; inversion Hok as [|? ? [Hw _]]; subst.
  - by destruct w.
  - rewrite join_slash_cons by done. by destruct w.
Qed.

(** What follows the rendering of a prefix of the names. *)
Definition join_rest (X : list bytes) (tr : bytes) : bytes :=
  match X with [] => tr | _ => SLASH :: join_slash X ++ tr end.

(** A rendered path with a separator boundary is a prefix name by name. *)
Lemma join_slash_prefix R N t tr :
  R ≠ [] → N ≠ [] → Forall comp_ok R → Forall comp_ok N → sep_tail t → (tr = [] ∨ tr = [SLASH]) →
  join_slash R ++ t = join_slash N ++ tr → ∃ X, N = R ++ X ∧ t = join_rest X tr.
Proof.
  revert N. induction R as [|w R IH]; intros N HR HN HRok HNok Ht Htr E; [done|].
  destruct N as [|w' N]; [done|].
  inversion HRok as [|? ? [Hw Hsw] HRok']; inversion HNok as [|? ? [Hw' Hsw'] HNok']; subst.
  assert (sep_tail tr) as Hst by (destruct Htr as [->| ->]; [by left|right; eauto]).
  destruct (decide (R = [])) as [->|HRne], (decide (N = [])) as [->|HNne].
  - simpl in E. apply name_tail_inj in E as [-> ->]; [|done..]. by exists [].
  - rewrite (join_slash_cons w' N) in E by done. simpl join_slash in E. rewrite <-!app_assoc in E.
    apply name_tail_inj in E as [-> ->]; [|done|done|done|right; eexists; reflexivity].
    exists N. by destruct N.
  - rewrite (join_slash_cons w R) in E by done. simpl join_slash in E. rewrite <-!app_assoc in E.
    apply name_tail_inj in E as [-> E]; [|done|done|right; eexists; reflexivity|done].
    exfalso. destruct Htr as [->| ->]; [done|]. injection E as E.
    apply app_eq_nil in E as [E _]. by eapply join_slash_not_nil.
  - rewrite (join_slash_cons w R), (join_slash_cons w' N) in E by done. rewrite <-!app_assoc in E.
    apply name_tail_inj in E as [-> E]; [|done|done|right; eexists; reflexivity|right; eexists; reflexivity].
    injection E as E. destruct (IH N) as (X & -> & ->); [done..|]. by exists X.
Qed.

Lemma render_eq abs ws tr :
  ws ≠ [] → ∃ tl, (tl = [] ∨ tl = [SLASH]) ∧ (tr = false → tl = []) ∧
    (tr = true → list.last ws ≠ Some DOTDOT → tl = [SLASH]) ∧
    render abs ws tr = (if abs then [SLASH] else []) ++ join_slash ws ++ tl.
Proof.
  destruct ws as [|w ws]; [done|]. intros _. unfold render.
  destruct tr; simpl andb; [destruct (bool_decide (list.last (w :: ws) = Some DOTDOT)) eqn:E; simpl negb|].
  - bool_prop. exists []. split_and!; [by left|done|done|done].
  - bool_prop. exists [SLASH]. split_and!; [by right|done|done|done].
  - exists []. split_and!; [by left|done|done|done].
Qed.

Lemma join_slash_head ws :
  ws ≠ [] → Forall comp_ok ws → ∃ c r, c ≠ SLASH ∧ join_slash ws = c :: r.
Proof.
  intros Hne Hok. destruct ws as [|w ws]; [done|].
  inversion Hok as [|? ? [Hw Hsw]]; subst. destruct w as [|c w]; [done|].
  rewrite not_elem_of_cons in Hsw. exists c. destruct ws; eexists; (split; [naive_solver|done]).
Qed.

Lemma join_slash_single ws c : Forall comp_ok ws → join_slash ws = [c] → ws = [[c]].
Proof.
  intros Hok. destruct ws as [|w0 [|w1 ws]]; [done|simpl; congruence|].
  inversion Hok as [|? ? [Hw0 _]]; subst. rewrite join_slash_cons by done.
  destruct w0 as [|a [|b w0]]; done.
Qed.

(** The names a normalised path with a last plain name is made of. *)
Lemma norm_names_last abs ws w :
  Forall comp_ok ws → list.last (norm_names abs ws) = Some w → w ≠ DOTDOT →
  is_name w ∧ norm_names abs ws ≠ [].
Proof.
  intros Hws Hl Hw. destruct (norm_names_form abs ws Hws) as (k & names & E & Hn & _).
  rewrite E in *. split; [|by destruct (replicate k DOTDOT ++ names)].
  destruct names as [|n names _] using rev_ind.
  - rewrite app_nil_r in Hl. destruct k; [done|]. rewrite replicate_S_end, last_snoc in Hl. congruence.
  - rewrite app_assoc, last_snoc in Hl. simplify_eq. apply Forall_app in Hn as [_ Hn].
    by inversion Hn.
Qed.

(** Below a path whose last part is a plain name there are only plain names. *)
Lemma norm_form_suffix abs R X w :
  norm_form abs (R ++ X) → list.last R = Some w → w ≠ DOTDOT → Forall is_name X.
Proof.
  intros (k & names & E & Hn & _) Hl Hw.
  destruct (decide (length R ≤ k)%nat) as [Hle|Hgt].
  - exfalso. apply last_Some in Hl as [R' ->]. rewrite length_app in Hle. simpl in Hle.
    assert (((R' ++ [w]) ++ X) !! length R' = Some w) as H1.
    { rewrite <-app_assoc. simpl. by rewrite list_lookup_middle. }
    rewrite E, lookup_app_l in H1 by (rewrite length_replicate; lia).
    apply lookup_replicate in H1 as [? _]. congruence.
  - apply (f_equal (drop (length R))) in E. rewrite drop_app_length in E. subst X.
    rewrite drop_app_ge by (rewrite length_replicate; lia). by apply Forall_drop.
Qed.

Lemma path_join_cases root rel :
  root ≠ [] →
  path_join root rel ≠ [] ∧
  (is_absolute (path_join root rel) = is_absolute root ∨ is_absolute (path_join root rel) = true).
Proof.
  intros Hr. unfold path_join. destruct (is_absolute rel) eqn:Ha.
  - split; [by destruct rel|by right].
  - destruct root as [|c root]; [done|].
    destruct (list.last (c :: root)) as [b|] eqn:El; [|by apply last_None in El].
    destruct (b =? SLASH); (split; [done|by left]).
Qed.

(** The guard of [resolve_safe_path], as an equation. *)
Lemma guard_eq rn pn :
  ((length pn <? length rn)%nat || negb (starts_with rn pn) ||
   ((length rn <? length pn)%nat && negb (default 0 (pn !! length rn) =? SLASH))) = false →
  ∃ t, pn = rn ++ t ∧ sep_tail t.
Proof.
  intros H. apply orb_false_iff in H as [H H3]. apply orb_false_iff in H as [H1 H2].
  bool_prop. apply starts_with_spec in H2 as [t ->]. exists t. split; [done|].
  destruct t as [|c t]; [by left|]. right.
  rewrite length_app, (proj2 (Nat.ltb_lt _ _)) in H3 by (simpl; lia).
  rewrite list_lookup_middle in H3 by done. simpl in H3. bool_prop. subst. eauto.
Qed.

Section Resolve.
Context (root : bytes) (w : bytes).
Let R := norm_names (is_absolute root) (filenames root).
Hypothesis Hlast : list.last R = Some w.
Hypothesis Hw : w ≠ DOTDOT.

Lemma root_not_nil : root ≠ [].
Proof. intros ->. done. Qed.

Lemma root_name : is_name w ∧ R ≠ [].
Proof. by apply norm_names_last; [apply filenames_ok| |]. Qed.

Lemma R_ok : Forall comp_ok R.
Proof. apply (norm_form_comp (is_absolute root)), norm_names_form, filenames_ok. Qed.

Lemma rn_render : lexically_normal root = render (is_absolute root) R (norm_trailing root).
Proof. unfold lexically_normal. pose proof root_not_nil. by destruct root. Qed.

(** A path the guard accepts extends the root name by name. *)
Lemma guard_names rel t :
  lexically_normal (path_join root rel) = lexically_normal root ++ t → sep_tail t →
  ∃ X tl tr,
    norm_names (is_absolute root) (filenames (path_join root rel)) = R ++ X ∧
    lexically_normal (path_join root rel) = render (is_absolute root) (R ++ X) tr ∧
    (tl = [] ∨ tl = [SLASH]) ∧
    (if norm_trailing root then SLASH :: t else t) = join_rest X tl ∧
    norm_form (is_absolute root) (R ++ X).
Proof.
  intros E Ht. destruct root_name as [Hname HR]. pose proof R_ok as HRok.
  destruct (path_join_cases root rel root_not_nil) as [Hj Habs].
  set (j := path_join root rel) in *.
  assert (lexically_normal j = render (is_absolute j) (norm_names (is_absolute j) (filenames j)) (norm_trailing j)) as Ej
    by (unfold lexically_normal; by destruct j).
  rewrite rn_render in E. set (N := norm_names (is_absolute j) (filenames j)) in *.
  pose proof (norm_names_form (is_absolute j) (filenames j) (filenames_ok j)) as HN.
  pose proof (norm_form_comp _ _ HN) as HNok. fold N in HN, HNok.
  destruct (render_eq (is_absolute root) R (norm_trailing root) HR) as (tl & Htl & Htf & Htt & Er).
  rewrite Er in E. specialize (Htt) as Htt'.
  assert (tl = if norm_trailing root then [SLASH] else []) as Etl.
  { destruct (norm_trailing root); [apply Htt'; [done|]|by apply Htf]. rewrite Hlast. congruence. }
  destruct (join_slash_head R HR HRok) as (c & r & Hc & Ec).
  destruct (decide (N = [])) as [HN0|HNne].
  { (* the joined path is the root directory or the current one: too short *)
    exfalso. rewrite Ej in E. unfold render in E. rewrite HN0, Ec in E.
    destruct (is_absolute j) eqn:Ea; destruct (is_absolute root) eqn:Eb; simpl in E; simplify_eq.
    unfold DOT in E. injection E as <- E. symmetry in E. apply app_eq_nil in E as [E _].
    apply app_eq_nil in E as [-> _].
    apply join_slash_single in Ec; [|done]. rewrite Ec in Hlast. injection Hlast as <-.
    by destruct Hname as [_ [Hdot _]]. }
  destruct (render_eq (is_absolute j) N (norm_trailing j) HNne) as (tl' & Htl' & _ & _ & Er').
  destruct (join_slash_head N HNne HNok) as (c' & r' & Hc' & Ec').
  rewrite Ej, Er' in E.
  assert (is_absolute j = is_absolute root) as Ea.
  { destruct Habs as [?|Ht']; [done|]. rewrite Ht' in *. destruct (is_absolute root); [done|].
    rewrite Ec in E. simpl in E. simplify_eq. }
  rewrite Ea in *. rewrite <-!app_assoc in E. apply app_inv_head in E.
  symmetry in E. apply join_slash_prefix in E as (X & EX & Et); [|done..| |done].
  2:{ destruct Htl as [->| ->]; simpl; [done|right; eauto]. }
  exists X, tl', (norm_trailing j). subst N. rewrite Ej. rewrite EX in HN |- *.
  split_and!; [by rewrite <-Ea|done|done| |done]. rewrite <-Et, Etl. by destruct (norm_trailing root).
Qed.
End Resolve.

(** ** Properties *)

(** C39: The directory-traversal guard is sound: when the document root
    normalises to a path that ends in a plain name and has no trailing
    separator, every path [resolve_safe_path] returns is that root followed by
    plain names only, whatever the request target (percent-encoded dot-dots,
    doubled slashes and absolute targets included); so no accepted path leaves
    the root. *)
Theorem resolve_safe_path_contained (root url full w : bytes)
  (Hlast : list.last (norm_names (is_absolute root) (filenames root)) = Some w)
  (Hw : w ≠ DOTDOT) (Htr : norm_trailing root = false)
  (Hres : resolve_safe_path root url = Some full) :
  ∃ X tr, full = render (is_absolute root) (norm_names (is_absolute root) (filenames root) ++ X) tr ∧
          Forall is_name X.
Proof.
  unfold resolve_safe_path in Hres.
  destruct (percent_decode url) as [decoded|]; [|done].
  set (rel := match decoded with c :: t => _ | [] => _ end) in *.
  destruct (_ || _ || _) eqn:G; [done|]. simplify_eq.
  apply guard_eq in G as (t & Et & Ht).
  destruct (guard_names root w Hlast Hw rel t Et Ht) as (X & tl & tr & EN & Er & _ & _ & HN).
  exists X, tr. split; [done|]. by eapply norm_form_suffix.
Qed.

Lemma resolve_safe_path_contained_witness :
  resolve_safe_path (s! "config/web") (s! "/a/%2e%2e/b.html") = Some (s! "config/web/b.html") ∧
  ∃ X tr, s! "config/web/b.html" = render false ([s! "config"; s! "web"] ++ X) tr ∧ Forall is_name X.
Proof.
  split; [vm_compute; done|].
  apply (resolve_safe_path_contained (s! "config/web") (s! "/a/%2e%2e/b.html") (s! "config/web/b.html") (s! "web"));
    vm_compute; done.
Defined.

(** A document root written with a trailing separator serves nothing but
    itself: the guard compares against the normalised root string, which keeps
    the separator, and then asks for another separator right after it, so
    every file below the root is refused.  (The comment in the source says the
    trailing separator makes no difference.) *)
Theorem trailing_root_blocks_files (root url full w : bytes)
  (Hlast : list.last (norm_names (is_absolute root) (filenames root)) = Some w)
  (Hw : w ≠ DOTDOT) (Htr : norm_trailing root = true)
  (Hres : resolve_safe_path root url = Some full) :
  full = lexically_normal root.
Proof.
  unfold resolve_safe_path in Hres.
  destruct (percent_decode url) as [decoded|]; [|done].
  set (rel := match decoded with c :: t => _ | [] => _ end) in *.
  destruct (_ || _ || _) eqn:G; [done|]. simplify_eq.
  apply guard_eq in G as (t & Et & Ht).
  destruct (guard_names root w Hlast Hw rel t Et Ht) as (X & tl & tr & _ & _ & Htl & Hrest & HN).
  rewrite Htr in Hrest. rewrite Et. destruct Ht as [->|[t' ->]]; [by rewrite app_nil_r|].
  exfalso. apply norm_form_comp in HN. apply Forall_app in HN as [_ HX].
  unfold join_rest in Hrest. destruct X as [|x X].
  - destruct Htl as [->| ->]; done.
  - destruct (join_slash_head (x :: X)) as (c & r & Hc & Ec); [done|done|].
    rewrite Ec in Hrest. injection Hrest as Hrest _. by apply Hc.
Qed.

Lemma trailing_root_blocks_files_witness :
  resolve_safe_path (s! "config/web/") (s! "/") = Some (s! "config/web/") ∧
  resolve_safe_path (s! "config/web/") (s! "/index.html") = None ∧
  s! "config/web/" = lexically_normal (s! "config/web/").
Proof.
  split; [vm_compute; done|]. split; [vm_compute; done|].
  apply (trailing_root_blocks_files (s! "config/web/") (s! "/") (s! "config/web/") (s! "web"));
    vm_compute; done.
Defined.

(** ** Body framing *)

Lemma content_length_loop_spec s acc n :
  0 ≤ acc < 2 ^ 64 → content_length_loop s acc = Some n →
  n = dec_value acc s ∧ Forall (λ b, isdigit b = true) s ∧ u64_ok n.
Proof.
  revert acc. induction s as [|c s IH]; intros acc Hacc; simpl.
  - intros [= <-]. split_and!; [done|constructor|done].
  - destruct (isdigit c) eqn:Hd; [|done]. simpl.
    destruct (_ >? _) eqn:Hov; [done|]. bool_prop. intros H.
    unfold isdigit in Hd. bool_prop.
    assert (acc * 10 + (c - 48) ≤ 2 ^ 64 - 1) as Hle.
    { pose proof (Z.div_mod (2 ^ 64 - 1 - (c - 48)) 10 ltac:(lia)).
      pose proof (Z.mod_pos_bound (2 ^ 64 - 1 - (c - 48)) 10 ltac:(lia)). lia. }
    destruct (IH (acc * 10 + (c - 48))) as (-> & Hs & Hn); [lia|done|].
    split_and!; [done| |done]. constructor; [|done]. unfold isdigit. lia.
Qed.

Lemma content_length_loop_complete s acc :
  0 ≤ acc → Forall (λ b, isdigit b = true) s → dec_value acc s < 2 ^ 64 →
  content_length_loop s acc = Some (dec_value acc s).
Proof.
  intros Hacc Hs. revert acc Hacc. induction Hs as [|c s Hd Hs IH]; intros acc Hacc Hlt; [done|].
  cbn [content_length_loop]. rewrite Hd. cbn [negb]. unfold isdigit in Hd. bool_prop.
  change (dec_value acc (c :: s)) with (dec_value (acc * 10 + (c - 48)) s) in *.
  assert (∀ a t, 0 ≤ a → Forall (λ b, isdigit b = true) t → a ≤ dec_value a t) as Hmono.
  { intros a t Ha Ht. revert a Ha. induction Ht as [|b t Hb _ IHt]; intros a Ha; [done|].
    change (dec_value a (b :: t)) with (dec_value (a * 10 + (b - 48)) t).
    unfold isdigit in Hb. bool_prop. specialize (IHt (a * 10 + (b - 48))). lia. }
  pose proof (Hmono (acc * 10 + (c - 48)) s ltac:(lia) Hs).
  destruct (_ >? _) eqn:Hov; bool_prop; [|apply IH; [lia|done]].
  pose proof (Z.div_mod (2 ^ 64 - 1 - (c - 48)) 10 ltac:(lia)).
  pose proof (Z.mod_pos_bound (2 ^ 64 - 1 - (c - 48)) 10 ltac:(lia)). lia.
Qed.

(** Body framing without [Transfer-Encoding]: a [Content-Length] is
    accepted exactly when it is a non-empty string of decimal digits whose
    value fits in a [size_t], and then the announced length is that value
    (the overflow test of the digit loop neither rejects a representable
    length nor lets a wrapped one through); a body is announced exactly when
    it is not zero. *)
Theorem content_length_exact (rq : HttpRequest) (cl : bytes) (n : Z)
  (Hte : find_header rq (s! "transfer-encoding") = None)
  (Hcl : find_header rq (s! "content-length") = Some cl) :
  determine_body_framing rq = Some (mkFraming false n (negb (n =? 0))) ↔
  cl ≠ [] ∧ Forall (λ b, isdigit b = true) cl ∧ n = dec_value 0 cl ∧ n < 2 ^ 64.
Proof.
  unfold determine_body_framing. rewrite Hte, Hcl.
  destruct cl as [|c cl]; [naive_solver|]. split.
  - intros (m & Hm & E)%fmap_Some. simplify_eq.
    apply content_length_loop_spec in Hm as (-> & Hd & [_ ?]); [|lia]. by split_and!.
  - intros (_ & Hd & -> & Hlt). rewrite content_length_loop_complete by (done || lia). done.
Qed.

Lemma content_length_exact_witness :
  determine_body_framing (mkReq [] [] [] [] [] {[s! "content-length" := s! "18446744073709551615"]})
    = Some (mkFraming false 18446744073709551615 true) ∧
  determine_body_framing (mkReq [] [] [] [] [] {[s! "content-length" := s! "18446744073709551616"]})
    = None.
Proof.
  split; [|vm_compute; done].
  apply (content_length_exact
    (mkReq [] [] [] [] [] {[s! "content-length" := s! "18446744073709551615"]})
    (s! "18446744073709551615") 18446744073709551615).
  - vm_compute. done.
  - vm_compute. done.
  - split; [done|]. split; [|vm_compute; done].
    apply (bool_decide_eq_true_1 (Forall _ _)). vm_compute. done.
Defined.
