(* ===== verification/H2Session.v ===== *)
(** * The HTTP/2 connection

    Models [src/framework/http/codec/h2_codec.cpp] (request assembly and HPACK
    decoding per stream) and [include/framework/http/h2/h2_session.tpp] (the
    connection: preface, frame dispatch, SETTINGS, flow control, stream
    table, responses).  The files a response reads are the [FileSystem] of
    [HttpParser].

    [streams_] and [heads_] are [std::map]s, walked in key order, so both are
    association lists sorted by stream id.  [send_frame] appends to one
    first-in-first-out output; [ss_out] is the sequence of frames handed to
    it.  The windows are [int32_t]: every sum and difference of them is wrapped
    to 32 bits (the source's own overflow, which a peer's SETTINGS can cause, is
    undefined behaviour in C++; the model takes the two's complement result). *)

From Stdlib Require Import Sorted.
From S2P Require Import Prelude CString H2Framer H2Huffman H2Hpack HttpParser.

(** ** Ordered maps *)

Section SMap.
Context {V : Type}.

Fixpoint smap_find (k : Z) (m : list (Z * V)) : option V :=
  match m with
  | [] => None
  | (k', v) :: m => if k =? k' then Some v else smap_find k m
  end.

(** Replace the value of a key, or insert the key in order. *)
Fixpoint smap_set (k : Z) (v : V) (m : list (Z * V)) : list (Z * V) :=
  match m with
  | [] => [(k, v)]
  | (k', v') :: m' =>
      if k =? k' then (k, v) :: m' else
      if k <? k' then (k, v) :: m else (k', v') :: smap_set k v m'
  end.

Definition smap_erase (k : Z) (m : list (Z * V)) : list (Z * V) :=
  filter (λ e, e.1 ≠ k) m.

Lemma smap_set_Forall (P : Z * V → Prop) k v m :
  P (k, v) → Forall P m → Forall P (smap_set k v m).
Proof.
  intros Hk Hm. induction Hm as [|[k' v'] m Hp Hm IH]; simpl; [by apply Forall_singleton|].
  destruct (k =? k'); [by constructor|]. destruct (k <? k'); by repeat (constructor; try done).
Qed.

Lemma smap_erase_Forall (P : Z * V → Prop) k m : Forall P m → Forall P (smap_erase k m).
Proof. apply Forall_filter_keep. Qed.

Lemma smap_find_Forall (P : Z * V → Prop) k v m :
  Forall P m → smap_find k m = Some v → ∃ k', k = k' ∧ P (k', v).
Proof.
  induction 1 as [|[k' v'] m Hp _ IH]; simpl; [done|].
  destruct (Z.eqb_spec k k') as [->|]; [intros [= ->]; eauto|done].
Qed.

Lemma length_smap_set k v m :
  length (smap_set k v m) = match smap_find k m with Some _ => length m | None => S (length m) end
  ∨ length (smap_set k v m) = S (length m).
Proof.
  induction m as [|[k' v'] m IH]; simpl; [by right|].
  destruct (Z.eqb_spec k k'); [by left|]. destruct (k <? k'); [by right|].
  simpl. destruct IH as [->| ->]; [|by right]. destruct (smap_find k m); [left|right]; done.
Qed.
End SMap.

(** ** Request assembly: [H2Codec] *)

Definition kMaxHeaderBlockBytes : Z := 64 * 1024.

Record Head := mkHead {
  h_block : bytes;
  h_headers_done : bool;
  h_end_stream : bool;
  h_served : bool;
}.

Definition new_head : Head := mkHead [] false false false.

Record H2Codec := mkCodec {
  cd_decoder : HeaderDecoder;
  cd_heads : list (Z * Head);
  cd_last_client_stream : Z;
}.

Definition new_codec : H2Codec := mkCodec new_decoder [] 0.

(** [Result]: a connection error, or at most one complete request. *)
Inductive FeedResult := FeedError (e : ErrorCode) | FeedOk (r : option HttpRequest).

Definition flag_set (flags mask : Z) : bool := negb (Z.land flags mask =? 0).

(** The odd, strictly increasing ids a client may open. *)
Definition stream_start_valid (id : Z) (c : H2Codec) : option H2Codec :=
  if Z.land id 1 =? 0 then None else
  if id <=? cd_last_client_stream c then None else
  Some (mkCodec (cd_decoder c) (cd_heads c) id).

Definition strip_headers_prefix (flags : Z) (payload : bytes) : option bytes :=
  let padded := flag_set flags Flag.PADDED in
  match padded, payload with
  | true, [] => None
  | _, _ =>
      let off := if padded then 1%nat else O in
      let padlen := if padded then Z.to_nat (at_ payload 0) else O in
      if flag_set flags Flag.PRIORITY && (length payload <? off + 5)%nat then None else
      let off := (if flag_set flags Flag.PRIORITY then off + 5 else off)%nat in
      if (length payload <? off + padlen)%nat then None else
      Some (slice payload off (length payload - off - padlen))
  end.

Definition set_heads (c : H2Codec) (hs : list (Z * Head)) : H2Codec :=
  mkCodec (cd_decoder c) hs (cd_last_client_stream c).

(** [:method] and [:path] of a decoded header list; the last one wins. *)
Definition request_of (hs : list Header) : HttpRequest :=
  let '(m, p) := foldl (λ '(m, p) h,
      if bool_decide (h.1 = s! ":method") then (h.2, p) else
      if bool_decide (h.1 = s! ":path") then (m, h.2) else (m, p)) ([], []) hs in
  mkReq (match m with [] => s! "GET" | _ => m end) [] (match p with [] => s! "/" | _ => p end)
    [] [] ∅.

(** The tail of [feed]: decode and hand out a request once END_HEADERS and
    END_STREAM have both been seen. *)
Definition feed_finish (id : Z) (c : H2Codec) : FeedResult * H2Codec :=
  match smap_find id (cd_heads c) with
  | None => (FeedOk None, c)
  | Some h =>
      if h_headers_done h && h_end_stream h && negb (h_served h) then
        let '(ok, dec, hs) := decode (cd_decoder c) (h_block h) in
        if ok then
          (FeedOk (Some (request_of hs)),
           mkCodec dec (smap_erase id (cd_heads c)) (cd_last_client_stream c))
        else (FeedError COMPRESSION_ERROR, mkCodec dec (cd_heads c) (cd_last_client_stream c))
      else (FeedOk None, c)
  end.

Definition feed (id type flags : Z) (payload : bytes) (c : H2Codec) : FeedResult * H2Codec :=
  if type =? FrameType.HEADERS then
    match stream_start_valid id c with
    | None => (FeedError PROTOCOL_ERROR, c)
    | Some c =>
        let h := default new_head (smap_find id (cd_heads c)) in
        match strip_headers_prefix flags payload with
        | None => (FeedError PROTOCOL_ERROR, set_heads c (smap_set id h (cd_heads c)))
        | Some hp =>
            if Z.of_nat (length (h_block h)) + Z.of_nat (length hp) >? kMaxHeaderBlockBytes
            then (FeedError ENHANCE_YOUR_CALM, set_heads c (smap_set id h (cd_heads c)))
            else
              let h := mkHead (h_block h ++ hp)
                         (flag_set flags Flag.END_HEADERS || h_headers_done h)
                         (flag_set flags Flag.END_STREAM || h_end_stream h) (h_served h) in
              feed_finish id (set_heads c (smap_set id h (cd_heads c)))
        end
    end
  else if type =? FrameType.CONTINUATION then
    match smap_find id (cd_heads c) with
    | None => (FeedError PROTOCOL_ERROR, c)
    | Some h =>
        if Z.of_nat (length (h_block h)) + Z.of_nat (length payload) >? kMaxHeaderBlockBytes
        then (FeedError ENHANCE_YOUR_CALM, c)
        else
          let h := mkHead (h_block h ++ payload)
                     (flag_set flags Flag.END_HEADERS || h_headers_done h)
                     (h_end_stream h) (h_served h) in
          feed_finish id (set_heads c (smap_set id h (cd_heads c)))
    end
  else if type =? FrameType.DATA then
    match smap_find id (cd_heads c) with
    | Some h =>
        let h := mkHead (h_block h) (h_headers_done h)
                   (flag_set flags Flag.END_STREAM || h_end_stream h) (h_served h) in
        feed_finish id (set_heads c (smap_set id h (cd_heads c)))
    | None => (FeedOk None, c)
    end
  else (FeedOk None, c).

Definition abort_stream (id : Z) (c : H2Codec) : H2Codec :=
  set_heads c (smap_erase id (cd_heads c)).

Definition apply_header_table_size (n : Z) (c : H2Codec) : H2Codec :=
  mkCodec (set_header_table_size n (cd_decoder c)) (cd_heads c) (cd_last_client_stream c).

(** ** The connection: [H2Session] *)

Inductive ConnState := PREFACE | OPEN | CLOSED.

#[export] Instance ConnState_eq_dec : EqDecision ConnState.
Proof. solve_decision. Defined.

Inductive StreamState := S_IDLE | S_OPEN | S_HALF_CLOSED_LOCAL | S_HALF_CLOSED_REMOTE | S_CLOSED.

#[export] Instance StreamState_eq_dec : EqDecision StreamState.
Proof. solve_decision. Defined.

Record H2Stream := mkStream {
  st_state : StreamState;
  st_body : bytes;            (* request body received *)
  st_send_window : Z;
  st_pending_body : bytes;    (* response bytes waiting for window *)
  st_served : bool;
  st_done : bool;
}.

Definition new_stream : H2Stream := mkStream S_IDLE [] kDefaultWindow [] false false.

Record H2Session := mkSession {
  ss_state : ConnState;
  ss_got_preface : bool;
  ss_streams : list (Z * H2Stream);
  ss_last_client_stream : Z;
  ss_codec : H2Codec;
  ss_conn_window : Z;
  ss_max_frame_size : Z;
  ss_peer_window : Z;
  ss_out : list bytes;        (* frames handed to [send_frame], oldest first *)
  ss_closed : bool;
}.

Definition new_session : H2Session :=
  mkSession PREFACE false [] 0 new_codec kDefaultWindow 16384 kDefaultWindow [] false.

(** Field updates. *)
Definition upd_streams (m : list (Z * H2Stream)) (s : H2Session) : H2Session :=
  mkSession (ss_state s) (ss_got_preface s) m (ss_last_client_stream s) (ss_codec s)
    (ss_conn_window s) (ss_max_frame_size s) (ss_peer_window s) (ss_out s) (ss_closed s).
Definition upd_codec (c : H2Codec) (s : H2Session) : H2Session :=
  mkSession (ss_state s) (ss_got_preface s) (ss_streams s) (ss_last_client_stream s) c
    (ss_conn_window s) (ss_max_frame_size s) (ss_peer_window s) (ss_out s) (ss_closed s).
Definition upd_conn_window (w : Z) (s : H2Session) : H2Session :=
  mkSession (ss_state s) (ss_got_preface s) (ss_streams s) (ss_last_client_stream s) (ss_codec s)
    w (ss_max_frame_size s) (ss_peer_window s) (ss_out s) (ss_closed s).
Definition upd_last_client (id : Z) (s : H2Session) : H2Session :=
  mkSession (ss_state s) (ss_got_preface s) (ss_streams s) id (ss_codec s)
    (ss_conn_window s) (ss_max_frame_size s) (ss_peer_window s) (ss_out s) (ss_closed s).
Definition upd_settings (maxf pw : Z) (s : H2Session) : H2Session :=
  mkSession (ss_state s) (ss_got_preface s) (ss_streams s) (ss_last_client_stream s) (ss_codec s)
    (ss_conn_window s) maxf pw (ss_out s) (ss_closed s).

Definition send_frame (w : bytes) (s : H2Session) : H2Session :=
  mkSession (ss_state s) (ss_got_preface s) (ss_streams s) (ss_last_client_stream s) (ss_codec s)
    (ss_conn_window s) (ss_max_frame_size s) (ss_peer_window s) (ss_out s ++ [w]) (ss_closed s).

(** GOAWAY, drop every stream and assembly, close. *)
Definition close_protocol (code : ErrorCode) (s : H2Session) : H2Session :=
  match ss_state s with
  | CLOSED => s
  | _ =>
      mkSession CLOSED (ss_got_preface s) [] (ss_last_client_stream s)
        (set_heads (ss_codec s) []) (ss_conn_window s) (ss_max_frame_size s) (ss_peer_window s)
        (ss_out s ++ [build_goaway (ss_last_client_stream s) code]) true
  end.

(** *** Sending under flow control *)

Definition available_window (st : H2Stream) (conn : Z) : Z :=
  if (st_send_window st <=? 0) || (conn <=? 0) then 0 else Z.min (st_send_window st) conn.

(** The loop of [drain_stream]: the stream, the connection window and the
    frames sent.  Every round sends at least one byte, so the length of the
    pending body is enough fuel. *)
Fixpoint drain_loop (fuel : nat) (id maxf : Z) (st : H2Stream) (conn : Z)
  : H2Stream * Z * list bytes :=
  match fuel with
  | O => (st, conn, [])
  | S fuel =>
      match st_pending_body st with
      | [] => (st, conn, [])
      | _ =>
          let avail := available_window st conn in
          if avail =? 0 then (st, conn, []) else
          let n := Z.min avail (Z.of_nat (length (st_pending_body st))) in
          let n := if n >? maxf then maxf else n in
          let chunk := take (Z.to_nat n) (st_pending_body st) in
          let rest := drop (Z.to_nat n) (st_pending_body st) in
          let win := to_i32 (st_send_window st - n) in
          let conn := to_i32 (conn - n) in
          match rest with
          | [] => (mkStream S_CLOSED (st_body st) win [] (st_served st) true, conn,
                   [build_data id chunk true])
          | _ =>
              let st := mkStream (st_state st) (st_body st) win rest (st_served st) (st_done st) in
              let '(st, conn, fs) := drain_loop fuel id maxf st conn in
              (st, conn, build_data id chunk false :: fs)
          end
      end
  end.

Definition drain (id : Z) (st : H2Stream) (s : H2Session) : H2Stream * H2Session :=
  let '(st, conn, fs) :=
    drain_loop (length (st_pending_body st)) id (ss_max_frame_size s) st (ss_conn_window s) in
  (st, foldl (λ s f, send_frame f s) (upd_conn_window conn s) fs).

Definition send_response (id : Z) (st : H2Stream) (hdrs : list Header) (body : bytes)
    (head_only : bool) (s : H2Session) : H2Stream * H2Session :=
  let block := encode_response_headers hdrs in
  if head_only || match body with [] => true | _ => false end then
    (mkStream S_CLOSED (st_body st) (st_send_window st) (st_pending_body st) (st_served st) true,
     send_frame (build_headers id block true) s)
  else
    drain id (mkStream (st_state st) (st_body st) (st_send_window st) body (st_served st) (st_done st))
      (send_frame (build_headers id block false) s).

Definition serve_stream (fs : FileSystem) (root : bytes) (id : Z) (st : H2Stream)
    (rq : HttpRequest) (s : H2Session) : H2Stream * H2Session :=
  let resp := process_static_request fs rq root in
  let hdrs :=
    [(s! ":status", to_string (rs_status resp))]
    ++ (match rs_content_type resp with [] => [] | ct => [(s! "content-type", ct)] end)
    ++ [(s! "content-length", to_string (rs_content_length resp))] in
  if negb (rs_status resp =? 200) then send_response id st hdrs (rs_body resp) false s else
  if bool_decide (rq_method rq = s! "HEAD") then send_response id st hdrs [] true s else
  match fs_read fs (rs_full_path resp) with
  | None => send_response id st [(s! ":status", s! "404")] (s! "not found" ++ [LF]) false s
  | Some body => send_response id st hdrs body false s
  end.

Definition prune_streams (s : H2Session) : H2Session :=
  upd_streams (filter (λ e, st_done e.2 = false) (ss_streams s)) s.

(** *** SETTINGS *)

Definition apply_setting (key val : Z) (s : H2Session) : H2Session :=
  if key =? SettingsId.INITIAL_WINDOW_SIZE then
    let delta := to_i32 (to_i32 val - ss_peer_window s) in
    upd_settings (ss_max_frame_size s) (to_i32 val)
      (upd_streams ((λ e, (e.1, mkStream (st_state e.2) (st_body e.2) (to_i32 (st_send_window e.2 + delta))
          (st_pending_body e.2) (st_served e.2) (st_done e.2))) <$> ss_streams s) s)
  else if key =? SettingsId.HEADER_TABLE_SIZE then
    upd_codec (apply_header_table_size val (ss_codec s)) s
  else if key =? SettingsId.MAX_FRAME_SIZE then
    if (val >=? 16384) && (val <=? 2 ^ 24 - 1) then upd_settings val (ss_peer_window s) s else s
  else s.

(** Six bytes per setting; an incomplete one at the end is ignored. *)
Fixpoint apply_peer_settings (payload : bytes) (s : H2Session) : H2Session :=
  match payload with
  | k1 :: k0 :: v3 :: v2 :: v1 :: v0 :: rest =>
      apply_peer_settings rest (apply_setting (be_get [k1; k0]) (be_get [v3; v2; v1; v0]) s)
  | _ => s
  end.

(** *** Frames *)

Definition window_increment (payload : bytes) : Z :=
  if (4 <=? length payload)%nat then be31 payload 0 else 0.

(** [inc > (2^31 - 1) - (uint32_t)window], in unsigned 32-bit arithmetic. *)
Definition window_overflows (inc window : Z) : bool := inc >? to_u32 (2 ^ 31 - 1 - to_u32 window).

(** Drain every stream with pending bytes, in id order. *)
Fixpoint drain_all (ids : list Z) (s : H2Session) : H2Session :=
  match ids with
  | [] => s
  | id :: ids =>
      match smap_find id (ss_streams s) with
      | None => drain_all ids s
      | Some st =>
          match st_pending_body st with
          | [] => drain_all ids s
          | _ => let '(st, s) := drain id st s in
                 drain_all ids (upd_streams (smap_set id st (ss_streams s)) s)
          end
      end
  end.

Definition handle_connection_frame (f : Frame) (s : H2Session) : H2Session :=
  if f_type f =? FrameType.SETTINGS then
    if flag_set (f_flags f) Flag.ACK then s
    else send_frame build_settings_ack (apply_peer_settings (f_payload f) s)
  else if f_type f =? FrameType.PING then send_frame (build_ping_ack (f_payload f)) s
  else if f_type f =? FrameType.GOAWAY then
    mkSession CLOSED (ss_got_preface s) (ss_streams s) (ss_last_client_stream s) (ss_codec s)
      (ss_conn_window s) (ss_max_frame_size s) (ss_peer_window s) (ss_out s) true
  else if f_type f =? FrameType.WINDOW_UPDATE then
    let inc := window_increment (f_payload f) in
    if inc =? 0 then close_protocol PROTOCOL_ERROR s else
    if window_overflows inc (ss_conn_window s) then close_protocol FLOW_CONTROL_ERROR s else
    let s := prune_streams (upd_conn_window (to_i32 (ss_conn_window s + inc)) s) in
    drain_all (ss_streams s).*1 s
  else close_protocol PROTOCOL_ERROR s.

Definition handle_stream_frame (fs : FileSystem) (root : bytes) (f : Frame) (s : H2Session)
  : H2Session :=
  let id := f_stream_id f in
  if f_type f =? FrameType.RST_STREAM then
    upd_streams (smap_erase id (ss_streams s)) (upd_codec (abort_stream id (ss_codec s)) s)
  else if f_type f =? FrameType.WINDOW_UPDATE then
    match smap_find id (ss_streams s) with
    | None => s
    | Some st =>
        let inc := window_increment (f_payload f) in
        if (inc =? 0) || window_overflows inc (st_send_window st) then
          let s := send_frame (build_rst_stream id
                     (if inc =? 0 then PROTOCOL_ERROR else FLOW_CONTROL_ERROR)) s in
          upd_streams (smap_erase id (ss_streams s)) (upd_codec (abort_stream id (ss_codec s)) s)
        else
          let st := mkStream (st_state st) (st_body st) (to_i32 (st_send_window st + inc))
                      (st_pending_body st) (st_served st) (st_done st) in
          let '(st, s) := match st_pending_body st with [] => (st, s) | _ => drain id st s end in
          upd_streams (smap_set id st (ss_streams s)) s
    end
  else if f_type f =? FrameType.PRIORITY then s
  else
    let s := if f_type f =? FrameType.HEADERS then upd_last_client id s else s in
    let '(r, c) := feed id (f_type f) (f_flags f) (f_payload f) (ss_codec s) in
    let s := upd_codec c s in
    match r with
    | FeedError e => close_protocol e s
    | FeedOk req =>
        let s := prune_streams s in
        if (f_type f =? FrameType.HEADERS) &&
           match smap_find id (ss_streams s) with None => true | Some _ => false end &&
           (kMaxConcurrentStreams <=? length (ss_streams s))%nat
        then
          let s := send_frame (build_rst_stream id REFUSED_STREAM) s in
          upd_codec (abort_stream id (ss_codec s)) s
        else
          let st := default new_stream (smap_find id (ss_streams s)) in
          let st := if bool_decide (st_state st = S_IDLE)
                    then mkStream S_OPEN (st_body st) (ss_peer_window s) (st_pending_body st)
                           (st_served st) (st_done st)
                    else st in
          if (f_type f =? FrameType.DATA) &&
             (Z.of_nat (length (st_body st)) + Z.of_nat (length (f_payload f)) >? kMaxRequestBodyBytes)
          then
            let s := send_frame (build_rst_stream id ENHANCE_YOUR_CALM) s in
            upd_streams (smap_erase id (ss_streams s)) (upd_codec (abort_stream id (ss_codec s)) s)
          else
            let st := if f_type f =? FrameType.DATA
                      then mkStream (st_state st) (st_body st ++ f_payload f) (st_send_window st)
                             (st_pending_body st) (st_served st) (st_done st)
                      else st in
            match req with
            | Some rq =>
                if st_served st then upd_streams (smap_set id st (ss_streams s)) s
                else
                  let st := mkStream (st_state st) (st_body st) (st_send_window st)
                              (st_pending_body st) true (st_done st) in
                  let '(st, s) := serve_stream fs root id st rq s in
                  upd_streams (smap_set id st (ss_streams s)) s
            | None => upd_streams (smap_set id st (ss_streams s)) s
            end
    end.

Definition dispatch_frame (fs : FileSystem) (root : bytes) (f : Frame) (s : H2Session) : H2Session :=
  if f_stream_id f =? kNoStreamId then handle_connection_frame f s
  else handle_stream_frame fs root f s.

Definition handle_preface (data : bytes) (s : H2Session) : H2Session :=
  if (kMagicSize <=? length data)%nat && starts_with kConnectionMagic data then
    send_frame build_settings_frame
      (mkSession OPEN true (ss_streams s) (ss_last_client_stream s) (ss_codec s)
         (ss_conn_window s) (ss_max_frame_size s) (ss_peer_window s) (ss_out s) (ss_closed s))
  else close_protocol PROTOCOL_ERROR s.

(** One chunk of the read buffer: [handle_read] then [process_read]. *)
Definition on_chunk (fs : FileSystem) (root : bytes) (data : bytes) (s : H2Session) : H2Session :=
  if negb (ss_got_preface s) then handle_preface data s else
  match parse_frame data with
  | None => close_protocol FRAME_SIZE_ERROR s
  | Some f => match ss_state s with CLOSED => s | _ => dispatch_frame fs root f s end
  end.

(** [has_buffered_input] and [extract_one_line]: the next chunk and the rest. *)
Definition extract_one (s : H2Session) (buf : bytes) : option (bytes * bytes) :=
  if negb (ss_got_preface s) then
    if (length buf <? kMagicSize)%nat then None else Some (take kMagicSize buf, drop kMagicSize buf)
  else
    if (length buf <? kFrameHeaderSize)%nat then None else
    let n := (kFrameHeaderSize + Z.to_nat (frame_length buf))%nat in
    if (length buf <? n)%nat then None else Some (take n buf, drop n buf).

(** ** Draining a response *)

Lemma available_window_bounds st conn :
  0 ≤ available_window st conn ∧
  (available_window st conn ≠ 0 → available_window st conn ≤ conn ∧
     available_window st conn ≤ st_send_window st).
Proof. unfold available_window. destruct (_ || _) eqn:E; [lia|]. bool_prop. lia. Qed.

(** The frames of consecutive chunks; the last one ends the stream if [fin]. *)
Fixpoint data_frames (id : Z) (chunks : list bytes) (fin : bool) : list bytes :=
  match chunks with
  | [] => []
  | [c] => [build_data id c fin]
  | c :: cs => build_data id c false :: data_frames id cs fin
  end.

Definition total (chunks : list bytes) : Z := Z.of_nat (length (concat chunks)).

(** What one run of the loop promises about its result. *)
Record drained (id maxf : Z) (st : H2Stream) (conn : Z)
    (st' : H2Stream) (conn' : Z) (chunks : list bytes) : Prop := {
  dr_order : concat chunks ++ st_pending_body st' = st_pending_body st;
  dr_chunks : Forall (λ c : bytes, 0 < Z.of_nat (length c) ≤ maxf) chunks;
  dr_window : st_send_window st' = st_send_window st - total chunks;
  dr_conn : conn' = conn - total chunks;
  dr_nonneg : 0 ≤ conn → 0 ≤ conn';
  dr_cap : total chunks ≤ Z.max 0 (st_send_window st);
  dr_keep : st_pending_body st' = [] ∨ st_done st' = st_done st;
  dr_state : st_state st' = S_CLOSED ∨ st_state st' = st_state st;
  dr_stop : st_pending_body st' = [] ∨ available_window st' conn' = 0;
  dr_done : st_pending_body st ≠ [] → st_pending_body st' = [] →
            st_state st' = S_CLOSED ∧ st_done st' = true;
  dr_body : st_body st' = st_body st ∧ st_served st' = st_served st;
}.

Lemma drained_nil id maxf st conn :
  st_pending_body st = [] ∨ available_window st conn = 0 →
  drained id maxf st conn st conn [].
Proof. intros H. split; unfold total; simpl; auto; try lia; done. Qed.

Lemma total_cons c cs : total (c :: cs) = Z.of_nat (length c) + total cs.
Proof. unfold total. simpl. rewrite length_app. lia. Qed.

Lemma total_nil : total [] = 0.
Proof. done. Qed.

Lemma data_frames_cons id c cs fin :
  cs ≠ [] → data_frames id (c :: cs) fin = build_data id c false :: data_frames id cs fin.
Proof. by destruct cs. Qed.

Lemma drain_loop_spec fuel id maxf st conn st' conn' fs :
  0 < maxf → i32_ok (st_send_window st) → i32_ok conn → (length (st_pending_body st) ≤ fuel)%nat →
  drain_loop fuel id maxf st conn = (st', conn', fs) →
  ∃ chunks, drained id maxf st conn st' conn' chunks ∧
    fs = data_frames id chunks (bool_decide (st_pending_body st' = [])).
Proof.
  intros Hm. revert st conn st' conn' fs.
  induction fuel as [|fuel IH]; intros st conn st' conn' fs Hw Hconn Hfuel Hrun.
  { destruct (st_pending_body st) eqn:Ep; [|simpl in *; lia].
    simpl in Hrun. simplify_eq. exists []. split; [|done]. apply drained_nil. by left. }
  simpl in Hrun. destruct (st_pending_body st) as [|b0 pend] eqn:Ep.
  { simplify_eq. exists []. split; [|done]. apply drained_nil. by left. }
  destruct (available_window st conn =? 0) eqn:Ea; bool_prop.
  { simplify_eq. exists []. split; [|done]. apply drained_nil. by right. }
  rewrite <-Ep in Hrun. set (p := st_pending_body st) in *.
  destruct (available_window_bounds st conn) as [Hav0 Hav]. specialize (Hav Ea).
  set (n := if Z.min (available_window st conn) (Z.of_nat (length p)) >? maxf then maxf
            else Z.min (available_window st conn) (Z.of_nat (length p))) in Hrun.
  assert (0 < length p)%nat as Hp by (rewrite Ep; simpl; lia).
  assert (0 < n ≤ maxf ∧ n ≤ Z.of_nat (length p) ∧ n ≤ conn ∧ n ≤ st_send_window st) as (Hn & Hnp & Hnc & Hnw).
  { subst n. destruct (_ >? _) eqn:E; bool_prop; lia. }
  clearbody n. unfold i32_ok in Hw, Hconn. rewrite !to_i32_id in Hrun by (unfold i32_ok; lia).
  assert (Z.of_nat (length (take (Z.to_nat n) p)) = n) as Hlen by (rewrite length_take; lia).
  assert (take (Z.to_nat n) p ++ drop (Z.to_nat n) p = p) as Hsplit by apply take_drop.
  destruct (drop (Z.to_nat n) p) as [|b rest] eqn:Er.
  - injection Hrun as <- <- <-. exists [take (Z.to_nat n) p]. split; [|done].
    rewrite app_nil_r in Hsplit.
    split; simpl; rewrite ?app_nil_r, ?total_cons, ?total_nil; auto; try lia.
    apply Forall_singleton. lia.
  - set (st1 := mkStream _ _ _ _ _ _) in Hrun.
    destruct (drain_loop fuel id maxf st1 (conn - n)) as [[st2 conn2] fs2] eqn:E2.
    injection Hrun as <- <- <-. apply IH in E2 as (cs & D & ->); cycle 1.
    { unfold i32_ok. simpl. lia. }
    { unfold i32_ok. lia. }
    { simpl. assert (length (drop (Z.to_nat n) p) = length (b :: rest)) as Hd by by rewrite Er.
      rewrite length_drop, Ep in Hd. simpl in *. lia. }
    exists (take (Z.to_nat n) p :: cs). destruct D as [D1 D2 D3 D4 D5 Dc Dk Ds D6 D7 D8].
    simpl in D1, D3, Dc, Dk, Ds, D7, D8. split.
    + split; rewrite ?total_cons; auto; simpl; try lia.
      * by rewrite <-app_assoc, D1.
      * constructor; [lia|done].
    + destruct cs as [|c cs]; [|done].
      simpl in D1. simpl. rewrite D1. by rewrite bool_decide_eq_false_2.
Qed.

Lemma foldl_send_frame fs s :
  foldl (λ s f, send_frame f s) s fs =
  mkSession (ss_state s) (ss_got_preface s) (ss_streams s) (ss_last_client_stream s) (ss_codec s)
    (ss_conn_window s) (ss_max_frame_size s) (ss_peer_window s) (ss_out s ++ fs) (ss_closed s).
Proof.
  revert s. induction fs as [|f fs IH]; intros s; simpl.
  - rewrite app_nil_r. by destruct s.
  - rewrite IH. unfold send_frame. simpl. by rewrite <-app_assoc.
Qed.

Lemma drain_eq id st s st' s' :
  0 < ss_max_frame_size s → i32_ok (st_send_window st) → i32_ok (ss_conn_window s) →
  drain id st s = (st', s') →
  ∃ chunks, drained id (ss_max_frame_size s) st (ss_conn_window s) st' (ss_conn_window s') chunks ∧
    s' = mkSession (ss_state s) (ss_got_preface s) (ss_streams s) (ss_last_client_stream s)
           (ss_codec s) (ss_conn_window s - total chunks) (ss_max_frame_size s) (ss_peer_window s)
           (ss_out s ++ data_frames id chunks (bool_decide (st_pending_body st' = []))) (ss_closed s).
Proof.
  intros Hm Hw Hc. unfold drain.
  destruct (drain_loop _ _ _ _ _) as [[st1 conn1] fs] eqn:E. intros [= -> <-].
  apply drain_loop_spec in E as (cs & D & ->); [|done..].
  exists cs. rewrite foldl_send_frame. simpl. split; [done|]. by rewrite (dr_conn _ _ _ _ _ _ _ D).
Qed.

(** Response bodies are sent completely and in order under flow control.
    One run of [drain_stream] appends DATA frames to the output whose payloads
    are consecutive, non-empty pieces of the pending body, each at most the
    peer's maximum frame size; both windows, which start within [int32_t],
    shrink by exactly the bytes sent, no more is sent than the stream's window
    and the connection window never goes below zero; the loop stops only when
    the body is finished (the last frame then carries END_STREAM, no other
    does, and the stream is closed) or when a window is exhausted. *)
Theorem drain_in_order (id : Z) (st st' : H2Stream) (s s' : H2Session)
  (Hm : 0 < ss_max_frame_size s) (Hw : 0 ≤ ss_conn_window s ≤ 2 ^ 31 - 1)
  (Hs : i32_ok (st_send_window st)) (Hdrain : drain id st s = (st', s')) :
  ∃ chunks,
    concat chunks ++ st_pending_body st' = st_pending_body st ∧
    Forall (λ c : bytes, 0 < Z.of_nat (length c) ≤ ss_max_frame_size s) chunks ∧
    ss_out s' = ss_out s ++ data_frames id chunks (bool_decide (st_pending_body st' = [])) ∧
    ss_conn_window s' = ss_conn_window s - total chunks ∧ 0 ≤ ss_conn_window s' ∧
    st_send_window st' = st_send_window st - total chunks ∧ total chunks ≤ Z.max 0 (st_send_window st) ∧
    (st_pending_body st' = [] ∨ available_window st' (ss_conn_window s') = 0) ∧
    (st_pending_body st ≠ [] → st_pending_body st' = [] → st_state st' = S_CLOSED ∧ st_done st' = true).
Proof.
  assert (i32_ok (ss_conn_window s)) as Hc by (unfold i32_ok; lia).
  destruct (drain_eq _ _ _ _ _ Hm Hs Hc Hdrain) as (cs & D & ->). exists cs. destruct D. simpl in *.
  split_and!; auto; lia.
Qed.

Lemma drain_in_order_witness :
  let st := mkStream S_OPEN [] 7 (s! "hello world") true false in
  let s := send_frame build_settings_frame new_session in
  ∃ chunks, concat chunks ++ s! "orld" = s! "hello world" ∧
    ss_out (drain 1 st s).2 = ss_out s ++ data_frames 1 chunks false.
Proof.
  intros st s.
  destruct (drain_in_order 1 st (drain 1 st s).1 s (drain 1 st s).2) as (cs & H1 & _ & H2 & _);
    [done|by vm_compute|by vm_compute|by destruct (drain 1 st s)|].
  exists cs. split; [exact H1|]. rewrite H2. f_equal.
Defined.

(** ** The invariant of a connection *)

Definition head_ok (e : Z * Head) : Prop :=
  Z.of_nat (length (h_block e.2)) ≤ kMaxHeaderBlockBytes.

Record codec_wf (c : H2Codec) : Prop := {
  cw_table : table_wf (cd_decoder c);
  cw_heads : Forall head_ok (cd_heads c);
}.

Lemma feed_finish_wf id c : codec_wf c → codec_wf (feed_finish id c).2.
Proof.
  intros [Ht Hh]. unfold feed_finish.
  destruct (smap_find id (cd_heads c)) as [h|] eqn:Ef; [|done].
  destruct (_ && _); [|done].
  destruct (smap_find_Forall _ _ _ _ Hh Ef) as (k & _ & Hk).
  unfold head_ok, kMaxHeaderBlockBytes in Hk. simpl in Hk.
  destruct (decode (cd_decoder c) (h_block h)) as [[ok dec] hs] eqn:Ed.
  assert (table_wf dec) as Hd.
  { unfold decode in Ed. eapply decode_loop_wf; [..|exact Ed]; [done|lia]. }
  destruct ok; split; simpl; auto using smap_erase_Forall.
Qed.

Lemma set_head_wf id h c :
  codec_wf c → Z.of_nat (length (h_block h)) ≤ kMaxHeaderBlockBytes →
  codec_wf (set_heads c (smap_set id h (cd_heads c))).
Proof. intros [] Hl. split; simpl; auto using smap_set_Forall. Qed.

Lemma head_default_ok id c :
  codec_wf c →
  Z.of_nat (length (h_block (default new_head (smap_find id (cd_heads c))))) ≤ kMaxHeaderBlockBytes.
Proof.
  intros [_ Hh]. destruct (smap_find id (cd_heads c)) as [h|] eqn:Ef; simpl; [|done].
  by destruct (smap_find_Forall _ _ _ _ Hh Ef) as (k & _ & Hk).
Qed.

Lemma feed_wf id type flags payload c : codec_wf c → codec_wf (feed id type flags payload c).2.
Proof.
  intros Hc. unfold feed.
  destruct (type =? FrameType.HEADERS).
  { unfold stream_start_valid. destruct (Z.land id 1 =? 0); [done|].
    destruct (id <=? _); [done|].
    set (c1 := mkCodec _ _ id). assert (codec_wf c1) as Hc1 by (destruct Hc; by split).
    pose proof (head_default_ok id c1 Hc1) as Hd. simpl in Hd.
    destruct (strip_headers_prefix flags payload) as [hp|]; [|by apply set_head_wf].
    destruct (_ >? _) eqn:E; [by apply set_head_wf|]. bool_prop.
    apply feed_finish_wf, set_head_wf; [done|]. cbn [h_block]. rewrite length_app. lia. }
  destruct (type =? FrameType.CONTINUATION).
  { destruct (smap_find id (cd_heads c)) as [h|]; [|done].
    destruct (_ >? _) eqn:E; [done|]. bool_prop.
    apply feed_finish_wf, set_head_wf; [done|]. cbn [h_block]. rewrite length_app. lia. }
  destruct (type =? FrameType.DATA); [|done].
  pose proof (head_default_ok id c Hc) as Hd.
  destruct (smap_find id (cd_heads c)) as [h|]; [|done].
  by apply feed_finish_wf, set_head_wf.
Qed.

(** The payload bytes of the DATA frames in an output, and of those on one
    stream. *)
Definition data_len (w : bytes) : Z :=
  if at_ w 3 =? FrameType.DATA then Z.of_nat (length w - kFrameHeaderSize) else 0.
Definition data_sent (out : list bytes) : Z := foldr (λ w n, data_len w + n) 0 out.
Definition data_on (id : Z) (out : list bytes) : Z :=
  foldr (λ w n, (if be31 w 5 =? id then data_len w else 0) + n) 0 out.

(** An entry of the stream table. *)
Record stream_ok (e : Z * H2Stream) : Prop := {
  so_id : 0 ≤ e.1 < 2 ^ 31;
  so_body : Z.of_nat (length (st_body e.2)) ≤ kMaxRequestBodyBytes;
  so_window : i32_ok (st_send_window e.2);
  so_state : st_state e.2 ≠ S_IDLE;
  so_done : st_done e.2 = true → st_pending_body e.2 = [];
  so_unserved : st_served e.2 = false → st_done e.2 = false ∧ st_pending_body e.2 = [];
}.

Definition key_lt (e1 e2 : Z * H2Stream) : Prop := e1.1 < e2.1.

(** The windows and the frame size stay in their ranges, the HPACK table, the
    header blocks under assembly and the request bodies are bounded, the
    stream table is a map. *)
Record session_wf (s : H2Session) : Prop := {
  wf_window : 0 ≤ ss_conn_window s ≤ 2 ^ 31 - 1;
  wf_frame : 16384 ≤ ss_max_frame_size s ≤ 2 ^ 24 - 1;
  wf_codec : codec_wf (ss_codec s);
  wf_peer : i32_ok (ss_peer_window s);
  wf_streams : Forall stream_ok (ss_streams s);
  wf_sorted : StronglySorted key_lt (ss_streams s);
}.

(** What was sent plus what may still be sent. *)
Definition ledger (s : H2Session) : Z := ss_conn_window s + data_sent (ss_out s).

Lemma data_sent_app o1 o2 : data_sent (o1 ++ o2) = data_sent o1 + data_sent o2.
Proof. induction o1 as [|w o1 IH]; simpl; lia. Qed.

Lemma data_on_app id o1 o2 : data_on id (o1 ++ o2) = data_on id o1 + data_on id o2.
Proof. induction o1 as [|w o1 IH]; simpl; lia. Qed.

Lemma data_on_other id w : data_len w = 0 → data_on id [w] = 0.
Proof. simpl. intros ->. by destruct (_ =? _). Qed.

Lemma data_len_serialize t fl id p :
  byte_ok t → data_len (serialize_frame t fl id p) = if t =? FrameType.DATA then Z.of_nat (length p) else 0.
Proof.
  intros Ht. unfold data_len. rewrite length_serialize_frame.
  replace (at_ (serialize_frame t fl id p) 3) with t by (by cbn; rewrite to_u8_id).
  destruct (t =? _); [f_equal; lia|done].
Qed.

Lemma data_len_build id c fin : data_len (build_data id c fin) = Z.of_nat (length c).
Proof. unfold build_data. by rewrite data_len_serialize. Qed.

Lemma data_sent_frames id cs fin : data_sent (data_frames id cs fin) = total cs.
Proof.
  induction cs as [|c [|c' cs] IH]; [done|..].
  - cbn [data_frames data_sent foldr]. rewrite data_len_build, total_cons, total_nil. lia.
  - rewrite data_frames_cons, total_cons by done. cbn [data_sent foldr].
    fold (data_sent (data_frames id (c' :: cs) fin)). by rewrite IH, data_len_build.
Qed.

Lemma be31_build_data id c fin : 0 ≤ id < 2 ^ 31 → be31 (build_data id c fin) 5 = id.
Proof.
  intros Hid. unfold build_data, serialize_frame. rewrite !app_assoc, <-(app_assoc _ (u31 id)).
  by apply be31_u31.
Qed.

Lemma data_on_frames k id cs fin :
  0 ≤ id < 2 ^ 31 → data_on k (data_frames id cs fin) = if id =? k then total cs else 0.
Proof.
  intros Hid. induction cs as [|c [|c' cs] IH]; [simpl; by destruct (_ =? _)|..].
  - cbn [data_frames data_on foldr]. rewrite be31_build_data, data_len_build, total_cons by done.
    rewrite total_nil. destruct (_ =? _); lia.
  - rewrite data_frames_cons, total_cons by done. cbn [data_on foldr].
    fold (data_on k (data_frames id (c' :: cs) fin)).
    rewrite IH, be31_build_data, data_len_build by done. destruct (_ =? _); lia.
Qed.

(** *** The table as a map *)

Lemma smap_set_sorted k v (m : list (Z * H2Stream)) :
  StronglySorted key_lt m → StronglySorted key_lt (smap_set k v m).
Proof.
  assert (∀ (e : Z * H2Stream) m, Forall (key_lt e) m → e.1 < k → Forall (key_lt e) (smap_set k v m)) as H.
  { intros e m' Hm He. by apply smap_set_Forall. }
  induction 1 as [|[k' v'] m Hm IH Hlt]; simpl; [by repeat constructor|].
  destruct (Z.eqb_spec k k') as [->|]; [by constructor|].
  destruct (Z.ltb_spec k k'); constructor; auto; [by constructor| |apply H; [done|simpl; lia]].
  constructor; [done|]. eapply List.Forall_impl; [|exact Hlt]. unfold key_lt. simpl. lia.
Qed.

Lemma filter_sorted (P : Z * H2Stream → Prop) `{!∀ x, Decision (P x)} m :
  StronglySorted key_lt m → StronglySorted key_lt (filter P m).
Proof.
  induction 1 as [|e m Hm IH Hlt]; [constructor|]. rewrite filter_cons.
  case_decide; [|done]. constructor; [done|by apply Forall_filter_keep].
Qed.

(** Setting a key leaves the other entries alone. *)
Lemma smap_set_Forall_ne (P : Z * H2Stream → Prop) k v m :
  StronglySorted key_lt m → P (k, v) → Forall (λ e, e.1 ≠ k → P e) m → Forall P (smap_set k v m).
Proof.
  intros Hs Hk. induction Hs as [|[k' v'] m Hm IH Hlt]; simpl; [by constructor|].
  intros [Hp Hr]%Forall_cons_iff.
  assert (∀ b, b ≤ k' → Forall (λ e : Z * H2Stream, b < e.1) m) as Hgt.
  { intros b Hb. eapply List.Forall_impl; [|exact Hlt]. unfold key_lt. simpl. lia. }
  assert (k ≤ k' → Forall P m) as Hle.
  { intros Hkk. specialize (Hgt k Hkk). rewrite List.Forall_forall in *.
    intros e He. apply Hr; [done|]. specialize (Hgt e He). lia. }
  destruct (Z.eqb_spec k k') as [->|]; [constructor; [done|apply Hle; lia]|].
  destruct (Z.ltb_spec k k'); constructor; auto.
  constructor; [apply Hp; simpl; lia|apply Hle; lia].
Qed.

Lemma smap_find_entry e (m : list (Z * H2Stream)) :
  StronglySorted key_lt m → In e m → smap_find e.1 m = Some e.2.
Proof.
  intros Hs. induction Hs as [|[k v] m Hm IH Hlt]; simpl; [done|]. intros [<-|He].
  - by rewrite Z.eqb_refl.
  - rewrite List.Forall_forall in Hlt. specialize (Hlt e He). unfold key_lt in Hlt. simpl in Hlt.
    destruct (Z.eqb_spec e.1 k); [lia|auto].
Qed.

Lemma smap_find_absent k (m : list (Z * H2Stream)) :
  smap_find k m = None → Forall (λ e, e.1 ≠ k) m.
Proof.
  induction m as [|[k' v'] m IH]; simpl; [constructor|].
  destruct (Z.eqb_spec k k'); [done|]. constructor; simpl; auto.
Qed.

Lemma smap_find_In k v (m : list (Z * H2Stream)) : smap_find k m = Some v → In (k, v) m.
Proof.
  induction m as [|[k' v'] m IH]; simpl; [done|].
  destruct (Z.eqb_spec k k') as [->|]; [intros [= ->]; by left|by right; apply IH].
Qed.

Lemma smap_find_filter_None (P : Z * H2Stream → Prop) `{!∀ x, Decision (P x)} k m :
  smap_find k (filter P m) = None → ∀ v, smap_find k m = Some v → ¬ P (k, v).
Proof.
  intros Hf v Hv%smap_find_In Hp.
  assert (In (k, v) (filter P m)) as Hin.
  { apply list_elem_of_In, list_elem_of_filter. split; [done|]. by apply list_elem_of_In. }
  apply smap_find_absent in Hf. rewrite List.Forall_forall in Hf. by apply (Hf _ Hin).
Qed.

(** *** The peer's account of the windows *)

(** The window of a stream: one that is not open has the initial window. *)
Definition stream_window (s : H2Session) (id : Z) : Z :=
  match smap_find id (ss_streams s) with
  | Some st => if st_done st then ss_peer_window s else st_send_window st
  | None => ss_peer_window s
  end.

(** The bytes on a stream in [out] beyond the [B] sent earlier. *)
Definition sent_since (B : Z → Z) (out : list bytes) (id : Z) : Z := data_on id out - B id.

(** With [W] the windows at the start of a step and [B] the bytes sent before
    it: no stream was sent more than its window, and an entry that is still
    open has what is left of it. *)
Definition fits (W B : Z → Z) (out : list bytes) (e : Z * H2Stream) : Prop :=
  st_done e.2 = false → st_send_window e.2 = W e.1 - sent_since B out e.1.

Record good_but (P : Z * H2Stream → Prop) (L : Z) (W B : Z → Z) (s : H2Session) : Prop := {
  gd_wf : session_wf s;
  gd_ledger : ledger s = L;
  gd_sent : ∀ id, 0 ≤ sent_since B (ss_out s) id ≤ Z.max 0 (W id);
  gd_fits : Forall (λ e, P e → fits W B (ss_out s) e) (ss_streams s);
}.

Definition good : Z → (Z → Z) → (Z → Z) → H2Session → Prop := good_but (λ _, True).

Lemma good_start s :
  session_wf s → good (ledger s) (stream_window s) (λ id, data_on id (ss_out s)) s.
Proof.
  intros Hwf. split; [done|done|unfold sent_since; intros; lia|].
  apply List.Forall_forall. intros e He _ Hd. unfold stream_window, sent_since.
  rewrite (smap_find_entry e _ (wf_sorted _ Hwf) He), Hd. lia.
Qed.

Section Preserve.
Context (L : Z) (W B : Z → Z).

Lemma good_weaken P s : good L W B s → good_but P L W B s.
Proof.
  intros [? ? ? Hf]. split; [done..|]. eapply List.Forall_impl; [|exact Hf]. auto.
Qed.

Lemma good_streams s e : good L W B s → In e (ss_streams s) → stream_ok e ∧ fits W B (ss_out s) e.
Proof.
  intros [[] _ _ Hf] He. rewrite List.Forall_forall in *. auto.
Qed.

Lemma good_find s id st :
  good L W B s → smap_find id (ss_streams s) = Some st → stream_ok (id, st) ∧ fits W B (ss_out s) (id, st).
Proof. intros Hg Hf%smap_find_In. by apply (good_streams s). Qed.

Lemma send_frame_good w s : data_len w = 0 → good L W B s → good L W B (send_frame w s).
Proof.
  intros Hw [[] Hl Hs Hf].
  assert (∀ id, sent_since B (ss_out (send_frame w s)) id = sent_since B (ss_out s) id) as E.
  { intros id. unfold sent_since. simpl ss_out. rewrite data_on_app, data_on_other by done. lia. }
  split; [by split| |by intros id; rewrite E|].
  - unfold ledger in *. simpl. rewrite data_sent_app. simpl. lia.
  - eapply List.Forall_impl; [|exact Hf]. intros e H ? ?. rewrite E. by apply H.
Qed.

(** An update that leaves the windows and the output alone. *)
Lemma upd_codec_good c s : codec_wf c → good L W B s → good L W B (upd_codec c s).
Proof. intros Hc [[] Hl]. by split; [split|..]. Qed.

Lemma upd_last_client_good id s : good L W B s → good L W B (upd_last_client id s).
Proof. intros [[] Hl]. by split; [split|..]. Qed.

Lemma filter_streams_good (P : Z * H2Stream → Prop) `{!∀ x, Decision (P x)} s :
  good L W B s → good L W B (upd_streams (filter P (ss_streams s)) s).
Proof.
  intros [[] Hl Hs Hf]. split; [split|..]; simpl; auto using Forall_filter_keep, filter_sorted.
Qed.

Lemma abort_good id s : good L W B s → good L W B (upd_codec (abort_stream id (ss_codec s)) s).
Proof.
  intros Hg. apply upd_codec_good; [|done]. destruct (wf_codec _ (gd_wf _ _ _ _ _ Hg)).
  split; simpl; auto using smap_erase_Forall.
Qed.

Lemma erase_stream_good id s :
  good L W B s → good L W B (upd_streams (smap_erase id (ss_streams s)) (upd_codec (abort_stream id (ss_codec s)) s)).
Proof. intros Hg. apply (filter_streams_good (λ e, e.1 ≠ id) (upd_codec _ s)). by apply abort_good. Qed.

Lemma prune_good s : good L W B s → good L W B (prune_streams s).
Proof. apply filter_streams_good. Qed.

Lemma rst_good id e s : good L W B s → good L W B (send_frame (build_rst_stream id e) s).
Proof. apply send_frame_good. unfold build_rst_stream. by rewrite data_len_serialize. Qed.

Lemma close_protocol_good e s : good L W B s → good L W B (close_protocol e s).
Proof.
  intros Hg. unfold close_protocol. destruct (ss_state s); [..|done].
  all: apply (send_frame_good (build_goaway (ss_last_client_stream s) e)) in Hg;
    [|unfold build_goaway; by rewrite data_len_serialize].
  all: destruct Hg as [[] Hl Hs Hf]; split; [split|..]; simpl in *; auto; try by constructor.
  all: destruct wf_codec0; by split.
Qed.

(** *** Sending on a stream *)

(** The entry of one stream is replaced after [n] of its bytes were sent. *)
Lemma sent_stream_good id st fs n s :
  good_but (λ e, e.1 ≠ id) L W B s → stream_ok (id, st) →
  data_sent fs = n → (∀ k, data_on k fs = if id =? k then n else 0) →
  0 ≤ n → 0 ≤ ss_conn_window s - n →
  sent_since B (ss_out s) id + n ≤ Z.max 0 (W id) →
  (st_done st = false → st_send_window st = W id - (sent_since B (ss_out s) id + n)) →
  good L W B (mkSession (ss_state s) (ss_got_preface s) (smap_set id st (ss_streams s))
          (ss_last_client_stream s) (ss_codec s) (ss_conn_window s - n) (ss_max_frame_size s)
          (ss_peer_window s) (ss_out s ++ fs) (ss_closed s)).
Proof.
  intros [[] Hl Hs Hf] Hst Hfs Hon Hn Hc Hcap Hfit.
  assert (∀ k, sent_since B (ss_out s ++ fs) k =
             sent_since B (ss_out s) k + if id =? k then n else 0) as E.
  { intros k. unfold sent_since. rewrite data_on_app, Hon. lia. }
  split; simpl.
  - split; simpl; auto using smap_set_Forall, smap_set_sorted; lia.
  - unfold ledger in *. simpl. rewrite data_sent_app. lia.
  - intros k. rewrite E. specialize (Hs k). destruct (Z.eqb_spec id k) as [->|]; lia.
  - apply smap_set_Forall_ne; [done|..].
    + intros _ Hd. simpl in *. rewrite E, Z.eqb_refl. by apply Hfit.
    + eapply List.Forall_impl; [|exact Hf]. intros e He Hne _ Hd.
      rewrite E, (proj2 (Z.eqb_neq id e.1)), Z.add_0_r by congruence. by apply He.
Qed.

Lemma set_stream_good id st s :
  stream_ok (id, st) → fits W B (ss_out s) (id, st) → good L W B s →
  good L W B (upd_streams (smap_set id st (ss_streams s)) s).
Proof.
  intros Hst Hfit Hg. pose proof (sent_stream_good id st [] 0 s (good_weaken _ _ Hg) Hst eq_refl) as H.
  rewrite Z.sub_0_r, app_nil_r in H. pose proof (gd_sent _ _ _ _ _ Hg id).
  destruct (wf_window _ (gd_wf _ _ _ _ _ Hg)). apply H; try lia.
  - intros k. by destruct (_ =? _).
  - rewrite Z.add_0_r. exact Hfit.
Qed.

(** A stream that may send: it serves a request and is not finished. *)
Definition sending (id : Z) (st : H2Stream) (out : list bytes) : Prop :=
  0 ≤ id < 2 ^ 31 ∧ Z.of_nat (length (st_body st)) ≤ kMaxRequestBodyBytes ∧
  i32_ok (st_send_window st) ∧ st_state st ≠ S_IDLE ∧ st_served st = true ∧ st_done st = false ∧
  st_send_window st = W id - sent_since B out id.

Lemma drain_good id st s st' s' :
  good_but (λ e, e.1 ≠ id) L W B s → sending id st (ss_out s) → drain id st s = (st', s') →
  good L W B (upd_streams (smap_set id st' (ss_streams s')) s').
Proof.
  intros Hg (Hid & Hb & Hw & Hi & Hsv & Hd & Hfit) Hdr.
  pose proof (gd_wf _ _ _ _ _ Hg) as [Hcw Hfr _ _ _ _].
  assert (i32_ok (ss_conn_window s)) as Hc by (unfold i32_ok; lia).
  apply drain_eq in Hdr as (cs & D & ->); [|lia|done|done].
  destruct D as [_ _ Hwin Hconn Hnn Hcap Hkeep Hstate _ _ [Hbody Hserved]]. simpl in Hconn, Hnn.
  assert (0 ≤ total cs) by (unfold total; lia).
  apply (sent_stream_good id st' _ (total cs) s); auto using data_sent_frames, data_on_frames.
  - unfold i32_ok in *. split; simpl; try done; unfold i32_ok; rewrite ?Hbody, ?Hserved; try done.
    + lia.
    + destruct Hstate as [->| ->]; done.
    + intros Hd'. destruct Hkeep as [|Hk]; [done|congruence].
    + congruence.
  - lia.
  - pose proof (gd_sent _ _ _ _ _ Hg id). lia.
  - intros _. lia.
Qed.

Lemma send_response_good id st hdrs body ho s st' s' :
  good L W B s → sending id st (ss_out s) → st_pending_body st = [] →
  send_response id st hdrs body ho s = (st', s') →
  good L W B (upd_streams (smap_set id st' (ss_streams s')) s').
Proof.
  intros Hg Hst Hp. unfold send_response.
  assert (∀ blk fin, good L W B (send_frame (build_headers id blk fin) s)) as Hh.
  { intros blk fin. apply send_frame_good; [|done]. unfold build_headers. by rewrite data_len_serialize. }
  destruct (_ || _).
  - intros [= <- <-]. apply set_stream_good; [| |done].
    + destruct Hst as (? & ? & ? & ? & ? & ? & ?). split; simpl; try done. congruence.
    + by intros ?.
  - intros Hd. eapply drain_good in Hd; [done|by apply good_weaken|].
    destruct Hst as (? & ? & ? & ? & ? & ? & E). split_and!; simpl; try done; try lia.
    rewrite E. unfold sent_since. simpl. rewrite data_on_app, data_on_other; [lia|].
    unfold build_headers. by rewrite data_len_serialize.
Qed.

Lemma serve_stream_good fs root id st rq s st' s' :
  good L W B s → sending id st (ss_out s) → st_pending_body st = [] →
  serve_stream fs root id st rq s = (st', s') →
  good L W B (upd_streams (smap_set id st' (ss_streams s')) s').
Proof.
  intros Hg Hst Hp. unfold serve_stream.
  repeat case_match; intros Hr; by eapply send_response_good in Hr.
Qed.

(** An entry with bytes to send. *)
Lemma pending_sending id st out :
  stream_ok (id, st) → fits W B out (id, st) → st_pending_body st ≠ [] → sending id st out.
Proof.
  intros [] Hf Hp. simpl in *.
  assert (st_done st = false) as Hd by (destruct (st_done st); [exfalso; auto|done]).
  assert (st_served st = true) as Hs.
  { destruct (st_served st); [done|]. by destruct so_unserved0. }
  split_and!; try done; try lia. by apply Hf.
Qed.

Lemma drain_all_good ids s : good L W B s → good L W B (drain_all ids s).
Proof.
  revert s. induction ids as [|id ids IH]; intros s Hg; [done|]. simpl.
  destruct (smap_find id (ss_streams s)) as [st|] eqn:Ef; [|auto].
  destruct (good_find _ _ _ Hg Ef) as [Hst Hfit].
  destruct (st_pending_body st) eqn:Ep; [auto|].
  destruct (drain id st s) as [st' s'] eqn:Ed.
  apply IH. eapply drain_good; [by apply good_weaken| |exact Ed].
  apply pending_sending; [done..|]. by rewrite Ep.
Qed.
End Preserve.

(** *** SETTINGS *)

(** The initial window after a SETTINGS payload. *)
Fixpoint initial_window (payload : bytes) (w : Z) : Z :=
  match payload with
  | k1 :: k0 :: v3 :: v2 :: v1 :: v0 :: rest =>
      initial_window rest
        (if be_get [k1; k0] =? SettingsId.INITIAL_WINDOW_SIZE then to_i32 (be_get [v3; v2; v1; v0]) else w)
  | _ => w
  end.

(** An entry whose window moves by [d]. *)
Definition shift (d : Z) (e : Z * H2Stream) : Z * H2Stream :=
  (e.1, mkStream (st_state e.2) (st_body e.2) (to_i32 (st_send_window e.2 + d))
          (st_pending_body e.2) (st_served e.2) (st_done e.2)).

Lemma shift_shift d1 d2 e : shift d2 (shift (to_i32 d1) e) = shift (d1 + d2) e.
Proof.
  unfold shift. simpl. rewrite to_i32_add. do 2 f_equal.
  rewrite <-Z.add_assoc, (Z.add_comm (to_i32 d1)), !Z.add_assoc.
  rewrite (Z.add_comm _ (to_i32 d1)), to_i32_add. f_equal. lia.
Qed.

Lemma shift_0 e : stream_ok e → shift 0 e = e.
Proof. intros []. destruct e as [k []]. unfold shift. simpl in *. by rewrite Z.add_0_r, to_i32_id. Qed.

Lemma shift_ok d e : stream_ok e → stream_ok (shift d e).
Proof. intros []. split; simpl; auto using to_i32_range. Qed.

Lemma shift_sorted d m : StronglySorted key_lt m → StronglySorted key_lt (shift d <$> m).
Proof. induction 1; [constructor|]. constructor; [done|]. by apply Forall_fmap. Qed.

Lemma map_shift_0 m : Forall stream_ok m → shift 0 <$> m = m.
Proof. induction 1 as [|e m He Hm IH]; [done|]. rewrite fmap_cons. by rewrite IH, shift_0. Qed.

(** What one setting, and then a whole payload, does to the session. *)
Record resized (s : H2Session) (pw : Z) (s' : H2Session) : Prop := {
  rz_wf : session_wf s';
  rz_out : ss_out s' = ss_out s;
  rz_conn : ss_conn_window s' = ss_conn_window s;
  rz_peer : ss_peer_window s' = pw;
  rz_streams : ss_streams s' = shift (pw - ss_peer_window s) <$> ss_streams s;
}.

Lemma apply_setting_resized key v s :
  0 ≤ v → session_wf s →
  resized s (if key =? SettingsId.INITIAL_WINDOW_SIZE then to_i32 v else ss_peer_window s)
    (apply_setting key v s).
Proof.
  intros Hv Hwf. pose proof Hwf as []. unfold apply_setting.
  pose proof (map_shift_0 (ss_streams s) wf_streams0) as H0.
  destruct (key =? SettingsId.INITIAL_WINDOW_SIZE).
  { assert ((λ e, (e.1, mkStream (st_state e.2) (st_body e.2)
        (to_i32 (st_send_window e.2 + to_i32 (to_i32 v - ss_peer_window s))) (st_pending_body e.2)
        (st_served e.2) (st_done e.2))) <$> ss_streams s = shift (to_i32 v - ss_peer_window s) <$> ss_streams s) as ->.
    { apply list_fmap_ext. intros i e _. unfold shift. do 2 f_equal.
      rewrite Z.add_comm, to_i32_add. f_equal. lia. }
    split; try done. split; simpl; auto using to_i32_range, shift_sorted.
    apply Forall_fmap. eapply List.Forall_impl; [|exact wf_streams0]. intros e. apply shift_ok. }
  destruct (key =? _).
  { split; simpl; try done; [|by rewrite Z.sub_diag]. split; try done.
    destruct wf_codec0. split; simpl; auto using set_header_table_size_wf. }
  destruct (key =? _); [destruct (_ && _) eqn:E|].
  all: split; simpl; rewrite ?Z.sub_diag; try done.
  bool_prop. split; simpl; auto. rewrite Z.geb_le in *. lia.
Qed.

Lemma apply_peer_settings_resized p s :
  bytes_ok p → session_wf s →
  resized s (initial_window p (ss_peer_window s)) (apply_peer_settings p s).
Proof.
  intros Hp. remember (length p) as n eqn:Hn. revert p s Hp Hn.
  induction (lt_wf n) as [n _ IH]. intros p s Hp Hn Hwf.
  assert (resized s (ss_peer_window s) s) as H0.
  { split; try done. by rewrite Z.sub_diag, map_shift_0 by apply Hwf. }
  destruct p as [|k1 [|k0 [|v3 [|v2 [|v1 [|v0 rest]]]]]]; try done.
  rewrite !Forall_cons_iff in Hp. destruct_and! Hp. cbn [apply_peer_settings initial_window].
  assert (0 ≤ be_get [v3; v2; v1; v0]) as Hv by (apply be_get_range; solve_bytes).
  pose proof (apply_setting_resized (be_get [k1; k0]) _ s Hv Hwf) as [Hwf1 Ho Hc Hpw Hst].
  destruct (IH (length rest) ltac:(simpl in *; lia) rest _ ltac:(done) eq_refl Hwf1) as [Hwf2 Ho2 Hc2 Hpw2 Hst2].
  rewrite Hpw in Hpw2, Hst2. split; [done|congruence|congruence|done|].
  rewrite Hst2, Hst. rewrite <-list_fmap_compose. apply list_fmap_ext. intros i e _. simpl.
  set (pw := if _ =? _ then _ else _). clearbody pw. clear -e.
  replace (initial_window rest pw - ss_peer_window s) with
    ((pw - ss_peer_window s) + (initial_window rest pw - pw)) by lia.
  rewrite <-shift_shift. unfold shift. simpl. do 2 f_equal. f_equal. f_equal.
  by rewrite (Z.add_comm _ (to_i32 _)), to_i32_add, Z.add_comm.
Qed.

Lemma be31_nonneg p off : bytes_ok p → 0 ≤ be31 p off.
Proof.
  intros Hp. unfold be31, at_.
  assert (∀ i, 0 ≤ p !!! i) as Hi.
  { intros i. rewrite list_lookup_total_alt. destruct (p !! i) eqn:E; simpl; [|done].
    apply (Forall_lookup_1 _ _ _ _ Hp E). }
  rewrite !Z.lor_nonneg, !Z.shiftl_nonneg, Z.land_nonneg. auto 7.
Qed.

Lemma window_increment_nonneg p : bytes_ok p → 0 ≤ window_increment p.
Proof. intros Hp. unfold window_increment. destruct (_ <=? _)%nat; [by apply be31_nonneg|done]. Qed.

Lemma window_overflows_false inc w :
  0 ≤ w ≤ 2 ^ 31 - 1 → window_overflows inc w = false → w + inc ≤ 2 ^ 31 - 1.
Proof.
  intros Hw. unfold window_overflows. rewrite !to_u32_id; [intros; bool_prop; lia|..].
  all: unfold u32_ok; rewrite ?to_u32_id; unfold u32_ok; lia.
Qed.

(** The bytes a chunk adds to the connection's allowance: the increment of a
    WINDOW_UPDATE on stream 0. *)
Definition grant (data : bytes) : Z :=
  match parse_frame data with
  | Some f => if (f_stream_id f =? kNoStreamId) && (f_type f =? FrameType.WINDOW_UPDATE)
              then window_increment (f_payload f) else 0
  | None => 0
  end.

(** A stream's window once a frame is credited: SETTINGS move every window by
    the change of the initial window, a WINDOW_UPDATE raises that of its
    stream, no other frame changes one. *)
Definition credited (f : Frame) (s : H2Session) (id : Z) : Z :=
  let w := stream_window s id in
  if f_stream_id f =? kNoStreamId then
    if (f_type f =? FrameType.SETTINGS) && negb (flag_set (f_flags f) Flag.ACK)
    then to_i32 (w + (initial_window (f_payload f) (ss_peer_window s) - ss_peer_window s)) else w
  else if (f_type f =? FrameType.WINDOW_UPDATE) && (f_stream_id f =? id)
  then to_i32 (w + window_increment (f_payload f)) else w.

(** The same for a chunk: a frame counts once the preface is done and until
    the connection is closed. *)
Definition allowance (data : bytes) (s : H2Session) (id : Z) : Z :=
  match parse_frame data with
  | Some f => if negb (ss_got_preface s) || bool_decide (ss_state s = CLOSED)
              then stream_window s id else credited f s id
  | None => stream_window s id
  end.

(** A step without output may be judged by other windows that agree on the
    entries it keeps. *)
Lemma good_windows L W W' B s :
  good L W B s → (∀ id, sent_since B (ss_out s) id = 0) →
  Forall (λ e, W' e.1 = W e.1) (ss_streams s) → good L W' B s.
Proof.
  intros [? ? _ Hf] H0 HW. split; [done..| |].
  - intros id. rewrite H0. lia.
  - rewrite List.Forall_forall in *. intros e He ? ?. rewrite HW by done. by apply Hf.
Qed.

Definition sent_before (s : H2Session) (id : Z) : Z := data_on id (ss_out s).

Lemma sent_none s id : sent_since (sent_before s) (ss_out s) id = 0.
Proof. apply Z.sub_diag. Qed.

Lemma settings_good f s :
  bytes_ok (f_payload f) → session_wf s → f_stream_id f = kNoStreamId →
  f_type f = FrameType.SETTINGS → flag_set (f_flags f) Flag.ACK = false →
  good (ledger s) (credited f s) (sent_before s) (apply_peer_settings (f_payload f) s).
Proof.
  intros Hp Hwf Hi Ht Ha. destruct (apply_peer_settings_resized _ s Hp Hwf) as [Hwf' Ho Hc _ Hst].
  split; [done|unfold ledger; by rewrite Ho, Hc| |].
  - intros id. unfold sent_since, sent_before. rewrite Ho. lia.
  - rewrite Hst. apply Forall_fmap, List.Forall_forall. intros e He _ Hd. simpl in *.
    unfold sent_since, sent_before. rewrite Ho, Z.sub_diag, Z.sub_0_r.
    unfold credited. rewrite Hi, Ht, Ha. simpl. f_equal. f_equal.
    unfold stream_window. by rewrite (smap_find_entry e _ (wf_sorted _ Hwf) He), Hd.
Qed.

(** A frame on stream 0. *)
Lemma connection_frame_good f s :
  bytes_ok (f_payload f) → session_wf s → f_stream_id f = kNoStreamId →
  ∃ g, good (ledger s + g) (credited f s) (sent_before s) (handle_connection_frame f s) ∧
    (g = 0 ∨ f_type f = FrameType.WINDOW_UPDATE ∧ g = window_increment (f_payload f)).
Proof.
  intros Hp Hwf Hi. unfold handle_connection_frame. pose proof (good_start s Hwf) as Hg.
  destruct (f_type f =? FrameType.SETTINGS) eqn:Es.
  { exists 0. rewrite Z.add_0_r. split; [|by left].
    destruct (flag_set _ _) eqn:Ea; [|bool_prop; apply send_frame_good; [done|by apply settings_good]].
    eapply good_windows; [exact Hg|intros; apply sent_none|].
    apply list.Forall_true. intros e. unfold credited. by rewrite Hi, Es, Ea. }
  assert (∀ id, credited f s id = stream_window s id) as HW.
  { intros id. unfold credited. by rewrite Hi, Es. }
  assert (good (ledger s) (credited f s) (sent_before s) s) as Hg'.
  { eapply good_windows; [exact Hg|intros; apply sent_none|]. by apply list.Forall_true. }
  clear Hg. rename Hg' into Hg.
  destruct (f_type f =? FrameType.PING).
  { exists 0. rewrite Z.add_0_r. split; [|by left]. apply send_frame_good; [|done].
    unfold build_ping_ack. by rewrite data_len_serialize. }
  destruct (f_type f =? FrameType.GOAWAY).
  { exists 0. rewrite Z.add_0_r. split; [|by left]. destruct Hg as [[] Hl]. by split; [split|..]. }
  destruct (f_type f =? FrameType.WINDOW_UPDATE) eqn:Et.
  2: { exists 0. rewrite Z.add_0_r. split; [|by left]. by apply close_protocol_good. }
  destruct (_ =? 0); [exists 0; rewrite Z.add_0_r; auto using close_protocol_good|].
  destruct (window_overflows _ _) eqn:Eo;
    [exists 0; rewrite Z.add_0_r; auto using close_protocol_good|].
  bool_prop. exists (window_increment (f_payload f)). split; [|by right].
  apply drain_all_good, prune_good. pose proof Hwf as [Hw _ _ _ _ _].
  apply window_overflows_false in Eo; [|done].
  pose proof (window_increment_nonneg _ Hp). rewrite to_i32_id by (unfold i32_ok; lia).
  destruct Hg as [[] Hl ? ?].
  split; simpl; auto; [split; simpl; auto; lia|]. unfold ledger in *. simpl. lia.
Qed.

(** A WINDOW_UPDATE on a stream. *)
Lemma stream_window_update_good fs root f s :
  session_wf s → f_stream_id f ≠ kNoStreamId → f_type f = FrameType.WINDOW_UPDATE →
  good (ledger s) (credited f s) (sent_before s) (handle_stream_frame fs root f s).
Proof.
  intros Hwf Hi Ht. pose proof (good_start s Hwf) as Hg. fold (sent_before s) in Hg.
  unfold handle_stream_frame. rewrite Ht. simpl.
  set (id := f_stream_id f). set (inc := window_increment (f_payload f)).
  assert (∀ k, credited f s k = if id =? k then to_i32 (stream_window s k + inc) else stream_window s k) as HW.
  { intros k. unfold credited. by rewrite (proj2 (Z.eqb_neq _ _) Hi), Ht. }
  assert (∀ m, Forall (λ e : Z * H2Stream, e.1 ≠ id) m → Forall (λ e, credited f s e.1 = stream_window s e.1) m) as HWne.
  { intros m Hm. eapply List.Forall_impl; [|exact Hm]. intros e He. simpl in He.
    rewrite HW. by rewrite (proj2 (Z.eqb_neq id e.1)) by congruence. }
  destruct (smap_find id (ss_streams s)) as [st|] eqn:Ef.
  2:{ eapply good_windows; [exact Hg|intros; apply sent_none|]. by apply HWne, smap_find_absent. }
  destruct (_ || _).
  { eapply good_windows; [apply (erase_stream_good _ _ _ id (send_frame _ s)), rst_good, Hg| |].
    - intros k. unfold sent_since. simpl. rewrite data_on_app, data_on_other; [unfold sent_before; lia|].
      unfold build_rst_stream. by rewrite data_len_serialize.
    - apply HWne, List.Forall_forall. simpl. unfold smap_erase. intros e He%list_elem_of_In.
      by apply list_elem_of_filter in He as []. }
  destruct (good_find _ _ _ _ _ _ Hg Ef) as [[] Hfit]. simpl in *.
  set (st1 := mkStream _ _ _ _ _ _).
  assert (stream_ok (id, st1)) as Hst1 by (split; simpl; auto using to_i32_range).
  assert (fits (credited f s) (sent_before s) (ss_out s) (id, st1)) as Hfit1.
  { intros Hd. simpl in *. rewrite HW, Z.eqb_refl. unfold sent_since, sent_before, stream_window.
    rewrite Ef, Hd. by rewrite Z.sub_diag, Z.sub_0_r. }
  assert (good_but (λ e, e.1 ≠ id) (ledger s) (credited f s) (sent_before s) s) as Hb.
  { destruct Hg as [? ? _ Hf]. split; [done..|intros; rewrite sent_none; lia|].
    eapply List.Forall_impl; [|exact Hf]. intros e He Hne Hd. rewrite (He I Hd), HW.
    by rewrite (proj2 (Z.eqb_neq id e.1)) by congruence. }
  destruct (st_pending_body st) eqn:Ep.
  - pose proof (sent_stream_good _ _ _ id st1 [] 0 s Hb Hst1 eq_refl) as H.
    rewrite Z.sub_0_r, app_nil_r in H. destruct (wf_window _ Hwf). apply H; try lia.
    + intros k. by destruct (_ =? _).
    + rewrite sent_none. lia.
    + rewrite Z.add_0_r. exact Hfit1.
  - destruct (drain id st1 s) as [st2 s2] eqn:Ed. eapply drain_good; [exact Hb| |exact Ed].
    by apply pending_sending.
Qed.

(** The entry a frame works on after the table was pruned: that of its stream,
    or a new one with the peer's initial window. *)
Lemma opened_stream L B s id st :
  good L (stream_window s) B s → (∀ k, sent_since B (ss_out s) k = 0) → 0 ≤ id < 2 ^ 31 →
  let s' := prune_streams s in
  let st0 := default new_stream (smap_find id (ss_streams s')) in
  st = (if bool_decide (st_state st0 = S_IDLE)
        then mkStream S_OPEN (st_body st0) (ss_peer_window s') (st_pending_body st0) (st_served st0) (st_done st0)
        else st0) →
  stream_ok (id, st) ∧ fits (stream_window s) B (ss_out s') (id, st).
Proof.
  intros Hg H0 Hid. cbn zeta. intros ->.
  pose proof (prune_good _ _ _ _ Hg) as Hp. pose proof (gd_wf _ _ _ _ _ Hg) as [_ _ _ Hpw _ _].
  destruct (smap_find id (ss_streams (prune_streams s))) as [st|] eqn:Ef; simpl.
  - destruct (good_find _ _ _ _ _ _ Hp Ef) as [Hst Hfit]. pose proof Hst as [_ _ _ Hi _ _].
    by rewrite bool_decide_eq_false_2.
  - split; [by split|]. intros _. simpl. rewrite H0, Z.sub_0_r. unfold stream_window.
    destruct (smap_find id (ss_streams s)) as [st|] eqn:Es; [|done].
    apply (smap_find_filter_None _ _ _ Ef) in Es. simpl in Es. by destruct (st_done st).
Qed.

(** A frame that carries a part of a request. *)
Lemma request_frame_good fs root f s :
  session_wf s → 0 ≤ f_stream_id f < 2 ^ 31 → f_type f ≠ FrameType.WINDOW_UPDATE →
  good (ledger s) (stream_window s) (sent_before s) (handle_stream_frame fs root f s).
Proof.
  intros Hwf Hid Ht. pose proof (good_start s Hwf) as Hg. fold (sent_before s) in Hg.
  unfold handle_stream_frame. set (id := f_stream_id f) in *.
  rewrite (proj2 (Z.eqb_neq _ FrameType.WINDOW_UPDATE)) by done.
  destruct (f_type f =? FrameType.RST_STREAM); [by apply erase_stream_good|].
  destruct (f_type f =? FrameType.PRIORITY); [done|].
  set (s1 := if f_type f =? FrameType.HEADERS then upd_last_client id s else s).
  assert (good (ledger s) (stream_window s) (sent_before s) s1 ∧ ss_out s1 = ss_out s ∧
          stream_window s1 = stream_window s) as (Hg1 & Ho1 & HW1).
  { subst s1. destruct (_ =? _); [|done]. split; [by apply upd_last_client_good|done]. }
  clearbody s1.
  destruct (feed id (f_type f) (f_flags f) (f_payload f) (ss_codec s1)) as [r c] eqn:Ef.
  assert (codec_wf c) as Hc.
  { change c with ((r, c).2). rewrite <-Ef. apply feed_wf, (gd_wf _ _ _ _ _ Hg1). }
  pose proof (upd_codec_good _ _ _ c s1 Hc Hg1) as Hg2.
  destruct r as [e|req]; [by apply close_protocol_good|].
  assert (stream_window (upd_codec c s1) = stream_window s) as HW2 by exact HW1.
  assert (∀ k, sent_since (sent_before s) (ss_out (upd_codec c s1)) k = 0) as H2.
  { intros k. simpl. rewrite Ho1. apply sent_none. }
  set (s2 := upd_codec c s1) in *. clearbody s2. clear Ef. rewrite <-HW2 in Hg2.
  pose proof (opened_stream _ _ s2 id _ Hg2 H2 Hid eq_refl) as [Hst Hfit].
  rewrite HW2 in Hg2, Hfit. apply prune_good in Hg2.
  destruct (_ && _ && _); [by apply abort_good, rst_good|].
  set (st1 := if bool_decide _ then _ else _) in *. clearbody st1. set (s3 := prune_streams s2) in *. clearbody s3.
  destruct (_ && _) eqn:Eb; [by apply erase_stream_good, rst_good|].
  set (st2 := if f_type f =? FrameType.DATA then _ else st1).
  assert (stream_ok (id, st2) ∧ fits (stream_window s) (sent_before s) (ss_out s3) (id, st2)) as [Hst2 Hfit2].
  { subst st2. destruct (f_type f =? FrameType.DATA); [|done]. simpl in Eb. bool_prop.
    split; [|exact Hfit]. destruct Hst. split; simpl in *; auto. rewrite length_app. lia. }
  clearbody st2.
  destruct req as [rq|]; [|by apply set_stream_good].
  destruct (st_served st2) eqn:Esv; [by apply set_stream_good|].
  destruct (serve_stream _ _ _ _ _ _) as [st3 s4] eqn:Es.
  destruct Hst2 as [? ? ? ? ? Hun]. destruct (Hun Esv) as [Hd Hp].
  eapply (serve_stream_good _ _ _ _ _ _ _ _ _ _ _ Hg2); [| |exact Es]; [|done].
  split_and!; try done; try lia. by apply Hfit2.
Qed.

Lemma parse_frame_ok data f :
  bytes_ok data → parse_frame data = Some f → bytes_ok (f_payload f) ∧ 0 ≤ f_stream_id f < 2 ^ 31.
Proof.
  intros Hd Hf. split.
  { unfold parse_frame in Hf. repeat case_match; try done. injection Hf as <-. by apply bytes_ok_slice. }
  apply parse_frame_cases in Hf as (b0 & b1 & b2 & b3 & b4 & b5 & b6 & b7 & b8 & tl & -> & -> & _).
  rewrite !Forall_cons_iff in Hd. destruct_and! Hd. cbn [f_stream_id].
  assert (0 ≤ Z.land b5 127 < 128) as Hb.
  { change 127 with (Z.ones 7). rewrite Z.land_ones by lia. apply Z.mod_pos_bound. lia. }
  assert (bytes_ok [b6; b7; b8]) as Hr by solve_bytes.
  pose proof (be_get_range _ Hr) as Hg. rewrite be_get_cons; [|constructor; [unfold byte_ok; lia|done]].
  cbn [length] in *. change (256 ^ Z.of_nat 3) with (2 ^ 24) in *. lia.
Qed.

Lemma h2_good_ext L W W' B s : (∀ id, W' id = W id) → good L W B s → good L W' B s.
Proof.
  intros HW [? ? Hs Hf]. split; [done..|by intros; rewrite HW|].
  eapply List.Forall_impl; [|exact Hf]. intros e He ? ?. rewrite HW. by apply He.
Qed.

Lemma on_chunk_good fs root data s :
  bytes_ok data → session_wf s →
  ∃ g, good (ledger s + g) (allowance data s) (sent_before s) (on_chunk fs root data s) ∧ 0 ≤ g ≤ grant data.
Proof.
  intros Hd Hwf. unfold on_chunk. pose proof (good_start s Hwf) as Hg. fold (sent_before s) in Hg.
  assert (0 ≤ grant data) as Hgr.
  { unfold grant. destruct (parse_frame data) as [f|] eqn:E; [|done].
    destruct (_ && _); [|done]. by eapply window_increment_nonneg, parse_frame_ok. }
  destruct (negb (ss_got_preface s)) eqn:Epf.
  { exists 0. rewrite Z.add_0_r. split; [|lia].
    apply (h2_good_ext _ (stream_window s)).
    { intros id. unfold allowance. rewrite Epf. by destruct (parse_frame data). }
    unfold handle_preface. destruct (_ && _); [|by apply close_protocol_good].
    apply send_frame_good; [done|]. destruct Hg as [[] Hl]. by split; [split|..]. }
  destruct (parse_frame data) as [f|] eqn:E.
  2: { exists 0. rewrite Z.add_0_r. split; [|lia].
       apply (h2_good_ext _ (stream_window s)); [intros id; unfold allowance; by rewrite E|].
       by apply close_protocol_good. }
  destruct (parse_frame_ok _ _ Hd E) as [Hp Hid].
  assert (∃ g, good (ledger s + g) (credited f s) (sent_before s) (dispatch_frame fs root f s) ∧ 0 ≤ g ≤ grant data) as Hdis.
  { unfold dispatch_frame. destruct (f_stream_id f =? kNoStreamId) eqn:Ei.
    - pose proof Ei as Ei'. bool_prop.
      destruct (connection_frame_good f s Hp Hwf Ei) as (g & Hgg & Hcase). exists g. split; [done|].
      destruct Hcase as [->|[Ht ->]]; [lia|]. unfold grant. rewrite E, Ei', Ht. simpl.
      pose proof (window_increment_nonneg _ Hp). lia.
    - exists 0. rewrite Z.add_0_r. split; [|lia]. bool_prop.
      destruct (decide (f_type f = FrameType.WINDOW_UPDATE)) as [Ht|Ht]; [by apply stream_window_update_good|].
      apply (h2_good_ext _ (stream_window s)); [|by apply request_frame_good].
      intros id. unfold credited. by rewrite (proj2 (Z.eqb_neq _ _) Ei), (proj2 (Z.eqb_neq _ _) Ht). }
  unfold allowance. rewrite E, Epf. simpl orb.
  destruct (ss_state s) eqn:Es; [exact Hdis..|]. exists 0. rewrite Z.add_0_r. split; [done|lia].
Qed.

(** The session after a sequence of chunks. *)
Definition run (fs : FileSystem) (root : bytes) (chunks : list bytes) : H2Session :=
  foldl (λ s d, on_chunk fs root d s) new_session chunks.

Lemma run_snoc fs root chunks d : run fs root (chunks ++ [d]) = on_chunk fs root d (run fs root chunks).
Proof. unfold run. by rewrite foldl_app. Qed.

Lemma new_session_wf : session_wf new_session.
Proof.
  split; simpl; [unfold kDefaultWindow; lia|lia| |by vm_compute|constructor|constructor].
  split; [apply new_decoder_wf|constructor].
Qed.

Definition granted (chunks : list bytes) : Z := foldr (λ d n, grant d + n) 0 chunks.

Lemma run_good fs root chunks :
  Forall bytes_ok chunks →
  session_wf (run fs root chunks) ∧ ledger (run fs root chunks) ≤ kDefaultWindow + granted chunks.
Proof.
  induction chunks as [|d chunks IH] using rev_ind; intros Hc; [split; [apply new_session_wf|done]|].
  apply list.Forall_app in Hc as [Hc Hd%Forall_cons_iff]. destruct Hd as [Hd _]. destruct (IH Hc) as [Hwf Hl].
  destruct (on_chunk_good fs root d _ Hd Hwf) as (g & [Hwf' Hl' _ _] & Hg).
  rewrite run_snoc. split; [done|]. rewrite Hl'.
  assert (granted (chunks ++ [d]) = granted chunks + grant d) as ->; [|lia].
  clear. induction chunks; simpl; lia.
Qed.

(** C38: The server never overruns the peer.  From a fresh connection, after any
    sequence of chunks a peer sends (well-formed, malformed or hostile), the
    DATA bytes handed to the socket are at most the default window plus every
    increment sent in WINDOW_UPDATEs for the connection; each chunk makes the
    server send on each stream at most the window the stream has once the chunk
    is credited (SETTINGS move it by the change of the initial window, its
    WINDOW_UPDATE raises it, in [int32_t]), and the window of a stream still
    open is exactly what is left of it; the connection window stays in
    [0 .. 2^31-1], the DATA size limit in [16384 .. 2^24-1], the HPACK table,
    every header block and every request body within their limits, and the
    stream table is a map. *)
Theorem session_bounded (fs : FileSystem) (root : bytes) (chunks : list bytes)
  (Hc : Forall bytes_ok chunks) :
  data_sent (ss_out (run fs root chunks)) ≤ kDefaultWindow + granted chunks ∧
  session_wf (run fs root chunks) ∧
  ∀ before d after, chunks = before ++ d :: after →
    let s := run fs root before in
    let s' := run fs root (before ++ [d]) in
    ∀ id, let sent := data_on id (ss_out s') - data_on id (ss_out s) in
      sent ≤ Z.max 0 (allowance d s id) ∧
      ∀ st, smap_find id (ss_streams s') = Some st → st_done st = false →
            st_send_window st = allowance d s id - sent.
Proof.
  destruct (run_good fs root chunks Hc) as [Hwf Hl]. split; [|split; [done|]].
  { unfold ledger in Hl. destruct Hwf. lia. }
  intros before d after ->. apply list.Forall_app in Hc as [Hb Hd%Forall_cons_iff]. destruct Hd as [Hd _].
  cbn zeta. rewrite run_snoc. destruct (run_good fs root before Hb) as [Hwf1 _].
  destruct (on_chunk_good fs root d _ Hd Hwf1) as (g & Hg & _). intros id. split; [apply (gd_sent _ _ _ _ _ Hg id)|].
  intros st Hf Hn. by apply (good_find _ _ _ _ _ _ Hg Hf).
Qed.

(** A directory with one file. *)
Definition one_file (path content : bytes) : FileSystem :=
  mkFS (λ _, false) (λ p, if bool_decide (p = path) then Some (Z.of_nat (length content)) else None)
    (λ p, if bool_decide (p = path) then Some content else None).

(** A client preface, a GET for [/a] and a connection WINDOW_UPDATE. *)
Definition sample_chunks : list bytes :=
  [kConnectionMagic;
   serialize_frame FrameType.HEADERS (Z.lor Flag.END_HEADERS Flag.END_STREAM) 1
     ([130; 4; 2] ++ s! "/a");
   build_window_update 0 100].

Lemma session_bounded_witness :
  data_sent (ss_out (run (one_file (s! "/www/a") (s! "hello")) (s! "/www") sample_chunks)) = 5 ∧
  5 ≤ kDefaultWindow + 100 ∧
  allowance (build_window_update 0 100)
    (run (one_file (s! "/www/a") (s! "hello")) (s! "/www") (take 2 sample_chunks)) 3 = kDefaultWindow.
Proof.
  pose proof (session_bounded (one_file (s! "/www/a") (s! "hello")) (s! "/www") sample_chunks) as H.
  destruct H as [H _]; [apply (bool_decide_unpack _); vm_compute; done|].
  split; [vm_compute; done|]. split; [|vm_compute; done]. vm_compute in H. vm_compute. exact H.
Defined.

(** ** A stream yields at most one request *)

Lemma smap_find_set_ne {V} k k' (v : V) m :
  k' ≠ k → smap_find k' (smap_set k v m) = smap_find k' m.
Proof.
  intros Hne. induction m as [|[k1 v1] m IH]; simpl.
  { by rewrite (proj2 (Z.eqb_neq _ _)). }
  destruct (Z.eqb_spec k k1) as [->|]; simpl; [by rewrite (proj2 (Z.eqb_neq _ _))|].
  destruct (k <? k1); simpl; [by rewrite (proj2 (Z.eqb_neq k' k))|].
  destruct (k' =? k1); [done|apply IH].
Qed.

Lemma smap_find_erase {V} k k' (m : list (Z * V)) :
  smap_find k' (smap_erase k m) = if k' =? k then None else smap_find k' m.
Proof.
  unfold smap_erase. induction m as [|[k1 v1] m IH]; [simpl; by destruct (_ =? _)|].
  rewrite filter_cons. case_decide as Hd; simpl in *; rewrite IH.
  - destruct (Z.eqb_spec k' k1) as [->|]; [|done]. by rewrite (proj2 (Z.eqb_neq _ _)).
  - assert (k1 = k) as -> by (destruct (decide (k1 = k)); tauto). by destruct (k' =? k).
Qed.

(** Everything the session does to its codec. *)
Inductive codec_op :=
  | OpFeed (id type flags : Z) (payload : bytes)
  | OpAbort (id : Z)
  | OpTableSize (n : Z)
  | OpClear.

(** The new codec and the stream whose request was handed out. *)
Definition codec_step (op : codec_op) (c : H2Codec) : H2Codec * option Z :=
  match op with
  | OpFeed id type flags payload =>
      match feed id type flags payload c with
      | (FeedOk (Some _), c) => (c, Some id)
      | (_, c) => (c, None)
      end
  | OpAbort id => (abort_stream id c, None)
  | OpTableSize n => (apply_header_table_size n c, None)
  | OpClear => (set_heads c [], None)
  end.

Fixpoint codec_run (ops : list codec_op) (c : H2Codec) : list Z :=
  match ops with
  | [] => []
  | op :: ops => let '(c, r) := codec_step op c in
                 match r with Some id => id :: codec_run ops c | None => codec_run ops c end
  end.

(** A stream that is finished: its id was used and nothing is being assembled
    for it. *)
Definition retired (c : H2Codec) (id : Z) : Prop :=
  id ≤ cd_last_client_stream c ∧ smap_find id (cd_heads c) = None.

Lemma feed_finish_retired id c :
  (∀ k, retired c k → k ≠ id → retired (feed_finish id c).2 k) ∧
  (∀ rq, (feed_finish id c).1 = FeedOk (Some rq) →
     id ≤ cd_last_client_stream c → smap_find id (cd_heads c) ≠ None ∧ retired (feed_finish id c).2 id).
Proof.
  unfold feed_finish, retired.
  destruct (smap_find id (cd_heads c)) as [h|] eqn:E; [|by split].
  destruct (_ && _); [|by split]. destruct (decode _ _) as [[[] dec] hs]; simpl; [|by split].
  split.
  - intros k [Hk1 Hk2] Hne. by rewrite smap_find_erase, (proj2 (Z.eqb_neq _ _)).
  - intros rq _ Hle. by rewrite smap_find_erase, Z.eqb_refl.
Qed.

(** Assembling for a stream that is not retired keeps every retired stream. *)
Lemma set_head_retired id h c k :
  retired c k → k ≠ id → retired (set_heads c (smap_set id h (cd_heads c))) k.
Proof. intros [Hk1 Hk2] Hne. split; simpl; [done|]. by rewrite smap_find_set_ne. Qed.

(** Every live assembly belongs to an id already opened. *)
Definition heads_opened (c : H2Codec) : Prop :=
  Forall (λ e, e.1 ≤ cd_last_client_stream c) (cd_heads c).

Lemma find_opened id h c :
  heads_opened c → smap_find id (cd_heads c) = Some h → id ≤ cd_last_client_stream c.
Proof. intros Ho Hf. destruct (smap_find_Forall _ _ _ _ Ho Hf) as (? & -> & H). exact H. Qed.

Lemma set_head_opened id h c :
  heads_opened c → id ≤ cd_last_client_stream c →
  heads_opened (set_heads c (smap_set id h (cd_heads c))).
Proof. intros Ho Hid. by apply smap_set_Forall. Qed.

Lemma feed_finish_opened id c : heads_opened c → heads_opened (feed_finish id c).2.
Proof.
  intros Ho. unfold feed_finish. destruct (smap_find _ _); [|done]. destruct (_ && _); [|done].
  destruct (decode _ _) as [[[] dec] hs]; [|done]. by apply smap_erase_Forall.
Qed.

(** The effect of one step on the retired streams. *)
Record retires (id : Z) (c : H2Codec) (rc : FeedResult * H2Codec) : Prop := {
  rt_opened : heads_opened rc.2;
  rt_keeps : ∀ k, retired c k → retired rc.2 k;
  rt_new : ∀ rq, rc.1 = FeedOk (Some rq) → ¬ retired c id ∧ retired rc.2 id;
}.

Lemma retires_finish id h c c1 :
  heads_opened c1 → id ≤ cd_last_client_stream c1 → (∀ k, retired c k → retired c1 k ∧ k ≠ id) →
  retires id c (feed_finish id (set_heads c1 (smap_set id h (cd_heads c1)))).
Proof.
  intros Ho Hid Hk. set (c2 := set_heads c1 _).
  destruct (feed_finish_retired id c2) as [Hkeep Hnew]. split.
  - apply feed_finish_opened. by apply set_head_opened.
  - intros k Hr. destruct (Hk k Hr). apply Hkeep; [|done]. by apply set_head_retired.
  - intros rq Hr. split; [|by apply (Hnew rq)]. intros Hc. by destruct (Hk id Hc).
Qed.

Lemma retires_error id c c1 e :
  heads_opened c1 → (∀ k, retired c k → retired c1 k) → retires id c (FeedError e, c1).
Proof. by split. Qed.

Lemma feed_retires id type flags payload c :
  heads_opened c → retires id c (feed id type flags payload c).
Proof.
  intros Ho. unfold feed. destruct (type =? FrameType.HEADERS).
  { unfold stream_start_valid. destruct (Z.land id 1 =? 0); [by apply retires_error|].
    destruct (id <=? cd_last_client_stream c) eqn:El; [by apply retires_error|]. bool_prop.
    set (c1 := mkCodec _ _ id).
    assert (heads_opened c1) as Ho1.
    { unfold heads_opened in *. simpl. eapply List.Forall_impl; [|exact Ho]. simpl. lia. }
    assert (∀ k, retired c k → retired c1 k ∧ k ≠ id) as Hk.
    { unfold retired. simpl. intros k [? ?]. repeat split; [lia|done|lia]. }
    assert (id ≤ cd_last_client_stream c1) as Hid by (simpl; lia).
    destruct (strip_headers_prefix flags payload) as [hp|]; [destruct (_ >? _)|].
    2: by apply retires_finish.
    all: apply retires_error; [by apply set_head_opened|].
    all: intros k Hr; destruct (Hk k Hr); by apply set_head_retired. }
  assert (∀ h h', smap_find id (cd_heads c) = Some h →
    retires id c (feed_finish id (set_heads c (smap_set id h' (cd_heads c))))) as Hfin.
  { intros h h' Hf. apply retires_finish; [done|by eapply find_opened|].
    intros k Hr. split; [done|]. intros ->. destruct Hr. congruence. }
  destruct (type =? FrameType.CONTINUATION).
  { destruct (smap_find id (cd_heads c)) as [h|]; [|by apply retires_error].
    destruct (_ >? _); [by apply retires_error|]. by eapply Hfin. }
  destruct (type =? FrameType.DATA); [|by split].
  destruct (smap_find id (cd_heads c)) as [h|]; [by eapply Hfin|by split].
Qed.

Lemma codec_step_retires op c :
  heads_opened c →
  heads_opened (codec_step op c).1 ∧
  (∀ k, retired c k → retired (codec_step op c).1 k) ∧
  (∀ id, (codec_step op c).2 = Some id → ¬ retired c id ∧ retired (codec_step op c).1 id).
Proof.
  intros Ho. destruct op as [id type flags payload|id|n|]; simpl.
  - destruct (feed_retires id type flags payload c Ho) as [H1 H2 H3].
    destruct (feed _ _ _ _ _) as [[e|[rq|]] c']; simpl in *; split_and!; try done.
    intros ? [= <-]. by eapply H3.
  - split_and!; [by apply smap_erase_Forall| |done]. intros k [Hk1 Hk2]. split; [done|].
    simpl. rewrite smap_find_erase. by destruct (k =? id).
  - by split_and!.
  - split_and!; [constructor| |done]. intros k [Hk1 Hk2]. by split.
Qed.

Lemma codec_run_fresh ops c k :
  heads_opened c → k ∈ codec_run ops c → ¬ retired c k.
Proof.
  revert c. induction ops as [|op ops IH]; intros c Ho; simpl; [by intros ?%elem_of_nil|].
  destruct (codec_step_retires op c Ho) as (H1 & H2 & H3).
  destruct (codec_step op c) as [c' [id|]]; simpl in *.
  - intros [->|Hin]%elem_of_cons; [by apply H3|]. intros Hr. by apply (IH c' H1 Hin), H2.
  - intros Hin Hr. by apply (IH c' H1 Hin), H2.
Qed.

Lemma codec_run_nodup ops c : heads_opened c → NoDup (codec_run ops c).
Proof.
  revert c. induction ops as [|op ops IH]; intros c Ho; simpl; [constructor|].
  destruct (codec_step_retires op c Ho) as (H1 & H2 & H3).
  destruct (codec_step op c) as [c' [id|]]; simpl in *; [|by apply IH].
  constructor; [|by apply IH]. intros Hin. apply (codec_run_fresh _ _ _ H1 Hin). by apply H3.
Qed.

(** A client stream yields at most one request: over every sequence of
    operations the session performs on its codec (frames of any type on any
    stream in any order, stream aborts, table resizes, clears), the streams
    whose requests are handed out are pairwise distinct, so no request is
    served twice. *)
Theorem request_once_per_stream (ops : list codec_op) : NoDup (codec_run ops new_codec).
Proof. apply codec_run_nodup. constructor. Qed.

(** ** The concurrent-stream limit *)

Lemma smap_snoc {V} k (v : V) m :
  Forall (λ e, e.1 < k) m → smap_find k m = None ∧ smap_set k v m = m ++ [(k, v)].
Proof.
  induction 1 as [|[k' v'] m Hk Hm [IH1 IH2]]; simpl in *; [done|].
  rewrite (proj2 (Z.eqb_neq k k')), (proj2 (Z.ltb_ge k k')) by lia. by rewrite IH2.
Qed.

Definition idle_stream (id : Z) : Z * H2Stream :=
  (id, mkStream S_OPEN [] kDefaultWindow [] false false).

(** An empty DATA frame opens an entry for its stream. *)
Lemma empty_data_opens fs root s id :
  0 < id < 2 ^ 31 → ss_got_preface s = true → ss_state s = OPEN → ss_codec s = new_codec →
  ss_peer_window s = kDefaultWindow →
  Forall (λ e, e.1 < id ∧ st_done e.2 = false) (ss_streams s) →
  on_chunk fs root (build_data id [] false) s = upd_streams (ss_streams s ++ [idle_stream id]) s.
Proof.
  intros Hid Hp Hs Hc Hw Hst. unfold on_chunk. rewrite Hp, Hs. simpl negb. cbv iota.
  pose proof (parse_serialize_app FrameType.DATA 0 id [] []) as E. rewrite app_nil_r in E.
  unfold build_data. rewrite E by (done || lia). unfold dispatch_frame. simpl f_stream_id.
  rewrite (proj2 (Z.eqb_neq id kNoStreamId)) by (unfold kNoStreamId; lia).
  unfold handle_stream_frame. simpl. rewrite Hc. simpl.
  assert (filter (λ e : Z * H2Stream, st_done e.2 = false) (ss_streams s) = ss_streams s) as Hf.
  { clear -Hst. induction Hst as [|e l [? ?] _ IH]; [done|]. by rewrite filter_cons_True, IH. }
  unfold prune_streams, upd_streams, upd_codec. simpl. rewrite Hf.
  destruct (smap_snoc id (mkStream S_OPEN [] kDefaultWindow [] false false) (ss_streams s)) as [H1 H2].
  { eapply List.Forall_impl; [|exact Hst]. by intros ? []. }
  rewrite H1. simpl. rewrite Hw, H2. by destruct s; simpl in *; subst.
Qed.

Definition data_flood (n : nat) : list bytes :=
  (λ i, build_data (Z.of_nat (S i)) [] false) <$> seq 0 n.

Lemma data_flood_state fs root n :
  Z.of_nat n < 2 ^ 31 →
  run fs root (kConnectionMagic :: data_flood n) =
    upd_streams ((λ i, idle_stream (Z.of_nat (S i))) <$> seq 0 n) (run fs root [kConnectionMagic]).
Proof.
  intros Hn. induction n as [|n IH]; [done|].
  unfold data_flood. rewrite seq_S, !fmap_app, app_comm_cons. unfold run at 1. rewrite foldl_app.
  change (foldl _ _ _) with (run fs root (kConnectionMagic :: data_flood n)) at 2.
  cbn [foldl fmap list_fmap]. rewrite IH by lia.
  rewrite empty_data_opens; [done|simpl; lia|done..|].
  simpl. apply Forall_fmap. apply Forall_forall. intros i Hi%list_elem_of_In.
  apply elem_of_seq in Hi. simpl. split; [lia|done].
Qed.

(** The advertised concurrent-stream limit is enforced for HEADERS only: on
    a fresh connection, [n] empty DATA frames on streams [1..n] leave [n] live
    entries in [streams_], for every [n] below [2^31], however far beyond
    [kMaxConcurrentStreams] that is, and the connection stays open. *)
Theorem data_opens_streams_without_limit (fs : FileSystem) (root : bytes) (n : nat)
  (Hn : Z.of_nat n < 2 ^ 31) :
  length (ss_streams (run fs root (kConnectionMagic :: data_flood n))) = n ∧
  ss_state (run fs root (kConnectionMagic :: data_flood n)) = OPEN.
Proof.
  rewrite data_flood_state by done. simpl. by rewrite length_fmap, length_seq.
Qed.

Lemma data_opens_streams_without_limit_witness :
  (kMaxConcurrentStreams < 1000)%nat ∧
  length (ss_streams (run (one_file [] []) (s! "/www") (kConnectionMagic :: data_flood 1000))) = 1000%nat.
Proof.
  split; [by apply (bool_decide_unpack _)|].
  apply (data_opens_streams_without_limit (one_file [] []) (s! "/www") 1000). done.
Defined.

(** ** Splitting the input into chunks *)

(** The reader splits the byte stream exactly at frame boundaries: with the
    preface done and a complete frame in front, [extract_one_line] takes that
    frame and leaves what follows; with only part of the frame buffered it
    takes nothing and waits. *)
Theorem extract_frame_exact (s : H2Session) (t fl sid : Z) (p rest : bytes)
  (Hs : ss_got_preface s = true) (Hp : Z.of_nat (length p) < 2 ^ 24) :
  extract_one s (serialize_frame t fl sid p ++ rest) = Some (serialize_frame t fl sid p, rest) ∧
  ∀ k, (k < length (serialize_frame t fl sid p))%nat →
       extract_one s (take k (serialize_frame t fl sid p)) = None.
Proof.
  assert (∀ k r, (kFrameHeaderSize ≤ k)%nat →
    be24 (take k (serialize_frame t fl sid p) ++ r) 0 = Z.of_nat (length p)) as Hlen.
  { intros k r Hk. unfold serialize_frame.
    rewrite take_app_ge by (rewrite length_u24; unfold kFrameHeaderSize in *; lia).
    rewrite <-app_assoc. by apply u24_length_roundtrip. }
  unfold extract_one, frame_length. rewrite Hs. simpl negb. cbv iota. split.
  - specialize (Hlen (length (serialize_frame t fl sid p)) rest). rewrite take_ge in Hlen by done.
    rewrite length_app, length_serialize_frame in *.
    rewrite Hlen by lia. rewrite !(proj2 (Nat.ltb_ge _ _)), Nat2Z.id by lia.
    by rewrite <-(length_serialize_frame t fl sid p), take_app_length, drop_app_length.
  - intros k Hk. rewrite length_take, length_serialize_frame in *.
    destruct (Nat.ltb_spec (k `min` (kFrameHeaderSize + length p)) kFrameHeaderSize); [done|].
    specialize (Hlen k []). rewrite app_nil_r in Hlen. rewrite Hlen by lia.
    by rewrite Nat2Z.id, (proj2 (Nat.ltb_lt _ _)) by lia.
Qed.

Lemma extract_frame_exact_witness :
  extract_one (run (one_file [] []) [] [kConnectionMagic]) (build_data 3 (s! "hi") true ++ s! "next")
    = Some (build_data 3 (s! "hi") true, s! "next").
Proof.
  apply (extract_frame_exact (run (one_file [] []) [] [kConnectionMagic])); vm_compute; done.
Defined.
