(* ===== verification/LruCache.v ===== *)
(** * The LRU cache

    Models [include/framework/cache/lru_cache.h].  [m_list] is the recency
    list, newest first; [m_map] is the index, whose iterators are identified by
    the key they point to, so it is the set of indexed keys.  Both mutexes are
    held for the whole of every mutating operation, so operations are atomic
    and a concurrent history is a sequence of them.  The clock is an argument.

    The invariant [lru_wf] says the index and the list hold the same keys, each
    once, and at most [m_capacity] of them.  [lru_contract] relates the cache to
    its contract: a bounded map that remembers the most recently used keys.
    The class [SeenWindow] is what the node router relies on. *)

From S2P Require Import Prelude.

Section Lru.
Context {K V : Type} `{!EqDecision K, !Countable K}.

Record InternalEntry := mkEntry { value : V; created : Z }.

Record LruCache := mkLru {
  m_capacity : nat;
  m_ttl : Z;
  m_list : list (K * InternalEntry);
  m_map : gset K;
}.

Definition new_lru (capacity : nat) (ttl : Z) : LruCache :=
  mkLru (if (0 <? capacity)%nat then capacity else 1%nat) ttl [] ∅.

(** The list node an iterator of [m_map] points to. *)
Definition node_of (k : K) (l : list (K * InternalEntry)) : option InternalEntry :=
  snd <$> find (λ e, bool_decide (e.1 = k)) l.

Definition erase_node (k : K) (l : list (K * InternalEntry)) : list (K * InternalEntry) :=
  filter (λ e, e.1 ≠ k) l.

(** [m_list.splice(m_list.begin(), m_list, it)]. *)
Definition splice_front (k : K) (l : list (K * InternalEntry)) : list (K * InternalEntry) :=
  match node_of k l with Some e => (k, e) :: erase_node k l | None => l end.

Definition set_list (l : list (K * InternalEntry)) (m : gset K) (c : LruCache) : LruCache :=
  mkLru (m_capacity c) (m_ttl c) l m.

(** The value and whether it is stale, when present. *)
Definition get (now : Z) (key : K) (c : LruCache) : option (V * bool) * LruCache :=
  if bool_decide (key ∈ m_map c) then
    let c := set_list (splice_front key (m_list c)) (m_map c) c in
    match node_of key (m_list c) with
    | Some e => (Some (value e, now - created e >=? m_ttl c), c)
    | None => (None, c)
    end
  else (None, c).

Definition put (now : Z) (key : K) (v : V) (c : LruCache) : LruCache :=
  if bool_decide (key ∈ m_map c) then
    set_list ((key, mkEntry v now) :: erase_node key (m_list c)) (m_map c) c
  else
    let c := if (m_capacity c <=? size (m_map c))%nat then
        match list.last (m_list c) with
        | Some e => set_list (removelast (m_list c)) (m_map c ∖ {[ e.1 ]}) c
        | None => c
        end
      else c in
    set_list ((key, mkEntry v now) :: m_list c) ({[ key ]} ∪ m_map c) c.

Definition invalidate (key : K) (c : LruCache) : LruCache :=
  if bool_decide (key ∈ m_map c)
  then set_list (erase_node key (m_list c)) (m_map c ∖ {[ key ]}) c else c.

(** The loop of [invalidate_if] over the list. *)
Fixpoint invalidate_loop (pred : K → bool) (l : list (K * InternalEntry)) (m : gset K)
  : list (K * InternalEntry) * gset K :=
  match l with
  | [] => ([], m)
  | e :: l =>
      if pred e.1 then invalidate_loop pred l (m ∖ {[ e.1 ]})
      else let '(l, m) := invalidate_loop pred l m in (e :: l, m)
  end.

Definition invalidate_if (pred : K → bool) (c : LruCache) : LruCache :=
  let '(l, m) := invalidate_loop pred (m_list c) (m_map c) in set_list l m c.

Definition clear (c : LruCache) : LruCache := set_list [] ∅ c.

Definition lru_size (c : LruCache) : nat := size (m_map c).

(** [loader] runs outside the locks, between the two operations. *)
Definition get_or_refresh (now : Z) (key : K) (loader : V) (c : LruCache) : (V * bool) * LruCache :=
  match get now key c with
  | (Some (v, stale), c) => ((v, stale), c)
  | (None, c) => ((loader, false), put now key loader c)
  end.

(** ** The invariant *)

Definition keys (l : list (K * InternalEntry)) : list K := l.*1.

Record lru_wf (c : LruCache) : Prop := {
  lw_nodup : NoDup (keys (m_list c));
  lw_index : m_map c = list_to_set (keys (m_list c));
  lw_bound : (length (m_list c) ≤ m_capacity c)%nat;
  lw_cap : (0 < m_capacity c)%nat;
}.

Lemma keys_erase k l : keys (erase_node k l) = filter (λ x, x ≠ k) (keys l).
Proof.
  induction l as [|[k' e] l IH]; [done|]. unfold erase_node, keys in *.
  rewrite fmap_cons, !filter_cons. cbn [fst]. case_decide; [rewrite fmap_cons|]; by rewrite IH.
Qed.

Lemma elem_of_keys_erase k x l : x ∈ keys (erase_node k l) ↔ x ≠ k ∧ x ∈ keys l.
Proof. by rewrite keys_erase, list_elem_of_filter. Qed.

Lemma erase_nodup k l : NoDup (keys l) → NoDup (keys (erase_node k l)).
Proof. rewrite keys_erase. apply list.NoDup_filter. Qed.

Lemma length_erase k l : k ∈ keys l → (length (erase_node k l) < length l)%nat.
Proof.
  intros Hk. unfold keys in Hk. apply list_elem_of_fmap in Hk as ([k' e] & -> & Hin).
  unfold erase_node. eapply (length_filter_lt _ _ (k', e)); [done|]. simpl. tauto.
Qed.

Lemma erase_fresh k l : k ∉ keys l → erase_node k l = l.
Proof.
  intros Hk. induction l as [|[k' e] l IH]; [done|]. unfold erase_node, keys in *.
  cbn in Hk. rewrite not_elem_of_cons in Hk. destruct Hk as [? ?].
  rewrite filter_cons_True by (simpl; congruence). by rewrite IH.
Qed.

Lemma node_of_cons k k' e l :
  node_of k ((k', e) :: l) = if decide (k' = k) then Some e else node_of k l.
Proof. unfold node_of. simpl. case_bool_decide; by case_decide. Qed.

Lemma node_of_is_Some k l : is_Some (node_of k l) ↔ k ∈ keys l.
Proof.
  induction l as [|[k' e] l IH]; [split; [by intros []|by intros ?%elem_of_nil]|].
  rewrite node_of_cons. unfold keys in *. cbn. rewrite elem_of_cons.
  case_decide; [split; eauto|]. rewrite IH. split; [auto|]. intros [?|?]; congruence.
Qed.

Lemma node_of_erase_ne k k' l : k ≠ k' → node_of k (erase_node k' l) = node_of k l.
Proof.
  intros Hne. induction l as [|[k1 e] l IH]; [done|]. unfold erase_node in *.
  rewrite filter_cons. case_decide as Hd; simpl in Hd.
  - rewrite !node_of_cons. by rewrite IH.
  - rewrite IH, node_of_cons. rewrite decide_False; [done|]. intros ->.
    by destruct (decide (k = k')).
Qed.

Lemma size_index c : lru_wf c → size (m_map c) = length (m_list c).
Proof.
  intros [Hn -> _ _]. rewrite size_list_to_set by done. unfold keys. by rewrite length_fmap.
Qed.

Lemma elem_of_index c k : lru_wf c → k ∈ m_map c ↔ k ∈ keys (m_list c).
Proof. intros [_ -> _ _]. by rewrite elem_of_list_to_set. Qed.

Lemma new_lru_wf capacity ttl : lru_wf (new_lru capacity ttl).
Proof.
  unfold new_lru. split; simpl; [constructor|done|lia|].
  destruct (0 <? capacity)%nat eqn:E; bool_prop; lia.
Qed.

Lemma splice_front_keys k l :
  k ∈ keys l → keys (splice_front k l) = k :: keys (erase_node k l).
Proof. unfold splice_front. intros Hk. apply node_of_is_Some in Hk as [e ->]. done. Qed.

(** Moving or replacing the node of an indexed key at the front. *)
Lemma to_front_wf k e c :
  lru_wf c → k ∈ keys (m_list c) →
  lru_wf (set_list ((k, e) :: erase_node k (m_list c)) (m_map c) c).
Proof.
  intros [Hn Hi Hb Hc] Hk. split; simpl; [|..|done].
  - constructor; [|by apply erase_nodup]. rewrite elem_of_keys_erase. tauto.
  - rewrite Hi. apply set_eq. intros x. cbn. fold (keys (erase_node k (m_list c))).
    rewrite elem_of_union, elem_of_singleton, !elem_of_list_to_set, elem_of_keys_erase.
    destruct (decide (x = k)) as [->|]; tauto.
  - pose proof (length_erase _ _ Hk). lia.
Qed.

Lemma get_wf now k c : lru_wf c → lru_wf (get now k c).2.
Proof.
  intros Hwf. unfold get. case_bool_decide as Hin; [|done].
  apply elem_of_index in Hin; [|done]. pose proof Hin as [e He]%node_of_is_Some.
  unfold splice_front. rewrite He. simpl. rewrite node_of_cons, decide_True by done.
  by apply to_front_wf.
Qed.

Lemma removelast_snoc {A} (l : list A) x : removelast (l ++ [x]) = l.
Proof. apply removelast_last. Qed.

(** Dropping the oldest node. *)
Lemma evict_wf c l e :
  lru_wf c → m_list c = l ++ [e] →
  lru_wf (set_list l (m_map c ∖ {[ e.1 ]}) c).
Proof.
  intros [Hn Hi Hb Hc] Hl. rewrite Hl in *. unfold keys in *.
  rewrite fmap_app in Hn, Hi. apply list.NoDup_app in Hn as (Hn & Hdis & _).
  split; simpl; [done| |rewrite length_app in Hb; simpl in Hb; lia|done].
  rewrite Hi. apply set_eq. intros x. specialize (Hdis x). cbn in Hdis.
  rewrite elem_of_difference, elem_of_singleton, !elem_of_list_to_set, elem_of_app.
  cbn. rewrite list_elem_of_singleton in *. split; [tauto|]. intros Hx.
  split; [by left|]. intros ->. by apply Hdis.
Qed.

Lemma push_front_wf k e c :
  lru_wf c → k ∉ keys (m_list c) → (length (m_list c) < m_capacity c)%nat →
  lru_wf (set_list ((k, e) :: m_list c) ({[ k ]} ∪ m_map c) c).
Proof.
  intros [Hn Hi Hb Hc] Hk Hlt. split; simpl; [by constructor| |lia|done]. by rewrite Hi.
Qed.

(** A full cache has an oldest node, which [put] of a new key drops. *)
Definition make_room (c : LruCache) : LruCache :=
  if (m_capacity c <=? size (m_map c))%nat then
    match list.last (m_list c) with
    | Some e => set_list (removelast (m_list c)) (m_map c ∖ {[ e.1 ]}) c
    | None => c
    end
  else c.

Lemma put_eq now k v c :
  lru_wf c →
  put now k v c =
    if bool_decide (k ∈ keys (m_list c))
    then set_list ((k, mkEntry v now) :: erase_node k (m_list c)) (m_map c) c
    else set_list ((k, mkEntry v now) :: m_list (make_room c))
           ({[ k ]} ∪ m_map (make_room c)) (make_room c).
Proof.
  intros Hwf. unfold put, make_room.
  by rewrite (bool_decide_ext _ _ (elem_of_index c k Hwf)).
Qed.

Lemma make_room_cases c :
  lru_wf c →
  (make_room c = c ∧ (length (m_list c) < m_capacity c)%nat) ∨
  (∃ l e, m_list c = l ++ [e] ∧ make_room c = set_list l (m_map c ∖ {[ e.1 ]}) c ∧
          (S (length l) = m_capacity c)%nat).
Proof.
  intros Hwf. unfold make_room. rewrite (size_index c Hwf).
  pose proof (lw_bound c Hwf). pose proof (lw_cap c Hwf).
  destruct (m_capacity c <=? length (m_list c))%nat eqn:E; bool_prop; [right|left; done].
  destruct (m_list c) as [|e l _] eqn:El using rev_ind; [simpl in *; lia|].
  exists l, e. rewrite last_snoc, removelast_snoc, length_app in *. simpl in *.
  split_and!; [done..|lia].
Qed.

Lemma make_room_wf c :
  lru_wf c → lru_wf (make_room c) ∧ (length (m_list (make_room c)) < m_capacity c)%nat ∧
    m_capacity (make_room c) = m_capacity c ∧
    (∀ k, k ∈ keys (m_list (make_room c)) → k ∈ keys (m_list c)).
Proof.
  intros Hwf. destruct (make_room_cases c Hwf) as [[-> ?]|(l & e & Hl & -> & ?)]; [done|].
  split_and!; [by apply evict_wf|simpl; lia|done|].
  intros k. rewrite Hl. unfold keys. simpl. rewrite fmap_app, elem_of_app. auto.
Qed.

Lemma put_wf now k v c : lru_wf c → lru_wf (put now k v c).
Proof.
  intros Hwf. rewrite put_eq by done. case_bool_decide as Hin; [by apply to_front_wf|].
  destruct (make_room_wf c Hwf) as (Hwf' & Hlt & Hcap & Hsub).
  apply push_front_wf; [done|auto|lia].
Qed.

Lemma invalidate_wf k c : lru_wf c → lru_wf (invalidate k c).
Proof.
  intros Hwf. unfold invalidate. case_bool_decide as Hin; [|done].
  apply elem_of_index in Hin; [|done]. destruct Hwf as [Hn Hi Hb Hc].
  split; simpl; [by apply erase_nodup| | |done].
  - rewrite Hi. apply set_eq. intros x.
    rewrite elem_of_difference, elem_of_singleton, !elem_of_list_to_set, elem_of_keys_erase. tauto.
  - pose proof (length_erase _ _ Hin). lia.
Qed.

Lemma invalidate_loop_spec pred l m :
  invalidate_loop pred l m =
    (filter (λ e, pred e.1 = false) l, m ∖ list_to_set (keys (filter (λ e, pred e.1 = true) l))).
Proof.
  revert m. induction l as [|[k e] l IH]; intros m; simpl.
  { f_equal. cbn. set_solver. }
  rewrite !filter_cons. simpl. destruct (pred k) eqn:Ep; rewrite IH.
  - rewrite decide_False, decide_True by congruence. f_equal. cbn. set_solver.
  - by rewrite decide_True, decide_False by congruence.
Qed.

Lemma invalidate_if_wf pred c : lru_wf c → lru_wf (invalidate_if pred c).
Proof.
  intros [Hn Hi Hb Hc]. unfold invalidate_if. rewrite invalidate_loop_spec.
  assert (∀ b x, x ∈ keys (filter (λ e, pred e.1 = b) (m_list c)) ↔ pred x = b ∧ x ∈ keys (m_list c)) as Hf.
  { intros b x. unfold keys. rewrite !list_elem_of_fmap. split.
    - intros (e & -> & [? ?]%list_elem_of_filter). eauto.
    - intros [Hp (e & -> & He)]. exists e. by rewrite list_elem_of_filter. }
  split; simpl; [| | |done].
  - eapply sublist_NoDup; [exact Hn|]. unfold keys. apply fmap_sublist, sublist_filter.
  - rewrite Hi. apply set_eq. intros x.
    rewrite elem_of_difference, !elem_of_list_to_set, !Hf. destruct (pred x); naive_solver.
  - etrans; [|exact Hb]. apply length_filter.
Qed.

Lemma clear_wf c : lru_wf c → lru_wf (clear c).
Proof. intros []. split; simpl; [constructor|done|lia|done]. Qed.

(** ** The contract *)

(** The value a cache holds for a key. *)
Definition lookup_value (c : LruCache) (k : K) : option V := value <$> node_of k (m_list c).

(** The key the next eviction drops. *)
Definition oldest (c : LruCache) : option K := fst <$> list.last (m_list c).

Inductive lru_op :=
  | LGet (now : Z) (k : K) | LPut (now : Z) (k : K) (v : V) | LInvalidate (k : K)
  | LInvalidateIf (p : K → bool) | LClear | LRefresh (now : Z) (k : K) (v : V).

Definition lru_step (op : lru_op) (c : LruCache) : LruCache :=
  match op with
  | LGet now k => (get now k c).2
  | LPut now k v => put now k v c
  | LInvalidate k => invalidate k c
  | LInvalidateIf p => invalidate_if p c
  | LClear => clear c
  | LRefresh now k v => (get_or_refresh now k v c).2
  end.

Lemma get_or_refresh_wf now k v c : lru_wf c → lru_wf (get_or_refresh now k v c).2.
Proof.
  intros Hwf. pose proof (get_wf now k c Hwf) as Hg. unfold get_or_refresh.
  destruct (get now k c) as [[[? ?]|] c']; simpl in *; [done|by apply put_wf].
Qed.

Lemma lru_step_wf op c : lru_wf c → lru_wf (lru_step op c).
Proof.
  destruct op; simpl; auto using get_wf, put_wf, invalidate_wf, invalidate_if_wf, clear_wf,
    get_or_refresh_wf.
Qed.

Definition lru_run (ops : list lru_op) (c : LruCache) : LruCache := foldl (λ c op, lru_step op c) c ops.

Lemma lru_run_wf ops c : lru_wf c → lru_wf (lru_run ops c).
Proof. revert c. induction ops; intros c Hwf; simpl; [done|]. by apply IHops, lru_step_wf. Qed.

Lemma lookup_cons c k e l m k' :
  lookup_value (set_list ((k, e) :: l) m c) k' =
    if decide (k = k') then Some (value e) else value <$> node_of k' l.
Proof. unfold lookup_value. simpl. rewrite node_of_cons. by case_decide. Qed.

Lemma get_spec now k c :
  lru_wf c →
  (fst <$> (get now k c).1) = lookup_value c k ∧
  (∀ k', lookup_value (get now k c).2 k' = lookup_value c k').
Proof.
  intros Hwf. unfold get. rewrite (bool_decide_ext _ _ (elem_of_index c k Hwf)).
  case_bool_decide as Hin.
  - pose proof Hin as [e He]%node_of_is_Some.
    unfold splice_front. rewrite He. simpl. rewrite node_of_cons, decide_True by done. simpl.
    split; [by unfold lookup_value; rewrite He|]. intros k'. rewrite lookup_cons.
    unfold lookup_value. case_decide as Hk; [by subst; rewrite He|].
    by rewrite node_of_erase_ne by done.
  - simpl. split; [|done]. unfold lookup_value. destruct (node_of k (m_list c)) eqn:E; [|done].
    exfalso. apply Hin, node_of_is_Some. eauto.
Qed.

Lemma node_of_snoc k l e :
  k ≠ e.1 → node_of k (l ++ [e]) = node_of k l.
Proof.
  destruct e as [k0 e]. simpl. intros Hne. induction l as [|[k1 e1] l IH]; simpl.
  - rewrite node_of_cons. by rewrite decide_False by done.
  - rewrite !node_of_cons. by rewrite IH.
Qed.

(** What [put] of a new key forgets. *)
Definition evicted (k : K) (c : LruCache) : option K :=
  if bool_decide (k ∈ keys (m_list c)) then None else
  if (m_capacity c <=? length (m_list c))%nat then oldest c else None.

Lemma make_room_lookup c k' :
  lru_wf c →
  value <$> node_of k' (m_list (make_room c)) =
    if bool_decide ((if (m_capacity c <=? length (m_list c))%nat then oldest c else None) = Some k')
    then None else lookup_value c k'.
Proof.
  intros Hwf. unfold lookup_value.
  destruct (make_room_cases c Hwf) as [[-> ?]|(l & e & Hl & -> & Hcap)].
  - rewrite (proj2 (Nat.leb_gt _ _)) by done. by rewrite bool_decide_eq_false_2.
  - assert ((m_capacity c <=? length (m_list c))%nat = true) as ->
      by (apply Nat.leb_le; rewrite Hl, length_app; simpl; lia).
    unfold oldest. rewrite Hl, last_snoc. simpl. case_bool_decide as Hk.
    + injection Hk as <-. pose proof (lw_nodup c Hwf) as Hn. rewrite Hl in Hn.
      unfold keys in Hn. rewrite fmap_app in Hn. apply list.NoDup_app in Hn as (_ & Hdis & _).
      destruct (node_of e.1 l) eqn:E; [|done]. exfalso. apply (Hdis e.1); [|by left].
      apply node_of_is_Some. eauto.
    + rewrite node_of_snoc; [done|]. congruence.
Qed.

Lemma put_spec now k v c :
  lru_wf c →
  lookup_value (put now k v c) k = Some v ∧
  (∀ k', k' ≠ k →
     lookup_value (put now k v c) k' =
       if bool_decide (evicted k c = Some k') then None else lookup_value c k').
Proof.
  intros Hwf. rewrite put_eq by done. unfold evicted. case_bool_decide as Hin.
  - split; [by rewrite lookup_cons, decide_True|]. intros k' Hne.
    rewrite lookup_cons, decide_False, node_of_erase_ne by done.
    by rewrite bool_decide_eq_false_2.
  - split; [by rewrite lookup_cons, decide_True|]. intros k' Hne.
    rewrite lookup_cons, decide_False by done. by rewrite make_room_lookup.
Qed.

Lemma invalidate_spec k c k' :
  lru_wf c →
  lookup_value (invalidate k c) k' = if decide (k' = k) then None else lookup_value c k'.
Proof.
  intros Hwf. unfold invalidate. rewrite (bool_decide_ext _ _ (elem_of_index c k Hwf)).
  unfold lookup_value. case_bool_decide as Hin; simpl; case_decide as Hk; subst.
  - destruct (node_of k (erase_node k (m_list c))) eqn:E; [|done]. exfalso.
    assert (k ∈ keys (erase_node k (m_list c))) as Hk by (apply node_of_is_Some; eauto).
    rewrite elem_of_keys_erase in Hk. tauto.
  - by rewrite node_of_erase_ne.
  - destruct (node_of k (m_list c)) eqn:E; [|done]. exfalso. apply Hin, node_of_is_Some. eauto.
  - done.
Qed.

(** ** Retention: the most recently used keys are never evicted *)

(** Operations that touch a key; invalidations are excluded. *)
Definition touches (op : lru_op) : option K :=
  match op with
  | LGet _ k | LPut _ k _ | LRefresh _ k _ => Some k
  | _ => None
  end.

(** Every key in front of [k] is in [T]. *)
Definition fresh_within (k : K) (T : gset K) (c : LruCache) : Prop :=
  ∃ l1 l2, keys (m_list c) = l1 ++ k :: l2 ∧ ∀ x, x ∈ l1 → x ∈ T.

Lemma keys_move_front x e c :
  keys (m_list (set_list ((x, e) :: erase_node x (m_list c)) (m_map c) c)) =
  x :: filter (λ y, y ≠ x) (keys (m_list c)).
Proof. by rewrite <-keys_erase. Qed.

Lemma move_front_fresh k T x e c :
  fresh_within k T c →
  fresh_within k ({[ x ]} ∪ T) (set_list ((x, e) :: erase_node x (m_list c)) (m_map c) c).
Proof.
  intros (l1 & l2 & Hl & HT). unfold fresh_within. rewrite keys_move_front, Hl.
  destruct (decide (x = k)) as [->|Hne].
  - exists [], (filter (λ y, y ≠ k) (l1 ++ k :: l2)). split; [done|]. by intros ? ?%elem_of_nil.
  - exists (x :: filter (λ y, y ≠ x) l1), (filter (λ y, y ≠ x) l2). split.
    + by rewrite list.filter_app, filter_cons_True by congruence.
    + intros y. rewrite elem_of_cons, list_elem_of_filter. intros [->|[_ ?]]; set_solver.
Qed.

Lemma get_fresh now k T x c :
  lru_wf c → fresh_within k T c → fresh_within k ({[ x ]} ∪ T) (get now x c).2.
Proof.
  intros Hwf Hf. unfold get. rewrite (bool_decide_ext _ _ (elem_of_index c x Hwf)).
  case_bool_decide as Hin.
  - pose proof Hin as [e He]%node_of_is_Some.
    unfold splice_front. rewrite He. simpl. rewrite node_of_cons, decide_True by done. simpl.
    by apply move_front_fresh.
  - destruct Hf as (l1 & l2 & Hl & HT). exists l1, l2. split; [done|]. set_solver.
Qed.

Lemma put_fresh now k T x v c :
  lru_wf c → fresh_within k T c → (size ({[ x ]} ∪ T) < m_capacity c)%nat →
  fresh_within k ({[ x ]} ∪ T) (put now x v c).
Proof.
  intros Hwf Hf Hsz. rewrite put_eq by done. case_bool_decide as Hin; [by apply move_front_fresh|].
  destruct Hf as (l1 & l2 & Hl & HT).
  assert (x ∉ l1) as Hx by (intros ?; apply Hin; rewrite Hl; set_solver).
  destruct (make_room_cases c Hwf) as [[-> ?]|(l & e & Hl' & -> & Hcap)].
  { exists (x :: l1), l2. split; [by change (x :: keys (m_list c) = (x :: l1) ++ k :: l2); rewrite Hl|]. set_solver. }
  destruct l2 as [|z l2 _] using rev_ind.
  - exfalso.
    assert (NoDup (x :: l1)) as Hnd.
    { constructor; [done|]. pose proof (lw_nodup c Hwf) as Hn. rewrite Hl in Hn.
      by apply list.NoDup_app in Hn as (? & _). }
    assert (length (x :: l1) = m_capacity c) as Hlen.
    { apply (f_equal length) in Hl. apply (f_equal length) in Hl'. unfold keys in Hl.
      rewrite length_fmap, length_app in *. simpl in *. lia. }
    assert (list_to_set (x :: l1) ⊆ ({[ x ]} ∪ T : gset K)) as Hsub.
    { intros y. rewrite elem_of_list_to_set, elem_of_cons. set_solver. }
    apply subseteq_size in Hsub. rewrite size_list_to_set in Hsub by done. lia.
  - exists (x :: l1), l2. split; [|set_solver].
    rewrite Hl' in Hl. unfold keys in Hl. rewrite fmap_app, app_comm_cons, app_assoc in Hl.
    apply app_inj_tail in Hl as [Hl _]. change (x :: l.*1 = (x :: l1) ++ k :: l2).
    by rewrite Hl.
Qed.

Lemma get_capacity now x c : m_capacity (get now x c).2 = m_capacity c.
Proof. unfold get. case_bool_decide; [|done]. by case_match. Qed.

Lemma put_capacity now x v c : m_capacity (put now x v c) = m_capacity c.
Proof. unfold put. repeat case_match; done. Qed.

(** One touching operation keeps [k] behind touched keys only. *)
Lemma touch_fresh k T op x c :
  lru_wf c → touches op = Some x → fresh_within k T c → (size ({[ x ]} ∪ T) < m_capacity c)%nat →
  fresh_within k ({[ x ]} ∪ T) (lru_step op c) ∧ m_capacity (lru_step op c) = m_capacity c.
Proof.
  intros Hwf Hop Hf Hsz. destruct op as [now y|now y v| | | |now y v]; simplify_eq/=.
  - split; [by apply get_fresh|apply get_capacity].
  - split; [by apply put_fresh|apply put_capacity].
  - pose proof (get_fresh now k T x c Hwf Hf) as Hg. pose proof (get_wf now x c Hwf) as Hwf'.
    pose proof (get_capacity now x c) as Hcap. unfold get_or_refresh.
    destruct (get now x c) as [[[? ?]|] c']; simpl in *; [done|].
    split; [|by rewrite put_capacity].
    assert ({[ x ]} ∪ T = {[ x ]} ∪ ({[ x ]} ∪ T)) as HT by set_solver.
    rewrite HT. apply put_fresh; [done|done|by rewrite <-HT, Hcap].
Qed.

Lemma lru_run_fresh ops k T c :
  lru_wf c → fresh_within k T c → Forall (λ op, is_Some (touches op)) ops →
  (size (list_to_set (omap touches ops) ∪ T) < m_capacity c)%nat →
  fresh_within k (list_to_set (omap touches ops) ∪ T) (lru_run ops c).
Proof.
  intros Hwf Hf Hops. revert c T Hwf Hf. induction Hops as [|op ops [x Hx] Hops IH];
    intros c T Hwf Hf Hsz.
  { assert (list_to_set (omap touches []) ∪ T = T) as -> by (cbn; set_solver). done. }
  cbn [omap list_omap lru_run foldl] in *. rewrite Hx in *.
  replace (list_to_set (x :: omap touches ops) ∪ T)
    with (list_to_set (omap touches ops) ∪ ({[ x ]} ∪ T)) in * by (cbn; set_solver).
  assert (size ({[ x ]} ∪ T) < m_capacity c)%nat as Hsx.
  { eapply Nat.le_lt_trans; [apply subseteq_size|exact Hsz]. set_solver. }
  destruct (touch_fresh k T op x c Hwf Hx Hf Hsx) as [Hf' Hcap].
  apply IH; [by apply lru_step_wf|done|by rewrite Hcap].
Qed.

Lemma fresh_within_mem k T c : fresh_within k T c → k ∈ keys (m_list c).
Proof. intros (l1 & l2 & -> & _). set_solver. Qed.

Lemma put_front now k v c : lru_wf c → fresh_within k ∅ (put now k v c).
Proof.
  intros Hwf. rewrite put_eq by done.
  case_bool_decide; eexists [], _; (split; [reflexivity|]); by intros ? ?%elem_of_nil.
Qed.

Lemma get_front now k c : lru_wf c → k ∈ keys (m_list c) → fresh_within k ∅ (get now k c).2.
Proof.
  intros Hwf Hin. unfold get. rewrite bool_decide_eq_true_2 by by apply elem_of_index.
  pose proof Hin as [e He]%node_of_is_Some.
  unfold splice_front. rewrite He. simpl. rewrite node_of_cons, decide_True by done. simpl.
  eexists [], _. split; [reflexivity|]. by intros ? ?%elem_of_nil.
Qed.
End Lru.

Arguments InternalEntry : clear implicits.
Arguments LruCache K V {_ _}.
Arguments lru_op K V : clear implicits.

(** ** Properties *)

(** The cache never exceeds its capacity and its index never drifts from its
    list: after any sequence of operations on a new cache the index holds
    exactly the keys of the recency list, each key once, and there are at most
    [max 1 capacity] of them. *)
Theorem lru_bounded {K V : Type} `{!EqDecision K, !Countable K}
  (capacity : nat) (ttl : Z) (ops : list (lru_op K V)) :
  let c := lru_run ops (new_lru capacity ttl) in
  m_map c = list_to_set (keys (m_list c)) ∧ NoDup (keys (m_list c)) ∧
  (lru_size c ≤ 1 `max` capacity)%nat.
Proof.
  intros c. pose proof (lru_run_wf ops _ (new_lru_wf capacity ttl)) as Hwf. fold c in Hwf.
  assert (m_capacity c = 1 `max` capacity)%nat as Hcap.
  { assert (m_capacity c = m_capacity (new_lru (K:=K) (V:=V) capacity ttl)) as ->.
    { subst c. generalize (new_lru (K:=K) (V:=V) capacity ttl). clear Hwf.
      induction ops as [|op ops IH]; intros c0; simpl; [done|]. rewrite IH.
      destruct op; simpl; rewrite ?get_capacity, ?put_capacity; try done.
      - unfold invalidate. by case_bool_decide.
      - unfold invalidate_if. by destruct (invalidate_loop _ _ _).
      - unfold get_or_refresh. pose proof (get_capacity now k c0) as Hg.
        destruct (get now k c0) as [[[? ?]|] c']; simpl in *; [done|]. by rewrite put_capacity. }
    unfold new_lru. simpl. destruct (0 <? capacity)%nat eqn:E; bool_prop; lia. }
  unfold lru_size. rewrite (size_index c Hwf), <-Hcap. destruct Hwf. auto.
Qed.

(** What the cache remembers.  [get] returns the stored value and changes no
    value; [put] stores its value and leaves every other key as it was, except
    that storing a new key into a full cache drops the least recently used
    key, and only that one; [invalidate] forgets exactly its key. *)
Theorem lru_contract {K V : Type} `{!EqDecision K, !Countable K}
  (now : Z) (k k' : K) (v : V) (c : LruCache K V) (Hwf : lru_wf c) (Hne : k' ≠ k) :
  (fst <$> (get now k c).1) = lookup_value c k ∧
  lookup_value (get now k c).2 k' = lookup_value c k' ∧
  lookup_value (put now k v c) k = Some v ∧
  lookup_value (put now k v c) k' =
    (if bool_decide (evicted k c = Some k') then None else lookup_value c k') ∧
  lookup_value (invalidate k c) k = None ∧
  lookup_value (invalidate k c) k' = lookup_value c k'.
Proof.
  destruct (get_spec now k c Hwf) as [Hg1 Hg2]. destruct (put_spec now k v c Hwf) as [Hp1 Hp2].
  rewrite !invalidate_spec, decide_True, decide_False by done. auto 10.
Qed.

Lemma lru_contract_witness :
  let c := lru_run [LPut 0 1 10; LPut 0 2 20; LGet 0 1] (new_lru (K:=Z) (V:=Z) 2 5) in
  lookup_value (put 1 3 30 c) 1 = Some 10 ∧ lookup_value (put 1 3 30 c) 2 = None.
Proof.
  intros c. assert (lru_wf c) as Hwf by apply lru_run_wf, new_lru_wf. split.
  - destruct (lru_contract 1 3 1 30 c Hwf ltac:(done)) as (_ & _ & _ & -> & _). reflexivity.
  - destruct (lru_contract 1 3 2 30 c Hwf ltac:(done)) as (_ & _ & _ & -> & _). reflexivity.
Defined.

(** The cache is least-recently-used: once a key has been stored, it survives
    any sequence of lookups, stores and refreshes in which fewer than
    [capacity] distinct keys are touched. *)
Theorem lru_retains {K V : Type} `{!EqDecision K, !Countable K}
  (now : Z) (k : K) (v : V) (c : LruCache K V) (ops : list (lru_op K V))
  (Hwf : lru_wf c) (Hops : Forall (λ op, is_Some (touches op)) ops)
  (Hfew : (size (list_to_set (omap touches ops) : gset K) < m_capacity c)%nat) :
  is_Some (lookup_value (lru_run ops (put now k v c)) k).
Proof.
  pose proof (lru_run_fresh ops k ∅ (put now k v c) (put_wf _ _ _ _ Hwf) (put_front _ _ _ _ Hwf) Hops)
    as Hf. rewrite (right_id_L ∅ (∪)), put_capacity in Hf. specialize (Hf Hfew).
  apply fresh_within_mem, node_of_is_Some in Hf as [e He].
  unfold lookup_value. rewrite He. eauto.
Qed.

Lemma lru_retains_witness :
  is_Some (lookup_value (lru_run [LPut 0 2 0; LPut 0 3 0; LGet 0 2; LRefresh 0 3 9; LPut 1 2 5]
    (put 0 1 7 (new_lru (K:=Z) (V:=Z) 3 5))) 1).
Proof.
  apply (lru_retains 0 1 7 (new_lru 3 5)); [apply new_lru_wf| |vm_compute; lia].
  repeat (apply List.Forall_cons; [by eexists|]). apply List.Forall_nil.
Defined.

(** ** The window of recently seen keys

    What a client that only asks "was this key seen recently?" relies on. *)

Class SeenWindow (C K : Type) `{!EqDecision K, !Countable K} := {
  sw_ok : C → Prop;
  sw_capacity : C → nat;
  sw_mem : C → K → Prop;
  sw_touch : Z → K → C → bool * C;
  sw_touch_ok now k c : sw_ok c → sw_ok (sw_touch now k c).2;
  sw_touch_capacity now k c : sw_capacity (sw_touch now k c).2 = sw_capacity c;
  sw_touch_seen now k c : sw_ok c → (sw_touch now k c).1 = true ↔ sw_mem c k;
  sw_retains now k c (ks : list (Z * K)) :
    sw_ok c → (size (list_to_set ks.*2 : gset K) < sw_capacity c)%nat →
    sw_mem (foldl (λ c p, (sw_touch p.1 p.2 c).2) (sw_touch now k c).2 ks) k;
}.

(** [if (cache->get(k)) return true; cache->put(k, 0); return false;] *)
Definition seen_and_insert {K V : Type} `{!EqDecision K, !Countable K} (v : V)
    (now : Z) (k : K) (c : LruCache K V) : bool * LruCache K V :=
  match get now k c with
  | (Some _, c) => (true, c)
  | (None, c) => (false, put now k v c)
  end.

Section LruWindow.
Context {K V : Type} `{!EqDecision K, !Countable K} (v : V).
Implicit Types c : LruCache K V.

Lemma seen_refresh now k c : (seen_and_insert v now k c).2 = lru_step (LRefresh now k v) c.
Proof. unfold seen_and_insert. simpl. unfold get_or_refresh. by destruct (get now k c) as [[[? ?]|] ?]. Qed.

Lemma seen_result now k c :
  lru_wf c → (seen_and_insert v now k c).1 = true ↔ k ∈ keys (m_list c).
Proof.
  intros Hwf. destruct (get_spec now k c Hwf) as [Hg _]. unfold seen_and_insert, lookup_value in *.
  rewrite <-node_of_is_Some.
  destruct (get now k c) as [[p|] c'], (node_of k (m_list c)); simpl in *; done.
Qed.

Lemma seen_front now k c : lru_wf c → fresh_within k ∅ (seen_and_insert v now k c).2.
Proof.
  intros Hwf. pose proof (get_wf now k c Hwf) as Hwf'.
  destruct (decide (k ∈ keys (m_list c))) as [Hin|Hin].
  - pose proof (get_front now k c Hwf Hin) as Hf. unfold seen_and_insert.
    destruct (get now k c) as [[p|] c']; simpl in *; [done|by apply put_front].
  - pose proof (proj1 (seen_result now k c Hwf)) as Hr. unfold seen_and_insert in *.
    destruct (get now k c) as [[p|] c']; simpl in *; [by exfalso; apply Hin, Hr|by apply put_front].
Qed.

Lemma seen_run ks c :
  foldl (λ c p, (seen_and_insert v p.1 p.2 c).2) c ks =
  lru_run ((λ p, LRefresh p.1 p.2 v) <$> ks) c.
Proof. revert c. induction ks as [|p ks IH]; intros c; [done|]. cbn. by rewrite IH, seen_refresh. Qed.

Lemma seen_capacity now k c : m_capacity (seen_and_insert v now k c).2 = m_capacity c.
Proof.
  unfold seen_and_insert. pose proof (get_capacity now k c).
  destruct (get now k c) as [[p|] c']; simpl in *; [done|by rewrite put_capacity].
Qed.

#[export] Instance lru_seen_window : SeenWindow (LruCache K V) K.
Proof.
  refine {| sw_ok := lru_wf; sw_capacity := m_capacity; sw_mem c k := k ∈ keys (m_list c);
            sw_touch := seen_and_insert v |}.
  - intros now k c Hwf. rewrite seen_refresh. by apply lru_step_wf.
  - apply seen_capacity.
  - apply seen_result.
  - intros now k c ks Hwf Hsz. rewrite seen_run. eapply fresh_within_mem.
    apply (lru_run_fresh _ k ∅); [..|].
    + rewrite seen_refresh. by apply lru_step_wf.
    + by apply seen_front.
    + apply Forall_fmap, Forall_forall. intros p _. by eexists.
    + rewrite (right_id_L ∅ (∪)), seen_capacity.
      replace (omap touches ((λ p : Z * K, LRefresh p.1 p.2 v) <$> ks)) with ks.*2; [done|].
      clear. induction ks as [|p ks IH]; [done|]. cbn. by rewrite IH.
Defined.
End LruWindow.
