(* ===== verification/NodeEnvelope.v ===== *)
(** * The node message envelope

    Models the envelope codec of [src/framework/node/node_proto.cpp] and the
    data types of [include/framework/node/node_proto.h].  [encode_envelope]
    throws on a malformed envelope, which is [None] here; [decode_envelope]
    returns one of the four [DecodeResult]s, with the envelope it filled in for
    the two results whose fields are used. *)

From S2P Require Import Prelude CString.

Inductive MessageType := data | ack | error | probe.

#[export] Instance MessageType_eq_dec : EqDecision MessageType.
Proof. solve_decision. Defined.

Definition type_byte (t : MessageType) : Z :=
  match t with data => 1 | ack => 2 | error => 3 | probe => 4 end.

Definition type_of_byte (b : Z) : option MessageType :=
  if b =? 1 then Some data else if b =? 2 then Some ack else
  if b =? 3 then Some error else if b =? 4 then Some probe else None.

Inductive MessageErrorCode :=
  | no_error | unroutable | ttl_exhausted | replay_rejected | decrypt_failed
  | unknown_type | queue_overflow.

#[export] Instance MessageErrorCode_eq_dec : EqDecision MessageErrorCode.
Proof. solve_decision. Defined.

Definition code_byte (c : MessageErrorCode) : Z :=
  match c with
  | no_error => 0 | unroutable => 1 | ttl_exhausted => 2 | replay_rejected => 3
  | decrypt_failed => 4 | unknown_type => 5 | queue_overflow => 6
  end.

Record Envelope := mkEnv {
  version : Z;
  type : MessageType;
  encrypted : bool;
  key_id : Z;
  ttl : Z;
  nonce : Z;
  timestamp_ms : Z;
  message_id : Z;
  source : bytes;
  destination : bytes;
  route : list bytes;
  route_pos : Z;
  payload : bytes;
}.

(** [Envelope{}] *)
Definition new_envelope : Envelope :=
  mkEnv 1 data false 0 0 0 0 0 [] [] [] 0 [].

Record NodeRouterOptions := mkOptions {
  max_envelope_bytes : Z;
  max_node_id_bytes : Z;
  max_route_hops : Z;
  max_hops : Z;
  timestamp_tolerance : Z;
  max_in_flight : Z;
  seen_message_capacity : nat;
  nonce_capacity : nat;
  max_tracked_sources : nat;
  dedup_by_message_id : bool;
  forward_enabled : bool;
}.

Definition default_options : NodeRouterOptions :=
  mkOptions (256 * 1024) 255 8 8 30000 128 4096 4096 256 true true.

Definition kFixedHeader : Z := 28.
Definition kTailHeader : Z := 4.
Definition kTagBytes : Z := 16.

(** ** Writing *)

Definition zlen (s : bytes) : Z := Z.of_nat (length s).

Definition put16 (n : Z) : bytes := be_put 2 n.
Definition put32 (n : Z) : bytes := be_put 4 n.
Definition put64 (n : Z) : bytes := be_put 8 n.

Definition aead_nonce (mid n : Z) : bytes := put64 mid ++ put32 n.

Definition put_id (s : bytes) : bytes := put16 (to_u16 (zlen s)) ++ s.

Definition encode_header (e : Envelope) (payload_len : Z) : bytes :=
  [to_u8 (version e); type_byte (type e); if encrypted e then 1 else 0; to_u8 (key_id e)]
  ++ put32 (ttl e) ++ put32 (nonce e) ++ put64 (timestamp_ms e) ++ put64 (message_id e)
  ++ put_id (source e) ++ put_id (destination e)
  ++ [to_u8 (Z.of_nat (length (route e))); to_u8 (route_pos e)]
  ++ mbind put_id (route e)
  ++ put32 (to_u32 payload_len).

Definition id_ok (n : Z) (s : bytes) : bool := (0 <? zlen s) && (zlen s <=? n).

Definition encode_envelope (e : Envelope) : option bytes :=
  if negb (version e =? 1) then None else
  if negb (id_ok 255 (source e) && id_ok 255 (destination e)) then None else
  if (Z.of_nat (length (route e)) >? 255) || (route_pos e >? Z.of_nat (length (route e))) then None else
  if negb (forallb (id_ok 255) (route e)) then None else
  if zlen (payload e) >? 2 ^ 32 - 1 then None else
  Some (encode_header e (zlen (payload e)) ++ payload e).

(** ** Reading *)

Inductive DecodeResult :=
  | dec_ok (e : Envelope)
  | dec_unknown_type (e : Envelope)
  | dec_malformed
  | dec_unknown_version.

(** [take_id]: a length-prefixed id at the head of the remaining input. *)
Definition take_id (limits : NodeRouterOptions) (rest : bytes) : option (bytes * bytes) :=
  match rest with
  | b1 :: b0 :: rest =>
      let n := be_get [b1; b0] in
      if (n =? 0) || (n >? max_node_id_bytes limits) || (n >? zlen rest) then None
      else Some (take (Z.to_nat n) rest, drop (Z.to_nat n) rest)
  | _ => None
  end.

Fixpoint take_route (limits : NodeRouterOptions) (n : nat) (rest : bytes)
  : option (list bytes * bytes) :=
  match n with
  | O => Some ([], rest)
  | S n =>
      '(hop, rest) ← take_id limits rest;
      '(hops, rest) ← take_route limits n rest;
      Some (hop :: hops, rest)
  end.

Definition get_at (wire : bytes) (pos n : nat) : Z := be_get (slice wire pos n).

(** The part of [decode_envelope] behind the fixed header. *)
Definition decode_tail (limits : NodeRouterOptions) (rest : bytes)
  : option (bytes * bytes * list bytes * Z * bytes) :=
  '(src, rest) ← take_id limits rest;
  '(dst, rest) ← take_id limits rest;
  match rest with
  | route_len :: pos :: rest =>
      if (route_len >? max_route_hops limits) || (pos >? route_len) then None else
      '(hops, rest) ← take_route limits (Z.to_nat route_len) rest;
      match rest with
      | p3 :: p2 :: p1 :: p0 :: rest =>
          if be_get [p3; p2; p1; p0] =? zlen rest then Some (src, dst, hops, pos, rest) else None
      | _ => None
      end
  | _ => None
  end.

Definition decode_envelope (wire : bytes) (limits : NodeRouterOptions) : DecodeResult :=
  if (zlen wire <? kFixedHeader + kTailHeader) || (zlen wire >? max_envelope_bytes limits)
  then dec_malformed else
  if negb (wire !!! 0%nat =? 1) then dec_unknown_version else
  let flags := wire !!! 2%nat in
  if negb (Z.land flags 254 =? 0) then dec_malformed else
  match decode_tail limits (drop (Z.to_nat kFixedHeader) wire) with
  | None => dec_malformed
  | Some (src, dst, hops, pos, pl) =>
      let e t := mkEnv 1 t (negb (Z.land flags 1 =? 0)) (wire !!! 3%nat) (get_at wire 4 4)
                   (get_at wire 8 4) (get_at wire 12 8) (get_at wire 20 8) src dst hops pos pl in
      match type_of_byte (wire !!! 1%nat) with
      | Some t => dec_ok (e t)
      | None => dec_unknown_type (e data)
      end
  end.

(** ** Round trip *)

(** An envelope the codec accepts under the limits [o]. *)
Record envelope_ok (o : NodeRouterOptions) (e : Envelope) : Prop := {
  eo_version : version e = 1;
  eo_key : u8_ok (key_id e);
  eo_ttl : u32_ok (ttl e);
  eo_nonce : u32_ok (nonce e);
  eo_time : u64_ok (timestamp_ms e);
  eo_id : u64_ok (message_id e);
  eo_source : id_ok (max_node_id_bytes o) (source e) = true;
  eo_destination : id_ok (max_node_id_bytes o) (destination e) = true;
  eo_route : Forall (λ h, id_ok (max_node_id_bytes o) h = true) (route e);
  eo_hops : Z.of_nat (length (route e)) ≤ max_route_hops o;
  eo_pos : 0 ≤ route_pos e ≤ Z.of_nat (length (route e));
}.

(** The limits [NodeRouter::create] accepts. *)
Record options_ok (o : NodeRouterOptions) : Prop := {
  oo_id : 1 ≤ max_node_id_bytes o ≤ 255;
  oo_hops : 1 ≤ max_route_hops o ≤ 255;
  oo_max_hops : 1 ≤ max_hops o < 2 ^ 32;
  oo_tolerance : 0 ≤ timestamp_tolerance o;
  oo_in_flight : 1 ≤ max_in_flight o;
  oo_seen : (0 < seen_message_capacity o)%nat;
  oo_nonce : (0 < nonce_capacity o)%nat;
  oo_sources : (0 < max_tracked_sources o)%nat;
  oo_bytes : kFixedHeader + kTailHeader ≤ max_envelope_bytes o;
}.

Lemma type_of_byte_byte t : type_of_byte (type_byte t) = Some t.
Proof. by destruct t. Qed.

Lemma id_ok_spec n s : id_ok n s = true ↔ 0 < zlen s ≤ n.
Proof. unfold id_ok. lia. Qed.

Lemma take_put_id o s rest :
  options_ok o → id_ok (max_node_id_bytes o) s = true → take_id o (put_id s ++ rest) = Some (s, rest).
Proof.
  intros Ho Hs%id_ok_spec. destruct Ho. unfold put_id, put16.
  assert (to_u16 (zlen s) = zlen s) as -> by (unfold to_u16; apply Z.mod_small; lia).
  pose proof (be_get_put_id 2 (zlen s) ltac:(cbn; lia)) as Hg. cbn [be_put] in *.
  rewrite <-app_assoc. cbn [app take_id]. rewrite Hg.
  rewrite (proj2 (Z.eqb_neq _ _)), !Z.gtb_ltb, !(proj2 (Z.ltb_ge _ _))
    by (unfold zlen in *; rewrite ?length_app; lia).
  simpl. unfold zlen. by rewrite Nat2Z.id, take_app_length, drop_app_length.
Qed.

Lemma take_put_route o hops rest :
  options_ok o → Forall (λ h, id_ok (max_node_id_bytes o) h = true) hops →
  take_route o (length hops) (mbind put_id hops ++ rest) = Some (hops, rest).
Proof.
  intros Ho Hh. induction Hh as [|h hops Hh Hhops IH]; [done|].
  rewrite bind_cons, <-app_assoc. cbn [take_route length].
  rewrite take_put_id by done. simpl. by rewrite IH.
Qed.

Definition tail_bytes (e : Envelope) (payload_len : Z) : bytes :=
  put_id (source e) ++ put_id (destination e)
  ++ [to_u8 (Z.of_nat (length (route e))); to_u8 (route_pos e)]
  ++ mbind put_id (route e) ++ put32 (to_u32 payload_len).

Definition fixed_bytes (e : Envelope) : bytes :=
  [to_u8 (version e); type_byte (type e); if encrypted e then 1 else 0; to_u8 (key_id e)]
  ++ put32 (ttl e) ++ put32 (nonce e) ++ put64 (timestamp_ms e) ++ put64 (message_id e).

Lemma encode_header_split e n : encode_header e n = fixed_bytes e ++ tail_bytes e n.
Proof. unfold encode_header, fixed_bytes, tail_bytes. by rewrite <-!app_assoc. Qed.

Lemma length_fixed_bytes e : length (fixed_bytes e) = 28%nat.
Proof. done. Qed.

Lemma decode_tail_encode o e :
  options_ok o → envelope_ok o e → zlen (payload e) < 2 ^ 32 →
  decode_tail o (tail_bytes e (zlen (payload e)) ++ payload e) =
    Some (source e, destination e, route e, route_pos e, payload e).
Proof.
  intros Ho He Hp. pose proof He as []. pose proof Ho as []. unfold decode_tail, tail_bytes.
  rewrite <-!app_assoc, take_put_id by done. cbn [mbind option_bind].
  rewrite take_put_id by done. cbn [mbind option_bind app].
  rewrite !to_u8_id by (unfold byte_ok; lia).
  rewrite !Z.gtb_ltb, !(proj2 (Z.ltb_ge _ _)) by lia. cbn [orb].
  rewrite Nat2Z.id, take_put_route by done. cbn [mbind option_bind].
  assert (0 ≤ zlen (payload e)) by (unfold zlen; lia).
  rewrite to_u32_id by (unfold u32_ok; lia).
  pose proof (be_get_put_id 4 (zlen (payload e)) ltac:(cbn; lia)) as Hg.
  unfold put32. cbn [be_put] in *. cbn [app]. by rewrite Hg, Z.eqb_refl.
Qed.

Lemma length_tail_bytes e n : (4 ≤ length (tail_bytes e n))%nat.
Proof. unfold tail_bytes. rewrite !length_app. unfold put32. rewrite length_be_put. lia. Qed.

(** The integer fields sit at their offsets whatever follows the fixed header. *)
Lemma fixed_fields e rest :
  get_at (fixed_bytes e ++ rest) 4 4 = be_get (put32 (ttl e)) ∧
  get_at (fixed_bytes e ++ rest) 8 4 = be_get (put32 (nonce e)) ∧
  get_at (fixed_bytes e ++ rest) 12 8 = be_get (put64 (timestamp_ms e)) ∧
  get_at (fixed_bytes e ++ rest) 20 8 = be_get (put64 (message_id e)).
Proof. done. Qed.

Lemma decode_own_payload o e :
  options_ok o → envelope_ok o e → zlen (payload e) < 2 ^ 32 →
  zlen (encode_header e (zlen (payload e)) ++ payload e) ≤ max_envelope_bytes o →
  decode_envelope (encode_header e (zlen (payload e)) ++ payload e) o = dec_ok e.
Proof.
  intros Ho He Hp Hmax. pose proof He as [Hv Hk Ht Hn Hts Hid _ _ _ _ _].
  rewrite encode_header_split, <-app_assoc in *.
  unfold decode_envelope. pose proof (length_tail_bytes e (zlen (payload e))).
  rewrite (proj2 (Z.ltb_ge _ _)), Z.gtb_ltb, (proj2 (Z.ltb_ge _ _)); [|done|].
  2: { unfold zlen, kFixedHeader, kTailHeader in *. rewrite !length_app, length_fixed_bytes in *. lia. }
  cbn [orb]. cbv iota.
  destruct (fixed_fields e (tail_bytes e (zlen (payload e)) ++ payload e)) as (-> & -> & -> & ->).
  change (drop (Z.to_nat kFixedHeader) (fixed_bytes e ++ tail_bytes e (zlen (payload e)) ++ payload e))
    with (tail_bytes e (zlen (payload e)) ++ payload e).
  rewrite decode_tail_encode by done.
  change ((fixed_bytes e ++ ?r) !!! 0%nat) with (to_u8 (version e)).
  change ((fixed_bytes e ++ ?r) !!! 1%nat) with (type_byte (type e)).
  change ((fixed_bytes e ++ ?r) !!! 2%nat) with (if encrypted e then 1 else 0).
  change ((fixed_bytes e ++ ?r) !!! 3%nat) with (to_u8 (key_id e)).
  unfold put32, put64. rewrite !be_get_put_id by (cbn; unfold u32_ok, u64_ok in *; lia).
  rewrite type_of_byte_byte. rewrite (to_u8_id (key_id e)) by exact Hk.
  rewrite Hv. destruct e as [v t enc]. simpl in *. subst v. by destruct enc.
Qed.

(** The wire image of an envelope whose payload was replaced by [pl] (the
    ciphertext, on the encrypted path). *)
Definition with_payload (e : Envelope) (pl : bytes) : Envelope :=
  mkEnv (version e) (type e) (encrypted e) (key_id e) (ttl e) (nonce e) (timestamp_ms e)
    (message_id e) (source e) (destination e) (route e) (route_pos e) pl.

Lemma decode_header_bytes o e pl :
  options_ok o → envelope_ok o e → zlen pl < 2 ^ 32 →
  zlen (encode_header e (zlen pl) ++ pl) ≤ max_envelope_bytes o →
  decode_envelope (encode_header e (zlen pl) ++ pl) o = dec_ok (with_payload e pl).
Proof.
  intros Ho He Hp Hmax. apply (decode_own_payload o (with_payload e pl)); [done| |done..].
  destruct He. by split.
Qed.

Lemma encode_envelope_Some o e w :
  options_ok o → envelope_ok o e → encode_envelope e = Some w →
  w = encode_header e (zlen (payload e)) ++ payload e ∧ zlen (payload e) < 2 ^ 32.
Proof. intros Ho He. unfold encode_envelope. repeat case_match; intros; simplify_eq. bool_prop. split; [done|lia]. Qed.

(** The envelope codec round trip: an envelope within a router's limits
    encodes, and whenever the wire image fits [max_envelope_bytes] it decodes
    back to exactly the same envelope, every field and the payload included. *)
Theorem envelope_roundtrip (o : NodeRouterOptions) (e : Envelope)
  (Ho : options_ok o) (He : envelope_ok o e) (Hp : zlen (payload e) < 2 ^ 32) :
  ∃ w, encode_envelope e = Some w ∧
    (zlen w ≤ max_envelope_bytes o → decode_envelope w o = dec_ok e).
Proof.
  exists (encode_header e (zlen (payload e)) ++ payload e). split.
  - unfold encode_envelope. destruct He, Ho.
    rewrite eo_version0. cbn [Z.eqb negb Pos.eqb].
    assert (∀ s, id_ok (max_node_id_bytes o) s = true → id_ok 255 s = true) as Hid.
    { intros s. rewrite !id_ok_spec. lia. }
    rewrite !Hid by done. cbn [andb negb].
    rewrite !Z.gtb_ltb, !(proj2 (Z.ltb_ge _ _)) by lia. cbn [orb].
    assert (forallb (id_ok 255) (route e) = true) as ->.
    { apply forallb_forall. intros h Hh. rewrite Forall_forall in eo_route0. auto. }
    cbn [negb]. done.
  - intros Hw. by apply decode_own_payload.
Qed.

Lemma envelope_roundtrip_witness :
  let e := mkEnv 1 probe false 7 8 99 1700000000000 42 (s! "a") (s! "b") [s! "r1"; s! "r2"] 1 (s! "ping") in
  ∃ w, encode_envelope e = Some w ∧ decode_envelope w default_options = dec_ok e.
Proof.
  intros e. destruct (envelope_roundtrip default_options e) as (w & Hw & Hd).
  - split; vm_compute; try done; try lia; split; done || discriminate.
  - split; try (vm_compute; done); try (vm_compute; split; done || discriminate).
    repeat (apply List.Forall_cons; [by vm_compute|]). apply List.Forall_nil.
  - vm_compute. done.
  - exists w. split; [done|]. apply Hd. injection Hw as <-. vm_compute. discriminate.
Defined.

(** ** What the decoder accepts *)

Lemma take_id_inv o rest s rest' :
  options_ok o → bytes_ok rest → take_id o rest = Some (s, rest') →
  id_ok (max_node_id_bytes o) s = true ∧ rest = put_id s ++ rest' ∧ bytes_ok rest'.
Proof.
  intros Ho Hb. destruct rest as [|b1 [|b0 rest]]; [done..|]. cbn [take_id]. intros H. guards H.
  rewrite !Forall_cons_iff in Hb. destruct Hb as (Hb1 & Hb0 & Hb). simplify_eq.
  assert (bytes_ok [b1; b0]) as Hb2 by solve_bytes.
  pose proof (be_get_range _ Hb2) as Hr. destruct Ho. cbn [length] in Hr.
  set (n := be_get [b1; b0]) in *.
  assert (zlen (take (Z.to_nat n) rest) = n) as Hlen.
  { unfold zlen in *. rewrite length_take. lia. }
  split_and!; [apply id_ok_spec; lia| |auto with proto].
  unfold put_id. rewrite Hlen. unfold put16.
  assert (to_u16 n = n) as -> by (apply Z.mod_small; lia).
  change 2%nat with (length [b1; b0]). unfold n. rewrite be_put_get by done. fold n.
  rewrite <-app_assoc, take_drop. done.
Qed.

Lemma take_route_inv o n rest hops rest' :
  options_ok o → bytes_ok rest → take_route o n rest = Some (hops, rest') →
  Forall (λ h, id_ok (max_node_id_bytes o) h = true) hops ∧ length hops = n ∧
  rest = mbind put_id hops ++ rest' ∧ bytes_ok rest'.
Proof.
  intros Ho. revert rest hops. induction n as [|n IH]; intros rest hops Hb; cbn [take_route].
  { intros [= <- <-]. done. }
  destruct (take_id o rest) as [[h r]|] eqn:E1; [|done]. cbn [mbind option_bind].
  apply take_id_inv in E1 as (Hh & -> & Hr); [|done..].
  destruct (take_route o n r) as [[hs r2]|] eqn:E2; [|done]. cbn [mbind option_bind].
  intros [= <- <-]. apply IH in E2 as (H1 & H2 & -> & H4); [|done].
  split_and!; [by constructor|by simpl; rewrite H2| |done].
  by rewrite bind_cons, <-app_assoc.
Qed.

Lemma decode_tail_inv o rest src dst hops pos pl :
  options_ok o → bytes_ok rest → decode_tail o rest = Some (src, dst, hops, pos, pl) →
  id_ok (max_node_id_bytes o) src = true ∧ id_ok (max_node_id_bytes o) dst = true ∧
  Forall (λ h, id_ok (max_node_id_bytes o) h = true) hops ∧
  Z.of_nat (length hops) ≤ max_route_hops o ∧ 0 ≤ pos ≤ Z.of_nat (length hops) ∧
  rest = put_id src ++ put_id dst ++ [to_u8 (Z.of_nat (length hops)); to_u8 pos]
         ++ mbind put_id hops ++ put32 (to_u32 (zlen pl)) ++ pl.
Proof.
  intros Ho Hb. unfold decode_tail.
  destruct (take_id o rest) as [[s r]|] eqn:E1; [|done]. cbn [mbind option_bind].
  apply take_id_inv in E1 as (Hs & -> & Hr); [|done..].
  destruct (take_id o r) as [[d r1]|] eqn:E2; [|done]. cbn [mbind option_bind].
  apply take_id_inv in E2 as (Hd & -> & Hr1); [|done..].
  destruct r1 as [|rl [|p r1]]; [done..|].
  destruct (_ || _) eqn:Eg; [done|]. bool_prop.
  rewrite !Forall_cons_iff in Hr1. destruct Hr1 as (Hrl & Hpos & Hr1).
  destruct (take_route o (Z.to_nat rl) r1) as [[hs r2]|] eqn:E3; [|done]. cbn [mbind option_bind].
  apply take_route_inv in E3 as (Hhs & Hlen & -> & Hr2); [|done..].
  destruct r2 as [|p3 [|p2 [|p1 [|p0 r2]]]]; [done..|].
  destruct (_ =? _) eqn:El; [|done]. bool_prop. intros [= <- <- <- <- <-].
  unfold byte_ok in Hrl, Hpos.
  assert (Z.of_nat (length hs) = rl) as Hl by lia.
  split_and!; try done; try lia.
  rewrite Hl, !to_u8_id by (unfold byte_ok; lia).
  rewrite !Forall_cons_iff in Hr2. destruct_and! Hr2.
  assert (bytes_ok [p3; p2; p1; p0]) as Hb4 by solve_bytes.
  pose proof (be_get_range _ Hb4) as Hr4. cbn [length] in Hr4.
  rewrite <-El, to_u32_id by (unfold u32_ok; lia). unfold put32.
  change 4%nat with (length [p3; p2; p1; p0]). by rewrite be_put_get.
Qed.

Lemma type_of_byte_inv b t : type_of_byte b = Some t → type_byte t = b.
Proof. unfold type_of_byte. repeat case_match; intros; simplify_eq; bool_prop; simpl; lia. Qed.

Lemma flags_bit f : byte_ok f → Z.land f 254 = 0 → f = if negb (Z.land f 1 =? 0) then 1 else 0.
Proof.
  intros Hf H. assert (0 ≤ f < 2) as Hlt.
  { destruct (decide (f < 2)); [unfold byte_ok in Hf; lia|]. exfalso.
    assert (Z.shiftr f 1 = 0) as Hs.
    { replace f with (Z.lor (Z.land f 1) (Z.land f 254)).
      - by rewrite H, Z.lor_0_r, Z.shiftr_land, Z.land_0_r.
      - rewrite <-Z.land_lor_distr_r. change (Z.lor 1 254) with (Z.ones 8).
        rewrite Z.land_ones by lia. apply Z.mod_small. exact Hf. }
    rewrite Z.shiftr_div_pow2 in Hs by lia. change (2 ^ 1) with 2 in Hs.
    unfold byte_ok in Hf. apply Z.div_small_iff in Hs; lia. }
  assert (f = 0 ∨ f = 1) as [->| ->] by lia; done.
Qed.

(** The fixed part of a header: four bytes and the four integers. *)
Lemma fixed_shape (wire : bytes) :
  (28 ≤ length wire)%nat →
  ∃ b0 b1 b2 b3 f rest, wire = b0 :: b1 :: b2 :: b3 :: f ++ rest ∧ length f = 24%nat.
Proof.
  intros Hl. destruct wire as [|b0 [|b1 [|b2 [|b3 w]]]]; simpl length in *; try lia.
  exists b0, b1, b2, b3, (take 24 w), (drop 24 w). rewrite take_drop. split; [done|].
  rewrite length_take. lia.
Qed.

Lemma fixed_field b0 b1 b2 b3 (f rest : bytes) (p n : nat) :
  length f = 24%nat → bytes_ok f → (p + n ≤ 24)%nat →
  get_at (b0 :: b1 :: b2 :: b3 :: f ++ rest) (4 + p) n = be_get (slice f p n) ∧
  0 ≤ be_get (slice f p n) < 256 ^ Z.of_nat n ∧ be_put n (be_get (slice f p n)) = slice f p n.
Proof.
  intros Hf Hbf Hpn. assert (length (slice f p n) = n) as Hl by (rewrite length_slice; lia).
  assert (bytes_ok (slice f p n)) as Hok by auto with proto.
  split; [|split].
  - unfold get_at. f_equal. unfold slice. cbn [Nat.add drop].
    rewrite drop_app_le by lia. rewrite take_app_le; [done|rewrite length_drop; lia].
  - pose proof (be_get_range _ Hok) as Hg. by rewrite Hl in Hg.
  - pose proof (be_put_get _ Hok) as Hg. by rewrite Hl in Hg.
Qed.

(** The decoder is exact: whatever bytes arrive from a peer, if
    [decode_envelope] accepts them then the envelope respects every limit of
    the receiving router (id lengths, hop count, [route_pos] within the route,
    integer widths, total size) and re-encoding it gives back the same bytes,
    so no two wire images stand for one envelope. *)
Theorem decode_exact (o : NodeRouterOptions) (wire : bytes) (e : Envelope)
  (Ho : options_ok o) (Hb : bytes_ok wire) (Hd : decode_envelope wire o = dec_ok e) :
  envelope_ok o e ∧ zlen wire ≤ max_envelope_bytes o ∧
  encode_header e (zlen (payload e)) ++ payload e = wire.
Proof.
  unfold decode_envelope in Hd.
  destruct (_ || _) eqn:Esz; [done|]. bool_prop.
  destruct (negb _) eqn:Ev; [done|]. bool_prop.
  destruct (negb _) eqn:Ef in Hd; [done|]. bool_prop.
  destruct (decode_tail _ _) as [[[[[src dst] hops] pos] pl]|] eqn:Et; [|done].
  apply decode_tail_inv in Et as (Hs & Hdst & Hh & Hn & Hp & Hrest); [|done|auto with proto].
  destruct (type_of_byte _) as [t|] eqn:Etype; [|done]. injection Hd as <-.
  apply type_of_byte_inv in Etype.
  assert (∃ b0 b1 b2 b3 f rest, wire = b0 :: b1 :: b2 :: b3 :: f ++ rest ∧ length f = 24%nat) as
    (b0 & b1 & b2 & b3 & f & rest & -> & Hf).
  { apply fixed_shape. unfold zlen, kFixedHeader, kTailHeader in *. lia. }
  cbn in Ev, Etype, Ef. subst b0 b1.
  rewrite !Forall_cons_iff, Forall_app in Hb. destruct Hb as (_ & _ & Hb2 & Hb3 & Hbf & _).
  assert (f = slice f 0 4 ++ slice f 4 4 ++ slice f 8 8 ++ slice f 16 8) as Hsplit.
  { do 25 (destruct f as [|? f]; try discriminate Hf). done. }
  pose proof (λ p n, fixed_field 1 (type_byte t) b2 b3 f rest p n Hf Hbf) as Hfield.
  destruct (Hfield 0 4)%nat as (E1 & Hr1 & Hp1); [lia|]. cbn [Nat.add] in E1. rewrite E1.
  destruct (Hfield 4 4)%nat as (E2 & Hr2 & Hp2); [lia|]. cbn [Nat.add] in E2. rewrite E2.
  destruct (Hfield 8 8)%nat as (E3 & Hr3 & Hp3); [lia|]. cbn [Nat.add] in E3. rewrite E3.
  destruct (Hfield 16 8)%nat as (E4 & Hr4 & Hp4); [lia|]. cbn [Nat.add] in E4. rewrite E4.
  change ((1 :: type_byte t :: b2 :: b3 :: f ++ rest) !!! 2%nat) with b2.
  change ((1 :: type_byte t :: b2 :: b3 :: f ++ rest) !!! 3%nat) with b3.
  split; [|split; [done|]].
  - split; simpl; try done.
  - rewrite encode_header_split. unfold fixed_bytes, tail_bytes, put32, put64.
    cbn [version type encrypted key_id ttl nonce timestamp_ms message_id payload source destination
         route route_pos].
    rewrite Hp1, Hp2, Hp3, Hp4. cbn in Hrest.
    change (drop (Z.to_nat kFixedHeader) (1 :: type_byte t :: b2 :: b3 :: f ++ rest))
      with (drop 24 (f ++ rest)) in Hrest.
    rewrite drop_app_length' in Hrest by done. rewrite Hrest.
    rewrite (to_u8_id b3) by done. rewrite <-flags_bit by done.
    rewrite <-!app_assoc. rewrite Hsplit at 5. rewrite <-!app_assoc. done.
Qed.

Lemma default_options_ok : options_ok default_options.
Proof. split; simpl; unfold kFixedHeader, kTailHeader; lia. Qed.

Lemma decode_exact_witness :
  let e := mkEnv 1 ack true 7 8 99 5 42 (s! "a") (s! "b") [s! "r"] 0 (s! "hi") in
  let wire := encode_header e 2 ++ s! "hi" in
  decode_envelope wire default_options = dec_ok e ∧ envelope_ok default_options e.
Proof.
  intros e wire. assert (decode_envelope wire default_options = dec_ok e) as Hd by (vm_compute; done).
  split; [exact Hd|]. apply (decode_exact default_options wire e default_options_ok); [|exact Hd].
  apply (bool_decide_unpack _). vm_compute. done.
Defined.
