(* ===== verification/NodeRouter.v ===== *)
(** * The node router

    Models [NodeRouter] of [src/framework/node/node_proto.cpp]: sending,
    receiving, forwarding, delivery, error reports and the hand-off to links.

    The router runs on an executor: [handoff] posts a task, and a link later
    calls back when a notify was flushed or failed.  The state therefore holds
    the posted tasks and the notifies handed to links whose callback is still
    owed; a history is any interleaving of [event]s.  [rand32], [rand64] and
    [now_ms] are read at most once per event and are an argument ([Fresh]);
    AES-256-GCM ([aead_crypt], OpenSSL) is a parameter.  Handlers and
    completions are observations in [r_log].

    Each source's nonce window is a [shared_ptr] held only by the [nonces_]
    cache; updating it through the pointer is updating the stored value in
    place. *)

From S2P Require Import Prelude CString LruCache NodeEnvelope.

(** [EVP_aes_256_gcm]: encryption never fails on a 32-byte key; decryption
    checks the tag. *)
Record Aead := mkAead {
  ae_encrypt : bytes → bytes → bytes → bytes → bytes;           (* key nonce aad plain *)
  ae_decrypt : bytes → bytes → bytes → bytes → option bytes;    (* key nonce aad cipher *)
}.

(** Documented behaviour: the ciphertext carries a 16-byte tag, and decryption
    under the same key, nonce and associated data inverts encryption. *)
Record aead_ok (A : Aead) : Prop := {
  ao_length k n ad p : zlen (ae_encrypt A k n ad p) = zlen p + kTagBytes;
  ao_inverse k n ad p : ae_decrypt A k n ad (ae_encrypt A k n ad p) = Some p;
}.

Inductive Errc :=
  | e_invalid_argument | e_message_size | e_not_supported | e_protocol_error
  | e_host_unreachable | e_no_buffer_space | e_operation_canceled | e_io_error.

#[export] Instance Errc_eq_dec : EqDecision Errc.
Proof. solve_decision. Defined.

Record ReturnPath := mkBack {
  b_source : bytes;
  b_route : list bytes;
  b_message_id : Z;
  b_silent : bool;
}.

(** A completion is named by a number; [None] is an empty [std::function]. *)
Abbreviation Completion := (option Z).

Record Handoff := mkHandoff {
  h_next : bytes;
  h_wire : bytes;
  h_back : ReturnPath;
  h_is_report : bool;
  h_completion : Completion;
}.

(** What the outside sees. *)
Inductive Obs :=
  | ODelivered (e : Envelope)                        (* [message_handler_] *)
  | OErrorReport (e : Envelope) (code id : Z)        (* [error_handler_] *)
  | ONotify (next wire : bytes)                      (* [link->notify] *)
  | OCompleted (c : Z) (r : option Errc)             (* a completion; [None] is success *)
  | OThrow.                                          (* an exception in an executor task *)

Record Fresh := mkFresh { f_now : Z; f_rand32 : Z; f_rand64 : Z }.

Abbreviation NonceWindow := (LruCache Z unit).

Record Router := mkRouter {
  r_node_id : bytes;
  r_options : NodeRouterOptions;
  r_links : gset bytes;
  r_keys : gmap Z bytes;
  r_has_message_handler : bool;
  r_has_error_handler : bool;
  r_nonces : LruCache bytes NonceWindow;
  r_seen_ids : LruCache Z unit;
  r_window : Z;                      (* [window_], milliseconds *)
  r_in_flight : Z;
  r_stopped : bool;
  r_tasks : list Handoff;            (* posted, not yet run *)
  r_notifies : list Handoff;         (* handed to a link, callback owed *)
  r_log : list Obs;
}.

(** [create]: [None] is the [invalid_argument] exception. *)
Definition create (node_id : bytes) (o : NodeRouterOptions) : option Router :=
  if (zlen node_id =? 0) || (zlen node_id >? 255) || (max_node_id_bytes o =? 0)
     || (max_node_id_bytes o >? 255) || (max_route_hops o =? 0) || (max_route_hops o >? 255)
     || (max_hops o =? 0) || (timestamp_tolerance o <? 0) || (max_in_flight o =? 0)
     || (seen_message_capacity o =? 0)%nat || (nonce_capacity o =? 0)%nat
     || (max_tracked_sources o =? 0)%nat || (max_envelope_bytes o <? kFixedHeader + kTailHeader)
  then None else
  let window := 1000 * Z.max 1 ((2 * timestamp_tolerance o + 999) / 1000) in
  Some (mkRouter node_id o ∅ ∅ false false (new_lru (max_tracked_sources o) window)
          (new_lru (seen_message_capacity o) window) window 0 false [] [] []).

(** ** State updates *)

Definition log (o : Obs) (r : Router) : Router :=
  mkRouter (r_node_id r) (r_options r) (r_links r) (r_keys r) (r_has_message_handler r)
    (r_has_error_handler r) (r_nonces r) (r_seen_ids r) (r_window r) (r_in_flight r) (r_stopped r)
    (r_tasks r) (r_notifies r) (r_log r ++ [o]).

Definition post (h : Handoff) (r : Router) : Router :=
  mkRouter (r_node_id r) (r_options r) (r_links r) (r_keys r) (r_has_message_handler r)
    (r_has_error_handler r) (r_nonces r) (r_seen_ids r) (r_window r) (r_in_flight r) (r_stopped r)
    (r_tasks r ++ [h]) (r_notifies r) (r_log r).

Definition upd_nonces (n : LruCache bytes NonceWindow) (r : Router) : Router :=
  mkRouter (r_node_id r) (r_options r) (r_links r) (r_keys r) (r_has_message_handler r)
    (r_has_error_handler r) n (r_seen_ids r) (r_window r) (r_in_flight r) (r_stopped r)
    (r_tasks r) (r_notifies r) (r_log r).

Definition upd_seen (s : LruCache Z unit) (r : Router) : Router :=
  mkRouter (r_node_id r) (r_options r) (r_links r) (r_keys r) (r_has_message_handler r)
    (r_has_error_handler r) (r_nonces r) s (r_window r) (r_in_flight r) (r_stopped r)
    (r_tasks r) (r_notifies r) (r_log r).

Definition upd_queue (n : Z) (tasks notifies : list Handoff) (r : Router) : Router :=
  mkRouter (r_node_id r) (r_options r) (r_links r) (r_keys r) (r_has_message_handler r)
    (r_has_error_handler r) (r_nonces r) (r_seen_ids r) (r_window r) n (r_stopped r)
    tasks notifies (r_log r).

Definition complete (c : Completion) (res : option Errc) (r : Router) : Router :=
  match c with Some n => log (OCompleted n res) r | None => r end.

(** ** Replay windows *)

Definition message_id_seen_and_insert (now mid : Z) (r : Router) : bool * Router :=
  let '(hit, s) := seen_and_insert tt now mid (r_seen_ids r) in (hit, upd_seen s r).

(** Replace the value stored for a key without touching recency or age: the
    window object behind the stored [shared_ptr] was modified. *)
Definition set_in_place (src : bytes) (w : NonceWindow) (c : LruCache bytes NonceWindow)
  : LruCache bytes NonceWindow :=
  mkLru (m_capacity c) (m_ttl c)
    ((λ e, if bool_decide (e.1 = src) then (e.1, mkEntry w (created e.2)) else e) <$> m_list c)
    (m_map c).

Definition nonce_seen_and_insert (now : Z) (src : bytes) (n : Z) (r : Router) : bool * Router :=
  let '(w, nonces) :=
    match get now src (r_nonces r) with
    | (Some (w, _), nonces) => (w, nonces)
    | (None, nonces) =>
        let w := new_lru (nonce_capacity (r_options r)) (r_window r) in
        (w, put now src w nonces)
    end in
  let '(hit, w) := seen_and_insert tt now n w in
  (hit, upd_nonces (set_in_place src w nonces) r).

(** ** Sending *)

Definition send_fresh (fr : Fresh) (node_id : bytes) (o : NodeRouterOptions) (m : Envelope) : Envelope :=
  mkEnv (version m) (type m) (encrypted m) (key_id m)
    (if ttl m =? 0 then max_hops o else ttl m)
    (if nonce m =? 0 then f_rand32 fr else nonce m)
    (if timestamp_ms m =? 0 then f_now fr else timestamp_ms m)
    (if message_id m =? 0 then f_rand64 fr else message_id m)
    node_id (destination m) (route m) 0 (payload m).

Definition first_hop (m : Envelope) : bytes :=
  match route m with [] => destination m | h :: _ => h end.

(** An error report toward the source; it throws if the report cannot be
    encoded. *)
Definition report (fr : Fresh) (back : ReturnPath) (code : MessageErrorCode) (r : Router) : Router :=
  if b_silent back || bool_decide (b_source back = []) || bool_decide (b_source back = r_node_id r)
     || r_stopped r
  then r else
  let m := send_fresh fr (r_node_id r) (r_options r)
             (mkEnv 1 error false 0 0 0 0 0 [] (b_source back) (b_route back) 0
                (code_byte code :: put64 (b_message_id back))) in
  match encode_envelope m with
  | Some wire => post (mkHandoff (first_hop m) wire (mkBack (source m) [] (message_id m) true) true None) r
  | None => log OThrow r
  end.

(** [return_route]: the consumed hops, reversed. *)
Definition return_route (hops : list bytes) (consumed : nat) : list bytes := reverse (take consumed hops).

(** [aad_env]: the header without the fields every hop rewrites. *)
Definition aad_of (e : Envelope) (payload_len : Z) : bytes :=
  encode_header (mkEnv (version e) (type e) (encrypted e) (key_id e) 0 (nonce e) (timestamp_ms e)
    (message_id e) (source e) (destination e) (route e) 0 (payload e)) payload_len.

Section WithAead.
Context (A : option Aead).   (* [None]: built without OpenSSL *)

(** [aead_crypt]: the size checks of the source around the cipher. *)
Definition aead_seal (key : bytes) (n aad plain : bytes) : option bytes :=
  match A with
  | Some A => if negb (zlen key =? 32) || negb (zlen n =? 12) then None
              else Some (ae_encrypt A key n aad plain)
  | None => None
  end.
Definition aead_open (key : bytes) (n aad cipher : bytes) : option bytes :=
  match A with
  | Some A => if negb (zlen key =? 32) || negb (zlen n =? 12) || (zlen cipher <? kTagBytes) then None
              else ae_decrypt A key n aad cipher
  | None => None
  end.

(** The route checks of [run_send]: hops are valid ids, none is this node or
    the destination, none repeats. *)
Fixpoint route_valid (o : NodeRouterOptions) (node_id dst : bytes) (seen hops : list bytes) : bool :=
  match hops with
  | [] => true
  | h :: hops =>
      id_ok (max_node_id_bytes o) h && negb (bool_decide (h = node_id)) && negb (bool_decide (h = dst))
      && negb (bool_decide (h ∈ seen)) && route_valid o node_id dst (h :: seen) hops
  end.

Definition run_send (fr : Fresh) (m : Envelope) (c : Completion) (r : Router) : Router :=
  let o := r_options r in
  if r_stopped r then complete c (Some e_operation_canceled) r else
  if negb (id_ok (max_node_id_bytes o) (destination m)) then complete c (Some e_invalid_argument) r else
  if zlen (payload m) >? max_envelope_bytes o then complete c (Some e_message_size) r else
  if Z.of_nat (length (route m)) >? max_route_hops o then complete c (Some e_invalid_argument) r else
  if negb (route_valid o (r_node_id r) (destination m) [] (route m))
  then complete c (Some e_invalid_argument) r else
  let m := send_fresh fr (r_node_id r) o m in
  let finish wire :=
    if zlen wire >? max_envelope_bytes o then complete c (Some e_message_size) r
    else post (mkHandoff (first_hop m) wire (mkBack (source m) [] (message_id m) true) false c) r in
  if encrypted m then
    match A, r_keys r !! key_id m with
    | Some _, Some key =>
        match aead_seal key (aead_nonce (message_id m) (nonce m))
                (aad_of m (zlen (payload m) + kTagBytes)) (payload m) with
        | Some cipher => finish (encode_header m (zlen cipher) ++ cipher)
        | None => complete c (Some e_protocol_error) r
        end
    | _, _ => complete c (Some e_not_supported) r
    end
  else
    match encode_envelope m with
    | Some wire => finish wire
    | None => log OThrow r
    end.

(** ** Receiving *)

Definition back_of (e : Envelope) : ReturnPath :=
  mkBack (source e) (return_route (route e) (Z.to_nat (route_pos e) `min` length (route e))%nat)
    (message_id e) (bool_decide (type e = error)).

(** The payload of a delivered envelope. *)
Definition open_payload (e : Envelope) (r : Router) : option bytes :=
  if encrypted e then
    match r_keys r !! key_id e with
    | Some key => aead_open key (aead_nonce (message_id e) (nonce e))
                    (aad_of e (zlen (payload e))) (payload e)
    | None => None
    end
  else Some (payload e).

Definition hand_up (fr : Fresh) (e : Envelope) (r : Router) : Router :=
  match type e with
  | error =>
      if (9 <=? length (payload e))%nat && r_has_error_handler r
      then log (OErrorReport e (payload e !!! 0%nat) (be_get (slice (payload e) 1 8))) r else r
  | probe =>
      let m := send_fresh fr (r_node_id r) (r_options r)
                 (mkEnv 1 ack false 0 0 0 0 0 [] (source e) (b_route (back_of e)) 0
                    (put64 (message_id e) ++ payload e)) in
      match encode_envelope m with
      | Some wire => post (mkHandoff (first_hop m) wire (mkBack (source m) [] (message_id m) true) true None) r
      | None => log OThrow r
      end
  | _ => if r_has_message_handler r then log (ODelivered e) r else r
  end.

Definition deliver (fr : Fresh) (e : Envelope) (r : Router) : Router :=
  let back := back_of e in
  let delta := to_i64 (to_i64 (f_now fr) - to_i64 (timestamp_ms e)) in
  let tolerance := timestamp_tolerance (r_options r) in
  if (delta >? tolerance) || (delta <? - tolerance) then report fr back replay_rejected r else
  let '(hit, r) := nonce_seen_and_insert (f_now fr) (source e) (nonce e) r in
  if hit then report fr back replay_rejected r else
  let '(dup, r) := if dedup_by_message_id (r_options r)
                   then message_id_seen_and_insert (f_now fr) (message_id e) r else (false, r) in
  if dup then r else
  match open_payload e r with
  | None => report fr back decrypt_failed r
  | Some plain => hand_up fr (with_payload e plain) r
  end.

Definition forward (fr : Fresh) (e : Envelope) (r : Router) : Router :=
  let size := length (route e) in
  let pos := Z.to_nat (route_pos e) in
  let consumed := (pos `min` size)%nat in
  let back := back_of e in
  let '(dup, r) := message_id_seen_and_insert (f_now fr) (message_id e) r in
  if dup then r else
  if negb (forward_enabled (r_options r)) then report fr back unroutable r else
  let hop :=
    if (pos <? size)%nat then
      if bool_decide (route e !! pos = Some (r_node_id r))
      then Some (default (destination e) (route e !! S pos)) else None
    else Some (destination e) in
  match hop with
  | None => report fr back unroutable r
  | Some next =>
      if ttl e =? 0 then report fr back ttl_exhausted r else
      let e' := mkEnv (version e) (type e) (encrypted e) (key_id e) (ttl e - 1) (nonce e)
                  (timestamp_ms e) (message_id e) (source e) (destination e) (route e)
                  (if (consumed <? size)%nat then to_u8 (Z.of_nat consumed + 1) else route_pos e)
                  (payload e) in
      match encode_envelope e' with
      | Some wire => post (mkHandoff next wire back false None) r
      | None => log OThrow r
      end
  end.

Definition receive (fr : Fresh) (wire : bytes) (r : Router) : Router :=
  if r_stopped r then r else
  match decode_envelope wire (r_options r) with
  | dec_malformed | dec_unknown_version => r
  | dec_unknown_type e =>
      report fr (mkBack (source e) (return_route (route e) (Z.to_nat (route_pos e))) (message_id e) false)
        unknown_type r
  | dec_ok e => if bool_decide (destination e = r_node_id r) then deliver fr e r else forward fr e r
  end.

(** ** Links *)

(** The posted body of [handoff]. *)
Definition run_handoff (fr : Fresh) (h : Handoff) (r : Router) : Router :=
  if r_stopped r then complete (h_completion h) (Some e_operation_canceled) r else
  if negb (h_is_report h) && (max_in_flight (r_options r) <=? r_in_flight r) then
    complete (h_completion h) (Some e_no_buffer_space) (report fr (h_back h) queue_overflow r)
  else if bool_decide (h_next h ∈ r_links r) then
    log (ONotify (h_next h) (h_wire h))
      (upd_queue (if h_is_report h then r_in_flight r else r_in_flight r + 1) (r_tasks r)
         (r_notifies r ++ [h]) r)
  else complete (h_completion h) (Some e_host_unreachable) (report fr (h_back h) unroutable r).

(** The callback of [link->notify]. *)
Definition notify_done (fr : Fresh) (h : Handoff) (ec : option Errc) (r : Router) : Router :=
  let r := upd_queue (if h_is_report h then r_in_flight r else r_in_flight r - 1) (r_tasks r)
             (r_notifies r) r in
  let r := match ec with
           | Some e => report fr (h_back h)
                         (if bool_decide (e = e_no_buffer_space) then queue_overflow else unroutable) r
           | None => r
           end in
  complete (h_completion h) ec r.

(** ** Histories *)

Inductive event :=
  | EvSend (fr : Fresh) (m : Envelope) (c : Completion)
  | EvReceive (fr : Fresh) (wire : bytes)
  | EvTask (fr : Fresh) (i : nat)                        (* the [i]th posted task runs *)
  | EvNotifyDone (fr : Fresh) (i : nat) (ec : option Errc)
  | EvAttach (neighbor : bytes)
  | EvDetach (neighbor : bytes)
  | EvAddKey (key_id : Z) (key : bytes)
  | EvHandlers (message_handler error_handler : bool)
  | EvStop.

Definition set_links (ls : gset bytes) (r : Router) : Router :=
  mkRouter (r_node_id r) (r_options r) ls (r_keys r) (r_has_message_handler r)
    (r_has_error_handler r) (r_nonces r) (r_seen_ids r) (r_window r) (r_in_flight r) (r_stopped r)
    (r_tasks r) (r_notifies r) (r_log r).

Definition attach (n : bytes) (r : Router) : Router :=
  if negb (id_ok (max_node_id_bytes (r_options r)) n) || r_stopped r then r
  else set_links ({[ n ]} ∪ r_links r) r.
Definition detach (n : bytes) (r : Router) : Router := set_links (r_links r ∖ {[ n ]}) r.

Definition add_key (k : Z) (key : bytes) (r : Router) : Router :=
  if zlen key =? 32 then
    mkRouter (r_node_id r) (r_options r) (r_links r) (<[k := key]> (r_keys r)) (r_has_message_handler r)
      (r_has_error_handler r) (r_nonces r) (r_seen_ids r) (r_window r) (r_in_flight r) (r_stopped r)
      (r_tasks r) (r_notifies r) (r_log r)
  else r.

Definition set_handlers (mh eh : bool) (r : Router) : Router :=
  mkRouter (r_node_id r) (r_options r) (r_links r) (r_keys r) mh eh (r_nonces r) (r_seen_ids r)
    (r_window r) (r_in_flight r) (r_stopped r) (r_tasks r) (r_notifies r) (r_log r).

Definition stop (r : Router) : Router :=
  if r_stopped r then r else
  mkRouter (r_node_id r) (r_options r) ∅ (r_keys r) (r_has_message_handler r)
    (r_has_error_handler r) (r_nonces r) (r_seen_ids r) (r_window r) (r_in_flight r) true
    (r_tasks r) (r_notifies r) (r_log r).

Definition remove_nth {B} (i : nat) (l : list B) : list B := take i l ++ drop (S i) l.

Definition step (ev : event) (r : Router) : Router :=
  match ev with
  | EvSend fr m c => run_send fr m c r
  | EvReceive fr wire => receive fr wire r
  | EvTask fr i =>
      match r_tasks r !! i with
      | Some h => run_handoff fr h (upd_queue (r_in_flight r) (remove_nth i (r_tasks r)) (r_notifies r) r)
      | None => r
      end
  | EvNotifyDone fr i ec =>
      match r_notifies r !! i with
      | Some h => notify_done fr h ec
                    (upd_queue (r_in_flight r) (r_tasks r) (remove_nth i (r_notifies r)) r)
      | None => r
      end
  | EvAttach n => attach n r
  | EvDetach n => detach n r
  | EvAddKey k key => add_key k key r
  | EvHandlers mh eh => set_handlers mh eh r
  | EvStop => stop r
  end.

Definition run (evs : list event) (r : Router) : Router := foldl (λ r ev, step ev r) r evs.
End WithAead.

(** ** Effects of the building blocks *)

(** [report] posts at most one silent report, or throws when the report cannot
    be encoded. *)
Lemma report_cases fr back code r :
  report fr back code r = r ∨
  (b_silent back = false ∧ ∃ h, report fr back code r = post h r ∧
     h_is_report h = true ∧ b_silent (h_back h) = true ∧ h_completion h = None) ∨
  (b_silent back = false ∧ report fr back code r = log OThrow r).
Proof.
  unfold report. destruct (_ || _) eqn:E; [by left|right]. bool_prop.
  destruct (encode_envelope _); [left|right]; (split; [done|]); [|done].
  eexists. split; [reflexivity|]. done.
Qed.

Lemma report_silent fr back code r : b_silent back = true → report fr back code r = r.
Proof. intros Hs. unfold report. by rewrite Hs. Qed.

(** A return path a report can be addressed to. *)
Definition back_ok (b : ReturnPath) : Prop :=
  b_silent b = true ∨
  (id_ok 255 (b_source b) = true ∧ Forall (λ h, id_ok 255 h = true) (b_route b) ∧
   Z.of_nat (length (b_route b)) ≤ 255).

Lemma forallb_id_ok l : Forall (λ h, id_ok 255 h = true) l → forallb (id_ok 255) l = true.
Proof. intros Hl. apply forallb_forall. intros x Hx. rewrite Forall_forall in Hl. auto. Qed.

(** Encoding succeeds on any envelope the router builds. *)
Lemma encode_succeeds e :
  version e = 1 → id_ok 255 (source e) = true → id_ok 255 (destination e) = true →
  Forall (λ h, id_ok 255 h = true) (route e) → Z.of_nat (length (route e)) ≤ 255 →
  route_pos e ≤ Z.of_nat (length (route e)) → zlen (payload e) < 2 ^ 32 →
  encode_envelope e = Some (encode_header e (zlen (payload e)) ++ payload e).
Proof.
  intros Hv Hs Hd Hr Hl Hp Hpl. unfold encode_envelope.
  rewrite Hv, Hs, Hd, (forallb_id_ok _ Hr). cbn [Z.eqb Pos.eqb negb andb].
  by rewrite !Z.gtb_ltb, !(proj2 (Z.ltb_ge _ _)) by lia.
Qed.

Lemma report_no_throw fr back code r :
  id_ok 255 (r_node_id r) = true → back_ok back →
  report fr back code r = r ∨
  ∃ h, report fr back code r = post h r ∧ h_is_report h = true ∧ b_silent (h_back h) = true ∧
       h_completion h = None.
Proof.
  intros Hid Hb. destruct (report_cases fr back code r) as [?|[(_ & ?)|[Hs Hth]]]; [by left|by right|].
  exfalso. destruct Hb as [?|(H1 & H2 & H3)]; [congruence|].
  revert Hth. unfold report. destruct (_ || _).
  { intros Hr. assert (length (r_log r) = length (r_log (log OThrow r))) as Hl by by rewrite <-Hr.
    simpl in Hl. rewrite length_app in Hl. simpl in Hl. lia. }
  rewrite encode_succeeds; try done; try (simpl; lia); [].
  intros Hp. assert (length (r_log r) = length (r_log (log OThrow r))) as Hl by by rewrite <-Hp.
  simpl in Hl. rewrite length_app in Hl. simpl in Hl. lia.
Qed.

(** The routing fields of every envelope the decoder fills in. *)
Lemma decoded_routing o wire e :
  options_ok o → bytes_ok wire →
  decode_envelope wire o = dec_ok e ∨ decode_envelope wire o = dec_unknown_type e →
  version e = 1 ∧ id_ok 255 (source e) = true ∧ id_ok 255 (destination e) = true ∧
  Forall (λ h, id_ok 255 h = true) (route e) ∧ Z.of_nat (length (route e)) ≤ 255 ∧
  0 ≤ route_pos e ≤ Z.of_nat (length (route e)) ∧ zlen (payload e) ≤ max_envelope_bytes o.
Proof.
  intros Ho Hb Hd. unfold decode_envelope in Hd.
  destruct (_ || _) eqn:Esz; [by destruct Hd|]. bool_prop.
  destruct (negb _); [by destruct Hd|]. destruct (negb _); [by destruct Hd|].
  destruct (decode_tail _ _) as [[[[[src dst] hops] pos] pl]|] eqn:Et; [|by destruct Hd].
  apply decode_tail_inv in Et as (Hs & Hdst & Hh & Hn & Hp & Hrest); [|done|auto with proto].
  assert (∀ s, id_ok (max_node_id_bytes o) s = true → id_ok 255 s = true) as Hid.
  { intros s. rewrite !id_ok_spec. destruct Ho. lia. }
  assert (zlen pl ≤ zlen wire) as Hpl.
  { apply (f_equal length) in Hrest. unfold zlen. rewrite length_drop, !length_app in Hrest. lia. }
  assert (∃ t, e = mkEnv 1 t (negb (Z.land (wire !!! 2%nat) 1 =? 0)) (wire !!! 3%nat) (get_at wire 4 4)
    (get_at wire 8 4) (get_at wire 12 8) (get_at wire 20 8) src dst hops pos pl) as [t ->].
  { destruct (type_of_byte _); destruct Hd as [[= <-]|[= <-]]; eauto. }
  simpl. destruct Ho. split_and!; auto; try lia.
  eapply List.Forall_impl; [|exact Hh]. auto.
Qed.

Lemma return_route_ok hops n :
  Forall (λ h, id_ok 255 h = true) hops → Z.of_nat (length hops) ≤ 255 →
  Forall (λ h, id_ok 255 h = true) (return_route hops n) ∧ Z.of_nat (length (return_route hops n)) ≤ 255.
Proof.
  intros Hh Hl. unfold return_route. rewrite length_reverse, length_take. split; [|lia].
  by apply Forall_reverse, Forall_take.
Qed.

(** ** The invariant of a router *)

Definition count_data (l : list Handoff) : Z :=
  Z.of_nat (length (filter (λ h, h_is_report h = false) l)).

Definition completed (l : list Obs) : list Z :=
  omap (λ o, match o with OCompleted c _ => Some c | _ => None end) l.

(** Completions still owed. *)
Definition owed (r : Router) : list Z := omap h_completion (r_tasks r ++ r_notifies r).

(** Exceptions that left an executor task. *)
Definition throws (l : list Obs) : nat :=
  length (omap (λ o, match o with OThrow => Some tt | _ => None end) l).

Lemma throws_snoc l o : o ≠ OThrow → throws (l ++ [o]) = throws l.
Proof. intros Ho. unfold throws. rewrite omap_app, length_app. destruct o; simpl; try lia. done. Qed.

Lemma throws_0 l : throws l = 0%nat → OThrow ∉ l.
Proof.
  induction l as [|o l IH]; [by intros _ ?%elem_of_nil|]. intros H [<-|Hin]%elem_of_cons; [discriminate H|].
  apply IH; [|done]. unfold throws in *. destruct o; simpl in H; try done.
Qed.

(** The invariant, after [thrown] exceptions. *)
Section Accounting.
Context (thrown : nat).

Record router_ok (r : Router) : Prop := {
  ro_options : options_ok (r_options r);
  ro_bytes : max_envelope_bytes (r_options r) < 2 ^ 32 - 8;
  ro_id : id_ok 255 (r_node_id r) = true;
  ro_flight : r_in_flight r = count_data (r_notifies r);
  ro_bound : r_in_flight r ≤ max_in_flight (r_options r);
  ro_backs : Forall (λ h, back_ok (h_back h)) (r_tasks r ++ r_notifies r);
  ro_reports : Forall (λ h, h_is_report h = true → b_silent (h_back h) = true) (r_tasks r ++ r_notifies r);
  ro_throws : throws (r_log r) = thrown;
}.

(** The completions settled or owed, as one multiset. *)
Definition accounts (r : Router) : list Z := completed (r_log r) ++ owed r.

Definition good (cs : list Z) (r : Router) : Prop := router_ok r ∧ accounts r ≡ₚ cs.

Lemma completed_snoc l o : completed (l ++ [o]) = completed l ++ completed [o].
Proof. unfold completed. apply omap_app. Qed.

Lemma log_good cs o r :
  o ≠ OThrow → good cs r → good (completed [o] ++ cs) (log o r).
Proof.
  intros Ho [[] Hp]. split.
  - split; simpl; try done. by rewrite throws_snoc.
  - unfold accounts, owed in *. simpl r_log. simpl r_tasks. simpl r_notifies.
    rewrite completed_snoc, <-Hp, <-app_assoc.
    rewrite !app_assoc. f_equiv. apply Permutation_app_comm.
Qed.

Lemma post_good cs h r :
  back_ok (h_back h) → (h_is_report h = true → b_silent (h_back h) = true) →
  good cs r → good (omap h_completion [h] ++ cs) (post h r).
Proof.
  intros Hb Hr [[] Hp]. split.
  - split; simpl; try done.
    + rewrite <-app_assoc. rewrite !Forall_app in *. split_and!; try tauto. by apply Forall_singleton.
    + rewrite <-app_assoc. rewrite !Forall_app in *. split_and!; try tauto. by apply Forall_singleton.
  - unfold accounts, owed in *. cbn [post r_log r_tasks r_notifies].
    rewrite !omap_app in *. rewrite <-Hp. solve_Permutation.
Qed.

Lemma good_perm cs cs' r : cs ≡ₚ cs' → good cs r → good cs' r.
Proof. intros Hp [? Ha]. split; [done|]. by rewrite Ha. Qed.

Lemma complete_good cs c res r : good cs r → good (omap id [c] ++ cs) (complete c res r).
Proof. intros Hg. destruct c; simpl; [|done]. by apply (log_good cs (OCompleted _ res)). Qed.

Lemma upd_nonces_good cs n r : good cs r → good cs (upd_nonces n r).
Proof. intros [[] ?]. by split; [split|]. Qed.

Lemma upd_seen_good cs n r : good cs r → good cs (upd_seen n r).
Proof. intros [[] ?]. by split; [split|]. Qed.

Lemma set_links_good cs n r : good cs r → good cs (set_links n r).
Proof. intros [[] ?]. by split; [split|]. Qed.

Lemma report_good cs fr back code r : back_ok back → good cs r → good cs (report fr back code r).
Proof.
  intros Hb Hg. pose proof Hg as [[] _].
  destruct (report_no_throw fr back code r) as [->|(h & -> & H1 & H2 & H3)]; [done..|].
  assert (good (omap h_completion [h] ++ cs) (post h r)) as Hp by (apply post_good; [by left|done..]).
  simpl in Hp. by rewrite H3 in Hp.
Qed.

Lemma report_queue fr back code r :
  r_in_flight (report fr back code r) = r_in_flight r ∧
  r_notifies (report fr back code r) = r_notifies r ∧
  r_options (report fr back code r) = r_options r.
Proof.
  destruct (report_cases fr back code r) as [->|[(_ & h & -> & _)|[_ ->]]]; done.
Qed.

(** The one exception the caller can cause: an envelope of another version
    that is not encrypted. *)
Definition other_version (x : Envelope * Completion) : Prop := version x.1 ≠ 1 ∧ encrypted x.1 = false.

Lemma run_send_good cs A fr m c r :
  good cs r →
  good (omap id [c] ++ cs) (run_send A fr m c r) ∨
  (other_version (m, c) ∧ run_send A fr m c r = log OThrow r).
Proof.
  intros Hg. unfold run_send.
  destruct (r_stopped r); [left; by apply complete_good|].
  destruct (id_ok _ (destination m)) eqn:Ed; [simpl negb; cbv iota|left; by apply complete_good].
  destruct (zlen (payload m) >? _) eqn:Ep; [left; by apply complete_good|].
  destruct (_ >? max_route_hops _) eqn:Er; [left; by apply complete_good|].
  destruct (route_valid _ _ _ _ _) eqn:Erv; [simpl negb; cbv iota|left; by apply complete_good].
  bool_prop. set (m' := send_fresh fr (r_node_id r) (r_options r) m).
  assert (∀ wire, good (omap id [c] ++ cs)
    (if zlen wire >? max_envelope_bytes (r_options r) then complete c (Some e_message_size) r
     else post (mkHandoff (first_hop m') wire (mkBack (source m') [] (message_id m') true) false c) r)) as Hfin.
  { intros wire. destruct (_ >? _); [by apply complete_good|].
    apply (post_good cs (mkHandoff _ _ _ _ c)); simpl; [by left|done|done]. }
  destruct (encrypted m') eqn:Ee.
  { destruct A; [|left; by apply complete_good]. destruct (_ !! _); [|left; by apply complete_good].
    destruct (aead_seal _ _ _ _ _); [left; apply Hfin|left; by apply complete_good]. }
  pose proof Hg as [[Hoo Hby Hid _ _ _ _ _] _]. destruct Hoo.
  assert (∀ s, id_ok (max_node_id_bytes (r_options r)) s = true → id_ok 255 s = true) as Hids.
  { intros s. rewrite !id_ok_spec. lia. }
  destruct (decide (version m = 1)) as [Hv|Hv].
  2:{ destruct (encode_envelope m'); [left; apply Hfin|by right]. }
  left. rewrite encode_succeeds; [apply Hfin|..]; simpl; auto; try lia.
  clear -Erv Hids. revert Erv. generalize (@nil bytes).
  induction (route m) as [|h hops IH]; intros seen Hrv; [constructor|].
  simpl in Hrv. bool_prop. constructor; eauto.
Qed.

Lemma back_of_ok e :
  id_ok 255 (source e) = true → Forall (λ h, id_ok 255 h = true) (route e) →
  Z.of_nat (length (route e)) ≤ 255 → back_ok (back_of e).
Proof.
  intros Hs Hr Hl. right. simpl. split; [done|]. by apply return_route_ok.
Qed.

Lemma hand_up_good cs fr e r :
  id_ok 255 (source e) = true → Forall (λ h, id_ok 255 h = true) (route e) →
  Z.of_nat (length (route e)) ≤ 255 → zlen (payload e) < 2 ^ 32 - 8 →
  good cs r → good cs (hand_up fr e r).
Proof.
  intros Hs Hr Hl Hpl Hg. pose proof Hg as [[] _]. unfold hand_up.
  destruct (return_route_ok (route e) (Z.to_nat (route_pos e) `min` length (route e))%nat Hr Hl) as [Hrr Hrl].
  destruct (type e).
  - destruct (r_has_message_handler r); [|done]. by apply (log_good cs (ODelivered e)).
  - destruct (r_has_message_handler r); [|done]. by apply (log_good cs (ODelivered e)).
  - destruct (_ && _); [|done]. by apply (log_good cs (OErrorReport e _ _)).
  - rewrite encode_succeeds;
      cbn [send_fresh version source destination route route_pos payload b_route back_of]; auto; try lia.
    + apply (post_good cs (mkHandoff _ _ _ _ None)); simpl; [by left|done|done].
    + unfold zlen in *. rewrite length_app. unfold put64. rewrite length_be_put. lia.
Qed.

(** An authenticated ciphertext decrypts to something no longer than itself. *)
Definition aead_short (A : option Aead) : Prop :=
  ∀ a k n ad c p, A = Some a → ae_decrypt a k n ad c = Some p → zlen p ≤ zlen c.

Lemma open_payload_short A e r p :
  aead_short A → open_payload A e r = Some p → zlen p ≤ zlen (payload e).
Proof.
  intros HA. unfold open_payload. destruct (encrypted e); [|by intros [= ->]].
  destruct (r_keys r !! key_id e); [|done]. unfold aead_open. destruct A as [a|] eqn:EA; [|done].
  destruct (_ || _); [done|]. intros Hd. by eapply HA.
Qed.

Lemma deliver_good cs A fr e r :
  aead_short A → id_ok 255 (source e) = true → Forall (λ h, id_ok 255 h = true) (route e) →
  Z.of_nat (length (route e)) ≤ 255 → zlen (payload e) < 2 ^ 32 - 8 →
  good cs r → good cs (deliver A fr e r).
Proof.
  intros HA Hs Hr Hl Hpl Hg. pose proof (back_of_ok e Hs Hr Hl) as Hb. unfold deliver.
  destruct (_ || _); [by apply report_good|].
  destruct (nonce_seen_and_insert _ _ _ _) as [hit r1] eqn:E1.
  assert (good cs r1) as Hg1.
  { unfold nonce_seen_and_insert in E1. repeat case_match; simplify_eq; by apply upd_nonces_good. }
  destruct hit; [by apply report_good|].
  destruct (if dedup_by_message_id _ then _ else _) as [dup r2] eqn:E2.
  assert (good cs r2) as Hg2.
  { destruct (dedup_by_message_id _); [|by simplify_eq].
    unfold message_id_seen_and_insert in E2. destruct (seen_and_insert _ _ _ _). simplify_eq.
    by apply upd_seen_good. }
  destruct dup; [done|].
  destruct (open_payload A e r2) as [p|] eqn:Ep; [|by apply report_good].
  apply open_payload_short in Ep; [|done]. apply hand_up_good; simpl; auto; lia.
Qed.

Lemma forward_good cs fr e r :
  version e = 1 → id_ok 255 (source e) = true → id_ok 255 (destination e) = true →
  Forall (λ h, id_ok 255 h = true) (route e) → Z.of_nat (length (route e)) ≤ 255 →
  0 ≤ route_pos e ≤ Z.of_nat (length (route e)) → zlen (payload e) < 2 ^ 32 - 8 →
  good cs r → good cs (forward fr e r).
Proof.
  intros Hv Hs Hd Hr Hl Hpos Hpl Hg. pose proof (back_of_ok e Hs Hr Hl) as Hb. unfold forward.
  destruct (message_id_seen_and_insert _ _ _) as [dup r1] eqn:E1.
  assert (good cs r1) as Hg1.
  { unfold message_id_seen_and_insert in E1. destruct (seen_and_insert _ _ _ _). simplify_eq.
    by apply upd_seen_good. }
  destruct dup; [done|]. destruct (negb _); [by apply report_good|].
  destruct (if (Z.to_nat (route_pos e) <? length (route e))%nat then _ else _) as [next|];
    [|by apply report_good].
  destruct (ttl e =? 0); [by apply report_good|].
  rewrite encode_succeeds; cbn [version source destination route route_pos payload]; auto; try lia.
  - by apply (post_good cs (mkHandoff _ _ _ false None)).
  - destruct (_ <? _)%nat eqn:Ec; [|lia]. bool_prop. rewrite to_u8_id by (unfold byte_ok; lia). lia.
Qed.

Lemma receive_good cs A fr wire r :
  aead_short A → bytes_ok wire → good cs r → good cs (receive A fr wire r).
Proof.
  intros HA Hw Hg. pose proof Hg as [[Ho Hby _ _ _ _ _ _] _]. unfold receive.
  destruct (r_stopped r); [done|].
  pose proof (decoded_routing (r_options r) wire) as Hdec.
  destruct (decode_envelope wire (r_options r)) as [e|e| |]; [..|done|done];
    (destruct (Hdec e Ho Hw) as (Hv & Hs & Hd & Hr & Hl & Hp & Hpl); [by auto|]).
  - case_bool_decide; [apply deliver_good|apply forward_good]; auto; lia.
  - apply report_good; [|done]. right. simpl. split; [done|]. by apply return_route_ok.
Qed.

Lemma remove_nth_perm {B} i (l : list B) x : l !! i = Some x → l ≡ₚ x :: remove_nth i l.
Proof.
  intros Hx. unfold remove_nth. rewrite <-(take_drop_middle l i x Hx) at 1. solve_Permutation.
Qed.

Lemma count_data_perm l1 l2 : l1 ≡ₚ l2 → count_data l1 = count_data l2.
Proof. intros Hp. unfold count_data. by rewrite Hp. Qed.

Lemma count_data_cons h l : count_data (h :: l) = (if h_is_report h then 0 else 1) + count_data l.
Proof. unfold count_data. rewrite filter_cons. destruct (h_is_report h); simpl; lia. Qed.

(** Taking a posted task out of the queue. *)
Lemma take_task_good cs i h r :
  good cs r → r_tasks r !! i = Some h →
  ∃ cs', cs ≡ₚ omap h_completion [h] ++ cs' ∧ back_ok (h_back h) ∧
    (h_is_report h = true → b_silent (h_back h) = true) ∧
    good cs' (upd_queue (r_in_flight r) (remove_nth i (r_tasks r)) (r_notifies r) r).
Proof.
  intros [[] Ha] Hi. apply remove_nth_perm in Hi as Hp.
  rewrite !Forall_app in *. destruct ro_backs0 as [Hb1 Hb2], ro_reports0 as [Hr1 Hr2].
  rewrite Hp in Hb1, Hr1. apply Forall_cons_iff in Hb1 as [Hb Hb1], Hr1 as [Hr Hr1].
  exists (accounts (upd_queue (r_in_flight r) (remove_nth i (r_tasks r)) (r_notifies r) r)).
  split_and!; [|done|done|split; [split; simpl; rewrite ?Forall_app; done|done]].
  rewrite <-Ha. unfold accounts, owed. cbn [upd_queue r_log r_tasks r_notifies].
  rewrite Hp at 1. rewrite <-app_comm_cons. change (h :: ?l) with ([h] ++ l).
  rewrite !omap_app. solve_Permutation.
Qed.

Lemma take_notify_good cs i h r :
  good cs r → r_notifies r !! i = Some h →
  ∃ cs', cs ≡ₚ omap h_completion [h] ++ cs' ∧ back_ok (h_back h) ∧
    good cs' (upd_queue (if h_is_report h then r_in_flight r else r_in_flight r - 1)
      (r_tasks r) (remove_nth i (r_notifies r)) r).
Proof.
  intros [[] Ha] Hi. apply remove_nth_perm in Hi as Hp.
  rewrite !Forall_app in *. destruct ro_backs0 as [Hb1 Hb2], ro_reports0 as [Hr1 Hr2].
  rewrite Hp in Hb2, Hr2. apply Forall_cons_iff in Hb2 as [Hb Hb2], Hr2 as [Hr Hr2].
  exists (accounts (upd_queue (if h_is_report h then r_in_flight r else r_in_flight r - 1)
    (r_tasks r) (remove_nth i (r_notifies r)) r)).
  rewrite (count_data_perm _ _ Hp), count_data_cons in ro_flight0.
  split_and!; [|done|split; [split; simpl; rewrite ?Forall_app; try done|done]].
  - rewrite <-Ha. unfold accounts, owed. cbn [upd_queue r_log r_tasks r_notifies].
    rewrite Hp at 1. change (h :: ?l) with ([h] ++ l). rewrite !omap_app. solve_Permutation.
  - destruct (h_is_report h); lia.
  - destruct (h_is_report h); lia.
Qed.

Lemma run_handoff_good cs fr h r :
  back_ok (h_back h) → (h_is_report h = true → b_silent (h_back h) = true) → good cs r →
  good (omap h_completion [h] ++ cs) (run_handoff fr h r).
Proof.
  intros Hb Hr Hg. pose proof Hg as [[] Ha]. unfold run_handoff.
  assert (omap h_completion [h] = omap id [h_completion h]) as Eo by done.
  destruct (r_stopped r); [rewrite Eo; by apply complete_good|].
  destruct (_ && _) eqn:Ef; [rewrite Eo; by apply complete_good, report_good|].
  case_bool_decide; [|rewrite Eo; by apply complete_good, report_good].
  set (r1 := upd_queue _ _ _ r).
  assert (good (omap h_completion [h] ++ cs) r1) as Hg1.
  { split; [split|]; subst r1; simpl; try done.
    - rewrite (count_data_perm _ (h :: r_notifies r)) by solve_Permutation.
      rewrite count_data_cons. destruct (h_is_report h); lia.
    - destruct (h_is_report h); [done|]. simpl in Ef. bool_prop. lia.
    - rewrite !Forall_app in *. split_and!; try tauto. by apply Forall_singleton.
    - rewrite !Forall_app in *. split_and!; try tauto. by apply Forall_singleton.
    - unfold accounts, owed in *. cbn [upd_queue r_log r_tasks r_notifies].
      rewrite <-Ha, !omap_app. solve_Permutation. }
  by apply (log_good _ (ONotify (h_next h) (h_wire h))) in Hg1.
Qed.

(** Received strings are bytes. *)
Definition event_ok (ev : event) : Prop :=
  match ev with
  | EvReceive _ wire => bytes_ok wire
  | _ => True
  end.

(** The sends of a history, with their completions. *)
Definition sends (evs : list event) : list (Envelope * Completion) :=
  omap (λ ev, match ev with EvSend _ m c => Some (m, c) | _ => None end) evs.

Definition completions (l : list (Envelope * Completion)) : list Z := omap snd l.

Lemma step_good cs A ev r :
  aead_short A → event_ok ev → good cs r →
  good (completions (sends [ev]) ++ cs) (step A ev r) ∨
  (∃ x, sends [ev] = [x] ∧ other_version x ∧ step A ev r = log OThrow r).
Proof.
  intros HA Hev Hg. destruct ev as [fr m c|fr wire|fr i|fr i ec|k|k|k key|mh eh|]; [|left..]; simpl.
  - destruct (run_send_good cs A fr m c r Hg) as [H|[H ->]]; [left; by destruct c|right; eauto].
  - by apply receive_good.
  - destruct (r_tasks r !! i) as [h|] eqn:E; [|done].
    destruct (take_task_good _ _ _ _ Hg E) as (cs' & Hcs & Hb & Hr & Hg').
    eapply good_perm; [symmetry; exact Hcs|]. by apply run_handoff_good.
  - destruct (r_notifies r !! i) as [h|] eqn:E; [|done].
    destruct (take_notify_good _ _ _ _ Hg E) as (cs' & Hcs & Hb & Hg').
    eapply good_perm; [symmetry; exact Hcs|]. unfold notify_done. simpl.
    change (match h_completion h with Some _ => _ | None => _ end) with (omap id [h_completion h]).
    apply complete_good. destruct ec; [by apply report_good|done].
  - unfold attach. destruct (_ || _); [done|]. by apply set_links_good.
  - by apply set_links_good.
  - unfold add_key. destruct (_ =? _); [|done]. destruct Hg as [[] ?]. by split; [split|].
  - destruct Hg as [[] ?]. by split; [split|].
  - unfold stop. destruct (r_stopped r); [done|]. destruct Hg as [[] ?]. by split; [split|].
Qed.
End Accounting.

Lemma throw_good n cs r : good n cs r → good (S n) cs (log OThrow r).
Proof.
  intros [[] Ha]. split.
  - split; simpl; try done. unfold throws in *. rewrite omap_app, length_app. simpl. lia.
  - unfold accounts, owed in *. simpl. by rewrite completed_snoc, app_nil_r.
Qed.

Lemma sends_cons ev evs : sends (ev :: evs) = sends [ev] ++ sends evs.
Proof. unfold sends. rewrite <-omap_app. done. Qed.

(** A history: the sends that threw are of another version, and account for
    the completions that are neither called nor owed. *)
Lemma router_run_good n cs A evs r :
  aead_short A → Forall event_ok evs → good n cs r →
  ∃ bad cs', bad ⊆+ sends evs ∧ Forall other_version bad ∧
    good (length bad + n) cs' (run A evs r) ∧ cs' ++ completions bad ≡ₚ completions (sends evs) ++ cs.
Proof.
  intros HA Hev. revert n cs r. induction Hev as [|ev evs Hev Hevs IH]; intros n cs r Hg.
  { exists [], cs. split_and!; try done. by rewrite app_nil_r. }
  rewrite sends_cons. cbn [run foldl]. destruct (step_good n cs A ev r HA Hev Hg) as [Hs|(x & Hx & Hb & Hs)].
  - destruct (IH _ _ _ Hs) as (bad & cs' & H1 & H2 & H3 & H4). exists bad, cs'. split_and!; [|done|done|].
    + by apply submseteq_inserts_l.
    + rewrite H4. unfold completions. rewrite omap_app. solve_Permutation.
  - rewrite Hs, Hx. destruct (IH _ _ _ (throw_good _ _ _ Hg)) as (bad & cs' & H1 & H2 & H3 & H4).
    exists (x :: bad), cs'. split_and!; [by apply submseteq_skip|by constructor| |].
    + replace (length (x :: bad) + n)%nat with (length bad + S n)%nat by (simpl; lia). done.
    + unfold completions in *. change (x :: bad) with ([x] ++ bad).
      rewrite !omap_app, <-app_assoc, <-H4. solve_Permutation.
Qed.

Lemma create_good node_id o r :
  create node_id o = Some r → 0 ≤ max_node_id_bytes o → 0 ≤ max_route_hops o →
  0 ≤ max_hops o < 2 ^ 32 → 0 ≤ max_in_flight o → max_envelope_bytes o < 2 ^ 32 - 8 → good 0 [] r.
Proof.
  unfold create. destruct (_ || _) eqn:E; [done|]. bool_prop. intros [= <-] ?????.
  split; [|done]. split; simpl; try done; try lia; [split; lia|apply id_ok_spec; unfold zlen in *; lia].
Qed.

Lemma report_options fr back code r : r_options (report fr back code r) = r_options r.
Proof. apply report_queue. Qed.

Lemma complete_options c res r : r_options (complete c res r) = r_options r.
Proof. by destruct c. Qed.

Lemma seen_options now mid r : r_options (message_id_seen_and_insert now mid r).2 = r_options r.
Proof. unfold message_id_seen_and_insert. by destruct (seen_and_insert _ _ _ _). Qed.

Lemma nonce_options now src n r : r_options (nonce_seen_and_insert now src n r).2 = r_options r.
Proof. unfold nonce_seen_and_insert. by repeat case_match. Qed.

Lemma hand_up_options fr e r : r_options (hand_up fr e r) = r_options r.
Proof. unfold hand_up. by repeat case_match. Qed.

Lemma deliver_options A fr e r : r_options (deliver A fr e r) = r_options r.
Proof.
  unfold deliver. destruct (_ || _); [apply report_options|].
  pose proof (nonce_options (f_now fr) (source e) (nonce e) r) as H1.
  destruct (nonce_seen_and_insert _ _ _ _) as [hit r1]. simpl in H1. rewrite <-H1.
  destruct hit; [apply report_options|].
  pose proof (seen_options (f_now fr) (message_id e) r1) as H2.
  destruct (dedup_by_message_id _); [destruct (message_id_seen_and_insert _ _ _) as [dup r2]|];
    simpl in *; [rewrite <-H2; destruct dup; [done|]|];
    (destruct (open_payload _ _ _); [apply hand_up_options|apply report_options]).
Qed.

Lemma forward_options fr e r : r_options (forward fr e r) = r_options r.
Proof.
  unfold forward. pose proof (seen_options (f_now fr) (message_id e) r) as H1.
  destruct (message_id_seen_and_insert _ _ _) as [dup r1]. simpl in H1. rewrite <-H1.
  destruct dup; [done|]. destruct (negb _); [apply report_options|].
  destruct (if (_ <? _)%nat then _ else _); [|apply report_options].
  destruct (ttl e =? 0); [apply report_options|]. by destruct (encode_envelope _).
Qed.

Lemma step_options A ev r : r_options (step A ev r) = r_options r.
Proof.
  destruct ev as [fr m c|fr wire|fr i|fr i ec|n|n|k key|mh eh|]; simpl; try done.
  - unfold run_send. repeat (case_match; rewrite ?complete_options; try done).
  - unfold receive. repeat (case_match; rewrite ?deliver_options, ?forward_options, ?report_options; try done).
  - case_match; [|done]. unfold run_handoff.
    repeat (case_match; rewrite ?complete_options, ?report_options; try done).
  - case_match; [|done]. unfold notify_done. rewrite complete_options.
    case_match; by rewrite ?report_options.
  - unfold attach. by case_match.
  - unfold add_key. by case_match.
  - unfold stop. by case_match.
Qed.

Lemma run_options A evs r : r_options (run A evs r) = r_options r.
Proof.
  revert r. induction evs as [|ev evs IH]; intros r; simpl; [done|]. by rewrite IH, step_options.
Qed.

(** ** Properties *)

(** The integer ranges of the option fields' C++ types, with the envelope size
    below the [u32] length prefix. *)
Record options_typed (o : NodeRouterOptions) : Prop := {
  ot_id : 0 ≤ max_node_id_bytes o;
  ot_hops : 0 ≤ max_route_hops o;
  ot_max_hops : 0 ≤ max_hops o < 2 ^ 32;
  ot_in_flight : 0 ≤ max_in_flight o;
  ot_bytes : max_envelope_bytes o < 2 ^ 32 - 8;
}.

(** C29: Router accounting over every history.  From a created router (envelope
    bound below the [u32] length prefix) whose cipher never opens to more bytes
    than it was given, after any interleaving of sends, received byte strings,
    posted tasks in any order, link callbacks, attaches, detaches, key and
    handler changes and stops: [in_flight_] is the number of data messages whose
    link callback is owed and never exceeds [max_in_flight]; an executor task
    throws only for a send of an unencrypted envelope whose version is not 1,
    once per throw; and the completions called so far, those still owed and
    those of the sends that threw are together exactly the completions of the
    sends, each once.  In particular no task throws and no completion is lost
    when every envelope sent has version 1. *)
Theorem router_accounting (node_id : bytes) (o : NodeRouterOptions) (r : Router)
  (A : option Aead) (evs : list event)
  (Hc : create node_id o = Some r) (Ho : options_typed o) (HA : aead_short A)
  (Hev : Forall event_ok evs) :
  let r' := run A evs r in
  r_in_flight r' = count_data (r_notifies r') ∧ r_in_flight r' ≤ max_in_flight o ∧
  (∃ bad, bad ⊆+ sends evs ∧ Forall other_version bad ∧ throws (r_log r') = length bad ∧
     completed (r_log r') ++ owed r' ++ completions bad ≡ₚ completions (sends evs)) ∧
  (Forall (λ x, version x.1 = 1) (sends evs) →
     OThrow ∉ r_log r' ∧ completed (r_log r') ++ owed r' ≡ₚ completions (sends evs)).
Proof.
  intros r'. pose proof Ho as [].
  assert (r_options r' = o) as Hopt.
  { subst r'. rewrite run_options. unfold create in Hc. by destruct (_ || _); simplify_eq. }
  apply create_good in Hc; [|done..].
  destruct (router_run_good 0 [] A evs r HA Hev Hc) as (bad & cs' & Hsub & Hbad & [Hok Ha] & Hp).
  pose proof Hok as [_ _ _ Hf Hb _ _ Ht]. rewrite app_nil_r in Hp. rewrite Nat.add_0_r in Ht.
  change (completed (r_log r') ++ owed r' ≡ₚ cs') in Ha. rewrite <-Ha, <-app_assoc in Hp.
  split_and!; [exact Hf|by rewrite <-Hopt|by exists bad|]. intros Hv.
  assert (bad = []) as ->.
  { destruct bad as [|x bad]; [done|]. exfalso. apply Forall_cons_iff in Hbad as [[Hx _] _].
    rewrite Forall_forall in Hv. apply Hx, Hv, list_elem_of_In.
    eapply elem_of_submseteq; [|exact Hsub]. left. }
  simpl in Hp. rewrite app_nil_r in Hp. split; [by apply throws_0|exact Hp].
Qed.

(** A cipher that appends sixteen zero bytes: enough to instantiate the
    parameter. *)
Definition zero_tag : Aead :=
  mkAead (λ _ _ _ p, p ++ replicate 16 0)
    (λ _ _ _ c, if bool_decide (drop (length c - 16) c = replicate 16 0)
                then Some (take (length c - 16) c) else None).

Lemma zero_tag_short : aead_short (Some zero_tag).
Proof.
  intros a k n ad c p [= <-]. simpl. case_bool_decide; [|done]. intros [= <-].
  unfold zlen. rewrite length_take. lia.
Qed.

Lemma zero_tag_ok : aead_ok zero_tag.
Proof.
  split; intros; cbn [zero_tag ae_encrypt ae_decrypt].
  - unfold zlen, kTagBytes. rewrite length_app, length_replicate. lia.
  - rewrite length_app, length_replicate, Nat.add_sub, drop_app_length, take_app_length.
    by rewrite bool_decide_eq_true_2.
Qed.

Definition small_options : NodeRouterOptions := mkOptions 1024 255 8 8 30000 1 4 4 4 true true.

Definition sample_fresh : Fresh := mkFresh 1000 7 9.

(** Two sends to a neighbour with a queue bound of one and one of another
    version, then both tasks run. *)
Lemma router_accounting_witness :
  let o := small_options in
  let m := mkEnv 1 data false 0 0 0 0 0 [] (s! "b") [] 0 (s! "x") in
  let m2 := mkEnv 2 data false 0 0 0 0 0 [] (s! "b") [] 0 (s! "x") in
  ∃ r, create (s! "a") o = Some r ∧
    let r' := run (Some zero_tag) [EvAttach (s! "b"); EvSend sample_fresh m (Some 1);
                EvSend sample_fresh m (Some 2); EvSend sample_fresh m2 (Some 3);
                EvTask sample_fresh 0; EvTask sample_fresh 0] r in
    r_in_flight r' = 1 ∧ completed (r_log r') = [2] ∧ throws (r_log r') = 1%nat ∧
    ∃ bad, Forall other_version bad ∧ throws (r_log r') = length bad ∧
      completed (r_log r') ++ owed r' ++ completions bad ≡ₚ [1; 2; 3].
Proof.
  intros o m m2. destruct (create (s! "a") o) as [r|] eqn:Hc; [|discriminate Hc]. exists r. split; [done|].
  pose proof (router_accounting (s! "a") o r (Some zero_tag)
    [EvAttach (s! "b"); EvSend sample_fresh m (Some 1); EvSend sample_fresh m (Some 2);
     EvSend sample_fresh m2 (Some 3); EvTask sample_fresh 0; EvTask sample_fresh 0] Hc) as Hacc.
  destruct Hacc as (_ & _ & (bad & _ & H1 & H2 & H3) & _); [split; simpl; lia|apply zero_tag_short|by repeat constructor|].
  vm_compute in Hc. injection Hc as <-.
  split; [vm_compute; done|]. split; [vm_compute; done|]. split; [vm_compute; done|].
  exists bad. split; [exact H1|]. split; [exact H2|exact H3].
Defined.

(** Error reports never cascade.  Processing a received error envelope posts
    at most one task, and it is the forwarding of that envelope, marked
    silent; running a silent hand-off or receiving its link callback posts
    nothing, whatever the link does; and every report or ack the router posts
    is itself silent. *)
Theorem errors_never_reported (A : option Aead) (fr : Fresh) (r : Router) :
  (∀ wire e, decode_envelope wire (r_options r) = dec_ok e → type e = error →
     r_tasks (receive A fr wire r) = r_tasks r ∨
     ∃ h, r_tasks (receive A fr wire r) = r_tasks r ++ [h] ∧ h_is_report h = false ∧
          b_silent (h_back h) = true) ∧
  (∀ h ec, b_silent (h_back h) = true →
     r_tasks (run_handoff fr h r) = r_tasks r ∧ r_tasks (notify_done fr h ec r) = r_tasks r) ∧
  (∀ back code h, r_tasks (report fr back code r) = r_tasks r ++ [h] → b_silent (h_back h) = true).
Proof.
  split; [|split].
  - intros wire e Hd Ht. unfold receive. rewrite Hd. destruct (r_stopped r); [by left|].
    assert (b_silent (back_of e) = true) as Hs by (simpl; by apply bool_decide_eq_true).
    case_bool_decide.
    + left. unfold deliver, nonce_seen_and_insert, message_id_seen_and_insert, hand_up.
      repeat (case_match; rewrite ?report_silent by done; simplify_eq/=; try done).
    + unfold forward. destruct (message_id_seen_and_insert _ _ _) as [dup r1] eqn:E1.
      assert (r_tasks r1 = r_tasks r) as Ht1.
      { unfold message_id_seen_and_insert in E1. destruct (seen_and_insert _ _ _ _). by simplify_eq. }
      rewrite <-Ht1. destruct dup; [by left|].
      destruct (negb _); [rewrite report_silent by done; by left|].
      destruct (if (_ <? _)%nat then _ else _); [|rewrite report_silent by done; by left].
      destruct (ttl e =? 0); [rewrite report_silent by done; by left|].
      destruct (encode_envelope _); [right|by left]. eexists. split; [reflexivity|]. by split.
  - intros h ec Hs. unfold run_handoff, notify_done. rewrite !report_silent by done.
    assert (∀ c res r0, r_tasks (complete c res r0) = r_tasks r0) as Hct by (by intros []).
    repeat case_match; rewrite ?Hct, ?report_silent by done; done.
  - intros back code h.
    destruct (report_cases fr back code r) as [->|[(_ & h' & -> & _ & Hs & _)|[_ ->]]]; simpl.
    + intros Hl. apply (f_equal length) in Hl. rewrite length_app in Hl. simpl in Hl. lia.
    + intros [_ [= <-]]%app_inj_2; done.
    + intros Hl. apply (f_equal length) in Hl. rewrite length_app in Hl. simpl in Hl. lia.
Qed.

Lemma errors_never_reported_witness :
  let e := mkEnv 1 error false 0 3 9 1000 42 (s! "x") (s! "z") [] 0 (s! "boom") in
  let w := encode_header e (zlen (payload e)) ++ payload e in
  ∃ r, create (s! "a") small_options = Some r ∧
    (r_tasks (receive None sample_fresh w r) = [] ∨
     ∃ h, r_tasks (receive None sample_fresh w r) = [h] ∧ b_silent (h_back h) = true).
Proof.
  intros e w. assert (decode_envelope w small_options = dec_ok e) as Hd by (vm_compute; reflexivity).
  eexists. split; [reflexivity|]. clearbody w.
  match goal with |- context [receive None sample_fresh w ?r] =>
    destruct (errors_never_reported None sample_fresh r) as [H _] end.
  destruct (H w e Hd eq_refl) as [Hr|(h & Hr & _ & Hs)]; [by left|right; by exists h].
Defined.

(** ** Messages across relays *)

(** Limits nothing on the wire exceeds. *)
Definition wide_options : NodeRouterOptions := mkOptions (2 ^ 40) 255 255 1 0 1 1 1 1 true true.

Lemma wide_options_ok : options_ok wide_options.
Proof. split; cbn; unfold kFixedHeader, kTailHeader; lia. Qed.

Lemma id_ok_mono n m s : n ≤ m → id_ok n s = true → id_ok m s = true.
Proof. intros Hnm. rewrite !id_ok_spec. lia. Qed.

Lemma envelope_ok_wide o e : options_ok o → envelope_ok o e → envelope_ok wide_options e.
Proof.
  intros [] []. split; try done; cbn [max_node_id_bytes max_route_hops wide_options]; try lia.
  - eapply id_ok_mono; [|done]. lia.
  - eapply id_ok_mono; [|done]. lia.
  - eapply List.Forall_impl; [|done]. intros h. apply id_ok_mono. lia.
Qed.

Definition wire_of (e : Envelope) : bytes := encode_header e (zlen (payload e)) ++ payload e.

(** The wire image determines the envelope, whatever limits each side has. *)
Lemma wire_decodes_wide o e :
  options_ok o → envelope_ok o e → zlen (wire_of e) ≤ 2 ^ 40 → zlen (payload e) < 2 ^ 32 →
  decode_envelope (wire_of e) wide_options = dec_ok e.
Proof.
  intros Ho He Hw Hp. apply decode_own_payload; [apply wide_options_ok|by eapply envelope_ok_wide|done|done].
Qed.

Lemma decoded_wire o w e :
  options_ok o → max_envelope_bytes o < 2 ^ 32 → bytes_ok w → decode_envelope w o = dec_ok e →
  envelope_ok o e ∧ wire_of e = w ∧ decode_envelope w wide_options = dec_ok e.
Proof.
  intros Ho Hmax Hb Hd. destruct (decode_exact o w e Ho Hb Hd) as (He & Hle & Hw).
  split; [done|]. split; [done|]. rewrite <-Hw. apply (wire_decodes_wide o); [done..| |].
  - unfold wire_of. rewrite Hw. lia.
  - unfold zlen in *. rewrite <-Hw, length_app in Hle. lia.
Qed.

(** [relayed n w w']: [w] arrived at a router, [n] routers in turn forwarded
    what they had received, and [w'] is the last hand-off. *)
Inductive relayed (A : option Aead) : nat → bytes → bytes → Prop :=
  | relayed_here w : relayed A 0 w w
  | relayed_hop n w r fr h w' :
      options_ok (r_options r) → max_envelope_bytes (r_options r) < 2 ^ 32 → bytes_ok w →
      r_tasks (receive A fr w r) = r_tasks r ++ [h] → h_is_report h = false →
      relayed A n (h_wire h) w' → relayed A (S n) w w'.

(** Equal in everything a relay must not change. *)
Definition same_message (e e' : Envelope) : Prop :=
  version e = version e' ∧ type e = type e' ∧ encrypted e = encrypted e' ∧ key_id e = key_id e' ∧
  nonce e = nonce e' ∧ timestamp_ms e = timestamp_ms e' ∧ message_id e = message_id e' ∧
  source e = source e' ∧ destination e = destination e' ∧ route e = route e' ∧ payload e = payload e'.

Lemma post_only (r : Router) h l :
  r_tasks r = l → r_tasks r = l ++ [h] → False.
Proof. intros -> Hl. apply (f_equal length) in Hl. rewrite length_app in Hl. simpl in Hl. lia. Qed.

Lemma report_not_data fr back code r h :
  r_tasks (report fr back code r) = r_tasks r ++ [h] → h_is_report h = true.
Proof.
  destruct (report_cases fr back code r) as [->|[(_ & h' & -> & Hr & _)|[_ ->]]]; simpl; intros Hl.
  - by eapply post_only in Hl.
  - apply app_inj_2 in Hl as [_ [= <-]]; done.
  - by eapply (post_only r) in Hl.
Qed.

Lemma deliver_not_data A fr e r h :
  r_tasks (deliver A fr e r) = r_tasks r ++ [h] → h_is_report h = true.
Proof.
  unfold deliver. destruct (_ || _); [apply report_not_data|].
  destruct (nonce_seen_and_insert _ _ _ _) as [hit r1] eqn:E1.
  assert (r_tasks r1 = r_tasks r) as Ht1.
  { unfold nonce_seen_and_insert in E1. by repeat case_match; simplify_eq. }
  rewrite <-Ht1. destruct hit; [apply report_not_data|].
  destruct (if dedup_by_message_id _ then _ else _) as [dup r2] eqn:E2.
  assert (r_tasks r2 = r_tasks r1) as Ht2.
  { unfold message_id_seen_and_insert in E2. by repeat case_match; simplify_eq. }
  rewrite <-Ht2. destruct dup; [by intros ?%post_only|].
  destruct (open_payload A e r2) as [l|]; [|apply report_not_data].
  clear E1 E2. unfold hand_up. destruct (type (with_payload e l)); try (case_match; simpl; by intros ?%(post_only r2)).
  destruct (encode_envelope _); [|simpl; by intros ?%(post_only r2)]. simpl.
  intros [_ [= <-]]%app_inj_2; done.
Qed.

(** A forwarded message is the received one with one hop less. *)
Lemma forward_data fr e r h :
  r_tasks (forward fr e r) = r_tasks r ++ [h] → h_is_report h = false →
  ∃ e', encode_envelope e' = Some (h_wire h) ∧ same_message e e' ∧ ttl e ≠ 0 ∧ ttl e' = ttl e - 1 ∧
    (route_pos e' = route_pos e ∨
     Z.to_nat (route_pos e) `min` length (route e) < length (route e) ∧
     route_pos e' = to_u8 (Z.of_nat (Z.to_nat (route_pos e) `min` length (route e)) + 1))%nat.
Proof.
  unfold forward. destruct (message_id_seen_and_insert _ _ _) as [dup r1] eqn:E1.
  assert (r_tasks r1 = r_tasks r) as <-.
  { unfold message_id_seen_and_insert in E1. destruct (seen_and_insert _ _ _ _). by simplify_eq. }
  intros Hl Hdata.
  assert (∀ back code, r_tasks (report fr back code r1) = r_tasks r1 ++ [h] → False) as Hnr.
  { intros back code Hr%report_not_data. congruence. }
  destruct dup; [by eapply post_only in Hl|]. destruct (negb _); [by apply Hnr in Hl|].
  destruct (if (Z.to_nat _ <? length _)%nat then _ else _) as [next|]; [|by apply Hnr in Hl].
  destruct (ttl e =? 0) eqn:Et; [by apply Hnr in Hl|]. bool_prop.
  destruct (encode_envelope _) as [w|] eqn:Ee; simpl in Hl; [|by eapply (post_only r1) in Hl].
  apply app_inj_2 in Hl as [_ [= <-]]; [|done]. eexists. split; [exact Ee|]. simpl.
  split; [done|]. split; [done|]. split; [done|].
  destruct (_ <? _)%nat eqn:Ec; [right|by left]. bool_prop. done.
Qed.

Lemma relay_hop_spec A fr w r h :
  options_ok (r_options r) → max_envelope_bytes (r_options r) < 2 ^ 32 → bytes_ok w →
  r_tasks (receive A fr w r) = r_tasks r ++ [h] → h_is_report h = false →
  ∃ e e', decode_envelope w wide_options = dec_ok e ∧
    decode_envelope (h_wire h) wide_options = dec_ok e' ∧
    same_message e e' ∧ 0 < ttl e ∧ ttl e' = ttl e - 1.
Proof.
  intros Ho Hmax Hw Hl Hdata. unfold receive in Hl.
  destruct (r_stopped r); [by eapply post_only in Hl|].
  destruct (decode_envelope w (r_options r)) as [e|e| |] eqn:Hd.
  2: { apply report_not_data in Hl. congruence. }
  2, 3: by eapply post_only in Hl.
  destruct (decoded_wire _ _ _ Ho Hmax Hw Hd) as (He & Hwire & Hwd).
  case_bool_decide; [apply deliver_not_data in Hl; congruence|].
  apply forward_data in Hl as (e' & Henc & Hsame & Ht & Ht' & Hpos); [|done].
  exists e, e'. split; [done|].
  pose proof He as [Hv Hk Httl Hn Hts Hid Hs Hdst Hr Hh Hp].
  destruct Hsame as (S1 & S2 & S3 & S4 & S5 & S6 & S7 & S8 & S9 & S10 & S11).
  assert (0 ≤ route_pos e' ≤ Z.of_nat (length (route e'))) as Hp'.
  { rewrite <-S10. destruct Ho. destruct Hpos as [->|[Hlt ->]]; [done|].
    rewrite to_u8_id by (unfold byte_ok; lia). lia. }
  assert (envelope_ok (r_options r) e') as He'.
  { split; rewrite <-?S1, <-?S4, <-?S5, <-?S6, <-?S7, <-?S8, <-?S9, <-?S10; auto.
    - unfold u32_ok in *. lia.
    - by rewrite S10. }
  assert (0 < ttl e) by (unfold u32_ok in *; lia).
  split; [|split; [by split_and!|done]].
  assert (zlen (payload e) < 2 ^ 32 ∧ zlen (wire_of e') = zlen w) as [Hpl Hlen].
  { destruct (decode_exact _ _ _ Ho Hw Hd) as (_ & Hle & Hww). split.
    - unfold zlen in *. rewrite <-Hww, length_app in Hle. lia.
    - rewrite <-Hwire. unfold wire_of, zlen. rewrite !length_app, <-S11. f_equal. f_equal.
      rewrite !encode_header_split, !length_app, !length_fixed_bytes. unfold tail_bytes.
      rewrite !length_app, S8, S9, S10. done. }
  assert (h_wire h = wire_of e') as ->.
  { apply (encode_envelope_Some (r_options r)) in Henc as [-> _]; done. }
  apply (wire_decodes_wide (r_options r)); [done..| |by rewrite <-S11].
  rewrite Hlen, <-Hwire. unfold wire_of, zlen. rewrite length_app.
  destruct (decode_exact _ _ _ Ho Hw Hd) as (_ & Hle & Hww).
  unfold zlen in Hle. rewrite <-Hww, length_app in Hle. unfold zlen in Hle. lia.
Qed.

Lemma same_message_trans e1 e2 e3 : same_message e1 e2 → same_message e2 e3 → same_message e1 e3.
Proof. unfold same_message. intros. destruct_and?. split_and!; congruence. Qed.


Lemma relayed_spec A n w w' e :
  relayed A n w w' → decode_envelope w wide_options = dec_ok e → 0 ≤ ttl e →
  ∃ e', decode_envelope w' wide_options = dec_ok e' ∧ same_message e e' ∧
    ttl e' = ttl e - Z.of_nat n ∧ 0 ≤ ttl e'.
Proof.
  intros Hr. revert e. induction Hr as [w|n w r fr h w' Ho Hmax Hw Hl Hdata Hr IH]; intros e Hd Ht.
  { exists e. split_and!; auto; [|lia]. by unfold same_message. }
  destruct (relay_hop_spec _ _ _ _ _ Ho Hmax Hw Hl Hdata) as (e0 & e1 & Hd0 & Hd1 & Hs & Hpos & Ht1).
  rewrite Hd in Hd0. injection Hd0 as <-.
  destruct (IH e1 Hd1) as (e' & Hd' & Hs' & Ht' & Hnn); [lia|].
  exists e'. split_and!; [done|by eapply same_message_trans|lia|lia].
Qed.

(** Relays forward a message unchanged and only as often as its hop budget
    allows.  Whatever routers a message passes and whatever state they are in,
    after [n] forwards the envelope differs from the original only in
    [route_pos] and in a [ttl] smaller by exactly [n]; in particular
    [n <= ttl], so no cycle of routers forwards a message forever. *)
Theorem relays_preserve_message (A : option Aead) (n : nat) (w w' : bytes) (o : NodeRouterOptions)
  (e : Envelope) (Ho : options_ok o) (Hmax : max_envelope_bytes o < 2 ^ 32) (Hw : bytes_ok w)
  (Hd : decode_envelope w o = dec_ok e) (Hr : relayed A n w w') :
  Z.of_nat n ≤ ttl e ∧
  ∃ e', decode_envelope w' wide_options = dec_ok e' ∧ same_message e e' ∧
    ttl e' = ttl e - Z.of_nat n.
Proof.
  destruct (decoded_wire _ _ _ Ho Hmax Hw Hd) as (He & _ & Hwd).
  assert (0 ≤ ttl e) as Ht by (destruct He; unfold u32_ok in *; lia).
  destruct (relayed_spec _ _ _ _ _ Hr Hwd Ht) as (e' & Hd' & Hs & Ht' & Hnn).
  split; [lia|]. eauto.
Qed.

Definition relay_router (id : bytes) : Router :=
  mkRouter id small_options ∅ ∅ false false (new_lru 4 60000) (new_lru 4 60000) 60000 0 false [] [] [].

Lemma small_options_ok : options_ok small_options.
Proof. split; cbn; unfold kFixedHeader, kTailHeader; lia. Qed.

Lemma relays_preserve_message_witness :
  let e := mkEnv 1 data false 0 3 9 1000 42 (s! "x") (s! "z") [s! "r1"; s! "r2"] 0 (s! "hi") in
  let w := wire_of e in
  ∃ w', relayed None 2 w w' ∧
    ∃ e', decode_envelope w' wide_options = dec_ok e' ∧ same_message e e' ∧ ttl e' = 1.
Proof.
  intros e w.
  assert (decode_envelope w small_options = dec_ok e) as Hd by (vm_compute; reflexivity).
  assert (bytes_ok w) as Hw by (apply (bool_decide_unpack _); vm_compute; done).
  assert (∃ w', relayed None 2 w w') as [w' Hr].
  { eexists. eapply (relayed_hop _ _ _ (relay_router (s! "r1")) sample_fresh); [apply small_options_ok|done|done| | |].
    { vm_compute. reflexivity. } { reflexivity. }
    eapply (relayed_hop _ _ _ (relay_router (s! "r2")) sample_fresh); [apply small_options_ok|done| | | |].
    { apply (bool_decide_unpack _); vm_compute; done. } { vm_compute. reflexivity. } { reflexivity. }
    apply relayed_here. }
  exists w'. split; [exact Hr|].
  destruct (relays_preserve_message None 2 w w' small_options e small_options_ok ltac:(done) Hw Hd Hr)
    as (_ & e' & H1 & H2 & H3).
  exists e'. split; [exact H1|]. split; [exact H2|exact H3].
Defined.

(** ** End-to-end encryption *)

Record envelope_typed (e : Envelope) : Prop := {
  et_version : version e = 1;
  et_key : u8_ok (key_id e);
  et_ttl : u32_ok (ttl e);
  et_nonce : u32_ok (nonce e);
  et_time : u64_ok (timestamp_ms e);
  et_id : u64_ok (message_id e);
}.

Definition fresh_typed (fr : Fresh) : Prop := u64_ok (f_now fr) ∧ u32_ok (f_rand32 fr) ∧ u64_ok (f_rand64 fr).

Lemma aad_of_same e e' n : same_message e e' → aad_of e n = aad_of e' n.
Proof.
  intros (S1 & S2 & S3 & S4 & S5 & S6 & S7 & S8 & S9 & S10 & S11).
  unfold aad_of. by rewrite S1, S2, S3, S4, S5, S6, S7, S8, S9, S10, S11.
Qed.

Lemma route_valid_ok o node_id dst seen hops :
  route_valid o node_id dst seen hops = true → Forall (λ h, id_ok (max_node_id_bytes o) h = true) hops.
Proof.
  revert seen. induction hops as [|h hops IH]; intros seen Hr; [constructor|].
  simpl in Hr. bool_prop. constructor; eauto.
Qed.

(** What an encrypted send hands to its first hop. *)
Lemma run_send_encrypted a fr m c s h :
  options_ok (r_options s) → id_ok (max_node_id_bytes (r_options s)) (r_node_id s) = true →
  aead_ok a → envelope_typed m → fresh_typed fr → encrypted m = true →
  r_tasks (run_send (Some a) fr m c s) = r_tasks s ++ [h] →
  let m' := send_fresh fr (r_node_id s) (r_options s) m in
  ∃ key cipher, r_keys s !! key_id m = Some key ∧ zlen key = 32 ∧
    cipher = ae_encrypt a key (aead_nonce (message_id m') (nonce m'))
               (aad_of m' (zlen (payload m) + kTagBytes)) (payload m) ∧
    h_wire h = wire_of (with_payload m' cipher) ∧ envelope_ok (r_options s) (with_payload m' cipher) ∧
    zlen (h_wire h) ≤ max_envelope_bytes (r_options s).
Proof.
  intros Ho Hid Ha Hm Hfr Henc Hl m'. unfold run_send in Hl.
  assert (∀ res, r_tasks (complete c res s) = r_tasks s) as Hct by (by destruct c).
  assert (∀ res, r_tasks (complete c res s) = r_tasks s ++ [h] → False) as Hno.
  { intros res Hr. by eapply post_only in Hr. }
  destruct (r_stopped s); [by apply Hno in Hl|].
  destruct (id_ok _ (destination m)) eqn:Ed; [simpl negb in Hl; cbv iota in Hl|by apply Hno in Hl].
  destruct (zlen (payload m) >? _) eqn:Ep; [by apply Hno in Hl|].
  destruct (_ >? max_route_hops _) eqn:Er; [by apply Hno in Hl|].
  destruct (route_valid _ _ _ _ _) eqn:Erv; [simpl negb in Hl; cbv iota in Hl|by apply Hno in Hl].
  fold m' in Hl. assert (encrypted m' = true) as He' by done. rewrite He' in Hl.
  change (key_id m') with (key_id m) in Hl. change (payload m') with (payload m) in Hl.
  destruct (r_keys s !! key_id m) as [key|] eqn:Ek; [|by apply Hno in Hl].
  destruct (aead_seal _ _ _ _ _) as [cipher|] eqn:Es; [|by apply Hno in Hl].
  destruct (_ >? _) eqn:Esz in Hl; [by apply Hno in Hl|]. simpl in Hl.
  apply app_inj_2 in Hl as [_ [= <-]]; [|done]. unfold aead_seal in Es.
  destruct (_ || _) eqn:Ekey; [done|]. bool_prop. simplify_eq.
  exists key. eexists. split; [done|]. split; [done|]. split; [reflexivity|]. split; [done|]. split; [|done].
  destruct Hm, Hfr as (Hf1 & Hf2 & Hf3), Ho.
  split; simpl; auto; try lia; try (by eapply route_valid_ok).
  all: repeat case_match; auto; unfold u32_ok; lia.
Qed.

(** End-to-end confidentiality works through relays.  If an encrypted send
    is accepted, then after any number of forwards the destination, holding
    the sender's key, decrypts exactly the plaintext (the associated data
    leaves out what relays rewrite) and sees the sender as source; the
    [n] forwards took [n] off the hop budget. *)
Theorem encrypted_end_to_end (a : Aead) (fr : Fresh) (m : Envelope) (c : Completion) (s d : Router)
  (h : Handoff) (n : nat) (w : bytes) (e : Envelope)
  (Ha : aead_ok a) (Hm : envelope_typed m) (Hfr : fresh_typed fr) (Henc : encrypted m = true)
  (Hso : options_ok (r_options s)) (Hsb : max_envelope_bytes (r_options s) < 2 ^ 32)
  (Hsid : id_ok (max_node_id_bytes (r_options s)) (r_node_id s) = true)
  (Hsend : r_tasks (run_send (Some a) fr m c s) = r_tasks s ++ [h])
  (Hrelay : relayed (Some a) n (h_wire h) w)
  (Hdo : options_ok (r_options d)) (Hdb : max_envelope_bytes (r_options d) < 2 ^ 32)
  (Hw : bytes_ok w) (Hkey : r_keys d !! key_id m = r_keys s !! key_id m)
  (Hdec : decode_envelope w (r_options d) = dec_ok e) :
  open_payload (Some a) e d = Some (payload m) ∧ source e = r_node_id s ∧
  destination e = destination m ∧ type e = type m ∧
  ttl e = (if ttl m =? 0 then max_hops (r_options s) else ttl m) - Z.of_nat n.
Proof.
  destruct (run_send_encrypted _ _ _ _ _ _ Hso Hsid Ha Hm Hfr Henc Hsend)
    as (key & cipher & Hk & Hk32 & Hc & Hwire & Hok & Hsz).
  set (m' := send_fresh fr (r_node_id s) (r_options s) m) in *.
  destruct (decoded_wire _ _ _ Hdo Hdb Hw Hdec) as (_ & _ & Hwd).
  assert (decode_envelope (h_wire h) wide_options = dec_ok (with_payload m' cipher)) as Hd0.
  { rewrite Hwire. apply (wire_decodes_wide (r_options s)); [done|done|rewrite <-Hwire; lia|].
    rewrite Hwire in Hsz. unfold wire_of, zlen in Hsz. rewrite length_app in Hsz.
    unfold zlen. lia. }
  assert (0 ≤ ttl (with_payload m' cipher)) as Ht by (destruct Hok; unfold u32_ok in *; lia).
  destruct (relayed_spec _ _ _ _ _ Hrelay Hd0 Ht) as (e' & Hd' & Hs & Ht' & _).
  rewrite Hwd in Hd'. injection Hd' as <-.
  pose proof (aad_of_same _ _ (zlen (payload m) + kTagBytes) Hs) as Haad.
  destruct Hs as (S1 & S2 & S3 & S4 & S5 & S6 & S7 & S8 & S9 & S10 & S11). simpl in *.
  split; [|split_and!; done].
  assert (zlen cipher = zlen (payload m) + kTagBytes) as Hlen by (subst cipher; apply (ao_length a Ha)).
  unfold open_payload. rewrite <-S3, Henc, <-S4, Hkey, Hk. unfold aead_open.
  rewrite Hk32. rewrite <-S11, <-S7, <-S5.
  assert (zlen (aead_nonce (message_id m') (nonce m')) = 12) as Hn12 by done.
  change (if message_id m =? 0 then f_rand64 fr else message_id m) with (message_id m').
  change (if nonce m =? 0 then f_rand32 fr else nonce m) with (nonce m').
  rewrite Hn12. cbn [Z.eqb Pos.eqb negb orb].
  rewrite (proj2 (Z.ltb_ge _ _)) by (unfold zlen, kTagBytes in *; lia).
  rewrite Hlen, <-Haad. subst cipher. apply (ao_inverse a Ha).
Qed.

Definition keyed_router (id : bytes) : Router := add_key 7 (replicate 32 1) (relay_router id).

Lemma encrypted_end_to_end_witness :
  let m := mkEnv 1 data true 7 0 0 0 0 [] (s! "z") [s! "r1"] 0 (s! "secret") in
  ∃ h w e, r_tasks (run_send (Some zero_tag) sample_fresh m None (keyed_router (s! "x"))) = [h] ∧
    relayed (Some zero_tag) 1 (h_wire h) w ∧
    decode_envelope w small_options = dec_ok e ∧ payload e ≠ s! "secret" ∧
    open_payload (Some zero_tag) e (keyed_router (s! "z")) = Some (s! "secret").
Proof.
  intros m.
  assert (∃ h, r_tasks (run_send (Some zero_tag) sample_fresh m None (keyed_router (s! "x"))) = [h]) as [h Hh].
  { eexists. vm_compute. reflexivity. }
  assert (∃ w, relayed (Some zero_tag) 1 (h_wire h) w ∧ bytes_ok w ∧
    ∃ e, decode_envelope w small_options = dec_ok e ∧ payload e ≠ s! "secret") as (w & Hr & Hw & e & Hd & Hne).
  { vm_compute in Hh. injection Hh as <-. eexists. split; [|split].
    - eapply (relayed_hop _ _ _ (relay_router (s! "r1")) sample_fresh);
        [apply small_options_ok|done| | | |].
      { apply (bool_decide_unpack _); vm_compute; done. } { vm_compute. reflexivity. } { reflexivity. }
      apply relayed_here.
    - apply (bool_decide_unpack _); vm_compute; done.
    - eexists. split; [vm_compute; reflexivity|]. vm_compute. discriminate. }
  exists h, w, e. split; [exact Hh|]. split; [exact Hr|]. split; [exact Hd|]. split; [exact Hne|].
  apply (encrypted_end_to_end zero_tag sample_fresh m None (keyed_router (s! "x"))
           (keyed_router (s! "z")) h 1 w e zero_tag_ok); try done; try apply small_options_ok.
  all: repeat split; vm_compute; discriminate || done.
Defined.

(** ** Replay protection *)

(** One touch of the per-source nonce windows. *)
Definition nonce_touch (r : Router) (t : Z * bytes * Z) : Router :=
  let '(now, src, n) := t in (nonce_seen_and_insert now src n r).2.

Lemma set_in_place_keys src w c : keys (m_list (set_in_place src w c)) = keys (m_list c).
Proof.
  unfold set_in_place, keys. simpl. rewrite <-list_fmap_compose. apply list_fmap_ext.
  intros i [k e] _. simpl. by case_bool_decide.
Qed.

Lemma set_in_place_wf src w c : lru_wf c → lru_wf (set_in_place src w c).
Proof.
  intros [H1 H2 H3 H4]. pose proof (set_in_place_keys src w c) as Hk.
  split; [by rewrite Hk|by rewrite Hk| |done]. unfold set_in_place. simpl. by rewrite length_fmap.
Qed.

Lemma set_in_place_lookup src w c k :
  lookup_value (set_in_place src w c) k =
    if bool_decide (k = src) then (λ _, w) <$> lookup_value c k else lookup_value c k.
Proof.
  unfold lookup_value, set_in_place. simpl. induction (m_list c) as [|[k1 e] l IH].
  { by case_bool_decide. }
  rewrite fmap_cons. cbn [fst snd].
  destruct (decide (k1 = src)) as [->|Hne].
  1: rewrite (bool_decide_eq_true_2 (src = src)) by done.
  2: rewrite (bool_decide_eq_false_2 (k1 = src)) by done.
  all: rewrite !node_of_cons.
  - destruct (decide (src = k)) as [->|]; [by rewrite bool_decide_eq_true_2|done].
  - destruct (decide (k1 = k)) as [->|]; [by rewrite bool_decide_eq_false_2 by done|done].
Qed.

Lemma fresh_in_place k T src w c : fresh_within k T c → fresh_within k T (set_in_place src w c).
Proof. unfold fresh_within. by rewrite set_in_place_keys. Qed.

(** The window the router works on for a source: the stored one, or a new one. *)
Definition window_of (r : Router) (src : bytes) : NonceWindow :=
  default (new_lru (nonce_capacity (r_options r)) (r_window r)) (lookup_value (r_nonces r) src).

(** The outer cache after the source was looked up or added. *)
Definition outer_touch (now : Z) (src : bytes) (r : Router) : LruCache bytes NonceWindow :=
  lru_step (LRefresh now src (new_lru (nonce_capacity (r_options r)) (r_window r))) (r_nonces r).

Lemma nonce_touch_eq now src n r :
  lru_wf (r_nonces r) →
  nonce_seen_and_insert now src n r =
    let '(hit, w) := seen_and_insert tt now n (window_of r src) in
    (hit, upd_nonces (set_in_place src w (outer_touch now src r)) r).
Proof.
  intros Hwf. destruct (get_spec now src (r_nonces r) Hwf) as [Hg _].
  unfold nonce_seen_and_insert, window_of, outer_touch. simpl. unfold get_or_refresh.
  rewrite <-Hg. by destruct (get now src (r_nonces r)) as [[[w st]|] ns].
Qed.

Lemma outer_touch_lookup now src r :
  lru_wf (r_nonces r) →
  is_Some (lookup_value (outer_touch now src r) src) ∧
  (∀ k, k ≠ src → k ∈ keys (m_list (outer_touch now src r)) →
     lookup_value (outer_touch now src r) k = lookup_value (r_nonces r) k).
Proof.
  intros Hwf. unfold outer_touch. simpl. unfold get_or_refresh.
  destruct (get_spec now src (r_nonces r) Hwf) as [Hg1 Hg2].
  pose proof (get_wf now src (r_nonces r) Hwf) as Hwf'.
  destruct (get now src (r_nonces r)) as [[[w st]|] ns]; simpl in *.
  - split; [rewrite Hg2, <-Hg1; eauto|]. auto.
  - set (w0 := new_lru _ _). destruct (put_spec now src w0 ns Hwf') as [Hp1 Hp2].
    split; [rewrite Hp1; eauto|]. intros k Hne Hin. rewrite Hp2, <-Hg2 by done.
    case_bool_decide as Hev; [|done]. exfalso.
    apply node_of_is_Some in Hin as [e He]. specialize (Hp2 k Hne).
    unfold lookup_value in Hp2 at 1. rewrite He in Hp2. by rewrite bool_decide_eq_true_2 in Hp2.
Qed.

(** Following one source through other touches. *)
Record tracked (src : bytes) (T : gset bytes) (w : NonceWindow) (r : Router) : Prop := {
  tr_wf : lru_wf (r_nonces r);
  tr_fresh : fresh_within src T (r_nonces r);
  tr_window : lookup_value (r_nonces r) src = Some w;
}.

Lemma tracked_step src T w r now s' n :
  tracked src T w r → (size ({[ s' ]} ∪ T) < m_capacity (r_nonces r))%nat →
  tracked src ({[ s' ]} ∪ T)
    (if bool_decide (s' = src) then (seen_and_insert tt now n w).2 else w)
    (nonce_touch r (now, s', n)) ∧
  m_capacity (r_nonces (nonce_touch r (now, s', n))) = m_capacity (r_nonces r).
Proof.
  intros [Hwf Hf Hw] Hsz. unfold nonce_touch. rewrite nonce_touch_eq by done.
  destruct (seen_and_insert tt now n (window_of r s')) as [hit w'] eqn:E. simpl.
  destruct (outer_touch_lookup now s' r Hwf) as [Hself Hother].
  set (v0 := new_lru (nonce_capacity (r_options r)) (r_window r) : NonceWindow).
  destruct (touch_fresh src T (LRefresh now s' v0) s' (r_nonces r) Hwf eq_refl Hf Hsz) as [Hf' Hcap].
  change (lru_step (LRefresh now s' v0) (r_nonces r)) with (outer_touch now s' r) in *.
  assert (lru_wf (outer_touch now s' r)) as Hwf' by by apply lru_step_wf.
  split; [|done]. split; simpl; [by apply set_in_place_wf|by apply fresh_in_place|].
  rewrite set_in_place_lookup. case_bool_decide as Hs.
  - subst s'. rewrite bool_decide_eq_true_2 by done. unfold window_of in E. rewrite Hw in E. simpl in E.
    rewrite E. simpl. by destruct Hself as [x ->].
  - rewrite bool_decide_eq_false_2 by congruence. rewrite Hother; [done|congruence|].
    by eapply fresh_within_mem.
Qed.

(** The nonces of one source in a sequence of touches, and all the sources. *)
Definition touches_of (src : bytes) (ts : list (Z * bytes * Z)) : list (Z * Z) :=
  omap (λ t, if bool_decide (t.1.2 = src) then Some (t.1.1, t.2) else None) ts.

Definition sources (ts : list (Z * bytes * Z)) : gset bytes := list_to_set ((λ t, t.1.2) <$> ts).

Lemma tracked_run src ts T w r :
  tracked src T w r → (size (sources ts ∪ T) < m_capacity (r_nonces r))%nat →
  tracked src (sources ts ∪ T) (foldl (λ w p, (seen_and_insert tt p.1 p.2 w).2) w (touches_of src ts))
    (foldl nonce_touch r ts).
Proof.
  revert T w r. induction ts as [|[[now s'] n] ts IH]; intros T w r Htr Hsz.
  { assert (sources [] ∪ T = T) as -> by (unfold sources; cbn; set_solver). done. }
  assert (sources ((now, s', n) :: ts) ∪ T = sources ts ∪ ({[ s' ]} ∪ T)) as Hset.
  { unfold sources. cbn. set_solver. }
  rewrite Hset in *.
  destruct (tracked_step src T w r now s' n Htr) as [Htr' Hcap].
  { eapply Nat.le_lt_trans; [apply subseteq_size|exact Hsz]. set_solver. }
  apply IH in Htr'; [|by rewrite Hcap]. cbn [foldl touches_of omap list_omap fst snd].
  by case_bool_decide.
Qed.

(** Every stored window is a well-formed window of the configured size. *)
Definition nonces_ok (r : Router) : Prop :=
  lru_wf (r_nonces r) ∧
  ∀ k w, lookup_value (r_nonces r) k = Some w → lru_wf w ∧ m_capacity w = nonce_capacity (r_options r).

Lemma window_of_ok r src :
  (0 < nonce_capacity (r_options r))%nat → nonces_ok r →
  lru_wf (window_of r src) ∧ m_capacity (window_of r src) = nonce_capacity (r_options r).
Proof.
  intros Hc [_ Hw]. unfold window_of. destruct (lookup_value (r_nonces r) src) as [w|] eqn:E; simpl.
  - by eapply Hw.
  - split; [apply new_lru_wf|]. unfold new_lru. simpl. by rewrite (proj2 (Nat.ltb_lt _ _)).
Qed.

Lemma nonce_touch_ok r t :
  (0 < nonce_capacity (r_options r))%nat → nonces_ok r →
  nonces_ok (nonce_touch r t) ∧ r_options (nonce_touch r t) = r_options r ∧
  m_capacity (r_nonces (nonce_touch r t)) = m_capacity (r_nonces r).
Proof.
  destruct t as [[now src] n]. intros Hc Hok. pose proof Hok as [Hwf Hws].
  destruct (window_of_ok r src Hc Hok) as [Hw1 Hw2].
  unfold nonce_touch. rewrite nonce_touch_eq by done.
  pose proof (seen_capacity tt now n (window_of r src)) as Hcap.
  pose proof (seen_refresh tt now n (window_of r src)) as Hsr.
  destruct (seen_and_insert tt now n (window_of r src)) as [hit w'] eqn:E. simpl in *.
  destruct (outer_touch_lookup now src r Hwf) as [Hself Hother].
  assert (lru_wf (outer_touch now src r)) as Hwf' by by apply lru_step_wf.
  split; [|split; [done|]].
  - split; simpl; [by apply set_in_place_wf|]. intros k w. rewrite set_in_place_lookup.
    case_bool_decide as Hk.
    + subst k. destruct Hself as [x ->]. simpl. intros [= <-]. rewrite Hcap. split; [|done].
      rewrite Hsr. by apply (lru_step_wf (LRefresh now n tt)).
    + intros Hl. rewrite Hother in Hl; [by eapply Hws|done|].
      apply node_of_is_Some. unfold lookup_value in Hl.
      destruct (node_of k (m_list (outer_touch now src r))); [eauto|done].
  - unfold outer_touch. simpl. unfold get_or_refresh. pose proof (get_capacity now src (r_nonces r)) as Hg.
    destruct (get now src (r_nonces r)) as [[[? ?]|] ns]; simpl in *; [done|by rewrite put_capacity].
Qed.

Lemma nonce_touches_ok ts r :
  (0 < nonce_capacity (r_options r))%nat → nonces_ok r →
  nonces_ok (foldl nonce_touch r ts) ∧ r_options (foldl nonce_touch r ts) = r_options r ∧
  m_capacity (r_nonces (foldl nonce_touch r ts)) = m_capacity (r_nonces r).
Proof.
  revert r. induction ts as [|t ts IH]; intros r Hc Hok; simpl; [done|].
  destruct (nonce_touch_ok r t Hc Hok) as (H1 & H2 & H3).
  destruct (IH (nonce_touch r t)) as (H4 & H5 & H6); [by rewrite H2|done|].
  by rewrite H5, H6.
Qed.

Lemma outer_touch_front now src r : lru_wf (r_nonces r) → fresh_within src ∅ (outer_touch now src r).
Proof.
  intros Hwf. unfold outer_touch. rewrite <-seen_refresh. by apply seen_front.
Qed.

Lemma nonce_log now src n r : r_log (nonce_seen_and_insert now src n r).2 = r_log r.
Proof. unfold nonce_seen_and_insert. by repeat case_match. Qed.

Lemma report_delivers_nothing fr back code r x :
  ODelivered x ∈ r_log (report fr back code r) → ODelivered x ∈ r_log r.
Proof.
  destruct (report_cases fr back code r) as [->|[(_ & ? & -> & _)|[_ ->]]]; try done.
  simpl. rewrite elem_of_app, list_elem_of_singleton. by intros [?|?].
Qed.

Lemma create_nonces node_id o r :
  create node_id o = Some r →
  nonces_ok r ∧ r_options r = o ∧ m_capacity (r_nonces r) = max_tracked_sources o ∧
  (0 < nonce_capacity o)%nat.
Proof.
  unfold create. destruct (_ || _) eqn:Eg; [done|]. intros [= <-]. bool_prop. split_and!; [|done| |lia].
  - split; simpl; [apply new_lru_wf|]. unfold lookup_value. simpl. by intros.
  - simpl. by rewrite (proj2 (Nat.ltb_lt _ _)) by lia.
Qed.

(** Right after a nonce check its source is at the front of the cache. *)
Lemma touched_tracked r now src n :
  nonces_ok r → (0 < nonce_capacity (r_options r))%nat →
  tracked src ∅ (seen_and_insert tt now n (window_of r src)).2 (nonce_touch r (now, src, n)).
Proof.
  intros Hok Hnc. destruct (nonce_touch_ok r (now, src, n) Hnc Hok) as (Hok2 & _ & _).
  split; [apply Hok2| |]; unfold nonce_touch; rewrite nonce_touch_eq by apply Hok;
    destruct (seen_and_insert tt now n (window_of r src)) as [hit w']; simpl.
  - apply fresh_in_place, outer_touch_front, Hok.
  - rewrite set_in_place_lookup, bool_decide_eq_true_2 by done.
    destruct (outer_touch_lookup now src r (proj1 Hok)) as [[x ->] _]. done.
Qed.

(** A nonce stays in its source's window while both caches remember it. *)
Lemma nonce_remembered r1 now src n after :
  nonces_ok r1 → (0 < nonce_capacity (r_options r1))%nat →
  (size (sources after) < m_capacity (r_nonces r1))%nat →
  (size (list_to_set (touches_of src after).*2 : gset Z) < nonce_capacity (r_options r1))%nat →
  let r2 := foldl nonce_touch (nonce_touch r1 (now, src, n)) after in
  lru_wf (r_nonces r2) ∧
  ∃ w, lookup_value (r_nonces r2) src = Some w ∧ lru_wf w ∧ n ∈ keys (m_list w).
Proof.
  intros Hok Hnc Hsrc Hnon r2.
  destruct (nonce_touch_ok r1 (now, src, n) Hnc Hok) as (Hok2 & Ho2 & Hcap2).
  destruct (window_of_ok r1 src Hnc Hok) as [Hw1 Hw2].
  pose proof (touched_tracked r1 now src n Hok Hnc) as Htr.
  apply (tracked_run src after) in Htr; [|by rewrite (right_id_L ∅ (∪)), Hcap2].
  destruct Htr as [Hwf _ Hlook]. fold r2 in Hwf, Hlook. split; [done|]. eexists. split; [exact Hlook|].
  split.
  - destruct (nonce_touches_ok after (nonce_touch r1 (now, src, n))) as ([_ Hall] & _);
      [by rewrite Ho2|done|]. by apply (Hall src).
  - apply (sw_retains (SeenWindow := lru_seen_window tt) now n (window_of r1 src) (touches_of src after));
      [done|]. simpl. by rewrite Hw2.
Qed.

(** Replays inside the windows are rejected.  After any history of nonce
    checks [before], a message of [src] with nonce [n], and a history [after]
    that touches fewer than [max_tracked_sources] sources and, for [src],
    fewer than [nonce_capacity] nonces, a router in that state hands a second
    message of [src] with nonce [n] to no handler, whatever its other
    fields. *)
Theorem replay_not_delivered (node_id : bytes) (o : NodeRouterOptions) (r0 r : Router)
  (before after : list (Z * bytes * Z)) (now n : Z) (src : bytes) (A : option Aead) (fr : Fresh)
  (e : Envelope) (Hc : create node_id o = Some r0)
  (Hr : r_nonces r = r_nonces (foldl nonce_touch r0 (before ++ (now, src, n) :: after)))
  (Hsrc : (size (sources after) < max_tracked_sources o)%nat)
  (Hnon : (size (list_to_set (touches_of src after).*2 : gset Z) < nonce_capacity o)%nat)
  (He : source e = src) (Hn : nonce e = n) :
  ∀ x, ODelivered x ∈ r_log (deliver A fr e r) → ODelivered x ∈ r_log r.
Proof.
  destruct (create_nonces _ _ _ Hc) as (Hok0 & Ho & Hcap0 & Hnc).
  rewrite foldl_app in Hr. cbn [foldl] in Hr.
  destruct (nonce_touches_ok before r0) as (Hok1 & Ho1 & Hcap1); [by rewrite Ho|done|].
  destruct (nonce_remembered (foldl nonce_touch r0 before) now src n after) as (Hwf & w & Hlook & Hw & Hmem);
    [done|by rewrite Ho1, Ho|by rewrite Hcap1, Hcap0|by rewrite Ho1, Ho|].
  rewrite <-Hr in Hwf, Hlook.
  assert ((nonce_seen_and_insert (f_now fr) (source e) (nonce e) r).1 = true) as Hhit.
  { rewrite nonce_touch_eq, He, Hn by done. unfold window_of. rewrite Hlook. simpl.
    pose proof (proj2 (seen_result tt (f_now fr) n w Hw) Hmem) as Hs.
    by destruct (seen_and_insert tt (f_now fr) n w). }
  intros x. unfold deliver. destruct (_ || _); [apply report_delivers_nothing|].
  pose proof (nonce_log (f_now fr) (source e) (nonce e) r) as Hlog.
  destruct (nonce_seen_and_insert _ _ _ _) as [hit r2]. simpl in *. subst hit. rewrite <-Hlog.
  apply report_delivers_nothing.
Qed.

Lemma replay_not_delivered_witness :
  let e := mkEnv 1 data false 0 3 9 1000 42 (s! "x") (s! "a") [] 0 (s! "hi") in
  ∃ r0, create (s! "a") small_options = Some r0 ∧
    let r := set_handlers true true
      (foldl nonce_touch r0 ([(0, s! "y", 9)] ++ (1, s! "x", 9) :: [(2, s! "x", 5); (3, s! "y", 5)])) in
    ∀ x, ODelivered x ∈ r_log (deliver None sample_fresh e r) → ODelivered x ∈ r_log r.
Proof.
  intros e. eexists. split; [reflexivity|]. cbv zeta.
  refine (replay_not_delivered (s! "a") small_options _ _ [(0, s! "y", 9)]
    [(2, s! "x", 5); (3, s! "y", 5)] 1 9 (s! "x") None sample_fresh e eq_refl eq_refl _ _ eq_refl eq_refl).
  all: apply (bool_decide_unpack _); vm_compute; done.
Defined.
