(* ===== verification/LineFolder.v ===== *)
(** * Storing incoming message lines

    Models [include/mail_system/back/algorithm/line_folder.h]: the filter that
    every SMTP DATA byte passes before it is written to disk.  It cuts the
    stream into lines across network chunks, removes the transparency dot and
    folds lines longer than [kMaxStorageLineBytes].

    The folding loop is a [Fixpoint] with fuel; [None] means the loop is still
    running.  The theorems give the fuel that is enough for every line whose
    runs of UTF-8 continuation bytes are short, and show that the loop never
    ends on a long run of them. *)

From S2P Require Import Prelude CString.

Definition kMaxStorageLineBytes : nat := 2048.

(** [(b & 0xC0) == 0x80] *)
Definition is_cont (b : Z) : bool := Z.land b 192 =? 128.

(** The loop of [utf8_boundary], from [cut] downwards. *)
Fixpoint utf8_boundary (line : bytes) (cut : nat) : nat :=
  match cut with
  | O => O
  | S cut' => if is_cont (line !!! cut) then utf8_boundary line cut' else cut
  end.

(** [line.substr(start, count)] with [count] a [size_t]. *)
Definition substr (line : bytes) (start : nat) (count : Z) : bytes :=
  slice line start (Z.to_nat (Z.min (to_u64 count) (Z.of_nat (length line - start)))).

Definition FOLD : bytes := CRLF ++ [SP].

Definition budget_of (first : bool) : nat :=
  if first then kMaxStorageLineBytes else (kMaxStorageLineBytes - 1)%nat.

(** One round: where the next segment ends. *)
Definition cut_of (line : bytes) (start : nat) (first : bool) : nat :=
  let cut := utf8_boundary line (start + budget_of first) in
  if (cut =? start)%nat then (start + budget_of first)%nat else cut.

Fixpoint append_folded (fuel : nat) (out line : bytes) (start : nat) (first : bool) : option bytes :=
  if (budget_of first <? length line - start)%nat then
    match fuel with
    | O => None
    | S fuel =>
        let cut := cut_of line start first in
        append_folded fuel (out ++ substr line start (Z.of_nat cut - Z.of_nat start) ++ FOLD) line cut false
    end
  else Some (out ++ drop start line).

Definition unstuff_dot (line : bytes) : bytes :=
  match line with
  | 46 :: line => line
  | _ => line
  end.

(** A line as it is stored. *)
Definition stored_line (fuel : nat) (line : bytes) : option bytes :=
  append_folded fuel [] (unstuff_dot line) 0 true.

(** The loop of [feed]; the first argument bounds the number of lines. *)
Fixpoint feed_loop (n fuel : nat) (carry out : bytes) : option (bytes * bytes) :=
  match find_sub CRLF carry with
  | None => Some (out, carry)
  | Some nl =>
      match n with
      | O => None
      | S n =>
          line ← stored_line fuel (take nl carry);
          feed_loop n fuel (drop (nl + 2) carry) (out ++ line ++ CRLF)
      end
  end.

(** The output of a chunk and the carried half line. *)
Definition feed (fuel : nat) (carry data : bytes) : option (bytes * bytes) :=
  feed_loop (length (carry ++ data)) fuel (carry ++ data) [].

Definition flush (fuel : nat) (carry : bytes) : option bytes :=
  match carry with
  | [] => Some []
  | _ => stored_line fuel carry
  end.

(** A whole DATA section: chunks, then [flush]. *)
Fixpoint feed_all (fuel : nat) (carry : bytes) (chunks : list bytes) : option bytes :=
  match chunks with
  | [] => flush fuel carry
  | c :: chunks =>
      '(out, carry) ← feed fuel carry c;
      rest ← feed_all fuel carry chunks;
      Some (out ++ rest)
  end.

(** ** Chunk boundaries do not matter *)

Lemma find_crlf_app s t nl : find_sub CRLF s = Some nl → find_sub CRLF (s ++ t) = Some nl.
Proof.
  revert nl. induction s as [|b s IH]; intros nl H; [done|].
  cbn [find_sub app] in *. destruct (starts_with CRLF (b :: s)) eqn:E.
  - injection H as <-. apply starts_with_spec in E as [u Hu].
    rewrite app_comm_cons, Hu, <-app_assoc, starts_with_app. done.
  - destruct (find_sub CRLF s) as [k|] eqn:Ek; [|done]. simpl in H. injection H as <-.
    assert (starts_with CRLF (b :: s ++ t) = false) as ->.
    { apply not_true_iff_false. intros Hs. apply starts_with_spec in Hs as [u Hu].
      destruct s as [|b' s]; [done|].
      simpl in Hu. unfold CRLF in Hu. injection Hu as -> -> Hu.
      assert (starts_with CRLF (CR :: LF :: s) = true) as Ht by (apply starts_with_spec; by exists s).
      congruence. }
    by rewrite (IH k).
Qed.

(** The pure splitting the loop performs: complete lines and the rest. *)
Fixpoint split_lines (n : nat) (s : bytes) : list bytes * bytes :=
  match n, find_sub CRLF s with
  | S n, Some nl =>
      let '(ls, r) := split_lines n (drop (nl + 2) s) in (take nl s :: ls, r)
  | _, _ => ([], s)
  end.

Lemma find_crlf_length s nl : find_sub CRLF s = Some nl → (nl + 2 ≤ length s)%nat.
Proof.
  intros (t & Ht & Hle)%find_sub_Some. apply (f_equal length) in Ht.
  rewrite length_drop in Ht. simpl in Ht. lia.
Qed.

Lemma split_lines_enough n m s :
  (length s ≤ n)%nat → (length s ≤ m)%nat → split_lines n s = split_lines m s.
Proof.
  revert m s. induction n as [|n IH]; intros m s Hn Hm.
  - destruct s; [|simpl in *; lia]. by destruct m.
  - destruct m as [|m]; [destruct s; [done|simpl in *; lia]|]. cbn [split_lines].
    destruct (find_sub CRLF s) as [nl|] eqn:E; [|done].
    pose proof (find_crlf_length _ _ E). by rewrite (IH m) by (rewrite length_drop; lia).
Qed.

Definition lines_of (s : bytes) : list bytes * bytes := split_lines (length s) s.

Lemma lines_of_eq s :
  lines_of s = match find_sub CRLF s with
               | Some nl => let '(ls, r) := lines_of (drop (nl + 2) s) in (take nl s :: ls, r)
               | None => ([], s)
               end.
Proof.
  unfold lines_of. destruct (find_sub CRLF s) as [nl|] eqn:E.
  - pose proof (find_crlf_length _ _ E). destruct (length s) as [|n] eqn:El; [lia|].
    cbn [split_lines]. rewrite E, length_drop.
    by rewrite (split_lines_enough n (length s - (nl + 2))) by (rewrite length_drop; lia).
  - destruct (length s); cbn [split_lines]; by rewrite ?E.
Qed.

Lemma lines_of_app a b :
  lines_of (a ++ b) =
    let '(ls, r) := lines_of a in let '(ls', r') := lines_of (r ++ b) in (ls ++ ls', r').
Proof.
  remember (length a) as n eqn:Hn. revert a Hn. induction (lt_wf n) as [n _ IH]. intros a ->.
  rewrite (lines_of_eq a). destruct (find_sub CRLF a) as [nl|] eqn:E.
  - pose proof (find_crlf_length _ _ E) as Hl.
    rewrite lines_of_eq, (find_crlf_app _ _ _ E).
    rewrite drop_app_le, take_app_le by lia.
    rewrite (IH (length (drop (nl + 2) a))) by (rewrite ?length_drop; lia || done).
    destruct (lines_of (drop (nl + 2) a)) as [ls r]. by destruct (lines_of (r ++ b)) as [ls' r'].
  - by destruct (lines_of (a ++ b)).
Qed.

(** Text of complete lines, folded. *)
Fixpoint store_lines (fuel : nat) (ls : list bytes) : option bytes :=
  match ls with
  | [] => Some []
  | l :: ls => x ← stored_line fuel l; y ← store_lines fuel ls; Some (x ++ CRLF ++ y)
  end.

Lemma store_lines_app fuel l1 l2 :
  store_lines fuel (l1 ++ l2) = (x ← store_lines fuel l1; y ← store_lines fuel l2; Some (x ++ y)).
Proof.
  induction l1 as [|l l1 IH]; simpl; [by destruct (store_lines fuel l2)|].
  destruct (stored_line fuel l) as [x|]; simpl; [|done]. rewrite IH.
  destruct (store_lines fuel l1) as [y|]; simpl; [|done].
  destruct (store_lines fuel l2) as [z|]; simpl; [|done]. by rewrite <-!app_assoc.
Qed.

Lemma feed_loop_eq n fuel s out :
  (length s ≤ n)%nat →
  feed_loop n fuel s out =
    (x ← store_lines fuel (lines_of s).1; Some (out ++ x, (lines_of s).2)).
Proof.
  revert s out. induction n as [|n IH]; intros s out Hn; rewrite lines_of_eq; cbn [feed_loop].
  - destruct s; [|simpl in *; lia]. simpl. by rewrite app_nil_r.
  - destruct (find_sub CRLF s) as [nl|] eqn:E; [|simpl; by rewrite app_nil_r].
    pose proof (find_crlf_length _ _ E).
    destruct (stored_line fuel (take nl s)) as [l|] eqn:El; simpl.
    + rewrite IH by (rewrite length_drop; lia).
      destruct (lines_of (drop (nl + 2) s)) as [ls r]. simpl. rewrite El. simpl.
      destruct (store_lines fuel ls); simpl; [|done]. by rewrite <-!app_assoc.
    + destruct (lines_of (drop (nl + 2) s)) as [ls r]. simpl. by rewrite El.
Qed.

Lemma feed_eq fuel carry data :
  feed fuel carry data =
    (x ← store_lines fuel (lines_of (carry ++ data)).1; Some (x, (lines_of (carry ++ data)).2)).
Proof. unfold feed. by rewrite feed_loop_eq. Qed.

(** What is stored for a complete text. *)
Definition stored_text (fuel : nat) (s : bytes) : option bytes :=
  x ← store_lines fuel (lines_of s).1; y ← flush fuel (lines_of s).2; Some (x ++ y).

Lemma feed_all_carry fuel carry chunks :
  (lines_of carry).1 = [] →
  feed_all fuel carry chunks = stored_text fuel (carry ++ concat chunks).
Proof.
  revert carry. induction chunks as [|c chunks IH]; intros carry Hc; cbn [feed_all concat].
  - rewrite app_nil_r. unfold stored_text. rewrite Hc. simpl.
    assert ((lines_of carry).2 = carry) as ->.
    { rewrite lines_of_eq in Hc |- *. destruct (find_sub CRLF carry); [|done].
      by destruct (lines_of _). }
    by destruct (flush fuel carry).
  - rewrite feed_eq. unfold stored_text. rewrite app_assoc, (lines_of_app (carry ++ c)).
    destruct (lines_of (carry ++ c)) as [ls r] eqn:El. simpl.
    assert ((lines_of r).1 = []) as Hr.
    { pose proof (lines_of_app (carry ++ c) []) as Ha. rewrite !app_nil_r, El in Ha.
      rewrite app_nil_r in Ha. destruct (lines_of r) as [ls' r'] eqn:Elr. injection Ha as Ha _.
      apply (f_equal length) in Ha. rewrite length_app in Ha. destruct ls'; [done|simpl in Ha; lia]. }
    destruct (store_lines fuel ls) as [x|] eqn:Es; simpl.
    + rewrite IH by done. unfold stored_text. destruct (lines_of (r ++ concat chunks)) as [ls2 r2]. simpl.
      rewrite store_lines_app, Es. simpl.
      destruct (store_lines fuel ls2); simpl; [|done]. destruct (flush fuel r2); simpl; [|done].
      by rewrite <-app_assoc.
    + destruct (lines_of (r ++ concat chunks)) as [ls2 r2]. simpl. by rewrite store_lines_app, Es.
Qed.

(** Network chunking is invisible in the stored message: however a DATA
    section is cut into chunks (between any two bytes, inside a CRLF or between
    two dots included), feeding the chunks and flushing stores the same bytes
    as feeding the whole section at once. *)
Theorem chunking_irrelevant (fuel : nat) (chunks : list bytes) :
  feed_all fuel [] chunks = feed_all fuel [] [concat chunks].
Proof. rewrite !feed_all_carry by done. simpl. by rewrite app_nil_r. Qed.

(** ** Folding *)

(** No run of more than three continuation bytes, as in UTF-8 text: among any
    four consecutive bytes one is not a continuation byte. *)
Definition short_runs (line : bytes) : Prop :=
  ∀ i, (i + 3 < length line)%nat → ∃ j, (j ≤ 3)%nat ∧ is_cont (line !!! (i + j)%nat) = false.

Lemma utf8_boundary_le line cut : (utf8_boundary line cut ≤ cut)%nat.
Proof. induction cut as [|c IH]; simpl; [lia|]. destruct (is_cont _); lia. Qed.

(** The boundary is at most as far back as some non-continuation byte. *)
Lemma utf8_boundary_ge line cut k :
  (k ≤ cut)%nat → is_cont (line !!! k) = false → (k ≤ utf8_boundary line cut)%nat.
Proof.
  induction cut as [|c IH]; intros Hk Hc; simpl; [lia|].
  destruct (is_cont (line !!! S c)) eqn:E; [|lia].
  destruct (decide (k = S c)) as [->|]; [congruence|]. apply IH; [lia|done].
Qed.

Lemma cut_of_spec line start first :
  short_runs line → (budget_of first < length line - start)%nat →
  (start + budget_of first - 3 ≤ cut_of line start first ≤ start + budget_of first)%nat.
Proof.
  intros Hs Hb. unfold cut_of. set (h := (start + budget_of first)%nat).
  assert (3 < budget_of first)%nat as Hb3 by (unfold budget_of, kMaxStorageLineBytes; destruct first; lia).
  destruct (Hs (h - 3)%nat) as (j & Hj & Hc); [subst h; lia|].
  pose proof (utf8_boundary_le line h). pose proof (utf8_boundary_ge line h (h - 3 + j)%nat ltac:(lia) Hc).
  destruct (_ =? _)%nat eqn:E; bool_prop; subst h; lia.
Qed.

Lemma substr_forward line start cut :
  (start ≤ cut ≤ length line)%nat → Z.of_nat (length line) < 2 ^ 64 →
  substr line start (Z.of_nat cut - Z.of_nat start) = slice line start (cut - start).
Proof.
  intros Hc Hl. unfold substr. rewrite to_u64_id by (unfold u64_ok; lia). f_equal. lia.
Qed.

(** The stored form of a line cut into segments. *)
Fixpoint join_segments (segs : list bytes) : bytes :=
  match segs with
  | [] => []
  | [s] => s
  | s :: segs => s ++ FOLD ++ join_segments segs
  end.

(** The segments: the first within the limit, the others leaving room for the
    folding space. *)
Definition segments_ok (first : bool) (segs : list bytes) : Prop :=
  match segs with
  | [] => False
  | s :: segs => (length s ≤ budget_of first)%nat ∧
                 Forall (λ s : bytes, (length s ≤ budget_of false)%nat) segs
  end.

Lemma append_folded_spec fuel out line start first :
  short_runs line → Z.of_nat (length line) < 2 ^ 64 →
  (length line - start ≤ fuel)%nat → (start ≤ length line)%nat →
  ∃ segs, append_folded fuel out line start first = Some (out ++ join_segments segs) ∧
    concat segs = drop start line ∧ segments_ok first segs.
Proof.
  intros Hs Hl. revert out start first. induction fuel as [|fuel IH]; intros out start first Hf Hst;
    cbn [append_folded].
  { rewrite (proj2 (Nat.ltb_ge _ _)) by lia. exists [drop start line]. simpl.
    rewrite app_nil_r. split_and!; [done|done| |constructor]. rewrite length_drop. lia. }
  destruct (budget_of first <? length line - start)%nat eqn:E; bool_prop.
  2: { exists [drop start line]. simpl. rewrite app_nil_r. split_and!; [done|done| |constructor].
       rewrite length_drop. lia. }
  pose proof (cut_of_spec line start first Hs E) as Hcut.
  set (cut := cut_of line start first) in *. clearbody cut.
  assert (3 < budget_of first)%nat as Hb3 by (unfold budget_of, kMaxStorageLineBytes; destruct first; lia).
  destruct (IH (out ++ substr line start (Z.of_nat cut - Z.of_nat start) ++ FOLD) cut false)
    as (segs & Hr & Hc & Hok); [lia|lia|].
  exists (slice line start (cut - start) :: segs).
  rewrite Hr, substr_forward by lia. destruct segs as [|s segs]; [done|].
  split_and!.
  - cbn [join_segments]. by rewrite <-!app_assoc.
  - cbn [concat]. change (s ++ concat segs) with (concat (s :: segs)). rewrite Hc. unfold slice.
    rewrite <-(take_drop (cut - start) (drop start line)) at 2. rewrite drop_drop. do 2 f_equal. lia.
  - destruct Hok. split; [rewrite length_slice; lia|by constructor].
Qed.

(** Folding terminates, bounds every stored line and loses nothing, for
    every line without runs of more than three continuation bytes (all valid
    UTF-8, all ASCII): with one round of fuel per byte the loop returns, the
    stored text is the line cut into consecutive segments joined by
    CRLF-space, and no stored line is longer than [kMaxStorageLineBytes],
    the folding space included. *)
Theorem folding_bounded (line : bytes) (fuel : nat)
  (Hruns : short_runs line) (Hlen : Z.of_nat (length line) < 2 ^ 64) (Hfuel : (length line ≤ fuel)%nat) :
  ∃ seg segs, append_folded fuel [] line 0 true = Some (join_segments (seg :: segs)) ∧
    concat (seg :: segs) = line ∧ (length seg ≤ kMaxStorageLineBytes)%nat ∧
    Forall (λ s : bytes, length (SP :: s) ≤ kMaxStorageLineBytes)%nat segs.
Proof.
  destruct (append_folded_spec fuel [] line 0 true) as (segs & Hr & Hc & Hok); [done|done|lia|lia|].
  destruct segs as [|seg segs]; [done|]. destruct Hok as [H1 H2]. exists seg, segs.
  split_and!; [done|done|done|]. eapply List.Forall_impl; [|exact H2]. simpl.
  unfold kMaxStorageLineBytes. intros. lia.
Qed.

Lemma folding_bounded_witness :
  ∃ seg segs, append_folded 5000 [] (replicate 5000 65) 0 true = Some (join_segments (seg :: segs)) ∧
    concat (seg :: segs) = replicate 5000 65 ∧ (length seg ≤ kMaxStorageLineBytes)%nat.
Proof.
  destruct (folding_bounded (replicate 5000 65) 5000) as (seg & segs & H1 & H2 & H3 & _).
  - intros i Hi. exists 0%nat. split; [lia|]. rewrite lookup_total_replicate_2; [done|].
    rewrite length_replicate in Hi. lia.
  - rewrite length_replicate. lia.
  - rewrite length_replicate. lia.
  - exists seg, segs. split; [exact H1|]. split; [exact H2|exact H3].
Defined.

(** ** A line of continuation bytes *)

Lemma utf8_boundary_all_cont n cut :
  (cut < n)%nat → utf8_boundary (replicate n 128) cut = 0%nat.
Proof.
  induction cut as [|c IH]; intros Hc; [done|]. cbn [utf8_boundary].
  rewrite lookup_total_replicate_2 by lia. apply IH. lia.
Qed.

Lemma all_cont_loops fuel n out :
  (4096 ≤ n)%nat →
  append_folded fuel out (replicate n 128) 0 false = None ∧
  append_folded fuel out (replicate n 128) 2047 false = None.
Proof.
  intros Hn. revert out. induction fuel as [|fuel IH]; intros out;
    cbn [append_folded]; rewrite length_replicate, !(proj2 (Nat.ltb_lt _ _))
      by (unfold budget_of, kMaxStorageLineBytes; lia).
  { done. }
  assert (cut_of (replicate n 128) 0 false = 2047%nat) as ->.
  { unfold cut_of, budget_of, kMaxStorageLineBytes.
    rewrite utf8_boundary_all_cont by lia. done. }
  assert (cut_of (replicate n 128) 2047 false = 0%nat) as ->.
  { unfold cut_of, budget_of, kMaxStorageLineBytes.
    rewrite utf8_boundary_all_cont by lia. done. }
  split; apply IH.
Qed.

(** The backward search for a character boundary is not limited to three
    bytes and can move behind the segment's start: on every line of 4096 or
    more continuation bytes the folding loop returns to the start of the line
    again and again and never ends, whatever fuel it is given. *)
Theorem folding_diverges (n fuel : nat) (Hn : (4096 ≤ n)%nat) :
  append_folded fuel [] (replicate n 128) 0 true = None.
Proof.
  assert (∀ f out, append_folded f out (replicate n 128) 2048 false = None) as Hsecond.
  { intros [|f] out; cbn [append_folded]; rewrite length_replicate, (proj2 (Nat.ltb_lt _ _))
      by (unfold budget_of, kMaxStorageLineBytes; lia); [done|].
    unfold cut_of, budget_of, kMaxStorageLineBytes. rewrite utf8_boundary_all_cont by lia.
    by apply all_cont_loops. }
  destruct fuel as [|f]; cbn [append_folded]; rewrite length_replicate, (proj2 (Nat.ltb_lt _ _))
    by (unfold budget_of, kMaxStorageLineBytes; lia); [done|].
  unfold cut_of, budget_of, kMaxStorageLineBytes. rewrite utf8_boundary_all_cont by lia. apply Hsecond.
Qed.

Lemma folding_diverges_witness : append_folded 9 [] (replicate 4096 128) 0 true = None.
Proof. apply (folding_diverges 4096 9). lia. Defined.
