(* ===== verification/Snowflake.v ===== *)
(** * Message ids

    Models [src/mail_system/back/algorithm/snow.cpp].  The system clock is the
    sequence of readings the calls take, oldest first; a call that is still
    waiting for a later millisecond when the readings run out has not
    returned. *)

From Stdlib Require Import Sorted.
From S2P Require Import Prelude.

Definition TWEPOCH : Z := 1288834974657.
Definition WORKER_ID_BITS : Z := 5.
Definition DATACENTER_ID_BITS : Z := 5.
Definition SEQUENCE_BITS : Z := 12.
Definition MAX_WORKER_ID : Z := (1 ≪ WORKER_ID_BITS) - 1.
Definition MAX_DATACENTER_ID : Z := (1 ≪ DATACENTER_ID_BITS) - 1.
Definition WORKER_ID_SHIFT : Z := SEQUENCE_BITS.
Definition DATACENTER_ID_SHIFT : Z := SEQUENCE_BITS + WORKER_ID_BITS.
Definition TIMESTAMP_LEFT_SHIFT : Z := SEQUENCE_BITS + WORKER_ID_BITS + DATACENTER_ID_BITS.
Definition SEQUENCE_MASK : Z := (1 ≪ SEQUENCE_BITS) - 1.

Record SnowflakeGenerator := mkGen {
  m_last_timestamp : Z;
  m_sequence : Z;
  m_worker_id : Z;
  m_datacenter_id : Z;
  m_generated_count : Z;
}.

(** [None]: [invalid_argument]. *)
Definition new_generator (worker_id datacenter_id : Z) : option SnowflakeGenerator :=
  if worker_id >? MAX_WORKER_ID then None else
  if datacenter_id >? MAX_DATACENTER_ID then None else
  Some (mkGen (-1) 0 (Z.land worker_id MAX_WORKER_ID) (Z.land datacenter_id MAX_DATACENTER_ID) 0).

Fixpoint til_next_millis (last_timestamp : Z) (clock : list Z) : option (Z * list Z) :=
  match clock with
  | [] => None
  | t :: clock => if t <=? last_timestamp then til_next_millis last_timestamp clock else Some (t, clock)
  end.

Definition make_id (timestamp seq : Z) (g : SnowflakeGenerator) : Z :=
  Z.lor (Z.lor (Z.lor ((timestamp - TWEPOCH) ≪ TIMESTAMP_LEFT_SHIFT)
    (m_datacenter_id g ≪ DATACENTER_ID_SHIFT)) (m_worker_id g ≪ WORKER_ID_SHIFT)) seq.

Inductive IdResult :=
  | Id (id : Z)
  | ClockMovedBackwards.      (* [runtime_error] *)

(** The result, the generator afterwards and the readings left; [None] while
    the call waits. *)
Definition next_id (g : SnowflakeGenerator) (clock : list Z)
  : option (IdResult * SnowflakeGenerator * list Z) :=
  match clock with
  | [] => None
  | t :: clock =>
      if t <? m_last_timestamp g then Some (ClockMovedBackwards, g, clock) else
      let finish t seq clock :=
        Some (Id (make_id t seq g),
              mkGen t seq (m_worker_id g) (m_datacenter_id g) (to_u64 (m_generated_count g + 1)), clock) in
      if t =? m_last_timestamp g then
        let seq := Z.land (m_sequence g + 1) SEQUENCE_MASK in
        if seq =? 0 then
          '(t, clock) ← til_next_millis (m_last_timestamp g) clock;
          finish t seq clock
        else finish t seq clock
      else finish t 0 clock
  end.

(** The ids of [n] successive calls. *)
Fixpoint ids (n : nat) (g : SnowflakeGenerator) (clock : list Z) : list Z :=
  match n with
  | O => []
  | S n =>
      match next_id g clock with
      | Some (Id i, g, clock) => i :: ids n g clock
      | Some (ClockMovedBackwards, g, clock) => ids n g clock
      | None => []
      end
  end.

(** ** The fields of an id *)

Record gen_ok (g : SnowflakeGenerator) : Prop := {
  go_worker : 0 ≤ m_worker_id g < 32;
  go_datacenter : 0 ≤ m_datacenter_id g < 32;
  go_sequence : 0 ≤ m_sequence g < 4096;
}.

Lemma land_ones_range v k : 0 ≤ k → 0 ≤ Z.land v ((1 ≪ k) - 1) < 2 ^ k.
Proof.
  intros Hk. rewrite Z.shiftl_1_l.
  replace (2 ^ k - 1) with (Z.ones k) by (rewrite Z.ones_equiv; lia).
  rewrite Z.land_ones by done. apply Z.mod_pos_bound. lia.
Qed.

Lemma new_generator_ok w d g : new_generator w d = Some g → gen_ok g ∧ m_last_timestamp g = -1.
Proof.
  unfold new_generator. do 2 (case_match; [done|]). intros [= <-]. split; [|done].
  pose proof (land_ones_range w WORKER_ID_BITS). pose proof (land_ones_range d DATACENTER_ID_BITS).
  unfold MAX_WORKER_ID, MAX_DATACENTER_ID, WORKER_ID_BITS, DATACENTER_ID_BITS in *.
  split; simpl in *; lia.
Qed.

(** The disjoint fields make [|] an addition. *)
Lemma lor_shift_add x y k : 0 ≤ k → 0 ≤ y < 2 ^ k → Z.lor (x ≪ k) y = x * 2 ^ k + y.
Proof.
  intros Hk Hy. rewrite Z.shiftl_mul_pow2 by done.
  rewrite Z.add_nocarry_lxor, Z.lxor_lor; [done|..].
  all: apply Z.bits_inj'; intros i Hi; rewrite Z.land_spec, Z.bits_0.
  all: rewrite <-Z.shiftl_mul_pow2 by done.
  all: destruct (decide (i < k)); [rewrite Z.shiftl_spec_low by lia; done|].
  all: rewrite andb_false_iff; right.
  all: rewrite <-(Z.mod_small y (2 ^ k)) by lia; apply Z.mod_pow2_bits_high; lia.
Qed.

Lemma make_id_eq t seq g :
  gen_ok g → 0 ≤ seq < 4096 →
  make_id t seq g = (t - TWEPOCH) * 2 ^ 22 + m_datacenter_id g * 2 ^ 17 + m_worker_id g * 2 ^ 12 + seq.
Proof.
  intros [Hw Hd _] Hs. unfold make_id, TIMESTAMP_LEFT_SHIFT, DATACENTER_ID_SHIFT, WORKER_ID_SHIFT,
    SEQUENCE_BITS, WORKER_ID_BITS, DATACENTER_ID_BITS.
  change (12 + 5 + 5) with 22. change (12 + 5) with 17.
  rewrite <-!Z.lor_assoc, (lor_shift_add (m_worker_id g)) by lia.
  rewrite (lor_shift_add (m_datacenter_id g)) by lia. rewrite lor_shift_add by lia. lia.
Qed.

(** One successful call: the id encodes the new state, which is later in
    (timestamp, sequence) order. *)
Lemma next_id_spec g clock r g' clock' :
  gen_ok g → next_id g clock = Some (r, g', clock') →
  gen_ok g' ∧ m_worker_id g' = m_worker_id g ∧ m_datacenter_id g' = m_datacenter_id g ∧
  match r with
  | ClockMovedBackwards => g' = g
  | Id i => i = make_id (m_last_timestamp g') (m_sequence g') g' ∧
            (m_last_timestamp g < m_last_timestamp g' ∨
             m_last_timestamp g = m_last_timestamp g' ∧ m_sequence g < m_sequence g')
  end.
Proof.
  intros Hg. pose proof Hg as [Hw Hd Hs]. unfold next_id. destruct clock as [|t clock]; [done|].
  destruct (t <? m_last_timestamp g) eqn:E1; [by intros [= <- <- <-]|].
  destruct (t =? m_last_timestamp g) eqn:E2; bool_prop.
  - pose proof (land_ones_range (m_sequence g + 1) SEQUENCE_BITS ltac:(done)) as Hr.
    fold SEQUENCE_MASK in Hr. unfold SEQUENCE_BITS in Hr.
    destruct (_ =? 0) eqn:E3; bool_prop.
    + destruct (til_next_millis _ _) as [[t' c']|] eqn:Et; [|done]. simpl. intros [= <- <- <-].
      assert (m_last_timestamp g < t') as Hlt.
      { clear -Et. induction clock as [|x clock IH]; [done|]. simpl in Et.
        destruct (x <=? _) eqn:E; bool_prop; [by apply IH|]. simplify_eq. lia. }
      rewrite E3. split_and!; try done; try (split; simpl; lia). simpl. lia.
    + intros [= <- <- <-]. split_and!; try done; try (split; simpl; lia). right. simpl. split; [lia|].
      assert (m_sequence g + 1 < 4096) as Hlt.
      { destruct (decide (m_sequence g + 1 < 4096)) as [|Hge]; [done|]. exfalso.
        assert (m_sequence g + 1 = 4096) as Heq by lia. rewrite Heq in E3. by apply E3. }
      unfold SEQUENCE_MASK, SEQUENCE_BITS. change ((1 ≪ 12) - 1) with (Z.ones 12).
      rewrite Z.land_ones, Z.mod_small by lia. lia.
  - intros [= <- <- <-]. split_and!; try done; try (split; simpl; lia). left. simpl. lia.
Qed.

(** ** Properties *)

Lemma ids_above n g clock i :
  gen_ok g → i ∈ ids n g clock → make_id (m_last_timestamp g) (m_sequence g) g < i.
Proof.
  revert g clock. induction n as [|n IH]; intros g clock Hg; cbn [ids]; [by intros ?%elem_of_nil|].
  destruct (next_id g clock) as [[[r g'] clock']|] eqn:E; [|by intros ?%elem_of_nil].
  apply next_id_spec in E as (Hg' & Hw & Hd & Hr); [|done].
  destruct r as [x|]; [|subst g'; by apply IH]. destruct Hr as [-> Hlt].
  assert (make_id (m_last_timestamp g) (m_sequence g) g <
          make_id (m_last_timestamp g') (m_sequence g') g') as Hnew.
  { rewrite !make_id_eq by (done || by destruct Hg, Hg'). rewrite Hw, Hd.
    destruct Hg, Hg'. lia. }
  intros [->|Hin]%elem_of_cons; [done|]. specialize (IH g' clock' Hg' Hin). lia.
Qed.

(** Ids are strictly increasing: whatever the clock shows (standing still,
    jumping, moving back so that calls fail), the ids one generator hands out
    are strictly increasing, hence never repeated. *)
Theorem ids_increasing (w d : Z) (g : SnowflakeGenerator) (n : nat) (clock : list Z)
  (Hnew : new_generator w d = Some g) : StronglySorted Z.lt (ids n g clock).
Proof.
  apply new_generator_ok in Hnew as [Hg _]. revert g clock Hg.
  induction n as [|n IH]; intros g clock Hg; cbn [ids]; [constructor|].
  destruct (next_id g clock) as [[[r g'] clock']|] eqn:E; [|constructor].
  apply next_id_spec in E as (Hg' & _ & _ & Hr); [|done].
  destruct r as [x|]; [|subst g'; by apply IH]. destruct Hr as [-> _].
  constructor; [by apply IH|]. apply Forall_forall. intros y Hy%list_elem_of_In.
  by eapply ids_above.
Qed.

Definition sample_clock : list Z := [1288834974657; 1288834974657; 1288834974600; 1288834974658].

Lemma ids_increasing_witness :
  ∃ g, new_generator 3 1 = Some g ∧ ids 4 g sample_clock = [143360; 143361; 4337664] ∧
    StronglySorted Z.lt (ids 4 g sample_clock).
Proof.
  eexists. split; [reflexivity|]. split; [vm_compute; reflexivity|].
  apply (ids_increasing 3 1 _ 4 sample_clock). reflexivity.
Defined.

Lemma ids_fields n g clock i :
  gen_ok g → i ∈ ids n g clock →
  (i / 2 ^ 12) mod 32 = m_worker_id g ∧ (i / 2 ^ 17) mod 32 = m_datacenter_id g.
Proof.
  revert g clock. induction n as [|n IH]; intros g clock Hg; cbn [ids]; [by intros ?%elem_of_nil|].
  destruct (next_id g clock) as [[[r g'] clock']|] eqn:E; [|by intros ?%elem_of_nil].
  apply next_id_spec in E as (Hg' & Hw & Hd & Hr); [|done].
  rewrite <-Hw, <-Hd. destruct r as [x|]; [|by apply IH].
  intros [->|Hin]%elem_of_cons; [|by eapply IH]. destruct Hr as [-> _].
  pose proof Hg' as [? ? ?]. rewrite make_id_eq by done. split.
  - replace ((m_last_timestamp g' - TWEPOCH) * 2 ^ 22 + m_datacenter_id g' * 2 ^ 17
      + m_worker_id g' * 2 ^ 12 + m_sequence g')
      with (((m_last_timestamp g' - TWEPOCH) * 2 ^ 10 + m_datacenter_id g' * 32 + m_worker_id g') * 2 ^ 12
            + m_sequence g') by lia.
    rewrite Z.div_add_l, (Z.div_small (m_sequence g')), Z.add_0_r by lia.
    replace ((m_last_timestamp g' - TWEPOCH) * 2 ^ 10 + m_datacenter_id g' * 32 + m_worker_id g')
      with (m_worker_id g' + ((m_last_timestamp g' - TWEPOCH) * 32 + m_datacenter_id g') * 32) by lia.
    rewrite Z.mod_add by lia. by apply Z.mod_small.
  - replace ((m_last_timestamp g' - TWEPOCH) * 2 ^ 22 + m_datacenter_id g' * 2 ^ 17
      + m_worker_id g' * 2 ^ 12 + m_sequence g')
      with (((m_last_timestamp g' - TWEPOCH) * 32 + m_datacenter_id g') * 2 ^ 17
            + (m_worker_id g' * 2 ^ 12 + m_sequence g')) by lia.
    rewrite Z.div_add_l, (Z.div_small (_ * _ + _)), Z.add_0_r by lia.
    rewrite Z.add_comm, Z.mod_add by lia. by apply Z.mod_small.
Qed.

(** Ids of different nodes never collide: two generators with different
    worker or data-centre numbers never hand out the same id, whatever their
    clocks show. *)
Theorem ids_disjoint (w1 d1 w2 d2 : Z) (g1 g2 : SnowflakeGenerator) (n1 n2 : nat)
  (clock1 clock2 : list Z) (i : Z)
  (H1 : new_generator w1 d1 = Some g1) (H2 : new_generator w2 d2 = Some g2)
  (Hw : 0 ≤ w1 ∧ 0 ≤ d1 ∧ 0 ≤ w2 ∧ 0 ≤ d2) (Hne : (w1, d1) ≠ (w2, d2))
  (Hi : i ∈ ids n1 g1 clock1) : i ∉ ids n2 g2 clock2.
Proof.
  intros Hi2. pose proof (new_generator_ok _ _ _ H1) as [G1 _].
  pose proof (new_generator_ok _ _ _ H2) as [G2 _].
  apply (ids_fields _ _ _ _ G1) in Hi as [A1 B1]. apply (ids_fields _ _ _ _ G2) in Hi2 as [A2 B2].
  assert (∀ w d g, 0 ≤ w → 0 ≤ d → new_generator w d = Some g → m_worker_id g = w ∧ m_datacenter_id g = d) as Hf.
  { intros w d g Hw0 Hd0. unfold new_generator. do 2 (case_match; [done|]). bool_prop. intros [= <-]. simpl.
    unfold MAX_WORKER_ID, MAX_DATACENTER_ID, WORKER_ID_BITS, DATACENTER_ID_BITS in *.
    change ((1 ≪ 5) - 1) with 31 in *. change 31 with (Z.ones 5).
    rewrite !Z.land_ones by lia. by rewrite !Z.mod_small by lia. }
  destruct (Hf w1 d1 g1) as [E1 E2]; [lia|lia|done|]. destruct (Hf w2 d2 g2) as [E3 E4]; [lia|lia|done|].
  apply Hne. congruence.
Qed.

Lemma ids_disjoint_witness :
  ∃ g1 g2, new_generator 3 1 = Some g1 ∧ new_generator 4 1 = Some g2 ∧
    143360 ∈ ids 4 g1 sample_clock ∧ 143360 ∉ ids 4 g2 sample_clock.
Proof.
  eexists _, _. split; [reflexivity|]. split; [reflexivity|].
  assert (∀ g, new_generator 3 1 = Some g → 143360 ∈ ids 4 g sample_clock) as Hin.
  { intros g [= <-]. vm_compute. left. }
  split; [by apply Hin|].
  eapply (ids_disjoint 3 1 4 1 _ _ 4 4 sample_clock sample_clock 143360);
    [reflexivity|reflexivity|lia|done|by apply Hin].
Defined.
