(* ===== verification/FsmEngine.v ===== *)
(** * The protocol state machine engine

    Models [include/framework/fsm/fsm_desc.h] (protocol tables),
    [include/framework/fsm/fsm_engine.h] (dispatch, transitions, the settle
    points, error budget, strict guards, [BulkAccumulator]) and the pipeline of
    [include/framework/session_base.tpp] the engine drives
    ([drain_buffered_commands], [do_async_write], [do_async_read], [close]).

    A handler is user code; what it can do to the engine is the list of engine
    calls it makes, computed from the session ([Handler]).  A buffered complete
    command is represented by the event its parsing yields.  Draining nests:
    a handler that settles drains the commands behind it, which dispatch
    further handlers.  [pump] ties that recursion with a fuel that decreases
    with every command taken out of the buffer, so the length of the buffer is
    enough.  [std::abort] of the strict guard check is [None].

    Everything the engine does to the part of a session that matters here
    ([Core]) is a sequence of [pstep]s; the properties are invariants of that
    step relation. *)

From stdpp Require Import relations.
From S2P Require Import Prelude CString.

(** ** Protocol descriptions *)

Section Desc.
Context {State Event : Type} `{!EqDecision State, !EqDecision Event}.

Record GuardRow := mkRow { g_from : State; g_on : Event; g_to : option State }.

Record Desc := mkDesc {
  d_commands : list (bytes * Event);
  d_guards : list GuardRow;
  d_error_reply : bytes;
  d_budget : Z;
  d_greeting : bytes;
  d_internal_error_reply : bytes;
  d_terminals : list State;
  d_format_violation : State → Event → bytes;   (* [] when unset *)
  d_format_missing : State → Event → bytes;
}.

Fixpoint icase_equal (a b : bytes) : bool :=
  match a, b with
  | [], _ => true
  | x :: a, y :: b => (toupper x =? toupper y) && icase_equal a b
  | _ :: _, [] => false     (* not reached: callers compare sizes first *)
  end.

Definition same_word (a b : bytes) : bool := (length a =? length b)%nat && icase_equal a b.

Fixpoint has_conflict (l : list (bytes * Event)) : bool :=
  match l with
  | [] => false
  | e :: l => existsb (λ e', same_word e.1 e'.1) l || has_conflict l
  end.

Definition has_conflicting_command (d : Desc) : bool := has_conflict (d_commands d).

Definition match_command (d : Desc) (word : bytes) : option Event :=
  match word with
  | [] => None
  | _ => snd <$> find (λ e, same_word e.1 word) (d_commands d)
  end.

Definition is_terminal (d : Desc) (s : State) : bool :=
  existsb (λ t, bool_decide (t = s)) (d_terminals d).

(** The first matching row's target. *)
Definition guard_target (d : Desc) (from : State) (on : Event) : option (option State) :=
  g_to <$> find (λ r, bool_decide (g_from r = from) && bool_decide (g_on r = on)) (d_guards d).

(** A declared edge of the table. *)
Definition edge (d : Desc) (from to : State) : bool :=
  existsb (λ r, bool_decide (g_from r = from) && bool_decide (g_to r = Some to)) (d_guards d).
End Desc.

Arguments GuardRow : clear implicits.
Arguments Desc : clear implicits.

(** ** Declared-length accumulation *)

Record BulkAccumulator := mkBulk { bk_expected : nat; bk_sink : bytes; bk_done : bool }.

Definition new_bulk (expected : nat) : BulkAccumulator := mkBulk expected [] false.

(** Whether the declared length is complete, and the bytes pushed back. *)
Definition bulk_feed (data : bytes) (b : BulkAccumulator) : (bool * bytes) * BulkAccumulator :=
  if bk_done b || (length data =? 0)%nat then ((false, []), b) else
  let room := (bk_expected b - length (bk_sink b))%nat in
  let n := if (length data <? room)%nat then length data else room in
  let sink := bk_sink b ++ take n data in
  if (length sink =? bk_expected b)%nat
  then ((true, drop n data), mkBulk (bk_expected b) sink true)
  else ((false, []), mkBulk (bk_expected b) sink (bk_done b)).

(** ** The engine *)

Section Engine.
Context {State Event : Type} `{!EqDecision State, !EqDecision Event}.

(** A pending step armed by [begin_transition]. *)
Record Transition := mkTrans {
  t_target : option State;
  t_reply : option bytes;
  t_event : option Event;
}.

(** A task posted to the connection's executor by [finish]/[fail]. *)
Inductive Task :=
  | TSettle (target : option State) (reply : option bytes) (event : option Event)
  | TClosing (target : option State) (event : option Event)
  | TWrite (data : bytes).

(** What the invariants speak about. *)
Inductive Obs :=
  | OReceived (ev : Event)                  (* a complete command entered the buffer *)
  | ODispatch (ev : Event)                  (* a command was taken and dispatched *)
  | OState (from to : State)                (* [set_current_state] *)
  | OReject                                 (* guard violation or missing handler *)
  | OSettled (id : nat).                    (* the task of a transition ran *)

Record Core := mkCore {
  c_state : State;
  c_buffer : list Event;
  c_armed : list (nat * Transition);
  c_tasks : list (nat * Task);              (* tasks of finished transitions *)
  c_next : nat;
  c_stay : Z;
  c_close_posted : bool;
  c_trace : list Obs;
}.

Record Session := mkSess {
  s_core : Core;
  s_closed : bool;
  s_paused : bool;
  s_pending : bytes;                        (* [pending_write_buf_] *)
  s_wire : list bytes;                      (* writes handed to the connection *)
  s_reading : bool;                         (* a read is armed *)
  s_edges : list (State * Event * State);   (* edge statistics *)
}.

(** The engine calls of a handler. *)
Inductive Action :=
  | AApply (target : State) (reply : option bytes)
  | AApplyClosing (target : State)
  | AReplySettle (text : bytes) (target : State)
  | ABegin (target : option State) (reply : option bytes)
  | AReply (data : bytes)
  | AClose
  | AThrow.

Definition Handler : Type := Session → list Action.

Inductive ReplyKind := r_violation | r_missing | r_internal_error.

Record Engine := mkEngine {
  e_desc : Desc State Event;
  e_handlers : list ((State * Event) * Handler);
  e_strict : bool;
  e_stats : bool;
  e_formatter : ReplyKind → Session → State → Event → bytes;   (* [] when unset *)
  e_auto_continue : bool;                                      (* [auto_continue_read] *)
}.

(** The constructor: [None] is the [logic_error] for shadowed commands. *)
Definition new_engine (d : Desc State Event) (strict stats : bool)
    (fmt : ReplyKind → Session → State → Event → bytes) (cont : bool) : option Engine :=
  if has_conflicting_command d then None else Some (mkEngine d [] strict stats fmt cont).

Definition find_handler (e : Engine) (k : State * Event) : option Handler :=
  snd <$> find (λ h, bool_decide (h.1 = k)) (e_handlers e).

(** [None]: duplicate registration. *)
Definition add_handler (s : State) (ev : Event) (h : Handler) (e : Engine) : option Engine :=
  match find_handler e (s, ev) with
  | Some _ => None
  | None => Some (mkEngine (e_desc e) (e_handlers e ++ [((s, ev), h)]) (e_strict e) (e_stats e)
                    (e_formatter e) (e_auto_continue e))
  end.

(** ** Session primitives *)

Definition upd_core (f : Core → Core) (s : Session) : Session :=
  mkSess (f (s_core s)) (s_closed s) (s_paused s) (s_pending s) (s_wire s) (s_reading s) (s_edges s).
Definition set_paused (b : bool) (s : Session) : Session :=
  mkSess (s_core s) (s_closed s) b (s_pending s) (s_wire s) (s_reading s) (s_edges s).
Definition set_reading (b : bool) (s : Session) : Session :=
  mkSess (s_core s) (s_closed s) (s_paused s) (s_pending s) (s_wire s) b (s_edges s).

Definition set_state (to : State) (c : Core) : Core :=
  mkCore to (c_buffer c) (c_armed c) (c_tasks c) (c_next c) (c_stay c) (c_close_posted c)
    (c_trace c ++ [OState (c_state c) to]).

Definition has_buffered_input (s : Session) : bool :=
  match c_buffer (s_core s) with [] => false | _ => true end.

Definition do_async_read (s : Session) : Session :=
  if s_closed s || has_buffered_input s then s else set_reading true s.

(** Responses are held back while commands are buffered. *)
Definition do_async_write (data : bytes) (s : Session) : Session :=
  if s_closed s then s else
  if has_buffered_input s then
    mkSess (s_core s) (s_closed s) (s_paused s) (s_pending s ++ data) (s_wire s) (s_reading s) (s_edges s)
  else
    mkSess (s_core s) (s_closed s) (s_paused s) [] (s_wire s ++ [s_pending s ++ data]) (s_reading s)
      (s_edges s).

Definition close (s : Session) : Session :=
  if s_closed s then s else
  mkSess (s_core s) true (s_paused s) []
    (match s_pending s with [] => s_wire s | p => s_wire s ++ [p] end) (s_reading s) (s_edges s).

Definition write_reply (text : bytes) (s : Session) : Session :=
  match text with
  | [] => s
  | _ => if s_closed s then s else
         do_async_write (if bool_decide (list.last text = Some LF) then text else text ++ CRLF) s
  end.

Definition count_edge (e : Engine) (from : State) (ev : option Event) (to : State) (s : Session) : Session :=
  match ev with
  | Some ev => if e_stats e
               then mkSess (s_core s) (s_closed s) (s_paused s) (s_pending s) (s_wire s) (s_reading s)
                      (s_edges s ++ [(from, ev, to)])
               else s
  | None => s
  end.

Definition check_strict_guard (e : Engine) (s : Session) (target : State) : bool :=
  negb (e_strict e) || bool_decide (c_state (s_core s) = target)
  || edge (e_desc e) (c_state (s_core s)) target.

(** A state write: strict check, statistics, [set_current_state]. *)
Definition enter (e : Engine) (ev : option Event) (target : State) (s : Session) : option Session :=
  if check_strict_guard e s target
  then Some (upd_core (set_state target) (count_edge e (c_state (s_core s)) ev target s))
  else None.

(** The events the engine attributes edges to, when statistics are on. *)
Definition current_event (e : Engine) (ev : option Event) : option Event :=
  if e_stats e then ev else None.

(** The end of [drain_buffered_commands]: flush what was held back. *)
Definition finish_drain (s : Session) : Session :=
  match s_pending s with
  | [] => s
  | _ => if negb (s_paused s) && negb (s_closed s) && negb (has_buffered_input s)
         then do_async_write [] s else s
  end.

(** ** Settling

    [dr] is the loop of [drain_buffered_commands]. *)
Section Settle.
Context (e : Engine) (dr : Session → option Session).

Definition drain_buffered_commands (s : Session) : option Session :=
  s ← dr (set_paused false s); Some (finish_drain s).

Definition settle (target : option State) (reply : option bytes) (ev : option Event) (s : Session)
  : option Session :=
  if s_closed s then Some s else
  s ← match target with
      | Some to => enter e ev to s
      | None => Some (count_edge e (c_state (s_core s)) ev (c_state (s_core s)) s)
      end;
  let s := set_paused false s in
  let s := match reply with Some r => write_reply r s | None => s end in
  s ← drain_buffered_commands s;
  Some (if s_paused s then s else do_async_read s).

Definition settle_closing (target : option State) (ev : option Event) (s : Session) : option Session :=
  if s_closed s then Some s else
  s ← match target with Some to => enter e ev to s | None => Some s end;
  Some (set_paused false s).

Definition reply_then_settle (text : bytes) (target : State) (ev : option Event) (s : Session)
  : option Session :=
  if s_closed s then Some s else
  if check_strict_guard e s target then
    let s := count_edge e (c_state (s_core s)) ev target s in
    let s := write_reply text s in
    Some (do_async_read (upd_core (set_state target) (set_paused false s)))
  else None.

Definition arm (t : Transition) (c : Core) : Core :=
  mkCore (c_state c) (c_buffer c) (c_armed c ++ [(c_next c, t)]) (c_tasks c) (S (c_next c)) (c_stay c)
    (c_close_posted c) (c_trace c).

Definition begin_transition (target : option State) (reply : option bytes) (ev : option Event)
    (s : Session) : Session :=
  upd_core (arm (mkTrans target reply (current_event e ev))) (set_paused true s).

(** ** Dispatch *)

Definition first_nonempty (l : list bytes) (d : bytes) : bytes :=
  default d (find (λ b, match b with [] => false | _ => true end) l).

Definition violation_reply (st : State) (ev : Event) (s : Session) : bytes :=
  first_nonempty [e_formatter e r_violation s st ev; d_format_violation (e_desc e) st ev]
    (d_error_reply (e_desc e)).
Definition missing_reply (st : State) (ev : Event) (s : Session) : bytes :=
  first_nonempty [e_formatter e r_missing s st ev; d_format_missing (e_desc e) st ev]
    (d_error_reply (e_desc e)).
Definition internal_error_reply (st : State) (ev : Event) (s : Session) : bytes :=
  first_nonempty [e_formatter e r_internal_error s st ev] (d_internal_error_reply (e_desc e)).

(** [bump_error_budget], with the rejection recorded. *)
Definition bump (budget : Z) (closed : bool) (c : Core) : Core :=
  let stay := if budget <=? 0 then c_stay c else c_stay c + 1 in
  mkCore (c_state c) (c_buffer c) (c_armed c) (c_tasks c) (c_next c) stay
    (c_close_posted c || ((0 <? budget) && (budget <=? stay) && negb closed))
    (c_trace c ++ [OReject]).

Definition reject (reply : bytes) (s : Session) : Session :=
  let s := write_reply reply s in
  upd_core (bump (d_budget (e_desc e)) (s_closed s)) s.

(** The calls of a handler, in order; [true] when it threw. *)
Fixpoint run_actions (ev : Event) (acts : list Action) (s : Session) : option (bool * Session) :=
  match acts with
  | [] => Some (false, s)
  | a :: acts =>
      match a with
      | AApply to r => s ← settle (Some to) r (current_event e (Some ev)) s; run_actions ev acts s
      | AApplyClosing to => s ← settle_closing (Some to) (current_event e (Some ev)) s; run_actions ev acts s
      | AReplySettle text to => s ← reply_then_settle text to (current_event e (Some ev)) s;
                                run_actions ev acts s
      | ABegin to r => run_actions ev acts (begin_transition to r (Some ev) s)
      | AReply data => run_actions ev acts (match data with [] => s | _ => do_async_write data s end)
      | AClose => run_actions ev acts (close s)
      | AThrow => Some (true, s)
      end
  end.

Definition dispatch (ev : Event) (s : Session) : option Session :=
  if s_closed s then Some s else
  let st := c_state (s_core s) in
  if is_terminal (e_desc e) st then Some (close s) else
  match guard_target (e_desc e) st ev with
  | None => Some (reject (violation_reply st ev s) s)
  | Some _ =>
      match find_handler e (st, ev) with
      | None => Some (reject (missing_reply st ev s) s)
      | Some h =>
          match run_actions ev (h s) s with
          | Some (threw, s) =>
              Some (if threw : bool then write_reply (internal_error_reply st ev s) s else s)
          | None => None
          end
      end
  end.
End Settle.

(** Taking the next command out of the buffer. *)
Definition pop (ev : Event) (rest : list Event) (c : Core) : Core :=
  mkCore (c_state c) rest (c_armed c) (c_tasks c) (c_next c) (c_stay c) (c_close_posted c)
    (c_trace c ++ [ODispatch ev]).

(** [while (has_buffered_input() && !paused_)]: one command at a time. *)
Fixpoint pump (e : Engine) (fuel : nat) (s : Session) : option Session :=
  match fuel with
  | O => Some s
  | S fuel =>
      match c_buffer (s_core s) with
      | [] => Some s
      | ev :: rest =>
          if s_paused s then Some s else
          s ← dispatch e (pump e fuel) ev (upd_core (pop ev rest) s);
          pump e fuel s
      end
  end.

(** ** Events of a session *)

Inductive Finish :=
  | FOk                                        (* [finish(true)] *)
  | FNotOk                                     (* [finish(false)] *)
  | FTarget (to : State) (reply : option bytes)
  | FFail (reply : bytes)
  | FClosing.

Inductive SessionEvent :=
  | SInput (evs : list Event)                  (* a read completed *)
  | SFinish (id : nat) (f : Finish)
  | STask (i : nat)                            (* the [i]th posted task runs *)
  | SClose
  | SStart (first : State).

(** [finish(State)] and [finish(bool)] differ in what they pass on; only the
    latter carries the captured event. *)
Definition task_of (f : Finish) (t : Transition) : Task :=
  match f with
  | FOk => TSettle (t_target t) (t_reply t) (t_event t)
  | FNotOk => TSettle None None (t_event t)
  | FTarget to reply => TSettle (Some to) reply None
  | FFail reply => TSettle None (Some reply) (t_event t)
  | FClosing => TClosing (t_target t) (t_event t)
  end.

Definition lookup_armed (id : nat) (l : list (nat * Transition)) : option Transition :=
  snd <$> find (λ p, bool_decide (p.1 = id)) l.
Definition remove_armed {B} (id : nat) (l : list (nat * B)) : list (nat * B) := filter (λ p, p.1 ≠ id) l.

Definition release (id : nat) (c : Core) : Core :=
  mkCore (c_state c) (c_buffer c) (remove_armed id (c_armed c)) (c_tasks c) (c_next c) (c_stay c)
    (c_close_posted c) (c_trace c).
Definition post_task (id : nat) (t : Task) (c : Core) : Core :=
  mkCore (c_state c) (c_buffer c) (remove_armed id (c_armed c)) (c_tasks c ++ [(id, t)]) (c_next c)
    (c_stay c) (c_close_posted c) (c_trace c).
Definition take_task (id : nat) (c : Core) : Core :=
  mkCore (c_state c) (c_buffer c) (c_armed c) (remove_armed id (c_tasks c)) (c_next c) (c_stay c)
    (c_close_posted c) (c_trace c ++ [OSettled id]).

(** [Transition::finish] and its variants; a consumed token does nothing. *)
Definition finish (id : nat) (f : Finish) (s : Session) : Session :=
  match lookup_armed id (c_armed (s_core s)) with
  | None => s
  | Some t => if s_closed s then upd_core (release id) s else upd_core (post_task id (task_of f t)) s
  end.

Definition run_task (e : Engine) (id : nat) (t : Task) (s : Session) : option Session :=
  let s := upd_core (take_task id) s in
  if s_closed s then Some s else
  match t with
  | TSettle to r ev => settle e (pump e (length (c_buffer (s_core s)))) to r ev s
  | TClosing to ev => settle_closing e to ev s
  | TWrite data => Some (do_async_write data s)
  end.

Definition receive_events (evs : list Event) (c : Core) : Core :=
  mkCore (c_state c) (c_buffer c ++ evs) (c_armed c) (c_tasks c) (c_next c) (c_stay c) (c_close_posted c)
    (c_trace c ++ (OReceived <$> evs)).

(** A read completed: consume, then read on. *)
Definition on_read (e : Engine) (evs : list Event) (s : Session) : option Session :=
  if s_closed s then Some s else
  let s := upd_core (receive_events evs) (set_reading false s) in
  let dispatched := has_buffered_input s && negb (s_paused s) in
  s ← pump e (length (c_buffer (s_core s))) s;
  Some (if (negb dispatched || e_auto_continue e) && negb (s_paused s) && negb (s_closed s)
        then do_async_read s else s).

Definition start (e : Engine) (first : State) (s : Session) : option Session :=
  if s_closed s then Some s else
  let s := match d_greeting (e_desc e) with [] => s | g => do_async_write g s end in
  settle e (pump e (length (c_buffer (s_core s)))) (Some first) None None s.

Definition session_step (e : Engine) (ev : SessionEvent) (s : Session) : option Session :=
  match ev with
  | SInput evs => on_read e evs s
  | SFinish id f => Some (finish id f s)
  | STask i => match c_tasks (s_core s) !! i with
               | Some (id, t) => run_task e id t s
               | None => Some s
               end
  | SClose => Some (close s)
  | SStart first => start e first s
  end.

Fixpoint session_run (e : Engine) (evs : list SessionEvent) (s : Session) : option Session :=
  match evs with
  | [] => Some s
  | ev :: evs => s ← session_step e ev s; session_run e evs s
  end.

Definition new_session (init : State) : Session :=
  mkSess (mkCore init [] [] [] 0 0 false []) false false [] [] false [].
End Engine.

Arguments Transition : clear implicits.
Arguments Task : clear implicits.
Arguments Obs : clear implicits.
Arguments Core : clear implicits.
Arguments Session : clear implicits.
Arguments Engine : clear implicits.
Arguments Action : clear implicits.
Arguments SessionEvent : clear implicits.

(** ** Steps of the core *)

Section Steps.
Context {State Event : Type} `{!EqDecision State, !EqDecision Event}.
Context (e : Engine State Event) (input : bool).   (* whether reads may complete *)
Implicit Types (c : Core State Event) (s : Session State Event).

(** A state write the engine lets through. *)
Definition allowed (from to : State) : Prop :=
  e_strict e = true → from = to ∨ edge (e_desc e) from to = true.

Inductive pstep : Core State Event → Core State Event → Prop :=
  | ps_receive c evs : input = true → pstep c (receive_events evs c)
  | ps_pop c ev rest : c_buffer c = ev :: rest → pstep c (pop ev rest c)
  | ps_state c to : allowed (c_state c) to → pstep c (set_state to c)
  | ps_arm c t : pstep c (arm t c)
  | ps_reject c : pstep c (bump (d_budget (e_desc e)) false c)
  | ps_release c id : pstep c (release id c)
  | ps_post c id t : id ∈ (c_armed c).*1 → pstep c (post_task id t c)
  | ps_task c id : id ∈ (c_tasks c).*1 → pstep c (take_task id c).

Abbreviation psteps := (rtc pstep).

(** Primitives that leave the core alone. *)
Lemma write_core data s : s_core (do_async_write data s) = s_core s.
Proof. unfold do_async_write. by repeat case_match. Qed.
Lemma read_core s : s_core (do_async_read s) = s_core s.
Proof. unfold do_async_read. by case_match. Qed.
Lemma reply_core text s : s_core (write_reply text s) = s_core s.
Proof. unfold write_reply. repeat case_match; by rewrite ?write_core. Qed.
Lemma close_core s : s_core (close s) = s_core s.
Proof. unfold close. by case_match. Qed.
Lemma edge_core from ev to s : s_core (count_edge e from ev to s) = s_core s.
Proof. unfold count_edge. by repeat case_match. Qed.
Lemma finish_drain_core s : s_core (finish_drain s) = s_core s.
Proof. unfold finish_drain. repeat case_match; by rewrite ?write_core. Qed.

Lemma enter_steps ev to s s' : enter e ev to s = Some s' → psteps (s_core s) (s_core s').
Proof.
  unfold enter. destruct (check_strict_guard e s to) eqn:E; [|done]. intros [= <-].
  cbn [upd_core s_core]. rewrite edge_core. apply rtc_once, ps_state. intros Hs.
  unfold check_strict_guard in E. rewrite Hs in E. simpl in E.
  apply orb_true_iff in E as [E|E]; [left; by apply bool_decide_eq_true in E|by right].
Qed.

(** A session transformer all of whose effects on the core are steps. *)
Definition stepping (f : Session State Event → option (Session State Event)) : Prop :=
  ∀ s s', f s = Some s' → psteps (s_core s) (s_core s').

Section Parametric.
Context (dr : Session State Event → option (Session State Event)) (Hdr : stepping dr).

Lemma settle_steps to r ev : stepping (settle e dr to r ev).
Proof.
  intros s s'. unfold settle. destruct (s_closed s); [by intros [= <-]|].
  set (m := match to with Some _ => _ | None => _ end). destruct m as [s1|] eqn:E1; [|done].
  assert (psteps (s_core s) (s_core s1)) as H1.
  { subst m. destruct to; [by eapply enter_steps|]. injection E1 as <-. by rewrite edge_core. }
  cbn [mbind option_bind]. set (s2 := match r with Some _ => _ | None => _ end).
  assert (s_core s2 = s_core s1) as H2.
  { subst s2. destruct r; [by rewrite reply_core|done]. }
  unfold drain_buffered_commands. destruct (dr (set_paused false s2)) as [s3|] eqn:E3; [|done].
  cbn [mbind option_bind]. apply Hdr in E3. simpl in E3. rewrite H2 in E3.
  intros [= <-]. etrans; [exact H1|]. etrans; [exact E3|].
  case_match; rewrite ?read_core, finish_drain_core; done.
Qed.

Lemma settle_closing_steps to ev : stepping (settle_closing e to ev).
Proof.
  intros s s'. unfold settle_closing. destruct (s_closed s); [by intros [= <-]|].
  destruct to as [to|]; simpl; [|by intros [= <-]].
  destruct (enter e ev to s) as [s1|] eqn:E; [|done]. simpl. intros [= <-].
  apply enter_steps in E. exact E.
Qed.

Lemma reply_then_settle_steps text to ev : stepping (reply_then_settle e text to ev).
Proof.
  intros s s'. unfold reply_then_settle. destruct (s_closed s); [by intros [= <-]|].
  destruct (check_strict_guard e s to) eqn:E; [|done]. intros [= <-].
  rewrite read_core. cbn [upd_core s_core set_paused]. rewrite reply_core, edge_core.
  apply rtc_once, ps_state. intros Hs. unfold check_strict_guard in E. rewrite Hs in E. simpl in E.
  apply orb_true_iff in E as [E|E]; [left; by apply bool_decide_eq_true in E|by right].
Qed.

Lemma run_actions_steps ev acts s b s' :
  run_actions e dr ev acts s = Some (b, s') → psteps (s_core s) (s_core s').
Proof.
  revert s. induction acts as [|a acts IH]; intros s; cbn [run_actions]; [by intros [= <- <-]|].
  assert (∀ f, stepping f → (f s ≫= λ s, run_actions e dr ev acts s) = Some (b, s') →
    psteps (s_core s) (s_core s')) as Hbind.
  { intros f Hf. destruct (f s) as [s1|] eqn:E; [|done]. simpl. intros Hr.
    etrans; [by eapply Hf|by apply IH]. }
  destruct a as [to r|to|text to|to r|data| |].
  - apply (Hbind (settle e dr (Some to) r (current_event e (Some ev)))), settle_steps.
  - apply (Hbind (settle_closing e (Some to) (current_event e (Some ev)))), settle_closing_steps.
  - apply (Hbind (reply_then_settle e text to (current_event e (Some ev)))), reply_then_settle_steps.
  - intros Hr%IH. etrans; [|exact Hr]. apply rtc_once, ps_arm.
  - intros Hr%IH. destruct data; [done|]. by rewrite write_core in Hr.
  - intros Hr%IH. by rewrite close_core in Hr.
  - by intros [= <- <-].
Qed.

Lemma reply_closed text s : s_closed (write_reply text s) = s_closed s.
Proof. unfold write_reply, do_async_write. by repeat case_match. Qed.

Lemma reject_steps reply s :
  s_closed s = false → psteps (s_core s) (s_core (reject e reply s)).
Proof.
  intros Hc. unfold reject. cbn [upd_core s_core].
  rewrite reply_core, reply_closed, Hc. apply rtc_once, ps_reject.
Qed.

Lemma dispatch_steps ev : stepping (dispatch e dr ev).
Proof.
  intros s s'. unfold dispatch. destruct (s_closed s) eqn:Hc; [by intros [= <-]|].
  destruct (is_terminal _ _); [intros [= <-]; by rewrite close_core|].
  destruct (guard_target _ _ _); [|intros [= <-]; by apply reject_steps].
  destruct (find_handler e _) as [h|]; [|intros [= <-]; by apply reject_steps].
  destruct (run_actions e dr ev (h s) s) as [[b s1]|] eqn:E; [|done].
  intros [= <-]. apply run_actions_steps in E. destruct b; by rewrite ?reply_core.
Qed.
End Parametric.

Lemma pump_steps fuel : stepping (pump e fuel).
Proof.
  induction fuel as [|fuel IH]; intros s s'; cbn [pump]; [by intros [= <-]|].
  destruct (c_buffer (s_core s)) as [|ev rest] eqn:Eb; [by intros [= <-]|].
  destruct (s_paused s); [by intros [= <-]|].
  destruct (dispatch e (pump e fuel) ev (upd_core (pop ev rest) s)) as [s1|] eqn:E; [|done].
  simpl. intros Hr. apply (dispatch_steps _ IH) in E. apply IH in Hr. simpl in E.
  eapply rtc_l; [by apply (ps_pop _ ev rest)|]. by etrans.
Qed.

Lemma lookup_armed_elem id l t : lookup_armed (State:=State) (Event:=Event) id l = Some t → id ∈ l.*1.
Proof.
  unfold lookup_armed. destruct (find _ l) as [[i t']|] eqn:E; [|done]. intros _.
  apply find_some in E as [Hin Hb]. apply bool_decide_eq_true in Hb. simpl in Hb. subst i.
  apply list_elem_of_In in Hin. apply list_elem_of_fmap. by exists (id, t').
Qed.

Lemma session_step_steps ev : input = true → stepping (session_step e ev).
Proof.
  intros Hin s s'. destruct ev as [evs|id f|i| |first]; simpl.
  - unfold on_read. destruct (s_closed s); [by intros [= <-]|].
    set (s0 := upd_core (receive_events evs) (set_reading false s)).
    destruct (pump e _ s0) as [s1|] eqn:E; [|done]. simpl. intros [= <-].
    apply pump_steps in E. eapply rtc_l; [by apply (ps_receive _ evs)|].
    case_match; rewrite ?read_core; exact E.
  - intros [= <-]. unfold finish. destruct (lookup_armed id _) as [t|] eqn:E; [|done].
    apply lookup_armed_elem in E. destruct (s_closed s); simpl; apply rtc_once;
      [apply ps_release|by apply ps_post].
  - destruct (c_tasks (s_core s) !! i) as [[id t]|] eqn:E; [|by intros [= <-]].
    assert (pstep (s_core s) (take_task id (s_core s))) as Ht.
    { apply ps_task. apply list_elem_of_lookup_2 in E. apply list_elem_of_fmap. by exists (id, t). }
    unfold run_task. cbn [upd_core s_closed s_core]. destruct (s_closed s).
    { intros [= <-]. by apply rtc_once. }
    intros Hr. eapply rtc_l; [exact Ht|]. destruct t as [to r ev|to ev|data].
    + eapply settle_steps in Hr; [exact Hr|apply pump_steps].
    + apply settle_closing_steps in Hr. exact Hr.
    + injection Hr as <-. by rewrite write_core.
  - intros [= <-]. by rewrite close_core.
  - unfold start. destruct (s_closed s); [by intros [= <-]|].
    set (s0 := match d_greeting _ with [] => s | _ => _ end).
    assert (s_core s0 = s_core s) as H0 by (subst s0; case_match; by rewrite ?write_core).
    intros Hr. eapply settle_steps in Hr; [by rewrite H0 in Hr|apply pump_steps].
Qed.

Lemma session_run_steps evs : input = true → stepping (session_run e evs).
Proof.
  intros Hin. induction evs as [|ev evs IH]; intros s s'; cbn [session_run]; [by intros [= <-]|].
  destruct (session_step e ev s) as [s1|] eqn:E; [|done]. simpl. intros Hr.
  etrans; [by eapply session_step_steps|by apply IH].
Qed.
End Steps.

(** ** Invariants *)

Section Invariants.
Context {State Event : Type} `{!EqDecision State, !EqDecision Event}.
Context (e : Engine State Event).
Implicit Types (c : Core State Event) (s : Session State Event) (tr : list (Obs State Event)).

Definition received tr : list Event := omap (λ o, match o with OReceived ev => Some ev | _ => None end) tr.
Definition dispatched tr : list Event := omap (λ o, match o with ODispatch ev => Some ev | _ => None end) tr.
Definition settled tr : list nat := omap (λ o, match o with OSettled id => Some id | _ => None end) tr.
Definition moves tr : list (State * State) :=
  omap (λ o, match o with OState f t => Some (f, t) | _ => None end) tr.
Definition rejections tr : nat :=
  length (omap (λ o, match o with OReject => Some tt | _ => None end) tr).

(** The transitions not settled yet, and those that were. *)
Definition tokens c : list nat := (c_armed c).*1 ++ (c_tasks c).*1 ++ settled (c_trace c).

Record core_ok c : Prop := {
  co_order : received (c_trace c) = dispatched (c_trace c) ++ c_buffer c;
  co_tokens : NoDup (tokens c);
  co_next : Forall (λ id, (id < c_next c)%nat) (tokens c);
  co_moves : Forall (λ m, allowed e m.1 m.2) (moves (c_trace c));
  co_stay : 0 < d_budget (e_desc e) → c_stay c = Z.of_nat (rejections (c_trace c)) ∧
              (c_close_posted c = true ↔ d_budget (e_desc e) ≤ Z.of_nat (rejections (c_trace c)));
}.

Lemma received_app t1 t2 : received (t1 ++ t2) = received t1 ++ received t2.
Proof. apply omap_app. Qed.
Lemma dispatched_app t1 t2 : dispatched (t1 ++ t2) = dispatched t1 ++ dispatched t2.
Proof. apply omap_app. Qed.
Lemma settled_app t1 t2 : settled (t1 ++ t2) = settled t1 ++ settled t2.
Proof. apply omap_app. Qed.
Lemma moves_app t1 t2 : moves (t1 ++ t2) = moves t1 ++ moves t2.
Proof. apply omap_app. Qed.
Lemma rejections_app t1 t2 : rejections (t1 ++ t2) = (rejections t1 + rejections t2)%nat.
Proof. unfold rejections. by rewrite omap_app, length_app. Qed.

Lemma omap_received {B} (f : Obs State Event → option B) evs :
  (∀ ev, f (OReceived ev) = None) → omap f (OReceived <$> evs) = [].
Proof. intros Hf. induction evs as [|ev evs IH]; [done|]. cbn. by rewrite Hf. Qed.

Lemma received_received evs : received (OReceived <$> evs) = evs.
Proof. induction evs as [|ev evs IH]; [done|]. cbn. by rewrite <-IH at 2. Qed.

Lemma rejections_received evs : rejections (OReceived <$> evs) = 0%nat.
Proof. unfold rejections. by rewrite omap_received. Qed.

Lemma remove_keys {B} id (l : list (nat * B)) : (remove_armed id l).*1 = filter (λ i, i ≠ id) l.*1.
Proof.
  unfold remove_armed. induction l as [|[i b] l IH]; [done|].
  rewrite fmap_cons, !filter_cons. cbn [fst]. case_decide; [rewrite fmap_cons|]; by rewrite IH.
Qed.

(** Moving a token along keeps the tokens duplicate-free. *)
Lemma remove_perm id (l : list nat) : NoDup l → id ∈ l → l ≡ₚ id :: filter (λ i, i ≠ id) l.
Proof.
  intros Hnd Hin. induction l as [|x l IH]; [by apply elem_of_nil in Hin|].
  apply list.NoDup_cons in Hnd as [Hx Hnd]. rewrite filter_cons. case_decide as Hd.
  - apply elem_of_cons in Hin as [->|Hin]; [done|]. rewrite (IH Hnd Hin) at 1. constructor.
  - assert (x = id) as -> by (destruct (decide (x = id)); tauto).
    f_equiv. symmetry. clear -Hx. induction l as [|y l IH]; [done|].
    rewrite not_elem_of_cons in Hx. destruct Hx. rewrite filter_cons_True by congruence.
    f_equiv. by apply IH.
Qed.

Ltac trace_simpl :=
  unfold tokens in *; cbn [c_trace c_buffer c_armed c_tasks c_next c_stay c_close_posted c_state
    receive_events pop set_state arm bump release post_task take_task] in *;
  rewrite ?received_app, ?dispatched_app, ?settled_app, ?moves_app, ?rejections_app;
  cbn [received dispatched settled moves rejections omap list_omap length app];
  rewrite ?app_nil_r, ?Nat.add_0_r; auto.

Lemma pstep_ok input c c' : pstep e input c c' → core_ok c → core_ok c'.
Proof.
  intros Hst [H1 H2 H3 H4 H5].
  destruct Hst as [c evs _|c ev rest Hb|c to Hal|c t|c|c id|c id t Hin|c id Hin].
  - split; trace_simpl.
    + unfold dispatched at 2. rewrite omap_received, app_nil_r, H1, received_received by done.
      by rewrite app_assoc.
    + unfold settled at 2. by rewrite omap_received, app_nil_r.
    + unfold settled at 2. by rewrite omap_received, app_nil_r.
    + unfold moves at 2. by rewrite omap_received, app_nil_r.
    + by rewrite rejections_received, Nat.add_0_r.
  - split; trace_simpl. by rewrite H1, Hb, <-app_assoc.
  - split; trace_simpl. apply Forall_app. split; [done|]. by apply Forall_singleton.
  - split; trace_simpl.
    + rewrite fmap_app, <-app_assoc. cbn.
      eapply (NoDup_Permutation_proper _ (c_next c :: ((c_armed c).*1 ++ (c_tasks c).*1 ++ settled (c_trace c))));
        [solve_Permutation|]. constructor; [|done]. intros Hin.
      rewrite Forall_forall in H3. apply list_elem_of_In, H3 in Hin. lia.
    + rewrite fmap_app. cbn. rewrite !Forall_app in *. rewrite Forall_singleton.
      split_and!; try lia; (eapply List.Forall_impl; [|apply H3]); simpl; lia.
  - split; trace_simpl. intros Hb. destruct (H5 Hb) as [Hs Hp].
    rewrite (proj2 (Z.leb_gt _ _)), (proj2 (Z.ltb_lt _ _)) by done. split; [lia|]. cbn [andb negb].
    rewrite orb_true_iff, andb_true_r, Z.leb_le. rewrite Hp. lia.
  - split; trace_simpl.
    + rewrite remove_keys. eapply sublist_NoDup; [exact H2|]. apply sublist_app; [apply sublist_filter|done].
    + rewrite remove_keys. rewrite !Forall_app in *. split; [|tauto]. apply Forall_filter_keep. tauto.
  - assert (NoDup ((c_armed c).*1)) as Hna by (by apply list.NoDup_app in H2 as (? & _)).
    pose proof (remove_perm id _ Hna Hin) as Hp.
    assert (((c_armed c).*1 ++ (c_tasks c).*1 ++ settled (c_trace c)) ≡ₚ
      ((remove_armed id (c_armed c)).*1 ++ (c_tasks c ++ [(id, t)]).*1 ++ settled (c_trace c))) as Hall.
    { rewrite remove_keys, fmap_app. rewrite Hp at 1. cbn. solve_Permutation. }
    split; trace_simpl; by rewrite <-Hall.
  - assert (NoDup ((c_tasks c).*1)) as Hnt.
    { apply list.NoDup_app in H2 as (_ & _ & H2). by apply list.NoDup_app in H2 as (? & _). }
    pose proof (remove_perm id _ Hnt Hin) as Hp.
    assert (((c_armed c).*1 ++ (c_tasks c).*1 ++ settled (c_trace c)) ≡ₚ
      ((c_armed c).*1 ++ (remove_armed id (c_tasks c)).*1 ++ settled (c_trace c) ++ [id])) as Hall.
    { rewrite remove_keys. rewrite Hp at 1. solve_Permutation. }
    split; trace_simpl; cbn; by rewrite <-Hall.
Qed.

Lemma psteps_ok input c c' : rtc (pstep e input) c c' → core_ok c → core_ok c'.
Proof. induction 1; eauto using pstep_ok. Qed.
End Invariants.

(** ** The loop empties the buffer or stops for a pending transition *)

Section Progress.
Context {State Event : Type} `{!EqDecision State, !EqDecision Event}.
Context (e : Engine State Event).

Lemma psteps_shrink (c c' : Core State Event) :
  rtc (pstep e false) c c' → (length (c_buffer c') ≤ length (c_buffer c))%nat.
Proof.
  induction 1 as [|c1 c2 c3 Hst _ IH]; [done|]. etrans; [exact IH|].
  destruct Hst as [? ? ?|? ? ? Hb| | | | | |]; simpl; try done. rewrite Hb. simpl. lia.
Qed.

Lemma pump_done fuel s s' :
  pump e fuel s = Some s' → (length (c_buffer (s_core s)) ≤ fuel)%nat →
  s_paused s' = true ∨ c_buffer (s_core s') = [].
Proof.
  revert s. induction fuel as [|fuel IH]; intros s; cbn [pump].
  { intros [= <-] Hl. right. by destruct (c_buffer (s_core s)); [|simpl in Hl; lia]. }
  destruct (c_buffer (s_core s)) as [|ev rest] eqn:Eb; [intros [= <-] _; by right|].
  destruct (s_paused s) eqn:Ep; [intros [= <-] _; by left|].
  destruct (dispatch e (pump e fuel) ev (upd_core (pop ev rest) s)) as [s1|] eqn:E; [|done].
  simpl. intros Hr Hl. apply (IH s1 Hr).
  apply (dispatch_steps e false _ (pump_steps e false fuel)), psteps_shrink in E. simpl in E, Hl. lia.
Qed.
End Progress.

(** ** Properties *)

Section Properties.
Context {State Event : Type} `{!EqDecision State, !EqDecision Event}.

Lemma new_session_ok (e : Engine State Event) init :
  core_ok e (s_core (new_session (Event:=Event) init)).
Proof.
  split; [done|apply NoDup_nil_2|apply List.Forall_nil|apply List.Forall_nil|]. cbn. intros.
  split; [done|]. split; [done|lia].
Qed.

Lemma run_ok (e : Engine State Event) evs init s :
  session_run e evs (new_session init) = Some s → core_ok e (s_core s).
Proof.
  intros Hr. apply (session_run_steps e true evs eq_refl) in Hr.
  eapply psteps_ok; [exact Hr|apply new_session_ok].
Qed.
End Properties.

(** Pipelined commands are handled in arrival order, each exactly once.
    Whatever the handlers do (settle, start asynchronous work, reply, throw,
    close) and however reads, transition completions and closes interleave,
    the commands dispatched so far followed by those still buffered are
    exactly the commands received, in order; and when a read has been
    processed the buffer is empty unless the session is closed or paused for
    asynchronous work. *)
Theorem pipeline_in_order {State Event : Type} `{!EqDecision State, !EqDecision Event}
  (e : Engine State Event) (evs : list (SessionEvent State Event)) (input : list Event)
  (init : State) (s s' : Session State Event)
  (Hrun : session_run e evs (new_session init) = Some s)
  (Hread : session_step e (SInput input) s = Some s') :
  received (c_trace (s_core s')) = dispatched (c_trace (s_core s')) ++ c_buffer (s_core s') ∧
  (s_closed s' = true ∨ s_paused s' = true ∨ c_buffer (s_core s') = []).
Proof.
  pose proof (run_ok e evs init s Hrun) as Hok. split.
  - apply (session_step_steps e true _ eq_refl) in Hread. by eapply psteps_ok in Hread as [].
  - simpl in Hread. unfold on_read in Hread. destruct (s_closed s) eqn:Hc; [simplify_eq; by left|].
    destruct (pump _ _ _) as [s1|] eqn:E; [|done]. simpl in Hread. injection Hread as <-.
    apply pump_done in E; [|done]. right.
    destruct (_ && _); [|done]. unfold do_async_read. by destruct (_ || _).
Qed.

(** A two-state protocol: [true] logs in, [false] quits. *)
Definition toy_desc : Desc bool bool :=
  mkDesc [(s! "LOGIN", true); (s! "QUIT", false)]
    [mkRow false true (Some true); mkRow true false (Some false)]
    (s! "-ERR") 2 (s! "hello") (s! "-ERR internal") [] (λ _ _, []) (λ _ _, []).

Definition toy_engine : Engine bool bool :=
  mkEngine toy_desc
    [((false, true), λ _, [ABegin (Some true) (Some (s! "+OK"))]);
     ((true, false), λ _, [AApply false (Some (s! "bye"))])] true true (λ _ _ _ _, []) false.

Lemma pipeline_in_order_witness :
  ∃ s s', session_run toy_engine [SInput [true; false; false]; SFinish 0 FOk; STask 0] (new_session false) = Some s ∧
    session_step toy_engine (SInput [true; true]) s = Some s' ∧
    received (c_trace (s_core s')) = dispatched (c_trace (s_core s')) ++ c_buffer (s_core s') ∧
    c_buffer (s_core s') = [true].
Proof.
  eexists _, _. split; [vm_compute; reflexivity|]. split; [vm_compute; reflexivity|]. split.
  - refine (proj1 (pipeline_in_order toy_engine
      [SInput [true; false; false]; SFinish 0 FOk; STask 0] [true; true] false _ _ _ _)); vm_compute; reflexivity.
  - reflexivity.
Defined.

(** An asynchronous step completes at most once.  Over every history,
    however often and from wherever [finish], [fail] and [finish_closing] are
    called on a transition, its completion task runs at most once, and an
    armed transition, a posted completion and a finished one are never the
    same token. *)
Theorem transition_once {State Event : Type} `{!EqDecision State, !EqDecision Event}
  (e : Engine State Event) (evs : list (SessionEvent State Event)) (init : State)
  (s : Session State Event) (Hrun : session_run e evs (new_session init) = Some s) :
  NoDup ((c_armed (s_core s)).*1 ++ (c_tasks (s_core s)).*1 ++ settled (c_trace (s_core s))).
Proof. by apply run_ok in Hrun as []. Qed.

Lemma transition_once_witness :
  ∃ s, session_run toy_engine [SInput [true]; SFinish 0 FOk; SFinish 0 FNotOk; STask 0; SFinish 0 FOk; STask 0]
         (new_session false) = Some s ∧
    settled (c_trace (s_core s)) = [0%nat] ∧
    NoDup ((c_armed (s_core s)).*1 ++ (c_tasks (s_core s)).*1 ++ settled (c_trace (s_core s))).
Proof.
  eexists. split; [vm_compute; reflexivity|]. split; [reflexivity|].
  refine (transition_once toy_engine
    [SInput [true]; SFinish 0 FOk; SFinish 0 FNotOk; STask 0; SFinish 0 FOk; STask 0] false _ _).
  vm_compute. reflexivity.
Defined.

(** With strict guards a session never leaves the declared protocol: in
    every history that does not abort, each state write goes from the
    session's state to itself or along a row of the guard table, whatever
    targets the handlers pass. *)
Theorem strict_guards_sound {State Event : Type} `{!EqDecision State, !EqDecision Event}
  (e : Engine State Event) (evs : list (SessionEvent State Event)) (init : State)
  (s : Session State Event) (Hstrict : e_strict e = true)
  (Hrun : session_run e evs (new_session init) = Some s) :
  Forall (λ m, m.1 = m.2 ∨ edge (e_desc e) m.1 m.2 = true) (moves (c_trace (s_core s))).
Proof.
  apply run_ok in Hrun as [_ _ _ Hm _]. eapply List.Forall_impl; [|exact Hm].
  intros m Hal. by apply Hal.
Qed.

Lemma strict_guards_sound_witness :
  ∃ s, session_run toy_engine [SInput [true; false]; SFinish 0 FOk; STask 0] (new_session false) = Some s ∧
    moves (c_trace (s_core s)) = [(false, true); (true, false)] ∧
    Forall (λ m, m.1 = m.2 ∨ edge toy_desc m.1 m.2 = true) (moves (c_trace (s_core s))).
Proof.
  eexists. split; [vm_compute; reflexivity|]. split; [reflexivity|].
  refine (strict_guards_sound toy_engine [SInput [true; false]; SFinish 0 FOk; STask 0] false _ eq_refl _).
  vm_compute. reflexivity.
Defined.

(** The error budget counts every rejection of a session, not consecutive
    ones: with a positive budget the engine schedules the close exactly when
    the rejected commands of the whole session reach the budget, however many
    accepted commands lie between them. *)
Theorem error_budget_cumulative {State Event : Type} `{!EqDecision State, !EqDecision Event}
  (e : Engine State Event) (evs : list (SessionEvent State Event)) (init : State)
  (s : Session State Event) (Hb : 0 < d_budget (e_desc e))
  (Hrun : session_run e evs (new_session init) = Some s) :
  c_close_posted (s_core s) = true ↔
    d_budget (e_desc e) ≤ Z.of_nat (rejections (c_trace (s_core s))).
Proof. apply run_ok in Hrun as [_ _ _ _ Hs]. by apply Hs. Qed.

(** Two rejections with two accepted commands between them. *)
Lemma error_budget_cumulative_witness :
  ∃ s, session_run toy_engine
         [SInput [false; true]; SFinish 0 FOk; STask 0; SInput [false]; SInput [false]] (new_session false) = Some s ∧
    dispatched (c_trace (s_core s)) = [false; true; false; false] ∧
    c_close_posted (s_core s) = true.
Proof.
  eexists. split; [vm_compute; reflexivity|]. split; [reflexivity|].
  refine (proj2 (error_budget_cumulative toy_engine
    [SInput [false; true]; SFinish 0 FOk; STask 0; SInput [false]; SInput [false]] false _ eq_refl _) _).
  - vm_compute. reflexivity.
  - vm_compute. discriminate.
Defined.

(** ** Command words *)

Lemma icase_equal_spec a b :
  length a = length b → icase_equal a b = true ↔ toupper <$> a = toupper <$> b.
Proof.
  revert b. induction a as [|x a IH]; intros [|y b] Hl; try done. cbn [icase_equal].
  rewrite !fmap_cons, andb_true_iff, Z.eqb_eq, IH by (by injection Hl).
  split; [by intros [-> ->]|by intros [= -> ->]].
Qed.

Lemma same_word_spec a b : same_word a b = true ↔ toupper <$> a = toupper <$> b.
Proof.
  unfold same_word. rewrite andb_true_iff, Nat.eqb_eq. split.
  - intros [Hl He]. by apply icase_equal_spec.
  - intros He. assert (length a = length b) as Hl.
    { apply (f_equal length) in He. by rewrite !length_fmap in He. }
    split; [done|]. by apply icase_equal_spec.
Qed.

Lemma no_conflict_unique {Event} (l : list (bytes * Event)) w1 w2 e1 e2 :
  has_conflict l = false → (w1, e1) ∈ l → (w2, e2) ∈ l → same_word w1 w2 = true → e1 = e2.
Proof.
  intros Hc H1 H2 Hs. induction l as [|[w e] l IH]; [by apply elem_of_nil in H1|].
  cbn [has_conflict fst] in Hc. apply orb_false_iff in Hc as [Hex Hc].
  assert (∀ w' e', (w', e') ∈ l → same_word w w' = false) as Hno.
  { intros w' e' Hin. destruct (same_word w w') eqn:E; [|done].
    assert (existsb (λ e', same_word w e'.1) l = true) as Ht.
    { apply existsb_exists. exists (w', e'). split; [by apply list_elem_of_In|done]. }
    congruence. }
  assert (same_word w2 w1 = true) as Hs' by (apply same_word_spec; symmetry; by apply same_word_spec).
  apply elem_of_cons in H1 as [[= -> ->]|H1], H2 as [[= -> ->]|H2].
  - done.
  - specialize (Hno _ _ H2). congruence.
  - specialize (Hno _ _ H1). congruence.
  - by apply IH.
Qed.

(** Command lookup is case-insensitive and unambiguous: in a table the
    engine accepts (no conflicting words), a non-empty word matches an event
    exactly when the table has an entry for that event whose word is equal up
    to ASCII case. *)
Theorem match_command_exact {State Event : Type} `{!EqDecision State, !EqDecision Event}
  (d : Desc State Event) (word : bytes) (ev : Event)
  (Hc : has_conflicting_command d = false) (Hw : word ≠ []) :
  match_command d word = Some ev ↔
    ∃ w, (w, ev) ∈ d_commands d ∧ toupper <$> w = toupper <$> word.
Proof.
  unfold match_command. destruct word as [|b word]; [done|]. clear Hw. generalize (b :: word). intros wd.
  destruct (find _ _) as [[w ev']|] eqn:E; simpl.
  - apply find_some in E as [Hin Hs]. apply list_elem_of_In in Hin. simpl in Hs. split.
    + intros [= ->]. exists w. split; [done|]. by apply same_word_spec.
    + intros (w' & Hin' & Hw'). f_equal. eapply (no_conflict_unique _ w w'); [exact Hc|done|done|].
      apply same_word_spec. rewrite Hw'. by apply same_word_spec.
  - split; [done|]. intros (w' & Hin' & Hw'). exfalso.
    eapply find_none in E; [|by apply list_elem_of_In]. simpl in E.
    assert (same_word w' wd = true) by by apply same_word_spec. congruence.
Qed.

Lemma match_command_exact_witness :
  has_conflicting_command toy_desc = false ∧ match_command toy_desc (s! "LoGiN") = Some true ∧
  ∃ w, (w, true) ∈ d_commands toy_desc ∧ toupper <$> w = toupper <$> (s! "LoGiN").
Proof.
  split; [reflexivity|]. split; [reflexivity|].
  apply (proj1 (match_command_exact toy_desc (s! "LoGiN") true eq_refl ltac:(discriminate))). reflexivity.
Defined.

(** ** Declared-length data *)

(** Feeding chunks until the declared length is complete: the collected data
    and the part of the stream left for the parser. *)
Fixpoint bulk_run (chunks : list bytes) (b : BulkAccumulator) : option (bytes * bytes) :=
  match chunks with
  | [] => None
  | c :: chunks =>
      let '((complete, leftover), b) := bulk_feed c b in
      if complete then Some (bk_sink b, leftover ++ concat chunks) else bulk_run chunks b
  end.

Lemma bulk_run_spec chunks b :
  bk_done b = false → (length (bk_sink b) ≤ bk_expected b)%nat →
  (0 < bk_expected b - length (bk_sink b))%nat ∨ Forall (λ c : bytes, c ≠ []) chunks →
  bulk_run chunks b =
    let room := (bk_expected b - length (bk_sink b))%nat in
    if (room <=? length (concat chunks))%nat && negb (length chunks =? 0)%nat
    then Some (bk_sink b ++ take room (concat chunks), drop room (concat chunks)) else None.
Proof.
  revert b. induction chunks as [|c chunks IH]; intros b Hd Hl Hr; [simpl; by rewrite andb_false_r|].
  cbn [bulk_run concat]. unfold bulk_feed. rewrite Hd. cbn [orb].
  set (room := (bk_expected b - length (bk_sink b))%nat) in *.
  destruct (length c =? 0)%nat eqn:Ec; bool_prop.
  { destruct c; [|done]. destruct Hr as [Hr|Hr]; [|by inversion Hr].
    rewrite IH by auto. cbn [app]. fold room. destruct chunks as [|c' chunks]; [|done].
    simpl. by rewrite (proj2 (Nat.leb_gt _ _)) by lia. }
  destruct (length c <? room)%nat eqn:Elt; bool_prop.
  - rewrite take_ge by done.
    rewrite (proj2 (Nat.eqb_neq _ _)) by (rewrite length_app; lia).
    rewrite IH; simpl; rewrite ?length_app; [|done|lia|left; lia].
    replace (bk_expected b - (length (bk_sink b) + length c))%nat with (room - length c)%nat by lia.
    destruct chunks as [|c' chunks].
    + simpl. rewrite andb_false_r. by rewrite (proj2 (Nat.leb_gt _ _)) by lia.
    + rewrite !andb_true_r. cbn [length Nat.eqb negb].
      replace (room <=? length c + length (concat (c' :: chunks)))%nat
        with (room - length c <=? length (concat (c' :: chunks)))%nat
        by (apply eq_true_iff_eq; rewrite !Nat.leb_le; lia).
      destruct (_ <=? _)%nat; [|done].
      by rewrite take_app_ge, drop_app_ge, <-app_assoc by lia.
  - rewrite (proj2 (Nat.eqb_eq _ _)) by (rewrite length_app, length_take; lia). simpl.
    rewrite (proj2 (Nat.leb_le _ _)) by (rewrite length_app; lia). simpl.
    by rewrite take_app_le, drop_app_le by lia.
Qed.

(** Literal data is cut exactly at its declared length: however the bytes of
    a literal are spread over non-empty reads, the accumulator completes as
    soon as [n] bytes have arrived, holds exactly the first [n] bytes, and
    pushes back exactly the rest of the stream; with fewer bytes it keeps
    waiting. *)
Theorem bulk_exact (n : nat) (chunks : list bytes)
  (Hne : chunks ≠ []) (Hc : Forall (λ c : bytes, c ≠ []) chunks) :
  bulk_run chunks (new_bulk n) =
    if (n <=? length (concat chunks))%nat
    then Some (take n (concat chunks), drop n (concat chunks)) else None.
Proof.
  rewrite bulk_run_spec by (simpl; auto with lia). simpl. rewrite Nat.sub_0_r.
  destruct chunks; [done|]. by rewrite andb_true_r.
Qed.

Lemma bulk_exact_witness :
  bulk_run [s! "ab"; s! "cde"; s! "f"] (new_bulk 4) = Some (s! "abcd", s! "ef").
Proof.
  rewrite (bulk_exact 4 [s! "ab"; s! "cde"; s! "f"]); [reflexivity|discriminate|].
  repeat (apply List.Forall_cons; [discriminate|]). apply List.Forall_nil.
Defined.
