(* ===== verification/Pop3.v ===== *)
(** * The POP3 server

    Models [include/mail_system/back/mailServer/fsm/pop3/]: the protocol table
    ([pop3_desc.h]), the session context ([pop3_types.hpp]), the command
    handlers and the login and quit operations ([traditional_pop3_fsm.tpp]),
    and the command parser of [session/pop3_session.tpp].

    A handler is a function from the context and the command's arguments to the
    reply and the new context; [send_line] is [line_out].  The login operation
    is a sequence of asynchronous stages; the answers of the authenticator, the
    repositories and the storage, exceptions, and whether the peer is still
    connected at each check are the environment [LoginEnv]. *)

From S2P Require Import Prelude CString FsmEngine LineFolder.

(** ** The protocol table *)

Inductive Pop3State := INIT | AUTHORIZATION | TRANSACTION | UPDATE | CLOSED.
Inductive Pop3Event :=
  | CONNECT | CAPA | USER | PASS | STAT | LIST | UIDL | RETR | DELE | NOOP | RSET | QUIT
  | ERROR | TIMEOUT.

#[export] Instance Pop3State_eq_dec : EqDecision Pop3State.
Proof. solve_decision. Defined.
#[export] Instance Pop3Event_eq_dec : EqDecision Pop3Event.
Proof. solve_decision. Defined.

Definition make_pop3_desc : Desc Pop3State Pop3Event :=
  mkDesc
    [(s! "CAPA", CAPA); (s! "USER", USER); (s! "PASS", PASS); (s! "STAT", STAT); (s! "LIST", LIST);
     (s! "UIDL", UIDL); (s! "RETR", RETR); (s! "DELE", DELE); (s! "NOOP", NOOP); (s! "RSET", RSET);
     (s! "QUIT", QUIT)]
    [mkRow INIT CONNECT (Some AUTHORIZATION);
     mkRow AUTHORIZATION USER (Some AUTHORIZATION);
     mkRow AUTHORIZATION PASS (Some TRANSACTION);
     mkRow AUTHORIZATION CAPA (Some AUTHORIZATION);
     mkRow AUTHORIZATION NOOP (Some AUTHORIZATION);
     mkRow AUTHORIZATION QUIT (Some UPDATE);
     mkRow TRANSACTION STAT (Some TRANSACTION);
     mkRow TRANSACTION LIST (Some TRANSACTION);
     mkRow TRANSACTION UIDL (Some TRANSACTION);
     mkRow TRANSACTION RETR (Some TRANSACTION);
     mkRow TRANSACTION DELE (Some TRANSACTION);
     mkRow TRANSACTION NOOP (Some TRANSACTION);
     mkRow TRANSACTION RSET (Some TRANSACTION);
     mkRow TRANSACTION CAPA (Some TRANSACTION);
     mkRow TRANSACTION QUIT (Some UPDATE);
     mkRow INIT ERROR None; mkRow AUTHORIZATION ERROR None; mkRow TRANSACTION ERROR None;
     mkRow UPDATE ERROR None]
    (s! "-ERR Command not allowed in current state") 0 []
    (s! "-ERR Internal: handler failed") [CLOSED] (λ _ _, [])
    (λ _ _, s! "-ERR Internal: handler missing").

(** The cells [register_handlers] fills. *)
Definition registered : list (Pop3State * Pop3Event) :=
  [(INIT, CONNECT); (AUTHORIZATION, USER); (AUTHORIZATION, PASS); (AUTHORIZATION, CAPA);
   (AUTHORIZATION, NOOP); (AUTHORIZATION, QUIT); (TRANSACTION, STAT); (TRANSACTION, LIST);
   (TRANSACTION, UIDL); (TRANSACTION, RETR); (TRANSACTION, DELE); (TRANSACTION, NOOP);
   (TRANSACTION, RSET); (TRANSACTION, CAPA); (TRANSACTION, QUIT);
   (INIT, ERROR); (AUTHORIZATION, ERROR); (TRANSACTION, ERROR); (UPDATE, ERROR)].

(** ** Parsing a command line *)

Definition is_blank (c : Z) : bool := (c =? SP) || (c =? HTAB).

Definition event_of (cmd : bytes) : Pop3Event :=
  if bool_decide (cmd = s! "CAPA") then CAPA else
  if bool_decide (cmd = s! "USER") then USER else
  if bool_decide (cmd = s! "PASS") then PASS else
  if bool_decide (cmd = s! "STAT") then STAT else
  if bool_decide (cmd = s! "LIST") then LIST else
  if bool_decide (cmd = s! "UIDL") then UIDL else
  if bool_decide (cmd = s! "RETR") then RETR else
  if bool_decide (cmd = s! "DELE") then DELE else
  if bool_decide (cmd = s! "NOOP") then NOOP else
  if bool_decide (cmd = s! "RSET") then RSET else
  if bool_decide (cmd = s! "QUIT") then QUIT else ERROR.

(** The event and arguments of a line; [None] when it has no line feed. *)
Definition parse_pop3_command (data : bytes) : option (Pop3Event * bytes) :=
  match list.last data with
  | Some c =>
      if c =? LF then
        let line := if (2 <=? length data)%nat && (data !!! (length data - 2)%nat =? CR)
                    then take (length data - 2) data else take (length data - 1) data in
        let line := drop_while_end is_blank line in
        match line with
        | [] => Some (ERROR, [])
        | _ =>
            match find_char SP line with
            | None => Some (event_of (toupper <$> line), [])
            | Some sp => Some (event_of (toupper <$> take sp line),
                               drop_while is_blank (drop (sp + 1) line))
            end
        end
      else None
  | None => None
  end.

(** ** The session context *)

Record Pop3Message := mkMsg { mail_id : Z; body_path : bytes; msize : Z }.

Record Pop3Context := mkCtx {
  username : bytes;
  is_authenticated : bool;
  user_id : Z;
  mailbox_id : Z;
  shard_index : Z;
  messages : list Pop3Message;
  deleted : gset Z;
  dropped : bool;
  session_id : bytes;
}.

(** [Pop3Context::clear] *)
Definition cleared : Pop3Context := mkCtx [] false 0 0 0 [] ∅ false [].

Definition set_deleted (d : gset Z) (ctx : Pop3Context) : Pop3Context :=
  mkCtx (username ctx) (is_authenticated ctx) (user_id ctx) (mailbox_id ctx) (shard_index ctx)
    (messages ctx) d (dropped ctx) (session_id ctx).

(** [send_line] *)
Definition line_out (line : bytes) : bytes :=
  if bool_decide (list.last line = Some LF) then line else line ++ CRLF.

(** The counting loop of STAT and LIST: number and octets of the messages not
    marked. *)
Fixpoint tally (ms : list Pop3Message) (d : gset Z) (count total : Z) : Z * Z :=
  match ms with
  | [] => (count, total)
  | m :: ms => if bool_decide (mail_id m ∈ d) then tally ms d count total
               else tally ms d (count + 1) (to_u64 (total + msize m))
  end.

(** The [++seen == n] loops. *)
Fixpoint find_nth (ms : list Pop3Message) (d : gset Z) (seen n : Z) : option Pop3Message :=
  match ms with
  | [] => None
  | m :: ms => if bool_decide (mail_id m ∈ d) then find_nth ms d seen n
               else if seen + 1 =? n then Some m else find_nth ms d (seen + 1) n
  end.

(** The message a number stands for: range check, then the loop. *)
Definition select (args : bytes) (ctx : Pop3Context) : option (Z * Pop3Message) :=
  let n := safe_stoull args in
  if (n <? 1) || (n >? Z.of_nat (length (messages ctx))) then None
  else (λ m, (n, m)) <$> find_nth (messages ctx) (deleted ctx) 0 n.

(** The numbered lines of LIST and UIDL. *)
Fixpoint numbered (f : Pop3Message → Z) (ms : list Pop3Message) (d : gset Z) (n : Z) : bytes :=
  match ms with
  | [] => []
  | m :: ms => if bool_decide (mail_id m ∈ d) then numbered f ms d n
               else to_string (n + 1) ++ [SP] ++ to_string (f m) ++ CRLF ++ numbered f ms d (n + 1)
  end.

Definition no_such_message : bytes := line_out (s! "-ERR no such message").

Definition handle_stat (ctx : Pop3Context) : bytes :=
  let '(count, total) := tally (messages ctx) (deleted ctx) 0 0 in
  line_out (s! "+OK " ++ to_string count ++ [SP] ++ to_string total).

Definition handle_list (args : bytes) (ctx : Pop3Context) : bytes :=
  match args with
  | [] =>
      let '(count, total) := tally (messages ctx) (deleted ctx) 0 0 in
      line_out (s! "+OK " ++ to_string count ++ s! " messages (" ++ to_string total ++ s! " octets)"
                ++ CRLF ++ numbered msize (messages ctx) (deleted ctx) 0 ++ s! "." ++ CRLF)
  | _ => match select args ctx with
         | Some (n, m) => line_out (s! "+OK " ++ to_string n ++ [SP] ++ to_string (msize m))
         | None => no_such_message
         end
  end.

Definition handle_uidl (args : bytes) (ctx : Pop3Context) : bytes :=
  match args with
  | [] => line_out (s! "+OK Unique-ID listing follows" ++ CRLF
                    ++ numbered mail_id (messages ctx) (deleted ctx) 0 ++ s! "." ++ CRLF)
  | _ => match select args ctx with
         | Some (n, m) => line_out (s! "+OK " ++ to_string n ++ [SP] ++ to_string (mail_id m))
         | None => no_such_message
         end
  end.

(** The body of a message on the wire: lines end in CRLF and a leading dot is
    doubled.  The loop of [handle_retr] from [start]; every round consumes a
    byte. *)
Definition stuff_line (line : bytes) : bytes :=
  let line := match list.last line with
              | Some c => if c =? CR then take (length line - 1) line else line
              | None => line
              end in
  match line with
  | 46 :: _ => 46 :: line
  | _ => line
  end.

Fixpoint stuff_body (fuel : nat) (body : bytes) : bytes :=
  match fuel, body with
  | S fuel, _ :: _ =>
      match find_char LF body with
      | None => stuff_line body ++ CRLF
      | Some eol => stuff_line (take eol body) ++ CRLF ++ stuff_body fuel (drop (eol + 1) body)
      end
  | _, _ => []
  end.

Definition retr_text (body : bytes) : bytes := stuff_body (length body) body.

(** RETR: the reply, once the storage answered.  [worker] is false when there
    is no worker pool, [read_all] is the storage provider of the shard. *)
Definition handle_retr (worker : bool) (read_all : bytes → option bytes) (args : bytes) (ctx : Pop3Context)
  : bytes :=
  match args with
  | [] => line_out (s! "-ERR RETR requires a message number")
  | _ => match select args ctx with
         | None => no_such_message
         | Some (n, m) =>
             if negb worker then line_out (s! "-ERR Server not ready") else
             match read_all (body_path m) with
             | None => line_out (s! "-ERR Failed to read message body")
             | Some body => line_out (s! "+OK " ++ to_string (msize m) ++ s! " octets" ++ CRLF
                                      ++ retr_text body ++ s! "." ++ CRLF)
             end
         end
  end.

Definition handle_dele (args : bytes) (ctx : Pop3Context) : bytes * Pop3Context :=
  match args with
  | [] => (line_out (s! "-ERR DELE requires a message number"), ctx)
  | _ => match select args ctx with
         | None => (no_such_message, ctx)
         | Some (n, m) =>
             if bool_decide (mail_id m ∈ deleted ctx)
             then (line_out (s! "-ERR message already deleted"), ctx)
             else (line_out (s! "+OK message " ++ to_string n ++ s! " deleted"),
                   set_deleted ({[ mail_id m ]} ∪ deleted ctx) ctx)
         end
  end.

Definition handle_noop : bytes := line_out (s! "+OK").
Definition handle_rset (ctx : Pop3Context) : bytes * Pop3Context := (line_out (s! "+OK"), set_deleted ∅ ctx).
Definition handle_capa : bytes :=
  line_out (s! "+OK Capability list follows" ++ CRLF ++ s! "USER" ++ CRLF ++ s! "UIDL" ++ CRLF
            ++ s! "IMPLEMENTATION ProtoRelay-POP3" ++ CRLF ++ s! "." ++ CRLF).

Definition handle_user (args : bytes) (ctx : Pop3Context) : bytes * Pop3Context :=
  match args with
  | [] => (line_out (s! "-ERR USER requires a name argument"), ctx)
  | _ => (line_out (s! "+OK Send PASS"), mkCtx args false 0 0 0 [] ∅ false [])
  end.

(** The checks of PASS before the login operation starts. *)
Definition pass_rejected (args : bytes) (ctx : Pop3Context) : option bytes :=
  if negb (is_authenticated ctx) && bool_decide (username ctx = []) then Some (line_out (s! "-ERR USER first")) else
  match args with
  | [] => Some (line_out (s! "-ERR PASS requires a password"))
  | _ => None
  end.

(** ** Asynchronous operations

    The answer of a call with a callback: it throws, never calls back, or calls
    back with a value. *)
Inductive Async (A : Type) := Threw | Silent | Answer (a : A).
Arguments Threw {A}.
Arguments Silent {A}.
Arguments Answer {A} a.

Inductive Pop3LockStatus := owned | not_owned | database_error.

#[export] Instance Pop3LockStatus_eq_dec : EqDecision Pop3LockStatus.
Proof. solve_decision. Defined.

(** [Pop3LockKey]: user and session. *)
Definition Pop3LockKey : Type := Z * bytes.

(** What the operations do to the outside, in order. *)
Inductive Pop3Action :=
  | Acquire (key : Pop3LockKey) (answer : Async Pop3LockStatus)
  | Release (key : Pop3LockKey) (answer : Async bool)
  | ApplyDeletions (user mailbox : Z) (ids : gset Z) (answer : Async bool)
  | Say (reply : bytes)                   (* [send_line] *)
  | Install (ctx : Pop3Context)           (* the snapshot becomes the session's mailbox *)
  | StartHeartbeat
  | StopHeartbeat
  | AuthFailed                            (* [record_auth_failure_and_check] *)
  | LockConflict                          (* the conflict metric *)
  | CleanClose                            (* [set_trace_clean_close] *)
  | Finish (ok : bool)                    (* [transition.finish] *)
  | FinishClosing                         (* [transition.finish_closing] or [apply_closing] *)
  | CloseAfterFlush
  | CloseNow.                             (* [session->close()] *)

(** *** Login *)

Record AccountAuthResult := mkAuth { auth_ok : bool; auth_user : Z; auth_shard : Z }.
Record MailboxMailInfo := mkRow' { row_mail_id : Z; row_body_path : bytes }.

(** Where the operation asks whether the session was closed meanwhile. *)
Inductive Check := AtLoad | BeforeLock | AfterLock | AfterRows | AtInstall | AtConflict | AtReply.

Record LoginEnv := mkLoginEnv {
  worker_posts : nat → bool;              (* the [n]th [queue] finds a worker that takes the task *)
  authenticator : option (bytes → bytes → Async AccountAuthResult);
  closed_at : Check → bool;
  db_pool : Z → bool;                     (* the router has a pool for the shard *)
  db_valid : bool;
  get_inbox : Z → Async (bool * Z);
  acquire_lock : Pop3LockKey → Async Pop3LockStatus;
  get_messages : Z → Z → Async (bool * list MailboxMailInfo);
  object_size : option (bytes → option (option Z));  (* storage of the shard; [None] inside: throws *)
  release_posts : bool;
  release_lock : Pop3LockKey → Async bool;
  max_auth_attempts : Z;
}.

Section Login.
Context (env : LoginEnv) (ctx : Pop3Context) (sid password : bytes) (attempts : Z).

Definition reply_failure (reply : bytes) (auth_failure : bool) : list Pop3Action :=
  if closed_at env AtReply || bool_decide (reply = []) then [] else
  if auth_failure then
    if max_auth_attempts env <=? attempts + 1
    then [AuthFailed; Say (line_out (s! "-ERR Too many auth failures, closing connection")); CloseAfterFlush]
    else [AuthFailed; Say (line_out reply); Finish false]
  else [Say (line_out reply); Finish false].

(** [fail]; [attempted] is the key of the lock the operation tried to take. *)
Definition login_fail (attempted : option Pop3LockKey) (reply : bytes) (auth_failure : bool)
  : list Pop3Action :=
  match attempted with
  | None => reply_failure reply auth_failure
  | Some key =>
      if release_posts env then
        Release key (release_lock env key) ::
        match release_lock env key with
        | Silent => []
        | _ => reply_failure reply auth_failure
        end
      else reply_failure (s! "-ERR Server not ready") false
  end.

Definition server_error : bytes := s! "-ERR Server database unavailable".

(** [queue]: the [n]th task handed to the worker. *)
Definition queue (n : nat) (attempted : option Pop3LockKey) (task : list Pop3Action) : list Pop3Action :=
  if worker_posts env n then task else login_fail attempted (s! "-ERR Server not ready") false.

(** A call with a callback, the continuation under [guard]. *)
Definition await {A} (attempted : option Pop3LockKey) (a : Async A) (k : A → list Pop3Action)
  : list Pop3Action :=
  match a with
  | Threw => login_fail attempted server_error false
  | Silent => []
  | Answer a => k a
  end.

(** [None]: the storage provider threw. *)
Fixpoint measure_rows (rows : list MailboxMailInfo) : option (list Pop3Message) :=
  match rows with
  | [] => Some []
  | r :: rows =>
      if row_mail_id r =? 0 then measure_rows rows else
      size ← match object_size env with
             | None => Some 0
             | Some f => default 0 <$> f (row_body_path r)
             end;
      ms ← measure_rows rows;
      Some (mkMsg (row_mail_id r) (row_body_path r) size :: ms)
  end.

Fixpoint total_size (ms : list Pop3Message) (total : Z) : Z :=
  match ms with [] => total | m :: ms => total_size ms (to_u64 (total + msize m)) end.

Definition install (user shard inbox : Z) (ms : list Pop3Message) : list Pop3Action :=
  if closed_at env AtInstall then login_fail (Some (user, sid)) [] false else
  [Install (mkCtx (username ctx) true user inbox shard ms ∅ false sid);
   StartHeartbeat;
   Say (line_out (s! "+OK Mailbox locked and loaded, " ++ to_string (Z.of_nat (length ms))
                  ++ s! " messages (" ++ to_string (total_size ms 0) ++ s! " octets)"));
   Finish true].

Definition measure (user shard inbox : Z) (rows : list MailboxMailInfo) : list Pop3Action :=
  match measure_rows rows with
  | None => login_fail (Some (user, sid)) (s! "-ERR Cannot load mailbox") false
  | Some ms => install user shard inbox ms
  end.

Definition lock_ready (user shard inbox : Z) (status : Pop3LockStatus) : list Pop3Action :=
  match status with
  | database_error => login_fail (Some (user, sid)) server_error false
  | not_owned => (if closed_at env AtConflict then [] else [LockConflict]) ++
                 login_fail None (s! "-ERR [IN-USE] Mailbox lock busy, try later") false
  | owned =>
      let key := Some (user, sid) in
      if closed_at env AfterLock then login_fail key [] false else
      await key (get_messages env user inbox) (λ '(ok, rows),
        if negb ok then login_fail key (s! "-ERR Cannot load mailbox") false else
        if closed_at env AfterRows then login_fail key [] false else
        queue 2 key (measure user shard inbox rows))
  end.

Definition load_inbox (user shard : Z) : list Pop3Action :=
  if closed_at env AtLoad then login_fail None [] false else
  if negb (db_pool env shard) then login_fail None (s! "-ERR Server configuration error") false else
  if negb (db_valid env) then login_fail None server_error false else
  await None (get_inbox env user) (λ '(ok, id),
    if negb ok then login_fail None server_error false else
    if id =? 0 then login_fail None (s! "-ERR No INBOX for user") false else
    if closed_at env BeforeLock then login_fail None [] false else
    let key := (user, sid) in
    Acquire key (acquire_lock env key) ::
    await (Some key) (acquire_lock env key) (lock_ready user shard id)).

(** [LoginOperation::start] *)
Definition login : list Pop3Action :=
  queue 0 None
    match authenticator env with
    | None => login_fail None (s! "-ERR Authentication failed") true
    | Some f =>
        await None (f (username ctx) password) (λ r,
          if negb (auth_ok r) then login_fail None (s! "-ERR Authentication failed") true
          else queue 1 None (load_inbox (auth_user r) (auth_shard r)))
    end.
End Login.

(** *** Quit *)

Record QuitEnv := mkQuitEnv {
  quit_posts : bool;                      (* a worker takes the task *)
  quit_db : option bool;                  (* the database context: valid or not; [None] throws *)
  quit_db_still : bool;                   (* valid again when the lock is released *)
  apply_deletions : Z → Z → gset Z → Async bool;
  quit_release : Pop3LockKey → Async bool;
  quit_closed : bool;
}.

Section Quit.
Context (env : QuitEnv) (ctx : Pop3Context).

Definition quit_finish (del rel : bool) : list Pop3Action :=
  if quit_closed env then [] else
  (if del && rel then [CleanClose] else []) ++
  [Say (line_out (if del && rel then s! "+OK Bye" else s! "-ERR Unable to complete mailbox update"));
   FinishClosing; CloseAfterFlush].

Definition quit_release_step (del : bool) : list Pop3Action :=
  if negb (quit_db_still env) then quit_finish false false else
  let key := (user_id ctx, session_id ctx) in
  Release key (quit_release env key) ::
  match quit_release env key with
  | Threw => quit_finish false false
  | Silent => []
  | Answer rel => quit_finish del rel
  end.

Definition quit_start : list Pop3Action :=
  if negb (quit_posts env) then quit_finish false false else
  match quit_db env with
  | None | Some false => quit_finish false false
  | Some true =>
      let a := apply_deletions env (user_id ctx) (mailbox_id ctx) (deleted ctx) in
      ApplyDeletions (user_id ctx) (mailbox_id ctx) (deleted ctx) a ::
      match a with
      | Threw => quit_release_step false
      | Silent => []
      | Answer ok => quit_release_step ok
      end
  end.

Definition handle_quit : list Pop3Action :=
  if negb (is_authenticated ctx) then [CleanClose; FinishClosing; Say (line_out (s! "+OK Bye")); CloseAfterFlush]
  else StopHeartbeat :: quit_start.
End Quit.

(** *** Timeout *)

(** [handle_timeout] on an open session: what it releases before closing.
    [posts] is false without router or worker. *)
Definition handle_timeout (posts : bool) (db : bool) (rel : Pop3LockKey → Async bool) (ctx : Pop3Context)
  : list Pop3Action :=
  let key := (user_id ctx, session_id ctx) in
  if is_authenticated ctx && negb (bool_decide (session_id ctx = [])) && posts then
    if db then Release key (rel key) :: match rel key with Silent => [] | _ => [CloseNow] end
    else [CloseNow]
  else [CloseNow].

(** ** The session

    Commands run one at a time: a command that is answered asynchronously
    pauses the session until its transition finishes. *)

Record Pop3Session := mkP {
  p_state : Pop3State;
  p_ctx : Pop3Context;
  p_attempts : Z;
  p_open : bool;                          (* neither paused nor closing *)
}.

Definition new_session : Pop3Session := mkP INIT cleared 0 true.

(** The surroundings of one command. *)
Record CmdEnv := mkCmdEnv {
  ce_now : bytes;
  ce_worker : bool;
  ce_read_all : bytes → option bytes;
  ce_sid : bytes;
  ce_login : LoginEnv;
  ce_quit : QuitEnv;
}.

Definition effect (a : Pop3Action) (s : Pop3Session) : Pop3Session :=
  match a with
  | Install c => mkP (p_state s) c (p_attempts s) (p_open s)
  | AuthFailed => mkP (p_state s) (p_ctx s) (p_attempts s + 1) (p_open s)
  | Finish ok => mkP (if ok then TRANSACTION else p_state s) (p_ctx s) (p_attempts s) true
  | FinishClosing => mkP UPDATE (p_ctx s) (p_attempts s) (p_open s)
  | CloseAfterFlush | CloseNow => mkP (p_state s) (p_ctx s) (p_attempts s) false
  | _ => s
  end.

Definition effects (tr : list Pop3Action) (s : Pop3Session) : Pop3Session := foldl (λ s a, effect a s) s tr.

Definition with_ctx (r : bytes * Pop3Context) (s : Pop3Session) : list Pop3Action * Pop3Session :=
  ([Say r.1], mkP (p_state s) r.2 (p_attempts s) (p_open s)).

Definition say (r : bytes) (s : Pop3Session) : list Pop3Action * Pop3Session := ([Say r], s).

(** A session paused by [begin_transition], then the operation. *)
Definition operate (tr : list Pop3Action) (s : Pop3Session) : list Pop3Action * Pop3Session :=
  (tr, effects tr (mkP (p_state s) (p_ctx s) (p_attempts s) false)).

Definition handle_init_connect (now : bytes) (s : Pop3Session) : list Pop3Action * Pop3Session :=
  ([Say (line_out (s! "+OK ProtoRelay POP3 server ready <" ++ now ++ s! "@pop3>"))],
   mkP AUTHORIZATION (p_ctx s) (p_attempts s) (p_open s)).

Definition handle_pass (ce : CmdEnv) (args : bytes) (s : Pop3Session) : list Pop3Action * Pop3Session :=
  match pass_rejected args (p_ctx s) with
  | Some r => say r s
  | None => operate (login (ce_login ce) (p_ctx s) (ce_sid ce) args (p_attempts s)) s
  end.

(** The registered handlers. *)
Definition run_handler (ce : CmdEnv) (ev : Pop3Event) (args : bytes) (s : Pop3Session)
  : list Pop3Action * Pop3Session :=
  let ctx := p_ctx s in
  match ev with
  | CONNECT => handle_init_connect (ce_now ce) s
  | CAPA => say handle_capa s
  | USER => with_ctx (handle_user args ctx) s
  | PASS => handle_pass ce args s
  | STAT => say (handle_stat ctx) s
  | LIST => say (handle_list args ctx) s
  | UIDL => say (handle_uidl args ctx) s
  | RETR => say (handle_retr (ce_worker ce) (ce_read_all ce) args ctx) s
  | DELE => with_ctx (handle_dele args ctx) s
  | NOOP => say handle_noop s
  | RSET => with_ctx (handle_rset ctx) s
  | QUIT => operate (handle_quit (ce_quit ce) ctx) s
  | ERROR => say (line_out (s! "-ERR Unknown command")) s
  | TIMEOUT => ([], s)
  end.

(** [FsmEngine::dispatch] on the table. *)
Definition pop3_dispatch (ce : CmdEnv) (ev : Pop3Event) (args : bytes) (s : Pop3Session)
  : list Pop3Action * Pop3Session :=
  if negb (p_open s) || is_terminal make_pop3_desc (p_state s) then ([], s) else
  match guard_target make_pop3_desc (p_state s) ev with
  | None => say (line_out (d_error_reply make_pop3_desc)) s
  | Some _ => if bool_decide ((p_state s, ev) ∈ registered) then run_handler ce ev args s
              else say (line_out (d_format_missing make_pop3_desc (p_state s) ev)) s
  end.

(** A session's commands, with the actions they cause. *)
Fixpoint pop3_run (cmds : list (CmdEnv * Pop3Event * bytes)) (s : Pop3Session)
  : list Pop3Action * Pop3Session :=
  match cmds with
  | [] => ([], s)
  | (ce, ev, args) :: cmds =>
      let '(tr, s) := pop3_dispatch ce ev args s in
      let '(tr', s) := pop3_run cmds s in
      (tr ++ tr', s)
  end.

(** ** Message numbers *)

(** The messages a client sees. *)
Definition live (ctx : Pop3Context) : list Pop3Message :=
  filter (λ m, mail_id m ∉ deleted ctx) (messages ctx).

Lemma find_nth_spec ms d seen n :
  seen < n → find_nth ms d seen n = filter (λ m, mail_id m ∉ d) ms !! Z.to_nat (n - seen - 1).
Proof.
  revert seen. induction ms as [|m ms IH]; intros seen Hn; [done|]. cbn [find_nth].
  rewrite filter_cons. destruct (decide (mail_id m ∉ d)) as [Hd|Hd].
  - rewrite bool_decide_eq_false_2 by done. destruct (Z.eqb_spec (seen + 1) n) as [<-|Hne].
    + by replace (seen + 1 - seen - 1) with 0 by lia.
    + rewrite IH by lia. replace (Z.to_nat (n - seen - 1)) with (S (Z.to_nat (n - (seen + 1) - 1))) by lia.
      done.
  - rewrite bool_decide_eq_true_2 by (by apply dec_stable). by apply IH.
Qed.

(** A message number denotes a position among the live messages. *)
Lemma select_spec args ctx n m :
  select args ctx = Some (n, m) ↔
  n = safe_stoull args ∧ 1 ≤ n ∧ live ctx !! Z.to_nat (n - 1) = Some m.
Proof.
  unfold select. destruct ((safe_stoull args <? 1) || _) eqn:E.
  - split; [done|]. intros (-> & H1 & Hl). exfalso. apply lookup_lt_Some in Hl.
    pose proof (length_filter (λ m, mail_id m ∉ deleted ctx) (messages ctx)). unfold live in Hl.
    apply orb_true_iff in E as [E|E]; bool_prop; lia.
  - bool_prop. rewrite find_nth_spec by lia. fold (live ctx).
    replace (safe_stoull args - 0 - 1) with (safe_stoull args - 1) by lia.
    destruct (live ctx !! _) as [m'|] eqn:El; simpl; split; intros Hs; [|naive_solver..].
    by simplify_eq.
Qed.

Lemma tally_spec ms d c t :
  tally ms d c t =
    (c + Z.of_nat (length (filter (λ m, mail_id m ∉ d) ms)),
     foldl (λ t m, to_u64 (t + msize m)) t (filter (λ m, mail_id m ∉ d) ms)).
Proof.
  revert c t. induction ms as [|m ms IH]; intros c t; cbn [tally].
  - simpl. f_equal; lia.
  - rewrite filter_cons. destruct (decide (mail_id m ∉ d)) as [Hd|Hd].
    + rewrite bool_decide_eq_false_2, IH by done. cbn [length foldl]. f_equal; lia.
    + rewrite bool_decide_eq_true_2 by (by apply dec_stable). apply IH.
Qed.

(** The lines of a numbered listing. *)
Definition listing (f : Pop3Message → Z) (ms : list Pop3Message) (n : Z) : bytes :=
  concat (imap (λ i m, to_string (n + 1 + Z.of_nat i) ++ [SP] ++ to_string (f m) ++ CRLF) ms).

Lemma numbered_spec f ms d n : numbered f ms d n = listing f (filter (λ m, mail_id m ∉ d) ms) n.
Proof.
  revert n. induction ms as [|m ms IH]; intros n; [done|]. cbn [numbered]. rewrite filter_cons.
  destruct (decide (mail_id m ∉ d)) as [Hd|Hd].
  - rewrite bool_decide_eq_false_2 by done. unfold listing. rewrite imap_cons. cbn [concat].
    rewrite IH. unfold listing. rewrite <-!app_assoc, Z.add_0_r. do 4 f_equal. f_equal.
    apply imap_ext. intros i x _. simpl. do 2 f_equal. lia.
  - rewrite bool_decide_eq_true_2 by (by apply dec_stable). apply IH.
Qed.

Lemma live_set_deleted x ctx :
  live (set_deleted ({[ x ]} ∪ deleted ctx) ctx) = filter (λ m, mail_id m ≠ x) (live ctx).
Proof.
  unfold live, set_deleted. simpl. rewrite list_filter_filter. apply list_filter_iff. set_solver.
Qed.

Lemma live_none_deleted ctx : live (set_deleted ∅ ctx) = messages ctx.
Proof.
  unfold live. simpl. induction (messages ctx) as [|m ms IH]; [done|].
  rewrite filter_cons, decide_True by set_solver. by rewrite IH.
Qed.

Lemma live_not_deleted ctx i m : live ctx !! i = Some m → mail_id m ∉ deleted ctx.
Proof. intros H%list_elem_of_lookup_2. by apply list_elem_of_filter in H as [? _]. Qed.

Lemma select_eq args ctx :
  select args ctx = if safe_stoull args <? 1 then None
                    else (λ m, (safe_stoull args, m)) <$> live ctx !! Z.to_nat (safe_stoull args - 1).
Proof.
  apply option_eq. intros [n m]. rewrite select_spec. destruct (_ <? _) eqn:E; bool_prop.
  - split; [lia|done].
  - rewrite fmap_Some. split; [intros (-> & _ & ->); eauto|].
    intros (m' & Hm & [= -> ->]). split_and!; [done|lia|done].
Qed.

(** The wire form of the answers of STAT, LIST and UIDL over a list of messages. *)
Definition octets (ms : list Pop3Message) : Z := foldl (λ t m, to_u64 (t + msize m)) 0 ms.

(** All POP3 commands agree on one numbering, the position among the
    messages not marked as deleted.  STAT counts exactly those; LIST and UIDL
    enumerate them from 1 without gaps; a numeric argument [n] within range
    makes LIST, UIDL, RETR and DELE answer for the same [n]th message, DELE
    removes exactly it (never answering "already deleted"), and RSET brings
    everything back; any other argument gets "no such message" from all four
    and changes nothing. *)
Theorem message_numbers (ctx : Pop3Context) (args : bytes) (read_all : bytes → option bytes)
  (Hargs : args ≠ []) :
  let n := safe_stoull args in
  let ms := live ctx in
  match (if n <? 1 then None else ms !! Z.to_nat (n - 1)) with
  | Some m =>
      handle_list args ctx = line_out (s! "+OK " ++ to_string n ++ [SP] ++ to_string (msize m)) ∧
      handle_uidl args ctx = line_out (s! "+OK " ++ to_string n ++ [SP] ++ to_string (mail_id m)) ∧
      handle_retr true read_all args ctx =
        match read_all (body_path m) with
        | None => line_out (s! "-ERR Failed to read message body")
        | Some body => line_out (s! "+OK " ++ to_string (msize m) ++ s! " octets" ++ CRLF
                                 ++ retr_text body ++ s! "." ++ CRLF)
        end ∧
      (handle_dele args ctx).1 = line_out (s! "+OK message " ++ to_string n ++ s! " deleted") ∧
      live (handle_dele args ctx).2 = filter (λ m', mail_id m' ≠ mail_id m) ms ∧
      live (handle_rset (handle_dele args ctx).2).2 = messages ctx
  | None =>
      handle_list args ctx = no_such_message ∧ handle_uidl args ctx = no_such_message ∧
      handle_retr true read_all args ctx = no_such_message ∧ handle_dele args ctx = (no_such_message, ctx)
  end ∧
  handle_stat ctx = line_out (s! "+OK " ++ to_string (Z.of_nat (length ms)) ++ [SP] ++ to_string (octets ms)) ∧
  handle_list [] ctx =
    line_out (s! "+OK " ++ to_string (Z.of_nat (length ms)) ++ s! " messages (" ++ to_string (octets ms)
              ++ s! " octets)" ++ CRLF ++ listing msize ms 0 ++ s! "." ++ CRLF) ∧
  handle_uidl [] ctx =
    line_out (s! "+OK Unique-ID listing follows" ++ CRLF ++ listing mail_id ms 0 ++ s! "." ++ CRLF).
Proof.
  intros n ms. split_and!.
  2-4: unfold handle_stat, handle_list, handle_uidl; by rewrite ?tally_spec, ?numbered_spec.
  destruct args as [|c args]; [done|]. unfold handle_list, handle_uidl, handle_retr, handle_dele.
  rewrite select_eq. fold n. fold ms. destruct (n <? 1); [done|].
  destruct (ms !! Z.to_nat (n - 1)) as [m|] eqn:Em; simpl; [|done].
  rewrite bool_decide_eq_false_2 by (by eapply live_not_deleted). simpl.
  split_and!; try done; [apply live_set_deleted|].
  change (set_deleted ∅ (set_deleted ({[mail_id m]} ∪ deleted ctx) ctx)) with (set_deleted ∅ ctx).
  apply live_none_deleted.
Qed.

Definition sample_ctx : Pop3Context :=
  mkCtx (s! "u") true 7 9 0
    [mkMsg 11 (s! "a") 100; mkMsg 12 (s! "b") 20; mkMsg 13 (s! "c") 3] {[ 12 ]} false (s! "s").

Lemma message_numbers_witness :
  handle_list (s! "2") sample_ctx = line_out (s! "+OK 2 3") ∧
  handle_retr true (λ _, None) (s! "3") sample_ctx = no_such_message.
Proof.
  pose proof (message_numbers sample_ctx (s! "2") (λ _, None) ltac:(done)) as H.
  pose proof (message_numbers sample_ctx (s! "3") (λ _, None) ltac:(done)) as H3.
  vm_compute in H, H3. split; [exact (proj1 (proj1 H))|exact (proj1 (proj2 (proj2 (proj1 H3))))].
Defined.

Lemma filter_ne_delete (ms : list Pop3Message) i m :
  base.NoDup (mail_id <$> ms) → ms !! i = Some m → filter (λ m', mail_id m' ≠ mail_id m) ms = delete i ms.
Proof.
  revert i. induction ms as [|a ms IH]; intros i Hnd Hi; [done|].
  rewrite fmap_cons in Hnd. apply list.NoDup_cons in Hnd as [Ha Hnd]. rewrite filter_cons.
  destruct i as [|i]; simpl in Hi |- *.
  - injection Hi as ->. rewrite decide_False by (intros H; by apply H).
    assert (Forall (λ m', mail_id m' ≠ mail_id m) ms) as Hall.
    { apply list.Forall_forall. intros x Hx Heq. apply Ha. rewrite <-Heq. by apply list_elem_of_fmap_2. }
    clear -Hall. induction Hall as [|x ms Hx _ IH]; [done|]. rewrite filter_cons, decide_True by done.
    by rewrite IH.
  - rewrite decide_True.
    + f_equal. by apply IH.
    + intros Heq. apply Ha. rewrite Heq. apply list_elem_of_fmap_2. by eapply list_elem_of_lookup_2.
Qed.

(** Message numbers are not stable: once DELE marked message [n], every
    later number moves down by one, so a number [k >= n] now stands for the
    message that was [k + 1]; repeating the same DELE deletes another message
    instead of failing.  (RFC 1939 keeps the numbers of a session fixed.) *)
Theorem numbers_shift (ctx : Pop3Context) (args : bytes) (m : Pop3Message)
  (Hids : base.NoDup (mail_id <$> messages ctx))
  (Hsel : select args ctx = Some (safe_stoull args, m)) (k : nat) :
  let ctx' := (handle_dele args ctx).2 in
  (Z.to_nat (safe_stoull args - 1) ≤ k)%nat → live ctx' !! k = live ctx !! S k.
Proof.
  intros ctx' Hk. apply select_spec in Hsel as (_ & Hn & Hm).
  assert (ctx' = set_deleted ({[ mail_id m ]} ∪ deleted ctx) ctx) as ->.
  { unfold ctx', handle_dele. destruct args; [by vm_compute in Hn|].
    rewrite select_eq, Hm. rewrite (proj2 (Z.ltb_ge _ _)) by lia. simpl.
    by rewrite bool_decide_eq_false_2 by (by eapply live_not_deleted). }
  assert (base.NoDup (mail_id <$> live ctx)) as Hlive.
  { eapply sublist_NoDup; [exact Hids|]. apply fmap_sublist, sublist_filter. }
  rewrite live_set_deleted, (filter_ne_delete _ _ _ Hlive Hm). by apply list_lookup_delete_ge.
Qed.

Lemma numbers_shift_witness :
  live (handle_dele (s! "1") (set_deleted ∅ sample_ctx)).2 !! 0%nat = Some (mkMsg 12 (s! "b") 20).
Proof.
  rewrite (numbers_shift (set_deleted ∅ sample_ctx) (s! "1") (mkMsg 11 (s! "a") 100)).
  - vm_compute. reflexivity.
  - apply (bool_decide_unpack _). vm_compute. exact I.
  - vm_compute. reflexivity.
  - vm_compute. apply le_n.
Defined.

(** ** From DATA to RETR *)

(** A text line: no carriage return or line feed inside. *)
Definition plain (l : bytes) : Prop := CR ∉ l ∧ LF ∉ l.

(** A sender's dot-stuffing (RFC 5321 4.5.2), and a message as it is stored. *)
Definition stuffed (l : bytes) : bytes := match l with 46 :: _ => 46 :: l | _ => l end.
Definition wire_text (ls : list bytes) : bytes := concat ((λ l, stuffed l ++ CRLF) <$> ls).
Definition disk_text (ls : list bytes) : bytes := concat ((λ l, l ++ CRLF) <$> ls).

Lemma stuffed_plain l : plain l → plain (stuffed l).
Proof.
  intros [H1 H2]. unfold plain, stuffed. destruct l as [|c l]; [done|].
  repeat case_match; try done. split; rewrite list.elem_of_cons; intros [|]; done.
Qed.

Lemma unstuff_stuffed_id l : unstuff_dot (stuffed l) = l.
Proof. destruct l as [|c l]; [done|]. unfold stuffed. repeat case_match; try done; by simplify_eq. Qed.

Lemma lines_of_text ls :
  Forall (λ l, CR ∉ l) ls → lines_of (concat ((λ l, l ++ CRLF) <$> ls)) = (ls, []).
Proof.
  induction 1 as [|l ls Hl _ IH]; [done|]. rewrite fmap_cons. cbn [concat].
  rewrite <-app_assoc, lines_of_eq, find_crlf_plain by done.
  rewrite take_app_length, app_assoc.
  replace (length l + 2)%nat with (length (l ++ CRLF)) by (by rewrite length_app).
  by rewrite drop_app_length, IH.
Qed.

(** A line within the limit is stored as it is, without fuel. *)
Lemma stored_line_short fuel l :
  (length (unstuff_dot l) ≤ kMaxStorageLineBytes)%nat → stored_line fuel l = Some (unstuff_dot l).
Proof.
  intros Hl. unfold stored_line. destruct fuel; cbn [append_folded]; unfold budget_of;
    rewrite (proj2 (Nat.ltb_ge _ _)) by lia; by rewrite drop_0.
Qed.

Lemma store_lines_short fuel ls :
  Forall (λ l : bytes, length l ≤ kMaxStorageLineBytes)%nat ls →
  store_lines fuel (stuffed <$> ls) = Some (disk_text ls).
Proof.
  induction 1 as [|l ls Hl _ IH]; [done|]. rewrite fmap_cons. cbn [store_lines].
  rewrite stored_line_short by (by rewrite unstuff_stuffed_id). rewrite unstuff_stuffed_id. cbn [mbind option_bind].
  rewrite IH. cbn [mbind option_bind]. unfold disk_text. rewrite fmap_cons. cbn [concat]. by rewrite <-app_assoc.
Qed.

Lemma stuff_line_cr l : plain l → stuff_line (l ++ [CR]) = stuffed l.
Proof.
  intros _. unfold stuff_line. rewrite list.last_snoc, Z.eqb_refl, length_app.
  replace (length l + length [CR] - 1)%nat with (length l) by (simpl; lia). by rewrite take_app_length.
Qed.

Lemma find_lf_plain l t : plain l → find_char LF (l ++ CRLF ++ t) = Some (S (length l)).
Proof.
  intros [_ Hl]. replace (l ++ CRLF ++ t) with ((l ++ [CR]) ++ LF :: t) by (by rewrite <-app_assoc).
  rewrite find_char_app_l; [f_equal; rewrite length_app; simpl; lia|].
  rewrite list.elem_of_app. intros [|H%list_elem_of_singleton]; done.
Qed.

Lemma stuff_body_text fuel ls :
  Forall plain ls → (length (disk_text ls) ≤ fuel)%nat → stuff_body fuel (disk_text ls) = wire_text ls.
Proof.
  intros Hp. revert fuel. induction Hp as [|l ls Hl _ IH]; intros fuel Hf; [by destruct fuel|].
  unfold disk_text, wire_text in *. rewrite fmap_cons in Hf |- *. rewrite fmap_cons. cbn [concat] in *.
  rewrite <-app_assoc in Hf |- *. set (t := concat ((λ l, l ++ CRLF) <$> ls)) in *.
  rewrite !length_app in Hf. simpl in Hf.
  destruct fuel as [|fuel]; [lia|]. cbn [stuff_body]. rewrite find_lf_plain by done.
  replace (l ++ CRLF ++ t) with ((l ++ [CR]) ++ LF :: t) by (by rewrite <-app_assoc).
  replace (S (length l)) with (length (l ++ [CR])) by (rewrite length_app; simpl; lia).
  rewrite take_app_length.
  replace (length (l ++ [CR]) + 1)%nat with (length ((l ++ [CR]) ++ [LF])) by (by rewrite length_app).
  replace ((l ++ [CR]) ++ LF :: t) with (((l ++ [CR]) ++ [LF]) ++ t) by (by rewrite <-!app_assoc).
  rewrite drop_app_length, stuff_line_cr, IH by (done || lia).
  destruct (((l ++ [CR]) ++ [LF]) ++ t) eqn:E; [|by rewrite <-app_assoc].
  apply (f_equal length) in E. rewrite !length_app in E. simpl in E. lia.
Qed.

(** Dot transparency from end to end: lines that a client sends over SMTP
    with leading dots doubled, cut into network chunks in any way, are stored
    exactly as written (dots removed, CRLF kept), and retrieving the stored
    file over POP3 doubles the dots again and puts the same bytes on the wire.
    No fuel is needed: lines within the storage limit are never folded. *)
Theorem mail_transparency (ls : list bytes) (chunks : list bytes)
  (Hplain : Forall plain ls) (Hshort : Forall (λ l : bytes, length l ≤ kMaxStorageLineBytes)%nat ls)
  (Hsent : concat chunks = wire_text ls) :
  feed_all 0 [] chunks = Some (disk_text ls) ∧ retr_text (disk_text ls) = wire_text ls.
Proof.
  split; [|by apply stuff_body_text].
  rewrite feed_all_carry by done. unfold stored_text. rewrite app_nil_l, Hsent.
  assert (wire_text ls = concat ((λ l, l ++ CRLF) <$> (stuffed <$> ls))) as ->
    by (unfold wire_text; by rewrite <-list_fmap_compose).
  rewrite lines_of_text.
  - cbn [fst snd]. rewrite store_lines_short by done. simpl. by rewrite app_nil_r.
  - clear -Hplain. induction Hplain as [|l ls Hl _ IH]; [constructor|]. rewrite fmap_cons. constructor; [|done].
    by apply stuffed_plain.
Qed.

Lemma mail_transparency_witness :
  feed_all 0 [] [s! "Hi" ++ [CR]; [LF] ++ s! ".."; CRLF] = Some (s! "Hi" ++ CRLF ++ s! "." ++ CRLF) ∧
  retr_text (s! "Hi" ++ CRLF ++ s! "." ++ CRLF) = s! "Hi" ++ CRLF ++ s! ".." ++ CRLF.
Proof.
  apply (mail_transparency [s! "Hi"; s! "."] [s! "Hi" ++ [CR]; [LF] ++ s! ".."; CRLF]).
  - repeat constructor; apply (bool_decide_unpack _); vm_compute; exact I.
  - repeat constructor; apply Nat.leb_le; vm_compute; reflexivity.
  - vm_compute. reflexivity.
Defined.

(** ** The login operation and the mailbox lock *)

Definition is_say (a : Pop3Action) : bool := match a with Say _ => true | _ => false end.
Definition is_settle (a : Pop3Action) : bool :=
  match a with Finish _ | CloseAfterFlush => true | _ => false end.
Definition is_install (a : Pop3Action) : bool := match a with Install _ => true | _ => false end.
Definition is_acquire (a : Pop3Action) : bool := match a with Acquire _ _ => true | _ => false end.
Definition is_release (a : Pop3Action) : bool := match a with Release _ _ => true | _ => false end.

(** Number of actions of a kind. *)
Definition count (p : Pop3Action → bool) (tr : list Pop3Action) : nat := length (List.filter p tr).

Definition is_silent {A} (a : Async A) : bool := match a with Silent => true | _ => false end.

(** Every call the operation makes comes back, by its callback or by throwing. *)
Definition answers (env : LoginEnv) : Prop :=
  (∀ f, authenticator env = Some f → ∀ u p, f u p ≠ Silent) ∧
  (∀ u, get_inbox env u ≠ Silent) ∧ (∀ k, acquire_lock env k ≠ Silent) ∧
  (∀ u i, get_messages env u i ≠ Silent) ∧ (∀ k, release_lock env k ≠ Silent).

(** A failure without a reply needs a closed session. *)
Definition reply_due (env : LoginEnv) (r : bytes) : Prop := r = [] → ∃ c, closed_at env c = true.

(** Some call before the lock never came back. *)
Definition stuck_early (env : LoginEnv) : Prop :=
  (∃ f u p, authenticator env = Some f ∧ f u p = Silent) ∨ (∃ u, get_inbox env u = Silent).

(** The ways a login can end, by its actions. *)
Inductive LoginOutcome (env : LoginEnv) (sid : bytes) : list Pop3Action → Prop :=
  | LO_stuck : stuck_early env → LoginOutcome env sid []
  | LO_refused attempts r auth : reply_due env r → LoginOutcome env sid (reply_failure env attempts r auth)
  | LO_ok user c r :
      acquire_lock env (user, sid) = Answer owned → is_authenticated c = true →
      user_id c = user → session_id c = sid → deleted c = ∅ →
      LoginOutcome env sid [Acquire (user, sid) (Answer owned); Install c; StartHeartbeat; Say r; Finish true]
  | LO_pending user :
      acquire_lock env (user, sid) = Silent ∨ (∃ i, get_messages env user i = Silent) →
      LoginOutcome env sid [Acquire (user, sid) (acquire_lock env (user, sid))]
  | LO_busy user tr attempts r auth :
      reply_due env r →
      acquire_lock env (user, sid) = Answer not_owned →
      (tr = [] ∨ tr = [LockConflict]) →
      LoginOutcome env sid (Acquire (user, sid) (Answer not_owned) :: tr ++ reply_failure env attempts r auth)
  | LO_undone user attempts r auth :
      reply_due env r →
      release_posts env = true → acquire_lock env (user, sid) ≠ Answer not_owned →
      LoginOutcome env sid (Acquire (user, sid) (acquire_lock env (user, sid))
        :: Release (user, sid) (release_lock env (user, sid))
        :: (if is_silent (release_lock env (user, sid)) then [] else reply_failure env attempts r auth))
  | LO_leaked user attempts r auth :
      reply_due env r →
      release_posts env = false → acquire_lock env (user, sid) ≠ Answer not_owned →
      LoginOutcome env sid (Acquire (user, sid) (acquire_lock env (user, sid)) :: reply_failure env attempts r auth).

Section LoginOutcomes.
Context (env : LoginEnv) (ctx : Pop3Context) (sid password : bytes) (attempts : Z).

Lemma fail_before r auth : reply_due env r → LoginOutcome env sid (login_fail env attempts None r auth).
Proof. apply LO_refused. Qed.

Lemma fail_after user r auth :
  reply_due env r →
  acquire_lock env (user, sid) ≠ Answer not_owned →
  LoginOutcome env sid (Acquire (user, sid) (acquire_lock env (user, sid))
                        :: login_fail env attempts (Some (user, sid)) r auth).
Proof.
  intros Hr Hl. simpl. destruct (release_posts env) eqn:E.
  - replace (match release_lock env (user, sid) with Silent => [] | _ => reply_failure env attempts r auth end)
      with (if is_silent (release_lock env (user, sid)) then [] else reply_failure env attempts r auth)
      by (by destruct (release_lock env (user, sid))).
    by apply LO_undone.
  - by apply LO_leaked.
Qed.

Ltac failed :=
  (apply fail_before || apply fail_after); try congruence; unfold reply_due; solve [done | eauto].

Lemma lock_ready_outcome user shard inbox st :
  acquire_lock env (user, sid) = Answer st →
  LoginOutcome env sid (Acquire (user, sid) (acquire_lock env (user, sid))
                        :: lock_ready env ctx sid attempts user shard inbox st).
Proof.
  intros Ha. assert (st ≠ not_owned → acquire_lock env (user, sid) ≠ Answer not_owned) as Hn by congruence.
  destruct st; unfold lock_ready.
  - specialize (Hn ltac:(done)). destruct (closed_at env AfterLock) eqn:?; [failed|].
    destruct (get_messages env user inbox) as [| |[ok rows]] eqn:Em; simpl await.
    + failed.
    + apply LO_pending. eauto.
    + destruct ok; simpl negb; [|failed].
      destruct (closed_at env AfterRows) eqn:?; [failed|].
      unfold queue. destruct (worker_posts env 2); [|failed].
      unfold measure. destruct (measure_rows env rows); [|failed].
      unfold install. destruct (closed_at env AtInstall) eqn:?; [failed|].
      rewrite Ha. by apply LO_ok.
  - rewrite Ha. apply LO_busy; [done|done|]. destruct (closed_at env AtConflict); auto.
  - failed.
Qed.

Lemma login_outcome : LoginOutcome env sid (login env ctx sid password attempts).
Proof.
  unfold login, queue. destruct (worker_posts env 0); [|failed].
  destruct (authenticator env) as [f|] eqn:Ef; [|failed].
  destruct (f (username ctx) password) as [| |r] eqn:Er; simpl await; [failed|apply LO_stuck; left; eauto|].
  destruct (auth_ok r); simpl negb; [|failed].
  destruct (worker_posts env 1); [|failed].
  unfold load_inbox. destruct (closed_at env AtLoad) eqn:?; [failed|].
  destruct (db_pool env (auth_shard r)); simpl negb; [|failed].
  destruct (db_valid env); simpl negb; [|failed].
  destruct (get_inbox env (auth_user r)) as [| |[ok id]] eqn:Ei; simpl await; [failed|apply LO_stuck; right; eauto|].
  destruct ok; simpl negb; [|failed].
  destruct (id =? 0); [failed|].
  destruct (closed_at env BeforeLock) eqn:?; [failed|].
  destruct (acquire_lock env (auth_user r, sid)) as [| |st] eqn:Ea; rewrite <-Ea.
  - rewrite Ea at 2. simpl await. failed.
  - rewrite Ea at 2. simpl await. apply LO_pending. auto.
  - rewrite Ea at 2. simpl await. by apply lock_ready_outcome.
Qed.
End LoginOutcomes.

Lemma count_app p t1 t2 : count p (t1 ++ t2) = (count p t1 + count p t2)%nat.
Proof. unfold count. by rewrite List.filter_app, length_app. Qed.

Lemma count_cons p a t : count p (a :: t) = ((if p a then 1 else 0) + count p t)%nat.
Proof. unfold count. simpl. by destruct (p a). Qed.

(** What a failure's reply can contain. *)
Lemma reply_failure_counts env attempts r auth :
  let tr := reply_failure env attempts r auth in
  count is_say tr = count is_settle tr ∧ (count is_say tr ≤ 1)%nat ∧
  count is_install tr = 0%nat ∧ count is_acquire tr = 0%nat ∧ count is_release tr = 0%nat ∧
  Finish true ∉ tr ∧
  (reply_due env r → (∀ c, closed_at env c = false) → count is_say tr = 1%nat).
Proof.
  cbn zeta. unfold reply_failure. destruct (closed_at env AtReply) eqn:Ec; simpl.
  - split_and!; try done; [vm_compute; lia|set_solver|]. intros _ H. by rewrite H in Ec.
  - destruct (bool_decide (r = [])) eqn:Er; bool_prop.
    + split_and!; try done; [vm_compute; lia|set_solver|].
      intros Hd H. destruct (Hd Er) as [c Hc]. by rewrite H in Hc.
    + destruct auth; [destruct (_ <=? _)|]; (split_and!; try done; set_solver).
Qed.

Lemma count_zero_notin p a tr : count p tr = 0%nat → p a = true → a ∉ tr.
Proof.
  intros Hc Hp Ha. apply list_elem_of_In in Ha.
  assert (a ∈ List.filter p tr) as H by (apply list_elem_of_In, filter_In; auto).
  unfold count in Hc. destruct (List.filter p tr); [set_solver|done].
Qed.

(** The promises of a login, on its trace. *)
Definition LoginGood (env : LoginEnv) (tr : list Pop3Action) : Prop :=
  (count is_say tr = count is_settle tr ∧ count is_say tr ≤ 1)%nat ∧
  (∀ c, Install c ∈ tr →
     is_authenticated c = true ∧ Acquire (user_id c, session_id c) (Answer owned) ∈ tr ∧
     count is_release tr = 0%nat ∧ Finish true ∈ tr) ∧
  (Finish true ∈ tr → count is_install tr = 1%nat) ∧
  (∀ key st, Acquire key st ∈ tr → answers env → release_posts env = true →
     count is_install tr = 1%nat ∨ st = Answer not_owned ∨ Release key (release_lock env key) ∈ tr) ∧
  (answers env → (∀ c, closed_at env c = false) → count is_say tr = 1%nat).

(** A trace that fails: it has the replies of [reply_failure] and no other. *)
Lemma good_failure env att r auth pre :
  count is_say pre = 0%nat → count is_settle pre = 0%nat → count is_install pre = 0%nat → Finish true ∉ pre →
  reply_due env r →
  (∀ key st, Acquire key st ∈ pre → answers env → release_posts env = true →
     st = Answer not_owned ∨ Release key (release_lock env key) ∈ pre) →
  LoginGood env (pre ++ reply_failure env att r auth).
Proof.
  intros P1 P2 P3 P4 Hd Hrel. unfold LoginGood. rewrite !count_app.
  destruct (reply_failure_counts env att r auth) as (R1 & R2 & R3 & R4 & R5 & R6 & R7).
  split_and!; [lia|lia| | | |intros; rewrite R7 by done; lia].
  - intros c Hc. exfalso. apply list.elem_of_app in Hc as [Hc|Hc];
      by eapply (count_zero_notin is_install (Install c)) in Hc.
  - rewrite list.elem_of_app. by intros [|].
  - intros key st [Hin|Hin]%list.elem_of_app Hans Hrp.
    + destruct (Hrel _ _ Hin Hans Hrp); [auto|]. right; right. apply list.elem_of_app. auto.
    + by eapply (count_zero_notin is_acquire (Acquire key st)) in Hin.
Qed.

(** A trace that ends because a call never came back. *)
Lemma good_silent env pre :
  ~ answers env → count is_say pre = 0%nat → count is_settle pre = 0%nat → count is_install pre = 0%nat →
  Finish true ∉ pre → LoginGood env pre.
Proof.
  intros Hans P1 P2 P3 P4. unfold LoginGood. split_and!; [lia|lia| |done|done|done].
  intros c Hc. exfalso. by eapply (count_zero_notin is_install (Install c)) in Hc.
Qed.

Lemma good_ok env user sid c r :
  is_authenticated c = true → user_id c = user → session_id c = sid →
  LoginGood env [Acquire (user, sid) (Answer owned); Install c; StartHeartbeat; Say r; Finish true].
Proof.
  intros Hc Hu Hi. unfold LoginGood. split_and!; [done|vm_compute; lia| |done|by left|done].
  intros c' Hc'. assert (c' = c) as -> by set_solver. rewrite Hu, Hi.
  split_and!; [done|set_solver|done|set_solver].
Qed.

Lemma login_outcome_good env sid tr : LoginOutcome env sid tr → LoginGood env tr.
Proof.
  destruct 1 as [Hs|att r auth Hd|user c r Ha Hc Hu Hi Hdel|user Hp|user t att r auth Hd Ha Ht
                |user att r auth Hd Hrp Ha|user att r auth Hd Hrp Ha].
  - apply good_silent; [|done..|set_solver]. intros (Hf & Hg & _).
    destruct Hs as [(f & u & p & E & Hs)|[u Hs]]; [by eapply Hf|by eapply Hg].
  - apply (good_failure env att r auth []); try done; set_solver.
  - by apply good_ok.
  - apply good_silent; [|done..|set_solver]. intros (_ & _ & Hl & Hm & _).
    destruct Hp as [Hp|[i Hp]]; [by eapply Hl|by eapply Hm].
  - rewrite app_comm_cons. apply good_failure; try done; destruct Ht as [-> | ->]; set_solver.
  - destruct (is_silent (release_lock env (user, sid))) eqn:Es.
    + apply good_silent; [|done..|set_solver]. intros (_ & _ & _ & _ & Hl).
      specialize (Hl (user, sid)). by destruct (release_lock env (user, sid)).
    + apply (good_failure env att r auth [_; _]); try done; set_solver.
  - apply (good_failure env att r auth [_]); try done; [set_solver|]. intros; congruence.
Qed.

(** The login operation and the mailbox lock, whatever the authenticator,
    the repositories, the storage and the worker pool answer, throw or fail to
    answer, and wherever the peer disconnects.  At most one reply is sent, and
    a reply comes with exactly one settlement (the transition finished, or the
    connection closing).  A mailbox is installed, and TRANSACTION entered,
    only while the operation owns the lock under the installed user and
    session, and then the lock is not released.  If every call comes back, a
    lock that was attempted and is not known to belong to someone else is
    released unless the mailbox was installed, also after a disconnect.  If
    besides nobody disconnects, the client gets a reply. *)
Theorem login_lock_discipline (env : LoginEnv) (ctx : Pop3Context) (sid password : bytes) (attempts : Z) :
  let tr := login env ctx sid password attempts in
  (count is_say tr = count is_settle tr ∧ count is_say tr ≤ 1)%nat ∧
  (∀ c, Install c ∈ tr →
     is_authenticated c = true ∧ Acquire (user_id c, session_id c) (Answer owned) ∈ tr ∧
     count is_release tr = 0%nat ∧ Finish true ∈ tr) ∧
  (Finish true ∈ tr → count is_install tr = 1%nat) ∧
  (∀ key st, Acquire key st ∈ tr → answers env → release_posts env = true →
     count is_install tr = 1%nat ∨ st = Answer not_owned ∨ Release key (release_lock env key) ∈ tr) ∧
  (answers env → (∀ c, closed_at env c = false) → count is_say tr = 1%nat).
Proof. cbn zeta. eapply login_outcome_good, login_outcome. Qed.

(** ** A whole session *)

(** The lock a session was granted and has not given back, from its own calls.
    The grant is a lease: [Pop3Lock] has the table behind it. *)
Definition grant1 (cur : option Pop3LockKey) (a : Pop3Action) : option Pop3LockKey :=
  match a with
  | Acquire k (Answer owned) => Some k
  | Release k _ => if bool_decide (cur = Some k) then None else cur
  | _ => cur
  end.
Definition granted (cur : option Pop3LockKey) (tr : list Pop3Action) : option Pop3LockKey := foldl grant1 cur tr.

Definition ids (ctx : Pop3Context) : gset Z := list_to_set (mail_id <$> messages ctx).

(** An action that needs the lock, and the lock was granted. *)
Definition covered (cur : option Pop3LockKey) (a : Pop3Action) : Prop :=
  match a with
  | ApplyDeletions u _ _ _ => ∃ sid, cur = Some (u, sid)
  | _ => True
  end.

Fixpoint all_covered (cur : option Pop3LockKey) (tr : list Pop3Action) : Prop :=
  match tr with
  | [] => True
  | a :: tr => covered cur a ∧ all_covered (grant1 cur a) tr
  end.

Lemma granted_app cur t1 t2 : granted cur (t1 ++ t2) = granted (granted cur t1) t2.
Proof. apply foldl_app. Qed.

Lemma all_covered_app cur t1 t2 :
  all_covered cur (t1 ++ t2) ↔ all_covered cur t1 ∧ all_covered (granted cur t1) t2.
Proof. revert cur. induction t1 as [|a t1 IH]; intros cur; simpl; [tauto|]. rewrite IH. tauto. Qed.

(** What holds of an open session between commands. *)
Record SessionInv (cur : option Pop3LockKey) (s : Pop3Session) : Prop := {
  inv_transaction : p_state s = TRANSACTION →
    is_authenticated (p_ctx s) = true ∧ cur = Some (user_id (p_ctx s), session_id (p_ctx s)) ∧
    deleted (p_ctx s) ⊆ ids (p_ctx s);
  inv_before : p_state s ≠ TRANSACTION → is_authenticated (p_ctx s) = false;
}.

Definition good_session (cur : option Pop3LockKey) (s : Pop3Session) : Prop := p_open s = true → SessionInv cur s.

(** A step from [s] with actions [tr] to [s']. *)
Definition step_ok (cur : option Pop3LockKey) (r : list Pop3Action * Pop3Session) : Prop :=
  all_covered cur r.1 ∧ good_session (granted cur r.1) r.2.

Lemma say_ok cur r s : SessionInv cur s → step_ok cur (say r s).
Proof. intros H. split; [done|]. by intros _. Qed.

(** Commands that only change the deletion marks. *)
Lemma marks_ok cur r d s :
  SessionInv cur s → d ⊆ ids (p_ctx s) → step_ok cur (with_ctx (r, set_deleted d (p_ctx s)) s).
Proof.
  intros [H1 H2] Hd. split; [done|]. intros _. split; simpl; [|done].
  intros E. destruct (H1 E) as (? & ? & _). done.
Qed.

(** Actions that leave state and context of the session, and need no lock. *)
Definition inert (a : Pop3Action) : bool :=
  match a with Install _ | Finish true | FinishClosing | ApplyDeletions _ _ _ _ => false | _ => true end.

Lemma inert_effects tr s :
  forallb inert tr = true → p_state (effects tr s) = p_state s ∧ p_ctx (effects tr s) = p_ctx s.
Proof.
  revert s. induction tr as [|a tr IH]; intros s; [done|]. cbn [forallb]. intros [Ha Ht]%andb_true_iff.
  change (effects (a :: tr) s) with (effects tr (effect a s)).
  destruct (IH (effect a s) Ht) as [-> ->]. destruct a as [| | | | | | | | | |[]| | |]; done.
Qed.

Lemma inert_covered cur tr : forallb inert tr = true → all_covered cur tr.
Proof.
  revert cur. induction tr as [|a tr IH]; intros cur; [done|]. cbn [forallb]. intros [Ha Ht]%andb_true_iff.
  split; [by destruct a|by apply IH].
Qed.

Lemma operate_inert cur tr s :
  p_state s ≠ TRANSACTION → SessionInv cur s → forallb inert tr = true → step_ok cur (operate tr s).
Proof.
  intros Hs [_ H2] Ht. split; [by apply inert_covered|]. intros _. simpl.
  destruct (inert_effects tr (mkP (p_state s) (p_ctx s) (p_attempts s) false) Ht) as [E1 E2].
  split; rewrite E1, ?E2; simpl; [done|auto].
Qed.

Lemma reply_failure_inert env att r auth : forallb inert (reply_failure env att r auth) = true.
Proof. unfold reply_failure. by repeat case_match. Qed.

Lemma login_ok cur env sid args s :
  p_state s ≠ TRANSACTION → SessionInv cur s →
  step_ok cur (operate (login env (p_ctx s) sid args (p_attempts s)) s).
Proof.
  intros Hs Hi. destruct (login_outcome env (p_ctx s) sid args (p_attempts s))
    as [_|att r auth _|user c r Ha Hc Hu Hsid Hdel|user _|user t att r auth _ _ Ht|user att r auth|user att r auth].
  - by apply operate_inert.
  - apply operate_inert; [done..|apply reply_failure_inert].
  - split; [done|]. intros _. split; simpl; [|done]. intros _. rewrite Hc, Hu, Hsid, Hdel.
    split_and!; [done|done|set_solver].
  - by apply operate_inert.
  - apply operate_inert; [done..|]. cbn [forallb inert]. rewrite forallb_app, reply_failure_inert.
    by destruct Ht as [-> | ->].
  - apply operate_inert; [done..|]. cbn [forallb inert].
    destruct (is_silent _); [done|]. by rewrite reply_failure_inert.
  - apply operate_inert; [done..|]. cbn [forallb inert]. by rewrite reply_failure_inert.
Qed.

(** A session only resumes by finishing its transition. *)
Definition resumes (a : Pop3Action) : bool := match a with Finish _ => true | _ => false end.

Lemma stays_paused tr s :
  existsb resumes tr = false → p_open s = false → p_open (effects tr s) = false.
Proof.
  revert s. induction tr as [|a tr IH]; intros s; [done|]. cbn [existsb].
  intros [Ha Ht]%orb_false_iff Hs. apply IH; [done|]. by destruct a.
Qed.

Lemma quit_trace cur env ctx sid :
  cur = Some (user_id ctx, sid) →
  existsb resumes (quit_start env ctx) = false ∧ all_covered cur (quit_start env ctx).
Proof.
  intros ->. unfold quit_start, quit_release_step, quit_finish.
  repeat case_match; simpl; repeat split; eauto.
Qed.

Lemma quit_ok cur env s : SessionInv cur s → step_ok cur (operate (handle_quit env (p_ctx s)) s).
Proof.
  intros [H1 H2]. unfold handle_quit. destruct (is_authenticated (p_ctx s)) eqn:E; [|by split].
  assert (p_state s = TRANSACTION) as Ht by (apply dec_stable; intros Hn; specialize (H2 Hn); congruence).
  destruct (H1 Ht) as (_ & Hc & _). destruct (quit_trace cur env (p_ctx s) _ Hc) as [Hr Ha].
  split; [by split|]. unfold good_session, operate. cbn [snd negb].
  by rewrite stays_paused.
Qed.

Lemma dele_marks args ctx :
  deleted ctx ⊆ ids ctx →
  ∃ d, (handle_dele args ctx).2 = set_deleted d ctx ∧ d ⊆ ids ctx.
Proof.
  intros Hd. assert (ctx = set_deleted (deleted ctx) ctx) as Hid by (by destruct ctx).
  unfold handle_dele. destruct args as [|c args]; [exists (deleted ctx); auto|].
  destruct (select (c :: args) ctx) as [[n m]|] eqn:Es; [|exists (deleted ctx); auto].
  destruct (bool_decide _); [exists (deleted ctx); auto|].
  exists ({[ mail_id m ]} ∪ deleted ctx). split; [done|].
  apply select_spec in Es as (_ & _ & Hm%list_elem_of_lookup_2). apply list_elem_of_filter in Hm as [_ Hm].
  apply union_least; [|done]. apply singleton_subseteq_l, elem_of_list_to_set. by apply list_elem_of_fmap_2.
Qed.

Lemma handler_ok cur ce ev args s :
  (p_state s, ev) ∈ registered → SessionInv cur s → step_ok cur (run_handler ce ev args s).
Proof.
  intros Hr Hi. pose proof Hi as [H1 H2].
  assert (p_state s = TRANSACTION ∨ p_state s ≠ TRANSACTION) as Hst by (destruct (decide (p_state s = TRANSACTION)); auto).
  destruct ev; simpl; try by apply say_ok.
  - split; [done|]. intros _. split; simpl; [done|].
    intros _. apply H2. intros E. rewrite E in Hr. set_solver.
  - assert (p_state s = AUTHORIZATION) as E by (set_solver).
    unfold handle_user. destruct args as [|c args].
    + split; [done|]. intros _. split; simpl; [by rewrite E|auto].
    + split; [done|]. intros _. split; simpl; [by rewrite E|done].
  - assert (p_state s = AUTHORIZATION) as E by (set_solver).
    unfold handle_pass. destruct (pass_rejected _ _); [by apply say_ok|]. apply login_ok; [by rewrite E|done].
  - assert (p_state s = TRANSACTION) as E by (set_solver). destruct (H1 E) as (_ & _ & Hd).
    destruct (dele_marks args (p_ctx s) Hd) as (d & Hdd & Hsub).
    destruct (handle_dele args (p_ctx s)) as [r ctx']. simpl in Hdd. subst. by apply marks_ok.
  - apply (marks_ok _ _ ∅); [done|set_solver].
  - by apply quit_ok.
  - by split.
Qed.

Lemma dispatch_ok cur ce ev args s : good_session cur s → step_ok cur (pop3_dispatch ce ev args s).
Proof.
  intros Hg. unfold pop3_dispatch. destruct (negb (p_open s) || _) eqn:E; [by split|]. bool_prop.
  specialize (Hg ltac:(done)). destruct (guard_target _ _ _); [|by apply say_ok].
  destruct (bool_decide _) eqn:Er; [|by apply say_ok]. bool_prop. by apply handler_ok.
Qed.

Lemma pop3_run_ok cur cmds s : good_session cur s → step_ok cur (pop3_run cmds s).
Proof.
  revert cur s. induction cmds as [|[[ce ev] args] cmds IH]; intros cur s Hg; [by split|]. cbn [pop3_run].
  destruct (dispatch_ok cur ce ev args s Hg) as [H1 H2].
  destruct (pop3_dispatch ce ev args s) as [tr s1]. simpl in H1, H2.
  destruct (IH _ _ H2) as [H3 H4]. destruct (pop3_run cmds s1) as [tr' s2]. simpl in *.
  split; simpl; [by apply all_covered_app|by rewrite granted_app].
Qed.

(** A session and the lock it was granted, over every sequence of commands. *)
Lemma session_granted (cmds : list (CmdEnv * Pop3Event * bytes)) :
  let '(tr, s) := pop3_run cmds new_session in
  (p_open s = true → p_state s = TRANSACTION →
     is_authenticated (p_ctx s) = true ∧ granted None tr = Some (user_id (p_ctx s), session_id (p_ctx s)) ∧
     deleted (p_ctx s) ⊆ ids (p_ctx s)) ∧
  (p_open s = true → p_state s ≠ TRANSACTION → is_authenticated (p_ctx s) = false) ∧
  (∀ before u box mails answer after,
     tr = before ++ ApplyDeletions u box mails answer :: after → ∃ sid, granted None before = Some (u, sid)).
Proof.
  destruct (pop3_run_ok None cmds new_session) as [Hc Hg]; [by intros _|].
  destruct (pop3_run cmds new_session) as [tr s]. simpl in *. split_and!.
  - intros Ho. by apply Hg.
  - intros Ho. by apply Hg.
  - intros before u box mails answer after ->. apply all_covered_app in Hc as [_ [Hc _]]. done.
Qed.

(** A working environment: one user, two messages. *)
Definition sample_login : LoginEnv :=
  mkLoginEnv (λ _, true) (Some (λ u p, Answer (mkAuth (bool_decide (p = s! "pw")) 7 0))) (λ _, false)
    (λ _, true) true (λ _, Answer (true, 9)) (λ _, Answer owned)
    (λ _ _, Answer (true, [mkRow' 11 (s! "a"); mkRow' 0 []; mkRow' 12 (s! "b")]))
    (Some (λ p, Some (Some 20))) true (λ _, Answer true) 3.
Definition sample_quit : QuitEnv :=
  mkQuitEnv true (Some true) true (λ _ _ _, Answer true) (λ _, Answer true) false.
Definition sample_env : CmdEnv := mkCmdEnv (s! "0") true (λ _, None) (s! "s1") sample_login sample_quit.
Definition sample_cmds : list (CmdEnv * Pop3Event * bytes) :=
  [(sample_env, CONNECT, []); (sample_env, USER, s! "u"); (sample_env, PASS, s! "no");
   (sample_env, PASS, s! "pw"); (sample_env, DELE, s! "1")].

Lemma login_lock_discipline_witness :
  ∃ c, Install c ∈ login sample_login cleared (s! "s1") (s! "pw") 0 ∧ is_authenticated c = true.
Proof.
  destruct (login_lock_discipline sample_login cleared (s! "s1") (s! "pw") 0) as (_ & H & _).
  exists (mkCtx [] true 7 9 0 [mkMsg 11 (s! "a") 20; mkMsg 12 (s! "b") 20] ∅ false (s! "s1")).
  assert (Install (mkCtx [] true 7 9 0 [mkMsg 11 (s! "a") 20; mkMsg 12 (s! "b") 20] ∅ false (s! "s1"))
    ∈ login sample_login cleared (s! "s1") (s! "pw") 0) as Hin by (vm_compute; right; left).
  split; [exact Hin|]. exact (proj1 (H _ Hin)).
Defined.

(** ** The command table *)

(** Every cell with a handler has a guard row, and every row has a handler. *)
Example handlers_cover_table :
  forallb (λ c, match guard_target make_pop3_desc c.1 c.2 with Some _ => true | None => false end) registered
  && forallb (λ r, bool_decide ((g_from r, g_on r) ∈ registered)) (d_guards make_pop3_desc)
  && negb (has_conflicting_command make_pop3_desc) = true.
Proof. vm_compute. reflexivity. Qed.

(** The parser's chain of comparisons and the protocol table name the same
    commands. *)
Example parser_matches_table :
  forallb (λ c, bool_decide (event_of c.1 = c.2) && bool_decide (match_command make_pop3_desc c.1 = Some c.2))
    (d_commands make_pop3_desc) = true.
Proof. vm_compute. reflexivity. Qed.
