(* ===== verification/Storage.v ===== *)
(** * Writing message bodies

    Models the write path of the storage layer: the interface
    [include/framework/storage/i_write_stream.h], its two implementations
    ([src/framework/storage/local_file_write_stream.cpp],
    [include/framework/storage/buffered_upload_stream.h]) and the buffered
    writer on top ([include/mail_system/back/storage/mail_body_writer.h]).

    [IWriteStream] is the class [WriteStream]; what a caller may rely on is the
    class [WriteStreamLaws], proved for both implementations.  The writer's
    theorem is proved against the laws only.  System call results and upload
    results are oracles kept in the stream's state. *)

From S2P Require Import Prelude.

Inductive IoKind := Retryable | Permanent.

(** ** The interface *)

Class WriteStream (S : Type) := {
  ws_write_at : S → Z → bytes → option IoKind * S;     (* [None]: success *)
  ws_commit : S → option IoKind * S;
  ws_abort : S → S;
}.

(** [ws_bytes]: what was written so far; [ws_object]: the stored object others
    can see, if any; [ws_open]: neither committed, failed nor closed. *)
Class WriteStreamLaws (S : Type) `{!WriteStream S} := {
  ws_bytes : S → bytes;
  ws_object : S → option bytes;
  ws_open : S → Prop;
  ws_write_ok : ∀ s d s', ws_open s → ws_write_at s (Z.of_nat (length (ws_bytes s))) d = (None, s') →
    ws_open s' ∧ ws_bytes s' = ws_bytes s ++ d;
  ws_commit_ok : ∀ s s', ws_open s → ws_commit s = (None, s') → ws_object s' = Some (ws_bytes s);
}.

(** ** Local files *)

(** Results of [pwrite]: [n] bytes, interrupted, an error, nothing written. *)
Inductive Pwrite := PWrote (n : nat) | PIntr | PError (k : IoKind) | PZero.
(** Results of [fsync]. *)
Inductive Fsync := FDone | FIntr | FError (k : IoKind).

Record LocalFile := mkLocal {
  lf_fd : bool;                        (* [fd_ >= 0] *)
  lf_committed : bool;
  lf_file : option bytes;              (* the file on disk *)
  lf_pwrites : list Pwrite;            (* results to come; then full writes *)
  lf_fsyncs : list Fsync;              (* results to come; then success *)
}.

(** The file after writing [d] at [off]. *)
Definition file_pwrite (c : bytes) (off : nat) (d : bytes) : bytes :=
  take off c ++ replicate (off - length c) 0 ++ d ++ drop (off + length d) c.

Definition set_file (c : option bytes) (ps : list Pwrite) (s : LocalFile) : LocalFile :=
  mkLocal (lf_fd s) (lf_committed s) c ps (lf_fsyncs s).

(** The loop of [write_at]: every round takes a result, and without results
    left everything is written at once. *)
Fixpoint pwrite_loop (ps : list Pwrite) (off : nat) (d : bytes) (s : LocalFile) : option IoKind * LocalFile :=
  let c := default [] (lf_file s) in
  match d with
  | [] => (None, set_file (lf_file s) ps s)
  | _ =>
      match ps with
      | [] => (None, set_file (Some (file_pwrite c off d)) [] s)
      | PIntr :: ps => pwrite_loop ps off d s
      | PError k :: ps => (Some k, set_file (lf_file s) ps s)
      | PZero :: ps | PWrote 0 :: ps => (Some Retryable, set_file (lf_file s) ps s)
      | PWrote n :: ps =>
          pwrite_loop ps (off + length (take n d)) (drop n d)
            (set_file (Some (file_pwrite c off (take n d))) ps s)
      end
  end.

Definition lf_write_at (s : LocalFile) (off : Z) (d : bytes) : option IoKind * LocalFile :=
  if negb (lf_fd s) then (Some Permanent, s) else pwrite_loop (lf_pwrites s) (Z.to_nat off) d s.

Fixpoint fsync_loop (fs : list Fsync) (s : LocalFile) : option IoKind * LocalFile :=
  match fs with
  | FIntr :: fs => fsync_loop fs s
  | FError k :: fs => (Some k, mkLocal (lf_fd s) (lf_committed s) (lf_file s) (lf_pwrites s) fs)
  | FDone :: fs => (None, mkLocal false true (lf_file s) (lf_pwrites s) fs)
  | [] => (None, mkLocal false true (lf_file s) (lf_pwrites s) [])
  end.

Definition lf_commit (s : LocalFile) : option IoKind * LocalFile :=
  if lf_committed s then (None, s) else
  if negb (lf_fd s) then (Some Permanent, s) else fsync_loop (lf_fsyncs s) s.

Definition lf_abort (s : LocalFile) : LocalFile :=
  mkLocal false (lf_committed s) (if lf_committed s then lf_file s else None) (lf_pwrites s) (lf_fsyncs s).

(** [LocalFileWriteStream::open]: an empty file. *)
Definition lf_opened (ps : list Pwrite) (fs : list Fsync) : LocalFile := mkLocal true false (Some []) ps fs.

#[export] Instance local_stream : WriteStream LocalFile :=
  { ws_write_at := lf_write_at; ws_commit := lf_commit; ws_abort := lf_abort }.

Lemma file_pwrite_end c d : file_pwrite c (length c) d = c ++ d.
Proof.
  unfold file_pwrite. rewrite firstn_all, Nat.sub_diag, drop_ge by lia. simpl. by rewrite app_nil_r.
Qed.

Lemma pwrite_loop_ok ps off d s s' c :
  lf_file s = Some c → off = length c → pwrite_loop ps off d s = (None, s') →
  lf_file s' = Some (c ++ d) ∧ lf_fd s' = lf_fd s ∧ lf_committed s' = lf_committed s.
Proof.
  revert off d s c. induction ps as [|p ps IH]; intros off d s c Hf -> H; simpl in H; rewrite Hf in H; simpl in H.
  - destruct d; injection H as <-; simpl; [by rewrite app_nil_r|]. by rewrite file_pwrite_end.
  - destruct d as [|b d]; [injection H as <-; simpl; by rewrite app_nil_r|].
    destruct p as [[|n]| |k|]; try discriminate; [|by eapply IH].
    rewrite file_pwrite_end in H. apply IH with (c := c ++ take (S n) (b :: d)) in H;
      [|done|by rewrite length_app].
    simpl in H. rewrite <-app_assoc, <-app_comm_cons, take_drop in H. done.
Qed.

Lemma fsync_loop_ok fs s s' : fsync_loop fs s = (None, s') → lf_file s' = lf_file s.
Proof. induction fs as [|[| |k] fs IH]; simpl; intros H; first [done|by injection H as <-|by apply IH]. Qed.

#[export] Instance local_laws : WriteStreamLaws LocalFile.
Proof.
  refine {| ws_bytes := λ s, default [] (lf_file s);
            ws_object := λ s, if lf_committed s then lf_file s else None;
            ws_open := λ s, lf_fd s = true ∧ lf_committed s = false ∧ is_Some (lf_file s) |}.
  - intros s d s' (Hfd & Hc & [c Hf]) H. cbn [ws_write_at local_stream] in H. unfold lf_write_at in H.
    rewrite Hfd, Hf, Nat2Z.id in H. simpl in H.
    destruct (pwrite_loop_ok _ _ _ _ _ c Hf eq_refl H) as (-> & E1 & E2). rewrite E1, E2, Hf. simpl. eauto.
  - intros s s' (Hfd & Hc & [c Hf]) H. cbn [ws_commit local_stream] in H. unfold lf_commit in H.
    rewrite Hc, Hfd in H. simpl in H. pose proof (fsync_loop_ok _ _ _ H) as E. rewrite E, Hf. simpl.
    assert (lf_committed s' = true) as ->; [|done].
    clear -H. induction (lf_fsyncs s) as [|[| |k] fs IH]; simpl in H;
      first [done|by injection H as <-|by apply IH].
Defined.

(** ** Uploads of whole objects *)

Record Upload := mkUpload {
  up_buffer : bytes;
  up_committed : bool;
  up_failed : bool;
  up_attempted : bool;
  up_max : Z;
  up_fn : option (bytes → option IoKind);   (* [upload_], [None] when unset *)
  up_remote : option bytes;                 (* the remote object *)
}.

Definition up_fail (s : Upload) : Upload :=
  mkUpload (up_buffer s) (up_committed s) true (up_attempted s) (up_max s) (up_fn s) (up_remote s).

Definition up_write_at (s : Upload) (off : Z) (d : bytes) : option IoKind * Upload :=
  if up_committed s || up_failed s then (Some Permanent, s) else
  match up_fn s with
  | None => (Some Permanent, s)
  | Some _ =>
      if negb (off =? Z.of_nat (length (up_buffer s))) then (Some Permanent, s) else
      if Z.of_nat (length (up_buffer s)) + Z.of_nat (length d) >? up_max s then (Some Permanent, up_fail s) else
      (None, mkUpload (up_buffer s ++ d) (up_committed s) (up_failed s) (up_attempted s) (up_max s) (up_fn s)
               (up_remote s))
  end.

Definition up_commit (s : Upload) : option IoKind * Upload :=
  if up_committed s then (None, s) else
  if up_failed s then (Some Permanent, s) else
  match up_fn s with
  | None => (Some Permanent, s)
  | Some f =>
      match f (up_buffer s) with
      | Some k => (Some k, mkUpload (up_buffer s) false true true (up_max s) (up_fn s) (up_remote s))
      | None => (None, mkUpload [] true (up_failed s) true (up_max s) (up_fn s) (Some (up_buffer s)))
      end
  end.

(** [cleanup_] removes the remote object. *)
Definition up_abort (s : Upload) : Upload :=
  if up_committed s then s else
  mkUpload [] (up_committed s) true false (up_max s) (up_fn s) (if up_attempted s then None else up_remote s).

Definition up_opened (max : Z) (f : bytes → option IoKind) : Upload :=
  mkUpload [] false false false max (Some f) None.

#[export] Instance upload_stream : WriteStream Upload :=
  { ws_write_at := up_write_at; ws_commit := up_commit; ws_abort := up_abort }.

#[export] Instance upload_laws : WriteStreamLaws Upload.
Proof.
  refine {| ws_bytes := up_buffer; ws_object := up_remote;
            ws_open := λ s, up_committed s = false ∧ up_failed s = false |}.
  - intros s d s' [Hc Hf] H. cbn [ws_write_at upload_stream] in H. unfold up_write_at in H.
    rewrite Hc, Hf, Z.eqb_refl in H. simpl in H.
    destruct (up_fn s); [|done]. destruct (_ >? _); [done|]. injection H as <-. done.
  - intros s s' [Hc Hf] H. cbn [ws_commit upload_stream] in H. unfold up_commit in H. rewrite Hc, Hf in H.
    destruct (up_fn s) as [f|]; [|done]. destruct (f (up_buffer s)); [done|]. by injection H as <-.
Defined.

(** ** The buffered writer *)

Section Writer.
Context {S : Type} `{!WriteStream S}.

Record MailBodyWriter := mkWriter {
  wr_stream : option S;
  wr_capacity : nat;
  wr_buffer : bytes;             (* the used part *)
  wr_offset : Z;
  wr_committed : bool;
  wr_failed : bool;
}.

Definition DEFAULT_BUFFER_SIZE : nat := 64 * 1024.

Definition new_writer (st : option S) (capacity : nat) : MailBodyWriter :=
  mkWriter st (if (capacity =? 0)%nat then DEFAULT_BUFFER_SIZE else capacity) [] 0 false false.

Definition emit (st : S) (d : bytes) (w : MailBodyWriter) : option IoKind * MailBodyWriter :=
  match ws_write_at st (wr_offset w) d with
  | (None, st) => (None, mkWriter (Some st) (wr_capacity w) (wr_buffer w)
                           (to_u64 (wr_offset w + Z.of_nat (length d))) (wr_committed w) (wr_failed w))
  | (Some k, st) => (Some k, mkWriter (Some st) (wr_capacity w) (wr_buffer w) (wr_offset w)
                               (wr_committed w) true)
  end.

Definition empty_buffer (w : MailBodyWriter) : MailBodyWriter :=
  mkWriter (wr_stream w) (wr_capacity w) [] (wr_offset w) (wr_committed w) (wr_failed w).

Definition writer_flush (st : S) (w : MailBodyWriter) : option IoKind * MailBodyWriter :=
  match wr_buffer w with
  | [] => (None, w)
  | _ => match emit st (wr_buffer w) w with
         | (None, w) => (None, empty_buffer w)
         | (Some k, w) => (Some k, w)
         end
  end.

(** [write] once the buffer has been flushed if needed. *)
Definition put (d : bytes) (w : MailBodyWriter) : option IoKind * MailBodyWriter :=
  match wr_stream w with
  | None => (Some Permanent, w)                       (* not reached: flush keeps the stream *)
  | Some st =>
      if (wr_capacity w <? length d)%nat then emit st d w
      else (None, mkWriter (wr_stream w) (wr_capacity w) (wr_buffer w ++ d) (wr_offset w) (wr_committed w)
                    (wr_failed w))
  end.

Definition writer_write (d : bytes) (w : MailBodyWriter) : option IoKind * MailBodyWriter :=
  if wr_failed w then (Some Permanent, w) else
  match wr_stream w with
  | None => (Some Permanent, w)
  | Some st =>
      match d with
      | [] => (None, w)
      | _ =>
          if (wr_capacity w <? length (wr_buffer w) + length d)%nat then
            match writer_flush st w with
            | (None, w) => put d w
            | (Some k, w) => (Some k, w)
            end
          else put d w
      end
  end.

(** [commit_async]; the callback's result. *)
Definition writer_commit (w : MailBodyWriter) : option IoKind * MailBodyWriter :=
  if wr_committed w then (None, w) else
  if wr_failed w then (Some Permanent, w) else
  match wr_stream w with
  | None => (Some Permanent, mkWriter None (wr_capacity w) (wr_buffer w) (wr_offset w) false true)
  | Some st =>
      match writer_flush st w with
      | (Some k, w) => (Some k, w)
      | (None, w) =>
          match wr_stream w with
          | None => (Some Permanent, w)               (* not reached *)
          | Some st =>
              match ws_commit st with
              | (None, st) => (None, mkWriter (Some st) (wr_capacity w) (wr_buffer w) (wr_offset w) true
                                       (wr_failed w))
              | (Some k, st) => (Some k, mkWriter (Some st) (wr_capacity w) (wr_buffer w) (wr_offset w)
                                           (wr_committed w) true)
              end
          end
      end
  end.

(** [abort], with the stream as it is left (also the destructor). *)
Definition writer_abort (w : MailBodyWriter) : option S * MailBodyWriter :=
  match wr_stream w with
  | None => (None, w)
  | Some st => (Some (if wr_committed w then st else ws_abort st),
                mkWriter None (wr_capacity w) [] (wr_offset w) (wr_committed w) (wr_failed w))
  end.

Definition bytes_total (w : MailBodyWriter) : Z := to_u64 (wr_offset w + Z.of_nat (length (wr_buffer w))).

(** All chunks of a message, in order; the failed ones are dropped, as in
    [SmtpsSession::append_body_data]. *)
Fixpoint write_all (ds : list bytes) (w : MailBodyWriter) : bool * MailBodyWriter :=
  match ds with
  | [] => (true, w)
  | d :: ds => let '(r, w) := writer_write d w in
               let '(ok, w) := write_all ds w in
               (match r with None => ok | Some _ => false end, w)
  end.
End Writer.

Arguments MailBodyWriter : clear implicits.

(** ** The writer stores exactly what it was given *)

Section Exact.
Context {S : Type} `{!WriteStream S} `{!WriteStreamLaws S}.

(** A working writer that has taken [total]. *)
Definition holds_bytes (w : MailBodyWriter S) (total : bytes) : Prop :=
  wr_committed w = false ∧ wr_failed w = false ∧ Z.of_nat (length total) < 2 ^ 64 ∧
  ∃ st, wr_stream w = Some st ∧ ws_open st ∧ wr_offset w = Z.of_nat (length (ws_bytes st)) ∧
    ws_bytes st ++ wr_buffer w = total.

(** A writer that will never commit. *)
Definition given_up (w : MailBodyWriter S) : Prop := wr_committed w = false ∧ wr_failed w = true.

Lemma holds_bytes_fields (w : MailBodyWriter S) total :
  holds_bytes w total → wr_committed w = false ∧ wr_failed w = false.
Proof. by intros (? & ? & _). Qed.

Lemma emit_spec st d (w : MailBodyWriter S) r w' :
  ws_open st → wr_offset w = Z.of_nat (length (ws_bytes st)) →
  Z.of_nat (length (ws_bytes st ++ d)) < 2 ^ 64 → wr_committed w = false → wr_failed w = false →
  emit st d w = (r, w') →
  match r with
  | None => ∃ st', wr_stream w' = Some st' ∧ ws_open st' ∧ ws_bytes st' = ws_bytes st ++ d ∧
      wr_offset w' = Z.of_nat (length (ws_bytes st')) ∧ wr_buffer w' = wr_buffer w ∧
      wr_capacity w' = wr_capacity w ∧ wr_committed w' = false ∧ wr_failed w' = false
  | Some _ => given_up w'
  end.
Proof.
  intros Ho Hoff Hl Hc Hf. unfold emit. rewrite Hoff.
  destruct (ws_write_at st (Z.of_nat (length (ws_bytes st))) d) as [[k|] st'] eqn:E; intros [= <- <-].
  - by split.
  - destruct (ws_write_ok _ _ _ Ho E) as [Ho' Hb]. exists st'. rewrite Hb, length_app. simpl.
    rewrite to_u64_id by (unfold u64_ok; rewrite length_app in Hl; lia). split_and!; auto. lia.
Qed.

Lemma flush_spec st (w : MailBodyWriter S) total r w' :
  holds_bytes w total → wr_stream w = Some st → writer_flush st w = (r, w') →
  match r with
  | None => holds_bytes w' total ∧ wr_buffer w' = [] ∧ wr_capacity w' = wr_capacity w
  | Some _ => given_up w'
  end.
Proof.
  intros (Hc & Hf & Hl & st0 & Hst & Ho & Hoff & Hb) Hs. assert (st0 = st) as -> by congruence.
  unfold writer_flush. destruct (wr_buffer w) as [|b buf] eqn:Eb.
  { intros [= <- <-]. split; [|done]. split_and!; [done|done|done|]. exists st. by rewrite Eb. }
  rewrite <-Eb in Hb |- *.
  destruct (emit st (wr_buffer w) w) as [[k|] w1] eqn:E; intros [= <- <-];
    pose proof (emit_spec _ _ _ _ _ Ho Hoff ltac:(by rewrite Hb) Hc Hf E) as Hemit; [done|].
  destruct Hemit as (st' & H1 & H2 & H3 & H4 & H5 & H6 & H7 & H8).
  split; [|done]. split_and!; [done|done|done|]. exists st'. simpl. rewrite app_nil_r.
  split_and!; [done|done|done|by rewrite H3].
Qed.

Lemma writer_put_spec d (w : MailBodyWriter S) total r w' :
  holds_bytes w total → (wr_capacity w < length d → wr_buffer w = [])%nat →
  Z.of_nat (length (total ++ d)) < 2 ^ 64 → put d w = (r, w') →
  match r with
  | None => holds_bytes w' (total ++ d)
  | Some _ => given_up w'
  end.
Proof.
  intros (Hc & Hf & Hl & st & Hst & Ho & Hoff & Hb) Hcap Hl' H. unfold put in H. rewrite Hst in H.
  destruct (wr_capacity w <? length d)%nat eqn:E; bool_prop.
  - specialize (Hcap E). rewrite Hcap, app_nil_r in Hb. subst total.
    pose proof (emit_spec _ _ _ _ _ Ho Hoff Hl' Hc Hf H) as Hemit. destruct r; [done|].
    destruct Hemit as (st' & H1 & H2 & H3 & H4 & H5 & H6 & H7 & H8).
    split_and!; [done|done|done|]. exists st'. rewrite H5, Hcap, app_nil_r. auto.
  - injection H as <- <-. split_and!; [done|done|done|]. exists st. simpl. rewrite app_assoc, Hb. auto.
Qed.

Lemma write_spec d (w : MailBodyWriter S) total r w' :
  holds_bytes w total → Z.of_nat (length (total ++ d)) < 2 ^ 64 → writer_write d w = (r, w') →
  match r with
  | None => holds_bytes w' (total ++ d)
  | Some _ => given_up w'
  end.
Proof.
  intros Hh Hl H. pose proof Hh as (Hc & Hf & _ & st & Hst & _). unfold writer_write in H.
  rewrite Hf, Hst in H. destruct d as [|b d]; [injection H as <- <-; by rewrite app_nil_r|].
  destruct (_ <? _)%nat eqn:E; bool_prop.
  - destruct (writer_flush st w) as [[k|] w1] eqn:Ef; pose proof (flush_spec _ _ _ _ _ Hh Hst Ef) as Hfl.
    + by injection H as <- <-.
    + destruct Hfl as (Hh1 & Hb1 & _). by eapply writer_put_spec.
  - eapply writer_put_spec; [done| |done|done]. intros. lia.
Qed.

Lemma write_given_up d (w : MailBodyWriter S) : given_up w → writer_write d w = (Some Permanent, w).
Proof. intros [_ Hf]. unfold writer_write. by rewrite Hf. Qed.

Lemma write_all_spec ds (w : MailBodyWriter S) total ok w' :
  holds_bytes w total → Z.of_nat (length (total ++ concat ds)) < 2 ^ 64 → write_all ds w = (ok, w') →
  if ok then holds_bytes w' (total ++ concat ds) else given_up w'.
Proof.
  revert w total ok. induction ds as [|d ds IH]; intros w total ok Hh Hl H; cbn [write_all concat] in *.
  { injection H as <- <-. by rewrite app_nil_r. }
  rewrite app_assoc in Hl |- *. destruct (writer_write d w) as [r w1] eqn:Ew.
  assert (Z.of_nat (length (total ++ d)) < 2 ^ 64) as Hd by (rewrite length_app in Hl; lia).
  pose proof (write_spec d _ _ _ _ Hh Hd Ew) as Hw.
  destruct r as [k|].
  - assert (∀ ds w, given_up w → (write_all ds w).2 = w) as Hrest.
    { clear. induction ds as [|d ds IH]; intros w Hg; simpl; [done|]. rewrite write_given_up by done.
      specialize (IH w Hg). by destruct (write_all ds w). }
    specialize (Hrest ds w1 Hw). destruct (write_all ds w1) as [ok1 w2]. simpl in Hrest.
    injection H as <- <-. by rewrite Hrest.
  - destruct (write_all ds w1) as [ok1 w2] eqn:E. injection H as <- <-. by eapply IH.
Qed.

Lemma commit_spec (w : MailBodyWriter S) total w' r :
  holds_bytes w total → writer_commit w = (r, w') →
  match r with
  | None => ∃ st', wr_stream w' = Some st' ∧ ws_object st' = Some total ∧ wr_committed w' = true
  | Some _ => given_up w'
  end.
Proof.
  intros Hh H. pose proof Hh as (Hc & Hf & _ & st & Hst & _). unfold writer_commit in H.
  rewrite Hc, Hf, Hst in H.
  destruct (writer_flush st w) as [[k|] w1] eqn:Ef; pose proof (flush_spec _ _ _ _ _ Hh Hst Ef) as Hfl.
  { by injection H as <- <-. }
  destruct Hfl as ((Hc1 & Hf1 & _ & st1 & Hst1 & Ho1 & _ & Hb1) & Hbuf & _). rewrite Hst1 in H.
  rewrite Hbuf, app_nil_r in Hb1.
  destruct (ws_commit st1) as [[k|] st2] eqn:Ec; injection H as <- <-; [by split|].
  exists st2. simpl. split_and!; [done| |done]. rewrite <-Hb1. by eapply ws_commit_ok.
Qed.

(** C40: A body that is reported as stored is stored exactly.  For every stream
    that obeys the interface, every buffer capacity and every division of the
    message into chunks (small ones that share a buffer, ones larger than the
    buffer, empty ones): if [commit] succeeds then every chunk was written and
    the stored object is their concatenation; if any write failed, [commit]
    fails as well, and an uncommitted writer is not marked committed, so that
    its destruction aborts the stream. *)
Theorem body_writer_exact (st : S) (capacity : nat) (ds : list bytes)
  (Hopen : ws_open st) (Hnew : ws_bytes st = []) (Hlen : Z.of_nat (length (concat ds)) < 2 ^ 64) :
  let '(ok, w) := write_all ds (new_writer (Some st) capacity) in
  (ok = true → bytes_total w = Z.of_nat (length (concat ds))) ∧
  match writer_commit w with
  | (None, w') => ok = true ∧ wr_committed w' = true ∧
                  ∃ st', wr_stream w' = Some st' ∧ ws_object st' = Some (concat ds)
  | (Some _, w') => wr_committed w' = false ∧ wr_failed w' = true
  end.
Proof.
  assert (holds_bytes (new_writer (Some st) capacity) []) as Hnewh.
  { split_and!; [done|done|done|]. exists st. simpl. rewrite Hnew. done. }
  destruct (write_all ds (new_writer (Some st) capacity)) as [ok w] eqn:E.
  pose proof (write_all_spec _ _ _ _ _ Hnewh Hlen E) as Hw. destruct ok; [split|split; [done|]].
  - intros _. destruct Hw as (_ & _ & _ & st' & _ & _ & Hoff & Hb). unfold bytes_total.
    rewrite Hoff, <-Nat2Z.inj_add, <-length_app, Hb. apply to_u64_id. unfold u64_ok. simpl. lia.
  - destruct (writer_commit w) as [[k|] w'] eqn:Ec; pose proof (commit_spec _ _ _ _ Hw Ec) as Hcm; [done|].
    destruct Hcm as (st' & ? & ? & ?). eauto.
  - destruct Hw as [Hc Hf]. unfold writer_commit. by rewrite Hc, Hf.
Qed.
End Exact.

(** A local file whose writes are interrupted and partial. *)
Definition shaky_file : LocalFile := lf_opened [PIntr; PWrote 2; PWrote 1] [FIntr; FDone].
Definition sample_chunks : list bytes := [[1; 2]; []; [3; 4; 5; 6; 7]; [8]].

Lemma body_writer_exact_witness :
  ∃ st', wr_stream (writer_commit (write_all sample_chunks (new_writer (Some shaky_file) 3)).2).2 = Some st' ∧
    ws_object st' = Some [1; 2; 3; 4; 5; 6; 7; 8].
Proof.
  pose proof (body_writer_exact shaky_file 3 sample_chunks) as H.
  assert (ws_open shaky_file) as Ho by (vm_compute; eauto).
  specialize (H Ho eq_refl ltac:(vm_compute; reflexivity)).
  assert ((writer_commit (write_all sample_chunks (new_writer (Some shaky_file) 3)).2).1 = None) as Hc
    by (vm_compute; reflexivity).
  destruct (write_all sample_chunks (new_writer (Some shaky_file) 3)) as [ok w]. cbn [snd] in *.
  destruct H as [_ H]. destruct (writer_commit w) as [r w']. cbn [fst snd] in *. subst r.
  destruct H as (_ & _ & st' & Hs & Hobj). exists st'. split; [exact Hs|exact Hobj].
Defined.
