(* ===== verification/SmtpText.v ===== *)
(** * Message text handling of the SMTP server

    Models [src/mail_system/back/algorithm/smtp_utils.cpp] (header and MIME
    bookkeeping while DATA arrives), the header functions of
    [src/mail_system/back/inbound/inbound_verifier.cpp] the sender rules use,
    the address rules of [common/account_policy.h] and the trusted-network test
    of [fsm/smtps/traditional_smtps_fsm.tpp].

    The fields of [SmtpsContext] that the DATA parser owns are the record
    [DataCtx], those of the MIME part being read the record [Part].
    [std::regex] searches for a parameter are the function [find_param];
    [inet_pton] is a parameter. *)

From S2P Require Import Prelude CString LineFolder.

Definition is_ws (c : Z) : bool := (c =? SP) || (c =? HTAB) || (c =? CR) || (c =? LF).

Definition trim (s : bytes) : bytes := drop_while_end is_ws (drop_while is_ws s).

Definition to_lower (s : bytes) : bytes := tolower <$> s.

Definition sanitize_filename (name : bytes) : bytes :=
  match (λ c, if (c =? 47) || (c =? 92) || (c =? SP) then 95 else c) <$> name with
  | [] => s! "attachment"
  | out => out
  end.

(** [std::getline] until the end of the stream. *)
Fixpoint getlines (cur s : bytes) : list bytes :=
  match s with
  | [] => match cur with [] => [] | _ => [cur] end
  | c :: s => if c =? LF then cur :: getlines [] s else getlines (cur ++ [c]) s
  end.

(** [std::getline] with a separator, until the end of the stream. *)
Fixpoint getlines_sep (sep : Z) (cur s : bytes) : list bytes :=
  match s with
  | [] => match cur with [] => [] | _ => [cur] end
  | c :: s => if c =? sep then cur :: getlines_sep sep [] s else getlines_sep sep (cur ++ [c]) s
  end.

(** [stream >> word] until the end of the stream. *)
Fixpoint words (cur s : bytes) : list bytes :=
  match s with
  | [] => match cur with [] => [] | _ => [cur] end
  | c :: s => if isspace c then match cur with [] => words [] s | _ => cur :: words [] s end
              else words (cur ++ [c]) s
  end.

Fixpoint take_while (p : Z → bool) (s : bytes) : bytes :=
  match s with
  | [] => []
  | c :: s => if p c then c :: take_while p s else []
  end.

(** The regular expressions of the source: a key (ignoring case), blanks, an
    equals sign, blanks, an optional double quote and the group, one or more
    characters other than double quote and semicolon; at the start of [s]. *)
Definition match_param (key s : bytes) : option bytes :=
  if (length key <=? length s)%nat && bool_decide (to_lower (take (length key) s) = key) then
    match drop_while isspace (drop (length key) s) with
    | 61 :: r =>
        let r2 := drop_while isspace r in
        let body := match r2 with 34 :: r3 => r3 | _ => r2 end in
        match take_while (λ c, negb ((c =? DQUOTE) || (c =? 59))) body with
        | [] => (λ c, [c]) <$> list.last (take_while isspace r)    (* the blank run gives one back *)
        | group => Some group
        end
    | _ => None
    end
  else None.

Fixpoint find_param (key s : bytes) : option bytes :=
  match match_param key s with
  | Some g => Some g
  | None => match s with [] => None | _ :: s => find_param key s end
  end.

Definition extract_boundary (content_type : bytes) : bytes := default [] (find_param (s! "boundary") content_type).

(** ** Headers *)

Definition strip_cr (line : bytes) : bytes :=
  match list.last line with Some c => if c =? CR then take (length line - 1) line else line | None => line end.

Definition is_blank (c : Z) : bool := (c =? SP) || (c =? HTAB).

(** One line of [parse_headers_map]: the map and the last key. *)
Definition header_line (line : bytes) (st : gmap bytes bytes * bytes) : gmap bytes bytes * bytes :=
  let '(hs, last_key) := st in
  let line := strip_cr line in
  match line with
  | c :: _ =>
      if is_blank c then
        (match last_key with [] => hs | _ => <[last_key := default [] (hs !! last_key) ++ [SP] ++ trim line]> hs end,
         last_key)
      else
        match find_char 58 line with
        | None => (hs, last_key)
        | Some pos =>
            let key := to_lower (take pos line) in
            (<[key := drop_while is_blank (drop (pos + 1) line)]> hs, key)
        end
  | [] => (hs, last_key)
  end.

Definition parse_headers_map (block : bytes) : gmap bytes bytes :=
  (foldl (λ st l, header_line l st) (∅, []) (getlines [] block)).1.

Definition get_header_value (hs : gmap bytes bytes) (key : bytes) : bytes := default [] (hs !! to_lower key).

(** [trim] of [inbound_verifier.cpp] *)
Definition trim_blanks (s : bytes) : bytes := drop_while_end is_blank (drop_while is_blank s).

(** The fold of [get_header_values]; an empty line ends the headers. *)
Fixpoint header_values (name : bytes) (ls : list bytes) (cur_name cur_val : bytes) (acc : list bytes) : list bytes :=
  let emit := if bool_decide (to_lower cur_name = name) && negb (bool_decide (cur_val = []))
              then acc ++ [cur_val] else acc in
  match ls with
  | [] => emit
  | l :: ls =>
      match strip_cr l with
      | [] => emit
      | (c :: _) as line =>
          if is_blank c then
            header_values name ls cur_name
              (match cur_name with [] => cur_val | _ => cur_val ++ [SP] ++ trim_blanks line end) acc
          else
            match find_char 58 line with
            | Some colon => header_values name ls (take colon line) (trim_blanks (drop (colon + 1) line)) emit
            | None => header_values name ls [] [] emit
            end
      end
  end.

Definition get_header_values (headers name : bytes) : list bytes := header_values name (getlines [] headers) [] [] [].

Definition extract_from_header_value (headers : bytes) : bytes :=
  match get_header_values headers (s! "from") with [] => [] | v :: _ => v end.

(** ** Address rules *)

(** [s.rfind(c)] *)
Fixpoint rfind_char (c : Z) (s : bytes) : option nat :=
  match s with
  | [] => None
  | b :: s => match rfind_char c s with
              | Some i => Some (S i)
              | None => if b =? c then Some 0%nat else None
              end
  end.

Definition AT : Z := 64.

Definition submission_sender (authenticated requested : bytes) : bytes :=
  match authenticated with [] => requested | _ => authenticated end.

Definition recipient_allowed (address domain : bytes) (external : bool) : bool :=
  external ||
  match rfind_char AT address with
  | Some at_ => bool_decide (to_lower (trim (drop (at_ + 1) address)) = to_lower domain)
  | None => false
  end.

Definition envelope_sender_is_local (sender system_domain : bytes) : bool :=
  match rfind_char AT sender with
  | None => false
  | Some at_ =>
      let domain := trim (drop (at_ + 1) sender) in
      let domain := match list.last domain with
                    | Some 62 => take (length domain - 1) domain
                    | _ => domain
                    end in
      let domain := match domain with 60 :: d => d | _ => domain end in
      bool_decide (to_lower domain = to_lower system_domain)
  end.

(** [substr(begin + 1, end - begin - 1)] with [size_t] arithmetic: when the
    closing bracket comes first the length wraps and everything to the end is
    taken. *)
Definition between (s : bytes) (b e : nat) : bytes :=
  if (b <? e)%nat then slice s (b + 1) (e - b - 1) else drop (b + 1) s.

Definition from_header_address_domain (v : bytes) : bytes * bytes :=
  let addr := match find_char 60 v, find_char 62 v with
              | Some b, Some e => between v b e
              | _, _ => v
              end in
  match find_char AT addr with
  | None => ([], [])
  | Some at_ => (trim addr, to_lower (drop (at_ + 1) addr))
  end.

Definition from_header_address (v : bytes) : bytes := (from_header_address_domain v).1.
Definition from_header_domain (v : bytes) : bytes := (from_header_address_domain v).2.

Definition from_header_is_local (v system_domain : bytes) : bool :=
  let domain := from_header_domain v in
  negb (bool_decide (domain = [])) && bool_decide (domain = to_lower system_domain).

Definition from_header_matches_account (v authenticated : bytes) : bool :=
  let addr := from_header_address v in
  negb (bool_decide (addr = [])) && negb (bool_decide (authenticated = [])) &&
  bool_decide (to_lower addr = to_lower (trim authenticated)).

Definition account_in_alias_targets (targets : list bytes) (authenticated : bytes) : bool :=
  let who := to_lower (trim authenticated) in
  negb (bool_decide (who = [])) && existsb (λ t, bool_decide (to_lower (trim t) = who)) targets.

(** [parse_uint] *)
Definition parse_uint (s : bytes) : option Z :=
  match from_chars_u64 s with Some (v, []) => Some v | _ => None end.

(** [outbound::base64_decode]; the bytes [EVP_DecodeBlock] produces are a
    parameter ([None]: a result that is not positive). *)
Definition base64_decode (EVP_DecodeBlock : bytes → option bytes) (encoded : bytes) : bytes :=
  match encoded with
  | [] => []
  | _ =>
      match EVP_DecodeBlock encoded with
      | None => []
      | Some out =>
          let pad1 := if bool_decide (encoded !! (length encoded - 1)%nat = Some 61) then 1 else 0 in
          let pad2 := if (1 <? length encoded)%nat && bool_decide (encoded !! (length encoded - 2)%nat = Some 61)
                      then 1 else 0 in
          let real_len := Z.of_nat (length out) - (pad1 + pad2) in
          if real_len <? 0 then [] else take (Z.to_nat real_len) out
      end
  end.

(** [inet_pton(AF_INET, ...)] in host order is a parameter. *)
Section Trusted.
Context (inet_pton : bytes → option Z).

Definition entry_matches (ip entry : bytes) : bool :=
  bool_decide (entry = ip) ||
  match find_char 47 entry with
  | None => false
  | Some slash =>
      match parse_uint (drop (slash + 1) entry) with
      | None => false
      | Some prefix =>
          if prefix >? 32 then false else
          match inet_pton (take slash entry), inet_pton ip with
          | Some base, Some addr =>
              let mask := if prefix =? 0 then 0 else to_u32 ((2 ^ 32 - 1) ≪ (32 - prefix)) in
              Z.land base mask =? Z.land addr mask
          | _, _ => false
          end
      end
  end.

Definition ip_in_trusted_networks (ip : bytes) (networks : list bytes) : bool :=
  if bool_decide (ip = []) || bool_decide (networks = []) then false else existsb (entry_matches ip) networks.
End Trusted.

(** ** The DATA parser *)

Record attachment := mkAtt {
  a_filename : bytes; a_filepath : bytes; a_mime_type : bytes; a_file_size : Z }.

Record Part := mkPart {
  in_part_header : bool;
  current_part_headers : bytes;
  current_part_is_attachment : bool;
  current_part_encoding : bytes;
  current_part_mime : bytes;
  current_attachment_filename : bytes;
  current_attachment_path : bytes;
  base64_remainder : bytes;
  current_attachment_size : Z;
}.

Record DataCtx := mkData {
  mail_data : bytes;
  parsed_subject : bytes;
  source_message_id : bytes;
  header_parsed : bool;
  streaming_enabled : bool;
  multipart : bool;
  has_attachment : bool;
  boundary : bytes;
  header_buffer : bytes;
  line_buffer : bytes;
  text_body_buffer : bytes;
  text_body_size : Z;
  buffered_body_size : Z;
  body_limit_exceeded : bool;
  part : Part;
  streamed_attachments : list attachment;
}.

Definition new_part : Part := mkPart false [] false [] [] [] [] [] 0.
Definition new_data : DataCtx := mkData [] [] [] false false false false [] [] [] [] 0 0 false new_part [].

Definition MAX_BODY_BYTES : Z := 10 * 1024 * 1024.

Definition analyze_top_header (c : DataCtx) : DataCtx :=
  let hs := parse_headers_map (header_buffer c) in
  let ct := to_lower <$> hs !! s! "content-type" in
  let b := match ct with Some l => extract_boundary l | None => boundary c end in
  let multi := match ct with
               | Some l => match find_sub (s! "multipart/") l with
                           | Some _ => negb (bool_decide (b = []))
                           | None => false
                           end
               | None => false
               end in
  mkData (mail_data c) (get_header_value hs (s! "subject")) (get_header_value hs (s! "message-id"))
    (header_parsed c) (streaming_enabled c || multi) (multipart c || multi) (has_attachment c) b (header_buffer c)
    (line_buffer c) (text_body_buffer c) (text_body_size c) (buffered_body_size c) (body_limit_exceeded c)
    (part c) (streamed_attachments c).

(** The whole-message fields keep their values; [p] is the part, [att] whether
    an attachment was seen. *)
Definition set_part (p : Part) (att : bool) (c : DataCtx) : DataCtx :=
  mkData (mail_data c) (parsed_subject c) (source_message_id c) (header_parsed c) (streaming_enabled c)
    (multipart c) att (boundary c) (header_buffer c) (line_buffer c) (text_body_buffer c) (text_body_size c)
    (buffered_body_size c) (body_limit_exceeded c) p (streamed_attachments c).

Definition handle_part_header_parsed (c : DataCtx) : DataCtx :=
  let p := part c in
  let hs := parse_headers_map (current_part_headers p) in
  let disp := to_lower (default [] (hs !! s! "content-disposition")) in
  let enc := to_lower (default [] (hs !! s! "content-transfer-encoding")) in
  let mime := to_lower (default [] (hs !! s! "content-type")) in
  let is_att := match find_sub (s! "attachment") disp, find_sub (s! "filename") disp with
                | None, None => false
                | _, _ => true
                end in
  let name := default (s! "attachment") (find_param (s! "filename") (current_part_headers p)) in
  set_part
    (mkPart (in_part_header p) (current_part_headers p) is_att enc mime
       (if is_att then sanitize_filename name else [])
       (if is_att then current_attachment_path p else [])
       (base64_remainder p) (current_attachment_size p))
    (has_attachment c || is_att) c.

Definition part_header (inh : bool) (headers : bytes) (c : DataCtx) : DataCtx :=
  let p := part c in
  set_part (mkPart inh headers (current_part_is_attachment p) (current_part_encoding p) (current_part_mime p)
              (current_attachment_filename p) (current_attachment_path p) (base64_remainder p)
              (current_attachment_size p)) (has_attachment c) c.

(** [line] and a line end go to [mail_data]. *)
Definition append_mail_data (line : bytes) (c : DataCtx) : DataCtx :=
  mkData (mail_data c ++ line ++ CRLF) (parsed_subject c) (source_message_id c) (header_parsed c)
    (streaming_enabled c) (multipart c) (has_attachment c) (boundary c) (header_buffer c) (line_buffer c)
    (text_body_buffer c) (text_body_size c) (buffered_body_size c) (body_limit_exceeded c) (part c)
    (streamed_attachments c).

(** A text line of the current part. *)
Definition add_text (line : bytes) (c : DataCtx) : DataCtx :=
  let added := Z.of_nat (length line) + 2 in
  if text_body_size c + added >? MAX_BODY_BYTES then c else
  let keep := match find_sub (s! "text/plain") (current_part_mime (part c)) with
              | Some _ => true
              | None => bool_decide (text_body_buffer c = [])
              end in
  mkData (mail_data c) (parsed_subject c) (source_message_id c) (header_parsed c) (streaming_enabled c)
    (multipart c) (has_attachment c) (boundary c) (header_buffer c) (line_buffer c)
    (if keep then text_body_buffer c ++ line ++ CRLF else text_body_buffer c) (text_body_size c + added)
    (buffered_body_size c) (body_limit_exceeded c) (part c) (streamed_attachments c).

Definition handle_multipart_line (line : bytes) (c : DataCtx) : DataCtx :=
  if body_limit_exceeded c then c else
  if negb (multipart c) || bool_decide (boundary c = []) then append_mail_data line c else
  let marker := s! "--" ++ boundary c in
  let lower := to_lower line in
  if bool_decide (lower = marker ++ s! "--") then part_header false [] c else
  if bool_decide (lower = marker) then part_header true [] c else
  if in_part_header (part c) then
    match line with
    | [] => handle_part_header_parsed (part_header false (current_part_headers (part c)) c)
    | _ => part_header true (current_part_headers (part c) ++ line ++ CRLF) c
    end
  else if current_part_is_attachment (part c) then c
  else add_text line c.

(** A header line. *)
Definition add_header_line (line : bytes) (c : DataCtx) : DataCtx :=
  let c := mkData (mail_data c) (parsed_subject c) (source_message_id c)
             (match line with [] => true | _ => header_parsed c end) (streaming_enabled c)
             (multipart c) (has_attachment c) (boundary c) (header_buffer c ++ line ++ CRLF) (line_buffer c)
             (text_body_buffer c) (text_body_size c) (buffered_body_size c) (body_limit_exceeded c) (part c)
             (streamed_attachments c) in
  match line with [] => analyze_top_header c | _ => c end.

(** A body line that is kept in memory, with the size limit. *)
Definition add_buffered (line : bytes) (c : DataCtx) : DataCtx :=
  let size := buffered_body_size c + Z.of_nat (length line) + 2 in
  let over := size >? MAX_BODY_BYTES in
  mkData (if over then mail_data c else mail_data c ++ line ++ CRLF) (parsed_subject c) (source_message_id c)
    (header_parsed c) (streaming_enabled c) (multipart c) (has_attachment c) (boundary c) (header_buffer c)
    (line_buffer c) (text_body_buffer c) (text_body_size c) size (body_limit_exceeded c || over) (part c)
    (streamed_attachments c).

(** One complete line of the loop of [process_message_data]. *)
Definition data_line (line : bytes) (c : DataCtx) : DataCtx :=
  if body_limit_exceeded c then c else
  if negb (header_parsed c) then add_header_line line c else
  let line := unstuff_dot line in
  if streaming_enabled c then handle_multipart_line line c else add_buffered line c.

Definition set_line_buffer (b : bytes) (c : DataCtx) : DataCtx :=
  mkData (mail_data c) (parsed_subject c) (source_message_id c) (header_parsed c) (streaming_enabled c)
    (multipart c) (has_attachment c) (boundary c) (header_buffer c) b (text_body_buffer c) (text_body_size c)
    (buffered_body_size c) (body_limit_exceeded c) (part c) (streamed_attachments c).

(** The loop; every round takes a line end out of the buffer. *)
Fixpoint data_loop (fuel : nat) (c : DataCtx) : DataCtx :=
  match fuel with
  | O => c
  | S fuel =>
      match find_sub CRLF (line_buffer c) with
      | None => c
      | Some pos =>
          let line := take pos (line_buffer c) in
          data_loop fuel (data_line line (set_line_buffer (drop (pos + 2) (line_buffer c)) c))
      end
  end.

Definition process_message_data (data : bytes) (c : DataCtx) : DataCtx :=
  let c := set_line_buffer (line_buffer c ++ data) c in
  data_loop (length (line_buffer c)) c.

(** [finalize_attachment_from_context] of the session. *)
Definition finalize_attachment (c : DataCtx) : DataCtx :=
  let p := part c in
  let atts := if current_part_is_attachment p && negb (bool_decide (current_attachment_filename p = []))
              then streamed_attachments c ++
                   [mkAtt (current_attachment_filename p) (current_attachment_path p)
                      (match current_part_mime p with [] => s! "application/octet-stream" | m => m end)
                      (current_attachment_size p)]
              else streamed_attachments c in
  mkData (mail_data c) (parsed_subject c) (source_message_id c) (header_parsed c) (streaming_enabled c)
    (multipart c) (has_attachment c) (boundary c) (header_buffer c) (line_buffer c) (text_body_buffer c)
    (text_body_size c) (buffered_body_size c) (body_limit_exceeded c)
    (mkPart (in_part_header p) [] false [] [] [] [] [] 0) atts.

(** [cleanup_streamed_attachments] forgets the attachments. *)
Definition clear_attachments (c : DataCtx) : DataCtx :=
  mkData (mail_data c) (parsed_subject c) (source_message_id c) (header_parsed c) (streaming_enabled c)
    (multipart c) (has_attachment c) (boundary c) (header_buffer c) (line_buffer c) (text_body_buffer c)
    (text_body_size c) (buffered_body_size c) (body_limit_exceeded c) (part c) [].

(** The part of [reset_mail_state] that concerns these fields. *)
Definition reset_data (c : DataCtx) : DataCtx :=
  mkData [] [] [] (header_parsed c) false false (has_attachment c) [] [] [] [] (text_body_size c)
    (buffered_body_size c) false (part c) [].

(** ** The parser does not see chunk boundaries *)

Lemma data_line_buffer l b c : data_line l (set_line_buffer b c) = set_line_buffer b (data_line l c).
Proof.
  unfold data_line, add_header_line, handle_multipart_line, add_text, append_mail_data,
    handle_part_header_parsed, part_header, analyze_top_header, add_buffered, set_part.
  destruct c; cbn -[find_sub parse_headers_map to_lower extract_boundary unstuff_dot find_param Z.gtb].
  repeat (case_goal; cbn -[find_sub parse_headers_map to_lower extract_boundary unstuff_dot find_param Z.gtb]);
    reflexivity.
Qed.

Lemma set_line_buffer_twice b b' c : set_line_buffer b (set_line_buffer b' c) = set_line_buffer b c.
Proof. by destruct c. Qed.

Lemma line_buffer_set b c : line_buffer (set_line_buffer b c) = b.
Proof. by destruct c. Qed.

Definition data_lines (ls : list bytes) (c : DataCtx) : DataCtx := foldl (λ c l, data_line l c) c ls.

Lemma data_lines_buffer ls b c : data_lines ls (set_line_buffer b c) = set_line_buffer b (data_lines ls c).
Proof.
  revert c. induction ls as [|l ls IH]; intros c; [done|]. cbn [data_lines foldl].
  rewrite data_line_buffer. apply IH.
Qed.

Lemma data_loop_eq fuel s c :
  (length s ≤ fuel)%nat →
  data_loop fuel (set_line_buffer s c) = set_line_buffer (lines_of s).2 (data_lines (lines_of s).1 c).
Proof.
  revert s c. induction fuel as [|fuel IH]; intros s c Hl; rewrite lines_of_eq; cbn [data_loop].
  - by destruct s; [|simpl in Hl; lia].
  - rewrite line_buffer_set. destruct (find_sub CRLF s) as [nl|] eqn:E; [|done].
    pose proof (find_crlf_length _ _ E).
    rewrite data_line_buffer, data_line_buffer, set_line_buffer_twice, IH by (rewrite length_drop; lia).
    by destruct (lines_of (drop (nl + 2) s)).
Qed.

Lemma process_eq data c :
  process_message_data data c =
    set_line_buffer (lines_of (line_buffer c ++ data)).2 (data_lines (lines_of (line_buffer c ++ data)).1 c).
Proof. unfold process_message_data. rewrite line_buffer_set. by rewrite data_loop_eq. Qed.

(** Feeding two chunks one after the other is feeding their concatenation. *)
Lemma process_app a b c :
  process_message_data b (process_message_data a c) = process_message_data (a ++ b) c.
Proof.
  rewrite !process_eq, line_buffer_set, app_assoc, (lines_of_app (line_buffer c ++ a)).
  destruct (lines_of (line_buffer c ++ a)) as [ls r]. cbn [fst snd].
  destruct (lines_of (r ++ b)) as [ls' r']. cbn [fst snd].
  rewrite data_lines_buffer, set_line_buffer_twice. unfold data_lines. by rewrite foldl_app.
Qed.

(** ** What the header buffer sees *)

Lemma data_line_headers l c :
  header_parsed c = true → header_parsed (data_line l c) = true ∧ header_buffer (data_line l c) = header_buffer c.
Proof.
  intros Hp. unfold data_line, handle_multipart_line, add_text, append_mail_data, handle_part_header_parsed,
    part_header, add_buffered, set_part. rewrite Hp. destruct c; cbn in Hp; subst.
  cbn -[find_sub parse_headers_map to_lower extract_boundary unstuff_dot find_param Z.gtb].
  repeat (case_goal; cbn -[find_sub parse_headers_map to_lower extract_boundary unstuff_dot find_param Z.gtb]);
    auto.
Qed.

Lemma data_lines_headers ls c :
  header_parsed c = true → header_parsed (data_lines ls c) = true ∧ header_buffer (data_lines ls c) = header_buffer c.
Proof.
  revert c. induction ls as [|l ls IH]; intros c Hp; [done|]. cbn [data_lines foldl].
  destruct (data_line_headers l c Hp) as [Hp' Hb]. destruct (IH _ Hp') as [H1 H2].
  split; [exact H1|]. by etrans; [exact H2|].
Qed.

(** Once the headers are parsed the buffer does not change any more. *)
Lemma process_headers text c :
  header_parsed c = true →
  header_parsed (process_message_data text c) = true ∧ header_buffer (process_message_data text c) = header_buffer c.
Proof.
  intros Hp. rewrite process_eq. destruct (data_lines_headers (lines_of (line_buffer c ++ text)).1 c Hp) as [H1 H2].
  rewrite <-H1, <-H2. by destruct (data_lines _ c).
Qed.

(** A last line without its line end is not seen. *)
Lemma process_last_line text l c :
  (lines_of (line_buffer c ++ text)).2 = [] → find_sub CRLF l = None →
  header_buffer (process_message_data (text ++ l) c) = header_buffer (process_message_data text c).
Proof.
  intros Hr Hl. rewrite <-process_app, (process_eq l), process_eq, line_buffer_set, Hr. cbn [app].
  assert (lines_of l = ([], l)) as -> by (rewrite lines_of_eq; by rewrite Hl). cbn [fst snd data_lines foldl].
  by rewrite set_line_buffer_twice.
Qed.
