(* ===== verification/Pop3Lock.v ===== *)
(** * The POP3 mailbox lock

    Models [src/mail_system/back/repository/pop3_lock_repository.cpp] (the
    statements on [pop3_session_lock] and what the repository reports), the
    heartbeat of [fsm/pop3/traditional_pop3_fsm.tpp] and the sweeper of
    [mailServer/pop3/pop3_server.cpp].

    The table is a map from user to row ([user_id] is its primary key), a
    statement a function of the database clock (in seconds) and the table.
    The lock is a lease: the sweeper deletes a row whose heartbeat is older
    than five minutes, whatever its session believes. *)

From S2P Require Import Prelude CString FsmEngine LineFolder Pop3 SmtpText.

(** ** The table *)

Record LockRow := mkLock { l_session : bytes; l_heartbeat : Z }.
Inductive LockStmt :=
  | InsertLock (key : Pop3LockKey)       (* [INSERT ... ON DUPLICATE KEY UPDATE] *)
  | TouchLock (key : Pop3LockKey)        (* [UPDATE ... SET last_heartbeat] *)
  | DeleteLock (key : Pop3LockKey)
  | SweepLocks.

#[export] Instance LockStmt_eq_dec : EqDecision LockStmt.
Proof. solve_decision. Defined.

(** [NOW() - INTERVAL 5 MINUTE] *)
Definition lease_seconds : Z := 300.

Definition lock_stmt (now : Z) (q : LockStmt) (t : gmap Z LockRow) : gmap Z LockRow :=
  match q with
  | InsertLock (u, sid) =>
      match t !! u with
      | None => <[u := mkLock sid now]> t
      | Some r => <[u := mkLock (l_session r) (if bool_decide (l_session r = sid) then now else l_heartbeat r)]> t
      end
  | TouchLock (u, sid) =>
      match t !! u with
      | Some r => if bool_decide (l_session r = sid) then <[u := mkLock sid now]> t else t
      | None => t
      end
  | DeleteLock (u, sid) =>
      match t !! u with
      | Some r => if bool_decide (l_session r = sid) then delete u t else t
      | None => t
      end
  | SweepLocks => filter (λ e, ¬ (l_heartbeat e.2 < now - lease_seconds)) t
  end.

(** [SELECT COUNT( * )] for a user and session. *)
Definition owns (key : Pop3LockKey) (t : gmap Z LockRow) : bool :=
  match t !! key.1 with Some r => bool_decide (l_session r = key.2) | None => false end.
Definition count_rows (key : Pop3LockKey) (t : gmap Z LockRow) : Z := if owns key t then 1 else 0.

(** ** What the repository reports *)

(** [verify]: no connection, an exception or a cell that is no number is a
    database error; the cell is [None] when there is no row. *)
Definition verify (valid : bool) (rows : Async (option bytes)) : Async Pop3LockStatus :=
  if negb valid then Answer database_error else
  match rows with
  | Threw => Answer database_error
  | Silent => Silent
  | Answer cell =>
      match cell ≫= parse_uint with
      | Some count => Answer (if count =? 0 then not_owned else owned)
      | None => Answer database_error
      end
  end.

(** A statement, then [verify] when it was executed: [acquire_async] with the
    insertion, [renew_async] with the update of the heartbeat. *)
Definition then_verify (valid : bool) (updated : Async bool) (valid' : bool) (rows : Async (option bytes))
  : Async Pop3LockStatus :=
  if negb valid then Answer database_error else
  match updated with
  | Threw | Answer false => Answer database_error
  | Silent => Silent
  | Answer true => verify valid' rows
  end.
Definition acquire_async := then_verify.
Definition renew_async := then_verify.

Definition release_async (valid : bool) (released : Async bool) : Async bool :=
  if negb valid then Answer false else
  match released with Threw => Answer false | _ => released end.

(** [sweep_expired]: [None] is an exception of the driver. *)
Definition sweep_expired (valid : bool) (executed : option bool) : bool := valid && default false executed.

(** [sweep_expired_locks]: every shard with a pool is swept, also after one
    failed. *)
Definition sweep_expired_locks (router : bool) (shards : list (option (bool * option bool))) : bool :=
  router && forallb (λ p, match p with Some (valid, executed) => sweep_expired valid executed | None => true end) shards.

(** ** The heartbeat *)

(** [start_heartbeat]: whether a timer is armed. *)
Definition start_heartbeat (closed dropped_ has_timer : bool) (ctx : Pop3Context) : bool :=
  negb closed && is_authenticated ctx && negb dropped_ && negb (bool_decide (session_id ctx = [])) && negb has_timer.

(** What becomes of the session after one expiry of the timer. *)
Inductive Beat := Rearmed | Closed | Stopped.

(** The session at the times it is looked at: closed, dropped or with another
    timer. *)
Record BeatEnv := mkBeat {
  be_gone : nat → bool;                (* 0: at the expiry, 1: on the worker, 2: at the completion *)
  be_error : bool;                     (* the timer failed or was cancelled *)
  be_posts : bool;                     (* the worker takes the task *)
  be_renew : Async Pop3LockStatus;
}.

Definition heartbeat_done (gone : bool) (status : Pop3LockStatus) : Beat :=
  if gone then Stopped else if bool_decide (status = owned) then Rearmed else Closed.

Definition heartbeat (e : BeatEnv) : Beat :=
  if be_gone e 0 || be_error e then Stopped else
  if negb (be_posts e) then heartbeat_done (be_gone e 2) database_error else
  if be_gone e 1 then Stopped else
  match be_renew e with
  | Threw => heartbeat_done (be_gone e 2) database_error
  | Silent => Stopped
  | Answer status => heartbeat_done (be_gone e 2) status
  end.

(** ** The lease *)

Section Lease.
Context (u : Z) (sid : bytes).
Let key : Pop3LockKey := (u, sid).

(** What happens around one session, whose key is [key]: statements of others,
    its own insertion and heartbeats, and its actions; an [Acquire] stands
    where the count of [acquire_async] runs, after the insertion. *)
Inductive LockEvent :=
  | ByOther (q : LockStmt)
  | Inserting
  | Beating
  | Acting (a : Pop3Action).

Definition statement_of (e : LockEvent) : option LockStmt :=
  match e with
  | ByOther q => Some q
  | Inserting => Some (InsertLock key)
  | Beating => Some (TouchLock key)
  | Acting (Release k _) => Some (DeleteLock k)
  | Acting _ => None
  end.

Definition event_stmt (now : Z) (e : LockEvent) (t : gmap Z LockRow) : gmap Z LockRow :=
  match statement_of e with Some q => lock_stmt now q t | None => t end.

Definition lock_events (h : list (Z * LockEvent)) (t : gmap Z LockRow) : gmap Z LockRow :=
  foldl (λ t e, event_stmt e.1 e.2 t) t h.

Definition actions_of (h : list (Z * LockEvent)) : list Pop3Action :=
  omap (λ e, match e.2 with Acting a => Some a | _ => None end) h.

(** Others do not use the session's key, which is unique, and the lock is said
    to be owned only when the count says so. *)
Definition truthful (e : LockEvent) (t : gmap Z LockRow) : Prop :=
  match e with
  | ByOther q => q ≠ InsertLock key ∧ q ≠ TouchLock key ∧ q ≠ DeleteLock key
  | Acting (Acquire k (Answer owned)) => count_rows k t = 1
  | _ => True
  end.

Definition beat (e : LockEvent) : bool := match e with Inserting | Beating => true | _ => false end.
Definition grant (cur : option Pop3LockKey) (e : LockEvent) : option Pop3LockKey :=
  match e with Acting a => grant1 cur a | _ => cur end.

(** The history is truthful, and while the session has its grant the heartbeat,
    last at [t0], is never older than the lease. *)
Fixpoint kept (t : gmap Z LockRow) (t0 : Z) (cur : option Pop3LockKey) (h : list (Z * LockEvent)) : Prop :=
  match h with
  | [] => True
  | (now, e) :: h =>
      truthful e t ∧ (cur = Some key → now ≤ t0 + lease_seconds) ∧
      kept (event_stmt now e t) (if beat e then now else t0) (grant cur e) h
  end.

(** A row of this session. *)
Definition mine (t : gmap Z LockRow) (t0 : Z) : Prop := t !! u = Some (mkLock sid t0).
Definition mine_or_not (t : gmap Z LockRow) (t0 : Z) : Prop := ∀ r, t !! u = Some r → l_session r = sid → mine t t0.

Lemma owns_mine t t0 : mine_or_not t t0 → owns key t = true → mine t t0.
Proof.
  unfold owns. simpl. intros H. destruct (t !! u) as [r|] eqn:E; [|done].
  intros Hs%bool_decide_eq_true. by apply (H r).
Qed.

Lemma mine_only t t0 : mine t t0 → mine_or_not t t0.
Proof. intros H r _ _. exact H. Qed.

(** A statement on other rows. *)
Lemma stmt_other now q t u' s' :
  u' ≠ u → q = InsertLock (u', s') ∨ q = TouchLock (u', s') ∨ q = DeleteLock (u', s') →
  lock_stmt now q t !! u = t !! u.
Proof.
  intros Hne [-> |[-> | ->]]; simpl; destruct (t !! u') as [r|]; try done; try by rewrite lookup_insert_ne.
  - destruct (bool_decide _); [by rewrite lookup_insert_ne|done].
  - destruct (bool_decide _); [by rewrite lookup_delete_ne|done].
Qed.

(** A statement of another key leaves a fresh row of this session alone. *)
Lemma foreign_keeps now q t t0 :
  q ≠ InsertLock key → q ≠ TouchLock key → q ≠ DeleteLock key → now ≤ t0 + lease_seconds →
  mine t t0 → mine (lock_stmt now q t) t0.
Proof.
  intros H1 H2 H3 Hn Ht. unfold mine in *. destruct q as [[u' s']|[u' s']|[u' s']|].
  4:{ simpl. apply map_lookup_filter_Some_2; [done|]. simpl. lia. }
  all: destruct (decide (u' = u)) as [-> | Hne];
    [|rewrite <-Ht; eapply stmt_other; [exact Hne|by auto]].
  all: simpl; rewrite Ht; simpl; rewrite (bool_decide_eq_false_2 (sid = s')) by (intros ->; by subst).
  - by rewrite lookup_insert_eq.
  - done.
  - done.
Qed.

(** No statement of another key makes a row of this session. *)
Lemma foreign_makes_none now q t t0 :
  q ≠ InsertLock key → q ≠ TouchLock key →
  mine_or_not t t0 → mine_or_not (lock_stmt now q t) t0.
Proof.
  intros H1 H2 Hm r. unfold mine. destruct q as [[u' s']|[u' s']|[u' s']|].
  4:{ simpl. intros [Hr Hf]%map_lookup_filter_Some Hs. apply map_lookup_filter_Some. split; [by apply (Hm r)|].
      pose proof (Hm r Hr Hs) as Hmr. unfold mine in Hmr. rewrite Hr in Hmr. by injection Hmr as ->. }
  all: destruct (decide (u' = u)) as [-> | Hne]; [|erewrite stmt_other; [apply Hm|exact Hne|by auto]].
  all: simpl; destruct (t !! u) as [r'|] eqn:E.
  - rewrite lookup_insert_eq. intros [= <-] Hs. simpl in Hs. rewrite Hs.
    rewrite (bool_decide_eq_false_2 (sid = s')) by (intros ->; by subst).
    pose proof (Hm r' E Hs) as Hmr. unfold mine in Hmr. rewrite E in Hmr. by injection Hmr as ->.
  - rewrite lookup_insert_eq. intros [= <-] Hs. simpl in Hs. by subst.
  - destruct (bool_decide _) eqn:Eb.
    + rewrite lookup_insert_eq. intros [= <-] Hs. simpl in Hs. by subst.
    + rewrite E. intros [= <-] Hs. rewrite <-E. by apply (Hm r').
  - by rewrite E.
  - destruct (bool_decide _); [by rewrite lookup_delete_eq|]. rewrite E. intros [= <-] Hs. rewrite <-E. by apply (Hm r').
  - by rewrite E.
Qed.

(** The session's own insertion and heartbeat. *)
Lemma own_beat now t t0 e :
  beat e = true → (mine_or_not t t0 → mine_or_not (event_stmt now e t) now) ∧
                  (mine t t0 → mine (event_stmt now e t) now).
Proof.
  intros He. assert (mine t t0 → mine (event_stmt now e t) now) as Hmine.
  { unfold mine. intros Ht. destruct e; try done; unfold event_stmt; simpl; rewrite Ht; simpl;
      rewrite bool_decide_eq_true_2 by done; by rewrite lookup_insert_eq. }
  split; [|exact Hmine]. intros Hm r Hr Hs. destruct (t !! u) as [r'|] eqn:E.
  - destruct (decide (l_session r' = sid)) as [Hs'|Hs']; [by apply Hmine, (Hm r')|]. exfalso. revert Hr.
    destruct e; try done; unfold event_stmt; simpl; rewrite E, bool_decide_eq_false_2 by done.
    + rewrite lookup_insert_eq. intros [= <-]. done.
    + rewrite E. by intros [= <-].
  - revert Hr. unfold mine. destruct e; try done; unfold event_stmt; simpl; rewrite E.
    + by rewrite lookup_insert_eq.
    + by rewrite E.
Qed.

(** One event: the row of a granted key stays, with the time of its last beat. *)
Lemma event_keeps now e t t0 cur :
  truthful e t → (cur = Some key → now ≤ t0 + lease_seconds) →
  mine_or_not t t0 → (cur = Some key → mine t t0) →
  let t' := event_stmt now e t in
  let t1 := if beat e then now else t0 in
  mine_or_not t' t1 ∧ (grant cur e = Some key → mine t' t1).
Proof.
  intros Htr Hn Hm Hc. destruct e as [q| | |a]; cbn [beat grant].
  - destruct Htr as (H1 & H2 & H3). split; [by apply foreign_makes_none|].
    intros E. apply foreign_keeps; auto.
  - destruct (own_beat now t t0 Inserting eq_refl). auto.
  - destruct (own_beat now t t0 Beating eq_refl). auto.
  - destruct a as [k ans|k ans| | | | | | | | | | | |]; try by auto.
    + split; [done|]. simpl. destruct ans as [| |[| |]]; try by auto. intros [= ->].
      change (mine t t0). cbn [truthful] in Htr. apply owns_mine; [done|]. unfold count_rows in Htr.
      by destruct (owns key t).
    + split; [by apply foreign_makes_none|]. simpl. destruct (bool_decide (cur = Some k)) eqn:Ek; [done|].
      intros ->. apply bool_decide_eq_false in Ek.
      apply (foreign_keeps now (DeleteLock k)); [done|done| |by apply Hn|by apply Hc].
      intros H. apply Ek. injection H as H. by rewrite H.
Qed.

Lemma kept_owns h t t0 cur :
  mine_or_not t t0 → (cur = Some key → mine t t0) → kept t t0 cur h →
  granted cur (actions_of h) = Some key → ∃ t1, mine (lock_events h t) t1.
Proof.
  revert t t0 cur. induction h as [|[now e] h IH]; intros t t0 cur Hm Hc Hk Hg; [exists t0; by apply Hc|].
  destruct Hk as (Htr & Hn & Hk). destruct (event_keeps now e t t0 cur Htr Hn Hm Hc) as [Hm' Hc'].
  apply (IH _ _ _ Hm' Hc' Hk). revert Hg. unfold actions_of. by destruct e.
Qed.

(** A session whose grant is kept alive has the row of its user: the count of
    its key is one and that of any other session zero. *)
Lemma kept_excludes h t :
  owns key t = false → kept t 0 None h → granted None (actions_of h) = Some key →
  count_rows key (lock_events h t) = 1 ∧
  ∀ sid', sid' ≠ sid → count_rows (u, sid') (lock_events h t) = 0.
Proof.
  intros Ho Hk Hg. destruct (kept_owns h t 0 None) as [t1 Hr]; [| done.. |].
  { intros r Hr Hs. unfold owns in Ho. simpl in Ho. rewrite Hr in Ho. by apply bool_decide_eq_false in Ho. }
  unfold count_rows, owns. simpl. unfold mine in Hr. rewrite Hr. simpl.
  split; [by rewrite bool_decide_eq_true_2|]. intros sid' Hne. by rewrite bool_decide_eq_false_2.
Qed.
End Lease.

(** An insertion gives the lock to its session exactly when nobody else has it,
    and a count right after it says so. *)
Lemma insert_owns u sid now t :
  owns (u, sid) (lock_stmt now (InsertLock (u, sid)) t) =
  match t !! u with Some r => bool_decide (l_session r = sid) | None => true end.
Proof.
  unfold owns. simpl. destruct (t !! u) as [r|]; rewrite lookup_insert_eq; simpl; [done|by apply bool_decide_eq_true_2].
Qed.

(** ** Properties *)

(** A session that crashed does not keep its mailbox locked: once its last beat
    is older than the lease, the next sweep frees the row, and then the first
    other session that asks for the lock has it. *)
Theorem lease_expires u sid sid' t0 now now' t :
  t !! u = Some (mkLock sid t0) → t0 + lease_seconds < now →
  let t' := lock_stmt now SweepLocks t in
  owns (u, sid) t' = false ∧ owns (u, sid') (lock_stmt now' (InsertLock (u, sid')) t') = true.
Proof.
  intros Ht Hn. assert (lock_stmt now SweepLocks t !! u = None) as Hs.
  { simpl. apply map_lookup_filter_None. right. intros r Hr. rewrite Ht in Hr. injection Hr as <-. simpl. lia. }
  cbn zeta. rewrite insert_owns, Hs. split; [|done]. unfold owns. simpl fst. by rewrite Hs.
Qed.

Lemma lease_expires_witness :
  owns (7, s! "s2") (lock_stmt 402 (InsertLock (7, s! "s2")) (lock_stmt 401 SweepLocks {[ 7 := mkLock (s! "s1") 100 ]})) = true.
Proof.
  destruct (lease_expires 7 (s! "s1") (s! "s2") 100 401 402 {[ 7 := mkLock (s! "s1") 100 ]}) as [_ H]; [reflexivity|done|exact H].
Defined.

(** A session stays open only over a confirmed beat: an expiry that finds the
    session open and its timer in place rearms the timer exactly when the
    repository answers that the session still owns the lock, closes the session
    on every other answer, exception or refused task, and does neither only
    while the driver is silent. *)
Theorem heartbeat_confirms (e : BeatEnv) :
  be_error e = false → (∀ n, be_gone e n = false) →
  (heartbeat e = Rearmed ↔ be_posts e = true ∧ be_renew e = Answer owned) ∧
  (heartbeat e = Stopped ↔ be_posts e = true ∧ be_renew e = Silent).
Proof.
  intros He Hg. unfold heartbeat, heartbeat_done. rewrite He, !Hg. simpl.
  destruct (be_posts e); simpl; [|naive_solver].
  destruct (be_renew e) as [| |[| |]]; simpl; naive_solver.
Qed.

Lemma heartbeat_confirms_witness :
  heartbeat (mkBeat (λ _, false) false true (renew_async true (Answer true) true (Answer (Some (s! "1"))))) = Rearmed.
Proof.
  apply (heartbeat_confirms (mkBeat (λ _, false) false true _)); [done|done|]. split; [done|]. vm_compute. reflexivity.
Defined.

(** C18: Access to a mailbox under its lease.  Over every sequence of commands,
    with every behaviour of the authenticator, the repositories and the storage:
    an open session in TRANSACTION is authenticated, was granted the lock of
    exactly its user and session id (the repository answered [owned] and the
    session did not release it since) and has marked only messages of its own
    mailbox; an open session in another state is not authenticated; and it asks
    for messages to be deleted only with such a grant for that user.  A grant is
    a lease the sweeper can end.  If up to that moment the repository answered
    [owned] only when the count said so, nobody else used the session's unique
    key, and while granted its heartbeat was never older than five minutes, then
    at the deletion, whatever other sessions and sweepers did, the lock's row is
    the session's and no other session of the user is counted as its owner. *)
Theorem mailbox_access_locked (cmds : list (CmdEnv * Pop3Event * bytes)) :
  let '(tr, s) := pop3_run cmds new_session in
  (p_open s = true → p_state s = TRANSACTION →
     is_authenticated (p_ctx s) = true ∧ granted None tr = Some (user_id (p_ctx s), session_id (p_ctx s)) ∧
     deleted (p_ctx s) ⊆ ids (p_ctx s)) ∧
  (p_open s = true → p_state s ≠ TRANSACTION → is_authenticated (p_ctx s) = false) ∧
  (∀ before u box mails answer after,
     tr = before ++ ApplyDeletions u box mails answer :: after →
     ∃ sid, granted None before = Some (u, sid) ∧
       ∀ h t, owns (u, sid) t = false → kept u sid t 0 None h → actions_of h = before →
         count_rows (u, sid) (lock_events u sid h t) = 1 ∧
         ∀ sid', sid' ≠ sid → count_rows (u, sid') (lock_events u sid h t) = 0).
Proof.
  pose proof (session_granted cmds) as H. destruct (pop3_run cmds new_session) as [tr s].
  destruct H as (H1 & H2 & H3). split_and!; [done..|]. intros before u box mails answer after E.
  destruct (H3 _ _ _ _ _ _ E) as [sid Hs]. exists sid. split; [done|]. intros h t Ho Hk Ha.
  apply kept_excludes; [done..|]. by rewrite Ha.
Qed.

(** A session that logs in, marks a message and quits, while another session
    asks for the lock and a sweep runs after five minutes. *)
Definition sample_run : list Pop3Action := (pop3_run (sample_cmds ++ [(sample_env, QUIT, [])]) new_session).1.
Definition is_deletion (a : Pop3Action) : bool := match a with ApplyDeletions _ _ _ _ => true | _ => false end.
Fixpoint until_deletion (tr : list Pop3Action) : list Pop3Action :=
  match tr with
  | [] => []
  | a :: tr => if is_deletion a then [] else a :: until_deletion tr
  end.
Definition sample_history : list (Z * LockEvent) :=
  [(0, ByOther (InsertLock (8, s! "s2"))); (1, Inserting)] ++ ((λ a, (2, Acting a)) <$> until_deletion sample_run)
  ++ [(200, ByOther (InsertLock (7, s! "s2"))); (250, Beating); (400, ByOther SweepLocks)].

Lemma mailbox_access_locked_witness :
  granted None (until_deletion sample_run) = Some (7, s! "s1") ∧
  count_rows (7, s! "s1") (lock_events 7 (s! "s1") sample_history ∅) = 1 ∧
  count_rows (7, s! "s2") (lock_events 7 (s! "s1") sample_history ∅) = 0.
Proof.
  pose proof (mailbox_access_locked (sample_cmds ++ [(sample_env, QUIT, [])])) as H.
  destruct (pop3_run (sample_cmds ++ [(sample_env, QUIT, [])]) new_session) as [tr s] eqn:E.
  destruct H as (_ & _ & H).
  assert (tr = sample_run) as -> by (unfold sample_run; by rewrite E).
  destruct (H (until_deletion sample_run) 7 9 {[ 11 ]} (Answer true) (drop (S (length (until_deletion sample_run))) sample_run))
    as (sid & Hg & Hl); [vm_compute; reflexivity|].
  assert (granted None (until_deletion sample_run) = Some (7, s! "s1")) as Hg' by (vm_compute; reflexivity).
  rewrite Hg' in Hg. injection Hg as <-. split; [exact Hg'|].
  destruct (Hl sample_history ∅) as [H1 H2]; [reflexivity| |vm_compute; reflexivity|].
  - vm_compute. repeat split; intros; discriminate.
  - split; [exact H1|]. apply H2. vm_compute. discriminate.
Defined.
