(* ===== verification/Smtp.v ===== *)
(** * The SMTP server

    Models [include/mail_system/back/mailServer/fsm/smtps/] (table and
    handlers) and [include/mail_system/back/mailServer/session/smtps_session.tpp]
    (command parsing, the DATA stream, body writing, submission).

    [smtp_chunk] is one completed read: the chunk is appended to the command
    buffer and the read loop of [session_base.tpp] takes commands out of it
    while the session is neither paused nor closed.  Asynchronous answers are
    fields of the environment [SmtpEnv]; [None] is an answer that never comes,
    which leaves the session paused; [inet_pton] and [EVP_DecodeBlock] (C
    library and OpenSSL) are parameters.  The result of a chunk is [None] when the
    line folder does not end (see [LineFolder]); [fold_fuel] bounds it.  The
    configuration does not change during a session.

    What a session does to the outside is its trace of [SmtpAction]s. *)

From S2P Require Import Prelude CString LineFolder FsmEngine Storage SmtpText.

Inductive SmtpsState :=
  | INIT | GREETING | WAIT_EHLO | WAIT_AUTH | WAIT_AUTH_USERNAME | WAIT_AUTH_PASSWORD | WAIT_MAIL_FROM
  | WAIT_RCPT_TO | WAIT_DATA | IN_MESSAGE | WAIT_QUIT | CLOSED.
Inductive SmtpsEvent :=
  | CONNECT | EHLO | AUTH | MAIL_FROM | RCPT_TO | DATA | DATA_END | QUIT | STARTTLS | ERROR | TIMEOUT | EMPTY.

#[export] Instance SmtpsState_eq_dec : EqDecision SmtpsState.
Proof. solve_decision. Defined.
#[export] Instance SmtpsEvent_eq_dec : EqDecision SmtpsEvent.
Proof. solve_decision. Defined.

(** The states below [CLOSED], in order. *)
Definition open_states : list SmtpsState :=
  [INIT; GREETING; WAIT_EHLO; WAIT_AUTH; WAIT_AUTH_USERNAME; WAIT_AUTH_PASSWORD; WAIT_MAIL_FROM;
   WAIT_RCPT_TO; WAIT_DATA; IN_MESSAGE; WAIT_QUIT].

Definition make_smtps_desc (allow_starttls : bool) : Desc SmtpsState SmtpsEvent :=
  mkDesc
    [(s! "EHLO", EHLO); (s! "HELO", EHLO); (s! "AUTH", AUTH); (s! "MAIL FROM", MAIL_FROM);
     (s! "RCPT TO", RCPT_TO); (s! "DATA", DATA); (s! "QUIT", QUIT); (s! "STARTTLS", STARTTLS)]
    ([mkRow INIT CONNECT (Some GREETING);
      mkRow GREETING CONNECT (Some WAIT_EHLO);
      mkRow WAIT_EHLO EHLO (Some WAIT_AUTH);
      mkRow GREETING EHLO (Some WAIT_AUTH);
      mkRow WAIT_AUTH EHLO (Some WAIT_AUTH);
      mkRow WAIT_AUTH AUTH (Some WAIT_AUTH_USERNAME);
      mkRow WAIT_AUTH AUTH (Some WAIT_MAIL_FROM);
      mkRow WAIT_AUTH AUTH (Some WAIT_AUTH);
      mkRow WAIT_AUTH_USERNAME AUTH (Some WAIT_AUTH_PASSWORD);
      mkRow WAIT_AUTH_PASSWORD AUTH (Some WAIT_MAIL_FROM);
      mkRow WAIT_AUTH_PASSWORD AUTH (Some WAIT_AUTH);
      mkRow WAIT_AUTH MAIL_FROM (Some WAIT_RCPT_TO);
      mkRow WAIT_MAIL_FROM MAIL_FROM (Some WAIT_RCPT_TO);
      mkRow WAIT_RCPT_TO MAIL_FROM (Some WAIT_RCPT_TO);
      mkRow WAIT_MAIL_FROM MAIL_FROM (Some WAIT_AUTH);
      mkRow WAIT_RCPT_TO MAIL_FROM (Some WAIT_AUTH);
      mkRow WAIT_RCPT_TO RCPT_TO (Some WAIT_RCPT_TO);
      mkRow WAIT_RCPT_TO DATA (Some IN_MESSAGE);
      mkRow WAIT_DATA DATA (Some IN_MESSAGE);
      mkRow IN_MESSAGE DATA (Some IN_MESSAGE);
      mkRow IN_MESSAGE DATA_END (Some WAIT_MAIL_FROM);
      mkRow IN_MESSAGE DATA_END (Some WAIT_QUIT);
      mkRow WAIT_QUIT MAIL_FROM (Some WAIT_RCPT_TO)]
     ++ (if allow_starttls then [mkRow WAIT_AUTH STARTTLS (Some INIT)] else [])
     ++ mbind (λ s, [mkRow s QUIT (Some CLOSED); mkRow s ERROR None; mkRow s TIMEOUT None; mkRow s EMPTY None])
          open_states)
    (s! "500 Error: Invalid command sequence") 0 []
    (s! "500 4.0.0 Internal server error") [CLOSED] (λ _ _, []) (λ _ _, []).

(** The cells [register_handlers] fills. *)
Definition registered (allow_starttls : bool) : list (SmtpsState * SmtpsEvent) :=
  [(INIT, CONNECT); (WAIT_EHLO, EHLO); (GREETING, EHLO)]
  ++ (if allow_starttls then [(WAIT_AUTH, STARTTLS)] else [])
  ++ [(WAIT_AUTH, AUTH); (WAIT_AUTH, EHLO); (WAIT_AUTH_USERNAME, AUTH); (WAIT_AUTH_PASSWORD, AUTH);
      (WAIT_AUTH, MAIL_FROM); (WAIT_MAIL_FROM, MAIL_FROM); (WAIT_RCPT_TO, RCPT_TO); (WAIT_RCPT_TO, DATA);
      (WAIT_RCPT_TO, MAIL_FROM); (WAIT_DATA, DATA); (IN_MESSAGE, DATA); (IN_MESSAGE, DATA_END);
      (WAIT_QUIT, MAIL_FROM)]
  ++ ((λ s, (s, QUIT)) <$> tail open_states)
  ++ mbind (λ s, [(s, ERROR); (s, TIMEOUT); (s, EMPTY)]) open_states.

(** ** Configuration and context *)

Inductive InboundAuthPolicy := OFF | AUTO | ON.
Inductive InboundAckMode := AFTER_PERSIST | AFTER_ENQUEUE.

#[export] Instance InboundAuthPolicy_eq_dec : EqDecision InboundAuthPolicy.
Proof. solve_decision. Defined.

(** The listener, the peer and the server's configuration. *)
Record SmtpConfig := mkConfig {
  is_tls : bool;                          (* [ConnectionType] is [SslConnection] *)
  auth_policy : InboundAuthPolicy;
  advertise_starttls : bool;
  client_ip : bytes;
  helo_hostname : bytes;
  system_domain : bytes;
  inbound_auth_policy : InboundAuthPolicy;
  reject_unauthenticated_local_sender : bool;
  enforce_authenticated_from_match : bool;
  trusted_relay_networks : list bytes;
  external_delivery_enabled : bool;
  perf_mode : bool;
  inbound_spf_mode : bytes;
  inbound_dkim_mode : bytes;
  inbound_dmarc_mode : bytes;
  inbound_ack_mode : InboundAckMode;
  smtp_daily_send_limit : Z;
  max_auth_attempts : Z;
  max_command_buffer_bytes : nat;
}.

Record AuthCtx := mkAuthCtx {
  is_authenticated : bool;
  plain_auth_expected : bool;
  client_username : bytes;
  shard_index : Z;
}.

Record VerifyCtx := mkVerify {
  verification_run : bool;
  spf_checked : bool;
  spf_result : bytes;
  spf_reason : bytes;
  dkim_result : bytes;
  dmarc_result : bytes;
}.

Record SmtpsContext := mkSctx {
  auth : AuthCtx;
  sender_address : bytes;
  recipient_addresses : list bytes;
  data : DataCtx;
  vfy : VerifyCtx;
  ehlo_domain : bytes;
  is_trusted_server : bool;
  abort_reason : bytes;
}.

Inductive PersistStatus := PENDING | PROCESSING | SUCCESS | FAILED | CANCELLED.
Record PersistResult := mkPersist { timed_out : bool; pr_status : PersistStatus }.

Record Mail := mkMail {
  m_from : bytes;
  m_to : list bytes;
  m_header : bytes;
  m_subject : bytes;
  m_message_id : bytes;
  m_attachments : list attachment;
  m_body_path : bytes;
  m_status : PersistStatus;
}.

Inductive QueueAnswer := QAccept | QReject | QThrow.
Inductive ReadAnswer := ROk | RThrow | RSilent.

Section Smtp.
Context {S : Type} `{!WriteStream S} (fold_fuel : nat)
  (inet_pton : bytes → option Z) (EVP_DecodeBlock : bytes → option bytes).

(** What the surroundings answer while a chunk is processed. *)
Record SmtpEnv := mkEnv {
  login_async : bytes → bytes → option (bool * Z);          (* success and shard *)
  consume_quota : bytes → option bool;
  dns : bool;                                               (* a resolver is configured *)
  check_spf : bytes → bytes → bytes → option (bytes * bytes);
  recipient_cache : bytes → option Z;                       (* cached account status *)
  user_exists : bytes → option bool;
  alias_targets : bytes → option (list bytes);
  body_path : bytes;
  open_write : option S;
  commit_answers : bool;
  mime_read : ReadAnswer;
  verify_all : option (bytes * bytes * bytes);              (* SPF, DKIM, DMARC results *)
  queue_answer : option QueueAnswer;                        (* [None]: no persistent queue *)
  persist_answer : option PersistResult;
}.

Inductive SmtpAction :=
  | Reply (text : bytes)
  | LoginResult (user : bytes) (ok : bool)
  | Resolved (address : bytes) (targets : list bytes)   (* answer of [resolve_recipient_async] *)
  | Committed (st : option S)              (* the body's stream, committed *)
  | Submitted (m : Mail) (accepted : bool)
  | Persisted
  | Discarded                              (* the mail's files are removed *)
  | DeleteTask                             (* [delete_task] of the queue *)
  | Notify (rcpt : bytes)                  (* IMAP IDLE push *)
  | Handoff                                (* connection moves to a TLS session *)
  | CloseSession.

Record SmtpSession := mkSmtp {
  state : SmtpsState;
  ctx : SmtpsContext;
  mail : option Mail;
  body_writer : option (MailBodyWriter S);
  folder : bytes;                          (* [carry_] of the line folder *)
  command_read_buffer : bytes;
  auth_attempts : Z;
  stay_times : Z;
  open : bool;                             (* neither paused nor closed *)
}.

Definition new_context : SmtpsContext :=
  mkSctx (mkAuthCtx false false [] 0) [] [] new_data (mkVerify false false [] [] [] []) [] false [].
Definition new_session : SmtpSession := mkSmtp INIT new_context None None [] [] 0 0 true.

(** ** Updates *)

Definition upd_ctx (f : SmtpsContext → SmtpsContext) (s : SmtpSession) : SmtpSession :=
  mkSmtp (state s) (f (ctx s)) (mail s) (body_writer s) (folder s) (command_read_buffer s) (auth_attempts s)
    (stay_times s) (open s).
Definition set_state (st : SmtpsState) (s : SmtpSession) : SmtpSession :=
  mkSmtp st (ctx s) (mail s) (body_writer s) (folder s) (command_read_buffer s) (auth_attempts s)
    (stay_times s) (open s).
Definition set_open (b : bool) (s : SmtpSession) : SmtpSession :=
  mkSmtp (state s) (ctx s) (mail s) (body_writer s) (folder s) (command_read_buffer s) (auth_attempts s)
    (stay_times s) b.
Definition set_buffer (b : bytes) (s : SmtpSession) : SmtpSession :=
  mkSmtp (state s) (ctx s) (mail s) (body_writer s) (folder s) b (auth_attempts s) (stay_times s) (open s).
Definition set_counts (attempts stay : Z) (s : SmtpSession) : SmtpSession :=
  mkSmtp (state s) (ctx s) (mail s) (body_writer s) (folder s) (command_read_buffer s) attempts stay (open s).
Definition set_body (m : option Mail) (w : option (MailBodyWriter S)) (carry : bytes) (s : SmtpSession)
  : SmtpSession :=
  mkSmtp (state s) (ctx s) m w carry (command_read_buffer s) (auth_attempts s) (stay_times s) (open s).

Definition set_auth (a : AuthCtx) (c : SmtpsContext) : SmtpsContext :=
  mkSctx a (sender_address c) (recipient_addresses c) (data c) (vfy c) (ehlo_domain c) (is_trusted_server c)
    (abort_reason c).
Definition set_envelope (from : bytes) (to : list bytes) (c : SmtpsContext) : SmtpsContext :=
  mkSctx (auth c) from to (data c) (vfy c) (ehlo_domain c) (is_trusted_server c) (abort_reason c).
Definition set_data (d : DataCtx) (c : SmtpsContext) : SmtpsContext :=
  mkSctx (auth c) (sender_address c) (recipient_addresses c) d (vfy c) (ehlo_domain c) (is_trusted_server c)
    (abort_reason c).
Definition set_verify (v : VerifyCtx) (c : SmtpsContext) : SmtpsContext :=
  mkSctx (auth c) (sender_address c) (recipient_addresses c) (data c) v (ehlo_domain c) (is_trusted_server c)
    (abort_reason c).
Definition set_ehlo (domain : bytes) (c : SmtpsContext) : SmtpsContext :=
  mkSctx (auth c) (sender_address c) (recipient_addresses c) (data c) (vfy c) domain (is_trusted_server c)
    (abort_reason c).

Definition set_username (u : bytes) (a : AuthCtx) : AuthCtx :=
  mkAuthCtx (is_authenticated a) (plain_auth_expected a) u (shard_index a).
Definition set_plain (b : bool) (a : AuthCtx) : AuthCtx :=
  mkAuthCtx (is_authenticated a) b (client_username a) (shard_index a).
Definition set_logged_in (shard : Z) (a : AuthCtx) : AuthCtx :=
  mkAuthCtx true (plain_auth_expected a) (client_username a) shard.

(** The outcome of a handler: what it did and the session it leaves. *)
Definition Outcome : Type := list SmtpAction * SmtpSession.

(** A line as [write_reply] sends it. *)
Definition line_of (text : bytes) : bytes :=
  if bool_decide (list.last text = Some LF) then text else text ++ CRLF.

(** [reply_then_settle], and a transition finished with a target and a reply. *)
Definition settle (text : bytes) (to : SmtpsState) (s : SmtpSession) : Outcome :=
  ([Reply (line_of text)], set_open true (set_state to s)).

(** A transition whose completion never comes: the session stays paused. *)
Definition stuck (s : SmtpSession) : Outcome := ([], set_open false s).

(** [apply_closing] or [finish_closing] to a state, a last reply, then close. *)
Definition close_with (text : bytes) (to : SmtpsState) (s : SmtpSession) : Outcome :=
  ([Reply text; CloseSession], set_open false (set_state to s)).

Definition cons_actions (acts : list SmtpAction) (o : Outcome) : Outcome := (acts ++ o.1, o.2).

(** ** The mail and its body *)

(** [handle_write_failure] *)
Definition handle_write_failure (s : SmtpSession) : Outcome :=
  match mail s with
  | None => ([], s)
  | Some m =>
      match m_status m with
      | PENDING => ([], set_body (Some (mkMail (m_from m) (m_to m) (m_header m) (m_subject m) (m_message_id m)
                                          (m_attachments m) (m_body_path m) CANCELLED))
                          (body_writer s) (folder s) s)
      | _ => ([DeleteTask], s)
      end
  end.

Definition append_body_data (d : bytes) (s : SmtpSession) : Outcome :=
  match body_writer s with
  | None => ([], s)
  | Some w =>
      if wr_failed w then ([], s) else
      match writer_write d w with
      | (None, w) => ([], set_body (mail s) (Some w) (folder s) s)
      | (Some _, w) => handle_write_failure (set_body (mail s) (Some w) (folder s) s)
      end
  end.

Definition no_subject : bytes := [40; 230; 151; 160; 228; 184; 187; 233; 162; 152; 41].

Definition create_mail_on_data_command (env : SmtpEnv) (s : SmtpSession) : Outcome :=
  match mail s with
  | Some _ => ([], s)
  | None =>
      let m := mkMail (sender_address (ctx s)) (recipient_addresses (ctx s)) [] no_subject [] []
                 (body_path env) PENDING in
      match open_write env with
      | None => handle_write_failure (set_body (Some m) (body_writer s) (folder s) s)
      | Some st => ([], set_body (Some m) (Some (new_writer (Some st) DEFAULT_BUFFER_SIZE)) (folder s) s)
      end
  end.

(** [reset_mail_state] *)
Definition reset_mail_state (s : SmtpSession) : SmtpSession :=
  set_body None None [] (upd_ctx (λ c, set_envelope [] [] (set_data (reset_data (data c)) c)) s).

Definition discard_current_mail (s : SmtpSession) : Outcome :=
  match mail s with
  | None => ([], s)
  | Some _ => ([Discarded], reset_mail_state s)
  end.

(** [commit_body_async]: [None] when the callback never comes, else whether
    the body is stored and, on failure, whether a retry can help. *)
Definition commit_body (env : SmtpEnv) (s : SmtpSession) : list SmtpAction * SmtpSession * option (option IoKind) :=
  match mail s with
  | None => ([], s, Some None)
  | Some _ =>
      match body_writer s with
      | None => let '(acts, s) := handle_write_failure s in (acts, s, Some (Some Permanent))
      | Some w =>
          if negb (commit_answers env) then ([], s, None) else
          match writer_commit w with
          | (None, w) => ([Committed (wr_stream w)], set_body (mail s) (Some w) (folder s) s, Some None)
          | (Some k, w) =>
              let '(acts, s) := handle_write_failure (set_body (mail s) (Some w) (folder s) s) in
              (acts, s, Some (Some k))
          end
      end
  end.

(** ** Parsing *)

(** A unit of input: a line, or in the DATA phase all that is there. *)
Definition extract_one_line (s : SmtpSession) : option (bytes * SmtpSession) :=
  match state s with
  | IN_MESSAGE => match command_read_buffer s with [] => None | b => Some (b, set_buffer [] s) end
  | _ => match find_char LF (command_read_buffer s) with
         | None => None
         | Some pos => Some (take (pos + 1) (command_read_buffer s),
                             set_buffer (drop (pos + 1) (command_read_buffer s)) s)
         end
  end.

Definition END_OF_DATA : bytes := CRLF ++ [46] ++ CRLF.

(** The DATA branch of [parse_smtp_command]: the event and the session. *)
Definition parse_data (d : bytes) (s : SmtpSession) : option (SmtpsEvent * list SmtpAction * SmtpSession) :=
  let trimmed := trim d in
  let found := find_sub END_OF_DATA d in
  let seen := bool_decide (trimmed = [46]) || match found with Some _ => true | None => false end in
  let '(chunk, s) :=
    match found with
    | Some pos => (take pos d, set_buffer (command_read_buffer s ++ drop (pos + 5) d) s)
    | None => (if bool_decide (trimmed = [46]) then [] else d, s)
    end in
  let s := upd_ctx (λ c, set_data (process_message_data chunk (data c)) c) s in
  '(acts, s) ← match chunk with
               | [] => Some ([], s)
               | _ => '(out, carry) ← feed fold_fuel (folder s) chunk;
                      Some (append_body_data out (set_body (mail s) (body_writer s) carry s))
               end;
  if seen then
    tail ← flush fold_fuel (folder s);
    let s := set_body (mail s) (body_writer s) [] s in
    let '(acts', s) := match tail with [] => ([], s) | _ => append_body_data tail s end in
    Some (DATA_END, acts ++ acts', upd_ctx (λ c, set_data (finalize_attachment (data c)) c) s)
  else Some (DATA, acts, s).

(** The command words. *)
Definition command_of (line : bytes) : SmtpsEvent * bytes :=
  let upper := toupper <$> line in
  let '(command, args) :=
    if starts_with (s! "MAIL FROM") upper then (s! "MAIL FROM", drop 4 line) else
    if starts_with (s! "RCPT TO") upper then (s! "RCPT TO", drop 4 line) else
    match find_char SP line with
    | Some sp => (toupper <$> take sp line, drop (sp + 1) line)
    | None => (upper, [])
    end in
  if bool_decide (command = s! "EHLO") || bool_decide (command = s! "HELO") then (EHLO, args) else
  if bool_decide (command = s! "AUTH") then (AUTH, args) else
  if bool_decide (command = s! "MAIL FROM") then (MAIL_FROM, args) else
  if bool_decide (command = s! "RCPT TO") then (RCPT_TO, args) else
  if bool_decide (command = s! "DATA") then (DATA, args) else
  if bool_decide (command = s! "QUIT") then (QUIT, args) else
  if bool_decide (command = s! "STARTTLS") then (STARTTLS, args) else
  (ERROR, s! "Unknown command: " ++ command).

(** The other branches of [parse_smtp_command]. *)
Definition parse_line (line : bytes) (s : SmtpSession) : SmtpsEvent * bytes :=
  match trim line with
  | [] => (EMPTY, [])
  | trimmed =>
      match state s with
      | WAIT_AUTH_USERNAME | WAIT_AUTH_PASSWORD => (AUTH, trimmed)
      | WAIT_AUTH => if plain_auth_expected (auth (ctx s)) then (AUTH, trimmed) else command_of trimmed
      | _ => command_of trimmed
      end
  end.

(** ** Handlers *)

Section Handlers.
Context (cfg : SmtpConfig) (env : SmtpEnv).

Definition set_ctx_auth (f : AuthCtx → AuthCtx) : SmtpSession → SmtpSession :=
  upd_ctx (λ c, set_auth (f (auth c)) c).

Definition authenticated (s : SmtpSession) : bool := is_authenticated (auth (ctx s)).

(** [ip_in_trusted_networks(get_client_ip(), trusted_relay_networks)] *)
Definition trusted : bool := ip_in_trusted_networks inet_pton (client_ip cfg) (trusted_relay_networks cfg).

Definition handle_init_connect (s : SmtpSession) : Outcome :=
  settle (s! "220 SMTPS Server") WAIT_EHLO (set_state GREETING s).

Definition handle_greeting_ehlo (args : bytes) (s : SmtpSession) : Outcome :=
  let helo := match helo_hostname cfg with [] => system_domain cfg | h => h end in
  let helo := match helo with [] => args | _ => helo end in
  settle (s! "250-" ++ helo ++ s! " Hello" ++ CRLF ++ s! "250-SIZE 10240000" ++ CRLF ++ s! "250-8BITMIME" ++ CRLF
          ++ (if negb (is_tls cfg) && advertise_starttls cfg then s! "250-STARTTLS" ++ CRLF else [])
          ++ (match auth_policy cfg with OFF => [] | _ => s! "250-AUTH LOGIN PLAIN" ++ CRLF end)
          ++ s! "250 SMTPUTF8" ++ CRLF)
    WAIT_AUTH (upd_ctx (set_ehlo args) s).

Definition handle_wait_auth_starttls (s : SmtpSession) : Outcome :=
  if negb (advertise_starttls cfg) then settle (s! "502 5.5.1 STARTTLS not supported") WAIT_AUTH s
  else ([Reply (s! "220 Ready to start TLS" ++ CRLF); Handoff], set_open false (set_state INIT s)).

(** *** Authentication *)

(** The SASL PLAIN message: user name and password. *)
Definition plain_credentials (decoded : bytes) : option (bytes * bytes) :=
  null1 ← find_char 0 decoded;
  let rest := drop (null1 + 1) decoded in
  Some (match find_char 0 rest with
        | Some n => (take n rest, drop (n + 1) rest)
        | None => (rest, [])
        end).

Definition qualified (user : bytes) : bytes :=
  match find_char AT user with Some _ => user | None => user ++ [AT] ++ system_domain cfg end.

(** The login and its outcome; [record_auth_failure_and_check] on failure. *)
Definition authenticate (user password : bytes) (s : SmtpSession) : Outcome :=
  let user := qualified user in
  let s := set_ctx_auth (set_username user) s in
  match login_async env user password with
  | None => stuck s
  | Some (true, shard) =>
      cons_actions [LoginResult user true]
        (settle (s! "235 Authentication successful") WAIT_MAIL_FROM (set_ctx_auth (set_logged_in shard) s))
  | Some (false, _) =>
      let s := set_counts (auth_attempts s + 1) (stay_times s) s in
      if max_auth_attempts cfg <=? auth_attempts s
      then ([LoginResult user false; CloseSession], set_open false s)
      else cons_actions [LoginResult user false] (settle (s! "535 Authentication failed") WAIT_AUTH s)
  end.

Definition handle_wait_auth_auth_login (s : SmtpSession) : Outcome :=
  settle (s! "334 VXNlcm5hbWU6") WAIT_AUTH_USERNAME s.

(** AUTH with the mechanism in the command. *)
Definition auth_command (args : bytes) (s : SmtpSession) : Outcome :=
  if starts_with (s! "PLAIN") (toupper <$> args) then
    match drop 6 args with
    | [] => settle (s! "334 ") WAIT_AUTH (set_ctx_auth (set_plain true) s)
    | token => match plain_credentials (base64_decode EVP_DecodeBlock token) with
               | Some (user, password) => authenticate user password s
               | None => handle_wait_auth_auth_login s
               end
    end
  else handle_wait_auth_auth_login s.

Definition handle_wait_auth_auth (args : bytes) (s : SmtpSession) : Outcome :=
  if plain_auth_expected (auth (ctx s)) then
    let s := set_ctx_auth (set_plain false) s in
    match plain_credentials (base64_decode EVP_DecodeBlock args) with
    | Some (user, password) => authenticate user password s
    | None => auth_command args s
    end
  else auth_command args s.

Definition handle_wait_auth_username (args : bytes) (s : SmtpSession) : Outcome :=
  settle (s! "334 UGFzc3dvcmQ6") WAIT_AUTH_PASSWORD (set_ctx_auth (set_username (base64_decode EVP_DecodeBlock args)) s).

Definition handle_wait_auth_password (args : bytes) (s : SmtpSession) : Outcome :=
  authenticate (client_username (auth (ctx s))) (base64_decode EVP_DecodeBlock args) s.

(** *** The envelope *)

Definition require_auth (s : SmtpSession) : bool :=
  match auth_policy cfg with
  | ON => true
  | AUTO => match inbound_auth_policy cfg with
            | ON => true
            | AUTO => negb (is_trusted_server (ctx s))
            | OFF => false
            end
  | OFF => false
  end.

(** The text between the first [<] and the next [>]. *)
Definition angle_address (args : bytes) : option bytes :=
  b ← find_char 60 args;
  n ← find_char 62 (drop (b + 1) args);
  Some (take n (drop (b + 1) args)).

Definition syntax_error : bytes := s! "501 Syntax error in parameters or arguments".

Definition set_spf_checked (b : bool) (v : VerifyCtx) : VerifyCtx :=
  mkVerify (verification_run v) b (spf_result v) (spf_reason v) (dkim_result v) (dmarc_result v).

(** [proceed]: the SPF check, then 250. *)
Definition mail_from_proceed (s : SmtpSession) : Outcome :=
  let ok := settle (s! "250 Ok") WAIT_RCPT_TO s in
  let c := ctx s in
  let need_spf := negb (perf_mode cfg) && negb (bool_decide (inbound_spf_mode cfg = s! "off")) &&
                  negb (is_authenticated (auth c)) && negb (bool_decide (sender_address c = [])) &&
                  negb (bool_decide (sender_address c = s! "<>")) in
  if negb need_spf || negb (dns env) then ok else
  match check_spf env (client_ip cfg) (sender_address c) (ehlo_domain c) with
  | None => stuck s
  | Some (result, reason) =>
      let v := vfy c in
      let s := upd_ctx (set_verify (mkVerify (verification_run v) true result reason (dkim_result v)
                                      (dmarc_result v))) s in
      if bool_decide (result = s! "fail") && bool_decide (inbound_spf_mode cfg = s! "hard")
      then settle (s! "550 5.7.1 SPF verification failed: SPF hard-fail for " ++ sender_address c) WAIT_AUTH s
      else settle (s! "250 Ok") WAIT_RCPT_TO s
  end.

(** [check_send_quota_async] *)
Definition check_send_quota (address : bytes) : option bool :=
  if smtp_daily_send_limit cfg <=? 0 then Some true else consume_quota env address.

Definition handle_wait_auth_mail_from (args : bytes) (s : SmtpSession) : Outcome :=
  if require_auth s && negb (authenticated s)
  then settle (s! "530 5.7.1 Authentication required") WAIT_AUTH s else
  match angle_address args with
  | None => settle syntax_error WAIT_AUTH s
  | Some envelope_sender =>
      if reject_unauthenticated_local_sender cfg && negb (authenticated s) && negb trusted &&
         envelope_sender_is_local envelope_sender (system_domain cfg)
      then settle (s! "550 5.7.1 Sender address rejected: local domain requires authentication") WAIT_AUTH s else
      let sender := submission_sender (if authenticated s then client_username (auth (ctx s)) else [])
                      envelope_sender in
      let s := upd_ctx (λ c, set_verify (set_spf_checked false (vfy c)) (set_envelope sender [] c)) s in
      if authenticated s then
        match check_send_quota sender with
        | None => stuck s
        | Some true => mail_from_proceed s
        | Some false => settle (s! "550 5.7.0 Daily sending quota exceeded") WAIT_AUTH s
        end
      else mail_from_proceed s
  end.

(** [push_recipient_deduped] *)
Definition push_recipient_deduped (to targets : list bytes) : list bytes :=
  foldl (λ to t, if bool_decide (t ∈ to) then to else to ++ [t]) to targets.

Definition add_recipients (f : list bytes → list bytes) : SmtpSession → SmtpSession :=
  upd_ctx (λ c, set_envelope (sender_address c) (f (recipient_addresses c)) c).

(** [resolve_recipient_async] *)
Definition resolve_recipient (address : bytes) : option (list bytes) :=
  match recipient_cache env address with
  | Some status => if status =? 1 then Some [address] else alias_targets env address
  | None => exists_ ← user_exists env address;
            if exists_ : bool then Some [address] else alias_targets env address
  end.

Definition domain_of (recipient : bytes) : bytes :=
  match rfind_char AT recipient with Some at_ => drop (at_ + 1) recipient | None => [] end.
Definition local_of (recipient : bytes) : bytes :=
  trim (match rfind_char AT recipient with Some at_ => take at_ recipient | None => recipient end).

Definition rcpt_authenticated (recipient : bytes) (s : SmtpSession) : Outcome :=
  if negb (recipient_allowed recipient (system_domain cfg) (external_delivery_enabled cfg))
  then settle (s! "550 5.7.1 External delivery disabled") WAIT_RCPT_TO s else
  if bool_decide (to_lower (trim (domain_of recipient)) = to_lower (system_domain cfg)) then
    match alias_targets env recipient with
    | None => stuck s
    | Some [] => settle (s! "250 Ok") WAIT_RCPT_TO (add_recipients (λ to, to ++ [recipient]) s)
    | Some targets => settle (s! "250 Ok") WAIT_RCPT_TO (add_recipients (λ to, push_recipient_deduped to targets) s)
    end
  else settle (s! "250 Ok") WAIT_RCPT_TO (add_recipients (λ to, to ++ [recipient]) s).

Definition rcpt_unauthenticated (recipient : bytes) (s : SmtpSession) : Outcome :=
  if trusted then settle (s! "250 Ok") WAIT_RCPT_TO (add_recipients (λ to, to ++ [recipient]) s) else
  if negb (bool_decide (to_lower (domain_of recipient) = to_lower (system_domain cfg)))
  then settle (s! "550 5.7.1 Relay access denied") WAIT_RCPT_TO s else
  match local_of recipient with
  | [] => settle syntax_error WAIT_RCPT_TO s
  | _ =>
      match resolve_recipient recipient with
      | None => stuck s
      | Some [] => cons_actions [Resolved recipient []] (settle (s! "550 5.1.1 User unknown") WAIT_RCPT_TO s)
      | Some targets =>
          cons_actions [Resolved recipient targets]
            (settle (s! "250 Ok") WAIT_RCPT_TO (add_recipients (λ to, push_recipient_deduped to targets) s))
      end
  end.

Definition handle_wait_rcpt_to_rcpt_to (args : bytes) (s : SmtpSession) : Outcome :=
  match trim <$> angle_address args with
  | None | Some [] => settle syntax_error WAIT_RCPT_TO s
  | Some recipient => if authenticated s then rcpt_authenticated recipient s else rcpt_unauthenticated recipient s
  end.

(** *** The message *)

Definition handle_wait_data_data (s : SmtpSession) : Outcome :=
  let '(acts, s) := create_mail_on_data_command env s in
  cons_actions acts (settle (s! "354 Start mail input; end with <CRLF>.<CRLF>") IN_MESSAGE s).

Definition handle_in_message_data (s : SmtpSession) : Outcome := ([], s).

Definition local_error : bytes := s! "451 Requested action aborted: local processing error" ++ CRLF.

(** [discard_current_mail], a last reply, and the end. *)
Definition reject_and_close (text : bytes) (s : SmtpSession) : Outcome :=
  let '(acts, s) := discard_current_mail s in cons_actions acts (close_with text WAIT_QUIT s).

(** [PersistentQueue::submit_owned_mail]: only pending mails are taken; the
    queue's state and pressure are the environment's answer. *)
Definition submit_owned_mail (answer : QueueAnswer) (m : Mail) : QueueAnswer :=
  match answer with
  | QAccept => match m_status m with PENDING => QAccept | _ => QReject end
  | _ => answer
  end.

(** The mail as [submit_mail_to_queue] completes it. *)
Definition completed_mail (d : DataCtx) (m : Mail) : Mail :=
  mkMail (m_from m) (m_to m) (header_buffer d)
    (match parsed_subject d with [] => m_subject m | t => t end)
    (match source_message_id d with [] => m_message_id m | t => t end)
    (m_attachments m ++ streamed_attachments d) (m_body_path m) (m_status m).

(** The result of waiting for persistence. *)
Definition acknowledge (s : SmtpSession) : Outcome := settle (s! "250 OK") WAIT_MAIL_FROM (reset_mail_state s).

Definition await_persist (answer : option PersistResult) (s : SmtpSession) : Outcome :=
  match answer with
  | None => stuck s
  | Some r =>
      match timed_out r, pr_status r with
      | false, SUCCESS =>
          cons_actions (Persisted :: (Notify <$> recipient_addresses (ctx s))) (acknowledge s)
      | false, _ => close_with local_error WAIT_QUIT s
      | true, _ => close_with (s! "451 Requested action aborted: local processing timeout" ++ CRLF) WAIT_QUIT s
      end
  end.

(** [finalize_mail]: submission and acknowledgement. *)
Definition finalize_mail (vr : option (bytes * bytes * bytes)) (s : SmtpSession) : Outcome :=
  let s := match vr with
           | None => s
           | Some (spf, dkim, dmarc) =>
               upd_ctx (λ c, let v := vfy c in
                 set_verify (mkVerify true true (if spf_checked v then spf_result v else spf) (spf_reason v)
                               dkim dmarc) c) s
           end in
  let refuse := reject_and_close (s! "451 Requested action aborted: insufficient storage or backend pressure" ++ CRLF) in
  let accepted (persist : option PersistResult) (s : SmtpSession) :=
    match inbound_ack_mode cfg with
    | AFTER_ENQUEUE => acknowledge s
    | AFTER_PERSIST => await_persist persist s
    end in
  match mail s with
  | None => refuse s
  | Some m =>
      let m := completed_mail (data (ctx s)) m in
      let s := set_body (Some m) (body_writer s) (folder s) s in
      match queue_answer env with
      | None => cons_actions [Submitted m true] (accepted (Some (mkPersist false SUCCESS)) s)
      | Some answer =>
          match submit_owned_mail answer m with
          | QAccept => cons_actions [Submitted m true]
                         (accepted (persist_answer env) (set_body None (body_writer s) (folder s) s))
          | QReject => cons_actions [Submitted m false] (refuse s)
          | QThrow => reject_and_close local_error (set_body None (body_writer s) (folder s) s)
          end
      end
  end.

Definition has_body (s : SmtpSession) : bool :=
  match mail s with Some m => negb (bool_decide (m_body_path m = [])) | None => false end.

(** [finish_after_sender_boundary]: verification, then submission. *)
Definition verify_and_submit (s : SmtpSession) : Outcome :=
  let v := vfy (ctx s) in
  let on mode := negb (bool_decide (mode = s! "off")) in
  let needs_verify := negb (perf_mode cfg) &&
    ((negb (spf_checked v) && on (inbound_spf_mode cfg)) || on (inbound_dkim_mode cfg) || on (inbound_dmarc_mode cfg)) in
  if needs_verify && negb (verification_run v) && dns env && has_body s then
    match verify_all env with
    | None => stuck s
    | Some r => finalize_mail (Some r) s
    end
  else finalize_mail None s.

(** [finish_data_end_after_read]: the From header against the session. *)
Definition finish_data_end_after_read (s : SmtpSession) : Outcome :=
  let from_value := extract_from_header_value (header_buffer (data (ctx s))) in
  let mismatch := reject_and_close (s! "550 5.7.1 From header does not match authenticated user" ++ CRLF) s in
  if reject_unauthenticated_local_sender cfg && negb (authenticated s) && negb trusted &&
     from_header_is_local from_value (system_domain cfg)
  then reject_and_close (s! "550 5.7.1 From header rejected: local domain requires authentication" ++ CRLF) s else
  let auth_user := trim (client_username (auth (ctx s))) in
  let from_addr := from_header_address from_value in
  if enforce_authenticated_from_match cfg && authenticated s && negb (bool_decide (from_addr = [])) &&
     negb (from_header_matches_account from_value auth_user)
  then
    if negb (from_header_is_local from_value (system_domain cfg)) then mismatch else
    match alias_targets env from_addr with
    | None => stuck s
    | Some targets => if account_in_alias_targets targets auth_user then verify_and_submit s else mismatch
    end
  else verify_and_submit s.

(** [finish_data_end_after_commit]: the MIME pre-parse of the stored body. *)
Definition finish_data_end_after_commit (s : SmtpSession) : Outcome :=
  if has_body s then
    match mime_read env with
    | ROk => finish_data_end_after_read s
    | RThrow => reject_and_close local_error s
    | RSilent => stuck s
    end
  else finish_data_end_after_read s.

Definition clear_streamed : SmtpSession → SmtpSession := upd_ctx (λ c, set_data (clear_attachments (data c)) c).

Definition handle_in_message_data_end (s : SmtpSession) : Outcome :=
  if body_limit_exceeded (data (ctx s)) then
    close_with (match abort_reason (ctx s) with
                | [] => s! "552 Message size exceeds limit" ++ CRLF
                | r => r ++ CRLF
                end) WAIT_QUIT (clear_streamed s)
  else
    match commit_body env s with
    | (acts, s, None) => cons_actions acts (stuck s)
    | (acts, s, Some None) => cons_actions acts (finish_data_end_after_commit s)
    | (acts, s, Some (Some k)) =>
        cons_actions acts
          (reject_and_close (match k with
                             | Retryable => s! "451 4.3.0 Failed to store message, try again later" ++ CRLF
                             | Permanent => s! "550 5.3.0 Failed to store message" ++ CRLF
                             end) (clear_streamed s))
    end.

(** *** Leaving, errors *)

Definition handle_wait_quit_quit (s : SmtpSession) : Outcome := close_with (s! "221 Bye" ++ CRLF) CLOSED s.
Definition handle_timeout (s : SmtpSession) : Outcome := ([], s).
Definition handle_empty (s : SmtpSession) : Outcome := ([], s).

Definition handle_error (args : bytes) (s : SmtpSession) : Outcome :=
  let s := set_counts (auth_attempts s) (stay_times s + 1) s in
  if stay_times s >? 3 then ([CloseSession], set_open false s)
  else settle (s! "500 Error: " ++ args) (state s) s.

(** ** Dispatch *)

Definition run_handler (ev : SmtpsEvent) (args : bytes) (s : SmtpSession) : Outcome :=
  match ev with
  | CONNECT => handle_init_connect s
  | EHLO => handle_greeting_ehlo args s
  | STARTTLS => handle_wait_auth_starttls s
  | AUTH => match state s with
            | WAIT_AUTH_USERNAME => handle_wait_auth_username args s
            | WAIT_AUTH_PASSWORD => handle_wait_auth_password args s
            | _ => handle_wait_auth_auth args s
            end
  | MAIL_FROM => handle_wait_auth_mail_from args s
  | RCPT_TO => handle_wait_rcpt_to_rcpt_to args s
  | DATA => match state s with
            | IN_MESSAGE => handle_in_message_data s
            | _ => handle_wait_data_data s
            end
  | DATA_END => handle_in_message_data_end s
  | QUIT => handle_wait_quit_quit s
  | ERROR => handle_error args s
  | TIMEOUT => handle_timeout s
  | EMPTY => handle_empty s
  end.

(** [FsmEngine::dispatch] on the table; a refused event leaves the session as
    it is. *)
Definition smtp_dispatch (ev : SmtpsEvent) (args : bytes) (s : SmtpSession) : Outcome :=
  let desc := make_smtps_desc (negb (is_tls cfg)) in
  let refused := ([Reply (line_of (d_error_reply desc))], s) in
  if is_terminal desc (state s) then ([CloseSession], set_open false s) else
  match guard_target desc (state s) ev with
  | None => refused
  | Some _ => if bool_decide ((state s, ev) ∈ registered (negb (is_tls cfg))) then run_handler ev args s else refused
  end.

(** [handle_read] and [process_read] on one unit of input. *)
Definition smtp_input (line : bytes) (s : SmtpSession) : option Outcome :=
  match state s with
  | IN_MESSAGE =>
      '(ev, acts, s) ← parse_data line s;
      Some (cons_actions acts (smtp_dispatch ev [] s))
  | _ => let '(ev, args) := parse_line line s in Some (smtp_dispatch ev args s)
  end.
End Handlers.

(** ** The session *)

(** The loop over the buffered input; [envs n] answers the command taken with
    [n] rounds left. *)
Fixpoint consume (cfg : SmtpConfig) (envs : nat → SmtpEnv) (fuel : nat) (s : SmtpSession) : option Outcome :=
  match fuel with
  | O => Some ([], s)
  | Datatypes.S fuel =>
      if negb (open s) then Some ([], s) else
      match extract_one_line s with
      | None => Some ([], s)
      | Some (line, s) =>
          '(acts, s) ← smtp_input cfg (envs fuel) line s;
          '(acts', s) ← consume cfg envs fuel s;
          Some (acts ++ acts', s)
      end
  end.

(** A completed read. *)
Definition smtp_chunk (cfg : SmtpConfig) (envs : nat → SmtpEnv) (chunk : bytes) (s : SmtpSession) : option Outcome :=
  if negb (open s) then Some ([], s) else
  let s := set_buffer (command_read_buffer s ++ chunk) s in
  if (max_command_buffer_bytes cfg <? length (command_read_buffer s))%nat
  then Some ([CloseSession], set_open false s)
  else consume cfg envs (length (command_read_buffer s)) s.

Fixpoint smtp_chunks (cfg : SmtpConfig) (reads : list ((nat → SmtpEnv) * bytes)) (s : SmtpSession) : option Outcome :=
  match reads with
  | [] => Some ([], s)
  | (envs, chunk) :: reads =>
      '(acts, s) ← smtp_chunk cfg envs chunk s;
      '(acts', s) ← smtp_chunks cfg reads s;
      Some (acts ++ acts', s)
  end.

(** [start], or [start_after_starttls] on a connection handed over. *)
Definition smtp_start (cfg : SmtpConfig) (env : SmtpEnv) (after_starttls : bool) : Outcome :=
  if after_starttls then ([], set_state WAIT_EHLO new_session) else smtp_dispatch cfg env CONNECT [] new_session.

(** A connection: its start, then what is read. *)
Definition smtp_run (cfg : SmtpConfig) (env : SmtpEnv) (after_starttls : bool)
    (reads : list ((nat → SmtpEnv) * bytes)) : option Outcome :=
  let '(acts, s) := smtp_start cfg env after_starttls in
  '(acts', s) ← smtp_chunks cfg reads s;
  Some (acts ++ acts', s).
End Smtp.

Arguments SmtpSession : clear implicits.
Arguments SmtpAction : clear implicits.
Arguments SmtpEnv : clear implicits.
Arguments Outcome : clear implicits.
