(* ===== verification/SmtpSafety.v ===== *)
(** * Who may send what through the SMTP server

    About [Smtp]: what every submitted mail has gone through
    ([no_open_relay]), what a 250 after the message means ([accepted_is_stored]),
    that the read loop consumes its input, and the two places where the checks
    on the sender can be avoided. *)

From S2P Require Import Prelude CString LineFolder FsmEngine Storage SmtpText Smtp.

Section Safety.
Context {S : Type} `{!WriteStream S} (fold_fuel : nat)
  (inet_pton : bytes → option Z) (EVP_DecodeBlock : bytes → option bytes) (cfg : SmtpConfig).

Implicit Types (s : SmtpSession S) (pre acts : list (SmtpAction S)) (o : Outcome S) (m : Mail) (env : SmtpEnv S).

(** ** The invariant *)

(** The listener's policy asks for a login ([is_trusted_server] is never set). *)
Definition login_required : bool :=
  match auth_policy cfg with
  | ON => true
  | AUTO => negb (bool_decide (inbound_auth_policy cfg = OFF))
  | OFF => false
  end.

Definition logged_in pre : Prop := ∃ user, LoginResult user true ∈ pre.

(** An address the resolver gave for a recipient in the server's domain. *)
Definition resolved pre (r : bytes) : Prop :=
  ∃ address targets, Resolved address targets ∈ pre ∧ r ∈ targets ∧
    to_lower (domain_of address) = to_lower (system_domain cfg).

Definition envelope_ok pre (from : bytes) (to : list bytes) : Prop :=
  trusted inet_pton cfg = false →
  (reject_unauthenticated_local_sender cfg = true → envelope_sender_is_local from (system_domain cfg) = false) ∧
  ∀ r, r ∈ to → resolved pre r.

Definition submission_ok pre m : Prop :=
  logged_in pre ∨ (login_required = false ∧ envelope_ok pre (m_from m) (m_to m)).

Definition idle s : Prop := mail s = None ∧ body_writer s = None ∧ folder s = [].

Definition in_transaction (st : SmtpsState) : Prop := st = WAIT_RCPT_TO ∨ st = WAIT_DATA ∨ st = IN_MESSAGE.

Record Inv pre s : Prop := {
  i_auth : authenticated s = true → logged_in pre;
  i_server : is_trusted_server (ctx s) = false;
  i_abort : abort_reason (ctx s) = [];
  i_env : authenticated s = false → envelope_ok pre (sender_address (ctx s)) (recipient_addresses (ctx s));
  i_pol : authenticated s = false → in_transaction (state s) → login_required = false;
  i_mail : ∀ m, mail s = Some m → submission_ok pre m;
  i_idle : open s = true → state s ≠ IN_MESSAGE → idle s;
}.

Definition trace_ok pre acts : Prop :=
  ∀ a b m k, acts = a ++ Submitted m k :: b → submission_ok (pre ++ a) m.

Definition step_ok pre o : Prop := trace_ok pre o.1 ∧ Inv (pre ++ o.1) o.2.

(** *** Growing traces *)

Lemma logged_in_app pre acts : logged_in pre → logged_in (pre ++ acts).
Proof. intros [u Hu]. exists u. set_solver. Qed.

Lemma envelope_ok_app pre acts from to : envelope_ok pre from to → envelope_ok (pre ++ acts) from to.
Proof.
  intros H Ht. destruct (H Ht) as [H1 H2]. split; [done|]. intros r Hr.
  destruct (H2 r Hr) as (a & ts & Hin & ?). exists a, ts. split; [|done]. set_solver.
Qed.

Lemma submission_ok_app pre acts m : submission_ok pre m → submission_ok (pre ++ acts) m.
Proof. intros [H|[H1 H2]]; [left; by apply logged_in_app|right; split; [done|by apply envelope_ok_app]]. Qed.

Lemma Inv_app pre acts s : Inv pre s → Inv (pre ++ acts) s.
Proof.
  intros []. constructor; auto using logged_in_app, envelope_ok_app, submission_ok_app.
Qed.

Definition is_submission (a : SmtpAction S) : bool := match a with Submitted _ _ => true | _ => false end.

Lemma trace_ok_quiet pre acts : existsb is_submission acts = false → trace_ok pre acts.
Proof.
  intros H a b m k ->. rewrite existsb_app in H. simpl in H. by rewrite orb_true_r in H.
Qed.

Lemma trace_ok_app pre a b : trace_ok pre a → trace_ok (pre ++ a) b → trace_ok pre (a ++ b).
Proof.
  intros Ha Hb x y m k Heq. symmetry in Heq. apply List.app_eq_app in Heq as (l & [[-> Hr]|[-> Hr]]).
  - rewrite (assoc_L (++)). by eapply Hb.
  - destruct l as [|z l]; simpl in Hr.
    + rewrite app_nil_r in *. pose proof (Hb [] y m k) as H. rewrite app_nil_r in H. by apply H.
    + injection Hr as <- ->. by eapply Ha.
Qed.

Lemma step_cons pre acts o :
  existsb is_submission acts = false → step_ok (pre ++ acts) o → step_ok pre (cons_actions acts o).
Proof.
  intros Hq [Ht Hi]. split; simpl.
  - apply trace_ok_app; [by apply trace_ok_quiet|done].
  - by rewrite app_assoc.
Qed.

Lemma step_submit pre m k o :
  submission_ok pre m → step_ok (pre ++ [Submitted m k]) o → step_ok pre (cons_actions [Submitted m k] o).
Proof.
  intros Hm [Ht Hi]. split; cbn [cons_actions fst snd]; [|by rewrite app_assoc].
  apply trace_ok_app; [|done].
  intros a b m' k' Heq. destruct a as [|x a]; simplify_eq/=; [by rewrite app_nil_r|]. by destruct a.
Qed.

(** *** Ends of handlers *)

Lemma settle_ok pre text to s :
  Inv pre s → (authenticated s = false → in_transaction to → login_required = false) →
  (to ≠ IN_MESSAGE → idle s) → step_ok pre (settle text to s).
Proof.
  intros Hi Hp Hd. split; [by apply trace_ok_quiet|]. apply Inv_app. destruct Hi. constructor; cbn; auto.
Qed.

Lemma closed_ok pre acts st s :
  existsb is_submission acts = false → Inv pre s → ¬ in_transaction st →
  step_ok pre (acts, set_open false (set_state st s)).
Proof.
  intros Hq Hi Hn. split; [by apply trace_ok_quiet|]. apply Inv_app. destruct Hi. constructor; cbn; auto; done.
Qed.

Lemma ended_ok pre acts s :
  existsb is_submission acts = false → Inv pre s → step_ok pre (acts, set_open false s).
Proof.
  intros Hq Hi. split; [by apply trace_ok_quiet|]. apply Inv_app. destruct Hi. constructor; cbn; auto; done.
Qed.

Lemma stuck_ok pre s : Inv pre s → step_ok pre (stuck s).
Proof. by apply ended_ok. Qed.

Lemma close_with_ok pre text s : Inv pre s → step_ok pre (close_with text WAIT_QUIT s).
Proof. intros Hi. apply closed_ok; [done..|]. intros [?|[?|?]]; done. Qed.

Lemma reset_inv pre s : Inv pre s → Inv pre (reset_mail_state s).
Proof.
  intros []. constructor; cbn; auto; try done. intros _ _. split; [|set_solver].
  intros _. reflexivity.
Qed.

Lemma reject_and_close_ok pre text s : Inv pre s → step_ok pre (reject_and_close text s).
Proof.
  intros Hi. unfold reject_and_close, discard_current_mail.
  destruct (mail s); apply step_cons; try done; apply close_with_ok; by apply Inv_app; try apply reset_inv.
Qed.

(** *** The handlers keep it *)

Ltac not_in := intros ? [?|[?|?]]; discriminate.

Lemma auth_inv pre f s :
  Inv pre s → is_authenticated (f (auth (ctx s))) = authenticated s → Inv pre (set_ctx_auth f s).
Proof.
  intros [] Hf. constructor; unfold authenticated in *; cbn; rewrite ?Hf; auto.
Qed.

Lemma counts_inv pre a b s : Inv pre s → Inv pre (set_counts a b s).
Proof. intros []. by constructor. Qed.

Section Handler.
Context (pre : list (SmtpAction S)) (s : SmtpSession S).
Context (Hinv : Inv pre s) (Hidle : idle s).

Lemma connect_ok : step_ok pre (handle_init_connect s).
Proof. apply settle_ok; [|not_in|done]. destruct Hinv. constructor; cbn; auto. intros ? [?|[?|?]]; done. Qed.

Lemma ehlo_ok args : step_ok pre (handle_greeting_ehlo cfg args s).
Proof. apply settle_ok; [|not_in|done]. destruct Hinv. by constructor. Qed.

Lemma starttls_ok : step_ok pre (handle_wait_auth_starttls cfg s).
Proof.
  unfold handle_wait_auth_starttls. destruct (negb _); [apply settle_ok; [done|not_in|done]|].
  apply closed_ok; [done..|]. by intros [?|[?|?]].
Qed.

End Handler.

Lemma logged_in_inv pre user shard s' :
  Inv pre s' → Inv (pre ++ [LoginResult user true]) (set_ctx_auth (set_logged_in shard) s').
Proof.
  intros Hi. apply (Inv_app _ [LoginResult user true]) in Hi as [].
  assert (logged_in (pre ++ [LoginResult user true])) by (exists user; set_solver).
  constructor; unfold authenticated in *; cbn; auto; done.
Qed.
Lemma authenticate_ok env pre user password s :
  Inv pre s → idle s → step_ok pre (authenticate cfg env user password s).
Proof.
  intros Hi Hd. unfold authenticate.
  assert (Inv pre (set_ctx_auth (set_username (qualified cfg user)) s)) as Hu by (by apply auth_inv).
  destruct (login_async _ _ _) as [[[] shard]|]; [| |by apply stuck_ok].
  - apply step_cons; [done|]. apply settle_ok; [by apply logged_in_inv|not_in|done].
  - destruct (_ <=? _).
    + apply ended_ok; [done|]. by apply counts_inv.
    + apply step_cons; [done|]. apply settle_ok; [by apply Inv_app, counts_inv|not_in|done].
Qed.

Lemma auth_command_ok env pre args s :
  Inv pre s → idle s → step_ok pre (auth_command EVP_DecodeBlock cfg env args s).
Proof.
  intros Hi Hd. unfold auth_command, handle_wait_auth_auth_login.
  destruct (starts_with _ _); [|apply settle_ok; [done|not_in|done]].
  destruct (drop 6 args); [apply settle_ok; [by apply auth_inv|not_in|done]|].
  destruct (plain_credentials _) as [[]|]; [by apply authenticate_ok|apply settle_ok; [done|not_in|done]].
Qed.

Lemma auth_ok env pre args s :
  Inv pre s → idle s → step_ok pre (handle_wait_auth_auth EVP_DecodeBlock cfg env args s).
Proof.
  intros Hi Hd. unfold handle_wait_auth_auth. destruct (plain_auth_expected _); [|by apply auth_command_ok].
  destruct (plain_credentials _) as [[]|]; [apply authenticate_ok|apply auth_command_ok]; try done;
    by apply auth_inv.
Qed.

Lemma username_ok pre args s :
  Inv pre s → idle s → step_ok pre (handle_wait_auth_username EVP_DecodeBlock args s).
Proof. intros Hi Hd. apply settle_ok; [by apply auth_inv|not_in|done]. Qed.

Lemma verify_inv pre v s : Inv pre s → Inv pre (upd_ctx (set_verify v) s).
Proof. intros []. by constructor. Qed.

Lemma proceed_ok env pre s :
  Inv pre s → idle s → (authenticated s = false → login_required = false) →
  step_ok pre (mail_from_proceed cfg env s).
Proof.
  intros Hi Hd Hp. unfold mail_from_proceed. destruct (_ || _); [apply settle_ok; auto|].
  destruct (check_spf _ _ _ _) as [[r w]|]; [|by apply stuck_ok].
  destruct (_ && _); (apply settle_ok; [by apply verify_inv| |done]); [not_in|auto].
Qed.

Lemma mail_from_ok env pre args s :
  Inv pre s → idle s → step_ok pre (handle_wait_auth_mail_from inet_pton cfg env args s).
Proof.
  intros Hi Hd. unfold handle_wait_auth_mail_from.
  destruct (require_auth cfg s && negb (authenticated s)) eqn:Er; [apply settle_ok; [done|not_in|done]|].
  assert (authenticated s = false → login_required = false) as Hp.
  { intros Ha. rewrite Ha, andb_true_r in Er. revert Er. unfold require_auth, login_required.
    destruct (auth_policy cfg), (inbound_auth_policy cfg); try done. by rewrite (i_server _ _ Hi). }
  destruct (angle_address args) as [sender|]; [|apply settle_ok; [done|not_in|done]].
  destruct (_ && envelope_sender_is_local _ _) eqn:El; [apply settle_ok; [done|not_in|done]|].
  set (s1 := upd_ctx _ s).
  assert (Inv pre s1) as H1.
  { destruct Hi. unfold authenticated in *. constructor; unfold authenticated; cbn; auto.
    intros Ha Ht. split; [|set_solver]. intros Hr. unfold authenticated in El.
    rewrite Ha, Hr, Ht in El. rewrite Ha. exact El. }
  change (authenticated s1) with (authenticated s).
  destruct (authenticated s) eqn:Ea; [|apply proceed_ok; [done|done|]; by auto].
  destruct (check_send_quota _ _ _) as [[]|]; [|apply settle_ok; [done|not_in|done]|by apply stuck_ok].
  apply proceed_ok; [done..|]. intros. unfold s1, authenticated in *. cbn in *. congruence.
Qed.

(** Recipients added under a condition that covers them. *)
Lemma recipients_inv pre f s :
  Inv pre s →
  (authenticated s = false → trusted inet_pton cfg = false →
   (∀ r, r ∈ recipient_addresses (ctx s) → resolved pre r) →
   ∀ r, r ∈ f (recipient_addresses (ctx s)) → resolved pre r) →
  Inv pre (add_recipients f s).
Proof.
  intros [] Hf. constructor; cbn; auto. intros Ha Ht. destruct (i_env0 Ha Ht) as [H1 H2]. split; [done|].
  by apply Hf.
Qed.

Lemma elem_of_push r to targets :
  r ∈ push_recipient_deduped to targets → r ∈ to ∨ r ∈ targets.
Proof.
  unfold push_recipient_deduped. revert to. induction targets as [|t targets IH]; intros to H; simpl in *; [by left|].
  apply IH in H. destruct (bool_decide (t ∈ to)); set_solver.
Qed.

Lemma rcpt_to_again pre text s :
  Inv pre s → idle s → (authenticated s = false → login_required = false) →
  step_ok pre (settle text WAIT_RCPT_TO s).
Proof. intros. apply settle_ok; auto. Qed.

Lemma rcpt_authenticated_ok env pre r s :
  Inv pre s → idle s → authenticated s = true → step_ok pre (rcpt_authenticated cfg env r s).
Proof.
  intros Hi Hd Ha. unfold rcpt_authenticated.
  assert (∀ text f, step_ok pre (settle text WAIT_RCPT_TO (add_recipients f s))) as Hadd.
  { intros text f. apply rcpt_to_again; [|done|]; [apply recipients_inv; [done|]|]; unfold authenticated in *;
      cbn; congruence. }
  destruct (negb _); [apply rcpt_to_again; [done..|congruence]|].
  destruct (bool_decide _); [|apply Hadd].
  destruct (alias_targets _ _) as [[|]|]; [apply Hadd|apply Hadd|by apply stuck_ok].
Qed.

Lemma rcpt_unauthenticated_ok env pre r s :
  Inv pre s → idle s → (authenticated s = false → login_required = false) →
  step_ok pre (rcpt_unauthenticated inet_pton cfg env r s).
Proof.
  intros Hi Hd Hp. unfold rcpt_unauthenticated. destruct (trusted inet_pton cfg) eqn:Et.
  { apply rcpt_to_again; [|done|done]. apply recipients_inv; [done|congruence]. }
  destruct (negb _) eqn:Ed; [by apply rcpt_to_again|].
  destruct (local_of r); [by apply rcpt_to_again|].
  destruct (resolve_recipient _ _) as [[|t ts]|]; [| |by apply stuck_ok]; (apply step_cons; [done|]).
  - apply rcpt_to_again; [by apply Inv_app|done|done].
  - apply rcpt_to_again; [|done|done]. apply recipients_inv; [by apply Inv_app|].
    intros _ _ Hall r' Hr'. apply elem_of_push in Hr' as [Hr'|Hr']; [by apply Hall|].
    exists r, (t :: ts). bool_prop. split_and!; [set_solver|done|done].
Qed.

Lemma rcpt_ok env pre args s :
  Inv pre s → idle s → state s = WAIT_RCPT_TO →
  step_ok pre (handle_wait_rcpt_to_rcpt_to inet_pton cfg env args s).
Proof.
  intros Hi Hd Hs. unfold handle_wait_rcpt_to_rcpt_to.
  assert (authenticated s = false → login_required = false) as Hp.
  { intros Ha. apply (i_pol _ _ Hi Ha). rewrite Hs. by left. }
  destruct (trim <$> angle_address args) as [[|b r]|]; [by apply rcpt_to_again| |by apply rcpt_to_again].
  destruct (authenticated s) eqn:Ea; [by apply rcpt_authenticated_ok|].
  apply rcpt_unauthenticated_ok; auto.
Qed.

(** *** The message *)

Lemma body_inv pre mo w carry s :
  Inv pre s → (∀ m, mo = Some m → submission_ok pre m) → state s = IN_MESSAGE ∨ open s = false →
  Inv pre (set_body mo w carry s).
Proof. intros [] Hm [Hs|Hs]; constructor; cbn; auto; congruence. Qed.

Lemma submission_ok_env pre m m' :
  m_from m' = m_from m → m_to m' = m_to m → submission_ok pre m → submission_ok pre m'.
Proof. unfold submission_ok. by intros -> ->. Qed.

Lemma data_ok env pre s :
  Inv pre s → idle s → in_transaction (state s) → step_ok pre (handle_wait_data_data env s).
Proof.
  intros Hi Hd Hs. unfold handle_wait_data_data, create_mail_on_data_command.
  destruct Hd as (-> & Hw & Hf). set (m := mkMail _ _ _ _ _ _ _ _).
  assert (submission_ok pre m) as Hm.
  { destruct (authenticated s) eqn:Ea; [left; by apply (i_auth _ _ Hi)|].
    right. split; [by apply (i_pol _ _ Hi)|]. by apply (i_env _ _ Hi). }
  assert (∀ m' w, submission_ok pre m' → step_ok pre (settle (s! "354 Start mail input; end with <CRLF>.<CRLF>")
            IN_MESSAGE (set_body (Some m') w (folder s) s))) as Hset.
  { intros m' w Hm'. split; [by apply trace_ok_quiet|]. apply Inv_app. destruct Hi.
    constructor; cbn; auto; [by intros ? [= <-]|done]. }
  destruct (open_write env).
  - apply step_cons; [done|]. rewrite app_nil_r. by apply Hset.
  - cbn. apply step_cons; [done|]. rewrite app_nil_r. by apply Hset.
Qed.

Lemma write_failure_quiet s : existsb is_submission (handle_write_failure s).1 = false.
Proof. unfold handle_write_failure. destruct (mail s) as [m|]; [|done]. by destruct (m_status m). Qed.

Lemma write_failure_inv pre s :
  Inv pre s → state s = IN_MESSAGE → Inv pre (handle_write_failure s).2.
Proof.
  intros Hi Hs. unfold handle_write_failure. destruct (mail s) as [m|] eqn:Em; [|done].
  destruct (m_status m); try done. apply body_inv; [done| |by left].
  intros ? [= <-]. eapply submission_ok_env; [| |by apply (i_mail _ _ Hi)]; done.
Qed.

Lemma write_failure_state s : state (handle_write_failure s).2 = state s.
Proof. unfold handle_write_failure. destruct (mail s) as [m|]; [|done]. by destruct (m_status m). Qed.

Lemma commit_body_ok env pre s acts s' r :
  Inv pre s → state s = IN_MESSAGE → commit_body env s = (acts, s', r) →
  existsb is_submission acts = false ∧ Inv pre s' ∧ state s' = IN_MESSAGE.
Proof.
  intros Hi Hs. unfold commit_body. destruct (mail s) as [m|] eqn:Em; [|by intros [= <- <- <-]].
  pose proof (write_failure_quiet s) as Hq. pose proof (write_failure_inv _ _ Hi Hs) as Hw.
  pose proof (write_failure_state s) as Hws. destruct (body_writer s) as [w|].
  - destruct (negb _); [by intros [= <- <- <-]|].
    destruct (writer_commit w) as [[k|] w'].
    + set (s1 := set_body _ _ _ s).
      assert (Inv pre s1) as H1.
      { apply body_inv; [done| |by left]. intros ? [= <-]. by apply (i_mail _ _ Hi). }
      pose proof (write_failure_quiet s1). pose proof (write_failure_inv _ _ H1 Hs).
      pose proof (write_failure_state s1).
      destruct (handle_write_failure s1). intros [= <- <- <-]. simpl in *. split_and!; try done. congruence.
    + intros [= <- <- <-]. split_and!; [done| |done]. apply body_inv; [done| |by left].
      intros ? [= <-]. by apply (i_mail _ _ Hi).
  - destruct (handle_write_failure s). intros [= <- <- <-]. simpl in *. split_and!; try done. congruence.
Qed.

Lemma acknowledge_ok pre s : Inv pre s → step_ok pre (acknowledge s).
Proof. intros Hi. apply settle_ok; [by apply reset_inv|not_in|done]. Qed.

Lemma notify_quiet (to : list bytes) : existsb is_submission (Notify <$> to : list (SmtpAction S)) = false.
Proof. by induction to. Qed.

Lemma await_persist_ok pre a s : Inv pre s → step_ok pre (await_persist a s).
Proof.
  intros Hi. unfold await_persist. destruct a as [[[] st]|]; [by apply close_with_ok| |by apply stuck_ok].
  destruct st; try by apply close_with_ok.
  apply step_cons; [apply notify_quiet|]. by apply acknowledge_ok, Inv_app.
Qed.

Lemma finalize_mail_ok env pre vr s :
  Inv pre s → state s = IN_MESSAGE → step_ok pre (finalize_mail cfg env vr s).
Proof.
  intros Hi0 Hs0. unfold finalize_mail. set (s1 := match vr with None => s | _ => _ end).
  assert (Inv pre s1 ∧ state s1 = IN_MESSAGE) as [Hi Hs].
  { subst s1. destruct vr as [[[? ?] ?]|]; [|done]. split; [|done]. by apply verify_inv. }
  clearbody s1. clear s Hi0 Hs0. cbv zeta.
  destruct (mail s1) as [m|] eqn:Em; [|by apply reject_and_close_ok].
  set (m' := completed_mail _ m).
  assert (submission_ok pre m') as Hm.
  { eapply submission_ok_env; [| |by apply (i_mail _ _ Hi)]; done. }
  assert (∀ mo, (mo = None ∨ mo = Some m') → Inv (pre ++ [Submitted m' true]) (set_body mo (body_writer s1) (folder s1) s1)) as Hb.
  { intros mo Hmo. apply body_inv; [by apply Inv_app| |by left]. intros ? ->. destruct Hmo; simplify_eq.
    by apply submission_ok_app. }
  assert (∀ mo p, (mo = None ∨ mo = Some m') →
    step_ok pre (cons_actions [Submitted m' true]
      match inbound_ack_mode cfg with
      | AFTER_PERSIST => await_persist p (set_body mo (body_writer s1) (folder s1) s1)
      | AFTER_ENQUEUE => acknowledge (set_body mo (body_writer s1) (folder s1) s1)
      end)) as Hacc.
  { intros mo p Hmo. apply step_submit; [done|].
    destruct (inbound_ack_mode cfg); [apply await_persist_ok|apply acknowledge_ok]; by apply Hb. }
  destruct (queue_answer env) as [a|]; [|apply Hacc; by right].
  destruct (submit_owned_mail a m').
  - apply Hacc. by left.
  - apply step_submit; [done|]. apply reject_and_close_ok.
    apply body_inv; [by apply Inv_app| |by left]. intros ? [= <-]. by apply submission_ok_app.
  - apply reject_and_close_ok. apply (body_inv pre None (body_writer s1) (folder s1) s1); [done|done|by left].
Qed.

Lemma verify_and_submit_ok env pre s :
  Inv pre s → state s = IN_MESSAGE → step_ok pre (verify_and_submit cfg env s).
Proof.
  intros. unfold verify_and_submit. destruct (_ && has_body s); [|by apply finalize_mail_ok].
  destruct (verify_all env); [by apply finalize_mail_ok|by apply stuck_ok].
Qed.

Lemma after_read_ok env pre s :
  Inv pre s → state s = IN_MESSAGE → step_ok pre (finish_data_end_after_read inet_pton cfg env s).
Proof.
  intros. unfold finish_data_end_after_read. destruct (_ && _); [by apply reject_and_close_ok|].
  destruct (_ && _); [|by apply verify_and_submit_ok].
  destruct (negb _); [by apply reject_and_close_ok|].
  destruct (alias_targets _ _); [|by apply stuck_ok].
  destruct (account_in_alias_targets _ _); [by apply verify_and_submit_ok|by apply reject_and_close_ok].
Qed.

Lemma after_commit_ok env pre s :
  Inv pre s → state s = IN_MESSAGE → step_ok pre (finish_data_end_after_commit inet_pton cfg env s).
Proof.
  intros. unfold finish_data_end_after_commit. destruct (has_body s); [|by apply after_read_ok].
  destruct (mime_read env); [by apply after_read_ok|by apply reject_and_close_ok|by apply stuck_ok].
Qed.

Lemma set_data_inv pre f s : Inv pre s → Inv pre (upd_ctx (λ c, set_data (f c) c) s).
Proof. intros []. by constructor. Qed.

Lemma data_end_ok env pre s :
  Inv pre s → state s = IN_MESSAGE → step_ok pre (handle_in_message_data_end inet_pton cfg env s).
Proof.
  intros Hi Hs. unfold handle_in_message_data_end.
  destruct (body_limit_exceeded _); [by apply close_with_ok, set_data_inv|].
  destruct (commit_body env s) as [[acts s1] r] eqn:Ec.
  apply (commit_body_ok _ pre) in Ec as (Hq & H1 & Hs1); [|done..].
  destruct r as [[k|]|]; apply step_cons; try done.
  - apply reject_and_close_ok, set_data_inv. by apply Inv_app.
  - apply after_commit_ok; [by apply Inv_app|done].
  - by apply stuck_ok, Inv_app.
Qed.

(** *** The engine and the loop *)

Lemma error_ok pre args s :
  Inv pre s → open s = true → step_ok pre (handle_error args s).
Proof.
  intros Hi Ho. unfold handle_error. destruct (_ >? _); [by apply ended_ok, counts_inv|].
  apply settle_ok; [by apply counts_inv|apply Hi|by apply Hi].
Qed.

Lemma quiet_ok pre acts s : existsb is_submission acts = false → Inv pre s → step_ok pre (acts, s).
Proof. intros. split; [by apply trace_ok_quiet|by apply Inv_app]. Qed.

(** A cell that has no handler. *)
Ltac no_handler Hr :=
  exfalso; apply (bool_decide_eq_true_2 _) in Hr; revert Hr; destruct (is_tls cfg); vm_compute; discriminate.

Lemma run_handler_ok env pre ev args s :
  Inv pre s → open s = true → (state s, ev) ∈ registered (negb (is_tls cfg)) →
  step_ok pre (run_handler inet_pton EVP_DecodeBlock cfg env ev args s).
Proof.
  intros Hi Ho Hr.
  assert (state s ≠ IN_MESSAGE → idle s) as Hd by (intros; by apply Hi).
  destruct (decide (state s = IN_MESSAGE)) as [Hs|Hs].
  - rewrite Hs in Hr. unfold run_handler.
    destruct ev; try (no_handler Hr);
      try (by apply quiet_ok); rewrite ?Hs.
    + by apply quiet_ok.
    + by apply data_end_ok.
    + apply closed_ok; [done..|]. by intros [?|[?|?]].
    + by apply error_ok.
  - specialize (Hd Hs). unfold run_handler. destruct ev; try (by apply quiet_ok).
    + by apply connect_ok.
    + by apply ehlo_ok.
    + destruct (state s); auto using auth_ok, username_ok. all: by apply authenticate_ok.
    + by apply mail_from_ok.
    + apply rcpt_ok; [done..|]. destruct (state s); try done; no_handler Hr.
    + destruct (state s) eqn:Es; try done; (apply data_ok; [done..|]); rewrite Es; unfold in_transaction; auto;
        no_handler Hr.
    + destruct (state s); try done; no_handler Hr.
    + apply closed_ok; [done..|]. by intros [?|[?|?]].
    + by apply starttls_ok.
    + by apply error_ok.
Qed.

Lemma smtp_dispatch_ok env pre ev args s :
  Inv pre s → open s = true → step_ok pre (smtp_dispatch inet_pton EVP_DecodeBlock cfg env ev args s).
Proof.
  intros Hi Ho. unfold smtp_dispatch. destruct (is_terminal _ _); [by apply ended_ok|].
  destruct (guard_target _ _ _); [|by apply quiet_ok].
  destruct (bool_decide (_ ∈ _)) eqn:Er; [|by apply quiet_ok]. bool_prop. by apply run_handler_ok.
Qed.

Lemma append_body_ok pre d s :
  Inv pre s → state s = IN_MESSAGE → open s = true →
  let '(acts, s') := append_body_data d s in
  existsb is_submission acts = false ∧ Inv pre s' ∧ state s' = IN_MESSAGE ∧ open s' = true.
Proof.
  intros Hi Hs Ho. unfold append_body_data. destruct (body_writer s) as [w|]; [|done].
  destruct (wr_failed w); [done|].
  assert (∀ w', Inv pre (set_body (mail s) (Some w') (folder s) s)) as Hb.
  { intros w'. apply body_inv; [done| |by left]. apply Hi. }
  destruct (writer_write d w) as [[k|] w']; [|done].
  set (s1 := set_body _ _ _ s). pose proof (write_failure_quiet s1). pose proof (write_failure_inv pre s1 (Hb w') Hs).
  pose proof (write_failure_state s1) as Hst. change (state s1) with (state s) in Hst. rewrite Hs in Hst.
  assert (open (handle_write_failure s1).2 = true).
  { unfold handle_write_failure. subst s1. cbn. destruct (mail s) as [m|]; [|done]. by destruct (m_status m). }
  by destruct (handle_write_failure s1) as [acts s2].
Qed.

Lemma parse_data_ok pre d s ev acts s' :
  Inv pre s → state s = IN_MESSAGE → open s = true → parse_data fold_fuel d s = Some (ev, acts, s') →
  existsb is_submission acts = false ∧ Inv pre s' ∧ state s' = IN_MESSAGE ∧ open s' = true.
Proof.
  intros Hi Hs Ho H. unfold parse_data in H. cbv zeta in H.
  set (r := match find_sub END_OF_DATA d with None => _ | _ => _ end) in H.
  assert (Inv pre r.2 ∧ state r.2 = IN_MESSAGE ∧ open r.2 = true) as (Hi1 & Hs1 & Ho1).
  { subst r. destruct (find_sub END_OF_DATA d); simpl; [|done]. split; [|done]. destruct Hi. by constructor. }
  destruct r as [chunk s1]. cbn [snd] in *.
  set (s2 := upd_ctx _ s1) in H. assert (Inv pre s2) as Hi2 by (by apply set_data_inv).
  assert (state s2 = IN_MESSAGE) as Hs2 by done. assert (open s2 = true) as Ho2 by done. clearbody s2.
  set (fed := match chunk with [] => _ | _ => _ end) in H. destruct fed as [[a s3]|] eqn:Ef; [|done]. subst fed.
  assert (existsb is_submission a = false ∧ Inv pre s3 ∧ state s3 = IN_MESSAGE ∧ open s3 = true)
    as (Hq3 & Hi3 & Hs3 & Ho3).
  { destruct chunk as [|c chunk]; [by simplify_eq|]. destruct (feed _ _ _) as [[out carry]|]; [|done].
    cbn in Ef. injection Ef as Ef.
    pose proof (append_body_ok pre out (set_body (mail s2) (body_writer s2) carry s2)) as Hb.
    rewrite Ef in Hb. apply Hb; [|done..]. apply body_inv; [done| |by left]. apply Hi2. }
  cbn in H. destruct (_ || _); [|by injection H as <- <- <-].
  destruct (flush _ _) as [tail|]; [|done]. cbn in H.
  set (s4 := set_body _ _ _ s3) in H. assert (Inv pre s4) as Hi4.
  { apply body_inv; [done| |by left]. apply Hi3. }
  set (r := match tail with [] => _ | _ => _ end) in H.
  assert (existsb is_submission r.1 = false ∧ Inv pre r.2 ∧ state r.2 = IN_MESSAGE ∧ open r.2 = true)
    as (Hq5 & Hi5 & Hs5 & Ho5).
  { subst r. destruct tail as [|c tail]; [done|]. pose proof (append_body_ok pre (c :: tail) s4) as Hb.
    destruct (append_body_data _ s4). by apply Hb. }
  destruct r as [a' s5]. injection H as <- <- <-. rewrite existsb_app, Hq3. split_and!; try done.
  by apply set_data_inv.
Qed.

Lemma buffer_inv pre b s : Inv pre s → Inv pre (set_buffer b s).
Proof. intros []. by constructor. Qed.

Lemma input_ok env pre line s o :
  Inv pre s → open s = true → smtp_input fold_fuel inet_pton EVP_DecodeBlock cfg env line s = Some o → step_ok pre o.
Proof.
  intros Hi Ho H. unfold smtp_input in H.
  assert (∀ ev args, Some (smtp_dispatch inet_pton EVP_DecodeBlock cfg env ev args s) = Some o → step_ok pre o)
    as Hcmd.
  { intros ev args [= <-]. by apply smtp_dispatch_ok. }
  destruct (state s) eqn:Es; try (destruct (parse_line line s); by eapply Hcmd).
  destruct (parse_data _ _ _) as [[[ev acts] s1]|] eqn:Ep; [|done]. injection H as <-.
  apply (parse_data_ok pre) in Ep as (Hq & Hi1 & Hs1 & Ho1); [|done..].
  apply step_cons; [done|]. apply smtp_dispatch_ok; [by apply Inv_app|done].
Qed.

Lemma step_seq pre acts s acts' s' :
  step_ok pre (acts, s) → step_ok (pre ++ acts) (acts', s') → step_ok pre (acts ++ acts', s').
Proof.
  intros [Ht _] [Ht' Hi]. split; simpl in *; [by apply trace_ok_app|by rewrite app_assoc].
Qed.

Lemma extract_inv pre s line s' :
  Inv pre s → extract_one_line s = Some (line, s') → Inv pre s' ∧ open s' = open s.
Proof.
  intros Hi H. unfold extract_one_line in H.
  assert (∀ b, Inv pre (set_buffer b s)) as Hb by (intros; by apply buffer_inv).
  destruct (state s), (command_read_buffer s); guards H; simplify_eq; (split; [apply Hb|done]).
Qed.

Lemma consume_ok envs fuel pre s o :
  Inv pre s → consume fold_fuel inet_pton EVP_DecodeBlock cfg envs fuel s = Some o → step_ok pre o.
Proof.
  revert pre s o. induction fuel as [|fuel IH]; intros pre s o Hi H; cbn in H.
  { simplify_eq. by apply quiet_ok. }
  destruct (open s) eqn:Ho; simpl in H; [|simplify_eq; by apply quiet_ok].
  destruct (extract_one_line s) as [[line s1]|] eqn:Ex; [|simplify_eq; by apply quiet_ok].
  destruct (extract_inv _ _ _ _ Hi Ex) as [Hi1 Ho1].
  destruct (smtp_input _ _ _ _ _ _ _) as [[acts s2]|] eqn:Ein; [|done]. cbn in H.
  destruct (consume _ _ _ _ _ _ _) as [[acts' s3]|] eqn:Ec; [|done]. injection H as <-.
  apply (input_ok _ pre) in Ein; [|done|congruence]. eapply step_seq; [done|]. by eapply IH; [apply Ein|].
Qed.

Lemma chunk_ok envs chunk pre s o :
  Inv pre s → smtp_chunk fold_fuel inet_pton EVP_DecodeBlock cfg envs chunk s = Some o → step_ok pre o.
Proof.
  intros Hi H. unfold smtp_chunk in H. destruct (negb (open s)); [simplify_eq; by apply quiet_ok|].
  destruct (_ <? _)%nat; [simplify_eq; by apply ended_ok, buffer_inv|].
  eapply consume_ok; [|exact H]. by apply buffer_inv.
Qed.

Lemma chunks_ok reads pre s o :
  Inv pre s → smtp_chunks fold_fuel inet_pton EVP_DecodeBlock cfg reads s = Some o → step_ok pre o.
Proof.
  revert pre s o. induction reads as [|[envs chunk] reads IH]; intros pre s o Hi H; cbn in H.
  { simplify_eq. by apply quiet_ok. }
  destruct (smtp_chunk _ _ _ _ _ _ _) as [[acts s1]|] eqn:E; [|done]. cbn in H.
  destruct (smtp_chunks _ _ _ _ _ _) as [[acts' s2]|] eqn:E'; [|done]. injection H as <-.
  apply (chunk_ok _ _ pre) in E; [|done]. eapply step_seq; [done|]. by eapply IH; [apply E|].
Qed.

Lemma new_inv st : ¬ in_transaction st → Inv [] (set_state st (new_session : SmtpSession S)).
Proof.
  intros Hn. constructor; try done. intros _ _. split; [|set_solver]. by intros _.
Qed.

Lemma smtp_run_ok env tls reads o :
  smtp_run fold_fuel inet_pton EVP_DecodeBlock cfg env tls reads = Some o → step_ok [] o.
Proof.
  intros H. unfold smtp_run in H. destruct (smtp_start _ _ _ _ _) as [acts s] eqn:Es.
  assert (step_ok [] (acts, s)) as Hs.
  { rewrite <-Es. unfold smtp_start. destruct tls.
    - apply (quiet_ok [] []); [done|]. apply new_inv. by intros [?|[?|?]].
    - apply smtp_dispatch_ok; [|done]. apply (new_inv INIT). by intros [?|[?|?]]. }
  destruct (smtp_chunks _ _ _ _ _ _) as [[acts' s']|] eqn:E; [|done]. injection H as <-.
  eapply step_seq; [done|]. eapply chunks_ok; [apply Hs|exact E].
Qed.

(** C1: The server is no open relay.  In any session, whatever is sent to it,
    however it is cut into reads, and whatever the database, DNS and the queue
    answer: before every mail handed to the queue there was a successful login,
    or the listener's policy asks for none; and then, unless the peer is in a
    trusted network, every recipient of the mail is an answer of the recipient
    resolver for an address in the server's own domain, and the envelope
    sender is not in that domain (when the local-sender rule is on). *)
Theorem no_open_relay (env : SmtpEnv S) (tls : bool) (reads : list ((nat → SmtpEnv S) * bytes))
  (acts before after : list (SmtpAction S)) (s : SmtpSession S) (m : Mail) (k : bool)
  (Hrun : smtp_run fold_fuel inet_pton EVP_DecodeBlock cfg env tls reads = Some (acts, s))
  (Hsub : acts = before ++ Submitted m k :: after) :
  (∃ user, LoginResult user true ∈ before) ∨
  login_required = false ∧
  (trusted inet_pton cfg = false →
     (∀ r, r ∈ m_to m → ∃ address targets, Resolved address targets ∈ before ∧ r ∈ targets ∧
        to_lower (domain_of address) = to_lower (system_domain cfg)) ∧
     (reject_unauthenticated_local_sender cfg = true →
        envelope_sender_is_local (m_from m) (system_domain cfg) = false)).
Proof.
  destruct (smtp_run_ok _ _ _ _ Hrun) as [Ht _]. destruct (Ht before after m k Hsub) as [Hl|[Hl He]]; [by left|right].
  split; [done|]. intros Hu. by destruct (He Hu).
Qed.

(** ** What is acknowledged is stored *)

Context `{!WriteStreamLaws S}.

Definition OK250 : bytes := line_of (s! "250 OK").

(** The writer has taken [out], or will refuse to commit. *)
Definition writer_at s (out : bytes) : Prop :=
  match body_writer s with
  | None => True
  | Some w => given_up w ∨ holds_bytes w out
  end.

(** In the message, with [recv] received so far. *)
Record BodyAt (from : bytes) (to : list bytes) (recv : bytes) s : Prop := {
  b_state : state s = IN_MESSAGE;
  b_open : open s = true;
  b_buffer : command_read_buffer s = [];
  b_mail : ∃ m, mail s = Some m ∧ m_from m = from ∧ m_to m = to;
  b_fold : folder s = (lines_of recv).2;
  b_writer : ∃ out, store_lines fold_fuel (lines_of recv).1 = Some out ∧ writer_at s out;
}.

Lemma write_failure_eq s m :
  mail s = Some m →
  ∃ m', (handle_write_failure s).2 = set_body (Some m') (body_writer s) (folder s) s ∧
    m_from m' = m_from m ∧ m_to m' = m_to m.
Proof.
  intros Hm. unfold handle_write_failure. rewrite Hm. destruct s; simpl in *; subst.
  destruct (m_status m); eexists; split_and!; simpl; reflexivity.
Qed.

Lemma write_failure_silent s : Reply OK250 ∉ (handle_write_failure s).1.
Proof. unfold handle_write_failure. destruct (mail s) as [m|]; [|set_solver]. destruct (m_status m); set_solver. Qed.

Lemma append_body_eq d s m out :
  mail s = Some m → writer_at s out → Z.of_nat (length (out ++ d)) < 2 ^ 64 →
  Reply OK250 ∉ (append_body_data d s).1 ∧
  ∃ m' w', (append_body_data d s).2 = set_body (Some m') w' (folder s) s ∧
    m_from m' = m_from m ∧ m_to m' = m_to m ∧ writer_at (append_body_data d s).2 (out ++ d).
Proof.
  intros Hm Hw Hl. unfold append_body_data, writer_at in *. destruct (body_writer s) as [w|] eqn:Ew.
  2:{ split; [set_solver|]. exists m, None. simpl. rewrite Ew. split_and!; try done. unfold set_body; destruct s; simpl in *; by subst. }
  destruct Hw as [Hg|Hh].
  { destruct Hg as [Hc Hf]. rewrite Hf. split; [set_solver|]. exists m, (Some w). simpl. rewrite Ew.
    split_and!; try done; [unfold set_body; destruct s; simpl in *; by subst|]. by left. }
  destruct (holds_bytes_fields _ _ Hh) as [_ Hf]. rewrite Hf.
  destruct (writer_write d w) as [r w'] eqn:E. pose proof (write_spec _ _ _ _ _ Hh Hl E) as Hs.
  destruct r as [k|].
  - split; [apply write_failure_silent|]. set (s1 := set_body _ _ _ s).
    destruct (write_failure_eq s1 m Hm) as (m' & Heq & H1 & H2). exists m', (Some w').
    rewrite Heq. split_and!; try done. by left.
  - split; [set_solver|]. exists m, (Some w'). rewrite Hm. split_and!; try done. by right.
Qed.

Lemma stored_prefix (a b body : bytes) :
  stored_text fold_fuel (a ++ b) = Some body →
  ∃ x, store_lines fold_fuel (lines_of a).1 = Some x ∧ (length x ≤ length body)%nat.
Proof.
  unfold stored_text. rewrite lines_of_app. destruct (lines_of a) as [ls r]. simpl.
  destruct (lines_of (r ++ b)) as [ls' r']. simpl. rewrite store_lines_app. intros H.
  destruct (store_lines fold_fuel ls) as [x|]; [|done]. simpl in H.
  destruct (store_lines fold_fuel ls') as [y|]; [|done]. simpl in H.
  destruct (flush fold_fuel r') as [z|]; [|done]. simpl in H. injection H as <-. exists x.
  rewrite !length_app. split; [done|lia].
Qed.

(** Feeding a chunk. *)
Lemma feed_step from to recv c rest body s :
  BodyAt from to recv s → stored_text fold_fuel (recv ++ c ++ rest) = Some body →
  Z.of_nat (length body) < 2 ^ 64 →
  ∃ x carry, feed fold_fuel (folder s) c = Some (x, carry) ∧
    let o := append_body_data x (set_body (mail s) (body_writer s) carry s) in
    Reply OK250 ∉ o.1 ∧ BodyAt from to (recv ++ c) o.2.
Proof.
  intros [Hs Ho Hb (m & Hm & Hfrom & Hto) Hf (out & Hout & Hw)] Hst Hl.
  destruct (stored_prefix (recv ++ c) rest body) as (x' & Hx' & Hle); [by rewrite <-app_assoc|].
  pose proof (lines_of_app recv c) as Hlines. rewrite feed_eq, Hf. rewrite Hlines in Hx'.
  destruct (lines_of recv) as [ls r] eqn:El. simpl in *.
  destruct (lines_of (r ++ c)) as [ls' r'] eqn:El'. simpl in *. rewrite store_lines_app, Hout in Hx'. simpl in Hx'.
  destruct (store_lines fold_fuel ls') as [x|] eqn:Ex; [|done]. simpl in *. injection Hx' as <-.
  exists x, r'. split; [done|]. set (s1 := set_body _ _ _ s).
  destruct (append_body_eq x s1 m out) as (Hq & m' & w' & Heq & H1 & H2 & H3); [done|done|lia|].
  split; [done|]. rewrite Heq in H3 |- *. constructor; cbn; auto.
  - exists m'. split_and!; congruence.
  - by rewrite Hlines.
  - exists (out ++ x). rewrite Hlines. simpl. rewrite store_lines_app, Hout. simpl. by rewrite Ex.
Qed.

Lemma body_set_data from to recv f s :
  BodyAt from to recv s → BodyAt from to recv (upd_ctx (λ c, set_data (f c) c) s).
Proof. intros []. by constructor. Qed.

(** A piece of the message, empty or not, through folder and writer. *)
Lemma feed_piece from to recv c rest body s :
  BodyAt from to recv s → stored_text fold_fuel (recv ++ c ++ rest) = Some body →
  Z.of_nat (length body) < 2 ^ 64 →
  ∃ acts s', match c with
             | [] => Some ([], s)
             | _ => '(out, carry) ← feed fold_fuel (folder s) c;
                    Some (append_body_data out (set_body (mail s) (body_writer s) carry s))
             end = Some (acts, s') ∧ Reply OK250 ∉ acts ∧ BodyAt from to (recv ++ c) s'.
Proof.
  intros Hb Hst Hl. destruct c as [|b c].
  { exists [], s. rewrite app_nil_r. split_and!; [done|set_solver|done]. }
  destruct (feed_step _ _ _ _ _ _ _ Hb Hst Hl) as (x & carry & -> & Hq & Hb'). cbn.
  destruct (append_body_data _ _) as [acts s']. by exists acts, s'.
Qed.

Lemma parse_data_body from to recv c rest body s :
  BodyAt from to recv s → find_sub END_OF_DATA c = None → trim c ≠ [46] →
  stored_text fold_fuel (recv ++ c ++ rest) = Some body → Z.of_nat (length body) < 2 ^ 64 →
  ∃ acts s', parse_data fold_fuel c s = Some (DATA, acts, s') ∧ Reply OK250 ∉ acts ∧ BodyAt from to (recv ++ c) s'.
Proof.
  intros Hb Hf Ht Hst Hl. unfold parse_data. rewrite Hf, bool_decide_eq_false_2 by done. cbn [orb].
  apply (body_set_data _ _ _ (λ x, process_message_data c (data x))) in Hb.
  destruct (feed_piece _ _ _ _ _ _ _ Hb Hst Hl) as (acts & s' & Heq & Hq & Hb').
  exists acts, s'. split; [|done]. setoid_rewrite Heq. done.
Qed.

(** The session when DATA_END is dispatched. *)
Definition ready from to body s : Prop :=
  state s = IN_MESSAGE ∧ open s = true ∧ command_read_buffer s = [] ∧
  (∃ m, mail s = Some m ∧ m_from m = from ∧ m_to m = to) ∧ writer_at s body.

Lemma parse_data_end from to recv part body s :
  BodyAt from to recv s → find_sub END_OF_DATA (part ++ END_OF_DATA) = Some (length part) →
  stored_text fold_fuel (recv ++ part) = Some body → Z.of_nat (length body) < 2 ^ 64 →
  ∃ acts s', parse_data fold_fuel (part ++ END_OF_DATA) s = Some (DATA_END, acts, s') ∧ Reply OK250 ∉ acts ∧
    ready from to body s'.
Proof.
  clear inet_pton EVP_DecodeBlock cfg. intros Hb Hf Hst Hl. unfold parse_data.
  rewrite Hf, orb_true_r, take_app_length.
  rewrite (drop_app_ge part END_OF_DATA) by lia.
  replace (length part + 5 - length part)%nat with 5%nat by lia. cbv zeta beta iota.
  change (drop 5 END_OF_DATA) with ([] : bytes). rewrite (b_buffer _ _ _ _ Hb), app_nil_r.
  assert (BodyAt from to recv (set_buffer [] s)) as Hb1 by (destruct Hb; by constructor).
  apply (body_set_data _ _ _ (λ c, process_message_data part (data c))) in Hb1.
  destruct (feed_piece _ _ _ part [] body _ Hb1) as (acts & s' & Heq & Hq & Hb'); [by rewrite app_nil_r|done|].
  match goal with |- context [mbind _ ?x] => replace x with (Some (acts, s')) by (symmetry; exact Heq) end.
  cbn [mbind option_bind].
  destruct Hb' as [Hs Ho Hbuf (m & Hm & Hfrom & Hto) Hfold (out & Hout & Hw)].
  unfold stored_text in Hst. rewrite Hout in Hst. rewrite Hfold.
  destruct (flush fold_fuel (lines_of (recv ++ part)).2) as [tl|] eqn:Efl; [|done].
  cbn in Hst |- *. injection Hst as <-.
  set (s1 := set_body _ _ _ s'). destruct tl as [|b tl].
  - exists (acts ++ []), (upd_ctx (λ c, set_data (finalize_attachment (data c)) c) s1). rewrite !app_nil_r in *.
    split_and!; [done|done|]. split_and!; try done. by exists m.
  - destruct (append_body_eq (b :: tl) s1 m out) as (Hq' & m' & w' & Heq' & H1 & H2 & H3); [done..|].
    destruct (append_body_data (b :: tl) s1) as [acts' s2]. cbn [fst snd] in *. subst s2.
    eexists _, _. split; [reflexivity|]. split; [set_solver|]. split_and!; try done.
    exists m'. split_and!; [done|congruence..].
Qed.

(** *** DATA_END *)

(** If [o] acknowledges, it submitted [m] (completed) first, and then waited
    for persistence unless the configuration says otherwise. *)
Definition acked env m o : Prop :=
  Reply OK250 ∈ o.1 →
  ∃ m' mid, o.1 = Submitted m' true :: mid ++ [Reply OK250] ∧ m_from m' = m_from m ∧ m_to m' = m_to m ∧
    m_body_path m' = m_body_path m ∧
    (inbound_ack_mode cfg = AFTER_ENQUEUE ∨
     (Persisted ∈ mid ∧ (queue_answer env = None ∨ persist_answer env = Some (mkPersist false SUCCESS)))).

Lemma silent_acked env m o : Reply OK250 ∉ o.1 → acked env m o.
Proof. by intros H ?. Qed.

Lemma reject_silent text s : text ≠ OK250 → Reply OK250 ∉ (reject_and_close text s).1.
Proof.
  intros Ht. unfold reject_and_close, discard_current_mail.
  destruct (mail s); simpl; rewrite ?elem_of_cons, ?elem_of_nil; naive_solver.
Qed.

Lemma reject_acked env m text s : text ≠ OK250 → acked env m (reject_and_close text s).
Proof. intros. by apply silent_acked, reject_silent. Qed.

Lemma stuck_acked env m s : acked env m (stuck s).
Proof. apply silent_acked. set_solver. Qed.

Ltac not_ok := intros Habs; apply (f_equal (take 3)) in Habs; vm_compute in Habs; discriminate Habs.

Lemma persist_acked env m m' p s :
  m_from m' = m_from m → m_to m' = m_to m → m_body_path m' = m_body_path m →
  (queue_answer env = None ∧ p = Some (mkPersist false SUCCESS) ∨ p = persist_answer env) →
  acked env m (cons_actions [Submitted m' true] (await_persist p s)).
Proof.
  intros H1 H2 H3 Hp Hin. unfold await_persist in *. destruct p as [[[] st]|].
  - exfalso. revert Hin. simpl. rewrite !elem_of_cons, elem_of_nil. by intros [?|[?|[?|[]]]].
  - destruct st; try (exfalso; revert Hin; simpl; rewrite !elem_of_cons, elem_of_nil;
      by intros [?|[?|[?|[]]]]).
    exists m', (Persisted :: (Notify <$> recipient_addresses (ctx s))). split_and!; try done. right.
    split; [set_solver|]. destruct Hp as [[? _]|<-]; auto.
  - exfalso. simpl in Hin. set_solver.
Qed.

Lemma finalize_acked env vr s m : mail s = Some m → acked env m (finalize_mail cfg env vr s).
Proof.
  intros Hm0. unfold finalize_mail. set (s1 := match vr with None => s | _ => _ end).
  assert (mail s1 = Some m) as Hm by (subst s1; by destruct vr as [[[]]|]).
  clearbody s1. cbv zeta. rewrite Hm. set (m' := completed_mail _ m).
  assert (∀ p s2, (queue_answer env = None ∧ p = Some (mkPersist false SUCCESS) ∨ p = persist_answer env) →
    acked env m (cons_actions [Submitted m' true]
      match inbound_ack_mode cfg with AFTER_PERSIST => await_persist p s2 | AFTER_ENQUEUE => acknowledge s2 end))
    as Hacc.
  { intros p s2 Hp. destruct (inbound_ack_mode cfg) eqn:Ea; [by apply persist_acked|].
    intros _. exists m', []. split_and!; try done. by left. }
  destruct (queue_answer env) as [a|] eqn:Eq; [|apply Hacc; by left].
  destruct (submit_owned_mail a m'); [by apply Hacc; right| |apply reject_acked; not_ok].
  apply silent_acked. cbn [cons_actions fst app]. rewrite elem_of_cons. intros [?|Hin]; [done|].
  revert Hin. apply reject_silent. not_ok.
Qed.

Lemma commit_acked env s m : mail s = Some m → acked env m (finish_data_end_after_commit inet_pton cfg env s).
Proof.
  intros Hm. assert (acked env m (verify_and_submit cfg env s)) as Hv.
  { unfold verify_and_submit. destruct (_ && has_body s); [|by apply finalize_acked].
    destruct (verify_all env); [by apply finalize_acked|apply stuck_acked]. }
  assert (acked env m (finish_data_end_after_read inet_pton cfg env s)) as Hr.
  { unfold finish_data_end_after_read. destruct (_ && _); [apply reject_acked; not_ok|].
    destruct (_ && _); [|done]. destruct (negb _); [apply reject_acked; not_ok|].
    destruct (alias_targets _ _); [|apply stuck_acked].
    destruct (account_in_alias_targets _ _); [done|apply reject_acked; not_ok]. }
  unfold finish_data_end_after_commit. destruct (has_body s); [|done].
  destruct (mime_read env); [done|apply reject_acked; not_ok|apply stuck_acked].
Qed.

Lemma data_end_acked env s m :
  abort_reason (ctx s) = [] → mail s = Some m →
  let o := handle_in_message_data_end inet_pton cfg env s in
  Reply OK250 ∈ o.1 →
  ∃ w w' acts, body_writer s = Some w ∧ writer_commit w = (None, w') ∧
    o.1 = Committed (wr_stream w') :: acts ∧ Reply OK250 ∈ acts ∧ acked env m (acts, o.2).
Proof.
  intros Ha Hm. unfold handle_in_message_data_end. rewrite Ha. destruct (body_limit_exceeded _).
  { simpl. rewrite !elem_of_cons, elem_of_nil. by intros [?|[?|[]]]. }
  unfold commit_body. rewrite Hm. destruct (body_writer s) as [w|].
  2:{ pose proof (write_failure_silent s) as Hs. destruct (handle_write_failure s) as [acts s1].
      cbn [cons_actions fst]. rewrite elem_of_app. intros [?|Hin]; [done|exfalso].
      revert Hin. apply reject_silent. not_ok. }
  destruct (negb (commit_answers env)); [simpl; set_solver|].
  destruct (writer_commit w) as [[k|] w'] eqn:Ec.
  - set (s1 := set_body _ _ _ s). pose proof (write_failure_silent s1) as Hs.
    destruct (handle_write_failure s1) as [acts s2].
    cbn [cons_actions fst]. rewrite elem_of_app. intros [?|Hin]; [done|exfalso].
    revert Hin. apply reject_silent. destruct k; not_ok.
  - intros Hin. eexists w, w', _. split_and!; [done|done|reflexivity| |].
    + cbn [cons_actions fst app] in Hin. apply list.elem_of_cons in Hin as [?|Hin]; [done|exact Hin].
    + intros H. by apply commit_acked.
Qed.

(** *** Reads of the message *)

Local Abbreviation chunk_of := (smtp_chunk fold_fuel inet_pton EVP_DecodeBlock cfg).

Lemma dispatch_in_message env s :
  state s = IN_MESSAGE →
  smtp_dispatch inet_pton EVP_DecodeBlock cfg env DATA [] s = ([], s) ∧
  smtp_dispatch inet_pton EVP_DecodeBlock cfg env DATA_END [] s = handle_in_message_data_end inet_pton cfg env s.
Proof. intros Hs. unfold smtp_dispatch, run_handler. rewrite Hs. by destruct (is_tls cfg). Qed.

(** Handlers leave the unread input alone. *)
Lemma write_failure_buffer s : command_read_buffer (handle_write_failure s).2 = command_read_buffer s.
Proof. unfold handle_write_failure. destruct (mail s) as [m|]; [|done]. by destruct (m_status m). Qed.

Lemma reject_buffer text s : command_read_buffer (reject_and_close text s).2 = command_read_buffer s.
Proof. unfold reject_and_close, discard_current_mail. by destruct (mail s). Qed.

Lemma commit_buffer env s : command_read_buffer (commit_body env s).1.2 = command_read_buffer s.
Proof.
  unfold commit_body. destruct (mail s); [|done]. destruct (body_writer s) as [w|].
  - destruct (negb _); [done|]. destruct (writer_commit w) as [[k|] w']; [|done].
    set (s1 := set_body _ _ _ s). pose proof (write_failure_buffer s1). by destruct (handle_write_failure s1).
  - pose proof (write_failure_buffer s). by destruct (handle_write_failure s).
Qed.

Lemma finalize_buffer env vr s : command_read_buffer (finalize_mail cfg env vr s).2 = command_read_buffer s.
Proof.
  unfold finalize_mail, await_persist. destruct vr as [[[]]|];
    repeat (case_goal; cbn -[Z.leb Z.gtb reject_and_close]; rewrite ?reject_buffer); try reflexivity.
Qed.

Lemma data_end_buffer env s :
  command_read_buffer (handle_in_message_data_end inet_pton cfg env s).2 = command_read_buffer s.
Proof.
  unfold handle_in_message_data_end. destruct (body_limit_exceeded _); [done|].
  pose proof (commit_buffer env s) as Hc. destruct (commit_body env s) as [[acts s1] r]. cbn in Hc.
  destruct r as [[k|]|]; cbn -[reject_and_close finish_data_end_after_commit]; rewrite ?reject_buffer, <-Hc; try done.
  unfold finish_data_end_after_commit, finish_data_end_after_read, verify_and_submit.
  repeat case_goal; rewrite ?reject_buffer, ?finalize_buffer; reflexivity.
Qed.

Lemma dispatch_buffer env ev args s :
  command_read_buffer (smtp_dispatch inet_pton EVP_DecodeBlock cfg env ev args s).2 = command_read_buffer s.
Proof.
  assert (∀ user password s', command_read_buffer (authenticate cfg env user password s').2 = command_read_buffer s')
    as Hauth.
  { intros. unfold authenticate. destruct (login_async _ _ _) as [[[]]|]; try done. by destruct (_ <=? _). }
  assert (∀ s', command_read_buffer (auth_command EVP_DecodeBlock cfg env args s').2 = command_read_buffer s') as Hcmd.
  { intros. unfold auth_command. destruct (starts_with _ _); [|done]. destruct (drop 6 args); [done|].
    by destruct (plain_credentials _) as [[]|]. }
  assert (∀ s', command_read_buffer (mail_from_proceed cfg env s').2 = command_read_buffer s') as Hproceed.
  { intros. unfold mail_from_proceed. destruct (_ || _); [done|]. destruct (check_spf _ _ _ _) as [[]|]; [|done].
    by destruct (_ && _). }
  unfold smtp_dispatch. destruct (is_terminal _ _); [done|]. destruct (guard_target _ _ _); [|done].
  destruct (bool_decide _); [|done]. destruct ev; try done; cbn [run_handler].
  - destruct (state s); try done; try apply Hauth; unfold handle_wait_auth_auth;
      (destruct (plain_auth_expected _); [cbv zeta; destruct (plain_credentials _) as [[]|]|]); by rewrite ?Hauth, ?Hcmd.
  - unfold handle_wait_auth_mail_from. destruct (_ && _); [done|]. destruct (angle_address args); [|done].
    destruct (_ && _); [done|]. cbv zeta. case_goal; [|by rewrite Hproceed].
    destruct (check_send_quota _ _ _) as [[]|]; [by rewrite Hproceed|done..].
  - unfold handle_wait_rcpt_to_rcpt_to, rcpt_authenticated, rcpt_unauthenticated. repeat (case_goal; try done).
  - destruct (state s); try done; unfold handle_wait_data_data, create_mail_on_data_command, handle_write_failure;
      (destruct (mail s); [done|by destruct (open_write env)]).
  - apply data_end_buffer.
  - unfold handle_wait_auth_starttls. by destruct (negb _).
  - unfold handle_error. by destruct (_ >? _).
Qed.

Lemma append_buffer d s : command_read_buffer (append_body_data d s).2 = command_read_buffer s.
Proof.
  unfold append_body_data. destruct (body_writer s) as [w|]; [|done]. destruct (wr_failed w); [done|].
  destruct (writer_write d w) as [[k|] w']; [|done]. by rewrite write_failure_buffer.
Qed.

(** A unit of input is used up, except what follows the end of a message. *)
Lemma input_consumes env line s acts s' :
  line ≠ [] → smtp_input fold_fuel inet_pton EVP_DecodeBlock cfg env line s = Some (acts, s') →
  (length (command_read_buffer s') < length (command_read_buffer s) + length line)%nat.
Proof.
  intros Hl H. assert (0 < length line)%nat by (destruct line; simpl; [done|lia]). unfold smtp_input in H.
  assert (∀ ev args, Some (smtp_dispatch inet_pton EVP_DecodeBlock cfg env ev args s) = Some (acts, s') →
    (length (command_read_buffer s') < length (command_read_buffer s) + length line)%nat) as Hcmd.
  { intros ev args [= Hd]. pose proof (dispatch_buffer env ev args s) as Hb. rewrite Hd in Hb. simpl in Hb.
    rewrite Hb. lia. }
  destruct (state s); try (destruct (parse_line line s); by eapply Hcmd).
  destruct (parse_data _ _ _) as [[[ev a] s1]|] eqn:Ep; [|done]. cbn in H. injection H as _ <-.
  rewrite dispatch_buffer. apply (Nat.le_lt_trans _ (length (command_read_buffer s) + (length line - 1))); [|lia].
  unfold parse_data in Ep. cbv zeta in Ep. set (r := match find_sub END_OF_DATA line with None => _ | _ => _ end) in Ep.
  assert (length (command_read_buffer r.2) ≤ length (command_read_buffer s) + (length line - 1))%nat as Hr.
  { subst r. destruct (find_sub END_OF_DATA line); cbn; [rewrite length_app, length_drop; lia|lia]. }
  destruct r as [chunk s2]. cbn [snd] in Hr. set (s3 := upd_ctx _ s2) in Ep.
  change (command_read_buffer s2) with (command_read_buffer s3) in Hr. clearbody s3.
  set (fed := match chunk with [] => _ | _ => _ end) in Ep. destruct fed as [[a' s4]|] eqn:Ef; [|done]. subst fed.
  assert (command_read_buffer s4 = command_read_buffer s3) as Hs4.
  { destruct chunk; [by simplify_eq|]. destruct (feed _ _ _) as [[out carry]|]; [|done]. cbn in Ef.
    injection Ef as Ef. apply (f_equal (command_read_buffer ∘ snd)) in Ef. cbn in Ef. by rewrite append_buffer in Ef. }
  rewrite <-Hs4 in Hr. cbn in Ep. destruct (_ || _); [|by injection Ep as _ _ <-].
  destruct (flush _ _) as [tl|]; [|done]. cbn in Ep. destruct tl as [|b tl]; [by injection Ep as _ _ <-|].
  pose proof (append_buffer (b :: tl) (set_body (mail s4) (body_writer s4) [] s4)) as Ha.
  destruct (append_body_data _ _). injection Ep as _ _ <-. cbn in *. by rewrite Ha.
Qed.

(** The loop's fuel is enough: when it stops, the session is paused or closed,
    or there is no complete input left. *)
Lemma consume_drains envs fuel s acts s' :
  (length (command_read_buffer s) ≤ fuel)%nat →
  consume fold_fuel inet_pton EVP_DecodeBlock cfg envs fuel s = Some (acts, s') →
  open s' = false ∨ extract_one_line s' = None.
Proof.
  revert s acts. induction fuel as [|fuel IH]; intros s acts Hl H; cbn [consume] in H.
  - injection H as <- <-. right. unfold extract_one_line. destruct (command_read_buffer s); [|simpl in Hl; lia].
    by destruct (state s).
  - destruct (open s) eqn:Ho; cbn [negb] in H; [|injection H as <- <-; by left].
    destruct (extract_one_line s) as [[line s1]|] eqn:Ex; [|injection H as <- <-; by right].
    destruct (smtp_input _ _ _ _ _ _ _) as [[a s2]|] eqn:Ei; [|done]. cbn [mbind option_bind] in H.
    destruct (consume _ _ _ _ _ _ _) as [[a' s3]|] eqn:Ec; [|done]. injection H as <- <-. eapply IH; [|exact Ec].
    assert (line ≠ [] ∧ (length (command_read_buffer s1) + length line ≤ length (command_read_buffer s))%nat)
      as [Hne Hs1].
    { unfold extract_one_line in Ex. destruct (command_read_buffer s) as [|b buf] eqn:Eb; [by destruct (state s)|].
      destruct (state s); try (destruct (find_char LF (b :: buf)); [|done]);
        injection Ex as <- <-; cbn [command_read_buffer set_buffer]; 
        (split; [first [done|by rewrite Nat.add_1_r]|rewrite ?length_drop, ?length_take; simpl; lia]). }
    apply input_consumes in Ei; [lia|done].
Qed.

(** One unit of input in the message, when nothing is left behind. *)
Lemma message_chunk envs c s o :
  state s = IN_MESSAGE → open s = true → command_read_buffer s = [] → c ≠ [] →
  chunk_of envs c s = Some o →
  o = ([CloseSession], set_open false (set_buffer c s)) ∨
  ∃ n r, smtp_input fold_fuel inet_pton EVP_DecodeBlock cfg (envs n) c s = Some r ∧
    (command_read_buffer r.2 = [] → o = r).
Proof.
  intros Hs Ho Hb Hc H. unfold smtp_chunk in H. rewrite Ho, Hb in H. cbn [negb app] in H.
  destruct (_ <? _)%nat; [injection H as <-; by left|right].
  cbn [command_read_buffer set_buffer] in H. destruct c as [|b c]; [done|]. cbn [length consume] in H.
  cbn [open set_buffer] in H. rewrite Ho in H. cbn [negb] in H.
  unfold extract_one_line in H at 1. cbn [state set_buffer command_read_buffer] in H. rewrite Hs in H.
  assert (set_buffer [] (set_buffer (b :: c) s) = s) as Heq by (destruct s; simpl in *; by subst).
  rewrite Heq in H.
  destruct (smtp_input _ _ _ _ (envs (length c)) _ _) as [r|] eqn:Er; [|done].
  exists (length c), r. destruct r as [acts s1]. split; [done|]. intros Hb1. cbn in H, Hb1.
  destruct (length c); cbn [consume] in H; [injection H as <-; by rewrite app_nil_r|].
  destruct (negb (open s1)); [injection H as <-; by rewrite app_nil_r|].
  assert (extract_one_line s1 = None) as Hx by (unfold extract_one_line; rewrite Hb1; by destruct (state s1)).
  rewrite Hx in H. injection H as <-. by rewrite app_nil_r.
Qed.

Lemma body_chunk envs from to recv c rest body s acts s' :
  BodyAt from to recv s → find_sub END_OF_DATA c = None → trim c ≠ [46] →
  stored_text fold_fuel (recv ++ c ++ rest) = Some body → Z.of_nat (length body) < 2 ^ 64 →
  chunk_of envs c s = Some (acts, s') →
  Reply OK250 ∉ acts ∧ (open s' = false ∨ BodyAt from to (recv ++ c) s').
Proof.
  intros Hb Hf Ht Hst Hl H. destruct (decide (c = [])) as [->|Hc].
  { unfold smtp_chunk in H. rewrite (b_open _ _ _ _ Hb), (b_buffer _ _ _ _ Hb) in H. simpl in H.
    injection H as <- <-. split; [set_solver|right]. rewrite app_nil_r. destruct Hb. by constructor. }
  apply message_chunk in H as [[= -> ->]|(n & r & Hr & Ho)]; [split; [set_solver|by left]| |apply Hb|apply Hb|apply Hb|done].
  destruct (parse_data_body _ _ _ _ _ _ _ Hb Hf Ht Hst Hl) as (a & s1 & Hp & Hq & Hb1).
  unfold smtp_input in Hr. rewrite (b_state _ _ _ _ Hb), Hp in Hr. cbn [mbind option_bind] in Hr.
  rewrite (proj1 (dispatch_in_message _ s1 (b_state _ _ _ _ Hb1))) in Hr. injection Hr as <-.
  unfold cons_actions in Ho. cbn [fst snd] in Ho. rewrite app_nil_r in Ho.
  specialize (Ho (b_buffer _ _ _ _ Hb1)). injection Ho as -> ->. auto.
Qed.

Lemma closed_chunks reads s :
  open s = false → smtp_chunks fold_fuel inet_pton EVP_DecodeBlock cfg reads s = Some ([], s).
Proof.
  intros Ho. induction reads as [|[envs c] reads IH]; [done|]. cbn. unfold smtp_chunk. rewrite Ho. cbn.
  by rewrite IH.
Qed.

(** The conclusion, for the reads that follow DATA. *)
Definition stored_as (from : bytes) (to : list bytes) (body : bytes) acts : Prop :=
  ∃ before st m mid, acts = before ++ Committed (Some st) :: Submitted m true :: mid ++ [Reply OK250] ∧
    ws_object st = Some body ∧ m_from m = from ∧ m_to m = to ∧
    (inbound_ack_mode cfg = AFTER_ENQUEUE ∨ Persisted ∈ mid).

Lemma last_chunk envs from to recv part body s acts s' pre :
  Inv pre s → BodyAt from to recv s → find_sub END_OF_DATA (part ++ END_OF_DATA) = Some (length part) →
  stored_text fold_fuel (recv ++ part) = Some body → Z.of_nat (length body) < 2 ^ 64 →
  chunk_of envs (part ++ END_OF_DATA) s = Some (acts, s') → Reply OK250 ∈ acts →
  stored_as from to body acts.
Proof.
  intros Hi Hb Hf Hst Hl H Hack.
  apply message_chunk in H as [[= -> ->]|(n & r & Hr & Ho)]; [set_solver| |apply Hb|apply Hb|apply Hb|by destruct part].
  destruct (parse_data_end _ _ _ _ _ _ Hb Hf Hst Hl) as (a & s1 & Hp & Hq & Hs1 & Ho1 & Hb1 & (m & Hm & Hfrom & Hto) & Hw).
  destruct (parse_data_ok pre _ _ _ _ _ Hi (b_state _ _ _ _ Hb) (b_open _ _ _ _ Hb) Hp) as (_ & Hi1 & _ & _).
  unfold smtp_input in Hr. rewrite (b_state _ _ _ _ Hb), Hp in Hr. cbn [mbind option_bind] in Hr.
  rewrite (proj2 (dispatch_in_message _ s1 Hs1)) in Hr. injection Hr as <-.
  assert (command_read_buffer (handle_in_message_data_end inet_pton cfg (envs n) s1).2 = []) as Hbuf.
  { by rewrite data_end_buffer. }
  specialize (Ho Hbuf). injection Ho as -> ->.
  apply list.elem_of_app in Hack as [?|Hack]; [done|].
  apply (data_end_acked _ _ m) in Hack as (w & w' & acts & Hw1 & Hc & Ho' & Hin & Hk); [|by apply Hi1|done].
  destruct (Hk Hin) as (m' & mid & Ha & H1 & H2 & H3 & H4). simpl in Ha.
  unfold writer_at in Hw. rewrite Hw1 in Hw. destruct Hw as [[Hg1 Hg2]|Hh].
  { unfold writer_commit in Hc. by rewrite Hg1, Hg2 in Hc. }
  destruct (commit_spec _ _ _ _ Hh Hc) as (st & Hst' & Hobj & _).
  exists a, st, m', mid. cbn [fst cons_actions]. rewrite Ho', Ha, Hst'. split_and!; try done; [congruence..|].
  destruct H4 as [?|[? _]]; auto.
Qed.

(** The DATA command opens the message. *)
Definition DATA_LINE : bytes := s! "DATA" ++ CRLF.

Lemma parse_data_line s : state s = WAIT_RCPT_TO → parse_line DATA_LINE s = (DATA, []).
Proof. intros Hs. unfold parse_line. rewrite Hs. reflexivity. Qed.

Lemma dispatch_data env s :
  state s = WAIT_RCPT_TO →
  smtp_dispatch inet_pton EVP_DecodeBlock cfg env DATA [] s = handle_wait_data_data env s.
Proof. intros Hs. unfold smtp_dispatch, run_handler. rewrite Hs. by destruct (is_tls cfg). Qed.

Definition fresh_streams (envs : nat → SmtpEnv S) : Prop :=
  ∀ n st, open_write (envs n) = Some st → ws_open st ∧ ws_bytes st = [].

Lemma data_command env s :
  idle s → open s = true → command_read_buffer s = [] →
  (∀ st, open_write env = Some st → ws_open st ∧ ws_bytes st = []) →
  Reply OK250 ∉ (handle_wait_data_data env s).1 ∧
  BodyAt (sender_address (ctx s)) (recipient_addresses (ctx s)) [] (handle_wait_data_data env s).2.
Proof.
  intros (Hm & Hw & Hf) Ho Hb Hfr. unfold handle_wait_data_data, create_mail_on_data_command. rewrite Hm.
  destruct (open_write env) as [st|].
  - destruct (Hfr st eq_refl) as [Hop Hby]. split.
    { cbn [cons_actions settle fst app]. rewrite list.elem_of_cons, list.elem_of_nil. by intros [?|[]]. }
    constructor; try done; [by eexists|]. exists []. split; [done|]. right. split_and!; try done.
    exists st. cbn. rewrite Hby. done.
  - split; [cbn [cons_actions settle fst app handle_write_failure mail set_body m_status];
      rewrite list.elem_of_cons, list.elem_of_nil; by intros [?|[]]|].
    constructor; try done; [by eexists|]. exists []. split; [done|]. unfold writer_at. cbn. by rewrite Hw.
Qed.

Lemma data_chunk envs s acts s' :
  state s = WAIT_RCPT_TO → idle s → open s = true → command_read_buffer s = [] → fresh_streams envs →
  chunk_of envs DATA_LINE s = Some (acts, s') →
  Reply OK250 ∉ acts ∧
  (open s' = false ∨ BodyAt (sender_address (ctx s)) (recipient_addresses (ctx s)) [] s').
Proof.
  intros Hs Hd Ho Hb Hfr H. unfold smtp_chunk in H. rewrite Ho, Hb in H. cbn [negb app] in H.
  destruct (_ <? _)%nat; [injection H as <- <-; split; [set_solver|by left]|].
  change (length (command_read_buffer (set_buffer DATA_LINE s))) with 6%nat in H. cbn [consume] in H.
  cbn [open set_buffer] in H. rewrite Ho in H. cbn [negb] in H.
  unfold extract_one_line in H at 1. cbn [state set_buffer command_read_buffer] in H. rewrite Hs in H.
  change (find_char LF DATA_LINE) with (Some 5%nat) in H. cbv iota in H.
  change (take (5 + 1) DATA_LINE) with DATA_LINE in H. change (drop (5 + 1) DATA_LINE) with ([] : bytes) in H.
  assert (set_buffer [] (set_buffer DATA_LINE s) = s) as Heq by (destruct s; simpl in *; by subst).
  assert (smtp_input fold_fuel inet_pton EVP_DecodeBlock cfg (envs 5%nat) DATA_LINE s =
          Some (handle_wait_data_data (envs 5%nat) s)) as Hin.
  { unfold smtp_input. by rewrite Hs, parse_data_line, dispatch_data. }
  rewrite Heq, Hin in H.
  destruct (data_command (envs 5%nat) s Hd Ho Hb (Hfr 5%nat)) as [Hq Hbody].
  destruct (handle_wait_data_data (envs 5%nat) s) as [a s1]. cbn [fst snd mbind option_bind] in *.
  rewrite (b_open _ _ _ _ Hbody) in H. cbn [negb] in H.
  assert (extract_one_line s1 = None) as Hx.
  { unfold extract_one_line. by rewrite (b_state _ _ _ _ Hbody), (b_buffer _ _ _ _ Hbody). }
  rewrite Hx in H. cbn [mbind option_bind] in H. rewrite app_nil_r in H. injection H as <- <-. auto.
Qed.

Lemma body_chunks reads envs part from to recv body s acts s' pre :
  Inv pre s → BodyAt from to recv s →
  Forall (λ r, find_sub END_OF_DATA r.2 = None ∧ trim r.2 ≠ [46]) reads →
  find_sub END_OF_DATA (part ++ END_OF_DATA) = Some (length part) →
  stored_text fold_fuel (recv ++ concat (snd <$> reads) ++ part) = Some body → Z.of_nat (length body) < 2 ^ 64 →
  smtp_chunks fold_fuel inet_pton EVP_DecodeBlock cfg (reads ++ [(envs, part ++ END_OF_DATA)]) s = Some (acts, s') →
  Reply OK250 ∈ acts → stored_as from to body acts.
Proof.
  revert recv s acts pre. induction reads as [|[e c] reads IH]; intros recv s acts pre Hi Hb Hr Hf Hst Hl H Hack.
  - cbn [smtp_chunks app] in H. destruct (chunk_of envs _ s) as [[a s1]|] eqn:E; [|done]. cbn in H.
    injection H as <- <-. rewrite app_nil_r in *. by eapply last_chunk.
  - cbn [smtp_chunks app] in H. destruct (chunk_of e c s) as [[a s1]|] eqn:E; [|done]. cbn [mbind option_bind] in H.
    destruct (smtp_chunks _ _ _ _ _ s1) as [[a' s2]|] eqn:E'; [|done]. cbn in H. injection H as <- <-.
    apply list.Forall_cons in Hr as [[Hc1 Hc2] Hr]. cbn [fmap list_fmap concat snd] in *. rewrite <-app_assoc in Hst.
    destruct (body_chunk _ _ _ _ _ _ _ _ _ _ Hb Hc1 Hc2 Hst Hl E) as [Hq [Hcl|Hb1]].
    { rewrite closed_chunks in E' by done. injection E' as <- <-. rewrite app_nil_r in Hack. done. }
    apply list.elem_of_app in Hack as [?|Hack]; [done|].
    destruct (chunk_ok _ _ _ _ _ Hi E) as [_ Hi1].
    destruct (IH (recv ++ c) s1 a' (pre ++ a)) as (b & st & m & mid & -> & Hrest); try done.
    { by rewrite <-app_assoc. }
    exists (a ++ b), st, m, mid. by rewrite <-app_assoc.
Qed.

(** C2: An acknowledged message is stored.  Take any session that has come to
    accept DATA, and send the message in any reads none of which ends it by
    itself, then a last one with the end-of-data line.  If the server answers
    250 OK, then the body's stream was committed before and holds exactly the
    message as the line folder stores it (dot-unstuffed, long lines folded),
    after that a mail with the sender and recipients of this transaction was
    accepted by the queue, and, unless acknowledgement on enqueueing is
    configured, its persistence was reported before the answer.  This covers
    every write, commit, verification, queue and timeout failure: none of them
    is answered with 250 OK. *)
Theorem accepted_is_stored (env : SmtpEnv S) (tls : bool) (reads : list ((nat → SmtpEnv S) * bytes))
  (data_envs last_envs : nat → SmtpEnv S) (body_reads : list ((nat → SmtpEnv S) * bytes)) (part body : bytes)
  (acts0 acts : list (SmtpAction S)) (s0 s : SmtpSession S)
  (Hrun : smtp_run fold_fuel inet_pton EVP_DecodeBlock cfg env tls reads = Some (acts0, s0))
  (Hstate : state s0 = WAIT_RCPT_TO) (Hopen : open s0 = true) (Hbuf : command_read_buffer s0 = [])
  (Hfresh : fresh_streams data_envs)
  (Hreads : Forall (λ r, find_sub END_OF_DATA r.2 = None ∧ trim r.2 ≠ [46]) body_reads)
  (Hlast : find_sub END_OF_DATA (part ++ END_OF_DATA) = Some (length part))
  (Hbody : stored_text fold_fuel (concat (snd <$> body_reads) ++ part) = Some body)
  (Hlen : Z.of_nat (length body) < 2 ^ 64)
  (Hmsg : smtp_chunks fold_fuel inet_pton EVP_DecodeBlock cfg
            ((data_envs, DATA_LINE) :: body_reads ++ [(last_envs, part ++ END_OF_DATA)]) s0 = Some (acts, s))
  (Hack : Reply OK250 ∈ acts) :
  ∃ before st m mid, acts = before ++ Committed (Some st) :: Submitted m true :: mid ++ [Reply OK250] ∧
    ws_object st = Some body ∧
    m_from m = sender_address (ctx s0) ∧ m_to m = recipient_addresses (ctx s0) ∧
    (inbound_ack_mode cfg = AFTER_ENQUEUE ∨ Persisted ∈ mid).
Proof.
  destruct (smtp_run_ok _ _ _ _ Hrun) as [_ Hi]. simpl in Hi.
  assert (idle s0) as Hd by (apply Hi; [done|by rewrite Hstate]).
  cbn [smtp_chunks] in Hmsg. destruct (chunk_of data_envs DATA_LINE s0) as [[a s1]|] eqn:E; [|done].
  cbn [mbind option_bind] in Hmsg. destruct (smtp_chunks _ _ _ _ _ s1) as [[a' s2]|] eqn:E'; [|done].
  cbn in Hmsg. injection Hmsg as <- <-.
  destruct (data_chunk _ _ _ _ Hstate Hd Hopen Hbuf Hfresh E) as [Hq [Hcl|Hb]].
  { rewrite closed_chunks in E' by done. injection E' as <- <-. by rewrite app_nil_r in Hack. }
  destruct (chunk_ok _ _ _ _ _ Hi E) as [_ Hi1]. apply list.elem_of_app in Hack as [?|Hack]; [done|].
  destruct (body_chunks body_reads last_envs part _ _ [] body s1 a' s2 _ Hi1 Hb Hreads Hlast Hbody Hlen E' Hack)
    as (b & st & m & mid & -> & Hrest).
  exists (a ++ b), st, m, mid. by rewrite <-app_assoc.
Qed.

(** ** A failed login changes the identity *)

(** A transaction is open, with [user] as its sender. *)
Definition sending_as (user : bytes) s : Prop :=
  state s = WAIT_RCPT_TO ∧ open s = true ∧ sender_address (ctx s) = user.

Lemma mail_from_authenticated env s args addr :
  authenticated s = true → angle_address args = Some addr → client_username (auth (ctx s)) ≠ [] →
  check_send_quota cfg env (client_username (auth (ctx s))) = Some true →
  handle_wait_auth_mail_from inet_pton cfg env args s =
    settle (s! "250 Ok") WAIT_RCPT_TO
      (upd_ctx (λ c, set_verify (set_spf_checked false (vfy c))
                       (set_envelope (client_username (auth (ctx s))) [] c)) s).
Proof.
  intros Ha Haddr Hne Hq. unfold handle_wait_auth_mail_from. rewrite Ha. cbn [negb]. rewrite !andb_false_r, Haddr.
  cbn [andb]. unfold submission_sender. destruct (client_username (auth (ctx s))) as [|b u]; [done|].
  set (s1 := upd_ctx _ s). change (authenticated s1) with (authenticated s). rewrite Ha, Hq.
  unfold mail_from_proceed. change (is_authenticated (auth (ctx s1))) with (authenticated s). rewrite Ha.
  cbn [negb]. by rewrite !andb_false_r.
Qed.

(** A failed login does not end an authenticated session, but renames it.
    When a session that has logged in sends AUTH again for another user and
    the password is wrong (below the attempt limit), the server answers 535 and
    the session is authenticated as before, now under the name of the other
    user: the next MAIL FROM, whatever address it gives, is accepted with the
    other user as sender (the quota, if any, is that user's). *)
Theorem failed_auth_changes_identity (env env' : SmtpEnv S) (s : SmtpSession S) (user password args addr : bytes)
  (shard : Z)
  (Hauth : authenticated s = true)
  (Hfail : login_async env (qualified cfg user) password = Some (false, shard))
  (Hmax : auth_attempts s + 1 < max_auth_attempts cfg)
  (Haddr : angle_address args = Some addr)
  (Hquota : check_send_quota cfg env' (qualified cfg user) = Some true) :
  let s1 := (authenticate cfg env user password s).2 in
  let s2 := (handle_wait_auth_mail_from inet_pton cfg env' args s1).2 in
  state s1 = WAIT_AUTH ∧ open s1 = true ∧ authenticated s1 = true ∧ sending_as (qualified cfg user) s2.
Proof.
  unfold authenticate. rewrite Hfail. cbn [auth_attempts set_counts set_ctx_auth upd_ctx].
  rewrite (proj2 (Z.leb_gt _ _)) by lia. set (s1 := (cons_actions _ _).2).
  assert (authenticated s1 = true) as Ha by done.
  assert (client_username (auth (ctx s1)) = qualified cfg user) as Hu by done.
  assert (qualified cfg user ≠ []) as Hne.
  { unfold qualified. destruct (find_char AT user) eqn:E; [|by destruct user]. by destruct user. }
  cbv zeta. rewrite (mail_from_authenticated env' s1 args addr) by (rewrite ?Hu; done).
  by split_and!.
Qed.

(** ** Headers the sender rules do not see *)

(** The message goes on to verification and submission without a look at its
    From header. *)
Definition from_unchecked env s : Prop :=
  finish_data_end_after_read inet_pton cfg env s = verify_and_submit cfg env s.

Lemma no_from_unchecked env s : header_buffer (data (ctx s)) = [] → from_unchecked env s.
Proof.
  intros Hh. unfold from_unchecked, finish_data_end_after_read. rewrite Hh.
  change (extract_from_header_value []) with ([] : bytes).
  change (from_header_is_local [] (system_domain cfg)) with false.
  change (from_header_address []) with ([] : bytes). rewrite bool_decide_eq_true_2 by done. cbn [negb].
  by rewrite !andb_false_r.
Qed.

(** The rules on the From header (no local From without a login, From
    equal to the login) apply to the first message of a connection only, and
    not to its last line.  Resetting the mail state leaves the flag that the
    headers are parsed, so no header of a later message is collected and DATA
    goes on to submission whatever its From says.  And since the end-of-data
    mark takes the line end of the last line with it, a header block without
    a body is judged without its last line. *)
Theorem from_rules_skipped (env : SmtpEnv S) (s : SmtpSession S) (d : DataCtx) (text l : bytes) :
  (header_parsed d = true → data (ctx s) = finalize_attachment (process_message_data text (reset_data d)) →
   from_unchecked env s) ∧
  ((lines_of text).2 = [] → find_sub CRLF l = None →
   header_buffer (process_message_data (text ++ l) new_data) = header_buffer (process_message_data text new_data)).
Proof.
  split.
  - intros Hp Hd. apply no_from_unchecked. rewrite Hd.
    transitivity (header_buffer (process_message_data text (reset_data d))); [done|].
    by destruct (process_headers text (reset_data d) Hp) as [_ ->].
  - intros. by apply process_last_line.
Qed.

(** ** The end of the message depends on the reads *)

Lemma find_sub_prefix (p x y : bytes) (i : nat) :
  find_sub p (x ++ y) = Some i → (length x < i + length p)%nat → find_sub p x = None.
Proof.
  intros H Hl. destruct (find_sub p x) as [j|] eqn:E; [exfalso|done].
  pose proof (find_sub_Some _ _ _ E) as (t & Hd & Hle).
  assert (j + length p ≤ length x)%nat.
  { apply (f_equal length) in Hd. rewrite length_drop, length_app in Hd. lia. }
  assert (j < i)%nat as Hj by lia. pose proof (find_sub_first _ _ _ _ H Hj) as Hs.
  rewrite drop_app_le, Hd, <-app_assoc, starts_with_app in Hs by lia. done.
Qed.

(** Where the end of a message is found depends on how the network cuts it.
    In one read, the text followed by the end-of-data mark ends the message.
    Cut before the last line end, the same bytes do not end it: the session is
    still in the message, with the mark as part of the text, and nothing is
    answered.  Conversely a read that is a single dot between blanks ends the
    message although it is the middle of a line, and the dot is lost. *)
Theorem end_of_data_depends_on_reads (from : bytes) (to : list bytes) (recv part : bytes) (s : SmtpSession S)
  (Hbody : BodyAt from to recv s)
  (Hend : find_sub END_OF_DATA (part ++ END_OF_DATA) = Some (length part))
  (Hpart : trim (part ++ CRLF ++ [46]) ≠ [46])
  (Hstored : Forall (λ text, ∃ body, stored_text fold_fuel text = Some body ∧ Z.of_nat (length body) < 2 ^ 64)
               [recv; recv ++ part; recv ++ part ++ END_OF_DATA]) :
  (∃ acts s', parse_data fold_fuel (part ++ END_OF_DATA) s = Some (DATA_END, acts, s')) ∧
  (∃ acts1 s1 acts2 s2, parse_data fold_fuel (part ++ CRLF ++ [46]) s = Some (DATA, acts1, s1) ∧
     parse_data fold_fuel CRLF s1 = Some (DATA, acts2, s2) ∧
     BodyAt from to (recv ++ part ++ END_OF_DATA) s2) ∧
  (∃ acts s', parse_data fold_fuel [SP; 46; SP] s = Some (DATA_END, acts, s')).
Proof.
  apply Forall_cons_1 in Hstored as [(b0 & H0 & _) Hstored].
  apply Forall_cons_1 in Hstored as [(b1 & H1 & Hl1) Hstored].
  apply Forall_cons_1 in Hstored as [(b2 & H2 & Hl2) _]. split_and!.
  - destruct (parse_data_end _ _ _ _ _ _ Hbody Hend H1 Hl1) as (acts & s' & H & _). eauto.
  - assert (find_sub END_OF_DATA (part ++ CRLF ++ [46]) = None) as Hf.
    { apply (find_sub_prefix _ _ CRLF (length part)); [by rewrite <-!app_assoc|rewrite !length_app; simpl; lia]. }
    destruct (parse_data_body from to recv (part ++ CRLF ++ [46]) CRLF b2 s) as (a1 & s1 & Hp1 & _ & Hb1); try done.
    { by rewrite <-!app_assoc. }
    destruct (parse_data_body from to (recv ++ part ++ CRLF ++ [46]) CRLF [] b2 s1) as (a2 & s2 & Hp2 & _ & Hb2);
      try done.
    { by rewrite <-!app_assoc. }
    exists a1, s1, a2, s2. split_and!; [done|done|]. by rewrite <-!app_assoc in Hb2.
  - unfold parse_data. change (trim [SP; 46; SP]) with [46]. change (find_sub END_OF_DATA [SP; 46; SP]) with (@None nat).
    rewrite bool_decide_eq_true_2 by done. cbv zeta beta iota. cbn [orb mbind option_bind].
    set (s1 := upd_ctx _ s). change (folder s1) with (folder s). rewrite (b_fold _ _ _ _ Hbody).
    unfold stored_text in H0. destruct (store_lines fold_fuel (lines_of recv).1); [|done]. cbn in H0.
    destruct (flush fold_fuel (lines_of recv).2) as [tl|]; [|done]. cbn [mbind option_bind].
    destruct tl; [eauto|]. destruct (append_body_data _ _). eauto.
Qed.
End Safety.

(** ** Examples *)

Definition no_pton (a : bytes) : option Z := None.
Definition sample_decode (b : bytes) : option bytes :=
  if bool_decide (b = s! "GOOD") then Some ([0] ++ s! "mallory" ++ [0] ++ s! "pw") else
  if bool_decide (b = s! "BAD!") then Some ([0] ++ s! "victim" ++ [0] ++ s! "guess") else None.
Definition sample_config (auth : InboundAuthPolicy) : SmtpConfig :=
  mkConfig true auth false (s! "192.0.2.7") [] (s! "local.org") OFF true true [] true false (s! "off") (s! "off")
    (s! "off") AFTER_PERSIST 0 3 (100 * 100).
Definition sample_env : SmtpEnv LocalFile :=
  mkEnv (λ u p, Some (bool_decide (u = s! "mallory@local.org"), 0)) (λ _, Some true) false (λ _ _ _, None)
    (λ _, None) (λ _, Some true) (λ _, Some []) (s! "/mail/1") (Some (lf_opened [PIntr; PWrote 9] [FDone])) true ROk
    None (Some QAccept) (Some (mkPersist false SUCCESS)).
Definition sample_envs (n : nat) : SmtpEnv LocalFile := sample_env.
Definition crlf_lines (ls : list bytes) : bytes := concat ((λ l, l ++ CRLF) <$> ls).

Definition sample_run (auth : InboundAuthPolicy) (reads : list bytes) : option (Outcome LocalFile) :=
  smtp_run 100 no_pton sample_decode (sample_config auth) sample_env false ((λ c, (sample_envs, c)) <$> reads).
Definition run_acts (r : option (Outcome LocalFile)) : list (SmtpAction LocalFile) := default [] (fst <$> r).
Definition run_session (r : option (Outcome LocalFile)) : SmtpSession LocalFile := default new_session (snd <$> r).
Definition submitted (acts : list (SmtpAction LocalFile)) : list (nat * Mail) :=
  omap (λ p, match p.2 with Submitted m _ => Some (p.1, m) | _ => None end) (imap pair acts).

Definition envelope_lines : list bytes := [s! "EHLO x"; s! "MAIL FROM:<a@x.org>"; s! "RCPT TO:<bob@local.org>"].
Definition message_lines : list bytes := [s! "From: a@x.org"; s! "Subject: s"; []; s! "hello"; s! "..dots"].

(** A mail from outside, received. *)
Definition inbound_run : option (Outcome LocalFile) :=
  sample_run OFF [crlf_lines (envelope_lines ++ [s! "DATA"]); crlf_lines (message_lines ++ [s! "."])].
Definition inbound_mail : Mail :=
  mkMail (s! "a@x.org") [s! "bob@local.org"] (crlf_lines (take 3 message_lines)) (s! "s") [] [] (s! "/mail/1") PENDING.

Lemma no_open_relay_witness :
  (∃ user, LoginResult user true ∈ take 7 (run_acts inbound_run)) ∨
  login_required (sample_config OFF) = false ∧
  (trusted no_pton (sample_config OFF) = false →
     (∀ r, r ∈ m_to inbound_mail → ∃ address targets, Resolved address targets ∈ take 7 (run_acts inbound_run) ∧
        r ∈ targets ∧ to_lower (domain_of address) = to_lower (system_domain (sample_config OFF))) ∧
     (reject_unauthenticated_local_sender (sample_config OFF) = true →
        envelope_sender_is_local (m_from inbound_mail) (system_domain (sample_config OFF)) = false)).
Proof.
  refine (no_open_relay 100 no_pton sample_decode (sample_config OFF) sample_env false
            ((λ c, (sample_envs, c)) <$> [crlf_lines (envelope_lines ++ [s! "DATA"]); crlf_lines (message_lines ++ [s! "."])])
            (run_acts inbound_run) (take 7 (run_acts inbound_run)) (drop 8 (run_acts inbound_run))
            (run_session inbound_run) inbound_mail true _ _).
  - vm_compute. reflexivity.
  - vm_compute. reflexivity.
Defined.

(** The same mail in three reads of the message. *)
Definition ready_run : option (Outcome LocalFile) := sample_run OFF [crlf_lines envelope_lines].
Definition body_pieces : list ((nat → SmtpEnv LocalFile) * bytes) :=
  [(sample_envs, take 20 (crlf_lines message_lines)); (sample_envs, take 18 (drop 20 (crlf_lines message_lines)))].
Definition last_piece : bytes := take 4 (drop 38 (crlf_lines message_lines)).
Definition message_reads : list ((nat → SmtpEnv LocalFile) * bytes) :=
  (sample_envs, DATA_LINE) :: body_pieces ++ [(sample_envs, last_piece ++ END_OF_DATA)].
Definition message_run : option (Outcome LocalFile) :=
  smtp_chunks 100 no_pton sample_decode (sample_config OFF) message_reads (run_session ready_run).

Lemma accepted_is_stored_witness :
  ∃ before st m mid, run_acts message_run =
      before ++ Committed (Some st) :: Submitted m true :: mid ++ [Reply OK250] ∧
    ws_object st = Some (crlf_lines (take 4 message_lines) ++ s! ".dots") ∧
    m_from m = s! "a@x.org" ∧ m_to m = [s! "bob@local.org"] ∧
    (inbound_ack_mode (sample_config OFF) = AFTER_ENQUEUE ∨ Persisted ∈ mid).
Proof.
  refine (accepted_is_stored 100 no_pton sample_decode (sample_config OFF) sample_env false
            ((λ c, (sample_envs, c)) <$> [crlf_lines envelope_lines]) sample_envs sample_envs body_pieces last_piece
            (crlf_lines (take 4 message_lines) ++ s! ".dots") (run_acts ready_run) (run_acts message_run)
            (run_session ready_run) (run_session message_run) _ _ _ _ _ _ _ _ _ _ _).
  - vm_compute. reflexivity.
  - vm_compute. reflexivity.
  - vm_compute. reflexivity.
  - vm_compute. reflexivity.
  - intros n st [= <-]. vm_compute. eauto.
  - repeat constructor; vm_compute; congruence.
  - vm_compute. reflexivity.
  - vm_compute. reflexivity.
  - vm_compute. reflexivity.
  - vm_compute. reflexivity.
  - apply (list_elem_of_lookup_2 _ 5). vm_compute. reflexivity.
Defined.

(** An authenticated session, and a login that fails on it. *)
Definition login_run : option (Outcome LocalFile) :=
  sample_run ON [crlf_lines [s! "EHLO x"; s! "AUTH PLAIN GOOD"; s! "MAIL FROM nobody"]].
Definition mallory : SmtpSession LocalFile := run_session login_run.

Lemma failed_auth_changes_identity_witness :
  let s1 := (authenticate (sample_config ON) sample_env (s! "victim") (s! "guess") mallory).2 in
  let s2 := (handle_wait_auth_mail_from no_pton (sample_config ON) sample_env (s! " FROM:<mallory@local.org>") s1).2 in
  state s1 = WAIT_AUTH ∧ open s1 = true ∧ authenticated s1 = true ∧ sending_as (s! "victim@local.org") s2.
Proof.
  refine (failed_auth_changes_identity no_pton (sample_config ON) sample_env sample_env mallory (s! "victim")
            (s! "guess") (s! " FROM:<mallory@local.org>") (s! "mallory@local.org") 0 _ _ _ _ _).
  - vm_compute. reflexivity.
  - vm_compute. reflexivity.
  - vm_compute. reflexivity.
  - vm_compute. reflexivity.
  - vm_compute. reflexivity.
Defined.

(** End to end: mallory's password, the victim's name, accepted. *)
Example impersonation :
  (λ p : nat * Mail, m_from p.2) <$>
    submitted (run_acts (sample_run ON
      [crlf_lines [s! "EHLO x"; s! "AUTH PLAIN GOOD"; s! "MAIL FROM nobody"; s! "AUTH PLAIN BAD!";
                   s! "MAIL FROM:<mallory@local.org>"; s! "RCPT TO:<bob@local.org>"; s! "DATA"];
       crlf_lines [s! "From: victim@local.org"; []; s! "pay me"; s! "."]])) = [s! "victim@local.org"].
Proof. vm_compute. reflexivity. Qed.

(** A second message with a forged From, after one that is in order. *)
Definition first_data : DataCtx := process_message_data (crlf_lines message_lines) new_data.
Definition forged_text : bytes := crlf_lines [s! "From: boss@local.org"; []; s! "pay me"].
Definition forged_session : SmtpSession LocalFile :=
  set_state IN_MESSAGE
    (upd_ctx (λ c, set_data (finalize_attachment (process_message_data forged_text (reset_data first_data))) c)
       (run_session ready_run)).

Lemma from_rules_skipped_witness :
  from_unchecked no_pton (sample_config OFF) sample_env forged_session ∧
  header_buffer (process_message_data (crlf_lines [s! "Subject: s"] ++ s! "From: boss@local.org") new_data) =
    header_buffer (process_message_data (crlf_lines [s! "Subject: s"]) new_data).
Proof.
  destruct (from_rules_skipped no_pton (sample_config OFF) sample_env forged_session first_data forged_text []) as [H1 _].
  destruct (from_rules_skipped no_pton (sample_config OFF) sample_env forged_session first_data
              (crlf_lines [s! "Subject: s"]) (s! "From: boss@local.org")) as [_ H2].
  split; [apply H1|apply H2]; vm_compute; reflexivity.
Defined.

(** The forged mail is refused as the first one and accepted as the second. *)
Example forged_second_accepted :
  let send ls := crlf_lines (ls ++ [s! "."]) in
  let forged := [s! "From: boss@local.org"; []; s! "pay me"] in
  length (submitted (run_acts (sample_run OFF [crlf_lines (envelope_lines ++ [s! "DATA"]); send forged]))) = 0%nat ∧
  length (submitted (run_acts (sample_run OFF
    [crlf_lines (envelope_lines ++ [s! "DATA"]); send message_lines;
     crlf_lines (drop 1 envelope_lines ++ [s! "DATA"]); send forged]))) = 2%nat.
Proof. vm_compute. split; reflexivity. Qed.

(** A session in the message, nothing received yet. *)
Definition message_session : SmtpSession LocalFile := (handle_wait_data_data sample_env (run_session ready_run)).2.

Lemma end_of_data_depends_on_reads_witness :
  ∃ acts1 s1 acts2 s2, parse_data 100 (s! "hello" ++ CRLF ++ [46]) message_session = Some (DATA, acts1, s1) ∧
    parse_data 100 CRLF s1 = Some (DATA, acts2, s2) ∧ state s2 = IN_MESSAGE.
Proof.
  assert (BodyAt 100 (s! "a@x.org") [s! "bob@local.org"] [] message_session) as Hb.
  { refine (proj2 (data_command 100 sample_env (run_session ready_run) _ _ _ _)); try (vm_compute; reflexivity).
    - vm_compute. auto.
    - intros st [= <-]. vm_compute. eauto. }
  destruct (end_of_data_depends_on_reads 100 (s! "a@x.org")
              [s! "bob@local.org"] [] (s! "hello") message_session Hb)
    as (_ & (a1 & s1 & a2 & s2 & H1 & H2 & H3) & _).
  - vm_compute. reflexivity.
  - vm_compute. discriminate.
  - repeat constructor; eexists; (split; [vm_compute; reflexivity|vm_compute; reflexivity]).
  - exists a1, s1, a2, s2. split; [exact H1|]. split; [exact H2|]. exact (b_state _ _ _ _ _ H3).
Defined.
