(* ===== verification/Mime.v ===== *)
(** * MIME structure of stored messages

    Models [include/mail_system/back/common/mime_parameters.h] (header values
    and parameters), [common/mime_tree.h] (the part tree, its JSON form and the
    extraction of a part) and [common/mime_metadata_store.h] (the cached tree),
    over the record of [entities/mime_part.h].

    Positions are the source's offsets into the whole message.  The recursion of
    [parse_mime_tree] is on the levels left before the limit of 64; its loop and
    the JSON reader run on a measure of the text that is left, shown to be
    enough. *)

From S2P Require Import Prelude CString LineFolder SmtpText.

Definition CRLF2 : bytes := CRLF ++ CRLF.

(** ** Header values and parameters *)

Module mime_params_detail.
Definition lower (value : bytes) : bytes := tolower <$> value.

Definition trim (value : bytes) : bytes := drop_while_end is_blank (drop_while is_blank value).

Definition chars : bytes := s! "ABCDEFGHIJKLMNOPQRSTUVWXYZabcdefghijklmnopqrstuvwxyz0123456789+/".

Definition sextet (bits sh : Z) : Z := chars !!! Z.to_nat (Z.land (bits ≫ sh) 63).

Fixpoint base64 (value : bytes) : bytes :=
  match value with
  | [] => []
  | [a] => let bits := a ≪ 16 in [sextet bits 18; sextet bits 12; 61; 61]
  | [a; b] => let bits := Z.lor (a ≪ 16) (b ≪ 8) in [sextet bits 18; sextet bits 12; sextet bits 6; 61]
  | a :: b :: c :: value =>
      let bits := Z.lor (Z.lor (a ≪ 16) (b ≪ 8)) c in
      sextet bits 18 :: sextet bits 12 :: sextet bits 6 :: sextet bits 0 :: base64 value
  end.
End mime_params_detail.
Import mime_params_detail.

Definition starts_blank (line : bytes) : bool := match line with c :: _ => is_blank c | [] => false end.

(** The loop of [mime_header_value] over the lines. *)
Fixpoint header_value_loop (lines : list bytes) (name : bytes) (selected : bool) (result : bytes) : bytes :=
  match lines with
  | [] => result
  | line :: lines =>
      if starts_blank line then
        header_value_loop lines name selected
          (if selected then result ++ [SP] ++ trim (strip_cr line) else result)
      else if selected then result
      else match find_char 58 line with
           | Some colon =>
               if bool_decide (lower (take colon line) = name)
               then header_value_loop lines name true (trim (drop (colon + 1) (strip_cr line)))
               else header_value_loop lines name false result
           | None => header_value_loop lines name false result
           end
  end.

Definition mime_header_value (headers name : bytes) : bytes :=
  header_value_loop (getlines [] headers) name false [].

Definition hex (c : Z) : Z :=
  if (48 <=? c) && (c <=? 57) then c - 48 else
  if (97 <=? c) && (c <=? 102) then c - 97 + 10 else
  if (65 <=? c) && (c <=? 70) then c - 65 + 10 else -1.

Fixpoint mime_percent_decode (value : bytes) : bytes :=
  match value with
  | [] => []
  | p :: rest =>
      match rest with
      | x :: y :: t =>
          let h := hex x in
          let l := hex y in
          if (p =? 37) && (0 <=? h) && (0 <=? l) && negb (h * 16 + l =? 0)
          then h * 16 + l :: mime_percent_decode t
          else p :: mime_percent_decode rest
      | _ => p :: mime_percent_decode rest
      end
  end.

(** A quoted value from behind its opening quote: the value and the text
    behind the closing quote. *)
Fixpoint quoted_value (s : bytes) : bytes * bytes :=
  match s with
  | [] => ([], [])
  | c :: t =>
      if c =? DQUOTE then ([], t) else
      if c =? 92 then
        match t with
        | d :: t => let '(v, r) := quoted_value t in (d :: v, r)
        | [] => ([c], [])
        end
      else let '(v, r) := quoted_value t in (c :: v, r)
  end.

(** [std::map::emplace]: the first value of a key stays. *)
Definition emplace (k v : bytes) (m : gmap bytes bytes) : gmap bytes bytes :=
  match m !! k with Some _ => m | None => <[k := v]> m end.

(** What is left from the next semicolon on. *)
Definition at_semi (s : bytes) : bytes := match find_char 59 s with Some i => drop i s | None => [] end.

(** The loop over the parameters; [s] is the header from [pos] on, every round
    consumes its semicolon. *)
Fixpoint parameters (fuel : nat) (s : bytes) (m : gmap bytes bytes) : gmap bytes bytes :=
  match fuel, s with
  | S fuel, _ :: s =>
      let s := drop_while is_blank s in
      let semi := find_char 59 s in
      match find_char 61 s with
      | None => parameters fuel (at_semi s) m
      | Some eq =>
          if match semi with Some i => (i <? eq)%nat | None => false end then parameters fuel (at_semi s) m
          else
            let key := lower (trim (take eq s)) in
            let s := drop_while is_blank (drop (eq + 1) s) in
            match s with
            | c :: t =>
                if c =? DQUOTE then
                  let '(value, r) := quoted_value t in parameters fuel (at_semi r) (emplace key value m)
                else
                  let value := trim (match find_char 59 s with Some i => take i s | None => s end) in
                  parameters fuel (at_semi s) (emplace key value m)
            | [] => emplace key [] m
            end
      end
  | _, _ => m
  end.

Definition params_of (header : bytes) : gmap bytes bytes := parameters (S (length header)) (at_semi header) ∅.

(** The charset prefix of an RFC 2231 value. *)
Definition split_charset (piece charset : bytes) : bytes * bytes :=
  match find_char 39 piece with
  | Some a => match find_char_from 39 piece (a + 1) with
              | Some b => (drop (b + 1) piece, take a piece)
              | None => (piece, charset)
              end
  | None => (piece, charset)
  end.

(** The numbered pieces, from [index] on; [todo] rounds are left. *)
Fixpoint pieces (m : gmap bytes bytes) (name : bytes) (todo : nat) (index : Z) (value charset : bytes)
  : bytes * bytes :=
  match todo with
  | O => (value, charset)
  | S todo =>
      let key := name ++ s! "*" ++ to_string index in
      match m !! (key ++ s! "*") with
      | Some piece =>
          let '(piece, charset) := if index =? 0 then split_charset piece charset else (piece, charset) in
          pieces m name todo (index + 1) (value ++ mime_percent_decode piece) charset
      | None =>
          match m !! key with
          | Some piece => pieces m name todo (index + 1) (value ++ piece) charset
          | None => (value, charset)
          end
      end
  end.

(** An extended value: as it is, or an encoded word when the charset is foreign. *)
Definition extended_value (r : bytes * bytes) : bytes :=
  let '(value, charset) := r in
  let cs := lower charset in
  if negb (bool_decide (charset = [])) && negb (bool_decide (cs = s! "utf-8")) && negb (bool_decide (cs = s! "us-ascii"))
  then s! "=?" ++ charset ++ s! "?B?" ++ base64 value ++ s! "?="
  else value.

Definition mime_parameter (header name : bytes) : bytes :=
  let m := params_of header in
  match m !! (name ++ s! "*0*"), m !! (name ++ s! "*0") with
  | None, None =>
      match m !! (name ++ s! "*") with
      | Some piece =>
          let '(piece, charset) := split_charset piece [] in
          extended_value (mime_percent_decode piece, charset)
      | None => default [] (m !! name)
      end
  | _, _ => extended_value (pieces m name (S (size m)) 0 [] [])
  end.

(** ** The part tree *)

Definition kMimeMetadataVersion : Z := 3.

Inductive MimePart := mkPart {
  type : bytes;
  subtype : bytes;
  charset : bytes;
  encoding : bytes;
  boundary : bytes;
  pname : bytes;                          (* [name] *)
  disposition : bytes;
  content_id : bytes;
  metadata_version : Z;                   (* uint32_t *)
  offset : Z;                             (* uint64_t *)
  plength : Z;                            (* [length], uint32_t *)
  body_size : Z;                          (* uint32_t *)
  lines : Z;                              (* uint32_t *)
  subs : list MimePart;
}.

Definition no_part : MimePart := mkPart [] [] [] [] [] [] [] [] 0 0 0 0 0 [].

Definition is_multipart (p : MimePart) : bool := bool_decide (type p = s! "multipart").
Definition is_rfc822 (p : MimePart) : bool :=
  bool_decide (type p = s! "message") && bool_decide (subtype p = s! "rfc822").

Definition set_extent (len body : Z) (p : MimePart) : MimePart :=
  mkPart (type p) (subtype p) (charset p) (encoding p) (boundary p) (pname p) (disposition p) (content_id p)
    (metadata_version p) (offset p) len body (lines p) (subs p).

Definition set_subs (l : list MimePart) (p : MimePart) : MimePart :=
  mkPart (type p) (subtype p) (charset p) (encoding p) (boundary p) (pname p) (disposition p) (content_id p)
    (metadata_version p) (offset p) (plength p) (body_size p) (lines p) l.

Definition is_nl (c : Z) : bool := (c =? CR) || (c =? LF).

(** [while (n > 0 && raw[start + n - 1] is CR or LF) n--] *)
Fixpoint trim_nl (raw : bytes) (start n : nat) : nat :=
  match n with
  | O => O
  | S k => if is_nl (raw !!! (start + k)%nat) then trim_nl raw start k else n
  end.

Definition count_lf (s : bytes) : Z := Z.of_nat (length (filter (λ c, c = LF) s)).

(** [s.rfind(p)] *)
Fixpoint rfind_sub (p s : bytes) : option nat :=
  match s with
  | [] => if starts_with p [] then Some O else None
  | _ :: t => match rfind_sub p t with
              | Some i => Some (S i)
              | None => if starts_with p s then Some O else None
              end
  end.

(** Where the header of the part at [pos] ends. *)
Definition header_end (raw : bytes) (pos : nat) : option nat := find_sub_from CRLF2 raw pos.

Definition header_text (raw : bytes) (pos : nat) : bytes :=
  match header_end raw pos with Some sep => slice raw pos (sep - pos) | None => drop pos raw end.

Definition body_start (raw : bytes) (pos : nat) : nat :=
  match header_end raw pos with Some sep => (sep + 4)%nat | None => length raw end.

(** The Content-Type, or the last one at the start of a line anywhere. *)
Definition content_type_of (raw hdrs : bytes) : bytes :=
  match mime_header_value hdrs (s! "content-type") with
  | [] => match rfind_sub (LF :: s! "content-type:") (lower raw) with
          | Some last => mime_header_value (drop (last + 1) raw) (s! "content-type")
          | None => []
          end
  | v => v
  end.

(** The fields of a part that its header gives. *)
Definition part_header (raw : bytes) (pos : nat) : MimePart :=
  let hdrs := header_text raw pos in
  let content_type := content_type_of raw hdrs in
  let disposition := mime_header_value hdrs (s! "content-disposition") in
  let media := lower (trim (match find_char 59 content_type with Some i => take i content_type | None => content_type end)) in
  let '(ty, sub) := match find_char 47 media with
                    | Some slash => (take slash media, drop (slash + 1) media)
                    | None => (s! "text", s! "plain")
                    end in
  let name := match mime_parameter disposition (s! "filename") with
              | [] => mime_parameter content_type (s! "name")
              | v => v
              end in
  let enc := match lower (mime_header_value hdrs (s! "content-transfer-encoding")) with [] => s! "7bit" | v => v end in
  let '(bsize, nlines) := match header_end raw pos with
                          | Some sep => (to_u32 (Z.of_nat (length raw) - Z.of_nat (sep + 4)), to_u32 (count_lf (drop (sep + 4) raw)))
                          | None => (0, 0)
                          end in
  mkPart ty sub (lower (mime_parameter content_type (s! "charset"))) enc
    (mime_parameter content_type (s! "boundary")) name
    (lower (trim (match find_char 59 disposition with Some i => take i disposition | None => disposition end)))
    (mime_header_value hdrs (s! "content-id")) kMimeMetadataVersion
    (Z.of_nat pos) (to_u32 (Z.of_nat (length raw) - Z.of_nat pos)) bsize nlines [].

(** Behind the line feed that follows [pos]: [find(CRLF)], else [find(LF)]. *)
Definition next_line (raw : bytes) (pos : nat) : option nat :=
  match find_sub_from CRLF raw pos with
  | Some nl => Some (nl + 2)%nat
  | None => (λ nl, (nl + 1)%nat) <$> find_char_from LF raw pos
  end.

(** Behind the first delimiter line. *)
Definition first_part (raw bdr : bytes) (from : nat) : nat :=
  match find_sub_from (bdr ++ CRLF) raw from with
  | Some first => default from (next_line raw first)
  | None => match find_sub_from (bdr ++ [LF]) raw from with
            | Some first => default from (next_line raw first)
            | None => from
            end
  end.

(** The extent of a child between [from] and the delimiter at [next]. *)
Definition fix_extent (raw : bytes) (from next : nat) (p : MimePart) : MimePart :=
  let len := trim_nl raw from (Z.to_nat (to_u32 (Z.of_nat next - Z.of_nat from))) in
  let body := match find_sub_from CRLF2 raw from with
              | Some sep => if (sep <? next)%nat
                            then Z.of_nat (trim_nl raw (sep + 4)
                                   (Z.to_nat (to_u32 (Z.of_nat next - Z.of_nat (sep + 4)))))
                            else body_size p
              | None => body_size p
              end in
  set_extent (Z.of_nat len) body p.

(** The loop over the delimiters; [parse] is the recursive call. *)
Fixpoint multipart_loop (parse : bytes → nat → MimePart) (fuel : nat) (raw bdr : bytes) (from : nat)
  : list MimePart :=
  match fuel with
  | O => []
  | S fuel =>
      if (from <? length raw)%nat then
        match find_sub_from bdr raw from with
        | None => []
        | Some next =>
            if (0 <? next)%nat && negb (raw !!! (next - 1)%nat =? LF)
            then multipart_loop parse fuel raw bdr (next + length bdr)
            else
              let is_close := bool_decide (slice raw (next + length bdr) 2 = [45; 45]) in
              let sub := fix_extent raw from next (parse (take next raw) from) in
              sub :: (if is_close then [] else
                      match next_line raw next with
                      | Some from => multipart_loop parse fuel raw bdr from
                      | None => []
                      end)
        end
      else []
  end.

(** The extent of an embedded message without the line ends of the delimiter. *)
Definition fix_embedded (raw : bytes) (start : nat) (p : MimePart) : MimePart :=
  let abs_start := (length raw - Z.to_nat (body_size p))%nat in
  set_extent (Z.of_nat (trim_nl raw start (Z.to_nat (plength p))))
             (Z.of_nat (trim_nl raw abs_start (Z.to_nat (body_size p)))) p.

(** [parse_mime_tree] with [levels] = 64 - [depth]. *)
Fixpoint parse_mime_tree (levels : nat) (raw : bytes) (pos : nat) : MimePart :=
  let root := part_header raw pos in
  match levels with
  | O => root
  | S levels =>
      let kids :=
        if is_multipart root && negb (bool_decide (boundary root = [])) then
          let bdr := s! "--" ++ boundary root in
          multipart_loop (parse_mime_tree levels) (length raw) raw bdr (first_part raw bdr (body_start raw pos))
        else [] in
      let start := body_start raw pos in
      let kids :=
        if is_rfc822 root && (start <? length raw)%nat then
          let embedded := parse_mime_tree levels raw start in
          kids ++ (if bool_decide (type embedded = []) then [] else [fix_embedded raw start embedded])
        else kids in
      set_subs kids root
  end.

Definition mime_tree (raw : bytes) : MimePart := parse_mime_tree 64 raw 0.

(** ** The JSON form of the tree *)

Definition BSLASH : Z := 92.

Definition escape_char (c : Z) : bytes :=
  if c =? DQUOTE then [BSLASH; DQUOTE] else
  if c =? BSLASH then [BSLASH; BSLASH] else
  if c =? LF then [BSLASH; 110] else
  if c =? CR then [BSLASH; 114] else
  if c =? HTAB then [BSLASH; 116] else
  if c <? 32 then [] else [c].

Definition mime_json_escape (s : bytes) : bytes := s ≫= escape_char.

Definition json_key (k : bytes) : bytes := [DQUOTE] ++ k ++ [DQUOTE; 58].
Definition json_str (v : bytes) : bytes := [DQUOTE] ++ mime_json_escape v ++ [DQUOTE].

(** A field that is left out when empty. *)
Definition json_opt (k v : bytes) : bytes :=
  match v with [] => [] | _ => s! "," ++ json_key k ++ json_str v end.

Definition json_num (k : bytes) (v : Z) : bytes := s! "," ++ json_key k ++ to_string v.

Fixpoint commas (l : list bytes) : bytes :=
  match l with
  | [] => []
  | [x] => x
  | x :: l => x ++ s! "," ++ commas l
  end.

Fixpoint write_part (p : MimePart) : bytes :=
  s! "{" ++ json_key (s! "v") ++ to_string (metadata_version p)
  ++ s! "," ++ json_key (s! "t") ++ json_str (type p)
  ++ s! "," ++ json_key (s! "s") ++ json_str (subtype p)
  ++ json_opt (s! "c") (charset p) ++ json_opt (s! "e") (encoding p) ++ json_opt (s! "b") (boundary p)
  ++ json_opt (s! "n") (pname p) ++ json_opt (s! "d") (disposition p) ++ json_opt (s! "i") (content_id p)
  ++ json_num (s! "o") (offset p) ++ json_num (s! "l") (plength p)
  ++ json_num (s! "z") (body_size p) ++ json_num (s! "ln") (lines p)
  ++ match subs p with
     | [] => []
     | l => s! "," ++ json_key (s! "p") ++ s! "[" ++ commas (write_part <$> l) ++ s! "]"
     end
  ++ s! "}".

Definition serialize_mime_tree (root : MimePart) : bytes :=
  if bool_decide (type root = []) then [] else write_part root.

(** [read_str]: the text up to the next unescaped quote, still escaped, and the
    text behind it; [None] without a closing quote. *)
Fixpoint raw_string (s : bytes) : option (bytes * bytes) :=
  match s with
  | [] => None
  | c :: t =>
      if c =? DQUOTE then Some ([], t) else
      if c =? BSLASH then
        match t with
        | d :: t => (λ '(v, r), (c :: d :: v, r)) <$> raw_string t
        | [] => None
        end
      else (λ '(v, r), (c :: v, r)) <$> raw_string t
  end.

Definition unescape_char (c : Z) : Z := if c =? 110 then LF else if c =? 114 then CR else if c =? 116 then HTAB else c.

Fixpoint unescape (s : bytes) : bytes :=
  match s with
  | [] => []
  | c :: t =>
      if c =? BSLASH then
        match t with
        | d :: t => unescape_char d :: unescape t
        | [] => [c]
        end
      else c :: unescape t
  end.

(** The value, and the text from the new [pos] on: it stays without a string. *)
Definition read_str (s : bytes) : bytes * bytes :=
  match find_char DQUOTE s with
  | None => ([], s)
  | Some start => match raw_string (drop (start + 1) s) with
                  | None => ([], s)
                  | Some (escaped, r) => (unescape escaped, r)
                  end
  end.

Definition read_uint (s : bytes) : Z * bytes :=
  let '(ds, r) := span_digits (drop_while (λ c, negb (isdigit c)) s) in
  (foldl (λ v d, to_u64 (v * 10 + (d - 48))) 0 ds, r).

Definition skip_comma (s : bytes) : bytes := match s with c :: t => if c =? 44 then t else s | [] => [] end.
Definition skip1 (s : bytes) : bytes := match s with _ :: t => t | [] => [] end.

(** One field; [parse_list] reads the children. *)
Definition read_field (parse_list : bytes → list MimePart * bytes) (key s : bytes) (p : MimePart) : MimePart * bytes :=
  let '(mkPart ty su ch en bo na di ci ve of_ le bs ln sb) := p in
  if bool_decide (key = s! "v") then let '(v, s) := read_uint s in (mkPart ty su ch en bo na di ci (to_u32 v) of_ le bs ln sb, s) else
  if bool_decide (key = s! "t") then let '(v, s) := read_str s in (mkPart v su ch en bo na di ci ve of_ le bs ln sb, s) else
  if bool_decide (key = s! "s") then let '(v, s) := read_str s in (mkPart ty v ch en bo na di ci ve of_ le bs ln sb, s) else
  if bool_decide (key = s! "c") then let '(v, s) := read_str s in (mkPart ty su v en bo na di ci ve of_ le bs ln sb, s) else
  if bool_decide (key = s! "e") then let '(v, s) := read_str s in (mkPart ty su ch v bo na di ci ve of_ le bs ln sb, s) else
  if bool_decide (key = s! "b") then let '(v, s) := read_str s in (mkPart ty su ch en v na di ci ve of_ le bs ln sb, s) else
  if bool_decide (key = s! "n") then let '(v, s) := read_str s in (mkPart ty su ch en bo v di ci ve of_ le bs ln sb, s) else
  if bool_decide (key = s! "d") then let '(v, s) := read_str s in (mkPart ty su ch en bo na v ci ve of_ le bs ln sb, s) else
  if bool_decide (key = s! "i") then let '(v, s) := read_str s in (mkPart ty su ch en bo na di v ve of_ le bs ln sb, s) else
  if bool_decide (key = s! "o") then let '(v, s) := read_uint s in (mkPart ty su ch en bo na di ci ve v le bs ln sb, s) else
  if bool_decide (key = s! "l") then let '(v, s) := read_uint s in (mkPart ty su ch en bo na di ci ve of_ (to_u32 v) bs ln sb, s) else
  if bool_decide (key = s! "z") then let '(v, s) := read_uint s in (mkPart ty su ch en bo na di ci ve of_ le (to_u32 v) ln sb, s) else
  if bool_decide (key = s! "ln") then let '(v, s) := read_uint s in (mkPart ty su ch en bo na di ci ve of_ le bs (to_u32 v) sb, s) else
  if bool_decide (key = s! "p") then
    match find_char 91 s with
    | None => (p, [])                     (* [pos] becomes [npos]: the loops end *)
    | Some i => let '(l, s) := parse_list (drop (i + 1) s) in
                (mkPart ty su ch en bo na di ci ve of_ le bs ln (sb ++ l), s)
    end
  else (p, s).

(** The three loops of [deserialize_mime_tree]: a part, its fields, a list of
    children.  Every call consumes a byte, so a fuel beyond the length of the
    text is never used up. *)
Fixpoint parse_part (fuel : nat) (s : bytes) : MimePart * bytes :=
  match fuel with
  | O => (no_part, [])
  | S fuel => match find_char 123 s with
              | None => (no_part, [])
              | Some i => parse_fields fuel (drop (i + 1) s) no_part
              end
  end
with parse_fields (fuel : nat) (s : bytes) (p : MimePart) : MimePart * bytes :=
  match fuel, s with
  | S fuel, c :: t =>
      if c =? 125 then (p, t) else
      let '(key, s) := read_str s in
      let '(p, s) := read_field (parse_list fuel) key (skip1 s) p in
      parse_fields fuel (skip_comma s) p
  | _, _ => (p, [])
  end
with parse_list (fuel : nat) (s : bytes) : list MimePart * bytes :=
  match fuel, s with
  | S fuel, c :: t =>
      if c =? 93 then ([], t) else
      let '(sub, s) := parse_part fuel s in
      let '(l, s) := parse_list fuel (skip_comma s) in
      (if bool_decide (type sub = []) then l else sub :: l, s)
  | _, _ => ([], [])
  end.

Definition deserialize_mime_tree (json : bytes) : option MimePart :=
  match json with
  | c :: _ =>
      if c =? 123 then
        let root := (parse_part (S (length json)) json).1 in
        if bool_decide (type root = []) then None else Some root
      else None
  | [] => None
  end.

(** ** Extracting a part *)

Definition extract_part_content (raw : bytes) (p : MimePart) : bytes :=
  let start := Z.to_nat (offset p) in
  let end_ := Z.to_nat (to_u64 (offset p + plength p)) in
  if (length raw <=? start)%nat then [] else
  let end_ := (end_ `min` length raw)%nat in
  if (end_ <=? start)%nat then [] else
  let sep := match find_sub_from CRLF2 raw start with
             | Some sep => if (sep <? end_)%nat then Some sep else None
             | None => None
             end in
  let sep := match sep with
             | Some sep => Some sep
             | None => match find_sub_from [LF; LF] raw start with
                       | Some sep => if (sep <? end_)%nat then Some sep else None
                       | None => None
                       end
             end in
  match sep with
  | None => []
  | Some sep =>
      let body_start := (sep + (if (raw !!! sep =? CR)%Z then 4 else 2))%nat in
      let end_ := if (end_ <=? body_start)%nat && (start =? 0)%nat then length raw else end_ in
      if (end_ <=? body_start)%nat then [] else
      let body := slice raw body_start (end_ - body_start) in
      take (trim_nl body 0 (length body)) body
  end.

(** ** The cached tree

    [cache] is the provider's metadata cache: what it loads for a key, [None]
    without the capability; a failure or an exception is a miss. *)

Definition load_mime_tree (cache : option (bytes → option bytes)) (key : bytes) : option MimePart :=
  match cache with
  | None => None
  | Some load => if bool_decide (key = []) then None else load key ≫= deserialize_mime_tree
  end.

(** The tree, and the text to save under the key. *)
Definition ensure_mime_tree (cache : option (bytes → option bytes)) (key raw : bytes)
  : option MimePart * option bytes :=
  let parsed :=
    if bool_decide (raw = []) then (None, None) else
    let root := mime_tree raw in
    if bool_decide (type root = []) then (None, None) else
    (Some root, if bool_decide (key = []) then None else const (serialize_mime_tree root) <$> cache) in
  match load_mime_tree cache key with
  | Some root => if kMimeMetadataVersion <=? metadata_version root then (Some root, None) else parsed
  | None => parsed
  end.

(** ** Induction over parts *)

Lemma MimePart_ind' (P : MimePart → Prop) (H : ∀ p, Forall P (subs p) → P p) : ∀ p, P p.
Proof.
  fix IH 1. intros p. apply H. destruct p as [? ? ? ? ? ? ? ? ? ? ? ? ? l]. simpl.
  induction l as [|q l IHl]; constructor; [apply IH|exact IHl].
Qed.

(** ** The JSON form can be read back *)

Definition json_char (c : Z) : bool := (32 <=? c) || (c =? LF) || (c =? CR) || (c =? HTAB).
Definition json_text (s : bytes) : bool := forallb json_char s.
Definition in_u (k : Z) (v : Z) : bool := (0 <=? v) && (v <? 2 ^ k).

(** What a tree must satisfy for its JSON form to determine it: a type in every
    part, no control characters but line ends and tabs, numbers within their
    width. *)
Fixpoint storable (p : MimePart) : bool :=
  negb (bool_decide (type p = [])) &&
  json_text (type p) && json_text (subtype p) && json_text (charset p) && json_text (encoding p) &&
  json_text (boundary p) && json_text (pname p) && json_text (disposition p) && json_text (content_id p) &&
  in_u 32 (metadata_version p) && in_u 64 (offset p) && in_u 32 (plength p) && in_u 32 (body_size p) &&
  in_u 32 (lines p) && forallb storable (subs p).

Lemma raw_string_escape s r :
  json_text s = true → raw_string (mime_json_escape s ++ DQUOTE :: r) = Some (mime_json_escape s, r).
Proof.
  unfold mime_json_escape. induction s as [|c s IH]; [done|]. intros H.
  cbn [json_text forallb] in H. apply andb_true_iff in H as [Hc Hs]. specialize (IH Hs).
  cbn [mbind list_bind]. rewrite <-app_assoc. unfold json_char in Hc.
  set (rest := s ≫= escape_char) in *. clearbody rest. unfold escape_char. unfold DQUOTE, BSLASH, CR, LF, HTAB in *.
  repeat case_match; bool_prop; subst; simpl; try (by rewrite IH); try (exfalso; lia).
  rewrite (proj2 (Z.eqb_neq c DQUOTE)), (proj2 (Z.eqb_neq c BSLASH)), IH by done. done.
Qed.

Lemma unescape_escape s : json_text s = true → unescape (mime_json_escape s) = s.
Proof.
  unfold mime_json_escape. induction s as [|c s IH]; [done|]. intros H.
  cbn [json_text forallb] in H. apply andb_true_iff in H as [Hc Hs]. specialize (IH Hs).
  cbn [mbind list_bind]. unfold json_char in Hc.
  set (rest := s ≫= escape_char) in *. clearbody rest. unfold escape_char. unfold DQUOTE, BSLASH, CR, LF, HTAB in *.
  repeat case_match; bool_prop; subst; cbn [app unescape]; try reflexivity; try (exfalso; lia).
  by rewrite (proj2 (Z.eqb_neq c BSLASH)) by done.
Qed.

Lemma read_str_json v r : json_text v = true → read_str (json_str v ++ r) = (v, r).
Proof.
  intros Hv. unfold read_str, json_str. cbn [app find_char]. rewrite Z.eqb_refl. cbn [Nat.add].
  replace (drop 1 _) with (mime_json_escape v ++ DQUOTE :: r) by (simpl; by rewrite <-app_assoc).
  by rewrite raw_string_escape, unescape_escape.
Qed.

Lemma foldl_dec_value ds v :
  0 ≤ v → Forall (λ b, isdigit b = true) ds → dec_value v ds < 2 ^ 64 →
  foldl (λ v d, to_u64 (v * 10 + (d - 48))) v ds = dec_value v ds.
Proof.
  intros Hv Hds. revert v Hv. induction Hds as [|d ds Hd Hds IH]; intros v Hv Hlt; [done|].
  unfold dec_value in *. cbn [foldl] in *. unfold isdigit in Hd. bool_prop.
  assert (v * 10 + (d - 48) < 2 ^ 64) as Hs.
  { eapply Z.le_lt_trans; [|exact Hlt]. clear -Hds Hv H. generalize dependent v.
    generalize (d - 48) (ltac:(lia) : 0 ≤ d - 48). intros k Hk v Hv.
    assert (0 ≤ v * 10 + k) as Hx by lia. revert Hx. generalize (v * 10 + k). clear -Hds.
    induction Hds as [|d ds Hd _ IH]; intros x Hx; [done|]. cbn [foldl].
    unfold isdigit in Hd. bool_prop. specialize (IH (x * 10 + (d - 48))). lia. }
  rewrite to_u64_id by (unfold u64_ok; lia). apply IH; [lia|done].
Qed.

Lemma read_uint_to_string n r :
  u64_ok n → match r with b :: _ => isdigit b = false | [] => True end → read_uint (to_string n ++ r) = (n, r).
Proof.
  intros [Hn Hlt] Hr. destruct (to_string_head n Hn) as (b & t & E & Hb).
  unfold read_uint. rewrite E. cbn [app]. rewrite drop_while_id by (by rewrite Hb).
  change (b :: t ++ r) with ((b :: t) ++ r). rewrite <-E.
  rewrite span_digits_app by auto using to_string_digits.
  rewrite foldl_dec_value; rewrite ?to_string_value; auto using to_string_digits; lia.
Qed.

(** [fields s p s' p']: with fuel beyond the text, reading the fields of [p] at
    [s] goes on as reading those of [p'] at [s']. *)
Definition fields (s : bytes) (p : MimePart) (s' : bytes) (p' : MimePart) : Prop :=
  ∀ f, (length s < f)%nat → ∃ f', (length s' < f')%nat ∧ parse_fields f s p = parse_fields f' s' p'.

Lemma fields_refl s p : fields s p s p.
Proof. intros f Hf. by exists f. Qed.

Lemma fields_trans s1 p1 s2 p2 s3 p3 : fields s1 p1 s2 p2 → fields s2 p2 s3 p3 → fields s1 p1 s3 p3.
Proof.
  intros H1 H2 f Hf. destruct (H1 f Hf) as (f' & Hf' & ->). destruct (H2 f' Hf') as (f'' & Hf'' & ->).
  by exists f''.
Qed.

Definition plain_key (k : bytes) : bool := forallb (λ c, (48 <=? c) && negb (c =? BSLASH)) k.

Lemma raw_string_plain k r : plain_key k = true → raw_string (k ++ DQUOTE :: r) = Some (k, r) ∧ unescape k = k.
Proof.
  induction k as [|c k IH]; [done|]. cbn [plain_key forallb]. intros [Hc Hk]%andb_true_iff.
  destruct (IH Hk) as [E1 E2]. bool_prop. cbn [app raw_string unescape].
  rewrite (proj2 (Z.eqb_neq c DQUOTE)), (proj2 (Z.eqb_neq c BSLASH)) by (unfold DQUOTE; lia).
  by rewrite E1, E2.
Qed.

Lemma skip_comma_length r : (length (skip_comma r) ≤ length r)%nat.
Proof. destruct r as [|c ?]; simpl; [lia|]. destruct (c =? 44); simpl; lia. Qed.

(** One field, whose value [read_field] consumes down to [r]. *)
Lemma fields_step k v r p p' :
  plain_key k = true → v ≠ [] →
  (∀ f, (length (v ++ r) < f)%nat → read_field (parse_list f) k (v ++ r) p = (p', r)) →
  fields (json_key k ++ v ++ r) p (skip_comma r) p'.
Proof.
  intros Hk Hv Hrd f Hf. destruct f as [|f]; [lia|]. exists f.
  unfold json_key in *. rewrite !length_app in Hf. cbn [length] in Hf. split.
  - pose proof (skip_comma_length r). lia.
  - cbn [app parse_fields]. change (DQUOTE =? 125) with false. cbv iota.
    unfold read_str. cbn [find_char]. rewrite Z.eqb_refl. cbn [Nat.add].
    replace (drop 1 _) with (k ++ DQUOTE :: 58 :: v ++ r) by (simpl; by rewrite <-app_assoc). destruct (raw_string_plain k (58 :: v ++ r) Hk) as [-> ->].
    cbn [skip1]. rewrite Hrd; [done|]. rewrite length_app. lia.
Qed.

Lemma fields_str k v r p upd :
  plain_key k = true → json_text v = true →
  (∀ g s, read_field g k s p = (upd (read_str s).1, (read_str s).2)) →
  fields (json_key k ++ json_str v ++ r) p (skip_comma r) (upd v).
Proof.
  intros Hk Hv Hrd. apply fields_step; [done|done|]. intros f _. by rewrite Hrd, read_str_json.
Qed.

Lemma fields_opt k v r upd :
  plain_key k = true → json_text v = true →
  (∀ g s, read_field g k s (upd []) = (upd (read_str s).1, (read_str s).2)) →
  fields (skip_comma (json_opt k v ++ r)) (upd []) (skip_comma r) (upd v).
Proof.
  intros Hk Hv Hrd. destruct v as [|c v]; [apply fields_refl|].
  unfold json_opt. rewrite <-!app_assoc. by apply fields_str.
Qed.

Definition nondigit_next (r : bytes) : Prop := match r with b :: _ => isdigit b = false | [] => True end.

Lemma fields_num k n r p p' :
  plain_key k = true → u64_ok n → nondigit_next r →
  (∀ g, read_field g k (to_string n ++ r) p = (p', r)) →
  fields (json_key k ++ to_string n ++ r) p (skip_comma r) p'.
Proof. intros Hk Hn Hr Hrd. apply fields_step; [done|apply to_string_not_nil|]. intros f _. apply Hrd. Qed.

(** What [deserialize] does with the text of one part. *)
Definition part_reads (q : MimePart) : Prop :=
  ∀ r f, (length (write_part q ++ r) < f)%nat → parse_part f (write_part q ++ r) = (q, r).

Lemma write_part_head q : ∃ t, write_part q = 123 :: t.
Proof. destruct q. simpl. eauto. Qed.

Lemma parse_list_reads (l : list MimePart) (r : bytes) (f : nat) :
  Forall part_reads l → Forall (λ q, type q ≠ []) l →
  (S (length (commas (write_part <$> l) ++ 93%Z :: r)) < f)%nat →
  parse_list f (commas (write_part <$> l) ++ 93 :: r) = (l, r).
Proof.
  intros Hl Ht. revert f. induction l as [|q l IH]; intros [|f] Hf; try (simpl in Hf; lia); [done|].
  apply list.Forall_cons in Hl as [Hq Hl]. apply list.Forall_cons in Ht as [Htq Ht].
  destruct (write_part_head q) as [t Et].
  assert (∃ rest, commas (write_part <$> q :: l) ++ 93 :: r = write_part q ++ rest ∧
            skip_comma rest = commas (write_part <$> l) ++ 93 :: r) as (rest & E & Erest).
  { destruct l as [|q' l]; [by exists (93 :: r)|].
    exists (s! "," ++ commas (write_part <$> q' :: l) ++ 93 :: r). split; [|done].
    cbn [fmap list_fmap commas]. by rewrite <-!app_assoc. }
  assert (length rest ≤ length (commas (write_part <$> q :: l) ++ 93%Z :: r) - 1)%nat as Hlen.
  { rewrite E, Et, length_app. simpl. lia. }
  rewrite E in *. rewrite Et at 1. cbn [app parse_list]. change (123 =? 93) with false. cbv iota.
  change (123 :: t ++ rest) with ((123 :: t) ++ rest). rewrite <-Et.
  rewrite (Hq rest f) by lia. rewrite Erest, IH; [|done|done|].
  - by rewrite bool_decide_eq_false_2.
  - rewrite <-Erest. pose proof (skip_comma_length rest). rewrite length_app, Et in Hf. simpl in Hf. lia.
Qed.

Lemma read_field_p g s p :
  read_field g (s! "p") s p =
    match find_char 91 s with
    | None => (p, [])
    | Some i => let '(l, s) := g (drop (i + 1) s) in (set_subs (subs p ++ l) p, s)
    end.
Proof. by destruct p. Qed.

Lemma list_field (l : list MimePart) (r : bytes) (p : MimePart) :
  subs p = [] → Forall part_reads l → Forall (λ q, type q ≠ []) l →
  fields (skip_comma (match l with
                      | [] => []
                      | l => s! "," ++ json_key (s! "p") ++ s! "[" ++ commas (write_part <$> l) ++ s! "]"
                      end ++ 125 :: r)) p (125 :: r) (set_subs l p).
Proof.
  intros Hs Hl Ht. destruct l as [|q l].
  { destruct p. simpl in Hs. subst. apply fields_refl. }
  set (l' := q :: l) in *. rewrite <-!app_assoc. 
  replace (skip_comma _) with (json_key (s! "p") ++ (91 :: commas (write_part <$> l') ++ [93]) ++ 125 :: r)
    by (cbn [app]; by rewrite <-!app_assoc).
  apply (fields_step _ _ (125 :: r)); [done|done|]. intros f Hf.
  rewrite read_field_p, Hs.
  cbn [app find_char]. change (91 =? 91) with true. cbv iota. cbn [Nat.add].
  replace (drop 1 _) with (commas (write_part <$> l') ++ 93 :: 125 :: r) by (simpl; by rewrite <-app_assoc).
  rewrite parse_list_reads; [done..|]. clear -Hf. rewrite !length_app in *. cbn [length] in *.
  rewrite length_app in Hf. cbn [length] in Hf. lia.
Qed.

Lemma fields_str' k v r p upd :
  plain_key k = true → json_text v = true →
  (∀ g s, read_field g k s p = (upd (read_str s).1, (read_str s).2)) →
  fields (skip_comma (s! "," ++ json_key k ++ json_str v ++ r)) p (skip_comma r) (upd v).
Proof. apply fields_str. Qed.

Lemma fields_num' k n r p p' :
  plain_key k = true → u64_ok n → nondigit_next r →
  (∀ g, read_field g k (to_string n ++ r) p = (p', r)) →
  fields (skip_comma (json_num k n ++ r)) p (skip_comma r) p'.
Proof. unfold json_num. rewrite <-!app_assoc. apply fields_num. Qed.

Ltac str_field := intros; unfold read_field; simpl; destruct (read_str _); reflexivity.
Ltac num_field :=
  intros; unfold read_field; simpl; rewrite read_uint_to_string by (unfold u64_ok; try done; lia);
  simpl; rewrite ?to_u32_id by (unfold u32_ok; lia); reflexivity.

Lemma part_reads_storable q : storable q = true → part_reads q.
Proof.
  induction q as [q IH] using MimePart_ind'. intros Hq r f Hf.
  assert (Forall part_reads (subs q) ∧ Forall (λ q, type q ≠ []) (subs q)) as [Hl Ht].
  { destruct q as [? ? ? ? ? ? ? ? ? ? ? ? ? l]. cbn [storable subs] in *. apply andb_true_iff in Hq as [_ Hq].
    clear -IH Hq. induction IH as [|q l H _ IHl]; [done|]. cbn [forallb] in Hq. apply andb_true_iff in Hq as [H1 H2].
    destruct (IHl H2). split; constructor; auto.
    destruct q. cbn [storable type] in *. by bool_prop. }
  destruct q as [ty su ch en bo na di ci ve of_ le bs ln sb]. cbn [storable type subtype charset encoding boundary
    pname disposition content_id metadata_version offset plength body_size lines subs] in *.
  unfold in_u in Hq. bool_prop. clear IH.
  destruct f as [|f]; [lia|].
  assert (∀ s q, fields s no_part (125 :: r) q → (length s < f)%nat →
    parse_part (S f) (123 :: s) = (q, r)) as Hgo.
  { intros s q Hs Hlen. cbn [parse_part find_char]. change (123 =? 123) with true. cbv iota. cbn [Nat.add].
    change (drop 1 (123 :: s)) with s. destruct (Hs f Hlen) as ([|f'] & Hf' & ->); [simpl in Hf'; lia|done]. }
  cbn [write_part] in *. rewrite <-!app_assoc in *. apply Hgo; [|simpl in Hf |- *; lia]. clear Hgo Hf.
  assert (∀ v, v < 2 ^ 32 → 0 ≤ v → u64_ok v) as Hu by (unfold u64_ok; lia).
  eapply fields_trans; [apply (fields_num (s! "v") ve _ no_part (mkPart [] [] [] [] [] [] [] [] ve 0 0 0 0 []));
    [done|auto|done|num_field]|].
  eapply fields_trans; [apply (fields_str' (s! "t") ty _ _ (λ v, mkPart v [] [] [] [] [] [] [] ve 0 0 0 0 [])); [done..|str_field]|].
  eapply fields_trans; [apply (fields_str' (s! "s") su _ _ (λ v, mkPart ty v [] [] [] [] [] [] ve 0 0 0 0 [])); [done..|str_field]|].
  eapply fields_trans; [apply (fields_opt (s! "c") ch _ (λ v, mkPart ty su v [] [] [] [] [] ve 0 0 0 0 [])); [done..|str_field]|].
  eapply fields_trans; [apply (fields_opt (s! "e") en _ (λ v, mkPart ty su ch v [] [] [] [] ve 0 0 0 0 [])); [done..|str_field]|].
  eapply fields_trans; [apply (fields_opt (s! "b") bo _ (λ v, mkPart ty su ch en v [] [] [] ve 0 0 0 0 [])); [done..|str_field]|].
  eapply fields_trans; [apply (fields_opt (s! "n") na _ (λ v, mkPart ty su ch en bo v [] [] ve 0 0 0 0 [])); [done..|str_field]|].
  eapply fields_trans; [apply (fields_opt (s! "d") di _ (λ v, mkPart ty su ch en bo na v [] ve 0 0 0 0 [])); [done..|str_field]|].
  eapply fields_trans; [apply (fields_opt (s! "i") ci _ (λ v, mkPart ty su ch en bo na di v ve 0 0 0 0 [])); [done..|str_field]|].
  eapply fields_trans; [apply (fields_num' (s! "o") of_ _ _ (mkPart ty su ch en bo na di ci ve of_ 0 0 0 []));
    [done|done|done|num_field]|].
  eapply fields_trans; [apply (fields_num' (s! "l") le _ _ (mkPart ty su ch en bo na di ci ve of_ le 0 0 []));
    [done|auto|done|num_field]|].
  eapply fields_trans; [apply (fields_num' (s! "z") bs _ _ (mkPart ty su ch en bo na di ci ve of_ le bs 0 []));
    [done|auto|done|num_field]|].
  eapply fields_trans; [apply (fields_num' (s! "ln") ln _ _ (mkPart ty su ch en bo na di ci ve of_ le bs ln []));
    [done|auto|by destruct sb|destruct sb; num_field]|].
  pose proof (list_field sb r (mkPart ty su ch en bo na di ci ve of_ le bs ln []) eq_refl Hl Ht) as Hx.
  destruct sb; exact Hx.
Qed.

(** C35: The part tree of a message survives its cache: a tree whose parts all
    have a type, whose texts hold no control characters other than line ends and
    tabs and whose numbers fit their fields is read back exactly, children
    included, from the JSON text written for it. *)
Theorem mime_tree_roundtrip (root : MimePart) (H : storable root = true) :
  deserialize_mime_tree (serialize_mime_tree root) = Some root.
Proof.
  assert (type root ≠ []) as Ht by (destruct root; cbn [storable type] in *; by bool_prop).
  unfold serialize_mime_tree. rewrite bool_decide_eq_false_2 by done.
  pose proof (part_reads_storable root H [] (S (length (write_part root)))) as Hr.
  rewrite app_nil_r in Hr. unfold deserialize_mime_tree.
  destruct (write_part_head root) as [t E]. rewrite E in *. change (123 =? 123) with true. cbv iota.
  rewrite Hr by lia. cbn [fst]. by rewrite bool_decide_eq_false_2.
Qed.

Lemma mime_tree_roundtrip_witness :
  let p := mkPart (s! "text") (s! "html") (s! "utf-8") (s! "7bit") [] (s! "a\b") [] [] 3 7 9 4 1 [] in
  let root := mkPart (s! "multipart") (s! "mixed") [] (s! "7bit") (s! "x") [] [] [] 3 0 40 20 2 [p; p] in
  storable root = true ∧ deserialize_mime_tree (serialize_mime_tree root) = Some root.
Proof.
  intros p root. assert (storable root = true) as H by (vm_compute; reflexivity).
  split; [exact H|]. exact (mime_tree_roundtrip root H).
Defined.

(** ** Parts lie inside their parents *)

Lemma find_sub_from_bounds p s pos i :
  p ≠ [] → find_sub_from p s pos = Some i →
  (pos ≤ i)%nat ∧ (i + length p ≤ length s)%nat ∧ ∃ t, drop i s = p ++ t.
Proof.
  unfold find_sub_from. intros Hp (j & Hj & ->)%fmap_Some.
  apply find_sub_Some in Hj as (t & Ht & _). rewrite drop_drop in Ht.
  pose proof (f_equal length Ht) as Hlen. rewrite length_app, length_drop in Hlen.
  destruct p as [|c p]; [done|]. simpl in Hlen. split_and!; [lia|simpl; lia|by exists t].
Qed.

Lemma find_char_from_bounds c s pos i :
  find_char_from c s pos = Some i → (pos ≤ i < length s)%nat.
Proof.
  unfold find_char_from. intros (j & Hj & ->)%fmap_Some. apply find_char_lt in Hj.
  rewrite length_drop in Hj. lia.
Qed.

Lemma next_line_bounds raw pos n : next_line raw pos = Some n → (pos < n ≤ length raw)%nat.
Proof.
  unfold next_line. destruct (find_sub_from CRLF raw pos) as [i|] eqn:E.
  - intros [= <-]. apply find_sub_from_bounds in E as (? & H & _); [|done]. simpl in H. lia.
  - intros (i & Hi & ->)%fmap_Some. apply find_char_from_bounds in Hi. lia.
Qed.

Lemma body_start_bounds raw pos : (pos ≤ length raw)%nat → (pos ≤ body_start raw pos ≤ length raw)%nat.
Proof.
  unfold body_start, header_end. intros Hp. destruct (find_sub_from _ _ _) as [i|] eqn:E; [|lia].
  apply find_sub_from_bounds in E as (? & H & _); [|done]. simpl in H. lia.
Qed.

Lemma first_part_bounds raw bdr pos :
  (pos ≤ length raw)%nat → (pos ≤ first_part raw bdr pos ≤ length raw)%nat.
Proof.
  intros Hp. assert (∀ k i, k ≠ [] → find_sub_from k raw pos = Some i →
    (pos ≤ default pos (next_line raw i) ≤ length raw)%nat) as H.
  { intros k i Hk (? & ? & _)%find_sub_from_bounds; [|done].
    destruct (next_line raw i) as [n|] eqn:En; simpl; [apply next_line_bounds in En|]; lia. }
  unfold first_part. destruct (find_sub_from (bdr ++ CRLF) raw pos) eqn:E1; [eapply H; [|done]; by destruct bdr|].
  destruct (find_sub_from (bdr ++ [LF]) raw pos) eqn:E2; [eapply H; [|done]; by destruct bdr|lia].
Qed.

Lemma trim_nl_le raw start n : (trim_nl raw start n ≤ n)%nat.
Proof. induction n as [|n IH]; simpl; [lia|]. destruct (is_nl _); lia. Qed.

Lemma trim_nl_suffix raw start k m :
  trim_nl raw (start + k) m = 0%nat ∨ (trim_nl raw (start + k) m + k ≤ trim_nl raw start (k + m))%nat.
Proof.
  induction m as [|m IH]; [by left|]. rewrite Nat.add_succ_r. simpl. rewrite Nat.add_assoc.
  destruct (is_nl _); [done|]. right. lia.
Qed.

(** A match inside a prefix of the text is one of the text. *)
Lemma find_sub_from_take p s pos n i :
  p ≠ [] → find_sub_from p (take n s) pos = Some i →
  ∃ j, find_sub_from p s pos = Some j ∧ (j ≤ i)%nat ∧ (i + length p ≤ n)%nat.
Proof.
  intros Hp Hi. pose proof (find_sub_from_bounds _ _ _ _ Hp Hi) as (Hle & Hlen & t & Ht).
  rewrite length_take in Hlen.
  assert (starts_with p (drop i s) = true) as Hyes.
  { apply starts_with_spec. exists (t ++ drop n s). rewrite <-(take_drop n s) at 1.
    rewrite drop_app_le by (rewrite length_take; lia). by rewrite Ht, <-app_assoc. }
  replace i with (pos + (i - pos))%nat in Hyes by lia. rewrite <-drop_drop in Hyes.
  unfold find_sub_from in *. destruct (find_sub p (drop pos s)) as [j|] eqn:Ej.
  - exists (pos + j)%nat. split; [done|]. split; [|lia].
    destruct (decide (pos + j ≤ i)%nat) as [|Hgt]; [done|].
    pose proof (find_sub_first p _ j (i - pos) Ej ltac:(lia)). congruence.
  - exfalso. destruct (find_sub_None _ _ Ej (i - pos)) as [Hno|Hno]; [congruence|].
    rewrite length_drop in Hno. lia.
Qed.

(** [contained hi lo p]: the part starts at [lo] or later, ends at [hi] or
    earlier, its body is inside it, and its children are contained in windows
    of their own, one after the other, inside [offset p, hi]. *)
Fixpoint contained (hi lo : Z) (p : MimePart) : Prop :=
  lo ≤ offset p ∧ 0 ≤ body_size p ≤ plength p ∧ offset p + plength p ≤ hi ∧
  (fix kids (lo : Z) (l : list MimePart) : Prop :=
     match l with
     | [] => True
     | q :: l => ∃ e, e ≤ hi ∧ contained e lo q ∧ kids e l
     end) (offset p) (subs p).

Fixpoint kids_contained (hi lo : Z) (l : list MimePart) : Prop :=
  match l with
  | [] => True
  | q :: l => ∃ e, e ≤ hi ∧ contained e lo q ∧ kids_contained hi e l
  end.

Lemma contained_eq hi lo p :
  contained hi lo p ↔
  lo ≤ offset p ∧ 0 ≤ body_size p ≤ plength p ∧ offset p + plength p ≤ hi ∧ kids_contained hi (offset p) (subs p).
Proof.
  destruct p as [? ? ? ? ? ? ? ? ? of_ ? ? ? l]. cbn [contained offset plength body_size subs].
  enough (∀ lo, (fix kids (lo : Z) (l : list MimePart) : Prop :=
     match l with [] => True | q :: l => ∃ e, e ≤ hi ∧ contained e lo q ∧ kids e l end) lo l
     ↔ kids_contained hi lo l) as H by (by rewrite H).
  clear. induction l as [|q l IH]; intros lo; [done|]. cbn [kids_contained]. by setoid_rewrite IH.
Qed.

Lemma contained_le hi lo lo' p : lo' ≤ lo → contained hi lo p → contained hi lo' p.
Proof. rewrite !contained_eq. intros ? H. destruct_and! H. split_and!; try done; lia. Qed.

Lemma kids_contained_le hi lo lo' l : lo' ≤ lo → kids_contained hi lo l → kids_contained hi lo' l.
Proof.
  destruct l as [|q l]; [done|]. intros Hle (e & He & Hq & Hl). exists e. split; [done|]. split; [|done].
  by eapply contained_le.
Qed.

Lemma contained_extent hi lo p len body :
  contained hi lo p → 0 ≤ body ≤ len → offset p + len ≤ hi → contained hi lo (set_extent len body p).
Proof. rewrite !contained_eq. destruct p. simpl. tauto. Qed.

Lemma part_header_extent raw pos :
  offset (part_header raw pos) = Z.of_nat pos ∧
  plength (part_header raw pos) = to_u32 (Z.of_nat (length raw) - Z.of_nat pos) ∧
  body_size (part_header raw pos) =
    match header_end raw pos with Some sep => to_u32 (Z.of_nat (length raw) - Z.of_nat (sep + 4)) | None => 0 end ∧
  subs (part_header raw pos) = [].
Proof. unfold part_header. destruct (find_char 47 _); destruct (header_end raw pos); done. Qed.

Lemma parse_extent levels raw pos :
  offset (parse_mime_tree levels raw pos) = Z.of_nat pos ∧
  plength (parse_mime_tree levels raw pos) = to_u32 (Z.of_nat (length raw) - Z.of_nat pos) ∧
  body_size (parse_mime_tree levels raw pos) =
    match header_end raw pos with Some sep => to_u32 (Z.of_nat (length raw) - Z.of_nat (sep + 4)) | None => 0 end.
Proof.
  destruct (part_header_extent raw pos) as (H1 & H2 & H3 & _).
  destruct levels; cbn [parse_mime_tree set_subs offset plength body_size]; done.
Qed.

Lemma header_end_bounds raw pos sep : header_end raw pos = Some sep → (pos ≤ sep ∧ sep + 4 ≤ length raw)%nat.
Proof. unfold header_end. intros (H1 & H2 & _)%find_sub_from_bounds; [|done]. by simpl in H2. Qed.

Lemma u32_small n : (0 ≤ n < 2 ^ 32)%Z → to_u32 n = n.
Proof. intros. by apply to_u32_id. Qed.

(** A delimiter never overlaps the empty line in front of a body, so the sizes
    do not wrap. *)
Lemma sep_before_delimiter raw from sep next t :
  find_sub_from CRLF2 raw from = Some sep → drop next raw = 45 :: t → (sep < next)%nat → (sep + 4 ≤ next)%nat.
Proof.
  intros (_ & _ & u & Hu)%find_sub_from_bounds Hn Hlt; [|done].
  destruct (decide (sep + 4 ≤ next)%nat) as [|Hgt]; [done|]. exfalso.
  assert (drop next raw = drop (next - sep) (CRLF2 ++ u)) as E.
  { rewrite <-Hu, drop_drop. f_equal. lia. }
  rewrite Hn in E. assert (next - sep = 1 ∨ next - sep = 2 ∨ next - sep = 3)%nat as [Ek|[Ek|Ek]] by lia;
    rewrite Ek in E; simpl in E; discriminate E.
Qed.

Section Bounded.
Context (raw : bytes) (Hsmall : Z.of_nat (length raw) < 2 ^ 32).

Lemma fix_extent_contained from next t p :
  (from ≤ next ≤ length raw)%nat → drop next raw = 45 :: t →
  contained (Z.of_nat next) (Z.of_nat from) p → offset p = Z.of_nat from →
  (header_end (take next raw) from = None → body_size p = 0) →
  contained (Z.of_nat next) (Z.of_nat from) (fix_extent raw from next p).
Proof.
  intros Hle Hd Hc Ho Hb. unfold fix_extent.
  assert (Z.to_nat (to_u32 (Z.of_nat next - Z.of_nat from)) = next - from)%nat as E1
    by (rewrite u32_small by lia; lia).
  rewrite E1. pose proof (trim_nl_le raw from (next - from)) as Hlen.
  apply contained_extent; [done| |lia].
  destruct (find_sub_from CRLF2 raw from) as [sep|] eqn:Es;
    [destruct (Nat.ltb_spec sep next) as [Hlt|Hge]|].
  - pose proof (sep_before_delimiter _ _ _ _ _ Es Hd Hlt) as H4.
    apply find_sub_from_bounds in Es as (H5 & _ & _); [|done].
    rewrite u32_small by lia. replace (Z.to_nat _) with (next - (sep + 4))%nat by lia.
    pose proof (trim_nl_suffix raw from (sep + 4 - from) (next - (sep + 4))) as Hs.
    replace (from + (sep + 4 - from))%nat with (sep + 4)%nat in Hs by lia.
    replace (sep + 4 - from + (next - (sep + 4)))%nat with (next - from)%nat in Hs by lia. lia.
  - rewrite Hb; [lia|]. unfold header_end. destruct (find_sub_from CRLF2 (take next raw) from) as [i|] eqn:Ei; [|done].
    apply find_sub_from_take in Ei as (j & Hj & ? & Hi); [|done]. simpl in Hi. simplify_eq. lia.
  - rewrite Hb; [lia|]. unfold header_end. destruct (find_sub_from CRLF2 (take next raw) from) as [i|] eqn:Ei; [|done].
    apply find_sub_from_take in Ei as (j & Hj & _ & _); [|done]. congruence.
Qed.

Lemma fix_embedded_contained start p :
  (start ≤ length raw)%nat → contained (Z.of_nat (length raw)) (Z.of_nat start) p →
  offset p = Z.of_nat start → plength p = Z.of_nat (length raw - start) →
  contained (Z.of_nat (length raw)) (Z.of_nat start) (fix_embedded raw start p).
Proof.
  intros Hle Hc Ho Hl. unfold fix_embedded. pose proof Hc as (_ & Hb & _ & _)%contained_eq.
  rewrite Hl in *. rewrite Nat2Z.id. set (m := Z.to_nat (body_size p)).
  pose proof (trim_nl_le raw start (length raw - start)) as Hlen.
  apply contained_extent; [done| |lia].
  pose proof (trim_nl_suffix raw start (length raw - m - start) m) as Hs.
  replace (start + (length raw - m - start))%nat with (length raw - m)%nat in Hs by lia.
  replace (length raw - m - start + m)%nat with (length raw - start)%nat in Hs by lia. lia.
Qed.

Lemma multipart_loop_contained parse fuel bdr' from lo :
  (∀ next from, (from ≤ next ≤ length raw)%nat →
     contained (Z.of_nat next) (Z.of_nat from) (parse (take next raw) from) ∧
     offset (parse (take next raw) from) = Z.of_nat from ∧
     (header_end (take next raw) from = None → body_size (parse (take next raw) from) = 0)) →
  (lo ≤ from)%nat →
  kids_contained (Z.of_nat (length raw)) (Z.of_nat lo) (multipart_loop parse fuel raw (45 :: bdr') from).
Proof.
  intros Hparse. revert from lo. induction fuel as [|fuel IH]; intros from lo Hlo; [done|].
  cbn [multipart_loop]. destruct (Nat.ltb_spec from (length raw)); [|done].
  destruct (find_sub_from (45 :: bdr') raw from) as [next|] eqn:En; [|done].
  apply find_sub_from_bounds in En as (H1 & H2 & t & Ht); [|done].
  destruct ((0 <? next)%nat && _); [apply IH; lia|].
  assert ((from ≤ next ≤ length raw)%nat) as Hr by (simpl in H2; lia).
  destruct (Hparse next from Hr) as (Hc & Ho & Hb).
  cbn [kids_contained]. exists (Z.of_nat next). split; [lia|]. split.
  - pose proof (fix_extent_contained from next _ _ Hr Ht Hc Ho Hb) as H'.
    eapply contained_le; [|exact H']. lia.
  - destruct (bool_decide _); [done|]. destruct (next_line raw next) as [n|] eqn:Enl; [|done].
    apply next_line_bounds in Enl. apply IH. lia.
Qed.
End Bounded.

Lemma parse_contained levels raw pos :
  Z.of_nat (length raw) < 2 ^ 32 → (pos ≤ length raw)%nat →
  contained (Z.of_nat (length raw)) (Z.of_nat pos) (parse_mime_tree levels raw pos).
Proof.
  revert raw pos. induction levels as [|levels IH]; intros raw pos Hsmall Hpos.
  all: destruct (part_header_extent raw pos) as (H1 & H2 & H3 & H4).
  all: assert (0 ≤ body_size (part_header raw pos) ≤ plength (part_header raw pos) ∧
         offset (part_header raw pos) + plength (part_header raw pos) ≤ Z.of_nat (length raw)) as [Hb He]
    by (rewrite H1, H2, H3, u32_small by lia; destruct (header_end raw pos) as [sep|] eqn:Es;
        [apply header_end_bounds in Es; rewrite u32_small by lia|]; lia).
  - cbn [parse_mime_tree]. apply contained_eq. rewrite H4, H1. split_and!; try done; lia.
  - cbn [parse_mime_tree]. apply contained_eq. cbn [set_subs offset plength body_size subs]. rewrite H1.
    split_and!; try done; try lia.
    pose proof (body_start_bounds raw pos Hpos) as Hbs.
    set (kids := if is_multipart _ && _ then _ else _).
    assert (kids_contained (Z.of_nat (length raw)) (Z.of_nat pos) kids) as Hkids.
    { unfold kids. destruct (is_multipart _ && _); [|done].
      pose proof (first_part_bounds raw (s! "--" ++ boundary (part_header raw pos)) (body_start raw pos) ltac:(lia)).
      apply multipart_loop_contained; [done| |lia].
      intros next from Hr. assert (length (take next raw) = next) as Hn by (rewrite length_take; lia).
      pose proof (IH (take next raw) from) as Hc. rewrite Hn in Hc.
      destruct (parse_extent levels (take next raw) from) as (? & _ & E3).
      split; [apply Hc; lia|]. split; [done|]. intros Hnone. by rewrite E3, Hnone. }
    destruct (is_rfc822 _ && (_ <? _)%nat) eqn:Er; [|done]. bool_prop.
    destruct (bool_decide (type (parse_mime_tree _ _ _) = [])); [by rewrite app_nil_r|].
    assert (kids = []) as ->.
    { unfold kids. unfold is_rfc822, is_multipart in *. bool_prop.
      match goal with H : type _ = s! "message" |- _ => by rewrite H end. }
    cbn [app kids_contained]. exists (Z.of_nat (length raw)). split; [lia|]. split; [|done].
    destruct (parse_extent levels raw (body_start raw pos)) as (E1 & E2 & _).
    apply (contained_le _ (Z.of_nat (body_start raw pos))); [lia|]. apply fix_embedded_contained; [lia|apply IH; lia|done|]. rewrite E2, u32_small; lia.
Qed.

Fixpoint pdepth (p : MimePart) : nat := S (max_list (pdepth <$> subs p)).

Lemma max_list_app (l k : list nat) : max_list (l ++ k) = (max_list l `max` max_list k)%nat.
Proof. induction l as [|x l IH]; [done|]. simpl. rewrite IH. lia. Qed.

Lemma fix_extent_depth raw from next p : pdepth (fix_extent raw from next p) = pdepth p.
Proof. by destruct p. Qed.

Lemma fix_embedded_depth raw start p : pdepth (fix_embedded raw start p) = pdepth p.
Proof. by destruct p. Qed.

Lemma multipart_loop_depth parse d fuel raw bdr from :
  (∀ raw pos, (pdepth (parse raw pos) ≤ d)%nat) →
  (max_list (pdepth <$> multipart_loop parse fuel raw bdr from) ≤ d)%nat.
Proof.
  intros Hp. revert from. induction fuel as [|fuel IH]; intros from; [simpl; lia|].
  cbn [multipart_loop]. destruct (from <? length raw)%nat; [|simpl; lia].
  destruct (find_sub_from bdr raw from) as [next|]; [|simpl; lia]. destruct (_ && _); [apply IH|].
  rewrite fmap_cons. cbn [max_list_with]. unfold id at 1. rewrite fix_extent_depth. apply Nat.max_lub; [apply Hp|].
  repeat case_match; [simpl; lia|apply IH|simpl; lia].
Qed.

Lemma parse_depth levels raw pos : (pdepth (parse_mime_tree levels raw pos) ≤ S levels)%nat.
Proof.
  revert raw pos. induction levels as [|levels IH]; intros raw pos; cbn [parse_mime_tree].
  { destruct (part_header_extent raw pos) as (_ & _ & _ & Hs). destruct (part_header raw pos). simpl in *.
    subst. simpl. lia. }
  match goal with |- context [set_subs ?k _] => set (kids := k) end.
  enough (max_list (pdepth <$> kids) ≤ S levels)%nat by (destruct (part_header raw pos); simpl; lia).
  unfold kids. assert (∀ l d, (max_list (pdepth <$> l) ≤ d)%nat → ∀ q, (pdepth q ≤ d)%nat →
    (max_list (pdepth <$> (l ++ [q])) ≤ d)%nat) as Happ.
  { intros l d Hl q Hq. rewrite fmap_app, max_list_app. cbn [fmap list_fmap max_list_with]. unfold id at 2. lia. }
  destruct (is_multipart _ && _).
  - pose proof (multipart_loop_depth (parse_mime_tree levels) (S levels) (length raw) raw
      (s! "--" ++ boundary (part_header raw pos)) (first_part raw (s! "--" ++ boundary (part_header raw pos)) (body_start raw pos)) IH) as Hm.
    destruct (is_rfc822 _ && _); [|exact Hm].
    destruct (bool_decide (type (parse_mime_tree _ _ _) = [])); [by rewrite app_nil_r|].
    apply Happ; [exact Hm|]. rewrite fix_embedded_depth. apply IH.
  - destruct (is_rfc822 _ && _); [|simpl; lia].
    destruct (bool_decide (type (parse_mime_tree _ _ _) = [])); [simpl; lia|].
    apply (Happ []); [simpl; lia|]. rewrite fix_embedded_depth. apply IH.
Qed.

(** Parsing a message below 4 GiB gives a tree that stays inside it, whatever
    the message holds: every part lies in the window of its parent, its body
    inside the part, siblings occupy consecutive windows that do not overlap, no
    size wraps around, and the tree is at most 65 levels deep. *)
Theorem mime_parts_contained (raw : bytes) (H : Z.of_nat (length raw) < 2 ^ 32) :
  contained (Z.of_nat (length raw)) 0 (mime_tree raw) ∧ (pdepth (mime_tree raw) ≤ 65)%nat.
Proof. split; [exact (parse_contained 64 raw 0 H (Nat.le_0_l _))|apply parse_depth]. Qed.

Definition sample_message : bytes :=
  s! "Content-Type: multipart/mixed; boundary=b" ++ CRLF2 ++
  s! "--b" ++ CRLF ++ s! "Content-Type: /x" ++ CRLF2 ++ s! "one" ++ CRLF ++
  s! "--b" ++ CRLF ++ s! "Content-Type: text/html" ++ CRLF2 ++ s! "two" ++ CRLF ++ s! "--b--" ++ CRLF.

Lemma mime_parts_contained_witness :
  Z.of_nat (length sample_message) < 2 ^ 32 ∧
  length (subs (mime_tree sample_message)) = 2%nat ∧
  contained (Z.of_nat (length sample_message)) 0 (mime_tree sample_message) ∧ (pdepth (mime_tree sample_message) ≤ 65)%nat.
Proof.
  assert (Z.of_nat (length sample_message) < 2 ^ 32) as H by (vm_compute; reflexivity).
  split; [exact H|]. split; [vm_compute; reflexivity|]. exact (mime_parts_contained sample_message H).
Defined.

(** A part without a type is lost by the cached tree: reading a message with
    an empty cache answers its parts in order, reading it again through the text
    saved then skips the part with no type, so part 1 is now the second one. *)
Theorem cached_tree_drops_untyped :
  ∃ raw key saved root root',
    ensure_mime_tree (Some (λ _, None)) key raw = (Some root, Some saved) ∧
    ensure_mime_tree (Some (λ _, Some saved)) key raw = (Some root', None) ∧
    extract_part_content raw <$> (subs root !! 0%nat) = Some (s! "one") ∧
    extract_part_content raw <$> (subs root' !! 0%nat) = Some (s! "two").
Proof.
  set (root := mime_tree sample_message). set (saved := serialize_mime_tree root).
  exists sample_message, (s! "k"), saved, root, (default no_part (deserialize_mime_tree saved)).
  split; [vm_compute; reflexivity|]. split; [vm_compute; reflexivity|].
  split; vm_compute; reflexivity.
Qed.

(** ** The loops end

    More fuel than the measure of what is left changes nothing. *)

Lemma multipart_loop_fuel parse raw bdr f g from :
  bdr ≠ [] → (length raw ≤ from + f)%nat → (length raw ≤ from + g)%nat →
  multipart_loop parse f raw bdr from = multipart_loop parse g raw bdr from.
Proof.
  intros Hb. revert g from. induction f as [|f IH]; intros g from Hf Hg.
  { destruct g as [|g]; [done|]. cbn [multipart_loop]. by rewrite (proj2 (Nat.ltb_ge _ _)) by lia. }
  destruct g as [|g]; [cbn [multipart_loop]; by rewrite (proj2 (Nat.ltb_ge _ _)) by lia|].
  cbn [multipart_loop]. destruct (_ <? _)%nat; [|done].
  destruct (find_sub_from bdr raw from) as [next|] eqn:En; [|done].
  apply find_sub_from_bounds in En as (H1 & H2 & _); [|done].
  destruct (_ && _).
  - assert (0 < length bdr)%nat by (destruct bdr; [done|simpl; lia]). apply IH; lia.
  - f_equal. destruct (bool_decide _); [done|]. destruct (next_line raw next) as [n|] eqn:En; [|done].
    apply next_line_bounds in En. apply IH; lia.
Qed.

Lemma drop_while_length p s : (length (drop_while p s) ≤ length s)%nat.
Proof. destruct (drop_while_suffix p s) as (t & Ht & _). rewrite Ht at 2. rewrite length_app. lia. Qed.

Lemma at_semi_length s : (length (at_semi s) ≤ length s)%nat.
Proof. unfold at_semi. destruct (find_char 59 s); [rewrite length_drop|simpl]; lia. Qed.

Lemma quoted_value_length s v r : quoted_value s = (v, r) → (length r ≤ length s)%nat.
Proof.
  revert v r. induction s as [s IH] using (induction_ltof1 _ (@length Z)). unfold ltof in IH.
  destruct s as [|c t]; intros v r; cbn [quoted_value]; [intros [= <- <-]; done|].
  destruct (c =? DQUOTE); [intros [= <- <-]; simpl; lia|]. destruct (c =? 92).
  - destruct t as [|d t]; [intros [= <- <-]; simpl; lia|]. destruct (quoted_value t) as [v' r'] eqn:E.
    intros [= <- <-]. apply IH in E; simpl in *; lia.
  - destruct (quoted_value t) as [v' r'] eqn:E. intros [= <- <-]. apply IH in E; simpl in *; lia.
Qed.

Lemma parameters_fuel f g s m :
  (length s ≤ f)%nat → (length s ≤ g)%nat → parameters f s m = parameters g s m.
Proof.
  revert g s m. induction f as [|f IH]; intros g s m Hf Hg.
  { destruct s; [|simpl in Hf; lia]. by destruct g. }
  destruct g as [|g]; [by destruct s; [|simpl in Hg; lia]|].
  destruct s as [|c s]; [done|]. cbn [parameters length] in *.
  pose proof (drop_while_length is_blank s) as Hd. set (s1 := drop_while is_blank s) in *.
  assert (∀ t m, (length t ≤ length s1)%nat → parameters f (at_semi t) m = parameters g (at_semi t) m) as Hgo.
  { intros t m' Ht. pose proof (at_semi_length t). apply IH; lia. }
  destruct (find_char 61 s1) as [eq|]; [|by apply Hgo]. destruct (match find_char 59 s1 with Some _ => _ | None => _ end); [by apply Hgo|].
  pose proof (drop_while_length is_blank (drop (eq + 1) s1)) as Hd2. rewrite length_drop in Hd2.
  destruct (drop_while is_blank (drop (eq + 1) s1)) as [|c' t]; [done|]. simpl in Hd2.
  destruct (c' =? DQUOTE).
  - destruct (quoted_value t) as [v r] eqn:E. apply quoted_value_length in E. apply Hgo. lia.
  - apply Hgo. simpl. lia.
Qed.

Lemma raw_string_length s v r : raw_string s = Some (v, r) → (length r < length s)%nat.
Proof.
  revert v r. induction s as [s IH] using (induction_ltof1 _ (@length Z)). unfold ltof in IH.
  destruct s as [|c t]; intros v r; cbn [raw_string]; [done|].
  destruct (c =? DQUOTE); [intros [= <- <-]; simpl; lia|]. destruct (c =? BSLASH).
  - destruct t as [|d t]; [done|]. intros ([v' r'] & E & [= -> ->])%fmap_Some. apply IH in E; simpl in *; lia.
  - intros ([v' r'] & E & [= -> ->])%fmap_Some. apply IH in E; simpl in *; lia.
Qed.

Lemma read_str_length s : (length (read_str s).2 ≤ length s)%nat.
Proof.
  unfold read_str. destruct (find_char DQUOTE s) as [i|]; [|done].
  destruct (raw_string _) as [[v r]|] eqn:E; [|done]. apply raw_string_length in E. rewrite length_drop in E. simpl. lia.
Qed.

Lemma read_uint_length s : (length (read_uint s).2 ≤ length s)%nat.
Proof.
  unfold read_uint. pose proof (drop_while_length (λ c, negb (isdigit c)) s) as H.
  destruct (span_digits _) as [d r] eqn:E. apply span_digits_length in E. rewrite E, length_app in H. simpl. lia.
Qed.

(** A field consumes text if the list reader does, and uses the reader only
    on less text. *)
Lemma read_field_spec g g' key s p :
  (∀ t, (length t < length s)%nat → g t = g' t ∧ (length (g t).2 ≤ length t)%nat) →
  read_field g key s p = read_field g' key s p ∧ (length (read_field g key s p).2 ≤ length s)%nat.
Proof.
  intros Hg. destruct p. unfold read_field.
  repeat match goal with
  | |- context [if bool_decide (key = ?k) then _ else _] =>
      destruct (bool_decide (key = k));
      [try (pose proof (read_str_length s); destruct (read_str s); by split);
       try (pose proof (read_uint_length s); destruct (read_uint s); by split)|]
  end; [|by split].
  destruct (find_char 91 s) as [i|] eqn:E; [|split; [done|simpl; lia]].
  apply find_char_lt in E. destruct (Hg (drop (i + 1) s)) as [<- Hl]; [rewrite length_drop; lia|].
  rewrite length_drop in Hl. destruct (g (drop (i + 1) s)). simpl in *. split; [done|lia].
Qed.

Lemma json_fuel n :
  (∀ f g s, (length s ≤ n)%nat → (length s < f)%nat → (length s < g)%nat →
     parse_part f s = parse_part g s ∧ (length (parse_part f s).2 ≤ length s - 1)%nat) ∧
  (∀ f g s p, (length s ≤ n)%nat → (length s < f)%nat → (length s < g)%nat →
     parse_fields f s p = parse_fields g s p ∧ (length (parse_fields f s p).2 ≤ length s)%nat) ∧
  (∀ f g s, (length s ≤ n)%nat → (S (length s) < f)%nat → (S (length s) < g)%nat →
     parse_list f s = parse_list g s ∧ (length (parse_list f s).2 ≤ length s)%nat).
Proof.
  induction n as [n IH] using lt_wf_ind.
  assert (∀ f g s p, (length s ≤ n)%nat → (length s < f)%nat → (length s < g)%nat →
     parse_fields f s p = parse_fields g s p ∧ (length (parse_fields f s p).2 ≤ length s)%nat) as Hfields.
  { intros [|f] [|g] s p Hn Hf Hg; try lia. destruct s as [|c t]; [by split|].
    cbn [parse_fields]. destruct (c =? 125); [split; [done|simpl; lia]|].
    pose proof (read_str_length (c :: t)) as Hr. destruct (read_str (c :: t)) as [key s1]. cbn [snd] in Hr.
    assert (length (skip1 s1) ≤ length t)%nat as Hs by (destruct s1; simpl in *; lia).
    destruct (read_field_spec (parse_list f) (parse_list g) key (skip1 s1) p) as [Erf Hlen].
    { intros u Hu. destruct (IH (length u)) as (_ & _ & Hl); [simpl in Hn; lia|].
      simpl in *. apply Hl; lia. }
    rewrite <-Erf. destruct (read_field _ _ _ _) as [p1 s2]. cbn [snd] in Hlen.
    pose proof (skip_comma_length s2). destruct (IH (length (skip_comma s2))) as (_ & Hfl & _); [simpl in Hn; lia|].
    simpl in *. destruct (Hfl f g (skip_comma s2) p1) as [-> Hl2]; try lia.
    split; [done|]. destruct (Hfl g g (skip_comma s2) p1) as [_ Hl3]; lia. }
  assert (∀ f g s, (length s ≤ n)%nat → (length s < f)%nat → (length s < g)%nat →
     parse_part f s = parse_part g s ∧ (length (parse_part f s).2 ≤ length s - 1)%nat) as Hpart.
  { intros [|f] [|g] s Hn Hf Hg; try lia. cbn [parse_part].
    destruct (find_char 123 s) as [i|] eqn:E; [|split; [done|simpl; lia]]. apply find_char_lt in E.
    assert (length (drop (i + 1) s) ≤ length s - 1)%nat by (rewrite length_drop; lia).
    destruct (Hfields f g (drop (i + 1) s) no_part) as [-> Hl]; try lia. split; [done|].
    destruct (Hfields g g (drop (i + 1) s) no_part) as [_ Hl']; lia. }
  split; [exact Hpart|]. split; [exact Hfields|].
  intros [|f] [|g] s Hn Hf Hg; try lia. destruct s as [|c t]; [by split|].
  cbn [parse_list]. destruct (c =? 93); [split; [done|simpl; lia]|].
  destruct (Hpart f g (c :: t)) as [Ep Hl]; try (simpl in *; lia). rewrite <-Ep.
  destruct (parse_part f (c :: t)) as [q s1]. cbn [snd] in Hl.
  pose proof (skip_comma_length s1). destruct (IH (length (skip_comma s1))) as (_ & _ & Hll); [simpl in *; lia|].
  destruct (Hll f g (skip_comma s1)) as [<- Hl2]; try (simpl in *; lia).
  destruct (parse_list f (skip_comma s1)) as [l s2]. split; [done|]. simpl in *. lia.
Qed.

(** Any fuel beyond the text gives the same tree. *)
Lemma deserialize_fuel f json : (length json < f)%nat → parse_part f json = parse_part (S (length json)) json.
Proof. intros Hf. by apply (json_fuel (length json)); try lia. Qed.
