(* ===== verification/ImapText.v ===== *)
(** * Text handling of the IMAP server

    Models [src/mail_system/back/mailServer/fsm/imaps/imap_utils.cpp]: quoting,
    mailbox names in modified UTF-7, flag lists, ENVELOPE and BODYSTRUCTURE,
    body sections, and sequence sets, over the part trees of [Mime].

    A read past the terminating null character of a string (undefined in C++) is
    [None] in [encode_mailbox_name]. *)

From S2P Require Import Prelude CString LineFolder SmtpText Mime.
Import mime_params_detail.

Definition AMP : Z := 38.
Definition HYPHEN : Z := 45.
Definition COMMA : Z := 44.

(** ** Dates *)

Record tm := mkTm { tm_mday : Z; tm_mon : Z; tm_year : Z; tm_hour : Z; tm_min : Z; tm_sec : Z }.

(** [gmtime_r]: the proleptic Gregorian calendar, from the days since 1 March 0000. *)
Definition gmtime (t : Z) : tm :=
  let z := t / 86400 + 719468 in
  let era := z / 146097 in
  let doe := z mod 146097 in
  let yoe := (doe - doe / 1460 + doe / 36524 - doe / 146096) / 365 in
  let doy := doe - (365 * yoe + yoe / 4 - yoe / 100) in
  let mp := (5 * doy + 2) / 153 in
  let month := if mp <? 10 then mp + 2 else mp - 10 in
  let year := yoe + era * 400 + (if month <? 2 then 1 else 0) in
  mkTm (doy - (153 * mp + 2) / 5 + 1) month (year - 1900)
    (t mod 86400 / 3600) (t mod 3600 / 60) (t mod 60).

Definition months : list bytes :=
  [s! "Jan"; s! "Feb"; s! "Mar"; s! "Apr"; s! "May"; s! "Jun";
   s! "Jul"; s! "Aug"; s! "Sep"; s! "Oct"; s! "Nov"; s! "Dec"].

(** [printf("%0wd")] of a value that is not negative. *)
Definition padded (w : nat) (n : Z) : bytes :=
  replicate (w - length (to_string n)) 48 ++ to_string n.

Definition imap_date (r : tm) : bytes :=
  padded 2 (tm_mday r) ++ s! "-" ++ (months !!! Z.to_nat (tm_mon r)) ++ s! "-" ++ padded 4 (tm_year r + 1900).

Definition imap_timestamp (t : Z) : bytes :=
  let r := gmtime t in
  imap_date r ++ s! " " ++ padded 2 (tm_hour r) ++ s! ":" ++ padded 2 (tm_min r) ++ s! ":" ++ padded 2 (tm_sec r)
  ++ s! " +0000".

(** ** Quoting *)

Definition escape_quoted (s : bytes) : bytes :=
  s ≫= λ c, if (c =? DQUOTE) || (c =? BSLASH) then [BSLASH; c] else [c].

Definition quote_string (s : bytes) : bytes :=
  let needs_quote := match s with
                     | [] => true
                     | c :: _ => (c =? AMP) || existsb (λ c, (c =? DQUOTE) || (c =? BSLASH)) s || existsb (λ c, c =? SP) s
                     end in
  if needs_quote then [DQUOTE] ++ escape_quoted s ++ [DQUOTE] else s.

(** ** Mailbox names in modified UTF-7 *)

Definition kBase64 : bytes := s! "ABCDEFGHIJKLMNOPQRSTUVWXYZabcdefghijklmnopqrstuvwxyz0123456789+,".

Definition kBase64Decode : list Z :=
  [-1;-1;-1;-1;-1;-1;-1;-1;-1;-1;-1;-1;-1;-1;-1;-1;
   -1;-1;-1;-1;-1;-1;-1;-1;-1;-1;-1;-1;-1;-1;-1;-1;
   -1;-1;-1;-1;-1;-1;-1;-1;-1;-1;-1;-1;62;-1;-1;-1;
   52;53;54;55;56;57;58;59;60;61;-1;-1;-1;-1;-1;-1;
   -1; 0; 1; 2; 3; 4; 5; 6; 7; 8; 9;10;11;12;13;14;
   15;16;17;18;19;20;21;22;23;24;25;-1;-1;-1;-1;63;
   -1;26;27;28;29;30;31;32;33;34;35;36;37;38;39;40;
   41;42;43;44;45;46;47;48;49;50;51;-1;-1;-1;-1;-1].

Definition enc64 (t sh : Z) : Z := kBase64 !!! Z.to_nat (Z.land (t ≫ sh) 63).

(** The groups of three bytes of [flush]. *)
Fixpoint flush_groups (be : bytes) : bytes :=
  match be with
  | [] => []
  | [a] => let t := a ≪ 16 in [enc64 t 18; enc64 t 12]
  | [a; b] => let t := Z.lor (a ≪ 16) (b ≪ 8) in [enc64 t 18; enc64 t 12; enc64 t 6]
  | a :: b :: c :: be =>
      let t := Z.lor (Z.lor (a ≪ 16) (b ≪ 8)) c in
      enc64 t 18 :: enc64 t 12 :: enc64 t 6 :: enc64 t 0 :: flush_groups be
  end.

Definition be16 (u : Z) : bytes := [Z.land (u ≫ 8) 255; Z.land u 255].

Definition flush (buf : list Z) : bytes :=
  match buf with
  | [] => []
  | _ => [AMP] ++ flush_groups (buf ≫= be16) ++ [HYPHEN]
  end.

(** The bytes that follow a lead byte.  [name[size()]] is the terminator; a read
    behind it is undefined. *)
Fixpoint continuation (extra : nat) (cp : Z) (rest : bytes) : option (Z * bytes) :=
  match extra, rest with
  | O, _ => Some (cp, rest)
  | S extra, b :: rest => continuation extra (Z.lor (cp ≪ 6) (Z.land b 63)) rest
  | S O, [] => Some (cp ≪ 6, [])
  | S (S _), [] => None
  end.

Definition units (cp : Z) : list Z :=
  if cp >? 65535 then
    let cp := cp - 65536 in [Z.lor 55296 (Z.land (cp ≫ 10) 1023); Z.lor 56320 (Z.land cp 1023)]
  else [to_u16 cp].

Definition lead (c : Z) : Z * nat :=
  if 240 <=? c then (Z.land c 7, 3%nat) else
  if 224 <=? c then (Z.land c 15, 2%nat) else (Z.land c 31, 1%nat).

(** The loop of [encode_mailbox_name]; every round consumes a byte. *)
Fixpoint encode_loop (fuel : nat) (name : bytes) (buf : list Z) : option bytes :=
  match fuel, name with
  | S fuel, c :: rest =>
      if c <? 128 then
        out ← encode_loop fuel rest [];
        Some (flush buf ++ (if c =? AMP then [AMP; HYPHEN] else [c]) ++ out)
      else
        let '(cp, extra) := lead c in
        '(cp, rest) ← continuation extra cp rest;
        encode_loop fuel rest (buf ++ units cp)
  | _, _ => Some (flush buf)
  end.

Definition encode_mailbox_name (name : bytes) : option bytes :=
  if bool_decide (toupper <$> name = s! "INBOX") then Some (s! "INBOX")
  else encode_loop (length name) name [].

(** The bytes of a base64 run: [acc] is a 32-bit accumulator, [bits] its fill. *)
Fixpoint decode64 (b64 : bytes) (acc bits : Z) : bytes :=
  match b64 with
  | [] => []
  | c :: b64 =>
      let val := if c <? 128 then kBase64Decode !!! Z.to_nat c else -1 in
      if val <? 0 then decode64 b64 acc bits else
      let acc := to_u32 (Z.lor (acc ≪ 6) val) in
      let bits := bits + 6 in
      if 8 <=? bits then Z.land (acc ≫ (bits - 8)) 255 :: decode64 b64 acc (bits - 8)
      else decode64 b64 acc bits
  end.

(** UTF-8 of a code point above the basic plane (the low surrogate is not
    checked, so [cp] is a 32-bit value). *)
Definition utf8_4 (cp : Z) : bytes :=
  [Z.lor 240 (Z.land (cp ≫ 18) 7); Z.lor 128 (Z.land (cp ≫ 12) 63);
   Z.lor 128 (Z.land (cp ≫ 6) 63); Z.lor 128 (Z.land cp 63)].

Definition utf8_unit (unit : Z) : bytes :=
  if unit <? 128 then [unit] else
  if unit <? 2048 then [Z.lor 192 (Z.land (unit ≫ 6) 31); Z.lor 128 (Z.land unit 63)] else
  [Z.lor 224 (Z.land (unit ≫ 12) 15); Z.lor 128 (Z.land (unit ≫ 6) 63); Z.lor 128 (Z.land unit 63)].

Definition unit_of (a b : Z) : Z := Z.lor (a ≪ 8) b.

(** UTF-16BE to UTF-8; an odd last byte is dropped. *)
Fixpoint utf16_to_utf8 (s : bytes) : bytes :=
  match s with
  | a :: b :: s =>
      let unit := unit_of a b in
      match s with
      | c :: d :: s' =>
          if (55296 <=? unit) && (unit <=? 56319) then
            utf8_4 (to_u32 (65536 + ((unit - 55296) ≪ 10) + (unit_of c d - 56320))) ++ utf16_to_utf8 s'
          else if (55296 <=? unit) && (unit <=? 57343) then utf16_to_utf8 s
          else utf8_unit unit ++ utf16_to_utf8 s
      | _ => if (55296 <=? unit) && (unit <=? 57343) then [] else utf8_unit unit
      end
  | _ => []
  end.

(** The loop of [decode_mailbox_name]; every round consumes a byte. *)
Fixpoint decode_loop (fuel : nat) (s : bytes) : bytes :=
  match fuel, s with
  | S fuel, c :: t =>
      if c =? AMP then
        match t with
        | d :: t' =>
            if d =? HYPHEN then AMP :: decode_loop fuel t' else
            match find_char HYPHEN t with
            | None => c :: decode_loop fuel t
            | Some e => utf16_to_utf8 (decode64 (take e t) 0 0) ++ decode_loop fuel (drop (e + 1) t)
            end
        | [] => [c]
        end
      else c :: decode_loop fuel t
  | _, _ => []
  end.

Definition decode_mailbox_name (imap7 : bytes) : bytes := decode_loop (length imap7) imap7.

(** ** Flags, envelopes and literals *)

Definition build_flags_string (status : Z) (starred deleted important : bool) : bytes :=
  let flags := (if status =? 0 then s! "\Seen " else []) ++ (if starred then s! "\Flagged " else []) ++
               (if deleted then s! "\Deleted " else []) ++ (if important then s! "\Important " else []) in
  take (length flags - 1) flags.

Definition in_quotes (s : bytes) : bytes := [DQUOTE] ++ s ++ [DQUOTE].

Definition or_nil (s : bytes) : bytes := match s with [] => s! "NIL" | _ => in_quotes s end.

Definition addr_trim (c : Z) : bool := (c =? SP) || (c =? HTAB) || (c =? DQUOTE).

Definition addr_to_list (addr : bytes) : bytes :=
  match addr with
  | [] => s! "NIL"
  | _ =>
      let '(name, addr_spec) :=
        match find_char 60 addr, find_char 62 addr with
        | Some a, Some b =>
            let before := drop_while_end addr_trim (drop_while addr_trim (take a addr)) in
            (match before with [] => s! "NIL" | _ => in_quotes before end,
             if (b <? a)%nat then drop (a + 1) addr else slice addr (a + 1) (b - a - 1))
        | _, _ => (s! "NIL", addr)
        end in
      let '(user, domain) := match find_char 64 addr_spec with
                             | Some at_ => (take at_ addr_spec, drop (at_ + 1) addr_spec)
                             | None => (addr_spec, [])
                             end in
      let user := match user with [] => s! "NIL" | _ => user end in
      let domain := match domain with [] => s! "NIL" | _ => domain end in
      s! "((" ++ name ++ s! " NIL " ++ in_quotes user ++ s! " " ++ in_quotes domain ++ s! "))"
  end.

Definition build_envelope_string (date_str subject from sender reply_to to cc bcc in_reply_to message_id : bytes)
  : bytes :=
  s! "(" ++ or_nil date_str ++ s! " " ++ or_nil subject ++ s! " " ++ addr_to_list from ++ s! " "
  ++ addr_to_list (match sender with [] => from | _ => sender end) ++ s! " "
  ++ addr_to_list (match reply_to with [] => from | _ => reply_to end) ++ s! " "
  ++ addr_to_list to ++ s! " " ++ addr_to_list cc ++ s! " " ++ addr_to_list bcc ++ s! " "
  ++ or_nil in_reply_to ++ s! " " ++ or_nil message_id ++ s! ")".

Definition literal (s : bytes) : bytes := s! "{" ++ to_string (Z.of_nat (length s)) ++ s! "}" ++ CRLF ++ s.

Definition build_fetch_body_response (body_content : bytes) : bytes :=
  match body_content with [] => [DQUOTE; DQUOTE] | _ => literal body_content end.

(** ** Header blocks *)

Definition mime_part_header_block (raw : bytes) (p : MimePart) : bytes :=
  let start := Z.to_nat (offset p) in
  let end_ := Z.to_nat (to_u64 (offset p + plength p)) in
  if (length raw <=? start)%nat then [] else
  let end_ := (end_ `min` length raw)%nat in
  if (end_ <=? start)%nat then [] else
  let crlf := match find_sub_from CRLF2 raw start with
              | Some sep => if (end_ <? sep + 4)%nat then None else Some sep
              | None => None
              end in
  match crlf with
  | Some sep => slice raw start (sep + 2 - start)
  | None => match find_sub_from [LF; LF] raw start with
            | Some sep => if (end_ <? sep + 2)%nat then [] else slice raw start (sep + 1 - start)
            | None => []
            end
  end.

(** The names asked for: commas or white space separate them. *)
Definition wanted_fields (fields_csv : bytes) : list bytes :=
  getlines_sep COMMA [] fields_csv ≫= λ f,
    match trim f with [] => [] | f => lower <$> words [] (lower f) end.

(** The loop of [filter_header_block]; [keep] and [current] are the field being read. *)
Fixpoint filter_loop (wanted : list bytes) (exclude : bool) (lines : list bytes) (keep : bool) (current filtered : bytes)
  : bytes :=
  let flushed := if keep && negb (bool_decide (current = [])) then filtered ++ current ++ CRLF else filtered in
  match lines with
  | [] => flushed
  | l :: lines =>
      let line := strip_cr l in
      if starts_blank line then
        filter_loop wanted exclude lines keep (if keep then current ++ CRLF ++ line else current) filtered
      else
        match line with
        | [] => filter_loop wanted exclude lines false line flushed
        | _ => match find_char 58 line with
               | None => filter_loop wanted exclude lines exclude line flushed
               | Some colon =>
                   let hit := bool_decide (lower (take colon line) ∈ wanted) in
                   filter_loop wanted exclude lines (if exclude then negb hit else hit) line flushed
               end
        end
  end.

Definition filter_header_block (headers fields_csv : bytes) (exclude : bool) : bytes :=
  let filtered := filter_loop (wanted_fields fields_csv) exclude (getlines [] headers) false [] [] in
  if (2 <=? length filtered)%nat then take (length filtered - 2) filtered else filtered.

Definition build_envelope_from_headers (header_block : bytes) : bytes :=
  let hv := mime_header_value header_block in
  build_envelope_string (hv (s! "date")) (hv (s! "subject")) (hv (s! "from")) (hv (s! "sender"))
    (hv (s! "reply-to")) (hv (s! "to")) (hv (s! "cc")) (hv (s! "bcc")) (hv (s! "in-reply-to")) (hv (s! "message-id")).

(** ** Body sections *)

Fixpoint mime_tree_has_rfc822 (p : MimePart) : bool := is_rfc822 p || existsb mime_tree_has_rfc822 (subs p).

(** [top] holds while no number of the path is consumed. *)
Fixpoint resolve_loop (top : bool) (cur : MimePart) (path : list Z) : option MimePart :=
  match path with
  | [] => Some cur
  | idx :: path =>
      if is_multipart cur then
        if (idx =? 0) || (idx >? Z.of_nat (length (subs cur))) then None else
        subs cur !! Z.to_nat (idx - 1) ≫= λ q, resolve_loop false q path
      else if is_rfc822 cur && negb (bool_decide (subs cur = [])) then
        match subs cur with
        | embedded :: _ =>
            if is_multipart embedded then
              if (idx =? 0) || (idx >? Z.of_nat (length (subs embedded))) then None else
              subs embedded !! Z.to_nat (idx - 1) ≫= λ q, resolve_loop false q path
            else if idx =? 1 then resolve_loop false embedded path else None
        | [] => None
        end
      else if top && (idx =? 1) then resolve_loop false cur path else None
  end.

Definition resolve_mime_part (root : MimePart) (path : list Z) : option MimePart := resolve_loop true root path.

Inductive Kind := full | mime | header | text | header_fields | header_fields_not.

#[export] Instance Kind_eq_dec : EqDecision Kind.
Proof. solve_decision. Defined.

Record ImapBodySection := mkSection { path : list Z; kind : Kind; fields_of : bytes; inside : bytes }.

(** A number of a path, with the defence against absurd ones. *)
Fixpoint path_number (ds : bytes) (n : Z) : option Z :=
  match ds with
  | [] => Some n
  | d :: ds => let n := n * 10 + (d - 48) in if n >? 1000000000 then None else path_number ds n
  end.

(** The numbers at the start of a section and what follows them. *)
Fixpoint section_path (fuel : nat) (s : bytes) (acc : list Z) : option (list Z * bytes) :=
  match fuel, s with
  | S fuel, _ :: _ =>
      let '(ds, rest) := span_digits s in
      match ds with
      | [] => None
      | _ =>
          n ← path_number ds 0;
          if n =? 0 then None else
          let acc := acc ++ [n] in
          match rest with
          | c :: d :: t => if (c =? 46) && isdigit d then section_path fuel (d :: t) acc else Some (acc, rest)
          | _ => Some (acc, rest)
          end
      end
  | _, _ => Some (acc, s)
  end.

Definition kHF : bytes := s! ".HEADER.FIELDS".
Definition kHFN : bytes := s! ".HEADER.FIELDS.NOT".

Definition section_fields (fields : bytes) : option bytes :=
  let fields := trim fields in
  if (2 <=? length fields)%nat && bool_decide (hd_error fields = Some 40) && bool_decide (list.last fields = Some 41)
  then Some (trim (slice fields 1 (length fields - 2))) else None.

Definition parse_body_section (inside : bytes) : option ImapBodySection :=
  match inside with
  | [] => Some (mkSection [] full [] [])
  | _ =>
      '(path, suffix) ← section_path (length inside) inside [];
      match suffix with
      | [] => Some (mkSection path full [] inside)
      | _ =>
          let rest := toupper <$> trim suffix in
          if bool_decide (rest = s! ".MIME") then Some (mkSection path mime [] inside) else
          if bool_decide (rest = s! ".HEADER") then Some (mkSection path header [] inside) else
          if bool_decide (rest = s! ".TEXT") then Some (mkSection path text [] inside) else
          if starts_with kHFN rest then
            (λ f, mkSection path header_fields_not f inside) <$> section_fields (drop (length kHFN) suffix)
          else if starts_with kHF rest then
            (λ f, mkSection path header_fields f inside) <$> section_fields (drop (length kHF) suffix)
          else None
      end
  end.

(** The part that stands for the whole message. *)
Definition whole_part (raw : bytes) : MimePart := set_extent (to_u32 (Z.of_nat (length raw))) 0 no_part.

(** Header kinds on one part: the block, filtered when fields are named. *)
Definition section_header (raw : bytes) (p : MimePart) (sec : ImapBodySection) : bytes :=
  let block := mime_part_header_block raw p in
  if bool_decide (kind sec = header) then block
  else filter_header_block block (fields_of sec) (bool_decide (kind sec = header_fields_not)).

Definition extract_body_section (raw : bytes) (root : MimePart) (sec : ImapBodySection) : bytes :=
  match path sec with
  | [] =>
      match kind sec with
      | full => raw
      | header | header_fields | header_fields_not => section_header raw (whole_part raw) sec
      | text => extract_part_content raw (whole_part raw)
      | mime => []
      end
  | _ =>
      match resolve_mime_part root (path sec) with
      | None => []
      | Some p =>
          match kind sec with
          | full => extract_part_content raw p
          | mime => mime_part_header_block raw p
          | _ =>
              if negb (is_rfc822 p) then [] else
              match subs p with
              | [] => []
              | embedded :: _ => if bool_decide (kind sec = text) then extract_part_content raw embedded
                                 else section_header raw embedded sec
              end
          end
      end
  end.

(** ** BODYSTRUCTURE *)

(** The local [string]: a literal for anything but plain ASCII text. *)
Definition imap_string (value : bytes) : bytes :=
  if existsb (λ c, (128 <=? c) || (c =? CR) || (c =? LF)) value then literal value
  else in_quotes (escape_quoted value).

Definition bs_disposition (p : MimePart) : bytes :=
  match disposition p with
  | [] => s! "NIL"
  | d => s! "(" ++ imap_string d ++ s! " "
         ++ match pname p with
            | [] => s! "NIL"
            | n => s! "(" ++ in_quotes (s! "FILENAME") ++ s! " " ++ imap_string n ++ s! ")"
            end ++ s! ")"
  end.

Definition bs_params (p : MimePart) : bytes :=
  let cs := match charset p with [] => [] | c => in_quotes (s! "CHARSET") ++ s! " " ++ imap_string c end in
  let params := match pname p with
                | [] => cs
                | n => cs ++ match cs with [] => [] | _ => s! " " end ++ in_quotes (s! "NAME") ++ s! " " ++ imap_string n
                end in
  match params with [] => s! " NIL" | _ => s! " (" ++ params ++ s! ")" end.

Definition bs_basic (p : MimePart) : bytes :=
  s! "(" ++ imap_string (type p) ++ s! " " ++ imap_string (subtype p) ++ bs_params p
  ++ match content_id p with [] => s! " NIL" | c => s! " " ++ imap_string c end
  ++ s! " NIL " ++ imap_string (encoding p) ++ s! " " ++ to_string (body_size p).

Fixpoint build_bodystructure_tree (p : MimePart) (raw : bytes) : bytes :=
  if is_multipart p then
    s! "(" ++ concat ((λ q, build_bodystructure_tree q raw) <$> subs p) ++ s! " " ++ imap_string (subtype p)
    ++ match boundary p with
       | [] => s! " NIL"
       | b => s! " (" ++ in_quotes (s! "BOUNDARY") ++ s! " " ++ imap_string b ++ s! ")"
       end
    ++ s! " " ++ bs_disposition p ++ s! " NIL NIL)"
  else
    bs_basic p
    ++ (if is_rfc822 p then
          match (λ q, (build_envelope_from_headers (mime_part_header_block raw q), build_bodystructure_tree q raw)) <$> subs p with
          | (envelope, structure) :: _ =>
              s! " " ++ envelope ++ s! " " ++ structure ++ s! " " ++ to_string (lines p)
          | [] => s! " NIL (" ++ in_quotes (s! "text") ++ s! " " ++ in_quotes (s! "plain") ++ s! " NIL NIL NIL "
                  ++ in_quotes (s! "7bit") ++ s! " 0 0) 0"
          end
        else if bool_decide (type p = s! "text") then s! " " ++ to_string (lines p) else [])
    ++ s! " NIL " ++ bs_disposition p ++ s! " NIL NIL)".

Definition build_bodystructure (raw : bytes) : bytes := build_bodystructure_tree (mime_tree raw) raw.

(** ** Sequence sets *)

(** The bounds a token asks for. *)
Definition token_bounds (total : Z) (token : bytes) : Z * Z :=
  match find_char 58 token with
  | Some c =>
      let a := take c token in
      let b := drop (c + 1) token in
      (if bool_decide (a = s! "*") then 1 else safe_stoull a,
       if bool_decide (b = s! "*") then total else Z.min (safe_stoull b) total)
  | None => if bool_decide (token = s! "*") then (1, total) else (safe_stoull token, safe_stoull token)
  end.

Definition expand_token (total : Z) (token : bytes) : option (Z * Z) :=
  let '(s, e) := token_bounds total token in
  let s := if s <? 1 then 1 else s in
  let e := if e >? total then total else e in
  if s <=? e then Some (s, e) else None.

Definition expand_seq_set (seq_set : bytes) (total : nat) : list (Z * Z) :=
  omap (λ token, match token with [] => None | _ => expand_token (Z.of_nat total) token end)
    (getlines_sep COMMA [] seq_set).

Fixpoint join_mail_ids (ids : list Z) : bytes :=
  match ids with
  | [] => []
  | [id] => to_string id
  | id :: ids => to_string id ++ s! "," ++ join_mail_ids ids
  end.

(** ** Sequence sets denote ranges inside the mailbox *)

(** What a token of a sequence set stands for, of the numbers [1..total]. *)
Definition token_covers (token : bytes) (n : Z) : Prop :=
  match find_char 58 token with
  | Some c =>
      (take c token = s! "*" ∨ safe_stoull (take c token) ≤ n) ∧
      (drop (c + 1) token = s! "*" ∨ n ≤ safe_stoull (drop (c + 1) token))
  | None => token = s! "*" ∨ safe_stoull token = n
  end.

Lemma token_bounds_spec total token n :
  1 ≤ n ≤ total → (token_bounds total token).1 ≤ n ≤ (token_bounds total token).2 ↔ token_covers token n.
Proof.
  intros Hn. unfold token_bounds, token_covers. destruct (find_char 58 token) as [c|].
  - repeat case_bool_decide; simpl; (split; [intros; split; first [by left|right; lia]|]);
      intros [[?|?] [?|?]]; try done; lia.
  - case_bool_decide; simpl; (split; [intros; first [by left|right; lia]|]); intros [?|?]; try done; lia.
Qed.

Lemma expand_token_spec total token n :
  match expand_token total token with Some (s, e) => 1 ≤ s ∧ s ≤ e ∧ e ≤ total | None => True end ∧
  ((∃ s e, expand_token total token = Some (s, e) ∧ s ≤ n ≤ e) ↔ 1 ≤ n ≤ total ∧ token_covers token n).
Proof.
  assert (1 ≤ n ≤ total ∧ token_covers token n ↔
    1 ≤ n ≤ total ∧ (token_bounds total token).1 ≤ n ≤ (token_bounds total token).2) as ->.
  { split; intros [? ?]; (split; [done|]); by eapply (token_bounds_spec total). }
  unfold expand_token. destruct (token_bounds total token) as [s e]. simpl.
  destruct (s <? 1) eqn:?, (e >? total) eqn:?; bool_prop;
    match goal with |- context [if ?a <=? ?b then _ else _] => destruct (Z.leb_spec a b) end;
    (split; [try done; lia|]); split;
    try (intros (? & ? & [= <- <-] & ?); lia); try (intros (? & ? & ? & ?); done); intros ?;
    try (do 2 eexists; split; [done|lia]); lia.
Qed.

Lemma expand_seq_set_bounds seq_set total :
  Forall (λ r, 1 ≤ r.1 ∧ r.1 ≤ r.2 ∧ r.2 ≤ Z.of_nat total) (expand_seq_set seq_set total).
Proof.
  apply Forall_forall. intros [s e] Hr%list_elem_of_In. apply list_elem_of_omap in Hr as (token & _ & Hr).
  destruct token as [|c token]; [done|]. destruct (expand_token_spec (Z.of_nat total) (c :: token) 0) as [H _]. by rewrite Hr in H.
Qed.

(** A sequence set names only messages that exist: every range it expands to
    is inside [1..total], so the loops over it never index outside the mailbox,
    and the numbers covered are exactly those some token of the comma-separated
    list stands for, including ranges, open ends and numbers that do not
    parse. *)
Theorem expand_seq_set_spec (seq_set : bytes) (total : nat) (n : Z) :
  Forall (λ r, 1 ≤ r.1 ∧ r.1 ≤ r.2 ∧ r.2 ≤ Z.of_nat total) (expand_seq_set seq_set total) ∧
  ((∃ r, r ∈ expand_seq_set seq_set total ∧ r.1 ≤ n ≤ r.2) ↔
   1 ≤ n ≤ Z.of_nat total ∧
   ∃ token, token ∈ getlines_sep COMMA [] seq_set ∧ token ≠ [] ∧ token_covers token n).
Proof.
  pose proof (λ token, expand_token_spec (Z.of_nat total) token n) as Htok.
  unfold expand_seq_set. split.
  - apply expand_seq_set_bounds.
  - split.
    + intros ([s e] & Hr & Hn). apply list_elem_of_omap in Hr as (token & Hin & Hr).
      destruct token as [|c token]; [done|]. destruct (Htok (c :: token)) as [_ H].
      destruct (proj1 H) as [? ?]; [by eauto|]. split; [done|]. by exists (c :: token).
    + intros [Hn (token & Hin & Hne & Hc)]. destruct (Htok token) as [_ H].
      destruct (proj2 H) as (s & e & Hr & ?); [done|]. exists (s, e). split; [|done].
      apply list_elem_of_omap. exists token. split; [done|]. by destruct token.
Qed.

(** ** Modified UTF-7 round trip *)

Lemma lor_shift a k y : 0 ≤ k → 0 ≤ y < 2 ^ k → Z.lor (a ≪ k) y = a * 2 ^ k + y.
Proof.
  intros Hk Hy. rewrite Z.shiftl_mul_pow2 by lia.
  rewrite Z.add_nocarry_lxor, Z.lxor_lor; [done|..].
  all: apply Z.bits_inj'; intros i Hi; rewrite Z.land_spec, Z.bits_0.
  all: rewrite <-Z.shiftl_mul_pow2 by lia.
  all: destruct (decide (i < k)); [rewrite Z.shiftl_spec_low by lia; done|].
  all: rewrite andb_false_iff; right.
  all: rewrite <-(Z.mod_small y (2 ^ k)) by lia; apply Z.mod_pow2_bits_high; lia.
Qed.

Lemma land_low x k m : 0 ≤ k → m = Z.ones k → Z.land x m = x mod 2 ^ k.
Proof. intros Hk ->. by apply Z.land_ones. Qed.

(** The bit operations of the two codecs as arithmetic. *)
Ltac bits_to_arith :=
  rewrite ?(land_low _ 3 7), ?(land_low _ 4 15), ?(land_low _ 5 31), ?(land_low _ 6 63), ?(land_low _ 8 255),
    ?(land_low _ 10 1023) by (done || lia);
  rewrite ?Z.shiftr_div_pow2 by lia;
  change (2 ^ 3) with 8 in *; change (2 ^ 4) with 16 in *; change (2 ^ 5) with 32 in *; change (2 ^ 6) with 64 in *;
  change (2 ^ 8) with 256 in *; change (2 ^ 10) with 1024 in *; change (2 ^ 12) with 4096 in *;
  change (2 ^ 18) with 262144 in *.

Lemma lor_128 y : 0 ≤ y < 64 → Z.lor 128 y = 128 + y.
Proof. intros. change 128 with (2 ≪ 6) at 1. rewrite lor_shift; lia. Qed.
Lemma lor_192 y : 0 ≤ y < 32 → Z.lor 192 y = 192 + y.
Proof. intros. change 192 with (6 ≪ 5) at 1. rewrite lor_shift; lia. Qed.
Lemma lor_224 y : 0 ≤ y < 16 → Z.lor 224 y = 224 + y.
Proof. intros. change 224 with (14 ≪ 4) at 1. rewrite lor_shift; lia. Qed.
Lemma lor_240 y : 0 ≤ y < 8 → Z.lor 240 y = 240 + y.
Proof. intros. change 240 with (30 ≪ 3) at 1. rewrite lor_shift; lia. Qed.

(** Unicode scalar values and their UTF-8 form. *)
Definition scalar (cp : Z) : bool := (0 <=? cp) && (cp <? 1114112) && negb ((55296 <=? cp) && (cp <=? 57343)).

Definition utf8 (cp : Z) : bytes := if cp <? 65536 then utf8_unit cp else utf8_4 cp.

Ltac divmod :=
  repeat match goal with
  | |- context [?x mod ?m] => lazymatch goal with H : 0 ≤ x mod m < m |- _ => fail | _ => pose proof (Z.mod_pos_bound x m ltac:(lia)) end
  end; Z.to_euclidean_division_equations; lia.

Lemma continuation_utf8 cp r :
  scalar cp = true → 128 ≤ cp →
  ∃ c rest, utf8 cp = c :: rest ∧ 128 ≤ c ∧
    (let '(cp0, extra) := lead c in continuation extra cp0 (rest ++ r)) = Some (cp, r).
Proof.
  unfold scalar, utf8, utf8_unit, utf8_4. intros Hs Hge. bool_prop.
  assert (∀ x, 0 ≤ x mod 64 < 64) as H64 by (intros; apply Z.mod_pos_bound; lia).
  destruct (Z.ltb_spec cp 65536); [rewrite (proj2 (Z.ltb_ge cp 128)) by lia; destruct (Z.ltb_spec cp 2048)|].
  - bits_to_arith. rewrite lor_192, lor_128 by divmod. do 2 eexists. split; [done|]. split; [divmod|].
    unfold lead. rewrite !(proj2 (Z.leb_gt _ _)) by divmod. cbn [app continuation].
    bits_to_arith. rewrite lor_shift by (try apply H64; lia). do 2 f_equal. divmod.
  - bits_to_arith. rewrite lor_224, !lor_128 by divmod. do 2 eexists. split; [done|]. split; [divmod|].
    unfold lead. rewrite (proj2 (Z.leb_gt 240 _)), (proj2 (Z.leb_le 224 _)) by divmod. cbn [app continuation].
    bits_to_arith. rewrite !lor_shift by (try apply H64; lia). do 2 f_equal. divmod.
  - bits_to_arith. rewrite lor_240, !lor_128 by divmod. do 2 eexists. split; [done|]. split; [divmod|].
    unfold lead. rewrite (proj2 (Z.leb_le 240 _)) by divmod. cbn [app continuation].
    bits_to_arith. rewrite !lor_shift by (try apply H64; lia). do 2 f_equal. divmod.
Qed.

Lemma unit_of_be16 u : 0 ≤ u < 65536 → unit_of (Z.land (u ≫ 8) 255) (Z.land u 255) = u.
Proof.
  intros Hu. unfold unit_of. bits_to_arith. rewrite lor_shift by (try (apply Z.mod_pos_bound); lia). divmod.
Qed.

Lemma utf16_plain u r :
  0 ≤ u < 65536 → (55296 <=? u) && (u <=? 57343) = false →
  utf16_to_utf8 (be16 u ++ r) = utf8_unit u ++ utf16_to_utf8 r.
Proof.
  intros Hu Hs. unfold be16. cbn [app utf16_to_utf8]. rewrite unit_of_be16 by done. rewrite Hs.
  replace ((55296 <=? u) && (u <=? 56319)) with false.
  - destruct r as [|c [|d r]]; simpl; by rewrite ?app_nil_r.
  - symmetry. apply andb_false_iff in Hs as [?|?]; apply andb_false_iff; bool_prop; [left|right]; lia.
Qed.

Lemma utf16_pair hi lo r :
  0 ≤ hi < 1024 → 0 ≤ lo < 1024 →
  utf16_to_utf8 (be16 (55296 + hi) ++ be16 (56320 + lo) ++ r) =
  utf8_4 (65536 + hi * 1024 + lo) ++ utf16_to_utf8 r.
Proof.
  intros Hh Hl. unfold be16. cbn [app utf16_to_utf8]. rewrite !unit_of_be16 by lia.
  rewrite (proj2 (Z.leb_le 55296 _)), (proj2 (Z.leb_le _ 56319)) by lia. cbn [andb].
  rewrite Z.shiftl_mul_pow2 by lia. change (2 ^ 10) with 1024. do 2 f_equal.
  replace (65536 + (55296 + hi - 55296) * 1024 + (56320 + lo - 56320)) with (65536 + hi * 1024 + lo) by lia.
  apply to_u32_id. unfold u32_ok. lia.
Qed.

Lemma units_utf16 cp r :
  scalar cp = true → utf16_to_utf8 ((units cp ≫= be16) ++ r) = utf8 cp ++ utf16_to_utf8 r.
Proof.
  unfold scalar, units, utf8. intros Hs. bool_prop. destruct (Z.gtb_spec cp 65535).
  - rewrite (proj2 (Z.ltb_ge _ _)) by lia. cbn [mbind list_bind]. rewrite app_nil_r, <-app_assoc.
    bits_to_arith. change 55296 with (54 ≪ 10) at 1. change 56320 with (55 ≪ 10) at 1.
    rewrite !lor_shift by (try apply Z.mod_pos_bound; lia).
    change (54 * 2 ^ 10) with 55296. change (55 * 2 ^ 10) with 56320.
    rewrite utf16_pair by (apply Z.mod_pos_bound; lia). do 2 f_equal. divmod.
  - rewrite (proj2 (Z.ltb_lt _ _)) by lia. unfold to_u16. rewrite Z.mod_small by (change (2 ^ 16) with 65536; lia).
    cbn [mbind list_bind]. rewrite app_nil_r. apply utf16_plain; [lia|done].
Qed.

Lemma utf16_units cps : Forall (λ cp, scalar cp = true) cps → utf16_to_utf8 ((cps ≫= units) ≫= be16) = cps ≫= utf8.
Proof.
  induction 1 as [|cp cps Hc _ IH]; [done|]. rewrite !bind_cons, bind_app, units_utf16 by done. by rewrite IH.
Qed.

(** The six-bit groups of a byte run, and a decoder without the 32-bit
    accumulator: [r] is the value of the [bits] pending bits. *)
Fixpoint sextets (be : bytes) : list Z :=
  match be with
  | [] => []
  | [a] => [a / 4; a mod 4 * 16]
  | [a; b] => [a / 4; a mod 4 * 16 + b / 16; b mod 16 * 4]
  | a :: b :: c :: be => a / 4 :: a mod 4 * 16 + b / 16 :: b mod 16 * 4 + c / 64 :: c mod 64 :: sextets be
  end.

Fixpoint pending64 (vs : list Z) (r bits : Z) : bytes :=
  match vs with
  | [] => []
  | v :: vs => let r := r * 64 + v in
               if 2 <=? bits then r / 2 ^ (bits - 2) :: pending64 vs (r mod 2 ^ (bits - 2)) (bits - 2)
               else pending64 vs r (bits + 6)
  end.

Lemma three_ind (P : bytes → Prop) :
  P [] → (∀ a, P [a]) → (∀ a b, P [a; b]) → (∀ a b c l, P l → P (a :: b :: c :: l)) → ∀ l, P l.
Proof.
  intros H0 H1 H2 H3. fix IH 1. intros [|a [|b [|c l]]]; [exact H0|apply H1|apply H2|]. apply H3, IH.
Qed.

Lemma flush_groups_sextets be :
  bytes_ok be → flush_groups be = (λ v, kBase64 !!! Z.to_nat v) <$> sextets be.
Proof.
  unfold byte_ok. induction be as [|a|a b|a b c be IH] using three_ind; intros Hb; [done|..].
  all: repeat (apply list.Forall_cons in Hb as [? Hb]).
  all: cbn [flush_groups sextets fmap list_fmap]; unfold enc64; cbv zeta.
  - bits_to_arith. rewrite !Z.shiftl_mul_pow2 by lia. change (2 ^ 16) with 65536.
    do 2 (apply (f_equal2 cons); [do 2 f_equal; divmod|]). done.
  - replace (b ≪ 8) with (b * 256) by (by rewrite Z.shiftl_mul_pow2).
    rewrite lor_shift by lia. bits_to_arith. change (2 ^ 16) with 65536.
    do 3 (apply (f_equal2 cons); [do 2 f_equal; divmod|]). done.
  - replace (b ≪ 8) with (b * 256) by (by rewrite Z.shiftl_mul_pow2).
    rewrite lor_shift by lia. change (2 ^ 16) with 65536.
    replace (a * 65536 + b * 256) with ((a * 256 + b) ≪ 8) by (rewrite Z.shiftl_mul_pow2; lia).
    rewrite lor_shift by lia. bits_to_arith. rewrite IH by done. change (2 ^ 0) with 1.
    do 4 (apply (f_equal2 cons); [do 2 f_equal; divmod|]). done.
Qed.

Lemma pending64_sextets be : bytes_ok be → pending64 (sextets be) 0 0 = be.
Proof.
  unfold byte_ok. induction be as [|a|a b|a b c be IH] using three_ind; intros Hb; [done|..].
  all: repeat (apply list.Forall_cons in Hb as [? Hb]).
  all: cbn [sextets pending64]; simpl (2 <=? _); cbv iota; simpl (_ - _); simpl (0 + 6); simpl (2 ^ _).
  - apply (f_equal2 cons); [divmod|done].
  - do 2 (apply (f_equal2 cons); [divmod|]). done.
  - do 3 (apply (f_equal2 cons); [divmod|]).
    match goal with |- pending64 _ ?r _ = _ => replace r with 0 by divmod end. by apply IH.
Qed.

(** The two tables agree on the letters and digits, that is, below 62. *)
Lemma decode_char v :
  0 ≤ v < 62 →
  (kBase64 !!! Z.to_nat v <? 128) = true ∧ kBase64Decode !!! Z.to_nat (kBase64 !!! Z.to_nat v) = v ∧
  kBase64 !!! Z.to_nat v ≠ HYPHEN.
Proof.
  intros Hv. assert (∀ n, (n < 62)%nat →
    (kBase64 !!! n <? 128) && (kBase64Decode !!! Z.to_nat (kBase64 !!! n) =? Z.of_nat n)
    && negb (kBase64 !!! n =? HYPHEN) = true) as H.
  { intros n Hn. assert (forallb (λ n, (kBase64 !!! n <? 128) &&
      (kBase64Decode !!! Z.to_nat (kBase64 !!! n) =? Z.of_nat n) && negb (kBase64 !!! n =? HYPHEN)) (seq 0 62) = true) as Hall
      by (vm_compute; reflexivity).
    rewrite forallb_forall in Hall. apply Hall, in_seq. lia. }
  specialize (H (Z.to_nat v) ltac:(lia)). bool_prop. rewrite Z2Nat.id in * by lia.
  split_and!; [by apply Z.ltb_lt|done|done].
Qed.

Definition small (v : Z) : bool := (0 <=? v) && (v <? 62).

Lemma decode64_pending vs acc bits r :
  Forall (λ v, small v = true) vs → bits = 0 ∨ bits = 2 ∨ bits = 4 ∨ bits = 6 → acc mod 2 ^ bits = r →
  decode64 ((λ v, kBase64 !!! Z.to_nat v) <$> vs) acc bits = pending64 vs r bits.
Proof.
  intros Hvs. revert acc bits r. induction Hvs as [|v vs Hv _ IH]; intros acc bits r Hbits Hr; [done|].
  unfold small in Hv. bool_prop. destruct (decode_char v) as (H1 & H2 & _); [lia|].
  cbn [fmap list_fmap decode64 pending64]. rewrite H1, H2. rewrite (proj2 (Z.ltb_ge v 0)) by lia.
  rewrite lor_shift by lia. change (2 ^ 6) with 64. unfold to_u32. change (2 ^ 32) with 4294967296.
  bits_to_arith.
  destruct Hbits as [-> | [-> | [-> | ->]]]; subst r.
  - change (8 <=? 0 + 6) with false. change (2 <=? 0) with false. cbv iota. apply IH; [lia|].
    change (2 ^ (0 + 6)) with 64. change (2 ^ 0) with 1. divmod.
  - change (8 <=? 2 + 6) with true. change (2 <=? 2) with true. cbv iota.
    change (2 + 6 - 8) with 0. change (2 - 2) with 0. change (2 ^ 2) with 4. rewrite Z.shiftr_div_pow2 by lia.
    change (2 ^ 0) with 1. apply (f_equal2 cons); [divmod|]. apply IH; [lia|]. change (2 ^ 0) with 1. divmod.
  - change (8 <=? 4 + 6) with true. change (2 <=? 4) with true. cbv iota.
    change (4 + 6 - 8) with 2. change (4 - 2) with 2. change (2 ^ 4) with 16. rewrite Z.shiftr_div_pow2 by lia.
    change (2 ^ 2) with 4. apply (f_equal2 cons); [divmod|]. apply IH; [lia|]. change (2 ^ 2) with 4. divmod.
  - change (8 <=? 6 + 6) with true. change (2 <=? 6) with true. cbv iota.
    change (6 + 6 - 8) with 4. change (6 - 2) with 4. change (2 ^ 6) with 64. rewrite Z.shiftr_div_pow2 by lia.
    change (2 ^ 4) with 16. apply (f_equal2 cons); [divmod|]. apply IH; [lia|]. change (2 ^ 4) with 16. divmod.
Qed.

(** A run of UTF-16 units that avoids the two groups the tables disagree on. *)
Definition run_safe (buf : list Z) : bool := forallb small (sextets (buf ≫= be16)).

Lemma be16_ok buf : bytes_ok (buf ≫= be16).
Proof.
  induction buf as [|u buf IH]; [done|]. rewrite bind_cons. apply Forall_app. split; [|done].
  unfold be16, byte_ok. bits_to_arith. repeat constructor; apply Z.mod_pos_bound; lia.
Qed.

Lemma find_hyphen buf r :
  run_safe buf = true →
  find_char HYPHEN (flush_groups (buf ≫= be16) ++ HYPHEN :: r) = Some (length (flush_groups (buf ≫= be16))).
Proof.
  intros Hs. apply find_char_app_l. rewrite flush_groups_sextets by apply be16_ok.
  rewrite list_elem_of_fmap. intros (v & Hv & Hin). unfold run_safe in Hs. rewrite forallb_forall in Hs.
  apply list_elem_of_In in Hin. specialize (Hs v Hin). unfold small in Hs. bool_prop.
  destruct (decode_char v) as (_ & _ & ?); [lia|]. congruence.
Qed.

(** What [decode_mailbox_name] makes of a flushed run. *)
Lemma decode_flush cps fuel r :
  cps ≠ [] → Forall (λ cp, scalar cp = true) cps → run_safe (cps ≫= units) = true →
  (length (flush (cps ≫= units)) ≤ fuel)%nat →
  decode_loop fuel (flush (cps ≫= units) ++ r) = (cps ≫= utf8) ++ decode_loop (fuel - 1) r.
Proof.
  intros Hne Hsc Hs Hf. set (buf := cps ≫= units) in *.
  assert (∃ u us, buf = u :: us) as (u & us & Eb).
  { destruct cps as [|cp cps]; [done|]. unfold buf. rewrite bind_cons. unfold units. destruct (cp >? 65535); eauto. }
  assert (flush buf = AMP :: flush_groups (buf ≫= be16) ++ [HYPHEN]) as Efl by (unfold flush; by rewrite Eb).
  rewrite Efl in *. destruct fuel as [|fuel]; [simpl in Hf; lia|].
  pose proof (find_hyphen buf r Hs) as Hfind. pose proof (flush_groups_sextets _ (be16_ok buf)) as Hg.
  cbn [app decode_loop]. rewrite Z.eqb_refl, <-app_assoc. cbn [app].
  assert (∃ d t, flush_groups (buf ≫= be16) ++ HYPHEN :: r = d :: t ∧ d ≠ HYPHEN) as (d & t & Et & Hd).
  { assert (∃ v vs, sextets (buf ≫= be16) = v :: vs) as (v & vs & Ev)
      by (rewrite Eb, bind_cons; cbn [be16 app]; destruct (us ≫= be16) as [|? ?]; cbn [sextets]; eauto).
    rewrite Hg, Ev. cbn [fmap list_fmap app]. do 2 eexists. split; [done|].
    unfold run_safe in Hs. rewrite Ev in Hs. cbn [forallb] in Hs. bool_prop. unfold small in *. bool_prop.
    by apply decode_char. }
  rewrite Et. rewrite (proj2 (Z.eqb_neq d HYPHEN)) by done. rewrite <-Et, Hfind.
  rewrite take_app_length. replace (drop _ _) with r.
  2:{ rewrite drop_app_ge by lia. by replace (_ + 1 - _)%nat with 1%nat by lia. }
  replace (S fuel - 1)%nat with fuel by lia. f_equal.
  rewrite Hg, (decode64_pending _ 0 0 0), pending64_sextets by
    (first [apply be16_ok|done|by left|by apply Forall_forall, forallb_forall]).
  by apply utf16_units.
Qed.

(** The encoding of a list of code points; [acc] is the run being collected. *)
Fixpoint encoded (acc cps : list Z) : bytes :=
  match cps with
  | [] => flush (acc ≫= units)
  | cp :: cps => if cp <? 128 then flush (acc ≫= units) ++ (if cp =? AMP then [AMP; HYPHEN] else [cp]) ++ encoded [] cps
                 else encoded (acc ++ [cp]) cps
  end.

(** No run of the name uses one of the two groups the tables disagree on. *)
Fixpoint safe_from (acc cps : list Z) : bool :=
  match cps with
  | [] => run_safe (acc ≫= units)
  | cp :: cps => if cp <? 128 then run_safe (acc ≫= units) && safe_from [] cps else safe_from (acc ++ [cp]) cps
  end.

Lemma encode_loop_encoded cps acc fuel :
  Forall (λ cp, scalar cp = true) cps → (length (cps ≫= utf8) ≤ fuel)%nat →
  encode_loop fuel (cps ≫= utf8) (acc ≫= units) = Some (encoded acc cps).
Proof.
  intros Hs. revert acc fuel. induction Hs as [|cp cps Hc Hs IH]; intros acc fuel Hf; [by destruct fuel|].
  rewrite bind_cons in *. cbn [encoded]. destruct (Z.ltb_spec cp 128) as [Hlt|Hge].
  - assert (utf8 cp = [cp]) as E.
    { unfold utf8, utf8_unit. by rewrite (proj2 (Z.ltb_lt cp 65536)), (proj2 (Z.ltb_lt cp 128)) by lia. }
    rewrite E in *. destruct fuel as [|fuel]; [simpl in Hf; lia|]. cbn [app encode_loop].
    rewrite (proj2 (Z.ltb_lt cp 128)) by lia. pose proof (IH [] fuel) as IH'. cbn [mbind list_bind] in IH'.
    rewrite IH' by (simpl in Hf; lia). done.
  - destruct (continuation_utf8 cp (cps ≫= utf8) Hc Hge) as (c & rest & E & H128 & Hcont).
    rewrite E in *. destruct fuel as [|fuel]; [simpl in Hf; lia|]. cbn [app encode_loop].
    rewrite (proj2 (Z.ltb_ge c 128)) by lia. destruct (lead c) as [cp0 extra]. rewrite Hcont. cbn [mbind option_bind].
    replace ((acc ≫= units) ++ units cp) with ((acc ++ [cp]) ≫= units)
      by (rewrite bind_app; f_equal; cbn [mbind list_bind]; by rewrite app_nil_r).
    apply IH. simpl in Hf. rewrite length_app in Hf. lia.
Qed.

Lemma decode_run acc fuel r :
  Forall (λ cp, scalar cp = true) acc → run_safe (acc ≫= units) = true →
  (length (flush (acc ≫= units)) + length r ≤ fuel)%nat →
  ∃ fuel', (length r ≤ fuel')%nat ∧ decode_loop fuel (flush (acc ≫= units) ++ r) = (acc ≫= utf8) ++ decode_loop fuel' r.
Proof.
  intros Ha Hs Hf. destruct acc as [|cp acc]; [exists fuel; split; [simpl in Hf; lia|done]|].
  exists (fuel - 1)%nat. rewrite decode_flush by (done || lia). split; [|done].
  assert (1 ≤ length (flush ((cp :: acc) ≫= units)))%nat; [|lia].
  rewrite bind_cons. unfold units at 1. destruct (cp >? 65535); simpl; lia.
Qed.

Lemma decode_loop_encoded cps acc fuel :
  Forall (λ cp, scalar cp = true) cps → Forall (λ cp, scalar cp = true) acc → safe_from acc cps = true →
  (length (encoded acc cps) ≤ fuel)%nat →
  decode_loop fuel (encoded acc cps) = (acc ≫= utf8) ++ (cps ≫= utf8).
Proof.
  intros Hs. revert acc fuel. induction Hs as [|cp cps Hc Hs IH]; intros acc fuel Ha Hsafe Hf.
  - cbn [encoded safe_from] in *. destruct (decode_run acc fuel []) as (f' & _ & E); try done; [simpl; lia|].
    rewrite app_nil_r in E. rewrite E. by destruct f'.
  - cbn [encoded safe_from] in *. rewrite bind_cons. destruct (Z.ltb_spec cp 128) as [Hlt|Hge].
    + bool_prop. destruct (decode_run acc fuel ((if cp =? AMP then [AMP; HYPHEN] else [cp]) ++ encoded [] cps))
        as (f' & Hf' & ->); [done|done|by rewrite <-length_app|]. f_equal.
      assert (utf8 cp = [cp]) as ->.
      { unfold utf8, utf8_unit. by rewrite (proj2 (Z.ltb_lt cp 65536)), (proj2 (Z.ltb_lt cp 128)) by lia. }
      destruct f' as [|f']; [destruct (cp =? AMP); simpl in Hf'; lia|].
      destruct (Z.eqb_spec cp AMP) as [->|Hne]; simpl in Hf'; cbn [app decode_loop].
      * rewrite Z.eqb_refl. change (HYPHEN =? HYPHEN) with true. cbv iota. f_equal. apply IH; [done|done|lia].
      * rewrite (proj2 (Z.eqb_neq cp AMP)) by done. f_equal. apply IH; [done|done|lia].
    + rewrite IH; [|by apply Forall_app; split; [|constructor]|done|done].
      rewrite bind_app, <-app_assoc. f_equal. cbn [mbind list_bind]. by rewrite app_nil_r.
Qed.

(** A mailbox name in UTF-8 that is not INBOX survives the wire: encoding it
    as modified UTF-7 and decoding the result gives the name back, byte for
    byte, for all characters up to U+10FFFF, surrogate pairs and the ampersand
    included, provided no encoded run uses the six-bit groups 62 and 63. *)
Theorem mailbox_name_roundtrip (cps : list Z)
  (Hs : Forall (λ cp, scalar cp = true) cps)
  (Hinbox : toupper <$> (cps ≫= utf8) ≠ s! "INBOX")
  (Hsafe : safe_from [] cps = true) :
  decode_mailbox_name <$> encode_mailbox_name (cps ≫= utf8) = Some (cps ≫= utf8).
Proof.
  unfold encode_mailbox_name. rewrite bool_decide_eq_false_2 by done.
  rewrite (encode_loop_encoded cps [] _ Hs) by done. simpl. unfold decode_mailbox_name.
  by rewrite (decode_loop_encoded cps []).
Qed.

Lemma mailbox_name_roundtrip_witness :
  let cps := [82; 38; 68; 25910; 20214; 128140; 47] in
  safe_from [] cps = true ∧ encode_mailbox_name (cps ≫= utf8) = Some (s! "R&-D&ZTZO9tg93Iw-/") ∧
  decode_mailbox_name <$> encode_mailbox_name (cps ≫= utf8) = Some (cps ≫= utf8).
Proof.
  intros cps. assert (safe_from [] cps = true) as H by (vm_compute; reflexivity).
  assert (toupper <$> (cps ≫= utf8) ≠ s! "INBOX") as Hi by (vm_compute; discriminate).
  assert (Forall (λ cp, scalar cp = true) cps) as Hs by (repeat constructor).
  split; [exact H|]. split; [vm_compute; reflexivity|]. exact (mailbox_name_roundtrip cps Hs Hi H).
Defined.

(** The decoding table disagrees with the encoding table on the last two
    groups: the plus sign is skipped and the comma reads as 62.  The folder name
    of the one character U+4FE1 (the first character of the Chinese word for
    mail) is sent as ampersand T+E hyphen and reads back as the empty name. *)
Theorem mailbox_name_lost :
  encode_mailbox_name (utf8 20449) = Some (s! "&T+E-") ∧ decode_mailbox_name (s! "&T+E-") = [].
Proof. split; vm_compute; reflexivity. Qed.

(** ** Strings a client can read back

    [read_string] is the reading of an IMAP string: a quoted string with
    backslash escapes, or a literal with its length; the value and the text
    behind it. *)

Fixpoint read_quoted (s : bytes) : option (bytes * bytes) :=
  match s with
  | [] => None
  | c :: t =>
      if c =? DQUOTE then Some ([], t) else
      if c =? BSLASH then
        match t with
        | d :: t => (λ '(v, r), (d :: v, r)) <$> read_quoted t
        | [] => None
        end
      else (λ '(v, r), (c :: v, r)) <$> read_quoted t
  end.

Definition read_string (s : bytes) : option (bytes * bytes) :=
  match s with
  | c :: t =>
      if c =? DQUOTE then read_quoted t else
      if c =? 123 then
        '(n, t) ← from_chars_u64 t;
        match t with
        | 125 :: 13 :: 10 :: t => if (Z.to_nat n <=? length t)%nat then Some (take (Z.to_nat n) t, drop (Z.to_nat n) t) else None
        | _ => None
        end
      else None
  | [] => None
  end.

Lemma read_quoted_escaped v r : read_quoted (escape_quoted v ++ DQUOTE :: r) = Some (v, r).
Proof.
  unfold escape_quoted. induction v as [|c v IH]; [done|]. rewrite bind_cons, <-app_assoc.
  destruct ((c =? DQUOTE) || (c =? BSLASH)) eqn:E.
  - cbn [app read_quoted]. change (BSLASH =? DQUOTE) with false. change (BSLASH =? BSLASH) with true. cbv iota.
    by rewrite IH.
  - bool_prop. cbn [app read_quoted]. rewrite (proj2 (Z.eqb_neq c DQUOTE)), (proj2 (Z.eqb_neq c BSLASH)) by done.
    by rewrite IH.
Qed.

Lemma read_literal v r : Z.of_nat (length v) < 2 ^ 64 → read_string (literal v ++ r) = Some (v, r).
Proof.
  intros Hv. unfold literal. rewrite <-!app_assoc. cbn [app lit].
  change (read_string _) with
    ('(n, t) ← from_chars_u64 (to_string (Z.of_nat (length v)) ++ 125 :: 13 :: 10 :: v ++ r);
     match t with
     | 125 :: 13 :: 10 :: t => if (Z.to_nat n <=? length t)%nat then Some (take (Z.to_nat n) t, drop (Z.to_nat n) t) else None
     | _ => None
     end).
  rewrite from_chars_to_string by (done || (unfold u64_ok; lia)). cbn [mbind option_bind].
  rewrite Nat2Z.id, (proj2 (Nat.leb_le _ _)) by (rewrite length_app; lia).
  by rewrite take_app_length, drop_app_length.
Qed.

(** What the server says about a message cannot be confused with the
    protocol around it: a client that reads an IMAP string recovers every value
    of BODYSTRUCTURE and every body section exactly, whatever bytes it holds
    (quotes, backslashes, line ends, 8-bit text), and stops right behind it. *)
Theorem fetch_strings_exact (v r : bytes) (H : Z.of_nat (length v) < 2 ^ 64) :
  read_string (imap_string v ++ r) = Some (v, r) ∧ read_string (build_fetch_body_response v ++ r) = Some (v, r).
Proof.
  split.
  - unfold imap_string. destruct (existsb _ v); [by apply read_literal|].
    unfold in_quotes. rewrite <-!app_assoc. apply (read_quoted_escaped v r).
  - destruct v as [|c v]; [done|]. by apply read_literal.
Qed.

Lemma fetch_strings_exact_witness :
  let v := [34; 92; 10; 200] in
  Z.of_nat (length v) < 2 ^ 64 ∧ read_string (imap_string v ++ s! " NIL)") = Some (v, s! " NIL)") ∧
  read_string (build_fetch_body_response v ++ s! " NIL)") = Some (v, s! " NIL)").
Proof.
  intros v. assert (Z.of_nat (length v) < 2 ^ 64) as H by (vm_compute; reflexivity).
  split; [exact H|]. exact (fetch_strings_exact v (s! " NIL)") H).
Defined.

Lemma read_quoted_plain a t :
  DQUOTE ∉ a → BSLASH ∉ a → read_quoted (a ++ DQUOTE :: t) = Some (a, t).
Proof.
  induction a as [|c a IH]; [done|]. rewrite !not_elem_of_cons. intros [H1 H2] [H3 H4].
  cbn [app read_quoted]. rewrite (proj2 (Z.eqb_neq c DQUOTE)), (proj2 (Z.eqb_neq c BSLASH)) by done.
  by rewrite IH.
Qed.

(** ENVELOPE does not escape its strings: for a message whose subject holds a
    double quote, the client reads the subject up to that quote, and everything
    the sender wrote behind it is read as protocol. *)
Theorem envelope_not_escaped (date a b from sender reply_to to cc bcc irt mid : bytes)
  (Ha : DQUOTE ∉ a) (Hb : BSLASH ∉ a) :
  ∃ rest,
    build_envelope_string date (a ++ DQUOTE :: b) from sender reply_to to cc bcc irt mid =
      s! "(" ++ or_nil date ++ s! " " ++ rest ∧
    ∃ after, read_string rest = Some (a, b ++ DQUOTE :: after).
Proof.
  unfold build_envelope_string. eexists. split; [done|].
  assert (or_nil (a ++ DQUOTE :: b) = DQUOTE :: a ++ DQUOTE :: b ++ [DQUOTE]) as ->.
  { unfold or_nil, in_quotes. destruct (a ++ DQUOTE :: b) eqn:E; [by destruct a|]. rewrite <-E. simpl.
    by rewrite <-app_assoc. }
  eexists. cbn [app]. rewrite <-app_assoc. cbn [app]. rewrite <-app_assoc. apply (read_quoted_plain a _ Ha Hb).
Qed.

Lemma envelope_not_escaped_witness :
  ∃ rest,
    build_envelope_string [] (s! "a" ++ DQUOTE :: s! " NIL NIL") [] [] [] [] [] [] [] [] =
      s! "(" ++ or_nil [] ++ s! " " ++ rest ∧
    ∃ after, read_string rest = Some (s! "a", s! " NIL NIL" ++ DQUOTE :: after).
Proof.
  apply (envelope_not_escaped [] (s! "a") (s! " NIL NIL") [] [] [] [] [] [] [] []).
  - vm_compute. set_solver.
  - vm_compute. set_solver.
Defined.
