(* ===== verification/Imap.v ===== *)
(** * The IMAP server

    Models [include/mail_system/back/mailServer/fsm/imaps/]: the protocol table
    ([imaps_desc.h]), the session context ([imap_types.hpp]) and the command
    handlers ([traditional_imaps_fsm.tpp]), and the input side of
    [session/imaps_session.tpp] (lines, literals, SASL and IDLE continuations).

    Repositories, authenticator and storage are the environment [CmdEnv] of a
    command: an answer [None] is a callback that never comes or finds the
    session closed.  What a handler does to the outside is the list of
    [ImapAction]s.  [Out] distinguishes what runs inside the handler ([Done])
    from what is posted and runs after it returned ([Later]): draining the
    commands buffered behind a finished one may happen in either place, and the
    code after the call sees the difference.  A deferred step is taken to run
    before more input arrives; input that arrives earlier only lengthens the
    buffer it drains. *)

From S2P Require Import Prelude CString LineFolder SmtpText Mime ImapText FsmEngine.
Import mime_params_detail.

(** ** The protocol table *)

Module St.
Inductive ImapState := INIT | NOT_AUTHENTICATED | AUTHENTICATED | SELECTED | LOGOUT | CLOSED.
End St.
Abbreviation ImapState := St.ImapState.

Inductive ImapEvent :=
  | CONNECT | CAPABILITY | LOGIN | AUTHENTICATE | LOGOUT | SELECT | EXAMINE | CREATE | DELETE | RENAME
  | SUBSCRIBE | UNSUBSCRIBE | LIST | LSUB | IMAP_STATUS | APPEND | CHECK | CLOSE | EXPUNGE | SEARCH
  | FETCH | STORE | COPY | MOVE | UID | NOOP | IDLE | DONE | STARTTLS | ERROR | TIMEOUT.

#[export] Instance ImapState_eq_dec : EqDecision ImapState.
Proof. solve_decision. Defined.
#[export] Instance ImapEvent_eq_dec : EqDecision ImapEvent.
Proof. solve_decision. Defined.

Definition imap_commands : list (bytes * ImapEvent) :=
  [(s! "CAPABILITY", CAPABILITY); (s! "LOGIN", LOGIN); (s! "AUTHENTICATE", AUTHENTICATE); (s! "LOGOUT", LOGOUT);
   (s! "SELECT", SELECT); (s! "EXAMINE", EXAMINE); (s! "CREATE", CREATE); (s! "DELETE", DELETE);
   (s! "RENAME", RENAME); (s! "SUBSCRIBE", SUBSCRIBE); (s! "UNSUBSCRIBE", UNSUBSCRIBE); (s! "LIST", LIST);
   (s! "LSUB", LSUB); (s! "STATUS", IMAP_STATUS); (s! "APPEND", APPEND); (s! "CHECK", CHECK);
   (s! "CLOSE", CLOSE); (s! "EXPUNGE", EXPUNGE); (s! "SEARCH", SEARCH); (s! "FETCH", FETCH);
   (s! "STORE", STORE); (s! "COPY", COPY); (s! "MOVE", MOVE); (s! "UID", UID); (s! "NOOP", NOOP);
   (s! "IDLE", IDLE); (s! "DONE", DONE); (s! "STARTTLS", STARTTLS)].

Definition stay (s : ImapState) (evs : list ImapEvent) : list (GuardRow ImapState ImapEvent) :=
  (λ ev, mkRow s ev (Some s)) <$> evs.

Definition make_imaps_desc (allow_starttls : bool) : Desc ImapState ImapEvent :=
  mkDesc imap_commands
    ([mkRow St.INIT CONNECT (Some St.NOT_AUTHENTICATED)]
     ++ stay St.NOT_AUTHENTICATED [CAPABILITY; LOGIN]
     ++ [mkRow St.NOT_AUTHENTICATED LOGIN (Some St.AUTHENTICATED)]
     ++ stay St.NOT_AUTHENTICATED [AUTHENTICATE]
     ++ [mkRow St.NOT_AUTHENTICATED AUTHENTICATE (Some St.AUTHENTICATED)]
     ++ stay St.NOT_AUTHENTICATED [NOOP]
     ++ [mkRow St.NOT_AUTHENTICATED LOGOUT (Some St.LOGOUT);
         mkRow St.AUTHENTICATED SELECT (Some St.SELECTED);
         mkRow St.AUTHENTICATED EXAMINE (Some St.SELECTED)]
     ++ stay St.AUTHENTICATED [CAPABILITY; LIST; LSUB; IMAP_STATUS; CREATE; DELETE; RENAME; SUBSCRIBE;
                               UNSUBSCRIBE; APPEND; CHECK; CLOSE; NOOP; IDLE; DONE]
     ++ [mkRow St.AUTHENTICATED LOGOUT (Some St.LOGOUT)]
     ++ stay St.SELECTED [FETCH; STORE; SEARCH; COPY; MOVE; UID; EXPUNGE; SELECT; EXAMINE]
     ++ [mkRow St.SELECTED CLOSE (Some St.AUTHENTICATED)]
     ++ stay St.SELECTED [CHECK; CAPABILITY; IMAP_STATUS; NOOP; APPEND; IDLE; DONE]
     ++ [mkRow St.SELECTED LOGOUT (Some St.LOGOUT)]
     ++ (if allow_starttls then stay St.NOT_AUTHENTICATED [STARTTLS] else [])
     ++ ([St.INIT; St.NOT_AUTHENTICATED; St.AUTHENTICATED; St.SELECTED] ≫= λ s,
           [mkRow s ERROR None; mkRow s TIMEOUT None]))
    (s! "* BAD Invalid command sequence") 0 (s! "* OK IMAP4rev1 Server Ready" ++ CRLF)
    (s! "* NO Internal server error") [St.LOGOUT; St.CLOSED] (λ _ _, []) (λ _ _, []).

(** The cells [register_handlers] fills. *)
Definition registered (allow_starttls : bool) : list (ImapState * ImapEvent) :=
  [(St.INIT, CONNECT)]
  ++ (pair St.NOT_AUTHENTICATED <$>
        [CAPABILITY; LOGIN; AUTHENTICATE; NOOP; LOGOUT; ERROR; TIMEOUT] ++ (if allow_starttls then [STARTTLS] else []))
  ++ (pair St.AUTHENTICATED <$>
        [CAPABILITY; SELECT; EXAMINE; LIST; LSUB; IMAP_STATUS; CREATE; DELETE; RENAME; SUBSCRIBE; UNSUBSCRIBE;
         APPEND; CHECK; CLOSE; NOOP; IDLE; DONE; LOGOUT; ERROR; TIMEOUT])
  ++ (pair St.SELECTED <$>
        [FETCH; STORE; SEARCH; COPY; MOVE; UID; EXPUNGE; SELECT; EXAMINE; CLOSE; CHECK; APPEND; CAPABILITY;
         IMAP_STATUS; NOOP; IDLE; DONE; LOGOUT; ERROR; TIMEOUT]).

(** ** The session *)

Record Identity := mkId {
  is_authenticated : bool;
  username : bytes;
  user_id : Z;
  shard_index : Z;
}.

Record Selection := mkSel {
  mailbox_selected : bool;
  selected_mailbox_name : bytes;
  selected_mailbox_id : Z;
  uid_validity : Z;
  announced_exists : Z;
  read_only : bool;
}.

Record ImapContext := mkCtx {
  identity : Identity;
  current_tag : bytes;
  selection : Selection;
  idle_mode : bool;
  idle_poll_inflight : bool;
  sasl_plain_state : Z;
  sasl_plain_response : bytes;
  is_uid_command : bool;
  uid_overridden_args : bytes;
  pending_append_preamble : bytes;
}.

Definition nobody : Identity := mkId false [] 0 0.
Definition no_selection : Selection := mkSel false [] 0 0 0 false.

Definition new_context : ImapContext := mkCtx nobody [] no_selection false false 0 [] false [] [].

(** [ImapContext::clear]: the UID fields stay. *)
Definition clear (c : ImapContext) : ImapContext :=
  mkCtx nobody [] no_selection false false 0 [] (is_uid_command c) (uid_overridden_args c) [].

(** The parser's fields of [ImapsSession]. *)
Record Reader := mkReader {
  awaiting_literal : bool;
  expected_literal_size : nat;
  literal_data_buffer : bytes;
  cmd_tag : bytes;                        (* [current_tag_] *)
  current_command : bytes;
  last_command_args : bytes;
  command_parsed : bool;
  next_event : ImapEvent;
  idle_done_received : bool;
}.

Record ImapsSession := mkSession {
  state_ : ImapState;
  context_ : ImapContext;
  reader : Reader;
  command_read_buffer : bytes;
  paused : bool;
  reading : bool;                         (* a read is outstanding or follows a write under way *)
  closed : bool;
  auth_attempts : Z;
}.

Definition new_reader : Reader := mkReader false 0 [] [] [] [] false CONNECT false.
Definition new_imap_session : ImapsSession := mkSession St.INIT new_context new_reader [] false false false 0.

Definition set_st (st : ImapState) (s : ImapsSession) : ImapsSession :=
  mkSession st (context_ s) (reader s) (command_read_buffer s) (paused s) (reading s) (closed s) (auth_attempts s).
Definition set_ctx (c : ImapContext) (s : ImapsSession) : ImapsSession :=
  mkSession (state_ s) c (reader s) (command_read_buffer s) (paused s) (reading s) (closed s) (auth_attempts s).
Definition set_reader (r : Reader) (s : ImapsSession) : ImapsSession :=
  mkSession (state_ s) (context_ s) r (command_read_buffer s) (paused s) (reading s) (closed s) (auth_attempts s).
Definition set_buf (b : bytes) (s : ImapsSession) : ImapsSession :=
  mkSession (state_ s) (context_ s) (reader s) b (paused s) (reading s) (closed s) (auth_attempts s).
Definition set_paused (b : bool) (s : ImapsSession) : ImapsSession :=
  mkSession (state_ s) (context_ s) (reader s) (command_read_buffer s) b (reading s) (closed s) (auth_attempts s).
Definition set_reading (b : bool) (s : ImapsSession) : ImapsSession :=
  mkSession (state_ s) (context_ s) (reader s) (command_read_buffer s) (paused s) b (closed s) (auth_attempts s).
Definition set_closed (s : ImapsSession) : ImapsSession :=
  mkSession (state_ s) (context_ s) (reader s) (command_read_buffer s) (paused s) (reading s) true (auth_attempts s).
Definition set_attempts (n : Z) (s : ImapsSession) : ImapsSession :=
  mkSession (state_ s) (context_ s) (reader s) (command_read_buffer s) (paused s) (reading s) (closed s) n.

Definition with_identity (i : Identity) (c : ImapContext) : ImapContext :=
  mkCtx i (current_tag c) (selection c) (idle_mode c) (idle_poll_inflight c) (sasl_plain_state c)
    (sasl_plain_response c) (is_uid_command c) (uid_overridden_args c) (pending_append_preamble c).
Definition with_tag (t : bytes) (c : ImapContext) : ImapContext :=
  mkCtx (identity c) t (selection c) (idle_mode c) (idle_poll_inflight c) (sasl_plain_state c)
    (sasl_plain_response c) (is_uid_command c) (uid_overridden_args c) (pending_append_preamble c).
Definition with_selection (l : Selection) (c : ImapContext) : ImapContext :=
  mkCtx (identity c) (current_tag c) l (idle_mode c) (idle_poll_inflight c) (sasl_plain_state c)
    (sasl_plain_response c) (is_uid_command c) (uid_overridden_args c) (pending_append_preamble c).
Definition with_idle (m inflight : bool) (c : ImapContext) : ImapContext :=
  mkCtx (identity c) (current_tag c) (selection c) m inflight (sasl_plain_state c)
    (sasl_plain_response c) (is_uid_command c) (uid_overridden_args c) (pending_append_preamble c).
Definition with_sasl (st : Z) (r : bytes) (c : ImapContext) : ImapContext :=
  mkCtx (identity c) (current_tag c) (selection c) (idle_mode c) (idle_poll_inflight c) st r
    (is_uid_command c) (uid_overridden_args c) (pending_append_preamble c).
Definition with_uid (u : bool) (args : bytes) (c : ImapContext) : ImapContext :=
  mkCtx (identity c) (current_tag c) (selection c) (idle_mode c) (idle_poll_inflight c) (sasl_plain_state c)
    (sasl_plain_response c) u args (pending_append_preamble c).
Definition with_preamble (p : bytes) (c : ImapContext) : ImapContext :=
  mkCtx (identity c) (current_tag c) (selection c) (idle_mode c) (idle_poll_inflight c) (sasl_plain_state c)
    (sasl_plain_response c) (is_uid_command c) (uid_overridden_args c) p.
Definition with_announced (n : Z) (l : Selection) : Selection :=
  mkSel (mailbox_selected l) (selected_mailbox_name l) (selected_mailbox_id l) (uid_validity l) n (read_only l).

Definition upd_ctx (f : ImapContext → ImapContext) (s : ImapsSession) : ImapsSession := set_ctx (f (context_ s)) s.
Definition upd_sel (f : Selection → Selection) (s : ImapsSession) : ImapsSession :=
  upd_ctx (λ c, with_selection (f (selection c)) c) s.

Definition ident (s : ImapsSession) : Identity := identity (context_ s).
Definition sel (s : ImapsSession) : Selection := selection (context_ s).
Definition args_of (s : ImapsSession) : bytes := last_command_args (reader s).

(** ** What a command asks of its surroundings *)

Record MailInfo := mkMail {              (* [MailboxMailInfo] *)
  mail_id : Z;
  sender : bytes; recipient : bytes; subject : bytes; body_path : bytes;
  is_starred : bool; is_deleted : bool; is_important : bool;
  status : Z;
  send_time : Z;
}.

Record MailboxSummary := mkBox { box_id : Z; box_name : bytes; box_type : Z }.
Record MailboxStats := mkStats { exists_ : Z; unseen : Z; uidnext : Z }.
Record AccountAuthResult := mkAuth { auth_ok : bool; auth_user : Z; auth_shard : Z }.

Record ImapStoreRequest := mkStore {
  store_user : Z; store_mailbox : Z; store_ids : list Z; recipient_fallback : bytes;
  set_seen : option bool; set_flagged : option bool; set_deleted : option bool;
}.
Record ImapCopyMoveRequest := mkCopy {
  source_user : Z; source_mailbox : Z; target_mailbox_id : Z; copy_ids : list Z; move : bool;
}.
Record ImapCopyMoveResult := mkCopied { copy_ok : bool; copied : Z; source_marked : bool }.
Inductive ImapFolderStatus := folder_ok | not_found | protected_mailbox | database_error.
Record ImapFolderResult := mkFolder { folder_status : ImapFolderStatus; may_have_changed : bool }.
Record ImapAppendRequest := mkAppend {
  append_user : Z; append_mailbox : Z; append_subject : bytes; append_body : bytes;
  authenticated_address : bytes; initial_status : Z;
}.
Record ImapAppendResult := mkAppended { append_ok : bool; append_mail_id : Z; append_error : bytes }.

#[export] Instance ImapFolderStatus_eq_dec : EqDecision ImapFolderStatus.
Proof. solve_decision. Defined.

Inductive ImapAction :=
  | Write (data : bytes)
  | Authenticated (user password : bytes) (answer : option AccountAuthResult)
  | GetMailboxes (user : Z)
  | FindMailbox (user : Z) (name : bytes) (answer : option Z)
  | GetMails (user mailbox : Z)
  | GetStats (user mailbox : Z)
  | CountMails (user mailbox : Z)
  | StoreFlags (request : ImapStoreRequest)
  | ExpungeMails (user mailbox : Z)
  | CopyMails (request : ImapCopyMoveRequest)
  | CreateFolder (user : Z) (name : bytes)
  | RemoveFolder (user mailbox : Z)
  | RenameFolder (user mailbox : Z) (name : bytes)
  | AppendMail (request : ImapAppendRequest)
  | ObjectSize (path : bytes)
  | ReadObject (path : bytes)
  | CachePut (user mailbox : Z) (mails : list MailInfo)
  | Invalidate (user mailbox : Z)
  | RegisterWatcher (user : bytes)
  | UnregisterWatcher (user : bytes)
  | ArmPoll
  | StopPoll
  | HandOff                                (* [handoff_starttls] *)
  | CloseAfterFlush
  | CloseNow
  | Undefined.                             (* the C++ code reads outside a string or a vector *)

Record Storage := mkStorage {
  provider : bool;                         (* false: the local files *)
  object_size : bytes → option Z;
  read_all : bytes → option bytes;
  metadata : option (bytes → option bytes);
  body_key : Z → option bytes;             (* [build_mail_body_key]; [None] throws *)
}.

Record CmdEnv := mkEnv {
  e_conn : bool;                           (* [acquire_connection] gives a valid lease *)
  e_conn2 : bool;                          (* the second one of a UID command *)
  e_worker : bool;
  e_authenticator : option (bytes → bytes → option AccountAuthResult);
  e_evp : bytes → option bytes;            (* [EVP_DecodeBlock] *)
  e_mailboxes : Z → option (bool * list MailboxSummary);
  e_find : Z → bytes → option Z;
  e_stats : Z → Z → option MailboxStats;
  e_mails : Z → Z → option (bool * list MailInfo);
  e_mails2 : Z → Z → option (bool * list MailInfo);
  e_list_cache : Z → Z → option (list MailInfo);
  e_has_list_cache : bool;
  e_store : ImapStoreRequest → option bool;
  e_expunge : Z → Z → option bool;
  e_copy : ImapCopyMoveRequest → option ImapCopyMoveResult;
  e_create : Z → bytes → option ImapFolderResult;
  e_remove : Z → Z → option ImapFolderResult;
  e_rename : Z → Z → bytes → option ImapFolderResult;
  e_append : ImapAppendRequest → option ImapAppendResult;
  e_storage : Storage;
  e_fetch_deferred : bool;                 (* some callback of a FETCH runs after the handler returned *)
}.

Record ImapConfig := mkConfig {
  system_domain : bytes;
  is_tls : bool;                           (* [ConnectionType] is [SslConnection] *)
  max_auth_attempts : Z;
}.

(** ** Outcomes *)

Inductive Out :=
  | Now (acts : list ImapAction) (s : ImapsSession)
  | Later (acts : list ImapAction) (s : ImapsSession) (k : ImapsSession → Out).

Definition say (acts : list ImapAction) (o : Out) : Out :=
  match o with
  | Now a s => Now (acts ++ a) s
  | Later a s k => Later (acts ++ a) s k
  end.

Fixpoint and_then (o : Out) (f : ImapsSession → Out) : Out :=
  match o with
  | Now a s => say a (f s)
  | Later a s k => Later a s (λ s, and_then (k s) f)
  end.

(** Code behind a call, run when the call returns. *)
Definition on_return (f : ImapsSession → ImapsSession) (o : Out) : Out :=
  match o with
  | Now a s => Now a (f s)
  | Later a s k => Later a (f s) k
  end.

(** Everything, the posted parts included. *)
Fixpoint finish (o : Out) : list ImapAction * ImapsSession :=
  match o with
  | Now a s => (a, s)
  | Later a s k => let '(a', s') := finish (k s) in (a ++ a', s')
  end.

(** [do_async_write]; its completion starts a read. *)
Definition write (data : bytes) (s : ImapsSession) : Out := Now [Write data] (set_reading true s).

Definition tagged (tag st message : bytes) : bytes := tag ++ s! " " ++ st ++ s! " " ++ message ++ CRLF.
Definition send_tagged (tag st message : bytes) (s : ImapsSession) : Out := write (tagged tag st message) s.
Definition send_untagged (data : bytes) (s : ImapsSession) : Out := write (s! "* " ++ data ++ CRLF) s.
Definition send_continuation (message : bytes) (s : ImapsSession) : Out := write (s! "+ " ++ message ++ CRLF) s.

Definition undefined (s : ImapsSession) : Out := Now [Undefined] (set_closed s).

(** A callback that never comes. *)
Definition waiting (s : ImapsSession) : Out := Now [] s.

Definition has_buffered_input (s : ImapsSession) : bool :=
  if awaiting_literal (reader s) then negb (bool_decide (command_read_buffer s = []))
  else bool_decide (is_Some (find_sub CRLF (command_read_buffer s))).

(** A quoted argument without its quotes. *)
Definition unquote (s : bytes) : bytes :=
  match s with
  | c :: t => if c =? DQUOTE then match find_char DQUOTE t with Some e => take e t | None => s end else s
  | [] => s
  end.

(** [find_mailbox_id_async]: an encoded name is decoded. *)
Definition lookup_name (name : bytes) : bytes :=
  if bool_decide (AMP ∈ name) then match decode_mailbox_name name with [] => name | d => d end else name.

Section Handlers.
Context (cfg : ImapConfig) (env : CmdEnv) (drain : ImapsSession → Out).

Definition tag_of (s : ImapsSession) : bytes := current_tag (context_ s).

(** A reply, then the commands buffered behind it. *)
Definition reply_drain (text : bytes) (s : ImapsSession) : Out := and_then (write text s) drain.
Definition tagged_drain (tag st message : bytes) (s : ImapsSession) : Out := reply_drain (tagged tag st message) s.

(** [executor()->post] *)
Definition post (k : ImapsSession → Out) (s : ImapsSession) : Out := Later [] s k.

(** [Engine::Transition::finish] or [fail]: state, reply, drain. *)
Definition settle (st : ImapState) (text : bytes) (s : ImapsSession) : Out :=
  reply_drain (text ++ CRLF) (set_st st (set_paused false s)).

(** *** Connection, capabilities, login *)

Definition handle_init_connect (s : ImapsSession) : Out :=
  reply_drain (d_greeting (make_imaps_desc (negb (is_tls cfg)))) (set_st St.NOT_AUTHENTICATED s).

Definition handle_capability (s : ImapsSession) : Out :=
  write (s! "* CAPABILITY IMAP4rev1" ++ (if is_tls cfg then [] else s! " STARTTLS")
         ++ s! " IDLE UIDPLUS MOVE AUTH=PLAIN" ++ CRLF ++ tag_of s ++ s! " OK CAPABILITY completed" ++ CRLF) s.

(** User name and password of LOGIN; [None] when [substr] throws. *)
Definition login_args (args : bytes) : option (bytes * bytes) :=
  match find_char SP args with
  | None | Some O => Some (args, [])
  | Some space =>
      '(user, password) ←
        match args with
        | c :: t =>
            if c =? DQUOTE then
              match find_char DQUOTE t with
              | Some e => (* [end_quote] = [e + 1] *)
                  if (length args <? e + 3)%nat then None else Some (take e t, drop (e + 3) args)
              | None => Some ([], [])
              end
            else Some (take space args, drop (space + 1) args)
        | [] => Some ([], [])
        end;
      Some (user, unquote password)
  end.

Definition qualified (user : bytes) : bytes :=
  if negb (bool_decide (user = [])) && negb (bool_decide (64 ∈ user)) then user ++ s! "@" ++ system_domain cfg else user.

Definition start_auth_verify (user password ok_text fail_text : bytes) (s : ImapsSession) : Out :=
  let tag := tag_of s in
  let user := qualified user in
  if negb (e_worker env) then send_tagged tag (s! "NO") (s! "Server not ready") s else
  post (λ s,
    let answer := match e_authenticator env with
                  | None => Some (mkAuth false 0 0)
                  | Some f => f user password
                  end in
    say [Authenticated user password answer]
      match answer with
      | None => waiting s
      | Some r =>
          if auth_ok r then
            settle St.AUTHENTICATED (tag ++ s! " OK " ++ ok_text)
              (upd_ctx (with_identity (mkId true user (auth_user r) (auth_shard r))) s)
          else
            let s := set_attempts (auth_attempts s + 1) s in
            if max_auth_attempts cfg <=? auth_attempts s then Now [CloseAfterFlush] (set_closed s)
            else settle St.NOT_AUTHENTICATED (tag ++ s! " NO " ++ fail_text) s
      end) (set_paused true s).

(** What the exception barrier of the engine answers. *)
Definition internal_error (s : ImapsSession) : Out := write (tag_of s ++ s! " NO Internal server error" ++ CRLF) s.

Definition handle_login (s : ImapsSession) : Out :=
  match login_args (args_of s) with
  | None => internal_error s
  | Some (user, password) => start_auth_verify user password (s! "LOGIN completed") (s! "LOGIN failed") s
  end.

(** The identity and password of a SASL PLAIN message. *)
Definition plain_parts (decoded : bytes) : option (bytes * bytes) :=
  n1 ← find_char 0 decoded;
  n2 ← find_char_from 0 decoded (n1 + 1);
  match find_char_from 0 decoded (n2 + 1) with
  | Some _ => None
  | None => Some (slice decoded (n1 + 1) (n2 - n1 - 1), drop (n2 + 1) decoded)
  end.

Definition verify_sasl_plain (b64 : bytes) (s : ImapsSession) : Out :=
  match plain_parts (base64_decode (e_evp env) b64) with
  | None => send_tagged (tag_of s) (s! "NO") (s! "AUTHENTICATE failed") s
  | Some (user, password) =>
      start_auth_verify user password (s! "AUTHENTICATE completed") (s! "AUTHENTICATE failed") s
  end.

Definition handle_authenticate (s : ImapsSession) : Out :=
  let ctx := context_ s in
  if sasl_plain_state ctx =? 2 then
    let resp := sasl_plain_response ctx in
    let s := upd_ctx (with_sasl 0 []) s in
    if bool_decide (resp = s! "*") then send_tagged (tag_of s) (s! "NO") (s! "AUTHENTICATE aborted") s
    else verify_sasl_plain resp s
  else
    let args := args_of s in
    let '(mechanism, initial) := match find_char SP args with
                                 | Some sp => (take sp args, drop (sp + 1) args)
                                 | None => (args, [])
                                 end in
    let mechanism := toupper <$> mechanism in
    if negb (bool_decide (mechanism = s! "PLAIN")) then
      send_tagged (tag_of s) (s! "NO") (s! "Unsupported authentication mechanism: " ++ mechanism) s
    else match initial with
         | _ :: _ => verify_sasl_plain initial s
         | [] => write (s! "+ " ++ CRLF) (upd_ctx (with_sasl 1 []) s)
         end.

Definition handle_logout (s : ImapsSession) : Out :=
  let tag := tag_of s in
  let s := set_paused false (set_st St.LOGOUT (upd_ctx clear s)) in
  Now [Write (s! "* BYE IMAP4rev1 Server logging out" ++ CRLF ++ tag ++ s! " OK LOGOUT completed" ++ CRLF); CloseNow]
    (set_closed s).

Definition handle_starttls (s : ImapsSession) : Out :=
  Now [Write (tag_of s ++ s! " OK Begin TLS negotiation now" ++ CRLF); HandOff] (set_closed s).

(** *** Mailboxes *)

Definition not_authenticated (s : ImapsSession) : Out := send_tagged (tag_of s) (s! "BAD") (s! "Not authenticated") s.
Definition no_mailbox (s : ImapsSession) : Out := send_tagged (tag_of s) (s! "BAD") (s! "No mailbox selected") s.
Definition no_database (s : ImapsSession) : Out := send_tagged (tag_of s) (s! "NO") (s! "Server database unavailable") s.
Definition server_error (s : ImapsSession) : Out := send_tagged (tag_of s) (s! "NO") (s! "Server error") s.

(** A valid lease and a logged in user; [k] runs with the session paused. *)
Definition with_database (fail : ImapsSession → Out) (k : ImapsSession → Out) (s : ImapsSession) : Out :=
  if negb (is_authenticated (ident s)) then not_authenticated s else
  if negb (e_conn env) then fail s else k (set_paused true s).

(** [find_mailbox_id_async] for the user of the session. *)
Definition find_mailbox (name : bytes) (k : Z → ImapsSession → Out) (s : ImapsSession) : Out :=
  let user := user_id (ident s) in
  let name := lookup_name name in
  let answer := e_find env user name in
  say [FindMailbox user name answer] match answer with None => waiting s | Some id => k id s end.

(** [get_mailbox_stats_cached_async] *)
Definition get_stats (mailbox : Z) (k : MailboxStats → ImapsSession → Out) (s : ImapsSession) : Out :=
  let user := user_id (ident s) in
  say [GetStats user mailbox] match e_stats env user mailbox with None => waiting s | Some st => k st s end.

Definition select_response (tag : bytes) (st : MailboxStats) (l : Selection) (last : bytes) : bytes :=
  s! "* " ++ to_string (exists_ st) ++ s! " EXISTS" ++ CRLF ++ s! "* 0 RECENT" ++ CRLF
  ++ (if 0 <? unseen st
      then s! "* OK [UNSEEN " ++ to_string (to_u64 (exists_ st - unseen st + 1)) ++ s! "]" ++ CRLF else [])
  ++ s! "* OK [UIDVALIDITY " ++ to_string (uid_validity l) ++ s! "]" ++ CRLF
  ++ s! "* OK [UIDNEXT " ++ to_string (uidnext st) ++ s! "]" ++ CRLF ++ last.

(** SELECT and EXAMINE behind the argument. *)
Definition select_mailbox (name : bytes) (ro : bool) (last : bytes → Selection → bytes) (s : ImapsSession) : Out :=
  let tag := tag_of s in
  with_database no_database (find_mailbox name (λ id s,
    if id =? 0 then tagged_drain tag (s! "NO") (s! "Mailbox not found: " ++ name) s else
    let s := upd_sel (λ l, mkSel true name id id (announced_exists l) ro) s in
    get_stats id (λ st s,
      let s := upd_sel (with_announced (exists_ st)) (set_st St.SELECTED s) in
      reply_drain (select_response tag st (sel s) (last tag (sel s))) s) s)) s.

Definition handle_select (s : ImapsSession) : Out :=
  select_mailbox (decode_mailbox_name (unquote (args_of s))) false
    (λ tag l, tag ++ s! " OK [" ++ (if read_only l then s! "READ-ONLY" else s! "READ-WRITE") ++ s! "] SELECT completed" ++ CRLF) s.

Definition handle_examine (s : ImapsSession) : Out :=
  select_mailbox (unquote (args_of s)) true
    (λ tag _, s! "* OK [READ-ONLY]" ++ CRLF ++ tag ++ s! " OK EXAMINE completed" ++ CRLF) s.

(** The lines of LIST; [None] when a stored name makes the encoder read outside it. *)
Fixpoint list_lines (boxes : list MailboxSummary) : option bytes :=
  match boxes with
  | [] => Some []
  | b :: boxes =>
      name ← encode_mailbox_name (box_name b);
      rest ← list_lines boxes;
      let entry attrs := s! "* LIST " ++ attrs ++ s! " " ++ in_quotes (s! "/") ++ s! " " in
      Some ((if box_type b =? 1
             then entry (s! "(\HasNoChildren)") ++ s! "INBOX" ++ CRLF ++ entry (s! "(\HasNoChildren)")
             else entry (s! "()")) ++ quote_string name ++ CRLF ++ rest)
  end.

Fixpoint lsub_lines (boxes : list MailboxSummary) : option bytes :=
  match boxes with
  | [] => Some []
  | b :: boxes =>
      name ← encode_mailbox_name (box_name b);
      rest ← lsub_lines boxes;
      let entry attrs := s! "* LSUB " ++ attrs ++ s! " " ++ in_quotes (s! "/") ++ s! " " in
      Some ((if box_type b =? 1 then entry (s! "(\HasNoChildren)") ++ s! "INBOX" ++ CRLF else [])
            ++ entry (s! "()") ++ quote_string name ++ CRLF ++ rest)
  end.

Definition get_mailboxes (k : bool → list MailboxSummary → ImapsSession → Out) (s : ImapsSession) : Out :=
  let user := user_id (ident s) in
  say [GetMailboxes user] match e_mailboxes env user with None => waiting s | Some (ok, l) => k ok l s end.

Definition handle_list (s : ImapsSession) : Out :=
  let tag := tag_of s in
  with_database no_database (get_mailboxes (λ ok boxes s,
    if negb ok then tagged_drain tag (s! "OK") (s! "LIST completed") s else
    match list_lines boxes with
    | None => undefined s
    | Some lines => reply_drain (lines ++ tagged tag (s! "OK") (s! "LIST completed")) s
    end)) s.

Definition handle_lsub (s : ImapsSession) : Out :=
  let tag := tag_of s in
  with_database no_database (get_mailboxes (λ _ boxes s,
    match lsub_lines boxes with
    | None => undefined s
    | Some lines => reply_drain (lines ++ tagged tag (s! "OK") (s! "LSUB completed")) s
    end)) s.

(** Mailbox and attributes of STATUS. *)
Definition status_args (args : bytes) : bytes * bytes :=
  let '(name, attrs) :=
    match find_char 40 args with
    | None => (args, [])
    | Some p => (drop_while_end is_blank (take p args),
                 match find_char_from 41 args p with Some q => slice args (p + 1) (q - p - 1) | None => [] end)
    end in
  (unquote name, attrs).

Definition is_inbox (name : bytes) : bool := bool_decide (toupper <$> name = s! "INBOX").

Definition status_item (attrs key : bytes) (v : Z) : bytes :=
  if bool_decide (is_Some (find_sub key attrs)) || bool_decide (attrs = []) then key ++ s! " " ++ to_string v ++ s! " " else [].

Definition status_response (name attrs : bytes) (st : MailboxStats) (mailbox : Z) : option bytes :=
  let attrs := toupper <$> attrs in
  encoded ← encode_mailbox_name name;
  let r := s! "* STATUS " ++ quote_string encoded ++ s! " ("
           ++ status_item attrs (s! "MESSAGES") (exists_ st) ++ status_item attrs (s! "UNSEEN") (unseen st)
           ++ status_item attrs (s! "UIDNEXT") (uidnext st) ++ status_item attrs (s! "UIDVALIDITY") mailbox in
  let r := if bool_decide (list.last r = Some SP) then take (length r - 1) r else r in
  Some (r ++ s! ")" ++ CRLF).

Definition handle_status (s : ImapsSession) : Out :=
  let tag := tag_of s in
  let '(name, attrs) := status_args (args_of s) in
  if negb (is_authenticated (ident s)) then not_authenticated s else
  let decoded := decode_mailbox_name name in
  if mailbox_selected (sel s) &&
     (bool_decide (decoded = selected_mailbox_name (sel s)) ||
      is_inbox decoded && is_inbox (selected_mailbox_name (sel s)))
  then send_tagged tag (s! "NO") (s! "STATUS not allowed on the selected mailbox") s
  else with_database no_database (find_mailbox name (λ id s,
    if id =? 0 then tagged_drain tag (s! "NO") (s! "Mailbox not found") s else
    get_stats id (λ st s,
      match status_response name attrs st id with
      | None => undefined s
      | Some r => reply_drain (r ++ tagged tag (s! "OK") (s! "STATUS completed")) s
      end) s)) s.

(** *** FETCH *)

Definition contains (p s : bytes) : bool := bool_decide (is_Some (find_sub p s)).

(** Sequence set and items; the items end at the first closing parenthesis. *)
Definition fetch_args (args : bytes) : option (bytes * bytes) :=
  sp ← find_char SP args;
  let attrs := drop (sp + 1) args in
  Some (take sp args,
        match attrs with
        | c :: t => if c =? 40 then match find_char 41 t with Some close => take close t | None => attrs end else attrs
        | [] => attrs
        end).

(** The regular expression for a body section at the start of [s]: what is
    inside the brackets ([None]: nothing) and the text behind it. *)
Definition match_section (s : bytes) : option (option bytes * bytes) :=
  if starts_with (s! "BODY") s then
    let s := drop 4 s in
    let s := if starts_with (s! ".PEEK[") s then drop 5 s else s in
    match s with
    | 91 :: 93 :: t => Some (None, t)
    | 91 :: ((d :: _) as t) => if isdigit d then match find_char 93 t with
                                                 | Some e => Some (Some (take e t), drop (e + 1) t)
                                                 | None => None
                                                 end
                               else None
    | _ => None
    end
  else None.

(** The sections of all matches, in order; [None] when one does not parse. *)
Fixpoint body_sections (fuel : nat) (s : bytes) : option (list ImapBodySection) :=
  match fuel, s with
  | S fuel, _ :: t =>
      match match_section s with
      | Some (inside, rest) =>
          sec ← match inside with None => Some (mkSection [] full [] []) | Some i => parse_body_section i end;
          l ← body_sections fuel rest;
          Some (sec :: l)
      | None => body_sections fuel t
      end
  | _, _ => Some []
  end.

Record FetchItems := mkItems {
  want_uid : bool; want_flags : bool; want_internaldate : bool; want_rfc822_size : bool; want_envelope : bool;
  want_body_header : bool; want_body_struct : bool;
  has_header_fields : bool; header_fields_not : bool; header_fields_filter : bytes;
  sections : list ImapBodySection;
}.

Definition fetch_items (is_uid : bool) (attrs : bytes) : option FetchItems :=
  let attrs := toupper <$> attrs in
  let all := contains (s! "ALL") attrs in
  let fast := contains (s! "FAST") attrs in
  let hf := contains (s! "HEADER.FIELDS") attrs in
  let filter :=
    match find_sub (s! "HEADER.FIELDS") attrs with
    | None => []
    | Some p => match find_char_from 40 attrs p with
                | None => []
                | Some lp => match find_char_from 41 attrs lp with
                             | None => []
                             | Some rp => slice attrs (lp + 1) (rp - lp - 1)
                             end
                end
    end in
  secs ← body_sections (length attrs) attrs;
  Some (mkItems (is_uid || contains (s! "UID") attrs) (contains (s! "FLAGS") attrs || all || fast)
    (contains (s! "INTERNALDATE") attrs || all) (contains (s! "RFC822.SIZE") attrs || all || fast)
    (contains (s! "ENVELOPE") attrs || all)
    (hf || contains (s! "BODY.PEEK[HEADER]") attrs || contains (s! "BODY[HEADER]") attrs)
    (contains (s! "BODYSTRUCTURE") attrs)
    hf (hf && contains (s! "HEADER.FIELDS.NOT") attrs) filter secs).

(** The header lines asked for: unfolded lines are looked at one by one. *)
Fixpoint pick_lines (wanted : list bytes) (exclude : bool) (lines : list bytes) : bytes :=
  match lines with
  | [] => []
  | line :: lines =>
      if bool_decide (line = []) || bool_decide (line = [CR]) then [] else
      let line := strip_cr line in
      match find_char 58 line with
      | None => pick_lines wanted exclude lines
      | Some colon =>
          let hit := bool_decide (lower (take colon line) ∈ wanted) in
          (if (if exclude then negb hit else hit) then line ++ CRLF else []) ++ pick_lines wanted exclude lines
      end
  end.

Definition header_item (it : FetchItems) (body : bytes) : bytes :=
  let headers := match find_sub CRLF2 body with Some e => take (e + 2) body | None => body end in
  let '(label, headers) :=
    if has_header_fields it && negb (bool_decide (header_fields_filter it = [])) then
      let wanted := lower <$> words [] (header_fields_filter it) in
      let filtered := pick_lines wanted (header_fields_not it) (getlines [] headers) in
      ((if header_fields_not it then s! "BODY[HEADER.FIELDS.NOT (" else s! "BODY[HEADER.FIELDS (")
         ++ header_fields_filter it ++ s! ")]",
       if (2 <=? length filtered)%nat then take (length filtered - 2) filtered else filtered)
    else (s! "BODY[HEADER]", headers) in
  label ++ s! " " ++ build_fetch_body_response headers ++ s! " ".

Definition section_item (body : bytes) (tree : option MimePart) (sec : ImapBodySection) : bytes :=
  let content := match ImapText.path sec with
                 | [] => body
                 | _ => match tree with Some t => extract_body_section body t sec | None => [] end
                 end in
  s! "BODY[" ++ inside sec ++ s! "] " ++ build_fetch_body_response content ++ s! " ".

Definition meta_of (st : Storage) : option (bytes → option bytes) := metadata st.

(** The cached structure, when it is of the current version. *)
Definition sidecar (m : MailInfo) : option MimePart :=
  match load_mime_tree (meta_of (e_storage env)) (body_path m) with
  | Some t => if kMimeMetadataVersion <=? metadata_version t then Some t else None
  | None => None
  end.

Definition need_body (it : FetchItems) (m : MailInfo) : bool :=
  negb (bool_decide (body_path m = [])) &&
  (want_body_header it || negb (bool_decide (sections it = [])) ||
   (want_body_struct it && match sidecar m with None => true | Some t => mime_tree_has_rfc822 t end)).

Definition struct_item (m : MailInfo) (body : bytes) : bytes :=
  s! "BODYSTRUCTURE " ++
  match sidecar m with
  | Some t => build_bodystructure_tree t body
  | None => match (ensure_mime_tree (meta_of (e_storage env)) (body_path m) body).1 with
            | Some t => build_bodystructure_tree t body
            | None => build_bodystructure body
            end
  end ++ s! " ".

(** The response to one message and the reads it makes. *)
Definition fetch_mail (it : FetchItems) (seq : Z) (m : MailInfo) : list ImapAction * bytes :=
  let st := e_storage env in
  let has_path := negb (bool_decide (body_path m = [])) in
  let size := if has_path then default 0 (object_size st (body_path m)) else 0 in
  let need := need_body it m in
  let body := if need then default [] (read_all st (body_path m)) else [] in
  let tree := if existsb (λ sec, negb (bool_decide (ImapText.path sec = []))) (sections it)
              then (ensure_mime_tree (meta_of st) (body_path m) body).1 else None in
  let text :=
    s! "* " ++ to_string seq ++ s! " FETCH ("
    ++ (if want_uid it then s! "UID " ++ to_string (mail_id m) ++ s! " " else [])
    ++ (if want_flags it then s! "FLAGS (" ++ build_flags_string (status m) (is_starred m) (is_deleted m) (is_important m)
                              ++ s! ") " else [])
    ++ (if want_internaldate it then s! "INTERNALDATE " ++ in_quotes (imap_timestamp (send_time m)) ++ s! " " else [])
    ++ (if want_rfc822_size it then s! "RFC822.SIZE " ++ to_string size ++ s! " " else [])
    ++ (if want_envelope it then
          s! "ENVELOPE " ++ build_envelope_string (imap_date (gmtime (send_time m))) (subject m) (sender m) (sender m) []
            (recipient m) [] [] [] (to_string (mail_id m)) ++ s! " " else [])
    ++ (if want_body_header it then header_item it body else [])
    ++ concat (section_item body tree <$> sections it)
    ++ (if want_body_struct it then struct_item m body else []) in
  let text := if bool_decide (list.last text = Some SP) then take (length text - 1) text else text in
  ((if want_rfc822_size it && has_path then [ObjectSize (body_path m)] else [])
     ++ (if need then [ReadObject (body_path m)] else []),
   text ++ s! ")" ++ CRLF).

(** [FetchContext::advance]: [range_idx] and [cur_seq] (0: take the next range). *)
Fixpoint advance (fuel : nat) (ranges : list (Z * Z)) (total : nat) (idx : nat) (cur : Z) : option (nat * Z) :=
  match fuel with
  | O => None
  | S fuel =>
      let first := if cur =? 0 then ranges !! idx else Some (0, 0) in
      match first with
      | None => None
      | Some (f, _) =>
          let cur := if cur =? 0 then f else cur in
          match ranges !! idx with
          | None => None                   (* not reached: [idx] is a range here *)
          | Some (_, e) => if (cur >? e) || (cur >? Z.of_nat total) then advance fuel ranges total (S idx) 0
                           else Some (idx, cur)
          end
      end
  end.

(** [fetch_drive]: the numbers of the messages answered, in order. *)
Fixpoint fetch_drive (fuel : nat) (ranges : list (Z * Z)) (total : nat) (idx : nat) (cur : Z) : list Z :=
  match fuel with
  | O => []
  | S fuel =>
      match advance (S (length ranges)) ranges total idx cur with
      | None => []
      | Some (idx, cur) => cur :: fetch_drive fuel ranges total idx (cur + 1)
      end
  end.

(** Every range is inside the mailbox, so this many rounds are enough. *)
Definition fetch_order (ranges : list (Z * Z)) (total : nat) : list Z :=
  fetch_drive (S (length ranges * total)) ranges total 0 0.

(** The messages at the numbers; [None] when a number is outside the vector. *)
Definition mails_at (mails : list MailInfo) (seqs : list Z) : option (list (Z * MailInfo)) :=
  mapM (λ n, if n <? 1 then None else (λ m, (n, m)) <$> mails !! Z.to_nat (n - 1)) seqs.

(** [fetch_finalize]: the drain is in the completion of the write, which comes
    at once when more input is buffered. *)
Definition fetch_finalize (acts : list ImapAction) (response tag : bytes) (s : ImapsSession) : Out :=
  say acts (and_then (write (response ++ tagged tag (s! "OK") (s! "FETCH completed")) s)
              (λ s, if has_buffered_input s then drain s else post drain s)).

Definition fetch_from_mails (tag : bytes) (is_uid : bool) (seq_set attrs : bytes) (mails : list MailInfo)
    (s : ImapsSession) : Out :=
  match fetch_items is_uid attrs with
  | None => tagged_drain tag (s! "BAD") (s! "Invalid BODY section") s
  | Some it =>
      match expand_seq_set seq_set (length mails) with
      | [] => tagged_drain tag (s! "OK") (s! "FETCH completed") s
      | ranges =>
          match mails_at mails (fetch_order ranges (length mails)) with
          | None => undefined s
          | Some l =>
              let rs := (λ '(n, m), fetch_mail it n m) <$> l in
              let acts := concat (fst <$> rs) in
              (* an asynchronous read pauses the session *)
              let s := if provider (e_storage env) && negb (bool_decide (acts = [])) then set_paused true s else s in
              let final := fetch_finalize acts (concat (snd <$> rs)) tag in
              if e_fetch_deferred env then post final (set_paused true s) else final s
          end
      end
  end.

Definition kMailboxListCacheMaxMails : nat := 1000.

(** [get_mailbox_mails_async]: the answer is a parameter, UID commands ask twice. *)
Definition get_mails (answer : Z → Z → option (bool * list MailInfo)) (k : bool → list MailInfo → ImapsSession → Out)
    (s : ImapsSession) : Out :=
  let user := user_id (ident s) in
  let mailbox := selected_mailbox_id (sel s) in
  say [GetMails user mailbox]
    match answer user mailbox with None => waiting s | Some (ok, l) => k ok l s end.

(** The arguments a handler reads: those UID translated, or the command's. *)
Definition effective_args (s : ImapsSession) : bytes :=
  if is_uid_command (context_ s) then uid_overridden_args (context_ s) else args_of s.

Definition selected_ok (s : ImapsSession) : bool := is_authenticated (ident s) && mailbox_selected (sel s).

(** [conn] and [mails] answer this call: the second ones inside a UID command. *)
Definition handle_fetch (conn : bool) (mails : Z → Z → option (bool * list MailInfo)) (is_uid : bool)
    (s : ImapsSession) : Out :=
  let tag := tag_of s in
  if negb (selected_ok s) then no_mailbox s else
  match fetch_args (effective_args s) with
  | None => send_tagged tag (s! "BAD") (s! "FETCH requires arguments") s
  | Some (seq_set, attrs) =>
      let user := user_id (ident s) in
      let mailbox := selected_mailbox_id (sel s) in
      match (if e_has_list_cache env then e_list_cache env user mailbox else None) with
      | Some l => fetch_from_mails tag is_uid seq_set attrs l s
      | None =>
          if negb conn then no_database s else
          get_mails mails (λ ok l s,
            if negb ok || bool_decide (length l = 0%nat) then tagged_drain tag (s! "OK") (s! "FETCH completed (empty)") s else
            say (if e_has_list_cache env && (length l <=? kMailboxListCacheMaxMails)%nat
                 then [CachePut user mailbox l] else [])
              (fetch_from_mails tag is_uid seq_set attrs l s)) (set_paused true s)
      end
  end.

(** *** STORE *)

(** [invalidate_mailbox_list] *)
Definition invalidate (user mailbox : Z) : list ImapAction := [Invalidate user mailbox].

Record StoreArgs := mkStoreArgs {
  st_set : bytes; silent : bool; flag_seen : bool; flag_flagged : bool; flag_deleted : bool; add : bool; remove : bool;
}.

Definition store_args (args : bytes) : bytes + StoreArgs :=
  match find_char SP args with
  | None => inl (s! "STORE requires arguments")
  | Some sp1 =>
      let rest := drop (sp1 + 1) args in
      match find_char SP rest with
      | None => inl (s! "STORE requires flags")
      | Some sp2 =>
          let cmd := take sp2 rest in
          let upper := toupper <$> cmd in
          let quiet := contains (s! "SILENT") upper in
          let cmd := if quiet then
                       if contains (s! "-FLAGS") upper then s! "-FLAGS" else
                       if contains (s! "+FLAGS") upper then s! "+FLAGS" else
                       if contains (s! "FLAGS") upper then s! "FLAGS" else cmd
                     else cmd in
          let part := drop (sp2 + 1) rest in
          let part := match part with
                      | c :: t => if c =? 40 then match find_char 41 t with Some e => take e t | None => part end else part
                      | [] => part
                      end in
          let flags := toupper <$> part in
          inr (mkStoreArgs (take sp1 args) quiet (contains (s! "\SEEN") flags) (contains (s! "\FLAGGED") flags)
                 (contains (s! "\DELETED") flags)
                 (bool_decide (43 ∈ cmd) || (contains (s! "FLAGS") cmd && negb (bool_decide (hd_error cmd = Some 45))))
                 (bool_decide (45 ∈ cmd)))
      end
  end.

(** The numbers of all ranges, in order (the nested loops of STORE). *)
Definition range_numbers (r : Z * Z) : list Z := seqZ (fst r) (snd r - fst r + 1).
Definition set_numbers (ranges : list (Z * Z)) : list Z := ranges ≫= range_numbers.

(** The flags of a message as the response reports them. *)
Definition flags_after (a : StoreArgs) (m : MailInfo) : bytes :=
  let st := if add a && flag_seen a then 0 else status m in
  let st := if remove a && flag_seen a then 1 else st in
  let pick (f : bool) (old : bool) := if add a && f then true else if remove a && f then false else old in
  build_flags_string st (pick (flag_flagged a) (is_starred m)) (pick (flag_deleted a) (is_deleted m)) (is_important m).

Definition store_request (a : StoreArgs) (s : ImapsSession) (l : list (Z * MailInfo)) : ImapStoreRequest :=
  let flag (f : bool) := if f then Some (add a) else None in
  mkStore (user_id (ident s)) (selected_mailbox_id (sel s)) ((λ p, mail_id (snd p)) <$> l) (username (ident s))
    (flag (flag_seen a)) (flag (flag_flagged a)) (flag (flag_deleted a)).

Definition store_response (a : StoreArgs) (l : list (Z * MailInfo)) : bytes :=
  if silent a then [] else
  concat ((λ p, s! "* " ++ to_string (fst p) ++ s! " FETCH (FLAGS (" ++ flags_after a (snd p) ++ s! "))" ++ CRLF) <$> l).

Definition handle_store (conn : bool) (mails : Z → Z → option (bool * list MailInfo)) (s : ImapsSession) : Out :=
  let tag := tag_of s in
  if negb (selected_ok s) then no_mailbox s else
  match store_args (effective_args s) with
  | inl m => send_tagged tag (s! "BAD") m s
  | inr a =>
      if negb conn then no_database s else
      get_mails mails (λ ok l s,
        if negb ok || bool_decide (length l = 0%nat) then
          post (tagged_drain tag (if ok then s! "OK" else s! "NO")
                  (if ok then s! "STORE completed" else s! "STORE failed: database error")) s
        else
          match expand_seq_set (st_set a) (length l) with
          | [] => post (tagged_drain tag (s! "OK") (s! "STORE completed")) s
          | ranges =>
              match mails_at l (set_numbers ranges) with
              | None => undefined s
              | Some sel_mails =>
                  let req := store_request a s sel_mails in
                  say [StoreFlags req]
                    match e_store env req with
                    | None => waiting s
                    | Some done =>
                        post (λ s, say (invalidate (store_user req) (store_mailbox req))
                          (if done then reply_drain (store_response a sel_mails ++ tagged tag (s! "OK") (s! "STORE completed")) s
                           else tagged_drain tag (s! "NO") (s! "STORE failed: database error") s)) s
                    end
              end
          end) (set_paused true s)
  end.

(** *** EXPUNGE, CLOSE, NOOP, CHECK *)

Definition expunged_seqs (l : list MailInfo) : list Z :=
  omap (λ p, if is_deleted (snd p) then Some (Z.of_nat (fst p) + 1) else None) (imap pair l).

Definition handle_expunge (s : ImapsSession) : Out :=
  let tag := tag_of s in
  if negb (selected_ok s) then no_mailbox s else
  if negb (e_conn env) then no_database s else
  get_mails (e_mails env) (λ ok l s,
    if negb ok then post (tagged_drain tag (s! "NO") (s! "Server error")) s else
    let seqs := expunged_seqs l in
    let user := user_id (ident s) in
    let mailbox := selected_mailbox_id (sel s) in
    say [ExpungeMails user mailbox]
      match e_expunge env user mailbox with
      | None => waiting s
      | Some done =>
          post (λ s, say (invalidate user mailbox)
            (if done then
               let gone := Z.of_nat (length seqs) in
               let n := announced_exists (sel s) in
               reply_drain
                 (concat ((λ n, s! "* " ++ to_string n ++ s! " EXPUNGE" ++ CRLF) <$> seqs)
                  ++ tagged tag (s! "OK") (s! "EXPUNGE completed"))
                 (upd_sel (with_announced (if n >? gone then n - gone else 0)) s)
             else tagged_drain tag (s! "NO") (s! "EXPUNGE failed: database error") s)) s
      end) (set_paused true s).

(** The state CLOSE leaves. *)
Definition deselect (s : ImapsSession) : ImapsSession :=
  set_st St.AUTHENTICATED (upd_sel (λ l, mkSel false [] 0 (uid_validity l) 0 false) s).

Definition handle_close (s : ImapsSession) : Out :=
  let tag := tag_of s in
  if bool_decide (state_ s = St.SELECTED) then
    if negb (e_conn env) then send_tagged tag (s! "NO") (s! "CLOSE failed: database unavailable") s else
    let s := set_paused true s in
    let user := user_id (ident s) in
    let mailbox := selected_mailbox_id (sel s) in
    say [ExpungeMails user mailbox]
      match e_expunge env user mailbox with
      | None => waiting s
      | Some done =>
          post (λ s, say (invalidate user mailbox)
            (if done then tagged_drain tag (s! "OK") (s! "CLOSE completed") (deselect s)
             else tagged_drain tag (s! "NO") (s! "CLOSE failed: database error") s)) s
      end
  else send_tagged tag (s! "OK") (s! "CLOSE completed") (deselect s).

Definition handle_noop (s : ImapsSession) : Out :=
  let tag := tag_of s in
  let ok := tagged tag (s! "OK") (s! "NOOP completed") in
  if mailbox_selected (sel s) && bool_decide (state_ s = St.SELECTED) && e_conn env then
    get_stats (selected_mailbox_id (sel s)) (λ st s,
      if exists_ st >? announced_exists (sel s) then
        reply_drain (s! "* " ++ to_string (exists_ st) ++ s! " EXISTS" ++ CRLF ++ ok)
          (upd_sel (with_announced (exists_ st)) s)
      else reply_drain ok s) (set_paused true s)
  else write ok s.

Definition handle_check (s : ImapsSession) : Out := send_tagged (tag_of s) (s! "OK") (s! "CHECK completed") s.
Definition handle_subscribe (s : ImapsSession) : Out := send_tagged (tag_of s) (s! "OK") (s! "SUBSCRIBE completed") s.
Definition handle_unsubscribe (s : ImapsSession) : Out := send_tagged (tag_of s) (s! "OK") (s! "UNSUBSCRIBE completed") s.

(** *** CREATE, DELETE, RENAME *)

Definition handle_create (s : ImapsSession) : Out :=
  let tag := tag_of s in
  let name := unquote (args_of s) in
  if negb (is_authenticated (ident s)) then not_authenticated s else
  if bool_decide (name = []) then send_tagged tag (s! "BAD") (s! "CREATE requires mailbox name") s else
  with_database server_error (λ s,
    let user := user_id (ident s) in
    let name := decode_mailbox_name name in
    say [CreateFolder user name]
      match e_create env user name with
      | None => waiting s
      | Some r => post (λ s, if bool_decide (folder_status r = folder_ok)
                             then tagged_drain tag (s! "OK") (s! "CREATE completed") s
                             else tagged_drain tag (s! "NO") (s! "CREATE failed (maybe already exists)") s) s
      end) s.

Definition folder_done (user mailbox : Z) (r : ImapFolderResult) (tag st message : bytes) (s : ImapsSession) : Out :=
  say (if may_have_changed r then invalidate user mailbox else []) (tagged_drain tag st message s).

Definition handle_delete (s : ImapsSession) : Out :=
  let tag := tag_of s in
  with_database server_error (find_mailbox (unquote (args_of s)) (λ id s,
    if id =? 0 then post (tagged_drain tag (s! "NO") (s! "Mailbox not found")) s else
    let user := user_id (ident s) in
    say [RemoveFolder user id]
      match e_remove env user id with
      | None => waiting s
      | Some r =>
          post (folder_done user id r tag
                  (match folder_status r with folder_ok => s! "OK" | _ => s! "NO" end)
                  (match folder_status r with
                   | folder_ok => s! "DELETE completed"
                   | protected_mailbox => s! "Cannot delete system mailbox"
                   | not_found => s! "Mailbox not found"
                   | database_error => s! "DELETE failed"
                   end)) s
      end)) s.

Definition handle_rename (s : ImapsSession) : Out :=
  let tag := tag_of s in
  if negb (is_authenticated (ident s)) then not_authenticated s else
  let '(old, new) := match find_char SP (args_of s) with
                     | Some sp => (unquote (take sp (args_of s)), unquote (drop (sp + 1) (args_of s)))
                     | None => ([], [])
                     end in
  if bool_decide (old = []) || bool_decide (new = []) then
    send_tagged tag (s! "BAD") (s! "RENAME requires old and new names") s
  else
  let new := decode_mailbox_name new in
  with_database server_error (find_mailbox old (λ id s,
    if id =? 0 then post (tagged_drain tag (s! "NO") (s! "Mailbox not found")) s else
    let user := user_id (ident s) in
    say [RenameFolder user id new]
      match e_rename env user id new with
      | None => waiting s
      | Some r =>
          post (folder_done user id r tag
                  (match folder_status r with folder_ok => s! "OK" | _ => s! "NO" end)
                  (match folder_status r with folder_ok => s! "RENAME completed" | _ => s! "RENAME failed" end)) s
      end)) s.

(** *** APPEND *)

(** Mailbox and flags of the text in front of the literal. *)
Definition append_preamble (p : bytes) : bytes * bytes :=
  let flags rest :=
    match drop_while is_blank rest with
    | (c :: _) as r => if c =? 40 then match find_char 41 r with Some e => take (e + 1) r | None => [] end else []
    | [] => []
    end in
  match p with
  | c :: t =>
      if c =? DQUOTE then
        match find_char DQUOTE t with
        | Some e => (take e t, flags (drop (e + 1) t))
        | None => ([], [])
        end
      else match find_char SP p with
           | Some sp => (take sp p, flags (drop (sp + 1) p))
           | None => (p, [])
           end
  | [] => ([], [])
  end.

Definition append_status (flags : bytes) : Z :=
  let st := if contains (s! "\Seen") flags || contains (s! "\seen") flags then 0 else
            if contains (s! "\Unseen") flags || contains (s! "\Draft") flags then 1 else 0 in
  if contains (s! "\Deleted") flags then 5 else st.

Definition append_subject_of (body : bytes) : bytes :=
  match find (λ line, starts_with (s! "Subject:") line || starts_with (s! "subject:") line) (getlines [] body) with
  | Some line => drop_while is_blank (drop 8 line)
  | None => s! "(APPEND)"
  end.

Definition handle_append (s : ImapsSession) : Out :=
  let tag := tag_of s in
  let preamble := pending_append_preamble (context_ s) in
  if negb (is_authenticated (ident s)) then not_authenticated s else
  if bool_decide (preamble = []) then send_tagged tag (s! "BAD") (s! "APPEND missing preamble") s else
  let s := upd_ctx (with_preamble []) s in
  let '(name, flags) := append_preamble preamble in
  let body := args_of s in
  let entry := state_ s in
  with_database no_database (find_mailbox (decode_mailbox_name name) (λ id s,
    if id =? 0 then post (settle entry (tag ++ s! " NO APPEND failed: mailbox not found")) s else
    let req := mkAppend (user_id (ident s)) id (append_subject_of body) body (username (ident s)) (append_status flags) in
    say [AppendMail req]
      match e_append env req with
      | None => waiting s
      | Some r =>
          post (λ s, say (invalidate (append_user req) id)
            (settle entry
               (if append_ok r then tag ++ s! " OK [APPENDUID " ++ to_string id ++ s! " " ++ to_string (append_mail_id r)
                                    ++ s! "] APPEND completed"
                else if bool_decide (append_error r = s! "Server not ready") then tag ++ s! " NO " ++ append_error r
                else tag ++ s! " NO [SERVERBUG] APPEND failed"
                     ++ match append_error r with [] => [] | e => s! ": " ++ e end) s)) s
      end)) s.

(** *** SEARCH *)

(** One token of [imap_search_tokens]: blank separated, or a quoted string. *)
Fixpoint search_tokens (fuel : nat) (s : bytes) : list bytes :=
  match fuel with
  | O => []
  | S fuel =>
      match drop_while is_blank s with
      | [] => []
      | (c :: t) as s =>
          if c =? DQUOTE then let '(v, r) := quoted_value t in v :: search_tokens fuel r
          else take_while (λ c, negb (is_blank c)) s :: search_tokens fuel (drop_while (λ c, negb (is_blank c)) s)
      end
  end.

Definition imap_search_tokens (s : bytes) : list bytes := search_tokens (length s) s.

Record SearchCriteria := mkCriteria { hdr_keys : list (bytes * bytes); flag_keys : list bytes }.

Definition add_header (f v : bytes) (c : SearchCriteria) : SearchCriteria := mkCriteria ((f, v) :: hdr_keys c) (flag_keys c).
Definition add_key (k : bytes) (c : SearchCriteria) : SearchCriteria := mkCriteria (hdr_keys c) (k :: flag_keys c).

Definition is_shorthand (key : bytes) : bool :=
  bool_decide (key ∈ [s! "SUBJECT"; s! "FROM"; s! "TO"; s! "CC"; s! "BCC"]).

Fixpoint search_criteria (tokens : list bytes) : SearchCriteria :=
  match tokens with
  | [] => mkCriteria [] []
  | tok :: rest =>
      let key := toupper <$> tok in
      if bool_decide (key = s! "HEADER") then
        match rest with
        | f :: v :: rest => add_header f v (search_criteria rest)
        | _ => mkCriteria [] []
        end
      else if is_shorthand key then
        match rest with
        | v :: rest => add_header key v (search_criteria rest)
        | [] => mkCriteria [] []
        end
      else add_key key (search_criteria rest)
  end.

Definition parse_search_criteria (args : bytes) : SearchCriteria := search_criteria (imap_search_tokens args).

(** The loop of [collect_header_field]: whether a line matched, and the text. *)
Fixpoint collect_loop (want : bytes) (lines : list bytes) (selected found : bool) (out : bytes) : bool * bytes :=
  match lines with
  | [] => (found, out)
  | l :: lines =>
      match strip_cr l with
      | [] => (found, out)
      | (c :: _) as line =>
          if is_blank c then
            collect_loop want lines selected found (if selected then out ++ s! " " ++ mime_params_detail.trim line else out)
          else
            match find_char 58 line with
            | None => collect_loop want lines false found out
            | Some colon =>
                if bool_decide (lower (mime_params_detail.trim (take colon line)) = want)
                then collect_loop want lines true true (out ++ mime_params_detail.trim (drop (colon + 1) line))
                else collect_loop want lines false found out
            end
      end
  end.

Definition collect_header_field (block field : bytes) : bool * bytes :=
  collect_loop (lower field) (getlines [] block) false false [].

(** [None] when the object layout throws. *)
Definition mail_matches_header_keys (st : Storage) (m : MailInfo) (keys : list (bytes * bytes)) : option bool :=
  path ← match body_path m with
         | [] => if provider st then body_key st (mail_id m) else Some (s! "mail/" ++ to_string (mail_id m))
         | p => Some p
         end;
  let body := match path with [] => [] | _ => default [] (read_all st path) end in
  let block := match find_sub CRLF2 body with
               | Some e => take e body
               | None => match find_sub [LF; LF] body with Some e => take e body | None => body end
               end in
  Some (forallb (λ '(field, value),
    let '(found, field_text) := collect_header_field block field in
    found && (bool_decide (value = []) || contains (lower value) (lower field_text))) keys).

(** The UID range of the criteria, if any. *)
Fixpoint uid_range (tokens : list bytes) : option (Z * Z) :=
  match tokens with
  | a :: ((tok :: _) as rest) =>
      if bool_decide (a = s! "UID") &&
         match tok with c :: _ => (c =? 42) || isdigit c | [] => false end
      then
        Some match find_char 58 tok with
             | Some colon =>
                 let lo := take colon tok in
                 let hi := drop (colon + 1) tok in
                 (if bool_decide (lo = s! "*") then 0 else safe_stoull lo,
                  if bool_decide (hi = s! "*") then 2 ^ 64 - 1 else safe_stoull hi)
             | None => if bool_decide (tok = s! "*") then (0, 2 ^ 64 - 1) else (safe_stoull tok, safe_stoull tok)
             end
      else uid_range rest
  | _ => None
  end.

Definition has_token (keys : list bytes) (t : bytes) : bool := bool_decide (t ∈ keys).

Definition search_matches (c : SearchCriteria) (m : MailInfo) : option bool :=
  let keys := flag_keys c in
  let search_unseen := has_token keys (s! "UNSEEN") || has_token keys (s! "NEW") in
  let search_seen := has_token keys (s! "SEEN") && negb (has_token keys (s! "UNSEEN")) in
  let search_deleted := has_token keys (s! "DELETED") && negb (has_token keys (s! "UNDELETED")) in
  let b := if search_unseen then status m =? 1 else if search_seen then status m =? 0 else true in
  let b := if search_deleted then is_deleted m else b in
  let b := match uid_range keys with
           | Some (lo, hi) => b && ((lo <=? mail_id m) && (mail_id m <=? hi))
           | None => b
           end in
  if b && negb (bool_decide (hdr_keys c = [])) then mail_matches_header_keys (e_storage env) m (hdr_keys c) else Some b.

(** The numbers of the answer, from position [i] on. *)
Fixpoint search_hits (c : SearchCriteria) (is_uid : bool) (i : Z) (l : list MailInfo) : option (list Z) :=
  match l with
  | [] => Some []
  | m :: l =>
      b ← search_matches c m;
      hits ← search_hits c is_uid (i + 1) l;
      Some (if (b : bool) then (if is_uid then mail_id m else i) :: hits else hits)
  end.

Definition handle_search (is_uid : bool) (s : ImapsSession) : Out :=
  let tag := tag_of s in
  if negb (selected_ok s) then no_mailbox s else
  let c := parse_search_criteria (effective_args s) in
  if negb (e_conn env) then no_database s else
  get_mails (e_mails env) (λ ok l s,
    if negb ok then tagged_drain tag (s! "NO") (s! "Server error") s else
    post (reply_drain
      match search_hits c is_uid 1 l with
      | Some hits => s! "* SEARCH" ++ (hits ≫= λ n, s! " " ++ to_string n) ++ CRLF
                     ++ tagged tag (s! "OK") (s! "SEARCH completed")
      | None => tagged tag (s! "NO") (s! "Cannot read message object")
      end) s) (set_paused true s).

(** *** COPY, MOVE, UID *)

(** The ids COPY selects; [None] when it reads [mails[-1]]. *)
Definition copy_selection (set : bytes) (l : list MailInfo) : option (list Z) :=
  let total := Z.of_nat (length l) in
  if bool_decide (set = s! "*") then Some (mail_id <$> l) else
  match find_char 58 set with
  | Some colon =>
      let start := safe_stoull (take colon set) in
      let end_ := Z.min (safe_stoull (drop (colon + 1) set)) total in
      match mails_at l (seqZ start (end_ - start + 1)) with
      | Some found => Some ((λ p, mail_id (snd p)) <$> found)
      | None => None
      end
  | None =>
      let n := safe_stoull set in
      Some (if (1 <=? n) && (n <=? total) then match l !! Z.to_nat (n - 1) with Some m => [mail_id m] | None => [] end else [])
  end.

Definition handle_copy_move (conn : bool) (mails : Z → Z → option (bool * list MailInfo)) (is_move : bool)
    (s : ImapsSession) : Out :=
  let tag := tag_of s in
  if negb (selected_ok s) then no_mailbox s else
  let args := effective_args s in
  match rfind_char SP args with
  | None => send_tagged tag (s! "BAD") (s! "COPY/MOVE requires sequence set and mailbox") s
  | Some sp =>
      let set := take sp args in
      let target := decode_mailbox_name (unquote (drop (sp + 1) args)) in
      if negb conn then server_error s else
      find_mailbox target (λ target_id s,
        if target_id =? 0 then tagged_drain tag (s! "NO") (s! "COPY/MOVE failed: mailbox not found") s else
        get_mails mails (λ ok l s,
          if negb ok then tagged_drain tag (s! "NO") (s! "Server error") s else
          match copy_selection set l with
          | None => undefined s
          | Some [] => tagged_drain tag (s! "OK") (s! "COPY/MOVE completed (no messages)") s
          | Some ids =>
              let user := user_id (ident s) in
              let source := selected_mailbox_id (sel s) in
              let req := mkCopy user source target_id ids is_move in
              say [CopyMails req]
                match e_copy env req with
                | None => waiting s
                | Some r =>
                    let command := if is_move then s! "MOVE" else s! "COPY" in
                    post (λ s, say (invalidate user target_id ++ (if is_move then invalidate user source else []))
                      (if negb (copy_ok r) || (is_move && negb (source_marked r))
                       then tagged_drain tag (s! "NO") (command ++ s! " failed: database error") s
                       else reply_drain (tagged tag (s! "OK") (command ++ s! " completed (" ++ to_string (copied r)
                                                               ++ s! " messages)")) s)) s
                end
          end) s) (set_paused true s)
  end.

(** The position a UID maps to, 0 without one; the last of equal ids wins. *)
Definition uid_to_seq (l : list MailInfo) (uid : Z) : Z :=
  foldl (λ acc p, if mail_id (snd p) =? uid then Z.of_nat (fst p) + 1 else acc) 0 (imap pair l).

Definition join_numbers (ns : list Z) : bytes := match ns with [] => s! "0" | _ => join_mail_ids ns end.

(** UID set to sequence set. *)
Definition map_uid_set (l : list MailInfo) (set : bytes) : bytes :=
  if bool_decide (COMMA ∈ set) then
    join_numbers (omap (λ tok, match tok with
                               | [] => None
                               | _ => let n := uid_to_seq l (safe_stoull tok) in if 0 <? n then Some n else None
                               end) (getlines_sep COMMA [] set))
  else
    match find_char 58 set with
    | Some c =>
        let u1 := take c set in
        let u2 := drop (c + 1) set in
        let lo := if bool_decide (u1 = s! "*") then 0 else safe_stoull u1 in
        let hi := if bool_decide (u2 = s! "*") then 2 ^ 64 - 1 else safe_stoull u2 in
        join_numbers (omap (λ p, if (lo <=? mail_id (snd p)) && (mail_id (snd p) <=? hi)
                                 then Some (Z.of_nat (fst p) + 1) else None) (imap pair l))
    | None => if bool_decide (set = s! "*") then s! "*" else to_string (uid_to_seq l (safe_stoull set))
    end.

Definition end_uid (s : ImapsSession) : ImapsSession := upd_ctx (with_uid false []) s.

Definition handle_uid (s : ImapsSession) : Out :=
  let tag := tag_of s in
  if negb (selected_ok s) then no_mailbox s else
  let args := args_of s in
  match find_char SP args with
  | None => send_tagged tag (s! "BAD") (s! "UID requires subcommand") s
  | Some sp =>
      let sub := toupper <$> take sp args in
      let subargs := drop (sp + 1) args in
      if bool_decide (sub ∈ [s! "FETCH"; s! "STORE"; s! "COPY"]) then
        if negb (e_conn env) then no_database s else
        get_mails (e_mails env) (λ ok l s,
          if negb ok || bool_decide (length l = 0%nat) then
            tagged_drain tag (s! "OK") (sub ++ s! " completed (empty)") s
          else
            let '(set, rest) := match find_char SP subargs with
                                | Some sp => (take sp subargs, drop sp subargs)
                                | None => (subargs, [])
                                end in
            let s := upd_ctx (with_uid true (map_uid_set l set ++ rest)) s in
            on_return end_uid
              (if bool_decide (sub = s! "FETCH") then handle_fetch (e_conn2 env) (e_mails2 env) true s
               else if bool_decide (sub = s! "STORE") then handle_store (e_conn2 env) (e_mails2 env) s
               else handle_copy_move (e_conn2 env) (e_mails2 env) false s)) (set_paused true s)
      else
        let s := upd_ctx (with_uid true subargs) s in
        on_return end_uid
          (if bool_decide (sub = s! "SEARCH") then handle_search true s
           else send_tagged tag (s! "BAD") (s! "Unknown UID subcommand") s)
  end.

(** *** IDLE and the rest *)

Definition handle_idle (s : ImapsSession) : Out :=
  let s := upd_ctx (λ c, with_idle true (idle_poll_inflight c) c) s in
  say [Write (s! "+ idling" ++ CRLF)]
    (Now ((if mailbox_selected (sel s) && negb (selected_mailbox_id (sel s) =? 0) &&
              negb (bool_decide (username (ident s) = []))
           then [RegisterWatcher (username (ident s))] else []) ++ [ArmPoll]) (set_reading true s)).

Definition handle_done (s : ImapsSession) : Out :=
  say ((if bool_decide (username (ident s) = []) then [] else [UnregisterWatcher (username (ident s))]) ++ [StopPoll])
    (send_tagged (tag_of s) (s! "OK") (s! "IDLE terminated") (upd_ctx (with_idle false false) s)).

Definition handle_error (s : ImapsSession) : Out :=
  send_tagged (tag_of s) (s! "BAD") (match args_of s with [] => s! "Protocol error" | e => e end) s.

Definition handle_timeout (s : ImapsSession) : Out :=
  Now [Write (s! "* BYE TIMEOUT" ++ CRLF); CloseNow] (set_closed s).

(** ** Dispatch *)

Definition run_handler (ev : ImapEvent) (s : ImapsSession) : Out :=
  match ev with
  | CONNECT => handle_init_connect s
  | CAPABILITY => handle_capability s
  | LOGIN => handle_login s
  | AUTHENTICATE => handle_authenticate s
  | LOGOUT => handle_logout s
  | SELECT => handle_select s
  | EXAMINE => handle_examine s
  | CREATE => handle_create s
  | DELETE => handle_delete s
  | RENAME => handle_rename s
  | SUBSCRIBE => handle_subscribe s
  | UNSUBSCRIBE => handle_unsubscribe s
  | LIST => handle_list s
  | LSUB => handle_lsub s
  | IMAP_STATUS => handle_status s
  | APPEND => handle_append s
  | CHECK => handle_check s
  | CLOSE => handle_close s
  | EXPUNGE => handle_expunge s
  | SEARCH => handle_search false s
  | FETCH => handle_fetch (e_conn env) (e_mails env) false s
  | STORE => handle_store (e_conn env) (e_mails env) s
  | COPY => handle_copy_move (e_conn env) (e_mails env) false s
  | MOVE => handle_copy_move (e_conn env) (e_mails env) true s
  | UID => handle_uid s
  | NOOP => handle_noop s
  | IDLE => handle_idle s
  | DONE => handle_done s
  | STARTTLS => handle_starttls s
  | ERROR => handle_error s
  | TIMEOUT => handle_timeout s
  end.

(** [process_event]: the tag goes into the context, then [FsmEngine::dispatch]
    with the tagged replies of the formatter. *)
Definition process_event (ev : ImapEvent) (tag : bytes) (s : ImapsSession) : Out :=
  let s := upd_ctx (with_tag tag) s in
  let desc := make_imaps_desc (negb (is_tls cfg)) in
  if closed s then Now [] s else
  if is_terminal desc (state_ s) then Now [CloseNow] (set_closed s) else
  match guard_target desc (state_ s) ev with
  | None => write (tag ++ s! " BAD Invalid command sequence" ++ CRLF) s
  | Some _ => if bool_decide ((state_ s, ev) ∈ registered (negb (is_tls cfg))) then run_handler ev s
              else write (tag ++ s! " BAD Unsupported command in current state" ++ CRLF) s
  end.
End Handlers.

(** ** Input *)

(** [kMaxImapLiteralBytes] *)
Definition kMaxImapLiteralBytes : Z := 32 * 1024 * 1024.

(** [s.rfind(c)] up to the tag, command and arguments of a line. *)
Definition split_command (line : bytes) : bytes * bytes * bytes :=
  match find_char SP line with
  | None => (line, line, [])
  | Some sp =>
      let rest := drop (sp + 1) line in
      match find_char SP rest with
      | Some sp2 => (take sp line, take sp2 rest, drop (sp2 + 1) rest)
      | None => (take sp line, rest, [])
      end
  end.

Definition event_of (cmd : bytes) : option ImapEvent :=
  snd <$> find (λ e, bool_decide (fst e = cmd)) imap_commands.

(** The size of a literal declared at the end of the line, and the text in
    front of it. *)
Definition literal_size (line : bytes) : option (Z * bytes) :=
  brace ← rfind_char 123 line;
  if bool_decide (list.last line = Some 125) then
    n ← stoull (slice line (brace + 1) (length line - brace - 2));
    Some (n, take brace line)
  else None.

Definition trim_line (data : bytes) : bytes :=
  let line := if (2 <=? length data)%nat && bool_decide (drop (length data - 2) data = CRLF)
              then take (length data - 2) data else data in
  match drop_while_end is_blank line with
  | [] => line                            (* [find_last_not_of] is [npos]: nothing is cut *)
  | l => l
  end.

(** The literal is complete: an APPEND with the bytes as its argument. *)
Definition literal_done (data : bytes) (r : Reader) : Reader :=
  mkReader false (expected_literal_size r) [] (cmd_tag r) (current_command r) data true APPEND (idle_done_received r).

(** A line that declares a literal of [n] bytes behind [cmd_part]. *)
Definition begin_literal (n : nat) (cmd_part : bytes) (s : ImapsSession) : Out :=
  let cmd_part := drop_while_end (λ c, c =? SP) cmd_part in
  let '(tag, cmd, args) := split_command cmd_part in
  let s := if bool_decide (cmd = s! "APPEND") then upd_ctx (with_preamble args) s else s in
  let r := mkReader true n [] tag (toupper <$> cmd) args (command_parsed (reader s)) (next_event (reader s))
             (idle_done_received (reader s)) in
  let buf := command_read_buffer s in
  if (n <=? length buf)%nat then
    let rest := drop n buf in
    let rest := if starts_with CRLF rest then drop 2 rest else rest in
    Now [] (upd_ctx (with_tag tag) (set_buf rest (set_reader (literal_done (take n buf) r) s)))
  else
    send_continuation (s! "Ready for literal data")
      (set_buf [] (set_reader (mkReader true n buf tag (toupper <$> cmd) args (command_parsed r) (next_event r)
                                 (idle_done_received r)) s)).

(** A plain command line. *)
Definition plain_command (line : bytes) (s : ImapsSession) : ImapsSession :=
  let '(tag, cmd, args) := split_command line in
  let cmd := toupper <$> cmd in
  let '(ev, args) := match event_of cmd with
                     | Some ev => (ev, args)
                     | None => (ERROR, s! "Unknown command: " ++ cmd)
                     end in
  let r := reader s in
  upd_ctx (with_tag tag)
    (set_reader (mkReader (awaiting_literal r) (expected_literal_size r) (literal_data_buffer r) tag cmd args true ev
                   (idle_done_received r)) s).

Definition set_idle_done (r : Reader) : Reader :=
  mkReader (awaiting_literal r) (expected_literal_size r) (literal_data_buffer r) (cmd_tag r) (current_command r)
    (last_command_args r) true (next_event r) true.
Definition sasl_arrived (r : Reader) : Reader :=
  mkReader (awaiting_literal r) (expected_literal_size r) (literal_data_buffer r) (cmd_tag r) (current_command r)
    (last_command_args r) true AUTHENTICATE (idle_done_received r).

(** A chunk while a literal is awaited; what is beyond it goes back. *)
Definition literal_chunk (data : bytes) (s : ImapsSession) : Out :=
  let r := reader s in
  let all := literal_data_buffer r ++ data in
  let n := expected_literal_size r in
  if (n <=? length all)%nat then
    Now [] (upd_ctx (with_tag (cmd_tag r))
              (set_buf (drop n all ++ command_read_buffer s) (set_reader (literal_done (take n all) r) s)))
  else
    Now [] (set_reading true
              (set_reader (mkReader true n all (cmd_tag r) (current_command r) (last_command_args r) (command_parsed r)
                             (next_event r) (idle_done_received r)) s)).

Definition handle_read (data : bytes) (s : ImapsSession) : Out :=
  if awaiting_literal (reader s) then literal_chunk data s else
  let line := trim_line data in
  let ctx := context_ s in
  if bool_decide (line = []) then Now [] (set_reading true s) else
  if idle_mode ctx then
    Now [] (if bool_decide (toupper <$> line = s! "DONE") then set_reader (set_idle_done (reader s)) s else s)
  else if sasl_plain_state ctx =? 1 then
    Now [] (set_reader (sasl_arrived (reader s)) (upd_ctx (with_sasl 2 line) s))
  else
    match literal_size line with
    | Some (n, cmd_part) =>
        if n >? kMaxImapLiteralBytes then
          let tag := match find_char SP line with Some sp => take sp line | None => line end in
          Now [Write (tagged tag (s! "BAD") (s! "Literal too large")); CloseAfterFlush] (set_closed s)
        else begin_literal (Z.to_nat n) cmd_part s
    | None => Now [] (plain_command line s)
    end.

Definition clear_parsed (r : Reader) : Reader :=
  mkReader (awaiting_literal r) (expected_literal_size r) (literal_data_buffer r) (cmd_tag r) (current_command r)
    (last_command_args r) false (next_event r) false.

Section Run.
Context (cfg : ImapConfig).

Definition process_read (env : CmdEnv) (drain : ImapsSession → Out) (s : ImapsSession) : Out :=
  let r := reader s in
  if negb (command_parsed r) || closed s then Now [] s else
  let s := set_reader (clear_parsed r) s in
  if idle_done_received r then process_event cfg env drain DONE (current_tag (context_ s)) s
  else process_event cfg env drain (next_event r) (cmd_tag r) s.

(** The next unit of input: a line, or whatever is there of a literal. *)
Definition extract_one_line (s : ImapsSession) : option (bytes * ImapsSession) :=
  let buf := command_read_buffer s in
  if awaiting_literal (reader s) then
    match buf with [] => None | _ => Some (buf, set_buf [] s) end
  else
    pos ← find_sub CRLF buf;
    Some (take (pos + 2) buf, set_buf (drop (pos + 2) buf) s).

(** The loop over the buffered input; [drain_buffered_commands] is the loop on
    a session that is no longer paused.  [envs n] answers the command taken with
    [n] rounds left. *)
Fixpoint consume (envs : nat → CmdEnv) (fuel : nat) (s : ImapsSession) : Out :=
  match fuel with
  | O => Now [] s
  | S fuel =>
      if paused s || closed s then Now [] s else
      match extract_one_line s with
      | None => Now [] s
      | Some (line, s) =>
          and_then (handle_read line s) (λ s,
            and_then (process_read (envs fuel) (λ s, consume envs fuel (set_paused false s)) s) (consume envs fuel))
      end
  end.

(** A completed read: half a line asks for more, a dispatched command does not. *)
Definition imap_chunk (limit : nat) (envs : nat → CmdEnv) (chunk : bytes) (s : ImapsSession)
  : list ImapAction * ImapsSession :=
  if closed s then ([], s) else
  let s := set_reading false (set_buf (command_read_buffer s ++ chunk) s) in
  if (limit <? length (command_read_buffer s))%nat then ([CloseNow], set_closed s) else
  let dispatched := negb (paused s) && has_buffered_input s in
  let '(acts, s) := finish (consume envs (length (command_read_buffer s)) s) in
  (acts, if negb dispatched && negb (paused s) && negb (closed s) then set_reading true s else s).

(** ** IDLE polling *)

(** [check_idle_exists]: the query, when none is under way. *)
Definition poll (s : ImapsSession) : list ImapAction * ImapsSession :=
  let c := context_ s in
  if closed s || negb (idle_mode c) || negb (mailbox_selected (sel s)) || (selected_mailbox_id (sel s) =? 0)
     || idle_poll_inflight c then ([], s)
  else ([CountMails (user_id (ident s)) (selected_mailbox_id (sel s))], upd_ctx (with_idle (idle_mode c) true) s).

(** Its answer, back on the session's executor. *)
Definition poll_answer (mailbox count : Z) (s : ImapsSession) : list ImapAction * ImapsSession :=
  if closed s then ([], s) else
  let s := upd_ctx (λ c, with_idle (idle_mode c) false c) s in
  if negb (idle_mode (context_ s)) || negb (selected_mailbox_id (sel s) =? mailbox) then ([], s) else
  if count <=? announced_exists (sel s) then ([], s) else
  ([Write (s! "* " ++ to_string count ++ s! " EXISTS" ++ CRLF)],
   set_reading true (upd_sel (with_announced count) s)).

(** ** The session *)

Inductive ImapInput :=
  | Chunk (limit : nat) (envs : nat → CmdEnv) (data : bytes)
  | Poll
  | PollAnswer (mailbox count : Z).

Definition imap_step (i : ImapInput) (s : ImapsSession) : list ImapAction * ImapsSession :=
  match i with
  | Chunk limit envs data => imap_chunk limit envs data s
  | Poll => poll s
  | PollAnswer mailbox count => poll_answer mailbox count s
  end.

Fixpoint imap_run (ins : list ImapInput) (s : ImapsSession) : list ImapAction * ImapsSession :=
  match ins with
  | [] => ([], s)
  | i :: ins =>
      let '(a, s) := imap_step i s in
      let '(a', s) := imap_run ins s in
      (a ++ a', s)
  end.

(** [start], or [start_after_starttls] on a connection handed over. *)
Definition imap_start (env : CmdEnv) (after_starttls : bool) : list ImapAction * ImapsSession :=
  if after_starttls then ([], set_reading true (set_st St.NOT_AUTHENTICATED new_imap_session))
  else finish (process_event cfg env (Now []) CONNECT [] new_imap_session).
End Run.
