(* ===== verification/ImapSafety.v ===== *)
(** * Properties of the IMAP server

    Over the model of [Imap]: who may touch which mailbox, that commands are
    answered and leave the session ready, that literals are taken exactly, that
    FETCH answers the messages asked for, and the places where the server does
    something else than it says. *)

From S2P Require Import Prelude CString LineFolder SmtpText Mime ImapText FsmEngine Imap.

(** ** A concrete server, for examples and witnesses *)

Definition plain_mail (id : Z) (seen deleted : bool) : MailInfo :=
  mkMail id (s! "a@x.org") (s! "b@x.org") (s! "hi") [] false deleted false (if seen then 0 else 1) 0.

Definition no_storage : Storage := mkStorage false (λ _, None) (λ _, None) None (λ _, None).

(** Every callback answers; the user 7 owns the mailboxes 10 (INBOX) and 11. *)
Definition example_env (mails : list MailInfo) : CmdEnv :=
  mkEnv true true true (Some (λ _ _, Some (mkAuth true 7 0))) (λ b, Some b)
    (λ _, Some (true, [mkBox 10 (s! "INBOX") 1]))
    (λ _ name, Some (if bool_decide (name = s! "INBOX") then 10 else if bool_decide (name = s! "Sent") then 11 else 0))
    (λ _ _, Some (mkStats (Z.of_nat (length mails)) 0 100))
    (λ _ _, Some (true, mails)) (λ _ _, Some (true, mails)) (λ _ _, None) false
    (λ _, Some true) (λ _ _, Some true) (λ r, Some (mkCopied true (Z.of_nat (length (copy_ids r))) true))
    (λ _ _, Some (mkFolder folder_ok true)) (λ _ _, Some (mkFolder folder_ok true)) (λ _ _ _, Some (mkFolder folder_ok true))
    (λ _, Some (mkAppended true 5 [])) no_storage false.

Definition example_config : ImapConfig := mkConfig (s! "x.org") true 3.

Definition line (cmd : bytes) : bytes := cmd ++ CRLF.

(** A session that received [input] in one read after logging in. *)
Definition example_run (mails : list MailInfo) (input : bytes) : list ImapAction * ImapsSession :=
  let env := example_env mails in
  let '(a, s) := imap_start example_config env false in
  let '(a', s) := imap_chunk example_config (Z.to_nat 65536) (λ _, env) (line (s! "a LOGIN bob pw") ++ input) s in
  (a ++ a', s).

(** ** Who may touch which mailbox

    A reference monitor over the actions of a session: it remembers the user the
    last successful authentication returned and the mailboxes found for that
    user since, and lets an action on stored mail pass only for them. *)

Record Knowledge := mkKnow { logged_in : option Z; opened : list Z }.

Definition nothing : Knowledge := mkKnow None [].

Definition learn (k : Knowledge) (a : ImapAction) : Knowledge :=
  match a with
  | Authenticated _ _ (Some r) => if auth_ok r then mkKnow (Some (auth_user r)) [] else k
  | FindMailbox user _ (Some id) =>
      if bool_decide (logged_in k = Some user) && negb (id =? 0) then mkKnow (logged_in k) (id :: opened k) else k
  | _ => k
  end.

Definition may_use (k : Knowledge) (user mailbox : Z) : bool :=
  bool_decide (logged_in k = Some user) && bool_decide (mailbox ∈ opened k).

Definition permits (k : Knowledge) (a : ImapAction) : bool :=
  match a with
  | GetMailboxes user | FindMailbox user _ _ | CreateFolder user _ => bool_decide (logged_in k = Some user)
  | GetMails user mailbox | GetStats user mailbox | CountMails user mailbox | ExpungeMails user mailbox
  | RemoveFolder user mailbox | RenameFolder user mailbox _ | CachePut user mailbox _ | Invalidate user mailbox =>
      may_use k user mailbox
  | StoreFlags r => may_use k (store_user r) (store_mailbox r)
  | CopyMails r => may_use k (source_user r) (source_mailbox r) && may_use k (source_user r) (target_mailbox_id r)
  | AppendMail r => may_use k (append_user r) (append_mailbox r)
  | _ => true
  end.

Fixpoint accepts (k : Knowledge) (tr : list ImapAction) : bool :=
  match tr with
  | [] => true
  | a :: tr => permits k a && accepts (learn k a) tr
  end.

Definition learnt (k : Knowledge) (tr : list ImapAction) : Knowledge := foldl learn k tr.

Lemma accepts_app k a b : accepts k (a ++ b) = accepts k a && accepts (learnt k a) b.
Proof. revert k; induction a as [| x a IH]; intros k; simpl; [done |]. by rewrite IH, andb_assoc. Qed.

Lemma learnt_app k a b : learnt k (a ++ b) = learnt (learnt k a) b.
Proof. apply foldl_app. Qed.

(** What the session claims is what the monitor saw. *)
Record covered (k : Knowledge) (s : ImapsSession) : Prop := mkCovered {
  cov_user : is_authenticated (ident s) = true → logged_in k = Some (user_id (ident s));
  cov_auth : mailbox_selected (sel s) = true → is_authenticated (ident s) = true;
  cov_box : mailbox_selected (sel s) = true → selected_mailbox_id (sel s) ∈ opened k;
  cov_selected : state_ s = St.SELECTED → mailbox_selected (sel s) = true;
  cov_outside : state_ s = St.NOT_AUTHENTICATED ∨ state_ s = St.INIT → mailbox_selected (sel s) = false;
}.

(** Sessions that differ in the UID fields only. *)
Definition core (s : ImapsSession) : ImapsSession := upd_ctx (with_uid false []) s.

Lemma covered_core k s s' : core s' = core s → covered k s → covered k s'.
Proof.
  intros E [H1 H2 H3 H4 H5].
  assert (ident s' = ident s) as Ei by (apply (f_equal ident) in E; exact E).
  assert (sel s' = sel s) as Es by (apply (f_equal sel) in E; exact E).
  assert (state_ s' = state_ s) as Et by (apply (f_equal state_) in E; exact E).
  split; rewrite ?Ei, ?Es, ?Et; assumption.
Qed.

(** An outcome whose actions pass, whatever the UID fields are when its posted
    part runs. *)
Fixpoint safe (k : Knowledge) (o : Out) : Prop :=
  match o with
  | Now a s => accepts k a = true ∧ covered (learnt k a) s
  | Later a s f => accepts k a = true ∧ covered (learnt k a) s ∧ ∀ s', core s' = core s → safe (learnt k a) (f s')
  end.

Lemma safe_say k a o : accepts k a = true → safe (learnt k a) o → safe k (say a o).
Proof.
  intros Ha. destruct o as [b s | b s f]; simpl; rewrite accepts_app, Ha; simpl; rewrite learnt_app; tauto.
Qed.

Lemma safe_and_then k o f :
  safe k o → (∀ k' s, covered k' s → safe k' (f s)) → safe k (and_then o f).
Proof.
  revert k. induction o as [a s | a s g IH]; intros k Ho Hf; simpl in *.
  - destruct Ho as [Ha Hs]. apply safe_say; auto.
  - destruct Ho as (Ha & Hs & Hg). split; [done |]. split; [done |]. intros s' E. apply IH; auto.
Qed.

Lemma safe_on_return k o : safe k o → safe k (on_return end_uid o).
Proof.
  destruct o as [a s | a s f]; simpl.
  - intros [Ha Hs]. split; [done |]. by apply (covered_core _ s).
  - intros (Ha & Hs & Hf). split; [done |]. split; [by apply (covered_core _ s) |]. intros s' E. by apply Hf.
Qed.

Lemma safe_finish k o : safe k o → accepts k (fst (finish o)) = true ∧ covered (learnt k (fst (finish o))) (snd (finish o)).
Proof.
  revert k. induction o as [a s | a s f IH]; intros k Ho; simpl in *; [done |].
  destruct Ho as (Ha & Hs & Hf). specialize (IH s _ (Hf s eq_refl)).
  destruct (finish (f s)) as [b s']; simpl in *. rewrite accepts_app, Ha, learnt_app. tauto.
Qed.

(** The invariant looks at state, identity and selection only. *)
Lemma covered_same k s s' :
  state_ s' = state_ s → ident s' = ident s → sel s' = sel s → covered k s → covered k s'.
Proof. intros E1 E2 E3 [H1 H2 H3 H4 H5]. split; rewrite ?E1, ?E2, ?E3; assumption. Qed.

(** The selected mailbox of a logged in user may be used. *)
Lemma covered_may_use k s :
  covered k s → mailbox_selected (sel s) = true → may_use k (user_id (ident s)) (selected_mailbox_id (sel s)) = true.
Proof.
  intros C H. unfold may_use.
  rewrite bool_decide_true by (apply (cov_user _ _ C), (cov_auth _ _ C), H).
  by rewrite bool_decide_true by (apply (cov_box _ _ C), H).
Qed.

Lemma selected_ok_parts s : selected_ok s = true → is_authenticated (ident s) = true ∧ mailbox_selected (sel s) = true.
Proof. intros H. by apply andb_true_iff in H. Qed.

Ltac same := eapply covered_same; [| | | eassumption]; reflexivity.

Ltac permit U := apply andb_true_iff; split; [exact U | done].

Section Safe.
Context (cfg : ImapConfig) (env : CmdEnv) (drain : ImapsSession → Out).
Hypothesis drain_safe : ∀ k s, covered k s → safe k (drain s).

Lemma safe_write k data s : covered k s → safe k (write data s).
Proof. intros C. split; [done |]. simpl. same. Qed.

Lemma safe_reject k s :
  covered k s → safe k (not_authenticated s) ∧ safe k (no_mailbox s) ∧ safe k (no_database s) ∧ safe k (server_error s).
Proof. intros C. unfold not_authenticated, no_mailbox, no_database, server_error, send_tagged. split_and!; by apply safe_write. Qed.

Lemma safe_reply k text s : covered k s → safe k (reply_drain drain text s).
Proof. intros C. apply safe_and_then; [by apply safe_write | apply drain_safe]. Qed.

Lemma safe_post k f s :
  covered k s → (∀ s', core s' = core s → covered k s' → safe k (f s')) → safe k (post f s).
Proof. intros C H. split; [done |]. split; [done |]. intros s' E. apply H; [done | by eapply covered_core]. Qed.

Lemma safe_undefined k s : covered k s → safe k (undefined s).
Proof. intros C. split; [done |]. simpl. same. Qed.

Lemma safe_waiting k s : covered k s → safe k (waiting s).
Proof. intros C. by split. Qed.

Create HintDb imap.
Hint Resolve safe_write safe_reply safe_undefined safe_waiting : imap.

Lemma covered_pause k b s : covered k s → covered k (set_paused b s).
Proof. intros C. same. Qed.
Hint Resolve covered_pause : imap.

Lemma safe_with_database k fail f s :
  covered k s → safe k (fail s) →
  (covered k (set_paused true s) → is_authenticated (ident s) = true → safe k (f (set_paused true s))) →
  safe k (with_database env fail f s).
Proof.
  intros C Hf H. unfold with_database. destruct (is_authenticated (ident s)) eqn:E; simpl.
  - destruct (e_conn env); simpl; [| done]. apply H; [by apply covered_pause | done].
  - by apply safe_reject.
Qed.

(** A mailbox that was found may be used from then on. *)
Lemma safe_find_mailbox k name f s :
  covered k s → is_authenticated (ident s) = true →
  (∀ k', covered k' s → safe k' (f 0 s)) →
  (∀ k' id, covered k' s → may_use k' (user_id (ident s)) id = true → id ≠ 0 → safe k' (f id s)) →
  safe k (find_mailbox env name f s).
Proof.
  intros C A H0 H. pose proof (cov_user _ _ C A) as U. unfold find_mailbox.
  apply safe_say; [simpl; by rewrite bool_decide_true |]. simpl.
  destruct (e_find env (user_id (ident s)) (lookup_name name)) as [id |] eqn:E; [| by apply safe_waiting].
  rewrite bool_decide_true by done. destruct (Z.eqb_spec id 0) as [-> | Hid]; simpl; [by apply H0 |].
  apply H; [| | done].
  - destruct C as [C1 C2 C3 C4 C5]. split; simpl; auto. intros M. right; auto.
  - unfold may_use; simpl. rewrite U, !bool_decide_true; [done | left | done].
Qed.

Lemma safe_get_stats k mailbox f s :
  covered k s → may_use k (user_id (ident s)) mailbox = true → (∀ st, safe k (f st s)) → safe k (get_stats env mailbox f s).
Proof.
  intros C A H. apply safe_say; [simpl; by rewrite A |]. simpl. destruct (e_stats env _ _); auto with imap.
Qed.

Lemma safe_get_mails k answer f s :
  covered k s → mailbox_selected (sel s) = true → (∀ ok l, safe k (f ok l s)) → safe k (get_mails answer f s).
Proof.
  intros C A H. apply safe_say; [simpl; by rewrite covered_may_use |]. simpl.
  destruct (answer _ _) as [[ok l] |]; auto with imap.
Qed.

Lemma safe_settle k st text s : covered k (set_st st s) → safe k (settle drain st text s).
Proof. intros C. apply safe_reply. same. Qed.

(** *** The handlers *)

Lemma safe_start_auth k user password ok_text fail_text s :
  covered k s → state_ s = St.NOT_AUTHENTICATED →
  safe k (start_auth_verify cfg env drain user password ok_text fail_text s).
Proof.
  intros C Hst. unfold start_auth_verify. destruct (e_worker env); simpl negb; cbv iota; [| by apply safe_write].
  apply safe_post; [by apply covered_pause |]. intros s' E C'.
  assert (state_ s' = St.NOT_AUTHENTICATED) as Hst' by (apply (f_equal state_) in E; simpl in E; congruence).
  apply safe_say; [done |]. simpl.
  destruct (match e_authenticator env with Some f => _ | None => _ end) as [r |]; [| by apply safe_waiting].
  pose proof (cov_outside _ _ C' (or_introl Hst')) as Hout.
  destruct (auth_ok r).
  - apply safe_settle. unfold sel in Hout. split; simpl; unfold sel; simpl; try rewrite Hout; done.
  - destruct (_ <=? _).
    + split; [done |]. simpl. same.
    + apply safe_settle. split; simpl; try apply C'; done.
Qed.

Lemma safe_verify_sasl k b64 s :
  covered k s → state_ s = St.NOT_AUTHENTICATED → safe k (verify_sasl_plain cfg env drain b64 s).
Proof.
  intros C Hst. unfold verify_sasl_plain. destruct (plain_parts _) as [[user password] |]; [by apply safe_start_auth |].
  by apply safe_write.
Qed.

Lemma safe_login k s : covered k s → state_ s = St.NOT_AUTHENTICATED → safe k (handle_login cfg env drain s).
Proof.
  intros C Hst. unfold handle_login. destruct (login_args _) as [[user password] |]; [by apply safe_start_auth |].
  by apply safe_write.
Qed.

Lemma safe_authenticate k s : covered k s → state_ s = St.NOT_AUTHENTICATED → safe k (handle_authenticate cfg env drain s).
Proof.
  intros C Hst. unfold handle_authenticate. destruct (_ =? 2).
  - assert (covered k (upd_ctx (with_sasl 0 []) s)) as C' by same.
    case_bool_decide; [by apply safe_write | by apply safe_verify_sasl].
  - destruct (match find_char SP (args_of s) with Some _ => _ | None => _ end) as [mechanism initial].
    destruct (negb _); [by apply safe_write |]. destruct initial; [| by apply safe_verify_sasl].
    apply safe_write. same.
Qed.

Lemma safe_logout k s : covered k s → safe k (handle_logout s).
Proof. intros C. split; [done |]. split; simpl; done. Qed.

(** A session whose selection is a mailbox that may be used. *)
Lemma covered_select k l s :
  is_authenticated (ident s) = true → may_use k (user_id (ident s)) (selected_mailbox_id l) = true →
  ¬ (state_ s = St.NOT_AUTHENTICATED ∨ state_ s = St.INIT) → mailbox_selected l = true → covered k (upd_sel (λ _, l) s).
Proof.
  intros A U Hst M. apply andb_true_iff in U as [U1 U2]. apply bool_decide_eq_true in U1, U2.
  split; simpl; auto. tauto.
Qed.

Lemma safe_select k name ro last s :
  covered k s → ¬ (state_ s = St.NOT_AUTHENTICATED ∨ state_ s = St.INIT) → safe k (select_mailbox env drain name ro last s).
Proof.
  intros C Hst. unfold select_mailbox. apply safe_with_database; [done | by apply safe_reject |]. intros C' A.
  apply safe_find_mailbox; [done.. | |].
  - intros k' C0. by apply safe_reply.
  - intros k' id C0 U Hid. destruct (Z.eqb_spec id 0) as [| _]; [done |].
    apply safe_get_stats; [by apply covered_select | done |]. intros st.
    apply safe_reply. eapply (covered_same k' (upd_sel (λ _, mkSel true name id id (exists_ st) ro) (set_st St.SELECTED s)));
      [done.. |]. apply covered_select; try done. by intros [|].
Qed.

Lemma safe_list k s : covered k s → safe k (handle_list env drain s).
Proof.
  intros C. unfold handle_list. apply safe_with_database; [done | by apply safe_reject |]. intros C' A.
  apply safe_say; [simpl; by rewrite bool_decide_true by (by apply (cov_user _ _ C)) |].
  destruct (e_mailboxes env _) as [[ok l] |]; [| by apply safe_waiting].
  destruct ok; simpl negb; cbv iota; [| by apply safe_reply].
  destruct (list_lines l); [by apply safe_reply | by apply safe_undefined].
Qed.

Lemma safe_lsub k s : covered k s → safe k (handle_lsub env drain s).
Proof.
  intros C. unfold handle_lsub. apply safe_with_database; [done | by apply safe_reject |]. intros C' A.
  apply safe_say; [simpl; by rewrite bool_decide_true by (by apply (cov_user _ _ C)) |].
  destruct (e_mailboxes env _) as [[ok l] |]; [| by apply safe_waiting].
  destruct (lsub_lines l); [by apply safe_reply | by apply safe_undefined].
Qed.

Lemma safe_status k s : covered k s → safe k (handle_status env drain s).
Proof.
  intros C. unfold handle_status. destruct (status_args _) as [name attrs].
  destruct (negb _); [by apply safe_reject |]. destruct (_ && _); [by apply safe_write |].
  apply safe_with_database; [done | by apply safe_reject |]. intros C' A.
  apply safe_find_mailbox; [done.. | |].
  - intros k' C0. by apply safe_reply.
  - intros k' id C0 U Hid. destruct (Z.eqb_spec id 0) as [| _]; [done |].
    apply safe_get_stats; [done.. |]. intros st.
    destruct (status_response _ _ _ _); [by apply safe_reply | by apply safe_undefined].
Qed.

Lemma safe_fetch_finalize k acts response tag s :
  covered k s → accepts k acts = true → learnt k acts = k → safe k (fetch_finalize drain acts response tag s).
Proof.
  intros C Ha Hl. apply safe_say; [done |]. rewrite Hl. apply safe_and_then; [by apply safe_write |].
  intros k' s' C'. destruct (has_buffered_input s'); [by apply drain_safe |].
  apply safe_post; [done |]. intros s2 _ C2. by apply drain_safe.
Qed.

(** The reads of a FETCH are of no interest to the monitor. *)
Lemma fetch_reads_pass it k (l : list (Z * MailInfo)) :
  let acts := concat (fst <$> ((λ '(n, m), fetch_mail env it n m) <$> l)) in
  accepts k acts = true ∧ learnt k acts = k.
Proof.
  induction l as [| [n m] l [IH1 IH2]]; [done |]. cbn zeta in *. cbn [fmap list_fmap concat].
  rewrite accepts_app, learnt_app.
  assert (accepts k (fetch_mail env it n m).1 = true ∧ learnt k (fetch_mail env it n m).1 = k) as [H1 H2].
  { unfold fetch_mail. cbn [fst]. destruct (_ && _), (need_body env it m); done. }
  by rewrite H1, H2, IH1.
Qed.

Lemma safe_fetch_from k tag is_uid seq_set attrs mails s :
  covered k s → safe k (fetch_from_mails env drain tag is_uid seq_set attrs mails s).
Proof.
  intros C. unfold fetch_from_mails. destruct (fetch_items is_uid attrs) as [it |]; [| by apply safe_reply].
  destruct (expand_seq_set _ _) as [| r rs]; [by apply safe_reply |].
  destruct (mails_at _ _) as [l |]; [| by apply safe_undefined].
  destruct (fetch_reads_pass it k l) as [H1 H2]. set (s1 := if _ && _ then _ else _).
  assert (covered k s1) as C1 by (unfold s1; destruct (_ && _); [by apply covered_pause | done]).
  destruct (e_fetch_deferred env); [| by apply safe_fetch_finalize].
  apply safe_post; [by apply covered_pause |]. intros s' _ C'. by apply safe_fetch_finalize.
Qed.

Lemma safe_fetch k conn mails is_uid s : covered k s → safe k (handle_fetch env drain conn mails is_uid s).
Proof.
  intros C. unfold handle_fetch. destruct (selected_ok s) eqn:E; simpl negb; cbv iota; [| by apply safe_reject].
  apply selected_ok_parts in E as [A M].
  destruct (fetch_args _) as [[seq_set attrs] |]; [| by apply safe_write].
  destruct (if e_has_list_cache env then _ else _) as [l |]; [by apply safe_fetch_from |].
  destruct conn; simpl negb; cbv iota; [| by apply safe_reject].
  apply safe_get_mails; [by apply covered_pause | done |]. intros ok l.
  destruct (_ || _); [apply safe_reply; by apply covered_pause |].
  apply safe_say.
  - destruct (_ && _); [| done]. simpl. by rewrite covered_may_use.
  - destruct (_ && _); simpl; apply safe_fetch_from; by apply covered_pause.
Qed.

(** A posted reply that drops the cached list of a mailbox that may be used. *)
Lemma safe_invalidate k user mailbox o : may_use k user mailbox = true → safe k o → safe k (say (invalidate user mailbox) o).
Proof. intros U H. apply safe_say; [permit U | done]. Qed.

Lemma safe_post_reply k text s : covered k s → safe k (post (reply_drain drain text) s).
Proof. intros C. apply safe_post; [done |]. intros s' _ C'. by apply safe_reply. Qed.

Lemma safe_store k conn mails s : covered k s → safe k (handle_store env drain conn mails s).
Proof.
  intros C. unfold handle_store. destruct (selected_ok s) eqn:E; simpl negb; cbv iota; [| by apply safe_reject].
  apply selected_ok_parts in E as [A M].
  destruct (store_args _) as [m | a]; [by apply safe_write |].
  destruct conn; simpl negb; cbv iota; [| by apply safe_reject].
  pose proof (covered_pause _ true _ C) as C1. pose proof (covered_may_use _ _ C M) as U.
  apply safe_get_mails; [done | done |]. intros ok l.
  destruct (_ || _); [by apply safe_post_reply |].
  destruct (expand_seq_set _ _); [by apply safe_post_reply |].
  destruct (mails_at _ _) as [l' |]; [| by apply safe_undefined].
  apply safe_say; [permit U |]. simpl.
  destruct (e_store env _) as [done |]; [| by apply safe_waiting].
  apply safe_post; [assumption |]. intros s' _ C'. apply safe_invalidate; [assumption |].
  destruct done; by apply safe_reply.
Qed.

Lemma safe_expunge k s : covered k s → safe k (handle_expunge env drain s).
Proof.
  intros C. unfold handle_expunge. destruct (selected_ok s) eqn:E; simpl negb; cbv iota; [| by apply safe_reject].
  apply selected_ok_parts in E as [A M]. destruct (e_conn env); simpl negb; cbv iota; [| by apply safe_reject].
  pose proof (covered_pause _ true _ C) as C1. pose proof (covered_may_use _ _ C M) as U.
  apply safe_get_mails; [done | done |]. intros ok l.
  destruct ok; simpl negb; cbv iota; [| by apply safe_post_reply].
  apply safe_say; [permit U |]. simpl.
  destruct (e_expunge env _ _) as [done |]; [| by apply safe_waiting].
  apply safe_post; [assumption |]. intros s' _ C'. apply safe_invalidate; [assumption |].
  destruct done; apply safe_reply; [| done]. destruct C' as [H1 H2 H3 H4 H5]. split; assumption.
Qed.

Lemma covered_deselect k s : covered k s → covered k (deselect s).
Proof. intros [H1 H2 H3 H4 H5]. split; simpl; done. Qed.

Lemma safe_close k s : covered k s → safe k (handle_close env drain s).
Proof.
  intros C. unfold handle_close. case_bool_decide as Hst; [| apply safe_write, covered_deselect, C].
  destruct (e_conn env); simpl negb; cbv iota; [| by apply safe_write].
  pose proof (covered_pause _ true _ C) as C1. pose proof (covered_may_use _ _ C (cov_selected _ _ C Hst)) as U.
  apply safe_say; [permit U |]. simpl.
  destruct (e_expunge env _ _) as [done |]; [| by apply safe_waiting].
  apply safe_post; [assumption |]. intros s' _ C'. apply safe_invalidate; [assumption |].
  destruct done; apply safe_reply; [by apply covered_deselect | done].
Qed.

Lemma safe_noop k s : covered k s → safe k (handle_noop env drain s).
Proof.
  intros C. unfold handle_noop. destruct (_ && _ && _) eqn:E; [| by apply safe_write].
  apply andb_true_iff in E as [E _]. apply andb_true_iff in E as [M _].
  pose proof (covered_pause _ true _ C) as C1.
  apply safe_get_stats; [done | by apply (covered_may_use _ _ C1) |]. intros st.
  destruct (_ >? _); apply safe_reply; [| done]. destruct C1 as [H1 H2 H3 H4 H5]. split; assumption.
Qed.

Lemma safe_create k s : covered k s → safe k (handle_create env drain s).
Proof.
  intros C. unfold handle_create. destruct (negb _); [by apply safe_reject |]. case_bool_decide; [by apply safe_write |].
  apply safe_with_database; [done | by apply safe_reject |]. intros C' A.
  apply safe_say; [simpl; by rewrite bool_decide_true by (by apply (cov_user _ _ C)) |]. simpl.
  destruct (e_create env _ _) as [r |]; [| by apply safe_waiting].
  apply safe_post; [done |]. intros s' _ C2. case_bool_decide; by apply safe_reply.
Qed.

Lemma safe_folder_done k user mailbox r tag st message s :
  covered k s → may_use k user mailbox = true → safe k (post (folder_done drain user mailbox r tag st message) s).
Proof.
  intros C U. apply safe_post; [done |]. intros s' _ C'. unfold folder_done.
  destruct (may_have_changed r); [apply safe_invalidate; [done |] | apply safe_say; [done |]]; by apply safe_reply.
Qed.

Lemma safe_delete k s : covered k s → safe k (handle_delete env drain s).
Proof.
  intros C. unfold handle_delete. apply safe_with_database; [done | by apply safe_reject |]. intros C' A.
  apply safe_find_mailbox; [done.. | |]; [intros k' C0; by apply safe_post_reply |].
  intros k' id C0 U Hid. destruct (Z.eqb_spec id 0) as [| _]; [done |].
  apply safe_say; [permit U |]. simpl.
  destruct (e_remove env _ _) as [r |]; [by apply safe_folder_done | by apply safe_waiting].
Qed.

Lemma safe_rename k s : covered k s → safe k (handle_rename env drain s).
Proof.
  intros C. unfold handle_rename. destruct (negb _); [by apply safe_reject |].
  destruct (match find_char SP _ with Some _ => _ | None => _ end) as [old new].
  destruct (_ || _); [by apply safe_write |].
  apply safe_with_database; [done | by apply safe_reject |]. intros C' A.
  apply safe_find_mailbox; [done.. | |]; [intros k' C0; by apply safe_post_reply |].
  intros k' id C0 U Hid. destruct (Z.eqb_spec id 0) as [| _]; [done |].
  apply safe_say; [permit U |]. simpl.
  destruct (e_rename env _ _ _) as [r |]; [by apply safe_folder_done | by apply safe_waiting].
Qed.

Lemma safe_append k s : covered k s → safe k (handle_append env drain s).
Proof.
  intros C. unfold handle_append. destruct (negb _); [by apply safe_reject |]. case_bool_decide; [by apply safe_write |].
  set (s1 := upd_ctx _ s). assert (covered k s1) as C1 by same.
  destruct (append_preamble _) as [name flags].
  apply safe_with_database; [done | by apply safe_reject |]. intros C' A.
  assert (∀ k' s' text, covered k' s' → core s' = core (set_paused true s1) → safe k' (settle drain (state_ s1) text s')) as Hs.
  { intros k' s' text Cs E. apply safe_settle. apply (f_equal state_) in E; simpl in E.
    eapply covered_same; [| | | exact Cs]; [simpl; congruence | done..]. }
  apply safe_find_mailbox; [done.. | |].
  - intros k' C0. apply safe_post; [done |]. intros s' E Cs. by apply Hs.
  - intros k' id C0 U Hid. destruct (Z.eqb_spec id 0) as [| _]; [done |].
    apply safe_say; [permit U |]. simpl.
    destruct (e_append env _) as [r |]; [| by apply safe_waiting].
    apply safe_post; [done |]. intros s' E Cs. apply safe_invalidate; [done |]. by apply Hs.
Qed.

Lemma safe_search k is_uid s : covered k s → safe k (handle_search env drain is_uid s).
Proof.
  intros C. unfold handle_search. destruct (selected_ok s) eqn:E; simpl negb; cbv iota; [| by apply safe_reject].
  apply selected_ok_parts in E as [A M]. destruct (e_conn env); simpl negb; cbv iota; [| by apply safe_reject].
  pose proof (covered_pause _ true _ C) as C1.
  apply safe_get_mails; [done | done |]. intros ok l.
  destruct ok; simpl negb; cbv iota; [by apply safe_post_reply | by apply safe_reply].
Qed.

Lemma safe_copy_move k conn mails is_move s : covered k s → safe k (handle_copy_move env drain conn mails is_move s).
Proof.
  intros C. unfold handle_copy_move. destruct (selected_ok s) eqn:E; simpl negb; cbv iota; [| by apply safe_reject].
  apply selected_ok_parts in E as [A M].
  destruct (rfind_char _ _) as [sp |]; [| by apply safe_write].
  destruct conn; simpl negb; cbv iota; [| by apply safe_reject].
  pose proof (covered_pause _ true _ C) as C1.
  apply safe_find_mailbox; [done.. | |]; [intros k' C0; by apply safe_reply |].
  intros k' id C0 U Hid. destruct (Z.eqb_spec id 0) as [| _]; [done |].
  pose proof (covered_may_use _ _ C0 M) as U'.
  apply safe_get_mails; [done | done |]. intros ok l.
  destruct ok; simpl negb; cbv iota; [| by apply safe_reply].
  destruct (copy_selection _ _) as [[| i ids] |]; [by apply safe_reply | | by apply safe_undefined].
  apply safe_say.
  { apply andb_true_iff; split; [| done]. apply andb_true_iff; by split. }
  simpl. destruct (e_copy env _) as [r |]; [| by apply safe_waiting].
  apply safe_post; [done |]. intros s' _ Cs. apply safe_say.
  { destruct is_move; simpl; apply andb_true_iff; (split; [exact U |]); [permit U' | done]. }
  destruct is_move, (_ || _); by apply safe_reply.
Qed.

Lemma safe_uid k s : covered k s → safe k (handle_uid env drain s).
Proof.
  intros C. unfold handle_uid. destruct (selected_ok s) eqn:E; simpl negb; cbv iota; [| by apply safe_reject].
  apply selected_ok_parts in E as [A M].
  destruct (find_char SP _) as [sp |]; [| by apply safe_write].
  assert (∀ b a, covered k (upd_ctx (with_uid b a) s)) as Cu by (intros; same).
  assert (∀ b a, covered k (upd_ctx (with_uid b a) (set_paused true s))) as Cp by (intros; same).
  pose proof (covered_pause _ true _ C) as C1.
  case_bool_decide.
  - destruct (e_conn env); simpl negb; cbv iota; [| by apply safe_reject].
    apply safe_get_mails; [done | done |]. intros ok l. destruct (_ || _); [by apply safe_reply |].
    destruct (match find_char SP _ with Some _ => _ | None => _ end) as [set rest].
    apply safe_on_return. case_bool_decide; [by apply safe_fetch |].
    case_bool_decide; [by apply safe_store | by apply safe_copy_move].
  - apply safe_on_return. case_bool_decide; [by apply safe_search | by apply safe_write].
Qed.

Lemma safe_idle k s : covered k s → safe k (handle_idle s).
Proof. intros C. unfold handle_idle. apply safe_say; [done |]. destruct (_ && _); (split; [done | simpl; same]). Qed.

Lemma safe_done k s : covered k s → safe k (handle_done s).
Proof.
  intros C. unfold handle_done. case_bool_decide; (apply safe_say; [done |]; apply safe_write; simpl; same).
Qed.

(** Where the commands that need more than a covered session are allowed. *)
Lemma registered_states allow st ev :
  (st, ev) ∈ registered allow →
  match ev with
  | LOGIN | AUTHENTICATE => st = St.NOT_AUTHENTICATED
  | SELECT | EXAMINE => ¬ (st = St.NOT_AUTHENTICATED ∨ st = St.INIT)
  | CONNECT => st = St.INIT
  | _ => True
  end.
Proof.
  intros H. apply (bool_decide_eq_true_2 _) in H. revert H.
  destruct allow, ev, st; vm_compute; intros; first [discriminate | intuition discriminate].
Qed.

Lemma safe_handler k ev s :
  covered k s → (state_ s, ev) ∈ registered (negb (is_tls cfg)) → safe k (run_handler cfg env drain ev s).
Proof.
  intros C R. apply registered_states in R. unfold run_handler.
  destruct ev; auto using safe_login, safe_authenticate, safe_logout, safe_list, safe_lsub, safe_status, safe_fetch,
    safe_store, safe_expunge, safe_close, safe_noop, safe_create, safe_delete, safe_rename, safe_append, safe_search,
    safe_copy_move, safe_uid, safe_idle, safe_done; try (apply safe_select; assumption); try (by apply safe_write);
    try (split; [done | simpl; same]).
  apply safe_reply. pose proof (cov_outside _ _ C (or_intror R)) as H. destruct C as [C1 C2 C3 C4 C5].
  split; simpl; auto. done.
Qed.

Lemma safe_process_event k ev tag s : covered k s → safe k (process_event cfg env drain ev tag s).
Proof.
  intros C. unfold process_event. set (s1 := upd_ctx _ s). assert (covered k s1) as C1 by same.
  destruct (closed s1); [by split |]. destruct (is_terminal _ _); [split; [done | simpl; same] |].
  destruct (guard_target _ _ _); [| by apply safe_write].
  case_bool_decide as R; [by apply safe_handler | by apply safe_write].
Qed.
End Safe.

Lemma safe_handle_read k data s : covered k s → safe k (handle_read data s).
Proof.
  intros C. unfold handle_read, literal_chunk, begin_literal, plain_command, send_continuation.
  repeat match goal with
         | |- safe _ (write _ _) => apply safe_write
         | |- safe _ (Now _ _) => split; [done | simpl]
         | |- context [match ?x with _ => _ end] => destruct x
         end; same.
Qed.

Section SafeRun.
Context (cfg : ImapConfig).

Lemma safe_process_read env drain k s :
  (∀ k s, covered k s → safe k (drain s)) → covered k s → safe k (process_read cfg env drain s).
Proof.
  intros Hd C. unfold process_read. destruct (_ || _); [by split |].
  destruct (idle_done_received _); (apply safe_process_event; [done |]; simpl; same).
Qed.

Lemma safe_consume envs fuel k s : covered k s → safe k (consume cfg envs fuel s).
Proof.
  revert k s. induction fuel as [| fuel IH]; intros k s C; simpl; [by split |].
  destruct (_ || _); [by split |]. destruct (extract_one_line s) as [[line s1] |] eqn:E; [| by split].
  assert (covered k s1) as C1.
  { revert E. unfold extract_one_line. destruct (awaiting_literal _).
    - destruct (command_read_buffer s); [done |]. intros [= <- <-]. same.
    - destruct (find_sub _ _); simpl; [| done]. intros [= <- <-]. same. }
  apply safe_and_then; [by apply safe_handle_read |]. intros k2 s2 C2.
  apply safe_and_then; [| auto]. apply safe_process_read; [| done].
  intros k3 s3 C3. apply IH. by apply covered_pause.
Qed.

Lemma safe_step i k s :
  covered k s →
  accepts k (fst (imap_step cfg i s)) = true ∧ covered (learnt k (fst (imap_step cfg i s))) (snd (imap_step cfg i s)).
Proof.
  intros C. destruct i as [limit envs data | | mailbox count]; simpl.
  - unfold imap_chunk. destruct (closed s); [done |]. set (s1 := set_reading _ _).
    assert (covered k s1) as C1 by same. destruct (_ <? _)%nat; [split; [done |]; simpl; same |].
    pose proof (safe_finish _ _ (safe_consume envs (length (command_read_buffer s1)) k s1 C1)) as [H1 H2].
    destruct (finish _) as [acts s2]; simpl in *. split; [done |]. destruct (_ && _); [same | done].
  - unfold poll. destruct (_ || _) eqn:E; [done |]. simpl.
    repeat (apply orb_false_iff in E as [E ?]). assert (mailbox_selected (sel s) = true) as M by (by apply negb_false_iff).
    rewrite (covered_may_use _ _ C M). split; [done | same].
  - unfold poll_answer. destruct (closed s); [done |]. destruct (_ || _); [split; [done |]; simpl; same |].
    destruct (_ <=? _); [split; [done |]; simpl; same |]. split; [done |]. simpl.
    destruct C as [H1 H2 H3 H4 H5]. split; assumption.
Qed.

Lemma safe_run ins k s :
  covered k s → accepts k (fst (imap_run cfg ins s)) = true.
Proof.
  revert k s. induction ins as [| i ins IH]; intros k s C; simpl; [done |].
  pose proof (safe_step i k s C) as [H1 H2]. destruct (imap_step cfg i s) as [a s1]; simpl in *.
  specialize (IH _ _ H2). destruct (imap_run cfg ins s1) as [b s2]; simpl in *. by rewrite accepts_app, H1, IH.
Qed.

(** C3: A session only ever touches mailboxes of the user who logged in: whatever
    input arrives in whatever pieces, whatever the repositories answer, and with
    polls and commands interleaved in any order, each query or change of stored
    mail names the user returned by the last successful authentication and a
    mailbox that was looked up for that user before. *)
Theorem mailbox_access_authorised env after_starttls ins :
  accepts nothing ((imap_start cfg env after_starttls).1 ++ (imap_run cfg ins (imap_start cfg env after_starttls).2).1) = true.
Proof.
  assert (∀ st, st ≠ St.SELECTED → covered nothing (set_st st new_imap_session)) as C0 by (intros st H; split; simpl; done).
  rewrite accepts_app.
  assert (accepts nothing (imap_start cfg env after_starttls).1 = true
          ∧ covered (learnt nothing (imap_start cfg env after_starttls).1) (imap_start cfg env after_starttls).2) as [H1 H2].
  { unfold imap_start. destruct after_starttls.
    - split; [done |]. simpl. eapply covered_same; [| | | by apply (C0 St.NOT_AUTHENTICATED)]; done.
    - apply safe_finish, safe_process_event; [by split |]. by apply (C0 St.INIT). }
  rewrite H1. by apply safe_run.
Qed.
End SafeRun.

(** ** Every command is answered

    With repositories that call back, a command is answered by one write that
    ends in its tagged status line, and the session is ready for the next one.
    [UID] passes its subcommand on while the session is paused, so it is only
    covered when the subcommand gets as far as its reply. *)

Record responsive (env : CmdEnv) : Prop := mkResponsive {
  re_auth : ∀ f, e_authenticator env = Some f → ∀ u p, is_Some (f u p);
  re_mailboxes : ∀ u, is_Some (e_mailboxes env u);
  re_find : ∀ u n, is_Some (e_find env u n);
  re_stats : ∀ u m, is_Some (e_stats env u m);
  re_mails : ∀ u m, is_Some (e_mails env u m);
  re_mails2 : ∀ u m, is_Some (e_mails2 env u m);
  re_store : ∀ r, is_Some (e_store env r);
  re_expunge : ∀ u m, is_Some (e_expunge env u m);
  re_copy : ∀ r, is_Some (e_copy env r);
  re_create : ∀ u n, is_Some (e_create env u n);
  re_remove : ∀ u m, is_Some (e_remove env u m);
  re_rename : ∀ u m n, is_Some (e_rename env u m n);
  re_append : ∀ r, is_Some (e_append env r);
  re_lease : e_conn env = true → e_conn2 env = true;
}.

Definition writes (acts : list ImapAction) : list bytes :=
  omap (λ a, match a with Write d => Some d | _ => None end) acts.

(** The reply [w] ends in a status line for [tag]. *)
Definition completes (tag w : bytes) : Prop :=
  ∃ pre st message, st ∈ [s! "OK"; s! "NO"; s! "BAD"] ∧ w = pre ++ tagged tag st message.

(** An outcome whose writes, behind those of [ws], and final session satisfy
    [R], whatever the UID fields are when its posted part runs. *)
Fixpoint answering (R : list bytes → ImapsSession → Prop) (ws : list bytes) (o : Out) : Prop :=
  match o with
  | Now a s => R (ws ++ writes a) s
  | Later a s f => ∀ s', core s' = core s → answering R (ws ++ writes a) (f s')
  end.

Lemma answering_finish R ws o : answering R ws o → R (ws ++ writes (fst (finish o))) (snd (finish o)).
Proof.
  revert ws. induction o as [a s | a s f IH]; intros ws H; simpl in *; [done |].
  specialize (IH s _ (H s eq_refl)). destruct (finish (f s)) as [b s']; simpl in *.
  unfold writes in *. by rewrite omap_app, app_assoc.
Qed.

Lemma answering_say' R ws a o : answering R (ws ++ writes a) o → answering R ws (say a o).
Proof. destruct o as [b s | b s f]; simpl; unfold writes; rewrite omap_app, app_assoc; done. Qed.

Lemma answering_say R ws a o : writes a = [] → answering R ws o → answering R ws (say a o).
Proof. intros Ha H. apply answering_say'. by rewrite Ha, app_nil_r. Qed.

Lemma answering_and_then (R R' : list bytes → ImapsSession → Prop) ws o f :
  answering R ws o → (∀ ws s, R ws s → answering R' ws (f s)) → answering R' ws (and_then o f).
Proof.
  intros Ho Hf. revert ws Ho. induction o as [a s | a s g IH]; intros ws Ho; simpl in *; [| by auto].
  apply answering_say'. auto.
Qed.

Lemma completes_tagged tag pre st message :
  st ∈ [s! "OK"; s! "NO"; s! "BAD"] → completes tag (pre ++ tagged tag st message).
Proof. intros H. by exists pre, st, message. Qed.

Lemma completes_alone tag st message : st ∈ [s! "OK"; s! "NO"; s! "BAD"] → completes tag (tagged tag st message).
Proof. intros H. by apply (completes_tagged tag []). Qed.

(** Replies whose status line is written out in one piece. *)
Lemma completes_text tag pre st message w :
  st ∈ [s! "OK"; s! "NO"; s! "BAD"] → w = pre ++ tag ++ s! " " ++ st ++ s! " " ++ message ++ CRLF → completes tag w.
Proof. intros H ->. by exists pre, st, message. Qed.

Ltac status := refine (bool_decide_unpack _ _); vm_compute; exact I.

(** What decides how the rest of the input is read. *)
Definition view (s : ImapsSession) : bytes * Reader * bool * Z :=
  (command_read_buffer s, reader s, idle_mode (context_ s), sasl_plain_state (context_ s)).

(** What UID needs to reach the reply of its subcommand. *)
Definition uid_complete (args : bytes) : Prop :=
  ∀ sp, find_char SP args = Some sp →
  let sub := toupper <$> take sp args in
  let rest := drop (sp + 1) args in
  (sub = s! "FETCH" ∨ sub = s! "COPY" → SP ∈ rest)
  ∧ (sub = s! "STORE" → ∃ i, find_char SP rest = Some i ∧ SP ∈ drop (i + 1) rest).

(** Commands whose one reply is their tagged status line: not the greeting, the
    IDLE and SASL continuations, or a UID command cut short. *)
Definition single_reply (ev : ImapEvent) (args : bytes) : Prop :=
  match ev with
  | CONNECT | IDLE | TIMEOUT => False
  | AUTHENTICATE => ∃ i, find_char SP args = Some i ∧ drop (i + 1) args ≠ []
  | UID => uid_complete args
  | _ => True
  end.

(** [R] is what is to hold when the command [tag], taken behind the replies
    [ws0] with the reading side [v], and whatever it drains are through. *)
Section Answers.
Context (cfg : ImapConfig) (env : CmdEnv) (Hr : responsive env) (drain : ImapsSession → Out).
Context (tag : bytes) (ws0 : list bytes) (v : bytes * Reader * bool * Z) (R : list bytes → ImapsSession → Prop).
Hypothesis v_quiet : v.1.2 = false ∧ v.2 = 0.
Hypothesis R_uid : ∀ ws s, R ws s → R ws (end_uid s).
Hypothesis R_closed : ∀ ws s, closed s = true → R ws s.
Hypothesis R_ready : ∀ w s, completes tag w → view s = v → paused s = false → reading s = true → R (ws0 ++ [w]) s.
Hypothesis R_drain : ∀ w s, completes tag w → view s = v → reading s = true → answering R (ws0 ++ [w]) (drain s).
Abbreviation ans := (answering R ws0).

Lemma answering_on_return ws o : answering R ws o → answering R ws (on_return end_uid o).
Proof. destruct o as [a s | a s f]; simpl; [apply R_uid |]. intros H s' E. by apply H. Qed.

Lemma answering_write data s : paused s = false → view s = v → completes tag data → ans (write data s).
Proof. intros P V H. by apply R_ready. Qed.

Lemma answering_reply data s : view s = v → completes tag data → ans (reply_drain drain data s).
Proof. intros V H. apply answering_say'. by apply R_drain. Qed.

Lemma answering_tagged st message s :
  view s = v → st ∈ [s! "OK"; s! "NO"; s! "BAD"] → ans (tagged_drain drain tag st message s).
Proof. intros V H. by apply answering_reply, completes_alone. Qed.

Lemma answering_send st message s :
  paused s = false → view s = v → st ∈ [s! "OK"; s! "NO"; s! "BAD"] → ans (send_tagged tag st message s).
Proof. intros P V H. by apply answering_write, completes_alone. Qed.

Lemma answering_undefined s : ans (undefined s).
Proof. by apply R_closed. Qed.

Lemma answering_post f s : view s = v → (∀ s', view s' = v → ans (f s')) → ans (post f s).
Proof. intros V H s' E. simpl. rewrite app_nil_r. apply H. rewrite <- V. exact (f_equal view E). Qed.

Lemma answering_find name f s : (∀ id, ans (f id s)) → ans (find_mailbox env name f s).
Proof.
  intros H. apply answering_say; [done |].
  destruct (re_find _ Hr (user_id (ident s)) (lookup_name name)) as [id E]. by rewrite E.
Qed.

Lemma answering_stats mailbox f s : (∀ st, ans (f st s)) → ans (get_stats env mailbox f s).
Proof.
  intros H. apply answering_say; [done |]. destruct (re_stats _ Hr (user_id (ident s)) mailbox) as [st E]. by rewrite E.
Qed.

Lemma answering_mails answer f s :
  (∀ u m, is_Some (answer u m)) → (∀ ok l, ans (f ok l s)) → ans (get_mails answer f s).
Proof.
  intros Ha H. apply answering_say; [done |].
  destruct (Ha (user_id (ident s)) (selected_mailbox_id (sel s))) as [[ok l] E]. by rewrite E.
Qed.

Lemma answering_boxes f s : (∀ ok l, ans (f ok l s)) → ans (get_mailboxes env f s).
Proof.
  intros H. apply answering_say; [done |].
  destruct (re_mailboxes _ Hr (user_id (ident s))) as [[ok l] E]. by rewrite E.
Qed.

Lemma answering_reject s :
  paused s = false → tag_of s = tag → view s = v →
  ans (not_authenticated s) ∧ ans (no_mailbox s) ∧ ans (no_database s)
  ∧ ans (server_error s).
Proof.
  intros P T V. unfold not_authenticated, no_mailbox, no_database, server_error. rewrite T.
  split_and!; (apply answering_send; [done | done | status]).
Qed.

Lemma answering_database fail f s :
  paused s = false → tag_of s = tag → view s = v → ans (fail s) → ans (f (set_paused true s)) →
  ans (with_database env fail f s).
Proof.
  intros P T V H1 H2. unfold with_database. destruct (negb _); [by apply answering_reject |]. by destruct (negb _).
Qed.

Lemma answering_settle st text s : view s = v → completes tag (text ++ CRLF) → ans (settle drain st text s).
Proof. intros V. by apply answering_reply. Qed.

Ltac reply := first [apply answering_tagged; [done | status] | apply answering_undefined
                    | apply answering_send; [assumption | done | status] | by apply answering_reject].

Lemma answering_auth user password ok_text fail_text s :
  paused s = false → tag_of s = tag → view s = v → ans (start_auth_verify cfg env drain user password ok_text fail_text s).
Proof.
  intros P T V. unfold start_auth_verify. rewrite T. destruct (negb _); [reply |]. apply answering_post; [done |]. intros s' V'.
  apply answering_say; [done |].
  destruct (match e_authenticator env with Some f => _ | None => _ end) as [r |] eqn:E.
  2:{ exfalso. destruct (e_authenticator env) as [f |] eqn:Ef; [| done].
      destruct (re_auth _ Hr f Ef (qualified cfg user) password) as [x Hx]. congruence. }
  destruct (auth_ok r); [| destruct (_ <=? _); [by apply R_closed |]]; (apply answering_settle; [done |]).
  - apply (completes_text _ [] (s! "OK") ok_text); [status | by rewrite <- !app_assoc].
  - apply (completes_text _ [] (s! "NO") fail_text); [status | by rewrite <- !app_assoc].
Qed.

Lemma answering_login s : paused s = false → tag_of s = tag → view s = v → ans (handle_login cfg env drain s).
Proof.
  intros P T V. unfold handle_login. destruct (login_args _) as [[user password] |]; [by apply answering_auth |].
  unfold internal_error. rewrite T. apply answering_write; [done | done |].
  apply (completes_text _ [] (s! "NO") (s! "Internal server error")); [status | done].
Qed.

Lemma answering_select name ro last s :
  paused s = false → tag_of s = tag → view s = v →
  (∀ l, completes tag (last tag l)) → ans (select_mailbox env drain name ro last s).
Proof.
  intros P T V Hl. unfold select_mailbox. apply answering_database; [done.. | reply |]. apply answering_find. intros id.
  rewrite T. destruct (_ =? _); [reply |]. apply answering_stats. intros st. apply answering_reply; [done |].
  unfold select_response. destruct (Hl (sel (upd_sel (with_announced (exists_ st)) (set_st St.SELECTED
    (upd_sel (λ l, mkSel true name id id (announced_exists l) ro) (set_paused true s)))))) as (pre & st' & m & H1 & H2).
  rewrite H2. rewrite !app_assoc. by apply completes_tagged.
Qed.

Lemma answering_list s : paused s = false → tag_of s = tag → view s = v → ans (handle_list env drain s).
Proof.
  intros P T V. unfold handle_list. apply answering_database; [done.. | reply |]. apply answering_boxes. intros ok l.
  rewrite T. destruct (negb ok); [reply |]. destruct (list_lines l); [| reply].
  apply answering_reply; [done |]. apply completes_tagged. status.
Qed.

Lemma answering_lsub s : paused s = false → tag_of s = tag → view s = v → ans (handle_lsub env drain s).
Proof.
  intros P T V. unfold handle_lsub. apply answering_database; [done.. | reply |]. apply answering_boxes. intros ok l.
  rewrite T. destruct (lsub_lines l); [| reply]. apply answering_reply; [done |]. apply completes_tagged. status.
Qed.

Lemma answering_status s : paused s = false → tag_of s = tag → view s = v → ans (handle_status env drain s).
Proof.
  intros P T V. unfold handle_status. destruct (status_args _) as [name attrs]. destruct (negb _); [reply |]. rewrite T.
  destruct (_ && _); [reply |]. apply answering_database; [done.. | reply |]. apply answering_find. intros id.
  destruct (_ =? _); [reply |]. apply answering_stats. intros st. destruct (status_response _ _ _ _); [| reply].
  apply answering_reply; [done |]. apply completes_tagged. status.
Qed.

Lemma no_writes it (l : list (Z * MailInfo)) : writes (concat (fst <$> ((λ '(n, m), fetch_mail env it n m) <$> l))) = [].
Proof.
  induction l as [| [n m] l IH]; [done |]. cbn [fmap list_fmap concat]. unfold writes in *. rewrite omap_app, IH, app_nil_r.
  unfold fetch_mail. cbn [fst]. destruct (_ && _), (need_body env it m); done.
Qed.

Lemma answering_finalize acts response s :
  view s = v → writes acts = [] → ans (fetch_finalize drain acts response tag s).
Proof.
  intros V Ha. apply answering_say; [done |]. unfold write. cbn [and_then]. apply answering_say'. simpl.
  assert (completes tag (response ++ tagged tag (s! "OK") (s! "FETCH completed"))) as Hc by (apply completes_tagged; status).
  destruct (has_buffered_input _); [by apply R_drain |]. intros s' E. rewrite app_nil_r.
  apply R_drain; [done | rewrite <- V; exact (f_equal view E) | exact (f_equal reading E)].
Qed.

Lemma answering_fetch_from is_uid seq_set attrs mails s :
  view s = v → ans (fetch_from_mails env drain tag is_uid seq_set attrs mails s).
Proof.
  intros V. unfold fetch_from_mails. destruct (fetch_items _ _) as [it |]; [| reply].
  destruct (expand_seq_set _ _) as [| r rs]; [reply |]. destruct (mails_at _ _) as [l |]; [| reply].
  set (s1 := if _ && _ then _ else _). assert (view s1 = v) as V1 by (unfold s1; by destruct (_ && _)).
  destruct (e_fetch_deferred env); [apply answering_post; [done |]; intros s' V' |];
    (apply answering_finalize; [done | apply no_writes]).
Qed.

(** FETCH: a paused session (inside UID) is fine once the arguments are. *)
Lemma answering_fetch conn mails is_uid s :
  (∀ u m, is_Some (mails u m)) → tag_of s = tag → view s = v →
  paused s = false ∨ (conn = true ∧ selected_ok s = true ∧ SP ∈ effective_args s) →
  ans (handle_fetch env drain conn mails is_uid s).
Proof.
  intros Hm T V P. unfold handle_fetch. rewrite T.
  destruct (selected_ok s) eqn:Eo; simpl negb; cbv iota; [| destruct P as [P | (_ & ? & _)]; [reply | done]].
  destruct (fetch_args _) as [[set attrs] |] eqn:Ef.
  2:{ destruct P as [P | (_ & _ & Hs)]; [reply |]. unfold fetch_args in Ef. exfalso.
      destruct (find_char SP (effective_args s)) eqn:E; [done |]. by apply find_char_None in E. }
  destruct (if e_has_list_cache env then _ else _) as [lc |]; [by apply answering_fetch_from |].
  destruct conn; simpl negb; cbv iota; [| destruct P as [P | [? _]]; [reply | done]].
  apply answering_mails; [done |]. intros ok l. destruct (_ || _); [reply |].
  apply answering_say; [by destruct (_ && _) | by apply answering_fetch_from].
Qed.

Lemma answering_invalidate user mailbox o : ans o → ans (say (invalidate user mailbox) o).
Proof. by apply answering_say. Qed.

Lemma answering_store conn mails s :
  (∀ u m, is_Some (mails u m)) → tag_of s = tag → view s = v →
  paused s = false ∨ (conn = true ∧ selected_ok s = true ∧ ∃ a, store_args (effective_args s) = inr a) →
  ans (handle_store env drain conn mails s).
Proof.
  intros Hm T V P. unfold handle_store. rewrite T.
  destruct (selected_ok s) eqn:Eo; simpl negb; cbv iota; [| destruct P as [P | (_ & ? & _)]; [reply | done]].
  destruct (store_args _) as [m | a]; [destruct P as [P | (_ & _ & [? [=]])]; reply |].
  destruct conn; simpl negb; cbv iota; [| destruct P as [P | [? _]]; [reply | done]].
  apply answering_mails; [done |]. intros ok l.
  destruct (_ || _); [apply answering_post; [done |]; intros s' V'; apply answering_tagged; [done |]; destruct ok; status |].
  destruct (expand_seq_set _ _) as [| r rs]; [apply answering_post; [done |]; intros s' V'; reply |].
  destruct (mails_at _ _) as [l' |]; [| reply]. apply answering_say; [done |].
  destruct (re_store _ Hr (store_request a (set_paused true s) l')) as [b ->].
  apply answering_post; [done |]; intros s' V'. apply answering_invalidate. destruct b; [| reply].
  apply answering_reply; [done |]. apply completes_tagged. status.
Qed.

Lemma answering_expunge s : paused s = false → tag_of s = tag → view s = v → ans (handle_expunge env drain s).
Proof.
  intros P T V. unfold handle_expunge. rewrite T. destruct (negb _); [reply |]. destruct (negb _); [reply |].
  apply answering_mails; [apply (re_mails _ Hr) |]. intros ok l.
  destruct (negb ok); [apply answering_post; [done |]; intros s' V'; reply |]. apply answering_say; [done |].
  destruct (re_expunge _ Hr (user_id (ident (set_paused true s))) (selected_mailbox_id (sel (set_paused true s)))) as [b ->].
  apply answering_post; [done |]; intros s' V'. apply answering_invalidate. destruct b; [| reply].
  apply answering_reply; [done |]. apply completes_tagged. status.
Qed.

Lemma answering_close s : paused s = false → tag_of s = tag → view s = v → ans (handle_close env drain s).
Proof.
  intros P T V. unfold handle_close. rewrite T. destruct (bool_decide _); [| reply]. destruct (negb _); [reply |].
  apply answering_say; [done |].
  destruct (re_expunge _ Hr (user_id (ident (set_paused true s))) (selected_mailbox_id (sel (set_paused true s)))) as [b ->].
  apply answering_post; [done |]; intros s' V'. apply answering_invalidate. destruct b; reply.
Qed.

Lemma answering_noop s : paused s = false → tag_of s = tag → view s = v → ans (handle_noop env drain s).
Proof.
  intros P T V. unfold handle_noop. rewrite T. destruct (_ && _ && _).
  - apply answering_stats. intros st. destruct (_ >? _); (apply answering_reply; [done |]); [| apply completes_alone; status].
    rewrite !app_assoc. apply completes_tagged. status.
  - apply answering_write; [done | done |]. apply completes_alone. status.
Qed.

Lemma answering_create s : paused s = false → tag_of s = tag → view s = v → ans (handle_create env drain s).
Proof.
  intros P T V. unfold handle_create. rewrite T. destruct (negb _); [reply |]. destruct (bool_decide _); [reply |].
  apply answering_database; [done.. | reply |]. apply answering_say; [done |].
  destruct (re_create _ Hr (user_id (ident (set_paused true s))) (decode_mailbox_name (unquote (args_of s)))) as [r ->].
  apply answering_post; [done |]; intros s' V'. destruct (bool_decide _); reply.
Qed.

Lemma answering_folder user id r st message s :
  view s = v → st ∈ [s! "OK"; s! "NO"; s! "BAD"] → ans (post (folder_done drain user id r tag st message) s).
Proof.
  intros V H. apply answering_post; [done |]; intros s' V'. apply answering_say; [by destruct (may_have_changed r) |].
  by apply answering_tagged.
Qed.

Lemma answering_delete s : paused s = false → tag_of s = tag → view s = v → ans (handle_delete env drain s).
Proof.
  intros P T V. unfold handle_delete. rewrite T. apply answering_database; [done.. | reply |]. apply answering_find. intros id.
  destruct (_ =? _); [apply answering_post; [done |]; intros s' V'; reply |]. apply answering_say; [done |].
  destruct (re_remove _ Hr (user_id (ident (set_paused true s))) id) as [r ->].
  apply answering_folder; [done |]. destruct (folder_status r); status.
Qed.

Lemma answering_rename s : paused s = false → tag_of s = tag → view s = v → ans (handle_rename env drain s).
Proof.
  intros P T V. unfold handle_rename. rewrite T. destruct (negb _); [reply |].
  destruct (match find_char SP _ with Some _ => _ | None => _ end) as [old new]. destruct (_ || _); [reply |].
  apply answering_database; [done.. | reply |]. apply answering_find. intros id.
  destruct (_ =? _); [apply answering_post; [done |]; intros s' V'; reply |]. apply answering_say; [done |].
  destruct (re_rename _ Hr (user_id (ident (set_paused true s))) id (decode_mailbox_name new)) as [r ->].
  apply answering_folder; [done |]. destruct (folder_status r); status.
Qed.

Lemma answering_append s : paused s = false → tag_of s = tag → view s = v → ans (handle_append env drain s).
Proof.
  intros P T V. unfold handle_append. rewrite T. destruct (negb _); [reply |]. destruct (bool_decide _); [reply |].
  destruct (append_preamble _) as [name flags]. apply answering_database; [done.. | reply |]. apply answering_find. intros id.
  destruct (_ =? _).
  { apply answering_post; [done |]; intros s' V'. apply answering_settle; [done |].
    apply (completes_text _ [] (s! "NO") (s! "APPEND failed: mailbox not found")); [status | by rewrite <- !app_assoc]. }
  apply answering_say; [done |].
  match goal with |- context [e_append env ?r] => destruct (re_append _ Hr r) as [r' ->] end.
  apply answering_post; [done |]; intros s' V'. apply answering_invalidate, answering_settle; [done |].
  destruct (append_ok r'); [| destruct (bool_decide _)].
  - apply (completes_text _ [] (s! "OK") (s! "[APPENDUID " ++ to_string id ++ s! " " ++ to_string (append_mail_id r')
                                          ++ s! "] APPEND completed")); [status |]. by rewrite <- !app_assoc.
  - apply (completes_text _ [] (s! "NO") (append_error r')); [status |]. by rewrite <- !app_assoc.
  - apply (completes_text _ [] (s! "NO") (s! "[SERVERBUG] APPEND failed" ++
      match append_error r' with [] => [] | e => s! ": " ++ e end)); [status |]. by rewrite <- !app_assoc.
Qed.

Lemma answering_search is_uid s :
  paused s = false → tag_of s = tag → view s = v → ans (handle_search env drain is_uid s).
Proof.
  intros P T V. unfold handle_search. rewrite T. destruct (negb _); [reply |]. destruct (negb _); [reply |].
  apply answering_mails; [apply (re_mails _ Hr) |]. intros ok l. destruct (negb ok); [reply |].
  apply answering_post; [done |]; intros s' V'. apply answering_reply; [done |].
  destruct (search_hits _ _ _ _ _); [| apply completes_alone; status].
  rewrite !app_assoc. apply completes_tagged. status.
Qed.

Lemma answering_copy conn mails is_move s :
  (∀ u m, is_Some (mails u m)) → tag_of s = tag → view s = v →
  paused s = false ∨ (conn = true ∧ selected_ok s = true ∧ is_Some (rfind_char SP (effective_args s))) →
  ans (handle_copy_move env drain conn mails is_move s).
Proof.
  intros Hm T V P. unfold handle_copy_move. rewrite T.
  destruct (selected_ok s) eqn:Eo; simpl negb; cbv iota; [| destruct P as [P | (_ & ? & _)]; [reply | done]].
  destruct (rfind_char _ _) as [sp |]; [| destruct P as [P | (_ & _ & [? [=]])]; reply].
  destruct conn; simpl negb; cbv iota; [| destruct P as [P | [? _]]; [reply | done]].
  apply answering_find. intros id. destruct (_ =? _); [reply |]. apply answering_mails; [done |]. intros ok l.
  destruct (negb ok); [reply |]. destruct (copy_selection _ _) as [[| i ids] |]; [reply | | reply].
  apply answering_say; [done |].
  match goal with |- context [e_copy env ?r] => destruct (re_copy _ Hr r) as [r' ->] end.
  apply answering_post; [done |]; intros s' V'. apply answering_say; [by destruct is_move |].
  destruct (_ || _); reply.
Qed.

(** A second space is behind the first one. *)
Lemma two_spaces u t : SP ∈ t → ∃ i, find_char SP (u ++ SP :: t) = Some i ∧ SP ∈ drop (i + 1) (u ++ SP :: t).
Proof.
  intros H. destruct (find_char SP (u ++ SP :: t)) as [i |] eqn:E.
  - exists i. split; [done |]. apply find_char_Some in E as [_ Hb].
    destruct (decide (i <= length u)%nat) as [Hi | Hi].
    + assert (drop (i + 1) (u ++ SP :: t) = drop (i + 1) (u ++ [SP]) ++ t) as ->.
      { change (SP :: t) with ([SP] ++ t). rewrite app_assoc. apply drop_app_le. rewrite length_app. simpl. lia. }
      apply elem_of_app. by right.
    + exfalso. apply Hb. rewrite take_app_ge by lia. apply elem_of_app. right.
      destruct (i - length u)%nat as [| j] eqn:Ej; [lia |]. by left.
  - exfalso. apply find_char_None in E. apply E, elem_of_app. right. by left.
Qed.

Lemma rfind_char_elem c (u : bytes) : c ∈ u → is_Some (rfind_char c u).
Proof.
  induction u as [| b u IH]; intros H; [by apply elem_of_nil in H |]. simpl.
  apply elem_of_cons in H as [<- | H].
  - destruct (rfind_char c u); [by eexists |]. rewrite Z.eqb_refl. by eexists.
  - destruct (IH H) as [i ->]. by eexists.
Qed.

Lemma store_args_two u t : SP ∈ t → ∃ a, store_args (u ++ SP :: t) = inr a.
Proof.
  intros H. destruct (two_spaces u t H) as (i & E & Hd). unfold store_args. rewrite E.
  destruct (find_char SP (drop (i + 1) (u ++ SP :: t))) as [j |] eqn:Ej; [by eexists |].
  by apply find_char_None in Ej.
Qed.

Lemma answering_uid s :
  paused s = false → tag_of s = tag → view s = v → uid_complete (args_of s) →
  ans (handle_uid env drain s).
Proof.
  intros P T V Hu. unfold handle_uid. rewrite T. destruct (selected_ok s) eqn:Eo; simpl negb; cbv iota; [| reply].
  destruct (find_char SP (args_of s)) as [sp |] eqn:Esp; [| reply]. destruct (Hu sp Esp) as [Hf Hs]. cbn zeta in *.
  set (sub := toupper <$> take sp (args_of s)) in *. set (rest := drop (sp + 1) (args_of s)) in *.
  case_bool_decide as Hin.
  - destruct (e_conn env) eqn:Ec; simpl negb; cbv iota; [| reply]. pose proof (re_lease _ Hr Ec) as Hc2.
    apply answering_mails; [apply (re_mails _ Hr) |]. intros ok l.
    destruct (_ || _); [reply |].
    assert (∃ i, find_char SP rest = Some i) as [i Ei].
    { destruct (find_char SP rest) as [i |] eqn:E; [by eexists |]. exfalso. apply find_char_None in E.
      apply elem_of_cons in Hin as [Hin | Hin]; [by auto |].
      apply elem_of_cons in Hin as [Hin | Hin]; [by destruct (Hs Hin) as (? & [=] & _) |].
      apply list_elem_of_singleton in Hin. auto. }
    rewrite Ei. pose proof Ei as Ei'. apply find_char_Some in Ei' as [Hi _].
    assert (drop i rest = SP :: drop (i + 1) rest) as Ed by (rewrite Nat.add_1_r; by apply drop_S).
    rewrite Ed. apply answering_on_return.
    case_bool_decide; [| case_bool_decide].
    + apply answering_fetch; [apply (re_mails2 _ Hr) | done | done |]. right. split; [done |]. split; [done |].
      apply elem_of_app. right. by left.
    + apply answering_store; [apply (re_mails2 _ Hr) | done | done |]. right. split; [done |]. split; [done |].
      apply store_args_two. destruct Hs as (j & Ej & Hd); [done |]. congruence.
    + apply answering_copy; [apply (re_mails2 _ Hr) | done | done |]. right. split; [done |]. split; [done |].
      apply rfind_char_elem, elem_of_app. right. by left.
  - apply answering_on_return. case_bool_decide; [by apply answering_search | reply].
Qed.

Lemma answering_sasl b64 s : paused s = false → tag_of s = tag → view s = v → ans (verify_sasl_plain cfg env drain b64 s).
Proof.
  intros P T V. unfold verify_sasl_plain. rewrite T. destruct (plain_parts _) as [[user password] |]; [| reply].
  by apply answering_auth.
Qed.

Lemma answering_authenticate s :
  paused s = false → tag_of s = tag → view s = v → single_reply AUTHENTICATE (args_of s) → ans (handle_authenticate cfg env drain s).
Proof.
  intros P T V (i & E & Hd). unfold handle_authenticate.
  assert (sasl_plain_state (context_ s) = 0) as -> by (rewrite <- (proj2 v_quiet), <- V; done).
  simpl Z.eqb. cbv iota. rewrite E, T. destruct (negb _); [reply |].
  destruct (drop (i + 1) (args_of s)) eqn:Ed; [done |]. by apply answering_sasl.
Qed.

Lemma answering_handler ev s :
  paused s = false → tag_of s = tag → view s = v → single_reply ev (args_of s) → ans (run_handler cfg env drain ev s).
Proof.
  intros P T V H. pose proof (re_mails _ Hr) as Hm. unfold run_handler.
  destruct ev; try done; try (by apply R_closed);
    auto using answering_login, answering_authenticate, answering_list, answering_lsub, answering_status, answering_fetch,
      answering_store, answering_expunge, answering_close, answering_noop, answering_create, answering_delete,
      answering_rename, answering_append, answering_search, answering_copy.
  all: try (unfold handle_subscribe, handle_unsubscribe, handle_check, handle_error; rewrite T; apply answering_send; [done | done | status]).
  - unfold handle_capability. rewrite T. apply answering_write; [done | done |]. rewrite !app_assoc.
    apply (completes_text _ (s! "* CAPABILITY IMAP4rev1" ++ (if is_tls cfg then [] else s! " STARTTLS")
             ++ s! " IDLE UIDPLUS MOVE AUTH=PLAIN" ++ CRLF) (s! "OK") (s! "CAPABILITY completed")); [status |].
    by rewrite <- !app_assoc.
  - apply answering_select; [done.. |]. intros l.
    eapply completes_text with (pre := []) (st := s! "OK")
      (message := s! "[" ++ (if read_only l then s! "READ-ONLY" else s! "READ-WRITE") ++ s! "] SELECT completed"); [status |].
    by rewrite <- !app_assoc.
  - apply answering_select; [done.. |]. intros l.
    apply (completes_text _ (s! "* OK [READ-ONLY]" ++ CRLF) (s! "OK") (s! "EXAMINE completed")); [status | done].
  - by apply answering_uid.
  - apply answering_say; [by case_bool_decide |]. rewrite T. apply answering_send; [done | | status].
    rewrite <- V. unfold view. simpl. pose proof (proj1 v_quiet) as Hi. rewrite <- V in Hi. simpl in Hi. by rewrite Hi.
Qed.

Lemma answering_event ev s :
  paused s = false → view s = v → single_reply ev (args_of s) → ans (process_event cfg env drain ev tag s).
Proof.
  intros P V H. unfold process_event. set (s1 := upd_ctx _ s).
  destruct (closed s1) eqn:Ec; [by apply R_closed |]. destruct (is_terminal _ _); [by apply R_closed |].
  assert (∀ m, ans (write (tag ++ s! " BAD " ++ m ++ CRLF) s1)) as Hbad.
  { intros m. apply answering_write; [done | done |]. apply (completes_text _ [] (s! "BAD") m); [status | done]. }
  destruct (guard_target _ _ _); [| apply (Hbad (s! "Invalid command sequence"))].
  case_bool_decide; [| apply (Hbad (s! "Unsupported command in current state"))]. by apply answering_handler.
Qed.
End Answers.

(** *** Pipelined commands *)

(** Tag, event and arguments of a command line. *)
Definition command_of (w : bytes) : bytes * ImapEvent * bytes :=
  let '(tag, cmd, args) := split_command (trim_line (line w)) in
  match event_of (toupper <$> cmd) with
  | Some ev => (tag, ev, args)
  | None => (tag, ERROR, s! "Unknown command: " ++ (toupper <$> cmd))
  end.
Definition tag_for (w : bytes) : bytes := (command_of w).1.1.

(** A line that is not empty, declares no literal and whose reply is its tagged
    status line. *)
Definition command_ok (w : bytes) : Prop :=
  CR ∉ w ∧ trim_line (line w) ≠ [] ∧ literal_size (trim_line (line w)) = None
  ∧ single_reply (command_of w).1.2 (command_of w).2.

(** The lines [rest] are buffered and will be read as commands. *)
Definition pending (rest : list bytes) (s : ImapsSession) : Prop :=
  command_read_buffer s = concat (line <$> rest) ∧ awaiting_literal (reader s) = false
  ∧ idle_done_received (reader s) = false ∧ idle_mode (context_ s) = false ∧ sasl_plain_state (context_ s) = 0.

Definition ready (s : ImapsSession) : Prop := paused s = false ∧ closed s = false ∧ pending [] s.

(** Of the commands [all], all but at most [n] are answered by [ws]; the others
    are buffered. *)
Definition progress (all : list bytes) (n : nat) (ws : list bytes) (s : ImapsSession) : Prop :=
  closed s = true ∨
  (paused s = false ∧ (ws = [] ∨ reading s = true) ∧
   ∃ done rest, all = done ++ rest ∧ Forall2 (λ w r, completes (tag_for w) r) done ws ∧ (length rest <= n)%nat ∧ pending rest s).

Lemma progress_le all n m ws s : (n <= m)%nat → progress all n ws s → progress all m ws s.
Proof.
  intros Hnm [H | (P & Rd & d & r & E & F & L & Q)]; [by left |]. right. split; [done |]. split; [done |].
  exists d, r. split_and!; try done. lia.
Qed.

Lemma answering_mono (R R' : list bytes → ImapsSession → Prop) ws o :
  (∀ ws s, R ws s → R' ws s) → answering R ws o → answering R' ws o.
Proof. intros H. revert ws. induction o as [a s | a s f IH]; intros ws Ho; simpl in *; auto. Qed.

(** The next unit of a buffered line. *)
Lemma extract_pending w rest s :
  CR ∉ w → pending (w :: rest) s →
  extract_one_line s = Some (line w, set_buf (concat (line <$> rest)) s).
Proof.
  intros Hw (Eb & Ea & _). unfold extract_one_line. rewrite Ea, Eb. rewrite fmap_cons. cbn [concat]. unfold line at 1 3 5.
  rewrite <- app_assoc, find_crlf_plain by done. cbn [mbind option_bind].
  rewrite app_assoc. replace (length w + 2)%nat with (length (w ++ CRLF)) by (by rewrite length_app).
  by rewrite take_app_length, drop_app_length.
Qed.

Lemma pending_buffered w rest s : CR ∉ w → pending (w :: rest) s → has_buffered_input s = true.
Proof.
  intros Hw Q. pose proof (extract_pending w rest s Hw Q) as E. destruct Q as (Eb & Ea & _).
  unfold has_buffered_input. unfold extract_one_line in E. rewrite Ea in *.
  destruct (find_sub CRLF (command_read_buffer s)) eqn:Ef; [| done]. by rewrite bool_decide_true by eauto.
Qed.

(** A command line is read as its command. *)
Lemma handle_read_command w s rest :
  command_ok w → pending (w :: rest) s → let s := set_buf (concat (line <$> rest)) s in
  ∃ cmd, handle_read (line w) s =
    Now [] (upd_ctx (with_tag (tag_for w))
      (set_reader (mkReader false (expected_literal_size (reader s)) (literal_data_buffer (reader s)) (tag_for w) cmd
                     (command_of w).2 true (command_of w).1.2 false) s)).
Proof.
  intros (_ & Hne & Hlit & _) (Eb & Ea & Ei & Em & Es). cbn zeta. unfold handle_read. simpl.
  rewrite Ea, bool_decide_false, Em, Es by done. simpl Z.eqb. cbv iota. rewrite Hlit.
  unfold plain_command, tag_for, command_of. destruct (split_command _) as [[tag cmd] args].
  exists (toupper <$> cmd). simpl. rewrite Ea, Ei. by destruct (event_of _).
Qed.

Section Pipeline.
Context (cfg : ImapConfig) (envs : nat → CmdEnv) (all : list bytes).
Hypothesis envs_responsive : ∀ n, responsive (envs n).
Hypothesis all_ok : Forall command_ok all.

Lemma all_command_ok d w rest : all = d ++ w :: rest → command_ok w.
Proof. intros E. rewrite E in all_ok. apply list.Forall_app in all_ok as [_ H]. by inversion H. Qed.

Lemma progress_uid n ws s : progress all n ws s → progress all n ws (end_uid s).
Proof.
  intros [H | (P & Rd & d & r & E & F & L & Q)]; [by left |]. right. split; [done |]. split; [done |].
  exists d, r. by split_and!.
Qed.

Lemma consume_closed fuel ws s n :
  closed s = true → answering (progress all n) ws (consume cfg envs fuel s).
Proof. intros H. destruct fuel; simpl; [by left |]. rewrite H, orb_true_r. by left. Qed.

(** One command of the buffer, and what its handler drains. *)
Lemma answering_command fuel ws s d w rest :
  (∀ ws s, progress all fuel ws s → answering (progress all 0) ws (consume cfg envs fuel s)) →
  all = d ++ w :: rest → Forall2 (λ w r, completes (tag_for w) r) d ws → (length rest <= fuel)%nat →
  pending (w :: rest) s → paused s = false →
  ∃ s1, handle_read (line w) (set_buf (concat (line <$> rest)) s) = Now [] s1 ∧
    answering (progress all fuel) ws (process_read cfg (envs fuel) (λ s, consume cfg envs fuel (set_paused false s)) s1).
Proof.
  intros IH E F L Q P.
  pose proof (all_command_ok _ _ _ E) as Hok.
  destruct (handle_read_command w s rest Hok Q) as [cmd ->]. eexists. split; [reflexivity |].
  destruct Hok as (_ & _ & _ & Hs). destruct Q as (Eb & Ea & Ei & Em & Es).
  unfold process_read. simpl. destruct (closed s) eqn:Ec; [by left |].
  match goal with |- context [process_event _ _ _ _ _ ?x] => set (s1 := x) end.
  assert (pending rest s1) as Q1 by (by split_and!).
  assert (∀ s', view s' = view s1 → pending rest s') as Qv.
  { intros s' V. unfold view in V. destruct Q1 as (Q1 & Q2 & Q3 & Q4 & Q5). injection V as V1 V2 V3 V4.
    unfold pending. rewrite V1, V2, V3, V4. by split_and!. }
  assert (∀ w' s', completes (tag_for w) w' → view s' = view s1 → paused s' = false → reading s' = true →
            progress all fuel (ws ++ [w']) s') as Hp.
  { intros w' s' Hc V P' Rd. right. split; [done |]. split; [by right |]. exists (d ++ [w]), rest.
    split; [by rewrite <- app_assoc |]. split; [apply Forall2_app; [done |]; by constructor |]. split; [done |]. by apply Qv. }
  apply (answering_event cfg (envs fuel) (envs_responsive fuel) _ (tag_for w) ws (view s1) (progress all fuel)).
  - by split.
  - intros; by apply progress_uid.
  - intros ws' s' H. by left.
  - exact Hp.
  - intros w' s' Hc V Rd. eapply answering_mono; [| apply IH, (Hp _ (set_paused false s')); done].
    intros. eapply progress_le; [| eassumption]. lia.
  - done.
  - done.
  - done.
Qed.

Lemma consume_progress fuel ws s :
  progress all fuel ws s → answering (progress all 0) ws (consume cfg envs fuel s).
Proof.
  revert ws s. induction fuel as [| fuel IH]; intros ws s H.
  { simpl. by rewrite app_nil_r. }
  destruct H as [H | (P & Rd & d & rest & E & F & L & Q)]; [by apply consume_closed |].
  simpl. rewrite P. destruct (closed s) eqn:Ec; simpl; [by left |].
  destruct rest as [| w rest].
  - destruct (extract_one_line s) as [[l s'] |] eqn:Ex.
    { exfalso. destruct Q as (Eb & Ea & _). unfold extract_one_line in Ex. by rewrite Ea, Eb in Ex. }
    simpl. rewrite app_nil_r. right. split; [done |]. split; [done |]. exists d, []. by split_and!.
  - assert (CR ∉ w) as Hw by apply (all_command_ok _ _ _ E).
    rewrite (extract_pending w rest s Hw Q).
    destruct (answering_command fuel ws s d w rest IH E F) as (s1 & -> & Ha); [simpl in L; lia | done | done |].
    cbn [and_then]. apply answering_say; [done |]. eapply answering_and_then; [exact Ha |]. exact IH.
Qed.
End Pipeline.

(** C4: Commands with one tagged reply are answered.  A ready session receives in
    one read, within the read limit, a batch of complete lines, none empty or with
    a CR inside or announcing a literal, each a command (known or not, allowed in
    the state or not) other than IDLE, AUTHENTICATE without an initial response,
    and UID FETCH, COPY or STORE whose arguments are cut short.  IDLE and
    AUTHENTICATE reply with a continuation instead; the short UID commands are
    answered BAD but leave the session paused, which is a fault of the code listed
    in the findings.  If the repositories call back and a second connection can be
    had when the first could, then, whatever they answer and also when replies
    come from posted callbacks that start the next command themselves, the session
    is closed or ends up ready again with a read outstanding, and has written
    exactly one reply per command, in order, each ending in the tagged status line
    of its command. *)
Theorem commands_answered cfg limit envs cmds s :
  (∀ n, responsive (envs n)) → ready s → cmds ≠ [] → Forall command_ok cmds →
  (length (concat (line <$> cmds)) <= limit)%nat →
  let '(acts, s') := imap_chunk cfg limit envs (concat (line <$> cmds)) s in
  closed s' = true ∨
  (ready s' ∧ reading s' = true ∧ Forall2 (λ w r, completes (tag_for w) r) cmds (writes acts)).
Proof.
  intros Hr (P & C & Q) Hne Hok Hlim. unfold imap_chunk. rewrite C.
  assert (command_read_buffer s = []) as Eb by apply Q. rewrite Eb. cbn [app].
  set (s1 := set_reading _ _). assert (command_read_buffer s1 = concat (line <$> cmds)) as E1 by done.
  rewrite E1. destruct (Nat.ltb_spec limit (length (concat (line <$> cmds)))) as [? | _]; [lia |].
  assert (pending cmds s1) as Q1 by (destruct Q as (_ & Q); by split).
  assert (negb (paused s1) && has_buffered_input s1 = true) as Hd.
  { change (paused s1) with (paused s). rewrite P. simpl negb. rewrite andb_true_l.
    destruct cmds as [| w cmds]; [done |]. inversion Hok as [| ? ? [Hw _] _ ]; subst. by apply (pending_buffered w cmds). }
  rewrite Hd.
  assert (progress cmds (length (concat (line <$> cmds))) [] s1) as Hp.
  { right. split; [done |]. split; [by left |]. exists [], cmds. split; [done |]. split; [constructor |]. split; [| done].
    clear. induction cmds as [| w cmds IH]; [done |]. rewrite fmap_cons. cbn [concat length]. unfold line at 1.
    rewrite !length_app. simpl. lia. }
  pose proof (answering_finish _ _ _ (consume_progress cfg envs cmds Hr Hok _ _ _ Hp)) as H.
  destruct (finish _) as [acts s2]. simpl in H. destruct H as [H | (P2 & Rd & d & r & E & F & L & Q2)]; [by left |].
  assert (r = []) as -> by (by apply length_zero_iff_nil; lia). rewrite app_nil_r in E. subst d.
  destruct (closed s2) eqn:C2; [by left | right]. split; [done |]. split; [| done].
  destruct Rd as [Rd |]; [| done]. rewrite Rd in F. by inversion F; subst.
Qed.

Lemma example_env_responsive mails : responsive (example_env mails).
Proof. split; simpl; intros; first [done | by eexists | simplify_eq; by eexists]. Qed.

Definition example_session (mails : list MailInfo) : ImapsSession := (example_run mails []).2.

Lemma commands_answered_witness :
  let cmds := [s! "b SELECT INBOX"; s! "c UID FETCH 1:* (FLAGS)"; s! "d EXPUNGE"; s! "e FOO"] in
  let '(acts, s') := imap_chunk example_config (Z.to_nat 65536) (λ _, example_env [plain_mail 5 true false])
                       (concat (line <$> cmds)) (example_session [plain_mail 5 true false]) in
  closed s' = true ∨ (ready s' ∧ reading s' = true ∧ Forall2 (λ w r, completes (tag_for w) r) cmds (writes acts)).
Proof.
  intros cmds. apply (commands_answered example_config (Z.to_nat 65536) _ cmds (example_session [plain_mail 5 true false])).
  - intros n. apply example_env_responsive.
  - split; [vm_compute; reflexivity |]. split; [vm_compute; reflexivity |]. by split_and!; vm_compute.
  - done.
  - assert (∀ w, bool_decide (CR ∈ w) = false → trim_line (line w) ≠ [] → literal_size (trim_line (line w)) = None →
      single_reply (command_of w).1.2 (command_of w).2 → command_ok w) as H.
    { intros w H1 H2 H3 H4. apply bool_decide_eq_false in H1. by split. }
    repeat (apply Forall_cons; [apply H; [vm_compute; reflexivity | vm_compute; done | vm_compute; reflexivity |] |]);
      [vm_compute; done | | vm_compute; done | vm_compute; done | constructor].
    intros sp E. vm_compute in E. injection E as <-. vm_compute. split; [| done]. intros _. by do 3 right; left.
  - apply Nat.leb_le. vm_compute. reflexivity.
Defined.

(** ** Literals *)

(** Everything an outcome and what follows it do, in order. *)
Lemma finish_and_then o f :
  (finish (and_then o f)).1 = (finish o).1 ++ (finish (f (finish o).2)).1.
Proof.
  induction o as [a s | a s g IH]; simpl.
  - destruct (f s) as [b s' | b s' h]; simpl; [done |]. destruct (finish (h s')); simpl. by rewrite app_assoc.
  - rewrite (surjective_pairing (finish (and_then (g s) f))), (surjective_pairing (finish (g s))). simpl.
    by rewrite IH, app_assoc.
Qed.

Lemma finish_say a o : (finish (say a o)).1 = a ++ (finish o).1.
Proof. destruct o as [b s | b s f]; simpl; [done |]. destruct (finish (f s)); simpl. by rewrite app_assoc. Qed.

Lemma imap_run_app cfg i1 i2 s :
  imap_run cfg (i1 ++ i2) s =
  ((imap_run cfg i1 s).1 ++ (imap_run cfg i2 (imap_run cfg i1 s).2).1, (imap_run cfg i2 (imap_run cfg i1 s).2).2).
Proof.
  revert s. induction i1 as [| i i1 IH]; intros s; simpl; [apply surjective_pairing |].
  destruct (imap_step cfg i s) as [a s1]. rewrite IH. destruct (imap_run cfg i1 s1) as [b s2]. simpl. by rewrite app_assoc.
Qed.

(** Waiting for [n] bytes of a literal, of which [got] are here. *)
Definition in_literal (n : nat) (got : bytes) (s : ImapsSession) : Prop :=
  awaiting_literal (reader s) = true ∧ expected_literal_size (reader s) = n ∧ literal_data_buffer (reader s) = got
  ∧ command_parsed (reader s) = false ∧ idle_done_received (reader s) = false
  ∧ command_read_buffer s = [] ∧ paused s = false ∧ closed s = false.

Section Literals.
Context (cfg : ImapConfig) (limit : nat) (envs : nat → CmdEnv).

(** The session with more of the literal. *)
Definition collected (got : bytes) (s : ImapsSession) : ImapsSession :=
  let r := reader s in
  set_reading true (set_buf [] (set_reader (mkReader true (expected_literal_size r) got (cmd_tag r) (current_command r)
    (last_command_args r) (command_parsed r) (next_event r) (idle_done_received r)) s)).

Lemma consume_collected fuel got s : consume cfg envs fuel (collected got s) = Now [] (collected got s).
Proof. destruct fuel; [done |]. cbn [consume]. by destruct (_ || _). Qed.

Lemma consume_partial fuel n got d s :
  awaiting_literal (reader s) = true → expected_literal_size (reader s) = n → literal_data_buffer (reader s) = got →
  command_parsed (reader s) = false → command_read_buffer s = d → d ≠ [] → paused s = false → closed s = false →
  (length (got ++ d) < n)%nat → consume cfg envs (S fuel) s = Now [] (collected (got ++ d) s).
Proof.
  intros A N G Cp B Hd P C Hlt. cbn [consume]. rewrite P, C. cbn [orb]. unfold extract_one_line. rewrite A, B.
  destruct d as [| b d]; [done |]. unfold handle_read. change (reader (set_buf [] s)) with (reader s). rewrite A.
  unfold literal_chunk. change (reader (set_buf [] s)) with (reader s). rewrite N, G.
  destruct (Nat.leb_spec n (length (got ++ b :: d))) as [? | _]; [lia |].
  assert (∀ x, x = collected (got ++ b :: d) s →
    and_then (Now [] x) (λ s, and_then (process_read cfg (envs fuel) (λ s, consume cfg envs fuel (set_paused false s)) s)
                                 (consume cfg envs fuel)) = Now [] (collected (got ++ b :: d) s)) as H.
  { intros x ->. cbn [and_then]. unfold process_read. cbn [collected reader set_reading set_buf set_reader command_parsed].
    rewrite Cp. cbn [negb orb and_then say]. by rewrite consume_collected. }
  apply H. unfold collected. by rewrite N.
Qed.

(** A chunk that does not complete the literal is only collected. *)
Lemma literal_partial n got d s :
  in_literal n got s → (length (got ++ d) < n)%nat → (length d <= limit)%nat →
  ∃ s', imap_chunk cfg limit envs d s = ([], s') ∧ in_literal n (got ++ d) s' ∧ context_ s' = context_ s ∧ state_ s' = state_ s.
Proof.
  intros (A & N & G & Cp & Di & B & P & C) Hlt Hlim. unfold imap_chunk. rewrite C, B. cbn [app].
  set (s1 := set_reading _ _). change (command_read_buffer s1) with d.
  destruct (Nat.ltb_spec limit (length d)) as [? | _]; [lia |].
  destruct d as [| b d].
  - rewrite app_nil_r. cbn [length consume finish]. eexists. split; [reflexivity |]. destruct (_ && _); by split_and!.
  - cbn [length]. rewrite (consume_partial _ n got (b :: d)) by done. cbn [finish]. eexists. split; [reflexivity |].
    destruct (_ && _); by split_and!.
Qed.

Lemma literal_collect n got ds s :
  in_literal n got s → (length (got ++ concat ds) < n)%nat → Forall (λ d, length d <= limit)%nat ds →
  ∃ s', imap_run cfg (Chunk limit envs <$> ds) s = ([], s') ∧ in_literal n (got ++ concat ds) s'
        ∧ context_ s' = context_ s ∧ state_ s' = state_ s.
Proof.
  revert got s. induction ds as [| d ds IH]; intros got s L Hlt Hf.
  - exists s. simpl. by rewrite app_nil_r.
  - apply list.Forall_cons in Hf as [Hd Hf]. simpl in Hlt. rewrite app_assoc in Hlt.
    destruct (literal_partial n got d s L) as (s1 & E & L1 & C1 & S1); [rewrite (length_app (got ++ d)) in Hlt; lia | done |].
    destruct (IH (got ++ d) s1 L1 Hlt Hf) as (s2 & E2 & L2 & C2 & S2). exists s2. rewrite fmap_cons. cbn [imap_run imap_step].
    rewrite E, E2. simpl. rewrite app_assoc. split_and!; try done; congruence.
Qed.

(** The chunk that completes the literal hands exactly its bytes to APPEND. *)
Lemma consume_complete fuel n got d s :
  awaiting_literal (reader s) = true → expected_literal_size (reader s) = n → literal_data_buffer (reader s) = got →
  idle_done_received (reader s) = false →
  command_read_buffer s = d → d ≠ [] → paused s = false → closed s = false → (n <= length (got ++ d))%nat →
  ∃ s1 drain tag, args_of s1 = take n (got ++ d) ∧ command_read_buffer s1 = drop n (got ++ d) ∧ state_ s1 = state_ s
    ∧ closed s1 = false ∧ context_ s1 = with_tag tag (context_ s)
    ∧ (finish (process_event cfg (envs fuel) drain APPEND tag s1)).1 `prefix_of` (finish (consume cfg envs (S fuel) s)).1.
Proof.
  intros A N G Di B Hd P C Hge. cbn [consume]. rewrite P, C. cbn [orb]. unfold extract_one_line. rewrite A, B.
  destruct d as [| b d]; [done |]. unfold handle_read. change (reader (set_buf [] s)) with (reader s). rewrite A.
  unfold literal_chunk. change (reader (set_buf [] s)) with (reader s). rewrite N, G.
  destruct (Nat.leb_spec n (length (got ++ b :: d))) as [_ | ?]; [| lia].
  eexists (set_reader (clear_parsed (literal_done (take n (got ++ b :: d)) (reader s)))
            (upd_ctx (with_tag (cmd_tag (reader s)))
              (set_buf (drop n (got ++ b :: d) ++ []) (set_reader (literal_done (take n (got ++ b :: d)) (reader s)) s)))),
    (λ s, consume cfg envs fuel (set_paused false s)), (cmd_tag (reader s)).
  split; [done |]. split; [simpl; by rewrite app_nil_r |]. split; [done |]. split; [done |]. split; [done |].
  rewrite finish_and_then. cbn [finish fst snd app]. rewrite finish_and_then.
  unfold process_read. cbn [reader upd_ctx set_ctx set_buf set_reader literal_done command_parsed closed negb orb idle_done_received
    next_event cmd_tag]. rewrite C, Di. apply prefix_app_r. reflexivity.
Qed.

(** The name APPEND looks up. *)
Definition append_target (s : ImapsSession) : bytes :=
  lookup_name (decode_mailbox_name (append_preamble (pending_append_preamble (context_ s))).1).

(** APPEND to a mailbox that exists passes its argument on. *)
Lemma append_body_exact env drain tag s id :
  closed s = false → state_ s = St.AUTHENTICATED ∨ state_ s = St.SELECTED → is_authenticated (ident s) = true →
  pending_append_preamble (context_ s) ≠ [] → e_conn env = true → id ≠ 0 →
  e_find env (user_id (ident s)) (append_target s) = Some id →
  ∃ req, AppendMail req ∈ (finish (process_event cfg env drain APPEND tag s)).1 ∧ append_body req = args_of s
         ∧ append_mailbox req = id ∧ append_user req = user_id (ident s).
Proof.
  intros C St A Pre Ec Hid Hf. unfold process_event. set (s1 := upd_ctx _ s).
  change (closed s1) with (closed s). change (state_ s1) with (state_ s). rewrite C.
  assert (is_terminal (make_imaps_desc (negb (is_tls cfg))) (state_ s) = false) as ->
    by (by destruct St as [-> | ->]; destruct (is_tls cfg)).
  assert (∃ t, guard_target (make_imaps_desc (negb (is_tls cfg))) (state_ s) APPEND = Some t) as [t ->]
    by (destruct St as [-> | ->]; destruct (is_tls cfg); vm_compute; eauto).
  rewrite bool_decide_true by (destruct St as [-> | ->]; destruct (is_tls cfg); refine (bool_decide_unpack _ _); vm_compute; exact I).
  cbn [run_handler]. unfold handle_append. change (ident s1) with (ident s). rewrite A. cbn [negb].
  change (pending_append_preamble (context_ s1)) with (pending_append_preamble (context_ s)). rewrite bool_decide_false by done.
  unfold append_target in Hf. destruct (append_preamble (pending_append_preamble (context_ s))) as [name flags].
  unfold with_database. change (ident (upd_ctx (with_preamble []) s1)) with (ident s). rewrite A, Ec. cbn [negb].
  unfold find_mailbox. simpl in Hf. change (ident (set_paused true _)) with (ident s). rewrite Hf, finish_say. destruct (Z.eqb_spec id 0) as [? | _]; [done |].
  rewrite finish_say. eexists. split; [apply elem_of_app; right; apply elem_of_app; left; by left |]. done.
Qed.

(** The chunks that bring the rest of a literal. *)
Lemma append_from_literal n got ds d s id :
  in_literal n got s → is_authenticated (ident s) = true → state_ s = St.AUTHENTICATED ∨ state_ s = St.SELECTED →
  pending_append_preamble (context_ s) ≠ [] →
  (∀ i, e_conn (envs i) = true ∧ e_find (envs i) (user_id (ident s)) (append_target s) = Some id) → id ≠ 0 →
  Forall (λ d, length d <= limit)%nat (ds ++ [d]) →
  (length (got ++ concat ds) < n <= length ((got ++ concat ds) ++ d))%nat →
  ∃ req, AppendMail req ∈ (imap_run cfg (Chunk limit envs <$> ds ++ [d]) s).1
         ∧ append_body req = take n ((got ++ concat ds) ++ d) ∧ append_mailbox req = id ∧ append_user req = user_id (ident s).
Proof.
  intros L A Hst Pre He Hid Hf [Hlt Hge]. apply list.Forall_app in Hf as [Hf Hd]. apply list.Forall_cons in Hd as [Hd _].
  destruct (literal_collect n got ds s L Hlt Hf) as (s1 & E & L1 & C1 & S1).
  rewrite fmap_app, imap_run_app, E. cbn [fst snd app fmap list_fmap imap_run imap_step].
  rewrite (surjective_pairing (imap_chunk cfg limit envs d s1)). cbn [fst app]. rewrite app_nil_r.
  destruct L1 as (La & Ln & Lg & Lc & Li & Lb & Lp & Lx).
  unfold imap_chunk. rewrite Lx, Lb. cbn [app]. set (s2 := set_reading _ _). change (command_read_buffer s2) with d.
  destruct (Nat.ltb_spec limit (length d)) as [? | _]; [lia |].
  assert (d ≠ []) as Hne by (intros ->; rewrite app_nil_r in Hge; lia).
  destruct (length d) as [| fuel] eqn:Ed; [by destruct d |].
  destruct (consume_complete fuel n (got ++ concat ds) d s2 La Ln Lg Li eq_refl Hne Lp Lx Hge)
    as (s3 & drain & tag & H1 & H2 & H3 & H4 & H5 & [more Hp]).
  destruct (append_body_exact (envs fuel) drain tag s3 id) as (req & Hin & Hb & Hm & Hu).
  - done.
  - rewrite H3. simpl. by rewrite S1.
  - unfold ident. rewrite H5. simpl. by rewrite C1.
  - rewrite H5. simpl. by rewrite C1.
  - apply He.
  - done.
  - unfold append_target, ident. rewrite H5. simpl. rewrite C1. apply He.
  - exists req. split_and!; [| congruence | done | rewrite Hu; unfold ident; rewrite H5; simpl; by rewrite C1].
    rewrite (surjective_pairing (finish _)). cbn [fst]. rewrite Hp. apply elem_of_app. by left.
Qed.

(** *** The command line *)

(** Between commands, with [p] of the next line here. *)
Definition listening (p : bytes) (s : ImapsSession) : Prop :=
  awaiting_literal (reader s) = false ∧ idle_done_received (reader s) = false ∧ command_parsed (reader s) = false
  ∧ idle_mode (context_ s) = false ∧ sasl_plain_state (context_ s) = 0
  ∧ command_read_buffer s = p ∧ paused s = false ∧ closed s = false.

(** The line [w] announces a literal of [n] bytes for APPEND with [args]. *)
Definition announces (w : bytes) (n : nat) (args : bytes) : Prop :=
  CR ∉ w ∧ trim_line (line w) ≠ [] ∧ args ≠ [] ∧ Z.of_nat n ≤ kMaxImapLiteralBytes ∧
  ∃ tag cmd_part, literal_size (trim_line (line w)) = Some (Z.of_nat n, cmd_part) ∧
    split_command (drop_while_end (λ c, c =? SP) cmd_part) = (tag, s! "APPEND", args).

(** The mailbox an APPEND with these arguments looks up. *)
Definition target_of (args : bytes) : bytes := lookup_name (decode_mailbox_name (append_preamble args).1).

(** A chunk that does not complete the line is kept. *)
Lemma listen_more w p d x s :
  CR ∉ w → listening p s → (p ++ d) ++ x = line w → x ≠ [] → (length (p ++ d) <= limit)%nat →
  ∃ s', imap_chunk cfg limit envs d s = ([], s') ∧ listening (p ++ d) s' ∧ context_ s' = context_ s ∧ state_ s' = state_ s.
Proof.
  intros Hw (A & Di & Cp & Im & Sa & B & P & C) E Hx Hlim.
  assert (find_sub CRLF (p ++ d) = None) as Hn.
  { destruct (find_sub CRLF (p ++ d)) as [i |] eqn:F; [| done]. exfalso. pose proof (find_crlf_length _ _ F) as Hi.
    apply (find_crlf_app _ x) in F. rewrite E in F. unfold line in F. rewrite <-(app_nil_r CRLF), find_crlf_plain in F by done.
    injection F as <-. apply (f_equal length) in E. unfold line in E. rewrite !length_app in E. rewrite length_app in Hi.
    destruct x; [done |]. simpl in *. lia. }
  unfold imap_chunk. rewrite C, B. set (s1 := set_reading _ _). change (command_read_buffer s1) with (p ++ d).
  destruct (Nat.ltb_spec limit (length (p ++ d))) as [? | _]; [lia |].
  assert (consume cfg envs (length (p ++ d)) s1 = Now [] s1) as ->.
  { destruct (length (p ++ d)); [done |]. cbn [consume]. change (paused s1) with (paused s). change (closed s1) with (closed s).
    rewrite P, C. cbn [orb]. unfold extract_one_line. change (reader s1) with (reader s).
    change (command_read_buffer s1) with (p ++ d). by rewrite A, Hn. }
  cbn [finish]. eexists. split; [reflexivity |]. destruct (_ && _); by split_and!.
Qed.

(** The chunk that completes the line: [got] of the literal came with it. *)
Lemma listen_line w n args p d got s :
  announces w n args → listening p s → p ++ d = line w ++ got → (length (p ++ d) <= limit)%nat →
  if (n <=? length got)%nat then
    ∃ i s1 drain tag more, args_of s1 = take n got ∧ state_ s1 = state_ s ∧ closed s1 = false ∧ ident s1 = ident s
      ∧ pending_append_preamble (context_ s1) = args
      ∧ (imap_chunk cfg limit envs d s).1 = (finish (process_event cfg (envs i) drain APPEND tag s1)).1 ++ more
  else
    in_literal n got (imap_chunk cfg limit envs d s).2 ∧ state_ (imap_chunk cfg limit envs d s).2 = state_ s
    ∧ ident (imap_chunk cfg limit envs d s).2 = ident s ∧ pending_append_preamble (context_ (imap_chunk cfg limit envs d s).2) = args.
Proof.
  intros (Hw & Hne & Ha & Hn & tag & cmd_part & Hl & Hsp) (A & Di & Cp & Im & Sa & B & P & C) E Hlim.
  unfold imap_chunk. rewrite C, B. set (s1 := set_reading _ _). change (command_read_buffer s1) with (p ++ d).
  destruct (Nat.ltb_spec limit (length (p ++ d))) as [? | _]; [lia |].
  destruct (length (p ++ d)) as [| fuel] eqn:El; [rewrite E in El; unfold line in El; rewrite !length_app in El; simpl in El; lia |].
  set (s2 := set_buf got s1).
  assert (consume cfg envs (S fuel) s1 =
    and_then (begin_literal n cmd_part s2) (λ s, and_then (process_read cfg (envs fuel) (λ s, consume cfg envs fuel (set_paused false s)) s)
      (consume cfg envs fuel))) as ->.
  { cbn [consume]. change (paused s1) with (paused s). change (closed s1) with (closed s). rewrite P, C. cbn [orb].
    unfold extract_one_line. change (reader s1) with (reader s). change (command_read_buffer s1) with (p ++ d). rewrite A, E.
    unfold line. rewrite <-app_assoc, find_crlf_plain by done. cbn [mbind option_bind].
    rewrite app_assoc. replace (length w + 2)%nat with (length (w ++ CRLF)) by (by rewrite length_app).
    rewrite take_app_length, drop_app_length. fold (line w) s2. unfold handle_read. change (reader s2) with (reader s).
    change (context_ s2) with (context_ s). rewrite A, bool_decide_false, Im, Sa, Hl by done. cbn [Z.eqb].
    destruct (Z.gtb_spec (Z.of_nat n) kMaxImapLiteralBytes); [lia |]. by rewrite Nat2Z.id. }
  unfold begin_literal. rewrite Hsp, bool_decide_true by done. cbn [command_read_buffer upd_ctx set_ctx set_buf s2].
  destruct (Nat.leb_spec n (length got)) as [Hg | Hg].
  - match goal with |- context [and_then (Now [] ?x) _] => set (s4 := x) end.
    exists fuel, (set_reader (clear_parsed (reader s4)) s4), (λ s, consume cfg envs fuel (set_paused false s)), tag.
    eexists. do 5 (split; [done |]).
    rewrite (surjective_pairing (finish _)). cbn [fst]. rewrite finish_and_then. cbn [finish fst snd app]. rewrite finish_and_then.
    unfold process_read. change (command_parsed (reader s4)) with true. change (closed s4) with (closed s).
    change (idle_done_received (reader s4)) with (idle_done_received (reader s)). rewrite C, Di. reflexivity.
  - unfold send_continuation, write. cbn [and_then say]. unfold process_read.
    cbn [reader set_reading set_buf set_reader command_parsed upd_ctx set_ctx]. change (command_parsed (reader s2)) with (command_parsed (reader s)). rewrite !Cp.
    cbn [negb orb and_then]. set (s3 := set_reading true _).
    assert (consume cfg envs fuel s3 = Now [] s3) as ->.
    { destruct fuel; [done |]. cbn [consume]. destruct (_ || _); [done |]. done. }
    rewrite (surjective_pairing (finish _)). cbn [finish snd say and_then app].
    destruct (_ && _); by split_and!.
Qed.

(** Where the literal is complete in a sequence of chunks. *)
Lemma split_at_size n (got : bytes) (ds : list bytes) :
  (length got < n)%nat → (n <= length (got ++ concat ds))%nat →
  ∃ ds1 d ds2, ds = ds1 ++ d :: ds2 ∧ (length (got ++ concat ds1) < n <= length ((got ++ concat ds1) ++ d))%nat.
Proof.
  revert got. induction ds as [| d ds IH]; intros got Hg Hn; [rewrite app_nil_r in Hn; lia |].
  destruct (le_lt_dec n (length (got ++ d))) as [H | H].
  - exists [], d, ds. simpl. rewrite app_nil_r. done.
  - destruct (IH (got ++ d)) as (ds1 & x & ds2 & -> & H1); [done | by rewrite <-app_assoc |].
    exists (d :: ds1), x, ds2. simpl. by rewrite (app_assoc got).
Qed.

Lemma imap_run_first i ins s a : a ∈ (imap_step cfg i s).1 → a ∈ (imap_run cfg (i :: ins) s).1.
Proof.
  cbn [imap_run]. destruct (imap_step cfg i s) as [x s1]. destruct (imap_run cfg ins s1). simpl. intros H. apply elem_of_app. by left.
Qed.
Lemma imap_run_later i ins s a : a ∈ (imap_run cfg ins (imap_step cfg i s).2).1 → a ∈ (imap_run cfg (i :: ins) s).1.
Proof.
  cbn [imap_run]. destruct (imap_step cfg i s) as [x s1]. simpl. destruct (imap_run cfg ins s1). simpl. intros H. apply elem_of_app. by right.
Qed.

Lemma take_prefix {A} n (x y body rest : list A) :
  x ++ y = body ++ rest → length body = n → (n <= length x)%nat → take n x = body.
Proof.
  intros E Hn Hx. apply (f_equal (take n)) in E. rewrite take_app_le in E by done. by rewrite E, take_app_le, take_ge by lia.
Qed.

Definition append_request (body : bytes) (id user : Z) (acts : list ImapAction) : Prop :=
  ∃ req, AppendMail req ∈ acts ∧ append_body req = body ∧ append_mailbox req = id ∧ append_user req = user.

Lemma app_longer {A} (x y a b : list A) :
  x ++ y = a ++ b → (length a <= length x)%nat → ∃ z, x = a ++ z ∧ z ++ y = b.
Proof.
  intros E H. exists (drop (length a) x).
  assert (take (length a) x = a) as Ht by (apply (f_equal (take (length a))) in E; by rewrite take_app_le, take_app_length in E).
  split; [rewrite <-Ht at 1; by rewrite take_drop |]. apply (f_equal (drop (length a))) in E. by rewrite drop_app_le, drop_app_length in E.
Qed.

(** The reads from the command line on. *)
Lemma append_from_line w n args body rest id ds p s :
  announces w n args → length body = n → listening p s → p ++ concat ds = line w ++ body ++ rest → (length p < length (line w))%nat →
  is_authenticated (ident s) = true → state_ s = St.AUTHENTICATED ∨ state_ s = St.SELECTED →
  (∀ i, e_conn (envs i) = true ∧ e_find (envs i) (user_id (ident s)) (target_of args) = Some id) → id ≠ 0 →
  Forall (λ d, length (line w) + length d <= limit)%nat ds →
  append_request body id (user_id (ident s)) (imap_run cfg (Chunk limit envs <$> ds) s).1.
Proof.
  intros Han Hbody. revert p s. induction ds as [| d ds IH]; intros p s Hp E Hlt Au Hst He Hid Hf.
  { exfalso. rewrite app_nil_r in E. rewrite E, length_app in Hlt. lia. }
  apply list.Forall_cons in Hf as [Hd Hf]. cbn [concat] in E. rewrite app_assoc in E.
  assert (length (p ++ d) <= limit)%nat as Hlim by (rewrite length_app; lia). rewrite fmap_cons.
  destruct (le_lt_dec (length (line w)) (length (p ++ d))) as [Hge | Hl].
  2:{ symmetry in E. destruct (app_longer _ _ _ _ E) as (x & Ex & _); [lia |].
      assert (x ≠ []) as Hx by (intros ->; rewrite Ex, app_nil_r in Hl; lia).
      destruct (listen_more w p d x s (proj1 Han) Hp (eq_sym Ex) Hx Hlim) as (s' & Es & Hp' & Hc & Hs).
      destruct (IH (p ++ d) s') as (req & H1 & H2 & H3 & H4); unfold ident in *; rewrite ?Hc, ?Hs; try done.
      exists req. rewrite Hc in H4. split_and!; try done. apply imap_run_later. cbn [imap_step]. by rewrite Es. }
  destruct (app_longer _ _ _ _ E Hge) as (got & Eg & Eb).
  pose proof (listen_line w n args p d got s Han Hp Eg Hlim) as Hl. destruct (Nat.leb_spec n (length got)) as [Hn | Hn].
  - destruct Hl as (i & s1 & drain & tag & more & H1 & H2 & H3 & H4 & H5 & H6).
    destruct (append_body_exact (envs i) drain tag s1 id) as (req & Hin & Hb & Hm & Hu); rewrite ?H2, ?H4, ?H5; try done; try apply Han; try apply He.
    + unfold append_target. rewrite H5. apply He.
    + exists req. split_and!; [| rewrite Hb, H1; by eapply take_prefix | done | by rewrite Hu, H4].
      apply imap_run_first. cbn [imap_step]. rewrite H6. apply elem_of_app. by left.
  - destruct Hl as (Hin & H1 & H2 & H3). set (s1 := (imap_chunk cfg limit envs d s).2) in *.
    destruct (split_at_size n got ds) as (ds1 & x & ds2 & -> & Hsz); [done | rewrite Eb, length_app; lia |].
    replace (ds1 ++ x :: ds2) with ((ds1 ++ [x]) ++ ds2) in * by (by rewrite <-app_assoc).
    apply list.Forall_app in Hf as [Hf _].
    destruct (append_from_literal n got ds1 x s1 id Hin) as (req & Hr & Hb & Hm & Hu); rewrite ?H1, ?H2, ?H3; try done; try apply Han.
    + intros i. unfold append_target. rewrite H3. apply He.
    + eapply list.Forall_impl; [exact Hf |]. simpl. lia.
    + exists req. split_and!; [| | done | by rewrite Hu, H2].
      * apply imap_run_later. cbn [imap_step]. fold s1. rewrite fmap_app, imap_run_app. simpl. apply elem_of_app. by left.
      * rewrite Hb. apply (take_prefix n _ (concat ds2) body rest); [| exact Hbody | apply Hsz].
        rewrite <-Eb, !concat_app. simpl. by rewrite app_nil_r, <-!app_assoc.
Qed.

End Literals.

(** ** FETCH walks the sequence set *)

Definition ranges_ok (total : nat) (ranges : list (Z * Z)) : Prop :=
  Forall (λ r, 1 ≤ r.1 ∧ r.1 ≤ r.2 ∧ r.2 ≤ Z.of_nat total) ranges.

(** The numbers left when the cursor is at [cur] of range [idx]. *)
Definition left_of (ranges : list (Z * Z)) (idx : nat) (cur : Z) : list Z :=
  match ranges !! idx with
  | Some (_, e) => if cur =? 0 then set_numbers (drop idx ranges)
                   else seqZ cur (e - cur + 1) ++ set_numbers (drop (S idx) ranges)
  | None => []
  end.

Lemma left_of_start ranges idx : left_of ranges idx 0 = set_numbers (drop idx ranges).
Proof.
  unfold left_of. destruct (ranges !! idx) as [[f e] |] eqn:E; [done |].
  by rewrite drop_ge by (by apply lookup_ge_None).
Qed.

Lemma left_of_first total ranges idx f e :
  ranges_ok total ranges → ranges !! idx = Some (f, e) →
  left_of ranges idx 0 = f :: left_of ranges idx (f + 1) ∧ 1 ≤ f ≤ e ∧ e ≤ Z.of_nat total.
Proof.
  intros Hok E. assert (1 ≤ f ∧ f ≤ e ∧ e ≤ Z.of_nat total) as Hb.
  { unfold ranges_ok in Hok. rewrite list.Forall_lookup in Hok. apply (Hok _ _ E). }
  split; [| lia]. unfold left_of. rewrite E. destruct (Z.eqb_spec (f + 1) 0) as [? | _]; [lia |].
  rewrite (drop_S _ _ _ E). unfold set_numbers at 1. cbn [mbind list_bind]. unfold range_numbers at 1. cbn [fst snd].
  rewrite (seqZ_cons f) by lia. cbn [app Z.eqb]. f_equal. f_equal. f_equal; lia.
Qed.

(** The cursor finds the next number that is left, or that there is none. *)
Lemma advance_spec total ranges idx cur :
  ranges_ok total ranges →
  (cur = 0 ∨ ∃ f e, ranges !! idx = Some (f, e) ∧ f <= cur <= e + 1) →
  match advance (S (length ranges)) ranges total idx cur with
  | Some (idx', cur') =>
      left_of ranges idx cur = cur' :: left_of ranges idx' (cur' + 1)
      ∧ ∃ f e, ranges !! idx' = Some (f, e) ∧ f <= cur' + 1 <= e + 1
  | None => left_of ranges idx cur = []
  end.
Proof.
  intros Hok.
  assert (∀ fuel idx, (0 < fuel)%nat →
    match advance fuel ranges total idx 0 with
    | Some (idx', cur') => left_of ranges idx 0 = cur' :: left_of ranges idx' (cur' + 1)
                           ∧ ∃ f e, ranges !! idx' = Some (f, e) ∧ f <= cur' + 1 <= e + 1
    | None => left_of ranges idx 0 = []
    end) as H0.
  { intros fuel i Hf. destruct fuel as [| fuel]; [lia |]. cbn [advance]. cbn [Z.eqb].
    destruct (ranges !! i) as [[f e] |] eqn:E.
    - destruct (left_of_first total ranges i f e Hok E) as [H1 H2].
      destruct (Z.gtb_spec f e), (Z.gtb_spec f (Z.of_nat total)); try lia. cbn [orb]. split; [done |]. exists f, e. split; [done | lia].
    - unfold left_of. by rewrite E. }
  intros [-> | (f & e & E & Hc)]; [apply H0; lia |]. destruct (Z.eq_dec cur 0) as [-> | Hne]; [apply H0; lia |].
  cbn [advance]. destruct (Z.eqb_spec cur 0) as [? | _]; [done |]. rewrite E.
  assert (1 ≤ f ∧ f ≤ e ∧ e ≤ Z.of_nat total) as Hb.
  { unfold ranges_ok in Hok. rewrite list.Forall_lookup in Hok. apply (Hok _ _ E). }
  destruct (Z.gtb_spec cur e) as [Hgt | Hle].
  - cbn [orb]. assert (left_of ranges idx cur = left_of ranges (S idx) 0) as ->.
    { rewrite left_of_start. unfold left_of. rewrite E. destruct (Z.eqb_spec cur 0) as [? | _]; [done |].
      replace (e - cur + 1) with 0 by lia. done. }
    apply H0. apply lookup_lt_Some in E. lia.
  - destruct (Z.gtb_spec cur (Z.of_nat total)); [lia |]. cbn [orb]. split; [| exists f, e; split; [done | lia]].
    unfold left_of. rewrite E. destruct (Z.eqb_spec cur 0) as [? | _]; [done |]. destruct (Z.eqb_spec (cur + 1) 0); [lia |].
    rewrite (seqZ_cons cur) by lia. cbn [app]. f_equal. f_equal. f_equal; lia.
Qed.

Lemma fetch_drive_spec total ranges fuel idx cur :
  ranges_ok total ranges → (cur = 0 ∨ ∃ f e, ranges !! idx = Some (f, e) ∧ f <= cur <= e + 1) →
  (length (left_of ranges idx cur) < fuel)%nat → fetch_drive fuel ranges total idx cur = left_of ranges idx cur.
Proof.
  intros Hok. revert idx cur. induction fuel as [| fuel IH]; intros idx cur Hc Hf; [lia |]. cbn [fetch_drive].
  pose proof (advance_spec total ranges idx cur Hok Hc) as H.
  destruct (advance (S (length ranges)) ranges total idx cur) as [[idx' cur'] |]; [| done].
  destruct H as [H H']. rewrite H in *. f_equal. apply IH; [by right |]. simpl in Hf. lia.
Qed.

Lemma set_numbers_length total ranges :
  ranges_ok total ranges → (length (set_numbers ranges) <= length ranges * total)%nat.
Proof.
  induction 1 as [| [f e] ranges Hb _ IH]; [done |]. unfold set_numbers in *. cbn [mbind list_bind]. rewrite length_app.
  unfold range_numbers at 1. rewrite length_seqZ. simpl in *. lia.
Qed.

Lemma set_numbers_bounds total ranges n :
  ranges_ok total ranges → n ∈ set_numbers ranges → 1 ≤ n ≤ Z.of_nat total.
Proof.
  intros Hok Hn. unfold set_numbers in Hn. apply list_elem_of_bind in Hn as ([f e] & Hn & Hr).
  unfold ranges_ok in Hok. rewrite list.Forall_forall in Hok. specialize (Hok _ Hr). simpl in Hok.
  unfold range_numbers in Hn. apply elem_of_seqZ in Hn. simpl in Hn. lia.
Qed.

(** FETCH answers exactly the messages of its sequence set: the cursor that
    carries the loop across asynchronous reads (current range and number, moved
    on by one step at a time) visits the numbers of all ranges in order, as the
    plain nested loops of STORE do, and neither ever indexes outside the
    messages of the mailbox. *)
Theorem fetch_cursor_correct (set : bytes) (mails : list MailInfo) :
  fetch_order (expand_seq_set set (length mails)) (length mails)
    = set_numbers (expand_seq_set set (length mails)) ∧
  ∃ found, mails_at mails (fetch_order (expand_seq_set set (length mails)) (length mails)) = Some found ∧
    fst <$> found = set_numbers (expand_seq_set set (length mails)) ∧
    ∀ n m, (n, m) ∈ found → mails !! Z.to_nat (n - 1) = Some m.
Proof.
  assert (ranges_ok (length mails) (expand_seq_set set (length mails))) as Hok by apply expand_seq_set_bounds.
  generalize dependent (expand_seq_set set (length mails)). intros ranges Hok.
  assert (fetch_order ranges (length mails) = set_numbers ranges) as E.
  { unfold fetch_order. rewrite fetch_drive_spec; [by rewrite left_of_start | done | by left |].
    rewrite left_of_start. pose proof (set_numbers_length _ _ Hok). unfold drop. lia. }
  split; [done |]. rewrite E. pose proof (λ n, set_numbers_bounds _ _ n Hok) as Hb.
  clear E. induction (set_numbers ranges) as [| n ns IH].
  - exists []. split_and!; [done | done |]. intros n m H. by apply elem_of_nil in H.
  - assert (1 ≤ n ≤ Z.of_nat (length mails)) as Hn by (apply Hb; left).
    destruct IH as (found & IH1 & IH2 & IH3); [intros; apply Hb; by right |].
    destruct (lookup_lt_is_Some_2 mails (Z.to_nat (n - 1))) as [m Hm]; [lia |].
    exists ((n, m) :: found). unfold mails_at in *. cbn [mapM]. destruct (Z.ltb_spec n 1); [lia |]. rewrite Hm. simpl. rewrite IH1.
    split_and!; [done | exact (f_equal (cons n) IH2) |]. intros n' m' [[= -> ->] | H']%elem_of_cons; [done | by apply IH3].
Qed.

