(* ===== verification/ImapFindings.v ===== *)
(** * Where the IMAP server departs from its protocol

    Runs of the model of [Imap] in which the server does something else than its
    replies say: a UID command that ends the conversation, EXPUNGE responses a
    client cannot follow, a read-only mailbox that is changed, arguments of one
    command used by the next, and an index outside the mailbox. *)

From S2P Require Import Prelude CString LineFolder SmtpText Mime ImapText FsmEngine Imap ImapSafety.

(** ** A UID command that ends the conversation *)

(** A paused session takes no further command. *)
Lemma paused_silent cfg ins s :
  paused s = true → Forall (λ i, match i with Chunk _ _ _ => True | _ => False end) ins →
  writes (imap_run cfg ins s).1 = [].
Proof.
  revert s. induction ins as [| i ins IH]; intros s P Hf; [done |]. apply list.Forall_cons in Hf as [Hi Hf].
  destruct i as [limit envs data | | ]; [| done..]. cbn [imap_run imap_step].
  assert (paused (imap_chunk cfg limit envs data s).2 = true ∧ writes (imap_chunk cfg limit envs data s).1 = []) as [H1 H2].
  { unfold imap_chunk. destruct (closed s) eqn:C; [done |]. destruct (_ <? _)%nat; [done |].
    assert (∀ fuel s, paused s = true → consume cfg envs fuel s = Now [] s) as Hc.
    { intros fuel s' P'. destruct fuel; [done |]. cbn [consume]. by rewrite P'. }
    rewrite Hc by done. cbn [finish]. simpl. by destruct (_ && _). }
  destruct (imap_chunk cfg limit envs data s) as [a s1]. specialize (IH s1 H1 Hf).
  destruct (imap_run cfg ins s1) as [b s2]. simpl in *. unfold writes in *. by rewrite omap_app, H2, IH.
Qed.

(** *** The translated set holds no space *)

Lemma to_string_no_space n : 0 ≤ n → SP ∉ to_string n.
Proof.
  intros Hn H. pose proof (to_string_digits n Hn) as Hd. rewrite list.Forall_forall in Hd. by specialize (Hd _ H).
Qed.

Lemma join_no_space ns : Forall (λ n, 0 ≤ n) ns → SP ∉ join_numbers ns.
Proof.
  intros H. unfold join_numbers. destruct ns as [| n ns]; [by apply (to_string_no_space 0) |].
  revert n H. induction ns as [| m ns IH]; intros n H; apply list.Forall_cons in H as [Hn H]; [by apply to_string_no_space |].
  cbn [join_mail_ids]. intros [Hin | Hin]%elem_of_app; [by apply (to_string_no_space n) |].
  apply elem_of_app in Hin as [Hin | Hin]; [by apply list_elem_of_singleton in Hin |]. by apply (IH m).
Qed.

Lemma uid_to_seq_nonneg l uid : 0 ≤ uid_to_seq l uid.
Proof.
  unfold uid_to_seq. assert (∀ (ps : list (nat * MailInfo)) acc, 0 ≤ acc →
    0 ≤ foldl (λ acc p, if mail_id (snd p) =? uid then Z.of_nat (fst p) + 1 else acc) acc ps) as H; [| by apply H].
  induction ps as [| p ps IH]; intros acc Hacc; simpl; [done |]. apply IH. destruct (_ =? _); lia.
Qed.

Lemma map_uid_set_no_space l set : SP ∉ set → SP ∉ map_uid_set l set.
Proof.
  intros Hs. unfold map_uid_set. case_bool_decide.
  - apply join_no_space. apply list.Forall_forall. intros n Hn. apply list_elem_of_omap in Hn as ([| c tok] & _ & Hn); [done |].
    cbn zeta in Hn. destruct (Z.ltb_spec 0 (uid_to_seq l (safe_stoull (c :: tok)))); simplify_eq; lia.
  - destruct (find_char 58 set) as [c |].
    + apply join_no_space. apply list.Forall_forall. intros n Hn. apply list_elem_of_omap in Hn as ([i m] & _ & Hn).
      simpl in Hn. destruct (_ && _); simplify_eq; lia.
    + case_bool_decide; [| apply to_string_no_space, uid_to_seq_nonneg].
      intros Hin. by apply list_elem_of_singleton in Hin.
Qed.

(** [UID FETCH] with a message number but nothing to fetch is refused and
    then the session is dead: the refusal is sent while the session is paused
    for the query that translated the number, nothing resumes it, and no later
    input is ever answered. *)
Theorem uid_fetch_without_items_hangs cfg env set ins s :
  state_ s = St.SELECTED → selected_ok s = true → closed s = false →
  args_of s = s! "FETCH " ++ set → SP ∉ set →
  e_conn env = true → (∀ u m, ∃ l, e_mails env u m = Some (true, l) ∧ l ≠ []) →
  Forall (λ i, match i with Chunk _ _ _ => True | _ => False end) ins →
  ∀ drain tag, let '(acts, s') := finish (process_event cfg env drain UID tag s) in
  writes acts = [tagged tag (s! "BAD") (s! "FETCH requires arguments")] ∧ writes (imap_run cfg ins s').1 = [].
Proof.
  intros Hst Hsel Hcl Ha Hs Hc Hm Hf drain tag. unfold process_event. set (s1 := upd_ctx (with_tag tag) s).
  change (closed s1) with (closed s). change (state_ s1) with (state_ s). rewrite Hcl, Hst.
  replace (is_terminal _ _) with false by (by destruct (is_tls cfg)).
  assert (∃ t, guard_target (make_imaps_desc (negb (is_tls cfg))) St.SELECTED UID = Some t) as [t ->]
    by (destruct (is_tls cfg); vm_compute; eauto).
  rewrite bool_decide_true by (destruct (is_tls cfg); refine (bool_decide_unpack _ _); vm_compute; exact I).
  cbn [run_handler]. unfold handle_uid. change (selected_ok s1) with (selected_ok s). rewrite Hsel. cbn [negb].
  change (args_of s1) with (args_of s). rewrite Ha.
  change (find_char SP (s! "FETCH " ++ set)) with (Some 5%nat). cbv iota beta.
  change (toupper <$> take 5 (s! "FETCH " ++ set)) with (s! "FETCH"). change (drop (5 + 1) (s! "FETCH " ++ set)) with set.
  replace (bool_decide (s! "FETCH" ∈ _)) with true by (vm_compute; reflexivity). rewrite Hc. cbn [negb].
  unfold get_mails at 1. destruct (Hm (user_id (ident (set_paused true s1))) (selected_mailbox_id (sel (set_paused true s1))))
    as (l & -> & Hl). cbn [negb orb].
  rewrite bool_decide_false by (intros E; apply Hl; by apply length_zero_iff_nil).
  assert (find_char SP set = None) as -> by (by apply find_char_None). cbv iota beta.
  replace (bool_decide (s! "FETCH" = s! "FETCH")) with true by (vm_compute; reflexivity).
  unfold handle_fetch. set (s2 := upd_ctx _ (set_paused true s1)).
  change (selected_ok s2) with (selected_ok s). rewrite Hsel. cbn [negb].
  assert (effective_args s2 = map_uid_set l set) as -> by apply app_nil_r.
  unfold fetch_args. rewrite (proj2 (find_char_None SP _)) by (by apply map_uid_set_no_space).
  cbn [mbind option_bind]. split; [done |]. by apply paused_silent.
Qed.

Lemma uid_fetch_without_items_hangs_witness :
  let env := example_env [plain_mail 5 true false] in
  let s := set_reader (mkReader false 0 [] [] [] (s! "FETCH 5") false CONNECT false)
             (example_run [plain_mail 5 true false] (line (s! "b SELECT INBOX"))).2 in
  let '(acts, s') := finish (process_event example_config env waiting UID (s! "c") s) in
  writes acts = [tagged (s! "c") (s! "BAD") (s! "FETCH requires arguments")]
  ∧ writes (imap_run example_config [Chunk 1000 (λ _, env) (line (s! "d NOOP"))] s').1 = [].
Proof.
  intros env s. apply (uid_fetch_without_items_hangs example_config env (s! "5") _ s).
  - vm_compute. reflexivity.
  - vm_compute. reflexivity.
  - vm_compute. reflexivity.
  - vm_compute. reflexivity.
  - refine (bool_decide_unpack _ _). vm_compute. exact I.
  - reflexivity.
  - intros u m. eexists. by split.
  - by repeat constructor.
Defined.

(** ** EXPUNGE responses a client cannot follow *)

(** What RFC 3501 has a client do with [* n EXPUNGE]: message [n] of its view is
    gone and the later ones move up. *)
Definition client_expunge {A} (view : list A) (n : Z) : list A :=
  take (Z.to_nat (n - 1)) view ++ drop (Z.to_nat n) view.

Lemma expunged_kept l k : Forall (λ m, is_deleted m = false) l →
  omap (λ p : nat * MailInfo, if is_deleted (snd p) then Some (Z.of_nat (fst p) + 1) else None) (imap (λ i m, ((k + i)%nat, m)) l) = [].
Proof.
  intros H. revert k. induction H as [| m l Hm _ IH]; intros k; [done |]. rewrite imap_cons. cbn [omap list_omap snd compose]. rewrite Hm.
  rewrite <- (IH (S k)). f_equal. apply imap_ext. intros i x _. simpl. f_equal. lia.
Qed.

(** EXPUNGE of two messages loses a third one on the client.  The numbers in
    the responses are positions before the first removal, but each response
    renumbers the client's view: when the first two messages are deleted, a
    client that follows the responses ends up with the deleted second message
    and without the third one, which still exists. *)
Theorem expunge_numbers_mislead (m1 m2 m3 : MailInfo) (rest : list MailInfo) :
  is_deleted m1 = true → is_deleted m2 = true → is_deleted m3 = false → Forall (λ m, is_deleted m = false) rest →
  let mails := m1 :: m2 :: m3 :: rest in
  filter (λ m, is_deleted m = false) mails = m3 :: rest ∧
  foldl client_expunge mails (expunged_seqs mails) = m2 :: rest.
Proof.
  intros H1 H2 H3 Hr mails. split.
  - unfold mails. rewrite !filter_cons, H1, H2, H3. simpl. f_equal.
    induction Hr as [| m l Hm _ IH]; [done |]. rewrite filter_cons, Hm. simpl. by rewrite IH.
  - assert (expunged_seqs mails = [1; 2]) as ->.
    { unfold expunged_seqs, mails. rewrite !imap_cons. cbn [omap list_omap snd fst compose]. rewrite H1, H2, H3.
      rewrite <- (expunged_kept rest 3 Hr). reflexivity. }
    reflexivity.
Qed.

Lemma expunge_numbers_mislead_witness :
  let mails := [plain_mail 1 true true; plain_mail 2 true true; plain_mail 3 true false] in
  filter (λ m, is_deleted m = false) mails = [plain_mail 3 true false] ∧
  foldl client_expunge mails (expunged_seqs mails) = [plain_mail 2 true true].
Proof. apply (expunge_numbers_mislead (plain_mail 1 true true) (plain_mail 2 true true) (plain_mail 3 true false) []); done. Defined.

(** ** A read-only mailbox that is changed *)

(** A mailbox opened with EXAMINE is not read-only: CLOSE removes its deleted
    messages all the same (as STORE and EXPUNGE change it); nothing looks at the
    flag EXAMINE sets and the reply to EXAMINE announces. *)
Theorem examined_mailbox_expunged cfg env drain tag s :
  state_ s = St.SELECTED → closed s = false → read_only (sel s) = true → e_conn env = true →
  ExpungeMails (user_id (ident s)) (selected_mailbox_id (sel s)) ∈ (finish (process_event cfg env drain CLOSE tag s)).1.
Proof.
  intros Hst Hcl _ Hc. unfold process_event. set (s1 := upd_ctx (with_tag tag) s).
  change (closed s1) with (closed s). change (state_ s1) with (state_ s). rewrite Hcl, Hst.
  replace (is_terminal _ _) with false by (by destruct (is_tls cfg)).
  assert (∃ t, guard_target (make_imaps_desc (negb (is_tls cfg))) St.SELECTED CLOSE = Some t) as [t ->]
    by (destruct (is_tls cfg); vm_compute; eauto).
  rewrite bool_decide_true by (destruct (is_tls cfg); refine (bool_decide_unpack _ _); vm_compute; exact I).
  cbn [run_handler]. unfold handle_close. change (state_ s1) with (state_ s). rewrite bool_decide_true, Hc by done. cbn [negb].
  rewrite finish_say. apply elem_of_app. left. by left.
Qed.

Definition examined : list MailInfo := [plain_mail 5 true true].

Lemma examined_mailbox_expunged_witness :
  let s := (example_run examined (line (s! "b EXAMINE INBOX"))).2 in
  read_only (sel s) = true ∧
  ExpungeMails 7 10 ∈ (finish (process_event example_config (example_env examined) waiting CLOSE (s! "c") s)).1.
Proof.
  intros s. assert (user_id (ident s) = 7) as E1 by (vm_compute; reflexivity).
  assert (selected_mailbox_id (sel s) = 10) as E2 by (vm_compute; reflexivity).
  split; [vm_compute; reflexivity |]. rewrite <- E1, <- E2.
  apply examined_mailbox_expunged; vm_compute; reflexivity.
Defined.

(** ** Arguments of one command used by the next *)

(** A command pipelined behind [UID FETCH] is run with the wrong arguments:
    the handler of UID sets its translated arguments aside in the session, the
    buffered command runs inside it, and reads them in place of its own.  Here
    [FETCH 2 (FLAGS)] answers the UID of message 1. *)
Theorem pipelined_command_misread :
  let mails := [plain_mail 5 true false; plain_mail 6 false false] in
  writes (example_run mails (line (s! "b SELECT INBOX") ++ line (s! "c UID FETCH 5 (UID)") ++ line (s! "d FETCH 2 (FLAGS)"))).1
    !! 4%nat = Some (s! "* 1 FETCH (UID 5)" ++ CRLF ++ tagged (s! "d") (s! "OK") (s! "FETCH completed"))
  ∧ writes (example_run mails (line (s! "b SELECT INBOX") ++ line (s! "d FETCH 2 (FLAGS)"))).1
    !! 3%nat = Some (s! "* 2 FETCH (FLAGS ())" ++ CRLF ++ tagged (s! "d") (s! "OK") (s! "FETCH completed")).
Proof. split; vm_compute; reflexivity. Qed.

(** ** COPY and MOVE *)

(** A COPY range that starts at zero indexes outside the mailbox: the code
    converts the bounds without checking the lower one and reads the element in
    front of the first message. *)
Theorem copy_range_from_zero (l : list MailInfo) (set hi : bytes) :
  l ≠ [] → set = s! "0:" ++ hi → copy_selection set l = None.
Proof.
  intros Hl ->. unfold copy_selection.
  replace (bool_decide (s! "0:" ++ hi = s! "*")) with false by (symmetry; by apply bool_decide_eq_false).
  change (find_char 58 (s! "0:" ++ hi)) with (Some 1%nat). cbv iota beta.
  change (safe_stoull (take 1 (s! "0:" ++ hi))) with 0.
  change (drop (1 + 1) (s! "0:" ++ hi)) with hi.
  pose proof (safe_stoull_range hi) as Hr. unfold u64_ok in Hr.
  rewrite (seqZ_cons 0) by lia. done.
Qed.

Lemma copy_range_from_zero_witness :
  copy_selection (s! "0:3") [plain_mail 5 true false] = None
  ∧ existsb (λ a, match a with Undefined => true | _ => false end)
      (example_run [plain_mail 5 true false] (line (s! "b SELECT INBOX") ++ line (s! "c COPY 0:3 Sent"))).1 = true.
Proof.
  split; [by apply (copy_range_from_zero _ _ (s! "3")) |]. vm_compute. reflexivity.
Defined.
