(* ===== verification/MailCrypto.v ===== *)
(** * Canonical forms and body hashes

    Models [common/mail_crypto.h]: the white space helpers, the canonical forms
    of DKIM and the body hash, in memory and over a file read line by line.
    OpenSSL is a set of parameters: [EVP_EncodeBlock] and [EVP_Digest], which can
    fail, and [SHA256] for the calls [SHA256_Init], [SHA256_Update] and
    [SHA256_Final]; feeding SHA-256 in pieces is feeding it their concatenation. *)

From S2P Require Import Prelude CString LineFolder SmtpText.

(** ** Text *)

Definition trim_ascii_ws (input : bytes) : bytes := trim_blanks input.

Fixpoint collapse_loop (in_ws : bool) (s : bytes) : bytes :=
  match s with
  | [] => []
  | c :: s => if is_ws c then (if in_ws then [] else [SP]) ++ collapse_loop true s else c :: collapse_loop false s
  end.

Definition collapse_ws (input : bytes) : bytes := trim_ascii_ws (collapse_loop false input).

(** [split_lines_lf] *)
Fixpoint lines_loop (current text : bytes) : list bytes :=
  match text with
  | [] => match current with [] => [] | _ => [strip_cr current] end
  | c :: text => if c =? LF then strip_cr current :: lines_loop [] text else lines_loop (current ++ [c]) text
  end.

Definition split_lines_lf (text : bytes) : list bytes := lines_loop [] text.

(** ** Canonical forms *)

Definition canonicalize_header_relaxed (field_name field_value : bytes) : bytes :=
  to_lower field_name ++ s! ":" ++ collapse_ws field_value ++ CRLF.

(** Without the empty lines at the end. *)
Definition drop_empty_end (lines : list bytes) : list bytes :=
  foldr (λ l rest, match l, rest with [], [] => [] | _, _ => l :: rest end) [] lines.

Definition normalize_body_simple (body : bytes) : bytes :=
  match drop_empty_end (split_lines_lf body) with
  | [] => CRLF
  | lines => concat ((λ l, l ++ CRLF) <$> lines)
  end.

(** A line of the relaxed form: runs of blanks become one space, none at the end. *)
Fixpoint relaxed_line (in_sp : bool) (line : bytes) : bytes :=
  match line with
  | [] => []
  | c :: line => if is_blank c then relaxed_line true line
                 else (if in_sp then [SP] else []) ++ c :: relaxed_line false line
  end.

Definition normalize_body_relaxed (body : bytes) : bytes :=
  concat ((λ l, relaxed_line false l ++ CRLF) <$> drop_empty_end (split_lines_lf body)).

Definition normalize_body (canon body : bytes) : bytes :=
  if bool_decide (canon = s! "relaxed") then normalize_body_relaxed body else normalize_body_simple body.

(** ** Hashing *)

Section Hash.
Context (EVP_EncodeBlock : bytes → option bytes) (EVP_Digest : bytes → option bytes) (SHA256 : bytes → bytes).

Definition base64_encode (data : bytes) : bytes :=
  match data with [] => [] | _ => default [] (EVP_EncodeBlock data) end.

Definition sha256_base64 (data : bytes) : bytes :=
  match EVP_Digest data with None => [] | Some digest => base64_encode digest end.

(** The loop of [dkim_body_hash_stream]: what was fed so far, the last line that
    is not empty, and the empty lines since. *)
Record HashState := mkHash {
  fed : bytes;
  pending_line : option bytes;
  pending_empties : nat;
  in_body : bool;
}.

Definition hash_start : HashState := mkHash [] None 0 false.

Definition hash_line (relaxed : bool) (h : HashState) (line : bytes) : HashState :=
  let line := strip_cr line in
  if negb (in_body h) then
    mkHash (fed h) (pending_line h) (pending_empties h) (bool_decide (line = []))
  else if bool_decide (line = []) then mkHash (fed h) (pending_line h) (S (pending_empties h)) true
  else
    let cur := if relaxed then relaxed_line false line else line in
    mkHash (fed h ++ (match pending_line h with Some p => p ++ CRLF | None => [] end)
            ++ concat (replicate (pending_empties h) CRLF))
      (Some cur) 0 true.

Definition hash_finish (relaxed : bool) (h : HashState) : bytes :=
  fed h ++ match pending_line h with Some p => p ++ CRLF | None => if relaxed then [] else CRLF end.

(** The bytes that are hashed. *)
Definition hash_input (canon content : bytes) : bytes :=
  let relaxed := bool_decide (canon = s! "relaxed") in
  hash_finish relaxed (foldl (hash_line relaxed) hash_start (getlines [] content)).

Definition dkim_body_hash_stream (canon content : bytes) : bytes := base64_encode (SHA256 (hash_input canon content)).
End Hash.

(** ** The two computations agree *)

Lemma lines_loop_getlines cur text : lines_loop cur text = strip_cr <$> getlines cur text.
Proof.
  revert cur. induction text as [| c text IH]; intros cur; simpl; [by destruct cur |].
  destruct (c =? LF); [| done]. by rewrite IH.
Qed.

Lemma getlines_lf l cur text : LF ∉ l → getlines cur (l ++ LF :: text) = (cur ++ l) :: getlines [] text.
Proof.
  revert cur. induction l as [| c l IH]; intros cur Hl; simpl; [by rewrite app_nil_r |].
  apply not_elem_of_cons in Hl as [Hc Hl]. destruct (Z.eqb_spec c LF) as [-> | _]; [done |].
  rewrite IH by done. by rewrite <- app_assoc.
Qed.

Lemma getlines_header hs rest :
  Forall (λ h, LF ∉ h) hs → getlines [] (concat ((λ h, h ++ [LF]) <$> hs) ++ rest) = hs ++ getlines [] rest.
Proof.
  induction 1 as [| h hs Hh _ IH]; [done |]. rewrite fmap_cons. cbn [concat app]. rewrite <- !app_assoc. cbn [app].
  rewrite getlines_lf by done. cbn [app]. by rewrite IH.
Qed.

Section Equivalent.
Context (relaxed : bool).

Definition canon_line (l : bytes) : bytes := if relaxed then relaxed_line false l else l.

(** What hashing the lines [ls] of the body feeds beyond [h]. *)
Definition body_output (h : HashState) (ls : list bytes) : bytes :=
  match drop_empty_end ls with
  | [] => hash_finish relaxed h
  | kept => fed h ++ (match pending_line h with Some p => p ++ CRLF | None => [] end)
            ++ concat (replicate (pending_empties h) CRLF) ++ concat ((λ l, canon_line l ++ CRLF) <$> kept)
  end.

Lemma drop_empty_end_cons l ls :
  drop_empty_end (l :: ls) = match l, drop_empty_end ls with [], [] => [] | _, _ => l :: drop_empty_end ls end.
Proof. done. Qed.

Lemma drop_empty_end_nonempty l ls : l ≠ [] → drop_empty_end (l :: ls) = l :: drop_empty_end ls.
Proof. intros H. rewrite drop_empty_end_cons. by destruct l. Qed.

Lemma hash_line_empty h l :
  in_body h = true → strip_cr l = [] →
  hash_line relaxed h l = mkHash (fed h) (pending_line h) (S (pending_empties h)) true.
Proof. intros Hb E. unfold hash_line. by rewrite Hb, E. Qed.

Lemma hash_line_text h l :
  in_body h = true → strip_cr l ≠ [] →
  hash_line relaxed h l =
  mkHash (fed h ++ (match pending_line h with Some p => p ++ CRLF | None => [] end)
            ++ concat (replicate (pending_empties h) CRLF)) (Some (canon_line (strip_cr l))) 0 true.
Proof. intros Hb E. unfold hash_line. rewrite Hb. simpl. by rewrite bool_decide_false. Qed.

Lemma hash_body h ls :
  in_body h = true →
  hash_finish relaxed (foldl (hash_line relaxed) h ls) = body_output h (strip_cr <$> ls).
Proof.
  revert h. induction ls as [| l ls IH]; intros h Hb; [done |]. cbn [foldl]. rewrite fmap_cons.
  destruct (decide (strip_cr l = [])) as [E | E];
    [rewrite (hash_line_empty _ _ Hb E) | rewrite (hash_line_text _ _ Hb E)].
  - rewrite IH by done. rewrite E. unfold body_output. rewrite drop_empty_end_cons.
    destruct (drop_empty_end (strip_cr <$> ls)) as [| k kept]; [done |]. cbn [fed pending_line pending_empties].
    do 2 f_equal. rewrite (fmap_cons _ []). cbn [concat].
    assert (canon_line [] = []) as -> by (by unfold canon_line; destruct relaxed). cbn [app].
    by rewrite replicate_S_end, concat_app, <- app_assoc.
  - rewrite IH by done. unfold body_output. rewrite drop_empty_end_nonempty by done.
    destruct (drop_empty_end (strip_cr <$> ls)) as [| k kept] eqn:Ek; cbn [fed pending_line pending_empties replicate concat app].
    + unfold hash_finish. cbn [fed pending_line]. rewrite fmap_cons. cbn [concat fmap list_fmap]. rewrite app_nil_r, <- !app_assoc. done.
    + rewrite (fmap_cons _ (strip_cr l)). cbn [concat]. rewrite <- !app_assoc. done.
Qed.

Lemma hash_header h ls rest :
  in_body h = false → Forall (λ l, strip_cr l ≠ []) ls →
  foldl (hash_line relaxed) h (ls ++ rest) = foldl (hash_line relaxed) h rest.
Proof.
  intros Hb Hf. induction Hf as [| l ls Hl _ IH]; [done |]. cbn [foldl app].
  assert (hash_line relaxed h l = h) as ->; [| done].
  unfold hash_line. rewrite Hb. cbn [negb]. rewrite bool_decide_false by done. destruct h; simpl in *; by subst.
Qed.
End Equivalent.

(** The bytes fed to the hash are the canonical form of the body. *)
Lemma hash_input_normal canon (headers : list bytes) (blank body : bytes) :
  Forall (λ h, LF ∉ h ∧ strip_cr h ≠ []) headers → blank = CRLF ∨ blank = [LF] →
  hash_input canon (concat ((λ h, h ++ [LF]) <$> headers) ++ blank ++ body) = normalize_body canon body.
Proof.
  intros Hh Hblank. unfold hash_input. set (relaxed := bool_decide (canon = s! "relaxed")).
  rewrite getlines_header by (eapply list.Forall_impl; [exact Hh | by intros h [? _]]).
  rewrite hash_header by (done || (eapply list.Forall_impl; [exact Hh | by intros h [_ ?]])).
  assert (∃ l, getlines [] (blank ++ body) = l :: getlines [] body ∧ strip_cr l = []) as (l & -> & El).
  { destruct Hblank as [-> | ->].
    - exists [CR]. split; [| done]. change (CRLF ++ body) with ([CR] ++ LF :: body). rewrite getlines_lf; [done |].
      refine (bool_decide_unpack _ _). vm_compute. exact I.
    - exists []. done. }
  cbn [foldl]. assert (hash_line relaxed hash_start l = mkHash [] None 0 true) as ->.
  { unfold hash_line. simpl. by rewrite El. }
  rewrite hash_body by done. unfold body_output. rewrite <- lines_loop_getlines. fold (split_lines_lf body).
  unfold normalize_body. fold relaxed. unfold normalize_body_relaxed, normalize_body_simple, hash_finish.
  destruct (drop_empty_end (split_lines_lf body)) as [| k kept]; cbn [fed pending_line pending_empties replicate concat app].
  - by destruct relaxed.
  - unfold canon_line. by destruct relaxed.
Qed.

(** Hashing a message file line by line, with empty lines held back until a
    later line shows that they are not at the end, hashes exactly the canonical
    form of the body computed in memory, for both canonical forms, every
    header block and either line end behind it. *)
Theorem body_hash_stream_equivalent EVP_EncodeBlock EVP_Digest SHA256 canon (headers : list bytes) (blank body : bytes) :
  Forall (λ h, LF ∉ h ∧ strip_cr h ≠ []) headers → blank = CRLF ∨ blank = [LF] →
  (∀ data, EVP_Digest data = Some (SHA256 data)) →
  dkim_body_hash_stream EVP_EncodeBlock SHA256 canon (concat ((λ h, h ++ [LF]) <$> headers) ++ blank ++ body)
  = sha256_base64 EVP_EncodeBlock EVP_Digest (normalize_body canon body).
Proof.
  intros Hh Hblank Hd. unfold dkim_body_hash_stream, sha256_base64. by rewrite Hd, hash_input_normal.
Qed.

Lemma body_hash_stream_equivalent_witness :
  let headers := [s! "From: a@x.org" ++ [CR]; s! "Subject: hi" ++ [CR]] in
  let body := s! "one  two " ++ CRLF ++ CRLF ++ s! "three" ++ CRLF ++ CRLF in
  dkim_body_hash_stream Some id (s! "relaxed") (concat ((λ h, h ++ [LF]) <$> headers) ++ CRLF ++ body)
  = s! "one two" ++ CRLF ++ CRLF ++ s! "three" ++ CRLF.
Proof.
  intros headers body. unfold headers, body. rewrite (body_hash_stream_equivalent Some Some id).
  - vm_compute. reflexivity.
  - repeat constructor; first [refine (bool_decide_unpack _ _); vm_compute; exact I | vm_compute; done].
  - by left.
  - done.
Defined.

(** The relaxed form keeps a line of blanks at the end of the body as an empty
    line; RFC 6376 drops it, since blanks at the end of a line go first. *)
Theorem relaxed_keeps_blank_line body :
  LF ∉ body → body ≠ [] → CR ∉ body →
  normalize_body_relaxed (body ++ CRLF ++ s! " " ++ CRLF) = relaxed_line false body ++ CRLF ++ CRLF.
Proof.
  intros Hlf Hne Hcr. unfold normalize_body_relaxed, split_lines_lf. rewrite lines_loop_getlines.
  assert (strip_cr (body ++ [CR]) = body) as Hs.
  { unfold strip_cr. rewrite last_snoc, length_app. simpl. rewrite Nat.add_sub. apply take_app_length. }
  replace (body ++ CRLF ++ s! " " ++ CRLF) with ((body ++ [CR]) ++ LF :: (s! " " ++ [CR]) ++ LF :: [])
    by (by rewrite <- !app_assoc).
  rewrite getlines_lf.
  2:{ rewrite not_elem_of_app, not_elem_of_cons. split; [done |]. split; [done | apply not_elem_of_nil]. }
  rewrite getlines_lf by (refine (bool_decide_unpack _ _); vm_compute; exact I).
  rewrite !fmap_cons. cbn [app getlines fmap list_fmap]. rewrite Hs.
  replace (strip_cr (s! " " ++ [CR])) with [SP] by (vm_compute; reflexivity).
  rewrite drop_empty_end_nonempty by done. rewrite drop_empty_end_nonempty by done. cbn [drop_empty_end foldr].
  rewrite !fmap_cons. cbn [fmap list_fmap concat relaxed_line is_blank Z.eqb SP Pos.eqb orb app].
  by rewrite <- !app_assoc.
Qed.
