(* ===== verification/Inbound.v ===== *)
(** * Verification of incoming mail

    Models [inbound/inbound_verifier.cpp]: SPF, DKIM and DMARC, each in the
    blocking form and in the form that continues in callbacks, the cache of TXT
    records between them, and the composition that ends in one verdict per
    check.  The resolver is a parameter: the answers it gives during one
    verification, a function of the name asked for ([Dns]).  OpenSSL is a set of
    parameters ([Crypto]).  Continuations are direct calls: every path of the
    source calls its callback once, last.

    [Run] says how an evaluation ends.  [Throws] is an exception of [std::stoi]
    that the code does not catch, [Undefined] a shift by more than the width of
    the operand, [Starved] that the fuel was used up; one unit of fuel is one
    SPF record loaded below the first. *)

From S2P Require Import Prelude CString LruCache LineFolder SmtpText MailCrypto.

Inductive Run (A : Type) := Ret (a : A) | Throws | Undefined | Starved.
Arguments Ret {A} a.
Arguments Throws {A}.
Arguments Undefined {A}.
Arguments Starved {A}.

Definition run_bind {A B} (r : Run A) (k : A → Run B) : Run B :=
  match r with Ret a => k a | Throws => Throws | Undefined => Undefined | Starved => Starved end.

Notation "'let*' x := r 'in' k" := (run_bind r (λ x, k)) (at level 10, x binder, r at level 100, k at level 200).

Definition of_option {A} (o : option A) : Run A := match o with Some a => Ret a | None => Throws end.

(** ** The standard library *)

(** [std::stoi]: [None] stands for both exceptions. *)
Definition stoi (s : bytes) : option Z :=
  let s := drop_while isspace s in
  let '(neg, s) := match s with
                   | 45 :: t => (true, t)
                   | 43 :: t => (false, t)
                   | _ => (false, s)
                   end in
  let '(ds, _) := span_digits s in
  match ds with
  | [] => None
  | _ => let v := if (neg : bool) then - dec_value 0 ds else dec_value 0 ds in
         if (- 2 ^ 31 <=? v) && (v <? 2 ^ 31) then Some v else None
  end.

(** ** Text *)

Definition split (s : bytes) (delim : Z) : list bytes := trim_blanks <$> getlines_sep delim [] s.

Definition put_tag (current : bytes) (tags : gmap bytes bytes) : gmap bytes bytes :=
  let tag := trim_blanks current in
  match find_char 61 tag with
  | Some eq => <[trim_blanks (take eq tag) := trim_blanks (drop (eq + 1) tag)]> tags
  | None => tags
  end.

Fixpoint tags_loop (raw current : bytes) (in_quotes : bool) (tags : gmap bytes bytes) : gmap bytes bytes :=
  match raw with
  | [] => match current with [] => tags | _ => put_tag current tags end
  | ch :: raw =>
      if ch =? DQUOTE then tags_loop raw current (negb in_quotes) tags
      else if (ch =? 59) && negb in_quotes then tags_loop raw [] in_quotes (put_tag current tags)
      else tags_loop raw (current ++ [ch]) in_quotes tags
  end.

Definition parse_tags (raw : bytes) : gmap bytes bytes := tags_loop raw [] false ∅.

Definition tag_or (tags : gmap bytes bytes) (name : bytes) (other : bytes) : bytes := default other (tags !! name).

Definition put_header (key val : bytes) (out : gmap bytes bytes) : gmap bytes bytes :=
  match key with [] => out | _ => <[to_lower key := val]> out end.

Fixpoint headers_loop (ls : list bytes) (cur_key cur_val : bytes) (out : gmap bytes bytes) : gmap bytes bytes :=
  match ls with
  | [] => put_header cur_key cur_val out
  | l :: ls =>
      match strip_cr l with
      | [] => put_header cur_key cur_val out
      | (c :: _) as line =>
          if is_blank c then
            headers_loop ls cur_key
              (match cur_key with [] => cur_val | _ => cur_val ++ [SP] ++ trim_blanks line end) out
          else
            let out := put_header cur_key cur_val out in
            match find_char 58 line with
            | Some colon => headers_loop ls (take colon line) (trim_blanks (drop (colon + 1) line)) out
            | None => headers_loop ls cur_key cur_val out
            end
      end
  end.

Definition parse_headers_map (raw_headers : bytes) : gmap bytes bytes := headers_loop (getlines [] raw_headers) [] [] ∅.

Definition extract_domain (addr : bytes) : bytes :=
  match find_char AT addr with
  | None => []
  | Some at_ =>
      let domain := drop (at_ + 1) addr in
      let domain := if bool_decide (list.last domain = Some 62) then take (length domain - 1) domain else domain in
      let domain := match domain with 60 :: rest => rest | _ => domain end in
      to_lower domain
  end.

Definition extract_from_header_domain (headers : bytes) : bytes :=
  match get_header_values headers (s! "from") with
  | [] => []
  | v :: _ => from_header_domain v
  end.

(** ** Results *)

Record SpfResult := mkSpf { spf_result : bytes; spf_reason : bytes }.

Record DkimResult := mkDkim {
  dkim_result : bytes;
  dkim_reason : bytes;
  selector : bytes;
  signing_domain : bytes;
}.

Record DmarcResult := mkDmarc {
  dmarc_result : bytes;
  dmarc_reason : bytes;
  policy : bytes;
  header_from_domain : bytes;
}.

Record VerificationResult := mkVR { spf : SpfResult; dkim : DkimResult; dmarc : DmarcResult }.

Definition spf_hard_fail (r : VerificationResult) : bool := bool_decide (spf_result (spf r) = s! "fail").
Definition dkim_hard_fail (r : VerificationResult) : bool := bool_decide (dkim_result (dkim r) = s! "fail").
Definition dmarc_hard_fail (r : VerificationResult) : bool :=
  bool_decide (dmarc_result (dmarc r) = s! "fail") && bool_decide (policy (dmarc r) = s! "reject").

(** A [VerificationResult] before any check. *)
Definition no_result : VerificationResult := mkVR (mkSpf [] []) (mkDkim [] [] [] []) (mkDmarc [] [] [] []).

(** ** The resolver *)

Record MxRecord := mkMx { host : bytes; priority : Z }.

Record Dns := mkDns {
  resolve_txt : bytes → list bytes;
  resolve_host_addresses : bytes → list bytes;
  resolve_mx : bytes → list MxRecord;
}.

(** ** SPF *)

Record SpfMechanism := mkMech { qualifier : bytes; mechanism : bytes; mvalue : bytes; cidr : bytes }.

Definition parse_mechanism (part : bytes) : SpfMechanism :=
  let '(q, token) := match part with
                     | (43 | 45 | 126 | 63) as first :: rest => ([first], rest)
                     | _ => (s! "+", part)
                     end in
  match find_char 58 token with
  | Some colon =>
      let m := to_lower (take colon token) in
      let val := drop (colon + 1) token in
      match find_char 47 val with
      | Some slash => mkMech q m (take slash val) (drop (slash + 1) val)
      | None => mkMech q m val []
      end
  | None =>
      match find_char 61 token with
      | Some eq => mkMech q (to_lower (take eq token)) (drop (eq + 1) token) []
      | None => mkMech q (to_lower token) [] []
      end
  end.

Definition parse_spf_record (record : bytes) : list SpfMechanism :=
  if bool_decide (take 6 record = s! "v=spf1") then
    parse_mechanism <$> filter (λ part, part ≠ []) (split (drop 6 record) SP)
  else [].

(** [ip_to_u32]: at most four parts, each shifted into a 32-bit word. *)
Fixpoint ip_loop (octets : list bytes) (shift result : Z) : option Z :=
  match octets with
  | [] => Some result
  | octet :: octets =>
      if 0 <=? shift then
        n ← stoi octet;
        ip_loop octets (shift - 8) (Z.lor result (to_u32 (Z.shiftl (to_u32 n) shift)))
      else Some result
  end.

Definition ip_to_u32 (ip : bytes) : option Z := ip_loop (getlines_sep 46 [] ip) 24 0.

Definition ip4_match (client_ip network cidr_str : bytes) : Run bool :=
  match cidr_str with
  | [] => Ret (bool_decide (client_ip = network))
  | _ =>
      let* prefix := of_option (stoi cidr_str) in
      let* client := of_option (ip_to_u32 client_ip) in
      let* net := of_option (ip_to_u32 network) in
      if prefix =? 0 then Ret (Z.land client 0 =? Z.land net 0)
      else if (1 <=? prefix) && (prefix <=? 32) then
        let mask := to_u32 (Z.shiftl (2 ^ 32 - 1) (32 - prefix)) in
        Ret (Z.land client mask =? Z.land net mask)
      else Undefined
  end.

(** The strings an evaluation hands on. *)
Inductive Eval := e_match | e_no_match | e_temperror | e_permerror | e_pass | e_fail | e_softfail | e_neutral.

#[export] Instance Eval_eq_dec : EqDecision Eval.
Proof. solve_decision. Defined.

Definition match_if (b : bool) : Eval := if b then e_match else e_no_match.

Definition is_spf (rec : bytes) : bool := starts_with (s! "v=spf1") rec.

(** The first SPF record of an answer; empty when there is none. *)
Definition spf_record_of (records : list bytes) : bytes := default [] (find is_spf records).

Section Spf.
Context (dns : Dns) (client_ip : bytes).

Definition host_match (name : bytes) : bool := bool_decide (client_ip ∈ resolve_host_addresses dns name).

(** The loop over the mechanisms of an included record. *)
Fixpoint any_match (eval : SpfMechanism → Run Eval) (mechs : list SpfMechanism) : Run Eval :=
  match mechs with
  | [] => Ret e_no_match
  | sub :: mechs =>
      let* r := eval sub in
      if bool_decide (r = e_match) then Ret e_match else any_match eval mechs
  end.

Fixpoint eval_spf_mechanism (fuel : nat) (mech : SpfMechanism) (domain : bytes) (depth : Z) : Run Eval :=
  let m := mechanism mech in
  let target := match mvalue mech with [] => domain | v => v end in
  let nested :=
    match spf_record_of (resolve_txt dns (mvalue mech)) with
    | [] => Ret e_temperror
    | record =>
        match fuel with
        | O => Starved
        | S fuel => any_match (λ sub, eval_spf_mechanism fuel sub (mvalue mech) (depth + 1)) (parse_spf_record record)
        end
    end in
  if bool_decide (m = s! "ip4") then let* b := ip4_match client_ip (mvalue mech) (cidr mech) in Ret (match_if b)
  else if bool_decide (m = s! "ip6") then Ret (match_if (bool_decide (client_ip = mvalue mech)))
  else if bool_decide (m = s! "a") then Ret (match_if (host_match target))
  else if bool_decide (m = s! "mx") then
    Ret (match_if (existsb (λ mx, host_match (host mx)) (resolve_mx dns target)))
  else if bool_decide (m = s! "include") then (if 10 <=? depth then Ret e_permerror else nested)
  else if bool_decide (m = s! "redirect") then nested
  else if bool_decide (m = s! "all") then Ret e_match
  else Ret e_no_match.

(** The domain whose record is checked. *)
Definition spf_domain (mail_from helo_domain : bytes) : bytes :=
  if bool_decide (mail_from = [] ∨ mail_from = s! "<>") then helo_domain else extract_domain mail_from.

(** The result for a mechanism that matched. *)
Definition qualifier_result (q : bytes) : SpfResult :=
  if bool_decide (q = s! "+") then mkSpf (s! "pass") []
  else if bool_decide (q = s! "-") then mkSpf (s! "fail") (s! "SPF hard fail")
  else if bool_decide (q = s! "~") then mkSpf (s! "softfail") (s! "SPF soft fail")
  else if bool_decide (q = s! "?") then mkSpf (s! "neutral") []
  else mkSpf [] [].

Fixpoint check_mechanisms (fuel : nat) (domain : bytes) (mechs : list SpfMechanism) : Run SpfResult :=
  match mechs with
  | [] => Ret (mkSpf (s! "neutral") (s! "no SPF mechanism matched"))
  | mech :: mechs =>
      if bool_decide (mechanism mech = s! "exp") then check_mechanisms fuel domain mechs else
      let* eval := eval_spf_mechanism fuel mech domain 0 in
      match eval with
      | e_match => Ret (qualifier_result (qualifier mech))
      | e_temperror => Ret (mkSpf (s! "temperror") (s! "SPF temporary error evaluating " ++ mechanism mech))
      | e_permerror => Ret (mkSpf (s! "permerror") (s! "SPF permanent error evaluating " ++ mechanism mech))
      | _ => check_mechanisms fuel domain mechs
      end
  end.

(** The record of the domain itself: none, several, or one. *)
Definition own_record (domain : bytes) (records : list bytes) : SpfResult + bytes :=
  match filter (λ r, is_spf r = true) records with
  | [] => inl (mkSpf (s! "none") (s! "no SPF record for " ++ domain))
  | [record] => inr record
  | _ => inl (mkSpf (s! "permerror") (s! "multiple SPF records for " ++ domain))
  end.

Definition check_spf (fuel : nat) (mail_from helo_domain : bytes) : Run SpfResult :=
  match spf_domain mail_from helo_domain with
  | [] => Ret (mkSpf (s! "none") (s! "no valid domain for SPF check"))
  | domain =>
      match own_record domain (resolve_txt dns domain) with
      | inl r => Ret r
      | inr record => check_mechanisms fuel domain (parse_spf_record record)
      end
  end.

(** The loop over the hosts of an MX answer, with every address seen so far. *)
Fixpoint check_one (mxs : list MxRecord) (addrs : list bytes) : Eval :=
  match mxs with
  | [] => e_no_match
  | mx :: mxs =>
      let addrs := addrs ++ resolve_host_addresses dns (host mx) in
      if bool_decide (client_ip ∈ addrs) then e_match else check_one mxs addrs
  end.

Definition qualifier_eval (q : bytes) : Eval :=
  if bool_decide (q = s! "+") then e_pass
  else if bool_decide (q = s! "-") then e_fail
  else if bool_decide (q = s! "~") then e_softfail
  else e_neutral.

(** How an included record counts for the record that includes it. *)
Definition include_eval (sub : Eval) : Eval :=
  match sub with e_pass => e_match | e_temperror | e_permerror => sub | _ => e_no_match end.

(** One mechanism; [load] evaluates the record of another domain. *)
Definition eval_one (load : bytes → list SpfMechanism → Run Eval) (mech : SpfMechanism) (domain : bytes) (depth : Z)
  : Run Eval :=
  let m := mechanism mech in
  let target := match mvalue mech with [] => domain | v => v end in
  let nested (k : Eval → Eval) :=
    match spf_record_of (resolve_txt dns (mvalue mech)) with
    | [] => Ret e_temperror
    | record => let* sub := load (mvalue mech) (parse_spf_record record) in Ret (k sub)
    end in
  if bool_decide (m = s! "ip4") then let* b := ip4_match client_ip (mvalue mech) (cidr mech) in Ret (match_if b)
  else if bool_decide (m = s! "ip6") then Ret (match_if (bool_decide (client_ip = mvalue mech)))
  else if bool_decide (m = s! "a") then Ret (match_if (host_match target))
  else if bool_decide (m = s! "mx") then Ret (check_one (resolve_mx dns target) [])
  else if bool_decide (m = s! "include") then (if 10 <=? depth then Ret e_permerror else nested include_eval)
  else if bool_decide (m = s! "redirect") then nested id
  else if bool_decide (m = s! "all") then Ret e_match
  else Ret e_no_match.

(** [continue_after] and the recursion to the next mechanism. *)
Fixpoint eval_list (eval : SpfMechanism → Run Eval) (mechs : list SpfMechanism) : Run Eval :=
  match mechs with
  | [] => Ret e_neutral
  | mech :: mechs =>
      let* r := eval mech in
      match r with
      | e_match => Ret (qualifier_eval (qualifier mech))
      | e_temperror | e_permerror => Ret r
      | _ => eval_list eval mechs
      end
  end.

Fixpoint eval_spf_mechanisms_async (fuel : nat) (mechs : list SpfMechanism) (domain : bytes) (depth : Z) : Run Eval :=
  eval_list (λ mech, eval_one (λ target sub,
      match fuel with
      | O => Starved
      | S fuel => eval_spf_mechanisms_async fuel sub target (depth + 1)
      end) mech domain depth) mechs.

Definition eval_result (eval : Eval) : SpfResult :=
  match eval with
  | e_pass => mkSpf (s! "pass") []
  | e_fail => mkSpf (s! "fail") (s! "SPF hard fail")
  | e_softfail => mkSpf (s! "softfail") (s! "SPF soft fail")
  | e_temperror => mkSpf (s! "temperror") (s! "SPF temporary error")
  | e_permerror => mkSpf (s! "permerror") (s! "SPF permanent error")
  | _ => mkSpf (s! "neutral") (s! "no SPF mechanism matched")
  end.

Definition check_spf_async (fuel : nat) (mail_from helo_domain : bytes) : Run SpfResult :=
  match spf_domain mail_from helo_domain with
  | [] => Ret (mkSpf (s! "none") (s! "no valid domain for SPF check"))
  | domain =>
      match own_record domain (resolve_txt dns domain) with
      | inl r => Ret r
      | inr record =>
          let* eval := eval_spf_mechanisms_async fuel (parse_spf_record record) domain 0 in Ret (eval_result eval)
      end
  end.

Definition check_spf_only (fuel : nat) (mail_from helo_domain : bytes) : Run SpfResult :=
  check_spf fuel mail_from helo_domain.

Definition check_spf_only_async (fuel : nat) (mail_from helo_domain : bytes) : Run SpfResult :=
  check_spf_async fuel mail_from helo_domain.
End Spf.

(** ** DKIM *)

Record DkimSignature := mkSig {
  version : bytes;
  algorithm : bytes;
  sdomain : bytes;
  sselector : bytes;
  body_hash : bytes;
  signature : bytes;
  body_canon : bytes;
  header_canon : bytes;
  signed_headers : list bytes;
  raw_value : bytes;
}.

Definition parse_signature (val : bytes) : DkimSignature :=
  let tags := parse_tags val in
  let '(hc, bc) :=
    match tags !! s! "c" with
    | Some c =>
        match find_char 47 c with
        | Some slash => (to_lower (trim_ascii_ws (take slash c)), to_lower (trim_ascii_ws (drop (slash + 1) c)))
        | None => (to_lower (trim_ascii_ws c), to_lower (trim_ascii_ws c))
        end
    | None => (s! "simple", s! "simple")
    end in
  mkSig (tag_or tags (s! "v") []) (to_lower (tag_or tags (s! "a") [])) (to_lower (tag_or tags (s! "d") []))
    (tag_or tags (s! "s") []) (tag_or tags (s! "bh") []) (tag_or tags (s! "b") [])
    bc hc (match tags !! s! "h" with Some h => split h 58 | None => [] end) val.

Definition parse_dkim_signatures (raw_headers : bytes) : list DkimSignature :=
  filter (λ sig, sdomain sig ≠ [] ∧ sselector sig ≠ [] ∧ signature sig ≠ [])
    (parse_signature <$> get_header_values raw_headers (s! "dkim-signature")).

Definition key_domain (sig : DkimSignature) : bytes := sselector sig ++ s! "._domainkey." ++ sdomain sig.

Fixpoint extract_dkim_pubkey (txt_records : list bytes) : bytes :=
  match txt_records with
  | [] => []
  | rec :: txt_records =>
      let tags := parse_tags rec in
      let ktype := match tags !! s! "k" with Some k => to_lower k | None => s! "rsa" end in
      if negb (bool_decide (ktype = s! "rsa")) then extract_dkim_pubkey txt_records else
      match tags !! s! "p" with
      | Some ((_ :: _) as p) => p
      | _ => extract_dkim_pubkey txt_records
      end
  end.

(** The value of the signature header with its b= tag emptied: the first b= of
    the text, up to the next semicolon. *)
Definition strip_b (v : bytes) : bytes :=
  match find_sub (s! "b=") v with
  | None => v
  | Some b_pos =>
      match find_char_from 59 v b_pos with
      | Some end_pos => take (b_pos + 2) v ++ drop end_pos v
      | None => take (b_pos + 2) v
      end
  end.

Definition drop_crlf (s : bytes) : bytes :=
  if (2 <=? length s)%nat && bool_decide (drop (length s - 2) s = CRLF) then take (length s - 2) s else s.

Definition signed_header (raw_headers hname : bytes) : bytes :=
  match parse_headers_map raw_headers !! to_lower hname with
  | None => []
  | Some _ =>
      match get_header_values raw_headers (to_lower hname) with
      | [] => []
      | v :: _ => canonicalize_header_relaxed hname v
      end
  end.

Definition signing_input (sig : DkimSignature) (raw_headers : bytes) : bytes :=
  concat (signed_header raw_headers <$> signed_headers sig)
  ++ drop_crlf (canonicalize_header_relaxed (s! "DKIM-Signature") (strip_b (raw_value sig))).

(** Base64 as keys and signatures are prepared: without white space, padded. *)
Definition clean_base64 (s : bytes) : bytes :=
  let c := filter (λ ch, is_ws ch = false) s in
  c ++ replicate ((4 - length c mod 4) mod 4) 61.

(** OpenSSL: [EVP_DecodeBlock] gives its negative or zero result, or the bytes
    with the padding counted; [d2i_PUBKEY] a key or none; the three calls of
    the verification end in one of [DigestVerify]. *)
Inductive DigestVerify := init_failed | update_failed | final_result (ok : bool).

Record Crypto := mkCrypto {
  EVP_EncodeBlock : bytes → option bytes;
  EVP_Digest : bytes → option bytes;
  SHA256 : bytes → bytes;
  EVP_DecodeBlock : bytes → Z + bytes;
  PKEY : Type;
  d2i_PUBKEY : bytes → option PKEY;
  digest_verify : PKEY → bytes → bytes → DigestVerify;
}.

Section Dkim.
Context (dns : Dns) (ssl : Crypto).

(** The padding bytes that [EVP_DecodeBlock] counts are cut off. *)
Definition unpad (clean decoded : bytes) : bytes :=
  let p1 := if bool_decide (list.last clean = Some 61) then 1%nat else 0%nat in
  let p2 := if bool_decide (clean !! (length clean - 2)%nat = Some 61 ∧ (1 < length clean)%nat) then 1%nat else 0%nat in
  take (length decoded - p1 - p2) decoded.

(** The end of both verifications; [key_err] and [sig_err] are their messages. *)
Definition verify_core (key_err : bytes → bytes) (sig_err : bytes → Z → bytes)
    (sig : DkimSignature) (raw_headers pubkey_b64 : bytes) : bool * bytes :=
  let clean_key := clean_base64 pubkey_b64 in
  match EVP_DecodeBlock ssl clean_key with
  | inl _ => (false, key_err clean_key)
  | inr decoded =>
      let der := unpad clean_key decoded in
      match d2i_PUBKEY ssl der with
      | None => (false, s! "failed to parse DKIM public key (DER, decoded_len=" ++ to_string (Z.of_nat (length der)) ++ s! ")")
      | Some pkey =>
          let clean_sig := clean_base64 (signature sig) in
          match EVP_DecodeBlock ssl clean_sig with
          | inl ret => (false, sig_err clean_sig ret)
          | inr decoded =>
              match digest_verify ssl pkey (signing_input sig raw_headers) (unpad clean_sig decoded) with
              | init_failed => (false, s! "EVP_DigestVerifyInit failed")
              | update_failed => (false, s! "EVP_DigestVerifyUpdate failed")
              | final_result true => (true, [])
              | final_result false => (false, s! "DKIM signature verification failed")
              end
          end
      end
  end.

Definition hash_mismatch (sig : DkimSignature) : bytes := s! "DKIM body hash mismatch (canon=" ++ body_canon sig ++ s! ")".

Definition z_string (n : Z) : bytes := if n <? 0 then s! "-" ++ to_string (- n) else to_string n.

Definition verify_dkim_signature_impl (sig : DkimSignature) (raw_headers computed_bh : bytes) : bool * bytes :=
  match extract_dkim_pubkey (resolve_txt dns (key_domain sig)) with
  | [] => (false, s! "no DKIM public key found in DNS for " ++ key_domain sig)
  | pubkey_b64 =>
      if negb (bool_decide (computed_bh = body_hash sig)) then (false, hash_mismatch sig) else
      verify_core
        (λ k, s! "failed to base64-decode DKIM public key (len=" ++ to_string (Z.of_nat (length k)) ++ s! ", orig="
              ++ to_string (Z.of_nat (length (filter (λ ch, is_ws ch = false) pubkey_b64))) ++ s! ")")
        (λ k ret, s! "failed to base64-decode DKIM signature (sig_len=" ++ to_string (Z.of_nat (length k)) ++ s! ", err="
              ++ z_string ret ++ s! ")")
        sig raw_headers pubkey_b64
  end.

Definition verify_dkim_with_pubkey (sig : DkimSignature) (raw_headers computed_bh pubkey_b64 : bytes) : bool * bytes :=
  if negb (bool_decide (computed_bh = body_hash sig)) then (false, hash_mismatch sig) else
  verify_core
    (λ k, s! "failed to base64-decode DKIM public key (len=" ++ to_string (Z.of_nat (length k)) ++ s! ")")
    (λ k _, s! "failed to base64-decode DKIM signature (sig_len=" ++ to_string (Z.of_nat (length k)) ++ s! ")")
    sig raw_headers pubkey_b64.

Definition memory_hash (raw_body : bytes) (sig : DkimSignature) : bytes :=
  sha256_base64 (EVP_EncodeBlock ssl) (EVP_Digest ssl) (normalize_body (body_canon sig) raw_body).

(** [body_file] is what opening the path gives: nothing, or the content. *)
Definition file_hash (body_path : bytes) (body_file : option bytes) (sig : DkimSignature) : bytes + bytes :=
  match body_file with
  | None => inl (s! "cannot open DKIM body file: " ++ body_path)
  | Some content => inr (dkim_body_hash_stream (EVP_EncodeBlock ssl) (SHA256 ssl) (body_canon sig) content)
  end.

Definition verify_dkim_signature (sig : DkimSignature) (raw_headers raw_body : bytes) : bool * bytes :=
  verify_dkim_signature_impl sig raw_headers (memory_hash raw_body sig).

Definition verify_dkim_signature_from_file (sig : DkimSignature) (raw_headers body_path : bytes) (body_file : option bytes)
  : bool * bytes :=
  match file_hash body_path body_file sig with
  | inl error => (false, error)
  | inr computed_bh => verify_dkim_signature_impl sig raw_headers computed_bh
  end.

Definition no_signature : DkimResult := mkDkim (s! "none") (s! "no DKIM-Signature header found") [] [].

Definition dkim_failed (reason : bytes) : DkimResult :=
  mkDkim (s! "fail") (match reason with [] => s! "no valid DKIM signature" | _ => reason end) [] [].

Definition dkim_pass (sig : DkimSignature) : DkimResult := mkDkim (s! "pass") [] (sselector sig) (sdomain sig).

Definition first_reason (reason error : bytes) : bytes := match reason with [] => error | _ => reason end.

(** The loop of the blocking checks. *)
Fixpoint dkim_loop (verify : DkimSignature → bool * bytes) (sigs : list DkimSignature) (reason : bytes) : DkimResult :=
  match sigs with
  | [] => dkim_failed reason
  | sig :: sigs =>
      if negb (bool_decide (algorithm sig = s! "rsa-sha256")) then dkim_loop verify sigs reason else
      let '(ok, error) := verify sig in
      if ok then dkim_pass sig else dkim_loop verify sigs (first_reason reason error)
  end.

Definition check_dkim (raw_headers raw_body : bytes) : DkimResult :=
  match parse_dkim_signatures raw_headers with
  | [] => no_signature
  | sigs => dkim_loop (λ sig, verify_dkim_signature sig raw_headers raw_body) sigs []
  end.

Definition check_dkim_from_file (raw_headers body_path : bytes) (body_file : option bytes) : DkimResult :=
  match parse_dkim_signatures raw_headers with
  | [] => no_signature
  | sigs => dkim_loop (λ sig, verify_dkim_signature_from_file sig raw_headers body_path body_file) sigs []
  end.

(** [try_sig].  The callback of the key lookup works on its own copy of the
    result, so the reasons it stores are gone when it goes on to the next
    signature; only a file that cannot be opened leaves one. *)
Fixpoint try_sig (raw_headers : bytes) (hash : DkimSignature → bytes + bytes) (sigs : list DkimSignature) (reason : bytes)
  : DkimResult :=
  match sigs with
  | [] => dkim_failed reason
  | sig :: sigs =>
      if negb (bool_decide (algorithm sig = s! "rsa-sha256")) then try_sig raw_headers hash sigs reason else
      match hash sig with
      | inl error => try_sig raw_headers hash sigs (first_reason reason error)
      | inr computed_bh =>
          match extract_dkim_pubkey (resolve_txt dns (key_domain sig)) with
          | [] => try_sig raw_headers hash sigs reason
          | pubkey_b64 =>
              if (verify_dkim_with_pubkey sig raw_headers computed_bh pubkey_b64).1 then dkim_pass sig
              else try_sig raw_headers hash sigs reason
          end
      end
  end.

Definition check_dkim_async (raw_headers raw_body : bytes) : DkimResult :=
  match parse_dkim_signatures raw_headers with
  | [] => no_signature
  | sigs => try_sig raw_headers (λ sig, inr (memory_hash raw_body sig)) sigs []
  end.

Definition check_dkim_from_file_async (raw_headers body_path : bytes) (body_file : option bytes) : DkimResult :=
  match parse_dkim_signatures raw_headers with
  | [] => no_signature
  | sigs => try_sig raw_headers (file_hash body_path body_file) sigs []
  end.
End Dkim.

(** ** DMARC *)

Definition ends_with_dot (s suffix : bytes) : bool :=
  if (length s <=? length suffix + 1)%nat then false
  else bool_decide (s !! (length s - length suffix - 1)%nat = Some 46) &&
       bool_decide (drop (length s - length suffix) s = suffix).

Definition is_aligned (auth_domain from_domain : bytes) : bool :=
  if bool_decide (auth_domain = [] ∨ from_domain = []) then false
  else if bool_decide (auth_domain = from_domain) then true
  else if (length from_domain <? length auth_domain)%nat then ends_with_dot auth_domain from_domain
  else ends_with_dot from_domain auth_domain.

Definition dmarc_record_of (records : list bytes) : bytes :=
  default [] (find (starts_with (s! "v=DMARC1")) records).

(** The verdict once the record is found. *)
Definition dmarc_verdict (from_domain : bytes) (s : SpfResult) (d : DkimResult) (mail_from_domain record : bytes) : DmarcResult :=
  let pol := match parse_tags record !! s! "p" with Some p => to_lower p | None => s! "none" end in
  let spf_ok := bool_decide (spf_result s = s! "pass") && is_aligned mail_from_domain from_domain in
  let dkim_ok := bool_decide (dkim_result d = s! "pass") && is_aligned (signing_domain d) from_domain in
  if spf_ok || dkim_ok then
    mkDmarc (s! "pass") (if spf_ok then s! "SPF aligned and passed" else s! "DKIM aligned and passed") pol []
  else if bool_decide (pol = s! "reject") then
    mkDmarc (s! "fail") (s! "DMARC policy is reject, no aligned auth passed") pol []
  else if bool_decide (pol = s! "quarantine") then
    mkDmarc (s! "fail") (s! "DMARC policy is quarantine, no aligned auth passed") pol []
  else mkDmarc (s! "none") (s! "DMARC policy is none") pol [].

(** [check_dmarc] and [check_dmarc_async] differ in the lookup only. *)
Definition check_dmarc (dns : Dns) (from_domain : bytes) (s : SpfResult) (d : DkimResult) (mail_from_domain : bytes)
  : DmarcResult :=
  match from_domain with
  | [] => mkDmarc (s! "none") (s! "no From domain for DMARC check") (s! "none") []
  | _ =>
      match dmarc_record_of (resolve_txt dns (s! "_dmarc." ++ from_domain)) with
      | [] => mkDmarc (s! "none") (s! "no DMARC record for " ++ from_domain) (s! "none") []
      | record => dmarc_verdict from_domain s d mail_from_domain record
      end
  end.

Definition check_dmarc_async : Dns → bytes → SpfResult → DkimResult → bytes → DmarcResult := check_dmarc.

(** ** The composition *)

Record Modes := mkModes { inbound_spf_mode : bytes; inbound_dkim_mode : bytes; inbound_dmarc_mode : bytes }.

Definition off (mode : bytes) : bool := bool_decide (mode = s! "off").

Section Verify.
Context (dns : Dns) (ssl : Crypto) (config : Modes) (fuel : nat).

(** The three steps, with the check of each step as an argument. *)
Definition spf_step (check : Run SpfResult) (precomputed : option SpfResult) : Run SpfResult :=
  match precomputed with
  | Some r => Ret r
  | None => if off (inbound_spf_mode config) then Ret (mkSpf (s! "none") (s! "SPF check disabled")) else check
  end.

Definition dkim_step (check : DkimResult) (before : DkimResult) : DkimResult :=
  if off (inbound_dkim_mode config)
  then mkDkim (s! "none") (s! "DKIM check disabled") (selector before) (signing_domain before) else check.

Definition dmarc_step (check : bytes → SpfResult → DkimResult → bytes → DmarcResult) (raw_headers mail_from : bytes)
    (s : SpfResult) (d : DkimResult) (before : DmarcResult) : DmarcResult :=
  if off (inbound_dmarc_mode config)
  then mkDmarc (s! "none") (s! "DMARC check disabled") (policy before) (header_from_domain before)
  else
    let from_domain := extract_from_header_domain raw_headers in
    let r := check from_domain s d (extract_domain mail_from) in
    mkDmarc (dmarc_result r) (dmarc_reason r) (policy r) from_domain.

Definition verify_all (client_ip mail_from helo_domain raw_headers raw_body : bytes) (result : VerificationResult)
    (precomputed : option SpfResult) : Run VerificationResult :=
  let* s := spf_step (check_spf dns client_ip fuel mail_from helo_domain) precomputed in
  let d := dkim_step (check_dkim dns ssl (raw_headers ++ CRLF ++ CRLF ++ raw_body) raw_body) (dkim result) in
  Ret (mkVR s d (dmarc_step (check_dmarc dns) raw_headers mail_from s d (dmarc result))).

Definition verify_all_from_file (client_ip mail_from helo_domain raw_headers body_path : bytes) (body_file : option bytes)
    (result : VerificationResult) (precomputed : option SpfResult) : Run VerificationResult :=
  let* s := spf_step (check_spf dns client_ip fuel mail_from helo_domain) precomputed in
  let d := dkim_step (check_dkim_from_file dns ssl raw_headers body_path body_file) (dkim result) in
  Ret (mkVR s d (dmarc_step (check_dmarc dns) raw_headers mail_from s d (dmarc result))).

Definition verify_all_async (client_ip mail_from helo_domain raw_headers raw_body : bytes)
    (precomputed : option SpfResult) : Run VerificationResult :=
  let* s := spf_step (check_spf_async dns client_ip fuel mail_from helo_domain) precomputed in
  let d := dkim_step (check_dkim_async dns ssl raw_headers raw_body) (dkim no_result) in
  Ret (mkVR s d (dmarc_step (check_dmarc_async dns) raw_headers mail_from s d (dmarc no_result))).

Definition verify_all_from_file_async (client_ip mail_from helo_domain raw_headers body_path : bytes)
    (body_file : option bytes) (precomputed : option SpfResult) : Run VerificationResult :=
  let* s := spf_step (check_spf_async dns client_ip fuel mail_from helo_domain) precomputed in
  let d := dkim_step (check_dkim_from_file_async dns ssl raw_headers body_path body_file) (dkim no_result) in
  Ret (mkVR s d (dmarc_step (check_dmarc_async dns) raw_headers mail_from s d (dmarc no_result))).
End Verify.

Definition build_auth_results_header (authserv_id : bytes) (result : VerificationResult) (mail_from_domain : bytes) : bytes :=
  let field name v := match v with [] => [] | _ => name ++ v end in
  s! "Authentication-Results: " ++ authserv_id
  ++ s! "; spf=" ++ spf_result (spf result) ++ field (s! " smtp.mailfrom=") mail_from_domain
  ++ s! "; dkim=" ++ dkim_result (dkim result) ++ field (s! " header.d=") (signing_domain (dkim result))
  ++ field (s! " header.s=") (selector (dkim result))
  ++ (if bool_decide (dmarc_result (dmarc result) ≠ s! "none" ∨ dmarc_reason (dmarc result) ≠ [])
      then s! "; dmarc=" ++ dmarc_result (dmarc result) ++ field (s! " header.from=") (header_from_domain (dmarc result))
      else []).

(** ** The cache of TXT records *)

Definition kSpfTtl : Z := 300.
Definition kDmarcTtl : Z := 900.
Definition kDkimTtl : Z := 3600.
Definition kNegativeTtl : Z := 60.

Record DnsCacheValue := mkDcv { records : list bytes; expires : Z }.

Definition DnsCache : Type := LruCache bytes DnsCacheValue.

Definition inbound_dns_cache : DnsCache := new_lru (K := bytes) (V := DnsCacheValue) 4096 300.

Definition clear_dns_cache (c : DnsCache) : DnsCache := clear c.

(** A lookup at [now]: the records when the cache has them and they have not
    expired, otherwise the resolver is asked. *)
Definition get_txt_async (now : Z) (key : bytes) (c : DnsCache) : option (list bytes) * DnsCache :=
  let '(found, c) := get now key c in
  match found with
  | Some (v, _) => if now <? expires v then (Some (records v), c) else (None, c)
  | None => (None, c)
  end.

(** The callback of the resolver at [now]. *)
Definition txt_answer (now : Z) (key : bytes) (ttl : Z) (rs : list bytes) (c : DnsCache) : DnsCache :=
  put now key (mkDcv rs (now + match rs with [] => kNegativeTtl | _ => ttl end)) c.

(** ** Which signatures count *)

Section Valid.
Context (dns : Dns) (ssl : Crypto).

(** The key decodes, parses and verifies the signature of the signed text. *)
Definition signature_ok (sig : DkimSignature) (raw_headers pubkey_b64 : bytes) : bool :=
  match EVP_DecodeBlock ssl (clean_base64 pubkey_b64) with
  | inl _ => false
  | inr key =>
      match d2i_PUBKEY ssl (unpad (clean_base64 pubkey_b64) key), EVP_DecodeBlock ssl (clean_base64 (signature sig)) with
      | Some pkey, inr s =>
          match digest_verify ssl pkey (signing_input sig raw_headers) (unpad (clean_base64 (signature sig)) s) with
          | final_result ok => ok
          | _ => false
          end
      | _, _ => false
      end
  end.

(** A signature the verifier accepts: a supported algorithm, a published key,
    the hash of the body, and a signature by that key. *)
Definition sig_valid (raw_headers bh : bytes) (sig : DkimSignature) : bool :=
  bool_decide (algorithm sig = s! "rsa-sha256") &&
  match extract_dkim_pubkey (resolve_txt dns (key_domain sig)) with
  | [] => false
  | key => bool_decide (bh = body_hash sig) && signature_ok sig raw_headers key
  end.

Lemma verify_core_ok ke se sig raw_headers key : (verify_core ssl ke se sig raw_headers key).1 = signature_ok sig raw_headers key.
Proof.
  unfold verify_core, signature_ok. destruct (EVP_DecodeBlock ssl (clean_base64 key)); [done |].
  destruct (d2i_PUBKEY ssl _); [| done]. destruct (EVP_DecodeBlock ssl (clean_base64 (signature sig))) as [| sg]; [done |].
  by destruct (digest_verify ssl _ _ _) as [| | []].
Qed.

Lemma impl_valid sig raw_headers bh :
  algorithm sig = s! "rsa-sha256" →
  (verify_dkim_signature_impl dns ssl sig raw_headers bh).1 = sig_valid raw_headers bh sig.
Proof.
  intros Ha. unfold verify_dkim_signature_impl, sig_valid. rewrite (bool_decide_true (algorithm sig = _)) by done. simpl.
  destruct (extract_dkim_pubkey _) as [| k ks]; [done |].
  case_bool_decide; simpl; [apply verify_core_ok | done].
Qed.

Lemma with_pubkey_valid sig raw_headers bh :
  algorithm sig = s! "rsa-sha256" →
  match extract_dkim_pubkey (resolve_txt dns (key_domain sig)) with
  | [] => false
  | key => (verify_dkim_with_pubkey ssl sig raw_headers bh key).1
  end = sig_valid raw_headers bh sig.
Proof.
  intros Ha. unfold verify_dkim_with_pubkey, sig_valid. rewrite (bool_decide_true (algorithm sig = _)) by done. simpl.
  destruct (extract_dkim_pubkey _) as [| k ks]; [done |].
  case_bool_decide; simpl; [apply verify_core_ok | done].
Qed.

(** What the rest of the program looks at. *)
Definition verdict (d : DkimResult) : bytes * bytes * bytes := (dkim_result d, selector d, signing_domain d).

Definition first_valid (valid : DkimSignature → bool) (sigs : list DkimSignature) : bytes * bytes * bytes :=
  match find valid sigs with Some sig => verdict (dkim_pass sig) | None => verdict (dkim_failed []) end.

Lemma dkim_loop_verdict verify valid sigs reason :
  (∀ sig, algorithm sig = s! "rsa-sha256" → (verify sig).1 = valid sig) →
  (∀ sig, algorithm sig ≠ s! "rsa-sha256" → valid sig = false) →
  verdict (dkim_loop verify sigs reason) = first_valid valid sigs.
Proof.
  intros Hv Hn. revert reason. induction sigs as [| sig sigs IH]; intros reason; [by destruct reason |].
  cbn [dkim_loop]. unfold first_valid. cbn [find]. case_bool_decide as Ha; simpl.
  - specialize (Hv sig Ha). destruct (verify sig) as [ok error]. simpl in Hv. subst ok.
    destruct (valid sig); [done |]. apply IH.
  - rewrite (Hn sig Ha). apply IH.
Qed.

Lemma try_sig_verdict raw_headers hash valid sigs reason :
  (∀ sig bh, hash sig = inr bh → sig_valid raw_headers bh sig = valid sig) →
  (∀ sig e, hash sig = inl e → valid sig = false) →
  (∀ sig, algorithm sig ≠ s! "rsa-sha256" → valid sig = false) →
  verdict (try_sig dns ssl raw_headers hash sigs reason) = first_valid valid sigs.
Proof.
  intros Hv He Hn. revert reason. induction sigs as [| sig sigs IH]; intros reason; [by destruct reason |].
  cbn [try_sig]. unfold first_valid. cbn [find]. case_bool_decide as Ha; simpl; [| rewrite (Hn sig Ha); apply IH].
  destruct (hash sig) as [e | bh] eqn:E; [rewrite (He sig e E); apply IH |].
  rewrite <- (Hv sig bh E), <- with_pubkey_valid by done.
  destruct (extract_dkim_pubkey _) as [| k ks]; [apply IH |].
  destruct (verify_dkim_with_pubkey _ _ _ _ _).1; [done | apply IH].
Qed.

Lemma sig_valid_algorithm raw_headers bh sig : algorithm sig ≠ s! "rsa-sha256" → sig_valid raw_headers bh sig = false.
Proof. intros H. unfold sig_valid. by rewrite bool_decide_false. Qed.

(** The verdict of each of the four checks. *)
Definition dkim_spec (raw_headers : bytes) (hash : DkimSignature → option bytes) : bytes * bytes * bytes :=
  match parse_dkim_signatures raw_headers with
  | [] => verdict no_signature
  | sigs => first_valid (λ sig, match hash sig with Some bh => sig_valid raw_headers bh sig | None => false end) sigs
  end.

Lemma first_valid_ext p q sigs : (∀ sig, p sig = q sig) → first_valid p sigs = first_valid q sigs.
Proof.
  intros H. unfold first_valid. assert (find p sigs = find q sigs) as ->; [| done].
  induction sigs as [| sig sigs IH]; [done |]. simpl. by rewrite H, IH.
Qed.

Lemma dkim_spec_ext raw_headers h1 h2 : (∀ sig, h1 sig = h2 sig) → dkim_spec raw_headers h1 = dkim_spec raw_headers h2.
Proof.
  intros H. unfold dkim_spec. destruct (parse_dkim_signatures raw_headers); [done |].
  apply first_valid_ext. intros sig. by rewrite H.
Qed.

Lemma check_dkim_spec raw_headers raw_body :
  verdict (check_dkim dns ssl raw_headers raw_body) = dkim_spec raw_headers (λ sig, Some (memory_hash ssl raw_body sig)).
Proof.
  unfold check_dkim, dkim_spec. destruct (parse_dkim_signatures raw_headers) as [| g gs]; [done |].
  apply dkim_loop_verdict; intros sig Ha; [by apply impl_valid | by apply sig_valid_algorithm].
Qed.

Lemma check_dkim_from_file_spec raw_headers path file :
  verdict (check_dkim_from_file dns ssl raw_headers path file)
  = dkim_spec raw_headers (λ sig, match file_hash ssl path file sig with inl _ => None | inr bh => Some bh end).
Proof.
  unfold check_dkim_from_file, dkim_spec. destruct (parse_dkim_signatures raw_headers) as [| g gs]; [done |].
  apply dkim_loop_verdict; intros sig Ha.
  - unfold verify_dkim_signature_from_file. destruct (file_hash ssl path file sig); [done | by apply impl_valid].
  - destruct (file_hash ssl path file sig); [done | by apply sig_valid_algorithm].
Qed.

Lemma check_dkim_async_spec raw_headers raw_body :
  verdict (check_dkim_async dns ssl raw_headers raw_body)
  = dkim_spec raw_headers (λ sig, Some (memory_hash ssl raw_body sig)).
Proof.
  unfold check_dkim_async, dkim_spec. destruct (parse_dkim_signatures raw_headers) as [| g gs]; [done |].
  apply try_sig_verdict; [by intros sig bh [= <-] | done | intros sig; apply sig_valid_algorithm].
Qed.

Lemma check_dkim_from_file_async_spec raw_headers path file :
  verdict (check_dkim_from_file_async dns ssl raw_headers path file)
  = dkim_spec raw_headers (λ sig, match file_hash ssl path file sig with inl _ => None | inr bh => Some bh end).
Proof.
  unfold check_dkim_from_file_async, dkim_spec. destruct (parse_dkim_signatures raw_headers) as [| g gs]; [done |].
  apply try_sig_verdict.
  - by intros sig bh ->.
  - by intros sig e ->.
  - intros sig Ha. destruct (file_hash ssl path file sig); [done | by apply sig_valid_algorithm].
Qed.
End Valid.

(** ** Where the headers end *)

Section HeaderEnd.
Context (l : bytes) (rest : list bytes) (Hl : strip_cr l = []).

Lemma header_values_end name ls cn cv acc :
  header_values name (ls ++ l :: rest) cn cv acc = header_values name ls cn cv acc.
Proof.
  revert cn cv acc. induction ls as [| x ls IH]; intros cn cv acc; cbn [app header_values]; [by rewrite Hl |].
  destruct (strip_cr x); [done |]. destruct (is_blank z); [apply IH |]. destruct (find_char 58 _); apply IH.
Qed.

Lemma headers_loop_end ls k v out : headers_loop (ls ++ l :: rest) k v out = headers_loop ls k v out.
Proof.
  revert k v out. induction ls as [| x ls IH]; intros k v out; cbn [app headers_loop]; [by rewrite Hl |].
  destruct (strip_cr x); [done |]. destruct (is_blank z); [apply IH |]. destruct (find_char 58 _); apply IH.
Qed.
End HeaderEnd.

(** The header block as the session keeps it: complete lines. *)
Definition header_block (hs : list bytes) : bytes := concat ((λ h, h ++ [LF]) <$> hs).

Lemma getlines_block hs text :
  Forall (λ h, LF ∉ h) hs → getlines [] (header_block hs ++ CRLF ++ text) = hs ++ [CR] :: getlines [] text.
Proof. intros H. unfold header_block. rewrite getlines_header by done. done. Qed.

Lemma getlines_only_block hs : Forall (λ h, LF ∉ h) hs → getlines [] (header_block hs) = hs.
Proof. intros H. rewrite <- (app_nil_r (header_block hs)). unfold header_block. rewrite getlines_header by done. by rewrite app_nil_r. Qed.

Lemma get_header_values_block hs text name :
  Forall (λ h, LF ∉ h) hs → get_header_values (header_block hs ++ CRLF ++ text) name = get_header_values (header_block hs) name.
Proof.
  intros H. unfold get_header_values. rewrite getlines_block, getlines_only_block by done.
  by apply header_values_end.
Qed.

Lemma parse_headers_map_block hs text :
  Forall (λ h, LF ∉ h) hs → parse_headers_map (header_block hs ++ CRLF ++ text) = parse_headers_map (header_block hs).
Proof.
  intros H. unfold parse_headers_map. rewrite getlines_block, getlines_only_block by done.
  by apply headers_loop_end.
Qed.

Lemma signing_input_block hs text sig :
  Forall (λ h, LF ∉ h) hs → signing_input sig (header_block hs ++ CRLF ++ text) = signing_input sig (header_block hs).
Proof.
  intros H. unfold signing_input. f_equal. f_equal. apply list_fmap_ext. intros _ h _. unfold signed_header.
  rewrite parse_headers_map_block by done. destruct (_ !! _); [| done]. by rewrite get_header_values_block.
Qed.

Lemma dkim_spec_block dns ssl hs text hash :
  Forall (λ h, LF ∉ h) hs →
  dkim_spec dns ssl (header_block hs ++ CRLF ++ text) hash = dkim_spec dns ssl (header_block hs) hash.
Proof.
  intros H. unfold dkim_spec, parse_dkim_signatures. rewrite get_header_values_block by done.
  destruct (filter _ _) as [| g gs]; [done |]. apply first_valid_ext. intros sig. destruct (hash sig); [| done].
  unfold sig_valid, signature_ok. by rewrite signing_input_block.
Qed.

(** The four ways to check the signatures of a message agree: in memory or
    from the file that holds the message, blocking or with callbacks, they
    reach the same verdict with the same domain and selector, although the
    blocking check in memory is given the whole message for its headers and the
    checks of the file hash it line by line. *)
Theorem dkim_paths_agree dns ssl (hs : list bytes) (path body : bytes) :
  Forall (λ h, LF ∉ h ∧ strip_cr h ≠ []) hs → (∀ data, EVP_Digest ssl data = Some (SHA256 ssl data)) →
  let file := Some (header_block hs ++ CRLF ++ body) in
  let v := verdict (check_dkim_async dns ssl (header_block hs) body) in
  verdict (check_dkim dns ssl (header_block hs ++ CRLF ++ CRLF ++ body) body) = v ∧
  verdict (check_dkim_from_file dns ssl (header_block hs) path file) = v ∧
  verdict (check_dkim_from_file_async dns ssl (header_block hs) path file) = v.
Proof.
  intros Hh Hd file v. unfold v.
  assert (Forall (λ h, LF ∉ h) hs) as Hlf by (eapply list.Forall_impl; [exact Hh | by intros h [? _]]).
  rewrite check_dkim_from_file_spec, check_dkim_from_file_async_spec, check_dkim_spec, check_dkim_async_spec.
  rewrite dkim_spec_block by done.
  rewrite (dkim_spec_ext _ _ _ (λ sig, match file_hash ssl path file sig with inl _ => None | inr bh => Some bh end)
             (λ sig, Some (memory_hash ssl body sig))); [done |]. intros sig.
  unfold file_hash, file, memory_hash, dkim_body_hash_stream, sha256_base64, header_block.
  by rewrite Hd, hash_input_normal by auto.
Qed.

(** A toy resolver and toy cryptography: encodings are the text itself, the
    digest is constant, and a signature is the key. *)
Definition toy_dns (txt : list (bytes * list bytes)) : Dns :=
  mkDns (λ name, default [] (snd <$> find (λ e, bool_decide (e.1 = name)) txt)) (λ _, []) (λ _, []).

Definition toy_ssl : Crypto :=
  mkCrypto Some (λ _, Some (s! "digest")) (λ _, s! "digest") inr bytes Some
    (λ key _ sig, final_result (bool_decide (sig = key))).

Definition toy_headers : list bytes :=
  (λ l, l ++ [CR]) <$> [s! "From: Ann <ann@shop.org>"; s! "To: bob@here.net";
    s! "DKIM-Signature: v=1; a=rsa-sha256; d=shop.org; s=k1; h=From:To; bh=digest; b=KEYS"].

Definition toy_keys : list (bytes * list bytes) :=
  [(s! "k1._domainkey.shop.org", [s! "v=DKIM1; k=rsa; p=KEYS"]); (s! "_dmarc.shop.org", [s! "v=DMARC1; p=reject"])].

Lemma toy_headers_ok : Forall (λ h, LF ∉ h ∧ strip_cr h ≠ []) toy_headers.
Proof.
  repeat constructor; first [refine (bool_decide_unpack _ _); vm_compute; exact I | vm_compute; done].
Qed.

Lemma dkim_paths_agree_witness :
  verdict (check_dkim_from_file_async (toy_dns toy_keys) toy_ssl (header_block toy_headers) (s! "/var/mail/1")
             (Some (header_block toy_headers ++ CRLF ++ s! "hello")))
  = (s! "pass", s! "k1", s! "shop.org").
Proof.
  destruct (dkim_paths_agree (toy_dns toy_keys) toy_ssl toy_headers (s! "/var/mail/1") (s! "hello")) as (_ & _ & ->).
  - exact toy_headers_ok.
  - done.
  - vm_compute. reflexivity.
Defined.

(** With callbacks the reason of a failing check is always the same text,
    whatever failed; the blocking check reports the first failure. *)
Theorem async_dkim_reason_lost dns ssl raw_headers raw_body :
  dkim_result (check_dkim_async dns ssl raw_headers raw_body) = s! "fail" →
  dkim_reason (check_dkim_async dns ssl raw_headers raw_body) = s! "no valid DKIM signature".
Proof.
  unfold check_dkim_async. destruct (parse_dkim_signatures raw_headers) as [| g gs]; [done |].
  generalize (g :: gs). intros sigs. induction sigs as [| sig sigs IH]; [done |]. cbn [try_sig].
  case_bool_decide; simpl; [| apply IH]. destruct (extract_dkim_pubkey _); [apply IH |].
  by destruct (verify_dkim_with_pubkey _ _ _ _ _).1; [| apply IH].
Qed.

(** ** Alignment and DMARC *)

(** The domain [d] lies below [above]. *)
Definition below (d above : bytes) : Prop := ∃ label, label ≠ [] ∧ d = label ++ s! "." ++ above.

Lemma ends_with_dot_spec s suffix : ends_with_dot s suffix = true ↔ below s suffix.
Proof.
  unfold ends_with_dot, below. destruct (Nat.leb_spec (length s) (length suffix + 1)) as [Hl | Hl].
  { split; [done |]. intros (label & Hne & ->). rewrite !length_app in Hl. cbn [length lit String.list_ascii_of_string fmap list_fmap] in Hl.
    destruct label; [done | simpl in Hl; lia]. }
  rewrite andb_true_iff, !bool_decide_eq_true. split.
  - intros [Hd Hs]. exists (take (length s - length suffix - 1) s). split.
    + intros E. apply (f_equal length) in E. rewrite length_take in E. simpl in E. lia.
    + rewrite <- (take_drop_middle _ _ _ Hd) at 1. f_equal. simpl. f_equal.
      etrans; [| exact Hs]. f_equal. lia.
  - intros (label & _ & ->). rewrite !length_app. change (length (s! ".")) with 1%nat.
    replace (length label + (1 + length suffix) - length suffix - 1)%nat with (length label) by lia.
    replace (length label + (1 + length suffix) - length suffix)%nat with (length (label ++ s! ".")) by (rewrite length_app; simpl; lia).
    split.
    + by rewrite lookup_app_r, Nat.sub_diag by lia.
    + by rewrite app_assoc, drop_app_length.
Qed.

Lemma below_length d above : below d above → (length above < length d)%nat.
Proof. intros (label & _ & ->). rewrite !length_app. simpl. lia. Qed.

Definition aligned (a f : bytes) : Prop := a ≠ [] ∧ f ≠ [] ∧ (a = f ∨ below a f ∨ below f a).

Lemma is_aligned_spec a f : is_aligned a f = true ↔ aligned a f.
Proof.
  unfold is_aligned, aligned. case_bool_decide as He; [split; [done | intros (? & ? & _); by destruct He] |].
  apply Decidable.not_or in He as [Ha Hf]. case_bool_decide as E; [by subst; intuition |].
  destruct (Nat.ltb_spec (length f) (length a)) as [Hl | Hl]; rewrite ends_with_dot_spec; split; intros H.
  - auto.
  - destruct H as (_ & _ & [? | [? | Hb]]); [done | done | apply below_length in Hb; lia].
  - auto.
  - destruct H as (_ & _ & [? | [Hb | ?]]); [done | apply below_length in Hb; lia | done].
Qed.

Lemma dmarc_pass_cases dns f s d mf :
  dmarc_result (check_dmarc dns f s d mf) = s! "pass" →
  (∃ record, record ∈ resolve_txt dns (s! "_dmarc." ++ f) ∧ starts_with (s! "v=DMARC1") record = true) ∧
  ((spf_result s = s! "pass" ∧ aligned mf f) ∨ (dkim_result d = s! "pass" ∧ aligned (signing_domain d) f)).
Proof.
  unfold check_dmarc. destruct f as [| c f]; [done |]. unfold dmarc_record_of.
  destruct (find _ _) as [record |] eqn:Ef; [| done]. apply find_some in Ef as [Hin Hs]. simpl.
  destruct record as [| r0 record]; [done |]. intros H. split; [exists (r0 :: record); split; [by apply list_elem_of_In | done] |].
  unfold dmarc_verdict in H. destruct (bool_decide (spf_result s = s! "pass") && is_aligned mf (c :: f)) eqn:E1.
  { left. apply andb_true_iff in E1 as [?%bool_decide_eq_true ?%is_aligned_spec]. done. }
  destruct (bool_decide (dkim_result d = s! "pass") && is_aligned (signing_domain d) (c :: f)) eqn:E2.
  { right. apply andb_true_iff in E2 as [?%bool_decide_eq_true ?%is_aligned_spec]. done. }
  simpl in H. repeat case_bool_decide; discriminate H.
Qed.

Lemma first_valid_pass valid sigs sel dom :
  first_valid valid sigs = (s! "pass", sel, dom) → ∃ sig, sig ∈ sigs ∧ valid sig = true ∧ sdomain sig = dom.
Proof.
  unfold first_valid. destruct (find valid sigs) as [sig |] eqn:E; [| done]. apply find_some in E as [Hin Hv].
  intros [= _ Hd]. exists sig. by rewrite list_elem_of_In.
Qed.

Lemma dkim_spec_pass dns ssl raw_headers hash sel dom :
  dkim_spec dns ssl raw_headers hash = (s! "pass", sel, dom) →
  ∃ sig bh, sig ∈ parse_dkim_signatures raw_headers ∧ hash sig = Some bh ∧ sig_valid dns ssl raw_headers bh sig = true
            ∧ sdomain sig = dom.
Proof.
  unfold dkim_spec. destruct (parse_dkim_signatures raw_headers) as [| g gs]; [done |].
  intros (sig & Hin & Hv & Hd)%first_valid_pass. destruct (hash sig) as [bh |] eqn:E; [| done].
  exists sig, bh. by rewrite E.
Qed.

(** The identity a message is accepted under: SPF passed for a domain aligned
    with the From header, or a valid signature of an aligned domain. *)
Definition authenticated (dns : Dns) (ssl : Crypto) (raw_headers mail_from : bytes) (s : SpfResult)
    (hash : DkimSignature → option bytes) : Prop :=
  let f := extract_from_header_domain raw_headers in
  (spf_result s = s! "pass" ∧ aligned (extract_domain mail_from) f) ∨
  (∃ sig bh, sig ∈ parse_dkim_signatures raw_headers ∧ hash sig = Some bh ∧ sig_valid dns ssl raw_headers bh sig = true
             ∧ aligned (sdomain sig) f).

Lemma dmarc_step_pass dns ssl config raw_headers mail_from s check before hash before' :
  verdict check = dkim_spec dns ssl raw_headers hash →
  dmarc_result (dmarc_step config (check_dmarc dns) raw_headers mail_from s (dkim_step config check before) before') = s! "pass" →
  (∃ record, record ∈ resolve_txt dns (s! "_dmarc." ++ extract_from_header_domain raw_headers)
             ∧ starts_with (s! "v=DMARC1") record = true) ∧
  authenticated dns ssl raw_headers mail_from s hash.
Proof.
  intros Hv. unfold dmarc_step. destruct (off (inbound_dmarc_mode config)); [done |]. simpl.
  intros [Hr [Hs | [Hp Ha]]]%dmarc_pass_cases; (split; [done |]); [by left |]. right.
  unfold dkim_step in Hp, Ha. destruct (off (inbound_dkim_mode config)); [done |].
  unfold verdict in Hv. rewrite Hp in Hv. symmetry in Hv. apply dkim_spec_pass in Hv as (sig & bh & ? & ? & ? & Hd).
  exists sig, bh. by rewrite Hd.
Qed.

(** C17: A message passes DMARC only when its From domain publishes a DMARC
    record and either SPF passed for a sender domain aligned with the From
    domain, or the message carries a DKIM signature of an aligned domain with
    the right body hash that verifies under the key published for it; aligned
    means equal, or one a subdomain of the other.  This is the verification of
    a stored message that the SMTP server runs at the end of DATA. *)
Theorem dmarc_pass_authenticated dns ssl config fuel client_ip mail_from helo raw_headers path file pre r :
  verify_all_from_file_async dns ssl config fuel client_ip mail_from helo raw_headers path file pre = Ret r →
  dmarc_result (dmarc r) = s! "pass" →
  (∃ record, record ∈ resolve_txt dns (s! "_dmarc." ++ extract_from_header_domain raw_headers)
             ∧ starts_with (s! "v=DMARC1") record = true) ∧
  authenticated dns ssl raw_headers mail_from (spf r)
    (λ sig, match file_hash ssl path file sig with inl _ => None | inr bh => Some bh end).
Proof.
  unfold verify_all_from_file_async. destruct (spf_step _ _ _) as [s | | |]; try done. intros [= <-]. simpl.
  apply dmarc_step_pass, check_dkim_from_file_async_spec.
Qed.

Lemma dmarc_pass_authenticated_witness :
  let file := Some (header_block toy_headers ++ CRLF ++ s! "hello") in
  let mode := mkModes (s! "off") (s! "soft") (s! "hard") in
  ∃ r, verify_all_from_file_async (toy_dns toy_keys) toy_ssl mode 0 (s! "10.0.0.1") (s! "<bounce@other.org>") (s! "h")
         (header_block toy_headers) (s! "/var/mail/1") file None = Ret r ∧ dmarc_result (dmarc r) = s! "pass" ∧
       authenticated (toy_dns toy_keys) toy_ssl (header_block toy_headers) (s! "<bounce@other.org>") (spf r)
         (λ sig, match file_hash toy_ssl (s! "/var/mail/1") file sig with inl _ => None | inr bh => Some bh end).
Proof.
  intros file mode. eexists. split; [vm_compute; reflexivity |]. split; [vm_compute; reflexivity |].
  refine (proj2 (dmarc_pass_authenticated (toy_dns toy_keys) toy_ssl mode 0 (s! "10.0.0.1") (s! "<bounce@other.org>") (s! "h")
    (header_block toy_headers) (s! "/var/mail/1") file None _ _ _)).
  - vm_compute. reflexivity.
  - vm_compute. reflexivity.
Defined.

(** ** Networks *)

Lemma mask_bit k i : 0 ≤ k ≤ 32 → 0 ≤ i → Z.testbit (to_u32 (Z.shiftl (2 ^ 32 - 1) k)) i = (k <=? i) && (i <? 32).
Proof.
  intros Hk Hi. unfold to_u32. change (2 ^ 32 - 1) with (Z.ones 32). rewrite Z.testbit_mod_pow2 by lia.
  rewrite Z.shiftl_spec, Z.testbit_ones by lia.
  destruct (Z.leb_spec k i), (Z.ltb_spec i 32), (Z.leb_spec 0 (i - k)), (Z.ltb_spec (i - k) 32); simpl; lia || done.
Qed.

Lemma high_bit a i : 0 ≤ a < 2 ^ 32 → 32 ≤ i → Z.testbit a i = false.
Proof.
  intros Ha Hi. rewrite <- (Z.mod_small a (2 ^ 32)) by done. rewrite Z.testbit_mod_pow2 by lia.
  destruct (Z.ltb_spec i 32); [lia | done].
Qed.

Lemma mask_prefix a b k :
  0 ≤ k ≤ 32 → 0 ≤ a < 2 ^ 32 → 0 ≤ b < 2 ^ 32 →
  let mask := to_u32 (Z.shiftl (2 ^ 32 - 1) k) in
  Z.land a mask = Z.land b mask ↔ a / 2 ^ k = b / 2 ^ k.
Proof.
  intros Hk Ha Hb mask. rewrite <- !Z.shiftr_div_pow2 by lia. split; intros E; apply Z.bits_inj'; intros i Hi.
  - rewrite !Z.shiftr_spec by lia. destruct (Z.lt_ge_cases (i + k) 32) as [Hl | Hl]; [| by rewrite !high_bit by lia].
    apply (f_equal (λ z, Z.testbit z (i + k))) in E. rewrite !Z.land_spec in E. unfold mask in E.
    rewrite mask_bit in E by lia. rewrite (proj2 (Z.leb_le _ _)), (proj2 (Z.ltb_lt _ _)) in E by lia.
    by rewrite !andb_true_r in E.
  - rewrite !Z.land_spec. unfold mask. rewrite mask_bit by lia.
    destruct (Z.leb_spec k i); simpl; [| by rewrite !andb_false_r].
    apply (f_equal (λ z, Z.testbit z (i - k))) in E. rewrite !Z.shiftr_spec in E by lia.
    replace (i - k + k) with i in E by lia. by rewrite E.
Qed.

Lemma lor_u32 a b : 0 ≤ a < 2 ^ 32 → 0 ≤ b < 2 ^ 32 → 0 ≤ Z.lor a b < 2 ^ 32.
Proof.
  intros Ha Hb. assert (0 ≤ Z.lor a b) by (apply Z.lor_nonneg; lia).
  apply Z.bounded_iff_bits_nonneg'; [done.. |]. intros i Hi. by rewrite Z.lor_spec, !high_bit.
Qed.

Lemma ip_loop_range octets shift acc ip :
  0 ≤ acc < 2 ^ 32 → ip_loop octets shift acc = Some ip → 0 ≤ ip < 2 ^ 32.
Proof.
  revert shift acc. induction octets as [| o octets IH]; intros shift acc Hacc; simpl; [congruence |].
  destruct (0 <=? shift); [| congruence]. destruct (stoi o) as [n |]; [| done]. simpl. apply IH.
  apply lor_u32; [done |]. unfold to_u32. apply Z.mod_pos_bound. lia.
Qed.

(** The client is the address, or its first [prefix] bits are the network's. *)
Definition in_network (client_ip network cidr_str : bytes) : Prop :=
  (cidr_str = [] ∧ client_ip = network) ∨
  (cidr_str ≠ [] ∧ ∃ prefix c n, stoi cidr_str = Some prefix ∧ 0 ≤ prefix ≤ 32 ∧ ip_to_u32 client_ip = Some c ∧
     ip_to_u32 network = Some n ∧ c / 2 ^ (32 - prefix) = n / 2 ^ (32 - prefix)).

Lemma ip4_match_spec client_ip network cidr_str b :
  ip4_match client_ip network cidr_str = Ret b → b = true ↔ in_network client_ip network cidr_str.
Proof.
  unfold ip4_match, in_network. destruct cidr_str as [| x xs].
  { intros [= <-]. rewrite bool_decide_eq_true. split; [by left | by intros [[_ ?] | [? _]]]. }
  set (cidr_str := x :: xs). destruct (stoi cidr_str) as [prefix |]; [| done]. simpl.
  destruct (ip_to_u32 client_ip) as [c |] eqn:Ec; [| done]. simpl.
  destruct (ip_to_u32 network) as [n |] eqn:En; [| done]. simpl.
  assert (0 ≤ c < 2 ^ 32) as Hc by (eapply ip_loop_range; [| exact Ec]; lia).
  assert (0 ≤ n < 2 ^ 32) as Hn by (eapply ip_loop_range; [| exact En]; lia).
  intros H. assert (0 ≤ prefix ≤ 32 ∧ (b = true ↔ c / 2 ^ (32 - prefix) = n / 2 ^ (32 - prefix))) as [Hp Hb].
  { destruct (Z.eqb_spec prefix 0) as [-> | Hne].
    - injection H as <-. rewrite !Z.land_0_r. split; [lia |]. change (32 - 0) with 32. by rewrite !Z.div_small by done.
    - destruct ((1 <=? prefix) && (prefix <=? 32)) eqn:E; [| done]. injection H as <-.
      apply andb_true_iff in E as [?%Z.leb_le ?%Z.leb_le]. split; [lia |]. rewrite Z.eqb_eq. apply mask_prefix; [lia | done..]. }
  rewrite Hb. split.
  - intros E. right. split; [done |]. by exists prefix, c, n.
  - intros [[? _] | (_ & p & c' & n' & [= <-] & _ & [= <-] & [= <-] & E)]; done.
Qed.

(** ** What an SPF pass means *)

Section SpfMeaning.
Context (dns : Dns) (client_ip : bytes).

(** The mechanism names the client itself. *)
Definition names_client (domain : bytes) (mech : SpfMechanism) : Prop :=
  let m := mechanism mech in
  let target := match mvalue mech with [] => domain | v => v end in
  m = s! "all" ∨ (m = s! "ip4" ∧ in_network client_ip (mvalue mech) (cidr mech)) ∨
  (m = s! "ip6" ∧ client_ip = mvalue mech) ∨ (m = s! "a" ∧ client_ip ∈ resolve_host_addresses dns target) ∨
  (m = s! "mx" ∧ ∃ mx, mx ∈ resolve_mx dns target ∧ client_ip ∈ resolve_host_addresses dns (host mx)).

(** A record authorises the client: a mechanism with the qualifier + names it,
    or includes a record that authorises it, and no earlier mechanism names it. *)
Inductive authorises : bytes → list SpfMechanism → Prop :=
  | by_mechanism domain pre mech post :
      Forall (λ m, ¬ names_client domain m) pre → qualifier mech = s! "+" → names_client domain mech →
      authorises domain (pre ++ mech :: post)
  | by_include domain pre mech post record :
      Forall (λ m, ¬ names_client domain m) pre → qualifier mech = s! "+" → mechanism mech = s! "include" →
      find is_spf (resolve_txt dns (mvalue mech)) = Some record →
      authorises (mvalue mech) (parse_spf_record record) → authorises domain (pre ++ mech :: post).

Lemma check_one_spec mxs addrs :
  client_ip ∉ addrs →
  check_one dns client_ip mxs addrs = match_if (existsb (λ mx, host_match dns client_ip (host mx)) mxs).
Proof.
  revert addrs. induction mxs as [| mx mxs IH]; intros addrs Ha; [done |]. simpl. unfold host_match at 1.
  destruct (decide (client_ip ∈ resolve_host_addresses dns (host mx))) as [Hin | Hin].
  - rewrite !bool_decide_true; [done | done | set_solver].
  - rewrite !bool_decide_false by set_solver. simpl. apply IH. set_solver.
Qed.

Lemma host_match_spec name : host_match dns client_ip name = true ↔ client_ip ∈ resolve_host_addresses dns name.
Proof. apply bool_decide_eq_true. Qed.

Lemma mx_match_spec mxs :
  existsb (λ mx, host_match dns client_ip (host mx)) mxs = true ↔
  ∃ mx, mx ∈ mxs ∧ client_ip ∈ resolve_host_addresses dns (host mx).
Proof.
  rewrite existsb_exists. setoid_rewrite host_match_spec. setoid_rewrite list_elem_of_In. done.
Qed.

(** [names_client] for one mechanism [H : mechanism mech = _]. *)
Ltac kind H :=
  unfold names_client; rewrite H; split;
  [intros Hn; repeat destruct Hn as [Hn | Hn]; try discriminate Hn; destruct Hn as [? Hn]; done || discriminate
  | intros ?; tauto].

Section Names.
Context (domain : bytes) (mech : SpfMechanism).
Let target := match mvalue mech with [] => domain | v => v end.

Lemma names_ip4 : mechanism mech = s! "ip4" → names_client domain mech ↔ in_network client_ip (mvalue mech) (cidr mech).
Proof. intros H. kind H. Qed.

Lemma names_ip6 : mechanism mech = s! "ip6" → names_client domain mech ↔ client_ip = mvalue mech.
Proof. intros H. kind H. Qed.

Lemma names_a : mechanism mech = s! "a" → names_client domain mech ↔ client_ip ∈ resolve_host_addresses dns target.
Proof. intros H. kind H. Qed.

Lemma names_mx :
  mechanism mech = s! "mx" →
  names_client domain mech ↔ ∃ mx, mx ∈ resolve_mx dns target ∧ client_ip ∈ resolve_host_addresses dns (host mx).
Proof. intros H. kind H. Qed.
End Names.

Lemma names_other domain mech :
  mechanism mech ∉ [s! "all"; s! "ip4"; s! "ip6"; s! "a"; s! "mx"] → ¬ names_client domain mech.
Proof. intros H Hn. apply H. unfold names_client in Hn. set_solver. Qed.

(** What [eval_one] says: [e_match] exactly when the mechanism names the client
    or includes a record that passes. *)
Definition one_says (load : bytes → list SpfMechanism → Run Eval) (mech : SpfMechanism) (domain : bytes) (e : Eval) : Prop :=
  (e = e_match ∧ (names_client domain mech ∨
     ∃ record, mechanism mech = s! "include" ∧ find is_spf (resolve_txt dns (mvalue mech)) = Some record ∧
               load (mvalue mech) (parse_spf_record record) = Ret e_pass)) ∨
  (e ≠ e_match ∧ ¬ names_client domain mech).

Lemma says_names load mech domain b e :
  (names_client domain mech ↔ b = true) → Ret (match_if b) = Ret e → one_says load mech domain e.
Proof.
  intros H [= <-]. destruct b; [left | right]; (split; [done |]); [by left; apply H | by intros ?%H].
Qed.

Lemma eval_one_spec load mech domain depth e :
  (∀ target sub, load target sub ≠ Ret e_match) →
  eval_one dns client_ip load mech domain depth = Ret e → one_says load mech domain e.
Proof.
  intros Hload. unfold eval_one, spf_record_of.
  case_bool_decide as H4.
  { destruct (ip4_match _ _ _) as [b | | |] eqn:E; try done. cbn [run_bind]. apply says_names.
    rewrite names_ip4 by done. symmetry. by apply ip4_match_spec. }
  case_bool_decide as H6; [apply says_names; by rewrite names_ip6, bool_decide_eq_true by done |].
  case_bool_decide as Ha; [apply says_names; by rewrite names_a, host_match_spec by done |].
  case_bool_decide as Hm.
  { rewrite check_one_spec by apply not_elem_of_nil. apply says_names. by rewrite names_mx, mx_match_spec by done. }
  assert (mechanism mech ≠ s! "all" → ¬ names_client domain mech) as Hno
    by (intros ?; apply names_other; set_solver).
  case_bool_decide as Hi.
  { destruct (10 <=? depth); [intros [= <-]; right; split; [done | apply Hno; by rewrite Hi] |].
    destruct (find is_spf _) as [record |] eqn:Er; [| intros [= <-]; right; split; [done | apply Hno; by rewrite Hi]].
    simpl. destruct record as [| r0 record]; [by apply find_some in Er as [_ ?] |].
    destruct (load _ _) as [sub | | |] eqn:El; try done. intros [= <-]. destruct sub; simpl;
      try (right; split; [done | apply Hno; by rewrite Hi]).
    left. split; [done |]. right. by exists (r0 :: record). }
  case_bool_decide as Hr.
  { assert (¬ names_client domain mech) by (apply Hno; by rewrite Hr).
    destruct (default [] _); [intros [= <-]; by right |].
    destruct (load _ _) as [sub | | |] eqn:El; try done. intros [= <-]. right. split; [| done].
    intros ->. by apply Hload in El. }
  case_bool_decide as Hall; intros [= <-]; [| right; by auto].
  left. split; [done |]. left. by left.
Qed.

Lemma qualifier_eval_pass q : qualifier_eval q = e_pass → q = s! "+".
Proof. unfold qualifier_eval. by repeat case_bool_decide. Qed.

Lemma eval_list_not_match eval mechs : eval_list eval mechs ≠ Ret e_match.
Proof.
  induction mechs as [| mech mechs IH]; [done |]. simpl. destruct (eval mech) as [[] | | |]; simpl; try done.
  unfold qualifier_eval. by repeat case_bool_decide.
Qed.

Lemma eval_list_pass eval mechs :
  eval_list eval mechs = Ret e_pass →
  ∃ pre mech post, mechs = pre ++ mech :: post ∧ qualifier mech = s! "+" ∧ eval mech = Ret e_match ∧
    Forall (λ m, ∃ e, eval m = Ret e ∧ e ≠ e_match) pre.
Proof.
  induction mechs as [| mech mechs IH]; [done |]. simpl. destruct (eval mech) as [e | | |] eqn:E; try done. simpl.
  destruct (decide (e = e_match)) as [-> | Hne].
  - intros [= Hq%qualifier_eval_pass]. by exists [], mech, mechs.
  - intros H. destruct IH as (pre & m & post & -> & Hq & Hm & Hf); [by destruct e |].
    exists (mech :: pre), m, post. do 3 (split; [done |]). constructor; [by exists e | done].
Qed.

Lemma list_authorises load mechs domain depth :
  (∀ target sub, load target sub ≠ Ret e_match) →
  (∀ target sub, load target sub = Ret e_pass → authorises target sub) →
  eval_list (λ mech, eval_one dns client_ip load mech domain depth) mechs = Ret e_pass → authorises domain mechs.
Proof.
  intros Hne Hrec (pre & mech & post & -> & Hq & Hm & Hf)%eval_list_pass.
  assert (Forall (λ m, ¬ names_client domain m) pre) as Hpre.
  { eapply list.Forall_impl; [exact Hf |]. intros m (e & He & Hem).
    by apply eval_one_spec in He as [[? _] | [_ ?]]. }
  apply eval_one_spec in Hm as [[_ [Hn | (record & Hi & Hr & Hl)]] | [? _]]; [| | done | done].
  - by apply by_mechanism.
  - by eapply by_include; eauto.
Qed.

Lemma pass_authorises fuel mechs domain depth :
  eval_spf_mechanisms_async dns client_ip fuel mechs domain depth = Ret e_pass → authorises domain mechs.
Proof.
  revert mechs domain depth. induction fuel as [| fuel IH]; intros mechs domain depth; cbn [eval_spf_mechanisms_async];
    apply list_authorises; try done.
  - intros target sub. destruct fuel; apply eval_list_not_match.
  - intros target sub. apply IH.
Qed.
End SpfMeaning.

(** C34: SPF passes only for a client that the sender's domain authorises: the
    domain publishes one SPF record, and in it a mechanism with the qualifier +
    names the client (its network contains the client, the client is among the
    addresses of the host or of the mail exchangers named), or includes a record
    that authorises the client in the same way; no mechanism before it in its
    record names the client. *)
Theorem spf_pass_authorised dns client_ip fuel mail_from helo r :
  check_spf_async dns client_ip fuel mail_from helo = Ret r → spf_result r = s! "pass" →
  let domain := spf_domain mail_from helo in
  ∃ record, filter (λ rec, is_spf rec = true) (resolve_txt dns domain) = [record] ∧
            authorises dns client_ip domain (parse_spf_record record).
Proof.
  unfold check_spf_async. destruct (spf_domain mail_from helo) as [| c domain]; [by intros [= <-] |].
  unfold own_record. destruct (filter _ _) as [| record [| ? ?]]; [by intros [= <-] | | by intros [= <-]].
  destruct (eval_spf_mechanisms_async _ _ _ _ _ _) as [e | | |] eqn:E; try done. intros [= <-] Hp.
  exists record. split; [done |]. eapply pass_authorises. rewrite E. by destruct e.
Qed.

Definition toy_spf : list (bytes * list bytes) :=
  [(s! "shop.org", [s! "google-site=1"; s! "v=spf1 ip4:10.9.0.0/16 include:mailer.net -all"]);
   (s! "mailer.net", [s! "v=spf1 -ip4:10.0.0.7 ip4:10.0.0.0/8 ~all"])].

Lemma spf_pass_authorised_witness :
  check_spf_async (toy_dns toy_spf) (s! "10.0.0.8") 10 (s! "<ann@shop.org>") (s! "h") = Ret (mkSpf (s! "pass") []) ∧
  ∃ record, authorises (toy_dns toy_spf) (s! "10.0.0.8") (s! "shop.org") (parse_spf_record record).
Proof.
  assert (check_spf_async (toy_dns toy_spf) (s! "10.0.0.8") 10 (s! "<ann@shop.org>") (s! "h") = Ret (mkSpf (s! "pass") [])) as E
    by (vm_compute; reflexivity).
  split; [exact E |].
  destruct (spf_pass_authorised _ _ _ _ _ _ E eq_refl) as (record & _ & H). exists record. exact H.
Defined.

(** ** Termination *)

Section Termination.
Context (dns : Dns) (client_ip : bytes).

(** No published SPF record redirects. *)
Definition redirect_free : Prop :=
  ∀ name record mech, record ∈ resolve_txt dns name → mech ∈ parse_spf_record record → mechanism mech ≠ s! "redirect".

(** Two evaluations that end in the same way. *)
Definition agree {A} (r1 r2 : Run A) : Prop := r1 = r2 ∧ r1 ≠ Starved.

Lemma eval_list_agree (e1 e2 : SpfMechanism → Run Eval) mechs :
  (∀ m, m ∈ mechs → agree (e1 m) (e2 m)) → agree (eval_list e1 mechs) (eval_list e2 mechs).
Proof.
  induction mechs as [| mech mechs IH]; intros H; [done |]. simpl.
  destruct (H mech) as [<- Hs]; [left |]. assert (agree (eval_list e1 mechs) (eval_list e2 mechs)) as [<- ?].
  { apply IH. intros m Hm. apply H. by right. }
  split; [done |]. destruct (e1 mech) as [[] | | |]; done.
Qed.

Lemma eval_one_agree load1 load2 mech domain depth :
  mechanism mech ≠ s! "redirect" →
  (depth < 10 → ∀ record, find is_spf (resolve_txt dns (mvalue mech)) = Some record →
     agree (load1 (mvalue mech) (parse_spf_record record)) (load2 (mvalue mech) (parse_spf_record record))) →
  agree (eval_one dns client_ip load1 mech domain depth) (eval_one dns client_ip load2 mech domain depth).
Proof.
  intros Hr Hl. unfold eval_one, spf_record_of. rewrite !(bool_decide_false _ Hr).
  case_bool_decide.
  { split; [done |]. unfold ip4_match. destruct (cidr mech); [done |]. destruct (stoi _); [| done]. simpl.
    destruct (ip_to_u32 client_ip); [| done]. simpl. destruct (ip_to_u32 (mvalue mech)); [| done]. simpl.
    by repeat case_match. }
  do 3 (case_bool_decide; [done |]). case_bool_decide; [| by case_bool_decide].
  destruct (Z.leb_spec 10 depth); [done |]. destruct (find is_spf _) as [record |] eqn:E; [| done].
  simpl. destruct record as [| c record]; [done |]. destruct (Hl ltac:(lia) (c :: record) eq_refl) as [<- Hs].
  split; [done |]. by destruct (load1 _ _).
Qed.

Lemma async_agree f1 f2 mechs domain depth :
  redirect_free → (∀ m, m ∈ mechs → mechanism m ≠ s! "redirect") →
  10 - depth ≤ Z.of_nat f1 → 10 - depth ≤ Z.of_nat f2 →
  agree (eval_spf_mechanisms_async dns client_ip f1 mechs domain depth)
        (eval_spf_mechanisms_async dns client_ip f2 mechs domain depth).
Proof.
  intros Hfree. revert f2 mechs domain depth. induction f1 as [| f1 IH]; intros f2 mechs domain depth Hm H1 H2;
    destruct f2 as [| f2]; cbn [eval_spf_mechanisms_async]; apply eval_list_agree; intros m Hin;
    apply eval_one_agree; auto; intros Hd record Hrec; try lia.
  apply IH; try lia. intros sub Hsub. apply find_some in Hrec as [Hin' _].
  eapply Hfree; [apply list_elem_of_In; exact Hin' | exact Hsub].
Qed.
End Termination.

(** Evaluating SPF ends, whatever the records include, also when they include
    each other, as long as none redirects: the limit of ten levels stops every
    chain of includes, and from ten nested loads on more fuel changes nothing. *)
Theorem spf_terminates dns client_ip mail_from helo :
  redirect_free dns →
  ∃ r, r ≠ Starved ∧ ∀ fuel, (10 ≤ fuel)%nat → check_spf_async dns client_ip fuel mail_from helo = r.
Proof.
  intros Hfree. exists (check_spf_async dns client_ip 10 mail_from helo).
  assert (∀ fuel, (10 ≤ fuel)%nat →
    agree (check_spf_async dns client_ip 10 mail_from helo) (check_spf_async dns client_ip fuel mail_from helo)) as H.
  { intros fuel Hf. unfold check_spf_async. destruct (spf_domain mail_from helo) as [| c domain]; [done |].
    unfold own_record. destruct (filter _ _) as [| record [| ? ?]] eqn:E; [done | | done].
    assert (record ∈ resolve_txt dns (c :: domain)) as Hin.
    { assert (record ∈ [record]) as Hr by by left. rewrite <- E in Hr. by apply list_elem_of_filter in Hr as [_ ?]. }
    destruct (async_agree dns client_ip 10 fuel (parse_spf_record record) (c :: domain) 0) as [<- Hs]; [done | | lia | lia |].
    { intros m. by apply (Hfree (c :: domain)). }
    split; [done |]. by destruct (eval_spf_mechanisms_async _ _ _ _ _ _). }
  split; [by destruct (H 10%nat ltac:(lia)) |]. intros fuel Hf. by destruct (H fuel Hf) as [<- _].
Qed.

(** Two domains whose records include each other. *)
Definition mutual_spf : list (bytes * list bytes) :=
  [(s! "a.org", [s! "v=spf1 include:b.org -all"]); (s! "b.org", [s! "v=spf1 include:a.org -all"])].

Lemma toy_redirect_free txt :
  forallb (λ e, forallb (λ r, forallb (λ m, negb (bool_decide (mechanism m = s! "redirect"))) (parse_spf_record r)) e.2) txt = true →
  redirect_free (toy_dns txt).
Proof.
  intros H name record mech Hr Hm. simpl in Hr. destruct (find _ txt) as [[n rs] |] eqn:E; [| by apply elem_of_nil in Hr].
  apply find_some in E as [Hin _]. rewrite forallb_forall in H. specialize (H _ Hin). rewrite forallb_forall in H.
  specialize (H record (proj1 (list_elem_of_In _ _) Hr)). rewrite forallb_forall in H.
  specialize (H mech (proj1 (list_elem_of_In _ _) Hm)). by apply negb_true_iff, bool_decide_eq_false in H.
Qed.

Lemma spf_terminates_witness :
  ∃ r, r ≠ Starved ∧ ∀ fuel, (10 ≤ fuel)%nat → check_spf_async (toy_dns mutual_spf) (s! "10.0.0.1") fuel (s! "x@a.org") [] = r.
Proof. apply spf_terminates, toy_redirect_free. vm_compute. reflexivity. Defined.

(** ** Redirects *)

(** The domain publishes one SPF record, made of the mechanisms [mechs]. *)
Definition publishes (dns : Dns) (domain : bytes) (mechs : list SpfMechanism) : Prop :=
  ∃ record, resolve_txt dns domain = [record] ∧ is_spf record = true ∧ parse_spf_record record = mechs.

Lemma publishes_found dns domain mechs :
  publishes dns domain mechs → ∃ c record, spf_record_of (resolve_txt dns domain) = c :: record ∧ parse_spf_record (c :: record) = mechs.
Proof.
  intros (record & E & Hs & Hp). rewrite E. unfold spf_record_of. simpl. rewrite Hs. simpl.
  destruct record as [| c record]; [done | by exists c, record].
Qed.

Lemma publishes_own dns domain mechs :
  publishes dns domain mechs → ∃ record, own_record domain (resolve_txt dns domain) = inr record ∧ parse_spf_record record = mechs.
Proof.
  intros (record & -> & Hs & Hp). exists record. unfold own_record. rewrite filter_cons_True by done. by rewrite filter_nil.
Qed.

Definition redirect_to (target : bytes) : SpfMechanism := mkMech (s! "+") (s! "redirect") target [].

(** A domain whose SPF record redirects to itself keeps the evaluation going for
    ever, in both forms: redirects have no limit of depth. *)
Theorem redirect_diverges dns client_ip domain mail_from helo :
  spf_domain mail_from helo = domain → domain ≠ [] → publishes dns domain [redirect_to domain] →
  ∀ fuel, check_spf_async dns client_ip fuel mail_from helo = Starved ∧ check_spf dns client_ip fuel mail_from helo = Starved.
Proof.
  intros Hd Hne Hp fuel. destruct (publishes_found _ _ _ Hp) as (c & record & Hf & Hr).
  destruct (publishes_own _ _ _ Hp) as (own & Ho & Hown).
  assert (∀ depth, eval_spf_mechanisms_async dns client_ip fuel [redirect_to domain] domain depth = Starved) as H1.
  { induction fuel as [| fuel IH]; intros depth; simpl; unfold eval_one; simpl; rewrite Hf; [done |].
    by rewrite Hr, IH. }
  assert (∀ depth, eval_spf_mechanism dns client_ip fuel (redirect_to domain) domain depth = Starved) as H2.
  { clear H1. induction fuel as [| fuel IH]; intros depth; simpl; rewrite Hf; [done |].
    rewrite Hr. simpl. by rewrite IH. }
  unfold check_spf_async, check_spf. rewrite Hd. destruct domain as [| d domain]; [done |]. rewrite Ho, Hown.
  split; [by rewrite H1 |]. simpl. change (mkMech _ _ _ _) with (redirect_to (d :: domain)). by rewrite H2.
Qed.

Lemma redirect_diverges_witness :
  let dns := toy_dns [(s! "evil.org", [s! "v=spf1 redirect=evil.org"])] in
  publishes dns (s! "evil.org") [redirect_to (s! "evil.org")] ∧
  ∀ fuel, check_spf_async dns (s! "10.0.0.1") fuel (s! "a@evil.org") [] = Starved.
Proof.
  intros dns. assert (publishes dns (s! "evil.org") [redirect_to (s! "evil.org")]) as Hp.
  { exists (s! "v=spf1 redirect=evil.org"). split; [reflexivity |]. split; vm_compute; reflexivity. }
  split; [exact Hp |]. intros fuel.
  apply (redirect_diverges dns (s! "10.0.0.1") (s! "evil.org") (s! "a@evil.org") []); [reflexivity | done | exact Hp].
Defined.

(** The verdict of a redirect is lost.  When the record of a domain only
    redirects to a record that says all with some qualifier, the evaluation with
    callbacks answers neutral and the blocking one pass, for every client and
    every qualifier, fail included; the comment says that the verdict of the
    other record is passed on. *)
Theorem redirect_verdict_lost dns client_ip domain target q fuel mail_from helo :
  spf_domain mail_from helo = domain → domain ≠ [] → publishes dns domain [redirect_to target] →
  publishes dns target [mkMech q (s! "all") [] []] → (1 ≤ fuel)%nat →
  check_spf_async dns client_ip fuel mail_from helo = Ret (mkSpf (s! "neutral") (s! "no SPF mechanism matched")) ∧
  check_spf dns client_ip fuel mail_from helo = Ret (mkSpf (s! "pass") []).
Proof.
  intros Hd Hne Hp Ht Hf. destruct (publishes_found _ _ _ Ht) as (c & record & Hfound & Hr).
  destruct (publishes_own _ _ _ Hp) as (own & Ho & Hown). destruct fuel as [| fuel]; [lia |].
  unfold check_spf_async, check_spf. rewrite Hd. destruct domain as [| d domain]; [done |]. rewrite Ho, Hown.
  split; cbn [eval_spf_mechanisms_async check_mechanisms eval_spf_mechanism eval_list]; unfold eval_one; simpl;
    rewrite Hfound, Hr; [| by destruct fuel].
  destruct fuel; simpl; unfold qualifier_eval; by repeat case_bool_decide.
Qed.

Lemma redirect_verdict_lost_witness :
  let dns := toy_dns [(s! "shop.org", [s! "v=spf1 redirect=policy.net"]); (s! "policy.net", [s! "v=spf1 -all"])] in
  check_spf_async dns (s! "6.6.6.6") 1 (s! "ann@shop.org") [] = Ret (mkSpf (s! "neutral") (s! "no SPF mechanism matched")).
Proof.
  intros dns. apply (redirect_verdict_lost dns (s! "6.6.6.6") (s! "shop.org") (s! "policy.net") (s! "-")); [reflexivity | done | | | done].
  - exists (s! "v=spf1 redirect=policy.net"). split; [reflexivity |]. split; vm_compute; reflexivity.
  - exists (s! "v=spf1 -all"). split; [reflexivity |]. split; vm_compute; reflexivity.
Defined.

(** ** Cached records are fresh *)

Inductive cache_op :=
  | Lookup (now : Z) (key : bytes)
  | Answer (now : Z) (key : bytes) (ttl : Z) (rs : list bytes)
  | Clear.

Definition cache_step (c : DnsCache) (op : cache_op) : DnsCache :=
  match op with
  | Lookup now key => (get_txt_async now key c).2
  | Answer now key ttl rs => txt_answer now key ttl rs c
  | Clear => clear_dns_cache c
  end.

(** The last answer of the resolver for a key since the cache was cleared: when
    it came, how long it may be used, what it said. *)
Definition note_answer (key : bytes) (acc : option (Z * Z * list bytes)) (op : cache_op) : option (Z * Z * list bytes) :=
  match op with
  | Lookup _ _ => acc
  | Answer now k ttl rs => if bool_decide (k = key) then Some (now, ttl, rs) else acc
  | Clear => None
  end.

Definition last_answer (ops : list cache_op) (key : bytes) : option (Z * Z * list bytes) := foldl (note_answer key) None ops.

Definition lifetime (ttl : Z) (rs : list bytes) : Z := match rs with [] => kNegativeTtl | _ => ttl end.

(** Everything in the cache is a last answer. *)
Definition cache_ok (ops : list cache_op) (c : DnsCache) : Prop :=
  lru_wf c ∧ ∀ key v, lookup_value c key = Some v →
    ∃ t ttl, last_answer ops key = Some (t, ttl, records v) ∧ expires v = t + lifetime ttl (records v).

Lemma get_txt_cache now key c : (get_txt_async now key c).2 = (get now key c).2.
Proof. unfold get_txt_async. destruct (get now key c) as [[[v ?] |] c']; [by destruct (now <? expires v) | done]. Qed.

Lemma cache_step_ok ops c op : cache_ok ops c → cache_ok (ops ++ [op]) (cache_step c op).
Proof.
  intros [Hwf Hv]. unfold cache_ok, last_answer. setoid_rewrite foldl_app. simpl.
  destruct op as [now key | now key ttl rs |]; simpl.
  - rewrite get_txt_cache. split; [by apply get_wf |]. intros k v. rewrite (proj2 (get_spec now key c Hwf)). apply Hv.
  - split; [by apply put_wf |]. intros k v. destruct (put_spec now key (mkDcv rs (now + lifetime ttl rs)) c Hwf) as [Hk Ho].
    unfold txt_answer. fold (lifetime ttl rs). case_bool_decide as E.
    + subst k. rewrite Hk. intros [= <-]. by exists now, ttl.
    + rewrite Ho by done. case_bool_decide; [done |]. apply Hv.
  - split; [by apply clear_wf |]. by intros k v.
Qed.

Lemma cache_run_ok ops : cache_ok ops (foldl cache_step inbound_dns_cache ops).
Proof.
  induction ops as [| op ops IH] using rev_ind.
  - split; [apply new_lru_wf | by intros k v].
  - rewrite foldl_app. by apply cache_step_ok.
Qed.

(** Whatever lookups, answers and clearings came before, a lookup that the
    cache answers gives exactly what the resolver last said about that name, and
    never later than the lifetime of that answer: the lifetime asked for by its
    kind of record, or sixty seconds when there was none. *)
Theorem cached_answer_fresh ops now key rs c :
  get_txt_async now key (foldl cache_step inbound_dns_cache ops) = (Some rs, c) →
  ∃ t ttl, last_answer ops key = Some (t, ttl, rs) ∧ now < t + lifetime ttl rs.
Proof.
  destruct (cache_run_ok ops) as [Hwf Hv]. unfold get_txt_async.
  pose proof (proj1 (get_spec now key _ Hwf)) as Hg.
  destruct (get now key (foldl cache_step inbound_dns_cache ops)) as [[[v stale] |] c']; [| done]. simpl in Hg.
  destruct (Z.ltb_spec now (expires v)) as [Hl |]; [| done]. intros [= <- _].
  symmetry in Hg. destruct (Hv _ _ Hg) as (t & ttl & Ha & He). exists t, ttl. by rewrite <- He.
Qed.

Lemma cached_answer_fresh_witness :
  let ops := [Answer 100 (s! "x.org") kSpfTtl [s! "v=spf1 -all"]; Answer 110 (s! "y.org") kDkimTtl []] in
  ∃ t ttl, last_answer ops (s! "x.org") = Some (t, ttl, [s! "v=spf1 -all"]) ∧ 399 < t + lifetime ttl [s! "v=spf1 -all"].
Proof.
  intros ops. eapply (cached_answer_fresh ops 399 (s! "x.org") [s! "v=spf1 -all"]). vm_compute. reflexivity.
Defined.
