(* ===== verification/SmtpInbound.v ===== *)
(** * The SMTP server with the verifier

    Puts [Inbound] where [Smtp] has parameters: the SPF check of MAIL and the
    verification at the end of DATA.  [spf_hard_enforced] is what hard SPF mode
    guarantees, [redirect_stalls_session] what a sender can do to the session
    with its own DNS, and [dmarc_reject_accepted] that the verdict of DMARC has
    no effect on the message. *)

From S2P Require Import Prelude CString LineFolder FsmEngine Storage SmtpText MailCrypto Inbound Smtp SmtpSafety.

Section Composed.
Context {S : Type} `{!WriteStream S} (inet_pton : bytes → option Z) (cfg : SmtpConfig).
Context (resolver : Dns) (ssl : Crypto) (fuel : nat).

(** The callback's argument; an evaluation that does not return calls nothing. *)
Definition spf_answer (r : Run SpfResult) : option (bytes * bytes) :=
  match r with Ret a => Some (Inbound.spf_result a, Inbound.spf_reason a) | _ => None end.

Definition modes : Modes := mkModes (Smtp.inbound_spf_mode cfg) (Smtp.inbound_dkim_mode cfg) (Smtp.inbound_dmarc_mode cfg).

(** The call at the end of DATA: the session's data, and the SPF result of MAIL
    when there is one. *)
Definition verify_message (file : option bytes) (s : SmtpSession S) : Run VerificationResult :=
  let c := ctx s in
  verify_all_from_file_async resolver ssl modes fuel (client_ip cfg) (sender_address c) (ehlo_domain c)
    (header_buffer (data c)) (match mail s with Some m => m_body_path m | None => [] end) file
    (if spf_checked (vfy c) then Some (mkSpf (Smtp.spf_result (vfy c)) []) else None).

Definition verdicts (r : Run VerificationResult) : option (bytes * bytes * bytes) :=
  match r with
  | Ret v => Some (Inbound.spf_result (spf v), Inbound.dkim_result (dkim v), Inbound.dmarc_result (dmarc v))
  | _ => None
  end.

(** The surroundings [env] with the verifier in them, for the message that [s]
    receives into [file]. *)
Definition with_verifier (file : option bytes) (s : SmtpSession S) (env : SmtpEnv S) : SmtpEnv S :=
  mkEnv (login_async env) (consume_quota env) (Smtp.dns env)
    (λ ip from helo, spf_answer (check_spf_only_async resolver ip fuel from helo))
    (recipient_cache env) (user_exists env) (alias_targets env) (body_path env) (open_write env) (commit_answers env)
    (mime_read env) (verdicts (verify_message file s)) (queue_answer env) (persist_answer env).

(** The conditions under which MAIL checks SPF. *)
Definition spf_applies (env : SmtpEnv S) (sender : bytes) (s : SmtpSession S) : Prop :=
  perf_mode cfg = false ∧ Smtp.inbound_spf_mode cfg ≠ s! "off" ∧ Smtp.dns env = true ∧
  is_authenticated (auth (ctx s)) = false ∧ sender ≠ [] ∧ sender ≠ s! "<>".

Lemma mail_from_proceed_spf file s0 (env : SmtpEnv S) s :
  spf_applies env (sender_address (ctx s)) s →
  mail_from_proceed cfg (with_verifier file s0 env) s =
  match check_spf_only_async resolver (client_ip cfg) fuel (sender_address (ctx s)) (ehlo_domain (ctx s)) with
  | Ret r =>
      let v := vfy (ctx s) in
      let s' := upd_ctx (set_verify (mkVerify (verification_run v) true (Inbound.spf_result r) (Inbound.spf_reason r)
                           (Smtp.dkim_result v) (Smtp.dmarc_result v))) s in
      if bool_decide (Inbound.spf_result r = s! "fail") && bool_decide (Smtp.inbound_spf_mode cfg = s! "hard")
      then settle (s! "550 5.7.1 SPF verification failed: SPF hard-fail for " ++ sender_address (ctx s)) WAIT_AUTH s'
      else settle (s! "250 Ok") WAIT_RCPT_TO s'
  | _ => stuck s
  end.
Proof.
  intros (Hp & Hm & Hd & Ha & Hs1 & Hs2). unfold mail_from_proceed. rewrite Hp, Ha. cbn [Smtp.dns with_verifier]. rewrite Hd.
  rewrite !bool_decide_false by done. cbn [negb andb orb Smtp.check_spf with_verifier].
  by destruct (check_spf_only_async _ _ _ _ _).
Qed.

(** The session as MAIL has it when it checks the sender. *)
Definition sender_set (sender : bytes) (s : SmtpSession S) : SmtpSession S :=
  upd_ctx (λ c, set_verify (set_spf_checked false (vfy c)) (set_envelope sender [] c)) s.

(** MAIL refuses at once, or goes on to the SPF check. *)
Lemma mail_from_cases (env : SmtpEnv S) args sender s :
  Smtp.authenticated s = false → angle_address args = Some sender →
  (∃ text, text ∈ [s! "530 5.7.1 Authentication required";
                   s! "550 5.7.1 Sender address rejected: local domain requires authentication"] ∧
     handle_wait_auth_mail_from inet_pton cfg env args s = settle text WAIT_AUTH s) ∨
  handle_wait_auth_mail_from inet_pton cfg env args s = mail_from_proceed cfg env (sender_set sender s).
Proof.
  intros Ha Hs. assert (Smtp.authenticated (sender_set sender s) = false) as Ha' by exact Ha.
  unfold handle_wait_auth_mail_from. rewrite Ha, Hs.
  destruct (require_auth _ _); cbn [andb negb]; [left; eexists; split; [left | done] |].
  match goal with |- context [if ?b then settle _ _ _ else _] => destruct b end.
  - left. eexists. split; [right; left | done].
  - right. cbn [submission_sender]. fold (sender_set sender s). by rewrite Ha'.
Qed.

Definition OK : bytes := line_of (s! "250 Ok").

Lemma not_ok text : head text = Some 53 → line_of text ≠ OK.
Proof.
  intros Hh E. apply (f_equal head) in E. destruct text as [| c text]; [done |]. simpl in Hh. injection Hh as ->.
  unfold line_of in E. case_bool_decide; discriminate E.
Qed.

(** In hard SPF mode a MAIL command of a client that has not logged in is
    accepted only when the SPF check of its domain for the client's address came
    to an end and did not fail; the result is kept for the end of DATA. *)
Theorem spf_hard_enforced file s0 (env : SmtpEnv S) args sender s :
  angle_address args = Some sender → Smtp.authenticated s = false → spf_applies env sender s →
  Smtp.inbound_spf_mode cfg = s! "hard" →
  let o := handle_wait_auth_mail_from inet_pton cfg (with_verifier file s0 env) args s in
  Reply OK ∈ o.1 →
  ∃ r, check_spf_only_async resolver (client_ip cfg) fuel sender (ehlo_domain (ctx s)) = Ret r ∧
       Inbound.spf_result r ≠ s! "fail" ∧ state o.2 = WAIT_RCPT_TO ∧
       spf_checked (vfy (ctx o.2)) = true ∧ Smtp.spf_result (vfy (ctx o.2)) = Inbound.spf_result r.
Proof.
  intros Hs Ha Happ Hm o Hok. unfold o in *. clear o.
  destruct (mail_from_cases (with_verifier file s0 env) args sender s Ha Hs) as [(text & Ht & E) | E]; rewrite E in *.
  { exfalso. apply list_elem_of_singleton in Hok. injection Hok as Hok. symmetry in Hok. revert Hok. apply not_ok.
    by apply elem_of_cons in Ht as [-> | ->%list_elem_of_singleton]. }
  rewrite mail_from_proceed_spf in * by done.
  change (sender_address (ctx (sender_set sender s))) with sender in *.
  change (ehlo_domain (ctx (sender_set sender s))) with (ehlo_domain (ctx s)) in *.
  destruct (check_spf_only_async _ _ _ _ _) as [r | | |]; try by apply elem_of_nil in Hok.
  exists r. split; [done |]. rewrite (bool_decide_true (_ = s! "hard")), andb_true_r in * by done.
  case_bool_decide as Hf; [exfalso | done].
  apply list_elem_of_singleton in Hok. injection Hok as Hok. symmetry in Hok. by apply not_ok in Hok.
Qed.

(** A client that names a sender whose domain redirects SPF to itself gets no
    answer: the session stays paused, and the evaluation runs on for any number
    of steps. *)
Theorem redirect_stalls_session file s0 (env : SmtpEnv S) args sender s :
  angle_address args = Some sender → Smtp.authenticated s = false → require_auth cfg s = false →
  envelope_sender_is_local sender (system_domain cfg) = false → spf_applies env sender s →
  extract_domain sender ≠ [] → publishes resolver (extract_domain sender) [redirect_to (extract_domain sender)] →
  handle_wait_auth_mail_from inet_pton cfg (with_verifier file s0 env) args s = ([], set_open false (sender_set sender s)).
Proof.
  intros Hs Ha Hr Hl Happ Hne Hp. assert (Smtp.authenticated (sender_set sender s) = false) as Ha' by exact Ha.
  unfold handle_wait_auth_mail_from. rewrite Ha, Hs, Hr, Hl, andb_false_r. cbn [andb submission_sender].
  fold (sender_set sender s). rewrite Ha', mail_from_proceed_spf by done.
  unfold check_spf_only_async. change (sender_address (ctx (sender_set sender s))) with sender.
  destruct Happ as (_ & _ & _ & _ & H1 & H2).
  destruct (redirect_diverges resolver (client_ip cfg) (extract_domain sender) sender (ehlo_domain (ctx (sender_set sender s)))
              ltac:(unfold spf_domain; rewrite bool_decide_false by (intros [? | ?]; done); done) Hne Hp fuel) as [-> _].
  done.
Qed.

(** A message that fails DMARC under a policy of reject is accepted all the
    same, in hard mode too: whatever the verification of the message answers, it
    goes to the queue and the client is told 250. *)
Theorem dmarc_reject_accepted file (env : SmtpEnv S) s m r :
  mail s = Some m → m_status m = PENDING → queue_answer env = Some QAccept → inbound_ack_mode cfg = AFTER_ENQUEUE →
  verify_message file s = Ret r → dmarc_hard_fail r = true →
  (verify_and_submit cfg (with_verifier file s env) s).1 = [Submitted (completed_mail (data (ctx s)) m) true; Reply OK250].
Proof.
  intros Hm Hp Hq Hack Hr _. unfold verify_and_submit. cbn [verify_all with_verifier]. rewrite Hr. cbn [verdicts].
  match goal with |- context [if ?b then _ else _] => destruct b end; unfold finalize_mail; simpl; rewrite Hm, Hq, Hack;
    simpl; by rewrite Hp.
Qed.
End Composed.

(** ** Samples *)

Definition hard_config : SmtpConfig :=
  mkConfig true OFF false (s! "10.0.0.8") [] (s! "local.org") OFF true true [] true false (s! "hard") (s! "hard")
    (s! "hard") AFTER_ENQUEUE 0 3 (100 * 100).

Definition hard_env : SmtpEnv LocalFile :=
  mkEnv (λ _ _, None) (λ _, Some true) true (λ _ _ _, None) (λ _, None) (λ _, Some true) (λ _, Some []) (s! "/mail/1")
    None true ROk None (Some QAccept) None.

Definition greeted : SmtpSession LocalFile := set_state WAIT_AUTH new_session.

Lemma greeted_applies sender : sender ≠ [] → sender ≠ s! "<>" → spf_applies hard_config hard_env sender greeted.
Proof. intros. by split_and!. Qed.

Lemma spf_hard_enforced_witness :
  let o := handle_wait_auth_mail_from no_pton hard_config
             (with_verifier hard_config (toy_dns toy_spf) toy_ssl 10 None greeted hard_env) (s! " FROM:<ann@shop.org>") greeted in
  Reply OK ∈ o.1 ∧
  ∃ r, check_spf_only_async (toy_dns toy_spf) (s! "10.0.0.8") 10 (s! "ann@shop.org") [] = Ret r ∧
       Inbound.spf_result r ≠ s! "fail" ∧ state o.2 = WAIT_RCPT_TO ∧
       spf_checked (vfy (ctx o.2)) = true ∧ Smtp.spf_result (vfy (ctx o.2)) = Inbound.spf_result r.
Proof.
  intros o. assert (Reply OK ∈ o.1) as Hok.
  { replace o.1 with [@Reply LocalFile OK] by (vm_compute; reflexivity). left. }
  split; [exact Hok |].
  refine (spf_hard_enforced no_pton hard_config (toy_dns toy_spf) toy_ssl 10 None greeted hard_env (s! " FROM:<ann@shop.org>")
            (s! "ann@shop.org") greeted _ _ _ _ Hok).
  - vm_compute. reflexivity.
  - reflexivity.
  - by apply greeted_applies.
  - reflexivity.
Defined.

Definition loop_dns : Dns := toy_dns [(s! "evil.org", [s! "v=spf1 redirect=evil.org"])].

Lemma redirect_stalls_session_witness :
  handle_wait_auth_mail_from no_pton hard_config (with_verifier hard_config loop_dns toy_ssl 500 None greeted hard_env)
    (s! " FROM:<a@evil.org>") greeted = ([], set_open false (sender_set (s! "a@evil.org") greeted)).
Proof.
  apply (redirect_stalls_session no_pton hard_config loop_dns toy_ssl 500 None greeted hard_env
    (s! " FROM:<a@evil.org>") (s! "a@evil.org") greeted).
  - vm_compute. reflexivity.
  - reflexivity.
  - reflexivity.
  - vm_compute. reflexivity.
  - by apply greeted_applies.
  - done.
  - exists (s! "v=spf1 redirect=evil.org"). split; [reflexivity |]. split; vm_compute; reflexivity.
Defined.

(** A message with a forged From line of a domain that asks to reject it. *)
Definition forged_mail : Mail :=
  mkMail (s! "x@bad.net") [s! "bob@local.org"] [] [] [] [] (s! "/mail/1") PENDING.

Definition forged_dmarc : SmtpSession LocalFile :=
  set_body (Some forged_mail) None []
    (upd_ctx (λ c, set_envelope (s! "x@bad.net") [s! "bob@local.org"]
                     (set_data (process_message_data (crlf_lines [s! "From: ceo@shop.org"; []; s! "pay me"]) new_data) c))
       (set_state IN_MESSAGE new_session)).

Lemma dmarc_reject_accepted_witness :
  ∃ r, verify_message hard_config (toy_dns toy_keys) toy_ssl 10 None forged_dmarc = Ret r ∧ dmarc_hard_fail r = true ∧
  (verify_and_submit hard_config (with_verifier hard_config (toy_dns toy_keys) toy_ssl 10 None forged_dmarc hard_env) forged_dmarc).1
  = [Submitted (completed_mail (data (ctx forged_dmarc)) forged_mail) true; Reply OK250].
Proof.
  eexists. split; [vm_compute; reflexivity |]. split; [vm_compute; reflexivity |].
  eapply (dmarc_reject_accepted hard_config (toy_dns toy_keys) toy_ssl 10 None hard_env forged_dmarc forged_mail);
    vm_compute; reflexivity.
Defined.
