(* ===== verification/SmtpClient.v ===== *)
(** * The SMTP client

    Models [smtp_client/client_session.cpp] and [common/smtp_wire.h]: one
    connection with one operation at a time.  Everything runs on the connection's
    executor, so the session is a function from the event that arrives to the
    actions it takes and the state it leaves.  An event names the operation its
    handler was created for: handlers of an operation that is done return at
    once, and an operation is done exactly when it is no longer [current].

    The transport and OpenSSL's base64 encoder are the surroundings: [Connected],
    [TlsDone], [Wrote] and [ReadDone] are the completions of the transport,
    [Deadline] the timer.  [Replied] marks a complete reply of the peer.

    [accepted_means_delivered] says what a result of Accepted proves,
    [one_completion] that every operation is answered once, [commands_well_formed]
    that addresses cannot smuggle commands, [credentials_after_tls] that a
    password does not leave before the handshake, [data_frame_transparent] that
    the body cannot end the message early. *)

From S2P Require Import Prelude CString SmtpText MailCrypto.

(** ** The wire *)

Fixpoint dot_stuff_loop (prev : option Z) (body : bytes) : bytes :=
  match body with
  | [] => []
  | c :: body =>
      (if (c =? 46) && match prev with None => true | Some p => p =? LF end then [46] else [])
      ++ c :: dot_stuff_loop (Some c) body
  end.

Definition dot_stuff (body : bytes) : bytes := dot_stuff_loop None body.

Definition data_frame (body : bytes) : bytes :=
  let out := dot_stuff body in
  (if (length out <? 2)%nat || negb (bool_decide (drop (length out - 2) out = CRLF)) then out ++ CRLF else out)
  ++ s! "." ++ CRLF.

(** ** Data *)

Inductive TlsMode := tls_none | tls_implicit | StartTlsRequired.
Inductive Outcome := Ready | Accepted | Rejected | TemporaryFailure | AuthFailed | ProtocolError | OutcomeUnknown | Cancelled.

#[export] Instance TlsMode_eq_dec : EqDecision TlsMode.
Proof. solve_decision. Defined.
#[export] Instance Outcome_eq_dec : EqDecision Outcome.
Proof. solve_decision. Defined.

Inductive Stage :=
  | s_connect | s_tls | s_ehlo | s_starttls | s_auth | s_credentials | s_mail | s_recipient | s_data | s_body | s_quit | s_busy.

#[export] Instance Stage_eq_dec : EqDecision Stage.
Proof. solve_decision. Defined.

Record Result := mkResult {
  outcome : Outcome;
  code : Z;
  rstage : Stage;
  error : bytes;
  recipients : list (bytes * Z);
  reusable : bool;
}.

Record ConnectOptions := mkOptions {
  chost : bytes;
  port : Z;
  helo : bytes;
  tls_mode : TlsMode;
  auth_user : bytes;
  password : option bytes;
  ctimeout : Z;
}.

Record Message := mkMessage { sender : bytes; to : list bytes; raw : option bytes; mtimeout : Z }.

Record Connection := mkConn { replies : bytes; tls : bool }.

(** What an operation waits for. *)
Inductive Wait := w_connect | w_tls (implicit : bool) | w_write | w_read.

#[export] Instance Wait_eq_dec : EqDecision Wait.
Proof. solve_decision. Defined.

Record Operation := mkOp {
  options : ConnectOptions;
  message : Message;
  seen : list (bytes * Z);              (* [result.recipients] *)
  stage : Stage;
  reply : list bytes;
  reply_bytes : nat;
  recipient : nat;
  reply_code : Z;
  body_started : bool;
  wait : Wait;
}.

Record Impl := mkImpl {
  is_open : bool;
  connection : option Connection;
  current : option (nat * Operation);
  next_op : nat;                        (* operations created so far *)
}.

Definition new_client : Impl := mkImpl false None None 0.

Inductive Action :=
  | AConnect (id : nat) (host : bytes) (port : Z)
  | AStartTls (id : nat)
  | TlsUp (id : nat)
  | AWrite (id : nat) (st : Stage) (wire : bytes)
  | ARead (id : nat)
  | Replied (id : nat) (st : Stage) (c : Z)
  | Completed (id : nat) (r : Result)
  | Disconnected.

Inductive Event :=
  | CallConnect (o : ConnectOptions)
  | CallSend (m : Message)
  | CallQuit
  | CallClose
  | Connected (id : nat) (err : option bytes)     (* [None]: no error *)
  | TlsDone (id : nat) (err : option bytes)
  | Wrote (id : nat) (err : option bytes)
  | ReadDone (id : nat) (data : bytes + bytes)    (* an error or the bytes read *)
  | Deadline (id : nat).

Definition Out : Type := list Action * Impl.

(** ** Operations *)

Definition atom (value : bytes) : bool :=
  negb (bool_decide (value = [])) && (length value <=? 998)%nat &&
  forallb (λ c, negb ((c <=? 32) || (127 <=? c) || (c =? 60) || (c =? 62))) value.

Definition set_op (f : Operation → Operation) (s : Impl) : Impl :=
  mkImpl (is_open s) (connection s) (prod_map id f <$> current s) (next_op s).

Definition set_conn (f : Connection → Connection) (s : Impl) : Impl :=
  mkImpl (is_open s) (f <$> connection s) (current s) (next_op s).

Definition at_stage (st : Stage) (w : Wait) (o : Operation) : Operation :=
  mkOp (options o) (message o) (seen o) st (reply o) (reply_bytes o) (recipient o) (reply_code o) (body_started o) w.

Definition set_reply (ls : list bytes) (n : nat) (c : Z) (o : Operation) : Operation :=
  mkOp (options o) (message o) (seen o) (stage o) ls n (recipient o) c (body_started o) (wait o).

Definition disconnect (s : Impl) : Out :=
  (match connection s with Some _ => [Disconnected] | None => [] end, mkImpl false None (current s) (next_op s)).

Definition finish (id : nat) (o : Operation) (oc : Outcome) (c : Z) (e : bytes) (reuse : bool) (s : Impl) : Out :=
  let '(acts, s) := if reuse then ([], s) else disconnect s in
  (acts ++ [Completed id (mkResult oc c (stage o) e (seen o) reuse)],
   mkImpl (is_open s) (connection s) None (next_op s)).

Definition io_failed (id : nat) (o : Operation) (reason : bytes) : Impl → Out :=
  finish id o (if body_started o then OutcomeUnknown else TemporaryFailure) 0 reason false.

Definition protocol_failed (id : nat) (o : Operation) (reason : bytes) : Impl → Out :=
  finish id o (if body_started o then OutcomeUnknown else ProtocolError) (reply_code o) reason false.

(** [write]: the operation then waits for the transport. *)
Definition write (id : nat) (st : Stage) (wire : bytes) (s : Impl) : Out :=
  ([AWrite id st wire], set_op (at_stage st w_write) s).

Definition upper (s : bytes) : bytes := toupper <$> s.

Definition capability (o : Operation) (name : bytes) : bool := existsb (λ l, bool_decide (upper l = name)) (reply o).

Definition auth_plain (o : Operation) : bool :=
  existsb (λ l, let cap := upper l in
    (starts_with (s! "AUTH ") cap || starts_with (s! "AUTH=") cap) &&
    bool_decide (s! "PLAIN" ∈ words [] (drop 5 cap))) (reply o).

Definition ehlo (id : nat) (o : Operation) : Impl → Out := write id s_ehlo (s! "EHLO " ++ helo (options o) ++ CRLF).

Definition handshake (id : nat) (implicit : bool) (s : Impl) : Out :=
  ([AStartTls id], set_op (at_stage s_tls (w_tls implicit)) s).

Definition rcpt (id : nat) (o : Operation) : Impl → Out :=
  write id s_recipient (s! "RCPT TO:<" ++ default [] (to (message o) !! recipient o) ++ s! ">" ++ CRLF).

Definition ready (id : nat) (o : Operation) (c : Z) (s : Impl) : Out :=
  finish id o Ready c [] true (mkImpl true (connection s) (current s) (next_op s)).

Section Client.
Context (EVP_EncodeBlock : bytes → option bytes).

Definition expected (st : Stage) : Z :=
  match st with
  | s_connect | s_starttls => 220
  | s_auth => 334
  | s_credentials => 235
  | s_data => 354
  | s_quit => 221
  | _ => 250
  end.

Definition refusal (st : Stage) (c : Z) : Outcome :=
  if bool_decide (st = s_auth ∨ st = s_credentials) && (c =? 535) then AuthFailed
  else if c <? 500 then TemporaryFailure else Rejected.

(** The next step after a reply that was expected; [o] is the operation. *)
Definition proceed (id : nat) (o : Operation) (c : Z) (s : Impl) : Out :=
  match stage o with
  | s_connect => ehlo id o s
  | s_ehlo =>
      let secure := match connection s with Some k => tls k | None => false end in
      if bool_decide (tls_mode (options o) = StartTlsRequired) && negb secure then
        if capability o (s! "STARTTLS") then write id s_starttls (s! "STARTTLS" ++ CRLF) s
        else protocol_failed id o (s! "STARTTLS not advertised") s
      else match password (options o) with
           | Some _ => if auth_plain o then write id s_auth (s! "AUTH PLAIN" ++ CRLF) s
                       else protocol_failed id o (s! "AUTH PLAIN not advertised") s
           | None => ready id o c s
           end
  | s_starttls =>
      match connection s with
      | Some (mkConn [] _) => handshake id false s
      | _ => protocol_failed id o (s! "buffered bytes before TLS upgrade") s
      end
  | s_auth =>
      let plain := [0] ++ auth_user (options o) ++ [0] ++ default [] (password (options o)) in
      write id s_credentials (base64_encode EVP_EncodeBlock plain ++ CRLF) s
  | s_credentials => ready id o c s
  | s_mail => rcpt id o s
  | s_recipient =>
      let o := mkOp (options o) (message o) (seen o) (stage o) (reply o) (reply_bytes o) (S (recipient o)) (reply_code o)
                 (body_started o) (wait o) in
      let s := set_op (λ _, o) s in
      if (recipient o <? length (to (message o)))%nat then rcpt id o s else write id s_data (s! "DATA" ++ CRLF) s
  | s_data =>
      let o := mkOp (options o) (message o) (seen o) (stage o) (reply o) (reply_bytes o) (recipient o) (reply_code o)
                 true (wait o) in
      write id s_body (data_frame (default [] (raw (message o)))) (set_op (λ _, o) s)
  | s_body => finish id o Accepted c [] true s
  | s_quit => finish id o Ready c [] false s
  | s_tls | s_busy => ([], s)
  end.

Definition on_reply (id : nat) (o : Operation) (c : Z) (s : Impl) : Out :=
  let o := if bool_decide (stage o = s_recipient)
           then mkOp (options o) (message o) (seen o ++ [(default [] (to (message o) !! recipient o), c)]) (stage o) (reply o)
                  (reply_bytes o) (recipient o) (reply_code o) (body_started o) (wait o)
           else o in
  let s := set_op (λ _, o) s in
  let '(acts, s) :=
    if 400 <=? c then finish id o (refusal (stage o) c) c (s! "SMTP peer rejected operation") false s
    else if negb (c =? expected (stage o)) && negb (bool_decide (stage o = s_recipient) && (c =? 251))
    then protocol_failed id o (s! "unexpected reply code") s
    else proceed id o c s in
  (Replied id (stage o) c :: acts, s).

Definition digit (line : bytes) (i : nat) : Z := default 0 (line !! i).

(** The shape of a reply line, which ends in CRLF. *)
Definition line_ok (line : bytes) (total : nat) : bool :=
  let bare := (length line =? 5)%nat in
  (5 <=? length line)%nat && (total <=? 64 * 1024)%nat && (50 <=? digit line 0) && (digit line 0 <=? 53) &&
  isdigit (digit line 1) && isdigit (digit line 2) && (bare || (digit line 3 =? SP) || (digit line 3 =? 45)).

Definition line_code (line : bytes) : Z := (digit line 0 - 48) * 100 + (digit line 1 - 48) * 10 + digit line 2 - 48.

(** [read_reply]; one unit of fuel per line. *)
Fixpoint read_lines (fuel : nat) (id : nat) (o : Operation) (s : Impl) : Out :=
  match connection s with
  | None => ([], s)
  | Some k =>
      match find_sub CRLF (replies k) with
      | None =>
          if (64 * 1024 <=? length (replies k) + reply_bytes o)%nat then protocol_failed id o (s! "reply too large") s
          else ([ARead id], set_op (λ _, at_stage (stage o) w_read o) s)
      | Some end_ =>
          let line := take (end_ + 2) (replies k) in
          let s := set_conn (λ k, mkConn (drop (end_ + 2) (replies k)) (tls k)) s in
          let o := set_reply (reply o) (reply_bytes o + (end_ + 2)) (reply_code o) o in
          if negb (line_ok line (reply_bytes o)) then protocol_failed id o (s! "malformed reply") s else
          let c := line_code line in
          if negb (reply_code o =? 0) && negb (reply_code o =? c)
          then protocol_failed id o (s! "inconsistent multiline reply") s else
          let bare := (length line =? 5)%nat in
          let o := set_reply (reply o ++ [if bare then [] else slice line 4 (end_ + 2 - 6)]) (reply_bytes o) c o in
          if negb bare && (digit line 3 =? 45) then
            match fuel with O => ([], s) | S fuel => read_lines fuel id o s end
          else on_reply id o c s
      end
  end.

Definition read_reply (first : bool) (id : nat) (o : Operation) (s : Impl) : Out :=
  let o := if first then set_reply [] 0 0 o else o in
  read_lines (match connection s with Some k => length (replies k) | None => 0%nat end) id o s.

(** ** Calls *)

Definition busy : Result := mkResult ProtocolError 0 s_busy (s! "operation already in progress") [] false.

(** [available]: a call while an operation runs is answered at once. *)
Definition if_available (k : nat → Impl → Out) (s : Impl) : Out :=
  let id := next_op s in
  let s := mkImpl (is_open s) (connection s) (current s) (S id) in
  match current s with
  | Some _ => ([Completed id busy], s)
  | None => k id s
  end.

Definition no_options : ConnectOptions := mkOptions [] 25 (s! "localhost") tls_none [] None 30000.
Definition no_message : Message := mkMessage [] [] None 30000.

Definition new_op (o : ConnectOptions) (m : Message) (st : Stage) (w : Wait) : Operation :=
  mkOp o m [] st [] 0 0 0 false w.

Definition options_ok (o : ConnectOptions) : bool :=
  atom (chost o) && atom (helo o) && negb (port o =? 0) && (0 <? ctimeout o) &&
  match password o with
  | Some p => atom (auth_user o) && negb (bool_decide (p = [])) && (length p <=? 4096)%nat && negb (bool_decide (0 ∈ p))
  | None => true
  end.

Definition begin_op (id : nat) (o : Operation) (s : Impl) : Impl :=
  mkImpl (is_open s) (connection s) (Some (id, o)) (next_op s).

Definition connect (opts : ConnectOptions) : Impl → Out :=
  if_available (λ id s,
    let '(acts, s) := disconnect s in
    let o := new_op opts no_message s_connect w_connect in
    let s := begin_op id o (mkImpl (is_open s) (Some (mkConn [] false)) None (next_op s)) in
    let '(acts', s) :=
      if options_ok opts then ([AConnect id (chost opts) (port opts)], s)
      else finish id o ProtocolError 0 (s! "invalid connection options") false s in
    (acts ++ acts', s)).

Definition message_ok (m : Message) : bool :=
  (bool_decide (sender m = []) || atom (sender m)) && negb (bool_decide (to m = [])) && (length (to m) <=? 100)%nat &&
  negb (bool_decide (default [] (raw m) = [])) && (0 <? mtimeout m) && forallb atom (to m).

Definition send (m : Message) : Impl → Out :=
  if_available (λ id s,
    let o := new_op no_options m s_mail w_write in
    let s := begin_op id o s in
    if negb (is_open s) || negb (bool_decide (is_Some (connection s)))
    then finish id o TemporaryFailure 0 (s! "connection not ready") false s
    else if negb (message_ok m) then finish id o ProtocolError 0 (s! "invalid message envelope or payload") false s
    else write id s_mail (s! "MAIL FROM:<" ++ sender m ++ s! ">" ++ CRLF) s).

Definition quit : Impl → Out :=
  if_available (λ id s,
    let o := new_op no_options no_message s_quit w_write in
    let s := begin_op id o s in
    if negb (bool_decide (is_Some (connection s))) || negb (is_open s) then finish id o Ready 0 [] false s
    else write id s_quit (s! "QUIT" ++ CRLF) s).

Definition close (s : Impl) : Out :=
  match current s with
  | Some (id, o) => finish id o (if body_started o then OutcomeUnknown else Cancelled) 0 (s! "connection closed by caller") false s
  | None => disconnect s
  end.

(** A completion for operation [id] that waits for [w]. *)
Definition for_op (id : nat) (w : Wait → bool) (k : Operation → Impl → Out) (s : Impl) : Out :=
  match current s with
  | Some (i, o) => if (i =? id)%nat && w (wait o) then k o s else ([], s)
  | None => ([], s)
  end.

Definition is_wait (w w' : Wait) : bool := bool_decide (w = w').
Definition is_wait_tls (w : Wait) : bool := match w with w_tls _ => true | _ => false end.

Definition on_event (e : Event) (s : Impl) : Out :=
  match e with
  | CallConnect o => connect o s
  | CallSend m => send m s
  | CallQuit => quit s
  | CallClose => close s
  | Connected id err => for_op id (is_wait w_connect) (λ o s,
      match err with
      | Some e => io_failed id o e s
      | None => if bool_decide (tls_mode (options o) = tls_implicit) then handshake id true s else read_reply true id o s
      end) s
  | TlsDone id err => for_op id is_wait_tls (λ o s,
      match err with
      | Some e => io_failed id o (s! "TLS: " ++ e) s
      | None =>
          let s := set_conn (λ k, mkConn (replies k) true) s in
          let '(acts, s) :=
            if bool_decide (wait o = w_tls true) then read_reply true id (at_stage s_connect w_read o) s
            else ehlo id o s in
          (TlsUp id :: acts, s)
      end) s
  | Wrote id err => for_op id (is_wait w_write) (λ o s,
      match err with Some e => io_failed id o e s | None => read_reply true id o s end) s
  | ReadDone id data => for_op id (is_wait w_read) (λ o s,
      match data with
      | inl e => io_failed id o e s
      | inr [] => io_failed id o (s! "empty read") s
      | inr d => read_reply false id o (set_conn (λ k, mkConn (replies k ++ d) (tls k)) s)
      end) s
  | Deadline id => for_op id (λ _, true) (λ o, io_failed id o (s! "deadline exceeded")) s
  end.

Fixpoint run (es : list Event) (s : Impl) : Out :=
  match es with
  | [] => ([], s)
  | e :: es => let '(a1, s1) := on_event e s in let '(a2, s2) := run es s1 in (a1 ++ a2, s2)
  end.
End Client.

(** ** What is said on the wire *)

(** The actions of one operation that count: what it writes, the replies, the
    handshake and its end. *)
Definition about (id : nat) (a : Action) : bool :=
  match a with
  | AWrite i _ _ | Replied i _ _ | TlsUp i | Completed i _ => (i =? id)%nat
  | _ => false
  end.

Definition dialogue (id : nat) (acts : list Action) : list Action := List.filter (about id) acts.

Lemma dialogue_app id a b : dialogue id (a ++ b) = dialogue id a ++ dialogue id b.
Proof. apply List.filter_app. Qed.

Definition mail_command (m : Message) : bytes := s! "MAIL FROM:<" ++ sender m ++ s! ">" ++ CRLF.
Definition rcpt_command (address : bytes) : bytes := s! "RCPT TO:<" ++ address ++ s! ">" ++ CRLF.

(** One recipient and the reply to it. *)
Definition exchange (id : nat) (p : bytes * Z) : list Action :=
  [AWrite id s_recipient (rcpt_command p.1); Replied id s_recipient p.2].

(** The dialogue of an operation that sends, up to its last command. *)
Definition spoken (id : nat) (o : Operation) : list Action :=
  AWrite id s_mail (mail_command (message o)) ::
  match stage o with
  | s_recipient => Replied id s_mail 250 :: concat (exchange id <$> seen o)
                   ++ [AWrite id s_recipient (rcpt_command (default [] (to (message o) !! recipient o)))]
  | s_data => Replied id s_mail 250 :: concat (exchange id <$> seen o) ++ [AWrite id s_data (s! "DATA" ++ CRLF)]
  | s_body => Replied id s_mail 250 :: concat (exchange id <$> seen o)
              ++ [AWrite id s_data (s! "DATA" ++ CRLF); Replied id s_data 354;
                  AWrite id s_body (data_frame (default [] (raw (message o))))]
  | _ => []
  end.

Definition rcpt_accepted (p : bytes * Z) : Prop := p.2 = 250 ∨ p.2 = 251.

(** The whole dialogue of a message that was delivered. *)
Definition delivered (id : nat) (m : Message) (seen : list (bytes * Z)) (r : Result) : list Action :=
  [AWrite id s_mail (mail_command m); Replied id s_mail 250] ++ concat (exchange id <$> seen)
  ++ [AWrite id s_data (s! "DATA" ++ CRLF); Replied id s_data 354;
      AWrite id s_body (data_frame (default [] (raw m))); Replied id s_body 250; Completed id r].

(** An operation that reads replies agrees with its dialogue. *)
Definition conv_run (id : nat) (o : Operation) (k : Connection) (h : list Action) : Prop :=
  match stage o with
  | s_connect | s_ehlo | s_starttls | s_auth | s_credentials =>
      options_ok (options o) = true ∧ (tls k = true → TlsUp id ∈ h) ∧
      (tls_mode (options o) = tls_implicit → tls k = true) ∧
      (tls_mode (options o) = StartTlsRequired → stage o = s_auth ∨ stage o = s_credentials → tls k = true)
  | s_mail => message_ok (message o) = true ∧ h = spoken id o ∧ seen o = [] ∧ recipient o = 0%nat
  | s_recipient =>
      message_ok (message o) = true ∧ h = spoken id o ∧ Forall rcpt_accepted (seen o) ∧
      (seen o).*1 = take (recipient o) (to (message o)) ∧ (recipient o < length (to (message o)))%nat
  | s_data | s_body =>
      message_ok (message o) = true ∧ h = spoken id o ∧ Forall rcpt_accepted (seen o) ∧ (seen o).*1 = to (message o)
  | s_quit => True
  | s_tls | s_busy => False
  end.

Definition conv (id : nat) (o : Operation) (k : Connection) (h : list Action) : Prop :=
  match wait o with
  | w_connect => stage o = s_connect ∧ options_ok (options o) = true ∧ tls k = false
  | w_tls _ => options_ok (options o) = true
  | _ => conv_run id o k h
  end.

(** The end of an operation agrees with its dialogue. *)
Definition closed (id : nat) (m : Message) (r : Result) (h : list Action) : Prop :=
  outcome r = Accepted →
  message_ok m = true ∧ (recipients r).*1 = to m ∧ Forall rcpt_accepted (recipients r) ∧ h = delivered id m (recipients r) r.

Definition ends (a : Action) : bool := match a with Completed _ _ => true | _ => false end.

Definition no_line_end (l : bytes) : Prop := CR ∉ l ∧ LF ∉ l.

(** One command line. *)
Definition command (wire : bytes) : Prop := ∃ l, wire = l ++ CRLF ∧ no_line_end l.

(** The action belongs to operation [id], and what it writes is one command,
    the body apart. *)
Definition action_ok (id : nat) (a : Action) : Prop :=
  match a with
  | AWrite i st wire => i = id ∧ (st ≠ s_body → command wire)
  | Replied i _ _ | TlsUp i | Completed i _ => i = id
  | _ => True
  end.

(** When TLS is asked for, credentials come after the handshake. *)
Definition secure (id : nat) (o0 : Operation) (h acts : list Action) : Prop :=
  ∀ i wire, acts !! i = Some (AWrite id s_credentials wire) → tls_mode (options o0) ≠ tls_none → TlsUp id ∈ h ++ take i acts.

Lemma secure_none id o0 h acts : (∀ w, AWrite id s_credentials w ∉ acts) → secure id o0 h acts.
Proof. intros H i w Hi _. destruct (H w). by eapply list_elem_of_lookup_2. Qed.

Lemma secure_cons id o0 h a acts :
  (∀ w, a ≠ AWrite id s_credentials w) → secure id o0 (h ++ [a]) acts → secure id o0 h (a :: acts).
Proof.
  intros Ha Hs i w Hi Hm. destruct i as [| i]; simpl in Hi; [injection Hi as ->; by destruct (Ha w) |].
  specialize (Hs i w Hi Hm). by rewrite <- app_assoc in Hs.
Qed.

Ltac no_write :=
  apply secure_none; let w := fresh "w" in let H := fresh "H" in intros w H; cbn in H;
  repeat (apply elem_of_cons in H as [H | H]; [discriminate H |]); by apply elem_of_nil in H.

(** What one event does for operation [id], which was [o0] and has the dialogue
    [h]: it goes on, or it ends with one completion. *)
Definition serves (id : nat) (o0 : Operation) (n : nat) (h : list Action) (out : Out) : Prop :=
  next_op out.2 = n ∧ Forall (action_ok id) out.1 ∧
  secure id o0 h out.1 ∧
  match current out.2 with
  | Some (i, o) => i = id ∧ message o = message o0 ∧ options o = options o0 ∧ existsb ends out.1 = false ∧
                   ∃ k, connection out.2 = Some k ∧ conv id o k (h ++ dialogue id out.1)
  | None => ∃ pre r, out.1 = pre ++ [Completed id r] ∧ existsb ends pre = false ∧
                     closed id (message o0) r (h ++ dialogue id out.1)
  end.

(** ** Commands *)

Lemma no_line_end_app a b : no_line_end a → no_line_end b → no_line_end (a ++ b).
Proof. unfold no_line_end. set_solver. Qed.

Lemma atom_no_line_end v : atom v = true → no_line_end v.
Proof.
  unfold atom. rewrite !andb_true_iff. intros [_ Hf]. rewrite forallb_forall in Hf. unfold no_line_end.
  split; intros Hin%list_elem_of_In; specialize (Hf _ Hin); vm_compute in Hf; discriminate Hf.
Qed.

Lemma command_app l : no_line_end l → command (l ++ CRLF).
Proof. by exists l. Qed.

Lemma plain_command l : bool_decide (CR ∉ l ∧ LF ∉ l) = true → command (l ++ CRLF).
Proof. intros H%bool_decide_eq_true. by apply command_app. Qed.

Lemma mail_command_ok m : message_ok m = true → command (mail_command m).
Proof.
  unfold message_ok, mail_command. rewrite !andb_true_iff. intros [[[[[Hs _] _] _] _] _].
  rewrite !app_assoc. apply command_app. repeat apply no_line_end_app; try (split; by apply (bool_decide_unpack _)).
  apply orb_true_iff in Hs as [->%bool_decide_eq_true | ?]; [split; apply not_elem_of_nil | by apply atom_no_line_end].
Qed.

Lemma rcpt_command_ok m r i : message_ok m = true → to m !! i = Some r → command (rcpt_command r).
Proof.
  unfold message_ok, rcpt_command. rewrite !andb_true_iff. intros [_ Hf] Hr. rewrite forallb_forall in Hf.
  rewrite !app_assoc. apply command_app. repeat apply no_line_end_app; try (split; by apply (bool_decide_unpack _)).
  apply atom_no_line_end, Hf, list_elem_of_In, list_elem_of_lookup. eauto.
Qed.

Lemma ehlo_command_ok o : options_ok o = true → command (s! "EHLO " ++ helo o ++ CRLF).
Proof.
  unfold options_ok. rewrite !andb_true_iff. intros [[[[_ Hh] _] _] _].
  rewrite !app_assoc. apply command_app. apply no_line_end_app; [split; by apply (bool_decide_unpack _) |].
  by apply atom_no_line_end.
Qed.

Section Serve.
Context (EVP_EncodeBlock : bytes → option bytes).
Context (Hencode : ∀ d e, EVP_EncodeBlock d = Some e → no_line_end e).
Context (id : nat) (o0 : Operation) (n : nat).

Lemma finish_serves h o oc c e reuse s :
  next_op s = n → oc ≠ Accepted → serves id o0 n h (finish id o oc c e reuse s).
Proof.
  intros Hn Hoc. unfold finish, disconnect. destruct reuse; simpl.
  - split; [done |]. split; [by constructor |]. split; [no_write |]. exists [], (mkResult oc c (stage o) e (seen o) true).
    split; [done |]. split; [done |]. by intros ?.
  - split; [done |]. destruct (connection s); simpl.
    + split; [by repeat constructor |]. split; [no_write |].
      exists [Disconnected], (mkResult oc c (stage o) e (seen o) false). split; [done |]. split; [done |]. by intros ?.
    + split; [by constructor |]. split; [no_write |].
      exists [], (mkResult oc c (stage o) e (seen o) false). split; [done |]. split; [done |]. by intros ?.
Qed.

Lemma io_failed_serves h o e s : next_op s = n → serves id o0 n h (io_failed id o e s).
Proof. intros. apply finish_serves; [done |]. by destruct (body_started o). Qed.

Lemma protocol_failed_serves h o e s : next_op s = n → serves id o0 n h (protocol_failed id o e s).
Proof. intros. apply finish_serves; [done |]. by destruct (body_started o). Qed.

(** A reply or a handshake before what follows from it. *)
Lemma serves_cons h a acts s :
  (∃ st c, a = Replied id st c) ∨ a = TlsUp id → serves id o0 n (h ++ [a]) (acts, s) → serves id o0 n h (a :: acts, s).
Proof.
  intros Ha (Hn & Hf & Hc & Hs).
  assert (about id a = true ∧ action_ok id a ∧ ends a = false ∧ ∀ w, a ≠ AWrite id s_credentials w) as (Hab & Hok & He & Hw).
  { destruct Ha as [(st & c & ->) | ->]; simpl; by rewrite Nat.eqb_refl. }
  assert (dialogue id (a :: acts) = a :: dialogue id acts) as Hd by (unfold dialogue; simpl; by rewrite Hab).
  split; [done |]. split; [by constructor |]. split; [by apply secure_cons |].
  destruct (current s) as [[i o] |] eqn:Ec; cbn [snd fst] in *; rewrite Ec in *.
  - destruct Hs as (-> & Hm & Ho & Hee & k & Hk & Hconv). split_and!; try done; [by simpl; rewrite He |].
    exists k. split; [done |]. rewrite Hd. by rewrite <- app_assoc in Hconv.
  - destruct Hs as (pre & r & -> & Hee & Hcl). exists (a :: pre), r. split; [done |]. split; [by simpl; rewrite He |].
    rewrite Hd. by rewrite <- app_assoc in Hcl.
Qed.

Lemma write_serves h o k st wire s :
  next_op s = n → current s = Some (id, o) → connection s = Some k → message o = message o0 → options o = options o0 →
  (st ≠ s_body → command wire) → (st = s_credentials → tls_mode (options o0) ≠ tls_none → TlsUp id ∈ h) →
  conv_run id (at_stage st w_write o) k (h ++ [AWrite id st wire]) → serves id o0 n h (write id st wire s).
Proof.
  intros Hn Hc Hk Hm Ho Hw Hcred Hconv. unfold write. split; [done |]. split; [by repeat constructor |].
  split.
  { intros i w E Ht. destruct i as [| i]; simpl in E; [| by rewrite lookup_nil in E].
    rewrite app_nil_r. apply Hcred; congruence. }
  cbn [snd fst]. unfold set_op. cbn [current connection]. rewrite Hc. cbn [fmap option_fmap option_map prod_map fst snd].
  split_and!; try done. exists k. split; [done |]. unfold dialogue. simpl. by rewrite Nat.eqb_refl.
Qed.

Lemma base64_no_line_end d : no_line_end (base64_encode EVP_EncodeBlock d).
Proof.
  unfold base64_encode. destruct d; [split; apply not_elem_of_nil |].
  destruct (EVP_EncodeBlock _) eqn:E; [by eapply Hencode | split; apply not_elem_of_nil].
Qed.

(** ** Replies *)

(** A session in which [id] is at work as [o]. *)
Definition working (o : Operation) (k : Connection) (s : Impl) : Prop :=
  next_op s = n ∧ current s = Some (id, o) ∧ connection s = Some k ∧ message o = message o0 ∧ options o = options o0.

Lemma finish_reuse_serves h o c s oc :
  next_op s = n → closed id (message o0) (mkResult oc c (stage o) [] (seen o) true)
    (h ++ [Completed id (mkResult oc c (stage o) [] (seen o) true)]) →
  serves id o0 n h (finish id o oc c [] true s).
Proof.
  intros Hn Hc. unfold finish. split; [done |]. split; [by constructor |]. split; [no_write |].
  simpl. eexists [], _. split; [done |]. split; [done |]. unfold dialogue. simpl. by rewrite Nat.eqb_refl.
Qed.

Lemma write_stage h o k st wire s :
  working o k s → (st ≠ s_body → command wire) → (st = s_credentials → tls_mode (options o0) ≠ tls_none → TlsUp id ∈ h) →
  conv_run id (at_stage st w_write o) k (h ++ [AWrite id st wire]) → serves id o0 n h (write id st wire s).
Proof. intros (? & ? & ? & ? & ?). by apply write_serves. Qed.

(** Connecting: the reply to [stage o] was the expected one. *)
Lemma proceed_connect h o k c s :
  working o k s → stage o ∈ [s_connect; s_ehlo; s_starttls; s_auth; s_credentials] → conv_run id o k h →
  serves id o0 n (h ++ [Replied id (stage o) c]) (proceed EVP_EncodeBlock id o c s).
Proof.
  intros Hw Hst Hconv. pose proof Hw as (Hn & Hc & Hk & Hm & Ho).
  assert (options_ok (options o) = true ∧ (tls k = true → TlsUp id ∈ h) ∧ (tls_mode (options o) = tls_implicit → tls k = true) ∧
    (tls_mode (options o) = StartTlsRequired → stage o = s_auth ∨ stage o = s_credentials → tls k = true)) as (Hok & Hup & Him & Hstart).
  { unfold conv_run in Hconv. destruct (stage o); try exact Hconv; exfalso; clear - Hst; set_solver. }
  clear Hconv. unfold proceed. destruct (stage o) eqn:Es; try (exfalso; clear - Hst; set_solver).
  - apply (write_stage _ o k); [done | intros _; by apply ehlo_command_ok | done |]. simpl. split; [done |]. split; [| split; [done |]].
    + set_solver.
    + by intros _ [? | ?].
  - rewrite Hk. destruct (bool_decide (tls_mode (options o) = StartTlsRequired) && negb (tls k)) eqn:Et.
    + destruct (capability o _); [| by apply protocol_failed_serves].
      apply (write_stage _ o k); [done | intros _; by apply plain_command | done |]. simpl. split; [done |]. split; [set_solver |].
      split; [done |]. by intros _ [? | ?].
    + destruct (password _); [| by apply finish_serves]. destruct (auth_plain o); [| by apply protocol_failed_serves].
      apply (write_stage _ o k); [done | intros _; by apply plain_command | done |]. simpl. split; [done |]. split; [set_solver |].
      split; [done |]. intros Hs _. rewrite bool_decide_true in Et by done. by destruct (tls k).
  - rewrite Hk. destruct k as [[|] t]; [| by apply protocol_failed_serves]. unfold handshake. split; [done |].
    split; [by repeat constructor |]. split; [no_write |]. unfold set_op. simpl. rewrite Hc. simpl.
    split_and!; try done. exists (mkConn [] t). by rewrite Hk.
  - apply (write_stage _ o k); [done | | |].
    + intros _. apply command_app, base64_no_line_end.
    + intros _ Ht. apply elem_of_app. left. apply Hup. rewrite <- Ho in Ht. destruct (tls_mode (options o)); [done | by apply Him |].
      apply Hstart; auto.
    + simpl. split; [done |]. split; [set_solver |]. split; [done |]. intros ? _. apply Hstart; auto.
  - by apply finish_serves.
Qed.

Definition add_seen (c : Z) (o : Operation) : Operation :=
  mkOp (options o) (message o) (seen o ++ [(default [] (to (message o) !! recipient o), c)]) (stage o) (reply o)
    (reply_bytes o) (recipient o) (reply_code o) (body_started o) (wait o).

Lemma working_set o k s o' :
  working o k s → message o' = message o → options o' = options o → working o' k (set_op (λ _, o') s).
Proof.
  intros (? & Hc & ? & ? & ?) ??. unfold working, set_op. cbn [next_op current connection]. rewrite Hc. simpl.
  split_and!; congruence.
Qed.

Lemma proceed_mail h o k s :
  working o k s → stage o = s_mail → conv_run id o k h →
  serves id o0 n (h ++ [Replied id s_mail 250]) (proceed EVP_EncodeBlock id o 250 s).
Proof.
  intros Hw Hst Hconv. unfold proceed. rewrite Hst. unfold conv_run in Hconv. rewrite Hst in Hconv.
  destruct Hconv as (Hok & -> & Hseen & Hrec). unfold rcpt.
  assert (∃ r, to (message o) !! 0%nat = Some r) as [r Hr].
  { unfold message_ok in Hok. rewrite !andb_true_iff in Hok. destruct Hok as [[[[[_ Hne] _] _] _] _].
    destruct (to (message o)) as [| r ?]; [by rewrite bool_decide_true in Hne | by exists r]. }
  apply (write_stage _ o k); [done | | done |].
  - intros _. rewrite Hrec, Hr. by eapply (rcpt_command_ok (message o)).
  - unfold conv_run. cbn [stage at_stage message seen recipient]. split; [done |]. split.
    + unfold spoken. cbn [stage at_stage message seen recipient]. rewrite Hst, Hseen, Hrec. simpl. by rewrite Hr.
    + rewrite Hseen, Hrec. split; [constructor |]. split; [done |]. by eapply lookup_lt_Some.
Qed.

Lemma proceed_recipient h o k c s :
  working (add_seen c o) k s → stage o = s_recipient → conv_run id o k h → c = 250 ∨ c = 251 →
  serves id o0 n (h ++ [Replied id s_recipient c]) (proceed EVP_EncodeBlock id (add_seen c o) c s).
Proof.
  intros Hw Hst Hconv Hcode. unfold proceed. cbn [stage add_seen]. rewrite Hst. unfold conv_run in Hconv. rewrite Hst in Hconv.
  destruct Hconv as (Hok & -> & Hacc & Hseen & Hlt). pose proof Hlt as [r Hr]%lookup_lt_is_Some. cbn [recipient add_seen message options].
  match goal with |- context [set_op (λ _, ?x) s] => set (o' := x) end.
  assert (working o' k (set_op (λ _, o') s)) as Hw' by (by eapply working_set).
  assert (message o' = message o) as Hm by done. assert (recipient o' = S (recipient o)) as Hrec by done.
  assert (seen o' = seen o ++ [(r, c)]) as Hs by (cbn [seen o' add_seen]; by rewrite Hr).
  assert (Forall rcpt_accepted (seen o')) as Hacc' by (rewrite Hs; apply list.Forall_app; split; [done | by constructor]).
  assert ((seen o').*1 = take (S (recipient o)) (to (message o))) as Hseen'.
  { rewrite Hs, fmap_app, Hseen. simpl. symmetry. by apply take_S_r. }
  assert (spoken id o ++ [Replied id s_recipient c] =
          AWrite id s_mail (mail_command (message o)) :: Replied id s_mail 250 :: concat (exchange id <$> seen o')) as Hsp.
  { unfold spoken. rewrite Hst, Hr, Hs, fmap_app, concat_app. simpl. by rewrite <- !app_assoc. }
  destruct (Nat.ltb_spec (S (recipient o)) (length (to (message o)))) as [Hl | Hl].
  - pose proof Hl as [r' Hr']%lookup_lt_is_Some. unfold rcpt.
    apply (write_stage _ o' k); [done | | done |].
    + intros _. rewrite Hm, Hrec, Hr'. by eapply (rcpt_command_ok (message o)).
    + unfold conv_run. cbn [stage at_stage]. split; [done |]. split; [| done].
      rewrite Hsp. unfold spoken. cbn [stage at_stage message seen recipient]. by rewrite <- !app_comm_cons.
  - apply (write_stage _ o' k); [done | intros _; by apply plain_command | done |].
    unfold conv_run. cbn [stage at_stage]. split; [done |]. split; [| split; [done |]].
    + rewrite Hsp. unfold spoken. cbn [stage at_stage message seen recipient]. by rewrite <- !app_comm_cons.
    + change (seen (at_stage s_data w_write o')) with (seen o'). rewrite Hseen'. by apply take_ge.
Qed.

Lemma proceed_data h o k s :
  working o k s → stage o = s_data → conv_run id o k h →
  serves id o0 n (h ++ [Replied id s_data 354]) (proceed EVP_EncodeBlock id o 354 s).
Proof.
  intros Hw Hst Hconv. unfold proceed. rewrite Hst. unfold conv_run in Hconv. rewrite Hst in Hconv.
  destruct Hconv as (Hok & -> & Hacc & Hseen).
  match goal with |- context [set_op (λ _, ?x) s] => set (o' := x) end.
  assert (working o' k (set_op (λ _, o') s)) as Hw' by (by eapply working_set).
  apply (write_stage _ o' k); [done | done | done |]. unfold conv_run. cbn [stage at_stage]. split; [done |]. split; [| done].
  unfold spoken. rewrite Hst. cbn [stage at_stage message seen]. simpl. by rewrite <- !app_assoc.
Qed.

Lemma proceed_body h o k s :
  working o k s → stage o = s_body → conv_run id o k h →
  serves id o0 n (h ++ [Replied id s_body 250]) (proceed EVP_EncodeBlock id o 250 s).
Proof.
  intros (Hn & _ & _ & Hm & _) Hst Hconv. unfold proceed. rewrite Hst. unfold conv_run in Hconv. rewrite Hst in Hconv.
  destruct Hconv as (Hok & -> & Hacc & Hseen). apply finish_reuse_serves; [done |]. intros _. cbn [recipients]. rewrite <- Hm.
  split_and!; try done. unfold delivered, spoken. rewrite Hst. simpl. by rewrite <- !app_assoc.
Qed.

Lemma on_reply_serves h o k c s :
  (∃ o', working o' k s) → message o = message o0 → options o = options o0 → conv_run id o k h →
  serves id o0 n h (on_reply EVP_EncodeBlock id o c s).
Proof.
  intros [o' Hw] Hm Ho Hconv. unfold on_reply.
  set (o1 := if bool_decide (stage o = s_recipient) then _ else o).
  assert (stage o1 = stage o ∧ message o1 = message o ∧ options o1 = options o) as (Hst & Hm1 & Ho1)
    by (unfold o1; by case_bool_decide).
  assert (working o1 k (set_op (λ _, o1) s)) as Hw1.
  { apply (working_set o' k); [done | |]; destruct Hw as (_ & _ & _ & ? & ?); congruence. }
  pose proof Hw1 as (Hn1 & _ & _ & _ & _).
  destruct (if 400 <=? c then _ else _) as [acts s2] eqn:E. apply serves_cons; [rewrite Hst; eauto |].
  rewrite <- E. clear E acts s2. destruct (400 <=? c).
  { apply finish_serves; [done |]. unfold refusal. by repeat case_match. }
  destruct (negb (c =? _) && _) eqn:Ec; [by apply protocol_failed_serves |].
  rewrite Hst in *. destruct (stage o) eqn:Es.
  all: try (assert (o1 = o) as Eo by (unfold o1; by rewrite bool_decide_false)).
  all: try (apply andb_false_iff in Ec as [Ec | Ec]; [| by rewrite bool_decide_false in Ec];
            apply negb_false_iff, Z.eqb_eq in Ec; cbn [expected] in Ec; subst c).
  all: try (rewrite Eo in *; rewrite <- Es; apply (proceed_connect h o k); [done | rewrite Es; set_solver | done]).
  - by unfold conv_run in Hconv; rewrite Es in Hconv.
  - rewrite Eo in *. by apply (proceed_mail h o k).
  - assert (o1 = add_seen c o) as Eo by (unfold o1, add_seen; rewrite ?Es; by rewrite bool_decide_true).
    rewrite Eo in *.
    apply (proceed_recipient h o k); [done.. |]. cbn [expected] in Ec. rewrite bool_decide_true in Ec by done.
    apply andb_false_iff in Ec as [Ec%negb_false_iff%Z.eqb_eq | Ec%negb_false_iff%Z.eqb_eq]; auto.
  - rewrite Eo in *. by apply (proceed_data h o k).
  - rewrite Eo in *. by apply (proceed_body h o k).
  - rewrite Eo in *. unfold proceed. rewrite Es. by apply finish_serves.
  - by unfold conv_run in Hconv; rewrite Es in Hconv.
Qed.

Lemma conv_run_ext o o' k k' h :
  stage o' = stage o → options o' = options o → message o' = message o → seen o' = seen o → recipient o' = recipient o →
  tls k' = tls k → conv_run id o k h → conv_run id o' k' h.
Proof.
  intros E1 E2 E3 E4 E5 E6. unfold conv_run, spoken. rewrite E1, E2, E3, E4, E5, E6. done.
Qed.

Lemma read_lines_serves fuel h o k s :
  (length (replies k) ≤ fuel)%nat → (∃ o', working o' k s) → message o = message o0 → options o = options o0 →
  conv_run id o k h → serves id o0 n h (read_lines EVP_EncodeBlock fuel id o s).
Proof.
  revert h o k s. induction fuel as [| fuel IH]; intros h o k s Hf [o' Hw] Hm Ho Hconv;
    pose proof Hw as (Hn & Hc & Hk & _ & _); cbn [read_lines]; rewrite Hk;
    (destruct (find_sub CRLF (replies k)) as [e |] eqn:E;
     [| destruct (_ <=? _)%nat; [by apply protocol_failed_serves |];
        split; [done |]; split; [by repeat constructor |]; split; [no_write |];
        unfold set_op; cbn [snd fst current connection]; rewrite Hc; cbn [fmap option_fmap option_map prod_map fst snd];
        split_and!; try done; exists k; split; [done |]; unfold dialogue; simpl; rewrite app_nil_r; by eapply conv_run_ext]).
  { destruct (replies k); [done | simpl in Hf; lia]. }
  match goal with |- context [set_conn ?f s] => set (s1 := set_conn f s) end.
  set (k1 := mkConn (drop (e + 2) (replies k)) (tls k)).
  assert (working o' k1 s1) as Hw1.
  { destruct Hw as (? & ? & ? & ? & ?). unfold working, s1, set_conn. cbn [next_op current connection]. rewrite Hk. by split_and!. }
  assert (next_op s1 = n) as Hn1 by apply Hw1.
  set (o1 := set_reply (reply o) _ _ o). destruct (line_ok _ _); cbn [negb]; [| by apply protocol_failed_serves].
  destruct (negb (reply_code o1 =? 0) && _); [by apply protocol_failed_serves |].
  match goal with |- context [if _ then read_lines _ _ _ ?x _ else _] => set (o2 := x) end.
  assert (conv_run id o2 k1 h) as Hconv2 by (by eapply conv_run_ext).
  destruct (negb _ && _); [| by apply (on_reply_serves h o2 k1); eauto].
  apply (IH h o2 k1); [| by eauto | done | done | done]. cbn [replies k1].
  assert (0 < length (replies k))%nat by (destruct (replies k); [done | simpl; lia]).
  rewrite length_drop. lia.
Qed.

Lemma read_reply_serves first h o k s :
  (∃ o', working o' k s) → message o = message o0 → options o = options o0 → conv_run id o k h →
  serves id o0 n h (read_reply EVP_EncodeBlock first id o s).
Proof.
  intros Hw Hm Ho Hconv. unfold read_reply. pose proof Hw as [o' (_ & _ & Hk & _ & _)]. rewrite Hk.
  apply (read_lines_serves _ h _ k); [done | done | by destruct first | by destruct first |].
  destruct first; [by eapply conv_run_ext | done].
Qed.
End Serve.

(** ** The invariant *)

Definition write_ok (a : Action) : Prop := match a with AWrite _ st wire => st ≠ s_body → command wire | _ => True end.

(** Operations are numbered by the calls that created them. *)
Definition is_call (e : Event) : bool := match e with CallConnect _ | CallSend _ | CallQuit => true | _ => false end.
Definition calls (es : list Event) : list Event := List.filter is_call es.
Definition call_at (es : list Event) (id : nat) : option Event := calls es !! id.

Definition called (es : list Event) (id : nat) (o : Operation) : Prop :=
  match call_at es id with
  | Some (CallConnect opts) => options o = opts ∧ message o = no_message
  | Some (CallSend m) => options o = no_options ∧ message o = m
  | Some CallQuit => options o = no_options ∧ message o = no_message
  | _ => False
  end.

(** The dialogue of an operation that ended: one completion, last; and a
    delivery when it says Accepted. *)
Definition ended (es : list Event) (id : nat) (h : list Action) : Prop :=
  ∃ pre r, h = pre ++ [Completed id r] ∧ existsb ends pre = false ∧
    (outcome r = Accepted → ∃ m, call_at es id = Some (CallSend m) ∧ message_ok m = true ∧ (recipients r).*1 = to m ∧
       Forall rcpt_accepted (recipients r) ∧ h = delivered id m (recipients r) r).

(** Credentials are written for a connection whose options ask for no TLS, or
    after its handshake. *)
Definition secured (es : list Event) (hist : list Action) : Prop :=
  ∀ i id wire, hist !! i = Some (AWrite id s_credentials wire) →
    ∃ c, call_at es id = Some c ∧ ∀ opts, c = CallConnect opts → tls_mode opts ≠ tls_none → TlsUp id ∈ take i hist.

Record Good (es : list Event) (hist : list Action) (s : Impl) : Prop := {
  g_new : ∀ a id, a ∈ hist → about id a = true → (id < next_op s)%nat;
  g_cur : ∀ id o, current s = Some (id, o) →
    (id < next_op s)%nat ∧ existsb ends (dialogue id hist) = false ∧ called es id o ∧
    ∃ k, connection s = Some k ∧ conv id o k (dialogue id hist);
  g_done : ∀ id, (id < next_op s)%nat → (∀ o, current s ≠ Some (id, o)) → ended es id (dialogue id hist);
  g_write : Forall write_ok hist;
  g_calls : next_op s = length (calls es);
  g_secure : secured es hist;
}.

Lemma calls_snoc es e : calls (es ++ [e]) = calls es ++ (if is_call e then [e] else []).
Proof. unfold calls. rewrite List.filter_app. simpl. by destruct (is_call e). Qed.

Lemma call_at_mono es e id c : call_at es id = Some c → call_at (es ++ [e]) id = Some c.
Proof. unfold call_at. rewrite calls_snoc. apply lookup_app_l_Some. Qed.

Lemma ended_mono es e id h : ended es id h → ended (es ++ [e]) id h.
Proof.
  intros (pre & r & Hh & He & Hr). exists pre, r. split; [done |]. split; [done |]. intros Ha.
  destruct (Hr Ha) as (m & Hm & ?). exists m. split; [by apply call_at_mono | done].
Qed.

Lemma called_mono es e id o : called es id o → called (es ++ [e]) id o.
Proof.
  unfold called. destruct (call_at es id) as [c |] eqn:E; [| done]. by rewrite (call_at_mono es e id c E).
Qed.

Lemma called_new es e s hist : Good es hist s → is_call e = true → call_at (es ++ [e]) (next_op s) = Some e.
Proof.
  intros Hg He. unfold call_at. rewrite calls_snoc, He, (g_calls _ _ _ Hg). by rewrite lookup_app_r, Nat.sub_diag.
Qed.

Lemma secured_app es e hist acts :
  secured es hist →
  (∀ i id wire, acts !! i = Some (AWrite id s_credentials wire) →
     ∃ c, call_at (es ++ [e]) id = Some c ∧
       ∀ opts, c = CallConnect opts → tls_mode opts ≠ tls_none → TlsUp id ∈ hist ++ take i acts) →
  secured (es ++ [e]) (hist ++ acts).
Proof.
  intros Hold Hnew i id w [Hi | [Hlen Hi]]%lookup_app_Some.
  - destruct (Hold i id w Hi) as (c & Hc & Hup). exists c. split; [by apply call_at_mono |].
    rewrite take_app_le; [done |]. apply lookup_lt_Some in Hi. lia.
  - destruct (Hnew _ id w Hi) as (c & Hc & Hup). exists c. split; [done |].
    by rewrite take_app_ge by done.
Qed.

Lemma secured_quiet es e hist acts :
  secured es hist → (∀ id w, AWrite id s_credentials w ∉ acts) → secured (es ++ [e]) (hist ++ acts).
Proof.
  intros Hs Hq. apply secured_app; [done |]. intros i id w Hi. destruct (Hq id w). by eapply list_elem_of_lookup_2.
Qed.

Lemma about_action_ok id a j : action_ok id a → about j a = true → j = id.
Proof. destruct a; simpl; try done; first [intros [-> _] | intros ->]; by intros ?%Nat.eqb_eq. Qed.

Lemma dialogue_other id j acts : Forall (action_ok id) acts → j ≠ id → dialogue j acts = [].
Proof.
  intros Hf Hj. unfold dialogue. induction Hf as [| a acts Ha _ IH]; [done |]. simpl. rewrite IH.
  assert (about j a = false) as ->; [| done].
  destruct (about j a) eqn:E; [| done]. by rewrite (about_action_ok id a j Ha E) in Hj.
Qed.

Lemma dialogue_fresh es hist s id : Good es hist s → (next_op s ≤ id)%nat → dialogue id hist = [].
Proof.
  intros Hg Hid. unfold dialogue. assert (∀ a, a ∈ hist → about id a = false) as H.
  { intros a Ha. destruct (about id a) eqn:E; [| done]. pose proof (g_new _ _ _ Hg a id Ha E). lia. }
  clear Hg. induction hist as [| a hist IH]; [done |]. simpl. rewrite H by left. apply IH. intros b Hb. apply H. by right.
Qed.

Lemma ends_dialogue id acts : existsb ends acts = false → existsb ends (dialogue id acts) = false.
Proof.
  unfold dialogue. induction acts as [| a acts IH]; [done |]. simpl. intros [Ha Hacts]%orb_false_iff.
  destruct (about id a); simpl; rewrite ?Ha; auto.
Qed.

Lemma good_serves es e hist s id o0 n out :
  Good es hist s →
  (current s = Some (id, o0) ∧ n = next_op s ∧ is_call e = false) ∨ (current s = None ∧ id = next_op s ∧ n = S id ∧ is_call e = true) →
  called (es ++ [e]) id o0 → serves id o0 n (dialogue id hist) out → Good (es ++ [e]) (hist ++ out.1) out.2.
Proof.
  intros Hg Hid Hsend (Hn & Hf & Hsec & Hout).
  assert (id < n ∧ next_op s ≤ n)%nat as [Hlt Hle].
  { destruct Hid as [(Hc & -> & _) | (_ & -> & -> & _)]; [| lia]. split; [apply (g_cur _ _ _ Hg _ _ Hc) | lia]. }
  assert (existsb ends (dialogue id hist) = false) as Hnone.
  { destruct Hid as [(Hc & _) | (_ & -> & _)]; [by apply (g_cur _ _ _ Hg _ _ Hc) |]. by rewrite (dialogue_fresh _ _ _ _ Hg). }
  split.
  - intros a j [Ha | Ha]%elem_of_app Hab; rewrite Hn; [pose proof (g_new _ _ _ Hg a j Ha Hab); lia |].
    rewrite list.Forall_forall in Hf. by rewrite (about_action_ok id a j (Hf a Ha) Hab).
  - intros j o Hcur. rewrite Hcur in Hout. destruct Hout as (-> & Hm & Hopt & He & k & Hk & Hconv). rewrite Hn. split; [done |].
    rewrite dialogue_app, existsb_app, Hnone. split; [by apply ends_dialogue |]. split; [unfold called in *; by rewrite Hm, Hopt |]. by exists k.
  - intros j Hj Hcur. rewrite Hn in Hj. destruct (decide (j = id)) as [-> | Hne].
    + destruct (current out.2) as [[i o] |] eqn:Ec; [destruct Hout as (-> & _); by destruct (Hcur o) |].
      destruct Hout as (pre & r & Hacts & He & Hcl). rewrite dialogue_app.
      assert (dialogue id out.1 = dialogue id pre ++ [Completed id r]) as Hd.
      { rewrite Hacts, dialogue_app. unfold dialogue at 2. simpl. by rewrite Nat.eqb_refl. }
      exists (dialogue id hist ++ dialogue id pre), r. split; [by rewrite Hd, app_assoc |].
      split; [by rewrite existsb_app, Hnone, ends_dialogue |]. intros Ha. destruct (Hcl Ha) as (Hok & ? & ? & ?).
      exists (message o0). unfold called in Hsend. destruct (call_at (es ++ [e]) id) as [[] |]; try done;
        destruct Hsend as [_ E]; rewrite E in *; done.
    + rewrite dialogue_app, (dialogue_other id j _ Hf Hne), app_nil_r. apply ended_mono, (g_done _ _ _ Hg).
      * destruct Hid as [(_ & -> & _) | (_ & -> & -> & _)]; lia.
      * intros o Ho. destruct Hid as [(Hc & _) | (Hc & _)]; congruence.
  - apply list.Forall_app. split; [apply (g_write _ _ _ Hg) |]. eapply list.Forall_impl; [exact Hf |].
    intros []; simpl; try done. by intros [_ ?].
  - rewrite Hn, calls_snoc, length_app, <- (g_calls _ _ _ Hg). destruct Hid as [(_ & -> & ->) | (_ & -> & -> & ->)]; simpl; lia.
  - apply secured_app; [apply Hg |]. intros i j w Hi.
    assert (j = id) as -> by (rewrite list.Forall_forall in Hf; by destruct (Hf _ (list_elem_of_lookup_2 _ _ _ Hi))).
    unfold called in Hsend. destruct (call_at (es ++ [e]) id) as [c |]; [| done]. exists c. split; [done |].
    intros opts -> Ht. destruct Hsend as [<- _]. specialize (Hsec i w Hi Ht). apply elem_of_app in Hsec as [Hin | ?]; [| set_solver].
    apply elem_of_app. left. unfold dialogue in Hin. apply list_elem_of_In, List.filter_In in Hin as [Hin _]. by apply list_elem_of_In.
Qed.

Lemma serves_disconnected id o0 n h pre acts s :
  pre = [] ∨ pre = [Disconnected] → serves id o0 n h (acts, s) → serves id o0 n h (pre ++ acts, s).
Proof.
  intros [-> | ->] (Hn & Hf & Hc & Hs); [done |]. split; [done |]. split; [by constructor |].
  split. { apply secure_cons; [done |]. intros i w E Ht. specialize (Hc i w E Ht). set_solver. }
  cbn [fst snd] in *. destruct (current s) as [[i o] |]; [done |].
  destruct Hs as (pre & r & -> & ? & ?). by exists (Disconnected :: pre), r.
Qed.

Lemma good_idle es e hist s acts :
  Good es hist s → is_call e = false → current s = None → acts = [] ∨ acts = [Disconnected] →
  Good (es ++ [e]) (hist ++ acts) (mkImpl false None None (next_op s)).
Proof.
  intros Hg He Hc Hacts. assert (∀ id, dialogue id (hist ++ acts) = dialogue id hist) as Hd.
  { intros id. rewrite dialogue_app. by destruct Hacts as [-> | ->]; simpl; rewrite app_nil_r. }
  split; simpl.
  - intros a id Ha Hab. destruct Hacts as [-> | ->]; [rewrite app_nil_r in Ha; by apply (g_new _ _ _ Hg a) |].
    apply elem_of_app in Ha as [Ha | ->%list_elem_of_singleton]; [by apply (g_new _ _ _ Hg a) | done].
  - done.
  - intros id Hid _. rewrite Hd. apply ended_mono, (g_done _ _ _ Hg); [done |]. by rewrite Hc.
  - apply list.Forall_app. split; [apply (g_write _ _ _ Hg) |]. destruct Hacts as [-> | ->]; by repeat constructor.
  - by rewrite calls_snoc, He, app_nil_r, (g_calls _ _ _ Hg).
  - apply secured_quiet; [apply Hg |]. intros id w. destruct Hacts as [-> | ->]; set_solver.
Qed.

Lemma good_skip es e hist s : Good es hist s → is_call e = false → Good (es ++ [e]) hist s.
Proof.
  intros Hg He. split.
  - apply Hg.
  - intros id o Hc. destruct (g_cur _ _ _ Hg id o Hc) as (? & ? & ? & ?). split_and!; auto using called_mono.
  - intros id Hid Hc. apply ended_mono. by apply (g_done _ _ _ Hg).
  - apply Hg.
  - by rewrite calls_snoc, He, app_nil_r, (g_calls _ _ _ Hg).
  - rewrite <- (app_nil_r hist). apply secured_quiet; [apply Hg | intros; apply not_elem_of_nil].
Qed.

Lemma good_busy es e hist s :
  Good es hist s → is_call e = true → is_Some (current s) →
  Good (es ++ [e]) (hist ++ [Completed (next_op s) busy]) (mkImpl (is_open s) (connection s) (current s) (S (next_op s))).
Proof.
  intros Hg He [[i o] Hc]. pose proof (g_cur _ _ _ Hg i o Hc) as (Hi & Hends & Hs & Hk).
  assert (∀ j, (j < next_op s)%nat → dialogue j (hist ++ [Completed (next_op s) busy]) = dialogue j hist) as Hd.
  { intros j Hj. rewrite dialogue_app. unfold dialogue at 2. simpl. rewrite (proj2 (Nat.eqb_neq _ _)) by lia. by rewrite app_nil_r. }
  split; simpl.
  - intros a j [Ha | ->%list_elem_of_singleton]%elem_of_app Hab; [pose proof (g_new _ _ _ Hg a j Ha Hab); lia |].
    simpl in Hab. apply Nat.eqb_eq in Hab. lia.
  - intros j o' Hc'. rewrite Hc in Hc'. injection Hc' as -> ->. rewrite Hd by done. split_and!; auto using called_mono.
  - intros j Hj Hcur. destruct (decide (j = next_op s)) as [-> | Hne].
    + rewrite dialogue_app, (dialogue_fresh _ _ _ _ Hg) by done. exists [], busy. unfold dialogue. simpl. by rewrite Nat.eqb_refl.
    + rewrite Hd by lia. apply ended_mono, (g_done _ _ _ Hg); [lia | done].
  - apply list.Forall_app. split; [apply (g_write _ _ _ Hg) | by constructor].
  - rewrite calls_snoc, He, length_app, <- (g_calls _ _ _ Hg). simpl. lia.
  - apply secured_quiet; [apply Hg |]. intros id w. set_solver.
Qed.

(** A call: the new operation is served from its first action on. *)
Lemma good_call es e hist s o (k : nat → Impl → Out) :
  Good es hist s → is_call e = true → (call_at (es ++ [e]) (next_op s) = Some e → called (es ++ [e]) (next_op s) o) →
  (∀ s', current s' = None → next_op s' = S (next_op s) → connection s' = connection s → is_open s' = is_open s →
     serves (next_op s) o (S (next_op s)) [] (k (next_op s) s')) →
  Good (es ++ [e]) (hist ++ (if_available k s).1) (if_available k s).2.
Proof.
  intros Hg He Hsend Hk. unfold if_available. destruct (current s) as [p |] eqn:Hc; cbn [current].
  - assert (is_Some (current s)) as Hs by (rewrite Hc; eauto). pose proof (good_busy es e hist s Hg He Hs) as H. by rewrite Hc in H.
  - eapply (good_serves es e hist s (next_op s) o (S (next_op s))); [done | right; done | by apply Hsend, (called_new _ _ _ hist) |].
    rewrite (dialogue_fresh _ _ _ _ Hg) by done. by apply Hk.
Qed.

Section Steps.
Context (EVP_EncodeBlock : bytes → option bytes).
Context (Hencode : ∀ d e, EVP_EncodeBlock d = Some e → no_line_end e).

Lemma connect_good es hist s opts :
  Good es hist s → Good (es ++ [CallConnect opts]) (hist ++ (connect opts s).1) (connect opts s).2.
Proof.
  intros Hg. unfold connect. apply (good_call es _ hist s (new_op opts no_message s_connect w_connect)); [done | done | by unfold called; intros -> |].
  intros s' Hc Hn _ _. unfold disconnect. cbn zeta.
  set (s1 := begin_op _ _ _). assert (next_op s1 = S (next_op s)) as Hn1 by done.
  match goal with |- context [let '(_, _) := ?x in _] => destruct x as [acts' s2] eqn:E end.
  apply serves_disconnected; [destruct (connection s'); auto |]. rewrite <- E. clear E acts' s2.
  destruct (options_ok opts) eqn:Eo; [| by apply finish_serves].
  split; [done |]. split; [by repeat constructor |]. split; [no_write |]. simpl.
  split_and!; try done. by exists (mkConn [] false).
Qed.

Lemma send_good es hist s m :
  Good es hist s → Good (es ++ [CallSend m]) (hist ++ (send m s).1) (send m s).2.
Proof.
  intros Hg. unfold send. apply (good_call es _ hist s (new_op no_options m s_mail w_write)); [done | done | by unfold called; intros -> |].
  intros s' Hc Hn Hk Ho. set (s1 := begin_op _ _ _). assert (next_op s1 = S (next_op s)) as Hn1 by done.
  destruct (negb (is_open s1) || _) eqn:E; [by apply finish_serves |].
  apply orb_false_iff in E as [_ [k Hk1]%negb_false_iff%bool_decide_eq_true].
  destruct (message_ok m) eqn:Em; cbn [negb]; [| by apply finish_serves].
  apply (write_serves _ _ _ [] (new_op no_options m s_mail w_write) k); try done. by intros _; apply mail_command_ok.
Qed.

Lemma quit_good es hist s :
  Good es hist s → Good (es ++ [CallQuit]) (hist ++ (quit s).1) (quit s).2.
Proof.
  intros Hg. unfold quit. apply (good_call es _ hist s (new_op no_options no_message s_quit w_write)); [done | done | by unfold called; intros -> |].
  intros s' Hc Hn Hk Ho. set (s1 := begin_op _ _ _). assert (next_op s1 = S (next_op s)) as Hn1 by done.
  destruct (negb _ || _) eqn:E; [by apply finish_serves |].
  apply orb_false_iff in E as [[k Hk1]%negb_false_iff%bool_decide_eq_true _].
  apply (write_serves _ _ _ [] (new_op no_options no_message s_quit w_write) k); try done. by intros _; apply plain_command.
Qed.

Lemma close_good es hist s : Good es hist s → Good (es ++ [CallClose]) (hist ++ (close s).1) (close s).2.
Proof.
  intros Hg. unfold close. destruct (current s) as [[id o] |] eqn:Hc.
  - destruct (g_cur _ _ _ Hg id o Hc) as (_ & _ & Hs & _).
    eapply (good_serves es _ hist s id o (next_op s)); [done | by left | by apply called_mono |].
    apply finish_serves; [done |]. by destruct (body_started o).
  - unfold disconnect. rewrite Hc. apply good_idle; [done | done | done |]. destruct (connection s); auto.
Qed.

(** A completion for an operation that is at work. *)
Lemma for_op_good es e hist s id w k :
  Good es hist s → is_call e = false →
  (∀ o c, w (wait o) = true → working id o (next_op s) o c s → conv id o c (dialogue id hist) →
     serves id o (next_op s) (dialogue id hist) (k o s)) →
  Good (es ++ [e]) (hist ++ (for_op id w k s).1) (for_op id w k s).2.
Proof.
  intros Hg He Hk. unfold for_op. destruct (current s) as [[i o] |] eqn:Hc; [| rewrite app_nil_r; by apply good_skip].
  destruct ((i =? id)%nat && w (wait o)) eqn:E; [| rewrite app_nil_r; by apply good_skip].
  apply andb_true_iff in E as [->%Nat.eqb_eq Hw].
  destruct (g_cur _ _ _ Hg id o Hc) as (_ & _ & Hs & c & Hcon & Hconv).
  eapply (good_serves es _ hist s id o (next_op s)); [done | by left | by apply called_mono |].
  apply (Hk o c); [done | by split_and! | done].
Qed.

Lemma working_conn id o0 n o k s f :
  working id o0 n o k s → working id o0 n o (f k) (set_conn f s).
Proof. intros (? & ? & Hk & ? & ?). unfold working, set_conn. cbn [next_op current connection]. rewrite Hk. by split_and!. Qed.

Lemma tls_done_serves id o k h s implicit :
  wait o = w_tls implicit → working id o (next_op s) o k s → options_ok (options o) = true →
  let s' := set_conn (λ k, mkConn (replies k) true) s in
  serves id o (next_op s) h
    (let '(acts, s'') := if bool_decide (wait o = w_tls true) then read_reply EVP_EncodeBlock true id (at_stage s_connect w_read o) s'
                         else ehlo id o s' in (TlsUp id :: acts, s'')).
Proof.
  intros Hw Hwork Hok s'. pose proof (working_conn id o (next_op s) o k s (λ k, mkConn (replies k) true) Hwork) as Hwork'.
  set (k' := mkConn (replies k) true) in Hwork'. fold s' in Hwork'.
  assert (∀ st, conv_run id (at_stage s_connect st o) k' (h ++ [TlsUp id])) as Hrun.
  { intros st. simpl. split; [done |]. split; [set_solver |]. done. }
  match goal with |- serves _ _ _ _ (let '(_, _) := ?x in _) => destruct x as [acts s2] eqn:E end.
  apply serves_cons; [by right |]. rewrite <- E, Hw. clear E acts s2. case_bool_decide.
  - eapply (read_reply_serves EVP_EncodeBlock Hencode id o _ true _ _ k'); [by exists o | done | done | apply Hrun].
  - destruct Hwork' as (? & ? & ? & ? & ?). apply (write_serves id o _ _ o k'); try done; [by intros _; apply ehlo_command_ok |].
    simpl. split; [done |]. split; [set_solver |]. done.
Qed.

Lemma on_event_good es hist s e :
  Good es hist s → Good (es ++ [e]) (hist ++ (on_event EVP_EncodeBlock e s).1) (on_event EVP_EncodeBlock e s).2.
Proof.
  intros Hg. destruct e as [opts | m | | | id err | id err | id err | id data | id]; cbn [on_event].
  - by apply connect_good.
  - by apply send_good.
  - by apply quit_good.
  - by apply close_good.
  - apply for_op_good; [done | done |]. intros o k Hw%bool_decide_eq_true Hwork Hconv. unfold conv in Hconv. rewrite <- Hw in Hconv.
    destruct Hconv as (Hst & Hok & Htls). destruct err; [by apply io_failed_serves, Hwork |].
    destruct (bool_decide (tls_mode _ = _)) eqn:Ei; [apply bool_decide_eq_true in Ei | apply bool_decide_eq_false in Ei].
    + destruct Hwork as (Hn & Hc & Hk & ? & ?). unfold handshake. split; [done |]. split; [by repeat constructor |].
      split; [no_write |]. unfold set_op. simpl. rewrite Hc. simpl. split_and!; try done. by exists k.
    + apply (read_reply_serves EVP_EncodeBlock Hencode id o _ true _ o k); [by exists o | done | done |].
      unfold conv_run. rewrite Hst. split; [done |]. rewrite Htls. split; [done |]. split; [done |]. by intros _ [? | ?].
  - apply for_op_good; [done | done |]. intros o k Hw Hwork Hconv. destruct (wait o) as [| b | |] eqn:Ew; try done.
    destruct err; [by apply io_failed_serves, Hwork |].
    unfold conv in Hconv. rewrite Ew in Hconv. rewrite <- Ew. by eapply tls_done_serves.
  - apply for_op_good; [done | done |]. intros o k Hw%bool_decide_eq_true Hwork Hconv. unfold conv in Hconv. rewrite <- Hw in Hconv.
    destruct err; [by apply io_failed_serves, Hwork |].
    by apply (read_reply_serves EVP_EncodeBlock Hencode id o _ true _ o k); [exists o | | |].
  - apply for_op_good; [done | done |]. intros o k Hw%bool_decide_eq_true Hwork Hconv. unfold conv in Hconv. rewrite <- Hw in Hconv.
    destruct data as [e | [| c d]]; [by apply io_failed_serves, Hwork | by apply io_failed_serves, Hwork |].
    pose proof (working_conn id o _ o k s (λ k, mkConn (replies k ++ c :: d) (tls k)) Hwork) as Hwork'.
    eapply (read_reply_serves EVP_EncodeBlock Hencode id o _ false _ o); [by exists o | done | done |]. by eapply conv_run_ext.
  - apply for_op_good; [done | done |]. intros o k _ Hwork Hconv. by apply io_failed_serves, Hwork.
Qed.

Lemma client_run_good es0 hist0 s0 es :
  Good es0 hist0 s0 → Good (es0 ++ es) (hist0 ++ (run EVP_EncodeBlock es s0).1) (run EVP_EncodeBlock es s0).2.
Proof.
  revert es0 hist0 s0. induction es as [| e es IH]; intros es0 hist0 s0 Hg; simpl; [by rewrite !app_nil_r |].
  pose proof (on_event_good es0 hist0 s0 e Hg) as H. destruct (on_event _ e s0) as [a1 s1]. simpl in H.
  specialize (IH (es0 ++ [e]) (hist0 ++ a1) s1 H). destruct (run _ es s1) as [a2 s2]. simpl in *.
  by rewrite <- !app_assoc in IH.
Qed.

Lemma new_good : Good [] [] new_client.
Proof.
  split; simpl; [intros a id Ha; by apply elem_of_nil in Ha | done | intros id Hid; lia | constructor | done |].
  intros i id w Hi. by rewrite lookup_nil in Hi.
Qed.
End Steps.

(** ** What the client guarantees *)

Section Theorems.
Context (EVP_EncodeBlock : bytes → option bytes).
Context (Hencode : ∀ d e, EVP_EncodeBlock d = Some e → no_line_end e).

Lemma reached es hist s : run EVP_EncodeBlock es new_client = (hist, s) → Good es hist s.
Proof. intros H. pose proof (client_run_good EVP_EncodeBlock Hencode [] [] new_client es new_good) as Hg. by rewrite H in Hg. Qed.

Lemma completed_ended es hist s id r :
  Good es hist s → Completed id r ∈ hist →
  ∃ pre, dialogue id hist = pre ++ [Completed id r] ∧ ended es id (dialogue id hist).
Proof.
  intros Hg Hin. assert (Completed id r ∈ dialogue id hist) as Hd.
  { apply list_elem_of_In, List.filter_In. split; [by apply list_elem_of_In | simpl; by rewrite Nat.eqb_refl]. }
  assert (id < next_op s)%nat as Hlt by (apply (g_new _ _ _ Hg (Completed id r)); [done | simpl; by rewrite Nat.eqb_refl]).
  assert (ended es id (dialogue id hist)) as He.
  { apply (g_done _ _ _ Hg); [done |]. intros o Hc. destruct (g_cur _ _ _ Hg id o Hc) as (_ & Hno & _).
    assert (existsb ends (dialogue id hist) = true); [| congruence]. apply existsb_exists.
    exists (Completed id r). split; [by apply list_elem_of_In | done]. }
  pose proof He as (pre & r' & Hh & Hno & _). exists pre. split; [| done]. rewrite Hh in Hd.
  apply elem_of_app in Hd as [Hd | Hd%list_elem_of_singleton]; [| congruence]. exfalso.
  assert (existsb ends pre = true); [| congruence]. apply existsb_exists. exists (Completed id r). split; [by apply list_elem_of_In | done].
Qed.

(** C9: Accepted means delivered.  Whatever the transport does and in whatever
    order calls, completions and timers arrive, an operation that ends with
    Accepted was the sending of a message, and on the wire it wrote MAIL with the
    sender, RCPT for each recipient in order, DATA and the framed body, nothing
    else, each after the reply 250 (251 for a recipient, 354 for DATA) to the
    command before, and the peer confirmed the body with 250; the result lists
    every recipient with its reply. *)
Theorem accepted_means_delivered es hist s id r :
  run EVP_EncodeBlock es new_client = (hist, s) → Completed id r ∈ hist → outcome r = Accepted →
  ∃ m, call_at es id = Some (CallSend m) ∧ (recipients r).*1 = to m ∧ Forall rcpt_accepted (recipients r) ∧
       dialogue id hist = delivered id m (recipients r) r.
Proof.
  intros Hrun Hin Ha. pose proof (reached _ _ _ Hrun) as Hg.
  destruct (completed_ended _ _ _ _ _ Hg Hin) as (pre & Hd & pre' & r' & Hd' & _ & Hdel).
  assert (r' = r) as -> by (rewrite Hd in Hd'; apply app_inj_tail in Hd' as [_ E]; by injection E).
  destruct (Hdel Ha) as (m & Hm & _ & ? & ? & ?). by exists m.
Qed.

(** Every call of the client is answered exactly once: an operation that is
    still at work has no result yet, every other one has exactly one, as the last
    thing that happens to it; and closing the connection or the deadline ends the
    operation at work, so none waits for ever. *)
Theorem one_completion es hist s :
  run EVP_EncodeBlock es new_client = (hist, s) →
  (∀ id, (id < length (calls es))%nat →
     length (List.filter ends (dialogue id hist)) = if bool_decide (fst <$> current s = Some id) then 0%nat else 1%nat) ∧
  (∀ id, (length (calls es) ≤ id)%nat → dialogue id hist = []) ∧
  current (on_event EVP_EncodeBlock CallClose s).2 = None ∧
  (∀ id, fst <$> current s = Some id → current (on_event EVP_EncodeBlock (Deadline id) s).2 = None).
Proof.
  intros Hrun. pose proof (reached _ _ _ Hrun) as Hg. rewrite <- (g_calls _ _ _ Hg).
  assert (∀ l, existsb ends l = false → List.filter ends l = []) as Hnone.
  { induction l as [| a l IH]; [done |]. simpl. intros [-> ?]%orb_false_iff. auto. }
  split_and!.
  - intros id Hid. case_bool_decide as Hc.
    + destruct (current s) as [[i o] |] eqn:E; [| done]. injection Hc as ->.
      destruct (g_cur _ _ _ Hg id o E) as (_ & Hno & _). by rewrite Hnone.
    + destruct (g_done _ _ _ Hg id Hid) as (pre & r & -> & Hno & _); [intros o E; by rewrite E in Hc |].
      rewrite List.filter_app, Hnone by done. done.
  - intros id Hid. by apply (dialogue_fresh _ _ _ _ Hg).
  - cbn [on_event]. unfold close. destruct (current s) as [[i o] |] eqn:E; [| done].
    unfold finish. by destruct (disconnect s).
  - intros id Hc. destruct (current s) as [[i o] |] eqn:E; [| done]. injection Hc as ->. cbn [on_event]. unfold for_op.
    rewrite E, Nat.eqb_refl. cbn [andb]. unfold io_failed, finish. by destruct (disconnect s).
Qed.

(** C36: What a caller puts into host names, addresses and credentials cannot add
    a command: everything the client writes except the framed body is one line,
    ended by the only line end in it. *)
Theorem commands_well_formed es hist s id st wire :
  run EVP_EncodeBlock es new_client = (hist, s) → AWrite id st wire ∈ hist → st ≠ s_body →
  ∃ l, wire = l ++ CRLF ∧ CR ∉ l ∧ LF ∉ l.
Proof.
  intros Hrun Hin Hst. pose proof (g_write _ _ _ (reached _ _ _ Hrun)) as Hw.
  rewrite list.Forall_forall in Hw. exact (Hw _ Hin Hst).
Qed.

(** C16: When the options ask for TLS, implicit or by STARTTLS, credentials are
    written only after the handshake of that connection has succeeded. *)
Theorem credentials_after_tls es hist s i id wire opts :
  run EVP_EncodeBlock es new_client = (hist, s) → hist !! i = Some (AWrite id s_credentials wire) →
  call_at es id = Some (CallConnect opts) → tls_mode opts ≠ tls_none → TlsUp id ∈ take i hist.
Proof.
  intros Hrun Hi Hc Ht. destruct (g_secure _ _ _ (reached _ _ _ Hrun) i id wire Hi) as (c & Hc' & Hup).
  rewrite Hc in Hc'. injection Hc' as <-. by apply (Hup opts).
Qed.
End Theorems.

(** ** The framed body *)

(** A receiver takes away the first dot of a line. *)
Fixpoint unstuff (start : bool) (s : bytes) : bytes :=
  match s with
  | [] => []
  | c :: s => if start && (c =? 46) then unstuff false s else c :: unstuff (c =? LF) s
  end.

(** A line of [s] begins with a dot that no second dot follows, so that it could
    be taken for the end of the message. *)
Fixpoint lone_dot (start : bool) (s : bytes) : bool :=
  match s with
  | [] => false
  | c :: s => (start && (c =? 46) && negb (bool_decide (head s = Some 46))) || lone_dot (c =? LF) s
  end.

Definition line_start (prev : option Z) : bool := match prev with None => true | Some p => p =? LF end.

Lemma unstuff_loop prev body :
  unstuff (line_start prev) (dot_stuff_loop prev body) = body.
Proof.
  revert prev. induction body as [| c body IH]; intros prev; [done |]. cbn [dot_stuff_loop].
  destruct (Z.eqb_spec c 46) as [-> | Hc].
  - destruct prev as [p |]; cbn [line_start andb].
    + destruct (p =? LF) eqn:Ep; cbn [app unstuff]; rewrite ?Ep; simpl; f_equal; apply (IH (Some 46)).
    + simpl. f_equal. apply (IH (Some 46)).
  - cbn [andb app]. cbn [unstuff]. rewrite (proj2 (Z.eqb_neq c 46)) by done. rewrite andb_false_r. f_equal. apply (IH (Some c)).
Qed.

Lemma unstuff_app start a b : head b ≠ Some 46 → unstuff start (a ++ b) = unstuff start a ++ unstuff false b.
Proof.
  intros Hb. revert start. induction a as [| c a IH]; intros start; simpl.
  - destruct b as [| c b]; [done |]. simpl in *. destruct (Z.eqb_spec c 46) as [-> | ?]; [done |]. by rewrite andb_false_r.
  - destruct (start && (c =? 46)); [apply IH |]. simpl. f_equal. apply IH.
Qed.

Lemma lone_dot_stuffed prev body tail :
  head tail ≠ Some 46 → lone_dot (line_start prev) (dot_stuff_loop prev body ++ tail) = lone_dot false tail.
Proof.
  intros Ht. revert prev. induction body as [| c body IH]; intros prev; cbn [dot_stuff_loop app].
  - destruct tail as [| c tail]; [done |]. simpl in *. destruct (Z.eqb_spec c 46) as [-> | ?]; [done |]. by rewrite andb_false_r.
  - destruct (Z.eqb_spec c 46) as [-> | Hc].
    + fold (line_start prev). destruct (line_start prev); cbn [andb app lone_dot head].
      * rewrite bool_decide_true by done. simpl. apply (IH (Some 46)).
      * simpl. apply (IH (Some 46)).
    + cbn [andb app lone_dot]. rewrite (proj2 (Z.eqb_neq c 46)) by done. rewrite andb_false_r. simpl. apply (IH (Some c)).
Qed.

(** The framed body ends where the frame ends, and nowhere before: the text in
    front of the final dot has no line that begins with a lone dot, whatever line
    ends it uses, and a receiver that takes the first dot of every line away gets
    the body back, with a line end added when it had none. *)
Theorem data_frame_transparent body :
  ∃ tail text, (tail = [] ∨ tail = CRLF) ∧ data_frame body = text ++ s! "." ++ CRLF ∧
    drop (length text - 2) text = CRLF ∧ lone_dot true text = false ∧ unstuff true text = body ++ tail.
Proof.
  unfold data_frame. set (out := dot_stuff body).
  destruct ((length out <? 2)%nat || negb (bool_decide (drop (length out - 2) out = CRLF))) eqn:E.
  - exists CRLF, (out ++ CRLF). split; [by right |]. split; [done |]. split; [| split].
    + rewrite length_app. simpl. by rewrite Nat.add_sub, drop_app_length.
    + by apply (lone_dot_stuffed None).
    + rewrite unstuff_app by done. f_equal. apply (unstuff_loop None).
  - apply orb_false_iff in E as [_ E%negb_false_iff%bool_decide_eq_true]. exists [], out. split; [by left |]. split; [done |].
    split; [done |]. split.
    + rewrite <- (app_nil_r out). by apply (lone_dot_stuffed None).
    + rewrite app_nil_r. apply (unstuff_loop None).
Qed.

(** ** A session *)

Definition toy_encode (d : bytes) : option bytes := Some (s! "AHVzZXIAcHc=").

Lemma toy_encode_ok d e : toy_encode d = Some e → no_line_end e.
Proof. intros [= <-]. split; refine (bool_decide_unpack _ _); vm_compute; exact I. Qed.

Definition toy_message : Message := mkMessage (s! "ann@shop.org") [s! "bob@b.net"; s! "eve@b.net"] (Some (s! "Subject: x" ++ CRLF ++ CRLF ++ s! ".hi")) 30000.

Definition toy_options : ConnectOptions := mkOptions (s! "mx.b.net") 587 (s! "shop.org") StartTlsRequired (s! "user") (Some (s! "pw")) 15000.

(** The peer's replies arrive in pieces of any size. *)
Definition toy_events : list Event :=
  [CallConnect toy_options; Connected 0 None; ReadDone 0 (inr (s! "220 mx re")); ReadDone 0 (inr (s! "ady" ++ CRLF));
   Wrote 0 None; ReadDone 0 (inr (s! "250-mx" ++ CRLF ++ s! "250 starttls" ++ CRLF));
   Wrote 0 None; ReadDone 0 (inr (s! "220 go" ++ CRLF)); TlsDone 0 None;
   Wrote 0 None; ReadDone 0 (inr (s! "250-mx" ++ CRLF ++ s! "250 AUTH LOGIN PLAIN" ++ CRLF));
   Wrote 0 None; ReadDone 0 (inr (s! "334 " ++ CRLF)); Wrote 0 None; ReadDone 0 (inr (s! "235 ok" ++ CRLF));
   CallSend toy_message; Wrote 1 None; ReadDone 1 (inr (s! "250 ok" ++ CRLF)); Wrote 1 None; CallQuit;
   ReadDone 1 (inr (s! "250 ok" ++ CRLF)); Wrote 1 None; ReadDone 1 (inr (s! "251 forwarded" ++ CRLF));
   Wrote 1 None; ReadDone 1 (inr (s! "354 go" ++ CRLF)); Wrote 1 None; ReadDone 1 (inr (s! "250" ++ CRLF))].

Definition toy_history : list Action := (run toy_encode toy_events new_client).1.

Definition toy_result : Result :=
  mkResult Accepted 250 s_body [] [(s! "bob@b.net", 250); (s! "eve@b.net", 251)] true.

Lemma accepted_means_delivered_witness :
  Completed 1 toy_result ∈ toy_history ∧
  ∃ m, call_at toy_events 1 = Some (CallSend m) ∧ (recipients toy_result).*1 = to m ∧
       Forall rcpt_accepted (recipients toy_result) ∧ dialogue 1 toy_history = delivered 1 m (recipients toy_result) toy_result.
Proof.
  assert (Completed 1 toy_result ∈ toy_history) as Hin.
  { apply list_elem_of_lookup. exists (length toy_history - 1)%nat. vm_compute. reflexivity. }
  split; [exact Hin |].
  refine (accepted_means_delivered toy_encode toy_encode_ok toy_events toy_history (run toy_encode toy_events new_client).2 1 toy_result _ Hin _).
  - vm_compute. reflexivity.
  - reflexivity.
Defined.

Lemma one_completion_witness :
  length (List.filter ends (dialogue 0 toy_history)) = 1%nat ∧ length (List.filter ends (dialogue 2 toy_history)) = 1%nat.
Proof.
  destruct (one_completion toy_encode toy_encode_ok toy_events toy_history (run toy_encode toy_events new_client).2) as [H _];
    [vm_compute; reflexivity |].
  split; [rewrite (H 0%nat) | rewrite (H 2%nat)]; vm_compute; first [reflexivity | lia].
Defined.

Lemma commands_well_formed_witness :
  ∃ l, mail_command toy_message = l ++ CRLF ∧ CR ∉ l ∧ LF ∉ l.
Proof.
  refine (commands_well_formed toy_encode toy_encode_ok toy_events toy_history (run toy_encode toy_events new_client).2 1 s_mail
            (mail_command toy_message) _ _ _).
  - vm_compute. reflexivity.
  - apply list_elem_of_lookup. exists 22%nat. vm_compute. reflexivity.
  - done.
Defined.

Lemma credentials_after_tls_witness : TlsUp 0 ∈ take 18 toy_history.
Proof.
  refine (credentials_after_tls toy_encode toy_encode_ok toy_events toy_history (run toy_encode toy_events new_client).2 18 0
            (s! "AHVzZXIAcHc=" ++ CRLF) toy_options _ _ _ _).
  - vm_compute. reflexivity.
  - vm_compute. reflexivity.
  - reflexivity.
  - done.
Defined.
