(* ===== verification/Outbox.v ===== *)
(** * The delivery queue in the database

    Models [outbound/outbox_repository.cpp] over the table [mail_outbox] and the
    statements of [db/sql_queries.cpp] that concern it.  A statement is a value
    ([Stmt]) and [exec_stmt] is what the database does with it at a given time:
    one statement is atomic, and answers with the rows it changed.

    A connection is a sequence of calls.  [fault] says which of them fail and
    with which message, [now] at which time they run, and [others] which commands
    the other connections run just before: all interleavings of several workers
    are instances of it. *)

From S2P Require Import Prelude CString LruCache LineFolder SmtpText.

(** ** The table *)

Inductive OutboxStatus := PENDING | SENDING | SENT | RETRY | DEAD.

#[export] Instance OutboxStatus_eq_dec : EqDecision OutboxStatus.
Proof. solve_decision. Defined.

(** The value of the enumeration, as the column holds it. *)
Definition status_code (s : OutboxStatus) : Z :=
  match s with PENDING => 0 | SENDING => 1 | SENT => 2 | RETRY => 3 | DEAD => 4 end.

Record OutboxRecord := mkRecord {
  rec_id : Z;
  rec_mail_id : Z;
  rec_sender : bytes;
  rec_recipient : bytes;
  rec_body_path : bytes;
  rec_attempt_count : Z;
  rec_max_attempts : Z;
}.

Record Row := mkRow {
  o_mail_id : Z;
  o_sender : bytes;
  o_recipient : bytes;
  o_status : OutboxStatus;
  o_priority : Z;
  o_attempts : Z;
  o_max : Z;
  o_next : Z;
  o_owner : option bytes;
  o_lease : option Z;
  o_error : option bytes;
  o_response : option bytes;
  o_sent_at : option Z;
}.

(** The rows by id, and the id of the next row. *)
Record Table := mkTable { rows : gmap Z Row; auto_increment : Z }.

Definition empty_table : Table := mkTable ∅ 1.

(** ** The statements *)

Inductive Stmt :=
  | Insert (row : Z → Row)
  | Update (where_ : Z → Z → Row → bool) (set : Z → Row → Row).

(** The table after a statement at [now], and the number of rows it changed. *)
Definition exec_stmt (now : Z) (s : Stmt) (t : Table) : Table * Z :=
  match s with
  | Insert row => (mkTable (<[auto_increment t := row now]> (rows t)) (auto_increment t + 1), 1)
  | Update where_ set =>
      (mkTable (map_imap (λ i r, Some (if where_ now i r then set now r else r)) (rows t)) (auto_increment t),
       Z.of_nat (length (List.filter (λ ir, where_ now ir.1 ir.2) (map_to_list (rows t)))))
  end.

Definition open_status (s : OutboxStatus) : bool := match s with PENDING | RETRY => true | _ => false end.

(** [lease_until IS NULL OR lease_until <= NOW()] *)
Definition lease_free (now : Z) (r : Row) : bool := match o_lease r with None => true | Some until => until <=? now end.

Definition build_insert_outbox_pending (mail_id : Z) (sender recipient : bytes) (max_attempts : Z) : Stmt :=
  Insert (λ now, mkRow mail_id sender recipient PENDING 0 0 max_attempts now None None None None None).

Definition build_insert_outbox_reserved (mail_id : Z) (sender recipient lease_owner : bytes) (lease_seconds : Z) : Stmt :=
  Insert (λ now, mkRow mail_id sender recipient SENDING 0 1 8 now (Some lease_owner) (Some (now + Z.max 1 lease_seconds)) None None None).

Definition build_outbox_claim_update (outbox_id : Z) (worker_id : bytes) (lease_seconds : Z) : Stmt :=
  Update (λ now i r, (i =? outbox_id) && open_status (o_status r) && lease_free now r)
    (λ now r, mkRow (o_mail_id r) (o_sender r) (o_recipient r) SENDING (o_priority r) (o_attempts r + 1) (o_max r) (o_next r)
                (Some worker_id) (Some (now + lease_seconds)) (o_error r) (o_response r) (o_sent_at r)).

Definition build_outbox_release_reservations (outbox_ids : list Z) : Stmt :=
  Update (λ _ i r, bool_decide (i ∈ outbox_ids) && bool_decide (o_status r = SENDING))
    (λ _ r, mkRow (o_mail_id r) (o_sender r) (o_recipient r) PENDING (o_priority r) (Z.max (o_attempts r - 1) 0) (o_max r) (o_next r)
              None None (o_error r) (o_response r) (o_sent_at r)).

Definition build_outbox_mark_sent (outbox_id : Z) (smtp_response : bytes) : Stmt :=
  Update (λ _ i _, i =? outbox_id)
    (λ now r, mkRow (o_mail_id r) (o_sender r) (o_recipient r) SENT (o_priority r) (o_attempts r) (o_max r) (o_next r)
                None None (o_error r) (Some smtp_response) (Some now)).

Definition build_outbox_mark_retry_or_dead (outbox_id : Z) (status : OutboxStatus) (error_message : bytes) (retry_delay_seconds : Z) : Stmt :=
  Update (λ _ i _, i =? outbox_id)
    (λ now r, mkRow (o_mail_id r) (o_sender r) (o_recipient r) status (o_priority r) (o_attempts r) (o_max r)
                (now + Z.max 1 retry_delay_seconds) None None (Some error_message) (o_response r) (o_sent_at r)).

Definition build_outbox_mark_dead (outbox_id : Z) (error_message : bytes) : Stmt :=
  Update (λ _ i _, i =? outbox_id)
    (λ now r, mkRow (o_mail_id r) (o_sender r) (o_recipient r) DEAD (o_priority r) (o_attempts r) (o_max r) (o_next r)
                None None (Some error_message) (o_response r) (o_sent_at r)).

Definition build_outbox_requeue_expired_leases : Stmt :=
  Update (λ now _ r, bool_decide (o_status r = SENDING) && match o_lease r with Some until => until <=? now | None => false end)
    (λ now r, mkRow (o_mail_id r) (o_sender r) (o_recipient r) RETRY (o_priority r) (o_attempts r) (o_max r) now
                None None (o_error r) (o_response r) (o_sent_at r)).

(** ** Queries *)

(** [ORDER BY o.priority DESC, o.id ASC] *)
Fixpoint insert_row (ir : Z * Row) (l : list (Z * Row)) : list (Z * Row) :=
  match l with
  | [] => [ir]
  | jr :: l' =>
      if (o_priority jr.2 <? o_priority ir.2) || ((o_priority jr.2 =? o_priority ir.2) && (ir.1 <? jr.1))
      then ir :: l else jr :: insert_row ir l'
  end.

Definition due (now : Z) (r : Row) : bool := open_status (o_status r) && (o_next r <=? now) && lease_free now r.

Definition build_outbox_claim_select (limit : nat) (now : Z) (t : Table) : list (Z * Row) :=
  take limit (foldr insert_row [] (List.filter (λ ir, due now ir.2) (map_to_list (rows t)))).

Definition build_outbox_select_attempts (outbox_id : Z) (t : Table) : option (Z * Z) :=
  r ← rows t !! outbox_id; Some (o_attempts r, o_max r).

(** ** Commands

    A statement as the code builds it; the history of the table is the list of
    the commands of all connections, in the order the database runs them. *)

Inductive Cmd :=
  | Enqueue (mail_id : Z) (sender recipient : bytes) (max_attempts : Z)
  | Reserve (mail_id : Z) (sender recipient lease_owner : bytes) (lease_seconds : Z)
  | Claim (outbox_id : Z) (worker_id : bytes) (lease_seconds : Z)
  | Release (outbox_ids : list Z)
  | MarkSent (outbox_id : Z) (smtp_response : bytes)
  | MarkRetry (outbox_id : Z) (dead : bool) (error_message : bytes) (retry_delay_seconds : Z)
  | MarkDead (outbox_id : Z) (error_message : bytes)
  | Requeue.

Definition stmt_of (c : Cmd) : Stmt :=
  match c with
  | Enqueue m s r n => build_insert_outbox_pending m s r n
  | Reserve m s r o l => build_insert_outbox_reserved m s r o l
  | Claim i w l => build_outbox_claim_update i w l
  | Release ids => build_outbox_release_reservations ids
  | MarkSent i r => build_outbox_mark_sent i r
  | MarkRetry i dead e n => build_outbox_mark_retry_or_dead i (if dead then DEAD else RETRY) e n
  | MarkDead i e => build_outbox_mark_dead i e
  | Requeue => build_outbox_requeue_expired_leases
  end.

Definition run_cmd (t : Table) (c : Z * Cmd) : Table := (exec_stmt c.1 (stmt_of c.2) t).1.

(** ** The connection *)

(** The table, the calls made so far, the rows the last statement changed, and
    what the database did meanwhile: each command with whether it came from this
    connection. *)
Record Db := mkDb { table : Table; calls : nat; row_count : Z; journal : list (bool * (Z * Cmd)) }.

Definition run_entry (t : Table) (e : bool * (Z * Cmd)) : Table := run_cmd t e.2.

Definition kDefaultMaxAttempts : Z := 8.
Definition kDeadlockRetryMaxAttempts : nat := 3.

Definition is_deadlock_error (error_message : bytes) : bool :=
  bool_decide (is_Some (find_sub (s! "Deadlock found") error_message)) ||
  bool_decide (is_Some (find_sub (s! "errno: 1213") error_message)) ||
  bool_decide (is_Some (find_sub (s! "ERROR 1213") error_message)).

(** [extract_domain] *)
Definition extract_domain (email : bytes) : bytes :=
  match find_char AT email with
  | None => []
  | Some at_pos => if (length email <=? at_pos + 1)%nat then [] else drop (at_pos + 1) email
  end.

Section Connection.
Context (fault : nat → option bytes) (now : nat → Z) (others : nat → list (Z * Cmd)).

(** What the other connections do before the next call. *)
Definition interfere (d : Db) : Db :=
  let h := pair false <$> others (calls d) in
  mkDb (foldl run_entry (table d) h) (calls d) (row_count d) (journal d ++ h).

(** A statement: an error message, or done. *)
Definition execute (c : Cmd) (d : Db) : option bytes * Db :=
  let d := interfere d in
  match fault (calls d) with
  | Some error => (Some error, mkDb (table d) (S (calls d)) (-1) (journal d))
  | None =>
      let '(t, n) := exec_stmt (now (calls d)) (stmt_of c) (table d) in
      (None, mkDb t (S (calls d)) n (journal d ++ [(true, (now (calls d), c))]))
  end.

Definition query {A} (q : Z → Table → A) (d : Db) : option A * Db :=
  let d := interfere d in
  (match fault (calls d) with Some _ => None | None => Some (q (now (calls d)) (table d)) end,
   mkDb (table d) (S (calls d)) (row_count d) (journal d)).

(** The loop from [attempt] on, [rounds] before the last one is reached. *)
Fixpoint retry_loop (rounds : nat) (c : Cmd) (d : Db) : bool * Db :=
  let '(r, d) := execute c d in
  match r with
  | None => (true, d)
  | Some error =>
      match rounds with
      | O => (false, d)
      | S rounds => if is_deadlock_error error then retry_loop rounds c d else (false, d)
      end
  end.

Definition execute_with_deadlock_retry (c : Cmd) (d : Db) : bool * Db := retry_loop (kDeadlockRetryMaxAttempts - 1) c d.

(** The recipients of a mail with an address elsewhere become rows; the ids
    asked for are those the connection could read back. *)
Fixpoint enqueue_loop (mail_id : Z) (from : bytes) (to_ : list bytes) (local_domain : bytes) (d : Db) : bool * list Z * Db :=
  match to_ with
  | [] => (false, [], d)
  | recipient :: to_ =>
      let recipient_domain := extract_domain recipient in
      if bool_decide (recipient_domain = [] ∨ recipient_domain = local_domain) then enqueue_loop mail_id from to_ local_domain d else
      match execute (Enqueue mail_id from recipient kDefaultMaxAttempts) d with
      | (Some _, d) => enqueue_loop mail_id from to_ local_domain d
      | (None, d) =>
          let last := (auto_increment (table d) - 1)%Z in
          let '(id, d) := query (λ _ _, last) d in
          let '(_, ids, d) := enqueue_loop mail_id from to_ local_domain d in
          (true, match id with Some i => i :: ids | None => ids end, d)
      end
  end.

Definition enqueue_from_mail (connected : bool) (mail_id : Z) (from : bytes) (to_ : list bytes) (local_domain : bytes) (d : Db)
  : bool * list Z * Db :=
  if connected then enqueue_loop mail_id from to_ local_domain d else (false, [], d).

(** [body_path] is the column of the table of mails. *)
Definition record_of (body_path : Z → option bytes) (i : Z) (r : Row) : OutboxRecord :=
  mkRecord i (o_mail_id r) (o_sender r) (o_recipient r) (default [] (body_path (o_mail_id r))) (o_attempts r + 1) (o_max r).

Fixpoint claim_loop (body_path : Z → option bytes) (worker_id : bytes) (lease_seconds : Z) (selected : list (Z * Row)) (d : Db)
  : list OutboxRecord * Db :=
  match selected with
  | [] => ([], d)
  | (i, r) :: selected =>
      let '(ok, d) := execute_with_deadlock_retry (Claim i worker_id lease_seconds) d in
      if negb ok then claim_loop body_path worker_id lease_seconds selected d else
      let changed := row_count d in
      let '(affected, d) := query (λ _ _, changed) d in
      let '(claimed, d) := claim_loop body_path worker_id lease_seconds selected d in
      (match affected with
       | Some n => if 0 <? n then record_of body_path i r :: claimed else claimed
       | None => claimed
       end, d)
  end.

Definition claim_batch (connected : bool) (body_path : Z → option bytes) (worker_id : bytes) (limit : nat) (lease_seconds : Z) (d : Db)
  : list OutboxRecord * Db :=
  if (limit =? 0)%nat || negb connected then ([], d) else
  let '(result, d) := query (build_outbox_claim_select limit) d in
  match result with
  | None => ([], d)
  | Some selected => claim_loop body_path worker_id lease_seconds selected d
  end.

Definition release_local_reservations (connected : bool) (outbox_ids : list Z) (d : Db) : bool * Db :=
  match outbox_ids with
  | [] => (true, d)
  | _ => if negb connected then (false, d) else
         let '(r, d) := execute (Release outbox_ids) d in (bool_decide (r = None), d)
  end.

Definition mark_sent (connected : bool) (outbox_id : Z) (smtp_response : bytes) (d : Db) : bool * Db :=
  if connected then execute_with_deadlock_retry (MarkSent outbox_id smtp_response) d else (false, d).

Definition mark_retry (connected : bool) (outbox_id : Z) (error_message : bytes) (retry_delay_seconds : Z) (d : Db) : bool * Db :=
  if negb connected then (false, d) else
  let '(result, d) := query (λ _, build_outbox_select_attempts outbox_id) d in
  let dead := match result with
              | Some (Some (attempts, max_attempts)) => max_attempts <=? attempts
              | _ => false
              end in
  execute_with_deadlock_retry (MarkRetry outbox_id dead error_message retry_delay_seconds) d.

Definition mark_dead (connected : bool) (outbox_id : Z) (error_message : bytes) (d : Db) : bool * Db :=
  if connected then execute_with_deadlock_retry (MarkDead outbox_id error_message) d else (false, d).

Definition requeue_expired_leases (connected : bool) (d : Db) : bool * Db :=
  if connected then execute_with_deadlock_retry Requeue d else (false, d).
End Connection.

(** ** One statement *)

Lemma exec_update_lookup now where_ set t i :
  rows (exec_stmt now (Update where_ set) t).1 !! i = (λ r, if where_ now i r then set now r else r) <$> rows t !! i.
Proof. cbn. rewrite map_lookup_imap. by destruct (rows t !! i). Qed.

Lemma exec_update_next now where_ set t : auto_increment (exec_stmt now (Update where_ set) t).1 = auto_increment t.
Proof. done. Qed.

(** An update of one row by its id changes it or nothing. *)
Lemma exec_update_count now where_ set t i :
  (∀ j r, where_ now j r = true → j = i) →
  (exec_stmt now (Update where_ set) t).2 = match rows t !! i with Some r => if where_ now i r then 1 else 0 | None => 0 end.
Proof.
  intros Hi. cbn.
  assert (∀ l : list (Z * Row), NoDup l.*1 → (∀ j r, (j, r) ∈ l → rows t !! j = Some r) →
    Z.of_nat (length (List.filter (λ ir, where_ now ir.1 ir.2) l))
    = match rows t !! i with Some r => if where_ now i r && bool_decide (i ∈ l.*1) then 1 else 0 | None => 0 end) as Hl.
  { induction l as [| [j r] l IH]; intros Hnd Hin; [destruct (rows t !! i); by rewrite ?andb_false_r |].
    rewrite fmap_cons in Hnd. cbn [fst] in Hnd. apply list.NoDup_cons in Hnd as [Hj Hnd].
    assert (IHl := IH Hnd (λ j' r' H, Hin j' r' (list_elem_of_further _ _ _ H))). cbn [List.filter fst snd].
    pose proof (Hin j r (list_elem_of_here _ _)) as Hr. destruct (where_ now j r) eqn:Ew.
    - pose proof (Hi j r Ew) as ->. rewrite Hr in IHl |- *. cbn [length]. rewrite (bool_decide_false (i ∈ l.*1)) in IHl by done.
      rewrite andb_false_r in IHl. rewrite Ew, bool_decide_true by (rewrite fmap_cons; left). cbn [andb]. lia.
    - rewrite IHl. destruct (rows t !! i) as [r'|] eqn:Er; [| done]. rewrite fmap_cons. cbn [fst].
      destruct (decide (i = j)) as [-> | Hne].
      + assert (r' = r) as -> by congruence. by rewrite Ew.
      + rewrite (bool_decide_ext (i ∈ l.*1) (i ∈ j :: l.*1)); [done |]. rewrite elem_of_cons. naive_solver. }
  rewrite Hl.
  - destruct (rows t !! i) as [r|] eqn:Er; [| done]. rewrite bool_decide_true; [by rewrite andb_true_r |].
    apply list_elem_of_fmap. exists (i, r). split; [done |]. by apply elem_of_map_to_list.
  - apply NoDup_fst_map_to_list.
  - intros j r. by rewrite elem_of_map_to_list.
Qed.

(** ** Claims in a history *)

(** A claim of the row that the database confirms. *)
Definition claims (id : Z) (t : Table) (c : Z * Cmd) : nat :=
  match c.2 with
  | Claim i _ _ => if (i =? id) && (0 <? (exec_stmt c.1 (stmt_of c.2) t).2) then 1 else 0
  | _ => 0
  end.

(** The claims of the row by this connection ([ours]) or by the others. *)
Fixpoint claim_count (ours : bool) (id : Z) (t : Table) (h : list (bool * (Z * Cmd))) : nat :=
  match h with
  | [] => 0
  | e :: h => (if bool_decide (e.1 = ours) then claims id t e.2 else 0) + claim_count ours id (run_entry t e) h
  end.

(** The commands that open the row again. *)
Definition reopens (id : Z) (c : Z * Cmd) : bool :=
  match c.2 with
  | Release ids => bool_decide (id ∈ ids)
  | MarkRetry i dead _ _ => (i =? id) && negb dead
  | Requeue => true
  | _ => false
  end.

Definition ids_below (t : Table) : Prop := ∀ i r, rows t !! i = Some r → i < auto_increment t.

(** How often the row can still be claimed before it is opened again. *)
Definition claimable (id : Z) (t : Table) : nat :=
  match rows t !! id with
  | Some r => if open_status (o_status r) then 1 else 0
  | None => if auto_increment t <=? id then 1 else 0
  end.

Lemma run_cmd_ids t c : ids_below t → ids_below (run_cmd t c).
Proof.
  intros H. unfold run_cmd, ids_below. destruct c as [now []]; cbn; intros j r;
    try (rewrite map_lookup_imap; destruct (rows t !! j) eqn:E; intros Hr; [| done]; by apply (H j _ E)).
  all: destruct (decide (j = auto_increment t)) as [-> | Hne]; [lia |]; rewrite lookup_insert_ne by done; intros Hr;
    specialize (H j r Hr); lia.
Qed.

Lemma update_claimable now w set t id k :
  (∀ r, rows t !! id = Some r → w now id r = true → open_status (o_status (set now r)) = true → (1 ≤ k)%nat) →
  (claimable id (exec_stmt now (Update w set) t).1 ≤ claimable id t + k)%nat.
Proof.
  intros H. unfold claimable. rewrite exec_update_lookup, exec_update_next. destruct (rows t !! id) as [r|] eqn:E; cbn [fmap option_fmap option_map].
  - destruct (w now id r) eqn:Ew; [| lia]. destruct (open_status (o_status (set now r))) eqn:Eo; [| lia]. specialize (H r eq_refl Ew Eo). lia.
  - lia.
Qed.

Lemma insert_claimable now row t id : ids_below t → (claimable id (exec_stmt now (Insert row) t).1 ≤ claimable id t)%nat.
Proof.
  intros H. unfold claimable. cbn. destruct (decide (id = auto_increment t)) as [-> | Hne].
  - rewrite lookup_insert_eq. destruct (rows t !! auto_increment t) eqn:E; [specialize (H _ _ E); lia |].
    rewrite Z.leb_refl. destruct (open_status _); lia.
  - rewrite lookup_insert_ne by done. destruct (rows t !! id); [lia |].
    destruct (Z.leb_spec (auto_increment t + 1) id), (Z.leb_spec (auto_increment t) id); lia.
Qed.

Lemma step_claimable id t c :
  ids_below t → (claims id t c + claimable id (run_cmd t c) ≤ claimable id t + (if reopens id c then 1 else 0))%nat.
Proof.
  intros H. destruct c as [now c]. unfold run_cmd, claims, reopens. cbn [fst snd].
  destruct c as [m s r n | m s r o l | i w l | ids | i r | i dead e n | i e |]; cbn [stmt_of].
  - unfold build_insert_outbox_pending. pose proof (insert_claimable now (λ now0, mkRow m s r PENDING 0 0 n now0 None None None None None) t id H). lia.
  - unfold build_insert_outbox_reserved.
    pose proof (insert_claimable now (λ now0, mkRow m s r SENDING 0 1 8 now0 (Some o) (Some (now0 + Z.max 1 l)) None None None) t id H). lia.
  - unfold build_outbox_claim_update. rewrite (exec_update_count _ _ _ _ i) by (intros j r0; lia). unfold claimable at 1.
    rewrite exec_update_lookup, exec_update_next. unfold claimable. destruct (Z.eqb_spec i id) as [-> | Hne].
    + rewrite Z.eqb_refl. cbn [andb]. destruct (rows t !! id) as [r|]; cbn; [| lia].
      destruct (open_status (o_status r)) eqn:Eo, (lease_free now r); cbn; rewrite ?Eo; lia.
    + cbn [andb]. destruct (rows t !! id) as [r|]; cbn; [| lia].
      rewrite (proj2 (Z.eqb_neq id i)) by congruence. cbn. lia.
  - apply update_claimable. intros r0 Hr Hw _. apply andb_true_iff in Hw as [Hw _]. rewrite Hw. lia.
  - apply update_claimable. intros r0 Hr Hw Ho. done.
  - apply update_claimable. intros r0 Hr Hw Ho. cbn in Ho. apply Z.eqb_eq in Hw as ->. rewrite Z.eqb_refl. destruct dead; [done |]. cbn. lia.
  - apply update_claimable. intros r0 Hr Hw Ho. done.
  - apply update_claimable. intros r0 Hr Hw Ho. lia.
Qed.

Definition reopen_count (id : Z) (h : list (bool * (Z * Cmd))) : nat := length (List.filter (λ e, reopens id e.2) h).

Lemma history_claims id t h :
  ids_below t → (claim_count true id t h + claim_count false id t h ≤ claimable id t + reopen_count id h)%nat.
Proof.
  unfold reopen_count. revert t. induction h as [| [ours c] h IH]; intros t Ht; cbn [claim_count List.filter]; [cbn; lia |].
  specialize (IH (run_entry t (ours, c)) (run_cmd_ids t c Ht)). pose proof (step_claimable id t c Ht) as Hs.
  unfold run_entry in *. cbn [snd fst] in *. destruct ours; repeat case_bool_decide; try done;
    destruct (reopens id c); cbn [length]; lia.
Qed.

(** ** What a connection adds to the history *)

Lemma claim_count_app ours id t h1 h2 :
  claim_count ours id t (h1 ++ h2) = (claim_count ours id t h1 + claim_count ours id (foldl run_entry t h1) h2)%nat.
Proof. revert t. induction h1 as [| e h1 IH]; intros t; cbn [app claim_count foldl]; [done |]. rewrite IH. lia. Qed.

Section History.
Context (fault : nat → option bytes) (now : nat → Z) (others : nat → list (Z * Cmd)).

(** From [d] to [d'] the database ran [h]. *)
Definition advances (d : Db) (h : list (bool * (Z * Cmd))) (d' : Db) : Prop :=
  journal d' = journal d ++ h ∧ table d' = foldl run_entry (table d) h.

Lemma advances_trans d h d' h' d'' : advances d h d' → advances d' h' d'' → advances d (h ++ h') d''.
Proof. intros [J T] [J' T']. split; [by rewrite J', J, app_assoc | by rewrite T', T, foldl_app]. Qed.

Lemma advances_refl d : advances d [] d.
Proof. split; [by rewrite app_nil_r | done]. Qed.

Lemma interfere_advances d : advances d (pair false <$> others (calls d)) (interfere others d).
Proof. done. Qed.

Lemma query_advances {A} (q : Z → Table → A) d : ∃ h, advances d h (query fault now others q d).2.
Proof. eexists. apply interfere_advances. Qed.

Lemma execute_advances c d r d' :
  execute fault now others c d = (r, d') →
  ∃ h, advances d (h ++ match r with None => [(true, (now (calls d), c))] | Some _ => [] end) d' ∧
    (r = None → row_count d' = (exec_stmt (now (calls d)) (stmt_of c) (foldl run_entry (table d) h)).2).
Proof.
  intros E. exists (pair false <$> others (calls d)). unfold execute in E. cbn [calls interfere table journal] in E.
  destruct (fault (calls d)) as [e|]; [injection E as <- <-; split; [by rewrite app_nil_r; split | done] |].
  destruct (exec_stmt _ _ _) as [t n] eqn:Ex. injection E as <- <-. split; [| done]. split; cbn.
  - by rewrite <- app_assoc.
  - rewrite foldl_app. cbn. unfold run_entry at 1, run_cmd. cbn. by rewrite Ex.
Qed.

(** A statement that went through in the end ran once, with its row count. *)
Lemma retry_advances rounds c d ok d' :
  retry_loop fault now others rounds c d = (ok, d') →
  ∃ h time, advances d (h ++ (if ok then [(true, (time, c))] else [])) d' ∧
    (ok = true → row_count d' = (exec_stmt time (stmt_of c) (foldl run_entry (table d) h)).2).
Proof.
  revert d. induction rounds as [| rounds IH]; intros d E; cbn [retry_loop] in E;
    destruct (execute fault now others c d) as [r d1] eqn:Ex; apply execute_advances in Ex as (h & Ha & Hn); destruct r as [e|].
  - injection E as <- <-. by exists h, 0.
  - injection E as <- <-. exists h, (now (calls d)). split; [done | intros _; by apply Hn].
  - rewrite app_nil_r in Ha. destruct (is_deadlock_error e).
    + apply IH in E as (h' & time & Ha' & Hn'). exists (h ++ h'), time. rewrite <- app_assoc. split; [by eapply advances_trans |].
      intros Hok. rewrite foldl_app. destruct Ha as [_ <-]. by apply Hn'.
    + injection E as <- <-. exists h, 0. split; [by rewrite app_nil_r | done].
  - injection E as <- <-. exists h, (now (calls d)). split; [done | intros _; by apply Hn].
Qed.

(** The records handed out for a row. *)
Definition handed_out (id : Z) (recs : list OutboxRecord) : nat := length (List.filter (λ r, rec_id r =? id) recs).

Lemma claim_loop_advances body_path worker lease selected d recs d' id :
  claim_loop fault now others body_path worker lease selected d = (recs, d') →
  ∃ h, advances d h d' ∧ (handed_out id recs ≤ claim_count true id (table d) h)%nat.
Proof.
  revert d recs. induction selected as [| [i r] selected IH]; intros d recs E; cbn [claim_loop] in E.
  - injection E as <- <-. exists []. split; [apply advances_refl | unfold handed_out; cbn; lia].
  - unfold execute_with_deadlock_retry in E. destruct (retry_loop _ _ _ _ _ d) as [ok d1] eqn:Er.
    apply retry_advances in Er as (h1 & time & Ha1 & Hn). destruct ok; cbn [negb] in E.
    + destruct (query _ _ _ _ d1) as [aff d2] eqn:Eq. destruct (query_advances (λ _ _, row_count d1) d1) as [h2 Ha2]. rewrite Eq in Ha2. cbn in Ha2.
      destruct (claim_loop _ _ _ _ _ _ _ d2) as [rest d3] eqn:El. injection E as <- <-. apply IH in El as (h3 & Ha3 & Hc).
      pose proof (advances_trans _ _ _ _ _ Ha1 (advances_trans _ _ _ _ _ Ha2 Ha3)) as Ha. eexists. split; [exact Ha |].
      rewrite !claim_count_app. assert (foldl run_entry (foldl run_entry (table d) (h1 ++ [(true, (time, Claim i worker lease))])) h2 = table d2) as ->.
      { destruct Ha1 as [_ <-]. by destruct Ha2 as [_ <-]. }
      cbn [claim_count]. rewrite bool_decide_true by done. unfold claims at 1. cbn [fst snd]. rewrite <- (Hn eq_refl).
      assert (match aff with Some n => n = row_count d1 | None => True end) as Haff
        by (unfold query in Eq; injection Eq as <- _; by destruct (fault _)).
      destruct aff as [n|]; [subst n; destruct (0 <? row_count d1) | ]; unfold handed_out in *; cbn [List.filter rec_id record_of length];
        destruct (i =? id); cbn [length andb]; lia.
    + apply IH in E as (h2 & Ha2 & Hc). exists (h1 ++ h2). rewrite app_nil_r in Ha1. split; [by eapply advances_trans |].
      rewrite claim_count_app. destruct Ha1 as [_ <-]. lia.
Qed.
End History.

(** C10: two workers never hold the same row: whatever the other connections do
    between the statements of [claim_batch], and whichever of its calls fail, the
    records it returns for a row and the claims of that row that the database
    confirmed to others together are at most one more than the times the row was
    given back (for a retry, released or requeued); none if the row was not
    waiting. *)
Theorem claim_batch_exclusive fault now others connected body_path worker limit lease d recs d' id :
  ids_below (table d) →
  claim_batch fault now others connected body_path worker limit lease d = (recs, d') →
  ∃ h, advances d h d' ∧
    (handed_out id recs + claim_count false id (table d) h ≤ claimable id (table d) + reopen_count id h)%nat.
Proof.
  intros Hids E. assert (∃ h, advances d h d' ∧ (handed_out id recs ≤ claim_count true id (table d) h)%nat) as (h & Ha & Hc).
  { unfold claim_batch in E. destruct ((limit =? 0)%nat || negb connected).
    { injection E as <- <-. exists []. split; [apply advances_refl | unfold handed_out; cbn; lia]. }
    destruct (query _ _ _ _ d) as [sel d1] eqn:Eq. destruct (query_advances fault now others (build_outbox_claim_select limit) d) as [h1 Ha1].
    rewrite Eq in Ha1. cbn in Ha1. destruct sel as [selected|].
    - apply (claim_loop_advances _ _ _ _ _ _ _ _ _ _ id) in E as (h2 & Ha2 & Hc). exists (h1 ++ h2). split; [by eapply advances_trans |].
      rewrite claim_count_app. destruct Ha1 as [_ <-]. lia.
    - injection E as <- <-. exists h1. split; [done | unfold handed_out; cbn; lia]. }
  exists h. split; [done |]. pose proof (history_claims id (table d) h Hids). lia.
Qed.

(** Two rows wait; before the first update of the batch another worker claims
    the second. *)
Definition two_rows : Table :=
  (exec_stmt 0 (build_insert_outbox_pending 7 (s! "ann@shop.org") (s! "bob@example.net") 8)
    (exec_stmt 0 (build_insert_outbox_pending 6 (s! "ann@shop.org") (s! "eve@example.net") 8) empty_table).1).1.

Lemma claim_batch_exclusive_witness :
  let others k := if (k =? 1)%nat then [(5, Claim 2 (s! "ob-2") 120)] else [] in
  let r := claim_batch (λ _, None) (λ _, 5) others true (λ _, None) (s! "ob-1") 32 120 (mkDb two_rows 0 0 []) in
  handed_out 2 r.1 = 0%nat ∧ handed_out 1 r.1 = 1%nat ∧
  ∃ h, advances (mkDb two_rows 0 0 []) h r.2 ∧
    (handed_out 1 r.1 + claim_count false 1 two_rows h ≤ claimable 1 two_rows + reopen_count 1 h)%nat.
Proof.
  intros others r. split; [vm_compute; reflexivity |]. split; [vm_compute; reflexivity |].
  refine (claim_batch_exclusive (λ _, None) (λ _, 5) others true (λ _, None) (s! "ob-1") 32 120 (mkDb two_rows 0 0 []) r.1 r.2 1 _ _).
  - intros i row H. destruct (decide (i < 3)) as [Hi | Hi]; [exact Hi |]. exfalso. revert H. unfold two_rows. cbn.
    rewrite !lookup_insert_ne by lia. by rewrite lookup_empty.
  - apply surjective_pairing.
Defined.

(** ** Attempts *)

Definition row_ok (r : Row) : Prop := 1 ≤ o_max r ∧ 0 ≤ o_attempts r ≤ o_max r ∧ (open_status (o_status r) = true → o_attempts r < o_max r).

Definition table_ok (t : Table) : Prop := ∀ i r, rows t !! i = Some r → row_ok r.

Lemma update_ok now w set t :
  (∀ i r, rows t !! i = Some r → row_ok r → w now i r = true → row_ok (set now r)) →
  table_ok t → table_ok (exec_stmt now (Update w set) t).1.
Proof.
  intros Hset Ht i r. rewrite exec_update_lookup. destruct (rows t !! i) as [r0|] eqn:E; [| done]. cbn. intros [= <-].
  destruct (w now i r0) eqn:Ew; [by apply (Hset i r0 E (Ht i r0 E)) | by apply (Ht i)].
Qed.

Lemma insert_ok now row t : row_ok (row now) → table_ok t → table_ok (exec_stmt now (Insert row) t).1.
Proof.
  intros Hr Ht i r. cbn. destruct (decide (i = auto_increment t)) as [-> | Hne].
  - rewrite lookup_insert_eq. by intros [= <-].
  - rewrite lookup_insert_ne by done. apply Ht.
Qed.

(** What keeps the bound: a retry is not asked for when the attempts are used up,
    and nothing is requeued behind the counter's back. *)
Definition informed (t : Table) (c : Cmd) : Prop :=
  match c with
  | Enqueue _ _ _ n => 1 ≤ n
  | MarkRetry i dead _ _ => ∀ r, rows t !! i = Some r → o_max r ≤ o_attempts r → dead = true
  | Requeue => False
  | _ => True
  end.

Lemma run_cmd_ok t now c : informed t c → table_ok t → table_ok (run_cmd t (now, c)).
Proof.
  intros Hi. unfold run_cmd. cbn [fst snd]. destruct c as [m s r n | m s r o l | i w l | ids | i r | i dead e n | i e |]; cbn [stmt_of] in *.
  - apply insert_ok. unfold row_ok. cbn in *. lia.
  - apply insert_ok. unfold row_ok. cbn. lia.
  - apply update_ok. intros j r0 _ (H1 & H2 & H3) Hw. rewrite !andb_true_iff in Hw. destruct Hw as [[_ Ho] _]. specialize (H3 Ho).
    unfold row_ok. cbn. lia.
  - apply update_ok. intros j r0 _ (H1 & H2 & H3) _. unfold row_ok. cbn. lia.
  - apply update_ok. intros j r0 _ (H1 & H2 & H3) _. unfold row_ok. cbn. repeat split; try lia; done.
  - apply update_ok. intros j r0 Hj (H1 & H2 & H3) Hw. apply Z.eqb_eq in Hw as ->. specialize (Hi r0 Hj). unfold row_ok. cbn.
    repeat split; try lia. destruct dead; [done |]. intros _. destruct (decide (o_max r0 ≤ o_attempts r0)) as [Hle | Hgt]; [by specialize (Hi Hle) | lia].
  - apply update_ok. intros j r0 _ (H1 & H2 & H3) _. unfold row_ok. cbn. repeat split; try lia; done.
  - done.
Qed.

Section Alone.
Context (fault : nat → option bytes) (now : nat → Z).

Abbreviation alone := (λ _ : nat, @nil (Z * Cmd)).

(** The repository at work: any operation but the one nobody calls.  The query of
    [mark_retry] has to be answered. *)
Inductive repo_step : Db → Db → Prop :=
  | step_enqueue connected mail_id from to_ local_domain d :
      repo_step d (enqueue_from_mail fault now alone connected mail_id from to_ local_domain d).2
  | step_claim connected body_path worker_id limit lease_seconds d :
      repo_step d (claim_batch fault now alone connected body_path worker_id limit lease_seconds d).2
  | step_release connected ids d : repo_step d (release_local_reservations fault now alone connected ids d).2
  | step_sent connected id response d : repo_step d (mark_sent fault now alone connected id response d).2
  | step_retry connected id error delay d :
      fault (calls d) = None → repo_step d (mark_retry fault now alone connected id error delay d).2
  | step_dead connected id error d : repo_step d (mark_dead fault now alone connected id error d).2.

Lemma execute_alone c d :
  informed (table d) c → table_ok (table d) → table_ok (table (execute fault now alone c d).2).
Proof.
  intros Hi Ht. unfold execute. cbn. destruct (fault (calls d)); [done |].
  pose proof (run_cmd_ok (table d) (now (calls d)) c Hi Ht) as H. unfold run_cmd in H. cbn [fst snd] in H. by destruct (exec_stmt _ _ _).
Qed.

Lemma execute_alone_fails c d e d' : execute fault now alone c d = (Some e, d') → table d' = table d.
Proof. unfold execute. cbn. destruct (fault (calls d)); [by intros [= _ <-] |]. by destruct (exec_stmt _ _ _). Qed.

Lemma retry_alone rounds c d :
  informed (table d) c → table_ok (table d) → table_ok (table (retry_loop fault now alone rounds c d).2).
Proof.
  revert d. induction rounds as [| rounds IH]; intros d Hi Ht; cbn [retry_loop];
    pose proof (execute_alone c d Hi Ht) as Ho; destruct (execute _ _ _ c d) as [[e|] d1] eqn:E; cbn in Ho |- *; try done.
  destruct (is_deadlock_error e); [| done]. apply execute_alone_fails in E. apply IH; by rewrite E.
Qed.

Lemma query_alone {A} (q : Z → Table → A) d : table (query fault now alone q d).2 = table d.
Proof. done. Qed.

Lemma claim_loop_alone body_path worker lease selected d :
  table_ok (table d) → table_ok (table (claim_loop fault now alone body_path worker lease selected d).2).
Proof.
  revert d. induction selected as [| [i r] selected IH]; intros d Ht; [done |]. cbn [claim_loop].
  pose proof (retry_alone (kDeadlockRetryMaxAttempts - 1) (Claim i worker lease) d I Ht) as Ho. unfold execute_with_deadlock_retry.
  destruct (retry_loop _ _ _ _ _ d) as [ok d1]. cbn in Ho. destruct ok; cbn [negb]; [| by apply IH].
  destruct (query _ _ _ _ d1) as [aff d2] eqn:Eq. assert (table_ok (table d2)) as H2 by (unfold query in Eq; by injection Eq as _ <-).
  specialize (IH d2 H2). by destruct (claim_loop _ _ _ _ _ _ _ d2).
Qed.

Lemma enqueue_loop_alone mail_id from to_ local_domain d :
  table_ok (table d) → table_ok (table (enqueue_loop fault now alone mail_id from to_ local_domain d).2).
Proof.
  revert d. induction to_ as [| rcpt to_ IH]; intros d Ht; [done |]. cbn [enqueue_loop]. case_bool_decide; [by apply IH |].
  pose proof (execute_alone (Enqueue mail_id from rcpt kDefaultMaxAttempts) d ltac:(by unfold kDefaultMaxAttempts; cbn) Ht) as Ho.
  destruct (execute _ _ _ _ d) as [[e|] d1]; cbn in Ho; [by apply IH |]. destruct (query _ _ _ _ d1) as [id d2] eqn:Eq.
  assert (table_ok (table d2)) as H2 by (unfold query in Eq; by injection Eq as _ <-). specialize (IH d2 H2).
  by destruct (enqueue_loop _ _ _ _ _ _ _ d2) as [[? ?] ?].
Qed.

Lemma repo_step_ok d d' : repo_step d d' → table_ok (table d) → table_ok (table d').
Proof.
  intros Hs Ht. destruct Hs as [connected ? ? ? ? d | connected ? ? limit ? d | connected ids d | connected ? ? d | connected id e delay d Hq | connected ? ? d].
  - destruct connected; [by apply enqueue_loop_alone | done].
  - unfold claim_batch. destruct ((limit =? 0)%nat || negb connected); [done |]. destruct (query _ _ _ _ d) as [sel d1] eqn:Eq.
    assert (table_ok (table d1)) by (unfold query in Eq; by injection Eq as _ <-). destruct sel; [by apply claim_loop_alone | done].
  - unfold release_local_reservations. destruct ids as [| i ids]; [done |]. destruct connected; [| done]. cbn [negb].
    pose proof (execute_alone (Release (i :: ids)) d I Ht) as Ho. by destruct (execute _ _ _ _ d).
  - destruct connected; [by apply (retry_alone _ (MarkSent _ _)) | done].
  - unfold mark_retry. destruct connected; [| done]. cbn [negb]. unfold query. cbn [calls interfere fmap list_fmap]. rewrite Hq.
    apply retry_alone; [| done]. cbn [informed table]. intros r Hr Hle. unfold build_outbox_select_attempts. rewrite Hr. cbn. lia.
  - destruct connected; [by apply (retry_alone _ (MarkDead _ _)) | done].
Qed.
End Alone.

(** The attempts at a delivery are bounded: whatever the repository does and
    whichever statements fail or are repeated after a deadlock, no row is tried
    more often than its limit, and a row that waits has an attempt left. *)
Theorem attempts_bounded fault now d d' i r :
  table_ok (table d) → rtc (repo_step fault now) d d' → rows (table d') !! i = Some r →
  0 ≤ o_attempts r ≤ o_max r ∧ (open_status (o_status r) = true → o_attempts r < o_max r).
Proof.
  intros Ht Hs Hr. assert (table_ok (table d')) as H.
  { clear Hr. induction Hs as [| x y z Hxy _ IH]; [done |]. apply IH. by eapply repo_step_ok. }
  apply (H i r Hr).
Qed.

Definition claimed_rows : Db :=
  (claim_batch (λ _, None) (λ _, 5) (λ _, []) true (λ _, None) (s! "ob-1") 32 120 (mkDb two_rows 0 0 [])).2.

Definition retried_row : Db := (mark_retry (λ _, None) (λ _, 5) (λ _, []) true 1 (s! "451") 30 claimed_rows).2.

Lemma two_rows_ok : table_ok two_rows.
Proof.
  intros i row H. destruct (decide (i = 1)) as [-> | H1]; [injection H as <-; vm_compute; repeat split; congruence |].
  destruct (decide (i = 2)) as [-> | H2]; [injection H as <-; vm_compute; repeat split; congruence |].
  exfalso. revert H. unfold two_rows. cbn. rewrite !lookup_insert_ne by lia. by rewrite lookup_empty.
Qed.

Lemma attempts_bounded_witness :
  match rows (table retried_row) !! 1 with
  | Some r => 0 ≤ o_attempts r ≤ o_max r ∧ (open_status (o_status r) = true → o_attempts r < o_max r)
  | None => False
  end.
Proof.
  destruct (rows (table retried_row) !! 1) as [r|] eqn:E; [| exfalso; vm_compute in E; discriminate E].
  refine (attempts_bounded (λ _, None) (λ _, 5) (mkDb two_rows 0 0 []) retried_row 1 r two_rows_ok _ E).
  eapply rtc_l; [exact (step_claim (λ _, None) (λ _, 5) true (λ _, None) (s! "ob-1") 32 120 (mkDb two_rows 0 0 [])) |].
  apply rtc_once. exact (step_retry (λ _, None) (λ _, 5) true 1 (s! "451") 30 claimed_rows eq_refl).
Defined.

(** ** Lost leases *)

(** The command does not end the delivery of the row; requeueing is left out, as
    no code asks for it. *)
Definition leaves (id : Z) (c : Cmd) : bool :=
  match c with
  | Release ids => negb (bool_decide (id ∈ ids))
  | MarkSent i _ | MarkRetry i _ _ _ | MarkDead i _ => negb (i =? id)
  | Requeue => false
  | _ => true
  end.

Lemma sending_stays id t now c r :
  ids_below t → rows t !! id = Some r → o_status r = SENDING → leaves id c = true → rows (run_cmd t (now, c)) !! id = Some r.
Proof.
  intros Hids Hr Hs Hl. unfold run_cmd. cbn [fst snd]. pose proof (Hids id r Hr) as Hlt.
  destruct c as [m s r' n | m s r' o l | i w l | ids | i r' | i dead e n | i e |]; cbn [stmt_of]; cbn in Hl;
    try (cbn; rewrite lookup_insert_ne by lia; exact Hr).
  - unfold build_outbox_claim_update. rewrite exec_update_lookup, Hr. cbn. rewrite Hs. cbn. by rewrite andb_false_r.
  - unfold build_outbox_release_reservations. rewrite exec_update_lookup, Hr. cbn. apply negb_true_iff in Hl. by rewrite Hl.
  - unfold build_outbox_mark_sent. rewrite exec_update_lookup, Hr. cbn. apply negb_true_iff in Hl. by rewrite Z.eqb_sym, Hl.
  - unfold build_outbox_mark_retry_or_dead. rewrite exec_update_lookup, Hr. cbn. apply negb_true_iff in Hl. by rewrite Z.eqb_sym, Hl.
  - unfold build_outbox_mark_dead. rewrite exec_update_lookup, Hr. cbn. apply negb_true_iff in Hl. by rewrite Z.eqb_sym, Hl.
  - done.
Qed.

Lemma insert_row_elem ir l x : x ∈ insert_row ir l ↔ x = ir ∨ x ∈ l.
Proof.
  induction l as [| jr l IH]; cbn [insert_row]; [by rewrite list_elem_of_singleton, elem_of_nil; naive_solver |].
  case_match; rewrite !elem_of_cons; [done |]. rewrite IH. naive_solver.
Qed.

(** The rows a worker is offered are due rows of the table. *)
Lemma claim_select_due limit now t i r :
  (i, r) ∈ build_outbox_claim_select limit now t → rows t !! i = Some r ∧ due now r = true.
Proof.
  unfold build_outbox_claim_select. intros H. apply elem_of_take in H as (k & Hk & _). apply list_elem_of_lookup_2 in Hk.
  assert (∀ l, (i, r) ∈ foldr insert_row [] l → (i, r) ∈ l) as Hf.
  { induction l as [| x l IH]; [done |]. cbn. rewrite insert_row_elem, elem_of_cons. naive_solver. }
  apply Hf, list_elem_of_In, List.filter_In in Hk as [Hk Hd]. split; [| done]. apply elem_of_map_to_list. by apply list_elem_of_In.
Qed.

(** C37: a delivery whose worker is gone is never taken up again: the comment of
    [OutboundSmtpSession::close] leaves unfinished deliveries to the recovery of
    their lease, but a row that is being sent is offered to no worker however late
    it is, as long as nothing ends that delivery. *)
Theorem lost_delivery_stays_lost t h id r now limit :
  ids_below t → rows t !! id = Some r → o_status r = SENDING → forallb (λ c, leaves id c.2) h = true →
  rows (foldl run_cmd t h) !! id = Some r ∧
  id ∉ (build_outbox_claim_select limit now (foldl run_cmd t h)).*1.
Proof.
  intros Hids Hr Hs Hl. assert (rows (foldl run_cmd t h) !! id = Some r) as H.
  { revert t Hids Hr Hl. induction h as [| [time c] h IH]; intros t Hids Hr Hl; [done |]. cbn [forallb] in Hl.
    apply andb_true_iff in Hl as [Hc Hl]. cbn [foldl]. apply IH; [by apply run_cmd_ids | by apply sending_stays | done]. }
  split; [done |]. intros Hin. apply list_elem_of_fmap in Hin as ([i r'] & -> & Hin). apply claim_select_due in Hin as [Hr' Hd].
  cbn in H. rewrite H in Hr'. injection Hr' as <-. unfold due in Hd. by rewrite Hs in Hd.
Qed.

Lemma lost_delivery_stays_lost_witness :
  let t := table claimed_rows in
  let h := [(1000, Claim 1 (s! "ob-2") 120); (2000, MarkSent 2 (s! "250"))] in
  ∃ r, o_lease r = Some 125 ∧ rows (foldl run_cmd t h) !! 1 = Some r ∧
    1 ∉ (build_outbox_claim_select 32 100000 (foldl run_cmd t h)).*1.
Proof.
  intros t h. destruct (rows t !! 1) as [r|] eqn:E; [| exfalso; vm_compute in E; discriminate E]. exists r.
  split; [vm_compute in E; injection E as <-; reflexivity |].
  refine (lost_delivery_stays_lost t h 1 r 100000 32 _ E _ _); [| vm_compute in E; injection E as <-; reflexivity | reflexivity].
  assert (t = foldl run_cmd two_rows [(5, Claim 1 (s! "ob-1") 120); (5, Claim 2 (s! "ob-1") 120)]) as -> by (vm_compute; reflexivity).
  do 2 apply run_cmd_ids. intros i row H. destruct (decide (i < 3)) as [Hi | Hi]; [exact Hi |]. exfalso. revert H. unfold two_rows. cbn.
  rewrite !lookup_insert_ne by lia. by rewrite lookup_empty.
Defined.
