(* ===== verification/OutboundSign.v ===== *)
(** * Signing outgoing mail

    Models [outbound/outbound_utils.cpp]: how a message is split, its headers
    read, the DKIM signature built and put in front, and how the message is made
    ready for the wire.  The file system, the clock and OpenSSL are parameters.
    [sign_then_verify] composes it with [Inbound]: a message signed here passes
    the verification of incoming mail. *)

From S2P Require Import Prelude CString LruCache LineFolder SmtpText MailCrypto Outbox Inbound.

Record Identity := mkIdentity {
  dkim_enabled : bool;
  dkim_selector : bytes;
  dkim_domain : bytes;
  dkim_private_key_file : bytes;
}.

Definition sender_domain (sender : bytes) : bytes :=
  match find_char AT sender with
  | None => s! "outbound.local"
  | Some at_ => if (length sender <=? at_ + 1)%nat then s! "outbound.local" else drop (at_ + 1) sender
  end.

Definition build_message_id (record : OutboxRecord) : bytes :=
  s! "<" ++ to_string (rec_mail_id record) ++ s! "." ++ to_string (rec_id record) ++ s! "@" ++ sender_domain (rec_sender record) ++ s! ">".

Definition is_line_end (c : Z) : bool := (c =? LF) || (c =? CR).

(** [normalize_for_smtp_data]: [line] is what was read of the current line. *)
Definition data_line_out (line : bytes) : bytes := (match line with 46 :: _ => [46] | _ => [] end) ++ line ++ CRLF.

Fixpoint normalize_loop (fuel : nat) (raw : bytes) : bytes :=
  match fuel with
  | O => []
  | S fuel =>
      match raw with
      | [] => []
      | _ =>
          let line := take_while (λ c, negb (is_line_end c)) raw in
          data_line_out line ++
          match drop (length line) raw with
          | [] => []
          | c :: rest =>
              match rest with
              | 10 :: rest' => if c =? CR then normalize_loop fuel rest' else normalize_loop fuel rest
              | _ => normalize_loop fuel rest
              end
          end
      end
  end.

Definition normalize_for_smtp_data (raw : bytes) : bytes := normalize_loop (length raw) raw.

(** The header block and the body. *)
Definition split_rfc5322_message (raw : bytes) : option (bytes * bytes) :=
  match find_sub (CRLF ++ CRLF) raw with
  | Some p => Some (take p raw, drop (p + 4) raw)
  | None => match find_sub [LF; LF] raw with
            | Some p => Some (take p raw, drop (p + 2) raw)
            | None => None
            end
  end.

Fixpoint relaxed_map_loop (ls : list bytes) (current_key : bytes) (headers : gmap bytes bytes) : gmap bytes bytes :=
  match ls with
  | [] => headers
  | l :: ls =>
      let line := strip_cr l in
      if match line with c :: _ => is_blank c | [] => false end then
        relaxed_map_loop ls current_key
          (match current_key with
           | [] => headers
           | _ => <[current_key := default [] (headers !! current_key) ++ [SP] ++ trim_ascii_ws line]> headers
           end)
      else
        match find_char 58 line with
        | None => relaxed_map_loop ls current_key headers
        | Some pos =>
            let key := to_lower (trim_ascii_ws (take pos line)) in
            relaxed_map_loop ls key (<[key := trim_ascii_ws (drop (pos + 1) line)]> headers)
        end
  end.

Definition parse_headers_relaxed_map (header_block : bytes) : gmap bytes bytes :=
  relaxed_map_loop (getlines [] header_block) [] ∅.

Definition preferred : list bytes :=
  [s! "from"; s! "to"; s! "subject"; s! "date"; s! "message-id"; s! "mime-version"; s! "content-type";
   s! "content-transfer-encoding"; s! "reply-to"].

Definition pick_present_headers_for_dkim (headers : gmap bytes bytes) : list bytes :=
  List.filter (λ h, bool_decide (is_Some (headers !! h))) preferred.

Fixpoint join_header_names_colon (names : list bytes) : bytes :=
  match names with
  | [] => []
  | [n] => n
  | n :: names => n ++ s! ":" ++ join_header_names_colon names
  end.

Section Sign.
Context (ssl : Crypto).
(** Opening and parsing the key file, the three signing calls: an error or the
    signature, which OpenSSL never gives empty. *)
Context (rsa_sign : bytes → bytes → bytes + bytes) (now : Z).

Definition sign_rsa_sha256_base64 (data private_key_file : bytes) : bytes + bytes :=
  match rsa_sign private_key_file data with
  | inl e => inl e
  | inr signature =>
      match base64_encode (EVP_EncodeBlock ssl) signature with
      | [] => inl (s! "failed to base64-encode DKIM signature")
      | b64 => inr b64
      end
  end.

(** The value of the header up to the signature itself. *)
Definition dkim_value (domain selector signed_list body_hash : bytes) : bytes :=
  s! "v=1; a=rsa-sha256; c=relaxed/simple; d=" ++ domain ++ s! "; s=" ++ selector ++ s! "; t=" ++ to_string now
  ++ s! "; h=" ++ signed_list ++ s! "; bh=" ++ body_hash ++ s! "; b=".

(** The canonical form of the signed headers, or the first that is missing. *)
Fixpoint signed_text (headers : gmap bytes bytes) (names : list bytes) : bytes + bytes :=
  match names with
  | [] => inr []
  | name :: names =>
      match headers !! name with
      | None => inl (s! "missing header for DKIM signing: " ++ name)
      | Some v => match signed_text headers names with
                  | inl e => inl e
                  | inr rest => inr (canonicalize_header_relaxed name v ++ rest)
                  end
      end
  end.

Definition build_dkim_header (headers : gmap bytes bytes) (canonical_body : bytes) (identity : Identity)
    (override : list bytes) : bytes + bytes :=
  let selector := trim_ascii_ws (dkim_selector identity) in
  let domain := trim_ascii_ws (dkim_domain identity) in
  let key_file := trim_ascii_ws (dkim_private_key_file identity) in
  if bool_decide (selector = [] ∨ domain = [] ∨ key_file = []) then
    inl (s! "dkim config missing selector/domain/private_key_file") else
  let signed_headers := match override with [] => preferred | _ => override end in
  match sha256_base64 (EVP_EncodeBlock ssl) (EVP_Digest ssl) canonical_body with
  | [] => inl (s! "failed to compute DKIM body hash")
  | body_hash =>
      let value := dkim_value domain selector (join_header_names_colon signed_headers) body_hash in
      match signed_text headers signed_headers with
      | inl e => inl e
      | inr text =>
          let sig_header := canonicalize_header_relaxed (s! "DKIM-Signature") value in
          match sign_rsa_sha256_base64 (text ++ take (length sig_header - 2) sig_header) key_file with
          | inl e => inl e
          | inr signature_b64 => inr (s! "DKIM-Signature: " ++ value ++ signature_b64 ++ CRLF)
          end
      end
  end.

(** The message to send and the reason why it is not signed, empty otherwise. *)
Definition sign_payload_if_dkim (raw_payload : bytes) (identity : Identity) : bytes * bytes :=
  if negb (dkim_enabled identity) then (raw_payload, []) else
  match split_rfc5322_message raw_payload with
  | None => (raw_payload, s! "cannot split RFC5322 message into header/body")
  | Some (header_block, body_block) =>
      let raw_headers := parse_headers_relaxed_map header_block in
      match raw_headers !! s! "from" with
      | None => (raw_payload, s! "missing header for DKIM signing: from")
      | Some _ =>
          match build_dkim_header raw_headers (normalize_body_simple body_block) identity
                  (pick_present_headers_for_dkim raw_headers) with
          | inl e => (raw_payload, match e with [] => s! "dkim signing failed" | _ => e end)
          | inr dkim_header => (dkim_header ++ header_block ++ CRLF ++ CRLF ++ body_block, [])
          end
      end
  end.

(** ** The message built for a record *)

Record Built := mkBuilt { wire : bytes; dkim_applied : bool; dkim_error : bytes; message_id : bytes }.

Definition fallback_headers (record : OutboxRecord) (header_from date_value : bytes) : list (bytes * bytes) :=
  [(s! "from", s! "<" ++ header_from ++ s! ">"); (s! "to", s! "<" ++ rec_recipient record ++ s! ">");
   (s! "subject", s! "Outbound relay test"); (s! "date", date_value); (s! "message-id", build_message_id record);
   (s! "mime-version", s! "1.0"); (s! "content-type", s! "text/plain; charset=UTF-8");
   (s! "content-transfer-encoding", s! "8bit"); (s! "reply-to", s! "<" ++ rec_sender record ++ s! ">")].

Definition fallback_message (record : OutboxRecord) (header_from date_value : bytes) (identity : Identity) (error : bytes) : Built :=
  let canonical_body := normalize_body_simple (s! "relayed by outbound client, outbox_id=" ++ to_string (rec_id record) ++ CRLF) in
  let '(dkim_header, applied, error) :=
    if dkim_enabled identity then
      match build_dkim_header (list_to_map (fallback_headers record header_from date_value)) canonical_body identity [] with
      | inr h => (h, true, error)
      | inl e => ([], false, e)
      end
    else ([], false, error) in
  let field name v := name ++ v ++ CRLF in
  mkBuilt (dkim_header
    ++ field (s! "Subject: ") (s! "Outbound relay test") ++ field (s! "From: ") (s! "<" ++ header_from ++ s! ">")
    ++ field (s! "To: ") (s! "<" ++ rec_recipient record ++ s! ">") ++ field (s! "Reply-To: ") (s! "<" ++ rec_sender record ++ s! ">")
    ++ field (s! "Date: ") date_value ++ field (s! "Message-ID: ") (build_message_id record) ++ field (s! "MIME-Version: ") (s! "1.0")
    ++ field (s! "Content-Type: ") (s! "text/plain; charset=UTF-8") ++ field (s! "Content-Transfer-Encoding: ") (s! "8bit")
    ++ CRLF ++ canonical_body ++ s! "." ++ CRLF) applied error (build_message_id record).

(** [raw_payload] is the body of the mail at hand, or of the file of the record. *)
Definition build_outbound_message (record : OutboxRecord) (raw_payload header_from date_value : bytes) (identity : Identity) : Built :=
  let '(outbound_raw, applied, error, mid) :=
    match split_rfc5322_message raw_payload with
    | None => (raw_payload, false, [], [])
    | Some (header_block, body_block) =>
        let raw_headers := parse_headers_relaxed_map header_block in
        let mid := default [] (raw_headers !! s! "message-id") in
        if negb (dkim_enabled identity) then (raw_payload, false, [], mid) else
        match raw_headers !! s! "from" with
        | None => (raw_payload, false, s! "missing header for DKIM signing: from", mid)
        | Some _ =>
            match build_dkim_header raw_headers (normalize_body_simple body_block) identity
                    (pick_present_headers_for_dkim raw_headers) with
            | inr h => (h ++ header_block ++ CRLF ++ CRLF ++ body_block, true, [], mid)
            | inl e => (raw_payload, false, e, mid)
            end
        end
    end in
  match raw_payload, normalize_for_smtp_data outbound_raw with
  | _ :: _, (_ :: _) as normalized => mkBuilt (normalized ++ s! "." ++ CRLF) applied error mid
  | _, _ => fallback_message record header_from date_value identity error
  end.
End Sign.

(** ** Header fields *)

(** A field of a message: its name, the rest of its first line, and the lines it
    is folded into. *)
Record Field := mkField { fname : bytes; fvalue : bytes; fconts : list bytes }.

Definition field_lines (f : Field) : list bytes := (fname f ++ 58 :: fvalue f) :: fconts f.

Definition unfold_value (v : bytes) (conts : list bytes) : bytes := foldl (λ v c, v ++ [SP] ++ trim_blanks c) v conts.

Definition value_of (f : Field) : bytes := unfold_value (trim_blanks (fvalue f)) (fconts f).

Definition starts_blank (l : bytes) : bool := match l with c :: _ => is_blank c | [] => false end.

Definition name_ok (n : bytes) : bool := negb (bool_decide (n = [])) && forallb (λ c, negb (is_ws c) && negb (c =? 58)) n.

Definition field_ok (f : Field) : bool := name_ok (fname f) && forallb starts_blank (fconts f).

Definition named (n : bytes) (f : Field) : bool := bool_decide (to_lower (fname f) = n).

(** The values of the fields with a name, in order. *)
Definition occurrences (n : bytes) (fields : list Field) : list bytes := value_of <$> List.filter (named n) fields.

(** Lines as a reader sees them: with or without the CR of the line end. *)
Definition reads (rl ls : list bytes) : Prop := strip_cr <$> rl = ls.

Lemma name_chars n c : name_ok n = true → c ∈ n → is_ws c = false ∧ c ≠ 58.
Proof.
  intros H Hc. apply andb_true_iff in H as [_ H]. rewrite forallb_forall in H. specialize (H c). rewrite list_elem_of_In in Hc.
  apply H in Hc. apply andb_true_iff in Hc as [Hw Hn]. split; [by apply negb_true_iff |]. by apply negb_true_iff, Z.eqb_neq in Hn.
Qed.

Lemma ws_blank c : is_ws c = false → is_blank c = false.
Proof. unfold is_ws, is_blank. intros H. apply orb_false_iff in H as [H _]. by apply orb_false_iff in H as [H _]. Qed.

Lemma name_head n : name_ok n = true → ∃ c rest, n = c :: rest ∧ is_blank c = false.
Proof.
  intros H. destruct n as [| c n]; [done |]. exists c, n. split; [done |]. apply ws_blank. by apply (name_chars (c :: n)), list_elem_of_here.
Qed.

Lemma name_colon n v : name_ok n = true → find_char 58 (n ++ 58 :: v) = Some (length n).
Proof. intros H. apply find_char_app_l. intros Hin. by destruct (name_chars n 58 H Hin). Qed.

Lemma drop_while_none p s : Forall (λ c, p c = false) s → drop_while p s = s.
Proof. intros H. destruct s as [| c s]; [done |]. apply list.Forall_cons in H as [Hc _]. by apply drop_while_id. Qed.

Lemma trim_blanks_id s : Forall (λ c, is_blank c = false) s → trim_blanks s = s.
Proof.
  intros Hf. unfold trim_blanks, drop_while_end. rewrite (drop_while_none _ s) by done.
  rewrite drop_while_none by (by apply Forall_reverse). apply reverse_involutive.
Qed.

Lemma trim_name n : name_ok n = true → trim_blanks n = n.
Proof.
  intros H. apply trim_blanks_id, list.Forall_forall. intros c Hc. by apply ws_blank, (name_chars n c H).
Qed.

(** The lines of a field, taken apart at the colon. *)
Lemma field_first_line rl f :
  reads rl (field_lines f) → field_ok f = true →
  ∃ x rl' c rest, rl = x :: rl' ∧ reads rl' (fconts f) ∧ strip_cr x = c :: rest ∧ is_blank c = false ∧
    find_char 58 (c :: rest) = Some (length (fname f)) ∧ take (length (fname f)) (c :: rest) = fname f ∧
    drop (length (fname f) + 1) (c :: rest) = fvalue f.
Proof.
  intros Hr Hok. apply andb_true_iff in Hok as [Hn _]. destruct rl as [| x rl]; [done |].
  unfold reads, field_lines in Hr. rewrite fmap_cons in Hr. injection Hr as Hx Hr.
  destruct (name_head _ Hn) as (c & l & En & Hb). exists x, rl, c, (l ++ 58 :: fvalue f).
  change (c :: l ++ 58 :: fvalue f) with ((c :: l) ++ 58 :: fvalue f). rewrite <- En.
  repeat split; try done; [by apply name_colon | apply take_app_length |].
  rewrite <- drop_drop, drop_app_length. done.
Qed.

Lemma reads_app rl ls1 ls2 : reads rl (ls1 ++ ls2) → ∃ rl1 rl2, rl = rl1 ++ rl2 ∧ reads rl1 ls1 ∧ reads rl2 ls2.
Proof. intros H. apply fmap_app_inv in H as (rl1 & rl2 & H1 & H2 & ->). by exists rl1, rl2. Qed.

Lemma conts_ind (A B : Type) (F : list bytes → A → B) (step : A → bytes → A) :
  (∀ x rl rest a, starts_blank (strip_cr x) = true → F (x :: rl ++ rest) a = F (rl ++ rest) (step a (strip_cr x))) →
  ∀ rl rest conts a, reads rl conts → forallb starts_blank conts = true → F (rl ++ rest) a = F rest (foldl step a conts).
Proof.
  intros Hstep rl rest conts a Hr Hb. revert rl Hr a. induction conts as [| c conts IH]; intros rl Hr a.
  - by apply fmap_nil_inv in Hr as ->.
  - destruct rl as [| x rl]; [done |]. unfold reads in Hr. rewrite fmap_cons in Hr. injection Hr as Hx Hr.
    cbn [forallb] in Hb. apply andb_true_iff in Hb as [Hc Hb]. cbn [app foldl]. rewrite Hstep by (by rewrite Hx). rewrite Hx. by apply IH.
Qed.

Lemma starts_blank_inv l : starts_blank l = true → ∃ c rest, l = c :: rest ∧ is_blank c = true.
Proof. destruct l as [| c rest]; [done |]. by exists c, rest. Qed.

(** ** What the three readers of a header block find *)

Section Reading.
Context (n : bytes).

Definition emit (acc : list bytes) (name val : bytes) : list bytes :=
  if bool_decide (to_lower name = n) && negb (bool_decide (val = [])) then acc ++ [val] else acc.

Lemma header_values_field rl rest f cn cv acc :
  reads rl (field_lines f) → field_ok f = true →
  header_values n (rl ++ rest) cn cv acc = header_values n rest (fname f) (value_of f) (emit acc cn cv).
Proof.
  intros Hr Hok. destruct (field_first_line rl f Hr Hok) as (x & rl' & c & l & -> & Hr' & Hx & Hb & Hc & Ht & Hd).
  apply andb_true_iff in Hok as [Hn Hcs]. cbn [app header_values]. rewrite Hx, Hb, Hc, Ht, Hd.
  apply (conts_ind _ _ (λ ls v, header_values n ls (fname f) v (emit acc cn cv)) (λ v c, v ++ [SP] ++ trim_blanks c)); [| done | done].
  intros y rl rest' a Hy. apply starts_blank_inv in Hy as (c0 & r0 & E & Hb0). cbn [header_values]. rewrite E, Hb0.
  by destruct (name_head _ Hn) as (c1 & l1 & -> & _).
Qed.

Lemma header_values_fields fields rl cn cv acc :
  reads rl (concat (field_lines <$> fields)) → forallb field_ok fields = true →
  header_values n rl cn cv acc = emit acc cn cv ++ List.filter (λ v, negb (bool_decide (v = []))) (occurrences n fields).
Proof.
  revert rl cn cv acc. induction fields as [| f fields IH]; intros rl cn cv acc Hr Hf.
  - apply fmap_nil_inv in Hr as ->. by rewrite app_nil_r.
  - rewrite fmap_cons in Hr. cbn [concat] in Hr. apply reads_app in Hr as (rl1 & rl2 & -> & H1 & H2).
    cbn [forallb] in Hf. apply andb_true_iff in Hf as [Hok Hf]. rewrite (header_values_field rl1 rl2 f), IH by done.
    unfold occurrences. cbn [List.filter]. unfold emit at 1, named at 2. case_bool_decide; simpl; [| done].
    case_bool_decide; simpl; [done |]. by rewrite <- app_assoc.
Qed.

Lemma relaxed_map_field rl rest f k m :
  reads rl (field_lines f) → field_ok f = true →
  relaxed_map_loop (rl ++ rest) k m = relaxed_map_loop rest (to_lower (fname f)) (<[to_lower (fname f) := value_of f]> m).
Proof.
  intros Hr Hok. destruct (field_first_line rl f Hr Hok) as (x & rl' & c & l & -> & Hr' & Hx & Hb & Hc & Ht & Hd).
  apply andb_true_iff in Hok as [Hn Hcs]. cbn [app relaxed_map_loop]. rewrite Hx, Hb, Hc, Ht, Hd. unfold trim_ascii_ws.
  rewrite !(trim_name _ Hn).
  apply (conts_ind _ _ (λ ls v, relaxed_map_loop ls (to_lower (fname f)) (<[to_lower (fname f) := v]> m))
           (λ v c, v ++ [SP] ++ trim_blanks c)); [| done | done].
  intros y rl rest' a Hy. apply starts_blank_inv in Hy as (c0 & r0 & E & Hb0). cbn [relaxed_map_loop]. rewrite E, Hb0.
  destruct (name_head _ Hn) as (c1 & l1 & -> & _). cbn [to_lower fmap list_fmap]. rewrite lookup_insert_eq, insert_insert_eq. done.
Qed.

Lemma relaxed_map_fields fields rl k m :
  reads rl (concat (field_lines <$> fields)) → forallb field_ok fields = true →
  relaxed_map_loop rl k m !! n = match list.last (occurrences n fields) with Some v => Some v | None => m !! n end.
Proof.
  revert rl k m. induction fields as [| f fields IH]; intros rl k m Hr Hf.
  - by apply fmap_nil_inv in Hr as ->.
  - rewrite fmap_cons in Hr. cbn [concat] in Hr. apply reads_app in Hr as (rl1 & rl2 & -> & H1 & H2).
    cbn [forallb] in Hf. apply andb_true_iff in Hf as [Hok Hf]. rewrite (relaxed_map_field rl1 rl2 f), IH by done.
    unfold occurrences. cbn [List.filter]. unfold named at 2. case_bool_decide as E.
    + rewrite fmap_cons, last_cons, E, lookup_insert_eq. by destruct (list.last _).
    + by rewrite lookup_insert_ne.
Qed.

Lemma headers_loop_field rl rest f k v out :
  reads rl (field_lines f) → field_ok f = true →
  headers_loop (rl ++ rest) k v out = headers_loop rest (fname f) (value_of f) (put_header k v out).
Proof.
  intros Hr Hok. destruct (field_first_line rl f Hr Hok) as (x & rl' & c & l & -> & Hr' & Hx & Hb & Hc & Ht & Hd).
  apply andb_true_iff in Hok as [Hn Hcs]. cbn [app headers_loop]. rewrite Hx, Hb, Hc, Ht, Hd.
  apply (conts_ind _ _ (λ ls v', headers_loop ls (fname f) v' (put_header k v out)) (λ v c, v ++ [SP] ++ trim_blanks c)); [| done | done].
  intros y rl rest' a Hy. apply starts_blank_inv in Hy as (c0 & r0 & E & Hb0). cbn [headers_loop]. rewrite E, Hb0.
  by destruct (name_head _ Hn) as (c1 & l1 & -> & _).
Qed.

Lemma headers_loop_keeps fields rl k v out :
  reads rl (concat (field_lines <$> fields)) → forallb field_ok fields = true →
  is_Some (put_header k v out !! n) ∨ occurrences n fields ≠ [] → is_Some (headers_loop rl k v out !! n).
Proof.
  revert rl k v out. induction fields as [| f fields IH]; intros rl k v out Hr Hf H.
  - apply fmap_nil_inv in Hr as ->. by destruct H.
  - rewrite fmap_cons in Hr. cbn [concat] in Hr. apply reads_app in Hr as (rl1 & rl2 & -> & H1 & H2).
    cbn [forallb] in Hf. apply andb_true_iff in Hf as [Hok Hf]. rewrite (headers_loop_field rl1 rl2 f) by done. apply IH; [done | done |].
    unfold occurrences in H. cbn [List.filter] in H. unfold named at 1 in H.
    apply andb_true_iff in Hok as [Hn _]. destruct (name_head _ Hn) as (c & l & En & _). unfold put_header at 1. rewrite En.
    rewrite <- En. case_bool_decide as E.
    + left. rewrite E, lookup_insert_eq. by eexists.
    + destruct H as [H | H]; [left; by rewrite lookup_insert_ne | by right].
Qed.
End Reading.

(** ** The tags of the signature header *)

Definition plain_char (c : Z) : bool := negb (is_ws c) && negb (c =? 59) && negb (c =? DQUOTE).

(** Text a tag can have as its value: no white space, semicolon or quote. *)
Definition token (s : bytes) : bool := forallb plain_char s.

Lemma token_chars s c : token s = true → c ∈ s → is_ws c = false ∧ c ≠ 59 ∧ c ≠ DQUOTE.
Proof.
  unfold token. rewrite forallb_forall. intros H Hc. apply list_elem_of_In, H in Hc. unfold plain_char in Hc.
  apply andb_true_iff in Hc as [Hc H3]. apply andb_true_iff in Hc as [H1 H2].
  rewrite negb_true_iff in H1, H2, H3. rewrite Z.eqb_neq in H2, H3. done.
Qed.

Lemma token_app s t : token (s ++ t) = token s && token t.
Proof. apply forallb_app. Qed.

Lemma token_trim s : token s = true → trim_blanks s = s.
Proof. intros H. apply trim_blanks_id, list.Forall_forall. intros c Hc. by apply ws_blank, (token_chars s c H). Qed.

Lemma tags_loop_token s raw cur tags :
  token s = true → tags_loop (s ++ raw) cur false tags = tags_loop raw (cur ++ s) false tags.
Proof.
  revert cur. induction s as [| c s IH]; intros cur Hs; [by rewrite app_nil_r |].
  destruct (token_chars (c :: s) c Hs (list_elem_of_here _ _)) as (_ & H1 & H2). cbn [app tags_loop].
  rewrite (proj2 (Z.eqb_neq c DQUOTE)), (proj2 (Z.eqb_neq c 59)) by done. simpl. cbn [token forallb] in Hs.
  apply andb_true_iff in Hs as [_ Hs]. rewrite IH by done. by rewrite <- app_assoc.
Qed.

Definition tag_text (kv : bytes * bytes) : bytes := kv.1 ++ 61 :: kv.2.

Definition tag_ok (kv : bytes * bytes) : bool := token (tag_text kv) && negb (bool_decide (61 ∈ kv.1)).

(** Tags as they are written: separated by a semicolon and a space. *)
Fixpoint tags_text (kvs : list (bytes * bytes)) : bytes :=
  match kvs with
  | [] => []
  | [kv] => tag_text kv
  | kv :: kvs => tag_text kv ++ s! "; " ++ tags_text kvs
  end.

Lemma trim_blanks_pad pad s : Forall (λ c, is_blank c = true) pad → token s = true → trim_blanks (pad ++ s) = s.
Proof.
  intros Hp Hs. rewrite <- (token_trim s Hs) at 2. unfold trim_blanks. f_equal.
  induction Hp as [| c pad Hc _ IH]; [done |]. simpl. by rewrite Hc.
Qed.

Lemma put_tag_text pad kv tags :
  Forall (λ c, is_blank c = true) pad → tag_ok kv = true → put_tag (pad ++ tag_text kv) tags = <[kv.1 := kv.2]> tags.
Proof.
  intros Hp H. apply andb_true_iff in H as [Ht Hk]. apply negb_true_iff, bool_decide_eq_false in Hk.
  unfold put_tag. rewrite trim_blanks_pad by done. destruct kv as [k v]. unfold tag_text in *. cbn [fst snd] in *.
  rewrite find_char_app_l by done. rewrite token_app in Ht. apply andb_true_iff in Ht as [Htk Htv].
  assert (token v = true) as Hv by (cbn [token forallb] in Htv; by apply andb_true_iff in Htv as [_ ?]).
  rewrite take_app_length, <- drop_drop, drop_app_length. simpl. by rewrite !token_trim.
Qed.

Lemma tags_loop_text kvs pad tags :
  Forall (λ c, is_blank c = true) pad → forallb tag_ok kvs = true → kvs ≠ [] →
  tags_loop (tags_text kvs) pad false tags = foldl (λ m kv, <[kv.1 := kv.2]> m) tags kvs.
Proof.
  revert pad tags. induction kvs as [| kv kvs IH]; intros pad tags Hp Hok Hne; [done |]. cbn [forallb] in Hok.
  apply andb_true_iff in Hok as [Hkv Hok]. pose proof Hkv as Ht. apply andb_true_iff in Ht as [Ht _]. destruct kvs as [| kv' kvs].
  - cbn [tags_text]. rewrite <- (app_nil_r (tag_text kv)), tags_loop_token by done. cbn [tags_loop].
    rewrite put_tag_text by done. destruct (pad ++ tag_text kv) eqn:E; [| done].
    apply app_nil in E as [_ E]. destruct kv as [[|] ?]; done.
  - change (tags_text (kv :: kv' :: kvs)) with (tag_text kv ++ s! "; " ++ tags_text (kv' :: kvs)).
    rewrite tags_loop_token by done. change (s! "; " ++ tags_text (kv' :: kvs)) with (59 :: SP :: tags_text (kv' :: kvs)).
    cbn [tags_loop Z.eqb Pos.eqb DQUOTE SP andb negb app]. rewrite put_tag_text by done. rewrite (IH [SP]); [done | | done | done].
    by constructor.
Qed.

(** ** The signature's own text *)

(** Whether the text holds what the verifier takes for the signature tag. *)
Fixpoint has_beq (s : bytes) : bool :=
  match s with
  | 98 :: (61 :: _) => true
  | _ :: s => has_beq s
  | [] => false
  end.

Definition not_eq_head (s : bytes) : bool := match s with 61 :: _ => false | _ => true end.

Lemma has_beq_cons c s : has_beq (c :: s) = (c =? 98) && negb (not_eq_head s) || has_beq s.
Proof.
  destruct (Z.eqb_spec c 98) as [-> | Hc]; cbn [andb orb].
  - destruct s as [| d s]; [done |]. destruct (Z.eqb_spec d 61) as [-> | Hd]; [done |].
    assert (not_eq_head (d :: s) = true) as -> by (cbn; repeat case_match; done || lia).
    cbn [negb orb has_beq]. repeat case_match; done || lia.
  - cbn [has_beq]. repeat case_match; done || lia.
Qed.

Lemma has_beq_app s t : not_eq_head t = true → has_beq (s ++ t) = has_beq s || has_beq t.
Proof.
  intros Ht. induction s as [| c s IH]; [done |]. cbn [app]. rewrite !has_beq_cons, IH, orb_assoc. f_equal. f_equal. f_equal.
  destruct s as [| d s]; [| done]. cbn [app]. by rewrite Ht.
Qed.

Lemma has_beq_free s : 61 ∉ s → has_beq s = false.
Proof.
  induction s as [| c s IH]; intros H; [done |]. apply not_elem_of_cons in H as [_ H]. rewrite has_beq_cons, IH by done.
  destruct s as [| d s]; [by rewrite andb_false_r |]. apply not_elem_of_cons in H as [Hd _].
  assert (not_eq_head (d :: s) = true) as -> by (cbn; repeat case_match; done || lia). by rewrite andb_false_r.
Qed.

Lemma find_beq p rest : has_beq p = false → find_sub (s! "b=") (p ++ s! "b=" ++ rest) = Some (length p).
Proof.
  induction p as [| c p IH]; intros H; [done |]. rewrite has_beq_cons in H. apply orb_false_iff in H as [H1 H2].
  cbn [app find_sub]. rewrite (IH H2).
  destruct (Z.eqb_spec c 98) as [-> | Hc].
  - cbn [andb] in H1. apply negb_false_iff in H1. destruct p as [| d p]; [done |].
    assert (d ≠ 61) as Hd by (intros ->; done).
    change (s! "b=") with [98; 61]. cbn [app starts_with]. rewrite (proj2 (Z.eqb_neq 61 d)) by done. done.
  - change (s! "b=") with [98; 61]. cbn [app starts_with]. rewrite (proj2 (Z.eqb_neq 98 c)) by done. done.
Qed.

(** What the verifier puts back when it empties the tag. *)
Lemma strip_b_tail p sig : has_beq p = false → token sig = true → strip_b (p ++ s! "b=" ++ sig) = p ++ s! "b=".
Proof.
  intros Hp Hs. unfold strip_b. rewrite find_beq by done. unfold find_char_from. rewrite drop_app_length.
  assert (find_char 59 (s! "b=" ++ sig) = None) as ->.
  { apply find_char_None. rewrite elem_of_app. intros [H | H]; [revert H; refine (bool_decide_unpack (59 ∉ s! "b=") _); vm_compute; exact I |].
    by destruct (token_chars sig 59 Hs H) as (_ & ? & _). }
  simpl fmap. cbn [fmap option_fmap option_map]. rewrite app_assoc. replace (length p + 2)%nat with (length (p ++ s! "b=")).
  - apply take_app_length.
  - rewrite length_app. done.
Qed.

(** A name that is safe in the header: a tag value without an equals sign. *)
Definition plain_name (s : bytes) : bool := token s && negb (bool_decide (61 ∈ s)).

(** Base64 as [EVP_EncodeBlock] writes it: no white space or semicolon, the
    padding at the end, and never after a letter b, whose low bits are set. *)
Definition b64_text (s : bytes) : bool := token s && negb (has_beq s) && not_eq_head s && negb (bool_decide (s = [])).

Definition signature_tags (now : Z) (domain selector names bh sig : bytes) : list (bytes * bytes) :=
  [(s! "v", s! "1"); (s! "a", s! "rsa-sha256"); (s! "c", s! "relaxed/simple"); (s! "d", domain); (s! "s", selector);
   (s! "t", to_string now); (s! "h", names); (s! "bh", bh); (s! "b", sig)].

Lemma dkim_value_tags now domain selector names bh sig :
  dkim_value now domain selector names bh ++ sig = tags_text (signature_tags now domain selector names bh sig).
Proof.
  unfold dkim_value, signature_tags. cbn [tags_text]. unfold tag_text. cbn [fst snd].
  by rewrite <- !app_assoc.
Qed.

(** The value up to the signature tag. *)
Definition value_head (now : Z) (domain selector names bh : bytes) : bytes :=
  s! "v=1; a=rsa-sha256; c=relaxed/simple; d=" ++ domain ++ s! "; s=" ++ selector ++ s! "; t=" ++ to_string now
  ++ s! "; h=" ++ names ++ s! "; bh=" ++ bh ++ s! "; ".

Lemma dkim_value_head now domain selector names bh :
  dkim_value now domain selector names bh = value_head now domain selector names bh ++ s! "b=".
Proof. unfold dkim_value, value_head. by rewrite <- !app_assoc. Qed.

Lemma plain_name_inv s : plain_name s = true → token s = true ∧ 61 ∉ s.
Proof. intros H. apply andb_true_iff in H as [H1 H2]. split; [done |]. by apply negb_true_iff, bool_decide_eq_false in H2. Qed.

Lemma not_eq_head_app s t : 61 ∉ s → not_eq_head t = true → not_eq_head (s ++ t) = true.
Proof.
  intros H Ht. destruct s as [| c s]; [done |]. apply not_elem_of_cons in H as [H _]. cbn. repeat case_match; done || lia.
Qed.

Lemma has_beq_name s t : 61 ∉ s → not_eq_head t = true → has_beq t = false → has_beq (s ++ t) = false.
Proof. intros Hs Hh Ht. by rewrite has_beq_app, has_beq_free, Ht. Qed.

Lemma has_beq_lit s t : has_beq s = false → not_eq_head t = true → has_beq t = false → has_beq (s ++ t) = false.
Proof. intros Hs Hh Ht. by rewrite has_beq_app, Hs, Ht. Qed.

Lemma b64_inv s : b64_text s = true → token s = true ∧ has_beq s = false ∧ not_eq_head s = true ∧ s ≠ [].
Proof.
  unfold b64_text. rewrite !andb_true_iff, !negb_true_iff, bool_decide_eq_false. tauto.
Qed.

Lemma b64_head s t : b64_text s = true → not_eq_head (s ++ t) = true.
Proof. intros H. destruct (b64_inv s H) as (_ & _ & Hh & Hne). by destruct s. Qed.

Lemma to_string_plain n : 0 ≤ n → plain_name (to_string n) = true.
Proof.
  intros Hn. pose proof (to_string_digits n Hn) as Hd. rewrite list.Forall_forall in Hd.
  assert (∀ c, c ∈ to_string n → plain_char c = true ∧ c ≠ 61) as H.
  { intros c Hc. specialize (Hd c Hc). unfold isdigit in Hd. unfold plain_char, is_ws, SP, HTAB, CR, LF, DQUOTE. lia. }
  unfold plain_name. apply andb_true_iff. split.
  - apply forallb_forall. intros c Hc. by apply H, list_elem_of_In.
  - apply negb_true_iff, bool_decide_eq_false. intros Hc. by destruct (H 61 Hc).
Qed.

Lemma value_head_beq now domain selector names bh :
  0 ≤ now → plain_name domain = true → plain_name selector = true → plain_name names = true → b64_text bh = true →
  has_beq (value_head now domain selector names bh) = false.
Proof.
  intros Hn Hd Hs Hh Hb. apply to_string_plain in Hn. apply plain_name_inv in Hd as [_ Hd], Hs as [_ Hs], Hh as [_ Hh], Hn as [_ Hn].
  unfold value_head. destruct (b64_inv bh Hb) as (_ & Hbb & _).
  repeat first [apply has_beq_name; [assumption | reflexivity |]
               | apply has_beq_lit; [reflexivity | first [apply b64_head; assumption | apply not_eq_head_app; [assumption | reflexivity]] |]].
  apply has_beq_lit; done.
Qed.

Lemma tags_ok now domain selector names bh sig :
  0 ≤ now → plain_name domain = true → plain_name selector = true → plain_name names = true → b64_text bh = true → b64_text sig = true →
  forallb tag_ok (signature_tags now domain selector names bh sig) = true.
Proof.
  intros Hn Hd Hs Hh Hb Hg. apply to_string_plain in Hn. apply plain_name_inv in Hd as [Hd _], Hs as [Hs _], Hh as [Hh _], Hn as [Hn _].
  apply b64_inv in Hb as (Hb & _), Hg as (Hg & _). cbn [signature_tags forallb].
  unfold tag_ok, tag_text. cbn [fst snd]. rewrite !token_app. cbn [token forallb]. fold (token domain) (token selector) (token names).
  fold (token (to_string now)) (token bh) (token sig). by rewrite Hd, Hs, Hh, Hn, Hb, Hg.
Qed.

Lemma parse_signature_value now domain selector names bh sig :
  0 ≤ now → plain_name domain = true → plain_name selector = true → plain_name names = true → b64_text bh = true → b64_text sig = true →
  let v := dkim_value now domain selector names bh ++ sig in
  parse_signature v = mkSig (s! "1") (s! "rsa-sha256") (to_lower domain) selector bh sig (s! "simple") (s! "relaxed") (split names 58) v.
Proof.
  intros Hn Hd Hs Hh Hb Hg v.
  assert (parse_tags v = foldl (λ m kv, <[kv.1 := kv.2]> m) ∅ (signature_tags now domain selector names bh sig)) as E.
  { subst v. rewrite dkim_value_tags. apply tags_loop_text; [constructor | by apply tags_ok | done]. }
  unfold parse_signature. rewrite E. cbn [signature_tags foldl fst snd]. clear.
  set (t := to_string now). unfold tag_or. reflexivity.
Qed.

(** ** The signed headers *)

Lemma getlines_sep_token sep s rest cur : sep ∉ s → getlines_sep sep cur (s ++ sep :: rest) = (cur ++ s) :: getlines_sep sep [] rest.
Proof.
  revert cur. induction s as [| c s IH]; intros cur H; cbn [app getlines_sep]; [by rewrite Z.eqb_refl, app_nil_r |].
  apply not_elem_of_cons in H as [Hc H]. rewrite (proj2 (Z.eqb_neq c sep)) by done. rewrite IH by done. by rewrite <- app_assoc.
Qed.

Lemma getlines_sep_last sep s cur : sep ∉ s → cur ++ s ≠ [] → getlines_sep sep cur s = [cur ++ s].
Proof.
  revert cur. induction s as [| c s IH]; intros cur H Hne; cbn [app getlines_sep].
  - rewrite app_nil_r in *. by destruct cur.
  - apply not_elem_of_cons in H as [Hc H]. rewrite (proj2 (Z.eqb_neq c sep)) by done.
    rewrite IH; [by rewrite <- app_assoc | done |]. by destruct cur.
Qed.

Definition list_name (s : bytes) : bool := plain_name s && negb (bool_decide (58 ∈ s)) && negb (bool_decide (s = [])) && bool_decide (to_lower s = s).

Lemma list_name_inv s : list_name s = true → plain_name s = true ∧ 58 ∉ s ∧ s ≠ [] ∧ to_lower s = s.
Proof. unfold list_name. rewrite !andb_true_iff, !negb_true_iff, !bool_decide_eq_false, bool_decide_eq_true. tauto. Qed.

Lemma split_join names : Forall (λ s, list_name s = true) names → split (join_header_names_colon names) 58 = names.
Proof.
  intros H. unfold split. induction H as [| s names Hs Hn IH]; [done |].
  destruct (list_name_inv s Hs) as (Hp & Hc & Hne & _). apply plain_name_inv in Hp as [Ht _]. destruct names as [| s' names].
  - cbn [join_header_names_colon]. rewrite getlines_sep_last by done. by rewrite fmap_cons, token_trim.
  - change (join_header_names_colon (s :: s' :: names)) with (s ++ 58 :: join_header_names_colon (s' :: names)).
    rewrite getlines_sep_token, fmap_cons by done. cbn [app]. by rewrite token_trim, IH.
Qed.

Lemma join_plain names : Forall (λ s, list_name s = true) names → plain_name (join_header_names_colon names) = true.
Proof.
  induction 1 as [| s names Hs Hn IH]; [done |]. destruct (list_name_inv s Hs) as (Hp & _ & _ & _).
  destruct names as [| s' names]; [done |].
  change (join_header_names_colon (s :: s' :: names)) with (s ++ s! ":" ++ join_header_names_colon (s' :: names)).
  apply plain_name_inv in Hp as [H1 H2], IH as [H3 H4]. unfold plain_name. rewrite !token_app, H1, H3.
  apply negb_true_iff, bool_decide_eq_false. rewrite !elem_of_app. intros [H | [H | H]]; [done | | done].
  revert H. refine (bool_decide_unpack (61 ∉ s! ":") _). vm_compute. exact I.
Qed.

Lemma preferred_names : Forall (λ s, list_name s = true) preferred.
Proof. refine (bool_decide_unpack _ _). vm_compute. exact I. Qed.

Lemma picked_preferred headers h : h ∈ pick_present_headers_for_dkim headers ↔ h ∈ preferred ∧ is_Some (headers !! h).
Proof. unfold pick_present_headers_for_dkim. rewrite !list_elem_of_In, List.filter_In, bool_decide_eq_true. done. Qed.

Lemma picked_names headers : Forall (λ s, list_name s = true) (pick_present_headers_for_dkim headers).
Proof.
  apply list.Forall_forall. intros h Hh. apply picked_preferred in Hh as [Hh _].
  pose proof preferred_names as H. rewrite list.Forall_forall in H. by apply H.
Qed.

(** The text both sides agree on. *)
Lemma signed_text_concat headers names :
  (∀ h, h ∈ names → is_Some (headers !! h)) →
  signed_text headers names = inr (concat ((λ h, canonicalize_header_relaxed h (default [] (headers !! h))) <$> names)).
Proof.
  induction names as [| h names IH]; intros H; [done |]. cbn [signed_text]. destruct (H h (list_elem_of_here _ _)) as [v Hv].
  rewrite Hv, IH; [| intros h' Hh'; by apply H, list_elem_of_further]. rewrite fmap_cons, Hv. done.
Qed.

(** A name is used at most once, and then with a value that is not empty. *)
Definition single (fields : list Field) (n : bytes) : bool :=
  match occurrences n fields with [] | [_ :: _] => true | _ => false end.

Lemma single_inv fields n : single fields n = true → occurrences n fields = [] ∨ ∃ v, v ≠ [] ∧ occurrences n fields = [v].
Proof.
  unfold single. destruct (occurrences n fields) as [| [| c v] [| ? ?]] eqn:E; try done; [by left |]. right. by exists (c :: v).
Qed.

Section Agree.
Context (fields : list Field) (header_block : bytes) (d : Field) (dkim_line : bytes).
Context (Hreads : reads (getlines [] header_block) (concat (field_lines <$> fields))) (Hok : forallb field_ok fields = true).
Context (Hdr : strip_cr dkim_line = fname d ++ 58 :: fvalue d) (Hdlf : LF ∉ dkim_line) (Hdok : field_ok d = true) (Hdc : fconts d = []).
Context (Hdn : to_lower (fname d) = s! "dkim-signature").

Lemma signed_reads : reads (getlines [] (dkim_line ++ LF :: header_block)) (concat (field_lines <$> (d :: fields))).
Proof.
  rewrite getlines_lf by done. unfold reads. rewrite !fmap_cons. cbn [concat app]. unfold reads in Hreads.
  rewrite Hreads. unfold field_lines at 2. rewrite Hdc, Hdr. done.
Qed.

Lemma dkim_values :
  value_of d ≠ [] →
  ∃ rest, get_header_values (dkim_line ++ LF :: header_block) (s! "dkim-signature") = value_of d :: rest.
Proof.
  intros Hne. unfold get_header_values. rewrite (header_values_fields _ (d :: fields)) by (apply signed_reads || by simpl; rewrite Hdok, Hok).
  unfold emit, occurrences. cbn [List.filter]. unfold named at 1. rewrite (bool_decide_true (to_lower (fname d) = _)) by done. rewrite fmap_cons. cbn [List.filter].
  rewrite (bool_decide_false (value_of d = [])) by done. by eexists.
Qed.

Lemma occurrences_dkim h : h ≠ s! "dkim-signature" → occurrences h (d :: fields) = occurrences h fields.
Proof. intros H. unfold occurrences. cbn [List.filter]. unfold named at 1. by rewrite bool_decide_false by congruence. Qed.

Lemma signed_header_agrees h :
  h ≠ s! "dkim-signature" → to_lower h = h → single fields h = true → is_Some (parse_headers_relaxed_map header_block !! h) →
  signed_header (dkim_line ++ LF :: header_block) h
  = canonicalize_header_relaxed h (default [] (parse_headers_relaxed_map header_block !! h)).
Proof.
  intros Hd Hl Hs. unfold parse_headers_relaxed_map. rewrite (relaxed_map_fields h fields) by done. rewrite lookup_empty.
  destruct (single_inv _ _ Hs) as [E | (v & Hv & E)]; rewrite E; [by intros [? ?] |]. intros _. cbn [list.last default].
  unfold signed_header, Inbound.parse_headers_map, get_header_values. rewrite Hl.
  destruct (headers_loop_keeps h (d :: fields) (getlines [] (dkim_line ++ LF :: header_block)) [] [] ∅) as [? ->];
    [apply signed_reads | by simpl; rewrite Hdok, Hok | right; by rewrite occurrences_dkim, E |].
  rewrite (header_values_fields h (d :: fields)) by (apply signed_reads || by simpl; rewrite Hdok, Hok).
  rewrite occurrences_dkim, E by done. unfold emit. rewrite (bool_decide_true ([] = [])), andb_false_r by done. cbn [app List.filter].
  by rewrite bool_decide_false.
Qed.
End Agree.

(** ** Signing and verifying *)

(** What the documentation of OpenSSL promises of its hash and its Base64. *)
Class OpenSsl (ssl : Crypto) := {
  digest_total : ∀ data, ∃ h, EVP_Digest ssl data = Some h ∧ h ≠ [] ∧ bytes_ok h;
  base64_total : ∀ data, data ≠ [] → bytes_ok data → ∃ t, EVP_EncodeBlock ssl data = Some t ∧ b64_text t = true;
  base64_back : ∀ data t, EVP_EncodeBlock ssl data = Some t →
    ∃ dec, EVP_DecodeBlock ssl (clean_base64 t) = inr dec ∧ unpad (clean_base64 t) dec = data;
}.

(** The published key belongs to the key file: what the file signs, it verifies. *)
Definition key_pair (ssl : Crypto) (rsa_sign : bytes → bytes → bytes + bytes) (key_file pubkey_b64 : bytes) : Prop :=
  pubkey_b64 ≠ [] ∧
  ∃ dec pkey, EVP_DecodeBlock ssl (clean_base64 pubkey_b64) = inr dec ∧ d2i_PUBKEY ssl (unpad (clean_base64 pubkey_b64) dec) = Some pkey ∧
    ∀ data, ∃ s, rsa_sign key_file data = inr s ∧ s ≠ [] ∧ bytes_ok s ∧ digest_verify ssl pkey data s = final_result true.

Lemma trim_blanks_ends a s t :
  is_blank a = false → t ≠ [] → token t = true → trim_blanks (SP :: a :: s ++ t) = a :: s ++ t.
Proof.
  intros Ha Hne Ht. unfold trim_blanks, drop_while_end.
  assert (drop_while is_blank (SP :: a :: s ++ t) = a :: s ++ t) as -> by (cbn; by rewrite Ha).
  destruct (exists_last Hne) as (t' & z & ->). change (a :: s ++ t' ++ [z]) with ((a :: s) ++ t' ++ [z]).
  rewrite app_assoc, reverse_snoc.
  assert (is_blank z = false) as Hz.
  { apply ws_blank. apply (token_chars (t' ++ [z])); [done |]. apply elem_of_app. right. by apply list_elem_of_singleton. }
  rewrite drop_while_id by done. by rewrite reverse_cons, reverse_involutive.
Qed.

Lemma strip_cr_snoc l : strip_cr (l ++ [CR]) = l.
Proof.
  unfold strip_cr. rewrite last_snoc, Z.eqb_refl, length_app. simpl. rewrite Nat.add_sub. apply take_app_length.
Qed.

Lemma token_no_lf s : token s = true → LF ∉ s.
Proof. intros H Hin. by destruct (token_chars s LF H Hin) as (? & _). Qed.

Section DkimLine.
Context (now : Z) (Hnow : 0 ≤ now).
Context (domain sel names bh sig : bytes).
Context (Hd : plain_name domain = true) (Hs : plain_name sel = true) (Hn : plain_name names = true).
Context (Hb : b64_text bh = true) (Hg : b64_text sig = true).

Let value := dkim_value now domain sel names bh.

Definition dkim_field : Field := mkField (s! "DKIM-Signature") (SP :: dkim_value now domain sel names bh ++ sig) [].

Lemma dkim_field_value : value_of dkim_field = value ++ sig.
Proof.
  destruct (b64_inv sig Hg) as (Ht & _ & _ & Hne). unfold value_of, dkim_field. cbn [fvalue fconts unfold_value foldl].
  apply trim_blanks_ends; done.
Qed.

Lemma value_no_lf : LF ∉ value ++ sig.
Proof.
  subst value. unfold dkim_value. apply plain_name_inv in Hd as [H1 _], Hs as [H2 _], Hn as [H3 _].
  destruct (plain_name_inv _ (to_string_plain now Hnow)) as [H4 _]. destruct (b64_inv _ Hb) as (H5 & _). destruct (b64_inv _ Hg) as (H6 & _).
  apply token_no_lf in H1, H2, H3, H4, H5, H6. rewrite !not_elem_of_app.
  repeat split; try assumption; refine (bool_decide_unpack _ _); vm_compute; exact I.
Qed.

Lemma dkim_line_no_lf : LF ∉ s! "DKIM-Signature: " ++ value ++ sig ++ [CR].
Proof.
  pose proof value_no_lf as H. rewrite !not_elem_of_app in H. rewrite !not_elem_of_app.
  repeat split; try tauto; refine (bool_decide_unpack _ _); vm_compute; exact I.
Qed.

Lemma dkim_line_strip : strip_cr (s! "DKIM-Signature: " ++ value ++ sig ++ [CR]) = fname dkim_field ++ 58 :: fvalue dkim_field.
Proof. rewrite !app_assoc. rewrite strip_cr_snoc. rewrite <- app_assoc. done. Qed.
End DkimLine.

Lemma cut_crlf s : take (length (s ++ CRLF) - 2) (s ++ CRLF) = s ∧ drop_crlf (s ++ CRLF) = s.
Proof.
  assert (length (s ++ CRLF) - 2 = length s)%nat as E by (rewrite length_app; simpl; lia).
  unfold drop_crlf. rewrite E, drop_app_length, take_app_length. split; [done |].
  rewrite bool_decide_true by done. rewrite length_app. by rewrite (proj2 (Nat.leb_le 2 _)) by (cbn; lia).
Qed.

(** The canonical text that is signed. *)
Definition signed_data (headers : gmap bytes bytes) (names : list bytes) (value : bytes) : bytes :=
  concat ((λ h, canonicalize_header_relaxed h (default [] (headers !! h))) <$> names)
  ++ to_lower (s! "DKIM-Signature") ++ s! ":" ++ collapse_ws value.

Lemma canonical_value value :
  canonicalize_header_relaxed (s! "DKIM-Signature") value = (to_lower (s! "DKIM-Signature") ++ s! ":" ++ collapse_ws value) ++ CRLF.
Proof. unfold canonicalize_header_relaxed. by rewrite <- !app_assoc. Qed.

Section Built.
Context (ssl : Crypto) (rsa_sign : bytes → bytes → bytes + bytes) (now : Z).
Context `{!OpenSsl ssl}.

Lemma encoded data : data ≠ [] → bytes_ok data → b64_text (base64_encode (EVP_EncodeBlock ssl) data) = true ∧
  EVP_EncodeBlock ssl data = Some (base64_encode (EVP_EncodeBlock ssl) data).
Proof.
  intros Hne Hb. destruct (base64_total data Hne Hb) as (t & Ht & Hok). unfold base64_encode. destruct data; [done |]. by rewrite Ht.
Qed.

Lemma hash_text data : b64_text (sha256_base64 (EVP_EncodeBlock ssl) (EVP_Digest ssl) data) = true.
Proof. unfold sha256_base64. destruct (digest_total data) as (h & -> & Hne & Hb). by apply encoded. Qed.

Lemma built_header headers canonical_body identity names key :
  (∀ h, h ∈ names → is_Some (headers !! h)) → names ≠ [] →
  trim_ascii_ws (dkim_selector identity) ≠ [] → trim_ascii_ws (dkim_domain identity) ≠ [] →
  key_pair ssl rsa_sign (trim_ascii_ws (dkim_private_key_file identity)) key → trim_ascii_ws (dkim_private_key_file identity) ≠ [] →
  let value := dkim_value now (trim_ascii_ws (dkim_domain identity)) (trim_ascii_ws (dkim_selector identity))
                 (join_header_names_colon names) (sha256_base64 (EVP_EncodeBlock ssl) (EVP_Digest ssl) canonical_body) in
  ∃ s sig, rsa_sign (trim_ascii_ws (dkim_private_key_file identity)) (signed_data headers names value) = inr s ∧
    EVP_EncodeBlock ssl s = Some sig ∧ b64_text sig = true ∧
    build_dkim_header ssl rsa_sign now headers canonical_body identity names = inr (s! "DKIM-Signature: " ++ value ++ sig ++ CRLF).
Proof.
  intros Hall Hnames Hs Hd (_ & dec & pkey & _ & _ & Hkp) Hk value. destruct (Hkp (signed_data headers names value)) as (s & Hsg & Hsne & Hsb & _).
  destruct (encoded s Hsne Hsb) as [Ht He]. exists s, (base64_encode (EVP_EncodeBlock ssl) s). repeat split; try done.
  unfold build_dkim_header. rewrite bool_decide_false by naive_solver.
  assert (match names with [] => preferred | _ :: _ => names end = names) as -> by (by destruct names).
  pose proof (hash_text canonical_body) as Hbh. apply b64_inv in Hbh as (_ & _ & _ & Hbh). fold value.
  destruct (sha256_base64 _ _ canonical_body) as [| b0 bh0] eqn:Eb; [done |]. fold value.
  rewrite signed_text_concat by done. rewrite canonical_value. rewrite (proj1 (cut_crlf _)). fold (signed_data headers names value).
  unfold sign_rsa_sha256_base64. rewrite Hsg. apply b64_inv in Ht as (_ & _ & _ & Htne).
  by destruct (base64_encode _ s) eqn:E.
Qed.
End Built.

Section Verify.
Context (dns : Dns) (ssl : Crypto) (now : Z) (Hnow : 0 ≤ now).
Context (fields : list Field) (header_block : bytes).
Context (Hreads : reads (getlines [] header_block) (concat (field_lines <$> fields))) (Hok : forallb field_ok fields = true).
Context (Hsingle : forallb (single fields) preferred = true).
Context (domain sel bh sig : bytes).
Context (Hd : plain_name domain = true) (Hs : plain_name sel = true) (Hdne : domain ≠ []) (Hsne : sel ≠ []).
Context (Hb : b64_text bh = true) (Hg : b64_text sig = true).

Let headers := parse_headers_relaxed_map header_block.
Let names := pick_present_headers_for_dkim headers.
Let value := dkim_value now domain sel (join_header_names_colon names) bh.
Let signed := s! "DKIM-Signature: " ++ value ++ sig ++ CRLF ++ header_block.

Lemma signed_line : signed = (s! "DKIM-Signature: " ++ value ++ sig ++ [CR]) ++ LF :: header_block.
Proof. subst signed. by rewrite <- !app_assoc. Qed.

Lemma parsed_signature :
  parse_signature (value ++ sig)
  = mkSig (s! "1") (s! "rsa-sha256") (to_lower domain) sel bh sig (s! "simple") (s! "relaxed") names (value ++ sig).
Proof.
  subst value. rewrite parse_signature_value by (try done; apply join_plain, picked_names). by rewrite split_join by apply picked_names.
Qed.

Lemma signed_headers_agree :
  concat (signed_header signed <$> names) = concat ((λ h, canonicalize_header_relaxed h (default [] (headers !! h))) <$> names).
Proof.
  f_equal. apply list_fmap_ext. intros i h Hi. rewrite signed_line.
  assert (h ∈ names) as Hin by (by eapply list_elem_of_lookup_2). pose proof (picked_names headers) as Hl. rewrite list.Forall_forall in Hl.
  destruct (list_name_inv h (Hl h Hin)) as (_ & _ & _ & Hlow). apply picked_preferred in Hin as [Hp Hsome].
  apply (signed_header_agrees fields header_block (dkim_field now domain sel (join_header_names_colon names) bh sig)); try done.
  - by apply dkim_line_strip.
  - apply dkim_line_no_lf; try done. apply join_plain, picked_names.
  - intros ->. revert Hp. refine (bool_decide_unpack (s! "dkim-signature" ∉ preferred) _). vm_compute. exact I.
  - rewrite forallb_forall in Hsingle. by apply Hsingle, list_elem_of_In.
Qed.

Lemma signing_input_agrees : signing_input (parse_signature (value ++ sig)) signed = signed_data headers names value.
Proof.
  rewrite parsed_signature. unfold signing_input, signed_data. cbn [signed_headers raw_value]. rewrite signed_headers_agree. f_equal.
  subst value. rewrite dkim_value_head. rewrite <- app_assoc, strip_b_tail.
  - by rewrite canonical_value, (proj2 (cut_crlf _)).
  - apply value_head_beq; try done. apply join_plain, picked_names.
  - by apply b64_inv in Hg as (? & _).
Qed.

Lemma first_signature :
  ∃ rest, parse_dkim_signatures signed = parse_signature (value ++ sig) :: rest.
Proof.
  destruct (dkim_values fields header_block (dkim_field now domain sel (join_header_names_colon names) bh sig)
              (s! "DKIM-Signature: " ++ value ++ sig ++ [CR]) Hreads Hok) as [rest E]; try done.
  - by apply dkim_line_strip.
  - apply dkim_line_no_lf; try done. apply join_plain, picked_names.
  - rewrite dkim_field_value by done. intros E. by apply app_nil in E as [E _].
  - unfold parse_dkim_signatures. rewrite signed_line, E, fmap_cons, dkim_field_value by done. fold value. rewrite filter_cons_True.
    + by eexists.
    + rewrite parsed_signature. cbn. apply b64_inv in Hg as (_ & _ & _ & Hgne). repeat split; [| done | done].
      intros E0. by apply fmap_nil_inv in E0.
Qed.

Context (rsa_sign : bytes → bytes → bytes + bytes) (key_file key s body : bytes) `{!OpenSsl ssl}.
Context (Hkp : key_pair ssl rsa_sign key_file key) (Hsign : rsa_sign key_file (signed_data headers names value) = inr s).
Context (Henc : EVP_EncodeBlock ssl s = Some sig).
Context (Hkey : extract_dkim_pubkey (resolve_txt dns (sel ++ s! "._domainkey." ++ to_lower domain)) = key).
Context (Hbody : bh = sha256_base64 (EVP_EncodeBlock ssl) (EVP_Digest ssl) (normalize_body_simple body)).

Lemma signature_valid : sig_valid dns ssl signed (memory_hash ssl body (parse_signature (value ++ sig))) (parse_signature (value ++ sig)) = true.
Proof.
  destruct Hkp as (Hne & dec & pkey & Hdec & Hpk & Hv). destruct (Hv (signed_data headers names value)) as (s' & Es & _ & _ & Hver).
  rewrite Hsign in Es. injection Es as <-. destruct (base64_back s sig Henc) as (sd & Hsd & Hun).
  assert (signature_ok ssl (parse_signature (value ++ sig)) signed key = true) as Hsok.
  { unfold signature_ok. rewrite Hdec, Hpk, signing_input_agrees. rewrite parsed_signature. cbn [signature]. by rewrite Hsd, Hun, Hver. }
  unfold sig_valid, memory_hash, key_domain. rewrite parsed_signature in Hsok |- *. cbn [algorithm sselector sdomain body_canon body_hash].
  rewrite Hkey. destruct key as [| k ks]; [done |]. rewrite Hsok. unfold normalize_body.
  rewrite (bool_decide_false (s! "simple" = s! "relaxed")) by done. rewrite <- Hbody. by rewrite !bool_decide_true.
Qed.

Lemma signed_passes : verdict (check_dkim_async dns ssl signed body) = (s! "pass", sel, to_lower domain).
Proof.
  rewrite check_dkim_async_spec. unfold dkim_spec. destruct first_signature as [rest ->]. unfold first_valid. cbn [find].
  rewrite signature_valid, parsed_signature. done.
Qed.
End Verify.

(** C11: a message that is signed for delivery passes the verification of
    incoming mail: with OpenSSL as documented, the key of the configuration
    published under the selector, and a message whose signed headers each occur
    at most once and are not empty, [sign_payload_if_dkim] puts one header in
    front, and [check_dkim_async] on the result says pass for the configured
    selector and domain. *)
Theorem sign_then_verify dns ssl rsa_sign now `{!OpenSsl ssl} fields raw header_block body identity key :
  let sel := trim_ascii_ws (dkim_selector identity) in
  let domain := trim_ascii_ws (dkim_domain identity) in
  let key_file := trim_ascii_ws (dkim_private_key_file identity) in
  dkim_enabled identity = true → 0 ≤ now →
  plain_name sel = true → plain_name domain = true → sel ≠ [] → domain ≠ [] → key_file ≠ [] →
  split_rfc5322_message raw = Some (header_block, body) →
  reads (getlines [] header_block) (concat (field_lines <$> fields)) → forallb field_ok fields = true →
  forallb (single fields) preferred = true → occurrences (s! "from") fields ≠ [] →
  key_pair ssl rsa_sign key_file key →
  extract_dkim_pubkey (resolve_txt dns (sel ++ s! "._domainkey." ++ to_lower domain)) = key →
  ∃ dkim_header,
    sign_payload_if_dkim ssl rsa_sign now raw identity = (dkim_header ++ header_block ++ CRLF ++ CRLF ++ body, []) ∧
    verdict (check_dkim_async dns ssl (dkim_header ++ header_block) body) = (s! "pass", sel, to_lower domain).
Proof.
  intros sel domain key_file He Hnow Hs Hd Hsne Hdne Hkne Hsplit Hr Hok Hsingle Hfrom Hkp Hkey.
  set (headers := parse_headers_relaxed_map header_block). set (names := pick_present_headers_for_dkim headers).
  assert (is_Some (headers !! s! "from")) as [v Hv].
  { subst headers. unfold parse_headers_relaxed_map. rewrite (relaxed_map_fields _ fields) by done.
    destruct (exists_last Hfrom) as (? & z & ->). rewrite last_snoc. by eexists. }
  assert (s! "from" ∈ names) as Hin by (apply picked_preferred; split; [left | by eexists]).
  assert (names ≠ []) as Hne by (intros E; rewrite E in Hin; by apply not_elem_of_nil in Hin).
  destruct (built_header ssl rsa_sign now headers (normalize_body_simple body) identity names key) as (s & sig & Hsg & Henc & Hsig & Hbuilt);
    [by intros h Hh; apply picked_preferred in Hh as [_ ?] | done | done | done | done | done |].
  fold sel domain key_file in Hsg, Hbuilt. eexists. split.
  - unfold sign_payload_if_dkim. rewrite He, Hsplit. cbn [negb]. fold headers. rewrite Hv. fold names. rewrite Hbuilt. reflexivity.
  - rewrite <- !app_assoc. apply (signed_passes dns ssl now Hnow fields header_block Hr Hok Hsingle domain sel _ sig Hd Hs Hdne Hsne (hash_text ssl _) Hsig
             rsa_sign key_file key s body Hkp Hsg Henc Hkey eq_refl).
Qed.

(** ** Examples *)

(** A hash, a key and a Base64 that keep the laws: each byte is written twice in
    two letters, and a signature is the signed text itself. *)
Definition toy_letters (b : Z) : bytes := [65 + b / 16; 65 + b mod 16; 65 + b / 16; 65 + b mod 16].

Definition toy_encode (data : bytes) : option bytes :=
  if forallb byte_okb data then Some (concat (toy_letters <$> data)) else None.

Fixpoint toy_decode (s : bytes) : bytes :=
  match s with
  | a :: b :: _ :: _ :: s => ((a - 65) * 16 + (b - 65)) :: toy_decode s
  | _ => []
  end.

Definition toy_sum (data : bytes) : bytes := 1 :: (to_u8 <$> data).

Definition sign_ssl : Crypto :=
  mkCrypto toy_encode (λ data, Some (toy_sum data)) toy_sum (λ s, inr (toy_decode s)) unit (λ _, Some tt)
    (λ _ data s, final_result (bool_decide (toy_sum data = s))).

Definition toy_sign (key_file data : bytes) : bytes + bytes :=
  if bool_decide (key_file = s! "/keys/1.pem") then inr (toy_sum data) else inl (s! "failed to open DKIM private key file: " ++ key_file).

Lemma toy_letter_range b c : byte_ok b → c ∈ toy_letters b → 65 ≤ c ≤ 80.
Proof.
  intros Hb Hc. pose proof (Z.div_lt_upper_bound b 16 16). pose proof (Z.div_pos b 16). pose proof (Z.mod_pos_bound b 16).
  unfold byte_ok in Hb. unfold toy_letters in Hc. repeat (apply elem_of_cons in Hc as [-> | Hc]; [lia |]). by apply not_elem_of_nil in Hc.
Qed.

Lemma toy_text_range data c : bytes_ok data → c ∈ concat (toy_letters <$> data) → 65 ≤ c ≤ 80.
Proof.
  induction 1 as [| b data Hb _ IH]; [by intros H%not_elem_of_nil |]. rewrite fmap_cons. cbn [concat]. rewrite elem_of_app.
  intros [H | H]; [by apply (toy_letter_range b) | by apply IH].
Qed.

Lemma toy_bytes data : forallb byte_okb data = true ↔ bytes_ok data.
Proof.
  rewrite forallb_forall, list.Forall_forall. setoid_rewrite byte_okb_spec. setoid_rewrite list_elem_of_In. done.
Qed.

Lemma toy_decode_encode data : bytes_ok data → toy_decode (concat (toy_letters <$> data)) = data.
Proof.
  induction 1 as [| b data Hb _ IH]; [done |]. rewrite fmap_cons. cbn [concat toy_letters app toy_decode]. rewrite IH. f_equal.
  pose proof (Z.div_mod b 16). lia.
Qed.

Lemma toy_text_ok data : data ≠ [] → bytes_ok data → b64_text (concat (toy_letters <$> data)) = true.
Proof.
  intros Hne Hb. pose proof (toy_text_range data) as Hr. set (t := concat _) in *.
  assert (t ≠ []) as Ht by (subst t; destruct data; [done |]; by rewrite fmap_cons).
  unfold b64_text. rewrite !andb_true_iff, !negb_true_iff, bool_decide_eq_false. repeat split.
  - apply forallb_forall. intros c Hc. apply list_elem_of_In in Hc. specialize (Hr c Hb Hc).
    unfold plain_char, is_ws, SP, HTAB, CR, LF, DQUOTE. lia.
  - apply has_beq_free. intros Hc. specialize (Hr 61 Hb Hc). lia.
  - destruct t as [| c t]; [done |]. specialize (Hr c Hb (list_elem_of_here _ _)). cbn. repeat case_match; done || lia.
  - done.
Qed.

Lemma filter_all {A} (P : A → Prop) `{∀ x, Decision (P x)} (l : list A) : Forall P l → filter P l = l.
Proof. induction 1; [done |]. rewrite filter_cons_True by done. by f_equal. Qed.

Lemma toy_clean data : bytes_ok data → clean_base64 (concat (toy_letters <$> data)) = concat (toy_letters <$> data).
Proof.
  intros Hb. unfold clean_base64. pose proof (toy_text_range data) as Hr. rewrite filter_all.
  - assert (length (concat (toy_letters <$> data)) = 4 * length data)%nat as ->.
    { clear. induction data as [| b data IH]; [done |]. rewrite fmap_cons. cbn [concat]. rewrite length_app, IH. simpl. lia. }
    rewrite Nat.mul_comm, Nat.Div0.mod_mul. by rewrite app_nil_r.
  - apply list.Forall_forall. intros c Hc. specialize (Hr c Hb Hc). unfold is_ws, SP, HTAB, CR, LF. lia.
Qed.

Lemma toy_unpad data : bytes_ok data → unpad (concat (toy_letters <$> data)) data = data.
Proof.
  intros Hb. pose proof (toy_text_range data) as Hr. unfold unpad. rewrite !bool_decide_false.
  - rewrite !Nat.sub_0_r. by apply take_ge.
  - intros [H _]. apply list_elem_of_lookup_2 in H. specialize (Hr 61 Hb H). lia.
  - intros H. apply last_Some in H as [l H]. assert (61 ∈ concat (toy_letters <$> data)) as H61.
    { rewrite H. apply elem_of_app. right. by apply list_elem_of_singleton. }
    specialize (Hr 61 Hb H61). lia.
Qed.

Lemma toy_sum_bytes data : bytes_ok (toy_sum data).
Proof. constructor; [unfold byte_ok; lia |]. apply list.Forall_forall. intros b Hb. apply list_elem_of_fmap in Hb as (z & -> & _). apply to_u8_range. Qed.

#[export] Instance sign_ssl_laws : OpenSsl sign_ssl.
Proof.
  split; cbn.
  - intros data. exists (toy_sum data). repeat split; [done | apply toy_sum_bytes].
  - intros data Hne Hb. unfold toy_encode. rewrite (proj2 (toy_bytes data)) by done. eexists. split; [done |]. by apply toy_text_ok.
  - intros data t H. unfold toy_encode in H. destruct (forallb byte_okb data) eqn:E; [| done]. injection H as <-. apply toy_bytes in E.
    eexists. split; [done |]. by rewrite toy_clean, toy_decode_encode, toy_unpad.
Qed.

Definition toy_identity : Identity := mkIdentity true (s! "mail ") (s! "Shop.org") (s! "/keys/1.pem").

Definition toy_fields : list Field :=
  [mkField (s! "From") (s! " ann@shop.org") []; mkField (s! "To") (s! " bob@example.net") [];
   mkField (s! "Subject") (s! " Hello") [s! "	and  more "]; mkField (s! "X-Empty") [] []].

Definition toy_message : bytes :=
  s! "From: ann@shop.org" ++ CRLF ++ s! "To: bob@example.net" ++ CRLF ++ s! "Subject: Hello" ++ CRLF ++ s! "	and  more " ++ CRLF
  ++ s! "X-Empty:" ++ CRLF ++ CRLF ++ s! "Hi Bob" ++ CRLF.

Definition toy_published : list (bytes * list bytes) := [(s! "mail._domainkey.shop.org", [s! "v=DKIM1; k=rsa; p=AAAA"])].

Lemma toy_key_pair : key_pair sign_ssl toy_sign (s! "/keys/1.pem") (s! "AAAA").
Proof.
  split; [done |]. eexists _, tt. split; [reflexivity |]. split; [done |]. intros data. exists (toy_sum data).
  repeat split; [done | apply toy_sum_bytes |]. cbn. by rewrite bool_decide_true.
Qed.

Lemma sign_then_verify_witness :
  let header_block := take 78 toy_message in
  ∃ dkim_header,
    sign_payload_if_dkim sign_ssl toy_sign 1700000000 toy_message toy_identity
    = (dkim_header ++ header_block ++ CRLF ++ CRLF ++ s! "Hi Bob" ++ CRLF, []) ∧
    verdict (check_dkim_async (toy_dns toy_published) sign_ssl (dkim_header ++ header_block) (s! "Hi Bob" ++ CRLF))
    = (s! "pass", s! "mail", s! "shop.org").
Proof.
  intros header_block.
  refine (sign_then_verify (toy_dns toy_published) sign_ssl toy_sign 1700000000 toy_fields toy_message header_block _ toy_identity
            (s! "AAAA") _ _ _ _ _ _ _ _ _ _ _ _ toy_key_pair _); try (vm_compute; reflexivity); try (vm_compute; discriminate).
Defined.

(** What the verifier says of the message when it is signed and split again; the
    reason why it was not signed otherwise. *)
Definition signed_verdict (raw : bytes) : bytes :=
  match sign_payload_if_dkim sign_ssl toy_sign 1700000000 raw toy_identity with
  | (signed, []) =>
      match split_rfc5322_message signed with
      | Some (hb, body) => dkim_result (check_dkim_async (toy_dns toy_published) sign_ssl hb body)
      | None => s! "unsplit"
      end
  | (_, error) => error
  end.

(** The verifier passes over a header that is signed but empty, so the signature
    of a message with an empty subject does not verify. *)
Theorem empty_subject_breaks_signature :
  signed_verdict (s! "From: ann@shop.org" ++ CRLF ++ s! "Subject: Hi" ++ CRLF ++ CRLF ++ s! "Hi") = s! "pass" ∧
  signed_verdict (s! "From: ann@shop.org" ++ CRLF ++ s! "Subject:" ++ CRLF ++ CRLF ++ s! "Hi") = s! "fail".
Proof. split; vm_compute; reflexivity. Qed.

(** Of a header that occurs twice the signer takes the last and the verifier the
    first. *)
Theorem repeated_header_breaks_signature :
  signed_verdict (s! "From: ann@shop.org" ++ CRLF ++ s! "To: bob@example.net" ++ CRLF ++ s! "To: eve@example.net" ++ CRLF ++ CRLF ++ s! "Hi")
  = s! "fail".
Proof. vm_compute. reflexivity. Qed.
