(* ===== verification/MxRouting.v ===== *)
(** * Where a message is delivered

    Models [outbound/mx_routing_utils.cpp] and the routing of
    [outbound/outbound_server.cpp]: which host and port a domain is delivered to,
    and which addresses are tried.  The answers of the resolver ([resolve_mx],
    [resolve_host_addresses] of [SyncDnsWrapper]) are parameters: MX hosts in the
    order given, and the addresses of a host.  An unordered map is a [gmap], the
    set of addresses already seen is threaded through the loops. *)

From S2P Require Import Prelude CString LruCache LineFolder SmtpText Outbox.

Record StaticRoute := mkRoute { sr_host : bytes; sr_port : Z }.

Record OutboundConfig := mkOutboundConfig {
  ports : list Z;
  static_routes : gmap bytes StaticRoute;
  default_route : StaticRoute;
}.

(** The initial values of the structure. *)
Definition default_config : OutboundConfig := mkOutboundConfig [25; 587; 465] ∅ (mkRoute [] 25).

(** The domain of a recipient as [OutboundServer] cuts it: the whole text when
    there is no at sign. *)
Definition server_extract_domain (addr : bytes) : bytes :=
  match find_char AT addr with Some at_pos => drop (at_pos + 1) addr | None => addr end.

(** [while (!host.empty() && host.back() == '.') host.pop_back()] *)
Definition trim_trailing_dot (host : bytes) : bytes := drop_while_end (λ c, c =? 46) host.

Definition is_ipv6_literal (address : bytes) : bool := bool_decide (is_Some (find_char 58 address)).

Definition has_external_recipient (to : list bytes) (local_domain : bytes) : bool :=
  existsb (λ recipient, let domain := extract_domain recipient in
                        negb (bool_decide (domain = [])) && negb (bool_decide (domain = local_domain))) to.

(** ** Host and port *)

Definition resolve_port (config : OutboundConfig) (domain : bytes) : Z :=
  let rest := if 0 <? sr_port (default_route config) then sr_port (default_route config)
              else match ports config with p :: _ => p | [] => 25 end in
  match static_routes config !! domain with
  | Some r => if 0 <? sr_port r then sr_port r else rest
  | None => rest
  end.

Definition resolve_target_host (config : OutboundConfig) (domain : bytes) : bytes :=
  let rest := match sr_host (default_route config) with [] => domain | h => h end in
  match static_routes config !! domain with
  | Some r => match sr_host r with [] => rest | h => h end
  | None => rest
  end.

(** ** Addresses *)

(** [seen.insert(addr).second] *)
Definition Seen : Type := gset bytes.

Section Resolver.
Context (resolve_mx : bytes → list bytes) (resolve_host_addresses : bytes → list bytes).

(** The loop over the addresses of one host. *)
Fixpoint add_addresses (addrs : list bytes) (out : list bytes) (seen : Seen) : list bytes * Seen :=
  match addrs with
  | [] => (out, seen)
  | addr :: addrs =>
      if negb (bool_decide (addr = [])) && negb (bool_decide (addr ∈ seen)) then add_addresses addrs (out ++ [addr]) ({[addr]} ∪ seen)
      else add_addresses addrs out seen
  end.

Fixpoint add_mx (mx_records : list bytes) (out : list bytes) (seen : Seen) : list bytes * Seen :=
  match mx_records with
  | [] => (out, seen)
  | mx :: mx_records =>
      let h := trim_trailing_dot mx in
      if bool_decide (h = []) then add_mx mx_records out seen
      else let '(out, seen) := add_addresses (resolve_host_addresses h) out seen in add_mx mx_records out seen
  end.

Definition resolve_mx_pool (resolver : bool) (domain : bytes) : list bytes :=
  if bool_decide (domain = []) || negb resolver then [] else
  let '(out, seen) := add_mx (resolve_mx domain) [] ∅ in
  match out with
  | [] => (add_addresses (resolve_host_addresses domain) out seen).1
  | _ => out
  end.

(** The same loops of [build_target_hosts], which sorts the addresses into two
    lists as it goes. *)
Definition Hosts : Type := list bytes * list bytes.

Fixpoint sort_addresses (addrs : list bytes) (hosts : Hosts) (unique_hosts : Seen) : Hosts * Seen :=
  match addrs with
  | [] => (hosts, unique_hosts)
  | addr :: addrs =>
      if negb (bool_decide (addr = [])) && negb (bool_decide (addr ∈ unique_hosts)) then
        sort_addresses addrs (if is_ipv6_literal addr then (hosts.1, hosts.2 ++ [addr]) else (hosts.1 ++ [addr], hosts.2))
          ({[addr]} ∪ unique_hosts)
      else sort_addresses addrs hosts unique_hosts
  end.

Fixpoint sort_mx (mx_records : list bytes) (hosts : Hosts) (unique_hosts : Seen) : Hosts * Seen :=
  match mx_records with
  | [] => (hosts, unique_hosts)
  | mx :: mx_records =>
      let mx_host := trim_trailing_dot mx in
      if bool_decide (mx_host = []) then sort_mx mx_records hosts unique_hosts
      else let '(hosts, unique_hosts) := sort_addresses (resolve_host_addresses mx_host) hosts unique_hosts in
           sort_mx mx_records hosts unique_hosts
  end.

Definition build_target_hosts (record : OutboxRecord) (resolver : bool) (static_routes : option (gmap bytes StaticRoute)) : list bytes :=
  let domain := extract_domain (rec_recipient record) in
  let dns :=
    if resolver && negb (bool_decide (domain = [])) then
      let '(hosts, unique_hosts) := sort_mx (resolve_mx domain) ([], []) ∅ in
      let hosts := match hosts with
                   | ([], []) => (sort_addresses (resolve_host_addresses domain) hosts unique_hosts).1
                   | _ => hosts
                   end in
      hosts.1 ++ hosts.2
    else [] in
  match static_routes with
  | Some routes =>
      if bool_decide (domain = []) then dns else
      match routes !! domain with Some r => [sr_host r] | None => dns end
  | None => dns
  end.

End Resolver.

(** ** What the loops collect *)

(** The new addresses of a list, in order. *)
Fixpoint fresh_addresses (addrs : list bytes) (seen : Seen) : list bytes :=
  match addrs with
  | [] => []
  | a :: addrs => if bool_decide (a = [] ∨ a ∈ seen) then fresh_addresses addrs seen else a :: fresh_addresses addrs ({[a]} ∪ seen)
  end.

(** All addresses of a list of hosts. *)
Definition mx_addresses (resolve_host_addresses : bytes → list bytes) (mx_records : list bytes) : list bytes :=
  concat ((λ mx, let h := trim_trailing_dot mx in if bool_decide (h = []) then [] else resolve_host_addresses h) <$> mx_records).

Lemma fresh_test (a : bytes) (seen : Seen) :
  negb (bool_decide (a = [])) && negb (bool_decide (a ∈ seen)) = negb (bool_decide (a = [] ∨ a ∈ seen)).
Proof. repeat case_bool_decide; tauto. Qed.

Lemma add_addresses_spec addrs out seen :
  add_addresses addrs out seen = (out ++ fresh_addresses addrs seen, list_to_set (fresh_addresses addrs seen) ∪ seen).
Proof.
  revert out seen. induction addrs as [| a addrs IH]; intros out seen; cbn [add_addresses fresh_addresses].
  { cbn. by rewrite app_nil_r, (left_id_L ∅ (∪)). }
  rewrite fresh_test. case_bool_decide; cbn [negb]; rewrite IH; [done |]. rewrite <- app_assoc. f_equal. cbn [list_to_set]. set_solver.
Qed.

Lemma fresh_addresses_app l1 l2 seen :
  fresh_addresses (l1 ++ l2) seen = fresh_addresses l1 seen ++ fresh_addresses l2 (list_to_set (fresh_addresses l1 seen) ∪ seen).
Proof.
  revert seen. induction l1 as [| a l1 IH]; intros seen; cbn [app fresh_addresses]; [cbn; by rewrite (left_id_L ∅ (∪)) |].
  case_bool_decide; [apply IH |]. cbn [app list_to_set]. f_equal. rewrite IH. do 2 f_equal. set_solver.
Qed.

Lemma add_mx_spec addresses mx_records out seen :
  add_mx addresses mx_records out seen =
    (out ++ fresh_addresses (mx_addresses addresses mx_records) seen,
     list_to_set (fresh_addresses (mx_addresses addresses mx_records) seen) ∪ seen).
Proof.
  revert out seen. induction mx_records as [| mx l IH]; intros out seen; cbn [add_mx]; [cbn; by rewrite app_nil_r, (left_id_L ∅ (∪)) |].
  unfold mx_addresses. rewrite fmap_cons. cbn [concat]. cbv zeta. case_bool_decide; [apply IH |].
  rewrite add_addresses_spec, IH, fresh_addresses_app, app_assoc, list_to_set_app_L. f_equal. set_solver.
Qed.

(** The two lists are the two halves of the one. *)
Definition halves (l : list bytes) : Hosts := (List.filter (negb ∘ is_ipv6_literal) l, List.filter is_ipv6_literal l).

Lemma halves_snoc l a : halves (l ++ [a]) = if is_ipv6_literal a then ((halves l).1, (halves l).2 ++ [a]) else ((halves l).1 ++ [a], (halves l).2).
Proof. unfold halves. rewrite !List.filter_app. cbn. by destruct (is_ipv6_literal a); cbn; rewrite app_nil_r. Qed.

Lemma sort_addresses_spec addrs out seen :
  sort_addresses addrs (halves out) seen = (halves (add_addresses addrs out seen).1, (add_addresses addrs out seen).2).
Proof.
  revert out seen. induction addrs as [| a addrs IH]; intros out seen; cbn [sort_addresses add_addresses]; [done |].
  destruct (_ && _); [| apply IH]. by rewrite <- halves_snoc, IH.
Qed.

Lemma sort_mx_spec addresses mx_records out seen :
  sort_mx addresses mx_records (halves out) seen = (halves (add_mx addresses mx_records out seen).1, (add_mx addresses mx_records out seen).2).
Proof.
  revert out seen. induction mx_records as [| mx l IH]; intros out seen; cbn [sort_mx add_mx]; [done |]. cbv zeta.
  case_bool_decide; [apply IH |]. rewrite sort_addresses_spec. destruct (add_addresses _ _ _) as [out1 seen1]. apply IH.
Qed.

Lemma halves_nil l : halves l = ([], []) → l = [].
Proof. destruct l as [| a l]; [done |]. unfold halves. cbn. by destruct (is_ipv6_literal a). Qed.

Lemma fresh_addresses_spec addrs seen :
  NoDup (fresh_addresses addrs seen) ∧ ∀ a, a ∈ fresh_addresses addrs seen ↔ a ∈ addrs ∧ a ≠ [] ∧ a ∉ seen.
Proof.
  revert seen. induction addrs as [| x l IH]; intros seen; cbn [fresh_addresses].
  { split; [constructor |]. intros a. set_solver. }
  case_bool_decide as Hx.
  - destruct (IH seen) as [Hn Hm]. split; [done |]. intros a. rewrite Hm, elem_of_cons. set_solver.
  - destruct (IH ({[x]} ∪ seen)) as [Hn Hm]. split.
    + apply list.NoDup_cons. split; [| done]. rewrite Hm. set_solver.
    + intros a. rewrite !elem_of_cons, Hm. destruct (decide (a = x)) as [-> |]; set_solver.
Qed.

(** What the pool of a domain holds. *)
Definition mail_hosts (resolve_mx resolve_host_addresses : bytes → list bytes) (domain : bytes) : list bytes :=
  let of_mx := mx_addresses resolve_host_addresses (resolve_mx domain) in
  if forallb (λ a, bool_decide (a = [])) of_mx then resolve_host_addresses domain else of_mx.

Lemma fresh_nil addrs : fresh_addresses addrs ∅ = [] ↔ forallb (λ a, bool_decide (a = [])) addrs = true.
Proof.
  rewrite forallb_forall. split.
  - intros E a Ha. apply bool_decide_eq_true. destruct (decide (a = [])) as [| Hne]; [done |]. exfalso.
    assert (a ∈ fresh_addresses addrs ∅) as Hin by (apply fresh_addresses_spec; split; [by apply list_elem_of_In | set_solver]).
    rewrite E in Hin. by apply not_elem_of_nil in Hin.
  - intros H. destruct (fresh_addresses addrs ∅) as [| a l] eqn:E; [done |]. exfalso.
    assert (a ∈ fresh_addresses addrs ∅) as Hin by (rewrite E; left). apply fresh_addresses_spec in Hin as (Hin & Hne & _).
    apply list_elem_of_In, H, bool_decide_eq_true in Hin. done.
Qed.

Lemma pool_fresh resolve_mx resolve_host_addresses domain :
  domain ≠ [] → resolve_mx_pool resolve_mx resolve_host_addresses true domain = fresh_addresses (mail_hosts resolve_mx resolve_host_addresses domain) ∅.
Proof.
  intros Hd. unfold resolve_mx_pool, mail_hosts. rewrite bool_decide_false by done. cbn [orb negb]. rewrite add_mx_spec. cbn [app].
  set (mx := mx_addresses _ _). destruct (fresh_addresses mx ∅) as [| a l] eqn:E.
  - rewrite (proj1 (fresh_nil mx) E), add_addresses_spec. cbn. by rewrite (left_id_L ∅ (∪)).
  - destruct (forallb _ mx) eqn:F; [| done]. apply fresh_nil in F. congruence.
Qed.

(** The addresses tried for a domain are those of its mail exchangers, or of
    the domain itself when they have none: each usable address exactly once. *)
Theorem mx_pool_addresses resolve_mx resolve_host_addresses domain a :
  domain ≠ [] →
  NoDup (resolve_mx_pool resolve_mx resolve_host_addresses true domain) ∧
  (a ∈ resolve_mx_pool resolve_mx resolve_host_addresses true domain ↔ a ≠ [] ∧ a ∈ mail_hosts resolve_mx resolve_host_addresses domain).
Proof.
  intros Hd. rewrite pool_fresh by done. destruct (fresh_addresses_spec (mail_hosts resolve_mx resolve_host_addresses domain) ∅) as [Hn Hm].
  split; [done |]. rewrite Hm. set_solver.
Qed.

(** The two routines that find the addresses of a domain agree: without a
    static route the hosts of a record are the pool of its domain, the IPv4
    addresses before the IPv6 addresses and each kind in its order. *)
Theorem target_hosts_are_pool resolve_mx resolve_host_addresses record resolver routes :
  let domain := extract_domain (rec_recipient record) in
  let pool := resolve_mx_pool resolve_mx resolve_host_addresses resolver domain in
  build_target_hosts resolve_mx resolve_host_addresses record resolver routes =
    match routes ≫= (λ r, if bool_decide (domain = []) then None else r !! domain) with
    | Some r => [sr_host r]
    | None => List.filter (negb ∘ is_ipv6_literal) pool ++ List.filter is_ipv6_literal pool
    end.
Proof.
  cbv zeta. set (domain := extract_domain (rec_recipient record)).
  set (pool := resolve_mx_pool resolve_mx resolve_host_addresses resolver domain).
  assert ((if resolver && negb (bool_decide (domain = [])) then
      let '(hosts, unique_hosts) := sort_mx resolve_host_addresses (resolve_mx domain) ([], []) ∅ in
      let hosts := match hosts with
                   | ([], []) => (sort_addresses (resolve_host_addresses domain) hosts unique_hosts).1
                   | _ => hosts
                   end in
      hosts.1 ++ hosts.2
    else []) = (halves pool).1 ++ (halves pool).2) as Hdns.
  { unfold pool, resolve_mx_pool. destruct resolver; cbn [andb negb]; [| by rewrite orb_true_r].
    destruct (bool_decide (domain = [])); cbn [negb orb]; [done |].
    change (@nil bytes, @nil bytes) with (halves []) at 1. rewrite sort_mx_spec.
    destruct (add_mx _ _ _ _) as [out seen]. cbn [fst snd]. destruct out as [| a out].
    - change (halves []) with (@nil bytes, @nil bytes). cbv zeta. change (@nil bytes, @nil bytes) with (halves []). by rewrite sort_addresses_spec.
    - destruct (halves (a :: out)) as [v4 v6] eqn:E. destruct v4, v6; try done. by apply halves_nil in E. }
  unfold build_target_hosts. fold domain. cbv zeta in Hdns |- *. rewrite Hdns. destruct routes as [routes|]; cbn [mbind option_bind]; [| done].
  case_bool_decide; [done |]. by destruct (routes !! domain).
Qed.

(** The configured ports are never used: the default route has a port of its own
    even when no default route is configured. *)
Theorem ports_ignored routes ps ps' domain :
  let config := λ p, mkOutboundConfig p routes (default_route default_config) in
  resolve_port (config ps) domain = resolve_port (config ps') domain.
Proof. unfold resolve_port. cbn. done. Qed.

Lemma mx_pool_addresses_witness :
  NoDup (resolve_mx_pool (λ _, [s! "m1."; s! "m2"]) (λ h, [h; s! "::1"; []]) true (s! "d")) ∧
  (s! "m1" ∈ resolve_mx_pool (λ _, [s! "m1."; s! "m2"]) (λ h, [h; s! "::1"; []]) true (s! "d") ↔
   s! "m1" ≠ [] ∧ s! "m1" ∈ mail_hosts (λ _, [s! "m1."; s! "m2"]) (λ h, [h; s! "::1"; []]) (s! "d")).
Proof. apply mx_pool_addresses. done. Defined.

Example mixed_pool :
  resolve_mx_pool (λ _, [s! "m1."; s! "m2"]) (λ h, [h; s! "::1"; []]) true (s! "d") = [s! "m1"; s! "::1"; s! "m2"] ∧
  build_target_hosts (λ _, [s! "m1."; s! "m2"]) (λ h, [h; s! "::1"; []]) (mkRecord 1 1 [] (s! "u@d") [] 0 8) true None
    = [s! "m1"; s! "m2"; s! "::1"].
Proof. split; vm_compute; reflexivity. Qed.
