(* ===== verification/OutboundSession.v ===== *)
(** * Delivery sessions

    Models [outbound/outbound_smtp_session.cpp]: the queue of one mail host, the
    preparation of a message on a worker, the attempts to connect, the delivery
    through the SMTP client and the idle connection.

    All functions run on the executor of the session, which runs what is posted
    to it in order.  [step] is one thing that happens: a call from another thread,
    the next posted function, or an answer of the worker, of the client or of the
    timer, which is posted as well.  What [client_->is_open()] and the clock say
    is part of the step ([Reading]).  A null pointer that would be used is
    [Crash].  Signing, the file system and the shortcut of the tests are
    parameters; [transports_] makes a fresh client each time. *)

From S2P Require Import Prelude CString LruCache LineFolder SmtpText MailCrypto SmtpClient.

Inductive SessionState := INIT | CONNECTING | CONNECTED | DELIVERING | CLOSING | CLOSED.

#[export] Instance SessionState_eq_dec : EqDecision SessionState.
Proof. solve_decision. Defined.

(** A mail at hand: its text, empty when it is still in the file. *)
Record MailBody := mkBody { mb_body : bytes; mb_path : bytes }.

Record MailDeliveryTask := mkTask {
  mail_id : Z;
  record_id : Z;
  t_sender : bytes;
  t_recipient : bytes;
  mail_ptr : option MailBody;
  created_at : Z;
  ttl : Z;
}.

Definition expired (now : Z) (t : MailDeliveryTask) : bool := ttl t <? now - created_at t.

(** [smtp::Result] with the stage as text. *)
Record DeliveryResult := mkDelivery { d_outcome : Outcome; d_code : Z; d_stage : bytes; d_error : bytes }.

(** What is posted to the executor. *)
Inductive Posted :=
  | PSubmit (t : MailDeliveryTask)
  | PPump
  | PPrepared (payload : bytes + bytes)            (* an error or the signed message *)
  | PConnected (r : DeliveryResult)
  | PSent (r : DeliveryResult)
  | PQuit
  | PIdle
  | PRetry
  | PClose
  | PPool (pool : list bytes).

(** The operation the client works on, the wait the timer is armed for. *)
Inductive ClientOp := c_connect | c_send | c_quit.
Inductive TimerOp := t_idle | t_retry.

Record Session := mkSession {
  mx_pool : list bytes;
  mx_index : nat;
  retries : Z;
  sent : Z;
  stopped : bool;
  queue : list MailDeliveryTask;
  task : option MailDeliveryTask;
  payload : option bytes;
  client : bool;                          (* [client_] is set *)
  active : bool;
  state : SessionState;
  pending : Z;
  posted : list Posted;
  worker : option MailDeliveryTask;       (* the message being prepared *)
  client_op : option ClientOp;
  timer : option TimerOp;
}.

Inductive Effect :=
  | Completion (record : Z) (r : DeliveryResult)
  | Connect (record : Z) (host : bytes)
  | Send (record : Z) (m : Message)
  | Quit
  | CloseClient
  | Dropped (records : list Z)
  | Crash.

Definition Out : Type := list Effect * Session.

Record Reading := mkReading { r_open : bool; r_now : Z }.

(** ** Updates *)

Definition set_task (t : option MailDeliveryTask) (q : list MailDeliveryTask) (a : bool) (st : SessionState) (s : Session) : Session :=
  mkSession (mx_pool s) (mx_index s) (retries s) (sent s) (stopped s) q t (payload s) (client s) a st (pending s) (posted s)
    (worker s) (client_op s) (timer s).

Definition set_counts (i : nat) (r n : Z) (s : Session) : Session :=
  mkSession (mx_pool s) i r n (stopped s) (queue s) (task s) (payload s) (client s) (active s) (state s) (pending s) (posted s)
    (worker s) (client_op s) (timer s).

Definition set_state (st : SessionState) (s : Session) : Session := set_task (task s) (queue s) (active s) st s.

Definition set_payload (p : option bytes) (n : Z) (s : Session) : Session :=
  mkSession (mx_pool s) (mx_index s) (retries s) (sent s) (stopped s) (queue s) (task s) p (client s) (active s) (state s) n (posted s)
    (worker s) (client_op s) (timer s).

Definition post (p : Posted) (s : Session) : Session :=
  mkSession (mx_pool s) (mx_index s) (retries s) (sent s) (stopped s) (queue s) (task s) (payload s) (client s) (active s) (state s)
    (pending s) (posted s ++ [p]) (worker s) (client_op s) (timer s).

Definition set_ops (w : option MailDeliveryTask) (c : bool) (o : option ClientOp) (t : option TimerOp) (s : Session) : Session :=
  mkSession (mx_pool s) (mx_index s) (retries s) (sent s) (stopped s) (queue s) (task s) (payload s) c (active s) (state s) (pending s)
    (posted s) w o t.

Section Session.
Context (host_ : bytes) (shortcut : bytes → bytes) (sign : bytes → bytes) (read_file : bytes → option bytes).

(** ** Operations *)

Definition idle (open_ : bool) (s : Session) : Session :=
  if negb (client s) || negb open_ then set_state CLOSED s
  else set_ops (worker s) (client s) (client_op s) (Some t_idle) (set_state CONNECTED s).

Definition quit (s : Session) : Out :=
  let s := set_state CLOSING s in
  if client s then ([Quit], set_ops (worker s) (client s) (Some c_quit) (timer s) s) else ([Crash], s).

Definition complete (r : DeliveryResult) (open_ : bool) (s : Session) : Out :=
  match task s with
  | None => ([Crash], s)
  | Some t =>
      let s := set_payload None (pending s - 1) (set_task None (queue s) false (state s) s) in
      let done := Completion (record_id t) r in
      if (100 <=? sent s) && client s && open_ then let '(acts, s) := quit s in (done :: acts, s)
      else ([done], post PPump s)
  end.

(** The job of the worker. *)
Definition prepared (t : MailDeliveryTask) : bytes + bytes :=
  match mail_ptr t with
  | None => inl (s! "mail payload missing")
  | Some m =>
      match mb_body m with
      | [] =>
          match read_file (mb_path m) with
          | None => inl (s! "cannot open mail body")
          | Some [] => inl (s! "empty mail body")
          | Some raw => inr (sign raw)
          end
      | raw => inr (sign raw)
      end
  end.

Definition prepare (s : Session) : Out :=
  match task s with
  | None => ([Crash], s)
  | Some t => ([], set_ops (Some t) (client s) (client_op s) (timer s) s)
  end.

Definition pump (r : Reading) (s : Session) : Out :=
  if stopped s || bool_decide (is_Some (task s)) || bool_decide (state s = CLOSING) then ([], s) else
  match queue s with
  | [] => ([], idle (r_open r) s)
  | t :: q =>
      let s := set_counts 0 0 (sent s) (set_task (Some t) q true DELIVERING s) in
      if expired (r_now r) t then complete (mkDelivery TemporaryFailure 0 (s! "queue") (s! "task TTL expired")) (r_open r) s
      else prepare s
  end.

Definition connect (s : Session) : Out :=
  if stopped s then ([], s) else
  let h := match mx_pool s with [] => host_ | pool => default [] (pool !! (mx_index s mod length pool)%nat) end in
  ([Connect (match task s with Some t => record_id t | None => -1 end) (shortcut h)],
   set_ops (worker s) true (Some c_connect) (timer s) (set_state CONNECTING s)).

Definition send (s : Session) : Out :=
  match task s, client s with
  | Some t, true =>
      ([Send (record_id t) (mkMessage (t_sender t) [t_recipient t] (payload s) 30000)],
       set_ops (worker s) true (Some c_send) (timer s) (set_state DELIVERING s))
  | _, _ => ([Crash], s)
  end.

Definition is_permanent (o : Outcome) : bool := match o with Rejected | AuthFailed => true | _ => false end.

(** The answer of [async_connect]. *)
Definition on_connected (r : DeliveryResult) (open_ : bool) (s : Session) : Out :=
  if stopped s then ([], s) else
  if bool_decide (d_outcome r = Ready) then send (set_counts (mx_index s) (retries s) 0 s) else
  if is_permanent (d_outcome r) then complete r open_ s else
  let next := S (mx_index s) in
  if negb (bool_decide (mx_pool s = [])) && (next <? length (mx_pool s))%nat
  then connect (set_counts next (retries s) (sent s) s) else
  let s := set_counts 0 (retries s + 1) (sent s) s in
  if 3 <=? retries s then complete r open_ s
  else ([], set_ops (worker s) (client s) (client_op s) (Some t_retry) s).

Definition on_sent (r : DeliveryResult) (open_ : bool) (s : Session) : Out :=
  if stopped s then ([], s) else
  complete r open_ (set_counts (mx_index s) (retries s) (if bool_decide (d_outcome r = Accepted) then sent s + 1 else sent s) s).

Definition on_prepared (p : bytes + bytes) (open_ : bool) (s : Session) : Out :=
  if stopped s then ([], s) else
  match p with
  | inl error => complete (mkDelivery TemporaryFailure 0 (s! "payload") error) open_ s
  | inr raw =>
      let s := set_payload (Some raw) (pending s) s in
      if client s && open_ then send s else connect s
  end.

Definition close_now (s : Session) : Out :=
  let owned := record_id <$> (option_list (task s) ++ queue s) in
  ((if client s then [CloseClient] else []) ++ [Dropped owned],
   mkSession (mx_pool s) (mx_index s) (retries s) (sent s) true [] None None (client s) false CLOSED
     (pending s - Z.of_nat (length owned)) (posted s) (worker s) (client_op s) None).

(** A function that was posted. *)
Definition run_posted (r : Reading) (p : Posted) (s : Session) : Out :=
  match p with
  | PSubmit t =>
      if stopped s then ([Dropped [record_id t]], set_payload (payload s) (pending s - 1) s) else
      let s := match task s with None => set_ops (worker s) (client s) (client_op s) None s | Some _ => s end in
      pump r (set_task (task s) (queue s ++ [t]) (active s) (state s) s)
  | PPump => pump r s
  | PPrepared res => on_prepared res (r_open r) s
  | PConnected res => on_connected res (r_open r) s
  | PSent res => on_sent res (r_open r) s
  | PQuit =>
      if stopped s then ([], s) else
      pump r (set_ops (worker s) false (client_op s) (timer s) (set_state CLOSED s))
  | PIdle =>
      if negb (stopped s) && bool_decide (task s = None) && bool_decide (queue s = []) && bool_decide (state s = CONNECTED)
      then quit s else ([], s)
  | PRetry => if stopped s then ([], s) else connect s
  | PClose => close_now s
  | PPool pool =>
      ([], mkSession pool (mx_index s) (retries s) (sent s) (stopped s) (queue s) (task s) (payload s) (client s) (active s) (state s)
             (pending s) (posted s) (worker s) (client_op s) (timer s))
  end.

(** ** What can happen *)

Inductive Event :=
  | Submit (t : MailDeliveryTask)
  | Close
  | SetPool (pool : list bytes)
  | RunNext (r : Reading)
  | WorkerDone
  | ClientDone (r : DeliveryResult)
  | TimerFired.

Definition step (e : Event) (s : Session) : Out :=
  match e with
  | Submit t => ([], post (PSubmit t) (set_payload (payload s) (pending s + 1) s))
  | Close => ([], post PClose s)
  | SetPool pool => ([], post (PPool pool) s)
  | RunNext r =>
      match posted s with
      | [] => ([], s)
      | p :: rest =>
          run_posted r p (mkSession (mx_pool s) (mx_index s) (retries s) (sent s) (stopped s) (queue s) (task s) (payload s) (client s)
                            (active s) (state s) (pending s) rest (worker s) (client_op s) (timer s))
      end
  | WorkerDone =>
      match worker s with
      | Some t => ([], post (PPrepared (prepared t)) (set_ops None (client s) (client_op s) (timer s) s))
      | None => ([], s)
      end
  | ClientDone r =>
      match client_op s with
      | Some o => ([], post (match o with c_connect => PConnected r | c_send => PSent r | c_quit => PQuit end)
                         (set_ops (worker s) (client s) None (timer s) s))
      | None => ([], s)
      end
  | TimerFired =>
      match timer s with
      | Some o => ([], post (match o with t_idle => PIdle | t_retry => PRetry end) (set_ops (worker s) (client s) (client_op s) None s))
      | None => ([], s)
      end
  end.

Fixpoint run_session (es : list Event) (s : Session) : Out :=
  match es with
  | [] => ([], s)
  | e :: es => let '(a, s) := step e s in let '(a', s) := run_session es s in (a ++ a', s)
  end.

Definition new_session : Session := mkSession [] 0 0 0 false [] None None false false INIT 0 [] None None None.
End Session.

(** ** Accounting *)

(** The records that were handed over and are not done with. *)
Definition submitted (p : Posted) : option Z := match p with PSubmit t => Some (record_id t) | _ => None end.

Definition waiting (s : Session) : list Z :=
  (record_id <$> option_list (task s)) ++ (record_id <$> queue s) ++ omap submitted (posted s).

Definition finished_by (a : Effect) : list Z :=
  match a with Completion r _ => [r] | Dropped rs => rs | _ => [] end.

Definition finished (acts : list Effect) : list Z := concat (finished_by <$> acts).

Definition handed (e : Event) : list Z := match e with Submit t => [record_id t] | _ => [] end.

(** What keeps the current task moving: a job, an operation of the client, a
    wait for the next attempt, or the answer of one of them. *)
Definition moves (p : Posted) : bool :=
  match p with PPrepared _ | PConnected _ | PSent _ | PRetry => true | _ => false end.

Definition is_quit (p : Posted) : bool := match p with PQuit => true | _ => false end.

Definition bit (b : bool) : nat := if b then 1 else 0.

Definition op_moves (o : option ClientOp) : bool := match o with Some c_connect | Some c_send => true | _ => false end.
Definition op_quits (o : option ClientOp) : bool := match o with Some c_quit => true | _ => false end.
Definition timer_moves (t : option TimerOp) : bool := match t with Some t_retry => true | _ => false end.
Definition worker_moves (w : option MailDeliveryTask) : bool := match w with Some _ => true | None => false end.

Definition tokens (s : Session) : nat :=
  bit (worker_moves (worker s)) + bit (op_moves (client_op s)) + bit (timer_moves (timer s)) + length (List.filter moves (posted s)).

Definition quits (s : Session) : nat := bit (op_quits (client_op s)) + length (List.filter is_quit (posted s)).

Definition busy (s : Session) : nat := length (option_list (task s)).

Definition connecting (s : Session) : Prop := client_op s = Some c_connect ∨ ∃ r, PConnected r ∈ posted s.

(** [k] moves of the task and [q] answers to QUIT are just being handled. *)
Record Good (k q : nat) (s : Session) : Prop := {
  g_pending : pending s = Z.of_nat (length (waiting s));
  g_tokens : stopped s = false → (tokens s + k = busy s)%nat;
  g_quits : stopped s = false → (quits s + q = bit (bool_decide (state s = CLOSING)))%nat;
  g_closing : stopped s = false → state s = CLOSING → task s = None;
  g_client : stopped s = false → state s = CONNECTED ∨ connecting s → client s = true;
  g_stopped : stopped s = true → task s = None ∧ queue s = [];
}.

(** A part of the session does its work: nothing crashes, the accounts stay in
    order, and the records are waiting or finished. *)
Definition works (before : list Z) (out : Out) : Prop :=
  Crash ∉ out.1 ∧ Good 0 0 out.2 ∧ before ≡ₚ finished out.1 ++ waiting out.2.

Lemma works_cons before a out :
  a ≠ Crash → works before out → works (finished_by a ++ before) (a :: out.1, out.2).
Proof.
  intros Ha (Hc & Hg & Hp). split; [by apply not_elem_of_cons |]. split; [done |]. cbn [fst snd].
  change (finished (a :: out.1)) with (finished_by a ++ finished out.1). rewrite <- app_assoc. by apply Permutation_app_head.
Qed.

Ltac open_session s :=
  destruct s as [pool ix re sn stp q tk pl cl ac st pe po wk op tm]; cbn in *.

Ltac good :=
  constructor; cbn in *; unfold tokens, busy, quits, connecting, waiting in *; cbn in *; intros; repeat case_bool_decide;
  rewrite ?length_app, ?length_fmap, ?omap_app, ?List.filter_app in *; cbn in *; first [done | lia | naive_solver lia].

Lemma quit_works s :
  Good 0 0 s → stopped s = false → task s = None → state s ≠ CLOSING → client s = true → works (waiting s) (quit s).
Proof.
  intros [H1 H2 H3 H4 H5 H6] Hs Ht Hst Hc. specialize (H2 Hs). specialize (H3 Hs). open_session s. subst. unfold quit, works. cbn.
  split; [by intros [?|[]%not_elem_of_nil]%elem_of_cons |].
  unfold tokens, busy, quits in *. cbn in *. rewrite bool_decide_false in H3 by done. cbn in H3.
  destruct op as [[]|]; cbn in *; try lia. split; [good | done].
Qed.

(** Functions that are posted without changing the accounts. *)
Definition neutral (p : Posted) : bool := match p with PPump | PIdle | PClose | PPool _ => true | _ => false end.

Lemma omap_snoc {A B} (f : A → option B) (l : list A) x : omap f (l ++ [x]) = omap f l ++ option_list (f x).
Proof. rewrite omap_app. cbn. by destruct (f x). Qed.

Lemma filter_snoc {A} (f : A → bool) (l : list A) x : length (List.filter f (l ++ [x])) = (length (List.filter f l) + bit (f x))%nat.
Proof. rewrite List.filter_app, length_app. cbn. by destruct (f x). Qed.

Lemma post_neutral p s k q : neutral p = true → Good k q s → Good k q (post p s) ∧ waiting (post p s) = waiting s.
Proof.
  intros Hp [H1 H2 H3 H4 H5 H6].
  assert (submitted p = None ∧ moves p = false ∧ is_quit p = false ∧ ∀ r, p ≠ PConnected r) as (E1 & E2 & E3 & E4) by (by destruct p).
  assert (waiting (post p s) = waiting s) as Hw by (unfold waiting; cbn; rewrite omap_snoc, E1; cbn; by rewrite app_nil_r).
  split; [| done]. constructor; try done; cbn.
  - by rewrite Hw.
  - unfold tokens. cbn. rewrite filter_snoc, E2, Nat.add_0_r. exact H2.
  - unfold quits. cbn. rewrite filter_snoc, E3, Nat.add_0_r. exact H3.
  - intros Hs [Hc | [Hc | [r Hr]]]; apply H5; [done | by left | done | by right; left | done |].
    cbn in Hr. apply elem_of_app in Hr as [Hr | Hr%list_elem_of_singleton]; [by right; right; exists r | by destruct (E4 r)].
Qed.

(** The current task is done with. *)
Lemma complete_works r open_ s t :
  Good 1 0 s → stopped s = false → task s = Some t → works (waiting s) (complete r open_ s).
Proof.
  intros [H1 H2 H3 H4 H5 H6] Hs Ht. pose proof (H4 Hs) as Hcl. unfold complete. rewrite Ht.
  set (s1 := set_payload None (pending s - 1) (set_task None (queue s) false (state s) s)).
  assert (state s ≠ CLOSING) as Hst by (intros E; by rewrite Hcl in Ht).
  assert (waiting s = record_id t :: waiting s1) as Hw by (unfold waiting; by rewrite Ht).
  assert (Good 0 0 s1) as Hg.
  { specialize (H2 Hs). specialize (H3 Hs). rewrite Hw in H1. unfold busy in H2. rewrite Ht in H2. subst s1. open_session s. subst. good. }
  rewrite Hw. destruct ((100 <=? sent s1) && client s1 && open_) eqn:E.
  - apply andb_true_iff in E as [E _]. apply andb_true_iff in E as [_ E].
    pose proof (quit_works s1 Hg Hs eq_refl Hst E) as Hq. destruct (quit s1) as [acts s2].
    by apply (works_cons _ (Completion (record_id t) r) (acts, s2)).
  - apply (works_cons _ (Completion (record_id t) r) ([], post PPump s1)); [done |]. destruct (post_neutral PPump s1 0 0 eq_refl Hg) as [Hg' Hw'].
    split; [apply not_elem_of_nil |]. split; [exact Hg' |]. cbn [fst snd]. by rewrite Hw'.
Qed.

(** With the task's move in hand nothing else is under way. *)
Lemma in_hand s t :
  Good 1 0 s → stopped s = false → task s = Some t →
  state s ≠ CLOSING ∧ worker s = None ∧ client_op s = None ∧ timer_moves (timer s) = false ∧
  length (List.filter moves (posted s)) = 0%nat ∧ length (List.filter is_quit (posted s)) = 0%nat.
Proof.
  intros [H1 H2 H3 H4 H5 H6] Hs Ht. specialize (H2 Hs). specialize (H3 Hs). specialize (H4 Hs).
  assert (state s ≠ CLOSING) as Hst by (intros E; by rewrite (H4 E) in Ht). rewrite bool_decide_false in H3 by done.
  unfold tokens, busy, quits in *. rewrite Ht in H2. cbn in H2, H3.
  destruct (worker s), (client_op s) as [[]|], (timer_moves (timer s)); cbn in *; try lia. repeat split; try done; lia.
Qed.

Lemma quiet_good s t w cl op tm st :
  Good 1 0 s → stopped s = false → task s = Some t →
  (bit (worker_moves w) + bit (op_moves op) + bit (timer_moves tm) = 1)%nat → op_quits op = false →
  st ≠ CLOSING → (st = CONNECTED ∨ op = Some c_connect → cl = true) → (client s = true → cl = true) →
  Good 0 0 (set_ops w cl op tm (set_state st s)).
Proof.
  intros Hg Hs Ht Htok Hq Hst Hcl Hkeep. destruct (in_hand s t Hg Hs Ht) as (Hst0 & Hw & Hop & Htm & Hm & Hqq).
  destruct Hg as [H1 H2 H3 H4 H5 H6]. constructor; cbn.
  - exact H1.
  - intros _. unfold tokens, busy. cbn. rewrite Ht, Hm. cbn. lia.
  - intros _. unfold quits. cbn. rewrite Hq, Hqq, bool_decide_false by done. done.
  - done.
  - intros _ [E | [E | [r Hr]]]; [by apply Hcl; left | by apply Hcl; right |]. apply Hkeep, (H5 Hs). right. right. by exists r.
  - congruence.
Qed.

Lemma set_state_same s : set_state (state s) s = s.
Proof. by destruct s. Qed.

Lemma prepare_works s t : Good 1 0 s → stopped s = false → task s = Some t → state s ≠ CONNECTED → works (waiting s) (prepare s).
Proof.
  intros Hg Hs Ht Hst. unfold prepare. rewrite Ht. destruct (in_hand s t Hg Hs Ht) as (Hst0 & Hw & Hop & Htm & Hm & Hqq).
  split; [apply not_elem_of_nil |]. split; [| done]. cbn [fst snd]. rewrite <- (set_state_same s) at 4.
  apply (quiet_good s t); try done; [by rewrite Hop, Htm | by rewrite Hop |]. rewrite Hop. by intros [?|?].
Qed.

Lemma send_works s t : Good 1 0 s → stopped s = false → task s = Some t → client s = true → works (waiting s) (send s).
Proof.
  intros Hg Hs Ht Hc. destruct (in_hand s t Hg Hs Ht) as (Hst0 & Hw & Hop & Htm & Hm & Hqq). unfold send. rewrite Ht, Hc.
  split; [by intros [?|[]%not_elem_of_nil]%elem_of_cons |]. split; [| done]. cbn [fst snd].
  apply (quiet_good s t); try done. by rewrite Hw, Htm.
Qed.

Lemma counts_good k q i r n s : Good k q s → Good k q (set_counts i r n s) ∧ waiting (set_counts i r n s) = waiting s.
Proof. intros [H1 H2 H3 H4 H5 H6]. split; [by constructor | done]. Qed.

Section Works.
Context (host_ : bytes) (shortcut : bytes → bytes).

Lemma connect_works s t : Good 1 0 s → stopped s = false → task s = Some t → works (waiting s) (connect host_ shortcut s).
Proof.
  intros Hg Hs Ht. destruct (in_hand s t Hg Hs Ht) as (Hst0 & Hw & Hop & Htm & Hm & Hqq). unfold connect. rewrite Hs.
  split; [by intros [?|[]%not_elem_of_nil]%elem_of_cons |]. split; [| done]. cbn [fst snd].
  apply (quiet_good s t); try done. by rewrite Hw, Htm.
Qed.

Lemma on_connected_works r open_ s t :
  Good 1 0 s → task s = Some t → client s = true → stopped s = false → works (waiting s) (on_connected host_ shortcut r open_ s).
Proof.
  intros Hg Ht Hc Hs. unfold on_connected. rewrite Hs. case_bool_decide.
  { by apply (send_works (set_counts (mx_index s) (retries s) 0 s) t); [apply counts_good | | |]. }
  destruct (is_permanent _); [by apply (complete_works _ _ _ t) |].
  destruct (negb _ && _); [by apply (connect_works (set_counts (S (mx_index s)) (retries s) (sent s) s) t); [apply counts_good | |] |].
  destruct (3 <=? _); [by apply (complete_works _ _ (set_counts 0 (retries s + 1) (sent s) s) t); [apply counts_good | |] |].
  destruct (in_hand s t Hg Hs Ht) as (Hst0 & Hw & Hop & Htm & Hm & Hqq).
  set (s1 := set_counts 0 (retries s + 1) (sent s) s). split; [apply not_elem_of_nil |]. split; [| done]. cbn [fst snd].
  rewrite <- (set_state_same s1) at 4. apply (quiet_good s1 t); try done; cbn.
  - by apply counts_good.
  - by rewrite Hw, Hop.
  - by rewrite Hop.
Qed.

End Works.

Lemma idle_works open_ s :
  Good 0 0 s → stopped s = false → task s = None → state s ≠ CLOSING → works (waiting s) ([], idle open_ s).
Proof.
  intros [H1 H2 H3 H4 H5 H6] Hs Ht Hst. split; [apply not_elem_of_nil |]. specialize (H2 Hs). specialize (H3 Hs). rewrite bool_decide_false in H3 by done.
  unfold tokens, busy, quits in H2, H3. rewrite Ht in H2. cbn in H2, H3.
  assert (Good 0 0 (idle open_ s) ∧ waiting (idle open_ s) = waiting s) as [Hg Hw].
  { unfold idle. destruct (client s) eqn:Ec; cbn [negb orb]; [destruct open_; cbn [negb] |].
    all: split; [constructor; cbn; unfold tokens, busy, quits; cbn; rewrite ?Ht, ?Hs; cbn; try done; intros; try lia | done].
    all: first [done | naive_solver]. }
  split; [done |]. cbn [fst snd]. by rewrite Hw.
Qed.

Lemma pump_works r s : Good 0 0 s → works (waiting s) (pump r s).
Proof.
  intros Hg. unfold pump. assert (works (waiting s) ([], s)) as Hid by (split; [apply not_elem_of_nil | by split]).
  destruct (stopped s) eqn:Hs; [done |]. cbn [orb]. destruct (task s) as [t|] eqn:Ht; [done |]. rewrite (bool_decide_false (is_Some None)) by (by intros [??]).
  cbn [orb]. case_bool_decide as Hst; [done |]. destruct (queue s) as [| t q] eqn:Eq; [by apply idle_works |].
  set (s1 := set_counts 0 0 (sent s) (set_task (Some t) q true DELIVERING s)).
  assert (waiting s = waiting s1) as Hw by (unfold waiting; cbn; by rewrite Ht, Eq).
  assert (Good 1 0 s1) as Hg1.
  { destruct Hg as [H1 H2 H3 H4 H5 H6]. specialize (H2 Hs). specialize (H3 Hs). rewrite bool_decide_false in H3 by done.
    unfold tokens, busy, quits in H2, H3. rewrite Ht in H2. cbn in H2, H3. constructor; [by rewrite <- Hw | ..]; cbn; try done.
    - intros _. unfold tokens, busy. cbn. lia.
    - intros _ [? | Hc]; [done |]. apply (H5 Hs). by right.
    - congruence. }
  rewrite Hw. destruct (expired _ _); [by apply (complete_works _ _ _ t) | by apply (prepare_works _ t)].
Qed.

Definition popped (rest : list Posted) (s : Session) : Session :=
  mkSession (mx_pool s) (mx_index s) (retries s) (sent s) (stopped s) (queue s) (task s) (payload s) (client s)
    (active s) (state s) (pending s) rest (worker s) (client_op s) (timer s).

Lemma pop_good p rest s :
  Good 0 0 s → posted s = p :: rest → submitted p = None →
  Good (bit (moves p)) (bit (is_quit p)) (popped rest s) ∧ waiting (popped rest s) = waiting s ∧
  (stopped s = false → (∃ r, p = PConnected r) → client s = true).
Proof.
  intros [H1 H2 H3 H4 H5 H6] Hp Hsub. assert (waiting (popped rest s) = waiting s) as Hw by (unfold waiting; rewrite Hp; cbn; by rewrite Hsub).
  split; [| split; [done |]].
  - constructor; try done.
    + by rewrite Hw.
    + intros Hs. specialize (H2 Hs). unfold tokens, busy in *. rewrite Hp in H2. cbn in *. destruct (moves p); cbn in *; lia.
    + intros Hs. specialize (H3 Hs). unfold quits in *. rewrite Hp in H3. cbn in *. destruct (is_quit p); cbn in *; lia.
    + cbn. intros Hs [Hc | [Hc | [r Hr]]]; apply (H5 Hs); [by left | by right; left |]. right. right. exists r. rewrite Hp. by right.
  - intros Hs [r ->]. apply (H5 Hs). right. right. exists r. rewrite Hp. by left.
Qed.

(** A move of the task is only handled while there is a task. *)
Lemma move_task q s : Good 1 q s → stopped s = false → ∃ t, task s = Some t.
Proof.
  intros [_ H2 _ _ _ _] Hs. specialize (H2 Hs). unfold busy in H2. destruct (task s) as [t|]; [by exists t | cbn in H2; lia].
Qed.

Lemma works_idle s : Good 0 0 s → works (waiting s) ([], s).
Proof. intros Hg. split; [apply not_elem_of_nil | by split]. Qed.

Lemma stopped_good k q s : stopped s = true → Good k q s → Good 0 0 s.
Proof. intros Hs [H1 H2 H3 H4 H5 H6]. constructor; try done; intros; congruence. Qed.

Lemma payload_good k q p s : Good k q s → Good k q (set_payload p (pending s) s).
Proof. intros [H1 H2 H3 H4 H5 H6]. by constructor. Qed.

Lemma close_works s : Good 0 0 s → works (waiting s) (close_now s).
Proof.
  intros [H1 H2 H3 H4 H5 H6]. unfold close_now. split.
  { cbn. destruct (client s); cbn; rewrite !elem_of_cons, elem_of_nil; naive_solver. }
  cbn [fst snd]. split.
  - constructor; cbn; try done. rewrite H1. unfold waiting. rewrite fmap_app, !length_app. cbn. lia.
  - unfold finished. rewrite fmap_app, concat_app.
    assert (concat (finished_by <$> (if client s then [CloseClient] else [])) = []) as -> by (by destruct (client s)).
    cbn. rewrite app_nil_r, fmap_app, <- app_assoc. done.
Qed.

(** A task that arrives joins the queue; an idle wait is over. *)
Definition enqueued (t : MailDeliveryTask) (s : Session) : Session :=
  let s := match task s with None => set_ops (worker s) (client s) (client_op s) None s | Some _ => s end in
  set_task (task s) (queue s ++ [t]) (active s) (state s) s.

Lemma enqueued_timer t s :
  enqueued t s = set_task (task s) (queue s ++ [t]) (active s) (state s)
                   (set_ops (worker s) (client s) (client_op s) (match task s with None => None | Some _ => timer s end) s).
Proof. unfold enqueued. destruct s as [? ? ? ? ? ? [?|] ? ? ? ? ? ? ? ? ?]; done. Qed.

Lemma submitted_good t rest s :
  Good 0 0 s → posted s = PSubmit t :: rest → stopped s = false →
  Good 0 0 (enqueued t (popped rest s)) ∧ waiting s ≡ₚ waiting (enqueued t (popped rest s)).
Proof.
  intros [H1 H2 H3 H4 H5 H6] Hp Hs. rewrite enqueued_timer. set (s2 := set_task _ _ _ _ _).
  assert (waiting s ≡ₚ waiting s2) as Hw by (subst s2; unfold waiting; rewrite Hp; cbn; rewrite fmap_app; by rewrite <- (app_assoc (record_id <$> queue s))).
  split; [| done]. specialize (H2 Hs). specialize (H3 Hs). unfold tokens, busy, quits in *. rewrite Hp in H2, H3. subst s2. constructor; cbn.
  - rewrite <- Hw. exact H1.
  - intros _. unfold tokens, busy. cbn. destruct (task s); cbn in *; lia.
  - intros _. exact H3.
  - exact H4.
  - intros _ [Hc | [Hc | [r0 Hr]]]; apply (H5 Hs); [by left | by right; left |]. right. right. exists r0. rewrite Hp. by right.
  - congruence.
Qed.

(** The answer to QUIT: the client is gone. *)
Definition quit_done (s : Session) : Session := set_ops (worker s) false (client_op s) (timer s) (set_state CLOSED s).

Lemma quit_done_good s : Good 0 1 s → stopped s = false → task s = None ∧ Good 0 0 (quit_done s).
Proof.
  intros [H1 H2 H3 H4 H5 H6] Hs. specialize (H3 Hs). unfold quits in H3. case_bool_decide as Hst; cbn in H3; [| lia].
  pose proof (H4 Hs Hst) as Ht. specialize (H2 Hs). unfold tokens, busy in H2. rewrite Ht in H2. cbn in H2. split; [done |].
  constructor; cbn; try done; unfold tokens, busy, quits; cbn; rewrite ?Ht, ?Hs; cbn; try done; try lia.
  { intros _. rewrite bool_decide_false by done. cbn. lia. }
  intros _ [? | [Hc | [r0 Hr]]]; [done | by cbn in Hc; rewrite Hc in H2; cbn in H2; lia |]. exfalso. cbn in Hr.
  assert (0 < length (List.filter moves (posted s)))%nat; [| lia]. apply list_elem_of_In in Hr.
  destruct (List.filter moves (posted s)) eqn:Ef; [| cbn; lia]. assert (In (PConnected r0) []) as []. rewrite <- Ef. by apply List.filter_In.
Qed.

Section Steps.
Context (host_ : bytes) (shortcut : bytes → bytes).

Lemma submit_works r t rest s :
  Good 0 0 s → posted s = PSubmit t :: rest → works (waiting s) (run_posted host_ shortcut r (PSubmit t) (popped rest s)).
Proof.
  intros Hg Hp. cbn [run_posted]. destruct (stopped (popped rest s)) eqn:Hs; cbn in Hs.
  - destruct Hg as [H1 H2 H3 H4 H5 H6]. destruct (H6 Hs) as [Ht Hq]. split; [by intros [?|[]%not_elem_of_nil]%elem_of_cons |]. cbn [fst snd]. split.
    + constructor; cbn; try congruence; [| done]. rewrite H1. unfold waiting. cbn. rewrite Hp, Ht, Hq. cbn. lia.
    + unfold waiting. cbn. by rewrite Hp, Ht, Hq.
  - destruct (submitted_good t rest s Hg Hp Hs) as [Hg2 Hw]. fold (enqueued t (popped rest s)).
    destruct (pump_works r _ Hg2) as (Hc & Hg' & Hp'). split; [done |]. split; [done |]. by rewrite Hw.
Qed.

Lemma run_posted_works r p rest s :
  Good 0 0 s → posted s = p :: rest → works (waiting s) (run_posted host_ shortcut r p (popped rest s)).
Proof.
  intros Hg Hp. destruct (submitted p) as [z|] eqn:Hsub; [by destruct p; try done; apply submit_works |].
  destruct (pop_good p rest s Hg Hp Hsub) as (Hg1 & Hw & Hcl). rewrite <- Hw. set (s1 := popped rest s) in *.
  assert (stopped s = stopped s1) as Est by done. assert (client s = client s1) as Ecl by done. clearbody s1.
  assert (stopped s1 = true → works (waiting s1) ([], s1)) as Hstop by (intros Hs; by eapply works_idle, stopped_good).
  destruct p as [t | | [e | raw] | res | res | | | | | pool]; cbn [run_posted moves is_quit bit] in *; try done.
  - by apply pump_works.
  - unfold on_prepared. destruct (stopped s1) eqn:Hs; [by apply Hstop |]. destruct (move_task _ _ Hg1 Hs) as [t Ht].
    by apply (complete_works _ _ _ t).
  - unfold on_prepared. destruct (stopped s1) eqn:Hs; [by apply Hstop |]. destruct (move_task _ _ Hg1 Hs) as [t Ht].
    pose proof (payload_good _ _ (Some raw) _ Hg1) as Hg2. destruct (client _ && _) eqn:E.
    + apply andb_true_iff in E as [E _]. by apply (send_works (set_payload (Some raw) (pending s1) s1) t).
    + by apply (connect_works _ _ (set_payload (Some raw) (pending s1) s1) t).
  - destruct (stopped s1) eqn:Hs; [unfold on_connected; rewrite Hs; by apply Hstop |]. destruct (move_task _ _ Hg1 Hs) as [t Ht].
    apply (on_connected_works _ _ _ _ _ t); try done. rewrite <- Ecl. apply Hcl; [done | by exists res].
  - unfold on_sent. destruct (stopped s1) eqn:Hs; [by apply Hstop |]. destruct (move_task _ _ Hg1 Hs) as [t Ht].
    by apply (complete_works _ _ (set_counts (mx_index s1) (retries s1) _ s1) t); [apply counts_good | |].
  - destruct (stopped s1) eqn:Hs; [by apply Hstop |]. by apply (pump_works r (quit_done s1)), quit_done_good.
  - destruct (negb (stopped s1) && _ && _ && _) eqn:E; [| by apply works_idle]. rewrite !andb_true_iff, !bool_decide_eq_true, negb_true_iff in E.
    destruct E as [[[Hs Ht] Hq] Hst]. apply quit_works; try done; [by rewrite Hst |]. destruct Hg1. apply g_client0; [done | by left].
  - destruct (stopped s1) eqn:Hs; [by apply Hstop |]. destruct (move_task _ _ Hg1 Hs) as [t Ht]. by apply (connect_works _ _ _ t).
  - by apply close_works.
  - split; [apply not_elem_of_nil |]. split; [| done]. destruct Hg1. by constructor.
Qed.
End Steps.

(** An answer is posted in place of what was under way. *)
Lemma post_answer p w o tm s :
  Good 0 0 s → submitted p = None →
  (bit (worker_moves w) + bit (op_moves o) + bit (timer_moves tm) + bit (moves p)
   = bit (worker_moves (worker s)) + bit (op_moves (client_op s)) + bit (timer_moves (timer s)))%nat →
  (bit (op_quits o) + bit (is_quit p) = bit (op_quits (client_op s)))%nat →
  (o = Some c_connect ∨ (∃ r, p = PConnected r) → client_op s = Some c_connect) →
  works (waiting s) ([], post p (set_ops w (client s) o tm s)).
Proof.
  intros [H1 H2 H3 H4 H5 H6] Hsub Hm Hq Hc. assert (waiting (post p (set_ops w (client s) o tm s)) = waiting s) as Hw
    by (unfold waiting; cbn; rewrite omap_snoc, Hsub; cbn; by rewrite app_nil_r).
  split; [apply not_elem_of_nil |]. cbn [fst snd]. rewrite Hw. split; [| done]. constructor.
  - by rewrite Hw.
  - intros Hs. specialize (H2 Hs). unfold tokens, busy in *. cbn. rewrite filter_snoc. lia.
  - intros Hs. specialize (H3 Hs). unfold quits in *. cbn. rewrite filter_snoc. lia.
  - exact H4.
  - intros Hs Hcc. apply (H5 Hs). destruct Hcc as [Hcc | [Hcc | [r Hr]]]; [by left | right; left; by apply Hc; left |].
    cbn in Hr. apply elem_of_app in Hr as [Hr | Hr%list_elem_of_singleton]; [by right; right; exists r |].
    right. left. apply Hc. right. by exists r.
  - exact H6.
Qed.

Section Run.
Context (host_ : bytes) (shortcut : bytes → bytes) (sign : bytes → bytes) (read_file : bytes → option bytes).

Lemma step_works e s : Good 0 0 s → works (handed e ++ waiting s) (step host_ shortcut sign read_file e s).
Proof.
  intros Hg. destruct e as [t | | pool | r | | r |]; cbn [step handed app].
  - split; [apply not_elem_of_nil |]. cbn [fst snd]. destruct Hg as [H1 H2 H3 H4 H5 H6].
    assert (waiting (post (PSubmit t) (set_payload (payload s) (pending s + 1) s)) = waiting s ++ [record_id t]) as Hw.
    { unfold waiting. cbn. rewrite omap_snoc. cbn. by rewrite !app_assoc. }
    split; [| rewrite Hw; cbn; apply Permutation_cons_append]. constructor.
    + rewrite Hw, length_app. cbn. lia.
    + intros Hs. specialize (H2 Hs). unfold tokens, busy in *. cbn. rewrite filter_snoc. cbn. lia.
    + intros Hs. specialize (H3 Hs). unfold quits in *. cbn. rewrite filter_snoc. cbn. lia.
    + exact H4.
    + intros Hs Hcc. apply (H5 Hs). destruct Hcc as [Hcc | [Hcc | [r Hr]]]; [by left | by right; left |].
      cbn in Hr. apply elem_of_app in Hr as [Hr | Hr%list_elem_of_singleton]; [by right; right; exists r | done].
    + exact H6.
  - destruct (post_neutral PClose s 0 0 eq_refl Hg) as [Hg' Hw]. rewrite <- Hw. by apply works_idle.
  - destruct (post_neutral (PPool pool) s 0 0 eq_refl Hg) as [Hg' Hw]. rewrite <- Hw. by apply works_idle.
  - destruct (posted s) as [| p rest] eqn:Hp; [by apply works_idle | by apply (run_posted_works _ _ r p rest s)].
  - destruct (worker s) as [t|] eqn:Ew; [| by apply works_idle]. apply post_answer; cbn; rewrite ?Ew; try done; [cbn; lia | naive_solver].
  - destruct (client_op s) as [o|] eqn:Eo; [| by apply works_idle].
    apply post_answer; rewrite ?Eo; try done; destruct o; cbn; try lia; naive_solver.
  - destruct (timer s) as [o|] eqn:Et; [| by apply works_idle].
    apply post_answer; rewrite ?Et; try done; destruct o; cbn; try lia; naive_solver.
Qed.

Lemma fresh_session_good : Good 0 0 new_session.
Proof. constructor; cbn; try done; intros _ [? | [? | [? []%not_elem_of_nil]]]; done. Qed.

Lemma run_works es s :
  Good 0 0 s → works (concat (handed <$> es) ++ waiting s) (run_session host_ shortcut sign read_file es s).
Proof.
  revert s. induction es as [| e es IH]; intros s Hg; [by apply works_idle |]. cbn [run_session].
  destruct (step_works e s Hg) as (Hc & Hg1 & Hp). destruct (step _ _ _ _ e s) as [a s1]. cbn [fst snd] in *.
  destruct (IH s1 Hg1) as (Hc2 & Hg2 & Hp2). destruct (run_session _ _ _ _ es s1) as [a2 s2]. cbn [fst snd] in *.
  split; [by apply not_elem_of_app |]. split; [done |]. cbn [fst snd].
  assert (finished (a ++ a2) = finished a ++ finished a2) as -> by (unfold finished; by rewrite fmap_app, concat_app).
  rewrite fmap_cons. cbn [concat]. rewrite <- !app_assoc, <- Hp2.
  rewrite (Permutation_app_comm (concat _) (waiting s)), app_assoc, Hp, <- app_assoc.
  by rewrite (Permutation_app_comm (waiting s1)).
Qed.
End Run.

(** C13: a delivery session answers for every message it is given exactly once:
    whatever order the calls, the posted functions, the worker, the client and the
    timer come in, no null pointer is used, and the records submitted are the
    records completed, the records dropped by a close and those still waiting,
    which the atomic counter counts. *)
Theorem delivery_accounted host_ shortcut sign read_file es :
  let '(acts, s) := run_session host_ shortcut sign read_file es new_session in
  Crash ∉ acts ∧
  concat (handed <$> es) ≡ₚ finished acts ++ waiting s ∧
  pending s = Z.of_nat (length (waiting s)).
Proof.
  destruct (run_works host_ shortcut sign read_file es new_session fresh_session_good) as (Hc & Hg & Hp).
  destruct (run_session _ _ _ _ es new_session) as [acts s]. cbn [fst snd] in *. split; [done |].
  split; [by rewrite app_nil_r in Hp | apply Hg].
Qed.

(** ** What is sent, and how often a host is tried *)

(** The connections tried since the last completion. *)
Definition tries (k : nat) (a : Effect) : nat :=
  match a with Completion _ _ => 0 | Connect _ _ => S k | _ => k end.

Section Careful.
Context (host_ : bytes) (shortcut : bytes → bytes) (sign : bytes → bytes) (read_file : bytes → option bytes).
Context (T : MailDeliveryTask → Prop) (n : nat) (Hn : (0 < n)%nat).

(** The payload at hand is that of the current task. *)
Definition ready (s : Session) : Prop :=
  ∃ t raw, task s = Some t ∧ payload s = Some raw ∧ prepared sign read_file t = inr raw.

Definition fresh (k : nat) (s : Session) : Prop := k = 0%nat ∧ retries s = 0 ∧ mx_index s = 0%nat.

Definition under_way (s : Session) (p : Posted) : Prop :=
  p ∈ posted s ∨
  match p with
  | PConnected _ => client_op s = Some c_connect
  | PRetry => timer s = Some t_retry
  | _ => False
  end.

Record Careful (k : nat) (s : Session) : Prop := {
  v_bound : (k ≤ 3 * n)%nat;
  v_pool : (length (mx_pool s) ≤ n)%nat;
  v_pools : ∀ pool, PPool pool ∈ posted s → (length pool ≤ n)%nat;
  v_task : ∀ t, task s = Some t ∨ t ∈ queue s ∨ PSubmit t ∈ posted s → T t;
  v_none : stopped s = false → task s = None → k = 0%nat ∧ payload s = None;
  v_worker : ∀ w, stopped s = false → worker s = Some w → task s = Some w ∧ fresh k s;
  v_prepared : ∀ p, stopped s = false → PPrepared p ∈ posted s → fresh k s ∧ ∃ t, task s = Some t ∧ p = prepared sign read_file t;
  v_connect : ∀ r, stopped s = false → under_way s (PConnected r) →
    ready s ∧ 0 ≤ retries s ≤ 2 ∧ (mx_index s < n)%nat ∧ (k ≤ Z.to_nat (retries s) * n + mx_index s + 1)%nat;
  v_retry : stopped s = false → under_way s PRetry → ready s ∧ 0 ≤ retries s ≤ 2 ∧ mx_index s = 0%nat ∧ (k ≤ Z.to_nat (retries s) * n)%nat;
}.

(** The message of a delivery is that of a task that was submitted. *)
Definition sends_ok (a : Effect) : Prop :=
  match a with
  | Send rid m => ∃ t raw, T t ∧ record_id t = rid ∧ prepared sign read_file t = inr raw ∧ m = mkMessage (t_sender t) [t_recipient t] (Some raw) 30000
  | _ => True
  end.

Definition careful (k : nat) (out : Out) : Prop := Forall sends_ok out.1 ∧ Careful (foldl tries k out.1) out.2.

Definition at_rest (s : Session) : Prop :=
  worker s = None ∧ client_op s ≠ Some c_connect ∧ timer s ≠ Some t_retry ∧ ∀ p, p ∈ posted s → moves p = false.

Lemma in_hand_rest s t : Good 1 0 s → stopped s = false → task s = Some t → at_rest s.
Proof.
  intros Hg Hs Ht. destruct (in_hand s t Hg Hs Ht) as (_ & Hw & Hop & Htm & Hm & _). split; [done |]. rewrite Hop. split; [done |].
  split; [by intros E; rewrite E in Htm |]. intros p Hp. destruct (moves p) eqn:E; [| done]. exfalso. apply list_elem_of_In in Hp.
  destruct (List.filter moves (posted s)) eqn:Ef; [| done]. assert (In p []) as []. rewrite <- Ef. by apply List.filter_In.
Qed.

Lemma good_rest s : Good 0 0 s → stopped s = false → task s = None → at_rest s.
Proof.
  intros [_ H2 _ _ _ _] Hs Ht. specialize (H2 Hs). unfold tokens, busy in H2. rewrite Ht in H2. cbn in H2.
  destruct (worker s) eqn:Ew, (client_op s) as [[]|] eqn:Eo, (timer s) as [[]|] eqn:Et; cbn in H2; try lia.
  all: unfold at_rest; rewrite Ew, Eo, Et; split; [done |]; split; [done |]; split; [done |]; intros p Hp; destruct (moves p) eqn:E; [| done].
  all: exfalso; apply list_elem_of_In in Hp; destruct (List.filter moves (posted s)) eqn:Ef; [| cbn in H2; lia];
    assert (In p []) as []; rewrite <- Ef; by apply List.filter_In.
Qed.

(** Nothing of the task is under way but what is said here. *)
Lemma rest_careful k s :
  at_rest s → (k ≤ 3 * n)%nat → (length (mx_pool s) ≤ n)%nat → (∀ pool, PPool pool ∈ posted s → (length pool ≤ n)%nat) →
  (∀ t, task s = Some t ∨ t ∈ queue s ∨ PSubmit t ∈ posted s → T t) → (task s = None → k = 0%nat ∧ payload s = None) → Careful k s.
Proof.
  intros (Hw & Ho & Ht & Hp) H1 H2 H3 H4 H5. constructor; try done.
  - intros w _ E. congruence.
  - intros p _ Hin. by apply Hp in Hin.
  - intros r _ [Hin | E]; [by apply Hp in Hin | done].
  - intros _ [Hin | E]; [by apply Hp in Hin | done].
Qed.

Definition known (s : Session) : Prop :=
  (length (mx_pool s) ≤ n)%nat ∧ (∀ pool, PPool pool ∈ posted s → (length pool ≤ n)%nat) ∧
  (∀ t, task s = Some t ∨ t ∈ queue s ∨ PSubmit t ∈ posted s → T t).

Lemma careful_known k s : Careful k s → known s.
Proof. intros []. done. Qed.

Lemma quit_careful k s : at_rest s → known s → (k ≤ 3 * n)%nat → (task s = None → k = 0%nat ∧ payload s = None) → careful k (quit s).
Proof.
  intros (Hw & Ho & Ht & Hp) (K1 & K2 & K3) Hk Hnone. unfold quit. destruct (client _); split; try (by repeat constructor).
  all: by apply rest_careful.
Qed.

Lemma complete_careful k r open_ s t :
  at_rest s → known s → task s = Some t → careful k (complete r open_ s).
Proof.
  intros Hr (K1 & K2 & K3) Ht. unfold complete. rewrite Ht. set (s1 := set_payload None (pending s - 1) _).
  assert (at_rest s1) as Hr1 by done.
  assert (known s1) as Hk1. { split; [done |]. split; [done |]. intros t' [? | Hin]; [done |]. apply K3. by right. }
  destruct (_ && _ && _).
  - destruct (quit_careful 0 s1 Hr1 Hk1) as [Ha Hc]; [lia | done |]. destruct (quit s1) as [acts s2]. split; [by constructor | done].
  - split; [by repeat constructor |]. destruct Hr1 as (Hw & Ho & Htm & Hp). destruct Hk1 as (L1 & L2 & L3). cbn. apply rest_careful; try done; try lia.
    + split; [done |]. split; [done |]. split; [done |]. cbn. intros p [Hin | Hin%list_elem_of_singleton]%elem_of_app; [by apply Hp | by subst].
    + cbn. intros pool [Hin | Hin%list_elem_of_singleton]%elem_of_app; [by apply L2 | done].
    + cbn. intros t' [? | [Hin | [Hin | Hin%list_elem_of_singleton]%elem_of_app]]; [done | apply L3; by right; left | apply L3; by right; right | done].
Qed.

Lemma connect_careful k s :
  at_rest s → known s → stopped s = false → ready s → 0 ≤ retries s ≤ 2 → (mx_index s < n)%nat →
  (k ≤ Z.to_nat (retries s) * n + mx_index s)%nat → careful k (connect host_ shortcut s).
Proof.
  intros (Hw & Ho & Htm & Hp) (K1 & K2 & K3) Hs (t & raw & Ht & Hpl & Hprep) Hret Hix Hk. unfold connect. rewrite Hs. split; [by repeat constructor |].
  cbn [foldl fst snd tries]. assert (Z.to_nat (retries s) ≤ 2)%nat as Hr2 by lia.
  assert (S k ≤ 3 * n)%nat as Hb by nia. constructor; try done; cbn; try congruence.
  - intros p _ Hin. by apply Hp in Hin.
  - intros r _ _. split; [by exists t, raw |]. split; [done |]. split; [done |]. lia.
  - intros _ [Hin | E]; [by apply Hp in Hin | done].
Qed.

Lemma send_careful k s :
  at_rest s → known s → (k ≤ 3 * n)%nat → ready s → client s = true → careful k (send s).
Proof.
  intros (Hw & Ho & Htm & Hp) (K1 & K2 & K3) Hk (t & raw & Ht & Hpl & Hprep) Hc. unfold send. rewrite Ht, Hc. split.
  - constructor; [| by constructor]. exists t, raw. split; [apply K3; by left |]. by rewrite Hpl.
  - cbn [foldl fst snd tries]. apply rest_careful; try done. cbn. congruence.
Qed.

Lemma prepare_careful s t :
  at_rest s → known s → task s = Some t → fresh 0 s → careful 0 (prepare s).
Proof.
  intros (Hw & Ho & Htm & Hp) (K1 & K2 & K3) Ht Hf. unfold prepare. rewrite Ht. split; [by constructor |]. cbn [foldl fst snd].
  constructor; try done; cbn; try congruence; try lia.
  - intros w _ [= <-]. done.
  - intros p _ Hin. by apply Hp in Hin.
  - intros r _ [Hin | E]; [by apply Hp in Hin | done].
  - intros _ [Hin | E]; [by apply Hp in Hin | done].
Qed.

Lemma pump_careful k r s : Good 0 0 s → Careful k s → careful k (pump r s).
Proof.
  intros Hg Hc. unfold pump. assert (careful k ([], s)) as Hid by (split; [by constructor | done]).
  destruct (stopped s) eqn:Hs; [done |]. cbn [orb]. destruct (task s) as [t|] eqn:Ht; [done |]. rewrite (bool_decide_false (is_Some None)) by (by intros [??]).
  cbn [orb]. case_bool_decide as Hst; [done |]. destruct (good_rest s Hg Hs Ht) as (Hw & Ho & Htm & Hp).
  destruct (careful_known k s Hc) as (K1 & K2 & K3). destruct (v_none k s Hc Hs Ht) as [Hk Hpl]. subst k.
  destruct (queue s) as [| t q] eqn:Eq.
  - split; [by constructor |]. cbn [foldl fst snd].
    assert (∀ st tm, tm ≠ Some t_retry → Careful 0 (set_ops (worker s) (client s) (client_op s) tm (set_state st s))) as Hgen.
    { intros st tm Htm'. apply rest_careful; cbn; try done; try lia. by rewrite Eq. }
    unfold idle. destruct (negb (client s) || negb (r_open r)); [| by apply Hgen].
    pose proof (Hgen CLOSED (timer s) Htm) as Hgoal. by destruct s.
  - set (s1 := set_counts 0 0 (sent s) (set_task (Some t) q true DELIVERING s)).
    assert (known s1) as Hk1. { split; [done |]. split; [done |]. cbn. intros t' Hin. apply K3. set_solver. }
    destruct (expired _ _); [by apply (complete_careful _ _ _ s1 t) |]. by apply (prepare_careful s1 t).
Qed.

Lemma on_connected_careful k r open_ s :
  at_rest s → known s → stopped s = false → client s = true → ready s → 0 ≤ retries s ≤ 2 → (mx_index s < n)%nat →
  (k ≤ 3 * n)%nat → (k ≤ Z.to_nat (retries s) * n + mx_index s + 1)%nat → careful k (on_connected host_ shortcut r open_ s).
Proof.
  intros Hr Hk Hs Hc Hrd Hret Hix Hb Hb2. pose proof Hrd as (t & raw & Ht & Hpl & Hprep). unfold on_connected. rewrite Hs. case_bool_decide.
  { by apply send_careful. }
  destruct (is_permanent _); [by apply (complete_careful _ _ _ s t) |]. destruct (negb _ && _) eqn:E.
  { apply andb_true_iff in E as [_ E]. apply Nat.ltb_lt in E. pose proof Hk as (K1 & _ & _).
    apply connect_careful; try done; cbn; lia. }
  cbn [retries set_counts]. destruct (Z.leb_spec 3 (retries s + 1)); [by apply (complete_careful _ _ _ _ t) |].
  destruct Hr as (Hw & Ho & Htm & Hp). destruct Hk as (K1 & K2 & K3). split; [by constructor |]. cbn [foldl fst snd].
  constructor; try done; cbn; try congruence.
  - intros p _ Hin. by apply Hp in Hin.
  - intros r' _ [Hin | E']; [by apply Hp in Hin | done].
  - intros _ _. split; [by exists t, raw |]. split; [lia |]. split; [done |]. rewrite Z2Nat.inj_add by lia. cbn. nia.
Qed.

Lemma pop_careful k p rest s : Careful k s → posted s = p :: rest → Careful k (popped rest s).
Proof.
  intros [] Hp. assert (∀ x, x ∈ rest → x ∈ posted s) as Hin by (intros x Hx; rewrite Hp; by right). constructor; try done; cbn; eauto.
  - intros t [? | [? | ?]]; apply v_task0; eauto.
  - intros r Hs [Hx | Hx]; apply (v_connect0 r Hs); [left; by apply Hin | by right].
  - intros Hs [Hx | Hx]; apply v_retry0; try done; [left; by apply Hin | by right].
Qed.

Lemma stopped_careful k s : stopped s = true → Careful k s → careful k ([], s).
Proof. intros Hs Hc. split; [by constructor | done]. Qed.

Lemma submit_careful k r t rest s :
  Good 0 0 s → Careful k s → posted s = PSubmit t :: rest → careful k (run_posted host_ shortcut r (PSubmit t) (popped rest s)).
Proof.
  intros Hg Hc Hp. pose proof (pop_careful k _ rest s Hc Hp) as Hc1. cbn [run_posted]. destruct (stopped (popped rest s)) eqn:Hs.
  { split; [by repeat constructor |]. cbn [foldl fst snd tries]. destruct Hc1. constructor; cbn; try done; intros; cbn in *; congruence. }
  destruct (submitted_good t rest s Hg Hp Hs) as [Hg2 _]. fold (enqueued t (popped rest s)). apply pump_careful; [done |].
  assert (T t) as HT by (apply (v_task k s Hc); right; right; rewrite Hp; by left). rewrite enqueued_timer. clear Hg2. destruct Hc1. constructor; try done; cbn.
  - intros t' [Ht' | [Ht' | Ht']]; [by apply v_task0; left | | by apply v_task0; right; right].
    apply elem_of_app in Ht' as [Ht' | ->%list_elem_of_singleton]; [by apply v_task0; right; left | done].
  - intros Hst [Hin | Hin]; cbn in Hin; apply v_retry0; try done; [by left | right; by destruct (task s)].
Qed.

Lemma close_careful k s : Careful k s → careful k (close_now s).
Proof.
  intros [] . unfold close_now. split; [destruct (client s); by repeat constructor |]. cbn [fst snd].
  rewrite foldl_app. replace (foldl tries k (if client s then [CloseClient] else [])) with k by (by destruct (client s)). cbn [foldl tries].
  constructor; cbn; try done. intros t [? | [?%not_elem_of_nil | ?]]; [done | done |]. apply v_task0. by right; right.
Qed.

Lemma pool_careful k pool rest s :
  Careful k s → posted s = PPool pool :: rest → Careful k (popped rest s) →
  careful k ([], mkSession pool (mx_index s) (retries s) (sent s) (stopped s) (queue s) (task s) (payload s) (client s) (active s) (state s)
                   (pending s) rest (worker s) (client_op s) (timer s)).
Proof.
  intros Hc Hp []. split; [by constructor |]. assert (length pool ≤ n)%nat as Hl by (apply (v_pools k s Hc); rewrite Hp; by left).
  by constructor.
Qed.

Lemma quit_done_careful k r s :
  Good 0 1 s → Careful k s → stopped s = false → careful k (pump r (quit_done s)).
Proof.
  intros Hg Hc Hs. destruct (quit_done_good s Hg Hs) as [Ht Hg']. apply pump_careful; [done |].
  destruct (good_rest _ Hg' Hs Ht) as (Hw & Ho & Htm & Hp). destruct Hc. apply rest_careful; try done. by apply v_none0.
Qed.

Lemma run_stopped k r p rest s :
  stopped s = true → submitted p = None → Careful k s → posted s = p :: rest →
  careful k (run_posted host_ shortcut r p (popped rest s)).
Proof.
  intros Hs Hsub Hc0 Hp. pose proof (pop_careful k p rest s Hc0 Hp) as Hc. assert (stopped (popped rest s) = true) as Hs1 by done.
  assert (careful k ([], popped rest s)) as Hid by (split; [by constructor | done]).
  destruct p as [t | | res | res | res | | | | | pool]; cbn [run_posted]; unfold pump, on_prepared, on_connected, on_sent; rewrite ?Hs1; try done.
  - by apply close_careful.
  - rewrite <- Hs1. by apply (pool_careful k pool rest s).
Qed.

Lemma run_posted_careful k r p rest s :
  Good 0 0 s → Careful k s → posted s = p :: rest → careful k (run_posted host_ shortcut r p (popped rest s)).
Proof.
  intros Hg Hc Hp. pose proof (pop_careful k p rest s Hc Hp) as Hc1. destruct (submitted p) as [z|] eqn:Hsub.
  { destruct p as [t | | | | | | | | |]; try done. by apply submit_careful. }
  destruct (pop_good p rest s Hg Hp Hsub) as (Hg1 & _ & Hcl).
  destruct (stopped s) eqn:Hs.
  { by apply (run_stopped k r p rest s). }
  pose proof (v_bound k s Hc) as Hb. pose proof (careful_known _ _ Hc1) as Hk. assert (p ∈ posted s) as Hin by (rewrite Hp; by left).
  assert (stopped (popped rest s) = false) as Hs1 by done.
  destruct p as [t | | res | res | res | | | | | pool]; cbn [run_posted moves is_quit bit] in *; try done.
  - by apply pump_careful.
  - destruct (v_prepared k s Hc res Hs Hin) as [Hf (t & Ht & ->)]. pose proof (in_hand_rest _ t Hg1 Hs1 Ht) as Hr.
    unfold on_prepared. rewrite Hs1. destruct (prepared _ _ t) as [e | raw] eqn:Ep; [by apply (complete_careful _ _ _ _ t) |].
    assert (ready (set_payload (Some raw) (pending (popped rest s)) (popped rest s))) as Hrd by (by exists t, raw).
    destruct Hf as (-> & Hre & Hix). destruct (client _ && _) eqn:E.
    + apply andb_true_iff in E as [E _]. by apply send_careful; [| | lia | |].
    + apply connect_careful; try done; cbn; rewrite ?Hre, ?Hix; lia.
  - destruct (v_connect k s Hc res Hs (or_introl Hin)) as (Hrd & Hret & Hix & Hk2). pose proof Hrd as (t & raw & Ht & _).
    apply on_connected_careful; try done; [by apply (in_hand_rest _ t) | by apply Hcl; [| exists res]].
  - unfold on_sent. rewrite Hs1. destruct (move_task _ _ Hg1 Hs1) as [t Ht]. pose proof (in_hand_rest _ t Hg1 Hs1 Ht) as Hr.
    by apply (complete_careful _ _ _ _ t).
  - rewrite Hs1. by apply (quit_done_careful k r (popped rest s)).
  - destruct (negb _ && _ && _ && _) eqn:E; [| by split; [constructor |]]. rewrite !andb_true_iff, !bool_decide_eq_true, negb_true_iff in E.
    destruct E as [[[_ Ht] Hq] Hst]. apply quit_careful; try done; [by apply good_rest | by apply (v_none k _ Hc1)].
  - rewrite Hs1. destruct (v_retry k s Hc Hs (or_introl Hin)) as (Hrd & Hret & Hix & Hk2). pose proof Hrd as (t & raw & Ht & _).
    apply connect_careful; try done; cbn; [by apply (in_hand_rest _ t) | rewrite Hix; lia | rewrite Hix; lia].
  - by apply close_careful.
  - by apply (pool_careful k pool rest s).
Qed.

(** What the callers of the session keep to. *)
Definition allowed (e : Event) : Prop :=
  match e with Submit t => T t | SetPool pool => (length pool ≤ n)%nat | _ => True end.

Lemma post_careful k p s :
  Careful k s → moves p = false → (∀ t, p = PSubmit t → T t) → (∀ pool, p = PPool pool → (length pool ≤ n)%nat) → Careful k (post p s).
Proof.
  intros [] Hm HT Hn'. assert (∀ x, x ∈ posted s ++ [p] → x ∈ posted s ∨ x = p) as Hin.
  { intros x [? | ->%list_elem_of_singleton]%elem_of_app; auto. }
  constructor; try done; cbn.
  - intros pool [H | H]%Hin; auto.
  - intros t [H | [H | [H | H]%Hin]]; auto.
  - intros x Hs [H | <-]%Hin; [by apply v_prepared0 | done].
  - intros r Hs [[H | <-]%Hin | H]; [by apply (v_connect0 r); [| left] | done | by apply (v_connect0 r); [| right]].
  - intros Hs [[H | <-]%Hin | H]; [by apply v_retry0; [| left] | done | by apply v_retry0; [| right]].
Qed.

(** An operation of the current task answers. *)
Lemma answer_careful k p w o tm s :
  Careful k s → (w = worker s ∨ w = None) → (o = client_op s ∨ o = None) → (tm = timer s ∨ tm = None) →
  submitted p = None → (∀ pool, p ≠ PPool pool) →
  (∀ res, p = PPrepared res → ∃ t, worker s = Some t ∧ res = prepared sign read_file t) →
  (∀ r, p = PConnected r → client_op s = Some c_connect) → (p = PRetry → timer s = Some t_retry) →
  Careful k (post p (set_ops w (client s) o tm s)).
Proof.
  intros [] Hw Ho Htm Hsub Hpool Hprep Hconn Hretry. assert (∀ x, x ∈ posted s ++ [p] → x ∈ posted s ∨ x = p) as Hin.
  { intros x [? | ->%list_elem_of_singleton]%elem_of_app; auto. }
  constructor; try done; cbn.
  - intros pool [H | H]%Hin; [by apply v_pools0 | by destruct (Hpool pool)].
  - intros t [H | [H | [H | <-]%Hin]]; [auto.. | done].
  - intros x Hs Hx. apply v_worker0; [done |]. destruct Hw; congruence.
  - intros x Hs [H | Hx]%Hin; [by apply v_prepared0 |]. destruct (Hprep x (eq_sym Hx)) as (t & Ht & ->).
    destruct (v_worker0 t Hs Ht) as [? ?]. split; [done |]. by exists t.
  - intros r Hs Hu. apply (v_connect0 r Hs). destruct Hu as [[H | H]%Hin | H]; [by left | right; by apply (Hconn r) | right; cbn in *; destruct Ho; congruence].
  - intros Hs Hu. apply (v_retry0 Hs). destruct Hu as [[H | H]%Hin | H]; [by left | right; by apply Hretry | right; cbn in *; destruct Htm; congruence].
Qed.

Lemma step_careful k e s : Good 0 0 s → Careful k s → allowed e → careful k (step host_ shortcut sign read_file e s).
Proof.
  intros Hg Hc Ha. assert (careful k ([], s)) as Hid by (split; [by constructor | done]).
  destruct e as [t | | pool | r | | r |]; cbn [step].
  - split; [by constructor |]. apply post_careful; try done; [| by intros ? [= <-]]. destruct Hc. by constructor.
  - split; [by constructor |]. by apply post_careful.
  - split; [by constructor |]. apply post_careful; try done. by intros ? [= <-].
  - destruct (posted s) as [| p rest] eqn:Hp; [done | by apply (run_posted_careful k r p rest s)].
  - destruct (worker s) as [t|] eqn:Ew; [| done]. split; [by constructor |]. apply answer_careful; auto; try done. intros res [= <-]. by exists t.
  - destruct (client_op s) as [o|] eqn:Eo; [| done]. split; [by constructor |]. apply answer_careful; auto; by destruct o.
  - destruct (timer s) as [o|] eqn:Et; [| done]. split; [by constructor |]. apply answer_careful; auto; by destruct o.
Qed.

Lemma run_careful k es s :
  Good 0 0 s → Careful k s → Forall allowed es → careful k (run_session host_ shortcut sign read_file es s).
Proof.
  revert k s. induction es as [| e es IH]; intros k s Hg Hc Ha; [by split; [constructor |] |]. cbn [run_session].
  apply list.Forall_cons in Ha as [Ha Has]. destruct (step_careful k e s Hg Hc Ha) as [A1 A2].
  destruct (step_works host_ shortcut sign read_file e s Hg) as (_ & Hg1 & _). destruct (step _ _ _ _ e s) as [a s1]. cbn [fst snd] in *.
  destruct (IH _ s1 Hg1 A2 Has) as [B1 B2]. destruct (run_session _ _ _ _ es s1) as [a2 s2]. cbn [fst snd] in *.
  split; cbn [fst snd]; [by apply Forall_app | by rewrite foldl_app].
Qed.

Lemma new_careful : Careful 0 new_session.
Proof.
  constructor; cbn; try done; try lia.
  - intros pool []%not_elem_of_nil.
  - intros t [? | [[]%not_elem_of_nil | []%not_elem_of_nil]]; done.
  - intros p _ []%not_elem_of_nil.
  - intros r _ [[]%not_elem_of_nil | ?]; done.
  - intros _ [[]%not_elem_of_nil | ?]; done.
Qed.
End Careful.

(** The longest pool of addresses the session is given. *)
Definition widest (es : list Event) : nat := foldr max 1%nat ((λ e, match e with SetPool pool => length pool | _ => 0%nat end) <$> es).

Lemma all_allowed all : Forall (allowed (λ t, Submit t ∈ all) (widest all)) all.
Proof.
  apply list.Forall_forall. intros e He. destruct e as [t | | pool | r | | r |]; cbn; try done.
  unfold widest. induction all as [| x all IH]; [by apply not_elem_of_nil in He |].
  apply elem_of_cons in He as [<- | He]; cbn; [lia |]. apply IH in He. lia.
Qed.

Lemma widest_pos es : (0 < widest es)%nat.
Proof. unfold widest. induction es; cbn; lia. Qed.

(** C14: nobody receives a message that is not for him: each message handed to
    the SMTP client has the sender and the single recipient of a task that was
    submitted, and its text is the signed text of that same task, whatever
    messages were prepared, retried or abandoned in between. *)
Theorem sends_own_payload host_ shortcut sign read_file es rid m :
  Send rid m ∈ (run_session host_ shortcut sign read_file es new_session).1 →
  ∃ t raw, Submit t ∈ es ∧ record_id t = rid ∧ prepared sign read_file t = inr raw ∧
    m = mkMessage (t_sender t) [t_recipient t] (Some raw) 30000.
Proof.
  intros Hin. destruct (run_careful host_ shortcut sign read_file (λ t, Submit t ∈ es) (widest es) (widest_pos es) 0 es new_session) as [Ha _].
  - apply fresh_session_good.
  - apply new_careful, widest_pos.
  - apply all_allowed.
  - apply (proj1 (list.Forall_forall _ _) Ha) in Hin. exact Hin.
Qed.

(** The attempts for a message are bounded: at any time the connections
    tried since the last completed message are at most three rounds over the
    addresses of the host (one when only its name is known). *)
Theorem connects_bounded host_ shortcut sign read_file es :
  (foldl tries 0 (run_session host_ shortcut sign read_file es new_session).1 ≤ 3 * widest es)%nat.
Proof.
  destruct (run_careful host_ shortcut sign read_file (λ t, Submit t ∈ es) (widest es) (widest_pos es) 0 es new_session) as [_ Hc].
  - apply fresh_session_good.
  - apply new_careful, widest_pos.
  - apply all_allowed.
  - apply Hc.
Qed.

(** ** Sample runs *)

Definition sample_task (id : Z) : MailDeliveryTask := mkTask id id (s! "a@x") (s! "b@y") (Some (mkBody (s! "hi") [])) 0 100.
Definition sample_run : list Event -> Out := λ es, run_session (s! "y") id id (λ _, None) es new_session.
Definition at_time (open_ : bool) (now : Z) : Event := RunNext (mkReading open_ now).
Definition failed_connect : DeliveryResult := mkDelivery TemporaryFailure 0 [] [].

Definition delivered_events : list Event :=
  [Submit (sample_task 7); at_time false 1; WorkerDone; at_time false 1; ClientDone (mkDelivery Ready 220 [] []); at_time true 1].

Lemma sends_own_payload_witness :
  ∃ t raw, Submit t ∈ delivered_events ∧ record_id t = 7 ∧ prepared id (λ _, None) t = inr raw ∧
    mkMessage (s! "a@x") [s! "b@y"] (Some (s! "hi")) 30000 = mkMessage (t_sender t) [t_recipient t] (Some raw) 30000.
Proof.
  apply (sends_own_payload (s! "y") id id (λ _, None) delivered_events).
  replace (run_session (s! "y") id id (λ _, None) delivered_events new_session).1
    with [Connect 7 (s! "y"); Send 7 (mkMessage (s! "a@x") [s! "b@y"] (Some (s! "hi")) 30000)] by (vm_compute; reflexivity).
  right. left.
Defined.

(** Three rounds over two addresses: the bound of [connects_bounded] is reached. *)
Example three_rounds :
  foldl tries 0%nat (sample_run ([SetPool [s! "m1"; s! "m2"]; at_time false 1; Submit (sample_task 7); at_time false 1; WorkerDone; at_time false 1;
    ClientDone failed_connect; at_time false 2; ClientDone failed_connect; at_time false 3; TimerFired; at_time false 4;
    ClientDone failed_connect; at_time false 5; ClientDone failed_connect; at_time false 6; TimerFired; at_time false 7;
    ClientDone failed_connect; at_time false 8])).1 = 6%nat.
Proof. vm_compute. reflexivity. Qed.

(** A session that is closed forgets its messages: none of them is completed, so
    its owner, which learns of a message by its completion only, keeps waiting. *)
Example close_drops_messages :
  (sample_run [Submit (sample_task 7); at_time false 1; Submit (sample_task 8); at_time false 1; Close; at_time false 1]).1
    = [Dropped [7; 8]].
Proof. vm_compute. reflexivity. Qed.
