(* ===== verification/OutboundServer.v ===== *)
(** * The delivery scheduler

    Models [outbound/outbound_server.cpp]: the table of sessions per mail host,
    the two ways a message comes in (handed over by the persistence queue, or
    claimed from the outbox by a worker), the counter [pending_count_] with its
    reservation of a batch, the single pull cycle guarded by [is_pulling_], the
    retry timer, the removal of idle sessions, and start and stop.

    Calls of several threads overlap: a [Thread] is the rest of a call that is
    under way, and one step of [server_step] runs one thread up to its next access
    to shared state.  [acquire_session] and [evict_idle] hold the mutex and are
    one step each.  A session pointer is an index into [peers], which keeps every
    session made; the steps of a session are those of [OutboundSession], and its
    completions become threads of the scheduler.  Whether the database pool is at
    hand, which records a claim yields and the clock are parts of the event.  The
    removal of idle sessions may happen at any time while the scheduler runs, not
    only every thirty seconds. *)

From S2P Require Import Prelude CString LruCache LineFolder SmtpText MailCrypto SmtpClient Outbox MxRouting OutboundSession.

Definition DEFAULT_MAX_MX_ENTRIES : nat := 256.
Definition DEFAULT_BATCH_SIZE : nat := 32.
Definition LOW_WATERMARK : Z := 16.
Definition MIN_RETRY_DELAY_SEC : Z := 5.
Definition MAX_RETRY_DELAY_SEC : Z := 60.

Record Peer := mkPeer { p_host : bytes; p_port : Z; p_session : Session }.

(** What is left of a call. *)
Inductive Thread :=
  | TAcquire (t : MailDeliveryTask) (port : Z)            (* [submit], counted *)
  | THand (i : nat) (t : MailDeliveryTask) (rest : option (list OutboxRecord))   (* a session was found *)
  | TPullCheck                                              (* [try_pull] *)
  | TPullTake                                               (* the water is low *)
  | TClaim                                                  (* [do_claim_batch] before the pool is looked up *)
  | TWorker                                                 (* the job of the worker *)
  | TClaimed (records : list OutboxRecord)                  (* [on_claim_complete] *)
  | TDispatch (records : list OutboxRecord)                 (* its loop and what follows *)
  | TRetryPosted                                            (* [schedule_retry] *)
  | TRetryTimer
  | TCompleted (record_id : Z) (r : DeliveryResult)         (* the completion of a session *)
  | TCancel.                                                (* what [stop] posts *)

Record Server := mkServer {
  running : bool;
  pending_count : Z;
  is_pulling : bool;
  retry_delay_sec : Z;
  mx_sessions : list (bytes * list nat);                    (* in the order of the keys *)
  last_active : gmap bytes Z;
  peers : list Peer;
  threads : list Thread;
}.

Inductive ServerEffect :=
  | Taken (record_id : Z)                                   (* the message counts as pending *)
  | MarkSentEff (record_id : Z) (response : bytes)
  | MarkDeadEff (record_id : Z) (response : bytes)
  | MarkRetryEff (record_id : Z) (response : bytes)
  | NoDatabase (record_id : Z)
  | ClaimStarted                                            (* a claim is posted to a worker *)
  | Refused (record_id : Z)                                 (* no session, the count is taken back *)
  | Lost (record_id : Z)                                    (* a message goes without a completion being counted *)
  | LostBatch                                               (* a reservation goes *)
  | AtPeer (i : nat) (a : Effect).

Definition ServerOut : Type := list ServerEffect * Server.

(** ** Updates *)

Definition set_pending (n : Z) (s : Server) : Server :=
  mkServer (running s) n (is_pulling s) (retry_delay_sec s) (mx_sessions s) (last_active s) (peers s) (threads s).
Definition set_pulling (b : bool) (s : Server) : Server :=
  mkServer (running s) (pending_count s) b (retry_delay_sec s) (mx_sessions s) (last_active s) (peers s) (threads s).
Definition set_threads (ts : list Thread) (s : Server) : Server :=
  mkServer (running s) (pending_count s) (is_pulling s) (retry_delay_sec s) (mx_sessions s) (last_active s) (peers s) ts.
Definition set_peers (ps : list Peer) (s : Server) : Server :=
  mkServer (running s) (pending_count s) (is_pulling s) (retry_delay_sec s) (mx_sessions s) (last_active s) ps (threads s).
Definition set_table (m : list (bytes * list nat)) (l : gmap bytes Z) (ps : list Peer) (s : Server) : Server :=
  mkServer (running s) (pending_count s) (is_pulling s) (retry_delay_sec s) m l ps (threads s).
Definition set_delay (d : Z) (s : Server) : Server :=
  mkServer (running s) (pending_count s) (is_pulling s) d (mx_sessions s) (last_active s) (peers s) (threads s).
Definition spawn (ts : list Thread) (s : Server) : Server := set_threads (threads s ++ ts) s.

(** ** The table of sessions: [std::map], in the order of its keys *)

(** The order of [std::string]. *)
Fixpoint bytes_lt (a b : bytes) : bool :=
  match a, b with
  | _, [] => false
  | [], _ => true
  | x :: a, y :: b => (x <? y) || ((x =? y) && bytes_lt a b)
  end.

Fixpoint find_mx (mx : bytes) (m : list (bytes * list nat)) : option (list nat) :=
  match m with
  | [] => None
  | (k, v) :: m => if bool_decide (k = mx) then Some v else find_mx mx m
  end.

(** [map[mx] = v] *)
Fixpoint put_mx (mx : bytes) (v : list nat) (m : list (bytes * list nat)) : list (bytes * list nat) :=
  match m with
  | [] => [(mx, v)]
  | (k, w) :: m => if bool_decide (k = mx) then (mx, v) :: m else if bytes_lt mx k then (mx, v) :: (k, w) :: m else (k, w) :: put_mx mx v m
  end.

(** What the event says about the world outside: whether the shard router has a
    database pool, the time, and the database as a claim finds it. *)
Record World := mkWorld {
  w_db : bool;
  w_now : Z;
  w_fault : nat → option bytes;
  w_clock : nat → Z;
  w_others : nat → list (Z * Cmd);
  w_connected : bool;
  w_body_path : Z → option bytes;
  w_outbox : Db;
}.

(** The job of the worker: [repo_.claim_batch(db, worker_id_, DEFAULT_BATCH_SIZE, 120)]. *)
Definition claim_records (worker_id : bytes) (w : World) : list OutboxRecord :=
  (claim_batch (w_fault w) (w_clock w) (w_others w) (w_connected w) (w_body_path w) worker_id DEFAULT_BATCH_SIZE 120 (w_outbox w)).1.

Section Server.
Context (worker_id : bytes) (config : OutboundConfig) (max_sessions_per_mx : nat) (idle_timeout_sec : Z).
Context (resolver : bool) (resolve_mx resolve_host_addresses : bytes → list bytes) (load_mail : Z → option MailBody).
Context (shortcut : bytes → bytes) (sign : bytes → bytes) (read_file : bytes → option bytes).

Definition queue_size (ps : list Peer) (i : nat) : Z := match ps !! i with Some p => pending (p_session p) | None => 0 end.
Definition has_active_task (ps : list Peer) (i : nat) : bool := match ps !! i with Some p => active (p_session p) | None => false end.
Definition is_closed (ps : list Peer) (i : nat) : bool :=
  match ps !! i with Some p => bool_decide (state (p_session p) = CLOSED) | None => true end.

(** The sessions that [remove_if] keeps. *)
Definition keep_sessions (ps : list Peer) (l : list nat) : list nat :=
  List.filter (λ i, negb (is_closed ps i && (queue_size ps i =? 0))) l.

(** The session with the shortest queue, the first of them. *)
Definition least_loaded (ps : list Peer) (l : list nat) : option (nat * Z) :=
  foldl (λ best i, match best with
                   | Some (_, min_q) => if queue_size ps i <? min_q then Some (i, queue_size ps i) else best
                   | None => Some (i, queue_size ps i)
                   end) None l.

(** A call into a session from another thread: it only posts. *)
Definition call_peer (i : nat) (e : Event) (ps : list Peer) : list Peer :=
  match ps !! i with
  | Some p => <[i := mkPeer (p_host p) (p_port p) (step (p_host p) shortcut sign read_file e (p_session p)).2]> ps
  | None => ps
  end.

Definition close_peers (l : list nat) (ps : list Peer) : list Peer := foldl (λ ps i, call_peer i Close ps) ps l.

Definition create_session (mx : bytes) (port : Z) (ps : list Peer) : nat * list Peer :=
  (length ps, ps ++ [mkPeer mx port new_session]).

Definition acquire_session (now : Z) (mx : bytes) (port : Z) (s : Server) : option nat * Server :=
  if negb (running s) then (None, s) else
  let last := <[mx := now]> (last_active s) in
  let create (l : list nat) :=
    let '(i, ps) := create_session mx port (peers s) in (Some i, set_table (put_mx mx (l ++ [i]) (mx_sessions s)) last ps s) in
  match find_mx mx (mx_sessions s) with
  | None => create []
  | Some sessions =>
      let sessions := keep_sessions (peers s) sessions in
      let found i := (Some i, set_table (put_mx mx sessions (mx_sessions s)) last (peers s) s) in
      match least_loaded (peers s) sessions with
      | Some (best, min_q) =>
          if min_q <? 100 then found best
          else if (length sessions <? max_sessions_per_mx)%nat then create sessions
          else found best
      | None =>
          if (length sessions <? max_sessions_per_mx)%nat then create sessions
          else (None, set_table (put_mx mx sessions (mx_sessions s)) last (peers s) s)
      end
  end.

(** ** Idle sessions *)

(** The first loop of [evict_idle]: which entries stay, what is closed. *)
Fixpoint evict_loop (now : Z) (m : list (bytes * list nat)) (last : gmap bytes Z) (ps : list Peer)
  : list (bytes * list nat) * gmap bytes Z * list Peer :=
  match m with
  | [] => ([], last, ps)
  | (k, sessions) :: m =>
      let sessions := keep_sessions ps sessions in
      let all_idle := negb (existsb (λ i, (0 <? queue_size ps i) || has_active_task ps i) sessions) in
      let last := if all_idle then last else <[k := now]> last in
      let keep ps last := let '(m, last, ps) := evict_loop now m last ps in ((k, sessions) :: m, last, ps) in
      if all_idle && bool_decide (sessions = []) then evict_loop now m (delete k last) ps
      else if all_idle then
        let t := match last !! k with Some t => t | None => now end in
        if idle_timeout_sec <? now - t then evict_loop now m (delete k last) (close_peers sessions ps)
        else keep ps last
      else keep ps last
  end.

(** The entry that was used last the longest ago; one that is not in
    [last_active_] counts as oldest of all ([None]). *)
Definition older (a b : option Z) : bool :=
  match a, b with None, Some _ => true | Some x, Some y => x <? y | _, None => false end.

Definition oldest_entry (now : Z) (m : list (bytes * list nat)) (last : gmap bytes Z) : option bytes :=
  (foldl (λ o e, if older (last !! e.1) o.2 then (Some e.1, last !! e.1) else o)
     (fst <$> head m, Some now) m).1.

Fixpoint remove_mx (mx : bytes) (m : list (bytes * list nat)) : list (bytes * list nat) :=
  match m with
  | [] => []
  | (k, v) :: m => if bool_decide (k = mx) then m else (k, v) :: remove_mx mx m
  end.

(** The loop over an oversized table; it runs [excess] times. *)
Fixpoint shrink_loop (excess : nat) (now : Z) (m : list (bytes * list nat)) (last : gmap bytes Z) (ps : list Peer)
  : list (bytes * list nat) * gmap bytes Z * list Peer :=
  match excess with
  | O => (m, last, ps)
  | S excess =>
      match oldest_entry now m last with
      | None => (m, last, ps)
      | Some mx =>
          shrink_loop excess now (remove_mx mx m) (delete mx last)
            (close_peers (match find_mx mx m with Some l => l | None => [] end) ps)
      end
  end.

Definition evict_idle (now : Z) (s : Server) : Server :=
  let '(m, last, ps) := evict_loop now (mx_sessions s) (last_active s) (peers s) in
  let '(m, last, ps) := shrink_loop (length m - DEFAULT_MAX_MX_ENTRIES) now m last ps in
  set_table m last ps s.

Definition total_sessions (s : Server) : nat := sum_list_with (λ e, length e.2) (mx_sessions s).

Definition stop (s : Server) : Server :=
  if negb (running s) then s else
  mkServer false (pending_count s) (is_pulling s) (retry_delay_sec s) [] (last_active s)
    (close_peers (concat (snd <$> mx_sessions s)) (peers s)) (threads s ++ [TCancel]).

Definition start (s : Server) : Server :=
  if running s then s else
  mkServer true (pending_count s) (is_pulling s) (retry_delay_sec s) (mx_sessions s) (last_active s) (peers s) (threads s ++ [TPullCheck]).

(** ** Messages *)

Definition submit (t : MailDeliveryTask) (port : Z) (s : Server) : ServerOut :=
  if negb (running s) then ([], s) else
  let domain := server_extract_domain (t_recipient t) in
  if bool_decide (domain = []) then ([], s) else
  ([Taken (OutboundSession.record_id t)], spawn [TAcquire t port] (set_pending (pending_count s + 1) s)).

(** Handing a message to the session that was found. *)
Definition hand_over (i : nat) (t : MailDeliveryTask) (s : Server) : Server :=
  let domain := server_extract_domain (t_recipient t) in
  let ps := if bool_decide (resolve_target_host config domain = domain) then
              match resolve_mx_pool resolve_mx resolve_host_addresses resolver domain with
              | [] => peers s
              | pool => call_peer i (SetPool pool) (peers s)
              end
            else peers s in
  set_peers (call_peer i (Submit t) ps) s.

Definition response_of (r : DeliveryResult) : bytes := to_string (d_code r) ++ [SP] ++ d_stage r ++ [SP] ++ d_error r.

Definition on_delivery_complete (db : bool) (record_id : Z) (r : DeliveryResult) (s : Server) : ServerOut :=
  let eff := if db then
               if bool_decide (d_outcome r = Accepted) then MarkSentEff record_id (response_of r)
               else if is_permanent (d_outcome r) then MarkDeadEff record_id (response_of r)
               else MarkRetryEff record_id (response_of r)
             else NoDatabase record_id in
  let n := pending_count s - 1 in
  ([eff], (if n <? LOW_WATERMARK then spawn [TPullCheck] else id) (set_pending n s)).

(** The task made of a claimed record. *)
Definition task_of (now : Z) (rec : OutboxRecord) : MailDeliveryTask :=
  mkTask (rec_mail_id rec) (rec_id rec) (rec_sender rec) (rec_recipient rec) (load_mail (rec_mail_id rec)) now 300.

Definition do_claim_batch (db : bool) (s : Server) : ServerOut :=
  if db then ([ClaimStarted], spawn [TWorker] s)
  else ([], set_pulling false (set_pending (pending_count s - Z.of_nat DEFAULT_BATCH_SIZE) s)).

Definition on_claim_complete (db : bool) (records : list OutboxRecord) (s : Server) : ServerOut :=
  if negb (running s) then ([LostBatch], s) else
  let over := Z.of_nat DEFAULT_BATCH_SIZE - Z.of_nat (length records) in
  let s := if 0 <? over then set_pending (pending_count s - over) s else s in
  let taken := Taken <$> (rec_id <$> records) in
  match records with
  | [] => (taken, spawn [TRetryPosted] s)
  | _ =>
      let s := set_delay MIN_RETRY_DELAY_SEC s in
      if db then (taken, spawn [TDispatch records] s)
      else (taken ++ (Lost <$> (rec_id <$> records)), set_pulling false s)
  end.

(** One round of the loop, or its end. *)
Definition dispatch (now : Z) (records : list OutboxRecord) (s : Server) : ServerOut :=
  match records with
  | [] =>
      if pending_count s <? LOW_WATERMARK then ([], spawn [TClaim] (set_pending (pending_count s + Z.of_nat DEFAULT_BATCH_SIZE) s))
      else ([], set_pulling false s)
  | rec :: records =>
      let t := task_of now rec in
      let domain := server_extract_domain (t_recipient t) in
      let '(session, s) := acquire_session now (resolve_target_host config domain) (resolve_port config domain) s in
      match session with
      | Some i => ([], spawn [THand i t (Some records)] s)
      | None => ([Lost (rec_id rec)], spawn [TDispatch records] s)
      end
  end.

(** [try_pull]: the look at the water level, then the flag. *)
Definition try_pull (s : Server) : ServerOut :=
  if running s && (pending_count s <? LOW_WATERMARK) then ([], spawn [TPullTake] s) else ([], s).

Definition pull_take (s : Server) : ServerOut :=
  if is_pulling s then ([], s)
  else ([], spawn [TClaim] (set_pending (pending_count s + Z.of_nat DEFAULT_BATCH_SIZE) (set_pulling true s))).

(** [schedule_retry], and what its timer does. *)
Definition schedule_retry (s : Server) : ServerOut :=
  if running s then ([], spawn [TRetryTimer] (set_delay (Z.min (retry_delay_sec s * 2) MAX_RETRY_DELAY_SEC) s)) else ([], s).

Definition retry_fired (s : Server) : ServerOut :=
  if running s then ([], spawn [TClaim] (set_pending (pending_count s + Z.of_nat DEFAULT_BATCH_SIZE) s)) else ([], s).

(** The next part of a call. *)
Definition run_thread (w : World) (t : Thread) (s : Server) : ServerOut :=
  match t with
  | TAcquire t port =>
      let domain := server_extract_domain (t_recipient t) in
      let '(session, s) := acquire_session (w_now w) (resolve_target_host config domain) (if 0 <? port then port else resolve_port config domain) s in
      match session with
      | Some i => ([], spawn [THand i t None] s)
      | None => ([Refused (OutboundSession.record_id t)], set_pending (pending_count s - 1) s)
      end
  | THand i t rest =>
      ([], spawn [match rest with None => TPullCheck | Some records => TDispatch records end] (hand_over i t s))
  | TPullCheck => try_pull s
  | TPullTake => pull_take s
  | TClaim => do_claim_batch (w_db w) s
  | TWorker => if running s then ([], spawn [TClaimed (claim_records worker_id w)] s) else ([LostBatch], s)
  | TClaimed records => on_claim_complete (w_db w) records s
  | TDispatch records => dispatch (w_now w) records s
  | TRetryPosted => schedule_retry s
  | TRetryTimer => retry_fired s
  | TCancel => ([], set_threads (List.filter (λ t, match t with TRetryTimer => false | _ => true end) (threads s)) s)
  | TCompleted id r => if running s then on_delivery_complete (w_db w) id r s else ([Lost id], s)
  end.

(** ** What can happen *)

Inductive ServerEvent :=
  | EStart
  | EStop
  | ESubmit (t : MailDeliveryTask) (port : Z)
  | EPull
  | EEvict (now : Z)
  | ERun (k : nat) (w : World)                              (* thread [k] goes on *)
  | EPeer (i : nat) (e : Event).                            (* session [i] goes on *)

(** A session goes on by itself; the calls into it are made by the threads. *)
Definition internal (e : Event) : bool := match e with Submit _ | Close | SetPool _ => false | _ => true end.

(** What a session reports. *)
Definition reports (a : Effect) : list Thread := match a with Completion id r => [TCompleted id r] | _ => [] end.
Definition losses (a : Effect) : list ServerEffect := match a with Dropped ids => Lost <$> ids | _ => [] end.

Definition peer_step (i : nat) (e : Event) (s : Server) : ServerOut :=
  match peers s !! i with
  | Some p =>
      if internal e then
        let '(acts, x) := step (p_host p) shortcut sign read_file e (p_session p) in
        ((AtPeer i <$> acts) ++ concat (losses <$> acts),
         spawn (concat (reports <$> acts)) (set_peers (<[i := mkPeer (p_host p) (p_port p) x]> (peers s)) s))
      else ([], s)
  | None => ([], s)
  end.

Definition server_step (e : ServerEvent) (s : Server) : ServerOut :=
  match e with
  | EStart => ([], start s)
  | EStop => ([], stop s)
  | ESubmit t port => submit t port s
  | EPull => ([], spawn [TPullCheck] s)
  | EEvict now => if running s then ([], evict_idle now s) else ([], s)
  | ERun k w =>
      match threads s !! k with
      | Some t => run_thread w t (set_threads (delete k (threads s)) s)
      | None => ([], s)
      end
  | EPeer i e => peer_step i e s
  end.

Fixpoint run_server (es : list ServerEvent) (s : Server) : ServerOut :=
  match es with
  | [] => ([], s)
  | e :: es => let '(a, s) := server_step e s in let '(a', s) := run_server es s in (a ++ a', s)
  end.

Definition new_server : Server := mkServer false 0 false MIN_RETRY_DELAY_SEC [] ∅ [] [].
End Server.

(** ** Accounting *)

(** The messages a thread answers for. *)
Definition thread_ids (t : Thread) : list Z :=
  match t with
  | TAcquire t _ => [OutboundSession.record_id t]
  | THand _ t rest => OutboundSession.record_id t :: match rest with Some records => rec_id <$> records | None => [] end
  | TDispatch records => rec_id <$> records
  | TCompleted id _ => [id]
  | _ => []
  end.

(** Threads that hold the reservation of a batch. *)
Definition claim_weight (t : Thread) : nat := match t with TClaim | TWorker | TClaimed _ => 1 | _ => 0 end.

(** Threads of the pull cycle. *)
Definition token_weight (t : Thread) : nat :=
  match t with
  | TClaim | TWorker | TClaimed _ | TDispatch _ | TRetryPosted | TRetryTimer | THand _ _ (Some _) => 1
  | _ => 0
  end.

Definition peer_ids (ps : list Peer) : list Z := concat ((λ p, waiting (p_session p)) <$> ps).
Definition held (s : Server) : list Z := concat (thread_ids <$> threads s) ++ peer_ids (peers s).
Definition claims (s : Server) : nat := sum_list_with claim_weight (threads s).
Definition pull_tokens (s : Server) : nat := sum_list_with token_weight (threads s).

Definition taken_by (a : ServerEffect) : list Z := match a with Taken id => [id] | _ => [] end.
(** Messages whose count was taken back: a result was handed to a worker to be
    written, the completion was only logged for want of a database, or no
    session took the message. *)
Definition recorded_by (a : ServerEffect) : list Z :=
  match a with MarkSentEff id _ | MarkDeadEff id _ | MarkRetryEff id _ => [id] | _ => [] end.
Definition unrecorded_by (a : ServerEffect) : list Z := match a with NoDatabase id => [id] | _ => [] end.
Definition refused_by (a : ServerEffect) : list Z := match a with Refused id => [id] | _ => [] end.
Definition settled_by (a : ServerEffect) : list Z :=
  match a with MarkSentEff id _ | MarkDeadEff id _ | MarkRetryEff id _ | NoDatabase id | Refused id => [id] | _ => [] end.
Definition lost_by (a : ServerEffect) : list Z := match a with Lost id => [id] | _ => [] end.
Definition lost_batch (a : ServerEffect) : nat := match a with LostBatch => 1 | _ => 0 end.

Definition taken (acts : list ServerEffect) : list Z := concat (taken_by <$> acts).
Definition settled (acts : list ServerEffect) : list Z := concat (settled_by <$> acts).
Definition recorded (acts : list ServerEffect) : list Z := concat (recorded_by <$> acts).
Definition unrecorded (acts : list ServerEffect) : list Z := concat (unrecorded_by <$> acts).
Definition refused (acts : list ServerEffect) : list Z := concat (refused_by <$> acts).
Definition lost (acts : list ServerEffect) : list Z := concat (lost_by <$> acts).
Definition lost_batches (acts : list ServerEffect) : nat := sum_list_with lost_batch acts.

Lemma taken_app a b : taken (a ++ b) = taken a ++ taken b.
Proof. unfold taken. by rewrite fmap_app, concat_app. Qed.
Lemma settled_acts_app a b : settled (a ++ b) = settled a ++ settled b.
Proof. unfold settled. by rewrite fmap_app, concat_app. Qed.
Lemma settled_split acts : settled acts ≡ₚ recorded acts ++ unrecorded acts ++ refused acts.
Proof.
  unfold settled, recorded, unrecorded, refused. induction acts as [|a acts IH]; [done |].
  cbn [fmap list_fmap concat]. rewrite IH. destruct a; cbn [settled_by recorded_by unrecorded_by refused_by app]; solve_Permutation.
Qed.
Lemma lost_app a b : lost (a ++ b) = lost a ++ lost b.
Proof. unfold lost. by rewrite fmap_app, concat_app. Qed.
Lemma lost_batches_app a b : lost_batches (a ++ b) = (lost_batches a + lost_batches b)%nat.
Proof. apply sum_list_with_app. Qed.

(** A thread's session exists, and a claim is not larger than a batch. *)
Definition thread_ok (n : nat) (t : Thread) : Prop :=
  match t with THand i _ _ => (i < n)%nat | TClaimed records => (length records ≤ DEFAULT_BATCH_SIZE)%nat | _ => True end.

Record Sound (s : Server) : Prop := {
  so_good : Forall (λ p, Good 0 0 (p_session p)) (peers s);
  so_threads : Forall (thread_ok (length (peers s))) (threads s);
  so_table : ∀ mx l i, (mx, l) ∈ mx_sessions s → i ∈ l → (i < length (peers s))%nat;
}.

(** A step with a thread in hand that answers for [ids], holds [c] reservations
    and [tk] tokens of the pull cycle. *)
Record Balanced (ids : list Z) (c tk : nat) (s : Server) (out : ServerOut) : Prop := {
  ba_sound : Sound out.2;
  ba_perm : taken out.1 ++ ids ++ held s ≡ₚ settled out.1 ++ lost out.1 ++ held out.2;
  ba_count : pending_count out.2 + 32 * Z.of_nat (c + claims s) + Z.of_nat (length ids + length (held s)) =
             pending_count s + 32 * Z.of_nat (claims out.2) + Z.of_nat (length (held out.2)) +
             Z.of_nat (length (lost out.1)) + 32 * Z.of_nat (lost_batches out.1);
  ba_tokens : (tk + pull_tokens s ≤ bit (is_pulling s))%nat → (pull_tokens out.2 ≤ bit (is_pulling out.2))%nat;
}.

Lemma thread_ok_mono n m t : (n ≤ m)%nat → thread_ok n t → thread_ok m t.
Proof. destruct t; cbn; lia. Qed.

Lemma held_spawn ts s : held (spawn ts s) ≡ₚ concat (thread_ids <$> ts) ++ held s.
Proof.
  unfold held. cbn. rewrite fmap_app, concat_app, (Permutation_app_comm (concat (thread_ids <$> threads s))), <- app_assoc. done.
Qed.

Lemma claims_spawn ts s : claims (spawn ts s) = (claims s + sum_list_with claim_weight ts)%nat.
Proof. apply sum_list_with_app. Qed.

Lemma tokens_spawn ts s : pull_tokens (spawn ts s) = (pull_tokens s + sum_list_with token_weight ts)%nat.
Proof. apply sum_list_with_app. Qed.

Lemma sound_spawn ts s : Sound s → Forall (thread_ok (length (peers s))) ts → Sound (spawn ts s).
Proof. intros [] Hts. constructor; try done. cbn. by apply Forall_app. Qed.

(** ** Sessions *)

Section Peers.
Context (shortcut : bytes → bytes) (sign : bytes → bytes) (read_file : bytes → option bytes).

(** The peers after calls that hand over the messages [ids]. *)
Definition called (ids : list Z) (ps ps' : list Peer) : Prop :=
  length ps' = length ps ∧ (Forall (λ p, Good 0 0 (p_session p)) ps → Forall (λ p, Good 0 0 (p_session p)) ps' ∧ peer_ids ps' ≡ₚ ids ++ peer_ids ps).

Lemma called_id ps : called [] ps ps.
Proof. by split. Qed.

Lemma called_trans ids1 ids2 ps1 ps2 ps3 : called ids1 ps1 ps2 → called ids2 ps2 ps3 → called (ids2 ++ ids1) ps1 ps3.
Proof.
  intros [L1 H1] [L2 H2]. split; [congruence |]. intros Hg. destruct (H1 Hg) as [Hg2 P1]. destruct (H2 Hg2) as [Hg3 P2].
  split; [done |]. by rewrite P2, P1, app_assoc.
Qed.

Lemma peer_ids_insert ps i p p' :
  ps !! i = Some p → ∃ rest, peer_ids ps ≡ₚ waiting (p_session p) ++ rest ∧ peer_ids (<[i := p']> ps) ≡ₚ waiting (p_session p') ++ rest.
Proof.
  intros Hi. exists (peer_ids (take i ps) ++ peer_ids (drop (S i) ps)). assert (i < length ps)%nat as Hl by (by eapply lookup_lt_Some).
  assert (∀ q, peer_ids (take i ps ++ q :: drop (S i) ps) ≡ₚ waiting (p_session q) ++ peer_ids (take i ps) ++ peer_ids (drop (S i) ps)) as H.
  { intros q. unfold peer_ids. rewrite fmap_app, concat_app. cbn. by rewrite Permutation_app_swap_app. }
  split; [rewrite <- (take_drop_middle ps i p Hi) at 1; apply H | rewrite insert_take_drop by done; apply H].
Qed.

Lemma call_peer_called i e ps :
  internal e = false → (i < length ps)%nat → called (handed e) ps (call_peer shortcut sign read_file i e ps).
Proof.
  intros He Hi. unfold call_peer. destruct (lookup_lt_is_Some_2 ps i Hi) as [p Hp]. rewrite Hp. split; [apply length_insert |]. intros Hg.
  assert (Good 0 0 (p_session p)) as Hgp by (by eapply Forall_lookup_1 in Hg).
  destruct (step_works (p_host p) shortcut sign read_file e (p_session p) Hgp) as (_ & Hg' & Hw).
  assert ((step (p_host p) shortcut sign read_file e (p_session p)).1 = []) as Ea by (by destruct e). rewrite Ea in Hw. cbn in Hw.
  split; [by apply Forall_insert |]. set (p' := mkPeer _ _ _). destruct (peer_ids_insert ps i p p' Hp) as (rest & -> & ->).
  unfold p'. cbn [p_session]. by rewrite <- Hw, app_assoc.
Qed.

Lemma close_peers_called l ps : (∀ i, i ∈ l → (i < length ps)%nat) → called [] ps (close_peers shortcut sign read_file l ps).
Proof.
  revert ps. unfold close_peers. induction l as [| i l IH]; intros ps Hl; cbn [foldl]; [apply called_id |].
  assert (called [] ps (call_peer shortcut sign read_file i Close ps)) as H1 by (apply (call_peer_called i Close); [done | apply Hl; by left]).
  eapply (called_trans [] []); [exact H1 |]. apply IH. intros j Hj. destruct H1 as [-> _]. apply Hl. by right.
Qed.
End Peers.

(** ** The table *)

Lemma find_mx_in mx m l : find_mx mx m = Some l → (mx, l) ∈ m.
Proof.
  induction m as [| [k v] m IH]; cbn; [done |]. case_bool_decide as E; [intros [= <-]; subst; left | intros H; right; by apply IH].
Qed.

Lemma put_mx_in mx v m e : e ∈ put_mx mx v m → e = (mx, v) ∨ e ∈ m.
Proof.
  induction m as [| [k w] m IH]; cbn [put_mx].
  { intros ->%list_elem_of_singleton. by left. }
  case_bool_decide; [| destruct (bytes_lt mx k)]; intros [-> | H']%elem_of_cons; try (by left); [right; by right | by right | right; left |].
  destruct (IH H'); [by left | right; by right].
Qed.

Lemma remove_mx_in mx m e : e ∈ remove_mx mx m → e ∈ m.
Proof.
  induction m as [| [k w] m IH]; cbn [remove_mx]; [done |]. case_bool_decide; [by right |].
  intros [-> | H']%elem_of_cons; [left | right; by apply IH].
Qed.

Lemma keep_sessions_in ps l i : i ∈ keep_sessions ps l → i ∈ l.
Proof. unfold keep_sessions. rewrite !list_elem_of_In, List.filter_In. tauto. Qed.

Lemma keep_sessions_length ps l : (length (keep_sessions ps l) ≤ length l)%nat.
Proof. unfold keep_sessions. induction l as [| i l IH]; cbn; [lia |]. destruct (negb _); cbn; lia. Qed.

(** The session chosen is in the list, and none has a shorter queue. *)
Lemma least_loaded_spec ps l i q :
  least_loaded ps l = Some (i, q) → i ∈ l ∧ q = queue_size ps i ∧ ∀ j, j ∈ l → q ≤ queue_size ps j.
Proof.
  unfold least_loaded. induction l as [| x l IH] using rev_ind in i, q |- *; [done |]. rewrite foldl_app. cbn [foldl].
  destruct (foldl _ None l) as [[i0 q0]|] eqn:E.
  - destruct (IH i0 q0 eq_refl) as (Hin & -> & Hmin). destruct (Z.ltb_spec (queue_size ps x) (queue_size ps i0)) as [Hlt | Hge]; intros [= <- <-].
    + split; [set_solver |]. split; [done |]. intros j [Hj | ->%list_elem_of_singleton]%elem_of_app; [| done]. specialize (Hmin j Hj). lia.
    + split; [set_solver |]. split; [done |]. intros j [Hj | ->%list_elem_of_singleton]%elem_of_app; [by apply Hmin | lia].
  - intros [= <- <-]. destruct l as [| y l _] using rev_ind; [| rewrite foldl_app in E; cbn in E; by destruct (foldl _ None l) as [[? ?]|]; [destruct (_ <? _) |]].
    split; [left |]. split; [done |]. by intros j ->%list_elem_of_singleton.
Qed.

(** Steps that move no message: the table and the sessions' posts change. *)
Record Same (s s' : Server) : Prop := {
  sa_sound : Sound s';
  sa_held : held s' ≡ₚ held s;
  sa_threads : threads s' = threads s;
  sa_pending : pending_count s' = pending_count s;
  sa_pulling : is_pulling s' = is_pulling s;
  sa_running : running s' = running s;
}.

Lemma same_table m last ps s :
  Sound s → called [] (peers s) ps → (∀ mx l i, (mx, l) ∈ m → i ∈ l → (i < length ps)%nat) → Same s (set_table m last ps s).
Proof.
  intros [Hg Ht Hm] [Hl Hc] Hm'. destruct (Hc Hg) as [Hg' Hp]. constructor; try done.
  - constructor; cbn; [done | by rewrite Hl | done].
  - unfold held. cbn. by rewrite Hp.
Qed.

Lemma same_create mx port v m last s :
  Sound s → (∀ i, i ∈ v → (i < length (peers s))%nat) → (∀ mx l i, (mx, l) ∈ m → i ∈ l → (i < length (peers s))%nat) →
  Same s (set_table (put_mx mx (v ++ [length (peers s)]) m) last (peers s ++ [mkPeer mx port new_session]) s).
Proof.
  intros [Hg Ht Hm] Hv Hm'. constructor; try done.
  - constructor; cbn; rewrite ?length_app; cbn [length].
    + apply Forall_app. split; [done |]. apply list.Forall_singleton, fresh_session_good.
    + eapply list.Forall_impl; [exact Ht |]. intros t. apply thread_ok_mono. lia.
    + intros k l i [[= -> ->] | Hin]%put_mx_in Hi; [| specialize (Hm' k l i Hin Hi); lia].
      apply elem_of_app in Hi as [Hi | ->%list_elem_of_singleton]; [specialize (Hv i Hi) |]; lia.
  - unfold held, peer_ids. cbn. rewrite fmap_app, concat_app. cbn. by rewrite app_nil_r.
Qed.

Lemma acquire_same max_per_mx now mx port s :
  Sound s →
  let '(session, s') := acquire_session max_per_mx now mx port s in
  Same s s' ∧ (length (peers s) ≤ length (peers s'))%nat ∧ ∀ i, session = Some i → (i < length (peers s'))%nat.
Proof.
  intros Hs. pose proof Hs as [Hg Ht Hm]. unfold acquire_session. destruct (running s); cbn [negb].
  2:{ split; [by constructor |]. by split. }
  assert (∀ l, (∀ i, i ∈ l → (i < length (peers s))%nat) → ∀ k l' i, (k, l') ∈ put_mx mx l (mx_sessions s) → i ∈ l' → (i < length (peers s))%nat) as Hput.
  { intros l Hl k l' i [[= -> ->] | Hin]%put_mx_in Hi; [by apply Hl | by eapply Hm]. }
  set (last := <[mx := now]> (last_active s)).
  assert (∀ l, (∀ i, i ∈ l → (i < length (peers s))%nat) →
    Same s (set_table (put_mx mx l (mx_sessions s)) last (peers s) s)) as Hfound by (intros l Hl; apply same_table; [done | apply called_id | by eapply Hput]).
  assert (∀ l, (∀ i, i ∈ l → (i < length (peers s))%nat) →
    let s' := set_table (put_mx mx (l ++ [length (peers s)]) (mx_sessions s)) last (peers s ++ [mkPeer mx port new_session]) s in
    Same s s' ∧ (length (peers s) ≤ length (peers s'))%nat ∧ ∀ i, Some (length (peers s)) = Some i → (i < length (peers s'))%nat) as Hcreate.
  { intros l Hl. split; [by apply same_create; eauto |]. cbn. rewrite length_app. cbn. split; [lia |]. intros i [= <-]. lia. }
  unfold create_session. destruct (find_mx mx (mx_sessions s)) as [l|] eqn:Ef; [| apply (Hcreate []); intros i []%not_elem_of_nil].
  assert (∀ i, i ∈ keep_sessions (peers s) l → (i < length (peers s))%nat) as Hk.
  { intros i Hi%keep_sessions_in. apply (Hm mx l i); [by apply find_mx_in | done]. }
  destruct (least_loaded _ _) as [[best q]|] eqn:El.
  - pose proof (least_loaded_spec _ _ _ _ El) as (Hb & _ & _). destruct (q <? 100); [| destruct (_ <? _)%nat; [by apply Hcreate |]].
    all: split; [by apply Hfound |]; split; [done |]; intros i [= <-]; by apply Hk.
  - destruct (_ <? _)%nat; [by apply Hcreate |]. split; [by apply Hfound |]. by split.
Qed.

Lemma evict_loop_called shortcut sign read_file timeout now m last ps :
  (∀ mx l i, (mx, l) ∈ m → i ∈ l → (i < length ps)%nat) →
  let '(m', last', ps') := evict_loop timeout shortcut sign read_file now m last ps in
  called [] ps ps' ∧ ∀ mx l i, (mx, l) ∈ m' → i ∈ l → (i < length ps)%nat.
Proof.
  revert last ps. induction m as [| [k l] m IH]; intros last ps Hm; cbn [evict_loop].
  { split; [apply called_id |]. intros mx l i []%not_elem_of_nil. }
  assert (∀ i, i ∈ keep_sessions ps l → (i < length ps)%nat) as Hl by (intros i Hi%keep_sessions_in; apply (Hm k l i); [left | done]).
  assert (∀ mx l' i, (mx, l') ∈ m → i ∈ l' → (i < length ps)%nat) as Hm' by (intros; eapply Hm; [right |]; done).
  set (sessions := keep_sessions ps l) in *.
  assert (∀ last0, let '(m', last', ps') := (let '(m', last', ps') := evict_loop timeout shortcut sign read_file now m last0 ps in ((k, sessions) :: m', last', ps')) in
    called [] ps ps' ∧ ∀ mx l' i, (mx, l') ∈ m' → i ∈ l' → (i < length ps)%nat) as Hkeep.
  { intros last0. specialize (IH last0 ps Hm'). destruct (evict_loop _ _ _ _ _ m _ _) as [[m' last'] ps']. destruct IH as [IH1 IH2].
    split; [done |]. intros mx l' i [[= -> ->] | H]%elem_of_cons Hi; [by apply Hl | by eapply IH2]. }
  destruct (negb (existsb _ _)); cbn [andb]; [| by apply Hkeep].
  case_bool_decide; [by apply IH |]. destruct (_ <? _); [| by apply Hkeep].
  pose proof (close_peers_called shortcut sign read_file sessions ps Hl) as Hc. destruct Hc as [Hlen Hc].
  specialize (IH (delete k last) (close_peers shortcut sign read_file sessions ps)). rewrite Hlen in IH. specialize (IH Hm').
  destruct (evict_loop _ _ _ _ _ m _ _) as [[m' last'] ps']. destruct IH as [IH1 IH2]. split; [| done].
  by apply (called_trans [] [] _ _ _ (conj Hlen Hc)).
Qed.

Lemma shrink_loop_called shortcut sign read_file excess now m last ps :
  (∀ mx l i, (mx, l) ∈ m → i ∈ l → (i < length ps)%nat) →
  let '(m', last', ps') := shrink_loop shortcut sign read_file excess now m last ps in
  called [] ps ps' ∧ ∀ mx l i, (mx, l) ∈ m' → i ∈ l → (i < length ps)%nat.
Proof.
  revert m last ps. induction excess as [| excess IH]; intros m last ps Hm; cbn [shrink_loop]; [split; [apply called_id | done] |].
  destruct (oldest_entry now m last) as [mx|]; [| split; [apply called_id | done]].
  set (l := match find_mx mx m with Some l => l | None => [] end).
  assert (called [] ps (close_peers shortcut sign read_file l ps)) as Hc.
  { apply close_peers_called. intros i. unfold l. destruct (find_mx mx m) as [l'|] eqn:E; [| by intros []%not_elem_of_nil].
    apply find_mx_in in E. by apply (Hm mx). }
  pose proof Hc as [Hlen _]. specialize (IH (remove_mx mx m) (delete mx last) (close_peers shortcut sign read_file l ps)). rewrite Hlen in IH.
  destruct (shrink_loop _ _ _ _ _ _ _) as [[m' last'] ps']. destruct IH as [IH1 IH2].
  { intros k l' i Hin%remove_mx_in. by apply (Hm k). }
  split; [| done]. by apply (called_trans [] [] _ _ _ Hc).
Qed.

Lemma evict_same shortcut sign read_file timeout now s : Sound s → Same s (evict_idle timeout shortcut sign read_file now s).
Proof.
  intros Hs. pose proof Hs as [Hg Ht Hm]. unfold evict_idle.
  pose proof (evict_loop_called shortcut sign read_file timeout now (mx_sessions s) (last_active s) (peers s) Hm) as H1.
  destruct (evict_loop _ _ _ _ _ _ _ _) as [[m1 last1] ps1]. destruct H1 as [C1 M1]. pose proof C1 as [L1 _].
  pose proof (shrink_loop_called shortcut sign read_file (length m1 - DEFAULT_MAX_MX_ENTRIES) now m1 last1 ps1) as H2. rewrite L1 in H2. specialize (H2 M1).
  destruct (shrink_loop _ _ _ _ _ _ _) as [[m2 last2] ps2]. destruct H2 as [C2 M2]. pose proof C2 as [L2 _].
  apply same_table; [done | by apply (called_trans [] [] _ _ _ C1) |]. by rewrite L2, L1.
Qed.

(** ** Threads *)

(** The general step: the table and the sessions as after [s1], some new threads. *)
Lemma balance ids c tk s s1 acts s' ts :
  Same s s1 → threads s' = threads s ++ ts → peers s' = peers s1 → mx_sessions s' = mx_sessions s1 →
  Forall (thread_ok (length (peers s'))) ts →
  taken acts ++ ids ≡ₚ settled acts ++ lost acts ++ concat (thread_ids <$> ts) →
  pending_count s' + 32 * Z.of_nat c + Z.of_nat (length ids) =
    pending_count s + 32 * Z.of_nat (sum_list_with claim_weight ts) + Z.of_nat (length (concat (thread_ids <$> ts))) +
    Z.of_nat (length (lost acts)) + 32 * Z.of_nat (lost_batches acts) →
  ((tk + pull_tokens s ≤ bit (is_pulling s))%nat → (pull_tokens s + sum_list_with token_weight ts ≤ bit (is_pulling s'))%nat) →
  Balanced ids c tk s (acts, s').
Proof.
  intros [[Hg Ht Hm] Hh Eth _ _ _] E1 E2 E3 Hts Hp Hn Htk.
  assert (held s' ≡ₚ concat (thread_ids <$> ts) ++ held s) as Hheld.
  { rewrite <- Hh. unfold held. rewrite E1, E2, Eth, fmap_app, concat_app, (Permutation_app_comm (concat (thread_ids <$> threads s))), <- app_assoc. done. }
  assert (claims s' = claims s + sum_list_with claim_weight ts)%nat as Hc by (unfold claims; rewrite E1; apply sum_list_with_app).
  assert (pull_tokens s' = pull_tokens s + sum_list_with token_weight ts)%nat as Hk by (unfold pull_tokens; rewrite E1; apply sum_list_with_app).
  constructor; cbn [fst snd].
  - constructor; [by rewrite E2 | | by rewrite E2, E3]. rewrite E1. apply Forall_app. split; [| done]. by rewrite E2, <- Eth.
  - by rewrite Hheld, app_assoc, Hp, !app_assoc.
  - rewrite Hheld, length_app, Hc. lia.
  - by rewrite Hk.
Qed.

Lemma same_refl s : Sound s → Same s s.
Proof. by constructor. Qed.

Lemma lost_map ids : lost (Lost <$> ids) = ids ∧ taken (Lost <$> ids) = [] ∧ settled (Lost <$> ids) = [] ∧ lost_batches (Lost <$> ids) = 0%nat.
Proof. induction ids as [| x l (H1 & H2 & H3 & H4)]; [done |]. unfold lost, taken, settled, lost_batches in *. cbn. by rewrite H1. Qed.

Lemma taken_map ids : taken (Taken <$> ids) = ids ∧ lost (Taken <$> ids) = [] ∧ settled (Taken <$> ids) = [] ∧ lost_batches (Taken <$> ids) = 0%nat.
Proof. induction ids as [| x l (H1 & H2 & H3 & H4)]; [done |]. unfold lost, taken, settled, lost_batches in *. cbn. by rewrite H1. Qed.

(** Closes the arithmetic and the side conditions of [balance]. *)
Ltac settle s :=
  try done; try (by apply same_refl); unfold DEFAULT_BATCH_SIZE; try (destruct (is_pulling s); cbn; lia);
  try (apply list.Forall_singleton; by cbn).

Lemma claim_loop_length fault now others body_path worker_id lease selected d :
  (length (claim_loop fault now others body_path worker_id lease selected d).1 ≤ length selected)%nat.
Proof.
  revert d. induction selected as [| [i r] l IH]; intros d; cbn [claim_loop]; [done |].
  destruct (execute_with_deadlock_retry _ _ _ _ d) as [ok d1]. destruct ok; cbn [negb]; [| specialize (IH d1); cbn [length]; lia].
  destruct (query _ _ _ _ d1) as [affected d2]. specialize (IH d2). destruct (claim_loop _ _ _ _ _ _ l d2) as [claimed d3]. cbn [fst length] in *.
  destruct affected as [n|]; [destruct (0 <? n) |]; cbn [length]; lia.
Qed.

Lemma claim_records_length worker_id w : (length (claim_records worker_id w) ≤ DEFAULT_BATCH_SIZE)%nat.
Proof.
  unfold claim_records, claim_batch. destruct (_ || _); [cbn; lia |]. unfold query. destruct (w_fault w _); [cbn; lia |].
  etransitivity; [apply claim_loop_length |]. unfold build_outbox_claim_select. rewrite length_take. lia.
Qed.

Section Threads.
Context (worker_id : bytes) (config : OutboundConfig) (max_per_mx : nat) (timeout : Z).
Context (resolver : bool) (resolve_mx resolve_host_addresses : bytes → list bytes) (load_mail : Z → option MailBody).
Context (shortcut : bytes → bytes) (sign : bytes → bytes) (read_file : bytes → option bytes).

Local Abbreviation go w t s :=
  (run_thread worker_id config max_per_mx resolver resolve_mx resolve_host_addresses load_mail shortcut sign read_file w t s).
Local Abbreviation fits t s out := (Balanced (thread_ids t) (claim_weight t) (token_weight t) s out).

Lemma hand_over_balanced i t rest s :
  Sound s → (i < length (peers s))%nat →
  fits (THand i t rest) s
    ([], spawn [match rest with None => TPullCheck | Some records => TDispatch records end]
           (hand_over config resolver resolve_mx resolve_host_addresses shortcut sign read_file i t s)).
Proof.
  intros Hs Hi. unfold hand_over. set (domain := server_extract_domain _).
  set (ps := if bool_decide (resolve_target_host config domain = domain) then _ else _).
  assert (called [] (peers s) ps) as Hc1.
  { unfold ps. case_bool_decide; [| apply called_id]. destruct (resolve_mx_pool _ _ _ _) as [| a pool]; [apply called_id |].
    by apply (call_peer_called shortcut sign read_file i (SetPool (a :: pool))). }
  assert (called [OutboundSession.record_id t] (peers s) (call_peer shortcut sign read_file i (Submit t) ps)) as [Hl Hc].
  { apply (called_trans [] [_] _ _ _ Hc1), (call_peer_called shortcut sign read_file i (Submit t)); [done |]. by destruct Hc1 as [-> _]. }
  destruct Hs as [Hg Ht Hm]. destruct (Hc Hg) as [Hg' Hp]. set (ps' := call_peer _ _ _ i (Submit t) ps) in *.
  set (rid := OutboundSession.record_id t) in *.
  set (more := match rest with Some records => rec_id <$> records | None => [] end).
  assert (held (spawn [match rest with None => TPullCheck | Some records => TDispatch records end] (set_peers ps' s)) ≡ₚ rid :: more ++ held s) as Hh.
  { rewrite held_spawn. unfold held. cbn [threads peers set_peers]. rewrite Hp. destruct rest as [records|]; cbn; rewrite ?app_nil_r.
    - unfold more. rewrite !app_assoc. by rewrite <- Permutation_middle.
    - by rewrite <- Permutation_middle. }
  change (thread_ids (THand i t rest)) with (rid :: more). clearbody more. constructor; cbn [fst snd].
  - apply sound_spawn; [| by destruct rest; repeat constructor]. constructor; cbn; [done | by rewrite Hl | by rewrite Hl].
  - cbn. by rewrite Hh.
  - rewrite Hh, claims_spawn. cbn. rewrite length_app. unfold claims. cbn. destruct rest; cbn; lia.
  - rewrite tokens_spawn. unfold pull_tokens. cbn. destruct rest; cbn; lia.
Qed.

Lemma claim_complete_balanced db records s :
  Sound s → (length records ≤ DEFAULT_BATCH_SIZE)%nat → fits (TClaimed records) s (on_claim_complete db records s).
Proof.
  intros Hs Hl. unfold on_claim_complete, DEFAULT_BATCH_SIZE in *. destruct (running s); cbn [negb].
  2:{ by apply (balance _ _ _ _ s _ _ []); cbn; rewrite ?app_nil_r; try done; try lia; apply same_refl. }
  set (over := Z.of_nat 32 - Z.of_nat (length records)).
  set (s1 := if 0 <? over then set_pending (pending_count s - over) s else s).
  assert (pending_count s1 = pending_count s - over) as Hp by (unfold s1, over; destruct (Z.ltb_spec 0 (Z.of_nat 32 - Z.of_nat (length records))); cbn; lia).
  assert (threads s1 = threads s ∧ peers s1 = peers s ∧ mx_sessions s1 = mx_sessions s ∧ is_pulling s1 = is_pulling s) as (E1 & E2 & E3 & E4) by (unfold s1; by destruct (0 <? over)).
  clearbody s1. pose proof (taken_map (rec_id <$> records)) as (T1 & T2 & T3 & T4). set (ids := rec_id <$> records) in *.
  assert (length ids = length records) as Hlen by apply length_fmap.
  destruct records as [| rec records]; [| destruct db].
  - apply (balance _ _ _ _ s _ _ [TRetryPosted]); cbn; rewrite ?E1, ?E2, ?E3, ?E4, ?T1, ?T2, ?T3, ?T4, ?app_nil_r; try done; try lia;
      try (by apply same_refl); try (by repeat constructor). unfold over in Hp; cbn in *; lia.
  - apply (balance _ _ _ _ s _ _ [TDispatch (rec :: records)]); cbn [threads peers mx_sessions is_pulling spawn set_threads set_delay pending_count];
      rewrite ?E1, ?E2, ?E3, ?E4, ?T1, ?T2, ?T3, ?T4, ?app_nil_r; try done;
      try (by apply same_refl); try (by repeat constructor).
    + cbn [fmap list_fmap concat thread_ids]. fold ids. by rewrite !app_nil_r.
    + cbn [fmap list_fmap concat thread_ids claim_weight sum_list_with]. fold ids. rewrite app_nil_r. unfold over in Hp. cbn [length] in *.
      rewrite length_fmap. lia.
    + cbn. lia.
  - destruct (lost_map ids) as (L1 & L2 & L3 & L4).
    apply (balance _ _ _ _ s _ _ []); cbn [threads peers mx_sessions is_pulling set_pulling set_threads set_delay pending_count];
      rewrite ?taken_app, ?lost_app, ?settled_acts_app, ?lost_batches_app, ?L1, ?L2, ?L3, ?L4, ?E1, ?E2, ?E3, ?T1, ?T2, ?T3, ?T4, ?app_nil_r; try done;
      try (by apply same_refl).
    + unfold over in Hp. cbn [length app] in *. cbn. rewrite ?length_fmap. lia.
    + cbn. destruct (is_pulling s); cbn; lia.
Qed.

Lemma dispatch_balanced now records s :
  Sound s → fits (TDispatch records) s (dispatch config max_per_mx load_mail now records s).
Proof.
  intros Hs. destruct records as [| rec records]; cbn [dispatch].
  { destruct (_ <? _).
    - apply (balance _ _ _ _ s _ _ [TClaim]); cbn; settle s.
    - apply (balance _ _ _ _ s _ _ []); cbn; rewrite ?app_nil_r; settle s. }
  pose proof (acquire_same max_per_mx now (resolve_target_host config (server_extract_domain (t_recipient (task_of load_mail now rec))))
    (resolve_port config (server_extract_domain (t_recipient (task_of load_mail now rec)))) s Hs) as Ha.
  destruct (acquire_session _ _ _ _ s) as [session s1]. destruct Ha as (Hsame & _ & Hi). pose proof (sa_threads _ _ Hsame) as Et.
  pose proof (sa_pending _ _ Hsame) as Ep. pose proof (sa_pulling _ _ Hsame) as Eu. destruct session as [i|].
  - apply (balance _ _ _ _ s1 _ _ [THand i (task_of load_mail now rec) (Some records)]); cbn; rewrite ?Et, ?Ep, ?Eu, ?app_nil_r; settle s.
    repeat constructor. by apply Hi.
  - apply (balance _ _ _ _ s1 _ _ [TDispatch records]); cbn; rewrite ?Et, ?Ep, ?Eu, ?app_nil_r; settle s.
Qed.

Lemma acquire_balanced w t port s :
  Sound s → fits (TAcquire t port) s (go w (TAcquire t port) s).
Proof.
  intros Hs. cbn [run_thread]. set (domain := server_extract_domain _).
  pose proof (acquire_same max_per_mx (w_now w) (resolve_target_host config domain) (if 0 <? port then port else resolve_port config domain) s Hs) as Ha.
  destruct (acquire_session _ _ _ _ s) as [session s1]. destruct Ha as (Hsame & _ & Hi). pose proof (sa_threads _ _ Hsame) as Et.
  pose proof (sa_pending _ _ Hsame) as Ep. pose proof (sa_pulling _ _ Hsame) as Eu. destruct session as [i|].
  - apply (balance _ _ _ _ s1 _ _ [THand i t None]); cbn; rewrite ?Et, ?Ep, ?Eu, ?app_nil_r; settle s. repeat constructor. by apply Hi.
  - apply (balance _ _ _ _ s1 _ _ []); cbn; rewrite ?Et, ?Ep, ?Eu, ?app_nil_r; settle s.
Qed.

Lemma cancel_balanced s :
  Sound s → fits TCancel s ([], set_threads (List.filter (λ t, match t with TRetryTimer => false | _ => true end) (threads s)) s).
Proof.
  intros [Hg Ht Hm]. set (f := λ t : Thread, match t with TRetryTimer => false | _ => true end).
  assert (concat (thread_ids <$> List.filter f (threads s)) = concat (thread_ids <$> threads s) ∧
          sum_list_with claim_weight (List.filter f (threads s)) = sum_list_with claim_weight (threads s) ∧
          sum_list_with token_weight (List.filter f (threads s)) ≤ sum_list_with token_weight (threads s))%nat as (H1 & H2 & H3).
  { induction (threads s) as [| t l IH]; [done |]. apply list.Forall_cons in Ht as [_ Ht]. destruct (IH Ht) as (I1 & I2 & I3).
    destruct t; cbn; rewrite ?I1, ?I2; repeat split; lia. }
  constructor; cbn [fst snd].
  - constructor; cbn; try done. apply list.Forall_forall. intros t Hin. apply list_elem_of_In, List.filter_In in Hin as [Hin _].
    apply list_elem_of_In in Hin. by eapply list.Forall_forall in Ht.
  - unfold held. cbn. by rewrite H1.
  - unfold held, claims, peer_ids. cbn. rewrite H1, H2. lia.
  - unfold pull_tokens. cbn. lia.
Qed.

Lemma run_thread_balanced w t s :
  Sound s → thread_ok (length (peers s)) t → fits t s (go w t s).
Proof.
  intros Hs Hok. pose proof (claim_records_length worker_id w) as Hw. pose proof (same_refl s Hs) as Hsame.
  destruct t as [t port | i t rest | | | | | records | records | | | id r |]; cbn [run_thread]; unfold try_pull, pull_take, schedule_retry, retry_fired.
  - by apply acquire_balanced.
  - by apply hand_over_balanced.
  - destruct (_ && _); [apply (balance _ _ _ _ s _ _ [TPullTake]) | apply (balance _ _ _ _ s _ _ [])]; cbn; rewrite ?app_nil_r; settle s.
  - destruct (is_pulling s) eqn:E; [apply (balance _ _ _ _ s _ _ []) | apply (balance _ _ _ _ s _ _ [TClaim])]; cbn; rewrite ?app_nil_r, ?E; settle s.
  - unfold do_claim_batch, DEFAULT_BATCH_SIZE.
    destruct (w_db w); [apply (balance _ _ _ _ s _ _ [TWorker]) | apply (balance _ _ _ _ s _ _ [])]; cbn; rewrite ?app_nil_r; settle s.
  - destruct (running s); [apply (balance _ _ _ _ s _ _ [TClaimed (claim_records worker_id w)]) | apply (balance _ _ _ _ s _ _ [])]; cbn; rewrite ?app_nil_r; settle s.
  - by apply claim_complete_balanced.
  - by apply dispatch_balanced.
  - destruct (running s); [apply (balance _ _ _ _ s _ _ [TRetryTimer]) | apply (balance _ _ _ _ s _ _ [])]; cbn; rewrite ?app_nil_r; settle s.
  - destruct (running s); [apply (balance _ _ _ _ s _ _ [TClaim]) | apply (balance _ _ _ _ s _ _ [])]; cbn; rewrite ?app_nil_r; settle s.
  - destruct (running s); [| apply (balance _ _ _ _ s _ _ []); cbn; rewrite ?app_nil_r; settle s].
    unfold on_delivery_complete. set (eff := if w_db w then _ else _).
    assert (taken [eff] = [] ∧ settled [eff] = [id] ∧ lost [eff] = [] ∧ lost_batches [eff] = 0%nat) as (A1 & A2 & A3 & A4).
    { unfold eff. destruct (w_db w); [| done]. case_bool_decide; [done |]. by destruct (is_permanent _). }
    destruct (_ <? _); [apply (balance _ _ _ _ s _ _ [TPullCheck]) | apply (balance _ _ _ _ s _ _ [])];
      rewrite ?A1, ?A2, ?A3, ?A4; cbn; rewrite ?app_nil_r; settle s.
  - by apply cancel_balanced.
Qed.
End Threads.

(** ** The whole scheduler *)

Lemma finished_split acts :
  finished acts ≡ₚ concat (thread_ids <$> concat (reports <$> acts)) ++ lost (concat (losses <$> acts)).
Proof.
  induction acts as [| a acts IH]; [done |]. change (finished (a :: acts)) with (finished_by a ++ finished acts). rewrite IH.
  rewrite !fmap_cons. cbn [concat]. rewrite fmap_app, concat_app, lost_app. destruct a as [| | | | | ids |]; try done.
  cbn [finished_by reports losses fmap list_fmap concat app]. rewrite (proj1 (lost_map ids)). by rewrite Permutation_app_swap_app.
Qed.

Lemma at_peer_quiet i acts :
  taken (AtPeer i <$> acts) = [] ∧ settled (AtPeer i <$> acts) = [] ∧ lost (AtPeer i <$> acts) = [] ∧ lost_batches (AtPeer i <$> acts) = 0%nat.
Proof. by induction acts. Qed.

Lemma losses_quiet acts :
  taken (concat (losses <$> acts)) = [] ∧ settled (concat (losses <$> acts)) = [] ∧ lost_batches (concat (losses <$> acts)) = 0%nat ∧
  Forall (λ t, claim_weight t = 0%nat ∧ token_weight t = 0%nat ∧ ∀ n, thread_ok n t) (concat (reports <$> acts)).
Proof.
  induction acts as [| a acts (H1 & H2 & H3 & H4)]; [done |]. rewrite !fmap_cons. cbn [concat]. rewrite taken_app, settled_acts_app, lost_batches_app, H1, H2, H3.
  destruct a as [| | | | | ids |]; try done; cbn [losses reports app].
  - repeat split; try done. by constructor.
  - destruct (lost_map ids) as (_ & -> & -> & ->). done.
Qed.

Section Steps.
Context (worker_id : bytes) (config : OutboundConfig) (max_per_mx : nat) (timeout : Z).
Context (resolver : bool) (resolve_mx resolve_host_addresses : bytes → list bytes) (load_mail : Z → option MailBody).
Context (shortcut : bytes → bytes) (sign : bytes → bytes) (read_file : bytes → option bytes).

Lemma peer_step_balanced i e s : Sound s → Balanced [] 0 0 s (peer_step shortcut sign read_file i e s).
Proof.
  intros Hs. assert (Balanced [] 0 0 s ([], s)) as Hid by (apply (balance _ _ _ _ s _ _ []); cbn; rewrite ?app_nil_r; settle s).
  unfold peer_step. destruct (peers s !! i) as [p|] eqn:Ep; [| done]. destruct (internal e) eqn:Ei; [| done].
  destruct Hs as [Hg Ht Hm]. assert (Good 0 0 (p_session p)) as Hgp by (by eapply Forall_lookup_1 in Hg).
  destruct (step_works (p_host p) shortcut sign read_file e (p_session p) Hgp) as (_ & Hg' & Hw).
  destruct (step (p_host p) shortcut sign read_file e (p_session p)) as [acts x]. cbn [fst snd] in *.
  assert (handed e = []) as He by (by destruct e). rewrite He in Hw. cbn [app] in Hw.
  destruct (at_peer_quiet i acts) as (A1 & A2 & A3 & A4). destruct (losses_quiet acts) as (L1 & L2 & L3 & L4).
  set (ts := concat (reports <$> acts)) in *. set (p' := mkPeer (p_host p) (p_port p) x).
  assert (sum_list_with claim_weight ts = 0%nat ∧ sum_list_with token_weight ts = 0%nat ∧ ∀ n, Forall (thread_ok n) ts) as (C1 & C2 & C3).
  { clear -L4. induction L4 as [| t l (E1 & E2 & E3) _ (I1 & I2 & I3)]; [done |]. cbn. rewrite E1, E2. repeat split; try done. constructor; auto. }
  assert (held (spawn ts (set_peers (<[i := p']> (peers s)) s)) ++ lost (concat (losses <$> acts)) ≡ₚ held s) as Hh.
  { rewrite held_spawn. unfold held. cbn [threads peers set_peers]. destruct (peer_ids_insert (peers s) i p p' Ep) as (rest & -> & ->).
    rewrite Hw, finished_split. fold ts. unfold p'. cbn [p_session]. solve_Permutation. }
  constructor; cbn [fst snd].
  - apply sound_spawn; [| apply C3]. constructor; cbn; rewrite ?length_insert; try done. by apply Forall_insert.
  - rewrite taken_app, settled_acts_app, lost_app, A1, A2, A3, L1, L2. cbn [app]. rewrite <- Hh. apply Permutation_app_comm.
  - rewrite lost_app, lost_batches_app, A3, A4, L3, claims_spawn, C1, <- Hh, length_app. unfold claims. cbn. lia.
  - rewrite tokens_spawn, C2. unfold pull_tokens. cbn. lia.
Qed.

(** Taking a thread in hand. *)
Lemma pop_thread k t s out :
  threads s !! k = Some t → Balanced (thread_ids t) (claim_weight t) (token_weight t) (set_threads (delete k (threads s)) s) out → Balanced [] 0 0 s out.
Proof.
  intros Hk [B1 B2 B3 B4]. pose proof (delete_Permutation (threads s) k t Hk) as Hp.
  assert (held s ≡ₚ thread_ids t ++ held (set_threads (delete k (threads s)) s)) as Hh.
  { unfold held. cbn [threads peers set_threads]. rewrite Hp at 1. cbn [fmap list_fmap concat]. by rewrite <- app_assoc. }
  assert (∀ f : Thread → nat, sum_list_with f (threads s) = f t + sum_list_with f (delete k (threads s)))%nat as Hf by (intros f; by rewrite Hp at 1).
  constructor.
  - done.
  - by rewrite Hh.
  - rewrite Hh, length_app. unfold claims in *. rewrite Hf. cbn in B3 |- *. lia.
  - unfold pull_tokens in *. rewrite Hf. cbn in B4 |- *. exact B4.
Qed.

Lemma sound_pop k s : Sound s → Sound (set_threads (delete k (threads s)) s).
Proof. intros [Hg Ht Hm]. constructor; try done. cbn. by apply Forall_delete. Qed.

Local Abbreviation step_of := (server_step worker_id config max_per_mx timeout resolver resolve_mx resolve_host_addresses load_mail shortcut sign read_file).

Lemma server_step_balanced e s : Sound s → Balanced [] 0 0 s (step_of e s).
Proof.
  intros Hs. assert (Balanced [] 0 0 s ([], s)) as Hid by (apply (balance _ _ _ _ s _ _ []); cbn; rewrite ?app_nil_r; settle s).
  destruct e as [| | t port | | now | k w | i e]; cbn [server_step].
  - unfold start. destruct (running s); [done |]. apply (balance _ _ _ _ s _ _ [TPullCheck]); cbn; settle s.
  - unfold stop. destruct (running s); cbn [negb]; [| done]. set (l := concat (snd <$> mx_sessions s)).
    assert (called [] (peers s) (close_peers shortcut sign read_file l (peers s))) as Hc.
    { apply close_peers_called. intros i Hi. unfold l in Hi. apply list_elem_of_In, in_concat in Hi as (l' & Hl' & Hi).
      apply list_elem_of_In, list_elem_of_fmap in Hl' as ([mx l''] & -> & Hin). apply list_elem_of_In in Hi. by apply (so_table s Hs mx l''). }
    apply (balance _ _ _ _ (set_table [] (last_active s) (close_peers shortcut sign read_file l (peers s)) s) _ _ [TCancel]); cbn; settle s.
    apply same_table; [done | done |]. intros mx l' i []%not_elem_of_nil.
  - unfold submit. destruct (running s); cbn [negb]; [| done]. case_bool_decide; [done |].
    apply (balance _ _ _ _ s _ _ [TAcquire t port]); cbn; settle s.
  - apply (balance _ _ _ _ s _ _ [TPullCheck]); cbn; settle s.
  - destruct (running s); [| done]. pose proof (evict_same shortcut sign read_file timeout now s Hs) as Hsame.
    apply (balance _ _ _ _ _ _ _ [] Hsame); cbn; rewrite ?app_nil_r; try done.
    + apply Hsame.
    + rewrite (sa_pending _ _ Hsame). lia.
    + rewrite (sa_pulling _ _ Hsame). cbn. lia.
  - destruct (threads s !! k) as [t|] eqn:Ek; [| done]. apply (pop_thread k t s); [done |].
    apply run_thread_balanced; [by apply sound_pop |]. cbn. by eapply Forall_lookup_1; [apply Hs |].
  - by apply peer_step_balanced.
Qed.

(** The accounts of a run so far. *)
Record Accounted (acts : list ServerEffect) (s : Server) : Prop := {
  ac_sound : Sound s;
  ac_perm : taken acts ≡ₚ settled acts ++ lost acts ++ held s;
  ac_count : pending_count s = 32 * Z.of_nat (claims s + lost_batches acts) + Z.of_nat (length (held s) + length (lost acts));
  ac_tokens : (pull_tokens s ≤ bit (is_pulling s))%nat;
}.

Lemma accounted_step acts e s : Accounted acts s → Accounted (acts ++ (step_of e s).1) (step_of e s).2.
Proof.
  intros [A1 A2 A3 A4]. destruct (server_step_balanced e s A1) as [B1 B2 B3 B4]. constructor; try done.
  - rewrite taken_app, settled_acts_app, lost_app, A2. cbn in B2. rewrite <- !app_assoc.
    transitivity (settled acts ++ lost acts ++ taken (step_of e s).1 ++ held s); [solve_Permutation | rewrite B2; solve_Permutation].
  - rewrite lost_app, lost_batches_app, length_app. cbn in B3. lia.
  - by apply B4.
Qed.

Local Abbreviation run_of := (run_server worker_id config max_per_mx timeout resolver resolve_mx resolve_host_addresses load_mail shortcut sign read_file).

Lemma accounted_run acts es s : Accounted acts s → Accounted (acts ++ (run_of es s).1) (run_of es s).2.
Proof.
  revert acts s. induction es as [| e es IH]; intros acts s H; cbn [run_server]; [by rewrite app_nil_r |].
  pose proof (accounted_step acts e s H) as H1. destruct (step_of e s) as [a s1]. cbn [fst snd] in H1. specialize (IH _ _ H1).
  destruct (run_of es s1) as [a2 s2]. cbn [fst snd] in *. by rewrite app_assoc.
Qed.

Lemma accounted_new : Accounted [] new_server.
Proof. constructor; try done. constructor; cbn; [constructor | constructor |]. intros mx l i []%not_elem_of_nil. Qed.
End Steps.

(** C12: the scheduler keeps its books: whatever calls, workers, timers and
    sessions overlap, the messages taken over are exactly those whose result was
    handed to a worker to be written, those whose completion came while no
    database was there (the code only logs them), those refused for want of a
    session, those lost and those still in a call or a session, each once; and
    [pending_count_] is the batches reserved by a claim under way, plus the
    messages held, plus what was lost without being counted down.  Whether the
    worker's write itself succeeds is outside: the code logs a failure. *)
Theorem scheduler_accounted worker_id config max_per_mx timeout resolver resolve_mx resolve_host_addresses load_mail shortcut sign read_file es :
  let '(acts, s) := run_server worker_id config max_per_mx timeout resolver resolve_mx resolve_host_addresses load_mail shortcut sign read_file es new_server in
  taken acts ≡ₚ recorded acts ++ unrecorded acts ++ refused acts ++ lost acts ++ held s ∧
  pending_count s = 32 * Z.of_nat (claims s + lost_batches acts) + Z.of_nat (length (held s) + length (lost acts)).
Proof.
  destruct (accounted_run worker_id config max_per_mx timeout resolver resolve_mx resolve_host_addresses load_mail shortcut sign read_file [] es new_server accounted_new) as [_ H1 H2 _].
  destruct (run_server _ _ _ _ _ _ _ _ _ _ _ es new_server) as [acts s]. split; [| done].
  cbn [app fst snd] in H1. by rewrite H1, settled_split, <- !app_assoc.
Qed.

(** There is one pull cycle: at any time at most one thread is claiming
    records, handing out claimed records or waiting to claim again, and while
    there is one the flag [is_pulling_] is set. *)
Theorem single_pull_cycle worker_id config max_per_mx timeout resolver resolve_mx resolve_host_addresses load_mail shortcut sign read_file es :
  let s := (run_server worker_id config max_per_mx timeout resolver resolve_mx resolve_host_addresses load_mail shortcut sign read_file es new_server).2 in
  (pull_tokens s ≤ bit (is_pulling s))%nat.
Proof.
  cbv zeta. apply (accounted_run worker_id config max_per_mx timeout resolver resolve_mx resolve_host_addresses load_mail shortcut sign read_file [] es new_server accounted_new).
Qed.

(** ** When messages were lost *)

(** A thread that neither is in the pull cycle nor about to enter it. *)
Definition outside (t : Thread) : bool := (token_weight t =? 0)%nat && match t with TPullTake => false | _ => true end.

Definition stalled (s : Server) : Prop := is_pulling s = false ∧ forallb outside (threads s) = true.

Section Stalled.
Context (worker_id : bytes) (config : OutboundConfig) (max_per_mx : nat) (timeout : Z).
Context (resolver : bool) (resolve_mx resolve_host_addresses : bytes → list bytes) (load_mail : Z → option MailBody).
Context (shortcut : bytes → bytes) (sign : bytes → bytes) (read_file : bytes → option bytes).

Local Abbreviation step_of := (server_step worker_id config max_per_mx timeout resolver resolve_mx resolve_host_addresses load_mail shortcut sign read_file).
Local Abbreviation run_of := (run_server worker_id config max_per_mx timeout resolver resolve_mx resolve_host_addresses load_mail shortcut sign read_file).

Lemma spawn_stalled ts s : stalled s → forallb outside ts = true → stalled (spawn ts s).
Proof. intros [H1 H2] H. split; [done |]. cbn. by rewrite forallb_app, H2. Qed.

Lemma pop_stalled k s : stalled s → stalled (set_threads (delete k (threads s)) s).
Proof.
  intros [H1 H2]. split; [done |]. cbn. apply forallb_forall. intros t Ht. eapply forallb_forall; [exact H2 |].
  apply list_elem_of_In. apply list_elem_of_In in Ht. eapply elem_of_submseteq; [exact Ht |]. apply sublist_submseteq, sublist_delete.
Qed.

Lemma acquire_stalled now mx port s : stalled s → stalled (acquire_session max_per_mx now mx port s).2.
Proof.
  intros H. unfold acquire_session. destruct (negb (running s)); [done |]. cbv zeta. unfold create_session.
  destruct (find_mx _ _); [| done]. destruct (least_loaded _ _) as [[? ?]|]; [destruct (_ <? _); [done |] |]; by destruct (_ <? _)%nat.
Qed.

Definition no_claim (out : ServerOut) : Prop := stalled out.2 ∧ ClaimStarted ∉ out.1.

Lemma run_thread_stalled w t s :
  stalled s → outside t = true → LOW_WATERMARK ≤ pending_count s →
  no_claim (run_thread worker_id config max_per_mx resolver resolve_mx resolve_host_addresses load_mail shortcut sign read_file w t s).
Proof.
  intros Hs Ht Hp. assert (∀ ts, forallb outside ts = true → no_claim ([], spawn ts s)) as Hid.
  { intros ts Hts. split; [by apply spawn_stalled | apply not_elem_of_nil]. }
  assert (no_claim ([], s)) as Hnil by (split; [done | apply not_elem_of_nil]).
  destruct t as [t port | i t [records|] | | | | | records | records | | | id r |]; try done; cbn [run_thread]; unfold try_pull, pull_take, schedule_retry, retry_fired.
  - set (mx := resolve_target_host _ _). set (pt := if 0 <? port then _ else _). pose proof (acquire_stalled (w_now w) mx pt s Hs) as Ha.
    destruct (acquire_session _ _ _ _ s) as [[i|] s1]; cbn [snd] in Ha; split; try done; try apply not_elem_of_nil; [by apply spawn_stalled |].
    cbn. by intros [? | []%not_elem_of_nil]%elem_of_cons.
  - split; [| apply not_elem_of_nil]. by apply spawn_stalled.
  - destruct (Z.ltb_spec (pending_count s) LOW_WATERMARK); [lia |]. by rewrite andb_false_r.
  - destruct (running s); [| split; [done | by intros [? | []%not_elem_of_nil]%elem_of_cons]]. unfold on_delivery_complete.
    set (eff := if w_db w then _ else _). assert (eff ≠ ClaimStarted) as He.
    { unfold eff. destruct (w_db w); [| done]. case_bool_decide; [done |]. by destruct (is_permanent _). }
    split; [| by intros [? | []%not_elem_of_nil]%elem_of_cons]. cbn [snd]. destruct (_ <? _); [by apply spawn_stalled | done].
  - destruct Hs as [H1 H2]. split; [| apply not_elem_of_nil]. split; [done |]. cbn. apply forallb_forall. intros t [Hin _]%List.filter_In.
    by eapply forallb_forall in H2.
Qed.

Lemma peer_step_stalled i e s : stalled s → no_claim (peer_step shortcut sign read_file i e s).
Proof.
  intros Hs. assert (no_claim ([], s)) as Hnil by (split; [done | apply not_elem_of_nil]). unfold peer_step.
  destruct (peers s !! i) as [p|]; [| done]. destruct (internal e); [| done]. destruct (step _ _ _ _ e _) as [acts x]. split; cbn [fst snd].
  - apply spawn_stalled; [by destruct Hs |]. apply forallb_forall. intros t Ht. apply in_concat in Ht as (l & Hl & Ht). apply in_map_iff in Hl as (a & <- & _).
    destruct a; cbn in Ht; try done. by destruct Ht as [<- | []].
  - intros [Hin | Hin]%elem_of_app; apply list_elem_of_In in Hin.
    + by apply in_map_iff in Hin as (a & ? & _).
    + apply in_concat in Hin as (l & Hl & Hin). apply in_map_iff in Hl as (a & <- & _). destruct a; cbn in Hin; try done.
      by apply in_map_iff in Hin as (z & ? & _).
Qed.

Lemma server_step_stalled e s : stalled s → LOW_WATERMARK ≤ pending_count s → no_claim (step_of e s).
Proof.
  intros Hs Hp. assert (no_claim ([], s)) as Hnil by (split; [done | apply not_elem_of_nil]).
  destruct e as [| | t port | | now | k w | i e]; cbn [server_step].
  - split; [| apply not_elem_of_nil]. unfold start. destruct (running s); [done |]. exact (spawn_stalled [TPullCheck] s Hs eq_refl).
  - split; [| apply not_elem_of_nil]. unfold stop. destruct (running s); [| done]. exact (spawn_stalled [TCancel] s Hs eq_refl).
  - unfold submit. destruct (running s); [| done]. cbn [negb]. case_bool_decide; [done |].
    split; [by apply spawn_stalled | by intros [? | []%not_elem_of_nil]%elem_of_cons].
  - split; [by apply spawn_stalled | apply not_elem_of_nil].
  - destruct (running s); [| done]. split; [| apply not_elem_of_nil]. unfold evict_idle. destruct (evict_loop _ _ _ _ _ _ _ _) as [[? ?] ?].
    by destruct (shrink_loop _ _ _ _ _ _ _) as [[? ?] ?].
  - destruct (threads s !! k) as [t|] eqn:Ek; [| done]. apply run_thread_stalled; [by apply pop_stalled | | done].
    destruct Hs as [_ Hs]. apply (proj1 (forallb_forall _ _) Hs), list_elem_of_In. by eapply list_elem_of_lookup_2.
  - by apply peer_step_stalled.
Qed.

Lemma run_stalled acts es s :
  Accounted acts s → stalled s → (16 ≤ length (lost acts))%nat → ClaimStarted ∉ (run_of es s).1.
Proof.
  revert acts s. induction es as [| e es IH]; intros acts s Ha Hs Hl; cbn [run_server]; [apply not_elem_of_nil |].
  assert (LOW_WATERMARK ≤ pending_count s) as Hp by (rewrite (ac_count _ _ Ha); unfold LOW_WATERMARK; lia).
  pose proof (accounted_step worker_id config max_per_mx timeout resolver resolve_mx resolve_host_addresses load_mail shortcut sign read_file acts e s Ha) as Ha'.
  destruct (server_step_stalled e s Hs Hp) as [Hs' Hn]. destruct (step_of e s) as [a s1]. cbn [fst snd] in *.
  assert (16 ≤ length (lost (acts ++ a)))%nat as Hl' by (rewrite lost_app, length_app; lia). specialize (IH _ _ Ha' Hs' Hl').
  destruct (run_of es s1) as [a2 s2]. cbn [fst] in *. by apply not_elem_of_app.
Qed.
End Stalled.

(** Once sixteen messages were lost between the counter and a completion and
    no claim is under way, the scheduler never claims from the outbox again,
    whatever happens afterwards: submissions, completions, even a restart. *)
Theorem lost_messages_stop_claims worker_id config max_per_mx timeout resolver resolve_mx resolve_host_addresses load_mail shortcut sign read_file es es' :
  let run := run_server worker_id config max_per_mx timeout resolver resolve_mx resolve_host_addresses load_mail shortcut sign read_file in
  (16 ≤ length (lost (run es new_server).1))%nat → stalled (run es new_server).2 →
  ClaimStarted ∉ (run es' (run es new_server).2).1.
Proof.
  cbv zeta. intros Hl Hs. eapply run_stalled; [| done | exact Hl].
  apply (accounted_run worker_id config max_per_mx timeout resolver resolve_mx resolve_host_addresses load_mail shortcut sign read_file [] es new_server accounted_new).
Qed.

(** ** The number of sessions *)

Section Bounded.
Context (worker_id : bytes) (config : OutboundConfig) (max_per_mx : nat) (timeout : Z).
Context (resolver : bool) (resolve_mx resolve_host_addresses : bytes → list bytes) (load_mail : Z → option MailBody).
Context (shortcut : bytes → bytes) (sign : bytes → bytes) (read_file : bytes → option bytes).

Definition bounded (m : list (bytes * list nat)) : Prop := ∀ mx l, (mx, l) ∈ m → (length l ≤ max 1 max_per_mx)%nat.

Lemma put_bounded mx v m : bounded m → (length v ≤ max 1 max_per_mx)%nat → bounded (put_mx mx v m).
Proof. intros Hm Hv k l [[= -> ->] | H]%put_mx_in; [done | by apply (Hm k)]. Qed.

Lemma acquire_bounded now mx port s : bounded (mx_sessions s) → bounded (mx_sessions (acquire_session max_per_mx now mx port s).2).
Proof.
  intros Hm. unfold acquire_session. destruct (negb (running s)); [done |]. unfold create_session.
  destruct (find_mx mx _) as [l|] eqn:Ef; [| apply put_bounded; [done | cbn; lia]].
  assert (length (keep_sessions (peers s) l) ≤ max 1 max_per_mx)%nat as Hk.
  { etransitivity; [apply keep_sessions_length |]. apply (Hm mx). by apply find_mx_in. }
  destruct (least_loaded _ _) as [[best q]|]; [destruct (q <? 100); [by apply put_bounded |] |].
  all: destruct (Nat.ltb_spec (length (keep_sessions (peers s) l)) max_per_mx); [| by apply put_bounded].
  all: apply put_bounded; [done |]; rewrite length_app; cbn; lia.
Qed.

Lemma evict_loop_bounded now m last ps :
  bounded m → bounded (evict_loop timeout shortcut sign read_file now m last ps).1.1.
Proof.
  revert last ps. induction m as [| [k l] m IH]; intros last ps Hm; cbn [evict_loop]; [done |].
  assert (bounded m) as Hm' by (intros mx l' H; apply (Hm mx); by right).
  assert (∀ last', bounded (let '(m', last', ps') := evict_loop timeout shortcut sign read_file now m last' ps in ((k, keep_sessions ps l) :: m', last', ps')).1.1) as Hkeep.
  { intros last'. specialize (IH last' ps Hm'). destruct (evict_loop _ _ _ _ _ m _ _) as [[m' ?] ?]. cbn [fst] in *.
    intros mx l' [[= -> ->] | H]%elem_of_cons; [| by apply (IH mx)]. etransitivity; [apply keep_sessions_length |]. apply (Hm k). left. }
  destruct (negb (existsb _ _)); cbn [andb]; [| by apply Hkeep]. case_bool_decide; [by apply IH |]. destruct (_ <? _); [by apply IH | by apply Hkeep].
Qed.

Lemma shrink_loop_bounded excess now m last ps : bounded m → bounded (shrink_loop shortcut sign read_file excess now m last ps).1.1.
Proof.
  revert m last ps. induction excess as [| n IH]; intros m last ps Hm; cbn [shrink_loop]; [done |].
  destruct (oldest_entry now m last) as [mx|]; [| done]. apply IH. intros k l H%remove_mx_in. by apply (Hm k).
Qed.

Lemma server_step_bounded e s :
  bounded (mx_sessions s) →
  bounded (mx_sessions (server_step worker_id config max_per_mx timeout resolver resolve_mx resolve_host_addresses load_mail shortcut sign read_file e s).2).
Proof.
  intros Hm. destruct e as [| | t port | | now | k w | i e]; cbn [server_step].
  - unfold start. by destruct (running s).
  - unfold stop. destruct (running s); [| done]. intros mx l []%not_elem_of_nil.
  - unfold submit. destruct (negb (running s)); [done |]. by case_bool_decide.
  - done.
  - destruct (running s); [| done]. unfold evict_idle. pose proof (evict_loop_bounded now (mx_sessions s) (last_active s) (peers s) Hm) as H1.
    destruct (evict_loop _ _ _ _ _ _ _ _) as [[m1 l1] p1]. cbn [fst] in H1.
    pose proof (shrink_loop_bounded (length m1 - DEFAULT_MAX_MX_ENTRIES) now m1 l1 p1 H1) as H2. by destruct (shrink_loop _ _ _ _ _ _ _) as [[? ?] ?].
  - destruct (threads s !! k) as [t|]; [| done]. set (s1 := set_threads _ s). assert (bounded (mx_sessions s1)) as Hm1 by done. clearbody s1.
    destruct t as [t port | i t rest | | | | | records | records | | | id r |]; cbn [run_thread]; unfold try_pull, pull_take, schedule_retry, retry_fired; try done.
    + set (mx := resolve_target_host _ _). set (pt := if 0 <? port then _ else _). pose proof (acquire_bounded (w_now w) mx pt s1 Hm1) as Ha.
      by destruct (acquire_session _ _ _ _ s1) as [[?|] ?].
    + by destruct (_ && _).
    + by destruct (is_pulling s1).
    + unfold do_claim_batch. by destruct (w_db w).
    + by destruct (running s1).
    + unfold on_claim_complete. destruct (negb (running s1)); [done |]. destruct (0 <? _), records, (w_db w); done.
    + unfold dispatch. destruct records as [| rec records]; [by destruct (_ <? _) |]. cbv zeta. set (mx := resolve_target_host _ _). set (pt := resolve_port _ _).
      pose proof (acquire_bounded (w_now w) mx pt s1 Hm1) as Ha. by destruct (acquire_session _ _ _ _ s1) as [[?|] ?].
    + by destruct (running s1).
    + by destruct (running s1).
    + destruct (running s1); [| done]. unfold on_delivery_complete. by destruct (_ <? _).
  - unfold peer_step. destruct (peers s !! i); [| done]. destruct (internal e); [| done]. by destruct (step _ _ _ _ _ _).
Qed.
End Bounded.

(** A mail host never has more sessions than [max_sessions_per_mx_] (or one,
    when that is zero), whatever the order of submissions, claims, completions and
    evictions. *)
Theorem sessions_bounded worker_id config max_per_mx timeout resolver resolve_mx resolve_host_addresses load_mail shortcut sign read_file es mx l :
  let run := run_server worker_id config max_per_mx timeout resolver resolve_mx resolve_host_addresses load_mail shortcut sign read_file in
  (mx, l) ∈ mx_sessions (run es new_server).2 → (length l ≤ max 1 max_per_mx)%nat.
Proof.
  cbv zeta. revert mx l. fold (bounded max_per_mx (mx_sessions (run_server worker_id config max_per_mx timeout resolver resolve_mx resolve_host_addresses load_mail
    shortcut sign read_file es new_server).2)).
  assert (bounded max_per_mx (mx_sessions new_server)) as Hm by (intros mx l []%not_elem_of_nil). revert Hm. generalize new_server.
  induction es as [| e es IH]; intros s Hm; cbn [run_server]; [done |].
  pose proof (server_step_bounded worker_id config max_per_mx timeout resolver resolve_mx resolve_host_addresses load_mail shortcut sign read_file e s Hm) as H1.
  destruct (server_step _ _ _ _ _ _ _ _ _ _ _ e s) as [a s1]. specialize (IH s1 H1). by destruct (run_server _ _ _ _ _ _ _ _ _ _ _ es s1) as [a2 s2].
Qed.

(** ** Sample runs *)

Definition waiting_row (i : Z) : Row := mkRow i (s! "a@x") (s! "b@y") PENDING 0 0 8 0 None None None None None.

Definition waiting_table (n : nat) : Table := mkTable (list_to_map ((λ i, (i, waiting_row i)) <$> seqZ 1 (Z.of_nat n))) (Z.of_nat n + 1).

Definition sample_world (db : bool) (n : nat) : World :=
  mkWorld db 1 (λ _, None) (λ _, 1) (λ _, []) true (λ _, None) (mkDb (waiting_table n) 0 0 []).

Definition sample_config : OutboundConfig :=
  mkOutboundConfig [25] (list_to_map [(s! "d1", mkRoute (s! "relay") 2525); (s! "d2", mkRoute (s! "relay") 2626)]) (mkRoute [] 25).

Definition sample_server (es : list ServerEvent) : ServerOut :=
  run_server (s! "ob-1") sample_config 4 120 true (λ _, []) (λ _, []) (λ _, Some (mkBody (s! "hi") [])) id id (λ _, None) es new_server.

(** A pull cycle whose claim yields [n] records while the database pool goes. *)
Definition pool_lost (n : nat) : list ServerEvent :=
  [EStart; ERun 0 (sample_world true n); ERun 0 (sample_world true n); ERun 0 (sample_world true n); ERun 0 (sample_world true n); ERun 0 (sample_world false n)].

Lemma lost_messages_stop_claims_witness :
  ClaimStarted ∈ (sample_server (pool_lost 16)).1 ∧
  ClaimStarted ∉ (run_server (s! "ob-1") sample_config 4 120 true (λ _, []) (λ _, []) (λ _, Some (mkBody (s! "hi") [])) id id (λ _, None)
                    [EPull; ERun 0 (sample_world true 32); ERun 0 (sample_world true 32)] (sample_server (pool_lost 16)).2).1.
Proof.
  split; [apply list_elem_of_In; vm_compute; left; reflexivity |].
  apply (lost_messages_stop_claims (s! "ob-1") sample_config 4 120 true (λ _, []) (λ _, []) (λ _, Some (mkBody (s! "hi") [])) id id (λ _, None) (pool_lost 16)).
  - apply Nat.leb_le. vm_compute. reflexivity.
  - split; vm_compute; reflexivity.
Defined.

Lemma sessions_bounded_witness :
  (s! "relay", [0%nat]) ∈ mx_sessions (sample_server [EStart; ESubmit (mkTask 1 1 (s! "a@x") (s! "u@d1") None 0 300) (-1); ERun 1 (sample_world true 0)]).2 ∧
  (length [0%nat] ≤ 4)%nat.
Proof.
  assert ((s! "relay", [0%nat]) ∈ mx_sessions (sample_server [EStart; ESubmit (mkTask 1 1 (s! "a@x") (s! "u@d1") None 0 300) (-1); ERun 1 (sample_world true 0)]).2) as H.
  { apply list_elem_of_In. vm_compute. by left. }
  split; [exact H |]. exact (sessions_bounded _ _ 4 _ _ _ _ _ _ _ _ _ _ _ H).
Defined.

(** A session is looked up by host only: a route with another port to the same
    host is delivered to the port of the first. *)
Definition task_to (recipient : bytes) (id : Z) : MailDeliveryTask := mkTask id id (s! "a@x") recipient (Some (mkBody (s! "hi") [])) 0 300.

Example port_of_first_route :
  let s := (sample_server [EStart; ERun 0 (sample_world true 0); ESubmit (task_to (s! "u@d1") 1) (-1); ERun 1 (sample_world true 0); ERun 1 (sample_world true 0);
                           ESubmit (task_to (s! "u@d2") 2) (-1); ERun 2 (sample_world true 0); ERun 2 (sample_world true 0)]).2 in
  resolve_port sample_config (s! "d1") = 2525 ∧ resolve_port sample_config (s! "d2") = 2626 ∧
  ((λ p, (p_host p, p_port p, waiting (p_session p))) <$> peers s) = [(s! "relay", 2525, [1; 2])].
Proof. vm_compute. done. Qed.

(** More hosts than the table may hold: the sessions of the surplus are closed
    with the messages in them. *)
Definition submit_to (k : nat) : list ServerEvent :=
  let w := sample_world true 0 in [ESubmit (task_to (s! "u@" ++ to_string (Z.of_nat k + 100)) (Z.of_nat k)) (-1); ERun (k + 1) w; ERun (k + 1) w].

Example surplus_hosts_lose_messages :
  let out := sample_server (EStart :: concat (submit_to <$> seq 0 257) ++
                            [EEvict 2; EPeer 0 (at_time false 2); EPeer 0 (at_time false 2)]) in
  lost out.1 = [0] ∧ settled out.1 = [] ∧ length (mx_sessions out.2) = 256%nat ∧ pending_count out.2 = 257.
Proof. vm_compute. done. Qed.
