(* ===== verification/PersistRepo.v ===== *)
(** * Storing a message

    Models [repository/persistence_repository.cpp] with the statements of
    [db/sql_queries.cpp] it issues: the transaction that stores a message
    ([PrimaryOperation]), the copies on other shards, and the removal of metadata.

    The operation is a chain of calls to the database driver.  [outstanding] is
    the call that waits for its answer, and [answer] is what its callback does.
    An [Answer] says what the driver reports (a value, rows, or an exception) and,
    separately, whether the database carried the call out ([a_applied]); [Tx] is
    the database's side: the rows of the open transaction and those committed.
    [message.to] is walked by index; the model keeps the recipients left.  Callbacks
    that come after an exception find [rolling_back] or [done] set and do nothing. *)

From S2P Require Import Prelude CString LruCache LineFolder SmtpText Outbox.

(** ** Data *)

Record Attachment := mkAttachment { at_filename : bytes; at_filepath : bytes; at_size : Z; at_mime_type : bytes }.

Record Mail := mkMail {
  m_id : Z;
  m_ids : list Z;
  m_from : bytes;
  m_to : list bytes;
  m_subject : bytes;
  m_source_message_id : bytes;
  m_send_time : Z;
  m_body_path : bytes;
  m_attachments : list Attachment;
  m_save_sent_copy : bool;
  m_body : bytes;
}.

Record PersistenceOptions := mkOptions { local_domain : bytes; max_attempts : Z; reserve_owner : bytes; reserve_lease_seconds : Z }.

Inductive PersistenceDisposition := failed | committed | file_only | deduplicated.
Inductive PersistenceTransaction := not_started | tx_committed | rolled_back | rollback_failed.

Record PersistenceResult := mkResult {
  disposition : PersistenceDisposition;
  transaction : PersistenceTransaction;
  source_shard : Z;
  error : bytes;
  outbox_records : list OutboxRecord;
}.

Definition success (r : PersistenceResult) : bool := match disposition r with failed => false | _ => true end.

(** What a statement puts into the tables. *)
Inductive SqlRow :=
  | MailRow (id : Z) (subject body_path : bytes) (send_time : Z)
  | RecipientRow (row_id mail_id : Z) (sender recipient : bytes) (status : Z) (source_message_id : bytes)
  | SentRow (mail_id : Z) (mailbox_id user_id : bytes)
  | InboxRow (mail_id : Z) (recipient : bytes)
  | AttachmentRow (mail_id : Z) (a : Attachment)
  | OutboxRow (c : Cmd).

(** ** Text *)

(** [domain]; it lower-cases, and keeps an empty domain. *)
Definition domain (address : bytes) : bytes :=
  match find_char AT address with None => [] | Some at_pos => to_lower (drop (at_pos + 1) address) end.

(** [extract_domain_lower] of the statements. *)
Definition extract_domain_lower (email : bytes) : bytes :=
  match find_char AT email with
  | None => []
  | Some at_pos => if (length email <=? at_pos + 1)%nat then [] else to_lower (drop (at_pos + 1) email)
  end.

Definition kMaxSubjectChars : nat := 998.

Definition seq_len (c : Z) : nat :=
  if Z.land c 0xE0 =? 0xC0 then 2 else if Z.land c 0xF0 =? 0xE0 then 3 else if Z.land c 0xF8 =? 0xF0 then 4 else 1.

Definition escape_cost (c : Z) : nat :=
  if (c =? 39) || (c =? 34) || (c =? 92) || (c =? 0) || (c =? 10) || (c =? 13) || (c =? 26) then 2 else 1.

(** The end of the part that is kept; one round costs at least one of the budget. *)
Fixpoint clip_loop (budget : nat) (rounds : nat) (subject : bytes) (end_ : nat) : nat :=
  match rounds with
  | O => end_
  | S rounds =>
      match subject !! end_ with
      | None => end_
      | Some c =>
          if (length subject <? end_ + seq_len c)%nat then end_
          else if (budget <? escape_cost c)%nat then end_
          else clip_loop (budget - escape_cost c) rounds subject (end_ + seq_len c)
      end
  end.

Definition clip_subject_for_db (subject : bytes) : bytes := take (clip_loop kMaxSubjectChars kMaxSubjectChars subject 0) subject.

(** ** Statements *)

Definition build_insert_mail (m : Mail) : SqlRow := MailRow (m_id m) (clip_subject_for_db (m_subject m)) (m_body_path m) (m_send_time m).

Definition recipient_status (local : bytes) (recipient : bytes) : Z :=
  let d := extract_domain_lower recipient in if negb (bool_decide (d = [])) && bool_decide (d = to_lower local) then 1 else 2.

Definition build_insert_recipients (m : Mail) (local : bytes) : list SqlRow :=
  zip_with (λ row_id recipient, RecipientRow row_id (m_id m) (m_from m) recipient (recipient_status local recipient) (m_source_message_id m)) (m_ids m) (m_to m).

Definition build_insert_attachments (m : Mail) : list SqlRow := AttachmentRow (m_id m) <$> m_attachments m.

(** Whether a recipient has a mailbox here, and whether it goes to the outbox. *)
Definition is_local (o : PersistenceOptions) (recipient : bytes) : bool :=
  negb (bool_decide (domain recipient = [])) && bool_decide (domain recipient = to_lower (local_domain o)).

Definition is_external (o : PersistenceOptions) (recipient : bytes) : bool :=
  negb (bool_decide (domain recipient = [])) && negb (bool_decide (domain recipient = to_lower (local_domain o))).

Definition reserved (o : PersistenceOptions) : bool := negb (bool_decide (reserve_owner o = [])) && (0 <? reserve_lease_seconds o).

Definition outbox_cmd (o : PersistenceOptions) (m : Mail) (recipient : bytes) : Cmd :=
  if reserved o then Reserve (m_id m) (m_from m) recipient (reserve_owner o) (reserve_lease_seconds o)
  else Enqueue (m_id m) (m_from m) recipient (max_attempts o).

(** ** The operation *)

Inductive Call :=
  | CDedup
  | CBegin
  | CInsertMail
  | CInsertRecipients
  | CSentSelect
  | CSentInsert (mailbox_id user_id : bytes)
  | CAttach
  | COutbox (recipient : bytes)
  | CLastId (recipient : bytes)
  | CCommit
  | CRollback (why : bytes).

Record Answer := mkAnswer {
  a_throws : option bytes;               (* the call throws *)
  a_ok : bool;                           (* the flag of the callback *)
  a_rows : bool;                         (* the result of a query has a row *)
  a_mailbox : bytes;                     (* its columns *)
  a_user : bytes;
  a_id : bytes;
  a_applied : bool;                      (* the database did it *)
  a_sync : nat → bytes + bool;           (* the statements run in between: an exception, or whether they were carried out *)
}.

Record Tx := mkTx { tx_open : option (list SqlRow); tx_rows : list SqlRow }.

Record Op := mkOp {
  done : bool;
  rolling_back : bool;
  in_transaction : bool;
  dedup_left : list bytes;
  outbox_left : list bytes;
  result : PersistenceResult;
  outstanding : option Call;
  tx : Tx;
}.

Inductive OpEffect := Completed (r : PersistenceResult) | Disconnect.

Definition OpOut : Type := list OpEffect * Op.

Definition set_outstanding (c : option Call) (s : Op) : Op :=
  mkOp (done s) (rolling_back s) (in_transaction s) (dedup_left s) (outbox_left s) (result s) c (tx s).
Definition set_tx (t : Tx) (s : Op) : Op :=
  mkOp (done s) (rolling_back s) (in_transaction s) (dedup_left s) (outbox_left s) (result s) (outstanding s) t.
Definition set_flags (rolling intx : bool) (s : Op) : Op :=
  mkOp (done s) rolling intx (dedup_left s) (outbox_left s) (result s) (outstanding s) (tx s).
Definition set_left (d o : list bytes) (s : Op) : Op :=
  mkOp (done s) (rolling_back s) (in_transaction s) d o (result s) (outstanding s) (tx s).
Definition set_result (r : PersistenceResult) (s : Op) : Op :=
  mkOp (done s) (rolling_back s) (in_transaction s) (dedup_left s) (outbox_left s) r (outstanding s) (tx s).

Definition with_transaction (t : PersistenceTransaction) (r : PersistenceResult) : PersistenceResult :=
  mkResult (disposition r) t (source_shard r) (error r) (outbox_records r).

(** Rows that a statement adds to the open transaction. *)
Definition tx_add (rows : list SqlRow) (t : Tx) : Tx :=
  match tx_open t with Some l => mkTx (Some (l ++ rows)) (tx_rows t) | None => t end.

Definition tx_commit (t : Tx) : Tx := match tx_open t with Some l => mkTx None (tx_rows t ++ l) | None => t end.
Definition tx_discard (t : Tx) : Tx := mkTx None (tx_rows t).

Definition finish (d : PersistenceDisposition) (why : bytes) (s : Op) : OpOut :=
  if done s then ([], s) else
  let r := result s in
  let r := mkResult d (transaction r) (source_shard r) why (match d with committed => outbox_records r | _ => [] end) in
  ([Completed r], mkOp true (rolling_back s) (in_transaction s) (dedup_left s) (outbox_left s) r None (tx s)).

Definition fail (why : bytes) (s : Op) : OpOut :=
  if done s || rolling_back s then ([], s) else
  if negb (in_transaction s) then finish failed why (set_flags true false s)
  else ([], set_outstanding (Some (CRollback why)) (set_flags true false s)).

Definition begin (s : Op) : OpOut := ([], set_outstanding (Some CBegin) (set_flags (rolling_back s) true s)).

Section Operation.
Context (m : Mail) (o : PersistenceOptions).

Definition deduplicate_next (s : Op) : OpOut :=
  if bool_decide (m_source_message_id m = []) || bool_decide (m_to m = []) then begin s else
  match dedup_left s with
  | [] => finish deduplicated [] s
  | _ :: rest => ([], set_outstanding (Some CDedup) (set_left rest (outbox_left s) s))
  end.

Definition insert_metadata (s : Op) : OpOut :=
  if bool_decide (m_to m = []) || (length (m_ids m) <? length (m_to m))%nat then fail (s! "Invalid mail recipient metadata") s
  else ([], set_outstanding (Some CInsertMail) s).

(** The loop up to the next row, or the end of the transaction. *)
Fixpoint outbox_loop (rest : list bytes) (s : Op) : OpOut :=
  match rest with
  | [] => ([], set_outstanding (Some CCommit) (set_left (dedup_left s) [] s))
  | recipient :: rest =>
      if is_external o recipient then ([], set_outstanding (Some (COutbox recipient)) (set_left (dedup_left s) rest s))
      else outbox_loop rest s
  end.

Definition outbox_next (s : Op) : OpOut := outbox_loop (outbox_left s) s.

Definition insert_attachments (s : Op) : OpOut :=
  match m_attachments m with
  | [] => outbox_next s
  | _ => ([], set_outstanding (Some CAttach) s)
  end.

(** The statements for the local recipients: whether each was carried out does
    not matter, an exception does. *)
Fixpoint local_mailboxes (sync : nat → bytes + bool) (k : nat) (to : list bytes) (t : Tx) : option bytes * Tx :=
  match to with
  | [] => (None, t)
  | recipient :: to =>
      if is_local o recipient then
        match sync k with
        | inl why => (Some why, t)
        | inr did => local_mailboxes sync (S k) to (if did then tx_add [InboxRow (m_id m) recipient] t else t)
        end
      else local_mailboxes sync k to t
  end.

Definition local_mailboxes_next (sync : nat → bytes + bool) (s : Op) : OpOut :=
  let '(thrown, t) := local_mailboxes sync 0 (m_to m) (tx s) in
  match thrown with None => insert_attachments (set_tx t s) | Some why => fail why (set_tx t s) end.

Definition sent_copy (sync : nat → bytes + bool) (s : Op) : OpOut :=
  if m_save_sent_copy m then ([], set_outstanding (Some CSentSelect) s) else local_mailboxes_next sync s.

(** The callback of the outstanding call. *)
Definition on_answer (c : Call) (a : Answer) (s : Op) : OpOut :=
  match c with
  | CDedup => if a_rows a then deduplicate_next s else begin s
  | CBegin => if a_ok a then insert_metadata s else fail (s! "Failed to begin transaction") (set_flags (rolling_back s) false s)
  | CInsertMail => if a_ok a then ([], set_outstanding (Some CInsertRecipients) s) else fail (s! "Failed to insert mail metadata") s
  | CInsertRecipients => if a_ok a then sent_copy (a_sync a) s else fail (s! "Failed to insert mail recipients") s
  | CSentSelect =>
      if a_rows a then ([], set_outstanding (Some (CSentInsert (a_mailbox a) (a_user a))) s) else fail (s! "Sent mailbox unavailable") s
  | CSentInsert _ _ => if a_ok a then local_mailboxes_next (a_sync a) s else fail (s! "Sent relation insert failed") s
  | CAttach => if a_ok a then outbox_next s else fail (s! "Failed to insert attachment metadata") s
  | COutbox recipient => if a_ok a then ([], set_outstanding (Some (CLastId recipient)) s) else fail (s! "Failed to insert outbox row") s
  | CLastId recipient =>
      match (if a_rows a then parse_uint (a_id a) else None) with
      | Some id =>
          if id =? 0 then fail (s! "Failed to fetch LAST_INSERT_ID") s else
          let r := result s in
          let rec := mkRecord id (m_id m) (m_from m) recipient (m_body_path m) (if reserved o then 1 else 0) (if reserved o then 8 else max_attempts o) in
          outbox_next (set_result (mkResult (disposition r) (transaction r) (source_shard r) (error r) (outbox_records r ++ [rec])) s)
      | None => fail (s! "Failed to fetch LAST_INSERT_ID") s
      end
  | CCommit =>
      if a_ok a then finish committed [] (set_result (with_transaction tx_committed (result s)) (set_flags (rolling_back s) false s))
      else fail (s! "Failed to commit transaction") s
  | CRollback why =>
      let s := if a_ok a then s else set_tx (tx_discard (tx s)) s in
      let '(acts, s) := finish failed why (set_result (with_transaction (if a_ok a then rolled_back else rollback_failed) (result s)) s) in
      ((if a_ok a then [] else [Disconnect]) ++ acts, s)
  end.

(** What the database does when it carries the call out. *)
Definition carried_out (c : Call) (t : Tx) : Tx :=
  match c with
  | CBegin => mkTx (Some []) (tx_rows t)
  | CInsertMail => tx_add [build_insert_mail m] t
  | CInsertRecipients => tx_add (build_insert_recipients m (local_domain o)) t
  | CSentInsert mailbox_id user_id => tx_add [SentRow (m_id m) mailbox_id user_id] t
  | CAttach => tx_add (build_insert_attachments m) t
  | COutbox recipient => tx_add [OutboxRow (outbox_cmd o m recipient)] t
  | CCommit => tx_commit t
  | CRollback _ => tx_discard t
  | CDedup | CSentSelect | CLastId _ => t
  end.

(** The outstanding call is answered. *)
Definition answer (a : Answer) (s : Op) : OpOut :=
  match outstanding s with
  | None => ([], s)
  | Some c =>
      let s := set_outstanding None s in
      let s := if a_applied a then set_tx (carried_out c (tx s)) s else s in
      match a_throws a, c with
      | None, _ => on_answer c a s
      | Some _, CRollback _ => on_answer c (mkAnswer None false false [] [] [] (a_applied a) (a_sync a)) s
      | Some why, _ => fail why s
      end
  end.

Fixpoint run_op (answers : list Answer) (s : Op) : OpOut :=
  match answers with
  | [] => ([], s)
  | a :: answers => let '(acts, s) := answer a s in let '(acts', s) := run_op answers s in (acts ++ acts', s)
  end.

(** [start] with a message at hand: the pool of the shard and its connection. *)
Definition start_op (shard : Z) (pool valid : bool) (s : Op) : OpOut :=
  let s := set_result (mkResult (disposition (result s)) (transaction (result s)) shard (error (result s)) (outbox_records (result s))) s in
  if negb pool then finish file_only [] s
  else if negb valid then fail (s! "Failed to get database connection") s
  else deduplicate_next s.

Definition new_op : Op :=
  mkOp false false false (m_to m) (m_to m) (mkResult failed not_started 0 [] []) None (mkTx None []).

(** [source_shard]; [route] answers -1 for no shard. *)
Definition shard_of (router : bool) (route : bytes → Z) : Z :=
  let key := match m_from m with [] => match m_to m with r :: _ => r | [] => [] end | f => f end in
  let shard := if router && negb (bool_decide (key = [])) then route key else 0 in
  if shard <? 0 then 0 else shard.

End Operation.

Definition empty_op : Op := mkOp false false false [] [] (mkResult failed not_started 0 [] []) None (mkTx None []).

(** The request, and the driver's answers one after the other. *)
Definition persist_async (message : option Mail) (o : PersistenceOptions) (router : bool) (route : bytes → Z) (pool valid : bool) (answers : list Answer) : OpOut :=
  match message with
  | None => fail (s! "Mail data is null") empty_op
  | Some m =>
      let '(acts, s) := start_op m (shard_of m router route) pool valid (new_op m) in
      let '(acts', s) := run_op m o answers s in (acts ++ acts', s)
  end.

(** ** What a stored message is *)

Definition completed (acts : list OpEffect) : list PersistenceResult := omap (λ a, match a with Completed r => Some r | Disconnect => None end) acts.

Lemma parse_uint_nonneg s v : parse_uint s = Some v → 0 ≤ v.
Proof.
  unfold parse_uint. destruct (from_chars_u64 s) as [[w r]|] eqn:E; [| done]. destruct r; [| done]. intros [= <-]. unfold from_chars_u64 in E.
  destruct (span_digits s) as [d r'] eqn:Es. destruct d; [done |]. guards E. simplify_eq. apply dec_value_nonneg; [lia |]. by eapply span_digits_Forall.
Qed.

Section Stored.
Context (m : Mail) (o : PersistenceOptions).

(** The mail and its recipients, the copy for the sender, and the inboxes that
    could be reached. *)
Definition delivered_rows (rows : list SqlRow) : Prop :=
  ∃ sent inboxes,
    rows = (build_insert_mail m :: build_insert_recipients m (local_domain o)) ++ sent ++ (InboxRow (m_id m) <$> inboxes) ∧
    (if m_save_sent_copy m then ∃ mailbox_id user_id, sent = [SentRow (m_id m) mailbox_id user_id] else sent = []) ∧
    inboxes `sublist_of` List.filter (is_local o) (m_to m).

Definition outbox_rows (recipients : list bytes) : list SqlRow := (λ r, OutboxRow (outbox_cmd o m r)) <$> List.filter (is_external o) recipients.

(** All of it. *)
Definition stored (rows : list SqlRow) : Prop :=
  ∃ l, delivered_rows l ∧ rows = l ++ build_insert_attachments m ++ outbox_rows (m_to m).

(** The records that go with it. *)
Definition recorded (recipients : list bytes) (records : list OutboxRecord) : Prop :=
  rec_recipient <$> records = List.filter (is_external o) recipients ∧
  Forall (λ r, 0 < rec_id r ∧ rec_mail_id r = m_id m ∧ rec_sender r = m_from m) records.

(** What is in the open transaction while a call is outstanding. *)
Definition stage (c : Call) (s : Op) : Prop :=
  let records := outbox_records (result s) in
  match c with
  | CDedup => in_transaction s = false ∧ tx_open (tx s) = None ∧ outbox_left s = m_to m ∧ records = []
  | CBegin => in_transaction s = true ∧ tx_open (tx s) = None ∧ outbox_left s = m_to m ∧ records = []
  | CInsertMail => in_transaction s = true ∧ tx_open (tx s) = Some [] ∧ outbox_left s = m_to m ∧ records = []
  | CInsertRecipients => in_transaction s = true ∧ tx_open (tx s) = Some [build_insert_mail m] ∧ outbox_left s = m_to m ∧ records = []
  | CSentSelect | CSentInsert _ _ =>
      in_transaction s = true ∧ m_save_sent_copy m = true ∧ outbox_left s = m_to m ∧ records = [] ∧
      tx_open (tx s) = Some (build_insert_mail m :: build_insert_recipients m (local_domain o))
  | CAttach => in_transaction s = true ∧ outbox_left s = m_to m ∧ records = [] ∧ ∃ l, delivered_rows l ∧ tx_open (tx s) = Some l
  | COutbox r =>
      in_transaction s = true ∧ ∃ l before, delivered_rows l ∧ m_to m = before ++ r :: outbox_left s ∧ is_external o r = true ∧
      tx_open (tx s) = Some (l ++ build_insert_attachments m ++ outbox_rows before) ∧ recorded before records
  | CLastId r =>
      in_transaction s = true ∧ ∃ l before, delivered_rows l ∧ m_to m = before ++ r :: outbox_left s ∧ is_external o r = true ∧
      tx_open (tx s) = Some (l ++ build_insert_attachments m ++ outbox_rows (before ++ [r])) ∧ recorded before records
  | CCommit =>
      in_transaction s = true ∧ (∃ l, delivered_rows l ∧ tx_open (tx s) = Some (l ++ build_insert_attachments m ++ outbox_rows (m_to m))) ∧
      recorded (m_to m) records
  | CRollback _ => False
  end.

(** [lie]: the database may have carried a call out although it was reported as failed. *)
Context (lie : Prop).

Definition reported (a : Answer) : bool := match a_throws a with None => a_ok a | Some _ => false end.

Definition honest (a : Answer) : Prop :=
  (reported a = true → a_applied a = true) ∧ (a_applied a = true → reported a = true ∨ lie).

Definition rows_ok (rows : list SqlRow) : Prop := rows = [] ∨ (lie ∧ stored rows).

(** No row is left in an open transaction. *)
Definition settled (t : Tx) : Prop := tx_open t = None ∨ tx_open t = Some [].

Definition finished_well (s : Op) : Prop :=
  outstanding s = None ∧ settled (tx s) ∧
  match disposition (result s) with
  | committed => stored (tx_rows (tx s)) ∧ recorded (m_to m) (outbox_records (result s)) ∧ transaction (result s) = tx_committed
  | failed => rows_ok (tx_rows (tx s)) ∧ outbox_records (result s) = []
  | _ => tx_rows (tx s) = [] ∧ outbox_records (result s) = []
  end.

Definition Inv (s : Op) : Prop :=
  if done s then finished_well s
  else if rolling_back s then ∃ why, outstanding s = Some (CRollback why) ∧ in_transaction s = false ∧ rows_ok (tx_rows (tx s))
  else ∃ c, outstanding s = Some c ∧ tx_rows (tx s) = [] ∧ stage c s.

(** The calls that can still follow. *)
Definition rank (s : Op) : nat :=
  match outstanding s with
  | None => 0
  | Some (CRollback _) => 1
  | Some CCommit => 2
  | Some (CLastId _) => 3 + 2 * length (outbox_left s)
  | Some (COutbox _) => 4 + 2 * length (outbox_left s)
  | Some CAttach => 4 + 2 * length (m_to m)
  | Some (CSentInsert _ _) => 5 + 2 * length (m_to m)
  | Some CSentSelect => 6 + 2 * length (m_to m)
  | Some CInsertRecipients => 7 + 2 * length (m_to m)
  | Some CInsertMail => 8 + 2 * length (m_to m)
  | Some CBegin => 9 + 2 * length (m_to m)
  | Some CDedup => 10 + 2 * length (m_to m) + length (dedup_left s)
  end.

(** A part of the operation does its work, in at most [n] further calls. *)
Definition goes (n : nat) (out : OpOut) : Prop :=
  Inv out.2 ∧ completed out.1 = (if done out.2 then [result out.2] else []) ∧ (rank out.2 ≤ n)%nat.

(** The operation goes on: nothing is committed, nothing is given up. *)
Definition at_work (s : Op) : Prop := done s = false ∧ rolling_back s = false.

Lemma calls_goes n s c : at_work s → tx_rows (tx s) = [] → outstanding s = Some c → stage c s → (rank s ≤ n)%nat → goes n ([], s).
Proof.
  intros [Hd Hr] Ht Ho Hst Hn. split; [| split; [cbn [fst snd]; by rewrite Hd | done]]. unfold Inv. cbn [snd]. rewrite Hd, Hr. by exists c.
Qed.

Lemma finish_goes n d why s :
  done s = false → finished_well (finish d why s).2 → goes n (finish d why s).
Proof.
  intros Hd Hf. revert Hf. unfold finish. rewrite Hd. intros Hf. split; [exact Hf |]. split; [done | cbn; lia].
Qed.

Lemma fail_goes n why s :
  at_work s → rows_ok (tx_rows (tx s)) → (in_transaction s = false → settled (tx s)) → (1 ≤ n)%nat → goes n (fail why s).
Proof.
  intros [Hd Hr] Ht Hs Hn. unfold fail. rewrite Hd, Hr. cbn [orb]. destruct (in_transaction s) eqn:Ei; cbn [negb].
  - split; [| split; [cbn; by rewrite Hd | cbn; lia]]. unfold Inv. cbn. rewrite Hd. by exists why.
  - apply finish_goes; [done |]. unfold finish. cbn. rewrite Hd. split; [done |]. split; [by apply Hs | done].
Qed.

(** ** The parts of the operation *)

Lemma begin_goes n s :
  at_work s → tx_rows (tx s) = [] → tx_open (tx s) = None → outbox_left s = m_to m → outbox_records (result s) = [] →
  (9 + 2 * length (m_to m) ≤ n)%nat → goes n (begin s).
Proof. intros [Hd Hr] Ht Ho Hl Hrec Hn. by apply (calls_goes n _ CBegin). Qed.

Lemma dedup_goes n s :
  at_work s → tx_rows (tx s) = [] → tx_open (tx s) = None → in_transaction s = false → outbox_left s = m_to m → outbox_records (result s) = [] →
  (9 + 2 * length (m_to m) + length (dedup_left s) ≤ n)%nat → goes n (deduplicate_next m s).
Proof.
  intros Hw Ht Ho Hi Hl Hrec Hn. unfold deduplicate_next. destruct (_ || _); [apply begin_goes; try done; lia |]. destruct (dedup_left s) as [| r rest] eqn:Ed.
  - destruct Hw as [Hd Hr]. apply finish_goes; [done |]. unfold finish. rewrite Hd. split; [done |]. split; [by left | done].
  - apply (calls_goes n _ CDedup); try done. cbn in *. lia.
Qed.

Lemma metadata_goes n s :
  at_work s → tx_rows (tx s) = [] → tx_open (tx s) = Some [] → in_transaction s = true → outbox_left s = m_to m → outbox_records (result s) = [] →
  (8 + 2 * length (m_to m) ≤ n)%nat → goes n (insert_metadata m s).
Proof.
  intros Hw Ht Ho Hi Hl Hrec Hn. unfold insert_metadata. destruct (_ || _); [apply fail_goes; try done; [by left | congruence | lia] |].
  by apply (calls_goes n _ CInsertMail).
Qed.

Lemma outbox_loop_goes n s l rest before :
  at_work s → tx_rows (tx s) = [] → in_transaction s = true → delivered_rows l → m_to m = before ++ rest →
  tx_open (tx s) = Some (l ++ build_insert_attachments m ++ outbox_rows before) → recorded before (outbox_records (result s)) →
  (2 + 2 * length rest ≤ n)%nat → goes n (outbox_loop o rest s).
Proof.
  intros Hw Ht Hi Hl. revert before. induction rest as [| r rest IH]; intros before Hto Ho Hrec Hn; cbn [outbox_loop].
  - rewrite app_nil_r in Hto. subst before. apply (calls_goes n _ CCommit); try done. split; [done |]. split; [by exists l | done].
  - cbn [length] in Hn. destruct (is_external o r) eqn:Ee.
    + apply (calls_goes n _ (COutbox r)); try done; [| cbn; lia]. split; [done |]. by exists l, before.
    + apply (IH (before ++ [r])); [by rewrite <- app_assoc | | | lia].
      * unfold outbox_rows in *. rewrite List.filter_app. cbn. rewrite Ee. by rewrite app_nil_r.
      * unfold recorded in *. rewrite List.filter_app. cbn. rewrite Ee. by rewrite app_nil_r.
Qed.

Lemma recorded_nil : recorded [] [].
Proof. by split. Qed.

Lemma attachments_goes n s l :
  at_work s → tx_rows (tx s) = [] → in_transaction s = true → delivered_rows l → outbox_left s = m_to m → outbox_records (result s) = [] →
  tx_open (tx s) = Some l → (4 + 2 * length (m_to m) ≤ n)%nat → goes n (insert_attachments m o s).
Proof.
  intros Hw Ht Hi Hl Hleft Hrec Ho Hn. unfold insert_attachments. destruct (m_attachments m) as [| a l'] eqn:Ea.
  - unfold outbox_next. rewrite Hleft. apply (outbox_loop_goes n s l (m_to m) []); try done; [| rewrite Hrec; apply recorded_nil | lia].
    rewrite Ho. unfold build_insert_attachments. rewrite Ea. cbn. by rewrite app_nil_r.
  - apply (calls_goes n _ CAttach); try done. split; [done |]. split; [done |]. split; [done |]. by exists l.
Qed.

Lemma local_mailboxes_spec sync k to t rows :
  tx_open t = Some rows →
  ∃ inboxes, inboxes `sublist_of` List.filter (is_local o) to ∧
    tx_open (local_mailboxes m o sync k to t).2 = Some (rows ++ (InboxRow (m_id m) <$> inboxes)) ∧
    tx_rows (local_mailboxes m o sync k to t).2 = tx_rows t.
Proof.
  revert k t rows. induction to as [| r to IH]; intros k t rows Ht; cbn [local_mailboxes List.filter].
  { exists []. split; [done |]. split; [by rewrite app_nil_r | done]. }
  destruct (is_local o r); [| by apply IH]. destruct (sync k) as [why | did].
  { exists []. split; [apply sublist_nil_l |]. split; [by rewrite app_nil_r | done]. }
  set (t' := if did then tx_add [InboxRow (m_id m) r] t else t).
  assert (tx_open t' = Some (rows ++ if did then [InboxRow (m_id m) r] else []) ∧ tx_rows t' = tx_rows t) as [H1 H2].
  { unfold t', tx_add. destruct did; [by rewrite Ht |]. by rewrite app_nil_r. }
  destruct (IH (S k) t' _ H1) as (inb & I1 & I2 & I3). rewrite I3, I2, H2. destruct did.
  - exists (r :: inb). split; [by apply sublist_skip |]. split; [by rewrite <- app_assoc | done].
  - exists inb. split; [by apply sublist_cons |]. split; [by rewrite app_nil_r | done].
Qed.

Lemma mailboxes_goes n sync s sent :
  at_work s → tx_rows (tx s) = [] → in_transaction s = true → outbox_left s = m_to m → outbox_records (result s) = [] →
  tx_open (tx s) = Some ((build_insert_mail m :: build_insert_recipients m (local_domain o)) ++ sent) →
  (if m_save_sent_copy m then ∃ mailbox_id user_id, sent = [SentRow (m_id m) mailbox_id user_id] else sent = []) →
  (4 + 2 * length (m_to m) ≤ n)%nat → goes n (local_mailboxes_next m o sync s).
Proof.
  intros Hw Ht Hi Hleft Hrec Ho Hsent Hn. unfold local_mailboxes_next.
  destruct (local_mailboxes_spec sync 0 (m_to m) (tx s) _ Ho) as (inb & I1 & I2 & I3).
  destruct (local_mailboxes m o sync 0 (m_to m) (tx s)) as [thrown t]. cbn [snd] in *. destruct thrown as [why|].
  - apply fail_goes; try done; [left; cbn; by rewrite I3 | cbn; congruence | lia].
  - apply (attachments_goes n _ (((build_insert_mail m :: build_insert_recipients m (local_domain o)) ++ sent) ++ (InboxRow (m_id m) <$> inb))); try done.
    + cbn. by rewrite I3.
    + exists sent, inb. by rewrite <- app_assoc.
Qed.

Lemma sent_copy_goes n sync s :
  at_work s → tx_rows (tx s) = [] → in_transaction s = true → outbox_left s = m_to m → outbox_records (result s) = [] →
  tx_open (tx s) = Some (build_insert_mail m :: build_insert_recipients m (local_domain o)) →
  (6 + 2 * length (m_to m) ≤ n)%nat → goes n (sent_copy m o sync s).
Proof.
  intros Hw Ht Hi Hleft Hrec Ho Hn. unfold sent_copy. destruct (m_save_sent_copy m) eqn:Es; [by apply (calls_goes n _ CSentSelect) |].
  apply (mailboxes_goes n sync s []); try done; [by rewrite app_nil_r | by rewrite Es | lia].
Qed.

(** The state when the callback runs. *)
Definition called_back (c : Call) (a : Answer) (s : Op) : Op :=
  let s := set_outstanding None s in if a_applied a then set_tx (carried_out m o c (tx s)) s else s.

Lemma called_back_same c a s :
  done (called_back c a s) = done s ∧ rolling_back (called_back c a s) = rolling_back s ∧ in_transaction (called_back c a s) = in_transaction s ∧
  outbox_left (called_back c a s) = outbox_left s ∧ dedup_left (called_back c a s) = dedup_left s ∧ result (called_back c a s) = result s ∧
  tx (called_back c a s) = if a_applied a then carried_out m o c (tx s) else tx s.
Proof. unfold called_back. by destruct (a_applied a). Qed.

Lemma tx_add_spec rows t l : tx_open t = Some l → tx_open (tx_add rows t) = Some (l ++ rows) ∧ tx_rows (tx_add rows t) = tx_rows t.
Proof. intros H. unfold tx_add. by rewrite H. Qed.

(** A callback that reports a failure, or an exception: the operation fails. *)
Lemma failure_goes c a s n why :
  at_work s → tx_rows (tx s) = [] → stage c s → honest a → reported a = false ∨ c ≠ CCommit → (1 ≤ n)%nat →
  goes n (fail why (called_back c a s)).
Proof.
  intros [Hd Hr] Ht Hst [_ Hh] Hrep Hn. destruct (called_back_same c a s) as (E1 & E2 & E3 & E4 & E5 & E6 & E7).
  apply fail_goes; [by split; congruence | | | done].
  - rewrite E7. destruct (a_applied a) eqn:Ea; [| by left].
    destruct c; cbn [carried_out]; try (by left); unfold tx_add; try (by left; destruct (tx_open (tx s)); cbn; congruence).
    right. destruct Hrep as [Hrep |]; [| done]. destruct (Hh eq_refl) as [? | Hlie]; [congruence |]. split; [done |].
    destruct Hst as (_ & (l & Hl & Ho) & _). unfold tx_commit. rewrite Ho. cbn. rewrite Ht. by exists l.
  - rewrite E3, E7. intros Hi. destruct c; cbn in Hst; destruct_and?; try congruence; try done.
    cbn [carried_out]. left. by destruct (a_applied a).
Qed.

(** A callback that reports success goes on to the next call. *)
Lemma success_goes c a s n :
  at_work s → tx_rows (tx s) = [] → stage c s → honest a → a_throws a = None → outstanding s = Some c → (rank s = S n)%nat →
  goes n (on_answer m o c a (called_back c a s)).
Proof.
  intros Hw Ht Hst Hh Hno Hout Hrank. assert (reported a = a_ok a) as Hrep by (unfold reported; by rewrite Hno).
  destruct (called_back_same c a s) as (E1 & E2 & E3 & E4 & E5 & E6 & E7). set (s1 := called_back c a s) in *.
  assert (at_work s1) as Hw1 by (destruct Hw; split; congruence).
  assert (1 ≤ n)%nat as Hn by (unfold rank in Hrank; rewrite Hout in Hrank; destruct c; cbn in Hst; try done; lia).
  assert (∀ why, c ≠ CCommit ∨ a_ok a = false → goes n (fail why s1)) as Hfail.
  { intros why Hc. apply failure_goes; try done. destruct Hc; [by right | left; congruence]. }
  assert (a_ok a = true → tx s1 = carried_out m o c (tx s)) as Hdone.
  { intros Hok. rewrite E7. rewrite (proj1 Hh); [done | congruence]. }
  assert ((∀ t, carried_out m o c t = t) → tx s1 = tx s) as Hkeep by (intros Hid; rewrite E7; destruct (a_applied a); by rewrite ?Hid).
  unfold rank in Hrank. rewrite Hout in Hrank.
  destruct c as [| | | | | mb u | | r | r | | why]; cbn [on_answer stage] in *.
  - destruct Hst as (Hi & Ho & Hl & Hr). pose proof (Hkeep (λ t, eq_refl)) as Et. destruct (a_rows a).
    + apply dedup_goes; rewrite ?Et, ?E3, ?E4, ?E5, ?E6; try done. lia.
    + apply begin_goes; rewrite ?Et, ?E3, ?E4, ?E6; try done. lia.
  - destruct Hst as (Hi & Ho & Hl & Hr). destruct (a_ok a) eqn:Eok.
    + specialize (Hdone eq_refl). apply metadata_goes; rewrite ?Hdone, ?E3, ?E4, ?E6; try done; lia.
    + apply fail_goes; cbn; [done | | | done]; rewrite E7; destruct (a_applied a); cbn; try (by left); by right.
  - destruct Hst as (Hi & Ho & Hl & Hr). destruct (a_ok a) eqn:Eok; [| by apply Hfail; right]. specialize (Hdone eq_refl).
    destruct (tx_add_spec [build_insert_mail m] (tx s) [] Ho) as [A1 A2].
    apply (calls_goes n _ CInsertRecipients); cbn; rewrite ?Hdone, ?E3, ?E4, ?E6; cbn [carried_out]; rewrite ?A1, ?A2; try done. lia.
  - destruct Hst as (Hi & Ho & Hl & Hr). destruct (a_ok a) eqn:Eok; [| by apply Hfail; right]. specialize (Hdone eq_refl).
    destruct (tx_add_spec (build_insert_recipients m (local_domain o)) (tx s) [build_insert_mail m] Ho) as [A1 A2].
    apply sent_copy_goes; rewrite ?Hdone, ?E3, ?E4, ?E6; cbn [carried_out]; rewrite ?A1, ?A2; try done. lia.
  - destruct Hst as (Hi & Hs & Hl & Hr & Ho). pose proof (Hkeep (λ t, eq_refl)) as Et. destruct (a_rows a); [| by apply Hfail; left].
    apply (calls_goes n _ (CSentInsert (a_mailbox a) (a_user a))); cbn; rewrite ?Et, ?E3, ?E4, ?E6; try done. lia.
  - destruct Hst as (Hi & Hs & Hl & Hr & Ho). destruct (a_ok a) eqn:Eok; [| by apply Hfail; right]. specialize (Hdone eq_refl).
    destruct (tx_add_spec [SentRow (m_id m) mb u] (tx s) _ Ho) as [A1 A2].
    apply (mailboxes_goes n _ _ [SentRow (m_id m) mb u]); rewrite ?Hdone, ?E3, ?E4, ?E6; cbn [carried_out]; rewrite ?A1, ?A2; try done; [| lia].
    rewrite Hs. by exists mb, u.
  - destruct Hst as (Hi & Hleft & Hr & l & Hl & Ho). destruct (a_ok a) eqn:Eok; [| by apply Hfail; right]. specialize (Hdone eq_refl).
    destruct (tx_add_spec (build_insert_attachments m) (tx s) l Ho) as [A1 A2]. unfold outbox_next. rewrite E4, Hleft.
    apply (outbox_loop_goes n s1 l (m_to m) []); rewrite ?Hdone, ?E3, ?E6; cbn [carried_out]; rewrite ?A1, ?A2; try done; [by rewrite app_nil_r | | lia].
    rewrite Hr. apply recorded_nil.
  - destruct Hst as (Hi & l & before & Hl & Hto & He & Ho & Hrec). destruct (a_ok a) eqn:Eok; [| by apply Hfail; right]. specialize (Hdone eq_refl).
    destruct (tx_add_spec [OutboxRow (outbox_cmd o m r)] (tx s) _ Ho) as [A1 A2].
    apply (calls_goes n _ (CLastId r)); cbn; rewrite ?Hdone, ?E3, ?E4, ?E6; cbn [carried_out]; rewrite ?A1, ?A2; try done; [| lia].
    split; [done |]. exists l, before. repeat split; try done; try apply Hrec. unfold outbox_rows. rewrite List.filter_app. cbn. rewrite He.
    rewrite fmap_app. cbn. by rewrite <- !app_assoc.
  - destruct Hst as (Hi & l & before & Hl & Hto & He & Ho & Hrec). pose proof (Hkeep (λ t, eq_refl)) as Et.
    destruct (if a_rows a then parse_uint (a_id a) else None) as [id|] eqn:Ep; [| by apply Hfail; left].
    destruct (Z.eqb_spec id 0) as [| Hid]; [by apply Hfail; left |]. unfold outbox_next. cbn [outbox_left set_result]. rewrite E4.
    apply (outbox_loop_goes n _ l (outbox_left s) (before ++ [r])); cbn; rewrite ?Et, ?E3, ?E6; try done; [by rewrite <- app_assoc | | lia].
    destruct Hrec as [R1 R2]. split; [rewrite fmap_app, R1, List.filter_app; cbn; by rewrite He |]. apply Forall_app. split; [done |]. apply list.Forall_singleton. cbn.
    destruct (a_rows a); [| done]. pose proof (parse_uint_nonneg _ _ Ep). split; [lia | done].
  - destruct Hst as (Hi & (l & Hl & Ho) & Hrec). destruct (a_ok a) eqn:Eok; [| by apply Hfail; right]. specialize (Hdone eq_refl).
    apply finish_goes; [apply Hw1 |]. unfold finish. cbn [done set_result set_flags]. rewrite (proj1 Hw1). split; [done |]. cbn. rewrite Hdone. cbn.
    unfold tx_commit. rewrite Ho. cbn. split; [by left |]. rewrite Ht, E6. split; [by exists l |]. done.
  - done.
Qed.

Lemma rollback_goes why a s :
  done s = false → rows_ok (tx_rows (tx s)) → honest a →
  goes 0 (on_answer m o (CRollback why) (match a_throws a with None => a | Some _ => mkAnswer None false false [] [] [] (a_applied a) (a_sync a) end)
            (called_back (CRollback why) a s)).
Proof.
  intros Hd Ht Hh. destruct (called_back_same (CRollback why) a s) as (E1 & E2 & E3 & E4 & E5 & E6 & E7). set (s1 := called_back (CRollback why) a s) in *.
  assert (tx_rows (tx s1) = tx_rows (tx s)) as Er by (rewrite E7; by destruct (a_applied a)).
  set (a' := match a_throws a with None => a | Some _ => _ end). assert (a_ok a' = reported a) as Ea by (unfold a', reported; by destruct (a_throws a)).
  cbn [on_answer]. rewrite Ea. clearbody a'. destruct (reported a) eqn:Erep.
  - assert (tx_open (tx s1) = None) as Ho by (rewrite E7, (proj1 Hh Erep); done).
    set (s2 := set_result _ s1). assert (goes 0 (finish failed why s2)) as Hf.
    { apply finish_goes; [cbn; congruence |]. unfold finish. cbn. rewrite E1, Hd. split; [done |]. split; [by left | cbn; by rewrite Er]. }
    by destruct (finish failed why s2) as [acts s3].
  - set (s2 := set_result _ _). assert (goes 0 (finish failed why s2)) as Hf.
    { apply finish_goes; [cbn; congruence |]. unfold finish. cbn. rewrite E1, Hd. split; [done |]. split; [by left | cbn; by rewrite Er]. }
    by destruct (finish failed why s2) as [acts s3].
Qed.

(** One answer: the invariant stays, the result is reported when the operation
    ends, and fewer calls are left. *)
Lemma rank_pos s : Inv s → done s = false → (0 < rank s)%nat.
Proof.
  intros Hi Hd. unfold Inv in Hi. rewrite Hd in Hi. unfold rank.
  destruct (rolling_back s); [destruct Hi as (why & -> & _); lia | destruct Hi as (c & -> & _); destruct c; lia].
Qed.

Lemma answer_goes a s :
  Inv s → honest a → done s = false → goes (pred (rank s)) (answer m o a s) ∧ (0 < rank s)%nat.
Proof.
  intros Hi Hh Hd. unfold Inv in Hi. rewrite Hd in Hi. destruct (rolling_back s) eqn:Hr.
  - destruct Hi as (why & Ho & _ & Ht). unfold answer. rewrite Ho. fold (called_back (CRollback why) a s).
    pose proof (rollback_goes why a s Hd Ht Hh) as Hg. unfold rank. rewrite Ho. split; [| lia]. cbn [pred]. by destruct (a_throws a).
  - destruct Hi as (c & Ho & Ht & Hst). assert (0 < rank s)%nat as Hpos by (unfold rank; rewrite Ho; destruct c; lia). split; [| done].
    unfold answer. rewrite Ho. fold (called_back c a s). destruct (rank s) as [| n] eqn:Er; [lia |]. cbn [pred].
    destruct (a_throws a) as [why|] eqn:Eth.
    + assert (reported a = false) as Hrep by (unfold reported; by rewrite Eth).
      assert (1 ≤ n)%nat as Hn by (unfold rank in Er; rewrite Ho in Er; destruct c; cbn in Hst; try done; lia).
      assert (goes n (fail why (called_back c a s))) as Hg by (apply failure_goes; auto; done). by destruct c.
    + assert (goes n (on_answer m o c a (called_back c a s))) as Hg by (by apply success_goes). by destruct c.
Qed.

Lemma answer_done a s : Inv s → done s = true → answer m o a s = ([], s).
Proof. unfold Inv. intros Hi Hd. rewrite Hd in Hi. destruct Hi as (Ho & _). unfold answer. by rewrite Ho. Qed.

Lemma run_op_done answers s : Inv s → done s = true → run_op m o answers s = ([], s).
Proof. intros Hi Hd. induction answers as [| a l IH]; [done |]. cbn [run_op]. rewrite (answer_done a s Hi Hd). by rewrite IH. Qed.

Lemma completed_app a b : completed (a ++ b) = completed a ++ completed b.
Proof. apply omap_app. Qed.

Lemma run_op_goes answers s :
  Inv s → done s = false → Forall honest answers →
  let out := run_op m o answers s in
  Inv out.2 ∧ completed out.1 = (if done out.2 then [result out.2] else []) ∧ (done out.2 = false → rank out.2 + length answers ≤ rank s)%nat.
Proof.
  revert s. induction answers as [| a l IH]; intros s Hi Hd Hh; cbn [run_op]; [cbn; rewrite Hd; split; [done |]; split; [done | lia] |].
  apply list.Forall_cons in Hh as [Ha Hh]. destruct (answer_goes a s Hi Ha Hd) as [(G1 & G2 & G3) Hpos]. destruct (answer m o a s) as [acts s1]. cbn [fst snd] in *.
  destruct (done s1) eqn:Hd1.
  - rewrite (run_op_done l s1 G1 Hd1). cbn [fst snd]. rewrite app_nil_r, Hd1. split; [done |]. by split.
  - destruct (IH s1 G1 Hd1 Hh) as (I1 & I2 & I3). destruct (run_op m o l s1) as [acts' s2]. cbn [fst snd] in *. rewrite completed_app, G2.
    split; [done |]. split; [done |]. intros Hd2. specialize (I3 Hd2). cbn [length]. lia.
Qed.

Lemma start_goes shard pool valid : goes (10 + 3 * length (m_to m)) (start_op m shard pool valid (new_op m)).
Proof.
  unfold start_op. destruct pool; cbn [negb]; [| apply finish_goes; [done |]; unfold finish; cbn; split; [done |]; split; [by left | done]].
  destruct valid; cbn [negb]; [| apply fail_goes; [done | by left | by left | lia]]. apply dedup_goes; try done. cbn. lia.
Qed.
End Stored.

Lemma persist_goes m o lie router route pool valid answers :
  Forall (honest lie) answers →
  let out := persist_async (Some m) o router route pool valid answers in
  Inv m o lie out.2 ∧ completed out.1 = (if done out.2 then [result out.2] else []) ∧
  (done out.2 = false → length answers < 10 + 3 * length (m_to m))%nat.
Proof.
  intros Hh.
  assert (∀ s : Op, Inv m o lie s → (done s = false → rank m s + length answers ≤ 10 + 3 * length (m_to m))%nat →
    (done s = false → length answers < 10 + 3 * length (m_to m))%nat) as Hpos.
  { intros s Hi Hr Hd. pose proof (rank_pos m o lie s Hi Hd). specialize (Hr Hd). lia. }
  unfold persist_async. destruct (start_goes m o lie (shard_of m router route) pool valid) as (G1 & G2 & G3).
  destruct (start_op m _ pool valid (new_op m)) as [acts s]. cbn [fst snd] in *. destruct (done s) eqn:Hd.
  - rewrite (run_op_done m o lie answers s G1 Hd). cbn [fst snd]. rewrite app_nil_r, Hd. by split.
  - destruct (run_op_goes m o lie answers s G1 Hd Hh) as (I1 & I2 & I3). destruct (run_op m o answers s) as [acts' s']. cbn [fst snd] in *.
    rewrite completed_app, G2. split; [done |]. split; [done |]. apply (Hpos s' I1). intros Hd'. specialize (I3 Hd'). lia.
Qed.

(** C5: a message is stored whole or not at all: whatever the driver reports,
    throws or loses, if it only reports success for what the database did, the
    committed rows are none or the mail, its recipients, the sender's copy, the
    attachments and one outbox row for each external recipient in order; and a
    result that says committed comes with all of them and their records. *)
Theorem store_all_or_nothing m o router route pool valid answers :
  (∀ a, a ∈ answers → reported a = true → a_applied a = true) →
  let '(acts, s) := persist_async (Some m) o router route pool valid answers in
  (tx_rows (tx s) = [] ∨ stored m o (tx_rows (tx s))) ∧
  ∀ r, r ∈ completed acts → disposition r = committed → stored m o (tx_rows (tx s)) ∧ recorded m o (m_to m) (outbox_records r).
Proof.
  intros Ha. assert (Forall (honest True) answers) as Hh.
  { apply list.Forall_forall. intros a Hin. split; [by apply Ha | by right]. }
  destruct (persist_goes m o True router route pool valid answers Hh) as (Hi & Hc & _).
  destruct (persist_async _ _ _ _ _ _ _) as [acts s]. cbn [fst snd] in *. rewrite Hc. unfold Inv in Hi. destruct (done s).
  - destruct Hi as (_ & _ & Hi). split.
    + destruct (disposition (result s)); [| right; apply Hi | left; apply Hi..]. destruct Hi as [[? | [_ ?]] _]; auto.
    + intros r ->%list_elem_of_singleton Hr. rewrite Hr in Hi. by destruct Hi as (? & ? & _).
  - split; [| by intros r []%not_elem_of_nil]. destruct (rolling_back s); [destruct Hi as (_ & _ & _ & [? | [_ ?]]); auto | destruct Hi as (_ & _ & ? & _); auto].
Qed.

(** The result tells the truth when the driver does: the rows are committed
    exactly when the result says so, and a failed, duplicate or file-only result
    carries no outbox record. *)
Theorem store_reports_truth m o router route pool valid answers :
  (∀ a, a ∈ answers → a_applied a = reported a) →
  let '(acts, s) := persist_async (Some m) o router route pool valid answers in
  ∀ r, r ∈ completed acts → disposition r ≠ committed → tx_rows (tx s) = [] ∧ outbox_records r = [].
Proof.
  intros Ha. assert (Forall (honest False) answers) as Hh.
  { apply list.Forall_forall. intros a Hin. specialize (Ha a Hin). split; [congruence | intros; left; congruence]. }
  destruct (persist_goes m o False router route pool valid answers Hh) as (Hi & Hc & _).
  destruct (persist_async _ _ _ _ _ _ _) as [acts s]. cbn [fst snd] in *. rewrite Hc. unfold Inv in Hi. destruct (done s); [| by intros r []%not_elem_of_nil].
  intros r ->%list_elem_of_singleton Hr. destruct Hi as (_ & _ & Hi). destruct (disposition (result s)); try done.
  destruct Hi as [[? | [[] _]] ?]. done.
Qed.

(** C8: the operation ends: if the driver reports success only for what the
    database did, then once the calls have been answered at least ten times and
    three times more for each recipient, whatever the answers (errors and
    exceptions included), the caller has exactly one result, and the connection
    is left without rows in an open transaction. *)
Theorem store_completes m o router route pool valid answers :
  (∀ a, a ∈ answers → reported a = true → a_applied a = true) → (10 + 3 * length (m_to m) ≤ length answers)%nat →
  let '(acts, s) := persist_async (Some m) o router route pool valid answers in
  completed acts = [result s] ∧ settled (tx s).
Proof.
  intros Ha Hl. assert (Forall (honest True) answers) as Hh.
  { apply list.Forall_forall. intros a Hin. split; [by apply Ha | by right]. }
  destruct (persist_goes m o True router route pool valid answers Hh) as (Hi & Hc & Hr).
  destruct (persist_async _ _ _ _ _ _ _) as [acts s]. cbn [fst snd] in *. unfold Inv in Hi. destruct (done s); [| specialize (Hr eq_refl); lia].
  by destruct Hi as (_ & Hs & _).
Qed.

(** The row of a message that is not reserved is due at once: the scheduler that
    is handed the record and a worker that claims from the outbox both get it. *)
Theorem unreserved_row_due o m recipient now t :
  reserved o = false →
  ∃ row, rows (run_cmd t (now, outbox_cmd o m recipient)) !! auto_increment t = Some row ∧ due now row = true ∧ o_recipient row = recipient.
Proof.
  intros Hr. unfold outbox_cmd, run_cmd. rewrite Hr. cbn. rewrite lookup_insert_eq. eexists. split; [done |]. split; [| done].
  unfold due. cbn. rewrite Z.leb_refl. done.
Qed.

(** ** Copies on other shards *)

Record RecipientPersistenceResult := mkCopy { c_recipient : bytes; c_shard : Z; c_ok : bool; c_transaction : PersistenceTransaction; c_error : bytes }.

(** A blocking call: an exception or its flag, and whether the database did it. *)
Record SyncAnswer := mkSync { sy_result : bytes + bool; sy_applied : bool }.

Definition sync_reported (a : SyncAnswer) : bool := match sy_result a with inr b => b | inl _ => false end.

(** What one recipient meets: the router, the pool, the calls, the rollback. *)
Record CopyEnv := mkCopyEnv {
  e_route : bytes + Z;
  e_valid : bytes + bool;
  e_calls : nat → SyncAnswer;
  e_rollback : SyncAnswer;
}.

(** The calls of one copy: what each does, and the error when it says no. *)
Definition copy_steps (m : Mail) (i : nat) (recipient : bytes) : list ((Tx → Tx) * bytes) :=
  [ (λ t, mkTx (Some []) (tx_rows t), s! "Failed to begin recipient transaction");
    (tx_add [build_insert_mail m], s! "Failed to insert recipient mail");
    (tx_add [RecipientRow (default 0 (m_ids m !! i)) (m_id m) (m_from m) recipient 1 (m_source_message_id m)], s! "Failed to insert recipient relation");
    (tx_add [InboxRow (m_id m) recipient], s! "Failed to insert recipient mailbox");
    (tx_commit, s! "Failed to commit recipient transaction") ].

(** The [try] block from call [k] on: an error with the number of the call. *)
Fixpoint run_steps (calls : nat → SyncAnswer) (k : nat) (steps : list ((Tx → Tx) * bytes)) (t : Tx) : option (bytes * bool) * Tx :=
  match steps with
  | [] => (None, t)
  | (did, why) :: steps =>
      let a := calls k in
      let t := if sy_applied a then did t else t in
      match sy_result a with
      | inl what => (Some (what, true), t)                      (* the transaction flag is still set *)
      | inr true => run_steps calls (S k) steps t
      | inr false => (Some (why, negb (k =? 0)%nat), t)         (* a begin that says no clears the flag *)
      end
  end.

Definition copy_one (m : Mail) (sender_shard : Z) (i : nat) (recipient : bytes) (e : CopyEnv) (t : Tx) : option RecipientPersistenceResult * Tx :=
  match e_route e with
  | inl what => (Some (mkCopy recipient 0 false not_started what), t)
  | inr shard =>
      if (shard <? 0) || (shard =? sender_shard) then (None, t) else
      match e_valid e with
      | inl what => (Some (mkCopy recipient shard false not_started what), t)
      | inr false => (Some (mkCopy recipient shard false not_started (s! "Recipient shard database unavailable")), t)
      | inr true =>
          match run_steps (e_calls e) 0 (copy_steps m i recipient) t with
          | (None, t) => (Some (mkCopy recipient shard true tx_committed []), t)
          | (Some (why, false), t) => (Some (mkCopy recipient shard false not_started why), t)
          | (Some (why, true), t) =>
              let ok := sync_reported (e_rollback e) in
              let t := if sy_applied (e_rollback e) || negb ok then tx_discard t else t in
              (Some (mkCopy recipient shard false (if ok then rolled_back else rollback_failed) why), t)
          end
      end
  end.

(** The loop over the recipients; each transaction is on a connection of its own. *)
Fixpoint copies_loop (m : Mail) (o : PersistenceOptions) (sender_shard : Z) (env : nat → CopyEnv) (i : nat) (to : list bytes) : list (RecipientPersistenceResult * Tx) :=
  match to with
  | [] => []
  | recipient :: to =>
      let rest := copies_loop m o sender_shard env (S i) to in
      if is_local o recipient then
        match copy_one m sender_shard i recipient (env i) (mkTx None []) with
        | (Some r, t) => (r, t) :: rest
        | (None, _) => rest
        end
      else rest
  end.

Definition persist_recipient_copies (message : option Mail) (o : PersistenceOptions) (router : bool) (sender_shard : Z) (env : nat → CopyEnv)
  : list (RecipientPersistenceResult * Tx) :=
  match message with Some m => if router then copies_loop m o sender_shard env 0 (m_to m) else [] | None => [] end.

(** The rows of one copy. *)
Definition copy_rows (m : Mail) (i : nat) (recipient : bytes) : list SqlRow :=
  [build_insert_mail m; RecipientRow (default 0 (m_ids m !! i)) (m_id m) (m_from m) recipient 1 (m_source_message_id m); InboxRow (m_id m) recipient].

Lemma copy_one_atomic m shard i recipient e r t :
  (∀ k, sy_applied (e_calls e k) = sync_reported (e_calls e k)) → copy_one m shard i recipient e (mkTx None []) = (Some r, t) →
  c_recipient r = recipient ∧ tx_rows t = if c_ok r then copy_rows m i recipient else [].
Proof.
  intros Hh. unfold copy_one. destruct (e_route e) as [what | z]; [by intros [= <- <-] |]. destruct (_ || _); [done |].
  destruct (e_valid e) as [what | [|]]; [by intros [= <- <-] | | by intros [= <- <-]].
  assert (∀ k, sync_reported (e_calls e k) = match sy_result (e_calls e k) with inr b => b | inl _ => false end) as Hs by done.
  unfold copy_steps. cbn [run_steps]. rewrite !Hh, !Hs.
  repeat match goal with
  | |- context [sy_result (e_calls e ?k)] => destruct (sy_result (e_calls e k)) as [? | [|]]; cbn
  end; intros [= <- <-]; cbn; try done; by destruct (_ || _).
Qed.

(** The copies for recipients on other shards are independent transactions:
    for each reported recipient the rows on its shard are all there when the
    result says so and none of them otherwise, whatever happens to the others. *)
Theorem copies_atomic m o router shard env r t :
  (∀ i k, sy_applied (e_calls (env i) k) = sync_reported (e_calls (env i) k)) →
  (r, t) ∈ persist_recipient_copies (Some m) o router shard env →
  ∃ i, m_to m !! i = Some (c_recipient r) ∧ is_local o (c_recipient r) = true ∧
    tx_rows t = if c_ok r then copy_rows m i (c_recipient r) else [].
Proof.
  intros Hh. cbn [persist_recipient_copies]. destruct router; [| by intros []%not_elem_of_nil].
  assert (∀ k to, drop k (m_to m) = to → (r, t) ∈ copies_loop m o shard env k to →
    ∃ i, m_to m !! i = Some (c_recipient r) ∧ is_local o (c_recipient r) = true ∧ tx_rows t = if c_ok r then copy_rows m i (c_recipient r) else []) as H.
  2:{ apply H. apply drop_0. }
  intros k to. revert k. induction to as [| x to IH]; intros k Hto; cbn [copies_loop]; [by intros []%not_elem_of_nil |].
  assert (m_to m !! k = Some x) as Hx by (rewrite <- (Nat.add_0_r k), <- lookup_drop, Hto; done).
  assert (drop (S k) (m_to m) = to) as Hto' by (replace (S k) with (k + 1)%nat by lia; rewrite <- drop_drop, Hto; done).
  destruct (is_local o x) eqn:El; [| by apply IH]. destruct (copy_one m shard k x (env k) (mkTx None [])) as [[r'|] t'] eqn:Ec; [| by apply IH].
  intros [[= -> ->] | Hin]%elem_of_cons; [| by apply (IH (S k))]. destruct (copy_one_atomic m shard k x (env k) r' t' (Hh k) Ec) as [<- Ht].
  by exists k.
Qed.

(** ** Removing metadata *)

Inductive EraseStmt := DeleteAttachments (mail_id : Z) | DeleteRecipients (mail_ids : list Z) | DeleteMails (mail_ids : list Z).

Definition erase_statements (mail_ids : list Z) (delete_attachment_metadata : bool) : list EraseStmt :=
  (if delete_attachment_metadata then DeleteAttachments <$> mail_ids else []) ++ [DeleteRecipients mail_ids; DeleteMails mail_ids].

(** The statements that are run, and the result; an exception of a statement is a failure. *)
Definition erase_metadata (mail_ids : list Z) (delete_attachment_metadata pool : bool) (valid : bytes + bool) (runs : nat → bool)
  : list EraseStmt * (bool * bytes) :=
  match mail_ids with
  | [] => ([], (true, []))
  | _ =>
      if negb pool then ([], (true, [])) else
      match valid with
      | inl what => ([], (false, what))
      | inr false => ([], (false, s! "Cleanup database unavailable"))
      | inr true =>
          let stmts := erase_statements mail_ids delete_attachment_metadata in
          let ok := forallb runs (seq 0 (length stmts)) in
          (stmts, (ok, if ok then [] else s! "Metadata cleanup incomplete"))
      end
  end.

(** ** Sample runs *)

Definition sample_mail : Mail := mkMail 5 [51; 52] (s! "a@home") [s! "b@home"; s! "c@far"] (s! "hi") [] 0 (s! "p") [] false [].
Definition sample_options : PersistenceOptions := mkOptions (s! "home") 8 [] 0.
Definition good_answer : Answer := mkAnswer None true true (s! "7") (s! "3") (s! "9") true (λ _, inr true).
Definition bad_answer : Answer := mkAnswer None false true (s! "7") (s! "3") (s! "9") false (λ _, inr true).

Definition sample_store (answers : list Answer) : OpOut := persist_async (Some sample_mail) sample_options true (λ _, 0) true true answers.

Example sample_stored :
  let out := sample_store (repeat good_answer 6) in
  completed out.1 = [mkResult committed tx_committed 0 [] [mkRecord 9 5 (s! "a@home") (s! "c@far") (s! "p") 0 8]] ∧ length (tx_rows (tx out.2)) = 5%nat.
Proof. vm_compute. done. Qed.

Lemma all_good n a : a ∈ repeat good_answer n → a = good_answer.
Proof. intros H%list_elem_of_In. by apply repeat_spec in H. Qed.

Lemma store_all_or_nothing_witness :
  let '(acts, s) := sample_store (repeat good_answer 6) in
  (tx_rows (tx s) = [] ∨ stored sample_mail sample_options (tx_rows (tx s))) ∧
  ∀ r, r ∈ completed acts → disposition r = committed → stored sample_mail sample_options (tx_rows (tx s)) ∧ recorded sample_mail sample_options (m_to sample_mail) (outbox_records r).
Proof. apply store_all_or_nothing. intros a ->%all_good. done. Defined.

(** The commit is refused, and the rollback as well. *)
Lemma store_reports_truth_witness :
  let '(acts, s) := sample_store (repeat good_answer 5 ++ [bad_answer; bad_answer]) in
  ∀ r, r ∈ completed acts → disposition r ≠ committed → tx_rows (tx s) = [] ∧ outbox_records r = [].
Proof. apply store_reports_truth. intros a [->%all_good | H]%elem_of_app; [done |]. by repeat (apply elem_of_cons in H as [-> | H]; [done |]); apply not_elem_of_nil in H. Defined.

Lemma store_completes_witness :
  let '(acts, s) := sample_store (repeat good_answer 16) in completed acts = [result s] ∧ settled (tx s).
Proof. apply store_completes; [by intros a ->%all_good | apply Nat.leb_le; vm_compute; reflexivity]. Defined.

Definition sample_env : nat → CopyEnv := λ _, mkCopyEnv (inr 1) (inr true) (λ k, mkSync (inr (negb (k =? 3)%nat)) (negb (k =? 3)%nat)) (mkSync (inr true) true).

Lemma copies_atomic_witness :
  ∃ i, m_to sample_mail !! i = Some (s! "b@home") ∧ is_local sample_options (s! "b@home") = true ∧
    tx_rows (mkTx None []) = if false then copy_rows sample_mail i (s! "b@home") else [].
Proof.
  apply (copies_atomic sample_mail sample_options true 0 sample_env (mkCopy (s! "b@home") 1 false rolled_back (s! "Failed to insert recipient mailbox"))).
  - done.
  - apply list_elem_of_In. vm_compute. by left.
Defined.
