(* ===== verification/PersistQueue.v ===== *)
(** * The persistence queue

    Models [persist_storage/persistent_queue.cpp] and
    [persist_storage/persist_submission.cpp]: admission under pressure, the bounded
    queue, the thread that takes messages off it, the jobs on the worker pool, the
    completion of a message by the repository, the clean-up of its files, and the
    ticket its submitter waits on.

    A ticket is a number, and also stands for its message.  A [Job] is a message
    on its way: taken off the queue, posted to a worker, with the repository, or
    being finalised.  Jobs go on in any order and may be overtaken by submissions,
    cancellations and shutdown; [posts] says whether the worker pool takes a job.
    The repository answers a message once ([received] keeps later answers out);
    which result it gives is the subject of [PersistRepo]. *)

From S2P Require Import Prelude CString LruCache LineFolder SmtpText Outbox MxRouting OutboundSession PersistRepo.

Inductive PersistStatus := PENDING_ | PROCESSING | SUCCESS | FAILED | CANCELLED.

Record PersistResult := mkPersistResult { pr_mail_id : Z; pr_status : PersistStatus; pr_error : bytes; pr_deduplicated : bool; pr_timed_out : bool }.

(** A ticket: the completion with its observers, the shared status, the wish to cancel. *)
Record Ticket := mkTicket {
  tk_mail : Mail;
  tk_status : PersistStatus;
  tk_cancel : bool;
  tk_result : option PersistResult;
  tk_observers : list nat;
}.

Inductive Job :=
  | JPopped (i : nat)
  | JPosted (i : nat) (o : PersistenceOptions)
  | JRepository (i : nat) (o : PersistenceOptions)
  | JFinalize (i : nat) (o : PersistenceOptions) (r : PersistenceResult).

Definition job_ticket (j : Job) : nat := match j with JPopped i | JPosted i _ | JRepository i _ | JFinalize i _ _ => i end.

Record PressureConfig := mkPressure { max_inflight_mails : Z; min_available_memory_mb : Z; min_db_available_connections : Z }.

Record Queue := mkQueue {
  q_shutdown : bool;
  entries : list nat;
  queued_task_count : Z;
  inflight_mail_count : Z;
  q_local_domain : bytes;
  q_max_attempts : Z;
  pressure_config : PressureConfig;
  has_outbound : bool;
  worker_alive : bool;
  jobs : list Job;
  tickets : list Ticket;
}.

Inductive QueueEffect :=
  | Accept (i : nat)
  | Reject (why : bytes)
  | RemoveFiles (i : nat)
  | EraseMetadata (i : nat)
  | Persist (i : nat) (o : PersistenceOptions)
  | RecipientCopies (i : nat)
  | HandOver (t : MailDeliveryTask)
  | Observed (i observer : nat)
  | Notify (i observer : nat) (r : PersistResult).

Definition QOut : Type := list QueueEffect * Queue.

Definition capacity : nat := Z.to_nat 16384.

(** ** Updates *)

Definition set_jobs (js : list Job) (q : Queue) : Queue :=
  mkQueue (q_shutdown q) (entries q) (queued_task_count q) (inflight_mail_count q) (q_local_domain q) (q_max_attempts q) (pressure_config q)
    (has_outbound q) (worker_alive q) js (tickets q).
Definition set_tickets (ts : list Ticket) (q : Queue) : Queue :=
  mkQueue (q_shutdown q) (entries q) (queued_task_count q) (inflight_mail_count q) (q_local_domain q) (q_max_attempts q) (pressure_config q)
    (has_outbound q) (worker_alive q) (jobs q) ts.
Definition set_queue (es : list nat) (queued inflight : Z) (q : Queue) : Queue :=
  mkQueue (q_shutdown q) es queued inflight (q_local_domain q) (q_max_attempts q) (pressure_config q) (has_outbound q) (worker_alive q) (jobs q) (tickets q).
Definition add_job (j : Job) (q : Queue) : Queue := set_jobs (jobs q ++ [j]) q.

(** ** The ticket *)

Definition terminal (st : PersistStatus) : bool := match st with SUCCESS | FAILED | CANCELLED => true | _ => false end.

(** [PersistCompletion::complete] *)
Definition complete_ticket (i : nat) (r : PersistResult) (q : Queue) : QOut :=
  if negb (terminal (pr_status r)) then ([], q) else
  match tickets q !! i with
  | None => ([], q)
  | Some t =>
      match tk_result t with
      | Some _ => ([], q)
      | None => ((λ c, Notify i c r) <$> tk_observers t,
                 set_tickets (<[i := mkTicket (tk_mail t) (pr_status r) (tk_cancel t) (Some r) []]> (tickets q)) q)
      end
  end.

(** [PersistCompletion::observe] *)
Definition observe (i c : nat) (q : Queue) : QOut :=
  match tickets q !! i with
  | None => ([], q)
  | Some t =>
      match tk_result t with
      | Some r => ([Observed i c; Notify i c r], q)
      | None => ([Observed i c], set_tickets (<[i := mkTicket (tk_mail t) (tk_status t) (tk_cancel t) None (tk_observers t ++ [c])]> (tickets q)) q)
      end
  end.

Definition request_cancel (i : nat) (q : Queue) : Queue :=
  match tickets q !! i with
  | None => q
  | Some t => set_tickets (<[i := mkTicket (tk_mail t) (tk_status t) true (tk_result t) (tk_observers t)]> (tickets q)) q
  end.

Definition set_status (i : nat) (st : PersistStatus) (q : Queue) : Queue :=
  match tickets q !! i with
  | None => q
  | Some t => set_tickets (<[i := mkTicket (tk_mail t) st (tk_cancel t) (tk_result t) (tk_observers t)]> (tickets q)) q
  end.

Definition is_cancel_requested (i : nat) (q : Queue) : bool := match tickets q !! i with Some t => tk_cancel t | None => false end.

(** ** Admission *)

(** What the pressure checks find: the connections of the pool, the free memory. *)
Record Pressure := mkPressureReading { available_connections : option Z; available_bytes : option Z }.

Definition is_db_under_pressure (c : PressureConfig) (p : Pressure) : bool :=
  if min_db_available_connections c =? 0 then false else
  match available_connections p with Some n => n <? min_db_available_connections c | None => false end.

Definition is_memory_under_pressure (c : PressureConfig) (p : Pressure) : bool :=
  if min_available_memory_mb c =? 0 then false else
  match available_bytes p with Some n => n <? to_u64 (min_available_memory_mb c * 1024 * 1024) | None => false end.

Definition should_reject_submission (q : Queue) (p : Pressure) : option bytes :=
  let c := pressure_config q in
  if (0 <? max_inflight_mails c) && (max_inflight_mails c <=? inflight_mail_count q) then Some (s! "persist inflight limit reached")
  else if is_db_under_pressure c p then Some (s! "database available connections below threshold")
  else if is_memory_under_pressure c p then Some (s! "available memory below threshold")
  else None.

Definition submit_owned_mail (mail_data : option Mail) (persist_status : PersistStatus) (p : Pressure) (q : Queue) : QOut :=
  match mail_data with
  | None => ([Reject (s! "mail is null")], q)
  | Some m =>
      if q_shutdown q then ([Reject (s! "persistent queue is shutdown")], q) else
      match persist_status with
      | PENDING_ =>
          match should_reject_submission q p with
          | Some why => ([Reject why], q)
          | None =>
              if (capacity <=? length (entries q))%nat then ([Reject (s! "persistent queue is full")], q) else
              let i := length (tickets q) in
              ([Accept i],
               set_tickets (tickets q ++ [mkTicket m PENDING_ false None []])
                 (set_queue (entries q ++ [i]) (queued_task_count q + 1) (inflight_mail_count q + 1) q))
          end
      | _ => ([Reject (s! "mail is not pending")], q)
      end
  end.

(** ** The way of a message *)

Definition finish_task (q : Queue) : Queue := set_queue (entries q) (queued_task_count q) (inflight_mail_count q - 1) q.

(** [finish]: the job is gone, so the ticket is completed by it once. *)
Definition finish_mail (i : nat) (st : PersistStatus) (why : bytes) (dedup : bool) (q : Queue) : QOut :=
  let mail_id := match tickets q !! i with Some t => m_id (tk_mail t) | None => 0 end in
  let '(acts, q) := complete_ticket i (mkPersistResult mail_id st why dedup false) q in (acts, finish_task q).

(** The thread's part under the lock: [None] when it would wait. *)
Definition pop_task (q : Queue) : QOut :=
  if negb (worker_alive q) || negb (q_shutdown q || (0 <? queued_task_count q)) then ([], q) else
  match entries q with
  | [] => ([], mkQueue (q_shutdown q) [] (queued_task_count q) (inflight_mail_count q) (q_local_domain q) (q_max_attempts q) (pressure_config q)
                 (has_outbound q) false (jobs q) (tickets q))
  | i :: es => ([], add_job (JPopped i) (set_queue es (queued_task_count q - 1) (inflight_mail_count q) q))
  end.

Definition options_of (q : Queue) : PersistenceOptions := mkOptions (q_local_domain q) (q_max_attempts q) [] 0.

(** [process_task] after the pop. *)
Definition process_task (posts : bool) (i : nat) (q : Queue) : QOut :=
  if q_shutdown q then
    let '(acts, q) := finish_mail i CANCELLED (s! "queue shutdown before persistence started") false q in (RemoveFiles i :: acts, q)
  else if posts then ([], add_job (JPosted i (options_of q)) q)
  else let '(acts, q) := finish_mail i FAILED (s! "Cannot schedule persistence") false q in (RemoveFiles i :: acts, q).

(** The posted job. *)
Definition start_persist (i : nat) (o : PersistenceOptions) (q : Queue) : QOut :=
  if is_cancel_requested i q || q_shutdown q then
    let '(acts, q) := finish_mail i CANCELLED (s! "cancelled before persistence started") false q in (RemoveFiles i :: acts, q)
  else ([Persist i o], add_job (JRepository i o) (set_status i PROCESSING q)).

Definition is_duplicate (r : PersistenceResult) : bool := match disposition r with deduplicated => true | _ => false end.

(** [complete], the callback of the repository. *)
Definition on_repository (posts : bool) (i : nat) (o : PersistenceOptions) (r : PersistenceResult) (q : Queue) : QOut :=
  if posts then ([], add_job (JFinalize i o r) q) else
  let '(acts, q) := finish_mail i (if success r then SUCCESS else FAILED)
                      (if success r then [] else s! "Cannot schedule persistence cleanup") (is_duplicate r) q in
  ((if negb (success r) || is_duplicate r then [RemoveFiles i] else []) ++ acts, q).

(** The task handed to the outbound server for a record. *)
Definition task_for (now : Z) (m : Mail) (rec : OutboxRecord) : MailDeliveryTask :=
  mkTask (rec_mail_id rec) (rec_id rec) (rec_sender rec) (rec_recipient rec) (Some (mkBody (m_body m) (m_body_path m))) now 300.

(** The last stage. *)
Definition finalize (now : Z) (i : nat) (o : PersistenceOptions) (r : PersistenceResult) (q : Queue) : QOut :=
  let m := match tickets q !! i with Some t => tk_mail t | None => mkMail 0 [] [] [] [] [] 0 [] [] false [] end in
  if negb (success r) then
    let '(acts, q) := finish_mail i FAILED (error r) false q in ([EraseMetadata i; RemoveFiles i] ++ acts, q)
  else
    let before :=
      match disposition r with
      | deduplicated => [RemoveFiles i]
      | committed =>
          RecipientCopies i :: (if has_outbound q && has_external_recipient (m_to m) (local_domain o)
                                then (λ rec, HandOver (task_for now m rec)) <$> outbox_records r else [])
      | _ => []
      end in
    let '(acts, q) := finish_mail i SUCCESS [] (is_duplicate r) q in (before ++ acts, q).

Definition shut_down (q : Queue) : Queue :=
  mkQueue true (entries q) (queued_task_count q) (inflight_mail_count q) (q_local_domain q) (q_max_attempts q) (pressure_config q) (has_outbound q)
    (worker_alive q) (jobs q) (tickets q).

(** ** What can happen *)

Inductive QueueEvent :=
  | QSubmit (mail_data : option Mail) (persist_status : PersistStatus) (p : Pressure)
  | QPop
  | QRun (k : nat) (posts : bool) (now : Z) (r : PersistenceResult)      (* job [k] goes on; [r] when it is the repository's turn *)
  | QCancel (i : nat)
  | QObserve (i c : nat)
  | QShutdown.

Definition run_job (posts : bool) (now : Z) (r : PersistenceResult) (j : Job) (q : Queue) : QOut :=
  match j with
  | JPopped i => process_task posts i q
  | JPosted i o => start_persist i o q
  | JRepository i o => on_repository posts i o r q
  | JFinalize i o r => finalize now i o r q
  end.

Definition queue_step (e : QueueEvent) (q : Queue) : QOut :=
  match e with
  | QSubmit mail_data st p => submit_owned_mail mail_data st p q
  | QPop => pop_task q
  | QRun k posts now r =>
      match jobs q !! k with
      | Some j => run_job posts now r j (set_jobs (delete k (jobs q)) q)
      | None => ([], q)
      end
  | QCancel i => ([], request_cancel i q)
  | QObserve i c => observe i c q
  | QShutdown => ([], shut_down q)
  end.

Fixpoint run_queue (es : list QueueEvent) (q : Queue) : QOut :=
  match es with
  | [] => ([], q)
  | e :: es => let '(a, q) := queue_step e q in let '(a', q) := run_queue es q in (a ++ a', q)
  end.

Definition new_queue (local : bytes) (attempts : Z) (c : PressureConfig) (outbound : bool) : Queue :=
  mkQueue false [] 0 0 local attempts c outbound true [] [].

(** ** The books *)

(** The tickets that are open. *)
Definition open_tickets (q : Queue) : list nat := entries q ++ (job_ticket <$> jobs q).

Definition result_of (q : Queue) (i : nat) : option PersistResult := tickets q !! i ≫= tk_result.
Definition observers_of (q : Queue) (i : nat) : list nat := match tickets q !! i with Some t => tk_observers t | None => [] end.

(** The message is not kept: its files go. *)
Definition dropped (r : PersistResult) : bool := match pr_status r with SUCCESS => pr_deduplicated r | _ => true end.

Definition tally {A} (f : A → bool) (l : list A) : nat := length (List.filter f l).

Definition removes (i : nat) (a : QueueEffect) : bool := match a with RemoveFiles j => (i =? j)%nat | _ => false end.
Definition observes (i c : nat) (a : QueueEffect) : bool := match a with Observed j d => (i =? j)%nat && (c =? d)%nat | _ => false end.
Definition notifies (i c : nat) (a : QueueEffect) : bool := match a with Notify j d _ => (i =? j)%nat && (c =? d)%nat | _ => false end.

Lemma tally_app {A} (f : A → bool) l k : tally f (l ++ k) = (tally f l + tally f k)%nat.
Proof. unfold tally. by rewrite List.filter_app, length_app. Qed.

Definition removals (o : option PersistResult) : nat := match o with Some r => bit (dropped r) | None => 0 end.

(** The books with the tickets [hand] held by the step under way. *)
Record Books (hand : list nat) (acts : list QueueEffect) (q : Queue) : Prop := {
  b_queued : queued_task_count q = Z.of_nat (length (entries q));
  b_inflight : inflight_mail_count q = Z.of_nat (length (open_tickets q ++ hand));
  b_capacity : (length (entries q) ≤ capacity)%nat;
  b_nodup : NoDup (open_tickets q ++ hand);
  b_open : ∀ i, i ∈ open_tickets q ++ hand ↔ (i < length (tickets q))%nat ∧ result_of q i = None;
  b_removed : ∀ i, tally (removes i) acts = removals (result_of q i);
  b_told : ∀ i c r, Notify i c r ∈ acts → result_of q i = Some r;
  b_observed : ∀ i c, tally (observes i c) acts = (tally (notifies i c) acts + tally (Nat.eqb c) (observers_of q i))%nat;
  b_terminal : ∀ i r, result_of q i = Some r → terminal (pr_status r) = true ∧ observers_of q i = [];
}.

(** Effects that concern neither files nor observers. *)
Definition plain (a : QueueEffect) : bool := match a with RemoveFiles _ | Observed _ _ | Notify _ _ _ => false | _ => true end.

Lemma plain_count pre :
  forallb plain pre = true → ∀ i c, tally (removes i) pre = 0%nat ∧ tally (observes i c) pre = 0%nat ∧ tally (notifies i c) pre = 0%nat.
Proof.
  intros H i c. induction pre as [| a pre IH]; [done |]. cbn in H. apply andb_true_iff in H as [Ha H]. destruct (IH H) as (I1 & I2 & I3).
  unfold tally in *. destruct a; try done; cbn; done.
Qed.

Lemma plain_told pre i c r : forallb plain pre = true → Notify i c r ∉ pre.
Proof. intros H Hin%list_elem_of_In. eapply forallb_forall in H; [| exact Hin]. done. Qed.

Lemma books_plain hand acts pre q : forallb plain pre = true → Books hand acts q → Books hand (acts ++ pre) q.
Proof.
  intros Hp []. constructor; try done.
  - intros i. rewrite tally_app, (proj1 (plain_count pre Hp i 0)), Nat.add_0_r. done.
  - intros i c r [H | H]%elem_of_app; [by apply (b_told0 i c) | by destruct (plain_told pre i c r Hp)].
  - intros i c. destruct (plain_count pre Hp i c) as (_ & H2 & H3). rewrite !tally_app, H2, H3, !Nat.add_0_r. done.
Qed.

(** The open tickets are rearranged; nothing else changes but the settings. *)
Lemma books_move hand hand' acts q q' :
  Books hand acts q → tickets q' = tickets q → open_tickets q' ++ hand' ≡ₚ open_tickets q ++ hand →
  queued_task_count q' = Z.of_nat (length (entries q')) → inflight_mail_count q' = inflight_mail_count q → (length (entries q') ≤ capacity)%nat →
  Books hand' acts q'.
Proof.
  intros [] Et Ho Hq Hi Hc. unfold result_of, observers_of in *. constructor; unfold result_of, observers_of; rewrite ?Et; try done.
  - by rewrite Hi, Ho.
  - by rewrite Ho.
  - intros i. by rewrite Ho.
Qed.

Lemma books_take acts q k j :
  Books [] acts q → jobs q !! k = Some j → Books [job_ticket j] acts (set_jobs (delete k (jobs q)) q).
Proof.
  intros Hb Hk. apply (books_move [] _ acts q); try done; [| apply Hb | apply Hb].
  unfold open_tickets. cbn. rewrite (delete_Permutation (jobs q) k j Hk) at 2. rewrite fmap_cons, app_nil_r, <- app_assoc.
  apply Permutation_app_head. symmetry. apply Permutation_cons_append.
Qed.

Lemma books_job acts q j : Books [job_ticket j] acts q → Books [] acts (add_job j q).
Proof.
  intros Hb. apply (books_move [job_ticket j] _ acts q); try done; [| apply Hb | apply Hb].
  unfold open_tickets. cbn. rewrite fmap_app, app_nil_r, <- app_assoc. done.
Qed.

(** A change of one ticket that keeps its result and observers. *)
Lemma books_ticket hand acts q i t t' :
  Books hand acts q → tickets q !! i = Some t → tk_result t' = tk_result t → tk_observers t' = tk_observers t →
  Books hand acts (set_tickets (<[i := t']> (tickets q)) q).
Proof.
  intros [] Ht Hr Ho. assert (i < length (tickets q))%nat as Hl by (by eapply lookup_lt_Some).
  assert (∀ k, result_of (set_tickets (<[i := t']> (tickets q)) q) k = result_of q k) as Er.
  { intros k. unfold result_of. cbn. destruct (decide (k = i)) as [-> | Hne]; [rewrite list_lookup_insert_eq, Ht by done; cbn; done |].
    by rewrite list_lookup_insert_ne. }
  assert (∀ k, observers_of (set_tickets (<[i := t']> (tickets q)) q) k = observers_of q k) as Eo.
  { intros k. unfold observers_of. cbn. destruct (decide (k = i)) as [-> | Hne]; [by rewrite list_lookup_insert_eq, Ht by done |].
    by rewrite list_lookup_insert_ne. }
  constructor; try done.
  - intros k. cbn. rewrite length_insert, Er. apply b_open0.
  - intros k. by rewrite Er.
  - intros k c r H. rewrite Er. by apply (b_told0 k c).
  - intros k c. by rewrite Eo.
  - intros k r. rewrite Er, Eo. apply b_terminal0.
Qed.

(** The observers of a ticket are told. *)
Lemma tally_told i j c r l :
  tally (notifies j c) ((λ d, Notify i d r) <$> l) = if (j =? i)%nat then tally (Nat.eqb c) l else 0%nat.
Proof.
  unfold tally. induction l as [| d l IH]; [by destruct (j =? i)%nat |]. rewrite fmap_cons. cbn [List.filter notifies].
  destruct (j =? i)%nat eqn:E; cbn [andb]; [destruct (c =? d)%nat; cbn [length] |]; by rewrite IH.
Qed.

Lemma tally_told_other i r l f : (∀ d, f (Notify i d r) = false) → tally f ((λ d, Notify i d r) <$> l) = 0%nat.
Proof. intros H. unfold tally. induction l as [| d l IH]; [done |]. rewrite fmap_cons. cbn [List.filter]. by rewrite H. Qed.

Lemma finish_books acts pre q i st why dedup :
  Books [i] acts q → terminal st = true →
  (∀ j, tally (removes j) pre = if (j =? i)%nat then bit (dropped (mkPersistResult 0 st why dedup false)) else 0%nat) →
  (∀ j c, tally (observes j c) pre = 0%nat ∧ tally (notifies j c) pre = 0%nat) → (∀ j c r, Notify j c r ∉ pre) →
  let out := finish_mail i st why dedup q in Books [] (acts ++ pre ++ out.1) out.2.
Proof.
  intros [] Hst Hrem Hpre Hno. unfold finish_mail. assert (i ∈ open_tickets q ++ [i]) as Hin by (apply elem_of_app; right; left).
  apply b_open0 in Hin as [Hl Hres]. destruct (lookup_lt_is_Some_2 _ _ Hl) as [t Ht]. rewrite Ht. unfold complete_ticket. cbn [pr_status]. rewrite Hst, Ht.
  assert (tk_result t = None) as Hn by (unfold result_of in Hres; by rewrite Ht in Hres). rewrite Hn. cbn [negb].
  set (r := mkPersistResult _ st why dedup false). set (t' := mkTicket _ _ _ _ _). set (q' := finish_task _).
  assert (∀ k, result_of q' k = if (k =? i)%nat then Some r else result_of q k) as Er.
  { intros k. unfold result_of. cbn. destruct (Nat.eqb_spec k i) as [-> | Hne]; [by rewrite list_lookup_insert_eq | by rewrite list_lookup_insert_ne]. }
  assert (∀ k, observers_of q' k = if (k =? i)%nat then [] else observers_of q k) as Eo.
  { intros k. unfold observers_of. cbn. destruct (Nat.eqb_spec k i) as [-> | Hne]; [by rewrite list_lookup_insert_eq | by rewrite list_lookup_insert_ne]. }
  assert (observers_of q i = tk_observers t) as Hobs by (unfold observers_of; by rewrite Ht).
  apply list.NoDup_app in b_nodup0 as (N1 & N2 & _). cbn [fst snd]. constructor; cbn [entries queued_task_count inflight_mail_count].
  - done.
  - change (open_tickets q') with (open_tickets q). cbn [inflight_mail_count q' finish_task set_queue set_tickets]. rewrite b_inflight0, !length_app. cbn [length]. lia.
  - done.
  - unfold q', open_tickets in *. cbn. by rewrite app_nil_r.
  - intros k. rewrite app_nil_r, Er. cbn [tickets q' finish_task set_queue set_tickets]. rewrite length_insert. specialize (b_open0 k). rewrite elem_of_app in b_open0.
    change (open_tickets q') with (open_tickets q). destruct (Nat.eqb_spec k i) as [-> | Hne].
    + split; [| by intros [? ?]]. intros Hk. exfalso. apply (N2 i Hk). left.
    + rewrite <- b_open0, list_elem_of_singleton. tauto.
  - intros k. rewrite !tally_app, b_removed0, Hrem, tally_told_other, Er by done. destruct (Nat.eqb_spec k i) as [-> | Hne]; [by rewrite Hres | cbn; lia].
  - intros k c r0 [H | [H | H]%elem_of_app]%elem_of_app; rewrite Er.
    + apply b_told0 in H. destruct (Nat.eqb_spec k i) as [-> | Hne]; [congruence | done].
    + by apply Hno in H.
    + apply list_elem_of_fmap in H as (d & [= -> -> ->] & _). by rewrite Nat.eqb_refl.
  - intros k c. destruct (Hpre k c) as [P1 P2]. rewrite !tally_app, P1, P2, tally_told, (tally_told_other i r _ (observes k c)), b_observed0, Eo by done.
    destruct (Nat.eqb_spec k i) as [-> | Hne]; [rewrite Hobs; unfold tally; cbn; lia | lia].
  - intros k r0. rewrite Er, Eo. destruct (Nat.eqb_spec k i) as [-> | Hne]; [by intros [= <-] | apply b_terminal0].
Qed.

(** A message that is concluded by a job. *)
Lemma conclude_books acts q i st why dedup pre extra :
  Books [i] acts q → terminal st = true → forallb plain extra = true →
  pre = (if dropped (mkPersistResult 0 st why dedup false) then [RemoveFiles i] else []) →
  let out := finish_mail i st why dedup q in Books [] (acts ++ (extra ++ pre) ++ out.1) out.2.
Proof.
  intros Hb Hst Hp ->. apply finish_books; try done.
  - intros j. rewrite tally_app, (proj1 (plain_count extra Hp j 0)). cbn [Nat.add]. unfold tally.
    destruct (dropped _); cbn [List.filter removes]; destruct (j =? i)%nat; done.
  - intros j c. destruct (plain_count extra Hp j c) as (_ & H2 & H3). rewrite !tally_app, H2, H3. by destruct (dropped _).
  - intros j c r [H | H]%elem_of_app; [by destruct (plain_told extra j c r Hp) |]. destruct (dropped _); [by apply list_elem_of_singleton in H | by apply not_elem_of_nil in H].
Qed.

Lemma job_books acts q posts now r j :
  Books [job_ticket j] acts q → let out := run_job posts now r j q in Books [] (acts ++ out.1) out.2.
Proof.
  intros Hb. assert (∀ j', job_ticket j' = job_ticket j → Books [] (acts ++ []) (add_job j' q)) as Hjob.
  { intros j' Hj. rewrite app_nil_r. apply books_job. by rewrite Hj. }
  assert (∀ st why dedup extra pre, terminal st = true → forallb plain extra = true →
    pre = (if dropped (mkPersistResult 0 st why dedup false) then [RemoveFiles (job_ticket j)] else []) →
    let out := finish_mail (job_ticket j) st why dedup q in Books [] (acts ++ (extra ++ pre) ++ out.1) out.2) as Hend.
  { intros. by apply conclude_books. }
  destruct j as [i | i o | i o | i o res]; cbn [run_job job_ticket] in *.
  - unfold process_task. destruct (q_shutdown q); [| destruct posts; [by apply Hjob |]].
    + specialize (Hend CANCELLED (s! "queue shutdown before persistence started") false [] [RemoveFiles i] eq_refl eq_refl eq_refl).
      by destruct (finish_mail i CANCELLED _ false q) as [a q'].
    + specialize (Hend FAILED (s! "Cannot schedule persistence") false [] [RemoveFiles i] eq_refl eq_refl eq_refl).
      by destruct (finish_mail i FAILED _ false q) as [a q'].
  - unfold start_persist. destruct (_ || _).
    + specialize (Hend CANCELLED (s! "cancelled before persistence started") false [] [RemoveFiles i] eq_refl eq_refl eq_refl).
      by destruct (finish_mail i CANCELLED _ false q) as [a q'].
    + cbn [fst snd]. apply books_plain; [done |]. apply books_job. cbn [job_ticket]. unfold set_status.
      destruct (tickets q !! i) as [t|] eqn:Et; [| done]. by apply (books_ticket _ _ _ i t).
  - unfold on_repository. destruct posts; [by apply Hjob |].
    assert (is_duplicate r = true → success r = true) as Hd by (unfold is_duplicate, success; by destruct (disposition r)).
    specialize (Hend (if success r then SUCCESS else FAILED) (if success r then [] else s! "Cannot schedule persistence cleanup") (is_duplicate r) []
      (if negb (success r) || is_duplicate r then [RemoveFiles i] else [])).
    destruct (success r), (is_duplicate r); specialize (Hend eq_refl eq_refl eq_refl); cbn in *; try done; by destruct (finish_mail _ _ _ _ q) as [a q'].
  - unfold finalize. set (m := match tickets q !! i with Some t => tk_mail t | None => _ end). destruct (success res) eqn:Es; cbn [negb].
    + set (more := if has_outbound q && _ then _ else _).
      assert (forallb plain (RecipientCopies i :: more) = true) as Hm.
      { unfold more. destruct (_ && _); [| done]. cbn. induction (outbox_records res); [done | by cbn]. }
      unfold success in Es. destruct (disposition res) eqn:Ed; try done; unfold is_duplicate; rewrite Ed.
      * specialize (Hend SUCCESS [] false (RecipientCopies i :: more) [] eq_refl Hm eq_refl). rewrite app_nil_r in Hend. by destruct (finish_mail _ _ _ _ q) as [a q'].
      * specialize (Hend SUCCESS [] false [] [] eq_refl eq_refl eq_refl). by destruct (finish_mail _ _ _ _ q) as [a q'].
      * specialize (Hend SUCCESS [] true [] [RemoveFiles i] eq_refl eq_refl eq_refl). by destruct (finish_mail _ _ _ _ q) as [a q'].
    + specialize (Hend FAILED (error res) false [EraseMetadata i] [RemoveFiles i] eq_refl eq_refl eq_refl). by destruct (finish_mail _ _ _ _ q) as [a q'].
Qed.

Lemma submit_books acts q mail_data st p :
  Books [] acts q → let out := submit_owned_mail mail_data st p q in Books [] (acts ++ out.1) out.2.
Proof.
  intros Hb. assert (∀ why, Books [] (acts ++ [Reject why]) q) as Hrej by (intros why; by apply books_plain).
  unfold submit_owned_mail. destruct mail_data as [m|]; [| apply Hrej]. destruct (q_shutdown q); [apply Hrej |]. destruct st; try apply Hrej.
  destruct (should_reject_submission q p); [apply Hrej |]. destruct (Nat.leb_spec capacity (length (entries q))) as [| Hc]; [apply Hrej |].
  cbv zeta. cbn [fst snd]. apply books_plain; [done |]. destruct Hb. set (n := length (tickets q)) in *. set (q' := set_tickets _ _).
  assert (∀ k, result_of q' k = result_of q k ∧ observers_of q' k = observers_of q k) as E.
  { intros k. unfold result_of, observers_of. cbn. destruct (decide (k < n)%nat); [by rewrite lookup_app_l |].
    rewrite (lookup_ge_None_2 (tickets q)) by lia. destruct (decide (k = n)) as [-> | Hne]; [by rewrite list_lookup_middle | by rewrite lookup_ge_None_2 by (rewrite length_app; cbn; lia)]. }
  assert (open_tickets q' ++ [] ≡ₚ n :: open_tickets q ++ []) as Ho.
  { unfold open_tickets. cbn. rewrite !app_nil_r, <- app_assoc. symmetry. apply Permutation_middle. }
  constructor.
  - cbn. rewrite length_app. cbn. lia.
  - rewrite Ho. cbn [inflight_mail_count q' set_tickets set_queue length]. lia.
  - cbn. rewrite length_app. cbn. lia.
  - rewrite Ho. apply list.NoDup_cons. split; [| done]. intros H%b_open0. lia.
  - intros k. rewrite Ho, elem_of_cons, b_open0, (proj1 (E k)). cbn [tickets q' set_tickets]. rewrite length_app. cbn [length]. fold n.
    split; [intros [-> | [? ?]]; [split; [lia |] | split; [lia | done]] | intros [? ?]; destruct (decide (k = n)); [by left | right; split; [lia | done]]].
    unfold result_of. by rewrite (lookup_ge_None_2 (tickets q)) by lia.
  - intros k. by rewrite (proj1 (E k)).
  - intros k c r H. rewrite (proj1 (E k)). by apply (b_told0 k c).
  - intros k c. by rewrite (proj2 (E k)).
  - intros k r. rewrite (proj1 (E k)), (proj2 (E k)). apply b_terminal0.
Qed.

Lemma pop_books acts q : Books [] acts q → Books [] (acts ++ (pop_task q).1) (pop_task q).2.
Proof.
  intros Hb. unfold pop_task. destruct (_ || _); [by rewrite app_nil_r |]. destruct (entries q) as [| i es] eqn:Ee; cbn [fst snd]; rewrite app_nil_r.
  - apply (books_move [] _ acts q); try done; [unfold open_tickets; cbn; by rewrite Ee | cbn; rewrite (b_queued _ _ _ Hb), Ee; done | cbn; lia].
  - pose proof (b_queued _ _ _ Hb) as Hq. pose proof (b_capacity _ _ _ Hb) as Hc. rewrite Ee in Hq, Hc. cbn [length] in Hq, Hc.
    apply (books_move [] _ acts q); try done; cbn; [| lia | lia]. unfold open_tickets. cbn. rewrite Ee, fmap_app, !app_nil_r. cbn.
    rewrite app_assoc. symmetry. apply Permutation_cons_append.
Qed.

Lemma tally_one {A} (f : A → bool) a : tally f [a] = bit (f a).
Proof. unfold tally. cbn. by destruct (f a). Qed.

Lemma observe_books acts q i c : Books [] acts q → Books [] (acts ++ (observe i c q).1) (observe i c q).2.
Proof.
  intros Hb. unfold observe. destruct (tickets q !! i) as [t|] eqn:Et; [| by rewrite app_nil_r].
  assert (result_of q i = tk_result t) as Hres by (unfold result_of; by rewrite Et).
  assert (i < length (tickets q))%nat as Hl by (by eapply lookup_lt_Some).
  destruct (tk_result t) as [r|] eqn:Er; cbn [fst snd]; destruct Hb; constructor; try done.
  - intros k. rewrite tally_app. unfold tally at 2. cbn. rewrite Nat.add_0_r. done.
  - intros k d r0 [H | [? | [[= -> -> ->] | []%not_elem_of_nil]%elem_of_cons]%elem_of_cons]%elem_of_app; [by apply (b_told0 k d) | done | done].
  - intros k d. rewrite !tally_app, b_observed0. change [Observed i c; Notify i c r] with ([Observed i c] ++ [Notify i c r]).
    rewrite !tally_app, !tally_one. cbn. lia.
  - intros k. unfold result_of. cbn [tickets set_tickets]. rewrite length_insert. specialize (b_open0 k). unfold result_of in b_open0.
    destruct (decide (k = i)) as [-> | Hne]; [| by rewrite list_lookup_insert_ne]. rewrite list_lookup_insert_eq by done. rewrite Et in b_open0. cbn in *. by rewrite Er in b_open0.
  - intros k. rewrite tally_app, tally_one. cbn [removes bit]. rewrite Nat.add_0_r, b_removed0. unfold result_of. cbn.
    destruct (decide (k = i)) as [-> | Hne]; [| by rewrite list_lookup_insert_ne]. rewrite list_lookup_insert_eq, Et by done. cbn. by rewrite Er.
  - intros k d r0 [H | H%list_elem_of_singleton]%elem_of_app; [| done]. apply b_told0 in H. unfold result_of in *. cbn.
    destruct (decide (k = i)) as [-> | Hne]; [| by rewrite list_lookup_insert_ne]. rewrite Et in H. cbn in H. congruence.
  - intros k d. rewrite !tally_app, b_observed0, !tally_one. cbn [notifies observes bit]. unfold observers_of. cbn [tickets set_tickets].
    destruct (Nat.eqb_spec k i) as [-> | Hne]; cbn [andb bit]; [| rewrite list_lookup_insert_ne by done; lia].
    rewrite list_lookup_insert_eq, Et by done. cbn [tk_observers]. rewrite tally_app, tally_one. lia.
  - intros k r0. unfold result_of, observers_of. cbn. destruct (decide (k = i)) as [-> | Hne]; [| rewrite list_lookup_insert_ne by done; apply b_terminal0].
    rewrite list_lookup_insert_eq by done. done.
Qed.

Lemma queue_step_books acts e q : Books [] acts q → Books [] (acts ++ (queue_step e q).1) (queue_step e q).2.
Proof.
  intros Hb. destruct e as [md st p | | k posts now r | i | i c |]; cbn [queue_step].
  - by apply submit_books.
  - by apply pop_books.
  - destruct (jobs q !! k) as [j|] eqn:Ej; [| by rewrite app_nil_r]. apply job_books. by apply books_take.
  - rewrite app_nil_r. unfold request_cancel. cbn. destruct (tickets q !! i) as [t|] eqn:Et; [by apply (books_ticket _ _ _ i t) | done].
  - by apply observe_books.
  - rewrite app_nil_r. by apply (books_move [] _ acts q); try done; apply Hb.
Qed.

Lemma run_queue_books acts es q : Books [] acts q → Books [] (acts ++ (run_queue es q).1) (run_queue es q).2.
Proof.
  revert acts q. induction es as [| e es IH]; intros acts q Hb; cbn [run_queue]; [by rewrite app_nil_r |].
  pose proof (queue_step_books acts e q Hb) as H. destruct (queue_step e q) as [a q1]. cbn [fst snd] in H. specialize (IH _ _ H).
  destruct (run_queue es q1) as [a2 q2]. cbn [fst snd] in *. by rewrite app_assoc.
Qed.

Lemma new_books local attempts c outbound : Books [] [] (new_queue local attempts c outbound).
Proof.
  constructor; cbn; try done; try lia; try constructor.
  - by intros []%not_elem_of_nil.
  - lia.
  - by intros k d r []%not_elem_of_nil.
Qed.

(** C6: the queue keeps its books: at any time the counters are the length of the
    bounded queue and the number of messages that were accepted and have no result
    yet, and each of those is in exactly one place; so when queue and workers are
    idle every accepted message has its one result. *)
Theorem queue_accounted local attempts c outbound es :
  let q := (run_queue es (new_queue local attempts c outbound)).2 in
  queued_task_count q = Z.of_nat (length (entries q)) ∧ (length (entries q) ≤ capacity)%nat ∧
  inflight_mail_count q = Z.of_nat (length (open_tickets q)) ∧ NoDup (open_tickets q) ∧
  ∀ i, i ∈ open_tickets q ↔ (i < length (tickets q))%nat ∧ result_of q i = None.
Proof.
  cbv zeta. destruct (run_queue_books [] es _ (new_books local attempts c outbound)) as [H1 H2 H3 H4 H5 _ _ _ _].
  rewrite app_nil_r in H2, H4. split; [exact H1 |]. split; [exact H3 |]. split; [exact H2 |]. split; [exact H4 |].
  intros i. specialize (H5 i). by rewrite app_nil_r in H5.
Qed.

(** C7: files are removed exactly for the messages that are not kept: once for a
    message whose result is a failure, a cancellation or a duplicate, and never for
    one that is stored or still on its way, whatever is cancelled, shut down or
    refused by the worker pool meanwhile. *)
Theorem files_removed_exactly local attempts c outbound es i :
  let out := run_queue es (new_queue local attempts c outbound) in
  tally (removes i) out.1 = match result_of out.2 i with Some r => bit (dropped r) | None => 0%nat end.
Proof.
  cbv zeta. destruct (run_queue_books [] es _ (new_books local attempts c outbound)) as [_ _ _ _ _ H _ _ _]. apply H.
Qed.

(** Everyone who waits on a message is told its result once: every
    notification carries the result the ticket keeps, and for each observer the
    notifications and the registrations that still wait add up to how often it
    registered; none waits on a ticket with a result. *)
Theorem observers_told_once local attempts c outbound es i d :
  let out := run_queue es (new_queue local attempts c outbound) in
  (∀ r, Notify i d r ∈ out.1 → result_of out.2 i = Some r) ∧
  tally (observes i d) out.1 = (tally (notifies i d) out.1 + tally (Nat.eqb d) (observers_of out.2 i))%nat ∧
  (is_Some (result_of out.2 i) → observers_of out.2 i = []).
Proof.
  cbv zeta. destruct (run_queue_books [] es _ (new_books local attempts c outbound)) as [_ _ _ _ _ _ H1 H2 H3].
  split; [apply H1 |]. split; [apply H2 |]. intros [r Hr]. by apply (H3 i r).
Qed.

(** ** Progress *)

(** The steps a message still has before it. *)
Definition job_rank (j : Job) : nat := match j with JPopped _ => 4 | JPosted _ _ => 3 | JRepository _ _ => 2 | JFinalize _ _ _ => 1 end.

Definition work_left (q : Queue) : nat := 5 * length (entries q) + sum_list_with job_rank (jobs q).

Lemma finish_mail_jobs i st why dedup q : jobs (finish_mail i st why dedup q).2 = jobs q ∧ entries (finish_mail i st why dedup q).2 = entries q.
Proof.
  unfold finish_mail, complete_ticket. destruct (negb _); [done |]. destruct (tickets q !! i) as [t|]; [| done]. by destruct (tk_result t).
Qed.

Ltac by_finish q Hf :=
  match goal with |- context [finish_mail ?i ?st ?w ?d q] => specialize (Hf i st w d); by destruct (finish_mail i st w d q) end.

Lemma run_job_rank posts now r j q : (work_left (run_job posts now r j q).2 < job_rank j + work_left q)%nat.
Proof.
  assert (∀ j', (job_rank j' < job_rank j)%nat → work_left (add_job j' q) < job_rank j + work_left q)%nat as Hj.
  { intros j' H. unfold work_left. cbn. rewrite sum_list_with_app. cbn. lia. }
  assert (∀ i st why dedup, work_left (finish_mail i st why dedup q).2 < job_rank j + work_left q)%nat as Hf.
  { intros. unfold work_left. destruct (finish_mail_jobs i st why dedup q) as [-> ->]. destruct j; cbn; lia. }
  destruct j as [i | i o | i o | i o res]; cbn [run_job]; unfold process_task, start_persist, on_repository, finalize.
  - destruct (q_shutdown q); [| destruct posts; [apply Hj; cbn; lia |]].
    + by_finish q Hf.
    + by_finish q Hf.
  - destruct (_ || _); [by_finish q Hf |].
    cbn [snd]. unfold set_status. destruct (tickets q !! i); unfold work_left; cbn; rewrite sum_list_with_app; cbn; lia.
  - destruct posts; [apply Hj; cbn; lia |].
    by_finish q Hf.
  - destruct (negb (success res)); by_finish q Hf.
Qed.

(** Whether a step of the thread or of a job moves a message. *)
Definition moves_on (e : QueueEvent) (q : Queue) : bool :=
  match e with
  | QPop => worker_alive q && negb (bool_decide (entries q = []))
  | QRun k _ _ _ => (k <? length (jobs q))%nat
  | _ => false
  end.

(** No message stays on its way for ever: every turn of the thread that finds
    a message, and every turn of a job, uses up part of a finite amount of work,
    at most five steps for each message, so turns alone end with an idle queue. *)
Theorem queue_progress local attempts c outbound es e :
  let q := (run_queue es (new_queue local attempts c outbound)).2 in
  moves_on e q = true → (work_left (queue_step e q).2 < work_left q)%nat.
Proof.
  cbv zeta. pose proof (run_queue_books [] es _ (new_books local attempts c outbound)) as Hb. cbn [app] in Hb.
  generalize dependent (run_queue es (new_queue local attempts c outbound)). intros [acts q] Hb. cbn [fst snd] in *.
  destruct e as [md st p | | k posts now r | i | i d |]; cbn [moves_on]; try done; intros Hm.
  - apply andb_true_iff in Hm as [Hw He]. cbn [queue_step]. unfold pop_task. rewrite Hw. cbn [negb orb]. pose proof (b_queued _ _ _ Hb) as Hq.
    destruct (entries q) as [| i es'] eqn:Ee; [done |]. destruct (Z.ltb_spec 0 (queued_task_count q)) as [_ | Hle]; [| cbn in Hq; lia].
    rewrite orb_true_r. cbn [negb snd]. unfold work_left. cbn. rewrite sum_list_with_app, Ee. cbn. lia.
  - apply Nat.ltb_lt in Hm. cbn [queue_step]. destruct (lookup_lt_is_Some_2 _ _ Hm) as [j Hj]. rewrite Hj.
    eapply Nat.lt_le_trans; [apply run_job_rank |]. unfold work_left. cbn. rewrite (delete_Permutation (jobs q) k j Hj) at 2. cbn. lia.
Qed.

(** ** Waiting with a deadline

    [Wait] of [async_wait]: the observer of the ticket and the timer race; all of
    it runs on the executor of the caller. *)

Inductive WaitEvent :=
  | WStart (valid : bool)
  | WTimer (aborted : bool) (ready : option PersistResult) (status : PersistStatus)     (* what the ticket holds then *)
  | WResult (r : PersistResult).

Record WaitState := mkWait { w_armed : bool; w_done : bool }.

Definition wait_finish (r : PersistResult) (w : WaitState) : list PersistResult * WaitState :=
  if w_done w then ([], w) else ([r], mkWait (w_armed w) true).

Definition wait_step (mail_id : Z) (e : WaitEvent) (w : WaitState) : list PersistResult * WaitState :=
  match e with
  | WStart valid =>
      if valid then ([], mkWait true (w_done w)) else wait_finish (mkPersistResult 0 CANCELLED (s! "invalid submission ticket") false false) w
  | WTimer aborted ready status =>
      if aborted || w_done w || negb (w_armed w) then ([], w) else
      match ready with
      | Some r => wait_finish r w
      | None => wait_finish (mkPersistResult mail_id status (s! "persistence wait timed out") false true) w
      end
  | WResult r => if w_armed w then wait_finish r w else ([], w)
  end.

Fixpoint run_wait (mail_id : Z) (es : list WaitEvent) (w : WaitState) : list PersistResult * WaitState :=
  match es with
  | [] => ([], w)
  | e :: es => let '(a, w) := wait_step mail_id e w in let '(a', w) := run_wait mail_id es w in (a ++ a', w)
  end.

(** The waiter is called back at most once, with the result of the ticket unless
    the time was up and there was none. *)
Theorem wait_calls_back_once mail_id es final :
  (∀ r, WResult r ∈ es → r = final) → (∀ b ready st, WTimer b ready st ∈ es → ready = None ∨ ready = Some final) →
  WStart false ∉ es →
  match (run_wait mail_id es (mkWait false false)).1 with
  | [] => True
  | [r] => r = final ∨ (pr_timed_out r = true ∧ ∃ st, WTimer false None st ∈ es)
  | _ => False
  end.
Proof.
  intros H1 H2 H3. generalize (mkWait false false). intros w.
  assert (match (run_wait mail_id es w).1 with
          | [] => True
          | [r] => w_done w = false ∧ (r = final ∨ (pr_timed_out r = true ∧ ∃ st, WTimer false None st ∈ es))
          | _ => False
          end) as H; [| by destruct (run_wait mail_id es w).1 as [| r [|]]; [| destruct H |]].
  revert w H1 H2 H3. induction es as [| e es IH]; intros w H1 H2 H3; cbn [run_wait]; [done |].
  assert (∀ w', match (run_wait mail_id es w').1 with [] => True | [r] => w_done w' = false ∧ (r = final ∨ (pr_timed_out r = true ∧ ∃ st, WTimer false None st ∈ e :: es)) | _ => False end) as IH'.
  { intros w'. specialize (IH w'). destruct (run_wait mail_id es w') as [[| r [|]] ?]; try done; cbn [fst] in *.
    - destruct IH as [Hd Hr]; [intros; apply H1; by right | intros b rd st Hin; apply (H2 b rd st); by right | intros Hin; apply H3; by right |]. split; [done |].
      destruct Hr as [? | [? [st ?]]]; [by left | right]. split; [done |]. exists st. by right.
    - apply IH; [intros; apply H1; by right | intros b rd st Hin; apply (H2 b rd st); by right | intros Hin; apply H3; by right]. }
  assert (∀ r, (r = final ∨ (pr_timed_out r = true ∧ ∃ st, WTimer false None st ∈ e :: es)) →
    match (let '(a, w0) := wait_finish r w in let '(a', w1) := run_wait mail_id es w0 in (a ++ a', w1)).1 with
    | [] => True | [r] => w_done w = false ∧ (r = final ∨ (pr_timed_out r = true ∧ ∃ st, WTimer false None st ∈ e :: es)) | _ => False end) as Hfin.
  { intros r Hr. unfold wait_finish. destruct (w_done w) eqn:Hd; [specialize (IH' w); rewrite Hd in IH'; by destruct (run_wait mail_id es w) |].
    specialize (IH' (mkWait (w_armed w) true)). destruct (run_wait mail_id es (mkWait (w_armed w) true)) as [[| r' [|]] ?]; cbn in *; [done | by destruct IH' | done]. }
  assert (match (let '(a', w1) := run_wait mail_id es w in ([] ++ a', w1)).1 with
    | [] => True | [r] => w_done w = false ∧ (r = final ∨ (pr_timed_out r = true ∧ ∃ st, WTimer false None st ∈ e :: es)) | _ => False end) as Hskip.
  { specialize (IH' w). by destruct (run_wait mail_id es w). }
  destruct e as [[] | b rd st | r]; cbn [wait_step].
  - specialize (IH' (mkWait true (w_done w))). by destruct (run_wait mail_id es (mkWait true (w_done w))).
  - destruct H3. left.
  - destruct b; [done |]. destruct (w_done w) eqn:Hd; [done |]. destruct (w_armed w); [| done]. cbn [orb negb]. destruct (H2 false rd st) as [-> | ->]; [left | |].
    + apply Hfin. right. split; [done |]. exists st. left.
    + apply Hfin. by left.
  - destruct (w_armed w); [| done]. apply Hfin. left. apply H1. left.
Qed.

(** ** Sample runs *)

Definition calm : Pressure := mkPressureReading None None.
Definition sample_queue : Queue := new_queue (s! "home") 8 (mkPressure 2048 256 1) true.
Definition no_answer : PersistenceResult := mkResult failed not_started 0 [] [].
Definition stored_answer : PersistenceResult := mkResult committed tx_committed 0 [] [mkRecord 9 5 (s! "a@home") (s! "c@far") (s! "p") 0 8].

Definition sample_events : list QueueEvent :=
  [QSubmit (Some sample_mail) PENDING_ calm; QObserve 0 1; QPop; QRun 0 true 0 no_answer; QRun 0 true 0 no_answer; QRun 0 true 0 stored_answer; QRun 0 true 0 no_answer].

Lemma queue_progress_witness :
  let q := (run_queue [QSubmit (Some sample_mail) PENDING_ calm] sample_queue).2 in
  moves_on QPop q = true ∧ (work_left (queue_step QPop q).2 < work_left q)%nat.
Proof. split; [reflexivity |]. apply (queue_progress (s! "home") 8 (mkPressure 2048 256 1) true [QSubmit (Some sample_mail) PENDING_ calm] QPop). reflexivity. Defined.

(** The message of a committed outbox row is handed to the scheduler although the
    row, which is not reserved, is due for any worker that claims. *)
Example handed_over_and_due :
  let acts := (run_queue sample_events sample_queue).1 in
  HandOver (mkTask 5 9 (s! "a@home") (s! "c@far") (Some (mkBody [] (s! "p"))) 0 300) ∈ acts ∧
  Persist 0 (mkOptions (s! "home") 8 [] 0) ∈ acts ∧ reserved (mkOptions (s! "home") 8 [] 0) = false.
Proof. split; [apply list_elem_of_In; vm_compute; tauto |]. split; [apply list_elem_of_In; vm_compute; tauto | done]. Qed.
