(* ===== verification/DbPool.v ===== *)
(** * The pool of database connections

    Models [db/mysql_pool.cpp], which serves every engine: the initial
    connections, lending with validation and replacement of stale connections,
    growth up to the maximum, return, removal of idle connections, and close.

    A wrapper is an index into [wrappers], which keeps every wrapper ever made; a
    connection is a number, fresh for each connection made.  The critical sections
    of the code are one step each; what happens between them, outside the lock, is
    a [Borrowing], the rest of a [get_connection] that is under way.  Whether a
    connection answers and whether a new one can be opened is part of the event.
    [get_connection] waits until a connection is free or the time is up; the event
    stands for the moment it stops waiting. *)

From S2P Require Import Prelude.

Record Wrapper := mkWrapper { w_conn : option nat; w_last_used : Z; w_in_use : bool }.

Record PoolConfig := mkPoolConfig { initial_pool_size : nat; max_pool_size : nat; idle_timeout : Z; validation_interval : Z }.

(** The rest of a call: the slot was reserved, or a wrapper taken off the queue. *)
Inductive Borrowing :=
  | BExpand (w : nat)
  | BCheck (w : nat) (need_ping : bool).

Definition borrowed (b : Borrowing) : nat := match b with BExpand w | BCheck w _ => w end.

Record Pool := mkPool {
  p_running : bool;
  wrappers : list Wrapper;
  connections : list nat;               (* [m_connections] *)
  available : list nat;                 (* [m_availableConnections] *)
  next_conn : nat;
  borrowings : list Borrowing;
  lent : list nat;                      (* connections in the hands of callers *)
}.

Inductive PoolEffect :=
  | Lend (c : nat)
  | NoConnection
  | Disconnected (c : nat).

Definition POut : Type := list PoolEffect * Pool.

(** ** Updates *)

Definition set_wrapper (i : nat) (w : Wrapper) (p : Pool) : Pool :=
  mkPool (p_running p) (<[i := w]> (wrappers p)) (connections p) (available p) (next_conn p) (borrowings p) (lent p).
Definition set_available (l : list nat) (p : Pool) : Pool :=
  mkPool (p_running p) (wrappers p) (connections p) l (next_conn p) (borrowings p) (lent p).
Definition set_connections (l : list nat) (p : Pool) : Pool :=
  mkPool (p_running p) (wrappers p) l (available p) (next_conn p) (borrowings p) (lent p).
Definition set_borrowings (l : list Borrowing) (p : Pool) : Pool :=
  mkPool (p_running p) (wrappers p) (connections p) (available p) (next_conn p) l (lent p).
Definition set_lent (l : list nat) (p : Pool) : Pool :=
  mkPool (p_running p) (wrappers p) (connections p) (available p) (next_conn p) (borrowings p) l.
Definition take_number (p : Pool) : Pool :=
  mkPool (p_running p) (wrappers p) (connections p) (available p) (S (next_conn p)) (borrowings p) (lent p).

Definition conn_of (p : Pool) (i : nat) : option nat := wrappers p !! i ≫= w_conn.
Definition in_use (p : Pool) (i : nat) : bool := match wrappers p !! i with Some w => w_in_use w | None => false end.
Definition last_used (p : Pool) (i : nat) : Z := match wrappers p !! i with Some w => w_last_used w | None => 0 end.

Section PoolOps.
Context (config : PoolConfig).

(** ** Lending *)

(** The part under the lock, after the wait. *)
Definition get_locked (now : Z) (p : Pool) : POut :=
  if negb (p_running p) then ([NoConnection], p) else
  match available p with
  | [] =>
      if (max_pool_size config <=? length (connections p))%nat then ([NoConnection], p) else
      let w := length (wrappers p) in
      ([], mkPool true (wrappers p ++ [mkWrapper None now true]) (connections p ++ [w]) [] (next_conn p) (borrowings p ++ [BExpand w]) (lent p))
  | w :: rest =>
      let need_ping := (0 <? validation_interval config) && (validation_interval config <=? now - last_used p w) in
      ([], set_borrowings (borrowings p ++ [BCheck w need_ping])
             (set_wrapper w (mkWrapper (conn_of p w) now true) (set_available rest p)))
  end.

(** Opening a connection for the wrapper. *)
Definition install (now : Z) (w : nat) (p : Pool) : POut :=
  let c := next_conn p in
  ([Lend c], set_lent (c :: lent p) (take_number (set_wrapper w (mkWrapper (Some c) now true) p))).

(** The part outside the lock, and the second critical section. *)
Definition finish_borrowing (connected pings opens : bool) (b : Borrowing) (p : Pool) : POut :=
  match b with
  | BExpand w =>
      if opens then install (last_used p w) w p
      else ([NoConnection],
            set_connections (List.filter (λ i, negb (i =? w)%nat) (connections p)) (set_wrapper w (mkWrapper None (last_used p w) false) p))
  | BCheck w need_ping =>
      match conn_of p w with
      | Some c =>
          if connected && (negb need_ping || pings) then ([Lend c], set_lent (c :: lent p) p)
          else if opens then install (last_used p w) w p
          else ([NoConnection], set_wrapper w (mkWrapper None (last_used p w) false) p)
      | None => if opens then install (last_used p w) w p else ([NoConnection], set_wrapper w (mkWrapper None (last_used p w) false) p)
      end
  end.

(** The wrapper of a connection, among those of the pool. *)
Fixpoint find_wrapper (p : Pool) (c : nat) (l : list nat) : option nat :=
  match l with
  | [] => None
  | w :: l => if bool_decide (conn_of p w = Some c) then Some w else find_wrapper p c l
  end.

Definition release_connection (now : Z) (c : nat) (p : Pool) : Pool :=
  match find_wrapper p c (connections p) with
  | Some w => set_available (available p ++ [w]) (set_wrapper w (mkWrapper (conn_of p w) now false) p)
  | None => p
  end.

(** ** Maintenance *)

Fixpoint cleanup_loop (now : Z) (l : list nat) (p : Pool) : POut :=
  match l with
  | [] => ([], p)
  | w :: l =>
      match conn_of p w with
      | Some c =>
          if negb (in_use p w) && (idle_timeout config <? now - last_used p w) && (initial_pool_size config <? length (connections p))%nat then
            let '(acts, p) := cleanup_loop now l
              (set_connections (List.filter (λ i, negb (i =? w)%nat) (connections p)) (set_available (List.filter (λ i, negb (i =? w)%nat) (available p)) p)) in
            (Disconnected c :: acts, p)
          else cleanup_loop now l p
      | None => cleanup_loop now l p
      end
  end.

Definition cleanup_idle_connections (now : Z) (p : Pool) : POut :=
  if (length (connections p) <=? initial_pool_size config)%nat then ([], p) else cleanup_loop now (connections p) p.

Definition close_pool (p : Pool) : POut :=
  if negb (p_running p) then ([], p) else
  (Disconnected <$> omap (conn_of p) (connections p), mkPool false (wrappers p) [] [] (next_conn p) (borrowings p) (lent p)).

Definition get_active_connections (p : Pool) : nat := length (connections p) - length (available p).

(** ** What can happen *)

Inductive PoolEvent :=
  | PGet (now : Z)
  | PFinish (k : nat) (connected pings opens : bool)
  | PRelease (k : nat) (now : Z)                                (* the holder of the [k]th lent connection gives it back *)
  | PCleanup (now : Z)
  | PClose.

Definition pool_step (e : PoolEvent) (p : Pool) : POut :=
  match e with
  | PGet now => get_locked now p
  | PFinish k connected pings opens =>
      match borrowings p !! k with
      | Some b => finish_borrowing connected pings opens b (set_borrowings (delete k (borrowings p)) p)
      | None => ([], p)
      end
  | PRelease k now =>
      match lent p !! k with
      | Some c => ([], release_connection now c (set_lent (delete k (lent p)) p))
      | None => ([], p)
      end
  | PCleanup now => cleanup_idle_connections now p
  | PClose => close_pool p
  end.

Fixpoint run_pool (es : list PoolEvent) (p : Pool) : POut :=
  match es with
  | [] => ([], p)
  | e :: es => let '(a, p) := pool_step e p in let '(a', p) := run_pool es p in (a ++ a', p)
  end.

(** [initialize_pool]: the connections that can be opened. *)
Fixpoint initialize_loop (now : Z) (opens : list bool) (p : Pool) : Pool :=
  match opens with
  | [] => p
  | true :: opens =>
      let w := length (wrappers p) in
      initialize_loop now opens
        (mkPool true (wrappers p ++ [mkWrapper (Some (next_conn p)) now false]) (connections p ++ [w]) (available p ++ [w]) (S (next_conn p)) [] [])
  | false :: opens => initialize_loop now opens p
  end.

Definition initialize_pool (now : Z) (opens : nat → bool) : Pool :=
  initialize_loop now (opens <$> seq 0 (initial_pool_size config)) (mkPool true [] [] [] 0 [] []).
End PoolOps.

(** ** The invariant *)

Section Invariant.
Context (config : PoolConfig).

Definition limit : nat := max (initial_pool_size config) (max_pool_size config).

Record PoolInv (p : Pool) : Prop := {
  i_conns : NoDup (connections p);
  i_known : ∀ w, w ∈ connections p → (w < length (wrappers p))%nat;
  i_avail : NoDup (available p);
  i_free : ∀ w, w ∈ available p → w ∈ connections p ∧ in_use p w = false ∧ is_Some (conn_of p w);
  i_borrow : NoDup (borrowed <$> borrowings p);
  i_busy : ∀ b, b ∈ borrowings p → (borrowed b < length (wrappers p))%nat ∧ in_use p (borrowed b) = true ∧ (p_running p = true → borrowed b ∈ connections p);
  i_empty : ∀ w, BExpand w ∈ borrowings p → conn_of p w = None;
  i_lent : NoDup (lent p);
  i_held : ∀ c, c ∈ lent p → ∃ w, conn_of p w = Some c ∧ in_use p w = true ∧ w ∉ borrowed <$> borrowings p ∧ (p_running p = true → w ∈ connections p);
  i_inj : ∀ w w' c, conn_of p w = Some c → conn_of p w' = Some c → w = w';
  i_fresh : ∀ w c, conn_of p w = Some c → (c < next_conn p)%nat;
  i_size : (length (connections p) ≤ limit)%nat;
}.

Lemma conn_of_set p i w j : (i < length (wrappers p))%nat → conn_of (set_wrapper i w p) j = if (j =? i)%nat then w_conn w else conn_of p j.
Proof.
  intros H. unfold conn_of. cbn. destruct (Nat.eqb_spec j i) as [-> | Hne]; [by rewrite list_lookup_insert_eq | by rewrite list_lookup_insert_ne].
Qed.

Lemma in_use_set p i w j : (i < length (wrappers p))%nat → in_use (set_wrapper i w p) j = if (j =? i)%nat then w_in_use w else in_use p j.
Proof.
  intros H. unfold in_use. cbn. destruct (Nat.eqb_spec j i) as [-> | Hne]; [by rewrite list_lookup_insert_eq | by rewrite list_lookup_insert_ne].
Qed.

Lemma conn_of_known p w c : conn_of p w = Some c → (w < length (wrappers p))%nat.
Proof. unfold conn_of. destruct (wrappers p !! w) eqn:E; [intros _; by eapply lookup_lt_Some | done]. Qed.

(** Two pools with the same wrappers. *)
Lemma same_wrappers p q : wrappers p = wrappers q → (∀ w, conn_of p w = conn_of q w) ∧ (∀ w, in_use p w = in_use q w).
Proof. intros E. unfold conn_of, in_use. by rewrite E. Qed.

Lemma take_inv p w rest ping now :
  PoolInv p → available p = w :: rest →
  PoolInv (set_borrowings (borrowings p ++ [BCheck w ping]) (set_wrapper w (mkWrapper (conn_of p w) now true) (set_available rest p))).
Proof.
  intros [] Ha. assert (w ∈ available p) as Hw by (rewrite Ha; left). destruct (i_free0 w Hw) as (Hc & Hu & Hs). pose proof (i_known0 w Hc) as Hl.
  rewrite Ha in i_avail0. apply list.NoDup_cons in i_avail0 as [Hn Hnd].
  set (p' := set_borrowings _ _).
  assert (∀ j, conn_of p' j = conn_of p j) as Ec.
  { intros j. change (conn_of p' j) with (conn_of (set_wrapper w (mkWrapper (conn_of p w) now true) (set_available rest p)) j).
    rewrite conn_of_set by done. cbn [w_conn]. by destruct (Nat.eqb_spec j w) as [-> |]. }
  assert (∀ j, in_use p' j = (j =? w)%nat || in_use p j) as Eu.
  { intros j. change (in_use p' j) with (in_use (set_wrapper w (mkWrapper (conn_of p w) now true) (set_available rest p)) j).
    rewrite in_use_set by done. cbn [w_in_use]. by destruct (j =? w)%nat. }
  assert (w ∉ borrowed <$> borrowings p) as Hwb.
  { intros (b & -> & Hb)%list_elem_of_fmap. destruct (i_busy0 b Hb) as (_ & H & _). congruence. }
  constructor; cbn [connections wrappers available next_conn borrowings lent p_running p' set_borrowings set_wrapper set_available]; rewrite ?length_insert; try done.
  - intros v Hv. rewrite Ec, Eu. destruct (i_free0 v) as (H1 & H2 & H3); [rewrite Ha; by right |]. split; [done |]. split; [| done].
    rewrite H2. destruct (Nat.eqb_spec v w) as [-> |]; done.
  - rewrite fmap_app. cbn. apply list.NoDup_app. split; [done |]. split; [| apply list.NoDup_singleton]. intros x Hx ->%list_elem_of_singleton. done.
  - intros b [Hb | ->%list_elem_of_singleton]%elem_of_app; rewrite Eu; cbn [borrowed]; [| by rewrite Nat.eqb_refl].
    destruct (i_busy0 b Hb) as (H1 & H2 & H3). rewrite H2, orb_true_r. done.
  - intros v [Hv | Hv%list_elem_of_singleton]%elem_of_app; [| done]. rewrite Ec. by apply i_empty0.
  - intros c Hcl. destruct (i_held0 c Hcl) as (v & H1 & H2 & H3 & H4). exists v. rewrite Ec, Eu, H2, orb_true_r, fmap_app. split; [done |]. split; [done |]. split; [| done].
    cbn. intros [? | ->%list_elem_of_singleton]%elem_of_app; [done | congruence].
  - intros v v' c. rewrite !Ec. apply i_inj0.
  - intros v c. rewrite Ec. apply i_fresh0.
Qed.

Lemma expand_inv p now :
  PoolInv p → available p = [] → (length (connections p) < max_pool_size config)%nat → p_running p = true →
  PoolInv (mkPool true (wrappers p ++ [mkWrapper None now true]) (connections p ++ [length (wrappers p)]) [] (next_conn p)
             (borrowings p ++ [BExpand (length (wrappers p))]) (lent p)).
Proof.
  intros [] Ha Hl Hrun. set (n := length (wrappers p)). set (p' := mkPool _ _ _ _ _ _ _).
  assert (∀ j, conn_of p' j = conn_of p j ∧ in_use p' j = ((j =? n)%nat || in_use p j)) as E.
  { intros j. unfold conn_of, in_use. cbn. destruct (Nat.eqb_spec j n) as [-> | Hne].
    - rewrite list_lookup_middle by done. by rewrite (lookup_ge_None_2 (wrappers p)).
    - destruct (decide (j < n)%nat); [by rewrite lookup_app_l |].
      by rewrite !lookup_ge_None_2 by (rewrite ?length_app; cbn; lia). }
  assert (n ∉ connections p) as Hn by (intros H%i_known0; lia).
  assert (∀ b, b ∈ borrowings p → borrowed b ≠ n) as Hb by (intros b Hb; destruct (i_busy0 b Hb); lia).
  constructor; cbn [connections wrappers available next_conn borrowings lent p_running p']; rewrite ?length_app; try done.
  - apply list.NoDup_app. split; [done |]. split; [| apply list.NoDup_singleton]. intros x Hx ->%list_elem_of_singleton. done.
  - intros w [H | ->%list_elem_of_singleton]%elem_of_app; cbn; [specialize (i_known0 w H) |]; lia.
  - constructor.
  - by intros w []%not_elem_of_nil.
  - rewrite fmap_app. apply list.NoDup_app. split; [done |]. split; [| apply list.NoDup_singleton].
    intros x (b & -> & Hin)%list_elem_of_fmap Hx%list_elem_of_singleton. by apply (Hb b Hin).
  - intros b [Hin | ->%list_elem_of_singleton]%elem_of_app; rewrite (proj2 (E _)); cbn.
    + destruct (i_busy0 b Hin) as (H1 & H2 & H3). rewrite H2, orb_true_r. split; [lia |]. split; [done |]. intros _. apply elem_of_app. left. by apply H3.
    + fold n. rewrite Nat.eqb_refl. split; [lia |]. split; [done |]. intros _. apply elem_of_app. right. left.
  - intros w [H | [= ->]%list_elem_of_singleton]%elem_of_app; rewrite (proj1 (E _)); [by apply i_empty0 |]. unfold conn_of. by rewrite (lookup_ge_None_2 (wrappers p)) by (unfold n; lia).
  - intros c Hc. destruct (i_held0 c Hc) as (w & H1 & H2 & H3 & H4). exists w. destruct (E w) as [-> ->]. rewrite H2, orb_true_r, fmap_app.
    split; [done |]. split; [done |]. split; [| intros _; apply elem_of_app; left; by apply H4].
    intros [? | ->%list_elem_of_singleton]%elem_of_app; [done |]. cbn in H1. apply conn_of_known in H1. fold n in H1. lia.
  - intros w w' c. rewrite !(proj1 (E _)). apply i_inj0.
  - intros w c. rewrite (proj1 (E _)). apply i_fresh0.
  - cbn. unfold limit. lia.
Qed.

(** A borrowing in hand: its wrapper is in nobody else's. *)
Record Hand (p : Pool) (w : nat) : Prop := {
  h_inv : PoolInv p;
  h_known : (w < length (wrappers p))%nat;
  h_busy : in_use p w = true;
  h_alone : w ∉ borrowed <$> borrowings p;
  h_member : p_running p = true → w ∈ connections p;
  h_unlent : ∀ c, conn_of p w = Some c → c ∉ lent p;
}.

Lemma take_in_hand p k b : PoolInv p → borrowings p !! k = Some b → Hand (set_borrowings (delete k (borrowings p)) p) (borrowed b).
Proof.
  intros Hi Hk. pose proof Hi as []. assert (b ∈ borrowings p) as Hb by (by eapply list_elem_of_lookup_2).
  pose proof (delete_Permutation _ _ _ Hk) as Hp. rewrite Hp, fmap_cons in i_borrow0. apply list.NoDup_cons in i_borrow0 as [Hn Hnd].
  assert (∀ x, x ∈ delete k (borrowings p) → x ∈ borrowings p) as Hsub by (intros x Hx; rewrite Hp; by right).
  destruct (i_busy0 b Hb) as (B1 & B2 & B3). constructor; try done.
  - constructor; cbn; try done.
    + intros x Hx. apply i_busy0. by apply Hsub.
    + intros w Hw. apply i_empty0. by apply Hsub.
    + intros c Hc. destruct (i_held0 c Hc) as (w & H1 & H2 & H3 & H4). exists w. split; [done |]. split; [done |]. split; [| done].
      intros (x & -> & Hx)%list_elem_of_fmap. apply H3. apply list_elem_of_fmap. exists x. split; [done | by apply Hsub].
  - cbn. intros c Hc Hl. destruct (i_held0 c Hl) as (w & H1 & _ & H3 & _). apply H3. rewrite (i_inj0 w (borrowed b) c H1 Hc).
    apply list_elem_of_fmap. by exists b.
Qed.

Lemma hand_free p w : Hand p w → w ∉ available p.
Proof. intros [[] ? Hb ? ? ?] H%i_free0. destruct H as (_ & H & _). congruence. Qed.

Lemma lend_inv p w c : Hand p w → conn_of p w = Some c → PoolInv (set_lent (c :: lent p) p).
Proof.
  intros [[] H1 H2 H3 H4 H5] Hc. constructor; cbn; try done.
  - apply list.NoDup_cons. split; [by apply H5 | done].
  - intros d [-> | Hd]%elem_of_cons; [by exists w | by apply i_held0].
Qed.

(** The wrapper in hand gets a fresh connection. *)
Lemma install_hand p w now :
  Hand p w → Hand (take_number (set_wrapper w (mkWrapper (Some (next_conn p)) now true) p)) w.
Proof.
  intros Hh. pose proof (hand_free p w Hh) as Hfree. pose proof Hh as [[] H1 H2 H3 H4 H5]. set (n := next_conn p). set (p' := take_number _).
  assert (∀ j, conn_of p' j = if (j =? w)%nat then Some n else conn_of p j) as Ec by (intros j; by apply (conn_of_set p w (mkWrapper (Some n) now true) j)).
  assert (∀ j, in_use p' j = if (j =? w)%nat then true else in_use p j) as Eu by (intros j; by apply (in_use_set p w (mkWrapper (Some n) now true) j)).
  assert (∀ j, j ≠ w → conn_of p' j = conn_of p j ∧ in_use p' j = in_use p j) as E.
  { intros j Hj. rewrite Ec, Eu. by destruct (Nat.eqb_spec j w). }
  assert (∀ c v, conn_of p v = Some c → c ≠ n) as Hfresh by (intros c v Hv%i_fresh0; lia).
  constructor; [constructor | | | | |];
    cbn [connections wrappers available next_conn borrowings lent p_running p' take_number set_wrapper]; rewrite ?length_insert, ?Eu, ?Nat.eqb_refl; try done.
  - intros v Hv. destruct (E v) as [-> ->]; [congruence |]. by apply i_free0.
  - intros b Hb. destruct (E (borrowed b)) as [_ ->]; [intros Eb; apply H3; rewrite <- Eb; apply list_elem_of_fmap; by exists b |]. by apply i_busy0.
  - intros v Hv. destruct (E v) as [-> _]; [intros Eb; apply H3; rewrite <- Eb; apply list_elem_of_fmap; by exists (BExpand v) |]. by apply i_empty0.
  - intros c Hc. destruct (i_held0 c Hc) as (v & V1 & V2 & V3 & V4). assert (v ≠ w) as Hne by (intros ->; by apply (H5 c)).
    exists v. destruct (E v Hne) as [-> ->]. done.
  - intros v v' c. rewrite !Ec. destruct (Nat.eqb_spec v w), (Nat.eqb_spec v' w); subst; try done.
    + intros [= <-] Hv. by destruct (Hfresh _ _ Hv).
    + intros Hv [= <-]. by destruct (Hfresh _ _ Hv).
    + apply i_inj0.
  - intros v c. rewrite Ec. destruct (Nat.eqb_spec v w); [intros [= <-]; lia | intros Hv%i_fresh0; lia].
  - intros c. rewrite Ec, Nat.eqb_refl. intros [= <-] Hl. destruct (i_held0 _ Hl) as (v & V1 & _). by destruct (Hfresh _ _ V1).
Qed.

(** The wrapper in hand is left without a connection. *)
Lemma drop_hand p w now : Hand p w → PoolInv (set_wrapper w (mkWrapper None now false) p).
Proof.
  intros Hh. pose proof (hand_free p w Hh) as Hfree. pose proof Hh as [[] H1 H2 H3 H4 H5]. set (p' := set_wrapper _ _ p).
  assert (∀ j, conn_of p' j = if (j =? w)%nat then None else conn_of p j) as Ec by (intros j; by apply conn_of_set).
  assert (∀ j, j ≠ w → conn_of p' j = conn_of p j ∧ in_use p' j = in_use p j) as E.
  { intros j Hj. unfold p'. rewrite conn_of_set, in_use_set by done. by destruct (Nat.eqb_spec j w). }
  constructor; cbn [connections wrappers available next_conn borrowings lent p_running p' set_wrapper]; rewrite ?length_insert; try done.
  - intros v Hv. destruct (E v) as [-> ->]; [congruence |]. by apply i_free0.
  - intros b Hb. destruct (E (borrowed b)) as [_ ->]; [intros Eb; apply H3; rewrite <- Eb; apply list_elem_of_fmap; by exists b |]. by apply i_busy0.
  - intros v Hv. rewrite Ec. destruct (v =? w)%nat; [done |]. by apply i_empty0.
  - intros c Hc. destruct (i_held0 c Hc) as (v & V1 & V2 & V3 & V4). assert (v ≠ w) as Hne by (intros ->; by apply (H5 c)).
    exists v. destruct (E v Hne) as [-> ->]. done.
  - intros v v' c. rewrite !Ec. destruct (Nat.eqb_spec v w), (Nat.eqb_spec v' w); try done. apply i_inj0.
  - intros v c. rewrite Ec. destruct (Nat.eqb_spec v w); [done | apply i_fresh0].
Qed.

Lemma filter_out (l : list nat) w : (∀ v, v ∈ List.filter (λ i, negb (i =? w)%nat) l ↔ v ∈ l ∧ v ≠ w) ∧ (NoDup l → NoDup (List.filter (λ i, negb (i =? w)%nat) l)) ∧
  (length (List.filter (λ i, negb (i =? w)%nat) l) ≤ length l)%nat.
Proof.
  split; [| split].
  - intros v. rewrite !list_elem_of_In, List.filter_In, negb_true_iff, Nat.eqb_neq. done.
  - rewrite !NoDup_ListNoDup. apply NoDup_filter.
  - apply filter_length_le.
Qed.

(** A wrapper that nobody uses is taken out of the pool. *)
Lemma remove_inv p w :
  PoolInv p → in_use p w = false →
  PoolInv (set_connections (List.filter (λ i, negb (i =? w)%nat) (connections p)) (set_available (List.filter (λ i, negb (i =? w)%nat) (available p)) p)).
Proof.
  intros [] Hw. destruct (filter_out (connections p) w) as (C1 & C2 & C3). destruct (filter_out (available p) w) as (A1 & A2 & _).
  constructor; cbn [connections wrappers available next_conn borrowings lent p_running set_connections set_available]; auto.
  - intros v [Hv _]%C1. by apply i_known0.
  - intros v [Hv Hne]%A1. destruct (i_free0 v Hv) as (H1 & H2 & H3). split; [by apply C1 | done].
  - intros b Hb. destruct (i_busy0 b Hb) as (H1 & H2 & H3). split; [done |]. split; [done |]. intros Hr. apply C1. split; [by apply H3 |].
    intros E. rewrite E in H2. congruence.
  - intros c Hc. destruct (i_held0 c Hc) as (v & V1 & V2 & V3 & V4). exists v. split; [done |]. split; [done |]. split; [done |]. intros Hr. apply C1.
    split; [by apply V4 |]. intros ->. congruence.
  - lia.
Qed.

Lemma finish_inv k b p connected pings opens :
  PoolInv p → borrowings p !! k = Some b →
  PoolInv (finish_borrowing connected pings opens b (set_borrowings (delete k (borrowings p)) p)).2.
Proof.
  intros Hi Hk. pose proof (take_in_hand p k b Hi Hk) as Hh. set (p1 := set_borrowings _ p) in *. clearbody p1.
  assert (PoolInv (install (last_used p1 (borrowed b)) (borrowed b) p1).2) as Hinst.
  { unfold install. cbn [snd]. apply (lend_inv (take_number (set_wrapper (borrowed b) (mkWrapper (Some (next_conn p1)) (last_used p1 (borrowed b)) true) p1)) (borrowed b)); [by apply install_hand |].
    unfold conn_of. cbn. pose proof (h_known _ _ Hh) as Hk'. by rewrite (list_lookup_insert_eq _ _ _ Hk'). }
  assert (PoolInv (set_wrapper (borrowed b) (mkWrapper None (last_used p1 (borrowed b)) false) p1)) as Hdrop by (by apply drop_hand).
  destruct b as [w | w ping]; cbn [finish_borrowing borrowed] in *.
  - destruct opens; [done |]. cbn [snd]. set (p2 := set_wrapper _ _ p1) in *.
    assert (in_use p2 w = false) as Hu by (unfold p2, in_use; cbn; pose proof (h_known _ _ Hh) as Hk'; by rewrite (list_lookup_insert_eq _ _ _ Hk')).
    pose proof (remove_inv p2 w Hdrop Hu) as Hr. assert (List.filter (λ i, negb (i =? w)%nat) (available p2) = available p2) as Ea.
    { assert (w ∉ available p2) as Hna by (exact (hand_free p1 w Hh)). clear -Hna. induction (available p2) as [| x l IH]; [done |]. cbn.
      apply not_elem_of_cons in Hna as [H1 H2]. destruct (Nat.eqb_spec x w); [congruence |]. cbn. by rewrite IH. }
    rewrite Ea in Hr. exact Hr.
  - destruct (conn_of p1 w) as [c|] eqn:Ec; [| by destruct opens]. destruct (_ && _); [by apply (lend_inv p1 w) |]. by destruct opens.
Qed.

Lemma find_wrapper_spec p c l :
  match find_wrapper p c l with Some w => w ∈ l ∧ conn_of p w = Some c | None => ∀ w, w ∈ l → conn_of p w ≠ Some c end.
Proof.
  induction l as [| x l IH]; cbn [find_wrapper]; [by intros w []%not_elem_of_nil |]. case_bool_decide as E; [split; [left | done] |].
  destruct (find_wrapper p c l) as [w|]; [destruct IH; split; [by right | done] |]. intros w [-> | H]%elem_of_cons; [done | by apply IH].
Qed.

Lemma release_inv p k c now :
  PoolInv p → lent p !! k = Some c → PoolInv (release_connection now c (set_lent (delete k (lent p)) p)).
Proof.
  intros Hi Hk. pose proof Hi as []. pose proof (delete_Permutation _ _ _ Hk) as Hp. assert (c ∈ lent p) as Hc by (by eapply list_elem_of_lookup_2).
  rewrite Hp in i_lent0. apply list.NoDup_cons in i_lent0 as [Hn Hnd].
  assert (∀ x, x ∈ delete k (lent p) → x ∈ lent p) as Hsub by (intros x Hx; rewrite Hp; by right).
  set (p1 := set_lent _ p). assert (PoolInv p1) as Hi1 by (constructor; cbn; try done; intros d Hd; apply i_held0; by apply Hsub).
  unfold release_connection. pose proof (find_wrapper_spec p1 c (connections p1)) as Hf. destruct (find_wrapper p1 c (connections p1)) as [w|]; [| done].
  destruct Hf as [Hw Hcw]. change (conn_of p1 w) with (conn_of p w) in Hcw. destruct (i_held0 c Hc) as (v & V1 & V2 & V3 & V4).
  assert (v = w) as -> by (by eapply i_inj0). pose proof (conn_of_known p w c Hcw) as Hl.
  assert (w ∉ available p) as Hfree by (intros H%i_free0; destruct H as (_ & H & _); congruence).
  set (p2 := set_available _ _).
  assert (∀ j, conn_of p2 j = conn_of p j) as Ec.
  { intros j. unfold p2. change (conn_of (set_available ?a ?q) j) with (conn_of q j). rewrite conn_of_set by done. cbn [w_conn].
    change (conn_of p1 ?x) with (conn_of p x). by destruct (Nat.eqb_spec j w) as [-> |]. }
  assert (∀ j, in_use p2 j = if (j =? w)%nat then false else in_use p j) as Eu.
  { intros j. unfold p2. change (in_use (set_available ?a ?q) j) with (in_use q j). by rewrite in_use_set. }
  constructor; cbn [connections wrappers available next_conn borrowings lent p_running p2 p1 set_available set_wrapper set_lent]; rewrite ?length_insert; try done.
  - apply list.NoDup_app. split; [done |]. split; [| apply list.NoDup_singleton]. intros x Hx ->%list_elem_of_singleton. done.
  - intros x [Hx | ->%list_elem_of_singleton]%elem_of_app; rewrite Ec, Eu.
    + destruct (i_free0 x Hx) as (H1 & H2 & H3). by destruct (x =? w)%nat.
    + by rewrite Nat.eqb_refl, Hcw.
  - intros b Hb. rewrite Eu. destruct (Nat.eqb_spec (borrowed b) w) as [Eb |]; [| by apply i_busy0]. destruct V3. rewrite <- Eb. apply list_elem_of_fmap. by exists b.
  - intros x Hx. rewrite Ec. by apply i_empty0.
  - intros d Hd. destruct (i_held0 d (Hsub d Hd)) as (x & X1 & X2 & X3 & X4). exists x. rewrite Ec, Eu. split; [done |]. split; [| done].
    destruct (Nat.eqb_spec x w) as [-> |]; [| done]. congruence.
  - intros x y d. rewrite !Ec. apply i_inj0.
  - intros x d. rewrite Ec. apply i_fresh0.
Qed.

Lemma cleanup_inv now l p : PoolInv p → PoolInv (cleanup_loop config now l p).2.
Proof.
  revert p. induction l as [| w l IH]; intros p Hi; cbn [cleanup_loop]; [done |]. destruct (conn_of p w) as [c|]; [| by apply IH].
  destruct (in_use p w) eqn:Eu; cbn [negb andb]; [by apply IH |]. destruct (_ && _); [| by apply IH].
  specialize (IH _ (remove_inv p w Hi Eu)). by destruct (cleanup_loop config now l _) as [acts q].
Qed.

Lemma close_inv p : PoolInv p → PoolInv (close_pool p).2.
Proof.
  intros Hi. unfold close_pool. destruct (p_running p) eqn:Er; cbn [negb snd]; [| done]. destruct Hi. constructor; cbn; try done; try lia.
  - constructor.
  - by intros w []%not_elem_of_nil.
  - constructor.
  - by intros w []%not_elem_of_nil.
  - intros b Hb. destruct (i_busy0 b Hb) as (H1 & H2 & _). done.
  - intros c Hc. destruct (i_held0 c Hc) as (w & H1 & H2 & H3 & _). by exists w.
Qed.

Lemma step_inv e p : PoolInv p → PoolInv (pool_step config e p).2.
Proof.
  intros Hi. destruct e as [now | k c g o | k now | now |]; cbn [pool_step].
  - unfold get_locked. destruct (p_running p) eqn:Er; cbn [negb]; [| done]. destruct (available p) as [| w rest] eqn:Ea.
    + destruct (Nat.leb_spec (max_pool_size config) (length (connections p))); [done |]. by apply expand_inv.
    + by apply take_inv.
  - destruct (borrowings p !! k) as [b|] eqn:Eb; [| done]. by apply finish_inv.
  - destruct (lent p !! k) as [c|] eqn:El; [| done]. by apply release_inv.
  - unfold cleanup_idle_connections. destruct (_ <=? _)%nat; [done | by apply cleanup_inv].
  - by apply close_inv.
Qed.

Lemma pool_run_inv es p : PoolInv p → PoolInv (run_pool config es p).2.
Proof.
  revert p. induction es as [| e es IH]; intros p Hi; cbn [run_pool]; [done |]. pose proof (step_inv e p Hi) as H.
  destruct (pool_step config e p) as [a q]. specialize (IH q H). by destruct (run_pool config es q) as [a2 q2].
Qed.
End Invariant.

Lemma initialize_inv config now opens p :
  PoolInv config p → borrowings p = [] → lent p = [] → p_running p = true → (length (connections p) + length opens ≤ limit config)%nat →
  PoolInv config (initialize_loop now opens p).
Proof.
  revert p. induction opens as [| [] opens IH]; intros p Hi Hb Hl Hr Hs; cbn [initialize_loop length] in *; [done | | apply IH; try done; lia].
  destruct Hi. set (n := length (wrappers p)). set (p' := mkPool _ _ _ _ _ _ _).
  assert (∀ j, conn_of p' j = if (j =? n)%nat then Some (next_conn p) else conn_of p j) as Ec.
  { intros j. unfold conn_of. cbn. destruct (Nat.eqb_spec j n) as [-> | Hne]; [by rewrite list_lookup_middle |].
    destruct (decide (j < n)%nat); [by rewrite lookup_app_l |]. by rewrite !lookup_ge_None_2 by (rewrite ?length_app; cbn; lia). }
  assert (∀ j, j ≠ n → in_use p' j = in_use p j) as Eu.
  { intros j Hne. unfold in_use. cbn. destruct (decide (j < n)%nat); [by rewrite lookup_app_l |]. by rewrite !lookup_ge_None_2 by (rewrite ?length_app; cbn; lia). }
  assert (n ∉ connections p) as Hn by (intros H%i_known0; lia).
  assert (∀ c v, conn_of p v = Some c → c ≠ next_conn p) as Hfresh by (intros c v Hv%i_fresh0; lia).
  apply IH; try done; [| cbn; rewrite length_app; cbn; lia].
  constructor; cbn [connections wrappers available next_conn borrowings lent p_running p']; rewrite ?length_app; try (by constructor).
  - apply list.NoDup_app. split; [done |]. split; [| apply list.NoDup_singleton]. intros x Hx ->%list_elem_of_singleton. done.
  - intros w [H | ->%list_elem_of_singleton]%elem_of_app; cbn; [specialize (i_known0 w H) |]; lia.
  - apply list.NoDup_app. split; [done |]. split; [| apply list.NoDup_singleton]. intros x Hx ->%list_elem_of_singleton. by apply Hn, i_free0.
  - intros w [Hw | ->%list_elem_of_singleton]%elem_of_app; rewrite elem_of_app, Ec.
    + destruct (i_free0 w Hw) as (H1 & H2 & H3). assert (w ≠ n) as Hne by congruence. rewrite (Eu w Hne). destruct (Nat.eqb_spec w n); [done |]. auto.
    + rewrite Nat.eqb_refl. split; [right; left |]. split; [| done]. unfold in_use. cbn. by rewrite list_lookup_middle.
  - by intros b []%not_elem_of_nil.
  - by intros w []%not_elem_of_nil.
  - by intros c []%not_elem_of_nil.
  - intros w w' c. rewrite !Ec. destruct (Nat.eqb_spec w n), (Nat.eqb_spec w' n); subst; try done.
    + intros [= <-] Hv. by destruct (Hfresh _ _ Hv).
    + intros Hv [= <-]. by destruct (Hfresh _ _ Hv).
    + apply i_inj0.
  - intros w c. rewrite Ec. destruct (Nat.eqb_spec w n); [intros [= <-]; lia | intros Hv%i_fresh0; lia].
  - cbn. lia.
Qed.

Lemma initial_inv config now opens : PoolInv config (initialize_pool config now opens).
Proof.
  unfold initialize_pool. apply initialize_inv; try done; [| cbn; rewrite length_fmap, length_seq; unfold limit; lia].
  constructor; cbn; try (by constructor); try (by intros ? []%not_elem_of_nil); [by intros w w' c; unfold conn_of | by intros w c; unfold conn_of | lia].
Qed.

(** C15: a connection is in one pair of hands: at any time no connection is lent
    twice, and none that is lent can be handed out again, whatever borrowings,
    returns, failures, clean-ups and closing overlap. *)
Theorem connection_exclusive config now opens es :
  let p := (run_pool config es (initialize_pool config now opens)).2 in
  NoDup (lent p) ∧ ∀ c w, c ∈ lent p → w ∈ available p → conn_of p w ≠ Some c.
Proof.
  cbv zeta. destruct (pool_run_inv config es _ (initial_inv config now opens)). split; [done |]. intros c w Hc Hw Hcw.
  destruct (i_held0 c Hc) as (v & V1 & V2 & _). rewrite (i_inj0 v w c V1 Hcw) in V2. destruct (i_free0 w Hw) as (_ & H & _). congruence.
Qed.

(** The pool keeps to its size: it never has more slots than the configured
    maximum (or the initial number, if that is larger), and while it is open no
    more connections are lent than it has slots. *)
Theorem pool_size_bounded config now opens es :
  let p := (run_pool config es (initialize_pool config now opens)).2 in
  (length (connections p) ≤ max (initial_pool_size config) (max_pool_size config))%nat ∧
  (p_running p = true → (length (lent p) + length (available p) ≤ length (connections p))%nat).
Proof.
  cbv zeta. destruct (pool_run_inv config es _ (initial_inv config now opens)) as [H1 H2 H3 H4 H5 H6 H7 H8 H9 H10 H11 H12]. split; [exact H12 |].
  set (p := (run_pool _ _ _).2) in *. clearbody p. intros Hr.
  assert (∀ l, NoDup l → (∀ c, c ∈ l → c ∈ lent p) → ∃ ws, length ws = length l ∧ NoDup ws ∧
    ∀ w, w ∈ ws → w ∈ connections p ∧ in_use p w = true ∧ ∃ c, c ∈ l ∧ conn_of p w = Some c) as Hws.
  { intros l. induction l as [| c l IH]; intros Hnd Hsub; [exists []; split; [done |]; split; [constructor |]; by intros w []%not_elem_of_nil |].
    apply list.NoDup_cons in Hnd as [Hn Hnd]. destruct IH as (ws & W1 & W2 & W3); [done | intros d Hd; apply Hsub; by right |].
    destruct (H9 c) as (w & V1 & V2 & _ & V4); [apply Hsub; left |]. exists (w :: ws). cbn. split; [by rewrite W1 |]. split.
    - apply list.NoDup_cons. split; [| done]. intros Hin. destruct (W3 w Hin) as (_ & _ & d & Hd & Hcd). congruence.
    - intros v [-> | Hv]%elem_of_cons; [split; [by apply V4 |]; split; [done |]; exists c; split; [left | done] |].
      destruct (W3 v Hv) as (X1 & X2 & d & Hd & Hcd). split; [done |]. split; [done |]. exists d. split; [by right | done]. }
  destruct (Hws (lent p) H8 (λ _ H, H)) as (ws & W1 & W2 & W3). rewrite <- W1, <- length_app. apply submseteq_length, NoDup_submseteq.
  - apply list.NoDup_app. split; [done |]. split; [| done]. intros w Hw%W3 Ha%H4. destruct Hw as (_ & Hu & _), Ha as (_ & Hf & _). congruence.
  - intros w [Hw%W3 | Ha%H4]%elem_of_app; [apply Hw | apply Ha].
Qed.

(** ** Slots without a connection *)

(** All slots are taken by wrappers whose connection could not be replaced. *)
Definition exhausted (config : PoolConfig) (p : Pool) : Prop :=
  p_running p = true ∧ (max_pool_size config ≤ length (connections p))%nat ∧
  ∀ w, w ∈ connections p → conn_of p w = None ∧ in_use p w = false.

Record Idle (config : PoolConfig) (p : Pool) : Prop := {
  d_borrow : borrowings p = [];
  d_lent : lent p = [];
  d_avail : available p = [];
  d_slots : p_running p = true → (max_pool_size config ≤ length (connections p))%nat ∧ ∀ w, w ∈ connections p → conn_of p w = None;
}.

Lemma exhausted_idle config p : PoolInv config p → exhausted config p → Idle config p.
Proof.
  intros [] (Hr & Hs & Hd). constructor.
  - destruct (borrowings p) as [| b l] eqn:E; [done |]. destruct (i_busy0 b) as (_ & Hu & Hc); [left |]. destruct (Hd (borrowed b) (Hc Hr)). congruence.
  - destruct (lent p) as [| c l] eqn:E; [done |]. destruct (i_held0 c) as (w & _ & Hu & _ & Hc); [left |]. destruct (Hd w (Hc Hr)). congruence.
  - destruct (available p) as [| w l] eqn:E; [done |]. destruct (i_free0 w) as (Hc & _ & [c Hs']); [left |]. destruct (Hd w Hc). congruence.
  - intros _. split; [done |]. intros w Hw. by apply Hd.
Qed.

Lemma cleanup_dead config now l p : (∀ w, w ∈ l → conn_of p w = None) → cleanup_loop config now l p = ([], p).
Proof.
  induction l as [| w l IH]; intros H; cbn [cleanup_loop]; [done |]. rewrite H by left. apply IH. intros v Hv. apply H. by right.
Qed.

Lemma idle_step config e p : Idle config p → Idle config (pool_step config e p).2 ∧ ∀ c, Lend c ∉ (pool_step config e p).1.
Proof.
  intros Hi. pose proof Hi as [Hb Hl Ha Hs]. assert (∀ c, Lend c ∉ [NoConnection]) as Hno by (by intros c ?%list_elem_of_singleton).
  assert (∀ c : nat, Lend c ∉ []) as Hnil by (intros c; apply not_elem_of_nil).
  destruct e as [now | k c g o | k now | now |]; cbn [pool_step].
  - unfold get_locked. destruct (p_running p) eqn:Er; cbn [negb]; [| done]. rewrite Ha. destruct (Hs eq_refl) as [Hlen _]. apply Nat.leb_le in Hlen. by rewrite Hlen.
  - by rewrite Hb.
  - by rewrite Hl.
  - unfold cleanup_idle_connections. destruct (_ <=? _)%nat eqn:El; [done |]. destruct (p_running p) eqn:Er.
    + rewrite cleanup_dead; [done |]. by apply Hs.
    + assert (∀ l q, Idle config q → p_running q = false → Idle config (cleanup_loop config now l q).2 ∧ ∀ c, Lend c ∉ (cleanup_loop config now l q).1) as Hloop; [| by apply Hloop].
      intros l. induction l as [| w l IH]; intros q Hq Hrq; cbn [cleanup_loop]; [by split |]. destruct (conn_of q w) as [c|]; [| by apply IH].
      destruct (_ && _); [| by apply IH]. set (q' := set_connections _ _). destruct (IH q') as [I1 I2]; [| done |].
      * destruct Hq as [Q1 Q2 Q3 Q4]. constructor; cbn; try done; [by rewrite Q3 | congruence].
      * destruct (cleanup_loop config now l q') as [acts q'']. split; [done |]. intros d [? | Hd]%elem_of_cons; [done | by apply (I2 d)].
  - unfold close_pool. destruct (p_running p) eqn:Er; cbn [negb]; [| done]. split; [by constructor |].
    intros c (d & ? & _)%list_elem_of_fmap. done.
Qed.

(** Slots are not given back: when every slot of the pool belongs to a
    connection that went stale and could not be reopened, the pool never lends a
    connection again, even when the database is reachable again. *)
Theorem stale_slots_exhaust_pool config now opens es es' :
  exhausted config (run_pool config es (initialize_pool config now opens)).2 →
  ∀ c, Lend c ∉ (run_pool config es' (run_pool config es (initialize_pool config now opens)).2).1.
Proof.
  intros He. pose proof (exhausted_idle config _ (pool_run_inv config es _ (initial_inv config now opens)) He) as Hi. revert Hi.
  generalize (run_pool config es (initialize_pool config now opens)).2. clear He. induction es' as [| e es' IH]; intros p Hi c; cbn [run_pool]; [apply not_elem_of_nil |].
  destruct (idle_step config e p Hi) as [H1 H2]. destruct (pool_step config e p) as [a q]. specialize (IH q H1 c). destruct (run_pool config es' q) as [a2 q2].
  cbn [fst snd] in *. by apply not_elem_of_app.
Qed.

(** One slot; the connection is stale when it is wanted and the database is away
    for that moment. *)
Definition small_pool : PoolConfig := mkPoolConfig 1 1 600 30.

Lemma stale_slots_exhaust_pool_witness :
  let outage := [PGet 100; PFinish 0 true false false] in
  ∀ c, Lend c ∉ (run_pool small_pool [PGet 200; PFinish 0 true true true] (run_pool small_pool outage (initialize_pool small_pool 0 (λ _, true))).2).1.
Proof.
  intros outage. apply stale_slots_exhaust_pool. split; [reflexivity |]. split; [apply Nat.leb_le; reflexivity |].
  intros w Hw%list_elem_of_singleton. subst w. by vm_compute.
Defined.
