(* ===== verification/NodeFrame.v ===== *)
(** * Frames and trust of the node network

    Models the codecs of [node/node_link.cpp] (frames, the two payloads of the
    signed handshake, the signed text, the updates of the trust set) and
    [node/node_trust.cpp], the store of the neighbours a node trusts.  A [Reader]
    is what is left to read.

    The decoders accept exactly what the encoders write ([node_frame_roundtrip],
    [epoch_update_roundtrip]); the signed text of a handshake determines both
    sides and both nonces ([auth_message_agree]); a trust store never goes back to
    an older epoch ([apply_newer]). *)

From S2P Require Import Prelude.

Definition put32 (n : Z) : bytes := be_put 4 n.
Definition put64 (n : Z) : bytes := be_put 8 n.
Definition get32 (l : bytes) : Z := be_get (take 4 l).
Definition get64 (l : bytes) : Z := be_get (take 8 l).

Definition size (s : bytes) : Z := Z.of_nat (length s).

Definition kNonceBytes : Z := 32.
Definition kSignatureBytes : Z := 64.
Definition kNonceCache : nat := 256.
Definition kAuthSep : bytes := s! "protorelay/node-auth/v1".

(** ** The reader *)

Definition Reader (A : Type) : Type := bytes → option (A * bytes).

Definition u8 : Reader Z := λ r, match r with [] => None | v :: r => Some (v, r) end.
Definition u32 : Reader Z := λ r, if size r <? 4 then None else Some (get32 r, drop 4 r).
Definition u64 : Reader Z := λ r, if size r <? 8 then None else Some (get64 r, drop 8 r).
Definition fixed (n : Z) : Reader bytes := λ r,
  if n >? size r then None else Some (take (Z.to_nat n) r, drop (Z.to_nat n) r).
Definition sized : Reader bytes := λ r, '(n, r) ← u32 r; fixed n r.
Definition drained (r : bytes) : bool := match r with [] => true | _ => false end.

(** [n] items one after the other.  Every item takes at least a byte, so a
    length of the input is fuel enough ([many_fuel]). *)
Fixpoint many {A} (item : Reader A) (fuel : nat) (n : Z) (r : bytes) : option (list A * bytes) :=
  if n <=? 0 then Some ([], r) else
  match fuel with
  | O => None
  | S fuel =>
      '(x, r) ← item r;
      '(xs, r) ← many item fuel (n - 1) r;
      Some (x :: xs, r)
  end.

(** ** Frames *)

Inductive FrameType := hello | ping | pong | request | response | notify | epoch_config | hello_auth.

#[export] Instance FrameType_eq_dec : EqDecision FrameType.
Proof. solve_decision. Defined.

Definition frame_byte (t : FrameType) : Z :=
  match t with hello => 1 | ping => 2 | pong => 3 | request => 4 | response => 5 | notify => 6 | epoch_config => 7 | hello_auth => 8 end.

Definition frame_of_byte (b : Z) : option FrameType :=
  match b with 1 => Some hello | 2 => Some ping | 3 => Some pong | 4 => Some request | 5 => Some response | 6 => Some notify
             | 7 => Some epoch_config | 8 => Some hello_auth | _ => None end.

Record Frame := mkFrame { f_type : FrameType; f_id : Z; f_payload : bytes }.

(** [None] is the [length_error]. *)
Definition encode_frame (frame : Frame) : option bytes :=
  if size (f_payload frame) >? 2 ^ 32 - 1 - 10 then None else
  Some (put32 (to_u32 (10 + size (f_payload frame))) ++ [1; frame_byte (f_type frame)] ++ put64 (f_id frame) ++ f_payload frame).

Definition decode_frame (body : bytes) (max_frame_bytes : Z) : option Frame :=
  if (size body <? 10) || (size body >? max_frame_bytes) || negb (nth 0 body 0 =? 1) then None else
  t ← frame_of_byte (nth 1 body 0);
  let id := get64 (drop 2 body) in
  let carries_id := bool_decide (t = request ∨ t = response) in
  if (if carries_id then id =? 0 else negb (id =? 0)) then None else
  Some (mkFrame t id (drop 10 body)).

(** ** The handshake *)

Definition encode_challenge (node_id : bytes) (epoch : Z) (nonce : bytes) : bytes :=
  [1] ++ put32 (to_u32 (size node_id)) ++ node_id ++ put64 epoch ++ nonce.

Definition decode_signed (n : Z) (payload : bytes) : option (bytes * Z * bytes) :=
  '(version, r) ← u8 payload;
  if negb (version =? 1) then None else
  '(node_id, r) ← sized r;
  '(epoch, r) ← u64 r;
  '(last, r) ← fixed n r;
  if drained r then Some (node_id, epoch, last) else None.

Definition decode_challenge : bytes → option (bytes * Z * bytes) := decode_signed kNonceBytes.

Definition encode_auth_response (node_id : bytes) (epoch : Z) (signature : bytes) : bytes :=
  [1] ++ put32 (to_u32 (size node_id)) ++ node_id ++ put64 epoch ++ signature.

Definition decode_auth_response : bytes → option (bytes * Z * bytes) := decode_signed kSignatureBytes.

(** [operator<] of [std::string]. *)
Fixpoint string_less (a b : bytes) : bool :=
  match a, b with
  | _, [] => false
  | [], _ :: _ => true
  | x :: a, y :: b => (x <? y) || ((x =? y) && string_less a b)
  end.

Definition auth_message (a_id a_nonce b_id b_nonce : bytes) : bytes :=
  let '(a_id, a_nonce, b_id, b_nonce) :=
    if string_less b_id a_id then (b_id, b_nonce, a_id, a_nonce) else (a_id, a_nonce, b_id, b_nonce) in
  kAuthSep ++ put32 (to_u32 (size a_id)) ++ a_id ++ a_nonce ++ put32 (to_u32 (size b_id)) ++ b_id ++ b_nonce.

(** ** Updates of the trust set *)

Record Neighbor := mkNeighbor { n_node_id : bytes; n_public_key : bytes }.

Record Snapshot := mkSnapshot { s_epoch : Z; s_neighbors : list Neighbor; s_revoked : list bytes }.

#[export] Instance Neighbor_eq_dec : EqDecision Neighbor.
Proof. solve_decision. Defined.
#[export] Instance Snapshot_eq_dec : EqDecision Snapshot.
Proof. solve_decision. Defined.

Definition put_sized (s : bytes) : bytes := put32 (to_u32 (size s)) ++ s.

Definition put_neighbor (n : Neighbor) : bytes := put_sized (n_node_id n) ++ n_public_key n.

Definition encode_epoch_update (s : Snapshot) : bytes :=
  [1] ++ put64 (s_epoch s) ++
  put32 (to_u32 (Z.of_nat (length (s_neighbors s)))) ++ mbind put_neighbor (s_neighbors s) ++
  put32 (to_u32 (Z.of_nat (length (s_revoked s)))) ++ mbind put_sized (s_revoked s).

Definition read_neighbor : Reader Neighbor := λ r,
  '(node_id, r) ← sized r;
  '(public_key, r) ← fixed 32 r;
  Some (mkNeighbor node_id public_key, r).

Definition decode_epoch_update (payload : bytes) : option (Snapshot * bytes) :=
  if size payload <? kSignatureBytes + 1 then None else
  '(version, r) ← u8 payload;
  if negb (version =? 1) then None else
  '(epoch, r) ← u64 r;
  '(neighbor_count, r) ← u32 r;
  '(neighbors, r) ← many read_neighbor (length r) neighbor_count r;
  '(revoked_count, r) ← u32 r;
  '(revoked, r) ← many sized (length r) revoked_count r;
  '(signature, r) ← fixed kSignatureBytes r;
  if drained r then Some (mkSnapshot epoch neighbors revoked, signature) else None.

(** ** The trust store *)

(** The listeners are the links that use the store. *)
Record TrustStore := mkTrust { controller_public_key : bytes; t_snapshot : Snapshot; t_listeners : list nat }.

Definition valid_key (key : bytes) : bool := size key =? 32.

Definition well_formed (ns : list Neighbor) : bool :=
  forallb (λ n, negb (bool_decide (n_node_id n = [])) && valid_key (n_public_key n)) ns.

Definition make_store (controller : bytes) (initial : Snapshot) : option TrustStore :=
  if valid_key controller && well_formed (s_neighbors initial) then Some (mkTrust controller initial []) else None.

Definition t_epoch (t : TrustStore) : Z := s_epoch (t_snapshot t).

Fixpoint find_key (node_id : bytes) (ns : list Neighbor) : bytes :=
  match ns with
  | [] => []
  | n :: ns => if bool_decide (n_node_id n = node_id) then n_public_key n else find_key node_id ns
  end.

Definition neighbor_key (t : TrustStore) (node_id : bytes) : bytes := find_key node_id (s_neighbors (t_snapshot t)).

Definition listed (ns : list Neighbor) (node_id : bytes) : bool := existsb (λ n, bool_decide (n_node_id n = node_id)) ns.

Definition trusts (t : TrustStore) (node_id : bytes) : bool := listed (s_neighbors (t_snapshot t)) node_id.

Inductive Apply :=
  | Stale
  | Malformed                            (* [invalid_argument] *)
  | Applied (t : TrustStore) (notified : list nat).

Definition apply_snapshot (next : Snapshot) (t : TrustStore) : Apply :=
  if s_epoch next <=? t_epoch t then Stale else
  if well_formed (s_neighbors next) then Applied (mkTrust (controller_public_key t) next (t_listeners t)) (t_listeners t) else Malformed.

Definition add_listener (i : nat) (t : TrustStore) : TrustStore :=
  mkTrust (controller_public_key t) (t_snapshot t) (t_listeners t ++ [i]).

(** ** Readers and writers that undo each other *)

Class Codec {A} (item : Reader A) (enc : A → bytes) (ok : A → Prop) : Prop := {
  codec_read : ∀ x r, ok x → item (enc x ++ r) = Some (x, r);
  codec_exact : ∀ s x r, bytes_ok s → item s = Some (x, r) → s = enc x ++ r ∧ ok x;
}.

Lemma codec_rest {A} (item : Reader A) enc ok `{!Codec item enc ok} s x r : bytes_ok s → item s = Some (x, r) → bytes_ok r.
Proof. intros Hs H. destruct (codec_exact s x r Hs H) as [-> _]. by apply bytes_ok_app in Hs as [_ ?]. Qed.

Lemma be_codec k s : bytes_ok s → (k ≤ length s)%nat → s = be_put k (be_get (take k s)) ++ drop k s ∧ 0 ≤ be_get (take k s) < 256 ^ Z.of_nat k.
Proof.
  intros Hs Hk. assert (length (take k s) = k) as E by (rewrite length_take; lia). split.
  - rewrite <-(take_drop k s) at 1. f_equal. rewrite <-E at 2. symmetry. apply be_put_get. auto with proto.
  - rewrite <-E at 3. apply be_get_range. auto with proto.
Qed.

#[export] Instance u32_codec : Codec u32 put32 u32_ok.
Proof.
  split; unfold u32, put32, get32, size.
  - intros x r Hx. rewrite length_app, length_be_put. rewrite (proj2 (Z.ltb_ge _ _)) by lia.
    rewrite take_app_length', drop_app_length' by (by rewrite length_be_put). by rewrite be_get_put_id.
  - intros s x r Hs H. guards H. injection H as <- <-. destruct (be_codec 4 s) as [E1 E2]; [done | lia |]. by split.
Qed.

#[export] Instance u64_codec : Codec u64 put64 u64_ok.
Proof.
  split; unfold u64, put64, get64, size.
  - intros x r Hx. rewrite length_app, length_be_put. rewrite (proj2 (Z.ltb_ge _ _)) by lia.
    rewrite take_app_length', drop_app_length' by (by rewrite length_be_put). by rewrite be_get_put_id.
  - intros s x r Hs H. guards H. injection H as <- <-. destruct (be_codec 8 s) as [E1 E2]; [done | lia |]. by split.
Qed.

#[export] Instance fixed_codec n : 0 ≤ n → Codec (fixed n) id (λ s, size s = n).
Proof.
  intros Hn. split; unfold fixed, size.
  - cbn. intros x r Hx. rewrite length_app, Z.gtb_ltb, (proj2 (Z.ltb_ge _ _)) by lia.
    rewrite take_app_length', drop_app_length' by lia. done.
  - intros s x r Hs H. guards H. injection H as <- <-. cbn. rewrite take_drop, length_take. split; [done | lia].
Qed.

Definition short (s : bytes) : Prop := size s < 2 ^ 32.

#[export] Instance sized_codec : Codec sized put_sized short.
Proof.
  split; unfold sized, put_sized, short.
  - intros x r Hx. rewrite <-app_assoc, to_u32_id, codec_read by (unfold u32_ok, size in *; lia). cbn.
    by apply (codec_read (Codec := fixed_codec (size x) ltac:(unfold size; lia)) x r).
  - intros s x r Hs H. destruct (u32 s) as [[n r1] |] eqn:E; [| done]. cbn in H. pose proof (codec_rest _ _ _ _ _ _ Hs E) as Hr.
    apply codec_exact in E as [-> Hn]; [| done]. unfold u32_ok in Hn.
    apply (codec_exact (Codec := fixed_codec n (proj1 Hn))) in H as [-> Hx]; [| done]. unfold id.
    rewrite Hx, to_u32_id by done. rewrite <-app_assoc. split; [done | lia].
Qed.

Definition neighbor_ok (n : Neighbor) : Prop := short (n_node_id n) ∧ size (n_public_key n) = 32.

#[export] Instance neighbor_codec : Codec read_neighbor put_neighbor neighbor_ok.
Proof.
  split; unfold read_neighbor, put_neighbor, neighbor_ok.
  - intros [i k] r [H1 H2]. cbn [n_node_id n_public_key] in *. rewrite <-app_assoc, codec_read by done. cbn.
    pose proof (codec_read (Codec := fixed_codec 32 ltac:(lia)) k r H2) as E. unfold id in E. by rewrite E.
  - intros s x r Hs H. destruct (sized s) as [[i r1] |] eqn:E; [| done]. cbn in H. pose proof (codec_rest _ _ _ _ _ _ Hs E) as Hr.
    destruct (fixed 32 r1) as [[k r2] |] eqn:E2; [| done]. cbn in H. injection H as <- <-.
    apply codec_exact in E as [-> Hi]; [| done]. apply (codec_exact (Codec := fixed_codec 32 ltac:(lia))) in E2 as [-> Hk]; [| done].
    unfold id. cbn [n_node_id n_public_key]. rewrite <-app_assoc. done.
Qed.

(** Lists of items. *)
Section Many.
Context {A} (item : Reader A) (enc : A → bytes) (ok : A → Prop) `{!Codec item enc ok}.
Context (enc_some : ∀ x, (0 < length (enc x))%nat).

Lemma many_read xs : ∀ fuel r, Forall ok xs → (length xs ≤ fuel)%nat → many item fuel (Z.of_nat (length xs)) (mbind enc xs ++ r) = Some (xs, r).
Proof.
  induction xs as [| x xs IH]; intros fuel r Hx Hf; [by destruct fuel |]. inversion Hx as [| ? ? H1 H2]; subst.
  destruct fuel as [| fuel]; cbn [length] in Hf; [lia |]. cbn [many]. rewrite (proj2 (Z.leb_gt _ _)) by (cbn [length]; lia).
  rewrite bind_cons, <-app_assoc, codec_read by done. cbn [mbind option_bind].
  replace (Z.of_nat (length (x :: xs)) - 1) with (Z.of_nat (length xs)) by (cbn [length]; lia). change (list_bind _ _) with (mbind (M := list) (B := Z) enc). rewrite IH by (done || lia). done.
Qed.

Lemma many_exact fuel : ∀ n s xs r, 0 ≤ n → bytes_ok s → many item fuel n s = Some (xs, r) → s = mbind enc xs ++ r ∧ Forall ok xs ∧ n = Z.of_nat (length xs).
Proof.
  induction fuel as [| fuel IH]; intros n s xs r Hn Hs H; cbn [many] in H; destruct (n <=? 0) eqn:En; bool_prop; try done.
  - injection H as <- <-. split; [done |]. split; [constructor | cbn; lia].
  - injection H as <- <-. split; [done |]. split; [constructor | cbn; lia].
  - destruct (item s) as [[x r1] |] eqn:E; [| done]. cbn in H. pose proof (codec_rest _ _ _ _ _ _ Hs E) as Hr.
    destruct (many item fuel (n - 1) r1) as [[ys r2] |] eqn:E2; [| done]. cbn in H. injection H as <- <-.
    apply IH in E2 as (-> & Hys & Hl); [| lia | done]. apply codec_exact in E as [-> Hx]; [| done].
    rewrite bind_cons, <-app_assoc. split; [done |]. split; [by constructor | cbn [length]; lia].
Qed.

Lemma length_many xs : (length xs ≤ length (mbind enc xs))%nat.
Proof.
  induction xs as [| x xs IH]; [done |]. rewrite bind_cons, length_app. specialize (enc_some x). cbn [length]. lia.
Qed.

(** With the length of the input as fuel the loop ends for its own reasons. *)
Lemma many_fuel fuel : ∀ n s, 0 ≤ n → bytes_ok s → (length s ≤ fuel)%nat → many item fuel n s = many item (S fuel) n s.
Proof.
  induction fuel as [| fuel IH]; intros n s Hn Hs Hf.
  - destruct s; [| cbn in Hf; lia]. cbn. destruct (n <=? 0); [done |]. destruct (item []) as [[x r] |] eqn:E; [| done].
    apply codec_exact in E as [E _]; [| done]. specialize (enc_some x). apply (f_equal length) in E. rewrite length_app in E. cbn in E. lia.
  - cbn [many]. destruct (n <=? 0) eqn:En; bool_prop; [done |]. destruct (item s) as [[x r] |] eqn:E; [| done]. cbn [mbind option_bind].
    pose proof (codec_rest _ _ _ _ _ _ Hs E) as Hr. apply codec_exact in E as [-> _]; [| done]. specialize (enc_some x). rewrite length_app in Hf.
    rewrite IH by (done || lia). done.
Qed.
End Many.

Lemma put_sized_some s : (0 < length (put_sized s))%nat.
Proof. unfold put_sized, put32. rewrite length_app, length_be_put. lia. Qed.

Lemma put_neighbor_some n : (0 < length (put_neighbor n))%nat.
Proof. unfold put_neighbor. rewrite length_app. pose proof (put_sized_some (n_node_id n)). lia. Qed.

(** ** The decoders accept exactly what the encoders write *)

(** Reading one more field. *)
Lemma bind_codec {A B} (item : Reader A) enc ok `{!Codec item enc ok} (k : A → bytes → option B) x r :
  ok x → ('(x, r) ← item (enc x ++ r); k x r) = k x r.
Proof. intros H. by rewrite codec_read. Qed.

Lemma bind_exact {A B} (item : Reader A) enc ok `{!Codec item enc ok} (k : A → bytes → option B) s y :
  bytes_ok s → ('(x, r) ← item s; k x r) = Some y → ∃ x r, s = enc x ++ r ∧ ok x ∧ bytes_ok r ∧ k x r = Some y.
Proof.
  intros Hs H. destruct (item s) as [[x r] |] eqn:E; [| done]. exists x, r.
  pose proof (codec_rest _ _ _ _ _ _ Hs E). by destruct (codec_exact s x r Hs E).
Qed.

Lemma reader_drained r : drained r = true → r = [].
Proof. by destruct r. Qed.

Lemma decode_signed_read n node_id epoch last :
  0 ≤ n → short node_id → u64_ok epoch → size last = n →
  decode_signed n ([1] ++ put32 (to_u32 (size node_id)) ++ node_id ++ put64 epoch ++ last) = Some (node_id, epoch, last).
Proof.
  intros Hn Hi He Hl. unfold decode_signed. cbn [app u8 mbind option_bind]. rewrite Z.eqb_refl. cbn [negb].
  pose proof (bind_codec sized put_sized short (λ i r, '(e, r) ← u64 r; '(l, r) ← fixed n r; if drained r then Some (i, e, l) else None)
    node_id (put64 epoch ++ last) Hi) as E. unfold put_sized in E. rewrite <-app_assoc in E. rewrite E.
  rewrite (bind_codec u64 put64 u64_ok (λ e r, '(l, r) ← fixed n r; if drained r then Some (node_id, e, l) else None) epoch last He).
  pose proof (codec_read (Codec := fixed_codec n Hn) last [] Hl) as E2. unfold id in E2. rewrite app_nil_r in E2. by rewrite E2.
Qed.

Lemma decode_signed_exact n payload node_id epoch last :
  0 ≤ n → bytes_ok payload → decode_signed n payload = Some (node_id, epoch, last) →
  payload = [1] ++ put32 (to_u32 (size node_id)) ++ node_id ++ put64 epoch ++ last ∧ short node_id ∧ u64_ok epoch ∧ size last = n.
Proof.
  intros Hn Hs H. unfold decode_signed in H. destruct payload as [| v r]; [done |]. cbn [u8 mbind option_bind] in H.
  inversion Hs as [| ? ? Hv Hr]; subst. case_hyp H; [done |]. bool_prop. subst v.
  apply (bind_exact sized put_sized short) in H as (i & r1 & -> & Hi & Hr1 & H); [| done].
  apply (bind_exact u64 put64 u64_ok) in H as (e & r2 & -> & He & Hr2 & H); [| done].
  pose proof (fixed_codec n Hn) as Hc. apply (bind_exact (fixed n) id (λ s, size s = n)) in H as (l & r3 & -> & Hl & Hr3 & H); [| done].
  unfold id in *. case_hyp H; [| done]. match goal with Hd : drained _ = true |- _ => apply reader_drained in Hd as -> end.
  injection H as <- <- <-. rewrite app_nil_r. unfold put_sized. rewrite <-!app_assoc. done.
Qed.

Definition frame_ok (f : Frame) : Prop :=
  u64_ok (f_id f) ∧ (f_id f ≠ 0 ↔ f_type f = request ∨ f_type f = response).

Lemma frame_of_to t : frame_of_byte (frame_byte t) = Some t.
Proof. by destruct t. Qed.

Lemma frame_to_of b t : frame_of_byte b = Some t → b = frame_byte t.
Proof. intros H. unfold frame_of_byte in H. repeat (case_hyp H; try discriminate H); by injection H as <-. Qed.

(** A frame is read from exactly the bytes it is written to: the body behind the
    length field, for every frame whose id is not zero exactly on requests and
    responses, within the limit. *)
Theorem node_frame_roundtrip body max f :
  bytes_ok body → max ≤ 2 ^ 32 - 1 →
  decode_frame body max = Some f ↔ frame_ok f ∧ size body ≤ max ∧ encode_frame f = Some (put32 (size body) ++ body).
Proof.
  intros Hb Hm. unfold decode_frame, encode_frame, frame_ok. split.
  - intros H. case_hyp H; [done |]. bool_prop. destruct body as [| v [| t r]]; try (unfold size in *; cbn [length] in *; lia).
    cbn [nth drop] in *. subst v. destruct (frame_of_byte t) as [ft |] eqn:Et; [| done]. apply frame_to_of in Et as ->. cbn [mbind option_bind] in H.
    case_hyp H; [done |]. injection H as <-. cbn [f_id f_type f_payload]. unfold get64 in *.
    inversion Hb as [| ? ? _ Hb2]; subst. inversion Hb2 as [| ? ? _ Hr]; subst. unfold size in *. cbn [length] in *.
    destruct (be_codec 8 r) as [E1 E2]; [done | lia |]. rewrite length_drop. split; [split; [done |] |].
    + case_bool_decide; bool_prop; split; intros ?; (done || congruence).
    + split; [lia |]. rewrite Z.gtb_ltb, (proj2 (Z.ltb_ge _ _)) by lia. rewrite to_u32_id by (unfold u32_ok; lia).
      f_equal. replace (10 + Z.of_nat (length r - 8)) with (Z.of_nat (S (S (length r)))) by lia. f_equal. cbn [app]. do 2 f_equal. unfold put64. by rewrite drop_0, <-E1.
  - intros ([Hi Ht] & Hs & H). case_hyp H; [done |]. bool_prop.
    assert (body = [1; frame_byte (f_type f)] ++ put64 (f_id f) ++ f_payload f) as ->.
    { apply (f_equal (default [])) in H. cbn [default] in H. symmetry in H. apply app_inj_1 in H as [_ H]; [done | unfold put32; by rewrite !length_be_put]. }
    unfold size in Hs. rewrite !length_app in Hs. unfold put64 in *. rewrite length_be_put in Hs. cbn [length] in Hs.
    rewrite (proj2 (Z.ltb_ge _ _)) by (unfold size; rewrite !length_app, length_be_put; cbn [length]; lia).
    rewrite Z.gtb_ltb, (proj2 (Z.ltb_ge _ _)) by (unfold size; rewrite !length_app, length_be_put; cbn [length]; lia).
    cbn [app nth orb negb drop]. rewrite Z.eqb_refl, frame_of_to. cbn [negb mbind option_bind].
    unfold get64. rewrite drop_0, take_app_length', drop_app_length' by (by rewrite length_be_put). rewrite be_get_put_id by done.
    destruct f as [t i p]. cbn [f_id f_type f_payload] in *. destruct (bool_decide (t = request ∨ t = response)) eqn:E; bool_prop.
    + apply Ht in E. by rewrite (proj2 (Z.eqb_neq _ _)).
    + destruct (Z.eqb_spec i 0) as [-> | Hne]; [done |]. by apply Ht in Hne.
Qed.

Definition snapshot_ok (s : Snapshot) : Prop :=
  u64_ok (s_epoch s) ∧ Z.of_nat (length (s_neighbors s)) < 2 ^ 32 ∧ Forall neighbor_ok (s_neighbors s) ∧
  Z.of_nat (length (s_revoked s)) < 2 ^ 32 ∧ Forall short (s_revoked s).

(** An update is read from exactly the bytes it is written to, followed by 64
    bytes of signature.  So the bytes in front of the signature, which the
    controller signed, are the encoding of what is applied. *)
Theorem epoch_update_roundtrip payload s signature :
  bytes_ok payload →
  decode_epoch_update payload = Some (s, signature) ↔
  payload = encode_epoch_update s ++ signature ∧ snapshot_ok s ∧ size signature = kSignatureBytes.
Proof.
  intros Hb. unfold decode_epoch_update, encode_epoch_update, snapshot_ok, kSignatureBytes. split.
  - intros H. case_hyp H; [done |]. bool_prop. destruct payload as [| v r]; [done |]. cbn [u8 mbind option_bind] in H.
    inversion Hb as [| ? ? Hv Hr]; subst. case_hyp H; [done |]. bool_prop. subst v.
    apply (bind_exact u64 put64 u64_ok) in H as (e & r1 & -> & He & Hr1 & H); [| done].
    apply (bind_exact u32 put32 u32_ok) in H as (nc & r2 & -> & Hnc & Hr2 & H); [| done].
    destruct (many read_neighbor (length r2) nc r2) as [[ns r3] |] eqn:E; [| done]. cbn [mbind option_bind] in H.
    apply (many_exact _ put_neighbor neighbor_ok) in E as (-> & Hns & ->); [| unfold u32_ok in Hnc; lia | done].
    apply bytes_ok_app in Hr2 as [_ Hr3].
    apply (bind_exact u32 put32 u32_ok) in H as (rc & r4 & -> & Hrc & Hr4 & H); [| done].
    destruct (many sized (length r4) rc r4) as [[rs r5] |] eqn:E; [| done]. cbn [mbind option_bind] in H.
    apply (many_exact _ put_sized short) in E as (-> & Hrs & ->); [| unfold u32_ok in Hrc; lia | done].
    apply bytes_ok_app in Hr4 as [_ Hr5].
    pose proof (fixed_codec 64 ltac:(lia)) as Hc. apply (bind_exact (fixed 64) id (λ s, size s = 64)) in H as (l & r6 & -> & Hl & Hr6 & H); [| done].
    unfold id in *. case_hyp H; [| done]. match goal with Hd : drained _ = true |- _ => apply reader_drained in Hd as -> end.
    injection H as <- <-. cbn [s_epoch s_neighbors s_revoked]. unfold u32_ok in *. rewrite !to_u32_id by done. rewrite app_nil_r, <-!app_assoc.
    split; [done |]. split; [| done]. split; [done |]. split; [lia |]. split; [done |]. split; [lia | done].
  - intros (-> & (He & Hn & Hns & Hr & Hrs) & Hl). destruct s as [e ns rs]. cbn [s_epoch s_neighbors s_revoked] in *.
    rewrite !to_u32_id by (unfold u32_ok; lia). rewrite <-!app_assoc.
    rewrite (proj2 (Z.ltb_ge _ _)) by (unfold size in *; rewrite !length_app; cbn [length]; lia).
    cbn [app u8 mbind option_bind]. rewrite Z.eqb_refl. cbn [negb].
    rewrite (codec_read (item := u64)) by done. cbn [mbind option_bind]. rewrite (codec_read (item := u32)) by (unfold u32_ok; lia). cbn [mbind option_bind].
    rewrite (many_read _ put_neighbor neighbor_ok) by (done || (rewrite length_app; pose proof (length_many put_neighbor put_neighbor_some ns); lia)).
    cbn [mbind option_bind]. rewrite (codec_read (item := u32)) by (unfold u32_ok; lia). cbn [mbind option_bind].
    rewrite (many_read _ put_sized short) by (done || (rewrite length_app; pose proof (length_many put_sized put_sized_some rs); lia)). cbn [mbind option_bind].
    pose proof (codec_read (Codec := fixed_codec 64 ltac:(lia)) signature [] Hl) as E2. unfold id in E2. rewrite app_nil_r in E2. by rewrite E2.
Qed.

(** ** What a signature stands for *)

Lemma string_less_irrefl a : string_less a a = false.
Proof. induction a as [| x a IH]; [done |]. cbn. rewrite Z.ltb_irrefl, IH. by rewrite andb_false_r. Qed.

Lemma string_less_total a b : a ≠ b → string_less a b = negb (string_less b a).
Proof.
  revert b. induction a as [| x a IH]; intros [| y b] H; try done. cbn.
  destruct (Z.ltb_spec x y), (Z.ltb_spec y x), (Z.eqb_spec x y), (Z.eqb_spec y x); try (exfalso; lia); try done.
  subst y. cbn. apply IH. congruence.
Qed.

(** Both sides of a handshake sign the same text. *)
Lemma auth_message_sym a na b nb : a ≠ b → auth_message a na b nb = auth_message b nb a na.
Proof. intros H. unfold auth_message. rewrite (string_less_total a b H). by destruct (string_less b a). Qed.

Definition side_ok (i n : bytes) : Prop := short i ∧ size n = kNonceBytes.

Lemma put_sized_inj a b r r' : short a → short b → put_sized a ++ r = put_sized b ++ r' → a = b ∧ r = r'.
Proof. intros Ha Hb H. pose proof (codec_read (item := sized) a r Ha) as E. rewrite H, codec_read in E by done. by injection E as -> ->. Qed.

Lemma app_inj_size (a b r r' : bytes) : size a = size b → a ++ r = b ++ r' → a = b ∧ r = r'.
Proof. intros H. unfold size in H. apply app_inj_1. lia. Qed.

Lemma side_inj i n i' n' r r' : side_ok i n → side_ok i' n' → put_sized i ++ n ++ r = put_sized i' ++ n' ++ r' → i = i' ∧ n = n' ∧ r = r'.
Proof.
  intros [H1 H2] [H3 H4] E. apply put_sized_inj in E as [-> E]; [| done | done]. apply app_inj_size in E as [-> ->]; [done | congruence].
Qed.

Lemma auth_message_eq a na b nb :
  auth_message a na b nb = kAuthSep ++ (if string_less b a then put_sized b ++ nb ++ put_sized a ++ na else put_sized a ++ na ++ put_sized b ++ nb).
Proof. unfold auth_message, put_sized. by destruct (string_less b a); rewrite <-!app_assoc. Qed.

(** The signed text determines both identities with their nonces. *)
Lemma auth_message_agree a na b nb c nc d nd :
  side_ok a na → side_ok b nb → side_ok c nc → side_ok d nd →
  auth_message a na b nb = auth_message c nc d nd →
  (a = c ∧ na = nc ∧ b = d ∧ nb = nd) ∨ (a = d ∧ na = nd ∧ b = c ∧ nb = nc).
Proof.
  intros Ha Hb Hc Hd E. rewrite !auth_message_eq in E. apply app_inv_head in E.
  assert (∀ i n j m i' n' j' m', side_ok i n → side_ok j m → side_ok i' n' → side_ok j' m' →
    put_sized i ++ n ++ put_sized j ++ m = put_sized i' ++ n' ++ put_sized j' ++ m' → i = i' ∧ n = n' ∧ j = j' ∧ m = m') as Hinj.
  { intros i n j m i' n' j' m' H1 H2 H3 H4 E'. apply side_inj in E' as (-> & -> & E'); [| done | done].
    rewrite <-(app_nil_r m), <-(app_nil_r m') in E'. by apply side_inj in E' as (-> & -> & _). }
  destruct (string_less b a), (string_less d c); apply Hinj in E; naive_solver.
Qed.

(** ** Trust *)

Definition store_ok (t : TrustStore) : Prop := well_formed (s_neighbors (t_snapshot t)) = true ∧ valid_key (controller_public_key t) = true.

Lemma find_key_listed ns i : well_formed ns = true → size (find_key i ns) = 32 ↔ listed ns i = true.
Proof.
  unfold well_formed, valid_key. induction ns as [| n ns IH]; [done |]. cbn [forallb find_key listed existsb]. intros H. bool_prop.
  case_bool_decide; cbn; [tauto |]. by apply IH.
Qed.

Lemma find_key_elem ns i : listed ns i = true → mkNeighbor i (find_key i ns) ∈ ns.
Proof.
  induction ns as [| [j k] ns IH]; [done |]. cbn. case_bool_decide as E; cbn in E |- *; [subst; intros _; left | intros H; right; by apply IH].
Qed.

Lemma make_store_ok c i t : make_store c i = Some t → store_ok t.
Proof. unfold make_store, store_ok. intros H. guards H. by injection H as <-. Qed.

(** The store only ever moves to a newer epoch, and stays well formed. *)
Lemma apply_newer s t t' l : apply_snapshot s t = Applied t' l → store_ok t → t_epoch t < t_epoch t' ∧ store_ok t' ∧ t_snapshot t' = s ∧ l = t_listeners t.
Proof. unfold apply_snapshot, store_ok, t_epoch. intros H. repeat case_hyp H; try done. injection H as <- <-. bool_prop. cbn. intros []. done. Qed.
