(* ===== verification/NodeLink.v ===== *)
(** * Links between nodes

    Models [node/node_link.cpp]: a link with its connection, the handshake with
    signed challenges, requests with their completions, heartbeats, reconnecting
    and the reaction to a changed trust set.  [NodeFrame] has the codecs and the
    trust store.

    The executor serialises everything but the public calls, so a step is a
    public call ([call]), one posted function ([run_task]), or the end of one
    asynchronous operation ([finish_op]); posted functions and operations may come
    in any order, and an operation may end with any result, also after its
    connection was closed.  [request] adds to [outstanding] before it looks at the
    limit; that a refused call takes its reservation back a moment later is the
    step [refused].  What the link shows to the outside is [log], newest first:
    bytes handed to the connection, calls of the credentials, callbacks (at the
    moment they are posted), and the changes of [ready].  Clock readings, nonces
    and the success of the transport factory come with each step ([Fresh]), the
    jitter of the reconnect delays is the function [random].  Counters of
    generations and attempts do not wrap. *)

From S2P Require Import Prelude NodeFrame.

Inductive LinkErr :=
  | no_buffer_space | protocol_error | permission_denied | operation_not_permitted | timed_out
  | operation_canceled | not_connected | message_size | end_of_stream | io_error.

#[export] Instance LinkErr_eq_dec : EqDecision LinkErr.
Proof. solve_decision. Defined.

(** [None] for a function that is not set; [sign] may throw. *)
Record LinkOptions := mkLinkOptions {
  node_id : bytes;
  expected_peer_id : bytes;
  max_frame_bytes : Z;
  max_pending_requests : Z;
  max_queued_frames : Z;
  heartbeat_interval : Z;
  heartbeat_timeout : Z;
  reconnect_min : Z;
  reconnect_max : Z;
  use_tls : bool;
  cred_sign : option (bytes → option bytes);
  cred_verify : option (bytes → bytes → bytes → bool);
}.

Record Challenge := mkChallenge { ch_node_id : bytes; ch_epoch : Z; ch_nonce : bytes }.

Definition no_challenge : Challenge := mkChallenge [] 0 [].

Inductive AuthState := challenge | response | done.

#[export] Instance AuthState_eq_dec : EqDecision AuthState.
Proof. solve_decision. Defined.

(** The connection and what belongs to it. *)
Record Conn := mkConn {
  connection : option nat;
  generation : nat;
  incoming : bytes;
  writes : list bytes;
  writing : bool;
  awaiting_pong : bool;
  last_activity : Z;
  ping_sent : Z;
  heartbeat_timer : bool;
}.

(** Who the peer is. *)
Record Peer := mkPeer {
  ready : bool;
  auth_state : AuthState;
  own_challenge : Challenge;
  peer_challenge : Challenge;
  peer_id : bytes;
  peer_epoch : Z;
  seen_nonces : list bytes;             (* oldest first *)
  peer_revoked : bool;
  trust : option TrustStore;
}.

(** Requests: id and completion, by ascending id. *)
Record Calls := mkCalls {
  pending : list (Z * nat);
  next_id : Z;
  outstanding : Z;
  refusals : list nat;                  (* calls that have still to take back their reservation *)
}.

Record Dial := mkDial { host : bytes; port : Z; attempts : Z; reconnect_count : Z; reconnect_timer : bool }.

Inductive Task :=
  | TAttach (conn : nat)
  | TStart (host : bytes) (port : Z)
  | TRecheck (s : Snapshot)
  | TRequest (id : Z) (payload : bytes) (timeout : Z) (completion : nat)
  | TCancel (id : Z)
  | TRespond (id : Z) (payload : bytes)
  | TNotify (type : FrameType) (payload : bytes) (completion : option nat)   (* [notify] and [send_epoch_config] *)
  | TOnRequest (set : bool)
  | TOnNotify (set : bool)
  | TOnState (set : bool)
  | TStop.

Inductive Op :=
  | OpConnect (gen conn : nat)
  | OpTls (gen conn : nat)
  | OpRead (gen : nat)
  | OpWrite (gen : nat)
  | OpTick (gen : nat)
  | OpReconnect (delay : Z)
  | OpRequest (id : Z).

Inductive LinkObs :=
  | OAttached (own : Challenge)
  | OWrite (data : bytes)
  | OSign (message : bytes)
  | OVerify (key message signature : bytes) (accepted : bool)
  | OTrust (s : Snapshot)                (* the store tells its listeners *)
  | OReady (peer : bytes)
  | ORequest (id : Z) (payload : bytes)
  | ONotify (payload : bytes)
  | OResponse (completion : nat) (payload : bytes)
  | OFailed (completion : nat) (e : LinkErr)
  | ONotified (completion : nat) (e : option LinkErr)
  | OState (up : bool) (e : option LinkErr)
  | OClosed
  | OThrew.

#[export] Instance Challenge_eq_dec : EqDecision Challenge.
Proof. solve_decision. Defined.
#[export] Instance LinkObs_eq_dec : EqDecision LinkObs.
Proof. solve_decision. Defined.

Record Handlers := mkHandlers { request_handler : bool; notify_handler : bool; state_handler : bool }.

Record NodeLink := mkLink {
  conn_of : Conn;
  peer_of : Peer;
  calls_of : Calls;
  dial_of : Dial;
  handlers : Handlers;
  stopped : bool;
  tasks : list Task;
  ops : list Op;
  next_conn : nat;
  log : list LinkObs;
}.

Record Fresh := mkFresh { f_now : Z; f_later : Z; f_nonce : bytes; f_transport : bool }.

(** ** Updates *)

Definition set_conn (c : Conn) (l : NodeLink) : NodeLink :=
  mkLink c (peer_of l) (calls_of l) (dial_of l) (handlers l) (stopped l) (tasks l) (ops l) (next_conn l) (log l).
Definition set_peer_of (p : Peer) (l : NodeLink) : NodeLink :=
  mkLink (conn_of l) p (calls_of l) (dial_of l) (handlers l) (stopped l) (tasks l) (ops l) (next_conn l) (log l).
Definition set_calls (c : Calls) (l : NodeLink) : NodeLink :=
  mkLink (conn_of l) (peer_of l) c (dial_of l) (handlers l) (stopped l) (tasks l) (ops l) (next_conn l) (log l).
Definition set_dial (d : Dial) (l : NodeLink) : NodeLink :=
  mkLink (conn_of l) (peer_of l) (calls_of l) d (handlers l) (stopped l) (tasks l) (ops l) (next_conn l) (log l).
Definition set_handlers (h : Handlers) (l : NodeLink) : NodeLink :=
  mkLink (conn_of l) (peer_of l) (calls_of l) (dial_of l) h (stopped l) (tasks l) (ops l) (next_conn l) (log l).
Definition set_stopped (l : NodeLink) : NodeLink :=
  mkLink (conn_of l) (peer_of l) (calls_of l) (dial_of l) (handlers l) true (tasks l) (ops l) (next_conn l) (log l).
Definition set_tasks (ts : list Task) (l : NodeLink) : NodeLink :=
  mkLink (conn_of l) (peer_of l) (calls_of l) (dial_of l) (handlers l) (stopped l) ts (ops l) (next_conn l) (log l).
Definition set_ops (os : list Op) (l : NodeLink) : NodeLink :=
  mkLink (conn_of l) (peer_of l) (calls_of l) (dial_of l) (handlers l) (stopped l) (tasks l) os (next_conn l) (log l).
Definition take_conn (l : NodeLink) : NodeLink :=
  mkLink (conn_of l) (peer_of l) (calls_of l) (dial_of l) (handlers l) (stopped l) (tasks l) (ops l) (S (next_conn l)) (log l).
Definition say (o : LinkObs) (l : NodeLink) : NodeLink :=
  mkLink (conn_of l) (peer_of l) (calls_of l) (dial_of l) (handlers l) (stopped l) (tasks l) (ops l) (next_conn l) (o :: log l).

Definition post (t : Task) (l : NodeLink) : NodeLink := set_tasks (tasks l ++ [t]) l.
Definition begin_op (o : Op) (l : NodeLink) : NodeLink := set_ops (ops l ++ [o]) l.

Definition is_ready (l : NodeLink) : bool := ready (peer_of l).
Definition connected (l : NodeLink) : option nat := connection (conn_of l).
Definition gen (l : NodeLink) : nat := generation (conn_of l).

Section Link.
Context (o : LinkOptions) (client : bool) (me : nat) (random : Z → Z).

Definition authenticated : bool := bool_decide (is_Some (cred_sign o)).
Definition sign (message : bytes) : option bytes := match cred_sign o with Some f => f message | None => None end.
Definition verify (key message signature : bytes) : bool := match cred_verify o with Some f => f key message signature | None => false end.

(** The checks of the constructor. *)
Definition options_valid (has_trust : bool) : bool :=
  negb (bool_decide (node_id o = [])) && (10 <=? max_frame_bytes o) && (max_frame_bytes o <=? 2 ^ 32 - 1) &&
  negb (max_pending_requests o =? 0) && negb (max_queued_frames o =? 0) &&
  (0 <? heartbeat_interval o) && (0 <? heartbeat_timeout o) && (0 <? reconnect_min o) && (reconnect_min o <=? reconnect_max o) &&
  (size (node_id o) <=? max_frame_bytes o - 10) &&
  bool_decide (is_Some (cred_sign o) ↔ is_Some (cred_verify o)) && bool_decide (authenticated = has_trust).

(** [register_trust_listener] of both factory functions. *)
Definition new_link (t : option TrustStore) : option NodeLink :=
  if negb (options_valid (bool_decide (is_Some t))) then None else
  Some (mkLink (mkConn None 0 [] [] false false 0 0 false)
         (mkPeer false challenge no_challenge no_challenge [] 0 [] false (add_listener me <$> t))
         (mkCalls [] 1 0 []) (mkDial [] 0 0 0 false) (mkHandlers false false false) false [] [] 0 []).

(** ** Writing *)

Definition write_next (g : nat) (l : NodeLink) : NodeLink :=
  let c := conn_of l in
  let upd w := mkConn (connection c) (generation c) (incoming c) (writes c) w (awaiting_pong c) (last_activity c) (ping_sent c) (heartbeat_timer c) in
  match writes c, connection c with
  | data :: _, Some _ =>
      if (g =? generation c)%nat then begin_op (OpWrite g) (say (OWrite data) (set_conn (upd true) l)) else set_conn (upd false) l
  | _, _ => set_conn (upd false) l
  end.

Definition push_write (data : bytes) (l : NodeLink) : NodeLink :=
  let c := conn_of l in
  set_conn (mkConn (connection c) (generation c) (incoming c) (writes c ++ [data]) (writing c) (awaiting_pong c) (last_activity c) (ping_sent c) (heartbeat_timer c)) l.

(** [encode_frame] cannot throw here: the payload is within [max_frame_bytes]. *)
Definition enqueue (frame : Frame) (l : NodeLink) : bool * NodeLink :=
  if (size (f_payload frame) >? max_frame_bytes o - 10) || (max_queued_frames o <=? Z.of_nat (length (writes (conn_of l)))) ||
     bool_decide (connected l = None) then (false, l) else
  let l := push_write (default [] (encode_frame frame)) l in
  (true, if writing (conn_of l) then l else write_next (gen l) l).

(** ** Requests *)

Fixpoint emplace (id : Z) (c : nat) (p : list (Z * nat)) : list (Z * nat) :=
  match p with
  | [] => [(id, c)]
  | (i, d) :: p => if id <? i then (id, c) :: (i, d) :: p else if id =? i then (i, d) :: p else (i, d) :: emplace id c p
  end.

Definition find_pending (id : Z) (p : list (Z * nat)) : option nat := snd <$> List.find (λ e, e.1 =? id) p.

Definition erase_pending (id : Z) (p : list (Z * nat)) : list (Z * nat) := List.filter (λ e, negb (e.1 =? id)) p.

(** The result of a request: a response or an error. *)
Definition complete (id : Z) (result : LinkErr + bytes) (l : NodeLink) : NodeLink :=
  let c := calls_of l in
  match find_pending id (pending c) with
  | None => l
  | Some k =>
      say (match result with inl e => OFailed k e | inr payload => OResponse k payload end)
        (set_calls (mkCalls (erase_pending id (pending c)) (next_id c) (outstanding c - 1) (refusals c)) l)
  end.

(** [while (!pending_.empty()) complete(pending_.begin()->first, ...)] *)
Fixpoint complete_each (ids : list Z) (e : LinkErr) (l : NodeLink) : NodeLink :=
  match ids with
  | [] => l
  | id :: ids => complete_each ids e (complete id (inl e) l)
  end.

Definition fail_pending (e : LinkErr) (l : NodeLink) : NodeLink := complete_each (pending (calls_of l)).*1 e l.

Definition emit_state (up : bool) (e : option LinkErr) (l : NodeLink) : NodeLink :=
  if state_handler (handlers l) then say (OState up e) l else l.

(** ** Losing the connection *)

Definition reconnect_base (count : Z) : Z := Z.min (reconnect_max o) (reconnect_min o * 2 ^ Z.min count 20).

(** The jitter is drawn from [0 .. max(1, base / 4)].  There is at most one draw
    for each attempt, so [random] is indexed by their number. *)
Definition reconnect_delay (count raw : Z) : Z :=
  let base := reconnect_base count in
  Z.min (reconnect_max o) (base + raw mod (Z.max 1 (base / 4) + 1)).

Definition schedule_reconnect (l : NodeLink) : NodeLink :=
  if stopped l then l else
  let d := dial_of l in
  begin_op (OpReconnect (reconnect_delay (reconnect_count d) (random (attempts d)))) (set_dial (mkDial (host d) (port d) (attempts d) (reconnect_count d + 1) true) l).

(** Every caller passes an error, so the state handler always hears of it. *)
Definition disconnect (e : LinkErr) (l : NodeLink) : NodeLink :=
  match connected l with
  | None => l
  | Some _ =>
      let c := conn_of l in
      let p := peer_of l in
      let l := set_peer_of (mkPeer false challenge (own_challenge p) (peer_challenge p) [] 0 (seen_nonces p) (peer_revoked p) (trust p)) l in
      let l := set_conn (mkConn None (S (generation c)) [] [] false false (last_activity c) (ping_sent c) false) l in
      let l := emit_state false (Some e) (fail_pending e (say OClosed l)) in
      if client && negb (stopped l) && negb (peer_revoked p) then schedule_reconnect l else l
  end.

(** ** The handshake *)

Definition trusts_id (l : NodeLink) (id : bytes) : bool := match trust (peer_of l) with Some t => trusts t id | None => false end.
Definition trust_epoch (l : NodeLink) : Z := match trust (peer_of l) with Some t => t_epoch t | None => 0 end.

Definition peer_acceptable (id : bytes) (l : NodeLink) : bool :=
  if bool_decide (id = []) || bool_decide (id = node_id o) then false else
  if negb (trusts_id l id) then false else
  bool_decide (expected_peer_id o = []) || bool_decide (expected_peer_id o = id).

Definition seen_nonce (nonce : bytes) (l : NodeLink) : bool := bool_decide (nonce ∈ seen_nonces (peer_of l)).

Definition remember (nonce : bytes) (seen : list bytes) : list bytes :=
  let seen := seen ++ [nonce] in drop (length seen - kNonceCache) seen.

(** [set_peer], [auth_state_ = done], [ready_ = true]. *)
Definition become_ready (id : bytes) (epoch : Z) (l : NodeLink) : NodeLink :=
  let p := peer_of l in
  let d := dial_of l in
  let l := set_peer_of (mkPeer true done (own_challenge p) (peer_challenge p) id epoch (seen_nonces p) (peer_revoked p) (trust p)) l in
  emit_state true None (say (OReady id) (set_dial (mkDial (host d) (port d) (attempts d) 0 (reconnect_timer d)) l)).

Definition handle_hello_challenge (frame : Frame) (l : NodeLink) : NodeLink :=
  if negb (bool_decide (auth_state (peer_of l) = challenge)) then disconnect protocol_error l else
  match decode_challenge (f_payload frame) with
  | None => disconnect protocol_error l
  | Some (id, epoch, nonce) =>
      if negb (peer_acceptable id l) || seen_nonce nonce l then disconnect permission_denied l else
      let p := peer_of l in
      let l := set_peer_of (mkPeer (ready p) response (own_challenge p) (mkChallenge id epoch nonce) (peer_id p) (peer_epoch p)
                              (remember nonce (seen_nonces p)) (peer_revoked p) (trust p)) l in
      let message := auth_message (node_id o) (ch_nonce (own_challenge p)) id nonce in
      let l := say (OSign message) l in
      match sign message with
      | None => disconnect operation_not_permitted l
      | Some signature =>
          if negb (size signature =? kSignatureBytes) then disconnect no_buffer_space l else
          let '(queued, l) := enqueue (mkFrame hello_auth 0 (encode_auth_response (node_id o) (trust_epoch l) signature)) l in
          if queued then l else disconnect no_buffer_space l
      end
  end.

Definition handle_hello_auth (frame : Frame) (l : NodeLink) : NodeLink :=
  if negb (bool_decide (auth_state (peer_of l) = response)) then disconnect protocol_error l else
  match decode_auth_response (f_payload frame) with
  | None => disconnect protocol_error l
  | Some (id, epoch, signature) =>
      let p := peer_of l in
      if negb (bool_decide (id = ch_node_id (peer_challenge p))) then disconnect permission_denied l else
      let key := match trust p with Some t => neighbor_key t id | None => [] end in
      let message := auth_message id (ch_nonce (peer_challenge p)) (node_id o) (ch_nonce (own_challenge p)) in
      let accepted := verify key message signature in
      let l := say (OVerify key message signature accepted) l in
      if accepted then become_ready id epoch l else disconnect permission_denied l
  end.

(** ** The trust set *)

(** What a successful [apply] does to this link: its listener posts a recheck. *)
Definition notify_listeners (s : Snapshot) (who : list nat) (l : NodeLink) : NodeLink :=
  foldl (λ l i, if (i =? me)%nat then post (TRecheck s) l else l) (say (OTrust s) l) who.

(** The flag says that the call throws. *)
Definition apply_to_store (s : Snapshot) (l : NodeLink) : bool * NodeLink :=
  let p := peer_of l in
  match trust p with
  | None => (false, l)
  | Some t =>
      match apply_snapshot s t with
      | Stale => (false, l)
      | Malformed => (true, l)
      | Applied t who =>
          (false, notify_listeners s who
             (set_peer_of (mkPeer (ready p) (auth_state p) (own_challenge p) (peer_challenge p) (peer_id p) (peer_epoch p)
                             (seen_nonces p) (peer_revoked p) (Some t)) l))
      end
  end.

Definition apply_epoch_config (payload : bytes) (l : NodeLink) : bool * NodeLink :=
  match decode_epoch_update payload with
  | None => (false, disconnect protocol_error l)
  | Some (s, signature) =>
      let controller := match trust (peer_of l) with Some t => controller_public_key t | None => [] end in
      let message := take (length payload - Z.to_nat kSignatureBytes) payload in
      let accepted := verify controller message signature in
      let l := say (OVerify controller message signature accepted) l in
      if accepted then apply_to_store s l else (false, l)
  end.

Definition recheck_trust (s : Snapshot) (l : NodeLink) : NodeLink :=
  if stopped l then l else
  let p := peer_of l in
  let target := if bool_decide (peer_id p = []) then expected_peer_id o else peer_id p in
  if bool_decide (target = []) || bool_decide (target = node_id o) then l else
  if listed (s_neighbors s) target then l else
  disconnect permission_denied
    (set_peer_of (mkPeer (ready p) (auth_state p) (own_challenge p) (peer_challenge p) (peer_id p) (peer_epoch p) (seen_nonces p) true (trust p)) l).

(** ** Frames *)

Definition enqueue_or_drop (frame : Frame) (l : NodeLink) : NodeLink :=
  let '(queued, l) := enqueue frame l in if queued then l else disconnect no_buffer_space l.

(** The frames of an established link. *)
Definition handle_data (frame : Frame) (l : NodeLink) : NodeLink :=
  match f_type frame with
  | ping => enqueue_or_drop (mkFrame pong 0 []) l
  | pong =>
      let c := conn_of l in
      set_conn (mkConn (connection c) (generation c) (incoming c) (writes c) (writing c) false (last_activity c) (ping_sent c) (heartbeat_timer c)) l
  | request => if request_handler (handlers l) then say (ORequest (f_id frame) (f_payload frame)) l else l
  | NodeFrame.response => complete (f_id frame) (inr (f_payload frame)) l
  | notify => if notify_handler (handlers l) then say (ONotify (f_payload frame)) l else l
  | _ => l
  end.

Definition handle_frame (frame : Frame) (l : NodeLink) : bool * NodeLink :=
  let is_done := bool_decide (auth_state (peer_of l) = done) in
  if authenticated then
    match f_type frame with
    | hello => (false, handle_hello_challenge frame l)
    | hello_auth => (false, handle_hello_auth frame l)
    | epoch_config => if is_done then apply_epoch_config (f_payload frame) l else (false, disconnect protocol_error l)
    | _ => (false, if is_done then handle_data frame l else disconnect permission_denied l)
    end
  else
    (false,
     match f_type frame with
     | hello_auth | epoch_config => disconnect protocol_error l
     | t =>
         if is_done then if bool_decide (t = hello) then disconnect protocol_error l else handle_data frame l
         else if negb (bool_decide (t = hello)) || bool_decide (f_payload frame = []) ||
                 (negb (bool_decide (expected_peer_id o = [])) && negb (bool_decide (f_payload frame = expected_peer_id o)))
              then disconnect permission_denied l
              else become_ready (f_payload frame) 0 l
     end).

Definition set_incoming (s : bytes) (l : NodeLink) : NodeLink :=
  let c := conn_of l in
  set_conn (mkConn (connection c) (generation c) s (writes c) (writing c) (awaiting_pong c) (last_activity c) (ping_sent c) (heartbeat_timer c)) l.

(** The loop of [consume]; every frame takes at least 14 bytes. *)
Fixpoint consume_loop (fuel : nat) (l : NodeLink) : bool * NodeLink :=
  match fuel with
  | O => (false, l)
  | S fuel =>
      let s := incoming (conn_of l) in
      if size s <? 4 then (false, l) else
      let len := get32 s in
      if (len <? 10) || (len >? max_frame_bytes o) then (false, disconnect protocol_error l) else
      if size s <? len + 4 then (false, l) else
      match decode_frame (take (Z.to_nat len) (drop 4 s)) (max_frame_bytes o) with
      | None => (false, disconnect protocol_error l)
      | Some frame =>
          let '(threw, l) := handle_frame frame (set_incoming (drop (Z.to_nat len + 4) s) l) in
          if threw then (true, l) else
          match connected l with
          | None => (false, l)
          | Some _ => consume_loop fuel l
          end
      end
  end.

Definition consume (data : bytes) (l : NodeLink) : bool * NodeLink :=
  let l := set_incoming (incoming (conn_of l) ++ data) l in
  consume_loop (S (length (incoming (conn_of l)))) l.

(** ** Heartbeat *)

Definition read_next (g : nat) (l : NodeLink) : NodeLink :=
  match connected l with
  | Some _ => if (g =? gen l)%nat then begin_op (OpRead g) l else l
  | None => l
  end.

Definition arm_tick (g : nat) (l : NodeLink) : NodeLink :=
  let c := conn_of l in
  begin_op (OpTick g) (set_conn (mkConn (connection c) (generation c) (incoming c) (writes c) (writing c) (awaiting_pong c) (last_activity c) (ping_sent c) true) l).

Definition tick (now : Z) (g : nat) (l : NodeLink) : NodeLink :=
  if negb (g =? gen l)%nat || bool_decide (connected l = None) || stopped l then l else
  let c := conn_of l in
  if negb (bool_decide (auth_state (peer_of l) = done)) then
    if heartbeat_timeout o <=? now - last_activity c then disconnect timed_out l else arm_tick g l
  else if awaiting_pong c then
    if heartbeat_timeout o <=? now - ping_sent c then disconnect timed_out l else arm_tick g l
  else if heartbeat_interval o <=? now - last_activity c then
    let '(queued, l) := enqueue (mkFrame ping 0 []) l in
    if negb queued then disconnect no_buffer_space l else
    let c := conn_of l in
    arm_tick g (set_conn (mkConn (connection c) (generation c) (incoming c) (writes c) (writing c) true (last_activity c) now (heartbeat_timer c)) l)
  else arm_tick g l.

(** ** Connecting *)

Definition attach (fr : Fresh) (k : nat) (l : NodeLink) : NodeLink :=
  if stopped l then say OClosed l else
  let c := conn_of l in
  let p := peer_of l in
  let own := if authenticated then mkChallenge (node_id o) (trust_epoch l) (f_nonce fr) else own_challenge p in
  let l := set_conn (mkConn (Some k) (S (generation c)) [] [] false false (f_now fr) (ping_sent c) (heartbeat_timer c)) l in
  let l := set_peer_of (mkPeer (ready p) challenge own (peer_challenge p) [] 0 (seen_nonces p) (peer_revoked p) (trust p)) l in
  let l := say (OAttached own) l in
  let payload := if authenticated then encode_challenge (ch_node_id own) (ch_epoch own) (ch_nonce own) else node_id o in
  let '(queued, l) := enqueue (mkFrame hello 0 payload) l in
  if negb queued then disconnect no_buffer_space l else
  tick (f_later fr) (gen l) (read_next (gen l) l).

Definition begin_connect (fr : Fresh) (l : NodeLink) : NodeLink :=
  if stopped l then l else
  let d := dial_of l in
  let l := set_dial (mkDial (host d) (port d) (attempts d + 1) (reconnect_count d) (reconnect_timer d)) l in
  if negb (f_transport fr) then schedule_reconnect l else
  let c := conn_of l in
  let k := next_conn l in
  let g := S (generation c) in
  begin_op (OpConnect g k)
    (take_conn (set_conn (mkConn (Some k) g (incoming c) (writes c) (writing c) (awaiting_pong c) (last_activity c) (ping_sent c) (heartbeat_timer c)) l)).

(** ** Posted functions *)

Definition fail_request (completion : nat) (e : LinkErr) (l : NodeLink) : NodeLink :=
  let c := calls_of l in
  say (OFailed completion e) (set_calls (mkCalls (pending c) (next_id c) (outstanding c - 1) (refusals c)) l).

Definition run_request (id : Z) (payload : bytes) (completion : nat) (l : NodeLink) : NodeLink :=
  let c := calls_of l in
  if stopped l then fail_request completion operation_canceled l else
  if negb (is_ready l) then fail_request completion not_connected l else
  if (max_pending_requests o <=? Z.of_nat (length (pending c))) || (max_queued_frames o <=? Z.of_nat (length (writes (conn_of l))))
  then fail_request completion no_buffer_space l else
  if size payload >? max_frame_bytes o - 10 then fail_request completion message_size l else
  let l := begin_op (OpRequest id) (set_calls (mkCalls (emplace id completion (pending c)) (next_id c) (outstanding c) (refusals c)) l) in
  let '(queued, l) := enqueue (mkFrame request id payload) l in
  if queued then l else complete id (inl no_buffer_space) l.

Definition run_notify (type : FrameType) (payload : bytes) (completion : option nat) (l : NodeLink) : NodeLink :=
  let '(e, l) :=
    if stopped l then (Some operation_canceled, l) else
    if negb (is_ready l) then (Some not_connected, l) else
    let '(queued, l) := enqueue (mkFrame type 0 payload) l in
    (if queued then None else Some no_buffer_space, l) in
  match completion with Some k => say (ONotified k e) l | None => l end.

Definition stop_on_executor (l : NodeLink) : NodeLink :=
  let d := dial_of l in
  let l := set_dial (mkDial (host d) (port d) (attempts d) (reconnect_count d) false) l in
  fail_pending operation_canceled (disconnect operation_canceled l).

Definition run_task (fr : Fresh) (t : Task) (l : NodeLink) : NodeLink :=
  let h := handlers l in
  match t with
  | TAttach k => attach fr k l
  | TStart hst prt =>
      let d := dial_of l in
      if stopped l || negb (bool_decide (connected l = None)) || negb (port d =? 0) then l else
      begin_connect fr (set_dial (mkDial hst prt (attempts d) (reconnect_count d) (reconnect_timer d)) l)
  | TRecheck s => recheck_trust s l
  | TRequest id payload _ completion => run_request id payload completion l
  | TCancel id => complete id (inl operation_canceled) l
  | TRespond id payload => if is_ready l then enqueue_or_drop (mkFrame NodeFrame.response id payload) l else l
  | TNotify type payload completion => run_notify type payload completion l
  | TOnRequest b => set_handlers (mkHandlers b (notify_handler h) (state_handler h)) l
  | TOnNotify b => set_handlers (mkHandlers (request_handler h) b (state_handler h)) l
  | TOnState b => set_handlers (mkHandlers (request_handler h) (notify_handler h) b) l
  | TStop => stop_on_executor l
  end.

(** ** Operations that end *)

Inductive Result := RError (e : LinkErr) | RData (data : bytes).

Definition live (g : nat) (l : NodeLink) : bool := (g =? gen l)%nat && negb (stopped l).

Definition on_read (fr : Fresh) (g : nat) (r : Result) (l : NodeLink) : NodeLink :=
  if negb (live g l) then l else
  match r with
  | RError e => disconnect e l
  | RData [] => disconnect end_of_stream l
  | RData data =>
      let c := conn_of l in
      let '(threw, l) :=
        consume data (set_conn (mkConn (connection c) (generation c) (incoming c) (writes c) (writing c) (awaiting_pong c) (f_now fr) (ping_sent c) (heartbeat_timer c)) l) in
      if threw then say OThrew l else read_next g l
  end.

Definition on_written (g : nat) (r : Result) (l : NodeLink) : NodeLink :=
  if negb (live g l) then l else
  match r with
  | RError e => disconnect e l
  | RData _ =>
      let c := conn_of l in
      write_next g (set_conn (mkConn (connection c) (generation c) (incoming c) (tail (writes c)) (writing c) (awaiting_pong c) (last_activity c) (ping_sent c) (heartbeat_timer c)) l)
  end.

Definition finish_op (fr : Fresh) (x : Op) (r : Result) (l : NodeLink) : NodeLink :=
  match x with
  | OpConnect g k =>
      if negb (live g l) then l else
      match r with
      | RError e => disconnect e l
      | RData _ => if use_tls o then begin_op (OpTls g k) l else attach fr k l
      end
  | OpTls g k =>
      if negb (live g l) then l else
      match r with RError e => disconnect e l | RData _ => attach fr k l end
  | OpRead g => on_read fr g r l
  | OpWrite g => on_written g r l
  | OpTick g => match r with RError _ => l | RData _ => tick (f_now fr) g l end
  | OpReconnect _ => match r with RError _ => l | RData _ => begin_connect fr l end
  | OpRequest id => match r with RError _ => l | RData _ => complete id (inl timed_out) l end
  end.

(** ** Public calls *)

Inductive Call :=
  | CStart (host : bytes) (port : Z)
  | CStop
  | CRequest (payload : bytes) (timeout : Z) (completion : option nat)
  | CPost (t : Task).                    (* the calls that only post a function *)

(** The functions that callers can post. *)
Definition postable (t : Task) : bool :=
  match t with
  | TCancel _ | TRespond _ _ | TNotify notify _ _ | TNotify epoch_config _ _ | TOnRequest _ | TOnNotify _ | TOnState _ => true
  | _ => false
  end.

Definition call (c : Call) (l : NodeLink) : NodeLink :=
  match c with
  | CStart h p => if client then post (TStart h p) l else l
  | CStop => post TStop (set_stopped l)
  | CRequest payload timeout completion =>
      let c := calls_of l in
      let id := next_id c in
      match completion with
      | None => set_calls (mkCalls (pending c) (to_u64 (id + 1)) (outstanding c) (refusals c)) l
      | Some k =>
          if max_pending_requests o <=? outstanding c then
            set_calls (mkCalls (pending c) (to_u64 (id + 1)) (outstanding c + 1) (refusals c ++ [k])) l
          else
            post (TRequest id payload timeout k) (set_calls (mkCalls (pending c) (to_u64 (id + 1)) (outstanding c + 1) (refusals c)) l)
      end
  | CPost t => if postable t then post t l else l
  end.

(** The end of a refused call. *)
Definition refused (k : nat) (l : NodeLink) : NodeLink :=
  let c := calls_of l in
  match refusals c !! k with
  | Some x => say (OFailed x no_buffer_space) (set_calls (mkCalls (pending c) (next_id c) (outstanding c - 1) (delete k (refusals c))) l)
  | None => l
  end.

(** ** What can happen *)

Inductive LinkEvent :=
  | ECall (c : Call)
  | ERefused (k : nat)
  | ETask (k : nat) (fr : Fresh)
  | EOp (k : nat) (r : Result) (fr : Fresh)
  | ETrust (s : Snapshot).               (* another user of the store applies a snapshot *)

Definition step (e : LinkEvent) (l : NodeLink) : NodeLink :=
  match e with
  | ECall c => call c l
  | ERefused k => refused k l
  | ETask k fr => match tasks l !! k with Some t => run_task fr t (set_tasks (delete k (tasks l)) l) | None => l end
  | EOp k r fr => match ops l !! k with Some x => finish_op fr x r (set_ops (delete k (ops l)) l) | None => l end
  | ETrust s => (apply_to_store s l).2
  end.

Definition run (es : list LinkEvent) (l : NodeLink) : NodeLink := foldl (λ l e, step e l) l es.

(** A link over a connection that was accepted starts by attaching to it. *)
Definition accepted (t : option TrustStore) : option NodeLink := post (TAttach 0) <$> (take_conn <$> new_link t).

Definition make_link (t : option TrustStore) : option NodeLink := if client then new_link t else accepted t.
End Link.
