(* ===== verification/NodeSample.v ===== *)
(** * Two sample nodes

    Nodes [a] and [b] of the node network, with a toy signature scheme: the links
    of [NodeLink] between them, and the steps of a handshake.  The examples show
    the model at work; the sample runs also serve as instances of the theorems. *)

From S2P Require Import Prelude NodeFrame NodeLink.

(** The frame with which a node starts. *)
Definition hello_bytes (o : LinkOptions) (epoch : Z) (nonce : bytes) : bytes :=
  default [] (encode_frame (mkFrame hello 0 (encode_challenge (node_id o) epoch nonce))).

(** A signature that shows the key and a sum of the text. *)
Definition sample_sign (c : Z) (m : bytes) : option bytes := Some (repeat c 32 ++ repeat (foldr Z.add 0 m mod 256) 32).

Definition sample_verify (k m s : bytes) : bool := bool_decide (Some s = sample_sign (nth 0 k 0) m) && (size k =? 32).

Definition sample_key (c : Z) : bytes := repeat c 32.

Definition sample_options (id expected : bytes) (c : Z) : LinkOptions :=
  mkLinkOptions id expected 1000 4 4 30000 10000 100 10000 false (Some (sample_sign c)) (Some sample_verify).

Definition sample_snapshot : Snapshot := mkSnapshot 1 [mkNeighbor (s! "a") (sample_key 1); mkNeighbor (s! "b") (sample_key 2)] [].

Definition sample_store : TrustStore := mkTrust (sample_key 9) sample_snapshot [].

Definition options_a : LinkOptions := sample_options (s! "a") (s! "b") 1.
Definition options_b : LinkOptions := sample_options (s! "b") [] 2.

Definition sample_fresh (now n : Z) : Fresh := mkFresh now now (repeat n 32) true.

Definition no_link : NodeLink :=
  mkLink (mkConn None 0 [] [] false false 0 0 false) (mkPeer false challenge no_challenge no_challenge [] 0 [] false None)
    (mkCalls [] 1 0 []) (mkDial [] 0 0 0 false) (mkHandlers false false false) false [] [] 0 [].

Definition run_a (es : list LinkEvent) : NodeLink := run options_a true 0 (λ _, 0) es (default no_link (make_link options_a true 0 (Some sample_store))).
Definition run_b (es : list LinkEvent) : NodeLink := run options_b false 1 (λ _, 0) es (default no_link (make_link options_b false 1 (Some sample_store))).

Definition sent (l : NodeLink) : list bytes := omap (λ x, match x with OWrite d => Some d | _ => None end) (reverse (log l)).

(** A calls B; both send their challenge, then their signature. *)
Definition dial_a : list LinkEvent :=
  [ECall (CStart (s! "b.example") 7000); ETask 0 (sample_fresh 0 5); EOp 0 (RData []) (sample_fresh 0 5); EOp 0 (RData []) (sample_fresh 0 5)].
Definition accept_b : list LinkEvent := [ETask 0 (sample_fresh 0 6); EOp 0 (RData []) (sample_fresh 0 6)].
Definition hello_of_a : bytes := hello_bytes options_a 1 (repeat 5 32).
Definition hello_of_b : bytes := hello_bytes options_b 1 (repeat 6 32).
Definition signature_of (o : LinkOptions) (m : bytes) : bytes :=
  default [] (encode_frame (mkFrame hello_auth 0 (encode_auth_response (node_id o) 1 (default [] (sign o m))))).
Definition sample_message : bytes := auth_message (s! "a") (repeat 5 32) (s! "b") (repeat 6 32).
Definition read_a (k : nat) (d : bytes) : LinkEvent := EOp k (RData d) (sample_fresh 0 5).

Definition shake_a : list LinkEvent := dial_a ++ [read_a 0 hello_of_b; EOp 1 (RData []) (sample_fresh 0 5); read_a 1 (signature_of options_b sample_message)].
Definition shake_b : list LinkEvent := accept_b ++ [read_a 0 hello_of_a; EOp 1 (RData []) (sample_fresh 0 6); read_a 1 (signature_of options_a sample_message)].

Example shake_a_ready : is_ready (run_a shake_a) = true ∧ peer_id (peer_of (run_a shake_a)) = s! "b" ∧ sent (run_a shake_a) = [hello_of_a; signature_of options_a sample_message].
Proof. vm_compute. done. Qed.

Example shake_b_ready : is_ready (run_b shake_b) = true ∧ peer_id (peer_of (run_b shake_b)) = s! "a" ∧ sent (run_b shake_b) = [hello_of_b; signature_of options_b sample_message].
Proof. vm_compute. done. Qed.
