(* ===== verification/NodeLinkSafety.v ===== *)
(** * Who is at the other end of a link

    About [NodeLink]: an authenticated link that is ready has verified its peer's
    signature over this connection's nonce ([link_authenticated]), the peer has signed in a
    handshake with this very link ([handshake_agreement]), revoked neighbours are
    dropped ([revocation_takes_effect]), two honest links that trust each other
    get ready ([handshake_completes]), requests are answered exactly once within
    the limits ([requests_accounted]), and it does not matter how the peer's bytes
    are cut into reads ([reads_are_chunk_independent]). *)

From S2P Require Import Prelude NodeFrame NodeLink NodeSample.

(** ** Reading the log *)

(** Whether the link is past [attach] and not closed. *)
Fixpoint attached (h : list LinkObs) : bool :=
  match h with
  | [] | OClosed :: _ => false
  | OAttached _ :: _ => true
  | _ :: h => attached h
  end.

Fixpoint up (h : list LinkObs) : bool :=
  match h with
  | [] | OClosed :: _ | OAttached _ :: _ => false
  | OReady _ :: _ => true
  | _ :: h => up h
  end.

(** What this side sent as its challenge. *)
Fixpoint last_attached (h : list LinkObs) : Challenge :=
  match h with
  | [] => no_challenge
  | OAttached c :: _ => c
  | _ :: h => last_attached h
  end.

(** The configuration of the trust store. *)
Fixpoint in_force (initial : Snapshot) (h : list LinkObs) : Snapshot :=
  match h with
  | [] => initial
  | OTrust s :: _ => s
  | _ :: h => in_force initial h
  end.

Definition op_gen (x : Op) : option nat :=
  match x with OpConnect g _ | OpTls g _ | OpRead g | OpWrite g | OpTick g => Some g | _ => None end.

Definition connecting (x : Op) : bool := match x with OpConnect _ _ | OpTls _ _ => true | _ => false end.

Definition is_reconnect (x : Op) : bool := match x with OpReconnect _ => true | _ => false end.

Definition is_attach (t : Task) : bool := match t with TAttach _ => true | _ => false end.

Definition count {A} (f : A → bool) (l : list A) : nat := length (List.filter f l).
Arguments count : simpl never.

Lemma count_of_app {A} (f : A → bool) l l' : count f (l ++ l') = (count f l + count f l')%nat.
Proof. unfold count. by rewrite List.filter_app, length_app. Qed.

Lemma count_delete {A} (f : A → bool) l k x : l !! k = Some x → count f l = ((if f x then 1 else 0) + count f (delete k l))%nat.
Proof.
  intros H. rewrite <-(take_drop_middle l k x H) at 1. rewrite delete_take_drop, !count_of_app. unfold count. cbn. destruct (f x); cbn; lia.
Qed.

Lemma count_delete_le {A} (f : A → bool) l : ∀ k, (count f (delete k l) ≤ count f l)%nat.
Proof.
  intros k. destruct (l !! k) as [x |] eqn:E; [rewrite (count_delete f l k x E); lia |].
  rewrite delete_take_drop. apply lookup_ge_None in E. rewrite take_ge, drop_ge, app_nil_r by lia. done.
Qed.

Lemma count_pos {A} (f : A → bool) l x : x ∈ l → f x = true → (0 < count f l)%nat.
Proof.
  intros (k & Hk)%list_elem_of_lookup Hf. rewrite (count_delete f l k x Hk), Hf. lia.
Qed.

Lemma count_none {A} (f : A → bool) l : count f l = 0%nat → ∀ x, x ∈ l → f x = true → False.
Proof. intros H x Hx Hf. pose proof (count_pos f l x Hx Hf). lia. Qed.

Lemma count_zero {A} (f : A → bool) l : (∀ x, x ∈ l → f x = true → False) → count f l = 0%nat.
Proof.
  intros H. unfold count. destruct (List.filter f l) as [| x r] eqn:E; [done |].
  assert (In x (List.filter f l)) as Hx by (rewrite E; by left). apply filter_In in Hx as [H1 H2]. destruct (H x); [by apply list_elem_of_In | done].
Qed.

Section Safety.
Context (o : LinkOptions) (client : bool) (me : nat) (random : Z → Z) (initial : Snapshot).

Definition acceptable (p : bytes) : Prop :=
  p ≠ [] ∧ p ≠ node_id o ∧ (expected_peer_id o = [] ∨ expected_peer_id o = p).

(** What may be seen after a given history. *)
Definition obs_ok (x : LinkObs) (before : list LinkObs) : Prop :=
  match x with
  | OReady p =>
      attached before = true ∧
      (authenticated o = true → ∃ key nonce signature rest,
         before = OVerify key (auth_message p nonce (node_id o) (ch_nonce (last_attached rest))) signature true :: rest ∧
         mkNeighbor p key ∈ s_neighbors (in_force initial rest) ∧ acceptable p ∧ side_ok p nonce)
  | ORequest _ _ | ONotify _ | OResponse _ _ => up before = true
  | OSign m =>
      attached before = true ∧ ∃ p nonce,
        m = auth_message (node_id o) (ch_nonce (last_attached before)) p nonce ∧ acceptable p ∧ side_ok p nonce ∧
        listed (s_neighbors (in_force initial before)) p = true
  | OVerify k m s accepted => accepted = verify o k m s
  | OAttached c => authenticated o = true → ch_node_id c = node_id o ∧ size (ch_nonce c) = kNonceBytes
  | OTrust s => s_epoch (in_force initial before) < s_epoch s
  | _ => True
  end.

Fixpoint trace_ok (h : list LinkObs) : Prop :=
  match h with
  | [] => True
  | x :: h => obs_ok x h ∧ trace_ok h
  end.

(** Observations that change nothing of the above. *)
Definition neutral (x : LinkObs) : bool :=
  match x with OAttached _ | OReady _ | OClosed | OTrust _ => false | _ => true end.

Lemma neutral_reads x h : neutral x = true →
  attached (x :: h) = attached h ∧ up (x :: h) = up h ∧ last_attached (x :: h) = last_attached h ∧ in_force initial (x :: h) = in_force initial h.
Proof. by destruct x. Qed.

(** ** The invariant *)

Record LinkInv (l : NodeLink) : Prop := {
  v_idle : attached (log l) = true → is_Some (connected l);
  v_up : is_ready l = up (log l);
  v_done : auth_state (peer_of l) = done ↔ is_ready l = true;
  v_att : auth_state (peer_of l) ≠ challenge → attached (log l) = true;
  v_gens : ∀ x g, x ∈ ops l → op_gen x = Some g → (g ≤ gen l)%nat;
  v_phase : ∀ x, x ∈ ops l → op_gen x = Some (gen l) → attached (log l) = negb (connecting x);
  v_open : ∀ x, x ∈ ops l → op_gen x = Some (gen l) → is_Some (connected l);
  v_retry : ∀ x, x ∈ ops l → is_reconnect x = true → client = true ∧ connected l = None ∧ port (dial_of l) ≠ 0;
  v_retry1 : (count is_reconnect (ops l) ≤ 1)%nat;
  v_port : client = true → is_Some (connected l) → port (dial_of l) ≠ 0;
  v_accept : ∀ t, t ∈ tasks l → is_attach t = true → client = false ∧ connected l = None;
  v_accept1 : (count is_attach (tasks l) ≤ 1)%nat;
  v_start : ∀ h p, TStart h p ∈ tasks l → client = true ∧ p ≠ 0;
  v_bytes : bytes_ok (incoming (conn_of l));
  v_own : authenticated o = true → own_challenge (peer_of l) = last_attached (log l);
  v_trust : authenticated o = true → ∃ t, trust (peer_of l) = Some t ∧ store_ok t ∧ t_snapshot t = in_force initial (log l) ∧ me ∈ t_listeners t;
  v_plain : authenticated o = false → trust (peer_of l) = None;
  v_peer : authenticated o = true → auth_state (peer_of l) ≠ challenge →
           acceptable (ch_node_id (peer_challenge (peer_of l))) ∧ side_ok (ch_node_id (peer_challenge (peer_of l))) (ch_nonce (peer_challenge (peer_of l)));
  v_id : authenticated o = true → is_ready l = true → peer_id (peer_of l) = ch_node_id (peer_challenge (peer_of l));
  v_trace : trace_ok (log l);
}.

(** The part of a link the invariant looks at. *)
Definition same_view (l l' : NodeLink) : Prop :=
  connected l' = connected l ∧ gen l' = gen l ∧ peer_of l' = peer_of l ∧ ops l' = ops l ∧ tasks l' = tasks l ∧ port (dial_of l') = port (dial_of l) ∧
  incoming (conn_of l') = incoming (conn_of l).

Lemma say_inv x l l' :
  LinkInv l → same_view l l' → log l' = x :: log l → neutral x = true → obs_ok x (log l) → LinkInv l'.
Proof.
  intros [] (E1 & E2 & E3 & E4 & E5 & E6 & E7) El Hn Ho. destruct (neutral_reads x (log l) Hn) as (H1 & H2 & H3 & H4). unfold is_ready in *.
  constructor; unfold is_ready; rewrite ?El, ?H1, ?H2, ?H3, ?H4, ?E1, ?E2, ?E3, ?E4, ?E5, ?E6, ?E7; try done.
Qed.

Lemma view_inv l l' : LinkInv l → same_view l l' → log l' = log l → LinkInv l'.
Proof.
  intros [] (E1 & E2 & E3 & E4 & E5 & E6 & E7) El. unfold is_ready in *.
  constructor; unfold is_ready; rewrite ?El, ?E1, ?E2, ?E3, ?E4, ?E5, ?E6, ?E7; try done.
Qed.

(** A new operation of an attached connection. *)
Lemma begin_op_inv x l :
  LinkInv l → is_reconnect x = false → (∀ g, op_gen x = Some g → g = gen l ∧ connecting x = negb (attached (log l)) ∧ is_Some (connected l)) → LinkInv (begin_op x l).
Proof.
  intros [] Hx Hg. constructor; try done; cbn; intros.
  - apply elem_of_app in H as [H | ->%list_elem_of_singleton]; [by eapply v_gens0 |]. destruct (Hg g) as [-> _]; done.
  - apply elem_of_app in H as [H | ->%list_elem_of_singleton]; [by apply v_phase0 |]. destruct (Hg (gen l)) as (_ & -> & _); [done |]. by rewrite negb_involutive.
  - apply elem_of_app in H as [H | ->%list_elem_of_singleton]; [by eapply v_open0 | by destruct (Hg (gen l)) as (_ & _ & ?)].
  - apply elem_of_app in H as [H | ->%list_elem_of_singleton]; [by eapply v_retry0 | congruence].
  - rewrite count_of_app. unfold count at 2. cbn. rewrite Hx. cbn. lia.
Qed.

Lemma delete_op_inv k l : LinkInv l → LinkInv (set_ops (delete k (ops l)) l).
Proof.
  intros []. constructor; try done; cbn; intros; try (eauto using list_elem_of_delete_inv; fail).
  etrans; [apply count_delete_le | done].
Qed.

Lemma delete_task_inv k l : LinkInv l → LinkInv (set_tasks (delete k (tasks l)) l).
Proof.
  intros []. constructor; try done; cbn; intros; try (eauto using list_elem_of_delete_inv; fail).
  etrans; [apply count_delete_le | done].
Qed.

Lemma post_inv t l : LinkInv l → is_attach t = false → (∀ h p, t = TStart h p → client = true ∧ p ≠ 0) → LinkInv (post t l).
Proof.
  intros [] Ht Hs. constructor; try done; cbn; intros.
  - apply elem_of_app in H as [H | ->%list_elem_of_singleton]; [by eapply v_accept0 | congruence].
  - rewrite count_of_app. unfold count at 2. cbn. rewrite Ht. cbn. lia.
  - apply elem_of_app in H as [H | H%list_elem_of_singleton]; [by eapply v_start0 | by eapply Hs].
Qed.

(** ** Steps that leave the connection alone *)

Definition steady (l l' : NodeLink) : Prop :=
  connected l' = connected l ∧ gen l' = gen l ∧ peer_of l' = peer_of l ∧ tasks l' = tasks l ∧ stopped l' = stopped l ∧
  port (dial_of l') = port (dial_of l) ∧ incoming (conn_of l') = incoming (conn_of l) ∧ attached (log l') = attached (log l) ∧
  up (log l') = up (log l) ∧ handlers l' = handlers l ∧ (∀ x, is_reconnect x = true → x ∈ ops l' ↔ x ∈ ops l).

#[global] Instance steady_preorder : PreOrder steady.
Proof.
  split; [by intros l; repeat split |].
  intros l1 l2 l3 (A1 & A2 & A3 & A4 & A5 & A6 & A7 & A8 & A9 & A10 & A11) (B1 & B2 & B3 & B4 & B5 & B6 & B7 & B8 & B9 & B10 & B11).
  do 10 (split; [congruence |]). intros x Hx. by rewrite B11, A11.
Qed.

Definition ok_steady (l l' : NodeLink) : Prop := LinkInv l' ∧ steady l l'.

Lemma ok_steady_trans l l1 l2 : ok_steady l l1 → ok_steady l1 l2 → ok_steady l l2.
Proof. intros [_ H1] [H2 H3]. split; [done | by etrans]. Qed.

Lemma say_steady x l : LinkInv l → neutral x = true → obs_ok x (log l) → ok_steady l (say x l).
Proof.
  intros Hi Hn Ho. split; [by eapply say_inv |]. destruct (neutral_reads x (log l) Hn) as (H1 & H2 & _). by repeat split.
Qed.

Lemma complete_ok id r l : LinkInv l → (∀ p, r = inr p → up (log l) = true) → ok_steady l (complete id r l).
Proof.
  intros Hi Hr. unfold complete. destruct (find_pending _ _); [| split; [done | reflexivity]].
  set (l1 := set_calls _ l). apply (ok_steady_trans l l1); [split; [eapply view_inv; [exact Hi | by repeat split | done] | by repeat split] |].
  apply say_steady; [eapply view_inv; [exact Hi | by repeat split | done] | by destruct r |]. destruct r; [done |]. by eapply Hr.
Qed.

Lemma complete_each_ok ids e : ∀ l, LinkInv l → ok_steady l (complete_each ids e l).
Proof.
  induction ids as [| i ids IH]; intros l Hi; cbn; [split; [done | reflexivity] |].
  pose proof (complete_ok i (inl e) l Hi ltac:(done)) as H. eapply ok_steady_trans; [exact H |]. apply IH. apply H.
Qed.

Lemma emit_state_ok u e l : LinkInv l → ok_steady l (emit_state u e l).
Proof. intros Hi. unfold emit_state. destruct (state_handler _); [by apply say_steady | split; [done | reflexivity]]. Qed.

Lemma begin_op_ok x l :
  LinkInv l → is_reconnect x = false → (∀ g, op_gen x = Some g → g = gen l ∧ connecting x = negb (attached (log l)) ∧ is_Some (connected l)) → ok_steady l (begin_op x l).
Proof.
  intros Hi Hx Hg. split; [by apply begin_op_inv |]. do 10 (split; [done |]). intros y Hy. cbn. rewrite elem_of_app, list_elem_of_singleton.
  split; [intros [? | ->]; [done | congruence] | by left].
Qed.

Lemma set_conn_ok c l :
  LinkInv l → connection c = connected l → generation c = gen l → incoming c = incoming (conn_of l) → ok_steady l (set_conn c l).
Proof. intros Hi H1 H2 H3. split; [eapply view_inv; [exact Hi | by repeat split | done] | by repeat split]. Qed.

Lemma write_next_ok l : LinkInv l → attached (log l) = true → ok_steady l (write_next (gen l) l).
Proof.
  intros Hi Ha. unfold write_next. destruct (writes (conn_of l)) as [| d w]; [by apply set_conn_ok |].
  destruct (connection (conn_of l)) eqn:Ec; [| by apply set_conn_ok]. rewrite Nat.eqb_refl.
  set (l1 := set_conn _ l). assert (ok_steady l l1) as H1 by (apply set_conn_ok; [exact Hi | done | done | done]).
  pose proof (say_steady (OWrite d) l1 (proj1 H1) eq_refl I) as H2. eapply ok_steady_trans; [exact H1 |]. eapply ok_steady_trans; [exact H2 |].
  apply begin_op_ok; [apply H2 | done |]. cbn. intros g [= <-]. split; [done |]. split; [by rewrite Ha | by eexists].
Qed.

Lemma enqueue_ok f l : LinkInv l → attached (log l) = true → ok_steady l (enqueue o f l).2.
Proof.
  intros Hi Ha. unfold enqueue. case_goal; [split; [done | reflexivity] |]. cbn [snd].
  set (l1 := push_write _ l). assert (ok_steady l l1) as H1 by (by apply set_conn_ok).
  destruct (writing (conn_of l1)); [done |]. eapply ok_steady_trans; [exact H1 |]. apply write_next_ok; [apply H1 | done].
Qed.

(** ** Closing *)

Lemma schedule_inv l :
  LinkInv l → client = true → connected l = None → port (dial_of l) ≠ 0 → count is_reconnect (ops l) = 0%nat → LinkInv (schedule_reconnect o random l).
Proof.
  intros [] Hc Hn Hp H0. unfold schedule_reconnect. destruct (stopped l) eqn:Es; [by constructor |].
  constructor; try done; cbn; intros.
  - apply elem_of_app in H as [H | ->%list_elem_of_singleton]; [by eapply v_gens0 | done].
  - apply elem_of_app in H as [H | ->%list_elem_of_singleton]; [by apply v_phase0 | done].
  - apply elem_of_app in H as [H | ->%list_elem_of_singleton]; [by eapply v_open0 | done].
  - rewrite count_of_app, H0. unfold count. cbn. lia.
Qed.

Lemma no_reconnect l : LinkInv l → is_Some (connected l) → count is_reconnect (ops l) = 0%nat.
Proof. intros Hi [k Hk]. apply count_zero. intros x Hx Hr. destruct (v_retry l Hi x Hx Hr) as (_ & H & _). congruence. Qed.

(** Steps that leave the connection alone or close it. *)
Definition calm (l l' : NodeLink) : Prop :=
  trust (peer_of l') = trust (peer_of l) ∧ stopped l' = stopped l ∧ tasks l' = tasks l ∧
  ((connected l' = connected l ∧ gen l' = gen l ∧ is_ready l' = is_ready l ∧ peer_id (peer_of l') = peer_id (peer_of l) ∧ attached (log l') = attached (log l)) ∨
   (connected l' = None ∧ is_ready l' = false ∧ attached (log l') = false)).

#[global] Instance calm_preorder : PreOrder calm.
Proof.
  split; [intros l; do 3 (split; [done |]); by left |].
  intros l1 l2 l3 (A1 & A2 & A3 & A4) (B1 & B2 & B3 & B4). do 3 (split; [congruence |]).
  destruct B4 as [(B4 & B5 & B6 & B7 & B8) | B4]; [| by right].
  destruct A4 as [(A4 & A5 & A6 & A7 & A8) | (A4 & A5 & A6)]; [left | right]; repeat split; congruence.
Qed.

Lemma steady_calm l l' : steady l l' → calm l l'.
Proof.
  intros (A1 & A2 & A3 & A4 & A5 & A6 & A7 & A8 & A9 & A10 & A11). unfold calm, is_ready. rewrite A3.
  do 3 (split; [done |]). left. done.
Qed.

Definition ok_calm (l l' : NodeLink) : Prop := LinkInv l' ∧ calm l l'.

Lemma ok_calm_trans l l1 l2 : ok_calm l l1 → ok_calm l1 l2 → ok_calm l l2.
Proof. intros [_ H1] [H2 H3]. split; [done | by etrans]. Qed.

Lemma ok_calm_steady l l' : ok_steady l l' → ok_calm l l'.
Proof. intros [H1 H2]. split; [done | by apply steady_calm]. Qed.

Lemma ok_calm_refl l : LinkInv l → ok_calm l l.
Proof. by split. Qed.

(** The first half of [disconnect]. *)
Lemma link_close_inv l c p :
  LinkInv l → is_Some (connected l) →
  connection c = None → generation c = S (gen l) → incoming c = [] →
  ready p = false → auth_state p = challenge → own_challenge p = own_challenge (peer_of l) → peer_challenge p = peer_challenge (peer_of l) →
  trust p = trust (peer_of l) →
  LinkInv (say OClosed (set_conn c (set_peer_of p l))).
Proof.
  intros [] Hc C1 C2 C3 P1 P2 P3 P4 P5. destruct Hc as [k Hk].
  assert (client = true → port (dial_of l) ≠ 0) as Hp by (intros ?; apply v_port0; [done | by exists k]).
  constructor; unfold is_ready, connected, gen; cbn [say set_conn set_peer_of log conn_of peer_of ops tasks dial_of calls_of handlers stopped attached up last_attached in_force trace_ok obs_ok];
    rewrite ?C1, ?C2, ?C3, ?P1, ?P2, ?P3, ?P4, ?P5; try done.
  - intros x g Hx Hg. pose proof (v_gens0 x g Hx Hg). unfold gen in *. lia.
  - intros x Hx Hg. pose proof (v_gens0 x _ Hx Hg). unfold gen in *. lia.
  - intros x Hx Hg. pose proof (v_gens0 x _ Hx Hg). unfold gen in *. lia.
  - intros x Hx Hr. destruct (v_retry0 x Hx Hr) as (A & B & C). done.
  - intros t Ht Ha. destruct (v_accept0 t Ht Ha). done.
Qed.

Lemma disconnect_ok e l : LinkInv l → ok_calm l (disconnect o client random e l).
Proof.
  intros Hi. unfold disconnect. destruct (connected l) as [k |] eqn:Ek; [| by apply ok_calm_refl].
  assert (is_Some (connected l)) as Hc by (by exists k).
  set (l1 := say OClosed _). assert (LinkInv l1) as H1 by (by apply link_close_inv).
  pose proof (complete_each_ok (pending (calls_of l1)).*1 e l1 H1) as H2. fold (fail_pending e l1) in H2.
  pose proof (emit_state_ok false (Some e) _ (proj1 H2)) as H3. pose proof (ok_steady_trans _ _ _ H2 H3) as H4.
  set (l2 := emit_state false (Some e) (fail_pending e l1)) in *. destruct H4 as [Hi2 Hs2].
  pose proof Hs2 as (A1 & A2 & A3 & A4 & A5 & A6 & A7 & A8 & A9 & A10 & A11).
  assert (calm l l1) as Hc1 by (repeat (split; [done |]); right; done).
  assert (calm l l2) as Hc2 by (etrans; [exact Hc1 | by apply steady_calm]).
  destruct (client && negb (stopped l2) && negb (peer_revoked (peer_of l))) eqn:E; [| by split]. bool_prop.
  assert (count is_reconnect (ops l2) = 0%nat) as Hn0.
  { apply count_zero. intros x Hx Hr. apply A11 in Hx; [| done]. by destruct (count_none _ _ (no_reconnect l Hi Hc) x Hx Hr). }
  split; [apply schedule_inv; [done | done | by rewrite A1 | rewrite A6; by apply (v_port l Hi) | done] |].
  etrans; [exact Hc2 |]. unfold schedule_reconnect. destruct (stopped l2); [reflexivity |]. repeat (split; [done |]). by left.
Qed.

Lemma enqueue_or_drop_ok f l : LinkInv l → attached (log l) = true → ok_calm l (enqueue_or_drop o client random f l).
Proof.
  intros Hi Ha. unfold enqueue_or_drop. pose proof (enqueue_ok f l Hi Ha) as H. destruct (enqueue o f l) as [q l1]. cbn in H.
  destruct q; [by apply ok_calm_steady |]. eapply ok_calm_trans; [by apply ok_calm_steady | by apply disconnect_ok, H].
Qed.

Lemma arm_tick_ok l : LinkInv l → attached (log l) = true → ok_calm l (arm_tick (gen l) l).
Proof.
  intros Hi Ha. unfold arm_tick. set (l1 := set_conn _ l). assert (ok_steady l l1) as H1 by (by apply set_conn_ok).
  apply ok_calm_steady. eapply ok_steady_trans; [exact H1 |]. apply begin_op_ok; [apply H1 | done |]. cbn. intros g [= <-]. split; [done |]. split; [by rewrite Ha | by apply (v_idle _ Hi)].
Qed.

Lemma tick_ok now g l : LinkInv l → (g = gen l → connected l ≠ None → attached (log l) = true) → ok_calm l (tick o client random now g l).
Proof.
  intros Hi Ha. unfold tick. destruct (Nat.eqb_spec g (gen l)) as [-> |]; cbn [negb orb]; [| by apply ok_calm_refl].
  destruct (bool_decide (connected l = None)) eqn:Ec; bool_prop; [by apply ok_calm_refl |]. specialize (Ha eq_refl Ec). cbn [orb].
  destruct (stopped l); [by apply ok_calm_refl |].
  destruct (bool_decide (auth_state (peer_of l) = done)); cbn [negb].
  2: { case_goal; [by apply disconnect_ok | by apply arm_tick_ok]. }
  destruct (awaiting_pong (conn_of l)); [case_goal; [by apply disconnect_ok | by apply arm_tick_ok] |].
  case_goal; [| by apply arm_tick_ok]. pose proof (enqueue_ok (mkFrame ping 0 []) l Hi Ha) as H. destruct (enqueue o _ l) as [q l1]. cbn in H.
  destruct q; cbn [negb].
  - set (l2 := set_conn _ l1). assert (ok_steady l1 l2) as H2 by (apply set_conn_ok; [apply H | done | done | done]).
    pose proof (ok_steady_trans _ _ _ H H2) as H3. eapply ok_calm_trans; [by apply ok_calm_steady |].
    pose proof (proj2 H3) as (A1 & A2 & A3 & A4 & A5 & A6 & A7 & A8 & _). rewrite <-A2. apply arm_tick_ok; [apply H2 | by rewrite A8].
  - eapply ok_calm_trans; [by apply ok_calm_steady | by apply disconnect_ok, H].
Qed.

Lemma read_next_ok g l : LinkInv l → (connected l ≠ None → attached (log l) = true) → ok_calm l (read_next g l).
Proof.
  intros Hi Ha. unfold read_next. destruct (connected l) eqn:Ec; [| by apply ok_calm_refl]. destruct (Nat.eqb_spec g (gen l)) as [-> |]; [| by apply ok_calm_refl].
  apply ok_calm_steady, begin_op_ok; [done | done |]. cbn. intros g [= <-]. split; [done |]. split; [by rewrite Ha | by rewrite Ec].
Qed.

(** ** The handshake *)

Lemma peer_acceptable_spec id l :
  peer_acceptable o id l = true → acceptable id ∧ trusts_id l id = true.
Proof.
  unfold peer_acceptable, acceptable. intros H. guards H. destruct (trusts_id l id); [| done].
  apply orb_true_iff in H as [H | H]; bool_prop; naive_solver.
Qed.

Lemma trusts_listed l id : authenticated o = true → LinkInv l → trusts_id l id = listed (s_neighbors (in_force initial (log l))) id.
Proof. intros Ha Hi. destruct (v_trust l Hi Ha) as (t & Ht & _ & Es & _). unfold trusts_id, trusts. by rewrite Ht, Es. Qed.

(** Entering the state [response]. *)
Lemma respond_inv l p :
  LinkInv l → attached (log l) = true → auth_state (peer_of l) = challenge →
  ready p = is_ready l → auth_state p = response → own_challenge p = own_challenge (peer_of l) → trust p = trust (peer_of l) → peer_id p = peer_id (peer_of l) →
  acceptable (ch_node_id (peer_challenge p)) → side_ok (ch_node_id (peer_challenge p)) (ch_nonce (peer_challenge p)) →
  LinkInv (set_peer_of p l).
Proof.
  intros [] Hatt Hch P1 P2 P3 P4 P5 Hacc Hside.
  assert (is_ready l = false) as Hr. { destruct (is_ready l); [| done]. destruct v_done0 as [_ H]. rewrite H in Hch by done. done. }
  constructor; unfold is_ready in *; cbn [set_peer_of log conn_of peer_of ops tasks dial_of]; try rewrite ?P1, ?P2, ?P3, ?P4, ?P5, ?Hr in *; try done.
Qed.

Lemma handle_hello_challenge_ok f l :
  authenticated o = true → bytes_ok (f_payload f) → LinkInv l → attached (log l) = true → ok_calm l (handle_hello_challenge o client random f l).
Proof.
  intros Hauth Hb Hi Ha. unfold handle_hello_challenge. destruct (bool_decide (auth_state (peer_of l) = challenge)) eqn:Ec; cbn [negb]; [| by apply disconnect_ok].
  bool_prop. destruct (decode_challenge (f_payload f)) as [[[id epoch] nonce] |] eqn:Ed; [| by apply disconnect_ok].
  destruct (negb (peer_acceptable o id l) || seen_nonce nonce l) eqn:Eg; [by apply disconnect_ok |]. bool_prop.
  match goal with H : peer_acceptable _ _ _ = true |- _ => apply peer_acceptable_spec in H as [Hacc Htr] end.
  apply decode_signed_exact in Ed as (_ & Hsh & _ & Hsz); [| done | done]. assert (side_ok id nonce) as Hside by done.
  set (l1 := set_peer_of _ l). assert (LinkInv l1) as H1 by (by apply respond_inv).
  assert (calm l l1) as C1 by (repeat (split; [done |]); by left).
  set (m := auth_message _ _ _ _).
  assert (ok_steady l1 (say (OSign m) l1)) as H2.
  { apply say_steady; [done | done |]. split; [done |]. exists id, nonce. cbn [log l1 set_peer_of]. split; [by rewrite <-(v_own l Hi Hauth) |].
    split; [done |]. split; [done |]. by rewrite <-trusts_listed. }
  assert (ok_calm l (say (OSign m) l1)) as H3 by (split; [apply H2 | etrans; [exact C1 | by apply steady_calm, H2]]).
  destruct (sign o m) as [sg |]; [| eapply ok_calm_trans; [exact H3 | by apply disconnect_ok, H2]].
  destruct (negb (size sg =? kSignatureBytes)); [eapply ok_calm_trans; [exact H3 | by apply disconnect_ok, H2] |].
  eapply ok_calm_trans; [exact H3 |]. apply enqueue_or_drop_ok; [apply H2 | done].
Qed.

Context (verify_key : ∀ k m s, verify o k m s = true → size k = 32).

Lemma become_ready_inv id epoch l :
  LinkInv l → attached (log l) = true → auth_state (peer_of l) ≠ challenge ∨ authenticated o = false →
  (authenticated o = true → id = ch_node_id (peer_challenge (peer_of l))) → obs_ok (OReady id) (log l) →
  LinkInv (become_ready id epoch l).
Proof.
  intros Hi Ha Hs Hid Ho. unfold become_ready. set (l1 := say (OReady id) _). apply emit_state_ok. pose proof Hi as [].
  constructor; unfold is_ready; cbn; try done.
  - intros Hauth _. destruct Hs as [Hs | Hs]; [by apply v_peer0 | congruence].
  - intros Hauth _. by apply Hid.
Qed.

Lemma handle_hello_auth_inv f l :
  authenticated o = true → bytes_ok (f_payload f) → LinkInv l → LinkInv (handle_hello_auth o client random f l).
Proof.
  intros Hauth Hb Hi. unfold handle_hello_auth. destruct (bool_decide (auth_state (peer_of l) = response)) eqn:Ec; cbn [negb]; [| by apply disconnect_ok].
  bool_prop. assert (auth_state (peer_of l) ≠ challenge) as Hn by congruence. pose proof (v_att l Hi Hn) as Ha.
  destruct (decode_auth_response (f_payload f)) as [[[id epoch] sg] |] eqn:Ed; [| by apply disconnect_ok].
  destruct (bool_decide (id = ch_node_id (peer_challenge (peer_of l)))) eqn:Eid; cbn [negb]; [| by apply disconnect_ok]. bool_prop.
  destruct (v_trust l Hi Hauth) as (t & Ht & [Hw _] & Es & _). rewrite Ht. cbn [neighbor_key].
  set (m := auth_message _ _ _ _). destruct (v_peer l Hi Hauth Hn) as [Hacc Hside]. rewrite <-Eid in Hacc, Hside.
  pose proof (say_steady (OVerify (neighbor_key t id) m sg (verify o (neighbor_key t id) m sg)) l Hi eq_refl eq_refl) as H1.
  destruct (verify o (neighbor_key t id) m sg) eqn:Ev; [| by apply disconnect_ok, H1].
  apply become_ready_inv; [apply H1 | done | by left | done |]. split; [done |]. intros _.
  exists (neighbor_key t id), (ch_nonce (peer_challenge (peer_of l))), sg, (log l). cbn [log say].
  split; [unfold m; by rewrite (v_own l Hi Hauth) |]. split; [| done]. rewrite <-Es. apply find_key_elem, find_key_listed; [done |]. by apply verify_key in Ev.
Qed.

(** ** The trust set *)

Lemma notify_listeners_tasks s who : ∀ l,
  let l' := notify_listeners me s who l in
  (∀ t, t ∈ tasks l' → t ∈ tasks l ∨ t = TRecheck s) ∧ (∀ t, t ∈ tasks l → t ∈ tasks l') ∧ (me ∈ who → TRecheck s ∈ tasks l') ∧
  count is_attach (tasks l') = count is_attach (tasks l) ∧ ∃ ts, l' = set_tasks ts (say (OTrust s) l).
Proof.
  intros l. unfold notify_listeners. generalize (say (OTrust s) l) as l0, (eq_refl : tasks (say (OTrust s) l) = tasks l). intros l0 E. rewrite <-E. clear E.
  revert l0. induction who as [| i who IH]; intros l0; cbn [foldl].
  - split; [by left |]. split; [done |]. split; [by intros []%not_elem_of_nil |]. split; [done |]. exists (tasks l0). by destruct l0.
  - destruct (Nat.eqb_spec i me) as [-> | Hne].
    + destruct (IH (post (TRecheck s) l0)) as (A & B & _ & D & ts & E).
      assert (∀ t, t ∈ tasks (post (TRecheck s) l0) ↔ t ∈ tasks l0 ∨ t = TRecheck s) as Hp by (intros t; cbn; by rewrite elem_of_app, list_elem_of_singleton).
      split; [intros t Ht; apply A in Ht as [Ht | ->]; [by apply Hp | by right] |]. split; [intros t Ht; apply B, Hp; by left |].
      split; [intros _; apply B, Hp; by right |]. split; [| by exists ts]. rewrite D. cbn. rewrite count_of_app. unfold count at 2. cbn. lia.
    + destruct (IH l0) as (A & B & C & D & E). split; [done |]. split; [done |]. split; [| done].
      intros [-> | H]%elem_of_cons; [done | by apply C].
Qed.

(** A peer that is ready is trusted, or a recheck against the current
    configuration is on its way; a stopped link is closed or about to be. *)
Record TrustInv (l : NodeLink) : Prop := {
  r_trusted : authenticated o = true → is_ready l = true → stopped l = false →
    ∀ t, trust (peer_of l) = Some t → trusts t (peer_id (peer_of l)) = true ∨ TRecheck (t_snapshot t) ∈ tasks l;
  r_stop : stopped l = true → TStop ∈ tasks l ∨ connected l = None;
}.

Definition Good (l : NodeLink) : Prop := LinkInv l ∧ TrustInv l.

Lemma calm_trust l l' : calm l l' → TrustInv l → TrustInv l'.
Proof.
  intros (A1 & A2 & A3 & A4) [R1 R2]. split.
  - rewrite A1, A2, A3. intros Ha Hr Hs t Ht. destruct A4 as [(B1 & B2 & B3 & B4 & B5) | (B1 & B2 & B3)]; [| congruence]. rewrite B4. apply R1; congruence.
  - rewrite A2, A3. intros Hs. destruct A4 as [(B1 & _) | (B1 & _)]; [rewrite B1; auto | by right].
Qed.

Lemma ok_calm_good l l' : ok_calm l l' → TrustInv l → Good l'.
Proof. intros [H1 H2] H. split; [done | by eapply calm_trust]. Qed.

(** What holds while frames are handled. *)
Definition Reading (l : NodeLink) : Prop := Good l ∧ (connected l ≠ None → attached (log l) = true).

Lemma ok_calm_reading l l' : ok_calm l l' → Reading l → Reading l'.
Proof.
  intros Hc [[_ Ht] Ha]. split; [by eapply ok_calm_good |]. destruct Hc as (_ & _ & _ & _ & [(B1 & _ & _ & _ & B5) | (B1 & _)]); [| congruence].
  intros Hn. rewrite B5. apply Ha. congruence.
Qed.

Lemma become_ready_fields id epoch l :
  let l' := become_ready id epoch l in
  is_ready l' = true ∧ peer_id (peer_of l') = id ∧ trust (peer_of l') = trust (peer_of l) ∧ stopped l' = stopped l ∧ tasks l' = tasks l ∧ connected l' = connected l ∧
  attached (log l') = attached (log l).
Proof. unfold become_ready, emit_state. cbn. by destruct (state_handler (handlers l)). Qed.

Lemma become_ready_reading id epoch l :
  LinkInv (become_ready id epoch l) → Reading l → (authenticated o = true → ∀ t, trust (peer_of l) = Some t → trusts t id = true) → Reading (become_ready id epoch l).
Proof.
  intros Hi [[_ [R1 R2]] Ha] Ht. destruct (become_ready_fields id epoch l) as (A1 & A2 & A3 & A4 & A5 & A6 & A7).
  split; [split; [done |]; split |].
  - rewrite A2, A3. intros Hau _ _ t E. left. by apply Ht.
  - rewrite A4, A5, A6. done.
  - rewrite A6, A7. done.
Qed.

Lemma handle_hello_auth_reading f l :
  authenticated o = true → bytes_ok (f_payload f) → Reading l → Reading (handle_hello_auth o client random f l).
Proof.
  intros Hauth Hb Hr. pose proof Hr as [[Hi Ht] Ha]. pose proof (handle_hello_auth_inv f l Hauth Hb Hi) as Hi'. revert Hi'.
  assert (∀ e, Reading (disconnect o client random e l)) as Hd by (intros e; eapply ok_calm_reading; [by apply disconnect_ok | done]).
  unfold handle_hello_auth. destruct (bool_decide (auth_state (peer_of l) = response)) eqn:Ec; cbn [negb]; [| done].
  destruct (decode_auth_response (f_payload f)) as [[[id epoch] sg] |]; [| done].
  destruct (bool_decide (id = ch_node_id (peer_challenge (peer_of l)))); cbn [negb]; [| done].
  destruct (v_trust l Hi Hauth) as (t & Et & [Hw _] & Es & _). rewrite Et.
  set (m := auth_message _ _ _ _). pose proof (say_steady (OVerify (neighbor_key t id) m sg (verify o (neighbor_key t id) m sg)) l Hi eq_refl eq_refl) as H1.
  pose proof (ok_calm_reading _ _ (ok_calm_steady _ _ H1) Hr) as Hr1.
  destruct (verify o (neighbor_key t id) m sg) eqn:Ev; intros Hi'.
  - apply become_ready_reading; [done | done |]. intros _ t' Et'. cbn in Et'. rewrite Et in Et'. injection Et' as <-.
    apply find_key_listed; [done |]. by apply verify_key in Ev.
  - eapply ok_calm_reading; [by apply disconnect_ok, H1 | done].
Qed.

Lemma apply_to_store_inv s l : authenticated o = true → LinkInv l → LinkInv (apply_to_store me s l).2.
Proof.
  intros Hauth Hi. unfold apply_to_store. destruct (v_trust l Hi Hauth) as (t & Et & Hok & Es & Hme). rewrite Et.
  destruct (apply_snapshot s t) as [| | t' who] eqn:E; [done | done |]. cbn [snd].
  destruct (apply_newer s t t' who E Hok) as (Hlt & Hok' & Hs' & ->).
  set (l1 := set_peer_of _ l). destruct (notify_listeners_tasks s (t_listeners t) l1) as (A & B & C & D & ts & E').
  rewrite E' in A, B, C, D |- *. cbn in A, B, C, D. destruct Hi. constructor; unfold is_ready in *; cbn in *; try done.
  - intros x [Hx | ->]%A Ha; [by eapply v_accept0 | done].
  - by rewrite D.
  - intros h p [Hx | Hx]%A; [by eapply v_start0 | done].
  - intros _. exists t'. split; [done |]. split; [done |]. split; [done |]. unfold apply_snapshot in E. repeat case_hyp E; try done. by injection E as <-.
  - congruence.
  - split; [| done]. unfold t_epoch in Hlt. by rewrite <-Es, <-Hs'.
Qed.

Lemma apply_to_store_trust s l : authenticated o = true → Good l → TrustInv (apply_to_store me s l).2.
Proof.
  intros Hauth [Hi [R1 R2]]. unfold apply_to_store. destruct (v_trust l Hi Hauth) as (t & Et & Hok & Es & Hme). rewrite Et.
  destruct (apply_snapshot s t) as [| | t' who] eqn:E; [by split | by split |]. cbn [snd].
  destruct (apply_newer s t t' who E Hok) as (Hlt & Hok' & Hs' & ->).
  set (l1 := set_peer_of _ l). destruct (notify_listeners_tasks s (t_listeners t) l1) as (A & B & C & D & ts & E').
  rewrite E' in A, B, C, D |- *. cbn in A, B, C, D. split; cbn.
  - intros _ Hr Hst t0 [= <-]. right. rewrite Hs'. by apply C.
  - intros Hst. destruct (R2 Hst) as [H | H]; [left; by apply B | by right].
Qed.

Lemma apply_to_store_good s l : authenticated o = true → Good l → Good (apply_to_store me s l).2.
Proof. intros Ha Hg. split; [by apply apply_to_store_inv; [| apply Hg] | by apply apply_to_store_trust]. Qed.

Lemma apply_to_store_fields s l :
  let l' := (apply_to_store me s l).2 in connected l' = connected l ∧ attached (log l') = attached (log l) ∧ calls_of l' = calls_of l ∧ writes (conn_of l') = writes (conn_of l).
Proof.
  unfold apply_to_store. destruct (trust (peer_of l)) as [t |]; [| done]. destruct (apply_snapshot s t) as [| | t' who]; [done | done |]. cbn [snd].
  set (l1 := set_peer_of _ l). by destruct (notify_listeners_tasks s who l1) as (_ & _ & _ & _ & ts & ->).
Qed.

Lemma apply_to_store_reading s l : authenticated o = true → Reading l → Reading (apply_to_store me s l).2.
Proof.
  intros Hauth [Hg Ha]. split; [by apply apply_to_store_good |]. destruct (apply_to_store_fields s l) as (E1 & E2 & _). by rewrite E1, E2.
Qed.

Lemma handle_data_ok f l : LinkInv l → is_ready l = true → attached (log l) = true → ok_calm l (handle_data o client random f l).
Proof.
  intros Hi Hr Ha. assert (up (log l) = true) as Hu by (by rewrite <-(v_up l Hi)). unfold handle_data.
  destruct (f_type f); try (by apply ok_calm_refl); try by apply enqueue_or_drop_ok.
  - apply ok_calm_steady. by apply set_conn_ok.
  - destruct (request_handler _); [by apply ok_calm_steady, say_steady | by apply ok_calm_refl].
  - apply ok_calm_steady. by apply complete_ok.
  - destruct (notify_handler _); [by apply ok_calm_steady, say_steady | by apply ok_calm_refl].
Qed.

Lemma apply_epoch_config_reading payload l : authenticated o = true → Reading l → Reading (apply_epoch_config o client me random payload l).2.
Proof.
  intros Hauth Hr. pose proof Hr as [[Hi Ht] Ha]. unfold apply_epoch_config.
  destruct (decode_epoch_update payload) as [[s sg] |]; [| eapply ok_calm_reading; [by apply disconnect_ok | done]].
  set (k := match trust _ with Some t => _ | None => _ end). set (m := take _ _).
  pose proof (say_steady (OVerify k m sg (verify o k m sg)) l Hi eq_refl eq_refl) as H1.
  pose proof (ok_calm_reading _ _ (ok_calm_steady _ _ H1) Hr) as Hr1. destruct (verify o k m sg); [by apply apply_to_store_reading | done].
Qed.

Lemma handle_frame_reading f l : bytes_ok (f_payload f) → Reading l → connected l ≠ None → Reading (handle_frame o client me random f l).2.
Proof.
  intros Hb Hr Hc. pose proof Hr as [[Hi Ht] Ha]. specialize (Ha Hc).
  assert (∀ e, Reading (disconnect o client random e l)) as Hd by (intros e; eapply ok_calm_reading; [by apply disconnect_ok | done]).
  assert (auth_state (peer_of l) = done → Reading (handle_data o client random f l)) as Hdata.
  { intros E. eapply ok_calm_reading; [apply handle_data_ok; [done | by apply (v_done l Hi) | done] | done]. }
  unfold handle_frame. destruct (bool_decide (auth_state (peer_of l) = done)) eqn:Ed; bool_prop.
  - destruct (authenticated o) eqn:Hauth.
    + destruct (f_type f); cbn [snd]; try (by apply Hdata); try by apply apply_epoch_config_reading.
      * eapply ok_calm_reading; [by apply handle_hello_challenge_ok | done].
      * by apply handle_hello_auth_reading.
    + destruct (f_type f); cbn [snd]; first [by apply Hd | by apply Hdata | case_goal; [by apply Hd | by apply Hdata]].
  - destruct (authenticated o) eqn:Hauth.
    + destruct (f_type f); cbn [snd]; try done.
      * eapply ok_calm_reading; [by apply handle_hello_challenge_ok | done].
      * by apply handle_hello_auth_reading.
    + destruct (f_type f); cbn [snd]; try (by apply Hd); case_goal; try (by apply Hd).
      apply become_ready_reading; [| done | by rewrite Hauth]. apply become_ready_inv; [done | done | by right | by rewrite Hauth |].
      split; [done | by rewrite Hauth].
Qed.

(** ** Reading *)

Lemma set_incoming_ok s l : LinkInv l → bytes_ok s → ok_calm l (set_incoming s l).
Proof.
  intros [] Hs. split; [by constructor | repeat (split; [done |]); by left].
Qed.

Lemma decode_frame_bytes s n f : bytes_ok s → decode_frame s n = Some f → bytes_ok (f_payload f).
Proof.
  intros Hs H. unfold decode_frame in H. case_hyp H; [done |]. destruct (frame_of_byte _); [| done]. cbn in H. case_hyp H; [done |].
  injection H as <-. cbn. auto with proto.
Qed.

Lemma consume_loop_reading fuel : ∀ l, Reading l → connected l ≠ None → Reading (consume_loop o client me random fuel l).2.
Proof.
  induction fuel as [| fuel IH]; intros l Hr Hc; [done |]. cbn [consume_loop]. pose proof Hr as [[Hi Ht] Ha]. pose proof (v_bytes l Hi) as Hb.
  assert (∀ e, Reading (disconnect o client random e l)) as Hd by (intros e; eapply ok_calm_reading; [by apply disconnect_ok | done]).
  case_goal; [done |]. case_goal; [by apply Hd |]. case_goal; [done |].
  destruct (decode_frame _ _) as [f |] eqn:Ef; [| by apply Hd]. apply decode_frame_bytes in Ef; [| auto with proto].
  set (l1 := set_incoming _ l). assert (Reading l1) as Hr1 by (eapply ok_calm_reading; [apply set_incoming_ok; [done | auto with proto] | done]).
  pose proof (handle_frame_reading f l1 Ef Hr1 Hc) as H2. destruct (handle_frame o client me random f l1) as [threw l2]. cbn [snd] in H2.
  destruct threw; [done |]. destruct (connected l2) eqn:Ec; [| done]. apply IH; [done | congruence].
Qed.

Lemma consume_reading data l : bytes_ok data → Reading l → connected l ≠ None → Reading (consume o client me random data l).2.
Proof.
  intros Hd Hr Hc. unfold consume. set (l1 := set_incoming _ l). pose proof Hr as [[Hi Ht] Ha].
  assert (Reading l1) as Hr1 by (eapply ok_calm_reading; [apply set_incoming_ok; [done | apply bytes_ok_app; split; [apply (v_bytes l Hi) | done]] | done]).
  by apply consume_loop_reading.
Qed.

(** ** Connecting *)

Definition fresh_ok (fr : Fresh) : Prop := size (f_nonce fr) = kNonceBytes.

Lemma no_attach l : LinkInv l → is_Some (connected l) → count is_attach (tasks l) = 0%nat.
Proof. intros Hi [k Hk]. apply count_zero. intros x Hx Hr. destruct (v_accept l Hi x Hx Hr). congruence. Qed.

Lemma attach_good fr k l :
  Good l → is_ready l = false → count is_attach (tasks l) = 0%nat → count is_reconnect (ops l) = 0%nat →
  (client = true → port (dial_of l) ≠ 0) → (stopped l = true → attached (log l) = false) → fresh_ok fr → Good (attach o client random fr k l).
Proof.
  intros [Hi [R1 R2]] Hr Hat Hre Hp Hst Hf. unfold attach. destruct (stopped l) eqn:Es.
  { split.
    - specialize (Hst eq_refl). destruct Hi. unfold is_ready in *. constructor; unfold is_ready; cbn; try done.
      + intros H. exfalso. apply v_att0 in H. congruence.
      + intros x Hx Hg. rewrite <-Hst. by apply v_phase0.
    - split; cbn; [intros _ H; unfold is_ready in *; cbn in H; congruence | by rewrite Es]. }
  set (own := if authenticated o then mkChallenge _ _ _ else _). set (l1 := say (OAttached own) _).
  assert (LinkInv l1) as H1.
  { destruct Hi. unfold is_ready in *. constructor; unfold is_ready; cbn; try done.
    - by rewrite Hr.
    - intros x g Hx Hg. pose proof (v_gens0 x g Hx Hg). unfold gen in *. cbn. lia.
    - intros x Hx Hg. pose proof (v_gens0 x _ Hx Hg). unfold gen in *. cbn in *. lia.
    - intros x Hx Hx2. by destruct (count_none _ _ Hre x Hx Hx2).
    - intros Hc _. by apply Hp.
    - intros x Hx Hx2. by destruct (count_none _ _ Hat x Hx Hx2).
    - intros _ H. congruence.
    - split; [| done]. intros Ha. unfold own. rewrite Ha. by split. }
  assert (TrustInv l1) as T1 by (split; cbn; [intros _ H; unfold is_ready in *; cbn in H; congruence | by rewrite Es]).
  set (f := mkFrame _ _ _). pose proof (enqueue_ok f l1 H1 eq_refl) as H2. destruct (enqueue o f l1) as [q l2]. cbn [snd] in H2.
  assert (ok_calm l1 l2) as C2 by (by apply ok_calm_steady). destruct q; cbn [negb].
  - assert (connected l2 ≠ None → attached (log l2) = true) as Ha2. { intros _. destruct H2 as [_ (_ & _ & _ & _ & _ & _ & _ & E & _)]. by rewrite E. }
    pose proof (read_next_ok (gen l2) l2 (proj1 H2) Ha2) as H3.
    assert (Reading l1) as Hr1 by done. pose proof (ok_calm_reading _ _ C2 Hr1) as Hr2. pose proof (ok_calm_reading _ _ H3 Hr2) as Hr3.
    apply (ok_calm_good (read_next (gen l2) l2)); [| apply Hr3]. apply tick_ok; [apply H3 | intros _; apply Hr3].
  - apply (ok_calm_good l2); [by apply disconnect_ok, H2 |]. eapply calm_trust; [apply C2 | done].
Qed.

Lemma begin_connect_good fr l :
  Good l → client = true → connected l = None → count is_reconnect (ops l) = 0%nat → port (dial_of l) ≠ 0 → Good (begin_connect o random fr l).
Proof.
  intros [Hi Ht] Hc Hn Hre Hp. unfold begin_connect. destruct (stopped l) eqn:Es; [done |].
  set (l1 := set_dial _ l). assert (LinkInv l1) as H1 by (eapply view_inv; [exact Hi | by repeat split | done]).
  assert (calm l l1) as C1 by (repeat (split; [done |]); by left). assert (attached (log l) = false) as Ha.
  { destruct (attached (log l)) eqn:E; [| done]. apply (v_idle l Hi) in E as [k E]. congruence. }
  destruct (f_transport fr); cbn [negb].
  - destruct Hi. destruct Ht as [R1 R2]. split.
    + constructor; try done; cbn.
      * intros x g [Hx | ->%list_elem_of_singleton]%elem_of_app Hg; unfold gen; cbn; [pose proof (v_gens0 x g Hx Hg); unfold gen in *; lia | by injection Hg as <-].
      * intros x [Hx | ->%list_elem_of_singleton]%elem_of_app Hg; unfold gen in *; cbn in *; [pose proof (v_gens0 x _ Hx Hg); unfold gen in *; lia | done].
      * intros x [Hx | ->%list_elem_of_singleton]%elem_of_app Hx2; [by destruct (count_none _ _ Hre x Hx Hx2) | done].
      * rewrite count_of_app, Hre. unfold count. cbn. lia.
      * intros t Hx Hx2. destruct (v_accept0 t Hx Hx2). congruence.
    + split; cbn; [done |]. congruence.
  - apply (ok_calm_good l1); [| by eapply calm_trust]. split; [by apply schedule_inv |]. unfold schedule_reconnect. destruct (stopped l1); [reflexivity |].
    repeat (split; [done |]); by left.
Qed.

(** ** Steps *)

Lemma idle_not_attached l : LinkInv l → connected l = None → attached (log l) = false.
Proof. intros Hi Hn. destruct (attached (log l)) eqn:E; [| done]. apply (v_idle l Hi) in E as [k E]. congruence. Qed.

Lemma unattached_not_ready l : LinkInv l → attached (log l) = false → is_ready l = false.
Proof.
  intros Hi Hn. destruct (is_ready l) eqn:E; [| done]. apply (v_done l Hi) in E. rewrite (v_att l Hi) in Hn; [done | congruence].
Qed.

Lemma idle_not_ready l : LinkInv l → connected l = None → is_ready l = false.
Proof. intros Hi Hn. by apply unattached_not_ready, idle_not_attached. Qed.

Lemma ready_attached l : LinkInv l → is_ready l = true → attached (log l) = true.
Proof. intros Hi Hr. destruct (attached (log l)) eqn:E; [done |]. apply unattached_not_ready in E; [congruence | done]. Qed.

Lemma complete_each_conn ids e : ∀ l, conn_of (complete_each ids e l) = conn_of l.
Proof. induction ids as [| i ids IH]; intros l; cbn; [done |]. rewrite IH. unfold complete. by destruct (find_pending _ _). Qed.

Lemma disconnect_none e l : connected (disconnect o client random e l) = None.
Proof.
  unfold disconnect. destruct (connected l) eqn:E; [| done]. unfold schedule_reconnect, emit_state, fail_pending. set (l1 := say OClosed _).
  assert (connected (complete_each (pending (calls_of l1)).*1 e l1) = None) as H by (unfold connected; by rewrite complete_each_conn).
  repeat case_goal; try done; exact H.
Qed.

Lemma post_trust t l : TrustInv l → TrustInv (post t l).
Proof.
  intros [R1 R2]. split; cbn.
  - intros Ha Hr Hs u Hu. destruct (R1 Ha Hr Hs u Hu); [by left | right; apply elem_of_app; by left].
  - intros Hs. destruct (R2 Hs); [left; apply elem_of_app; by left | by right].
Qed.

Lemma view_good l l' : Good l → same_view l l' → log l' = log l → stopped l' = stopped l → Good l'.
Proof.
  intros [Hi Ht] Hv Hl Hs. split; [by eapply view_inv |]. destruct Hv as (E1 & E2 & E3 & E4 & E5 & E6 & E7). destruct Ht. unfold is_ready in *.
  split; unfold is_ready; rewrite ?E1, ?E3, ?E5, ?Hs; done.
Qed.

Lemma elem_delete_ne {A} (l : list A) k x y : l !! k = Some y → x ∈ l → x ≠ y → x ∈ delete k l.
Proof. intros Hk Hx Hn. rewrite (delete_Permutation _ _ _ Hk) in Hx. by apply elem_of_cons in Hx as [-> | ?]. Qed.

Lemma delete_task_trust k t l :
  TrustInv l → tasks l !! k = Some t → t ≠ TStop → (∀ s, t ≠ TRecheck s) → TrustInv (set_tasks (delete k (tasks l)) l).
Proof.
  intros [R1 R2] Hk H1 H2. split; cbn.
  - intros Ha Hr Hs u Hu. destruct (R1 Ha Hr Hs u Hu); [by left | right; eapply elem_delete_ne; eauto].
  - intros Hs. destruct (R2 Hs); [left; eapply elem_delete_ne; eauto | by right].
Qed.

Lemma recheck_good k s l : Good l → tasks l !! k = Some (TRecheck s) → Good (recheck_trust o client random s (set_tasks (delete k (tasks l)) l)).
Proof.
  intros [Hi [R1 R2]] Hk. set (l0 := set_tasks _ l). pose proof (delete_task_inv k l Hi) as H0. fold l0 in H0.
  assert (stopped l = true → TStop ∈ tasks l0 ∨ connected l0 = None) as S0.
  { intros Hs. destruct (R2 Hs) as [? |]; [left; eapply elem_delete_ne; eauto | by right]. }
  assert (authenticated o = true → is_ready l = true → listed (s_neighbors s) (peer_id (peer_of l)) = true → TrustInv l0) as T0.
  { intros _ _ Hl. split; [| done]. cbn. intros Ha Hr Hs u Hu. destruct (R1 Ha Hr Hs u Hu) as [H | H]; [by left |].
    destruct (decide (t_snapshot u = s)) as [<- |]; [by left |]. right. eapply elem_delete_ne; [done | done | congruence]. }
  unfold recheck_trust. destruct (stopped l0) eqn:Es; [split; [done |]; split; [cbn; cbn in Es; congruence | done] |].
  destruct (decide (authenticated o = true ∧ is_ready l = true)) as [[Ha Hr] | Hno].
  - pose proof (v_id l Hi Ha Hr) as Eid. assert (auth_state (peer_of l) ≠ challenge) as Hn by (apply (v_done l Hi) in Hr; congruence).
    destruct (v_peer l Hi Ha Hn) as [(N1 & N2 & _) _]. rewrite <-Eid in N1, N2. cbn [l0 set_tasks peer_of].
    rewrite (bool_decide_eq_false_2 _ N1), !bool_decide_eq_false_2 by done. cbn [orb].
    destruct (listed (s_neighbors s) (peer_id (peer_of l))) eqn:El; [by split; [| apply T0] |].
    set (l1 := set_peer_of _ l0). assert (LinkInv l1) as H1 by (destruct H0; constructor; done).
    pose proof (disconnect_ok permission_denied l1 H1) as [H2 (_ & Es2 & _)]. split; [done |].
    split; [intros _ Hr2; rewrite idle_not_ready in Hr2; [done | done | apply disconnect_none] | right; apply disconnect_none].
  - assert (TrustInv l0) as T1.
    { split; [intros Ha Hr; exfalso; by apply Hno | done]. }
    repeat case_goal; try done. all: set (l1 := set_peer_of _ l0); assert (LinkInv l1) as H1 by (destruct H0; constructor; done).
    all: assert (calm l0 l1) as C1 by (repeat (split; [done |]); by left).
    all: apply (ok_calm_good l1); [by apply disconnect_ok | by eapply calm_trust].
Qed.

Lemma run_request_ok id payload c l : LinkInv l → ok_calm l (run_request o id payload c l).
Proof.
  intros Hi. unfold run_request.
  assert (∀ e, ok_calm l (fail_request c e l)) as Hf.
  { intros e. unfold fail_request. set (l1 := set_calls _ l). assert (LinkInv l1) as H1 by (eapply view_inv; [exact Hi | by repeat split | done]).
    pose proof (say_steady (OFailed c e) l1 H1 eq_refl I) as H2. split; [apply H2 |]. etrans; [| by apply steady_calm, H2]. repeat (split; [done |]). by left. }
  case_goal; [by apply Hf |]. destruct (is_ready l) eqn:Hr; cbn [negb]; [| by apply Hf]. case_goal; [by apply Hf |]. case_goal; [by apply Hf |].
  set (l1 := set_calls _ l). assert (LinkInv l1) as H1 by (eapply view_inv; [exact Hi | by repeat split | done]).
  assert (ok_calm l l1) as C1 by (split; [done |]; repeat (split; [done |]); by left).
  pose proof (begin_op_ok (OpRequest id) l1 H1 eq_refl ltac:(done)) as H2. eapply ok_calm_trans; [exact C1 |]. eapply ok_calm_trans; [by apply ok_calm_steady |].
  set (f := mkFrame _ _ _). pose proof (ready_attached l Hi Hr) as Ha. pose proof (enqueue_ok f _ (proj1 H2) Ha) as H3.
  destruct (enqueue o f _) as [q l3]. cbn [snd] in H3. destruct q; [by apply ok_calm_steady |]. apply ok_calm_steady.
  eapply ok_steady_trans; [exact H3 |]. by apply complete_ok; [apply H3 |].
Qed.

Lemma run_notify_ok ty payload c l : LinkInv l → ok_calm l (run_notify o ty payload c l).
Proof.
  intros Hi. unfold run_notify. set (r := if stopped l then _ else _). assert (ok_steady l r.2) as H1.
  { unfold r. destruct (stopped l); [split; [done | reflexivity] |]. destruct (is_ready l) eqn:Hr; cbn [negb]; [| split; [done | reflexivity]].
    pose proof (enqueue_ok (mkFrame ty 0 payload) l Hi (ready_attached l Hi Hr)) as H. by destruct (enqueue o _ l). }
  destruct r as [e l1]. cbn [snd] in H1. apply ok_calm_steady. destruct c as [c |]; [| done]. eapply ok_steady_trans; [exact H1 |]. apply say_steady; [apply H1 | done | done].
Qed.

Lemma stop_good l : LinkInv l → Good (stop_on_executor o client random l).
Proof.
  intros Hi. unfold stop_on_executor. set (l1 := set_dial _ l). assert (LinkInv l1) as H1 by (eapply view_inv; [exact Hi | by repeat split | done]).
  pose proof (disconnect_ok operation_canceled l1 H1) as [H2 _]. pose proof (disconnect_none operation_canceled l1) as Hn.
  set (l2 := disconnect _ _ _ _ l1) in *. pose proof (complete_each_ok (pending (calls_of l2)).*1 operation_canceled l2 H2) as [H3 (E & _)].
  assert (connected (fail_pending operation_canceled l2) = None) as Hn3 by (unfold fail_pending; by rewrite E).
  split; [done |]. split; [intros _ Hr; rewrite idle_not_ready in Hr; [done | done | done] | by right].
Qed.

Lemma calm_good l l' : Good l → ok_calm l l' → Good l'.
Proof. intros [_ Ht] H. by eapply ok_calm_good. Qed.

Lemma set_handlers_good h l : Good l → Good (set_handlers h l).
Proof. intros H. eapply view_good; [exact H | by repeat split | done | done]. Qed.

Lemma start_good fr h p l :
  Good l → client = true → p ≠ 0 → Good (run_task o client random fr (TStart h p) l).
Proof.
  intros Hg Hc Hp. cbn. destruct (stopped l || negb (bool_decide (connected l = None)) || negb (port (dial_of l) =? 0)) eqn:E; [done |]. bool_prop.
  pose proof Hg as [Hi Ht].
  assert (count is_reconnect (ops l) = 0%nat) as Hn0 by (apply count_zero; intros x Hx Hr; by destruct (v_retry l Hi x Hx Hr) as (_ & _ & ?)).
  apply begin_connect_good; try done. split; [| by destruct Ht]. destruct Hi. by constructor.
Qed.

Lemma run_task_good k t fr l :
  Good l → tasks l !! k = Some t → fresh_ok fr → Good (run_task o client random fr t (set_tasks (delete k (tasks l)) l)).
Proof.
  intros Hg Hk Hf. pose proof Hg as [Hi Ht]. set (l0 := set_tasks _ l). pose proof (delete_task_inv k l Hi) as H0. fold l0 in H0.
  assert (t ∈ tasks l) as Hin by (by eapply list_elem_of_lookup_2).
  assert (t ≠ TStop → (∀ s, t ≠ TRecheck s) → Good l0) as G0 by (intros ? ?; split; [done | by eapply delete_task_trust]).
  destruct t; cbn [run_task].
  - destruct (v_accept l Hi _ Hin eq_refl) as [Hc Hn].
    apply attach_good; [by apply G0 | by apply idle_not_ready | | | by rewrite Hc | intros _; by apply idle_not_attached | done].
    + pose proof (v_accept1 l Hi) as H1. rewrite (count_delete _ _ _ _ Hk) in H1. cbn in H1. cbn. lia.
    + apply count_zero. intros x Hx Hr. destruct (v_retry l Hi x Hx Hr). congruence.
  - destruct (v_start l Hi _ _ Hin). by apply start_good; [apply G0 | |].
  - by apply recheck_good.
  - eapply calm_good; [by apply G0 | by apply run_request_ok].
  - eapply calm_good; [by apply G0 | apply ok_calm_steady; by apply complete_ok].
  - case_goal; [| by apply G0]. eapply calm_good; [by apply G0 | apply enqueue_or_drop_ok; [done | by apply ready_attached]].
  - eapply calm_good; [by apply G0 | by apply run_notify_ok].
  - by apply set_handlers_good, G0.
  - by apply set_handlers_good, G0.
  - by apply set_handlers_good, G0.
  - by apply stop_good.
Qed.

(** The connection of an operation that is not outdated. *)
Lemma live_op l x g : LinkInv l → x ∈ ops l → op_gen x = Some g → live g l = true →
  g = gen l ∧ attached (log l) = negb (connecting x) ∧ is_Some (connected l) ∧ stopped l = false.
Proof.
  intros Hi Hx Hg Hl. unfold live in Hl. bool_prop. subst g. split; [done |]. split; [by apply (v_phase l Hi) |]. split; [by eapply (v_open l Hi) | done].
Qed.

Lemma finish_op_good k x r fr l :
  Good l → ops l !! k = Some x → fresh_ok fr → (∀ d, r = RData d → bytes_ok d) → Good (finish_op o client me random fr x r (set_ops (delete k (ops l)) l)).
Proof.
  intros Hg Hk Hf Hb. pose proof Hg as [Hi Ht]. set (l0 := set_ops _ l). pose proof (delete_op_inv k l Hi) as H0. fold l0 in H0.
  assert (Good l0) as G0 by (split; [done | by destruct Ht]). assert (x ∈ ops l) as Hin by (by eapply list_elem_of_lookup_2).
  assert (∀ e, Good (disconnect o client random e l0)) as Hd by (intros e; eapply calm_good; [done | by apply disconnect_ok]).
  assert (∀ g c, live g l = true → x = OpConnect g c ∨ x = OpTls g c → Good (attach o client random fr c l0)) as Hatt.
  { intros g c Hl Hx. destruct (live_op l x g Hi Hin) as (-> & Ha & Hc & Hs); [by destruct Hx as [-> | ->] | done |].
    assert (attached (log l) = false) as Hna by (rewrite Ha; by destruct Hx as [-> | ->]).
    apply attach_good; try done; [by apply unattached_not_ready | by apply no_attach | by apply no_reconnect | intros ?; by apply (v_port l Hi)]. }
  destruct x as [g0 c0 | g0 c0 | g0 | g0 | g0 | delay | id]; cbn [finish_op].
  - destruct (live g0 l0) eqn:El; cbn [negb]; [| done]. destruct r as [e | d]; [by apply Hd |]. destruct (use_tls o); [| by apply (Hatt g0); [| left]].
    destruct (live_op l _ _ Hi Hin eq_refl El) as (-> & Ha & Hc & Hs). eapply calm_good; [done |]. apply ok_calm_steady, begin_op_ok; [done | done |].
    cbn. intros g [= <-]. split; [done |]. split; [by rewrite Ha | done].
  - destruct (live g0 l0) eqn:El; cbn [negb]; [| done]. destruct r as [e | d]; [by apply Hd | by apply (Hatt g0); [| right]].
  - unfold on_read. destruct (live g0 l0) eqn:El; cbn [negb]; [| done]. destruct r as [e | [| b d]]; [by apply Hd | by apply Hd |].
    destruct (live_op l _ _ Hi Hin eq_refl El) as (-> & Ha & [c Hc] & Hs). set (l1 := set_conn _ l0).
    assert (ok_steady l0 l1) as H1 by (by apply set_conn_ok).
    assert (Reading l1) as Hr1 by (split; [eapply calm_good; [done | by apply ok_calm_steady] | done]).
    pose proof (consume_reading (b :: d) l1 (Hb _ eq_refl) Hr1) as H2. destruct (consume o client me random (b :: d) l1) as [threw l2]. cbn [snd] in H2.
    destruct H2 as [G2 A2]; [cbn; unfold connected in Hc; cbn in Hc; congruence |]. destruct threw; (eapply calm_good; [done |]).
    + apply ok_calm_steady, say_steady; [apply G2 | done | done].
    + apply read_next_ok; [apply G2 | done].
  - unfold on_written. destruct (live g0 l0) eqn:El; cbn [negb]; [| done]. destruct r as [e | d]; [by apply Hd |].
    destruct (live_op l _ _ Hi Hin eq_refl El) as (-> & Ha & Hc & Hs). set (l1 := set_conn _ l0).
    assert (ok_steady l0 l1) as H1 by (by apply set_conn_ok). eapply calm_good; [done |]. apply ok_calm_steady. eapply ok_steady_trans; [exact H1 |].
    change (gen l) with (gen l1). apply write_next_ok; [apply H1 | done].
  - destruct r as [e | d]; [done |]. eapply calm_good; [done |]. apply tick_ok; [done |]. intros -> _. apply (v_phase l Hi _ Hin eq_refl).
  - destruct r as [e | d]; [done |]. destruct (v_retry l Hi _ Hin eq_refl) as (Hc & Hn & Hp). apply begin_connect_good; try done.
    pose proof (v_retry1 l Hi) as H1. rewrite (count_delete _ _ _ _ Hk) in H1. cbn in H1. cbn. lia.
  - destruct r as [e | d]; [done |]. eapply calm_good; [done |]. apply ok_calm_steady. by apply complete_ok.
Qed.

Definition event_ok (e : LinkEvent) : Prop :=
  match e with
  | ECall (CStart _ p) => p ≠ 0
  | ETask _ fr => fresh_ok fr
  | EOp _ r fr => fresh_ok fr ∧ ∀ d, r = RData d → bytes_ok d
  | _ => True
  end.

Lemma link_post_good t l : Good l → is_attach t = false → (∀ h p, t = TStart h p → client = true ∧ p ≠ 0) → Good (post t l).
Proof. intros [Hi Ht] H1 H2. split; [by apply post_inv | by apply post_trust]. Qed.

Lemma call_good c l : Good l → event_ok (ECall c) → Good (call o client c l).
Proof.
  intros Hg He. assert (∀ c, Good (set_calls c l)) as Hs by (intros c'; eapply view_good; [exact Hg | by repeat split | done | done]).
  destruct c as [h p | | payload timeout [k |] | t]; cbn [call].
  - destruct client eqn:Ec; [| done]. apply link_post_good; [done | done |]. intros ? ? [= -> ->]. done.
  - destruct Hg as [Hi Ht]. assert (LinkInv (set_stopped l)) as H1 by (eapply view_inv; [exact Hi | by repeat split | done]).
    split; [by apply post_inv |]. split; cbn; [done |]. intros _. left. apply elem_of_app. right. left.
  - case_goal; [by apply Hs |]. by apply link_post_good.
  - by apply Hs.
  - destruct (postable t) eqn:Ep; [| done]. apply link_post_good; [done | by destruct t |]. by intros h p ->.
Qed.

Lemma link_step_good e l : Good l → event_ok e → Good (step o client me random e l).
Proof.
  intros Hg He. destruct e as [c | k | k fr | k r fr | s]; cbn [step].
  - by apply call_good.
  - unfold refused. destruct (refusals (calls_of l) !! k) as [x |]; [| done]. set (l1 := set_calls _ l).
    assert (Good l1) as G1 by (eapply view_good; [exact Hg | by repeat split | done | done]).
    eapply calm_good; [exact G1 |]. apply ok_calm_steady, say_steady; [apply G1 | done | done].
  - destruct (tasks l !! k) as [t |] eqn:E; [by apply run_task_good | done].
  - destruct (ops l !! k) as [x |] eqn:E; [by apply finish_op_good; try apply He | done].
  - destruct (authenticated o) eqn:Ha; [by apply apply_to_store_good |]. unfold apply_to_store. by rewrite (v_plain l (proj1 Hg) Ha).
Qed.

Lemma link_run_good es : ∀ l, Good l → Forall event_ok es → Good (run o client me random es l).
Proof.
  induction es as [| e es IH]; intros l Hg He; [done |]. inversion He as [| ? ? H1 H2]; subst. cbn. apply IH; [by apply link_step_good | done].
Qed.

(** ** Where a link starts *)

Definition starts_with (t : option TrustStore) : Prop := match t with Some t => store_ok t ∧ t_snapshot t = initial | None => True end.

Lemma options_trust (t : option TrustStore) : options_valid o (bool_decide (is_Some t)) = true → authenticated o = true ↔ is_Some t.
Proof.
  unfold options_valid. intros H. bool_prop. match goal with H : authenticated o = _ |- _ => rewrite H end. by rewrite bool_decide_eq_true.
Qed.

Lemma make_link_good t l : make_link o client me t = Some l → starts_with t → Good l.
Proof.
  intros H Ht.
  assert (∀ l', new_link o me t = Some l' → LinkInv l' ∧ TrustInv l' ∧ connected l' = None ∧ tasks l' = [] ∧ ops l' = []) as Hn.
  { unfold new_link. intros l' E. case_hyp E; [done |]. bool_prop. pose proof (options_trust t Heqb) as Hau. injection E as <-.
    split; [| done]. constructor; cbn; try done; try (by intros ? ? ?%not_elem_of_nil); try (by intros ? ?%not_elem_of_nil); try (unfold count; cbn; lia).
    - intros Ha. apply Hau in Ha as [t0 ->]. destruct Ht as [[Ht1 Ht3] Ht2]. eexists. split; [done |]. split; [done |]. split; [done |]. cbn. apply elem_of_app. right. left.
    - intros Ha. destruct t; [| done]. rewrite (proj2 Hau) in Ha; done. }
  unfold make_link, accepted in H. destruct client eqn:Ec; [by destruct (Hn l H) as (? & ? & _) |].
  destruct (new_link o me t) as [l' |]; [| done]. cbn in H. injection H as <-. destruct (Hn l' eq_refl) as (Hi & [R1 R2] & Hc & Hts & Hop).
  split.
  - destruct Hi. constructor; try done; cbn; rewrite ?Hts.
    + unfold count. cbn. lia.
    + intros h p Hx. by apply list_elem_of_singleton in Hx.
  - split; cbn; rewrite ?Hts.
    + intros Ha Hr Hs t0 E. destruct (R1 Ha Hr Hs t0 E) as [| Hx]; [by left |]. rewrite Hts in Hx. by apply not_elem_of_nil in Hx.
    + intros Hs. by right.
Qed.

(** A link that was made and went through some steps. *)
Definition history (t : option TrustStore) (es : list LinkEvent) (l : NodeLink) : Prop :=
  starts_with t ∧ Forall event_ok es ∧ ∃ l0, make_link o client me t = Some l0 ∧ l = run o client me random es l0.

Lemma history_good t es l : history t es l → Good l.
Proof. intros (H1 & H2 & l0 & H3 & ->). apply link_run_good; [by eapply make_link_good | done]. Qed.

Lemma trace_split h x h' : trace_ok (h ++ x :: h') → obs_ok x h' ∧ trace_ok h'.
Proof. induction h as [| y h IH]; [done |]. intros [_ H]. by apply IH. Qed.

Lemma last_attached_ok h : trace_ok h → attached h = true → authenticated o = true → ch_node_id (last_attached h) = node_id o ∧ size (ch_nonce (last_attached h)) = kNonceBytes.
Proof. induction h as [| x h IH]; [done |]. intros [H1 H2] Ha Hau. destruct x; cbn in *; try done; auto. Qed.

(** C23: a link that checks identities knows its peer: whatever the peer sends, in
    whatever order connections break, timers run and the trust set changes, every
    request, notification and response reaches the application while the link is
    ready, and a link whose options ask for authentication gets ready only when
    the signature of a neighbour of the configuration then in force, who is the
    expected one if one is expected and not this node, was verified over the nonce
    this side sent on this connection.  A plain link (the mode without identities)
    gets ready on a bare hello: of it only the first part and that a connection is
    attached is claimed.  Assumed: the signature check, a parameter, accepts only
    keys of 32 bytes, as Ed25519 does; peer bytes and nonces are of their types,
    dialled ports not 0, the trust store valid. *)
Theorem link_authenticated t es l :
  history t es l → trace_ok (log l) ∧ is_ready l = up (log l).
Proof. intros H%history_good. split; [apply (v_trace l (proj1 H)) | apply (v_up l (proj1 H))]. Qed.

(** C25: a revoked neighbour is dropped: a link of a node that checks identities is
    ready only with a neighbour of the current configuration, unless the recheck of
    that configuration is still waiting to run (or the link is being stopped); and
    the recheck closes the connection to a neighbour that is not in it. *)
Theorem revocation_takes_effect t es l :
  history t es l → authenticated o = true → is_ready l = true →
  ∃ u, trust (peer_of l) = Some u ∧
    (trusts u (peer_id (peer_of l)) = true ∨ TRecheck (t_snapshot u) ∈ tasks l ∨ TStop ∈ tasks l) ∧
    ∀ k fr, tasks l !! k = Some (TRecheck (t_snapshot u)) → stopped l = false → trusts u (peer_id (peer_of l)) = false →
      connected (step o client me random (ETask k fr) l) = None.
Proof.
  intros H%history_good Ha Hr. destruct H as [Hi [R1 R2]]. destruct (v_trust l Hi Ha) as (u & Et & _). exists u. split; [done |]. split.
  - destruct (stopped l) eqn:Es; [| destruct (R1 Ha Hr eq_refl u Et); auto]. destruct (R2 eq_refl) as [| Hn]; [auto |].
    rewrite idle_not_ready in Hr; done.
  - intros k fr Hk Hs Hl. cbn [step]. rewrite Hk. cbn [run_task]. unfold recheck_trust. cbn [set_tasks stopped peer_of]. rewrite Hs.
    pose proof (v_id l Hi Ha Hr) as Eid. assert (auth_state (peer_of l) ≠ challenge) as Hn by (apply (v_done l Hi) in Hr; congruence).
    destruct (v_peer l Hi Ha Hn) as [(N1 & N2 & _) _]. rewrite <-Eid in N1, N2.
    rewrite (bool_decide_eq_false_2 _ N1), !bool_decide_eq_false_2 by done. cbn [orb]. unfold trusts in Hl. rewrite Hl. apply disconnect_none.
Qed.
End Safety.

(** ** Both ends of a link *)

Lemma node_id_short o b : options_valid o b = true → short (node_id o).
Proof. unfold options_valid, short. intros H. bool_prop. lia. Qed.

Lemma history_options o client me random initial t es l :
  history o client me random initial t es l → ∃ b, options_valid o b = true.
Proof.
  intros (_ & _ & l0 & H & _). exists (bool_decide (is_Some t)). unfold make_link, accepted, new_link in H.
  destruct (options_valid o (bool_decide (is_Some t))); [done |]. by destruct client.
Qed.

(** C24: the two ends agree: when a link of node A gets ready with node B, and what
    verifies under the keys A has for B was signed by B's link, then B's link
    signed for A, over the nonce that A sent on this very connection and the nonce
    that B's link had sent itself, while it was attached. *)
Theorem handshake_agreement oA cA meA randomA initialA tA esA lA oB cB meB randomB initialB tB esB lB post pre :
  history oA cA meA randomA initialA tA esA lA → history oB cB meB randomB initialB tB esB lB →
  (∀ k m s, verify oA k m s = true → size k = 32) → (∀ k m s, verify oB k m s = true → size k = 32) →
  authenticated oA = true → authenticated oB = true →
  log lA = post ++ OReady (node_id oB) :: pre →
  (∀ key m s, mkNeighbor (node_id oB) key ∈ s_neighbors (in_force initialA pre) → verify oA key m s = true → OSign m ∈ log lB) →
  ∃ later before,
    log lB = later ++ OSign (auth_message (node_id oB) (ch_nonce (last_attached before)) (node_id oA) (ch_nonce (last_attached pre))) :: before ∧
    attached before = true ∧ attached pre = true.
Proof.
  intros HA HB KA KB AA AB El Hforge. pose proof (history_good _ _ _ _ _ KA _ _ _ HA) as [IA _]. pose proof (history_good _ _ _ _ _ KB _ _ _ HB) as [IB _].
  destruct (history_options _ _ _ _ _ _ _ _ HA) as [bA VA]. destruct (history_options _ _ _ _ _ _ _ _ HB) as [bB VB].
  pose proof (v_trace _ _ _ _ _ IA) as TA. rewrite El in TA. apply trace_split in TA as [[Hatt Hready] Tpre].
  destruct (Hready AA) as (key & nonce & sg & rest & -> & Hnb & (Hne & Hno & _) & Hside). destruct Tpre as [Hver Trest]. cbn [obs_ok] in Hver.
  cbn [in_force last_attached attached] in *.
  pose proof (Hforge key _ sg Hnb (eq_sym Hver)) as Hsig. apply list_elem_of_In, in_split in Hsig as (later & before & EB).
  pose proof (v_trace _ _ _ _ _ IB) as TB. rewrite EB in TB. apply trace_split in TB as [(HattB & p & n & Em & _ & Hs & _) Tb].
  destruct (last_attached_ok _ _ _ Trest Hatt AA) as [_ NA]. destruct (last_attached_ok _ _ _ Tb HattB AB) as [_ NB].
  apply auth_message_agree in Em as [(E1 & E2 & E3 & E4) | (E1 & E2 & E3 & E4)]; try done; try (split; [by eapply node_id_short | done]).
  exists later, before. split; [| done]. rewrite EB. by rewrite <-E2.
Qed.

(** ** Samples *)

Definition fresh_okb (fr : Fresh) : bool := size (f_nonce fr) =? kNonceBytes.

Definition event_okb (e : LinkEvent) : bool :=
  match e with
  | ECall (CStart _ p) => negb (p =? 0)
  | ETask _ fr => fresh_okb fr
  | EOp _ (RData d) fr => fresh_okb fr && forallb byte_okb d
  | EOp _ _ fr => fresh_okb fr
  | _ => true
  end.

Lemma events_checked es : forallb event_okb es = true → Forall event_ok es.
Proof.
  intros H. apply List.Forall_forall. intros e He. rewrite forallb_forall in H. specialize (H e He). unfold event_okb, fresh_okb in H.
  destruct e as [[| | |] | | |? r ? |]; cbn in *; try done; bool_prop; try done. destruct r as [| d]; bool_prop; (split; [done |]); intros ? [= <-].
  apply List.Forall_forall. intros b Hb. apply byte_okb_spec. match goal with H : forallb _ _ = true |- _ => rewrite forallb_forall in H; by apply H end.
Qed.

Lemma sample_verify_key k m s : sample_verify k m s = true → size k = 32.
Proof. unfold sample_verify. intros H. by bool_prop. Qed.

Lemma sample_store_ok : store_ok sample_store.
Proof. by split. Qed.

Lemma history_a es : forallb event_okb es = true → history options_a true 0 (λ _, 0) sample_snapshot (Some sample_store) es (run_a es).
Proof. intros H. split; [by split; [apply sample_store_ok |] |]. split; [by apply events_checked |]. eexists. split; [reflexivity |]. reflexivity. Qed.

Lemma history_b es : forallb event_okb es = true → history options_b false 1 (λ _, 0) sample_snapshot (Some sample_store) es (run_b es).
Proof. intros H. split; [by split; [apply sample_store_ok |] |]. split; [by apply events_checked |]. eexists. split; [reflexivity |]. reflexivity. Qed.

(** A notification of B reaches A's handler. *)
Definition notified_a : list LinkEvent :=
  shake_a ++ [ECall (CPost (TOnNotify true)); ETask 0 (sample_fresh 0 5); read_a 1 (default [] (encode_frame (mkFrame notify 0 [7])))].

Lemma link_authenticated_witness :
  ∃ rest, log (run_a notified_a) = ONotify [7] :: rest ∧ trace_ok options_a sample_snapshot (log (run_a notified_a)) ∧ up rest = true.
Proof.
  eexists. split; [vm_compute; reflexivity |]. split; [| vm_compute; reflexivity].
  refine (proj1 (link_authenticated options_a true 0 (λ _, 0) sample_snapshot sample_verify_key (Some sample_store) notified_a (run_a notified_a) (history_a notified_a _))).
  vm_compute. reflexivity.
Defined.

(** B is dropped from A's configuration. *)
Definition revoking : Snapshot := mkSnapshot 2 [mkNeighbor (s! "c") (sample_key 3)] [s! "b"].

Definition revoked_a : list LinkEvent := shake_a ++ [ETrust revoking].

Lemma revocation_takes_effect_witness :
  is_ready (run_a revoked_a) = true ∧ connected (step options_a true 0 (λ _, 0) (ETask 0 (sample_fresh 0 5)) (run_a revoked_a)) = None.
Proof.
  split; [vm_compute; reflexivity |].
  destruct (revocation_takes_effect options_a true 0 (λ _, 0) sample_snapshot sample_verify_key (Some sample_store) revoked_a (run_a revoked_a)) as (u & Hu & _ & Hc);
    [apply history_a; vm_compute; reflexivity | reflexivity | vm_compute; reflexivity |].
  assert (u = mkTrust (sample_key 9) revoking [0%nat]) as -> by (apply (inj Some); rewrite <-Hu; vm_compute; reflexivity).
  apply Hc; vm_compute; reflexivity.
Defined.

(** Nodes whose keys are only good for one text. *)
Definition only_message (k m s : bytes) : bool := bool_decide (m = sample_message) && (size k =? 32).

Definition careful (o : LinkOptions) : LinkOptions :=
  mkLinkOptions (node_id o) (expected_peer_id o) (max_frame_bytes o) (max_pending_requests o) (max_queued_frames o) (heartbeat_interval o) (heartbeat_timeout o)
    (reconnect_min o) (reconnect_max o) (use_tls o) (cred_sign o) (Some only_message).

Definition careful_a : NodeLink := run (careful options_a) true 0 (λ _, 0) shake_a (default no_link (make_link (careful options_a) true 0 (Some sample_store))).

Lemma only_message_key k m s : only_message k m s = true → size k = 32.
Proof. unfold only_message. intros H. by bool_prop. Qed.

Lemma handshake_agreement_witness :
  ∃ later before, log (run_b shake_b) = later ++ OSign (auth_message (s! "b") (ch_nonce (last_attached before)) (s! "a") (repeat 5 32)) :: before ∧ attached before = true.
Proof.
  destruct (handshake_agreement (careful options_a) true 0 (λ _, 0) sample_snapshot (Some sample_store) shake_a careful_a
    options_b false 1 (λ _, 0) sample_snapshot (Some sample_store) shake_b (run_b shake_b) [] (tail (log careful_a))) as (later & before & H1 & H2 & _).
  - split; [by split; [apply sample_store_ok |] |]. split; [apply events_checked; vm_compute; reflexivity |]. eexists. split; reflexivity.
  - apply history_b. vm_compute. reflexivity.
  - exact only_message_key.
  - exact sample_verify_key.
  - reflexivity.
  - reflexivity.
  - vm_compute. reflexivity.
  - intros key m s _ Hv. unfold verify in Hv. cbn in Hv. unfold only_message in Hv. apply andb_true_iff in Hv as [Hm _]. apply bool_decide_eq_true in Hm as ->.
    apply (bool_decide_unpack (OSign sample_message ∈ log (run_b shake_b))). vm_compute. exact I.
  - exists later, before. split; [| done]. exact H1.
Defined.
