(* ===== verification/NodeLinkCalls.v ===== *)
(** * Requests over a link

    About [NodeLink]: every request is answered exactly once
    ([requests_accounted]), its books, the number of requests under way and of
    queued frames; the bytes of the peer may be cut into reads in any way
    ([reads_are_chunk_independent]); and the delays between attempts to connect
    ([reconnect_delay_bounds]). *)

From S2P Require Import Prelude NodeFrame NodeLink NodeSample NodeLinkSafety.

(** ** Books *)

Definition given (x : LinkObs) : option nat := match x with OResponse k _ | OFailed k _ => Some k | _ => None end.

Definition task_call (t : Task) : option nat := match t with TRequest _ _ _ k => Some k | _ => None end.

Definition task_id (t : Task) : option Z := match t with TRequest id _ _ _ => Some id | _ => None end.

Definition posted (l : NodeLink) : list nat := omap task_call (tasks l).

Definition owed (l : NodeLink) : list nat := refusals (calls_of l) ++ posted l ++ (pending (calls_of l)).*2.

(** Completions that were called or are still to be called. *)
Definition total (l : NodeLink) : list nat := omap given (log l) ++ owed l.

Definition live_ids (l : NodeLink) : list Z := omap task_id (tasks l) ++ (pending (calls_of l)).*1.

Create HintDb settled discriminated.

Section Calls.
Context (o : LinkOptions) (client : bool) (me : nat) (random : Z → Z).

Record Books (l : NodeLink) : Prop := {
  b_out : outstanding (calls_of l) = Z.of_nat (length (owed l));
  b_limit : Z.of_nat (length (posted l) + length (pending (calls_of l))) ≤ max_pending_requests o;
  b_ids : NoDup (live_ids l);
  b_range : ∀ i, i ∈ live_ids l → 1 ≤ i < next_id (calls_of l);
  b_writes : Z.of_nat (length (writes (conn_of l))) ≤ max_queued_frames o;
}.

Definition needs_ready (l : NodeLink) : Prop := pending (calls_of l) ≠ [] → is_ready l = true.

(** A step that keeps the books. *)
Record settled (l l' : NodeLink) : Prop := {
  s_books : Books l → Books l' ∧ total l' ≡ₚ total l;
  s_ready : needs_ready l → needs_ready l';
  s_next : next_id (calls_of l') = next_id (calls_of l);
}.

#[global] Instance settled_preorder : PreOrder settled.
Proof.
  split; [by intros l; split |]. intros l1 l2 l3 [A1 A2 A3] [B1 B2 B3]. split; [| auto | congruence].
  intros H. apply A1 in H as [H E]. apply B1 in H as [H E']. split; [done | by etrans].
Qed.

Lemma settled_view l l' :
  calls_of l' = calls_of l → posted l' = posted l → omap task_id (tasks l') = omap task_id (tasks l) → omap given (log l') = omap given (log l) →
  (Z.of_nat (length (writes (conn_of l))) ≤ max_queued_frames o → Z.of_nat (length (writes (conn_of l'))) ≤ max_queued_frames o) →
  (is_ready l = true → is_ready l' = true) → settled l l'.
Proof.
  intros E1 E2 E3 E4 E5 E6. split; [| unfold needs_ready; rewrite E1; auto | by rewrite E1].
  intros []. unfold total, owed, live_ids in *. rewrite E1, E2, E4. split; [| done].
  split; unfold owed, live_ids; rewrite ?E1, ?E2, ?E3; auto.
Qed.

(** ** Pending requests *)

Lemma emplace_perm id c p : id ∉ p.*1 → emplace id c p ≡ₚ (id, c) :: p.
Proof.
  induction p as [| [i d] p IH]; cbn; [done |]. intros Hn. apply not_elem_of_cons in Hn as [Hne Hn]. case_goal; [done |].
  rewrite (proj2 (Z.eqb_neq _ _)) by done. rewrite IH by done. apply Permutation_swap.
Qed.

Lemma erase_perm id c p : NoDup p.*1 → find_pending id p = Some c → p ≡ₚ (id, c) :: erase_pending id p.
Proof.
  unfold find_pending, erase_pending. induction p as [| [i d] p IH]; [done |]. cbn. intros Hnd. apply list.NoDup_cons in Hnd as [Hn Hnd].
  destruct (Z.eqb_spec i id) as [-> | Hne]; cbn.
  - intros [= ->]. f_equiv. clear IH Hnd. induction p as [| [j e] p IH]; [done |]. cbn in *. apply not_elem_of_cons in Hn as [Hne Hn].
    rewrite (proj2 (Z.eqb_neq _ _)) by done. cbn. by rewrite <-IH.
  - intros H. specialize (IH Hnd H). rewrite IH at 1. apply Permutation_swap.
Qed.

Lemma settled_complete id r l : settled l (complete id r l).
Proof.
  unfold complete. destruct (find_pending id (pending (calls_of l))) as [c |] eqn:E; [| reflexivity].
  set (x := match r with inl e => OFailed c e | inr p => OResponse c p end). set (l' := say x _).
  assert (given x = Some c) as Hx by (by destruct r).
  split; [| | done].
  - intros []. assert (NoDup (pending (calls_of l)).*1) as Hnd by (unfold live_ids in b_ids0; by apply list.NoDup_app in b_ids0 as (_ & _ & ?)).
    pose proof (erase_perm id c _ Hnd E) as Hp. unfold live_ids, total, owed, posted in *.
    assert (total l' ≡ₚ total l) as Ht.
    { unfold total, owed, posted, l'. cbn [say set_calls log calls_of pending tasks refusals]. cbn [omap list_omap]. rewrite Hx.
      rewrite Hp at 2. cbn [fmap list_fmap snd]. solve_Permutation. }
    split; [| done]. pose proof (Permutation_length Hp) as Hl. cbn in Hl. split; unfold owed, posted, live_ids, l'; cbn [say set_calls log calls_of pending tasks refusals outstanding next_id conn_of].
    + rewrite b_out0, !length_app, !length_fmap in *. lia.
    + lia.
    + rewrite Hp in b_ids0. cbn in b_ids0. rewrite <-Permutation_middle in b_ids0. by apply list.NoDup_cons in b_ids0 as [_ ?].
    + intros i Hi. apply b_range0. rewrite Hp. apply elem_of_app in Hi as [Hi | Hi]; apply elem_of_app; [by left | right; by right].
    + done.
  - unfold needs_ready, l'. cbn. intros H Hne. apply H. intros E0. apply Hne. by rewrite E0.
Qed.

Lemma settled_complete_each ids e : ∀ l, settled l (complete_each ids e l).
Proof. induction ids as [| i ids IH]; intros l; cbn; [reflexivity |]. etrans; [apply settled_complete | apply IH]. Qed.

Lemma complete_each_pending ids e : ∀ l, (∀ i, i ∈ (pending (calls_of l)).*1 → i ∈ ids) → pending (calls_of (complete_each ids e l)) = [].
Proof.
  induction ids as [| i ids IH]; intros l H; cbn.
  - destruct (pending (calls_of l)) as [| [j d] p]; [done |]. specialize (H j). cbn in H. destruct (not_elem_of_nil j). apply H. left.
  - apply IH. intros j Hj. unfold complete in Hj. destruct (find_pending i (pending (calls_of l))) as [c |] eqn:E; cbn in Hj.
    + apply list_elem_of_fmap in Hj as ([j' d] & -> & Hj). unfold erase_pending in Hj. apply list_elem_of_In, filter_In in Hj as [Hj Hne]. cbn in *. bool_prop.
      assert (j' ∈ i :: ids) as Hin by (apply H, list_elem_of_fmap; exists (j', d); split; [done | by apply list_elem_of_In]).
      by apply elem_of_cons in Hin as [-> | ?].
    + assert (j ∈ i :: ids) as Hin by (by apply H). apply elem_of_cons in Hin as [-> | ?]; [| done]. exfalso. unfold find_pending in E.
      apply list_elem_of_fmap in Hj as ([j' d] & -> & Hj). destruct (List.find _ _) eqn:Ef; [done |].
      eapply find_none in Ef; [| by apply list_elem_of_In]. cbn in Ef. by rewrite Z.eqb_refl in Ef.
Qed.

Lemma fail_pending_none e l : pending (calls_of (fail_pending e l)) = [].
Proof. by apply complete_each_pending. Qed.

(** ** Steps that do not touch requests *)

Lemma settled_say x l : given x = None → settled l (say x l).
Proof. intros H. apply settled_view; try done. cbn. by rewrite H. Qed.

Lemma settled_conn c l : (length (writes c) ≤ length (writes (conn_of l)))%nat → settled l (set_conn c l).
Proof. intros H. apply settled_view; try done. cbn. lia. Qed.

Lemma settled_peer p l : (is_ready l = true → ready p = true) → settled l (set_peer_of p l).
Proof. intros H. by apply settled_view. Qed.

Lemma settled_same l l' : calls_of l' = calls_of l → tasks l' = tasks l → log l' = log l → conn_of l' = conn_of l → peer_of l' = peer_of l → settled l l'.
Proof. intros E1 E2 E3 E4 E5. apply settled_view; unfold posted, is_ready; rewrite ?E2, ?E3, ?E4, ?E5; auto. Qed.

Lemma settled_emit u e l : settled l (emit_state u e l).
Proof. unfold emit_state. destruct (state_handler _); [by apply settled_say | reflexivity]. Qed.

Lemma settled_schedule l : settled l (schedule_reconnect o random l).
Proof. unfold schedule_reconnect. destruct (stopped l); [reflexivity |]. by apply settled_same. Qed.

Lemma settled_write_next g l : settled l (write_next g l).
Proof.
  unfold write_next. destruct (writes (conn_of l)) as [| d w] eqn:E; [apply settled_conn; cbn; lia |].
  destruct (connection (conn_of l)); [| apply settled_conn; by rewrite E]. case_goal; [| apply settled_conn; by rewrite E].
  set (l1 := set_conn _ l). assert (settled l l1) as H1 by (apply settled_conn; by rewrite E). etrans; [exact H1 |].
  etrans; [by apply (settled_say (OWrite d) l1) |]. by apply settled_same.
Qed.

Lemma settled_enqueue f l : settled l (enqueue o f l).2.
Proof.
  unfold enqueue. case_goal; [reflexivity |]. bool_prop. cbn [snd]. set (l1 := push_write _ l).
  assert (settled l l1) as Hs1 by (apply settled_view; try done; cbn; rewrite length_app; cbn; lia).
  destruct (writing (conn_of l1)); [done |]. etrans; [exact Hs1 | apply settled_write_next].
Qed.

Lemma settled_disconnect e l : settled l (disconnect o client random e l).
Proof.
  unfold disconnect. destruct (connected l); [| reflexivity]. set (l1 := say OClosed _).
  pose proof (settled_complete_each (pending (calls_of l1)).*1 e l1) as H2. fold (fail_pending e l1) in H2. pose proof (fail_pending_none e l1) as Hp.
  set (l2 := fail_pending e l1) in *. assert (settled l l2) as H3.
  { split.
    - intros B. destruct (s_books _ _ H2) as [B2 E2]; [| split; [done | by etrans]]. destruct B. split; try done. unfold l1. cbn. lia.
    - intros _ Hne. by rewrite Hp in Hne.
    - by rewrite (s_next _ _ H2). }
  etrans; [exact H3 |]. etrans; [apply settled_emit |]. case_goal; [apply settled_schedule | reflexivity].
Qed.

Lemma settled_enqueue_or_drop f l : settled l (enqueue_or_drop o client random f l).
Proof.
  unfold enqueue_or_drop. pose proof (settled_enqueue f l) as H. destruct (enqueue o f l) as [q l1]. destruct q; [done |]. etrans; [exact H | apply settled_disconnect].
Qed.

Lemma settled_arm_tick g l : settled l (arm_tick g l).
Proof. unfold arm_tick. set (l1 := set_conn _ l). assert (settled l l1) as H1 by (by apply settled_conn). etrans; [exact H1 |]. by apply settled_same. Qed.

#[local] Hint Resolve settled_disconnect settled_arm_tick settled_complete settled_enqueue_or_drop settled_emit : settled.

Lemma settled_refl l : settled l l.
Proof. reflexivity. Qed.
#[local] Hint Resolve settled_refl : settled.

Lemma settled_tick now g l : settled l (tick o client random now g l).
Proof.
  unfold tick. case_goal; [auto with settled |]. case_goal; [case_goal; auto with settled |]. case_goal; [case_goal; auto with settled |]. case_goal; [| auto with settled].
  pose proof (settled_enqueue (mkFrame ping 0 []) l) as H. destruct (enqueue o _ l) as [q l1]. cbn [snd] in H. destruct q; cbn [negb].
  - etrans; [exact H |]. set (l2 := set_conn _ l1). assert (settled l1 l2) as H2 by (by apply settled_conn). etrans; [exact H2 | apply settled_arm_tick].
  - etrans; [exact H | apply settled_disconnect].
Qed.

Lemma settled_read_next g l : settled l (read_next g l).
Proof. unfold read_next. destruct (connected l); [| reflexivity]. case_goal; [by apply settled_same | reflexivity]. Qed.

Lemma settled_become_ready id epoch l : settled l (become_ready id epoch l).
Proof.
  unfold become_ready. etrans; [| apply settled_emit]. etrans; [| by apply (settled_say (OReady id))]. etrans; [by apply (settled_peer (mkPeer true done (own_challenge (peer_of l)) (peer_challenge (peer_of l)) id epoch (seen_nonces (peer_of l)) (peer_revoked (peer_of l)) (trust (peer_of l)))) |].
  by apply settled_same.
Qed.

Lemma settled_hello_challenge f l : settled l (handle_hello_challenge o client random f l).
Proof.
  unfold handle_hello_challenge. case_goal; [auto with settled |]. destruct (decode_challenge _) as [[[id epoch] nonce] |]; [| auto with settled].
  case_goal; [auto with settled |]. set (l1 := set_peer_of _ l). set (m := auth_message _ _ _ _). assert (settled l l1) as H0 by (by apply settled_peer).
  assert (settled l (say (OSign m) l1)) as H1 by (etrans; [exact H0 | by apply settled_say]).
  etrans; [exact H1 |]. destruct (sign o m); [| auto with settled]. case_goal; [auto with settled |]. apply settled_enqueue_or_drop.
Qed.

Lemma settled_hello_auth f l : settled l (handle_hello_auth o client random f l).
Proof.
  unfold handle_hello_auth. case_goal; [auto with settled |]. destruct (decode_auth_response _) as [[[id epoch] sg] |]; [| auto with settled].
  case_goal; [auto with settled |]. set (x := OVerify _ _ _ _). etrans; [by apply (settled_say x) |]. case_goal; [apply settled_become_ready | apply settled_disconnect].
Qed.

Lemma settled_apply s l : settled l (apply_to_store me s l).2.
Proof.
  destruct (apply_to_store_fields me s l) as (_ & _ & E1 & E2). unfold apply_to_store in *.
  destruct (trust (peer_of l)) as [t |]; [| reflexivity]. destruct (apply_snapshot s t) as [| | t' who]; [reflexivity | reflexivity |]. cbn [snd].
  set (l1 := set_peer_of _ l). assert (settled l l1) as H1 by (by apply settled_peer). etrans; [exact H1 |]. clear.
  unfold notify_listeners. etrans; [by apply (settled_say (OTrust s)) |]. generalize (say (OTrust s) l1) as l2. induction who as [| i who IH]; intros l2; [reflexivity |].
  cbn [foldl]. case_goal; [| apply IH]. etrans; [| apply IH]. apply settled_view; try done; unfold posted; cbn; by rewrite omap_app, app_nil_r.
Qed.

Lemma settled_data f l : settled l (handle_data o client random f l).
Proof.
  unfold handle_data. destruct (f_type f); auto with settled.
  - by apply settled_conn.
  - case_goal; [by apply settled_say | reflexivity].
  - case_goal; [by apply settled_say | reflexivity].
Qed.

Lemma settled_epoch_config payload l : settled l (apply_epoch_config o client me random payload l).2.
Proof.
  unfold apply_epoch_config. destruct (decode_epoch_update _) as [[s sg] |]; [| apply settled_disconnect]. set (x := OVerify _ _ _ _).
  case_goal; [etrans; [by apply (settled_say x) | apply settled_apply] | by apply settled_say].
Qed.

Lemma settled_frame f l : settled l (handle_frame o client me random f l).2.
Proof.
  unfold handle_frame. destruct (authenticated o).
  - destruct (f_type f); repeat case_goal; cbn [snd]; auto using settled_data, settled_hello_challenge, settled_hello_auth, settled_epoch_config with settled.
  - cbn [snd]. destruct (f_type f); repeat case_goal; auto using settled_data, settled_become_ready with settled.
Qed.

Lemma settled_consume fuel : ∀ l, settled l (consume_loop o client me random fuel l).2.
Proof.
  induction fuel as [| fuel IH]; intros l; cbn [consume_loop]; [reflexivity |]. case_goal; [reflexivity |]. case_goal; [apply settled_disconnect |]. case_goal; [reflexivity |].
  destruct (decode_frame _ _) as [f |]; [| apply settled_disconnect]. set (l1 := set_incoming _ l). assert (settled l l1) as H1 by (by apply settled_conn).
  pose proof (settled_frame f l1) as H2. destruct (handle_frame o client me random f l1) as [threw l2]. cbn [snd] in H2.
  etrans; [exact H1 |]. etrans; [exact H2 |]. destruct threw; [reflexivity |]. destruct (connected l2); [apply IH | reflexivity].
Qed.

Lemma settled_attach fr k l : settled l (attach o client random fr k l).
Proof.
  unfold attach. case_goal; [by apply settled_say |]. set (own := if authenticated o then mkChallenge _ _ _ else _). set (l1 := say (OAttached own) _).
  assert (settled l l1) as H1 by (apply settled_view; try done; cbn; lia). set (f := mkFrame _ _ _).
  pose proof (settled_enqueue f l1) as H2. destruct (enqueue o f l1) as [q l2]. cbn [snd] in H2. etrans; [exact H1 |]. etrans; [exact H2 |].
  destruct q; cbn [negb]; [| apply settled_disconnect]. etrans; [apply settled_read_next | apply settled_tick].
Qed.

Lemma settled_connect fr l : settled l (begin_connect o random fr l).
Proof.
  unfold begin_connect. case_goal; [reflexivity |]. set (l1 := set_dial _ l). assert (settled l l1) as H1 by (by apply settled_same). etrans; [exact H1 |].
  case_goal; [apply settled_schedule |]. by apply settled_view.
Qed.

Lemma settled_recheck s l : settled l (recheck_trust o client random s l).
Proof. unfold recheck_trust. case_goal; [reflexivity |]. case_goal; [reflexivity |]. case_goal; [reflexivity |]. set (l1 := set_peer_of _ l). assert (settled l l1) as H1 by (by apply settled_peer). etrans; [exact H1 | apply settled_disconnect]. Qed.

Lemma settled_notify ty payload c l : settled l (run_notify o ty payload c l).
Proof.
  unfold run_notify. set (r := if stopped l then _ else _). assert (settled l r.2) as H.
  { unfold r. case_goal; [reflexivity |]. case_goal; [reflexivity |]. pose proof (settled_enqueue (mkFrame ty 0 payload) l) as H. by destruct (enqueue o _ l). }
  destruct r as [e l1]. destruct c; [| done]. etrans; [exact H | by apply settled_say].
Qed.

Lemma settled_stop l : settled l (stop_on_executor o client random l).
Proof.
  unfold stop_on_executor. etrans; [| apply settled_complete_each]. etrans; [| apply settled_disconnect]. by apply settled_same.
Qed.

Lemma settled_finish fr x r l : settled l (finish_op o client me random fr x r l).
Proof.
  destruct x; cbn [finish_op].
  - case_goal; [reflexivity |]. destruct r; [apply settled_disconnect |]. case_goal; [by apply settled_same | apply settled_attach].
  - case_goal; [reflexivity |]. destruct r; [apply settled_disconnect | apply settled_attach].
  - unfold on_read. case_goal; [reflexivity |]. destruct r as [e | [| b d]]; [apply settled_disconnect | apply settled_disconnect |].
    set (l1 := set_conn _ l). assert (settled l l1) as H1 by (by apply settled_conn). etrans; [exact H1 |]. unfold consume. set (l2 := set_incoming _ l1).
    assert (settled l1 l2) as H2 by (by apply settled_conn). etrans; [exact H2 |].
    pose proof (settled_consume (S (length (incoming (conn_of l2)))) l2) as H3. destruct (consume_loop _ _ _ _ _ l2) as [threw l3]. cbn [snd] in H3.
    etrans; [exact H3 |]. destruct threw; [by apply settled_say | apply settled_read_next].
  - unfold on_written. case_goal; [reflexivity |]. destruct r; [apply settled_disconnect |]. etrans; [| apply settled_write_next]. apply settled_conn. cbn.
    destruct (writes (conn_of l)); cbn; lia.
  - destruct r; [reflexivity | apply settled_tick].
  - destruct r; [reflexivity | apply settled_connect].
  - destruct r; [reflexivity | apply settled_complete].
Qed.

(** ** Requests *)

Lemma omap_delete_none {A B} (f : A → option B) (l : list A) k x : l !! k = Some x → f x = None → omap f (delete k l) = omap f l.
Proof.
  intros Hk Hf. rewrite <-(take_drop_middle l k x Hk) at 2. rewrite delete_take_drop, !omap_app. cbn. by rewrite Hf.
Qed.

Lemma omap_delete_some {A B} (f : A → option B) (l : list A) k x y : l !! k = Some x → f x = Some y → omap f l ≡ₚ y :: omap f (delete k l).
Proof.
  intros Hk Hf. rewrite <-(take_drop_middle l k x Hk) at 1. rewrite delete_take_drop, !omap_app. cbn. rewrite Hf. symmetry. apply Permutation_middle.
Qed.

Lemma settled_delete k t l : tasks l !! k = Some t → task_call t = None → settled l (set_tasks (delete k (tasks l)) l).
Proof.
  intros Hk Hn. apply settled_view; try done; unfold posted; cbn; apply (omap_delete_none _ _ _ _ Hk); [done | by destruct t].
Qed.

(** Running a posted request. *)
Lemma fail_request_settled k id p to c e l :
  tasks l !! k = Some (TRequest id p to c) → settled l (fail_request c e (set_tasks (delete k (tasks l)) l)).
Proof.
  intros Hk. set (l0 := set_tasks _ l). pose proof (omap_delete_some task_call _ _ _ c Hk eq_refl) as Hc. pose proof (omap_delete_some task_id _ _ _ id Hk eq_refl) as Hi.
  pose proof (Permutation_length Hc) as Hl. split; [| done | done].
  intros []. unfold total, owed, posted, live_ids in *. split.
  - split; unfold owed, posted, live_ids, fail_request; cbn [say set_calls set_tasks l0 calls_of tasks pending refusals outstanding next_id conn_of].
    + rewrite b_out0, !length_app, Hl. cbn. lia.
    + rewrite Hl in b_limit0. cbn in b_limit0. lia.
    + rewrite Hi in b_ids0. by apply list.NoDup_cons in b_ids0 as [_ ?].
    + intros i Hin. apply b_range0. rewrite Hi. by right.
    + done.
  - unfold fail_request. cbn [say set_calls set_tasks l0 log calls_of tasks pending refusals]. cbn [omap list_omap given]. rewrite Hc. solve_Permutation.
Qed.

Lemma start_request_settled k id p to c l :
  tasks l !! k = Some (TRequest id p to c) → is_ready l = true →
  let l0 := set_tasks (delete k (tasks l)) l in
  settled l (begin_op (OpRequest id) (set_calls (mkCalls (emplace id c (pending (calls_of l0))) (next_id (calls_of l0)) (outstanding (calls_of l0)) (refusals (calls_of l0))) l0)).
Proof.
  intros Hk Hr l0. pose proof (omap_delete_some task_call _ _ _ c Hk eq_refl) as Hc. pose proof (omap_delete_some task_id _ _ _ id Hk eq_refl) as Hi.
  pose proof (Permutation_length Hc) as Hl. split; [| intros _ _; exact Hr | done].
  intros []. unfold total, owed, posted, live_ids in *. rewrite Hi in b_ids0. cbn in b_ids0. apply list.NoDup_cons in b_ids0 as [Hn Hnd].
  assert (id ∉ (pending (calls_of l)).*1) as Hnp by (intros H; apply Hn, elem_of_app; by right).
  pose proof (emplace_perm id c _ Hnp) as Hp. pose proof (Permutation_length Hp) as Hlp. cbn in Hlp.
  split.
  - split; unfold owed, posted, live_ids; cbn [begin_op set_ops set_calls set_tasks l0 calls_of tasks pending refusals outstanding next_id conn_of].
    + rewrite b_out0, !length_app, !length_fmap, Hl, Hlp. cbn. lia.
    + rewrite Hl in b_limit0. cbn in b_limit0. lia.
    + rewrite Hp. cbn. rewrite <-Permutation_middle. by apply list.NoDup_cons.
    + intros i Hin. apply b_range0. rewrite Hp in Hin. cbn in Hin. rewrite <-Permutation_middle in Hin. by rewrite Hi.
    + done.
  - cbn [begin_op set_ops set_calls set_tasks l0 log calls_of tasks pending refusals]. rewrite Hc, Hp. cbn [fmap list_fmap snd]. solve_Permutation.
Qed.

Lemma run_request_settled k id p to c l :
  tasks l !! k = Some (TRequest id p to c) → settled l (run_request o id p c (set_tasks (delete k (tasks l)) l)).
Proof.
  intros Hk. set (l0 := set_tasks _ l). unfold run_request. case_goal; [by eapply fail_request_settled |].
  destruct (is_ready l0) eqn:Hr; cbn [negb]; [| by eapply fail_request_settled]. case_goal; [by eapply fail_request_settled |]. case_goal; [by eapply fail_request_settled |].
  pose proof (start_request_settled k id p to c l Hk Hr) as H1. cbv zeta in H1. fold l0 in H1. set (l1 := begin_op _ _) in *.
  set (f := mkFrame _ _ _). pose proof (settled_enqueue f l1) as H2. destruct (enqueue o f l1) as [q l2]. cbn [snd] in H2.
  etrans; [exact H1 |]. etrans; [exact H2 |]. destruct q; [reflexivity | apply settled_complete].
Qed.

Lemma run_task_settled k t fr l : tasks l !! k = Some t → settled l (run_task o client random fr t (set_tasks (delete k (tasks l)) l)).
Proof.
  intros Hk. destruct (task_call t) as [c |] eqn:Ec; [destruct t; try done; by eapply run_request_settled |].
  etrans; [by eapply settled_delete |]. set (l0 := set_tasks _ l). destruct t; cbn [run_task]; try done; try (by apply settled_same).
  - apply settled_attach.
  - case_goal; [reflexivity |]. etrans; [| apply settled_connect]. by apply settled_same.
  - apply settled_recheck.
  - apply settled_complete.
  - case_goal; [apply settled_enqueue_or_drop | reflexivity].
  - apply settled_notify.
  - apply settled_stop.
Qed.

(** ** Histories *)

Definition requested (e : LinkEvent) : list nat := match e with ECall (CRequest _ _ (Some k)) => [k] | _ => [] end.

Record Account (n : Z) (cs : list nat) (l : NodeLink) : Prop := {
  a_books : Books l;
  a_ready : needs_ready l;
  a_next : 1 ≤ next_id (calls_of l) ≤ 1 + n;
  a_total : total l ≡ₚ cs;
}.

Lemma settled_account n cs l l' : Account n cs l → settled l l' → Account (n + 1) (cs ++ []) l'.
Proof.
  intros [] [S1 S2 S3]. destruct (S1 a_books0) as [B T]. rewrite app_nil_r. split; [done | auto | lia | by rewrite T].
Qed.

Lemma post_other_settled t l : task_call t = None → settled l (post t l).
Proof. intros H. apply settled_view; try done; unfold posted; cbn; rewrite omap_app; cbn; [rewrite H | replace (task_id t) with (@None Z) by (by destruct t)]; by rewrite app_nil_r. Qed.

Lemma call_account n cs c l : Account n cs l → 0 ≤ n < 2 ^ 64 - 2 → Account (n + 1) (cs ++ requested (ECall c)) (call o client c l).
Proof.
  intros Ha Hn. destruct c as [h p | | payload timeout [k |] | t]; cbn [call requested].
  - eapply settled_account; [done |]. destruct client; [by apply post_other_settled | reflexivity].
  - eapply settled_account; [done |]. etrans; [| by apply post_other_settled]. by apply settled_same.
  - destruct Ha as [[] Hr Hx Ht]. assert (to_u64 (next_id (calls_of l) + 1) = next_id (calls_of l) + 1) as En by (apply to_u64_id; unfold u64_ok; lia). rewrite En.
    unfold total, owed, posted, live_ids in *. rewrite !length_app, !length_fmap in *.
    destruct (max_pending_requests o <=? outstanding (calls_of l)) eqn:E; bool_prop.
    + split; [| done | cbn; lia |].
      * split; unfold owed, posted, live_ids; cbn; try done; [rewrite !length_app, !length_fmap; cbn; lia |]. intros i Hi. specialize (b_range0 i Hi). lia.
      * unfold total, owed, posted. cbn. rewrite <-Ht. solve_Permutation.
    + split; [| done | cbn; lia |].
      * split; unfold owed, posted, live_ids; cbn; try done.
        -- rewrite !omap_app, !length_app, !length_fmap. cbn. lia.
        -- rewrite omap_app, length_app. cbn. lia.
        -- rewrite omap_app. cbn. rewrite <-app_assoc. cbn. rewrite <-Permutation_middle. apply list.NoDup_cons. split; [| done].
           intros Hi. specialize (b_range0 _ Hi). lia.
        -- intros i Hi. rewrite omap_app in Hi. cbn in Hi. rewrite <-app_assoc in Hi. cbn in Hi. rewrite <-Permutation_middle in Hi.
           apply elem_of_cons in Hi as [-> | Hi]; [lia |]. specialize (b_range0 _ Hi). lia.
      * unfold total, owed, posted. cbn. rewrite omap_app. cbn. rewrite <-Ht. solve_Permutation.
  - destruct Ha as [[] Hr Hx Ht]. assert (to_u64 (next_id (calls_of l) + 1) = next_id (calls_of l) + 1) as En by (apply to_u64_id; unfold u64_ok; lia). rewrite En.
    rewrite app_nil_r. split; [| done | cbn; lia | done]. split; try done. cbn. intros i Hi. specialize (b_range0 i Hi). lia.
  - eapply settled_account; [done |]. destruct (postable t) eqn:E; [| reflexivity]. apply post_other_settled. by destruct t.
Qed.

Lemma refused_settled k l : settled l (refused k l).
Proof.
  unfold refused. destruct (refusals (calls_of l) !! k) as [x |] eqn:E; [| reflexivity]. pose proof (delete_Permutation _ _ _ E) as Hp. pose proof (Permutation_length Hp) as Hl. cbn in Hl.
  split; [| done | done]. intros []. unfold total, owed, posted, live_ids in *. split.
  - split; unfold owed, posted, live_ids; cbn; try done. rewrite b_out0, !length_app, Hl. lia.
  - cbn. rewrite Hp at 2. solve_Permutation.
Qed.

Lemma step_account n cs e l : Account n cs l → 0 ≤ n < 2 ^ 64 - 2 → Account (n + 1) (cs ++ requested e) (step o client me random e l).
Proof.
  intros Ha Hn. destruct e as [c | k | k fr | k r fr | s]; cbn [step requested]; [by apply call_account | | | |]; (eapply settled_account; [done |]).
  - apply refused_settled.
  - destruct (tasks l !! k) as [t |] eqn:E; [by apply run_task_settled | reflexivity].
  - destruct (ops l !! k) as [x |] eqn:E; [| reflexivity]. etrans; [| apply settled_finish]. by apply settled_same.
  - apply settled_apply.
Qed.

Lemma run_account es : ∀ n cs l, Account n cs l → 0 ≤ n → n + Z.of_nat (length es) < 2 ^ 64 - 1 →
  Account (n + Z.of_nat (length es)) (cs ++ (es ≫= requested)) (run o client me random es l).
Proof.
  induction es as [| e es IH]; intros n cs l Ha H0 Hn; [cbn in *; by rewrite app_nil_r, Z.add_0_r |]. cbn [length] in Hn |- *. cbn [run foldl].
  rewrite bind_cons, app_assoc. replace (n + Z.of_nat (S (length es))) with (n + 1 + Z.of_nat (length es)) by lia. apply IH; [apply step_account; [done | lia] | lia | lia].
Qed.

Lemma make_link_account t l : make_link o client me t = Some l → 0 ≤ max_pending_requests o → 0 ≤ max_queued_frames o → Account 0 [] l.
Proof.
  intros H Hp Hq. assert (∀ l', new_link o me t = Some l' → Account 0 [] l') as Hn.
  { unfold new_link. intros l' E. case_hyp E; [done |]. injection E as <-. split; [| by intros [] | cbn; lia | done]. split; cbn; try done; [constructor |]. by intros i ?%not_elem_of_nil. }
  unfold make_link, accepted in H. destruct client; [by apply Hn |]. destruct (new_link o me t) as [l' |]; [| done]. cbn in H. injection H as <-.
  destruct (Hn l' eq_refl) as [B R N T]. assert (settled l' (post (TAttach 0) (take_conn l'))) as [S1 S2 S3] by (etrans; [| by apply post_other_settled]; by apply settled_same).
  destruct (S1 B) as [B' T']. split; [done | auto | by rewrite S3 | by rewrite T'].
Qed.

(** C26: every request is answered exactly once, and the link keeps to its limits:
    whatever calls, posted functions, reads, timers and failures overlap, as long
    as the 64-bit ids are not used up, the completions that were called and those of
    requests still on their way are the completions that were handed over, each
    once; the number of reserved requests is their number; no more than
    [max_pending_requests] are admitted and no more than [max_queued_frames] frames
    wait to be written; and a link that is not ready has no request waiting for a
    response. *)
Theorem requests_accounted t l0 es :
  make_link o client me t = Some l0 → 0 ≤ max_pending_requests o → 0 ≤ max_queued_frames o → Z.of_nat (length es) < 2 ^ 64 - 1 →
  let l := run o client me random es l0 in
  omap given (log l) ++ owed l ≡ₚ es ≫= requested ∧
  outstanding (calls_of l) = Z.of_nat (length (owed l)) ∧
  Z.of_nat (length (posted l) + length (pending (calls_of l))) ≤ max_pending_requests o ∧
  Z.of_nat (length (writes (conn_of l))) ≤ max_queued_frames o ∧
  (is_ready l = false → pending (calls_of l) = []).
Proof.
  intros H Hp Hq Hn l. destruct (run_account es 0 [] l0 (make_link_account t l0 H Hp Hq) ltac:(lia) ltac:(lia)) as [[B1 B2 B3 B4 B5] R N T].
  fold l in B1, B2, B3, B4, B5, R, N, T. split; [done |]. split; [done |]. split; [done |]. split; [done |].
  intros Hr. destruct (pending (calls_of l)) as [| x p] eqn:E; [done |]. unfold needs_ready in R. rewrite E, Hr in R. by specialize (R ltac:(done)).
Qed.
End Calls.

(** ** Reads of any size *)

Section Chunks.
Context (o : LinkOptions) (client : bool) (me : nat) (random : Z → Z).

(** The bytes not yet looked at, on a link that is still open. *)
Definition with_rest (s : bytes) (l : NodeLink) : NodeLink :=
  match connected l with Some _ => set_incoming s l | None => l end.

Lemma with_rest_disconnect s e l : with_rest s (disconnect o client random e l) = disconnect o client random e l.
Proof. unfold with_rest. by rewrite disconnect_none. Qed.

Lemma disconnect_rest s e l : connected l ≠ None → disconnect o client random e (set_incoming s l) = disconnect o client random e l.
Proof. intros H. unfold disconnect. change (connected (set_incoming s l)) with (connected l). by destruct (connected l). Qed.

Lemma write_next_rest s g l : write_next g (set_incoming s l) = set_incoming s (write_next g l).
Proof.
  unfold write_next. cbn [set_incoming set_conn conn_of writes connection generation]. destruct (writes (conn_of l)); [done |].
  destruct (connection (conn_of l)); [| done]. by destruct (g =? generation (conn_of l))%nat.
Qed.

Lemma write_next_connected g l : connected (write_next g l) = connected l.
Proof.
  unfold write_next, connected. destruct (writes (conn_of l)); [done |]. destruct (connection (conn_of l)) eqn:E; [| done]. case_goal; cbn; done.
Qed.

Lemma enqueue_rest s f l :
  enqueue o f (set_incoming s l) = ((enqueue o f l).1, set_incoming s (enqueue o f l).2) ∧ connected (enqueue o f l).2 = connected l.
Proof.
  unfold enqueue. change (connected (set_incoming s l)) with (connected l). change (writes (conn_of (set_incoming s l))) with (writes (conn_of l)).
  destruct (_ || _ || _); [done |]. cbn [fst snd]. set (d := default [] (encode_frame f)).
  change (push_write d (set_incoming s l)) with (set_incoming s (push_write d l)). set (l1 := push_write d l).
  change (writing (conn_of (set_incoming s l1))) with (writing (conn_of l1)). change (gen (set_incoming s l1)) with (gen l1).
  destruct (writing (conn_of l1)); [done |]. by rewrite write_next_rest, write_next_connected.
Qed.

Lemma enqueue_or_drop_rest s f l : connected l ≠ None → enqueue_or_drop o client random f (set_incoming s l) = with_rest s (enqueue_or_drop o client random f l).
Proof.
  intros Hc. unfold enqueue_or_drop. destruct (enqueue_rest s f l) as [-> Ec]. destruct (enqueue o f l) as [q l1]. cbn [fst snd] in *.
  destruct q; [unfold with_rest; rewrite Ec; by destruct (connected l) |]. rewrite disconnect_rest by congruence. by rewrite with_rest_disconnect.
Qed.

Lemma with_rest_open s l : connected l ≠ None → with_rest s l = set_incoming s l.
Proof. unfold with_rest. by destruct (connected l). Qed.

Lemma complete_rest s id r l : complete id r (set_incoming s l) = set_incoming s (complete id r l) ∧ connected (complete id r l) = connected l.
Proof. unfold complete. change (calls_of (set_incoming s l)) with (calls_of l). by destruct (find_pending id (pending (calls_of l))). Qed.

Lemma handle_data_rest s f l : connected l ≠ None → handle_data o client random f (set_incoming s l) = with_rest s (handle_data o client random f l).
Proof.
  intros Hc. unfold handle_data. change (handlers (set_incoming s l)) with (handlers l). destruct (f_type f); try by rewrite with_rest_open.
  - by apply enqueue_or_drop_rest.
  - destruct (request_handler (handlers l)); by rewrite with_rest_open.
  - destruct (complete_rest s (f_id f) (inr (f_payload f)) l) as [-> E]. rewrite with_rest_open; [done | congruence].
  - destruct (notify_handler (handlers l)); by rewrite with_rest_open.
Qed.

Lemma become_ready_rest s id epoch l : connected l ≠ None → become_ready id epoch (set_incoming s l) = with_rest s (become_ready id epoch l).
Proof.
  intros Hc. destruct (become_ready_fields id epoch l) as (_ & _ & _ & _ & _ & E & _). rewrite with_rest_open by congruence. unfold become_ready, emit_state. cbn.
  by destruct (state_handler (handlers l)).
Qed.

Lemma hello_challenge_rest s f l : connected l ≠ None → handle_hello_challenge o client random f (set_incoming s l) = with_rest s (handle_hello_challenge o client random f l).
Proof.
  intros Hc. assert (∀ e, disconnect o client random e (set_incoming s l) = with_rest s (disconnect o client random e l)) as Hd.
  { intros e. by rewrite with_rest_disconnect, disconnect_rest. }
  unfold handle_hello_challenge. change (peer_of (set_incoming s l)) with (peer_of l). case_goal; [apply Hd |].
  destruct (decode_challenge (f_payload f)) as [[[id epoch] nonce] |]; [| apply Hd].
  change (peer_acceptable o id (set_incoming s l)) with (peer_acceptable o id l). change (seen_nonce nonce (set_incoming s l)) with (seen_nonce nonce l).
  case_goal; [apply Hd |]. set (m := auth_message _ _ _ _).
  set (p := mkPeer _ _ _ _ _ _ _ _ _). set (l1 := say (OSign m) (set_peer_of p l)).
  change (say (OSign m) (set_peer_of p (set_incoming s l))) with (set_incoming s l1).
  assert (∀ e, disconnect o client random e (set_incoming s l1) = with_rest s (disconnect o client random e l1)) as Hd1.
  { intros e. by rewrite with_rest_disconnect, disconnect_rest. }
  destruct (sign o m) as [sg |]; [| apply Hd1]. case_goal; [apply Hd1 |]. by apply enqueue_or_drop_rest.
Qed.

Lemma hello_auth_rest s f l : connected l ≠ None → handle_hello_auth o client random f (set_incoming s l) = with_rest s (handle_hello_auth o client random f l).
Proof.
  intros Hc. assert (∀ e, disconnect o client random e (set_incoming s l) = with_rest s (disconnect o client random e l)) as Hd.
  { intros e. by rewrite with_rest_disconnect, disconnect_rest. }
  unfold handle_hello_auth. change (peer_of (set_incoming s l)) with (peer_of l). case_goal; [apply Hd |].
  destruct (decode_auth_response (f_payload f)) as [[[id epoch] sg] |]; [| apply Hd]. case_goal; [apply Hd |].
  set (x := OVerify _ _ _ _). change (say x (set_incoming s l)) with (set_incoming s (say x l)).
  case_goal; [by apply become_ready_rest | by rewrite with_rest_disconnect, disconnect_rest].
Qed.

Lemma apply_rest s x l : connected l ≠ None → apply_to_store me x (set_incoming s l) = ((apply_to_store me x l).1, with_rest s (apply_to_store me x l).2).
Proof.
  intros Hc. rewrite with_rest_open by (destruct (apply_to_store_fields me x l) as (E & _); congruence).
  unfold apply_to_store. change (peer_of (set_incoming s l)) with (peer_of l). destruct (trust (peer_of l)) as [t |]; [| done].
  destruct (apply_snapshot x t) as [| | t' who]; [done | done |]. cbn [fst snd]. f_equal. set (p := mkPeer _ _ _ _ _ _ _ _ _).
  change (set_peer_of p (set_incoming s l)) with (set_incoming s (set_peer_of p l)). generalize (set_peer_of p l) as l1. clear. intros l1. unfold notify_listeners.
  change (say (OTrust x) (set_incoming s l1)) with (set_incoming s (say (OTrust x) l1)). generalize (say (OTrust x) l1) as l2.
  induction who as [| i who IH]; intros l2; [done |]. cbn [foldl]. case_goal; [| apply IH]. apply (IH (post (TRecheck x) l2)).
Qed.

Lemma handle_frame_rest s f l :
  connected l ≠ None → handle_frame o client me random f (set_incoming s l) = ((handle_frame o client me random f l).1, with_rest s (handle_frame o client me random f l).2).
Proof.
  intros Hc. assert (∀ e, disconnect o client random e (set_incoming s l) = with_rest s (disconnect o client random e l)) as Hd.
  { intros e. by rewrite with_rest_disconnect, disconnect_rest. }
  pose proof (handle_data_rest s f l Hc) as Hdata. pose proof (hello_challenge_rest s f l Hc) as H1. pose proof (hello_auth_rest s f l Hc) as H2.
  pose proof (become_ready_rest s (f_payload f) 0 l Hc) as H3.
  assert (apply_epoch_config o client me random (f_payload f) (set_incoming s l) =
    ((apply_epoch_config o client me random (f_payload f) l).1, with_rest s (apply_epoch_config o client me random (f_payload f) l).2)) as H4.
  { unfold apply_epoch_config. destruct (decode_epoch_update (f_payload f)) as [[x sg] |]; [| by rewrite Hd]. change (peer_of (set_incoming s l)) with (peer_of l).
    set (y := OVerify _ _ _ _). change (say y (set_incoming s l)) with (set_incoming s (say y l)). case_goal; [by apply apply_rest | by rewrite with_rest_open]. }
  unfold handle_frame. change (peer_of (set_incoming s l)) with (peer_of l). destruct (authenticated o).
  - destruct (f_type f); repeat case_goal; cbn [fst snd]; by rewrite ?Hd, ?Hdata, ?H1, ?H2, ?H4.
  - cbn [fst snd]. f_equal. destruct (f_type f); repeat case_goal; by rewrite ?Hd, ?Hdata, ?H3.
Qed.

Lemma set_incoming_id l : set_incoming (incoming (conn_of l)) l = l.
Proof. by destruct l as [[] ? ? ? ? ? ? ? ? ?]. Qed.

Lemma handle_frame_incoming f l :
  connected l ≠ None → connected (handle_frame o client me random f l).2 ≠ None → incoming (conn_of (handle_frame o client me random f l).2) = incoming (conn_of l).
Proof.
  intros Hc Hc'. pose proof (handle_frame_rest (incoming (conn_of l)) f l Hc) as H. rewrite set_incoming_id, with_rest_open in H by done.
  apply (f_equal (λ r, incoming (conn_of r.2))) in H. exact H.
Qed.

(** The loop needs no more fuel than there are bytes. *)
Lemma consume_fuel n : ∀ m l, connected l ≠ None → (length (incoming (conn_of l)) < n)%nat → (n ≤ m)%nat →
  consume_loop o client me random m l = consume_loop o client me random n l.
Proof.
  induction n as [| n IH]; intros m l Hc Hl Hm; [lia |]. destruct m as [| m]; [lia |]. cbn [consume_loop]. case_goal; [done |]. case_goal; [done |]. case_goal; [done |]. bool_prop.
  destruct (decode_frame _ _) as [f |]; [| done]. set (l1 := set_incoming _ l).
  pose proof (handle_frame_incoming f l1 Hc) as Hi. destruct (handle_frame o client me random f l1) as [threw l2]. cbn [snd] in Hi. destruct threw; [done |].
  destruct (connected l2) eqn:Ec; [| done]. apply IH; [congruence | | lia]. rewrite Hi by done. unfold l1. cbn. rewrite length_drop. unfold size in *. lia.
Qed.

(** What more bytes add to a round of the loop. *)
Definition then_more (b : bytes) (r : bool * NodeLink) : bool * NodeLink :=
  let '(threw, l) := r in
  if threw then (true, set_incoming (incoming (conn_of l) ++ b) l) else
  match connected l with Some _ => consume o client me random b l | None => (false, l) end.

Lemma handle_frame_threw f l : (handle_frame o client me random f l).1 = true → connected (handle_frame o client me random f l).2 = connected l.
Proof.
  unfold handle_frame, apply_epoch_config. destruct (authenticated o); [| done]. destruct (f_type f); repeat case_goal; cbn [fst snd]; try done.
  all: match goal with |- (apply_to_store me ?s ?l1).1 = true → _ => intros _; destruct (apply_to_store_fields me s l1) as (E & _); exact E end.
Qed.

Lemma get32_app s b : 4 ≤ size s → get32 (s ++ b) = get32 s.
Proof. unfold size, get32. intros H. by rewrite take_app_le by lia. Qed.

Lemma loop_more b n : ∀ l, connected l ≠ None → (length (incoming (conn_of l)) < n)%nat →
  consume_loop o client me random (n + length b) (set_incoming (incoming (conn_of l) ++ b) l) = then_more b (consume_loop o client me random n l).
Proof.
  induction n as [| n IH]; intros l Hc Hl; [lia |]. set (s := incoming (conn_of l)) in *.
  assert (consume_loop o client me random (S n + length b) (set_incoming (s ++ b) l) = then_more b (false, l)) as Hwait.
  { cbn [then_more]. destruct (connected l) eqn:Ec; [| done]. unfold consume. fold s. apply consume_fuel; [change (connected l ≠ None); by rewrite Ec | |]; cbn [set_incoming set_conn conn_of incoming]; rewrite length_app; lia. }
  assert (∀ e, disconnect o client random e (set_incoming (s ++ b) l) = disconnect o client random e l) as Hd by (intros e; by apply disconnect_rest).
  assert (∀ e, then_more b (false, disconnect o client random e l) = (false, disconnect o client random e l)) as Hd2.
  { intros e. cbn [then_more]. by rewrite disconnect_none. }
  change (consume_loop o client me random (S n) l) with
    (if size s <? 4 then (false, l) else let len := get32 s in
     if (len <? 10) || (len >? max_frame_bytes o) then (false, disconnect o client random protocol_error l) else
     if size s <? len + 4 then (false, l) else
     match decode_frame (take (Z.to_nat len) (drop 4 s)) (max_frame_bytes o) with
     | None => (false, disconnect o client random protocol_error l)
     | Some frame => let '(threw, l) := handle_frame o client me random frame (set_incoming (drop (Z.to_nat len + 4) s) l) in
          if threw then (true, l) else match connected l with None => (false, l) | Some _ => consume_loop o client me random n l end
     end).
  destruct (size s <? 4) eqn:E4; [done |]. bool_prop. cbv zeta. destruct (_ || _) eqn:Elen.
  { cbn [plus consume_loop set_incoming set_conn conn_of incoming]. rewrite get32_app by done. rewrite (proj2 (Z.ltb_ge (size (s ++ b)) 4)) by (unfold size in *; rewrite length_app; lia).
    fold (set_incoming (s ++ b) l). rewrite Elen, Hd2. by rewrite Hd. }
  bool_prop. destruct (size s <? get32 s + 4) eqn:Es; [done |]. bool_prop. clear Hwait.
  cbn [plus consume_loop]. change (incoming (conn_of (set_incoming (s ++ b) l))) with (s ++ b). rewrite get32_app by done.
  rewrite (proj2 (Z.ltb_ge (size (s ++ b)) 4)) by (unfold size in *; rewrite length_app; lia). rewrite (proj2 (Z.ltb_ge (get32 s) 10)) by lia.
  rewrite Z.gtb_ltb, (proj2 (Z.ltb_ge (max_frame_bytes o) (get32 s))) by lia. cbn [orb].
  rewrite (proj2 (Z.ltb_ge (size (s ++ b)) (get32 s + 4))) by (unfold size in *; rewrite length_app; lia).
  assert (take (Z.to_nat (get32 s)) (drop 4 (s ++ b)) = take (Z.to_nat (get32 s)) (drop 4 s)) as ->.
  { unfold size in *. rewrite drop_app_le by lia. rewrite take_app_le; [done | rewrite length_drop; lia]. }
  destruct (decode_frame _ _) as [f |]; [| by rewrite Hd2, Hd]. set (r := drop (Z.to_nat (get32 s) + 4) s).
  assert (drop (Z.to_nat (get32 s) + 4) (s ++ b) = r ++ b) as ->. { unfold size in *. apply drop_app_le. lia. }
  set (l1 := set_incoming r l). change (set_incoming (r ++ b) (set_incoming (s ++ b) l)) with (set_incoming (r ++ b) l1).
  rewrite handle_frame_rest by done. pose proof (handle_frame_incoming f l1 Hc) as Hi. pose proof (handle_frame_threw f l1) as Ht.
  destruct (handle_frame o client me random f l1) as [threw l2]. cbn [fst snd] in *. destruct threw.
  - specialize (Ht eq_refl). cbn [then_more]. rewrite with_rest_open by (rewrite Ht; done). rewrite Hi by (rewrite Ht; done). done.
  - unfold with_rest. destruct (connected l2) eqn:Ec; [| by cbn [then_more]; rewrite Ec]. change (connected (set_incoming (r ++ b) l2)) with (connected l2). rewrite Ec.
    assert (incoming (conn_of l2) = r) as Er by (by apply Hi). rewrite <-Er. apply IH; [congruence |]. rewrite Er. unfold r. rewrite length_drop. unfold size in *. lia.
Qed.

(** C28: it does not matter how the bytes of the peer are cut into reads: reading
    two pieces one after the other does exactly what reading them at once does,
    whatever frames they hold and however these are cut, errors included; a link
    that was closed by the first piece stays as it is. *)
Theorem reads_are_chunk_independent a b l :
  connected l ≠ None → consume o client me random (a ++ b) l = then_more b (consume o client me random a l).
Proof.
  intros Hc. unfold consume at 1 2. set (l1 := set_incoming (incoming (conn_of l) ++ a) l).
  change (set_incoming (incoming (conn_of l) ++ a ++ b) l) with (set_incoming (incoming (conn_of l) ++ a ++ b) l1). rewrite app_assoc.
  change (incoming (conn_of l) ++ a) with (incoming (conn_of l1)). change (incoming (conn_of (set_incoming (incoming (conn_of l1) ++ b) l1))) with (incoming (conn_of l1) ++ b).
  rewrite length_app. change (S (length (incoming (conn_of l1)) + length b)) with (S (length (incoming (conn_of l1))) + length b)%nat. apply loop_more; [done | lia].
Qed.
End Chunks.

(** ** Samples *)

(** A has two requests out and one more on its way when the connection breaks. *)
Definition requesting_a : list LinkEvent :=
  shake_a ++ [ECall (CRequest [1] 1000 (Some 71%nat)); ETask 0 (sample_fresh 0 5); ECall (CRequest [2] 1000 (Some 72%nat)); ECall (CRequest [3] 1000 (Some 73%nat));
              ETask 0 (sample_fresh 0 5); EOp 1 (RError io_error) (sample_fresh 0 5)].

Example requesting_a_log : omap given (log (run_a requesting_a)) = [72%nat; 71%nat] ∧ owed (run_a requesting_a) = [73%nat].
Proof. vm_compute. done. Qed.

Lemma requests_accounted_witness : omap given (log (run_a requesting_a)) ++ owed (run_a requesting_a) ≡ₚ requesting_a ≫= requested.
Proof.
  refine (proj1 (requests_accounted options_a true 0 (λ _, 0) (Some sample_store) (default no_link (make_link options_a true 0 (Some sample_store))) requesting_a _ _ _ _));
    [reflexivity | cbn; lia | cbn; lia | apply Z.ltb_lt; vm_compute; reflexivity].
Defined.

Lemma reads_are_chunk_independent_witness :
  consume options_a true 0 (λ _, 0) (take 9 hello_of_b ++ drop 9 hello_of_b) (run_a dial_a) =
  then_more options_a true 0 (λ _, 0) (drop 9 hello_of_b) (consume options_a true 0 (λ _, 0) (take 9 hello_of_b) (run_a dial_a)).
Proof. apply reads_are_chunk_independent. vm_compute. discriminate. Defined.
