(* ===== verification/NodeHandshake.v ===== *)
(** * Two links that trust each other

    About [NodeLink]: a frame that arrives is handled whole ([consume_frame]), two
    links that trust each other get ready with each other
    ([handshake_completes]), the trust set changes exactly by newer updates the
    controller signed ([update_applied_exactly]), the delay between attempts to
    connect ([reconnect_delay_bounds]); and runs in which the link does something
    else than its comments say. *)

From S2P Require Import Prelude NodeFrame NodeLink NodeSample NodeLinkSafety NodeLinkCalls.

Section Frames.
Context (o : LinkOptions) (client : bool) (me : nat) (random : Z → Z).
Context (limit : max_frame_bytes o ≤ 2 ^ 32 - 1).

Lemma encode_size f w : encode_frame f = Some w → size w = 14 + size (f_payload f) ∧ size (f_payload f) ≤ 2 ^ 32 - 1 - 10.
Proof.
  unfold encode_frame. intros H. case_hyp H; [done |]. bool_prop. apply (inj Some) in H. rewrite <-H. split; [| done].
  unfold size, put32, put64. rewrite !length_app, !length_be_put. cbn [length]. lia.
Qed.

(** An encoded frame, whole and alone, is handled. *)
Lemma consume_frame f w l :
  encode_frame f = Some w → bytes_ok w → frame_ok f → size (f_payload f) ≤ max_frame_bytes o - 10 →
  connected l ≠ None → incoming (conn_of l) = [] →
  consume o client me random w l = handle_frame o client me random f l.
Proof.
  intros Hw Hb Hf Hs Hc Hi. destruct (encode_size f w Hw) as [Hlen Hmax]. set (body := drop 4 w).
  assert (w = put32 (size body) ++ body) as Ew.
  { unfold body. unfold encode_frame in Hw. case_hyp Hw; [done |]. apply (inj Some) in Hw. unfold size in *.
    assert (Z.of_nat (length (drop 4 w)) = 10 + Z.of_nat (length (f_payload f))) as -> by (rewrite length_drop; lia). rewrite <-Hw.
    rewrite to_u32_id by (unfold u32_ok; lia). unfold put32. by rewrite drop_app_length' by (by rewrite length_be_put). }
  assert (size body = 10 + size (f_payload f)) as Eb by (unfold body, size in *; rewrite length_drop; lia).
  assert (bytes_ok body) as Hbb by (unfold body; auto with proto).
  assert (decode_frame body (max_frame_bytes o) = Some f) as Hd.
  { apply node_frame_roundtrip; [done | done |]. split; [done |]. split; [lia |]. by rewrite Hw, <-Ew. }
  assert (get32 w = size body) as Hg.
  { rewrite Ew. unfold get32, put32. rewrite take_app_length' by (by rewrite length_be_put). apply be_get_put_id. change (256 ^ Z.of_nat 4) with (2 ^ 32). unfold size in *. lia. }
  unfold consume. rewrite Hi. cbn [app]. set (l1 := set_incoming w l). cbn [consume_loop]. change (incoming (conn_of l1)) with w.
  rewrite (proj2 (Z.ltb_ge (size w) 4)) by (unfold size in *; lia). rewrite Hg, (proj2 (Z.ltb_ge (size body) 10)) by (unfold size in *; lia).
  rewrite Z.gtb_ltb, (proj2 (Z.ltb_ge (max_frame_bytes o) (size body))) by lia. cbn [orb]. rewrite (proj2 (Z.ltb_ge (size w) _)) by lia.
  assert (Z.to_nat (size body) = length body) as -> by (unfold size; lia). fold body. rewrite firstn_all, Hd.
  rewrite drop_ge by (unfold size in *; lia). assert (set_incoming [] l1 = l) as -> by (unfold l1; rewrite <-(set_incoming_id l), Hi; done).
  pose proof (handle_frame_incoming o client me random f l Hc) as Hin. destruct (handle_frame o client me random f l) as [threw l2]. cbn [snd] in Hin.
  destruct threw; [done |]. destruct (connected l2) eqn:Ec; [| done]. specialize (Hin ltac:(done)). rewrite Hi in Hin.
  destruct (length w) as [| m] eqn:El; [done |]. cbn [consume_loop]. by rewrite Hin.
Qed.

(** ** One side of the handshake *)

(** A link that has sent its challenge. *)
Record Waiting (id nonce : bytes) (u : TrustStore) (l : NodeLink) : Prop := {
  w_open : connected l ≠ None;
  w_state : auth_state (peer_of l) = challenge;
  w_empty : incoming (conn_of l) = [];
  w_own : ch_nonce (own_challenge (peer_of l)) = nonce;
  w_trust : trust (peer_of l) = Some u;
  w_room : Z.of_nat (length (writes (conn_of l))) < max_queued_frames o;
  w_size : size (encode_auth_response id (t_epoch u) (repeat 0 64)) ≤ max_frame_bytes o - 10;
}.

Definition response_frame (epoch : Z) (signature : bytes) : Frame := mkFrame hello_auth 0 (encode_auth_response (node_id o) epoch signature).

Lemma response_size id epoch sg : size sg = 64 → size (encode_auth_response id epoch sg) = size (encode_auth_response id epoch (repeat 0 64)).
Proof. unfold size, encode_auth_response. intros H. rewrite !length_app, repeat_length. lia. Qed.

Lemma enqueue_room f l :
  size (f_payload f) ≤ max_frame_bytes o - 10 → Z.of_nat (length (writes (conn_of l))) < max_queued_frames o → connected l ≠ None →
  ∃ l', enqueue o f l = (true, l') ∧ peer_of l' = peer_of l ∧ connected l' = connected l ∧ incoming (conn_of l') = incoming (conn_of l) ∧
    encode_frame f = Some (default [] (encode_frame f)) ∧ writes (conn_of l') = writes (conn_of l) ++ [default [] (encode_frame f)].
Proof.
  intros Hs Hr Hc. unfold enqueue. rewrite Z.gtb_ltb, (proj2 (Z.ltb_ge _ _)) by done. rewrite (proj2 (Z.leb_gt _ _)) by done.
  rewrite bool_decide_eq_false_2 by done. cbn [orb]. eexists. split; [reflexivity |].
  assert (encode_frame f = Some (default [] (encode_frame f))) as E by (unfold encode_frame; rewrite Z.gtb_ltb, (proj2 (Z.ltb_ge _ _)) by lia; done).
  set (l1 := push_write _ l). assert (connected l1 ≠ None) as Hc1 by done. destruct (writing (conn_of l1)); [done |].
  unfold write_next. set (ws := writes (conn_of l1)). assert (ws = writes (conn_of l) ++ [default [] (encode_frame f)]) as Ew by done.
  destruct ws as [| d w] eqn:Ed; [by destruct (writes (conn_of l)) |]. unfold connected in *. destruct (connection (conn_of l1)) eqn:Ec; [| done].
  rewrite Nat.eqb_refl. cbn. rewrite <-Ew. cbn in Ec. by rewrite Ec.
Qed.

(** The challenge of an acceptable peer is answered. *)
Lemma answer_challenge nonce u l id epoch pn sg :
  authenticated o = true → Waiting (node_id o) nonce u l →
  acceptable o id → trusts u id = true → pn ∉ seen_nonces (peer_of l) → short id → u64_ok epoch → size pn = kNonceBytes →
  sign o (auth_message (node_id o) nonce id pn) = Some sg → size sg = kSignatureBytes →
  ∃ l' w, handle_frame o client me random (mkFrame hello 0 (encode_challenge id epoch pn)) l = (false, l') ∧
    encode_frame (response_frame (t_epoch u) sg) = Some w ∧ writes (conn_of l') = writes (conn_of l) ++ [w] ∧
    connected l' ≠ None ∧ incoming (conn_of l') = [] ∧ auth_state (peer_of l') = response ∧
    peer_challenge (peer_of l') = mkChallenge id epoch pn ∧ ch_nonce (own_challenge (peer_of l')) = nonce ∧ trust (peer_of l') = Some u.
Proof.
  intros Ha [] (Hne & Hno & Hex) Ht Hsn Hsh He Hpn Hsg Hss. unfold handle_frame. rewrite Ha. cbn [f_type f_payload]. unfold handle_hello_challenge.
  rewrite bool_decide_eq_true_2 by done. cbn [negb f_payload]. unfold decode_challenge, encode_challenge.
  rewrite decode_signed_read by (done || unfold kNonceBytes; lia).
  assert (peer_acceptable o id l = true) as ->.
  { unfold peer_acceptable, trusts_id. rewrite w_trust0, Ht, !bool_decide_eq_false_2 by done. cbn. apply orb_true_iff. destruct Hex as [-> | ->]; [left | right]; by apply bool_decide_eq_true. }
  assert (seen_nonce pn l = false) as -> by (by apply bool_decide_eq_false). cbn [negb orb]. rewrite w_own0, Hsg, Hss, Z.eqb_refl. cbn [negb].
  set (l1 := say _ _). assert (trust_epoch l1 = t_epoch u) as Eu by (unfold trust_epoch; cbn; by rewrite w_trust0). rewrite Eu.
  fold (response_frame (t_epoch u) sg). destruct (enqueue_room (response_frame (t_epoch u) sg) l1) as (l' & -> & E1 & E2 & E3 & E4 & E5); [| done | done |].
  - cbn [response_frame f_payload]. rewrite response_size by done. done.
  - exists l', (default [] (encode_frame (response_frame (t_epoch u) sg))). rewrite E1, E2, E3. cbn. done.
Qed.

(** The signature of the peer makes the link ready. *)
Lemma accept_signature nonce u l id epoch pn epoch' sg :
  authenticated o = true → connected l ≠ None → auth_state (peer_of l) = response → peer_challenge (peer_of l) = mkChallenge id epoch pn →
  ch_nonce (own_challenge (peer_of l)) = nonce → trust (peer_of l) = Some u →
  short id → u64_ok epoch' → size sg = kSignatureBytes → verify o (neighbor_key u id) (auth_message id pn (node_id o) nonce) sg = true →
  ∃ l', handle_frame o client me random (mkFrame hello_auth 0 (encode_auth_response id epoch' sg)) l = (false, l') ∧
    is_ready l' = true ∧ peer_id (peer_of l') = id ∧ peer_epoch (peer_of l') = epoch'.
Proof.
  intros Ha Hc Hst Hp Hown Ht Hsh He Hsg Hv. unfold handle_frame. rewrite Ha. cbn [f_type f_payload]. unfold handle_hello_auth.
  rewrite bool_decide_eq_true_2 by done. cbn [negb f_payload]. unfold decode_auth_response, encode_auth_response.
  rewrite decode_signed_read by (done || unfold kSignatureBytes; lia). rewrite Hp. cbn [ch_node_id ch_nonce]. rewrite bool_decide_eq_true_2 by done. cbn [negb].
  rewrite Ht, Hown, Hv. eexists. split; [reflexivity |]. unfold become_ready, emit_state. cbn. by destruct (state_handler (handlers l)).
Qed.
End Frames.

(** ** Both sides *)

Lemma encode_bytes f w : encode_frame f = Some w → bytes_ok (f_payload f) → bytes_ok w.
Proof.
  unfold encode_frame. intros H Hp. case_hyp H; [done |]. apply (inj Some) in H as <-. unfold put32, put64.
  rewrite !bytes_ok_app. split; [auto with proto |]. split; [| auto with proto]. constructor; [done |]. constructor; [by destruct (f_type f) | constructor].
Qed.

(** The identity of a node: its id, its epoch and a nonce. *)
Record Sound (o : LinkOptions) (u : TrustStore) (epoch : Z) (nonce : bytes) : Prop := {
  d_auth : authenticated o = true;
  d_limit : max_frame_bytes o ≤ 2 ^ 32 - 1;
  d_short : short (node_id o);
  d_id : bytes_ok (node_id o);
  d_epoch : u64_ok epoch;
  d_now : u64_ok (t_epoch u);
  d_nonce : size nonce = kNonceBytes;
  d_bytes : bytes_ok nonce;
}.

(** [o] has the node of [o'] among its neighbours, with a key that belongs to it. *)
Record Trusting (o : LinkOptions) (u : TrustStore) (o' : LinkOptions) (u' : TrustStore) : Prop := {
  q_peer : acceptable o (node_id o');
  q_listed : trusts u (node_id o') = true;
  q_sign : ∀ m, ∃ s, sign o' m = Some s ∧ size s = kSignatureBytes ∧ bytes_ok s ∧ verify o (neighbor_key u (node_id o')) m s = true;
  q_fits : size (encode_auth_response (node_id o') (t_epoch u') (repeat 0 64)) ≤ max_frame_bytes o - 10;
}.

Lemma challenge_bytes o epoch nonce : bytes_ok (node_id o) → bytes_ok nonce → bytes_ok (encode_challenge (node_id o) epoch nonce).
Proof. intros H1 H2. unfold encode_challenge, put32, put64. rewrite !bytes_ok_app. repeat split; auto with proto. by constructor. Qed.

Lemma challenge_size id epoch epoch' nonce : size nonce = kNonceBytes → size (encode_challenge id epoch nonce) ≤ size (encode_auth_response id epoch' (repeat 0 64)).
Proof.
  unfold size, encode_challenge, encode_auth_response, kNonceBytes, put64. intros H. rewrite !length_app, !length_be_put, repeat_length. lia.
Qed.

Lemma frame_ok_zero t p : t ≠ request → t ≠ NodeFrame.response → frame_ok (mkFrame t 0 p).
Proof. intros H1 H2. split; [by compute |]. split; [done | by intros [? | ?]]. Qed.

Section Half.
Context (o : LinkOptions) (client : bool) (me : nat) (random : Z → Z) (u : TrustStore) (epoch : Z) (nonce : bytes) (l : NodeLink).
Context (o' : LinkOptions) (u' : TrustStore) (epoch' : Z) (nonce' : bytes).
Context (sound : Sound o u epoch nonce) (sound' : Sound o' u' epoch' nonce') (tr : Trusting o u o' u').
Context (waiting : Waiting o (node_id o) nonce u l) (unseen : nonce' ∉ seen_nonces (peer_of l)).
Context (sg sg' w' : bytes).
Context (signed : sign o (auth_message (node_id o) nonce (node_id o') nonce') = Some sg) (sg_size : size sg = kSignatureBytes).
Context (response' : encode_frame (response_frame o' (t_epoch u') sg') = Some w') (sg'_size : size sg' = kSignatureBytes) (sg'_bytes : bytes_ok sg').
Context (valid' : verify o (neighbor_key u (node_id o')) (auth_message (node_id o') nonce' (node_id o) nonce) sg' = true).

Lemma half_handshake :
  ∃ l1 w l2,
    consume o client me random (hello_bytes o' epoch' nonce') l = (false, l1) ∧ encode_frame (response_frame o (t_epoch u) sg) = Some w ∧
    writes (conn_of l1) = writes (conn_of l) ++ [w] ∧
    consume o client me random w' l1 = (false, l2) ∧ is_ready l2 = true ∧ peer_id (peer_of l2) = node_id o' ∧ peer_epoch (peer_of l2) = t_epoch u'.
Proof.
  destruct sound, sound', tr. pose proof (challenge_size (node_id o') epoch' (t_epoch u') nonce' d_nonce1) as Hcs.
  destruct (answer_challenge o client me random d_limit0 nonce u l (node_id o') epoch' nonce' sg) as (l1 & w & H1 & H2 & H3 & H4 & H5 & H6 & H7 & H8 & H9); try done.
  destruct (accept_signature o client me random nonce u l1 (node_id o') epoch' nonce' (t_epoch u') sg') as (l2 & G1 & G2); try done.
  exists l1, w, l2. split; [| split; [done |]; split; [done |]; split; [| done]].
  - rewrite <-H1. set (f := mkFrame hello 0 _). assert (encode_frame f = Some (hello_bytes o' epoch' nonce')) as E.
    { unfold hello_bytes. fold f. unfold encode_frame. rewrite Z.gtb_ltb, (proj2 (Z.ltb_ge _ _)) by (cbn [f f_payload]; lia). done. }
    apply consume_frame; [done | done | | by apply frame_ok_zero | cbn [f f_payload]; lia | apply waiting | apply waiting].
    apply (encode_bytes f); [done |]. by apply challenge_bytes.
  - rewrite <-G1. apply consume_frame; [done | done | | by apply frame_ok_zero | | done | done].
    + apply (encode_bytes _ _ response'). cbn [response_frame f_payload]. unfold encode_auth_response, put32, put64. rewrite !bytes_ok_app. repeat split; auto with proto. by constructor.
    + cbn [f_payload]. rewrite response_size by done. done.
Qed.
End Half.

(** C27: honest nodes get together: two links that have sent their challenges, that
    have each other's node among their neighbours with the right keys and have not
    seen the other's nonce before, answer each other's challenge, and when each
    reads what the other has queued for it, both are ready, know each other's id
    and epoch. *)
Theorem handshake_completes oA cA meA randomA uA epochA nonceA lA oB cB meB randomB uB epochB nonceB lB :
  Sound oA uA epochA nonceA → Sound oB uB epochB nonceB → Trusting oA uA oB uB → Trusting oB uB oA uA →
  Waiting oA (node_id oA) nonceA uA lA → Waiting oB (node_id oB) nonceB uB lB →
  nonceB ∉ seen_nonces (peer_of lA) → nonceA ∉ seen_nonces (peer_of lB) →
  ∃ lA1 wA lA2 lB1 wB lB2,
    consume oA cA meA randomA (hello_bytes oB epochB nonceB) lA = (false, lA1) ∧ writes (conn_of lA1) = writes (conn_of lA) ++ [wA] ∧
    consume oB cB meB randomB (hello_bytes oA epochA nonceA) lB = (false, lB1) ∧ writes (conn_of lB1) = writes (conn_of lB) ++ [wB] ∧
    consume oA cA meA randomA wB lA1 = (false, lA2) ∧ is_ready lA2 = true ∧ peer_id (peer_of lA2) = node_id oB ∧ peer_epoch (peer_of lA2) = t_epoch uB ∧
    consume oB cB meB randomB wA lB1 = (false, lB2) ∧ is_ready lB2 = true ∧ peer_id (peer_of lB2) = node_id oA ∧ peer_epoch (peer_of lB2) = t_epoch uA.
Proof.
  intros SA SB TA TB WA WB NA NB.
  destruct (q_sign _ _ _ _ TB (auth_message (node_id oA) nonceA (node_id oB) nonceB)) as (sA & EA & LA & BA & VA).
  destruct (q_sign _ _ _ _ TA (auth_message (node_id oB) nonceB (node_id oA) nonceA)) as (sB & EB & LB & BB & VB).
  assert (∀ o u s o' u', Trusting o' u' o u → max_frame_bytes o' ≤ 2 ^ 32 - 1 → size s = kSignatureBytes → ∃ w, encode_frame (response_frame o (t_epoch u) s) = Some w) as Henc.
  { intros o u s o' u' HT Hm Hs. pose proof (q_fits _ _ _ _ HT) as Hf. rewrite <-(response_size (node_id o) (t_epoch u) s Hs) in Hf. eexists. unfold encode_frame.
    rewrite Z.gtb_ltb, (proj2 (Z.ltb_ge _ _)) by (cbn [response_frame f_payload]; lia). done. }
  destruct (Henc oA uA sA oB uB TB (d_limit _ _ _ _ SB) LA) as [wA FA]. destruct (Henc oB uB sB oA uA TA (d_limit _ _ _ _ SA) LB) as [wB FB].
  destruct (half_handshake oA cA meA randomA uA epochA nonceA lA oB uB epochB nonceB SA SB TA WA NA sA sB wB) as (lA1 & wA' & lA2 & A1 & A2 & A3 & A4 & A5 & A6 & A7); try done.
  destruct (half_handshake oB cB meB randomB uB epochB nonceB lB oA uA epochA nonceA SB SA TB WB NB sB sA wA) as (lB1 & wB' & lB2 & B1 & B2 & B3 & B4 & B5 & B6 & B7); try done.
  assert (wA' = wA) as -> by congruence. assert (wB' = wB) as -> by congruence. exists lA1, wA, lA2, lB1, wB, lB2. done.
Qed.

(** ** Updates of the trust set *)

Section Updates.
Context (o : LinkOptions) (client : bool) (me : nat) (random : Z → Z).

(** An update that a node with the store [u] has to follow. *)
Definition due (u : TrustStore) (s : Snapshot) (signature : bytes) : Prop :=
  snapshot_ok s ∧ size signature = kSignatureBytes ∧ verify o (controller_public_key u) (encode_epoch_update s) signature = true ∧
  t_epoch u < s_epoch s ∧ well_formed (s_neighbors s) = true.

Lemma complete_each_peer ids e : ∀ l, peer_of (complete_each ids e l) = peer_of l.
Proof. induction ids as [| i ids IH]; intros l; cbn; [done |]. rewrite IH. unfold complete. by destruct (find_pending _ _). Qed.

Lemma disconnect_trust e l : trust (peer_of (disconnect o client random e l)) = trust (peer_of l).
Proof.
  unfold disconnect. destruct (connected l); [| done]. unfold schedule_reconnect, emit_state, fail_pending. set (l1 := say OClosed _).
  assert (trust (peer_of (complete_each (pending (calls_of l1)).*1 e l1)) = trust (peer_of l)) as H by (by rewrite complete_each_peer).
  repeat case_goal; exact H.
Qed.

Lemma take_message s signature : size signature = kSignatureBytes → take (length (encode_epoch_update s ++ signature) - Z.to_nat kSignatureBytes) (encode_epoch_update s ++ signature) = encode_epoch_update s.
Proof. unfold size, kSignatureBytes. intros H. rewrite length_app. apply take_app_length'. lia. Qed.

Lemma apply_applied s l u :
  trust (peer_of l) = Some u → t_epoch u < s_epoch s → well_formed (s_neighbors s) = true →
  trust (peer_of (apply_to_store me s l).2) = Some (mkTrust (controller_public_key u) s (t_listeners u)).
Proof.
  intros Hu He Hw. unfold apply_to_store, apply_snapshot. rewrite Hu, (proj2 (Z.leb_gt _ _)), Hw by done. cbn [snd].
  set (l1 := set_peer_of _ l). by destruct (notify_listeners_tasks me s (t_listeners u) l1) as (_ & _ & _ & _ & ts & ->).
Qed.

Lemma apply_ignored s l u : trust (peer_of l) = Some u → ¬ (t_epoch u < s_epoch s ∧ well_formed (s_neighbors s) = true) → trust (peer_of (apply_to_store me s l).2) = Some u.
Proof.
  intros Hu Hn. unfold apply_to_store, apply_snapshot. rewrite Hu. destruct (s_epoch s <=? t_epoch u) eqn:E; [done |]. destruct (well_formed (s_neighbors s)) eqn:Ew; [| done].
  bool_prop. exfalso. by apply Hn.
Qed.

(** The trust set of a node changes by a received update exactly when the payload
    is an update with a newer epoch and well-formed neighbours, followed by the
    controller's signature over the encoding of that update; then it is that
    update. *)
Theorem update_applied_exactly payload l u :
  bytes_ok payload → trust (peer_of l) = Some u →
  let l' := (apply_epoch_config o client me random payload l).2 in
  (trust (peer_of l') ≠ Some u ↔ ∃ s signature, payload = encode_epoch_update s ++ signature ∧ due u s signature) ∧
  ∀ s signature, payload = encode_epoch_update s ++ signature → due u s signature → trust (peer_of l') = Some (mkTrust (controller_public_key u) s (t_listeners u)).
Proof.
  intros Hb Hu. cbv zeta.
  assert (∀ s signature, payload = encode_epoch_update s ++ signature → due u s signature →
    trust (peer_of (apply_epoch_config o client me random payload l).2) = Some (mkTrust (controller_public_key u) s (t_listeners u))) as Happ.
  { intros s sg Hp (H1 & H2 & H3 & H4 & H5). unfold apply_epoch_config. rewrite (proj2 (epoch_update_roundtrip payload s sg Hb)) by done. rewrite Hp, take_message by done.
    rewrite Hu, H3. by apply apply_applied. }
  split; [| done]. split.
  - intros Hne. unfold apply_epoch_config in Hne. destruct (decode_epoch_update payload) as [[s sg] |] eqn:Ed; [| cbn in Hne; by rewrite disconnect_trust in Hne].
    apply epoch_update_roundtrip in Ed as (Hp & Hs & Hsz); [| done]. rewrite Hu, Hp, take_message in Hne by done.
    destruct (verify o (controller_public_key u) (encode_epoch_update s) sg) eqn:Ev; [| done]. exists s, sg. split; [done |].
    destruct (decide (t_epoch u < s_epoch s ∧ well_formed (s_neighbors s) = true)) as [[H4 H5] | Hn]; [done |]. by rewrite (apply_ignored s (say _ l) u Hu Hn) in Hne.
  - intros (s & sg & Hp & Hd). rewrite (Happ s sg Hp Hd). intros [= E]. destruct Hd as (_ & _ & _ & Hlt & _). rewrite <-E in Hlt. unfold t_epoch in Hlt. cbn in Hlt. lia.
Qed.

(** ** Delays *)

(** Between two attempts to connect the link waits at least [reconnect_min] and at
    most [reconnect_max]; the product that doubles the delay stays within 64 bits. *)
Theorem reconnect_delay_bounds count raw :
  0 < reconnect_min o ≤ reconnect_max o → reconnect_min o < 2 ^ 43 → 0 ≤ count →
  reconnect_min o * 2 ^ Z.min count 20 < 2 ^ 63 ∧ reconnect_min o ≤ reconnect_delay o count raw ≤ reconnect_max o.
Proof.
  intros [H1 H2] H3 H4. assert (1 ≤ 2 ^ Z.min count 20 ≤ 2 ^ 20) as Hp.
  { split; [change 1 with (2 ^ 0); apply Z.pow_le_mono_r; lia | apply Z.pow_le_mono_r; lia]. }
  split; [nia |]. unfold reconnect_delay. set (b := reconnect_base o count).
  assert (reconnect_min o ≤ b) as Hb by (unfold b, reconnect_base; nia). pose proof (Z.mod_pos_bound raw (Z.max 1 (b / 4) + 1) ltac:(lia)). lia.
Qed.
End Updates.

(** ** Samples *)

Lemma sample_sound o epoch n :
  o = options_a ∨ o = options_b → 0 ≤ n < 256 → u64_ok epoch → Sound o sample_store epoch (repeat n 32).
Proof.
  intros Ho Hn He. assert (bytes_ok (repeat n 32)) as Hb by (apply List.Forall_forall; by intros x ->%repeat_spec).
  destruct Ho as [-> | ->]; (split; [reflexivity | by compute | by compute | by repeat constructor | done | by compute | reflexivity | done]).
Qed.

Lemma sample_signs c k m : 0 ≤ c < 256 → k = sample_key c →
  ∃ s, sample_sign c m = Some s ∧ size s = kSignatureBytes ∧ bytes_ok s ∧ sample_verify k m s = true.
Proof.
  intros Hc ->. eexists. split; [reflexivity |]. split; [unfold size; rewrite length_app, !repeat_length; done |]. split.
  - rewrite bytes_ok_app. split; apply List.Forall_forall; intros x ->%repeat_spec; [done | apply to_u8_range].
  - unfold sample_verify. by rewrite bool_decide_eq_true_2.
Qed.

Lemma sample_trusting o o' :
  (o = options_a ∧ o' = options_b) ∨ (o = options_b ∧ o' = options_a) → Trusting o sample_store o' sample_store.
Proof.
  intros [[-> ->] | [-> ->]]; (split; [split; [done |]; split; [done |]; auto | reflexivity | intros m | by compute]).
  - by apply sample_signs.
  - by apply sample_signs.
Qed.

Lemma handshake_completes_witness :
  ∃ lA1 wA lA2 lB1 wB lB2,
    consume options_a true 0 (λ _, 0) hello_of_b (run_a dial_a) = (false, lA1) ∧ writes (conn_of lA1) = writes (conn_of (run_a dial_a)) ++ [wA] ∧
    consume options_b false 1 (λ _, 0) hello_of_a (run_b accept_b) = (false, lB1) ∧ writes (conn_of lB1) = writes (conn_of (run_b accept_b)) ++ [wB] ∧
    consume options_a true 0 (λ _, 0) wB lA1 = (false, lA2) ∧ is_ready lA2 = true ∧ peer_id (peer_of lA2) = s! "b" ∧ peer_epoch (peer_of lA2) = 1 ∧
    consume options_b false 1 (λ _, 0) wA lB1 = (false, lB2) ∧ is_ready lB2 = true ∧ peer_id (peer_of lB2) = s! "a" ∧ peer_epoch (peer_of lB2) = 1.
Proof.
  assert (∃ ls, trust (peer_of (run_a dial_a)) = Some (mkTrust (sample_key 9) sample_snapshot ls)) as _ by (eexists; vm_compute; reflexivity).
  pose (uA := mkTrust (sample_key 9) sample_snapshot [0%nat]). pose (uB := mkTrust (sample_key 9) sample_snapshot [1%nat]).
  refine (handshake_completes options_a true 0 (λ _, 0) uA 1 (repeat 5 32) (run_a dial_a) options_b false 1 (λ _, 0) uB 1 (repeat 6 32) (run_b accept_b) _ _ _ _ _ _ _ _).
  - destruct (sample_sound options_a 1 5); [by left | done | by compute |]. by split.
  - destruct (sample_sound options_b 1 6); [by right | done | by compute |]. by split.
  - destruct (sample_trusting options_a options_b); [by left |]. by split.
  - destruct (sample_trusting options_b options_a); [by right |]. by split.
  - split; [vm_compute; discriminate | vm_compute; reflexivity | vm_compute; reflexivity | vm_compute; reflexivity | vm_compute; reflexivity | by apply Z.ltb_lt; vm_compute | by apply Z.leb_le; vm_compute].
  - split; [vm_compute; discriminate | vm_compute; reflexivity | vm_compute; reflexivity | vm_compute; reflexivity | vm_compute; reflexivity | by apply Z.ltb_lt; vm_compute | by apply Z.leb_le; vm_compute].
  - apply (bool_decide_unpack (repeat 6 32 ∉ seen_nonces (peer_of (run_a dial_a)))). vm_compute. exact I.
  - apply (bool_decide_unpack (repeat 5 32 ∉ seen_nonces (peer_of (run_b accept_b)))). vm_compute. exact I.
Defined.

(** ** Where the code and its comments part *)

(** [tick] says that an unfinished handshake must complete within one heartbeat
    timeout.  The timeout starts again with every read: a peer that sends a byte in
    time keeps the link, here for twenty timeouts. *)
Definition trickle (k : nat) : list LinkEvent :=
  [EOp 0 (RData [nth (k - 1) hello_of_a 0]) (sample_fresh (10000 * Z.of_nat k - 1000) 6); EOp 0 (RData []) (sample_fresh (10000 * Z.of_nat k) 6)].

Example slow_handshake_keeps_link :
  let l := run_b (accept_b ++ (seq 1 20 ≫= trickle)) in
  connected l = Some 0%nat ∧ is_ready l = false ∧ last_activity (conn_of l) = 199000 ∧ heartbeat_timeout options_b = 10000.
Proof. vm_compute. done. Qed.

(** A neighbour that is revoked while its link waits to dial again is dialled once
    more: [begin_connect] does not look at [peer_revoked_]. *)
Definition failing (now : Z) : Fresh := mkFresh now now (repeat 5 32) false.

Example revoked_peer_is_dialled :
  let l := run_a [ECall (CStart (s! "b.example") 7000); ETask 0 (failing 0); ETrust revoking; ETask 0 (sample_fresh 0 5)] in
  peer_revoked (peer_of l) = true ∧ connected l = None ∧
  connected (run_a [ECall (CStart (s! "b.example") 7000); ETask 0 (failing 0); ETrust revoking; ETask 0 (sample_fresh 0 5); EOp 0 (RData []) (sample_fresh 100 5)]) = Some 0%nat.
Proof. vm_compute. done. Qed.

(** And one that is trusted again is not: the flag is never taken back. *)
Definition restoring : Snapshot := mkSnapshot 3 (s_neighbors sample_snapshot) [].

Example restored_peer_stays_lost :
  let l := run_a (revoked_a ++ [ETask 0 (sample_fresh 0 5); ETrust restoring; ETask 0 (sample_fresh 0 5)]) in
  trusts_id l (s! "b") = true ∧ stopped l = false ∧ connected l = None ∧ tasks l = [] ∧ List.filter is_reconnect (ops l) = [].
Proof. vm_compute. done. Qed.

(** An update names no node: what the controller signed for B is followed by A when
    B passes it on, and A then has B's neighbours. *)
Definition for_b : Snapshot := mkSnapshot 2 [mkNeighbor (s! "c") (sample_key 3)] [].

Definition passed_on : bytes :=
  default [] (encode_frame (mkFrame epoch_config 0 (encode_epoch_update for_b ++ default [] (sample_sign 9 (encode_epoch_update for_b))))).

Example update_of_another_node :
  t_snapshot <$> trust (peer_of (run_a (shake_a ++ [read_a 1 passed_on]))) = Some for_b.
Proof. vm_compute. done. Qed.

(** The constructor compares the node id with the frame limit, but an authenticated
    link has to send 45 bytes more: these options are accepted and no connection
    ever survives [attach]. *)
Definition tight_options : LinkOptions :=
  mkLinkOptions (repeat 97 30) [] 60 4 4 30000 10000 100 10000 false (Some (sample_sign 1)) (Some sample_verify).

Example tight_options_never_connect :
  options_valid tight_options true = true ∧
  ∀ fr k l, connected (attach tight_options true (λ _, 0) fr k l) = None ∨ stopped l = true ∨ size (f_nonce fr) ≠ kNonceBytes.
Proof.
  split; [reflexivity |]. intros fr k l. destruct (stopped l) eqn:Es; [by right; left |]. destruct (decide (size (f_nonce fr) = kNonceBytes)) as [Hn |]; [left | by right; right].
  unfold attach. rewrite Es. change (authenticated tight_options) with true. cbn [ch_node_id ch_epoch ch_nonce]. unfold enqueue. cbn [f_payload].
  assert (size (encode_challenge (node_id tight_options) (trust_epoch l) (f_nonce fr)) >? max_frame_bytes tight_options - 10 = true) as ->.
  { rewrite Z.gtb_ltb. apply Z.ltb_lt. unfold size, kNonceBytes, encode_challenge, put64 in *. rewrite !length_app, length_be_put. cbn [length max_frame_bytes tight_options node_id repeat]. lia. }
  cbn [orb]. apply disconnect_none.
Qed.
