(* ===== verification/HttpSession.v ===== *)
(** * HTTP/1.1 sessions

    Models [include/framework/http/http_session.tpp], [http_session.h] and
    [http_fsm.h]/[http_fsm.tpp], with the parts of [session_base.tpp] they run
    on: buffered input, paused consumption, reads, writes and the close.
    [HttpParser] has the request parser, [FsmEngine] the table of the protocol.

    What is posted to the connection's executor is the list [posted], in order;
    operations under way are [reading], [writes], [jobs] (work on another thread)
    and [claims] (requests an API handler will complete later).  An event says
    which of them goes on; [Env] is the disk, the API handler and the download
    sources at that moment.  A callback is a value of [Cont].  Timers are the event
    [Watchdog], which may come at any time.  [log] is what happened, oldest first.

    [scan_all] is the reference: the verdicts on the requests of a byte stream
    that is given whole. *)

From S2P Require Import Prelude CString FsmEngine HttpParser.

(** ** The protocol *)

Inductive HttpState := WAIT_REQUEST_LINE | WAIT_HEADERS | WAIT_BODY | RESPOND | CLOSED.
Inductive HttpEvent := REQUEST_LINE | HEADER_LINE | HEADER_END | BODY | BODY_END | ERROR | TIMEOUT.

#[export] Instance HttpState_eq : EqDecision HttpState. Proof. solve_decision. Defined.
#[export] Instance HttpEvent_eq : EqDecision HttpEvent. Proof. solve_decision. Defined.

Definition make_http_desc : Desc HttpState HttpEvent :=
  mkDesc []
    [mkRow WAIT_REQUEST_LINE REQUEST_LINE (Some WAIT_HEADERS);
     mkRow WAIT_HEADERS HEADER_LINE (Some WAIT_HEADERS);
     mkRow WAIT_HEADERS HEADER_END (Some WAIT_BODY);
     mkRow WAIT_HEADERS HEADER_END (Some RESPOND);
     mkRow WAIT_BODY BODY (Some WAIT_BODY);
     mkRow WAIT_BODY BODY_END (Some RESPOND)]
    [] 0 [] [] [CLOSED] (λ _ _, []) (λ _ _, []).

Definition kMaxRequestBody : Z := 8 * 1024 * 1024.
Definition max_command_buffer_bytes : Z := 16 * 1024 * 1024.
Definition kSmallFileThreshold : Z := 64 * 1024.
Definition kChunk : Z := 64 * 1024.
Definition SIZE_MAX : Z := 2 ^ 64 - 1.

(** [HttpRequest] of [HttpParser] with the body that was received. *)
Record Request := mkRequest { r_head : HttpRequest; r_body : bytes }.

Definition no_request : Request := mkRequest empty_request [].

(** [serve]: whether the connection is closed after this request. *)
Definition must_close (r : Request) : bool :=
  negb (keep_alive (r_head r)) || bool_decide (rq_version (r_head r) = s! "HTTP/1.0").

Inductive BodyFrame := NONE | SIZE | CHUNKED.
#[export] Instance BodyFrame_eq : EqDecision BodyFrame. Proof. solve_decision. Defined.

(** The parsing side of the session.  [header_size_too_large_] is only ever
    reset and [body_armed_] never read; they are left out. *)
Record Parser := mkParser {
  state_ : HttpState;
  next_event_ : HttpEvent;
  request_ : Request;
  body_pending_ : bool;
  body_chunked_ : bool;
  body_content_length_ : Z;
  body_frame_ : BodyFrame;
  body_remaining_ : Z;
  chunk_reading_size_ : bool;
  chunk_remaining_ : Z;
  chunk_data_crlf_ : bool;
  chunk_trailers_ : bool;
}.

Definition initial_parser : Parser :=
  mkParser WAIT_REQUEST_LINE REQUEST_LINE no_request false false 0 NONE 0 true 0 false false.

Definition with_state (st : HttpState) (p : Parser) : Parser :=
  mkParser st (next_event_ p) (request_ p) (body_pending_ p) (body_chunked_ p) (body_content_length_ p)
    (body_frame_ p) (body_remaining_ p) (chunk_reading_size_ p) (chunk_remaining_ p) (chunk_data_crlf_ p)
    (chunk_trailers_ p).

Definition with_event (ev : HttpEvent) (p : Parser) : Parser :=
  mkParser (state_ p) ev (request_ p) (body_pending_ p) (body_chunked_ p) (body_content_length_ p)
    (body_frame_ p) (body_remaining_ p) (chunk_reading_size_ p) (chunk_remaining_ p) (chunk_data_crlf_ p)
    (chunk_trailers_ p).

Definition with_head (rq : HttpRequest) (p : Parser) : Parser :=
  mkParser (state_ p) (next_event_ p) (mkRequest rq (r_body (request_ p))) (body_pending_ p) (body_chunked_ p)
    (body_content_length_ p) (body_frame_ p) (body_remaining_ p) (chunk_reading_size_ p) (chunk_remaining_ p)
    (chunk_data_crlf_ p) (chunk_trailers_ p).

Definition with_framing (f : Framing) (p : Parser) : Parser :=
  mkParser (state_ p) (next_event_ p) (request_ p) (fr_has_body f) (fr_chunked f) (fr_length f)
    (body_frame_ p) (body_remaining_ p) (chunk_reading_size_ p) (chunk_remaining_ p) (chunk_data_crlf_ p)
    (chunk_trailers_ p).

(** The position inside a chunked body. *)
Definition with_chunk (reading : bool) (remaining : Z) (crlf trailers : bool) (p : Parser) : Parser :=
  mkParser (state_ p) (next_event_ p) (request_ p) (body_pending_ p) (body_chunked_ p) (body_content_length_ p)
    (body_frame_ p) (body_remaining_ p) reading remaining crlf trailers.

Definition append_body (blob : bytes) (remaining : Z) (p : Parser) : Parser :=
  mkParser (state_ p) (next_event_ p) (mkRequest (r_head (request_ p)) (r_body (request_ p) ++ blob))
    (body_pending_ p) (body_chunked_ p) (body_content_length_ p) (body_frame_ p) remaining
    (chunk_reading_size_ p) (chunk_remaining_ p) (chunk_data_crlf_ p) (chunk_trailers_ p).

Definition begin_body (p : Parser) : Parser :=
  if body_chunked_ p then
    mkParser (state_ p) (next_event_ p) (request_ p) (body_pending_ p) (body_chunked_ p) (body_content_length_ p)
      CHUNKED (body_remaining_ p) true 0 false false
  else
    mkParser (state_ p) (next_event_ p) (request_ p) (body_pending_ p) (body_chunked_ p) (body_content_length_ p)
      SIZE (body_content_length_ p) (chunk_reading_size_ p) (chunk_remaining_ p) (chunk_data_crlf_ p)
      (chunk_trailers_ p).

(** The reset of [finish_response] for the next request on the connection. *)
Definition next_request (p : Parser) : Parser :=
  mkParser WAIT_REQUEST_LINE REQUEST_LINE no_request false (body_chunked_ p) (body_content_length_ p)
    NONE 0 true 0 false false.

(** ** Taking units off the buffer *)

Definition size (s : bytes) : Z := Z.of_nat (length s).

Definition take_n (n : Z) (s : bytes) : bytes := take (Z.to_nat (Z.min (size s) n)) s.
Definition drop_n (n : Z) (s : bytes) : bytes := drop (Z.to_nat (Z.min (size s) n)) s.

Definition strip_cr (s : bytes) : bytes :=
  match list.last s with Some c => if c =? CR then take (length s - 1) s else s | None => s end.

Definition take_line (buf : bytes) : bytes * bytes :=
  match find_char LF buf with
  | None => ([], buf)
  | Some nl => (strip_cr (take nl buf), drop (nl + 1) buf)
  end.

Definition has_line (buf : bytes) : bool :=
  match find_char LF buf with Some _ => true | None => false end.

Definition body_has_buffered_input (p : Parser) (buf : bytes) : bool :=
  match body_frame_ p with
  | NONE => false
  | SIZE => (0 <? body_remaining_ p) && (0 <? size buf)
  | CHUNKED =>
      if chunk_reading_size_ p || chunk_trailers_ p then has_line buf else
      if chunk_data_crlf_ p then 2 <=? size buf
      else chunk_remaining_ p <=? size buf
  end.

Definition body_extract (p : Parser) (buf : bytes) : bytes * bytes :=
  match body_frame_ p with
  | NONE => ([], buf)
  | SIZE => (take_n (body_remaining_ p) buf, drop_n (body_remaining_ p) buf)
  | CHUNKED =>
      if chunk_reading_size_ p || chunk_trailers_ p then take_line buf else
      if chunk_data_crlf_ p then
        if size buf <? 2 then ([], buf) else (take 2 buf, drop 2 buf)
      else (take_n (chunk_remaining_ p) buf, drop_n (chunk_remaining_ p) buf)
  end.

Definition parser_has_input (p : Parser) (buf : bytes) : bool :=
  match state_ p with
  | WAIT_REQUEST_LINE | WAIT_HEADERS => has_line buf
  | WAIT_BODY => body_has_buffered_input p buf
  | RESPOND | CLOSED => false
  end.

(** [extract_one_line] *)
Definition extract (p : Parser) (buf : bytes) : bytes * bytes :=
  match state_ p with
  | WAIT_REQUEST_LINE | WAIT_HEADERS => take_line buf
  | WAIT_BODY => body_extract p buf
  | _ => ([], buf)
  end.

(** ** Bodies *)

Fixpoint chunk_size_loop (s : bytes) (n : Z) (any : bool) : option Z :=
  match s with
  | [] => if any then Some n else None
  | c :: s' =>
      let v := hexval c in
      if v <? 0 then (if any && (c =? 59) then Some n else None) else
      if n >? (SIZE_MAX - v) / 16 then None else chunk_size_loop s' (n * 16 + v) true
  end.

(** [None] is the result [SIZE_MAX], which the size line [ffffffffffffffff]
    itself also gives. *)
Definition http_chunk_size_parse (line : bytes) : option Z :=
  n ← chunk_size_loop line 0 false; if n =? SIZE_MAX then None else Some n.

Inductive Fed := More | Malformed | Complete.

Definition feed_body (blob : bytes) (p : Parser) : Fed * Parser :=
  if bool_decide (body_frame_ p = SIZE) then
    if size (r_body (request_ p)) + size blob >? kMaxRequestBody then (Malformed, p) else
    let remaining := if body_remaining_ p >? size blob then body_remaining_ p - size blob else 0 in
    (if remaining =? 0 then Complete else More, append_body blob remaining p)
  else if chunk_trailers_ p then
    (match blob with [] => Complete | _ => More end, p)
  else if chunk_reading_size_ p then
    match http_chunk_size_parse blob with
    | None => (Malformed, p)
    | Some sz =>
        if sz =? 0 then (More, with_chunk false (chunk_remaining_ p) (chunk_data_crlf_ p) true p)
        else (More, with_chunk false sz (chunk_data_crlf_ p) (chunk_trailers_ p) p)
    end
  else if chunk_data_crlf_ p then
    (More, with_chunk true (chunk_remaining_ p) false (chunk_trailers_ p) p)
  else if size (r_body (request_ p)) + size blob >? kMaxRequestBody then (Malformed, p) else
    let remaining := if chunk_remaining_ p >? size blob then chunk_remaining_ p - size blob else 0 in
    (More, with_chunk false remaining (remaining =? 0) (chunk_trailers_ p)
             (append_body blob (body_remaining_ p) p)).

(** [handle_read]: one unit of input sets the event to dispatch. *)
Definition handle_read (data : bytes) (p : Parser) : Parser :=
  match state_ p with
  | WAIT_REQUEST_LINE =>
      match parse_request_line data (r_head (request_ p)) with
      | Some rq => with_event REQUEST_LINE (with_head rq p)
      | None => with_event ERROR p
      end
  | WAIT_HEADERS =>
      match data with
      | [] =>
          match determine_body_framing (r_head (request_ p)) with
          | Some f => with_event HEADER_END (with_framing f p)
          | None => with_event ERROR p
          end
      | _ =>
          match parse_header_line data (r_head (request_ p)) with
          | Some rq => with_event HEADER_LINE (with_head rq p)
          | None => with_event ERROR p
          end
      end
  | WAIT_BODY =>
      match feed_body data p with
      | (Complete, p) => with_event BODY_END p
      | (Malformed, p) => with_event ERROR p
      | (More, p) => with_event BODY p
      end
  | _ => with_event ERROR p
  end.

(** ** Sessions *)

(** The callback of a write. *)
Inductive Cont :=
  | KRead                                           (* none given: read on *)
  | KFinish (close : bool)
  | KStream (path : bytes) (pos remaining : Z) (close : bool)
  | KSendfile (path : bytes) (length : Z) (close : bool)
  | KDownload (source : nat) (offset : Z) (close : bool).

(** A function posted to the executor. *)
Inductive Task :=
  | TStartRead
  | TWrite (payload : bytes) (k : Cont)
  | TFlush (payload : bytes)                        (* the last write of [close] *)
  | TCloseConnection
  | TFinish (keep_alive : bool).

(** Work on another thread. *)
Inductive Job :=
  | JSendfile (path : bytes) (length : Z) (keep_alive : bool)
  | JDownload (source : nat) (offset : Z) (close : bool).

Inductive Obs :=
  | Received (data : bytes)
  | Served (r : Request)
  | Rejected (status : Z)
  | Sent (data : bytes)
  | Finished                                        (* the response is out, the next request may come *)
  | Closed
  | Unreached.                                      (* a callback that no run calls this way *)

Record HttpSession := mkSession {
  parser : Parser;
  command_read_buffer_ : bytes;
  paused_ : bool;
  closed_ : bool;
  close_requested_ : bool;
  is_open : bool;
  pending_write_buf_ : bytes;
  posted : list Task;
  reading : bool;                                   (* [read_in_progress_] *)
  writes : list (option Cont);                      (* [None] is the flush of [close] *)
  jobs : list Job;
  claims : list bool;
  log : list Obs;
}.

Definition set_parser (p : Parser) (s : HttpSession) : HttpSession :=
  mkSession p (command_read_buffer_ s) (paused_ s) (closed_ s) (close_requested_ s) (is_open s)
    (pending_write_buf_ s) (posted s) (reading s) (writes s) (jobs s) (claims s) (log s).
Definition set_buffer (b : bytes) (s : HttpSession) : HttpSession :=
  mkSession (parser s) b (paused_ s) (closed_ s) (close_requested_ s) (is_open s)
    (pending_write_buf_ s) (posted s) (reading s) (writes s) (jobs s) (claims s) (log s).
Definition set_paused (b : bool) (s : HttpSession) : HttpSession :=
  mkSession (parser s) (command_read_buffer_ s) b (closed_ s) (close_requested_ s) (is_open s)
    (pending_write_buf_ s) (posted s) (reading s) (writes s) (jobs s) (claims s) (log s).
Definition request_close (s : HttpSession) : HttpSession :=
  mkSession (parser s) (command_read_buffer_ s) (paused_ s) (closed_ s) true (is_open s)
    (pending_write_buf_ s) (posted s) (reading s) (writes s) (jobs s) (claims s) (log s).
Definition set_pending (b : bytes) (s : HttpSession) : HttpSession :=
  mkSession (parser s) (command_read_buffer_ s) (paused_ s) (closed_ s) (close_requested_ s) (is_open s)
    b (posted s) (reading s) (writes s) (jobs s) (claims s) (log s).
Definition set_posted (l : list Task) (s : HttpSession) : HttpSession :=
  mkSession (parser s) (command_read_buffer_ s) (paused_ s) (closed_ s) (close_requested_ s) (is_open s)
    (pending_write_buf_ s) l (reading s) (writes s) (jobs s) (claims s) (log s).
Definition set_reading (b : bool) (s : HttpSession) : HttpSession :=
  mkSession (parser s) (command_read_buffer_ s) (paused_ s) (closed_ s) (close_requested_ s) (is_open s)
    (pending_write_buf_ s) (posted s) b (writes s) (jobs s) (claims s) (log s).
Definition set_writes (l : list (option Cont)) (s : HttpSession) : HttpSession :=
  mkSession (parser s) (command_read_buffer_ s) (paused_ s) (closed_ s) (close_requested_ s) (is_open s)
    (pending_write_buf_ s) (posted s) (reading s) l (jobs s) (claims s) (log s).
Definition set_jobs (l : list Job) (s : HttpSession) : HttpSession :=
  mkSession (parser s) (command_read_buffer_ s) (paused_ s) (closed_ s) (close_requested_ s) (is_open s)
    (pending_write_buf_ s) (posted s) (reading s) (writes s) l (claims s) (log s).
Definition set_claims (l : list bool) (s : HttpSession) : HttpSession :=
  mkSession (parser s) (command_read_buffer_ s) (paused_ s) (closed_ s) (close_requested_ s) (is_open s)
    (pending_write_buf_ s) (posted s) (reading s) (writes s) (jobs s) l (log s).
Definition note (o : Obs) (s : HttpSession) : HttpSession :=
  mkSession (parser s) (command_read_buffer_ s) (paused_ s) (closed_ s) (close_requested_ s) (is_open s)
    (pending_write_buf_ s) (posted s) (reading s) (writes s) (jobs s) (claims s) (log s ++ [o]).
(** [closed_.exchange(true)] and [connection_->close()] *)
Definition mark_closed (s : HttpSession) : HttpSession :=
  mkSession (parser s) (command_read_buffer_ s) (paused_ s) true (close_requested_ s) (is_open s)
    (pending_write_buf_ s) (posted s) (reading s) (writes s) (jobs s) (claims s) (log s).
Definition disconnect (s : HttpSession) : HttpSession :=
  mkSession (parser s) (command_read_buffer_ s) (paused_ s) (closed_ s) (close_requested_ s) false
    (pending_write_buf_ s) (posted s) (reading s) (writes s) (jobs s) (claims s) (log s).

Definition set_state (st : HttpState) (s : HttpSession) : HttpSession :=
  set_parser (with_state st (parser s)) s.
Definition post (t : Task) (s : HttpSession) : HttpSession := set_posted (posted s ++ [t]) s.

Definition current_state (s : HttpSession) : HttpState := state_ (parser s).
Definition has_buffered_input (s : HttpSession) : bool :=
  parser_has_input (parser s) (command_read_buffer_ s).

(** [start], after the handshake. *)
Definition start : HttpSession :=
  mkSession initial_parser [] false false false true [] [TStartRead] false [] [] [] [].

(** ** The base of a session *)

Definition close (s : HttpSession) : HttpSession :=
  if closed_ s then s else
  let s := note Closed (mark_closed s) in
  let s := match pending_write_buf_ s with
           | [] => s
           | payload => if is_open s then post (TFlush payload) (set_pending [] s) else s
           end in
  if is_open s then post TCloseConnection s else s.

Definition do_async_read (s : HttpSession) : HttpSession :=
  if closed_ s then s else if has_buffered_input s then s else post TStartRead s.

(** ** What the surroundings answer *)

Record ApiResponse := mkApi {
  ar_status : Z;
  ar_status_text : bytes;
  ar_content_type : bytes;
  ar_extra_headers : bytes;
  ar_body : bytes;
  ar_content_length : Z;
  ar_body_source : option nat;
}.

(** What the API handler does with a request. *)
Inductive Claim := Unclaimed | Later | Now (r : ApiResponse).

Record Env := mkEnv {
  env_fs : FileSystem;
  env_api : option (Request → Claim);
  env_source_size : nat → Z;
  env_read_at : nat → Z → Z → option bytes;         (* source, offset, capacity *)
}.

(** Of the process: the document root, whether there is a pool of workers, and
    whether files go out by [sendfile] (Linux, no TLS, a native handle). *)
Record Config := mkConfig { doc_root_ : bytes; has_workers : bool; native_tcp : bool }.

Definition reason_phrase (code : Z) : bytes :=
  if code =? 200 then s! "OK" else if code =? 204 then s! "No Content" else
  if code =? 301 then s! "Moved Permanently" else if code =? 400 then s! "Bad Request" else
  if code =? 403 then s! "Forbidden" else if code =? 404 then s! "Not Found" else
  if code =? 405 then s! "Method Not Allowed" else if code =? 414 then s! "URI Too Long" else
  if code =? 431 then s! "Request Header Fields Too Large" else if code =? 501 then s! "Not Implemented"
  else s! "Internal Server Error".

(** [std::to_string] of a signed number. *)
Definition signed_to_string (n : Z) : bytes :=
  if n <? 0 then [45] ++ to_string (- n) else to_string n.

Definition connection_header (close : bool) : bytes :=
  if close then s! "Connection: close" ++ CRLF else s! "Connection: keep-alive" ++ CRLF.

Definition build_header (status : Z) (status_text content_type : bytes) (content_length : Z) (close : bool)
  : bytes :=
  s! "HTTP/1.1 " ++ signed_to_string status ++ s! " " ++ status_text ++ CRLF ++
  s! "Content-Type: " ++ content_type ++ CRLF ++
  s! "Content-Length: " ++ signed_to_string content_length ++ CRLF ++
  connection_header close ++ CRLF.

Definition response_header (r : ApiResponse) (close : bool) : bytes :=
  s! "HTTP/1.1 " ++ signed_to_string (ar_status r) ++ s! " " ++
  (match ar_status_text r with [] => reason_phrase (ar_status r) | text => text end) ++ CRLF ++
  s! "Content-Type: " ++ ar_content_type r ++ CRLF ++ ar_extra_headers r ++
  s! "Content-Length: " ++
  signed_to_string (if 0 <=? ar_content_length r then ar_content_length r else size (ar_body r)) ++ CRLF ++
  connection_header close ++ CRLF.

(** One call of [sendfile] with [kChunk = 128 * 1024]: the bytes it moved, that
    the socket is full, or that it failed or met the end of the file. *)
Inductive Sendfile := Moved (n : Z) | Again | Broken.

(** The loop of [http_sendfile_worker] from offset [off]: what reaches the socket.
    [remaining] is unsigned and may wrap. *)
Fixpoint http_sendfile_worker (content : bytes) (calls : list Sendfile) (off remaining : Z) : bytes :=
  if remaining =? 0 then [] else
  match calls with
  | [] => []
  | Broken :: _ => []
  | Again :: calls => http_sendfile_worker content calls off remaining
  | Moved n :: calls =>
      let data := take (Z.to_nat (Z.min n (128 * 1024))) (drop (Z.to_nat off) content) in
      match data with
      | [] => []
      | _ => data ++ http_sendfile_worker content calls (off + size data) (to_u64 (remaining - size data))
      end
  end.

(** ** Responses

    [drain] is [drain_buffered_commands], tied at the end by [consume]. *)

Section Responses.
Context (cfg : Config) (drain : HttpSession → HttpSession) (env : Env).

Definition finish_response (keep_alive : bool) (s : HttpSession) : HttpSession :=
  if close_requested_ s then close s else
  if negb (is_open s) then close (set_state CLOSED s) else
  if negb keep_alive then close (set_state CLOSED s) else
  let s := drain (note Finished (set_parser (next_request (parser s)) s)) in
  if negb (has_buffered_input s) && negb (paused_ s) && negb (closed_ s) then do_async_read s else s.

(** With input left the text is kept back and the callback runs at once. *)
Definition do_async_write (data : bytes) (k : Cont) (s : HttpSession) : HttpSession :=
  if closed_ s then s else
  if has_buffered_input s then
    let s := set_pending (pending_write_buf_ s ++ data) s in
    match k with
    | KFinish close => finish_response (negb close) s
    | KRead => s
    | _ => note Unreached s
    end
  else post (TWrite (pending_write_buf_ s ++ data) k) (set_pending [] s).

Definition send_simple (status : Z) (body : bytes) (close : bool) (s : HttpSession) : HttpSession :=
  do_async_write
    (build_header status (reason_phrase status) (s! "text/html; charset=utf-8") (size body) close ++ body)
    (KFinish close) s.

Definition send_error_and_close (status : Z) (s : HttpSession) : HttpSession :=
  send_simple status
    (s! "<h1>" ++ reason_phrase status ++ s! "</h1><p>Bad or malicious request.</p>") true
    (note (Rejected status) s).

(** The open file is read through its path, at the moment of the read. *)
Definition stream_file_body (path : bytes) (pos remaining : Z) (close : bool) (s : HttpSession)
  : HttpSession :=
  if remaining <=? 0 then finish_response (negb close) s else
  let content := default [] (fs_read (env_fs env) path) in
  let got := take (Z.to_nat (Z.min kChunk remaining)) (drop (Z.to_nat pos) content) in
  match got with
  | [] => finish_response (negb close) s
  | _ => do_async_write got (KStream path (pos + size got) (remaining - size got) close) s
  end.

Definition serve_file_sendfile (path : bytes) (length : Z) (close head_only : bool) (s : HttpSession)
  : HttpSession :=
  let head := build_header 200 (s! "OK") (mime_for_extension (extension path)) length close in
  if head_only || (length =? 0) then do_async_write head (KFinish close) s
  else do_async_write head (KSendfile path length close) s.

Definition send_file (path content_type : bytes) (length : Z) (close head_only : bool) (s : HttpSession)
  : HttpSession :=
  let head := build_header 200 (s! "OK") content_type length close in
  if (0 <? length) && (length <=? kSmallFileThreshold) && negb head_only then
    match fs_read (env_fs env) path with
    | None => send_simple 404 (s! "Not Found") close s
    | Some content => do_async_write (head ++ content) (KFinish close) s
    end
  else if native_tcp cfg && has_workers cfg then serve_file_sendfile path length close head_only s
  else if head_only || (length =? 0) then do_async_write head (KFinish close) s
  else match fs_read (env_fs env) path with
       | None => send_simple 404 (s! "Not Found") close s
       | Some _ => do_async_write head (KStream path 0 length close) s
       end.

(** The function a download runs on a worker, or at once without workers. *)
Definition download_task (source : nat) (offset : Z) (close_ : bool) (s : HttpSession) : HttpSession :=
  let capacity := Z.min (64 * 1024) (env_source_size env source - offset) in
  match env_read_at env source offset capacity with
  | None | Some [] => close s
  | Some chunk =>
      if size chunk >? capacity then close s
      else do_async_write chunk (KDownload source (offset + size chunk) close_) s
  end.

Definition stream_download (source : nat) (offset : Z) (close_ : bool) (s : HttpSession) : HttpSession :=
  if offset >=? env_source_size env source then finish_response (negb close_) s else
  if has_workers cfg then set_jobs (jobs s ++ [JDownload source offset close_]) s
  else download_task source offset close_ s.

Definition send_response (r : ApiResponse) (close : bool) (s : HttpSession) : HttpSession :=
  let head := response_header r close in
  if bool_decide (rq_method (r_head (request_ (parser s))) = s! "HEAD")
  then do_async_write head (KFinish close) s else
  match ar_body_source r with
  | Some source => do_async_write head (KDownload source 0 close) s
  | None => do_async_write (head ++ ar_body r) (KFinish close) s
  end.

Definition serve_static (close : bool) (s : HttpSession) : HttpSession :=
  let req := request_ (parser s) in
  let head_only := bool_decide (rq_method (r_head req) = s! "HEAD") in
  let r := process_static_request (env_fs env) (r_head req) (doc_root_ cfg) in
  if negb (rs_status r =? 200) then send_simple (rs_status r) (rs_body r) close s
  else send_file (rs_full_path r) (rs_content_type r) (rs_content_length r) close head_only s.

Definition serve (s : HttpSession) : HttpSession :=
  let req := request_ (parser s) in
  let close := must_close req in
  let s := note (Served req) s in
  match env_api env with
  | None => serve_static close s
  | Some handler =>
      let s := set_paused true s in
      match handler req with
      | Unclaimed => serve_static close (set_paused false s)
      | Later => set_claims (claims s ++ [close]) s
      | Now r => send_response r close s
      end
  end.

(** The callback of a finished write. *)
Definition run_cont (k : Cont) (s : HttpSession) : HttpSession :=
  match k with
  | KRead => do_async_read s
  | KFinish close => finish_response (negb close) s
  | KStream path pos remaining close => stream_file_body path pos remaining close s
  | KSendfile path length close =>
      match fs_read (env_fs env) path with
      | None => send_simple 404 (s! "Not Found") close s
      | Some _ => set_jobs (jobs s ++ [JSendfile path length (negb close)]) s
      end
  | KDownload source offset close => stream_download source offset close s
  end.

(** ** Dispatch *)

(** [Engine::apply] and [Engine::apply_closing] without a reply. *)
Definition apply (target : HttpState) (s : HttpSession) : HttpSession :=
  if closed_ s then s else
  let s := drain (set_paused false (set_state target s)) in
  if paused_ s then s else do_async_read s.

Definition apply_closing (target : HttpState) (s : HttpSession) : HttpSession :=
  if closed_ s then s else set_paused false (set_state target s).

Definition handle_header_end (s : HttpSession) : HttpSession :=
  if body_pending_ (parser s) then apply WAIT_BODY (set_parser (begin_body (parser s)) s)
  else serve (apply_closing RESPOND s).

(** [Engine::dispatch]: the table first, then the handler; both rejections end
    in the violation observer, and the texts of the engine itself are empty. *)
Definition process_read (s : HttpSession) : HttpSession :=
  let ev := next_event_ (parser s) in
  if closed_ s then s else
  if is_terminal make_http_desc (current_state s) then close s else
  match guard_target make_http_desc (current_state s) ev with
  | None => send_error_and_close 400 s
  | Some _ =>
      match current_state s, ev with
      | WAIT_REQUEST_LINE, REQUEST_LINE => apply WAIT_HEADERS s
      | WAIT_HEADERS, HEADER_LINE => apply WAIT_HEADERS s
      | WAIT_HEADERS, HEADER_END => handle_header_end s
      | WAIT_BODY, BODY => apply WAIT_BODY s
      | WAIT_BODY, BODY_END => serve (apply_closing RESPOND s)
      | _, _ => send_error_and_close 400 s
      end
  end.
End Responses.

(** ** The loops *)

(** [drain_buffered_commands] around the loop [consume]. *)
Definition drain_with (consume : HttpSession → HttpSession) (s : HttpSession) : HttpSession :=
  let s := consume (set_paused false s) in
  if negb (paused_ s) && negb (closed_ s) && negb (has_buffered_input s) &&
     bool_decide (pending_write_buf_ s ≠ [])
  then post (TWrite (pending_write_buf_ s) KRead) (set_pending [] s) else s.

(** The loop over the buffered units; each takes at least one byte. *)
Fixpoint consume (cfg : Config) (env : Env) (fuel : nat) (s : HttpSession) : HttpSession :=
  match fuel with
  | O => s
  | S fuel =>
      if has_buffered_input s && negb (paused_ s) then
        let '(data, rest) := extract (parser s) (command_read_buffer_ s) in
        let s := set_buffer rest s in
        let s := set_parser (handle_read data (parser s)) s in
        consume cfg env fuel (process_read cfg (drain_with (consume cfg env fuel)) env s)
      else s
  end.

Definition loop (cfg : Config) (env : Env) (s : HttpSession) : HttpSession :=
  consume cfg env (S (length (command_read_buffer_ s))) s.

Definition drain (cfg : Config) (env : Env) (s : HttpSession) : HttpSession := drain_with (loop cfg env) s.

Definition auto_continue_read (s : HttpSession) : bool :=
  negb (bool_decide (next_event_ (parser s) = ERROR)) &&
  match current_state s with
  | WAIT_REQUEST_LINE | WAIT_HEADERS | WAIT_BODY => true
  | _ => false
  end.

(** ** Events *)

Inductive Event :=
  | RunTask                                         (* the executor runs what was posted first *)
  | ReadFailed
  | ReadDone (data : bytes)
  | WriteDone (i : nat) (ok : bool)
  | JobDone (i : nat) (calls : list Sendfile)
  | ApiDone (i : nat) (r : ApiResponse)
  | Watchdog.

Section Events.
Context (cfg : Config) (env : Env).

Definition run_task (t : Task) (s : HttpSession) : HttpSession :=
  match t with
  | TStartRead =>
      if closed_ s || has_buffered_input s || reading s then s else set_reading true s
  | TWrite payload k =>
      if closed_ s then s else note (Sent payload) (set_writes (writes s ++ [Some k]) s)
  | TFlush payload =>
      if is_open s then note (Sent payload) (set_writes (writes s ++ [None]) s) else s
  | TCloseConnection => disconnect s
  | TFinish keep_alive => finish_response (drain cfg env) keep_alive s
  end.

Definition read_done (data : bytes) (s : HttpSession) : HttpSession :=
  match data with
  | [] => do_async_read s
  | _ =>
      let s := note (Received data) (set_buffer (command_read_buffer_ s ++ data) s) in
      if size (command_read_buffer_ s) >? max_command_buffer_bytes then close s else
      let dispatched := has_buffered_input s && negb (paused_ s) in
      let s := loop cfg env s in
      if (negb dispatched || auto_continue_read s) && negb (paused_ s) && negb (closed_ s)
      then do_async_read s else s
  end.

Definition step (ev : Event) (s : HttpSession) : HttpSession :=
  match ev with
  | RunTask =>
      match posted s with [] => s | t :: rest => run_task t (set_posted rest s) end
  | ReadFailed =>
      if negb (reading s) then s else
      let s := set_reading false s in if closed_ s then s else close s
  | ReadDone data =>
      if negb (reading s) then s else
      let s := set_reading false s in
      if closed_ s then s else if close_requested_ s then close s else read_done data s
  | WriteDone i ok =>
      match writes s !! i with
      | None => s
      | Some k =>
          let s := set_writes (delete i (writes s)) s in
          match k with
          | None => s
          | Some k =>
              if closed_ s then s else if ok then run_cont cfg (drain cfg env) env k s else close s
          end
      end
  | JobDone i calls =>
      match jobs s !! i with
      | None => s
      | Some j =>
          let s := set_jobs (delete i (jobs s)) s in
          match j with
          | JSendfile path length keep_alive =>
              post (TFinish keep_alive)
                (note (Sent (http_sendfile_worker (default [] (fs_read (env_fs env) path)) calls 0
                               (to_u64 length))) s)
          | JDownload source offset close => download_task (drain cfg env) env source offset close s
          end
      end
  | ApiDone i r =>
      match claims s !! i with
      | None => s
      | Some close => send_response (drain cfg env) r close (set_claims (delete i (claims s)) s)
      end
  | Watchdog => if closed_ s then s else request_close s
  end.
End Events.

Definition run (cfg : Config) (evs : list (Env * Event)) (s : HttpSession) : HttpSession :=
  foldl (λ s e, step cfg e.1 e.2 s) s evs.

(** ** The reference: verdicts on a whole byte stream *)

Inductive Verdict := Serve (r : Request) | Reject.

(** What comes next in the stream: a request line, a header line, [n] bytes of a
    body, the size line, the data, the line end or the trailers of a chunk. *)
Inductive Mode :=
  | MLine
  | MHeader (rq : HttpRequest)
  | MSized (r : Request) (n : Z)
  | MChunkSize (r : Request)
  | MChunkData (r : Request) (n : Z)
  | MChunkEnd (r : Request)
  | MTrailer (r : Request).

Definition line_of (bs : bytes) : option (bytes * bytes) :=
  if has_line bs then Some (take_line bs) else None.

(** One element of the stream: verdicts, the next mode unless the connection
    ends, and the bytes after it; [None] when it is not complete. *)
Abbreviation Element := (option (list Verdict * option Mode * bytes)).

Definition request_done (r : Request) (rest : bytes) : Element :=
  Some ([Serve r], if must_close r then None else Some MLine, rest).
Definition refuse (rest : bytes) : Element := Some ([Reject], None, rest).
Definition go (m : Mode) (rest : bytes) : Element := Some ([], Some m, rest).

Definition add_body (r : Request) (data : bytes) : Request := mkRequest (r_head r) (r_body r ++ data).

Definition after_head (rq : HttpRequest) (rest : bytes) : Element :=
  match determine_body_framing rq with
  | None => refuse rest
  | Some f =>
      if fr_has_body f then
        if fr_chunked f then go (MChunkSize (mkRequest rq [])) rest
        else go (MSized (mkRequest rq []) (fr_length f)) rest
      else request_done (mkRequest rq []) rest
  end.

Definition element (m : Mode) (bs : bytes) : Element :=
  match m with
  | MLine =>
      '(l, rest) ← line_of bs;
      match parse_request_line l empty_request with
      | Some rq => go (MHeader rq) rest
      | None => refuse rest
      end
  | MHeader rq =>
      '(l, rest) ← line_of bs;
      match l with
      | [] => after_head rq rest
      | _ => match parse_header_line l rq with
             | Some rq => go (MHeader rq) rest
             | None => refuse rest
             end
      end
  | MSized r n =>
      if size (r_body r) + Z.min (size bs) n >? kMaxRequestBody then refuse []
      else if (0 <? n) && (n <=? size bs) then request_done (add_body r (take_n n bs)) (drop_n n bs) else None
  | MChunkSize r =>
      '(l, rest) ← line_of bs;
      match http_chunk_size_parse l with
      | None => refuse rest
      | Some n => if n =? 0 then go (MTrailer r) rest else go (MChunkData r n) rest
      end
  | MChunkData r n =>
      if (0 <? n) && (n <=? size bs) then
        if size (r_body r) + n >? kMaxRequestBody then refuse []
        else go (MChunkEnd (add_body r (take_n n bs))) (drop_n n bs)
      else None
  | MChunkEnd r => if 2 <=? size bs then go (MChunkSize r) (drop 2 bs) else None
  | MTrailer r =>
      '(l, rest) ← line_of bs;
      match l with [] => request_done r rest | _ => go (MTrailer r) rest end
  end.

Fixpoint scan (fuel : nat) (m : Mode) (bs : bytes) : list Verdict :=
  match fuel with
  | O => []
  | S fuel =>
      match element m bs with
      | None => []
      | Some (out, next, rest) =>
          out ++ match next with Some m => scan fuel m rest | None => [] end
      end
  end.

(** Every element that goes on takes at least one byte. *)
Definition scan_all (m : Mode) (bs : bytes) : list Verdict := scan (S (length bs)) m bs.

(** What a session has decided, and the bytes it has been given. *)
Definition verdicts (l : list Obs) : list Verdict :=
  omap (λ o, match o with Served r => Some (Serve r) | Rejected _ => Some Reject | _ => None end) l.
Definition received (l : list Obs) : bytes :=
  concat (omap (λ o, match o with Received d => Some d | _ => None end) l).
Definition sent (l : list Obs) : list bytes :=
  omap (λ o, match o with Sent d => Some d | _ => None end) l.

(** ** A sample site, for examples *)

Definition sample_fs (announced : Z) (content : bytes) : FileSystem :=
  mkFS (λ p, bool_decide (p = s! "/www/"))
       (λ p, if bool_decide (p = s! "/www/index.html") then Some announced else None)
       (λ p, if bool_decide (p = s! "/www/index.html") then Some content else None).
Definition sample_env (announced : Z) (content : bytes) : Env :=
  mkEnv (sample_fs announced content) None (λ _, 0) (λ _ _ _, None).
Definition sample_config : Config := mkConfig (s! "/www") false false.

Definition line (text : bytes) : bytes := text ++ CRLF.
Definition sample_get : bytes := line (s! "GET / HTTP/1.1") ++ line (s! "Host: x") ++ CRLF.

(** A run over a disk that does not change. *)
Definition sample_run (env : Env) (evs : list Event) : HttpSession :=
  run sample_config ((λ ev, (env, ev)) <$> evs) start.
