(* ===== verification/HttpSessionSafety.v ===== *)
(** * Requests over a connection

    About [HttpSession]: the requests a session serves are those of the byte
    stream it was given, however the stream is cut into reads and however
    responses, pauses and nested loops interleave ([served_as_parsed]); the
    responses follow one another ([one_exchange_at_a_time]). *)

From S2P Require Import Prelude CString FsmEngine HttpParser HttpSession.

(** ** Lines *)

Lemma has_line_app b more : has_line b = true → has_line (b ++ more) = true.
Proof.
  unfold has_line. intros H. destruct (find_char LF b) as [i|] eqn:E; [| done].
  apply find_char_Some in E as [E1 E2].
  assert (find_char LF (b ++ more) = Some i) as ->; [| done].
  assert (i < length b)%nat by by apply lookup_lt_is_Some; rewrite E1.
  apply find_char_Some. rewrite lookup_app_l, take_app_le by lia. done.
Qed.

Lemma take_line_app b more :
  has_line b = true → take_line (b ++ more) = ((take_line b).1, (take_line b).2 ++ more).
Proof.
  unfold has_line, take_line. intros H. destruct (find_char LF b) as [i|] eqn:E; [| done].
  apply find_char_Some in E as [E1 E2]. assert (i < length b)%nat by by apply lookup_lt_is_Some; rewrite E1.
  assert (find_char LF (b ++ more) = Some i) as ->.
  { apply find_char_Some. rewrite lookup_app_l, take_app_le by lia. done. }
  simpl. by rewrite take_app_le, drop_app_le by lia.
Qed.

Lemma take_line_shrinks b : has_line b = true → (length (take_line b).2 < length b)%nat.
Proof.
  unfold has_line, take_line. intros H. destruct (find_char LF b) as [i|] eqn:E; [| done].
  apply find_char_Some in E as [E1 _]. assert (i < length b)%nat by by apply lookup_lt_is_Some; rewrite E1.
  simpl. rewrite length_drop. lia.
Qed.

Lemma line_of_app b more :
  has_line b = true → line_of (b ++ more) = Some ((take_line b).1, (take_line b).2 ++ more).
Proof. intros H. unfold line_of. by rewrite has_line_app, take_line_app by done. Qed.

Lemma line_of_shrinks bs l rest : line_of bs = Some (l, rest) → (length rest < length bs)%nat.
Proof.
  unfold line_of. destruct (has_line bs) eqn:E; [| done]. intros [= H]. apply take_line_shrinks in E.
  by rewrite H in E.
Qed.

Lemma size_app a b : size (a ++ b) = size a + size b.
Proof. unfold size. rewrite length_app. lia. Qed.

Lemma size_pos b : 0 ≤ size b.
Proof. unfold size. lia. Qed.

Lemma take_drop_n n bs : take_n n bs ++ drop_n n bs = bs.
Proof. apply take_drop. Qed.

Lemma take_n_all n bs more : n ≤ size bs → take_n n (bs ++ more) = take_n n bs ∧ drop_n n (bs ++ more) = drop_n n bs ++ more.
Proof.
  intros H. unfold take_n, drop_n. rewrite size_app. pose proof (size_pos more).
  rewrite !Z.min_r by lia. unfold size in *. by rewrite take_app_le, drop_app_le by lia.
Qed.

Lemma size_take_n n bs : 0 ≤ n → size (take_n n bs) = Z.min (size bs) n.
Proof. intros H. unfold take_n, size. rewrite length_take. lia. Qed.

Lemma length_drop_n n bs : 0 < n → 0 < size bs → (length (drop_n n bs) < length bs)%nat.
Proof. unfold drop_n, size. intros. rewrite length_drop. lia. Qed.

(** ** The reference *)

Lemma element_shrinks m bs out m' rest :
  element m bs = Some (out, Some m', rest) → (length rest < length bs)%nat.
Proof.
  destruct m; simpl; unfold after_head, request_done, refuse, go; intros H;
    try (destruct (line_of bs) as [[l rest']|] eqn:E; [| done]; apply line_of_shrinks in E; simpl in H);
    repeat (case_hyp H; try discriminate H); bool_prop; simplify_eq; try done;
    rewrite ?length_drop; try (apply length_drop_n; lia); unfold size in *; lia.
Qed.

Lemma scan_fuel f1 f2 m bs :
  (length bs < f1)%nat → (length bs < f2)%nat → scan f1 m bs = scan f2 m bs.
Proof.
  revert f2 m bs. induction f1 as [| f1 IH]; intros [| f2] m bs H1 H2; try lia. simpl.
  destruct (element m bs) as [[[out [m'|]] rest]|] eqn:E; [| done | done].
  apply element_shrinks in E. f_equal. apply IH; lia.
Qed.

(** The equation of the reference. *)
Lemma scan_all_eq m bs :
  scan_all m bs = match element m bs with
                  | None => []
                  | Some (out, next, rest) =>
                      out ++ match next with Some m => scan_all m rest | None => [] end
                  end.
Proof.
  unfold scan_all at 1. simpl. destruct (element m bs) as [[[out [m'|]] rest]|] eqn:E; [| done | done].
  apply element_shrinks in E. f_equal. apply scan_fuel; lia.
Qed.

(** The body of a sized request may be taken in pieces. *)
Lemma scan_sized_piece r n a b :
  0 < size a → size a < n → size (r_body r) + size a ≤ kMaxRequestBody →
  scan_all (MSized r n) (a ++ b) = scan_all (MSized (add_body r a) (n - size a)) b.
Proof.
  intros Ha Hn Hl. rewrite (scan_all_eq (MSized r n)), (scan_all_eq (MSized (add_body r a) _)). simpl.
  rewrite !size_app. pose proof (size_pos b).
  replace (size (r_body r) + size a + Z.min (size b) (n - size a))
    with (size (r_body r) + Z.min (size a + size b) n) by lia.
  destruct (_ >? kMaxRequestBody); [done |].
  replace (0 <? n) with true by lia. replace (0 <? n - size a) with true by lia.
  replace (n - size a <=? size b) with (n <=? size a + size b) by lia. simpl.
  destruct (n <=? size a + size b) eqn:E; [| done]. bool_prop.
  assert (take_n n (a ++ b) = a ++ take_n (n - size a) b ∧ drop_n n (a ++ b) = drop_n (n - size a) b) as [-> ->].
  { unfold take_n, drop_n. rewrite size_app, !Z.min_r by lia. unfold size in *.
    replace (Z.to_nat n) with (length a + Z.to_nat (n - Z.of_nat (length a)))%nat by lia.
    by rewrite take_app_add, drop_app_add. }
  unfold add_body, request_done. simpl. by rewrite app_assoc.
Qed.

(** ** The parser follows the reference *)

(** Where in the stream a parser is; [None] after the last request. *)
Definition mode_of (p : Parser) : option Mode :=
  match state_ p with
  | WAIT_REQUEST_LINE => Some MLine
  | WAIT_HEADERS => Some (MHeader (r_head (request_ p)))
  | WAIT_BODY =>
      match body_frame_ p with
      | NONE => None
      | SIZE => Some (MSized (request_ p) (body_remaining_ p))
      | CHUNKED =>
          Some (if chunk_trailers_ p then MTrailer (request_ p) else
                if chunk_reading_size_ p then MChunkSize (request_ p) else
                if chunk_data_crlf_ p then MChunkEnd (request_ p)
                else MChunkData (request_ p) (chunk_remaining_ p))
      end
  | RESPOND => if must_close (request_ p) then None else Some MLine
  | CLOSED => None
  end.

(** What the rest of the stream will amount to. *)
Definition ahead (p : Parser) (bs : bytes) : list Verdict :=
  match mode_of p with Some m => scan_all m bs | None => [] end.

Definition body_ok (p : Parser) : Prop :=
  size (r_body (request_ p)) ≤ kMaxRequestBody ∧
  match body_frame_ p with
  | NONE => False
  | SIZE => 0 < body_remaining_ p
  | CHUNKED =>
      (chunk_trailers_ p || chunk_reading_size_ p || chunk_data_crlf_ p = false → 0 < chunk_remaining_ p) ∧
      (chunk_reading_size_ p = true → chunk_data_crlf_ p = false)
  end.

Definition parser_ok (p : Parser) : Prop :=
  match state_ p with
  | WAIT_REQUEST_LINE => request_ p = no_request
  | WAIT_HEADERS => r_body (request_ p) = []
  | WAIT_BODY => body_ok p
  | _ => True
  end.

(** What dispatching the event of [p] decides, and the parser after it. *)
Definition decided (p : Parser) : option (list Verdict * Parser) :=
  match state_ p, next_event_ p with
  | WAIT_REQUEST_LINE, REQUEST_LINE => Some ([], with_state WAIT_HEADERS p)
  | WAIT_HEADERS, HEADER_LINE => Some ([], with_state WAIT_HEADERS p)
  | WAIT_HEADERS, HEADER_END =>
      if body_pending_ p then Some ([], with_state WAIT_BODY (begin_body p))
      else Some ([Serve (request_ p)], with_state RESPOND p)
  | WAIT_BODY, BODY => Some ([], with_state WAIT_BODY p)
  | WAIT_BODY, BODY_END => Some ([Serve (request_ p)], with_state RESPOND p)
  | _, _ => None
  end.

(** One unit of input: the parser decides what the reference says. *)
Definition unit_spec (p : Parser) (buf : bytes) : Prop :=
  let '(data, rest) := extract p buf in
  let p' := handle_read data p in
  (length rest < length buf)%nat ∧ state_ p' = state_ p ∧
  match decided p' with
  | Some (out, q) => parser_ok q ∧ ∀ more, ahead p (buf ++ more) = out ++ ahead q (rest ++ more)
  | None => next_event_ p' = ERROR ∧ ∀ more, ahead p (buf ++ more) = [Reject]
  end.

Lemma determine_body_framing_ok rq f : determine_body_framing rq = Some f → 0 ≤ fr_length f ∧ (fr_has_body f = true → fr_chunked f = false → 0 < fr_length f).
Proof.
  assert (∀ s acc n, 0 ≤ acc → content_length_loop s acc = Some n → 0 ≤ n) as Hl.
  { induction s as [| c s IH]; simpl; intros acc n Ha H; [by simplify_eq |].
    case_hyp H; [done |]. case_hyp H; [done |]. bool_prop. apply IH in H; [done |].
    unfold isdigit in *. bool_prop. lia. }
  unfold determine_body_framing. intros H.
  assert (∀ cl, (λ n, mkFraming false n (negb (n =? 0))) <$> content_length_loop cl 0 = Some f →
    0 ≤ fr_length f ∧ (fr_has_body f = true → fr_chunked f = false → 0 < fr_length f)) as Hc.
  { intros cl H'. destruct (content_length_loop cl 0) as [n|] eqn:E; [| done]. apply Hl in E; [| lia].
    simplify_eq/=. split; [done |]. intros Hn _. bool_prop. lia. }
  destruct (find_header rq (s! "transfer-encoding")) as [[| c te]|];
    [| case_hyp H; simplify_eq/=; split; [lia | done] |];
    (destruct (find_header rq (s! "content-length")) as [[| d cl]|];
      [done | by apply (Hc (d :: cl)) | simplify_eq/=; split; [lia | done]]).
Qed.

Lemma unit_line p buf :
  state_ p = WAIT_REQUEST_LINE ∨ state_ p = WAIT_HEADERS → parser_ok p → has_line buf = true → unit_spec p buf.
Proof.
  intros Hst Hok Hl. unfold unit_spec, extract.
  pose proof (take_line_shrinks _ Hl) as Hs. pose proof (line_of_app buf) as Ha.
  destruct p as [st ev rq pd ch cl fr rm rs cr cc tr]. unfold parser_ok in Hok. simpl in *.
  destruct Hst as [-> | ->]; simpl in *; destruct (take_line buf) as [l rest] eqn:E; simpl in Hs, Ha.
  - subst rq. unfold handle_read. cbn [state_ request_ r_head no_request].
    destruct (parse_request_line l empty_request) as [h|] eqn:Ep; simpl.
    + split_and!; [done.. |]. intros more. unfold ahead. simpl. rewrite (scan_all_eq MLine). simpl.
      rewrite Ha by done. simpl. by rewrite Ep.
    + split_and!; [done.. |]. intros more. unfold ahead. simpl. rewrite (scan_all_eq MLine). simpl.
      rewrite Ha by done. simpl. by rewrite Ep.
  - destruct rq as [h b]. simpl in Hok. subst b. unfold handle_read, ahead. cbn [state_ request_ r_head].
    destruct l as [| c l].
    + destruct (determine_body_framing h) as [f|] eqn:Ef; simpl.
      * split; [done |]. split; [done |]. unfold decided. simpl. unfold begin_body. simpl.
        apply determine_body_framing_ok in Ef as Hf.
        assert (∀ more, scan_all (MHeader h) (buf ++ more) = match after_head h (rest ++ more) with
          | None => [] | Some (out, next, rest) => out ++ match next with Some m => scan_all m rest | None => [] end end) as Heq.
        { intros more. rewrite scan_all_eq. simpl. by rewrite Ha. }
        unfold after_head in Heq. rewrite Ef in Heq.
        destruct (fr_has_body f) eqn:Eb, (fr_chunked f) eqn:Ec; simpl; (split; [| intros more; rewrite Heq]);
          unfold parser_ok, body_ok, request_done, mode_of; simpl; try done.
        split; [done |]. by apply Hf.
      * split_and!; [done.. |]. intros more. rewrite (scan_all_eq (MHeader h)). simpl. rewrite Ha by done. simpl.
        unfold after_head. by rewrite Ef.
    + destruct (parse_header_line (c :: l) h) as [h'|] eqn:Ep; simpl.
      * split_and!; [done.. |]. intros more. rewrite (scan_all_eq (MHeader h)). simpl. rewrite Ha by done.
        cbn. by rewrite Ep.
      * split_and!; [done.. |]. intros more. rewrite (scan_all_eq (MHeader h)). simpl. rewrite Ha by done.
        cbn. by rewrite Ep.
Qed.

Lemma http_chunk_size_parse_nonneg l n : http_chunk_size_parse l = Some n → 0 ≤ n.
Proof.
  assert (∀ s acc any n, 0 ≤ acc → chunk_size_loop s acc any = Some n → 0 ≤ n) as Hl.
  { induction s as [| c s IH]; simpl; intros acc any m Ha H; [case_hyp H; by simplify_eq |].
    case_hyp H; [case_hyp H; by simplify_eq |]. case_hyp H; [done |]. bool_prop. apply IH in H; lia. }
  unfold http_chunk_size_parse. intros H. destruct (chunk_size_loop l 0 false) as [m|] eqn:E; [| done].
  simpl in H. case_hyp H; simplify_eq. by eapply Hl in E.
Qed.

Lemma take_n_exact n bs : size bs < n → take_n n bs = bs ∧ drop_n n bs = [].
Proof. unfold take_n, drop_n, size. intros H. by rewrite take_ge, drop_ge by lia. Qed.

Lemma unit_sized p buf :
  state_ p = WAIT_BODY → body_frame_ p = SIZE → parser_ok p → body_has_buffered_input p buf = true → unit_spec p buf.
Proof.
  intros Hst Hfr Hok Hl. unfold unit_spec, extract, handle_read, body_extract, feed_body, ahead, mode_of, decided.
  destruct p as [st ev rq pd ch cl fr rm rs cr cc tr]. unfold parser_ok, body_ok, body_has_buffered_input in *. simpl in *.
  subst st fr. simpl in *. destruct Hok as [Hsz Hok]. bool_prop.
  pose proof (length_drop_n rm buf Hok). rewrite size_take_n by lia.
  destruct (_ >? kMaxRequestBody) eqn:Em; simpl.
  { split_and!; [auto with lia | done | done |]. intros more. rewrite scan_all_eq. simpl.
    rewrite size_app. pose proof (size_pos more). bool_prop.
    replace (size (r_body rq) + Z.min (size buf + size more) rm >? kMaxRequestBody) with true by lia. done. }
  bool_prop. destruct (Z.ltb_spec (size buf) rm) as [Hlt | Hge].
  - rewrite Z.min_l in * by lia. replace (rm >? size buf) with true by lia.
    replace (rm - size buf =? 0) with false by lia. simpl. destruct (take_n_exact rm buf Hlt) as [-> Hd].
    rewrite Hd in *. split_and!; [auto with lia | done | rewrite size_app; lia | lia |]. intros more.
    by rewrite scan_sized_piece by lia.
  - rewrite Z.min_r in * by lia. replace (rm >? rm) with false by lia. simpl.
    split_and!; [auto with lia | done | done |]. intros more. rewrite scan_all_eq. simpl. rewrite size_app.
    pose proof (size_pos more). rewrite Z.min_r by lia.
    replace (size (r_body rq) + rm >? kMaxRequestBody) with false by lia.
    replace (0 <? rm) with true by lia. replace (rm <=? size buf + size more) with true by lia. simpl.
    destruct (take_n_all rm buf more) as [-> ->]; [lia |]. unfold add_body. by destruct (must_close _).
Qed.

Lemma unit_chunk_data p buf :
  state_ p = WAIT_BODY → body_frame_ p = CHUNKED →
  chunk_trailers_ p || chunk_reading_size_ p || chunk_data_crlf_ p = false →
  parser_ok p → body_has_buffered_input p buf = true → unit_spec p buf.
Proof.
  intros Hst Hfr Hf Hok Hl. unfold unit_spec, extract, handle_read, body_extract, feed_body, ahead, mode_of, decided.
  destruct p as [st ev rq pd ch cl fr rm rs cr cc tr]. unfold parser_ok, body_ok, body_has_buffered_input in *. simpl in *.
  subst st fr. simpl in *. destruct Hok as (Hsz & Hok & _). specialize (Hok Hf). bool_prop. subst. simpl in *. bool_prop.
  pose proof (length_drop_n cr buf Hok) as Hd. rewrite size_take_n, Z.min_r by lia.
  assert (∀ more, element (MChunkData rq cr) (buf ++ more) =
    if size (r_body rq) + cr >? kMaxRequestBody then refuse []
    else go (MChunkEnd (add_body rq (take_n cr buf))) (drop_n cr buf ++ more)) as He.
  { intros more. simpl. rewrite size_app. pose proof (size_pos more). replace (0 <? cr) with true by lia.
    replace (cr <=? size buf + size more) with true by lia. simpl.
    by destruct (take_n_all cr buf more) as [-> ->]; [lia |]. }
  destruct (_ >? kMaxRequestBody) eqn:Em; simpl.
  - split_and!; [auto with lia | done | done |]. intros more. by rewrite scan_all_eq, He.
  - replace (cr >? cr) with false by lia. simpl. bool_prop.
    split_and!; [auto with lia | done | rewrite size_app, size_take_n; lia | done.. |]. intros more.
    by rewrite scan_all_eq, He.
Qed.

Lemma unit_chunk p buf :
  state_ p = WAIT_BODY → body_frame_ p = CHUNKED →
  chunk_trailers_ p || chunk_reading_size_ p || chunk_data_crlf_ p = true →
  parser_ok p → body_has_buffered_input p buf = true → unit_spec p buf.
Proof.
  intros Hst Hfr Hf Hok Hl. unfold unit_spec, extract, handle_read, body_extract, feed_body, ahead, mode_of, decided.
  destruct p as [st ev rq pd ch cl fr rm rs cr cc tr]. unfold parser_ok, body_ok, body_has_buffered_input in *. simpl in *.
  subst st fr. simpl in *. destruct Hok as (Hsz & Hrem & Hex).
  pose proof (take_line_shrinks buf) as Hs. pose proof (line_of_app buf) as Ha.
  destruct tr; [| destruct rs; [rewrite (Hex eq_refl) in * | destruct cc; [| done]]]; simpl in *.
  - rewrite orb_true_r in *. destruct (take_line buf) as [l rest]. simpl in *.
    destruct l as [| c l]; simpl; (split_and!; [by apply Hs | done.. |]); intros more;
      rewrite scan_all_eq; simpl; rewrite (Ha more Hl); simpl; [| done]. by destruct (must_close _).
  - destruct (take_line buf) as [l rest]. simpl in *.
    destruct (http_chunk_size_parse l) as [n|] eqn:Ep; [destruct (Z.eqb_spec n 0) as [-> | Hn] |]; simpl.
    + split_and!; [by apply Hs | done.. |]. intros more.
      rewrite (scan_all_eq (MChunkSize rq)). simpl. rewrite (Ha more Hl). simpl. by rewrite Ep.
    + split_and!; [by apply Hs | done | done | | done |].
      { intros _. apply http_chunk_size_parse_nonneg in Ep. lia. }
      intros more. rewrite (scan_all_eq (MChunkSize rq)). simpl. rewrite (Ha more Hl). simpl. rewrite Ep.
      by replace (n =? 0) with false by lia.
    + split_and!; [by apply Hs | done | done |]. intros more.
      rewrite (scan_all_eq (MChunkSize rq)). simpl. rewrite (Ha more Hl). simpl. by rewrite Ep.
  - bool_prop. replace (size buf <? 2) with false by lia. simpl. destruct buf as [| a [| b buf]]; [done.. |]. simpl. rewrite drop_0.
    split_and!; [lia | done.. |]. intros more. rewrite (scan_all_eq (MChunkEnd rq)). simpl.
    assert (2 ≤ size (a :: b :: buf ++ more)) as Hb%Z.leb_le by (unfold size; rewrite !length_cons; lia).
    by rewrite Hb.
Qed.

Lemma unit_ok p buf : parser_ok p → parser_has_input p buf = true → unit_spec p buf.
Proof.
  intros Hok Hin. unfold parser_has_input in Hin. destruct (state_ p) eqn:E; try done.
  - apply unit_line; auto.
  - apply unit_line; auto.
  - destruct (body_frame_ p) eqn:Ef.
    + unfold body_has_buffered_input in Hin. by rewrite Ef in Hin.
    + by apply unit_sized.
    + destruct (chunk_trailers_ p || chunk_reading_size_ p || chunk_data_crlf_ p) eqn:Ec;
        [by apply unit_chunk | by apply unit_chunk_data].
Qed.

(** Without a complete unit there is nothing the reference could decide. *)
Lemma ahead_idle p buf :
  parser_ok p → state_ p ≠ RESPOND → parser_has_input p buf = false → ahead p buf = [].
Proof.
  intros Hok Hr Hin. unfold ahead, mode_of, parser_has_input, parser_ok, body_ok, body_has_buffered_input in *.
  destruct (state_ p); try done; try (rewrite scan_all_eq; simpl; unfold line_of; by rewrite Hin).
  destruct Hok as [Hsz Hok], (body_frame_ p); try done; rewrite scan_all_eq; simpl; pose proof (size_pos buf).
  - replace (0 <? body_remaining_ p) with true in * by lia. simpl in Hin. bool_prop.
    replace (Z.min (size buf) (body_remaining_ p)) with 0 by lia.
    replace (size (r_body (request_ p)) + 0 >? kMaxRequestBody) with false by lia.
    by replace (body_remaining_ p <=? size buf) with false by lia.
  - destruct Hok as [Hrem _], (chunk_trailers_ p), (chunk_reading_size_ p), (chunk_data_crlf_ p); simpl in *;
      unfold line_of; rewrite ?Hin, ?andb_false_r; done.
Qed.

(** ** What operations leave alone *)

(** The log only grows, and a closed session neither decides nor receives. *)
Definition ext (s s' : HttpSession) : Prop :=
  log s `prefix_of` log s' ∧
  (closed_ s = true → closed_ s' = true ∧ verdicts (log s') = verdicts (log s) ∧ received (log s') = received (log s)).

Lemma ext_refl s : ext s s. Proof. by split. Qed.

Lemma ext_trans s1 s2 s3 : ext s1 s2 → ext s2 s3 → ext s1 s3.
Proof.
  intros [P1 C1] [P2 C2]. split; [by etrans |]. intros H. destruct (C1 H) as (H1 & <- & <-). by apply C2.
Qed.

Lemma ext_same s s' : log s' = log s → closed_ s' = closed_ s → ext s s'.
Proof. unfold ext. by intros -> ->. Qed.

Lemma ext_open s s' : closed_ s = false → log s `prefix_of` log s' → ext s s'.
Proof. intros H ?. split; [done |]. by rewrite H. Qed.

Lemma verdicts_app l1 l2 : verdicts (l1 ++ l2) = verdicts l1 ++ verdicts l2.
Proof. apply omap_app. Qed.
Lemma stream_app l1 l2 : received (l1 ++ l2) = received l1 ++ received l2.
Proof. unfold received. by rewrite omap_app, concat_app. Qed.

(** Notes that are neither a decision nor input. *)
Definition silent (o : Obs) : bool :=
  match o with Served _ | Rejected _ | Received _ => false | _ => true end.

Lemma note_silent o s :
  silent o = true → verdicts (log (note o s)) = verdicts (log s) ∧ received (log (note o s)) = received (log s).
Proof. simpl. rewrite verdicts_app, stream_app. destruct o; try done; intros _; by rewrite !app_nil_r. Qed.

Lemma ext_note o s : silent o = true → ext s (note o s).
Proof. intros H. split; [by eexists |]. intros Hc. by destruct (note_silent o s H). Qed.

Create HintDb http discriminated.
#[export] Hint Resolve ext_refl : http.

Lemma close_spec s : closed_ s = false → closed_ (close s) = true ∧ log (close s) = log s ++ [Closed].
Proof.
  intros E. unfold close. rewrite E. destruct s as [? ? ? ? ? [] [] ? ? ? ? ? ?]; simpl in *; done.
Qed.

Lemma close_ext s : ext s (close s).
Proof.
  destruct (closed_ s) eqn:E; [unfold close; by rewrite E |].
  apply ext_open; [done |]. rewrite (proj2 (close_spec s E)). by eexists.
Qed.

Lemma do_async_read_ext s : ext s (do_async_read s).
Proof. unfold do_async_read. repeat case_match; try done; by apply ext_same. Qed.

#[export] Hint Resolve close_ext do_async_read_ext : http.

Lemma ext_from s s1 s' : log s1 = log s → closed_ s1 = closed_ s → ext s1 s' → ext s s'.
Proof. intros ? ? ?. eapply ext_trans; [by apply ext_same | done]. Qed.

(** Up to fields other than the log and the flag, [L] is the lemma. *)
Tactic Notation "ext_via" uconstr(L) := eapply ext_from; [| | apply L]; [reflexivity | reflexivity].

Section Ext.
Context (cfg : Config) (dr : HttpSession → HttpSession) (env : Env).
Hypothesis dr_ext : ∀ s, ext s (dr s).

Lemma finish_ext keep s : ext s (finish_response dr keep s).
Proof.
  assert (ext s (dr (note Finished (set_parser (next_request (parser s)) s)))) as H.
  { eapply ext_trans; [| apply dr_ext]. eapply ext_trans; [| by apply ext_note]. by apply ext_same. }
  unfold finish_response. repeat case_match; auto with http; try (ext_via close_ext).
  eapply ext_trans; [done | apply do_async_read_ext].
Qed.

Lemma write_ext data k s : ext s (do_async_write dr data k s).
Proof.
  unfold do_async_write. destruct (closed_ s) eqn:Ec; [done |].
  destruct (has_buffered_input s); [| by apply ext_same].
  destruct k; try (by apply ext_same); try (ext_via finish_ext);
    (eapply ext_trans; [| by apply ext_note]); by apply ext_same.
Qed.

Lemma send_simple_ext st body c s : ext s (send_simple dr st body c s).
Proof. apply write_ext. Qed.

Lemma reject_ext st s : closed_ s = false → ext s (send_error_and_close dr st s).
Proof.
  intros H. unfold send_error_and_close. eapply ext_trans; [| apply send_simple_ext].
  apply ext_open; [done |]. by eexists.
Qed.

Lemma send_file_ext path ct len c h s : ext s (send_file cfg dr env path ct len c h s).
Proof. unfold send_file, serve_file_sendfile. repeat case_match; apply write_ext || apply send_simple_ext. Qed.

Lemma serve_static_ext c s : ext s (serve_static cfg dr env c s).
Proof. unfold serve_static. case_match; [apply send_simple_ext | apply send_file_ext]. Qed.

Lemma send_response_ext r c s : ext s (send_response dr r c s).
Proof. unfold send_response. repeat case_match; apply write_ext. Qed.

Lemma serve_ext s : closed_ s = false → ext s (serve cfg dr env s).
Proof.
  intros H. unfold serve. eapply (ext_trans _ (note (Served (request_ (parser s))) s)); [apply ext_open; [done | by eexists] |].
  repeat case_match; try (ext_via serve_static_ext); try (ext_via send_response_ext); by apply ext_same.
Qed.

Lemma download_ext src off c s : ext s (download_task dr env src off c s).
Proof. unfold download_task. repeat case_match; auto with http; apply write_ext. Qed.

Lemma stream_ext path pos rem c s : ext s (stream_file_body dr env path pos rem c s).
Proof. unfold stream_file_body. repeat case_match; apply finish_ext || apply write_ext. Qed.

Lemma run_cont_ext k s : ext s (run_cont cfg dr env k s).
Proof.
  unfold run_cont, stream_download.
  repeat case_match; auto with http;
    apply finish_ext || apply stream_ext || apply send_simple_ext || apply download_ext || by apply ext_same.
Qed.

Lemma apply_ext to s : ext s (apply dr to s).
Proof.
  unfold apply. destruct (closed_ s) eqn:E; [done |].
  assert (ext s (dr (set_paused false (set_state to s)))) as H by (ext_via dr_ext).
  case_match; [done |]. eapply ext_trans; [done | apply do_async_read_ext].
Qed.

Lemma process_ext s : ext s (process_read cfg dr env s).
Proof.
  unfold process_read, handle_header_end, apply_closing. destruct (closed_ s) eqn:E; [done |]. rewrite ?E.
  repeat case_match; auto with http; try (by apply reject_ext); try apply apply_ext;
    try (ext_via apply_ext);
    (eapply ext_from; [| | by apply serve_ext]; [reflexivity | reflexivity]).
Qed.
End Ext.

Lemma consume_ext cfg env fuel s : ext s (consume cfg env fuel s).
Proof.
  revert s. induction fuel as [| fuel IH]; intros s; cbn [consume]; [done |].
  destruct (has_buffered_input s && negb (paused_ s)); [| done].
  destruct (extract _ _) as [data rest]. eapply ext_trans; [| apply IH].
  eapply ext_trans; [| apply process_ext]; [by apply ext_same |].
  intros s1. unfold drain_with. assert (ext s1 (consume cfg env fuel (set_paused false s1))) as H by (ext_via IH).
  case_match; [| done]. eapply ext_trans; [done |]. by apply ext_same.
Qed.

Lemma drain_ext cfg env s : ext s (drain cfg env s).
Proof.
  unfold drain, drain_with. assert (ext s (loop cfg env (set_paused false s))) as H by (ext_via consume_ext).
  case_match; [| done]. eapply ext_trans; [done |]. by apply ext_same.
Qed.

(** ** The invariant of a session *)

(** The flag of the response that a callback goes on with. *)
Definition cont_flag (k : Cont) : option bool :=
  match k with
  | KRead => None
  | KFinish c | KStream _ _ _ c | KSendfile _ _ c | KDownload _ _ c => Some c
  end.
Definition task_flag (t : Task) : option (option bool) :=
  match t with
  | TWrite _ k => Some (cont_flag k)
  | TFlush _ => Some None
  | TFinish keep => Some (Some (negb keep))
  | _ => None
  end.
Definition job_flag (j : Job) : bool :=
  match j with JSendfile _ _ keep => negb keep | JDownload _ _ c => c end.

(** The responses under way, wherever they wait; [None] is a write that belongs
    to none. *)
Definition tokens (s : HttpSession) : list (option bool) :=
  omap task_flag (posted s) ++ omap (fmap cont_flag) (writes s) ++ (Some ∘ job_flag <$> jobs s) ++ (Some <$> claims s).

(** A log as a sequence of exchanges: a request, what is sent for it, the end.
    [Some true]: one is under way; [None]: something out of order. *)
Definition exchange_step (st : option bool) (o : Obs) : option bool :=
  open ← st;
  match o with
  | Served _ => if (open : bool) then None else Some true
  | Sent _ => if open then Some true else None
  | Finished => if open then Some false else None
  | Unreached => None
  | _ => Some open
  end.
Definition exchanges (l : list Obs) : option bool := foldl exchange_step (Some false) l.

Lemma exchanges_snoc l o : exchanges (l ++ [o]) = exchange_step (exchanges l) o.
Proof. unfold exchanges. by rewrite foldl_app. Qed.

(** What holds between the steps of a session that was neither closed nor rejected
    a request, but for the exchange under way. *)
Record Core (s : HttpSession) : Prop := {
  co_open : closed_ s = false;
  co_clean : Reject ∉ verdicts (log s);
  co_parser : parser_ok (parser s);
  co_tracks : ∀ more, scan_all MLine (received (log s) ++ more) =
                verdicts (log s) ++ ahead (parser s) (command_read_buffer_ s ++ more);
  co_pending : pending_write_buf_ s = [];
}.

Record Live (s : HttpSession) : Prop := {
  lv_core : Core s;
  lv_exchange : exchanges (log s) = Some (bool_decide (current_state s = RESPOND));
  lv_paused : paused_ s = true → current_state s = RESPOND;
  lv_tokens : tokens s ≡ₚ if decide (current_state s = RESPOND) then [Some (must_close (request_ (parser s)))] else [];
}.

(** A request is being answered, and the answer is at hand. *)
Record Responding (s : HttpSession) : Prop := {
  re_core : Core s;
  re_exchange : exchanges (log s) = Some true;
  re_state : current_state s = RESPOND;
  re_tokens : tokens s ≡ₚ [];
}.

Fixpoint upto_reject (l : list Verdict) : list Verdict :=
  match l with
  | [] => []
  | Reject :: _ => [Reject]
  | v :: l => v :: upto_reject l
  end.

Definition dead (s : HttpSession) : Prop := closed_ s = true ∨ Reject ∈ verdicts (log s).

(** Up to the first rejection the decisions are those of the reference. *)
Definition Prefix (s : HttpSession) : Prop :=
  ∀ more, upto_reject (verdicts (log s)) `prefix_of` scan_all MLine (received (log s) ++ more).

Definition Good (s : HttpSession) : Prop := Live s ∨ (dead s ∧ Prefix s).

Lemma upto_reject_clean l : Reject ∉ l → upto_reject l = l.
Proof.
  induction l as [| [r|] l IH]; simpl; intros H; [done | |].
  - rewrite IH; [done |]. intros ?. apply H. by right.
  - exfalso. apply H. left.
Qed.

Lemma upto_reject_elem l : Reject ∈ l → Reject ∈ upto_reject l.
Proof.
  induction l as [| [r|] l IH]; simpl; intros H; [by apply elem_of_nil in H | | left].
  apply elem_of_cons in H as [? | H]; [done |]. right. auto.
Qed.

Lemma upto_reject_snoc l : Reject ∉ l → upto_reject (l ++ [Reject]) = l ++ [Reject].
Proof.
  induction l as [| [r|] l IH]; simpl; intros H; [done | |].
  - rewrite IH; [done |]. intros ?. apply H. by right.
  - exfalso. apply H. left.
Qed.

Lemma upto_reject_app l l' : Reject ∈ l → upto_reject (l ++ l') = upto_reject l.
Proof.
  induction l as [| [r|] l IH]; simpl; intros H; [by apply elem_of_nil in H | | done].
  apply elem_of_cons in H as [? | H]; [done |]. by rewrite IH.
Qed.

Lemma core_prefix s : Core s → Prefix s.
Proof. intros C more. rewrite upto_reject_clean by apply C. rewrite (co_tracks s C). by eexists. Qed.

Lemma live_not_dead s : Live s → ¬ dead s.
Proof. intros [C] [H | H]; [by rewrite (co_open s C) in H | by apply (co_clean s C)]. Qed.

Lemma dead_ext s s' : dead s → ext s s' → dead s'.
Proof.
  intros [H | H] [[l Hl] Hc]; [left; by apply Hc |]. right. rewrite Hl, verdicts_app. by apply elem_of_app; left.
Qed.

Lemma prefix_ext s s' : dead s → Prefix s → ext s s' → Prefix s'.
Proof.
  intros Hd Hp [[l Hl] Hc] more. destruct Hd as [H | H].
  - destruct (Hc H) as (_ & -> & ->). apply Hp.
  - rewrite Hl, verdicts_app, stream_app, upto_reject_app, <- app_assoc by done. apply Hp.
Qed.

Lemma good_ext s s' : dead s → Good s → ext s s' → Good s'.
Proof.
  intros Hd [HL | [_ Hp]] He; [by apply live_not_dead in HL |].
  right. split; [by eapply dead_ext | by eapply prefix_ext].
Qed.

Lemma close_keeps_good s : closed_ s = false → Prefix s → Good (close s).
Proof.
  intros Hc Hp. destruct (close_spec s Hc) as [H1 H2]. right. split; [by left |].
  intros more. rewrite H2, verdicts_app, stream_app. simpl. rewrite !app_nil_r. apply Hp.
Qed.

Lemma close_keeps_good_core s s' :
  Core s → closed_ s' = false → log s' = log s → Good (close s').
Proof. intros C H1 H2. apply close_keeps_good; [done |]. intros more. rewrite H2. by apply core_prefix. Qed.

(** Fields that neither invariant mentions. *)
Lemma core_same s s' :
  parser s' = parser s → command_read_buffer_ s' = command_read_buffer_ s → closed_ s' = closed_ s →
  pending_write_buf_ s' = pending_write_buf_ s →
  verdicts (log s') = verdicts (log s) → received (log s') = received (log s) → Core s → Core s'.
Proof. intros H1 H2 H3 H4 H5 H6 []. split; rewrite ?H1, ?H2, ?H3, ?H4, ?H5, ?H6; done. Qed.

Lemma live_same s s' :
  parser s' = parser s → command_read_buffer_ s' = command_read_buffer_ s → closed_ s' = closed_ s →
  pending_write_buf_ s' = pending_write_buf_ s → log s' = log s → paused_ s' = paused_ s →
  tokens s' ≡ₚ tokens s → Live s → Live s'.
Proof.
  intros H1 H2 H3 H4 H5 H6 H7 [C E P T].
  split; unfold current_state in *; rewrite ?H1, ?H5, ?H6; try done; [| by rewrite H7].
  apply (core_same s); by rewrite ?H5.
Qed.

Lemma tokens_post t s : tokens (post t s) ≡ₚ option_list (task_flag t) ++ tokens s.
Proof.
  unfold tokens. simpl. rewrite omap_app. simpl.
  destruct (task_flag t); simpl; rewrite ?app_nil_r; [| done]. rewrite <- (assoc_L (++)). symmetry. apply Permutation_middle.
Qed.

Lemma read_live s : Live s → Live (do_async_read s).
Proof.
  intros HL. unfold do_async_read. repeat case_match; try done.
  apply (live_same s); try done. by rewrite tokens_post.
Qed.

(** The response of [s] is under way in [s']. *)
Record Answered (s s' : HttpSession) : Prop := {
  an_live : Live s';
  an_buffer : command_read_buffer_ s' = command_read_buffer_ s;
  an_state : current_state s' = RESPOND;
}.

Lemma responding_same s s' :
  parser s' = parser s → command_read_buffer_ s' = command_read_buffer_ s → closed_ s' = closed_ s →
  pending_write_buf_ s' = pending_write_buf_ s → log s' = log s → tokens s' ≡ₚ tokens s →
  Responding s → Responding s'.
Proof.
  intros H1 H2 H3 H4 H5 H6 [C E S T]. split; unfold current_state in *; rewrite ?H1, ?H5; try done; [| by rewrite H6].
  apply (core_same s); by rewrite ?H5.
Qed.

(** A response handed over: exactly one thing waits to go on with it. *)
Lemma answered_intro s s' :
  Responding s → parser s' = parser s → command_read_buffer_ s' = command_read_buffer_ s →
  closed_ s' = closed_ s → pending_write_buf_ s' = [] → log s' = log s →
  tokens s' ≡ₚ Some (must_close (request_ (parser s))) :: tokens s → Answered s s'.
Proof.
  intros [C E S T] H1 H2 H3 H4 H5 H6. unfold current_state in *.
  split; [split | done |]; unfold current_state in *; rewrite ?H1, ?H5, ?S; try done.
  - apply (core_same s); rewrite ?H5; try done. by rewrite H4, (co_pending s C).
  - simpl. by rewrite H6, T.
Qed.

Lemma responding_quiet s : current_state s = RESPOND → has_buffered_input s = false.
Proof. unfold has_buffered_input, parser_has_input, current_state. by intros ->. Qed.

Section Answer.
Context (cfg : Config) (dr : HttpSession → HttpSession) (env : Env).

Lemma write_answered data k s :
  Responding s → cont_flag k = Some (must_close (request_ (parser s))) → Answered s (do_async_write dr data k s).
Proof.
  intros HR Hk. unfold do_async_write.
  rewrite (co_open s (re_core s HR)), responding_quiet by apply HR.
  apply answered_intro; try done. rewrite tokens_post. simpl. by rewrite Hk.
Qed.

Lemma simple_answered st body s :
  Responding s → Answered s (send_simple dr st body (must_close (request_ (parser s))) s).
Proof. intros. by apply write_answered. Qed.

Lemma file_answered path ct len h s :
  Responding s → Answered s (send_file cfg dr env path ct len (must_close (request_ (parser s))) h s).
Proof. intros. unfold send_file, serve_file_sendfile. repeat case_match; by apply write_answered || apply simple_answered. Qed.

Lemma static_answered s :
  Responding s → Answered s (serve_static cfg dr env (must_close (request_ (parser s))) s).
Proof. intros. unfold serve_static. case_match; [by apply simple_answered | by apply file_answered]. Qed.

Lemma response_answered r s :
  Responding s → Answered s (send_response dr r (must_close (request_ (parser s))) s).
Proof. intros. unfold send_response. repeat case_match; by apply write_answered. Qed.

Lemma serve_answered s :
  Responding (note (Served (request_ (parser s))) s) → Answered s (serve cfg dr env s).
Proof.
  intros HR. unfold serve. set (s1 := note _ s) in *.
  assert (∀ b, Responding (set_paused b s1)) as HP by (intros b; by apply (responding_same s1)).
  assert (∀ s', Answered s1 s' → Answered s s') as Hb by (intros s' []; by split).
  assert (∀ b s', Answered (set_paused b s1) s' → Answered s s') as Hb' by (intros b s' []; by split).
  destruct (env_api env) as [h|]; [| apply Hb, (static_answered s1 HR)].
  destruct (h _).
  - apply (Hb' false). by apply (static_answered (set_paused false s1)).
  - apply (Hb' true). apply answered_intro; [apply (HP true) | done | done | done | apply (co_pending s1), HR | done |].
    unfold tokens. simpl. rewrite fmap_app. simpl. rewrite !(assoc_L (++)), <- Permutation_cons_append. done.
  - apply (Hb' true). by apply (response_answered r (set_paused true s1)).
Qed.
End Answer.

(** ** The loop *)

(** What [process_read] does with a decision of the parser. *)
Lemma process_step cfg dr env s q :
  closed_ s = false → decided (parser s) = Some ([], q) →
  state_ q ≠ RESPOND ∧
  process_read cfg dr env s =
    (let s' := dr (set_paused false (set_parser q s)) in if paused_ s' then s' else do_async_read s').
Proof.
  intros Hc Hd. unfold decided in Hd. unfold process_read, handle_header_end, apply, current_state.
  destruct (state_ (parser s)) eqn:Es; try done; destruct (next_event_ (parser s)) eqn:Ee; try done;
    try (destruct (body_pending_ (parser s)) eqn:Eb; try done); simplify_eq; simpl; rewrite ?Hc, ?Eb; simpl; rewrite ?Hc; done.
Qed.

Lemma process_serve cfg dr env s r q :
  closed_ s = false → decided (parser s) = Some ([Serve r], q) →
  state_ q = RESPOND ∧ request_ q = r ∧
  process_read cfg dr env s = serve cfg dr env (set_paused false (set_parser q s)).
Proof.
  intros Hc Hd. unfold decided in Hd. unfold process_read, handle_header_end, apply_closing, current_state.
  destruct (state_ (parser s)) eqn:Es; try done; destruct (next_event_ (parser s)) eqn:Ee; try done;
    try (destruct (body_pending_ (parser s)) eqn:Eb; try done); simplify_eq; simpl; rewrite ?Hc, ?Eb; simpl; rewrite ?Hc; done.
Qed.

Lemma process_reject cfg dr env s :
  closed_ s = false → current_state s ≠ CLOSED → next_event_ (parser s) = ERROR →
  process_read cfg dr env s = send_error_and_close dr 400 s.
Proof.
  intros Hc Hs He. unfold process_read. rewrite Hc, He. by destruct (current_state s).
Qed.

Lemma decided_shape p out q : decided p = Some (out, q) → out = [] ∨ ∃ r, out = [Serve r].
Proof. unfold decided. intros H. repeat (case_hyp H; try discriminate H); simplify_eq; eauto. Qed.

(** After a unit with decision [q] the session is at [q]. *)
Lemma core_unit s out q buf :
  Core s → parser_ok q → Reject ∉ out →
  (∀ more, ahead (parser s) (command_read_buffer_ s ++ more) = out ++ ahead q (buf ++ more)) →
  ∀ s', parser s' = q → command_read_buffer_ s' = buf → closed_ s' = false → pending_write_buf_ s' = [] →
        verdicts (log s') = verdicts (log s) ++ out → received (log s') = received (log s) → Core s'.
Proof.
  intros C Hq Hout Ha s' H1 H2 H3 H4 H5 H6. split; rewrite ?H1, ?H2, ?H4, ?H5, ?H6; try done.
  - rewrite elem_of_app. intros [H | H]; [by apply (co_clean s C) | done].
  - intros more. by rewrite (co_tracks s C), Ha, (assoc_L (++)).
Qed.

Definition shrinks (s s' : HttpSession) : Prop :=
  (length (command_read_buffer_ s') ≤ length (command_read_buffer_ s))%nat.

(** What a loop with [fuel] does to a live session. *)
Definition loops (fuel : nat) (s s' : HttpSession) : Prop :=
  Good s' ∧ (Live s' → shrinks s s' ∧
             ((length (command_read_buffer_ s) < fuel)%nat → has_buffered_input s' = false)).

Lemma live_idle s : Live s → has_buffered_input s && negb (paused_ s) = false → has_buffered_input s = false.
Proof.
  intros HL H. destruct (has_buffered_input s) eqn:E; [| done]. simpl in H. bool_prop.
  rewrite responding_quiet in E; [done |]. by apply (lv_paused s HL).
Qed.

Lemma loops_dead fuel s s1 s' : dead s1 → Good s1 → ext s1 s' → loops fuel s s'.
Proof.
  intros Hd Hg He. split; [by eapply good_ext |]. intros HL. exfalso.
  eapply live_not_dead; [done |]. by eapply dead_ext.
Qed.

Lemma drain_loops fuel loop s :
  (∀ s, ext s (loop s)) → (∀ s, Live s → loops fuel s (loop s)) →
  Live (set_paused false s) → loops fuel s (drain_with loop s).
Proof.
  intros He Hl HL. unfold drain_with. destruct (Hl _ HL) as [[HL' | [Hd Hp]] H].
  - rewrite (co_pending _ (lv_core _ HL')). rewrite bool_decide_eq_false_2 by (intros Hn; by apply Hn).
    rewrite andb_false_r. split; [by left | done].
  - apply (loops_dead fuel s (loop (set_paused false s))); [done | by right |].
    case_match; [by apply ext_same | done].
Qed.

Lemma loops_trans fuel s s1 s' :
  (length (command_read_buffer_ s1) < length (command_read_buffer_ s))%nat →
  loops fuel s1 s' → loops (S fuel) s s'.
Proof.
  unfold loops, shrinks. intros Hlt [Hg H]. split; [done |]. intros HL. destruct (H HL). split; [lia |].
  intros ?. auto with lia.
Qed.

Section Consume.
Context (cfg : Config) (env : Env) (fuel : nat) (dr : HttpSession → HttpSession).
Hypothesis dr_ext : ∀ s, ext s (dr s).
Hypothesis dr_loops : ∀ s, Live (set_paused false s) → loops fuel s (dr s).

Lemma reject_good s s2 :
  Core s → log s2 = log s → (∀ more, ahead (parser s) (command_read_buffer_ s ++ more) = [Reject]) →
  dead (send_error_and_close dr 400 s2) ∧ Good (send_error_and_close dr 400 s2).
Proof.
  intros C Hlog Hu. unfold send_error_and_close. set (s3 := note (Rejected 400) s2).
  assert (dead s3) as Hd by (right; simpl; rewrite verdicts_app; apply elem_of_app; right; left).
  assert (Good s3) as Hg.
  { right. split; [done |]. intros more. simpl. rewrite Hlog, verdicts_app, stream_app. simpl. rewrite app_nil_r.
    rewrite (co_tracks s C), Hu. by rewrite upto_reject_snoc by apply C. }
  pose proof (send_simple_ext dr dr_ext 400 (s! "<h1>" ++ reason_phrase 400 ++ s! "</h1><p>Bad or malicious request.</p>") true s3) as He.
  split; [by eapply dead_ext | by eapply good_ext].
Qed.

(** One unit of a live session, up to the rest of the loop. *)
Lemma unit_good s :
  Live s → has_buffered_input s = true →
  ∃ data rest, extract (parser s) (command_read_buffer_ s) = (data, rest) ∧
  let s' := process_read cfg dr env (set_parser (handle_read data (parser s)) (set_buffer rest s)) in
  (dead s' ∧ Good s') ∨
  (Live s' ∧ (length (command_read_buffer_ s') < length (command_read_buffer_ s))%nat).
Proof.
  intros HL Hin. pose proof (lv_core s HL) as C. pose proof (unit_ok _ _ (co_parser s C) Hin) as Hu.
  unfold unit_spec in Hu. destruct (extract _ _) as [data rest]. exists data, rest. split; [done |].
  destruct Hu as (Hlen & Hst & Hu). set (p' := handle_read data (parser s)) in *.
  set (s2 := set_parser p' (set_buffer rest s)). change p' with (parser s2) in Hst, Hu.
  assert (closed_ s2 = false) as Hc by apply C.
  assert (current_state s ≠ RESPOND ∧ current_state s ≠ CLOSED) as [Hnr Hnc].
  { unfold has_buffered_input, parser_has_input, current_state in *. by destruct (state_ (parser s)). }
  destruct (decided (parser s2)) as [[out q]|] eqn:Ed.
  2:{ destruct Hu as [Hev Hu]. left. simpl. rewrite process_reject; [| done | unfold current_state; by rewrite Hst | done].
      by apply (reject_good s). }
  destruct Hu as [Hq Hu]. destruct (decided_shape _ _ _ Ed) as [-> | [r ->]].
  - destruct (process_step cfg dr env s2 q Hc Ed) as [Hsq ->]. cbv zeta.
    assert (Live (set_paused false (set_parser q s2))) as HL3.
    { split; unfold current_state in *; simpl; rewrite ?(bool_decide_eq_false_2 _ Hsq), ?(decide_False _ _ Hsq); try done.
      - eapply (core_unit s [] q rest C Hq); try done; [apply not_elem_of_nil | apply C | by rewrite app_nil_r].
      - rewrite (lv_exchange s HL). unfold current_state. by rewrite bool_decide_eq_false_2.
      - change (tokens s ≡ₚ []). rewrite (lv_tokens s HL). unfold current_state. by rewrite decide_False. }
    destruct (dr_loops (set_paused false (set_parser q s2)) HL3) as [[HL4 | [Hd Hp]] Hs].
    + right. destruct (Hs HL4) as [Hsh _]. unfold shrinks in Hsh. simpl in Hsh.
      case_match; [split; [done | lia] |]. split; [by apply read_live |].
      unfold do_async_read. repeat case_match; simpl; lia.
    + left. assert (ext (dr (set_paused false (set_parser q s2))) (do_async_read (dr (set_paused false (set_parser q s2))))) as He by auto with http.
      case_match; [split; [done | by right] |]. split; [by eapply dead_ext | eapply good_ext; [done | by right | done]].
  - destruct (process_serve cfg dr env s2 r q Hc Ed) as (Hsq & <- & ->). right.
    assert (Answered (set_paused false (set_parser q s2)) (serve cfg dr env (set_paused false (set_parser q s2)))) as [HA Hb _].
    { apply serve_answered. split; simpl.
      - eapply (core_unit s [Serve (request_ q)] q rest C Hq); try done;
          [by intros ?%list_elem_of_singleton | apply C | simpl; by rewrite verdicts_app | simpl; by rewrite stream_app, app_nil_r].
      - rewrite exchanges_snoc, (lv_exchange s HL). by rewrite bool_decide_eq_false_2.
      - done.
      - change (tokens s ≡ₚ []). rewrite (lv_tokens s HL). by rewrite decide_False. }
    split; [done |]. rewrite Hb. simpl. lia.
Qed.
End Consume.

Lemma consume_loops cfg env fuel s : Live s → loops fuel s (consume cfg env fuel s).
Proof.
  revert s. induction fuel as [| fuel IH]; intros s HL; cbn [consume].
  { split; [by left |]. intros _. split; [unfold shrinks; lia | lia]. }
  destruct (has_buffered_input s && negb (paused_ s)) eqn:Hin.
  2:{ split; [by left |]. intros _. split; [unfold shrinks; lia |]. intros _. by apply live_idle. }
  bool_prop.
  assert (∀ s, ext s (drain_with (consume cfg env fuel) s)) as He.
  { intros s1. unfold drain_with. assert (ext s1 (consume cfg env fuel (set_paused false s1))) by (ext_via consume_ext).
    case_match; [| done]. eapply ext_trans; [done |]. by apply ext_same. }
  destruct (unit_good cfg env fuel (drain_with (consume cfg env fuel)) He) with s as (data & rest & -> & Hu); [| done | done |].
  { intros s1 H1. apply drain_loops; [apply consume_ext | apply IH | done]. }
  cbv zeta in Hu. destruct Hu as [[Hd Hg] | [HL' Hlt]].
  - eapply loops_dead; [done | done | apply consume_ext].
  - by eapply loops_trans, IH.
Qed.

Lemma loop_live cfg env s : Live s → Good (loop cfg env s) ∧ (Live (loop cfg env s) → has_buffered_input (loop cfg env s) = false).
Proof. intros HL. destruct (consume_loops cfg env (S (length (command_read_buffer_ s))) s HL) as [Hg H]. split; [done |]. intros H'. apply H; [done | lia]. Qed.

Lemma drain_live cfg env s :
  Live (set_paused false s) → Good (drain cfg env s) ∧ (Live (drain cfg env s) → has_buffered_input (drain cfg env s) = false).
Proof.
  intros HL. destruct (drain_loops (S (length (command_read_buffer_ s))) (consume cfg env (S (length (command_read_buffer_ s)))) s)
    as [Hg H]; [apply consume_ext | apply consume_loops | done |].
  change (drain_with _ s) with (drain cfg env s) in *. split; [done |]. intros H'. apply H; [done | lia].
Qed.

(** ** Steps *)

(** A response that goes on leaves nothing else under way. *)
Lemma token_taken s s' c :
  Live s → tokens s ≡ₚ c :: tokens s' → parser s' = parser s → command_read_buffer_ s' = command_read_buffer_ s →
  closed_ s' = closed_ s → pending_write_buf_ s' = pending_write_buf_ s → log s' = log s →
  Responding s' ∧ c = Some (must_close (request_ (parser s'))).
Proof.
  intros HL HT H1 H2 H3 H4 H5. pose proof (lv_tokens s HL) as HT'. rewrite HT in HT'. unfold current_state in *.
  destruct (decide (state_ (parser s) = RESPOND)) as [Hs | Hs].
  2:{ by apply Permutation_nil_r in HT'. }
  apply Permutation_singleton_r in HT'. injection HT' as -> Hn. rewrite H1. split; [| done].
  split; unfold current_state; rewrite ?H1, ?H5; try done; [| | by rewrite Hn].
  - apply (core_same s); try done; [by rewrite H5.. | apply HL].
  - rewrite (lv_exchange s HL). unfold current_state. by rewrite bool_decide_eq_true_2.
Qed.

(** At the end of a step nothing complete is left in the buffer of a live session. *)
Definition Inv (s : HttpSession) : Prop := Good s ∧ (Live s → has_buffered_input s = false).

Lemma inv_dead s s' : dead s → Good s → ext s s' → Inv s'.
Proof.
  intros Hd Hg He. split; [by eapply good_ext |]. intros HL. exfalso.
  eapply live_not_dead; [done |]. by eapply dead_ext.
Qed.

Lemma inv_answered s s' : Answered s s' → Inv s'.
Proof. intros []. split; [by left |]. intros _. by apply responding_quiet. Qed.

Lemma inv_close s s' : Core s → closed_ s' = false → log s' = log s → Inv (close s').
Proof.
  intros C H1 H2. split; [by apply (close_keeps_good_core s) |]. intros HL. exfalso. apply (live_not_dead _ HL).
  left. by apply close_spec.
Qed.

Lemma do_async_read_quiet s : has_buffered_input (do_async_read s) = has_buffered_input s.
Proof. unfold do_async_read. by repeat case_match. Qed.

Lemma inv_read s : Inv s → Inv (do_async_read s).
Proof.
  intros [[HL | [Hd Hp]] H].
  - split; [left; by apply read_live |]. intros _. rewrite do_async_read_quiet. auto.
  - apply (inv_dead s); [done | by right | auto with http].
Qed.

Section Steps.
Context (cfg : Config) (env : Env).
#[local] Abbreviation dr := (drain cfg env).

Lemma finish_keeps_inv s : Responding s → Inv (finish_response dr (negb (must_close (request_ (parser s)))) s).
Proof.
  intros [C E S T]. unfold finish_response. pose proof (co_open s C) as Ho.
  destruct (close_requested_ s); [by apply (inv_close s) |].
  destruct (is_open s); simpl; [| by apply (inv_close s)].
  destruct (must_close _) eqn:Em; simpl; [by apply (inv_close s) |].
  set (s1 := note Finished _).
  assert (Live (set_paused false s1)) as HL.
  { split; unfold current_state in *; simpl; try done.
    - split; simpl; try apply C; [by rewrite verdicts_app, app_nil_r; apply C | done |]. intros more.
      rewrite verdicts_app, stream_app. simpl. rewrite !app_nil_r, (co_tracks s C). unfold ahead, mode_of. by rewrite S, Em.
    - by rewrite exchanges_snoc, E. }
  assert (Inv (dr s1)) as HI by by apply drain_live.
  case_match; [by apply inv_read | done].
Qed.

Lemma download_inv src off s : Responding s → Inv (download_task dr env src off (must_close (request_ (parser s))) s).
Proof.
  intros HR. pose proof (re_core s HR) as C. pose proof (co_open s C).
  unfold download_task. repeat case_match; try (by apply (inv_close s)).
  eapply inv_answered. by apply write_answered.
Qed.

Lemma jobs_answered j s :
  Responding s → job_flag j = must_close (request_ (parser s)) → Answered s (set_jobs (jobs s ++ [j]) s).
Proof.
  intros HR Hj. apply answered_intro; try done; [apply HR |].
  unfold tokens. simpl. rewrite fmap_app. simpl. rewrite Hj.
  rewrite <- !(assoc_L (++)). simpl. rewrite !(assoc_L (++)). symmetry. apply Permutation_middle.
Qed.

Lemma cont_inv k s :
  Responding s → cont_flag k = Some (must_close (request_ (parser s))) → Inv (run_cont cfg dr env k s).
Proof.
  intros HR Hk. destruct k as [| c | path pos rem c | path len c | src off c]; simpl in *; [done | ..];
    injection Hk as ->.
  - by apply finish_keeps_inv.
  - unfold stream_file_body. repeat case_match; try (by apply finish_keeps_inv).
    eapply inv_answered. by apply write_answered.
  - case_match; eapply inv_answered; [apply jobs_answered; [done |]; simpl; by rewrite negb_involutive | by apply simple_answered].
  - unfold stream_download. repeat case_match; [by apply finish_keeps_inv | | by apply download_inv].
    eapply inv_answered. by apply jobs_answered.
Qed.
End Steps.

Lemma tokens_posted t ts s : posted s = t :: ts → tokens s = option_list (task_flag t) ++ tokens (set_posted ts s).
Proof. intros H. unfold tokens. rewrite H. simpl. by destruct (task_flag t). Qed.

Lemma tokens_write i w s :
  writes s !! i = Some w → tokens s ≡ₚ option_list (cont_flag <$> w) ++ tokens (set_writes (delete i (writes s)) s).
Proof.
  intros H. unfold tokens. simpl.
  assert (omap (fmap cont_flag) (writes s) ≡ₚ option_list (cont_flag <$> w) ++ omap (fmap cont_flag) (delete i (writes s))) as ->.
  { rewrite (delete_Permutation _ _ _ H) at 1. by destruct w. }
  destruct w; simpl; [| done]. symmetry. apply Permutation_middle.
Qed.

Lemma tokens_job i j s :
  jobs s !! i = Some j → tokens s ≡ₚ Some (job_flag j) :: tokens (set_jobs (delete i (jobs s)) s).
Proof.
  intros H. unfold tokens. simpl. rewrite (delete_Permutation _ _ _ H) at 1. simpl.
  by rewrite <- !Permutation_middle.
Qed.

Lemma tokens_claim i c s :
  claims s !! i = Some c → tokens s ≡ₚ Some c :: tokens (set_claims (delete i (claims s)) s).
Proof.
  intros H. unfold tokens. simpl. rewrite (delete_Permutation _ _ _ H) at 1. simpl.
  by rewrite <- !Permutation_middle.
Qed.

Lemma read_done_ext cfg env data s : closed_ s = false → ext s (read_done cfg env data s).
Proof.
  intros Hc. unfold read_done. destruct data as [| b data]; [auto with http |].
  set (s1 := note _ _). assert (ext s s1) as H1 by (apply ext_open; [done | by eexists]).
  eapply ext_trans; [done |].
  assert (ext s1 (loop cfg env s1)) as H2 by apply consume_ext.
  repeat case_match; auto with http. eapply ext_trans; [done | auto with http].
Qed.

Lemma step_ext cfg env ev s : ext s (step cfg env ev s).
Proof.
  assert (∀ s, ext s (drain cfg env s)) as Hd by apply drain_ext.
  destruct ev as [| | data | i ok | i calls | i r |]; simpl.
  - destruct (posted s) as [| t ts]; [done |]. destruct t; simpl; repeat case_match; try (by apply ext_same);
      try (eapply ext_trans; [| by apply ext_note]; by apply ext_same). ext_via (finish_ext _ Hd).
  - case_match; [done |]. case_match; [by apply ext_same | ext_via close_ext].
  - case_match; [done |]. case_match; [by apply ext_same |]. case_match; [ext_via close_ext |].
    eapply ext_from; [| | by apply read_done_ext]; done.
  - case_match; [| done]. case_match; [| by apply ext_same]. case_match; [by apply ext_same |].
    case_match; [| ext_via close_ext]. eapply ext_from; [| | by apply run_cont_ext]; done.
  - repeat case_match; try done; [| eapply ext_from; [| | by apply download_ext]; done].
    eapply ext_trans; [| by apply ext_same]. eapply ext_trans; [| by apply ext_note]. by apply ext_same.
  - repeat case_match; try done. eapply ext_from; [| | by apply send_response_ext]; done.
  - case_match; [done | by apply ext_same].
Qed.

Section StepInv.
Context (cfg : Config) (env : Env).

Lemma inv_same s s' :
  parser s' = parser s → command_read_buffer_ s' = command_read_buffer_ s → closed_ s' = closed_ s →
  pending_write_buf_ s' = pending_write_buf_ s → log s' = log s → paused_ s' = paused_ s →
  tokens s' ≡ₚ tokens s → Live s → has_buffered_input s = false → Inv s'.
Proof.
  intros H1 H2 H3 H4 H5 H6 H7 HL Hq. split; [left; by apply (live_same s) |]. intros _.
  unfold has_buffered_input in *. by rewrite H1, H2.
Qed.

(** What was sent belongs to the exchange under way, which [t] goes on with. *)
Lemma sent_answered data s s' :
  Responding s → parser s' = parser s → command_read_buffer_ s' = command_read_buffer_ s →
  closed_ s' = closed_ s → pending_write_buf_ s' = [] → log s' = log s ++ [Sent data] →
  tokens s' ≡ₚ Some (must_close (request_ (parser s))) :: tokens s → Inv s'.
Proof.
  intros HR H1 H2 H3 H4 H5 H6. pose proof (re_core s HR) as C.
  assert (Responding (note (Sent data) s)) as HR'.
  { destruct HR as [_ E S T]. split; try done; [| simpl; by rewrite exchanges_snoc, E].
    apply (core_same s); simpl; try done; [by rewrite verdicts_app, app_nil_r | by rewrite stream_app; simpl; rewrite app_nil_r]. }
  apply (inv_answered (note (Sent data) s)). by apply answered_intro.
Qed.

Lemma task_inv t ts s :
  posted s = t :: ts → Live s → has_buffered_input s = false → Inv (run_task cfg env t (set_posted ts s)).
Proof.
  intros Hp HL Hq. pose proof (tokens_posted _ _ _ Hp) as HT. pose proof (co_open s (lv_core s HL)) as Hc.
  destruct t as [| payload k | payload | | keep]; simpl in *; rewrite ?Hc.
  - case_match; (apply (inv_same s); try done; by rewrite HT).
  - destruct (token_taken s (set_posted ts s) (cont_flag k) HL) as [HR Hk]; [by rewrite HT | done.. |].
    apply (sent_answered payload (set_posted ts s)); [done | done | done | done | apply (co_pending s), HL | done |].
    unfold tokens. simpl. rewrite omap_app. simpl. rewrite Hk, <- (assoc_L (++)). simpl.
    by rewrite <- !Permutation_middle.
  - exfalso. destruct (token_taken s (set_posted ts s) None HL) as [_ ?]; [by rewrite HT | done..].
  - apply (inv_same s); try done. by rewrite HT.
  - destruct (token_taken s (set_posted ts s) (Some (negb keep)) HL) as [HR [= Hk]]; [by rewrite HT | done.. |].
    rewrite <- (negb_involutive keep), Hk. by apply (finish_keeps_inv cfg env (set_posted ts s)).
Qed.

Lemma read_done_inv data s :
  Live s → has_buffered_input s = false → Inv (read_done cfg env data s).
Proof.
  intros HL Hq. pose proof (lv_core s HL) as C. unfold read_done. destruct data as [| b data].
  { apply inv_read. split; [by left | done]. }
  set (d := b :: data). set (s1 := note _ _).
  assert (Live s1) as HL1.
  { split; simpl; [| by rewrite exchanges_snoc, (lv_exchange s HL) | apply HL | apply HL].
    split; simpl; try apply C; [by rewrite verdicts_app, app_nil_r; apply C |]. intros more.
    rewrite verdicts_app, stream_app, app_nil_r, <- !(assoc_L (++)). simpl.
    by rewrite app_nil_r, (co_tracks s C). }
  destruct (_ >? _); [by apply (inv_close s1); [apply HL1 | apply C |] |].
  assert (Inv (loop cfg env s1)) as HI by by apply loop_live.
  case_match; [by apply inv_read | done].
Qed.

Lemma write_done_inv i ok s :
  Live s → has_buffered_input s = false → Inv (step cfg env (WriteDone i ok) s).
Proof.
  intros HL Hq. pose proof (lv_core s HL) as C. pose proof (co_open s C) as Hc. simpl.
  destruct (writes s !! i) as [[k|]|] eqn:Ei; [| | by split; [left |]]; pose proof (tokens_write _ _ _ Ei) as HT; simpl in HT.
  - rewrite Hc. destruct ok; [| by apply (inv_close s)].
    destruct (token_taken s (set_writes (delete i (writes s)) s) (cont_flag k) HL) as [HR Hk]; [done.. |].
    by apply cont_inv.
  - by apply (inv_same s).
Qed.

Lemma job_done_inv i calls s :
  Live s → has_buffered_input s = false → Inv (step cfg env (JobDone i calls) s).
Proof.
  intros HL Hq. simpl. destruct (jobs s !! i) as [j|] eqn:Ei; [| by split; [left |]].
  destruct (token_taken s (set_jobs (delete i (jobs s)) s) (Some (job_flag j)) HL) as [HR [= Hk]];
    [by apply tokens_job | done.. |].
  destruct j as [path len keep | src off c]; simpl in Hk.
  - eapply sent_answered; [apply HR | done | done | done | apply (co_pending s), HL | done |].
    rewrite tokens_post. simpl. by rewrite Hk.
  - rewrite Hk. by apply (download_inv cfg env _ _ (set_jobs (delete i (jobs s)) s)).
Qed.

Lemma step_keeps_inv ev s : Inv s → Inv (step cfg env ev s).
Proof.
  intros [[HL | [Hd Hp]] Hq].
  2:{ apply (inv_dead s); [done | by right | apply step_ext]. }
  specialize (Hq HL). pose proof (lv_core s HL) as C. pose proof (co_open s C) as Hc.
  destruct ev as [| | data | i ok | i calls | i r |].
  - simpl. destruct (posted s) as [| t ts] eqn:Ep; [by split; [left |] |]. by apply task_inv.
  - simpl. destruct (reading s); [| by split; [left |]]. simpl. rewrite Hc. by apply (inv_close s).
  - simpl. destruct (reading s); [| by split; [left |]]. simpl. rewrite Hc.
    case_match; [by apply (inv_close s) |]. apply read_done_inv; [by apply (live_same s) | done].
  - by apply write_done_inv.
  - by apply job_done_inv.
  - simpl. destruct (claims s !! i) as [c|] eqn:Ei; [| by split; [left |]].
    destruct (token_taken s (set_claims (delete i (claims s)) s) (Some c) HL) as [HR [= Hk]];
      [by apply tokens_claim | done.. |].
    rewrite Hk. eapply inv_answered. by apply (response_answered _ _ (set_claims (delete i (claims s)) s)).
  - simpl. rewrite Hc. by apply (inv_same s).
Qed.
End StepInv.

Lemma start_inv : Inv start.
Proof.
  split; [left | done]. split; try done. split; try done. apply not_elem_of_nil.
Qed.

Lemma run_inv cfg evs : Inv (run cfg evs start).
Proof.
  unfold run. pose proof start_inv as H. revert H. generalize start.
  induction evs as [| [env ev] evs IH]; intros s H; simpl; [done |]. by apply IH, step_keeps_inv.
Qed.

Lemma runs_good cfg evs : Good (run cfg evs start).
Proof. apply run_inv. Qed.

(** A session that was neither closed nor rejected anything is live. *)
Lemma run_live cfg evs :
  closed_ (run cfg evs start) = false → Reject ∉ verdicts (log (run cfg evs start)) → Live (run cfg evs start).
Proof. intros Hc Hr. destruct (runs_good cfg evs) as [? | [[H | H] _]]; [done | by rewrite Hc in H | done]. Qed.

Lemma run_prefix cfg evs : Prefix (run cfg evs start).
Proof. destruct (runs_good cfg evs) as [HL | [_ Hp]]; [apply core_prefix, HL | done]. Qed.

Lemma run_complete cfg evs :
  closed_ (run cfg evs start) = false → Reject ∉ verdicts (log (run cfg evs start)) →
  current_state (run cfg evs start) ≠ RESPOND →
  verdicts (log (run cfg evs start)) = scan_all MLine (received (log (run cfg evs start))).
Proof.
  intros Hc Hr Hs. pose proof (run_live _ _ Hc Hr) as HL. pose proof (lv_core _ HL) as C.
  rewrite <- (app_nil_r (received _)), (co_tracks _ C), app_nil_r.
  rewrite ahead_idle, app_nil_r; [done | apply C | done |]. by apply (proj2 (run_inv cfg evs)).
Qed.

(** ** Properties *)

(** C19: The requests a session serves are those of the byte stream it received.
    Whatever way the stream is cut into reads, and however reads, writes, API
    answers, downloads and timeouts interleave: up to the first rejection the
    decisions of the session are, in order, those of the reference on the whole
    stream, also if more bytes were to come; and when no response is under way,
    none of the requests in the stream has been left out. *)
Theorem served_as_parsed (cfg : Config) (evs : list (Env * Event)) :
  (∀ more, upto_reject (verdicts (log (run cfg evs start)))
             `prefix_of` scan_all MLine (received (log (run cfg evs start)) ++ more)) ∧
  (closed_ (run cfg evs start) = false → Reject ∉ verdicts (log (run cfg evs start)) →
   current_state (run cfg evs start) ≠ RESPOND →
   verdicts (log (run cfg evs start)) = scan_all MLine (received (log (run cfg evs start)))).
Proof.
  split; [apply run_prefix | apply run_complete].
Qed.

(** C21: Responses follow one another. While a session is neither closed nor has
    rejected a request, what happened to it is a sequence of exchanges: one
    request, the bytes sent for it, the end of the response; nothing is sent
    outside an exchange, and no request is served before the response to the one
    before it is complete. While a response is under way exactly one operation will
    go on with it, and it knows whether the connection is to be closed after it. *)
Theorem one_exchange_at_a_time (cfg : Config) (evs : list (Env * Event)) :
  closed_ (run cfg evs start) = false → Reject ∉ verdicts (log (run cfg evs start)) →
  exchanges (log (run cfg evs start)) = Some (bool_decide (current_state (run cfg evs start) = RESPOND)) ∧
  Permutation (tokens (run cfg evs start))
    (if decide (current_state (run cfg evs start) = RESPOND)
     then [Some (must_close (request_ (parser (run cfg evs start))))] else []).
Proof. intros Hc Hr. pose proof (run_live _ _ Hc Hr) as HL. split; apply HL. Qed.

Lemma one_exchange_at_a_time_witness :
  let evs := (λ ev, (sample_env 5 (s! "hello"), ev)) <$> [RunTask; ReadDone sample_get; RunTask; RunTask; RunTask] in
  current_state (run sample_config evs start) = RESPOND ∧
  exchanges (log (run sample_config evs start)) = Some true ∧
  Permutation (tokens (run sample_config evs start)) [Some false].
Proof.
  intros evs. split; [vm_compute; reflexivity |].
  assert (closed_ (run sample_config evs start) = false) as Hc by (vm_compute; reflexivity).
  assert (Reject ∉ verdicts (log (run sample_config evs start))) as Hr.
  { intros H. vm_compute in H. apply list_elem_of_singleton in H. discriminate H. }
  pose proof (one_exchange_at_a_time sample_config evs Hc Hr) as H. vm_compute in H. vm_compute. exact H.
Defined.
