(* ===== verification/HttpExchange.v ===== *)
(** * What a client gets over an HTTP/1.1 connection

    About [HttpSession]: requests written by a client arrive as they were written,
    one after another on the same connection ([pipelined_requests_served]); a
    static file is sent whole, with its length ([static_file_exact]); and the runs
    in which the session departs from its comments or from the protocol. *)

From S2P Require Import Prelude CString FsmEngine HttpParser HttpSession HttpSessionSafety.

(** ** Requests as a client writes them *)

Record ClientRequest := mkClient {
  cl_method : bytes;
  cl_path : bytes;
  cl_query : option bytes;
  cl_headers : list (bytes * bytes);
  cl_body : bytes;
}.

Definition QUESTION : Z := 63.
Definition COLON : Z := 58.

Definition cl_target (r : ClientRequest) : bytes :=
  cl_path r ++ match cl_query r with None => [] | Some q => QUESTION :: q end.

(** The length of the body is announced when there is one. *)
Definition all_headers (r : ClientRequest) : list (bytes * bytes) :=
  cl_headers r ++ match cl_body r with [] => [] | _ => [(s! "content-length", to_string (size (cl_body r)))] end.

Definition header_line (h : bytes * bytes) : bytes := h.1 ++ [COLON; SP] ++ h.2.
Definition request_line (r : ClientRequest) : bytes :=
  cl_method r ++ [SP] ++ cl_target r ++ [SP] ++ s! "HTTP/1.1".

Definition encode_request (r : ClientRequest) : bytes :=
  (request_line r ++ CRLF) ++ concat ((λ h, header_line h ++ CRLF) <$> all_headers r) ++ CRLF ++ cl_body r.

(** A header as it is looked up: the name in lower case, no blanks around. *)
Definition field_name (h : bytes * bytes) : bytes := to_lower (trim h.1).

Definition add_header (rq : HttpRequest) (h : bytes * bytes) : HttpRequest :=
  mkReq (rq_method rq) (rq_raw_target rq) (rq_path rq) (rq_query rq) (rq_version rq)
    (<[field_name h := trim h.2]> (rq_headers rq)).

(** The request a server has to see. *)
Definition as_request (r : ClientRequest) : Request :=
  mkRequest
    (foldl add_header
       (mkReq (cl_method r) (cl_target r) (cl_path r) (default [] (cl_query r)) (s! "HTTP/1.1") ∅)
       (all_headers r))
    (cl_body r).

(** A header line the client may write: any case, blanks around name and value;
    the framing headers are the client's own. *)
Definition header_ok (h : bytes * bytes) : Prop :=
  field_name h ≠ [] ∧ COLON ∉ h.1 ∧ LF ∉ h.1 ∧ LF ∉ h.2 ∧
  field_name h ≠ s! "content-length" ∧ field_name h ≠ s! "transfer-encoding".

Definition client_ok (r : ClientRequest) : Prop :=
  Forall (λ c, isspace c = false) (cl_method r) ∧
  head (cl_path r) = Some SLASH ∧ Forall (λ c, c ≠ SP ∧ c ≠ LF ∧ c ≠ QUESTION) (cl_path r) ∧
  Forall (λ c, c ≠ SP ∧ c ≠ LF) (default [] (cl_query r)) ∧
  Forall header_ok (cl_headers r) ∧
  size (cl_body r) < 2 ^ 64.

(** What a server has to do with them: serve one after another up to the first
    that is too large, which is refused, or that asks for the connection to be
    closed. *)
Fixpoint expected (rs : list ClientRequest) : list Verdict :=
  match rs with
  | [] => []
  | r :: rs =>
      if size (cl_body r) >? kMaxRequestBody then [Reject] else
      Serve (as_request r) :: (if must_close (as_request r) then [] else expected rs)
  end.

(** ** The reference reads them back *)

Lemma line_of_line l rest : LF ∉ l → line_of (l ++ CRLF ++ rest) = Some (l, rest).
Proof.
  intros Hl. unfold line_of, has_line, take_line.
  assert (find_char LF (l ++ CRLF ++ rest) = Some (length l + 1)%nat) as ->.
  { replace (l ++ CRLF ++ rest) with ((l ++ [CR]) ++ LF :: rest) by by rewrite <- (assoc_L (++)).
    rewrite find_char_app_l; [by rewrite length_app |].
    rewrite elem_of_app, list_elem_of_singleton. by intros [? | ?]. }
  replace (l ++ CRLF ++ rest) with ((l ++ [CR]) ++ [LF] ++ rest) by by rewrite <- (assoc_L (++)).
  rewrite take_app_length', (drop_app_ge _ _ (length l + 1 + 1)) by (rewrite length_app; simpl; lia).
  rewrite length_app. simpl. replace (length l + 1 + 1 - (length l + 1))%nat with 1%nat by lia. simpl.
  unfold strip_cr. rewrite last_snoc, Z.eqb_refl, length_app. simpl.
  by rewrite Nat.add_sub, take_app_length, drop_0.
Qed.

Lemma not_in_forall (P : Z → Prop) c l : Forall P l → ¬ P c → c ∉ l.
Proof. intros H Hc Hin. rewrite Forall_forall in H. by apply Hc, H, list_elem_of_In. Qed.

Lemma space_free l : Forall (λ c, isspace c = false) l → SP ∉ l ∧ LF ∉ l ∧ existsb isspace l = false.
Proof.
  intros H. split_and!; [by eapply not_in_forall.. |]. induction H as [| c l Hc _ IH]; simpl; [done |]. by rewrite Hc.
Qed.

Lemma drop_past (l1 l2 : bytes) c n : n = (length l1 + 1)%nat → drop n (l1 ++ c :: l2) = l2.
Proof. intros ->. by rewrite <- drop_drop, drop_app_length. Qed.

(** The three fields of a request line. *)
Lemma request_fields m t v :
  SP ∉ m → SP ∉ t →
  let line := m ++ SP :: t ++ SP :: v in
  find_char SP line = Some (length m) ∧ take (length m) line = m ∧
  find_char_from SP line (length m + 1) = Some (length m + 1 + length t)%nat ∧
  slice line (length m + 1) (length m + 1 + length t - length m - 1) = t ∧
  drop (length m + 1 + length t + 1) line = v.
Proof.
  intros Hm Ht. cbv zeta. unfold find_char_from, slice.
  assert (∀ k, drop (length m + 1 + k) (m ++ SP :: t ++ SP :: v) = drop k (t ++ SP :: v)) as Hd.
  { intros k. by rewrite <- drop_drop, drop_past. }
  rewrite (drop_past m) by done. rewrite <- (Nat.add_assoc (length m + 1) (length t) 1), Hd, !find_char_app_l by done.
  replace (length m + 1 + length t - length m - 1)%nat with (length t) by lia.
  rewrite !take_app_length, drop_past by done. done.
Qed.

Lemma target_split r :
  QUESTION ∉ cl_path r →
  match find_char 63 (cl_target r) with
  | None => (cl_target r, [])
  | Some q => (take q (cl_target r), drop (q + 1) (cl_target r))
  end = (cl_path r, default [] (cl_query r)).
Proof.
  intros Hp. unfold cl_target. destruct (cl_query r) as [q|]; simpl.
  - rewrite find_char_app_l by done. by rewrite take_app_length, drop_past.
  - rewrite app_nil_r. apply find_char_None in Hp. change QUESTION with 63 in Hp. by rewrite Hp.
Qed.

Lemma parse_request_line_client r :
  client_ok r → parse_request_line (request_line r) empty_request =
    Some (mkReq (cl_method r) (cl_target r) (cl_path r) (default [] (cl_query r)) (s! "HTTP/1.1") ∅).
Proof.
  intros (Hm & Hp & Hpath & Hq & _). destruct (space_free _ Hm) as (Hsp & _ & Hex).
  assert (SP ∉ cl_target r) as Ht.
  { unfold cl_target. rewrite elem_of_app. intros [H | H].
    - eapply (not_in_forall _ _ _ Hpath); [| done]. by intros [? _].
    - destruct (cl_query r) as [q|]; [| by apply elem_of_nil in H]. simpl in Hq.
      apply elem_of_cons in H as [H | H]; [done |]. eapply (not_in_forall _ _ _ Hq); [| done]. by intros [? _]. }
  assert (QUESTION ∉ cl_path r) as Hqm by (eapply (not_in_forall _ _ _ Hpath); by intros (_ & _ & ?)).
  destruct (request_fields (cl_method r) (cl_target r) (s! "HTTP/1.1") Hsp Ht) as (E1 & E2 & E3 & E4 & E5).
  unfold parse_request_line, request_line. simpl ([SP] ++ _).
  rewrite E1, E3, E2, E4, E5, Hex, target_split by done.
  rewrite bool_decide_eq_true_2 by done. simpl.
  unfold cl_target. destruct (cl_path r) as [| c path]; [done |]. injection Hp as ->. done.
Qed.

Lemma drop_while_keep s : Forall (λ c, isspace c = false) s → drop_while isspace s = s.
Proof. intros H. destruct H as [| c s Hc _]; [done |]. by apply drop_while_id. Qed.

Lemma trim_keep s : Forall (λ c, isspace c = false) s → trim s = s.
Proof.
  intros H. unfold trim, drop_while_end. rewrite (drop_while_keep s) by done.
  rewrite drop_while_keep, reverse_involutive; [done |]. by apply Forall_reverse.
Qed.

Lemma parse_header_line_client h rq :
  field_name h ≠ [] → COLON ∉ h.1 → parse_header_line (header_line h) rq = Some (add_header rq h).
Proof.
  destruct h as [name value]. unfold field_name. simpl. intros Hne Hc.
  unfold parse_header_line, header_line. simpl. change 58 with COLON. rewrite find_char_app_l by done.
  rewrite take_app_length, drop_past by done. change (trim (SP :: value)) with (trim value).
  destruct name as [| c name]; [done |]. cbn [length]. by destruct (to_lower (trim (c :: name))) eqn:E; unfold add_header, field_name; simpl; rewrite ?E.
Qed.

(** The framing a client announces. *)
Lemma headers_fold hs rq : rq_headers (foldl add_header rq hs) = foldl (λ m h, <[field_name h := trim h.2]> m) (rq_headers rq) hs.
Proof. revert rq. induction hs as [| h hs IH]; intros rq; simpl; [done |]. by rewrite IH. Qed.

Lemma lookup_headers (hs : list (bytes * bytes)) (m : gmap bytes bytes) k :
  Forall (λ h, field_name h ≠ k) hs → foldl (λ m h, <[field_name h := trim h.2]> m) m hs !! k = m !! k.
Proof.
  intros H. revert m. induction H as [| h hs Hh _ IH]; intros m; simpl; [done |]. rewrite IH. by apply lookup_insert_ne.
Qed.

Lemma trim_number n : 0 ≤ n → trim (to_string n) = to_string n ∧ LF ∉ to_string n.
Proof.
  intros Hn. pose proof (to_string_digits n Hn) as Hd.
  assert (Forall (λ c, isspace c = false) (to_string n)) as Hs.
  { eapply List.Forall_impl; [| exact Hd]. intros c Hc. unfold isdigit, isspace in *. bool_prop. lia. }
  split; [by apply trim_keep | by apply space_free].
Qed.

Lemma client_framing r :
  client_ok r → determine_body_framing (r_head (as_request r)) =
    Some (mkFraming false (size (cl_body r)) (negb (size (cl_body r) =? 0))).
Proof.
  intros (_ & _ & _ & _ & Hh & Hsz). unfold determine_body_framing, find_header, as_request. simpl.
  rewrite headers_fold. unfold all_headers. rewrite foldl_app. simpl.
  set (m := foldl _ _ (cl_headers r)).
  assert (∀ k, k = s! "content-length" ∨ k = s! "transfer-encoding" → m !! k = None) as Hm.
  { intros k Hk. unfold m. rewrite lookup_headers; [done |].
    eapply List.Forall_impl; [| exact Hh]. intros h (_ & _ & _ & _ & ? & ?). destruct Hk as [-> | ->]; done. }
  destruct (cl_body r) as [| b body] eqn:Eb; simpl; [by rewrite !Hm by auto |].
  change (field_name (s! "content-length", _)) with (s! "content-length").
  rewrite lookup_insert_ne, Hm by auto. rewrite lookup_insert, decide_True by done.
  rewrite <- Eb in *. pose proof (size_pos (cl_body r)) as Hp. rewrite (proj1 (trim_number _ Hp)).
  destruct (to_string (size (cl_body r))) as [| d ds] eqn:Ed; [by apply to_string_not_nil in Ed |].
  pose proof (to_string_digits (size (cl_body r)) Hp) as Hd. pose proof (to_string_value (size (cl_body r)) Hp) as Hv.
  rewrite Ed in Hd, Hv. rewrite content_length_loop_complete; [rewrite Hv; simpl | lia | done |].
  - assert (size (cl_body r) ≠ 0) as Hn by by rewrite Eb.
    by apply Z.eqb_neq in Hn as ->.
  - rewrite Hv. lia.
Qed.

Definition line_ok (h : bytes * bytes) : Prop := field_name h ≠ [] ∧ COLON ∉ h.1 ∧ LF ∉ h.1 ∧ LF ∉ h.2.

Lemma scan_headers hs rq rest :
  Forall line_ok hs →
  scan_all (MHeader rq) (concat ((λ h, header_line h ++ CRLF) <$> hs) ++ rest) =
    scan_all (MHeader (foldl add_header rq hs)) rest.
Proof.
  intros H. revert rq. induction H as [| h hs (Hne & Hcol & Hn & Hlf) _ IH]; intros rq; [done |].
  rewrite fmap_cons. cbn [concat foldl]. rewrite <- !(assoc_L (++)), (scan_all_eq (MHeader rq)). cbn [element].
  assert (LF ∉ header_line h) as Hl.
  { unfold header_line. rewrite !elem_of_app, !elem_of_cons, elem_of_nil. by intuition. }
  rewrite line_of_line by done. cbn [mbind option_bind].
  destruct (header_line h) as [| c l] eqn:E; [unfold header_line in E; by destruct (h.1) |].
  rewrite <- E, parse_header_line_client by done. apply IH.
Qed.

Lemma all_lines_ok r : client_ok r → Forall line_ok (all_headers r).
Proof.
  intros (_ & _ & _ & _ & Hh & _). unfold all_headers. apply Forall_app.
  split; [eapply List.Forall_impl; [| exact Hh]; by intros h (? & ? & ? & ? & _) |].
  destruct (cl_body r) as [| b body] eqn:Eb; [done |]. apply Forall_singleton. rewrite <- Eb.
  split_and!; [done | | | by apply trim_number, size_pos].
  all: cbn [fst]; apply (bool_decide_eq_false_1 (_ ∈ _)); vm_compute; reflexivity.
Qed.

(** What the reference makes of one request and the bytes after it. *)
Lemma scan_client r rest :
  client_ok r →
  scan_all MLine (encode_request r ++ rest) =
    if size (cl_body r) >? kMaxRequestBody then [Reject] else
    Serve (as_request r) :: (if must_close (as_request r) then [] else scan_all MLine rest).
Proof.
  intros Hok. pose proof Hok as (Hm & Hp & Hpath & Hq & Hh & Hsz). unfold encode_request. rewrite <- !(assoc_L (++)), scan_all_eq.
  assert (LF ∉ request_line r) as Hl.
  { destruct (space_free _ Hm) as (_ & ? & _). unfold request_line, cl_target. rewrite !elem_of_app, !list_elem_of_singleton.
    assert (LF ∉ cl_path r) by (eapply (not_in_forall _ _ _ Hpath); by intros (_ & ? & _)).
    assert (LF ∉ s! "HTTP/1.1") by (apply (not_in_forall (λ c, c ≠ LF)); [by repeat constructor | by intros ?]).
    assert (LF ∉ match cl_query r with None => [] | Some q => QUESTION :: q end).
    { destruct (cl_query r) as [q|]; [| apply not_elem_of_nil]. simpl in Hq. apply not_elem_of_cons. split; [done |].
      eapply (not_in_forall _ _ _ Hq); by intros (_ & ?). }
    by intuition. }
  cbn [element]. rewrite line_of_line by done. cbn [mbind option_bind]. rewrite parse_request_line_client by done.
  unfold go. cbn [app]. rewrite scan_headers by by apply all_lines_ok.
  rewrite scan_all_eq. cbn [element].
  change (line_of _) with (line_of ([] ++ CRLF ++ cl_body r ++ rest)). rewrite line_of_line by apply not_elem_of_nil. cbn [mbind option_bind].
  unfold after_head. rewrite (client_framing r Hok : determine_body_framing (foldl _ _ _) = _).
  cbn [fr_has_body fr_chunked fr_length]. pose proof (size_pos (cl_body r)). pose proof (size_pos rest).
  destruct (Z.eqb_spec (size (cl_body r)) 0) as [E0 | E0]; cbn [negb].
  - assert (cl_body r = []) as Eb by (unfold size in E0; destruct (cl_body r); [done | simpl in E0; lia]).
    rewrite E0. simpl (_ >? _). unfold request_done, as_request. rewrite Eb. by destruct (must_close _).
  - unfold go. cbn [app]. rewrite scan_all_eq. cbn [element r_body].
    rewrite size_app, Z.min_r by lia. change (size []) with 0. rewrite Z.add_0_l.
    destruct (size (cl_body r) >? kMaxRequestBody); [done |].
    replace (0 <? size (cl_body r)) with true by lia.
    replace (size (cl_body r) <=? size (cl_body r) + size rest) with true by lia. cbn [andb].
    destruct (take_n_all (size (cl_body r)) (cl_body r) rest) as [-> ->]; [lia |].
    assert (take_n (size (cl_body r)) (cl_body r) = cl_body r ∧ drop_n (size (cl_body r)) (cl_body r) = []) as [-> ->].
    { unfold take_n, drop_n, size. rewrite Z.min_id, Nat2Z.id. by rewrite firstn_all, drop_all. }
    unfold request_done, add_body. simpl. by destruct (must_close _).
Qed.

Lemma scan_clients rs : Forall client_ok rs → scan_all MLine (concat (encode_request <$> rs)) = expected rs.
Proof.
  induction 1 as [| r rs Hr _ IH]; [done |]. rewrite fmap_cons. cbn [concat expected].
  rewrite scan_client by done. by rewrite IH.
Qed.

Lemma expected_clean rs : Forall (λ r, size (cl_body r) ≤ kMaxRequestBody) rs → Reject ∉ expected rs.
Proof.
  induction 1 as [| r rs Hr _ IH]; [apply not_elem_of_nil |]. simpl. replace (_ >? _) with false by lia.
  apply not_elem_of_cons. split; [done |]. destruct (must_close _); [apply not_elem_of_nil | done].
Qed.

(** C20: A client that writes HTTP/1.1 requests one after another over one
    connection is understood.  The requests have any method and headers (in any
    case and with blanks around them, none of them a framing header), a path with
    or without query, and a body announced by its Content-Length; however the
    bytes are cut into reads and whatever else happens in between, the session
    serves these requests, with their headers and bodies, in order: up to and
    including the first that asks for the connection to be closed, or up to the
    first whose body is over 8 MiB, which is refused.  When it is open, has refused
    none and no response is under way, it has served all of these.  It refuses
    none when no body is over the limit. *)
Theorem pipelined_requests_served (cfg : Config) (evs : list (Env * Event)) (rs : list ClientRequest) :
  Forall client_ok rs → received (log (run cfg evs start)) = concat (encode_request <$> rs) →
  upto_reject (verdicts (log (run cfg evs start))) `prefix_of` expected rs ∧
  (closed_ (run cfg evs start) = false → Reject ∉ verdicts (log (run cfg evs start)) →
   current_state (run cfg evs start) ≠ RESPOND → verdicts (log (run cfg evs start)) = expected rs) ∧
  (Forall (λ r, size (cl_body r) ≤ kMaxRequestBody) rs → Reject ∉ verdicts (log (run cfg evs start))).
Proof.
  intros Hok Hrec. pose proof (scan_clients rs Hok) as Hs. rewrite <- Hrec in Hs.
  pose proof (run_prefix cfg evs []) as Hp. rewrite (app_nil_r (received _)), Hs in Hp.
  split; [done |]. split; [intros Hc Hr Hst; by rewrite (run_complete cfg evs Hc Hr Hst) |].
  intros Hsz Hin. apply upto_reject_elem in Hin. destruct Hp as [l Hl]. apply (expected_clean rs Hsz).
  rewrite Hl. apply elem_of_app. by left.
Qed.

(** ** Static files *)

(** Nothing else is under way, and no input waits. *)
Record Idle (s : HttpSession) : Prop := {
  id_open : closed_ s = false;
  id_state : current_state s = RESPOND;
  id_pending : pending_write_buf_ s = [];
  id_posted : posted s = [];
  id_writes : writes s = [];
  id_buffer : command_read_buffer_ s = [];
  id_connected : is_open s = true;
  id_no_timeout : close_requested_ s = false;
}.

(** [n] writes, each handed to the connection and finished. *)
Definition written (env : Env) (n : nat) : list (Env * Event) :=
  concat (replicate n [(env, RunTask); (env, WriteDone 0 true)]).

Lemma written_S env n : written env (S n) = [(env, RunTask); (env, WriteDone 0 true)] ++ written env n.
Proof. done. Qed.

Lemma run_app cfg evs1 evs2 s : run cfg (evs1 ++ evs2) s = run cfg evs2 (run cfg evs1 s).
Proof. apply foldl_app. Qed.

Lemma one_write cfg env dr data k s :
  Idle s → run cfg (written env 1) (do_async_write dr data k s) = run_cont cfg (drain cfg env) env k (note (Sent data) s).
Proof.
  intros [H1 H2 H3 H4 H5 H6 H7 H8]. unfold do_async_write. rewrite H1, responding_quiet by done.
  destruct s. simpl in *. subst. done.
Qed.

Lemma idle_sent data s : Idle s → Idle (note (Sent data) s).
Proof. by intros []. Qed.

(** The end of a response leaves its mark, and no input is taken. *)
Lemma finish_log cfg env keep s :
  Idle s → log (finish_response (drain cfg env) keep s) = log s ++ [if keep then Finished else Closed].
Proof.
  intros [H1 H2 H3 H4 H5 H6 H7 H8]. unfold finish_response. rewrite H8, H7. simpl.
  destruct keep; simpl; [| exact (proj2 (close_spec (set_state CLOSED s) H1))].
  destruct s as [p]. simpl in *. subst. done.
Qed.

Lemma take_then_drop (n : nat) (l : bytes) : take n l ++ drop (length (take n l)) l = l.
Proof.
  rewrite length_take. destruct (Nat.le_ge_cases n (length l)).
  - rewrite Nat.min_l by done. apply take_drop.
  - by rewrite Nat.min_r, take_ge, drop_all, app_nil_r by done.
Qed.

Lemma stream_exact cfg env path content close s pos :
  fs_read (env_fs env) path = Some content → Idle s → 0 ≤ pos ≤ size content →
  ∃ n pieces,
    log (run cfg (written env n) (stream_file_body (drain cfg env) env path pos (size content - pos) close s))
      = log s ++ (Sent <$> pieces) ++ [if close then Closed else Finished] ∧
    concat pieces = drop (Z.to_nat pos) content ∧ Forall (λ p, 0 < size p ≤ kChunk) pieces.
Proof.
  intros Hr. remember (Z.to_nat (size content - pos)) as left eqn:El. revert pos s El.
  induction (lt_wf left) as [left _ IH]. intros pos s El Hs Hp. unfold stream_file_body.
  destruct (Z.leb_spec (size content - pos) 0) as [Hle | Hgt].
  { exists 0%nat, []. simpl. rewrite finish_log by done. split; [by destruct close |]. split; [| done].
    rewrite drop_ge; [done |]. unfold size in *. lia. }
  rewrite Hr. simpl. set (got := take _ _).
  assert (size got = Z.min kChunk (size content - pos)) as Hg.
  { unfold got, size in *. rewrite length_take, length_drop. unfold kChunk. lia. }
  destruct got as [| b rest] eqn:Eg; [unfold kChunk in Hg; simpl in Hg; change (size []) with 0 in Hg; lia |].
  rewrite <- Eg in *. clear b rest Eg.
  assert (0 < size got ≤ size content - pos) as Hg' by (rewrite Hg; unfold kChunk; lia).
  destruct (IH (Z.to_nat (size content - (pos + size got))) ltac:(lia) (pos + size got) (note (Sent got) s) eq_refl)
    as (n & pieces & Hlog & Hpieces & Hsmall); [by apply idle_sent | lia |].
  exists (S n), (got :: pieces). rewrite written_S, run_app, (one_write cfg env) by done. cbn [run_cont].
  replace (size content - pos - size got) with (size content - (pos + size got)) by lia.
  rewrite Hlog. simpl. rewrite <- (assoc_L (++)). split; [done |]. split; [| constructor; [lia | done]]. rewrite Hpieces.
  replace (Z.to_nat (pos + size got)) with (Z.to_nat pos + length got)%nat by (unfold size in *; lia).
  rewrite <- drop_drop. apply take_then_drop.
Qed.

(** C22: A static file is sent whole.  A session that waits to answer, with no
    write or task pending and no input buffered, serves a request other than HEAD
    that no API handler takes and that resolves to a file that can be read and does
    not change, over a connection that takes what it is given, on the path that
    reads and writes the file itself (the other one, [sendfile] on native TCP with a
    worker pool, is not covered).  Then the bytes sent are the head with the length
    of the file and the content: in one write when the file has at most 64 KiB,
    otherwise the head alone and then pieces of at most 64 KiB; after the last write
    the response ends, and the connection is closed exactly when the request asks
    for it. *)
Theorem static_file_exact (cfg : Config) (env : Env) (s : HttpSession) (path ct content : bytes) :
  Idle s → env_api env = None → native_tcp cfg && has_workers cfg = false →
  rq_method (r_head (request_ (parser s))) ≠ s! "HEAD" →
  process_static_request (env_fs env) (r_head (request_ (parser s))) (doc_root_ cfg) = mkResp 200 ct [] (size content) path →
  fs_read (env_fs env) path = Some content →
  let head := build_header 200 (s! "OK") ct (size content) (must_close (request_ (parser s))) in
  ∃ n pieces,
    log (run cfg (written env n) (serve cfg (drain cfg env) env s)) =
      log s ++ [Served (request_ (parser s))] ++
      (Sent <$> if size content <=? 64 * 1024 then [head ++ content] else head :: pieces) ++
      [if must_close (request_ (parser s)) then Closed else Finished] ∧
    (64 * 1024 < size content → concat pieces = content ∧ Forall (λ p, 0 < size p ≤ 64 * 1024) pieces).
Proof.
  intros Hs Hapi Hnat Hm Hreq Hr. cbv zeta. unfold serve. rewrite Hapi. unfold serve_static. cbn [parser note].
  rewrite Hreq. cbn [rs_status rs_full_path rs_content_type rs_content_length negb Z.eqb Pos.eqb].
  rewrite (bool_decide_eq_false_2 _ Hm). set (close := must_close _). set (s1 := note _ s).
  assert (Idle s1) as Hs1 by by destruct Hs.
  unfold send_file. rewrite Hnat, Hr, andb_true_r. set (head := build_header _ _ _ _ _).
  assert (∀ data, log (run cfg (written env 1) (do_async_write (drain cfg env) data (KFinish close) s1))
    = log s ++ [Served (request_ (parser s))] ++ (Sent <$> [data]) ++ [if close then Closed else Finished]) as Hone.
  { intros data. rewrite one_write by done. cbn [run_cont]. rewrite finish_log by by apply idle_sent. simpl.
    rewrite <- !(assoc_L (++)). by destruct close. }
  pose proof (size_pos content). change (64 * 1024) with kSmallFileThreshold.
  destruct ((0 <? size content) && (size content <=? kSmallFileThreshold)) eqn:Esmall.
  { bool_prop. exists 1%nat, []. replace (_ <=? _) with true by lia. split; [apply Hone | lia]. }
  simpl. destruct (Z.eqb_spec (size content) 0) as [E0 | E0].
  { exists 1%nat, []. rewrite E0. simpl (_ <=? _). split; [| unfold kSmallFileThreshold; lia].
    assert (content = []) as -> by (unfold size in E0; by destruct content). rewrite app_nil_r. apply Hone. }
  assert (kSmallFileThreshold < size content) as Hbig by (apply andb_false_iff in Esmall as [E | E]; lia).
  destruct (stream_exact cfg env path content close (note (Sent head) s1) 0 Hr) as (n & pieces & Hlog & Hp & Hf);
    [by apply idle_sent | lia |].
  exists (S n), pieces. replace (size content <=? _) with false by lia.
  rewrite written_S, run_app, (one_write cfg env) by done. cbn [run_cont].
  rewrite Z.sub_0_r in Hlog. rewrite Hlog. simpl. rewrite <- !(assoc_L (++)). split; [done |]. done.
Qed.

(** ** Where the session departs from its comments *)

Definition not_found_text : bytes := s! "not found" ++ [LF].

(** A refused request is served all the same: the 400 is on its way, but the read
    was armed again before, and the line that ends the head finds the session
    still waiting for headers. *)
Example rejected_request_served :
  let s := sample_run (sample_env 5 (s! "hello"))
    [RunTask; ReadDone (line (s! "GET / HTTP/1.1") ++ line (s! "bad")); RunTask; RunTask; RunTask;
     ReadDone CRLF; RunTask; RunTask] in
  (λ v, match v with Serve _ => true | Reject => false end) <$> verdicts (log s) = [false; true] ∧
  length (sent (log s)) = 2%nat.
Proof. vm_compute. split; reflexivity. Qed.

(** A file that was cut short after its length was read: the response is shorter
    than its Content-Length, and the connection is kept. *)
Example truncated_file_keeps_connection :
  let s := sample_run (sample_env 70000 (s! "short"))
    [RunTask; ReadDone sample_get; RunTask; RunTask; RunTask; RunTask; WriteDone 0 true; RunTask; WriteDone 0 true] in
  concat (sent (log s)) = build_header 200 (s! "OK") (s! "text/html; charset=utf-8") 70000 false ++ s! "short" ∧
  closed_ s = false ∧ current_state s = WAIT_REQUEST_LINE.
Proof. vm_compute. repeat split. Qed.

(** HEAD of a file that does not exist is answered with a body, which the client
    takes for the start of the next response. *)
Example head_error_has_body :
  let s := sample_run (sample_env 5 (s! "hello"))
    [RunTask; ReadDone (line (s! "HEAD /none HTTP/1.1") ++ CRLF); RunTask; RunTask; RunTask] in
  concat (sent (log s)) = build_header 404 (s! "Not Found") (s! "text/html; charset=utf-8") 10 false ++ not_found_text.
Proof. vm_compute. reflexivity. Qed.

(** A file that disappears between the head and [sendfile]: a second response is
    sent where the body of the first was announced. *)
Example second_head_as_body :
  let cfg := mkConfig (s! "/www") true true in
  let here := sample_env 70000 (s! "long") in
  let gone := mkEnv (mkFS (λ _, false) (λ _, None) (λ _, None)) None (λ _, 0) (λ _ _ _, None) in
  let s := run cfg [(here, RunTask); (here, ReadDone sample_get); (here, RunTask); (here, RunTask); (here, RunTask);
                    (here, RunTask); (gone, WriteDone 0 true); (gone, RunTask)] start in
  concat (sent (log s)) =
    build_header 200 (s! "OK") (s! "text/html; charset=utf-8") 70000 false ++
    build_header 404 (s! "Not Found") (s! "text/html; charset=utf-8") 9 false ++ s! "Not Found".
Proof. vm_compute. reflexivity. Qed.

(** [sendfile] is asked for whole chunks, not for what is left: of a file that has
    grown more is sent than was announced, and [remaining] wraps. *)
Example sendfile_exceeds_length :
  http_sendfile_worker (s! "0123456789") [Moved 131072; Moved 131072] 0 4 = s! "0123456789".
Proof. vm_compute. reflexivity. Qed.

(** The two bytes after the data of a chunk are skipped unread. *)
Example chunk_end_unchecked :
  ∃ r, scan_all MLine (line (s! "POST / HTTP/1.1") ++ line (s! "Transfer-Encoding: chunked") ++ CRLF ++
                       line (s! "5") ++ s! "abcdeXX" ++ line (s! "0") ++ CRLF) = [Serve r] ∧ r_body r = s! "abcde".
Proof. vm_compute. eexists. split; reflexivity. Qed.

Lemma pipelined_requests_served_witness :
  let r := mkClient (s! "POST") (s! "/a") (Some (s! "q")) [(s! "Host", s! " x ")] (s! "body") in
  let r2 := mkClient (s! "GET") (s! "/b") None [(s! "Connection", s! "close")] [] in
  let evs := (λ ev, (sample_env 5 (s! "hello"), ev)) <$>
    [RunTask; ReadDone (take 20 (encode_request r)); RunTask; RunTask; ReadDone (drop 20 (encode_request r) ++ encode_request r2)] in
  upto_reject (verdicts (log (run sample_config evs start))) `prefix_of` [Serve (as_request r); Serve (as_request r2)].
Proof.
  intros r r2 evs. apply (pipelined_requests_served sample_config evs [r; r2]).
  - assert (∀ l c, bool_decide (c ∈ l) = false → (c : Z) ∉ (l : bytes)) as Hn by (intros l c H; by apply bool_decide_eq_false in H).
    apply Forall_cons_iff. split; [| apply Forall_singleton]; split_and!; try done.
    all: try (repeat constructor; done).
    all: apply Forall_singleton; split_and!; try (vm_compute; done); apply Hn; vm_compute; reflexivity.
  - vm_compute. reflexivity.
Defined.

Lemma static_file_exact_witness :
  let s := mkSession (with_state RESPOND (with_head (mkReq (s! "GET") (s! "/") (s! "/") [] (s! "HTTP/1.1") ∅) initial_parser))
             [] false false false true [] [] false [] [] [] [] in
  ∃ n,
    log (run sample_config (written (sample_env 5 (s! "hello")) n)
           (serve sample_config (drain sample_config (sample_env 5 (s! "hello"))) (sample_env 5 (s! "hello")) s)) =
      [Served (request_ (parser s))] ++
      [Sent (build_header 200 (s! "OK") (s! "text/html; charset=utf-8") 5 false ++ s! "hello")] ++ [Finished].
Proof.
  intros s.
  destruct (static_file_exact sample_config (sample_env 5 (s! "hello")) s (s! "/www/index.html") (s! "text/html; charset=utf-8")
    (s! "hello") ltac:(by split) eq_refl eq_refl ltac:(done) ltac:(by vm_compute) ltac:(by vm_compute)) as (n & pieces & H & _).
  exists n. exact H.
Defined.
