(* ===== verification/ShardRouter.v ===== *)
(** * Which shard a mailbox lives on

    Models [router/i_shard_router.h], [hash_shard_router.h],
    [static_shard_router.h] and [table_shard_router.h]/[.cpp]: the routing of an
    address, by hash, by its domain, or by a table in the database behind the
    cache of [LruCache].  A pool or a storage is its position; [None] is the null
    pointer.  [std::hash] and the answers of the routing database are parameters. *)

From S2P Require Import Prelude CString HttpParser LruCache Inbound.

(** ** Pools and storages *)

(** [get_db_pool], [get_storage]: the index is unsigned. *)
Definition at_shard {A} (l : list (option A)) (shard : Z) : option A :=
  if to_u64 shard >=? Z.of_nat (length l) then None else default None (l !! Z.to_nat (to_u64 shard)).

(** [resize(n, nullptr)] when there are fewer. *)
Definition pad {A} (n : nat) (l : list (option A)) : list (option A) :=
  if (length l <? n)%nat then l ++ replicate (n - length l) None else l.

Definition shard_priority_order (count : nat) : list nat := seq 0 count.

(** ** By hash *)

Section Hash.
Context {Pool Storage : Type} (hash : bytes → Z).

Record HashShardRouter := mkHash {
  h_shard_count : Z;
  h_db_pools : list (option Pool);
  h_storages : list (option Storage);
}.

Definition new_hash_router (shard_count : Z) (pools : list (option Pool)) (storages : list (option Storage))
  : HashShardRouter :=
  let count := if 0 <? shard_count then shard_count else 1 in
  mkHash count (pad (Z.to_nat count) pools) (pad (Z.to_nat count) storages).

Definition hash_route (r : HashShardRouter) (email : bytes) : Z :=
  match email with
  | [] => 0
  | _ => to_i32 (to_u64 (hash (to_lower email)) mod h_shard_count r)
  end.
End Hash.
Arguments HashShardRouter : clear implicits.

(** ** By domain *)

Record StaticShardRouter := mkStatic { s_domain_map : gmap bytes Z; s_default_shard : Z }.

Definition new_static_router (mappings : list (bytes * Z)) (default_shard : Z) : StaticShardRouter :=
  mkStatic (foldl (λ m e, <[to_lower e.1 := e.2]> m) ∅ mappings) default_shard.

Definition extract_domain (email : bytes) : bytes :=
  match find_char 64 email with
  | None => []
  | Some pos => if (length email <=? pos + 1)%nat then [] else drop (pos + 1) email
  end.

Definition static_route (r : StaticShardRouter) (email : bytes) : Z :=
  match email with
  | [] => s_default_shard r
  | _ =>
      match extract_domain (to_lower email) with
      | [] => s_default_shard r
      | domain => default (s_default_shard r) (s_domain_map r !! domain)
      end
  end.

(** ** By a table *)

(** What the routing database says when it is asked: there is no pool, no valid
    connection, the query failed, or the shard column of the rows. *)
Inductive RouteAnswer := NoPool | NoConnection | QueryFailed | Rows (values : list bytes).

Record TableShardRouter := mkTable { t_shard_count : Z; t_cache : LruCache bytes Z }.

Definition new_table_router (shard_count : Z) (cache_capacity : nat) : TableShardRouter :=
  mkTable (if 0 <? shard_count then shard_count else 1)
    (new_lru (if (0 <? cache_capacity)%nat then cache_capacity else Z.to_nat 100000) 0).

(** The shard a row names, if it is one. *)
Definition row_shard (count : Z) (answer : RouteAnswer) : option Z :=
  match answer with
  | Rows (value :: _) =>
      n ← stoi value;
      if (0 <=? n) && (to_u64 n <? count) then Some n else None
  | _ => None
  end.

(** [now] is the clock of the cache, [db] answers for a key. *)
Definition table_route (now : Z) (db : bytes → RouteAnswer) (email : bytes) (r : TableShardRouter)
  : Z * TableShardRouter :=
  match email with
  | [] => (-1, r)
  | _ =>
      let key := to_lower email in
      match get now key (t_cache r) with
      | (Some (shard, _), cache) => (shard, mkTable (t_shard_count r) cache)
      | (None, cache) =>
          match row_shard (t_shard_count r) (db key) with
          | Some shard => (shard, mkTable (t_shard_count r) (put now key shard cache))
          | None => (-1, mkTable (t_shard_count r) cache)
          end
      end
  end.

(** A sequence of calls, each at its time and with the answers of its moment. *)
Definition table_routes (calls : list (Z * (bytes → RouteAnswer) * bytes)) (r : TableShardRouter)
  : list Z * TableShardRouter :=
  foldl (λ acc c, let '(shard, r') := table_route c.1.1 c.1.2 c.2 acc.2 in (acc.1 ++ [shard], r'))
    ([], r) calls.

(** A table with one entry, for examples. *)
Definition sample_mapping (key : bytes) : option Z := if bool_decide (key = s! "a@b") then Some 2 else None.

(** ** Properties *)


Lemma at_shard_in {A} (l : list (option A)) n : 0 ≤ n < Z.of_nat (length l) → n < 2 ^ 64 → at_shard l n = default None (l !! Z.to_nat n).
Proof. intros H1 H2. unfold at_shard. rewrite to_u64_id by (unfold u64_ok; lia). by replace (n >=? Z.of_nat (length l)) with false by lia. Qed.

Lemma length_pad {A} n (l : list (option A)) : (n ≤ length (pad n l))%nat.
Proof. unfold pad. destruct (Nat.ltb_spec (length l) n); [rewrite length_app, length_replicate |]; lia. Qed.

(** Routing by hash is total: every address, however spelled, has one shard, and
    the router has a place for it. *)
Theorem hash_route_total {Pool Storage} (hash : bytes → Z) (count : Z) (pools : list (option Pool))
  (storages : list (option Storage)) (email email' : bytes) :
  count < 2 ^ 31 →
  0 ≤ hash_route hash (new_hash_router count pools storages) email < Z.max 1 count ∧
  hash_route hash (new_hash_router count pools storages) email
    < Z.of_nat (length (h_db_pools (new_hash_router count pools storages))) ∧
  (to_lower email = to_lower email' →
   hash_route hash (new_hash_router count pools storages) email =
   hash_route hash (new_hash_router count pools storages) email').
Proof.
  intros Hc. set (r := new_hash_router count pools storages).
  assert (h_shard_count r = Z.max 1 count) as Hn by (unfold r, new_hash_router; simpl; destruct (Z.ltb_spec 0 count); lia).
  assert (∀ e, 0 ≤ hash_route hash r e < Z.max 1 count) as Hr.
  { intros [| c e]; unfold hash_route; [lia |]. rewrite Hn. set (h := to_u64 _).
    pose proof (Z.mod_pos_bound h (Z.max 1 count)). rewrite to_i32_id; unfold i32_ok; lia. }
  split_and!; [apply Hr | apply Hr | |].
  - apply (Z.lt_le_trans _ _ _ (proj2 (Hr email))). rewrite <- Hn. unfold r, new_hash_router. simpl.
    pose proof (length_pad (Z.to_nat (if 0 <? count then count else 1)) pools). destruct (0 <? count) eqn:E; lia.
  - intros He. destruct email as [| c email], email' as [| c' email']; [done | done | done |]. unfold hash_route. by rewrite He.
Qed.

Lemma hash_route_total_witness :
  0 ≤ hash_route (λ s, Z.of_nat (length s)) (new_hash_router (Pool := unit) (Storage := unit) 3 [] []) (s! "a@b") < 3.
Proof.
  destruct (hash_route_total (Pool := unit) (Storage := unit) (λ s, Z.of_nat (length s)) 3 [] [] (s! "a@b") (s! "A@B")) as [H _];
    [lia | exact H].
Defined.

Section Table.
(** The table: what a key maps to when the database can be asked. *)
Context (count : Z) (mapping : bytes → option Z).

(** An answer is a failure or what the table says. *)
Definition truthful (db : bytes → RouteAnswer) : Prop :=
  ∀ key, row_shard count (db key) = mapping key ∨ row_shard count (db key) = None.

Definition cache_ok (r : TableShardRouter) : Prop :=
  t_shard_count r = count ∧ lru_wf (t_cache r) ∧
  ∀ key shard, lookup_value (t_cache r) key = Some shard → mapping key = Some shard.

Lemma table_route_step now db email r :
  truthful db → cache_ok r →
  ((table_route now db email r).1 = -1 ∨ mapping (to_lower email) = Some (table_route now db email r).1) ∧
  cache_ok (table_route now db email r).2.
Proof.
  intros Ht (Hn & Hwf & Hc). unfold table_route. destruct email as [| c email]; [split; [by left | done] |].
  set (key := to_lower (c :: email)).
  destruct (get_spec now key (t_cache r) Hwf) as [Hg1 Hg2]. pose proof (get_wf now key _ Hwf) as Hwf'.
  destruct (get now key (t_cache r)) as [[[shard stale]|] cache]; simpl in *.
  - split; [right; by apply Hc |]. split_and!; [done | done |]. intros k s. rewrite Hg2. apply Hc.
  - destruct (row_shard (t_shard_count r) (db key)) as [shard|] eqn:Er.
    + assert (mapping key = Some shard) as Hm by (destruct (Ht key) as [H | H]; rewrite <- Hn, Er in H; done).
      split; [by right |]. destruct (put_spec now key shard cache Hwf') as [Hp1 Hp2].
      split_and!; [done | by apply put_wf |]. intros k s. simpl. destruct (decide (k = key)) as [-> | Hk].
      * rewrite Hp1. by intros [= <-].
      * rewrite Hp2 by done. case_bool_decide; [done |]. rewrite Hg2. apply Hc.
    + split; [by left |]. split_and!; [done | done |]. intros k s. simpl. rewrite Hg2. apply Hc.
Qed.
End Table.

(** The cache in front of the table never shows: as long as the database answers
    with the table or fails, every call, after any number of calls, evictions and
    failures, answers with the shard of the table or with -1; a table of shards in
    range is never left. *)
Theorem table_route_coherent (count : Z) (capacity : nat) (mapping : bytes → option Z)
  (calls : list (Z * (bytes → RouteAnswer) * bytes)) :
  Forall (λ c, truthful (if 0 <? count then count else 1) mapping c.1.2) calls →
  Forall2 (λ c shard, shard = -1 ∨ mapping (to_lower c.2) = Some shard) calls
    (table_routes calls (new_table_router count capacity)).1.
Proof.
  set (n := if 0 <? count then count else 1). intros Hc.
  assert (cache_ok n mapping (new_table_router count capacity)) as H0.
  { split_and!; [done | apply new_lru_wf | done]. }
  unfold table_routes. revert H0. generalize (new_table_router count capacity) as r.
  assert (∀ done_ acc r, Forall2 (λ c shard, shard = -1 ∨ mapping (to_lower c.2) = Some shard) done_ acc →
    cache_ok n mapping r →
    Forall2 (λ c shard, shard = -1 ∨ mapping (to_lower c.2) = Some shard) (done_ ++ calls)
      (foldl (λ acc c, let '(shard, r') := table_route c.1.1 c.1.2 c.2 acc.2 in (acc.1 ++ [shard], r')) (acc, r) calls).1) as H.
  2:{ intros r Hr. by apply (H [] [] r). }
  induction Hc as [| c calls Ht _ IH]; intros done_ acc r Hacc Hr; simpl; [by rewrite app_nil_r |].
  destruct (table_route_step n mapping c.1.1 c.1.2 c.2 r Ht Hr) as [Hs Hr'].
  destruct (table_route _ _ _ r) as [shard r']. simpl in *. rewrite cons_middle, (assoc_L (++)). apply IH; [| done].
  apply Forall2_app; [done |]. constructor; [exact Hs | constructor].
Qed.

Lemma table_route_coherent_witness :
  let db := λ key : bytes, if bool_decide (key = s! "a@b") then Rows [s! "2"] else Rows [] in
  (table_routes [(0, db, s! "A@b"); (1, λ _, NoConnection, s! "a@B"); (2, db, s! "c@d")] (new_table_router 4 10)).1
    = [2; 2; -1] ∧
  Forall2 (λ c shard, shard = -1 ∨ sample_mapping (to_lower c.2) = Some shard)
    [(0, db, s! "A@b"); (1, λ _, NoConnection, s! "a@B"); (2, db, s! "c@d")]
    (table_routes [(0, db, s! "A@b"); (1, λ _, NoConnection, s! "a@B"); (2, db, s! "c@d")] (new_table_router 4 10)).1.
Proof.
  intros db. split; [vm_compute; reflexivity |].
  apply (table_route_coherent 4 10 sample_mapping).
  assert (truthful 4 sample_mapping db) as H.
  { intros key. left. unfold db, sample_mapping. case_bool_decide; vm_compute; reflexivity. }
  constructor; [exact H |]. constructor; [intros k; by right |]. constructor; [exact H | constructor].
Defined.

(** A static mapping is taken as it is: a number no pool has leads to the null
    pointer, and the domain starts at the first at sign. *)
Example static_out_of_range :
  let r := new_static_router [(s! "Example.org", 7)] 0 in
  static_route r (s! "u@EXAMPLE.org") = 7 ∧ at_shard [Some tt; Some tt] 7 = None ∧
  at_shard [Some tt] (-1) = None ∧ static_route r (s! "a@b@example.org") = 0.
Proof. vm_compute. repeat split. Qed.

(** A shard column is read up to the first character that is no digit. *)
Example shard_column_prefix : row_shard 4 (Rows [s! " 3x"]) = Some 3.
Proof. vm_compute. reflexivity. Qed.
