(* ===== verification/Submission.v ===== *)
(** * Submission from inside the process

    Models [submission/mail_submission_service.cpp], the entry the webmail server
    hands its messages to, with [storage/mail_object_key_layout.cpp].  One
    [Operation] is a chain of functions on worker threads and of callbacks; a
    [Stage] is what it waits for, an [Event] what comes: a worker that runs the next
    posted function, or an answer.  [None] in an answer is an exception of that call.
    What the operation does to the outside is the list [actions], oldest first.

    The account repository, alias and quota answers, the storage provider and the
    queue are the events' data; [PersistQueue] is the code behind the ticket. *)

From S2P Require Import Prelude CString SmtpText.

(** ** Object keys *)

(** [Kind]; the layouts of HDFS and of the distributed provider are [relative]. *)
Inductive LayoutKind := KLocal | KRelative | KS3 | KDiscard.

#[export] Instance LayoutKind_eq : EqDecision LayoutKind. Proof. solve_decision. Defined.

Record MailObjectKeyLayout := mkLayout { kind_ : LayoutKind; mail_root_ : bytes; attachment_root_ : bytes; attachment_seq_ : Z }.

Definition normalize_mail_storage_root (root : bytes) : bytes :=
  match list.last root with
  | Some c => if (c =? 47) || (c =? 92) then root else root ++ [47]
  | None => root
  end.

Definition new_layout (kind : LayoutKind) (mail_root attachment_root : bytes) : MailObjectKeyLayout :=
  mkLayout kind (normalize_mail_storage_root mail_root) (normalize_mail_storage_root attachment_root) 0.

Definition sanitize_key_filename (name : bytes) : bytes :=
  match name with
  | [] => s! "attachment"
  | _ => (λ c, if existsb (Z.eqb c) [47; 92; 32; 58; 42] then 95 else c) <$> name
  end.

Definition build_mail_body_key (l : MailObjectKeyLayout) (id : Z) : bytes :=
  match kind_ l with
  | KDiscard => s! "/dev/null/" ++ to_string id
  | KS3 => s! "mail/" ++ to_string id
  | KLocal => mail_root_ l ++ to_string id
  | KRelative => s! "mail/" ++ to_string id
  end.

Definition bump_seq (l : MailObjectKeyLayout) : MailObjectKeyLayout :=
  mkLayout (kind_ l) (mail_root_ l) (attachment_root_ l) (to_u64 (attachment_seq_ l + 1)).

Definition build_attachment_key (l : MailObjectKeyLayout) (id : Z) (filename : bytes) : bytes * MailObjectKeyLayout :=
  match kind_ l with
  | KDiscard => (s! "/dev/null/" ++ to_string id ++ s! "_" ++ filename, l)
  | KS3 => (s! "attachments/" ++ to_string id ++ s! "/" ++ to_string (attachment_seq_ l) ++ s! "_" ++ filename, bump_seq l)
  | k =>
      let l := bump_seq l in
      ((if bool_decide (k = KLocal) then attachment_root_ l ++ to_string id ++ s! "_"
        else s! "attachment/" ++ to_string id ++ s! "/") ++
       to_string (attachment_seq_ l) ++ s! "_" ++ sanitize_key_filename filename, l)
  end.

(** ** The operation *)

Record Request := mkRequest {
  user_id : Z;
  sender : bytes;
  subject : bytes;
  message_id : bytes;
  raw : bytes;
  recipients : list bytes;
}.

Inductive Status := Accepted | AuthFailed | Rejected | Unavailable | Unknown.
Record Result := mkResult { status : Status; code : Z; stage_name : bytes }.

(** The fields of the [mail] that this code sets; the MIME tree goes with [SaveTree]. *)
Record Mail := mkMail {
  m_id : Z;
  m_from : bytes;
  m_to : list bytes;
  m_ids : list Z;
  m_subject : bytes;
  m_source_message_id : bytes;
  m_send_time : Z;
  m_save_sent_copy : bool;
  m_box_id : Z;
  m_status : Z;
  m_mail_over : bool;
  m_body_path : bytes;
}.

Inductive Action :=
  | StoreBody (path body : bytes)                 (* the writer is committed with this content *)
  | SaveTree (path : bytes)
  | RemoveObject (path : bytes)
  | Enqueue (m : Mail)
  | Completed (r : Result).

Inductive ActorStatus := ActorValid | ActorInvalid | ActorUnavailable.

Inductive Stage :=
  | Starting                                      (* the first posted function *)
  | AwaitQuota
  | Expanding                                     (* [expand_next], posted *)
  | AwaitAliases (address : bytes)
  | Writing                                       (* [write_body], posted *)
  | AwaitCommit
  | Enqueueing                                    (* [enqueue], posted *)
  | AwaitTicket
  | Done.

Record Operation := mkOp {
  stage : Stage;
  request : Request;
  expanded : list bytes;                          (* [recipients] of the operation *)
  seen : gset bytes;
  left : list bytes;                              (* the recipients from [index] on *)
  data : option Mail;
  body_committed : bool;
  admission_started : bool;
  complete : bool;                                (* the callback has not been taken *)
  actions : list Action;
}.

Record Config := mkConfig { system_domain : bytes; external_delivery_enabled : bool }.

Definition set_stage (st : Stage) (o : Operation) : Operation :=
  mkOp st (request o) (expanded o) (seen o) (left o) (data o) (body_committed o) (admission_started o) (complete o) (actions o).
Definition act (a : Action) (o : Operation) : Operation :=
  mkOp (stage o) (request o) (expanded o) (seen o) (left o) (data o) (body_committed o) (admission_started o) (complete o)
    (actions o ++ [a]).
Definition set_data (d : option Mail) (o : Operation) : Operation :=
  mkOp (stage o) (request o) (expanded o) (seen o) (left o) d (body_committed o) (admission_started o) (complete o) (actions o).
Definition set_committed (b : bool) (o : Operation) : Operation :=
  mkOp (stage o) (request o) (expanded o) (seen o) (left o) (data o) b (admission_started o) (complete o) (actions o).
Definition start_admission (o : Operation) : Operation :=
  mkOp (stage o) (request o) (expanded o) (seen o) (left o) (data o) (body_committed o) true (complete o) (actions o).
Definition take_complete (o : Operation) : Operation :=
  mkOp (stage o) (request o) (expanded o) (seen o) (left o) (data o) (body_committed o) (admission_started o) false (actions o).

(** [submit_async] *)
Definition submit_async (r : Request) : Operation :=
  mkOp Starting r [] ∅ (recipients r) None false false true [].

Definition tree_path (path : bytes) : bytes := path ++ s! ".mime".

(** [fail]: the body that nobody owns is removed, then the callback. *)
Definition fail (st : Status) (c : Z) (name : bytes) (o : Operation) : Operation :=
  let o := match data o with
           | Some m => if body_committed o
                       then set_committed false (act (RemoveObject (tree_path (m_body_path m))) (act (RemoveObject (m_body_path m)) o))
                       else o
           | None => o
           end in
  let o := if complete o then act (Completed (mkResult st c name)) (take_complete o) else o in
  set_stage Done o.

(** The exception handler of [guard]. *)
Definition guard_catch (o : Operation) : Operation :=
  fail (if admission_started o then Unknown else Unavailable) 451 (s! "internal") o.

Section Steps.
Context (cfg : Config) (layout : MailObjectKeyLayout).

Definition is_local (address : bytes) : bool :=
  match rfind_char 64 address with
  | None => false
  | Some at_ => bool_decide (to_lower (drop (at_ + 1) address) = to_lower (system_domain cfg))
  end.

(** The lambda [add]: the address itself when there is no alias. *)
Fixpoint add_targets (targets : list bytes) (o : Operation) : Operation :=
  match targets with
  | [] => o
  | t :: targets =>
      add_targets targets
        (if bool_decide (to_lower t ∈ seen o) then o
         else mkOp (stage o) (request o) (expanded o ++ [t]) ({[ to_lower t ]} ∪ seen o) (left o) (data o)
                (body_committed o) (admission_started o) (complete o) (actions o))
  end.

Definition add (address : bytes) (targets : list bytes) (o : Operation) : Operation :=
  set_stage Expanding (add_targets (match targets with [] => [address] | _ => targets end) o).

Definition pop_left (rest : list bytes) (o : Operation) : Operation :=
  mkOp (stage o) (request o) (expanded o) (seen o) rest (data o) (body_committed o) (admission_started o) (complete o) (actions o).

Definition expand_next (o : Operation) : Operation :=
  match left o with
  | [] => set_stage Writing o
  | address :: rest =>
      let o := pop_left rest o in
      if negb (recipient_allowed address (system_domain cfg) (external_delivery_enabled cfg))
      then fail Rejected 550 (s! "rcpt") o
      else if is_local address then set_stage (AwaitAliases address) o
      else add address [] o
  end.

(** What the first function learns: the shard of the sender and its account. *)
Definition on_start (answer : option (Z * ActorStatus)) (o : Operation) : Operation :=
  match answer with
  | None => guard_catch o
  | Some (route, actor) =>
      if (route <? 0) || (user_id (request o) =? 0) then fail AuthFailed 535 (s! "auth") o else
      match actor with
      | ActorUnavailable => fail Unavailable 451 (s! "auth") o
      | ActorInvalid => fail AuthFailed 535 (s! "auth") o
      | ActorValid =>
          if bool_decide (recipients (request o) = []) || (100 <? length (recipients (request o)))%nat ||
             (1024 * 1024 <? Z.of_nat (length (raw (request o))))
          then fail Rejected 552 (s! "message") o
          else set_stage AwaitQuota o
      end
  end.

Definition on_quota (allowed : bool) (o : Operation) : Operation :=
  if negb allowed then fail Rejected 550 (s! "mail") o else expand_next o.

(** The answers met by [write_body], as far as it gets. *)
Inductive WriteAnswer :=
  | QueueDown
  | NoStorage
  | OpenFailed
  | WriteFailed
  | Written
  | WriteThrows.

(** [ids] are the numbers the generator gives out, from the first on. *)
Definition build_mail (ids : nat → Z) (now : Z) (path : bytes) (o : Operation) : Mail :=
  mkMail (ids 0%nat) (sender (request o)) (expanded o) (ids <$> seq 1 (length (expanded o))) (subject (request o))
    (message_id (request o)) now true 1 1 true path.

Definition on_write (answer : WriteAnswer) (ids : nat → Z) (now : Z) (o : Operation) : Operation :=
  match answer with
  | QueueDown => fail Unavailable 451 (s! "queue") o
  | NoStorage => fail Unavailable 451 (s! "storage") (set_data (Some (build_mail ids now [] o)) o)
  | _ =>
      let o := set_data (Some (build_mail ids now (build_mail_body_key layout (ids 0%nat)) o)) o in
      match answer with
      | Written => set_stage AwaitCommit o
      | WriteThrows => guard_catch o
      | _ => fail Unavailable 451 (s! "storage") o
      end
  end.

(** [commit_async] answers; [committed] is [writer->committed()]. *)
Definition on_commit (ok : bool) (o : Operation) : Operation :=
  if negb ok then fail Unavailable 451 (s! "storage") o else
  set_stage Enqueueing
    (set_committed true
       (act (StoreBody (match data o with Some m => m_body_path m | None => [] end) (raw (request o))) o)).

Inductive EnqueueAnswer :=
  | TreeThrows                                    (* before admission started *)
  | SubmitThrows
  | NotAccepted
  | WaitThrows                                    (* after the queue took the mail *)
  | TakenByQueue.

Definition on_enqueue (answer : EnqueueAnswer) (o : Operation) : Operation :=
  match data o with
  | None => guard_catch o
  | Some m =>
      match answer with
      | TreeThrows => guard_catch o
      | _ =>
          let o := start_admission (act (SaveTree (m_body_path m)) o) in
          let o := set_data None o in
          match answer with
          | TakenByQueue => set_stage AwaitTicket (act (Enqueue m) o)
          | WaitThrows => guard_catch (act (Enqueue m) o)
          | NotAccepted =>
              fail Unavailable 451 (s! "queue")
                (act (RemoveObject (tree_path (m_body_path m))) (act (RemoveObject (m_body_path m)) o))
          | _ => guard_catch o
          end
      end
  end.

Inductive TicketAnswer := TimedOut | Failed | Persisted.

Definition on_ticket (answer : TicketAnswer) (o : Operation) : Operation :=
  match answer with
  | TimedOut => fail Unknown 0 (s! "persist") o
  | Failed => fail Unavailable 451 (s! "persist") o
  | Persisted => set_stage Done (act (Completed (mkResult Accepted 250 (s! "persist"))) (take_complete o))
  end.

Inductive Event :=
  | Start (answer : option (Z * ActorStatus))
  | Quota (allowed : bool)
  | Expand (throws : bool)
  | Aliases (targets : list bytes)
  | Write (answer : WriteAnswer) (ids : nat → Z) (now : Z)
  | Commit (ok : bool)
  | EnqueueRun (answer : EnqueueAnswer)
  | Ticket (answer : TicketAnswer).

(** An event that the operation does not wait for does not occur. *)
Definition step (ev : Event) (o : Operation) : Operation :=
  match stage o, ev with
  | Starting, Start a => on_start a o
  | AwaitQuota, Quota allowed => on_quota allowed o
  | Expanding, Expand throws => if (throws : bool) then guard_catch o else expand_next o
  | AwaitAliases address, Aliases targets => add address targets o
  | Writing, Write a ids now => on_write a ids now o
  | AwaitCommit, Commit ok => on_commit ok o
  | Enqueueing, EnqueueRun a => on_enqueue a o
  | AwaitTicket, Ticket a => on_ticket a o
  | _, _ => o
  end.

Definition run (evs : list Event) (o : Operation) : Operation := foldl (λ o ev, step ev o) o evs.
End Steps.

(** The events the operation waits for. *)
Definition awaited (st : Stage) (ev : Event) : bool :=
  match st, ev with
  | Starting, Start _ | AwaitQuota, Quota _ | Expanding, Expand _ | AwaitAliases _, Aliases _ | Writing, Write _ _ _
  | AwaitCommit, Commit _ | Enqueueing, EnqueueRun _ | AwaitTicket, Ticket _ => true
  | _, _ => false
  end.

(** ** Properties *)

(** The account and the message passed the checks of the first function. *)
Definition admissible (r : Request) : Prop :=
  user_id r ≠ 0 ∧ recipients r ≠ [] ∧ (length (recipients r) ≤ 100)%nat ∧ Z.of_nat (length (raw r)) ≤ 1024 * 1024.

Definition allowed (cfg : Config) (a : bytes) : Prop :=
  recipient_allowed a (system_domain cfg) (external_delivery_enabled cfg) = true.

(** The recipients of the mail against those asked for: every one was allowed, no
    two are the same up to case, and those of other domains are all there. *)
Definition expansion_of (cfg : Config) (asked targets : list bytes) : Prop :=
  Forall (allowed cfg) asked ∧ NoDup (to_lower <$> targets) ∧
  Forall (λ a, is_local cfg a = false → to_lower a ∈ to_lower <$> targets) asked.

(** What a finished operation may have done. *)
Inductive outcome (cfg : Config) (req : Request) : list Action → Prop :=
  | out_refused r : status r ≠ Accepted → outcome cfg req [Completed r]
  | out_withdrawn p r : status r = Unavailable →
      outcome cfg req [StoreBody p (raw req); RemoveObject p; RemoveObject (tree_path p); Completed r]
  | out_not_taken p r : status r = Unavailable →
      outcome cfg req [StoreBody p (raw req); SaveTree p; RemoveObject p; RemoveObject (tree_path p); Completed r]
  | out_unknown p r : status r = Unknown → outcome cfg req [StoreBody p (raw req); SaveTree p; Completed r]
  | out_taken m r : status r ≠ Rejected → status r ≠ AuthFailed → m_from m = sender req →
      admissible req → expansion_of cfg (recipients req) (m_to m) →
      outcome cfg req [StoreBody (m_body_path m) (raw req); SaveTree (m_body_path m); Enqueue m; Completed r].

Section Proofs.
Context (cfg : Config) (layout : MailObjectKeyLayout) (req : Request).

(** The set [seen] holds the lower case of the expansion, which has no duplicates. *)
Definition seen_ok (o : Operation) : Prop :=
  NoDup (to_lower <$> expanded o) ∧ ∀ k, k ∈ seen o ↔ k ∈ to_lower <$> expanded o.

(** The recipients before [left] were allowed and those of other domains expanded. *)
Definition expanding (o : Operation) : Prop :=
  request o = req ∧ admissible req ∧
  ∃ taken, recipients req = taken ++ left o ∧ Forall (allowed cfg) taken ∧
           Forall (λ a, is_local cfg a = false → to_lower a ∈ to_lower <$> expanded o) taken.

Definition quiet (o : Operation) : Prop :=
  actions o = [] ∧ complete o = true ∧ body_committed o = false ∧ admission_started o = false.

Definition mail_ok (m : Mail) : Prop :=
  m_from m = sender req ∧ admissible req ∧ expansion_of cfg (recipients req) (m_to m).

Definition Inv (o : Operation) : Prop :=
  match stage o with
  | Starting => quiet o ∧ data o = None ∧ request o = req ∧ left o = recipients req ∧ seen_ok o
  | AwaitQuota | Expanding | AwaitAliases _ => quiet o ∧ data o = None ∧ expanding o ∧ seen_ok o
  | Writing => quiet o ∧ data o = None ∧ expanding o ∧ seen_ok o ∧ left o = []
  | AwaitCommit => quiet o ∧ request o = req ∧ ∃ m, data o = Some m ∧ mail_ok m
  | Enqueueing => ∃ m, data o = Some m ∧ mail_ok m ∧ actions o = [StoreBody (m_body_path m) (raw req)] ∧
                       complete o = true ∧ body_committed o = true ∧ admission_started o = false
  | AwaitTicket => ∃ m, data o = None ∧ mail_ok m ∧ complete o = true ∧
                        actions o = [StoreBody (m_body_path m) (raw req); SaveTree (m_body_path m); Enqueue m]
  | Done => complete o = false ∧ outcome cfg req (actions o)
  end.

(** What is left to do, in events. *)
Definition work (o : Operation) : nat :=
  match stage o with
  | Starting => 2 * length (left o) + 7
  | AwaitQuota | Expanding => 2 * length (left o) + 5
  | AwaitAliases _ => 2 * length (left o) + 6
  | Writing => 4
  | AwaitCommit => 3
  | Enqueueing => 2
  | AwaitTicket => 1
  | Done => 0
  end.

Lemma fail_plain st c n o :
  data o = None ∨ body_committed o = false → complete o = true →
  stage (fail st c n o) = Done ∧ complete (fail st c n o) = false ∧
  actions (fail st c n o) = actions o ++ [Completed (mkResult st c n)].
Proof.
  intros H Hc. unfold fail. destruct (data o) as [m|] eqn:Ed; [destruct H as [? | ->]; [done |] |]; by rewrite Hc.
Qed.

(** A failure at which no body is left to remove. *)
Lemma fail_inv st c n o :
  data o = None ∨ body_committed o = false → complete o = true →
  outcome cfg req (actions o ++ [Completed (mkResult st c n)]) → Inv (fail st c n o) ∧ stage (fail st c n o) = Done.
Proof.
  intros H Hc Ho. destruct (fail_plain st c n o H Hc) as (E1 & E2 & E3). unfold Inv. by rewrite E1, E2, E3.
Qed.

(** A failure before anything was stored. *)
Lemma fail_quiet st c n o : quiet o → st ≠ Accepted → Inv (fail st c n o) ∧ stage (fail st c n o) = Done.
Proof.
  intros (Ha & Hc & Hb & _) Hst. apply fail_inv; [by right | done |]. rewrite Ha. by apply (out_refused _ _ (mkResult st c n)).
Qed.

Lemma guard_quiet o : quiet o → Inv (guard_catch o) ∧ stage (guard_catch o) = Done.
Proof. intros Hq. unfold guard_catch. apply fail_quiet; [done |]. by case_match. Qed.

Lemma work_done o : Inv o ∧ stage o = Done → ∀ n, (0 < n)%nat → Inv o ∧ (work o < n)%nat.
Proof. intros [H Hd] n Hn. split; [done |]. unfold work. by rewrite Hd. Qed.

(** The targets go through the set; nothing else of the operation changes. *)
Lemma add_targets_spec targets o :
  seen_ok o →
  let o' := add_targets targets o in
  seen_ok o' ∧ stage o' = stage o ∧ request o' = request o ∧ left o' = left o ∧ data o' = data o ∧
  (quiet o → quiet o') ∧ Forall (λ t, to_lower t ∈ to_lower <$> expanded o') targets ∧
  (∀ k, k ∈ to_lower <$> expanded o → k ∈ to_lower <$> expanded o').
Proof.
  revert o. induction targets as [| t targets IH]; intros o Hs; simpl; [by split_and!; [.. | done |] |].
  case_bool_decide as Ht.
  - destruct (IH o Hs) as (H1 & H2 & H3 & H4 & H5 & H6 & H7 & H8). split_and!; try done.
    constructor; [| done]. by apply H8, Hs.
  - set (o1 := mkOp _ _ _ _ _ _ _ _ _ _).
    assert (seen_ok o1) as Hs1.
    { destruct Hs as [Hn Hk]. split; simpl.
      - rewrite fmap_app. simpl. apply list.NoDup_app. split_and!; [done | | by apply list.NoDup_singleton].
        intros k Hk1 ->%list_elem_of_singleton. by apply Ht, Hk.
      - intros k. rewrite fmap_app, elem_of_app. simpl. rewrite list_elem_of_singleton, <- Hk. set_solver. }
    destruct (IH o1 Hs1) as (H1 & H2 & H3 & H4 & H5 & H6 & H7 & H8). simpl in *.
    assert (∀ k, k ∈ to_lower <$> expanded o → k ∈ to_lower <$> expanded o1) as Hin
      by (intros k Hk; simpl; rewrite fmap_app; apply elem_of_app; by left).
    split_and!; try done.
    + constructor; [| done]. apply H8. simpl. rewrite fmap_app. apply elem_of_app. right. by apply list_elem_of_singleton.
    + intros k Hk. by apply H8, Hin.
Qed.

(** One answer of [add]: back to [expand_next] with everything taken accounted for. *)
Lemma add_inv address targets o taken :
  quiet o → data o = None → request o = req → admissible req → seen_ok o →
  recipients req = taken ++ left o → Forall (allowed cfg) taken →
  Forall (λ a, is_local cfg a = false → to_lower a ∈ to_lower <$> expanded o ∨ (a = address ∧ targets = [])) taken →
  Inv (add address targets o) ∧ work (add address targets o) = (2 * length (left o) + 5)%nat.
Proof.
  intros Hq Hd Hr Ha Hs Hl Hal Hf. unfold add.
  set (ts := match targets with [] => [address] | _ => targets end).
  destruct (add_targets_spec ts o Hs) as (H1 & H2 & H3 & H4 & H5 & H6 & H7 & H8).
  set (o' := add_targets ts o) in *. split; [| unfold work; simpl; by rewrite H4].
  unfold Inv. simpl. split_and!; [by apply H6 | by rewrite H5 | | done].
  split; [simpl; by rewrite H3 |]. split; [done |]. exists taken. simpl. rewrite H4. split_and!; [done | done |].
  eapply Forall_impl; [| exact Hf]. intros a Hi Hx. destruct (Hi Hx) as [Hin | [-> Ht]]; [by apply H8 |].
  unfold ts in H7. rewrite Ht in H7. by apply Forall_inv in H7.
Qed.

Lemma expand_next_inv o :
  quiet o → data o = None → expanding o → seen_ok o →
  Inv (expand_next cfg o) ∧ (work (expand_next cfg o) < 2 * length (left o) + 5)%nat.
Proof.
  intros Hq Hd He Hs. unfold expand_next. destruct (left o) as [| address rest] eqn:El.
  { split; [unfold Inv; simpl; done | unfold work; simpl; lia]. }
  destruct (recipient_allowed _ _ _) eqn:Ha; simpl; [| apply work_done; [by apply fail_quiet | lia]].
  destruct He as (Hr & Hadm & taken & Hl & Hal & Hf). rewrite El, cons_middle, (assoc_L (++)) in Hl.
  assert (Forall (allowed cfg) (taken ++ [address])) as Hal' by (apply Forall_app; split; [done | by constructor]).
  destruct (is_local cfg address) eqn:Eloc.
  - split; [| unfold work; simpl; lia]. unfold Inv. simpl. split_and!; try done.
    split; [done |]. split; [done |]. exists (taken ++ [address]). split_and!; [done | done |].
    apply Forall_app. split; [done |]. constructor; [| done]. intros Hx. congruence.
  - destruct (add_inv address [] (pop_left rest o) (taken ++ [address])) as [Hi Hw]; try done.
    + apply Forall_app. split; [| constructor; [by intros _; right | done]].
      eapply Forall_impl; [| exact Hf]. intros a Hi Hx. left. by apply Hi.
    + split; [exact Hi |]. rewrite Hw. simpl. lia.
Qed.

Lemma aliases_inv address targets o :
  quiet o → data o = None → expanding o → seen_ok o →
  Inv (add address targets o) ∧ (work (add address targets o) < 2 * length (left o) + 6)%nat.
Proof.
  intros Hq Hd (Hr & Hadm & taken & Hl & Hal & Hf) Hs.
  destruct (add_inv address targets o taken) as [Hi Hw]; try done; [| split; [exact Hi | lia]].
  eapply Forall_impl; [| exact Hf]. intros a Hi Hx. left. by apply Hi.
Qed.

Lemma on_start_inv a o :
  quiet o → data o = None → request o = req → left o = recipients req → seen_ok o →
  Inv (on_start a o) ∧ (work (on_start a o) < 2 * length (left o) + 7)%nat.
Proof.
  intros Hq Hd Hr Hl Hs. unfold on_start. destruct a as [[route actor]|]; [| apply work_done; [by apply guard_quiet | lia]].
  destruct (_ || _) eqn:E1; [apply work_done; [by apply fail_quiet | lia] |].
  destruct actor; [| apply work_done; [by apply fail_quiet | lia].. ].
  case_match eqn:E2; [apply work_done; [by apply fail_quiet | lia] |].
  apply orb_false_iff in E1 as [_ E1]. apply orb_false_iff in E2 as [E2 E3]. apply orb_false_iff in E2 as [E2 E4].
  apply bool_decide_eq_false in E2. rewrite Hr in *. split; [| unfold work; simpl; lia].
  unfold Inv. simpl. split_and!; try done. split; [done |]. split; [unfold admissible; split_and!; [lia | done | |]|].
  - apply Nat.ltb_ge in E4. lia.
  - lia.
  - exists []. simpl. by rewrite Hl.
Qed.

Lemma on_write_inv a ids now o :
  quiet o → data o = None → expanding o → seen_ok o → left o = [] →
  Inv (on_write layout a ids now o) ∧ (work (on_write layout a ids now o) < 4)%nat.
Proof.
  intros Hq Hd (Hr & Hadm & taken & Hl & Hal & Hf) [Hs _] El. rewrite El, app_nil_r in Hl. subst taken.
  destruct a; simpl; try (apply work_done; [by apply fail_quiet | lia]); [| apply work_done; [by apply guard_quiet | lia]].
  split; [| unfold work; simpl; lia]. unfold Inv. simpl. split_and!; try done.
  eexists. split; [reflexivity |]. unfold mail_ok, expansion_of, build_mail. simpl. by rewrite Hr.
Qed.

(** A failure with a body stored that nobody owns. *)
Lemma fail_withdraws st c n m o :
  data o = Some m → body_committed o = true → complete o = true →
  stage (fail st c n o) = Done ∧ complete (fail st c n o) = false ∧
  actions (fail st c n o) =
    actions o ++ [RemoveObject (m_body_path m); RemoveObject (tree_path (m_body_path m)); Completed (mkResult st c n)].
Proof. intros Hd Hb Hc. unfold fail. rewrite Hd, Hb. simpl. rewrite Hc. simpl. by rewrite <- !(assoc_L (++)). Qed.

Lemma on_enqueue_inv a m o :
  data o = Some m → mail_ok m → actions o = [StoreBody (m_body_path m) (raw req)] →
  complete o = true → body_committed o = true → admission_started o = false →
  Inv (on_enqueue a o) ∧ (work (on_enqueue a o) < 2)%nat.
Proof.
  intros Hd Hm Ha Hc Hb Hs. unfold on_enqueue. rewrite Hd. pose proof Hm as (Hm1 & Hm2 & Hm3).
  destruct a; cbn [admission_started start_admission set_data act guard_catch].
  - unfold guard_catch. rewrite Hs. destruct (fail_withdraws Unavailable 451 (s! "internal") m o) as (E1 & E2 & E3); try done.
    apply work_done; [| lia]. unfold Inv. rewrite E1, E2, E3, Ha. split; [| done]. split; [done |]. by apply out_withdrawn.
  - apply work_done; [| lia]. apply fail_inv; [by left | done |]. simpl. rewrite Ha. by apply out_unknown.
  - apply work_done; [| lia]. apply fail_inv; [by left | done |]. simpl. rewrite Ha. by apply out_not_taken.
  - apply work_done; [| lia]. apply fail_inv; [by left | done |]. simpl. rewrite Ha. by apply out_taken.
  - split; [| unfold work; simpl; lia]. unfold Inv. simpl. exists m. split_and!; try done. by rewrite Ha.
Qed.

Lemma on_ticket_inv a m o :
  data o = None → mail_ok m → complete o = true →
  actions o = [StoreBody (m_body_path m) (raw req); SaveTree (m_body_path m); Enqueue m] →
  Inv (on_ticket a o) ∧ (work (on_ticket a o) < 1)%nat.
Proof.
  intros Hd (H1 & H2 & H3) Hc Ha.
  destruct a; simpl; [apply work_done; [apply fail_inv; [by left | done | rewrite Ha; by apply out_taken] | lia].. |].
  apply work_done; [| lia]. unfold Inv. simpl. rewrite Ha. split; [split; [done | by apply out_taken] | done].
Qed.

(** Every event keeps the invariant, and one that is awaited shortens the work. *)
Lemma submission_step_inv ev o :
  Inv o → Inv (step cfg layout ev o) ∧ (awaited (stage o) ev = true → (work (step cfg layout ev o) < work o)%nat).
Proof.
  intros Hi. assert (awaited (stage o) ev = false ∨
    (Inv (step cfg layout ev o) ∧ (work (step cfg layout ev o) < work o)%nat)) as [E | [H1 H2]]; [| | done].
  2:{ assert (step cfg layout ev o = o) as -> by (unfold step; destruct (stage o), ev; done). split; [done | congruence]. }
  unfold Inv in Hi. unfold step, work at 2. destruct (stage o) eqn:Es, ev; simpl; try (by left); right.
  - destruct Hi as (H1 & H2 & H3 & H4 & H5). by apply on_start_inv.
  - destruct Hi as (H1 & H2 & H3 & H4). unfold on_quota.
    destruct allowed0; simpl; [by apply expand_next_inv | apply work_done; [by apply fail_quiet | lia]].
  - destruct Hi as (H1 & H2 & H3 & H4). case_match; [apply work_done; [by apply guard_quiet | lia] | by apply expand_next_inv].
  - destruct Hi as (H1 & H2 & H3 & H4). by apply aliases_inv.
  - destruct Hi as (H1 & H2 & H3 & H4 & H5). by apply on_write_inv.
  - destruct Hi as (H1 & H2 & m & H3 & H4). unfold on_commit.
    destruct ok; simpl; [| apply work_done; [by apply fail_quiet | lia]].
    split; [| unfold work; simpl; lia]. destruct H1 as (Ha & Hc & Hb & Hs). unfold Inv. simpl. exists m.
    split_and!; try done. by rewrite Ha, H2, H3.
  - destruct Hi as (m & H1 & H2 & H3 & H4 & H5 & H6). by apply (on_enqueue_inv _ m).
  - destruct Hi as (m & H1 & H2 & H3 & H4). by apply (on_ticket_inv _ m).
Qed.

Lemma submit_inv : Inv (submit_async req).
Proof. unfold Inv. simpl. split_and!; try done. split; [by apply list.NoDup_nil |]. intros k. simpl. by rewrite elem_of_empty, elem_of_nil. Qed.

Lemma submission_run_inv evs o : Inv o → Inv (run cfg layout evs o).
Proof. unfold run. revert o. induction evs as [| ev evs IH]; intros o Hi; simpl; [done |]. by apply IH, submission_step_inv. Qed.
End Proofs.

(** C32: A submission accounts for everything it did, whatever the answers, failures and
    exceptions and however the events come: when it is done its callback was called
    exactly once and its actions have one of the shapes of [outcome]: the mail
    is accepted only after its body was stored and the queue took it, with every
    recipient allowed, none twice, and none of other domains missing; a body is left behind only
    when the queue has the mail or the caller was told that the outcome is
    unknown.  Until then the callback was not called. *)
Theorem submission_accounted (cfg : Config) (layout : MailObjectKeyLayout) (req : Request) (evs : list Event) :
  let o := run cfg layout evs (submit_async req) in
  (stage o = Done → outcome cfg req (actions o)) ∧
  (stage o ≠ Done → ∀ r, Completed r ∉ actions o).
Proof.
  intros o. pose proof (submission_run_inv cfg layout req evs _ (submit_inv cfg req)) as Hi. fold o in Hi. unfold Inv in Hi.
  split; [intros E; rewrite E in Hi; apply Hi |]. intros Hd r.
  destruct (stage o); try done; try (destruct Hi as [[-> _] _]; by apply not_elem_of_nil).
  - destruct Hi as (m & _ & _ & -> & _). rewrite list_elem_of_singleton. discriminate.
  - destruct Hi as (m & _ & _ & _ & ->). rewrite !elem_of_cons, elem_of_nil. naive_solver.
Qed.

(** It comes to an end: answered [2 * n + 7] times, each time with an event that
    it waits for, a submission to [n] recipients is done. *)
Theorem submission_completes (cfg : Config) (layout : MailObjectKeyLayout) (req : Request) (answer : Operation → Event) :
  (∀ o, stage o ≠ Done → awaited (stage o) (answer o) = true) →
  stage (Nat.iter (2 * length (recipients req) + 7) (λ o, step cfg layout (answer o) o) (submit_async req)) = Done.
Proof.
  intros Ha. set (f := λ o, step cfg layout (answer o) o).
  assert (∀ n, Inv cfg req (Nat.iter n f (submit_async req)) ∧
    (work (Nat.iter n f (submit_async req)) ≤ 2 * length (recipients req) + 7 - n)%nat) as H.
  { induction n as [| n [IH1 IH2]]; [split; [apply submit_inv | unfold work; simpl; lia] |].
    rewrite Nat.iter_succ. set (o := Nat.iter n f _) in *. unfold f. destruct (submission_step_inv cfg layout req (answer o) o IH1) as [H1 H2].
    split; [done |]. destruct (decide (work o = 0%nat)) as [Hw | Hw]; [| assert (stage o ≠ Done) as Hd
      by (intros E; apply Hw; unfold work; by rewrite E); specialize (H2 (Ha o Hd)); lia].
    assert (stage o = Done) as E by (unfold work in Hw; destruct (stage o); done || lia).
    unfold step. rewrite E. destruct (answer o); lia. }
  destruct (H (2 * length (recipients req) + 7)%nat) as [_ Hw]. rewrite Nat.sub_diag in Hw.
  unfold work in Hw. destruct (stage _); done || lia.
Qed.

(** A conversation of every event in turn, for examples. *)
Definition sample_answer (o : Operation) : Event :=
  match stage o with
  | Starting => Start (Some (0, ActorValid))
  | AwaitQuota => Quota true
  | Expanding => Expand false
  | AwaitAliases _ => Aliases []
  | Writing => Write Written (λ n, 70 + Z.of_nat n) 5
  | AwaitCommit => Commit true
  | Enqueueing => EnqueueRun TakenByQueue
  | _ => Ticket Persisted
  end.

Definition sample_config : Config := mkConfig (s! "b.org") true.
Definition sample_request (recipients : list bytes) : Request :=
  mkRequest 9 (s! "a@b.org") (s! "hi") (s! "<1@b.org>") (s! "text") recipients.

Lemma submission_completes_witness :
  stage (Nat.iter 11 (λ o, step sample_config (new_layout KS3 [] []) (sample_answer o) o)
    (submit_async (sample_request [s! "u@b.org"; s! "U@B.ORG"]))) = Done.
Proof.
  apply (submission_completes sample_config (new_layout KS3 [] []) (sample_request [s! "u@b.org"; s! "U@B.ORG"]) sample_answer).
  intros o Hd. unfold sample_answer. by destruct (stage o).
Defined.

(** The same address in two spellings is one recipient; a recipient that is not
    allowed, here one of another domain, refuses the whole mail. *)
Example submission_sample :
  let go := λ cfg rs, Nat.iter (2 * length rs + 7) (λ o, step cfg (new_layout KS3 [] []) (sample_answer o) o)
                    (submit_async (sample_request rs)) in
  actions (go sample_config [s! "u@b.org"; s! "U@B.ORG"; s! "x@y.net"]) =
    [StoreBody (s! "mail/70") (s! "text"); SaveTree (s! "mail/70");
     Enqueue (mkMail 70 (s! "a@b.org") [s! "u@b.org"; s! "x@y.net"] [71; 72] (s! "hi") (s! "<1@b.org>") 5 true 1 1 true (s! "mail/70"));
     Completed (mkResult Accepted 250 (s! "persist"))] ∧
  actions (go (mkConfig (s! "b.org") false) [s! "u@b.org"; s! "x@y.net"]) = [Completed (mkResult Rejected 550 (s! "rcpt"))].
Proof. vm_compute. split; reflexivity. Qed.

(** ** Keys *)

Lemma digits_then_inj (d d' r r' : bytes) :
  Forall (λ b, isdigit b = true) d → Forall (λ b, isdigit b = true) d' → d ++ 95 :: r = d' ++ 95 :: r' → d = d' ∧ r = r'.
Proof.
  intros H. revert d'. induction H as [| c d Hc Hd IH]; intros [| c' d'] H' E; simpl in E; simplify_eq; try done.
  - apply Forall_inv in H'. by vm_compute in H'.
  - apply Forall_inv_tail in H'. by edestruct IH as [-> ->].
Qed.

Lemma to_string_inj n m : 0 ≤ n → 0 ≤ m → to_string n = to_string m → n = m.
Proof. intros Hn Hm E. rewrite <- (to_string_value n Hn), <- (to_string_value m Hm). by rewrite E. Qed.

Lemma sanitized_plain name c : c ∈ [47; 92; 32; 58; 42] → c ∉ sanitize_key_filename name.
Proof.
  intros Hc. destruct name as [| n name]; [vm_compute; set_solver |].
  unfold sanitize_key_filename. intros (x & Hx & _)%list_elem_of_fmap.
  destruct (existsb (Z.eqb x) [47; 92; 32; 58; 42]) eqn:E; [subst c; set_solver |]. subst c.
  assert (existsb (Z.eqb x) [47; 92; 32; 58; 42] = true); [| congruence].
  apply existsb_exists. exists x. split; [by apply list_elem_of_In | lia].
Qed.

(** On a local disk an attachment, whatever its name says, is a file right under the
    attachment root, and two attachments share a key only when the mail, the number of
    the attachment and the cleaned name are all the same. *)
Theorem attachment_key_flat (l l' : MailObjectKeyLayout) (id id' : Z) (name name' : bytes) :
  kind_ l = KLocal → kind_ l' = KLocal → attachment_root_ l = attachment_root_ l' → 0 ≤ id → 0 ≤ id' →
  (∃ file, (build_attachment_key l id name).1 = attachment_root_ l ++ file ∧ 47 ∉ file ∧ 92 ∉ file) ∧
  ((build_attachment_key l id name).1 = (build_attachment_key l' id' name').1 →
   id = id' ∧ to_u64 (attachment_seq_ l + 1) = to_u64 (attachment_seq_ l' + 1) ∧
   sanitize_key_filename name = sanitize_key_filename name').
Proof.
  intros Hk Hk' Hr Hi Hi'. unfold build_attachment_key. rewrite Hk, Hk'. simpl.
  rewrite <- !(assoc_L (++)), <- Hr. set (q := to_u64 _). set (q' := to_u64 (attachment_seq_ l' + 1)).
  assert (0 ≤ q ∧ 0 ≤ q') as [Hq Hq'] by (split; apply to_u64_range).
  split.
  - eexists. split; [reflexivity |].
    assert (∀ c, c = 47 ∨ c = 92 → c ∉ to_string id ++ s! "_" ++ to_string q ++ s! "_" ++ sanitize_key_filename name) as H.
    { intros c Hc. rewrite !elem_of_app. intros [H | [H | [H | [H | H]]]].
      - pose proof (proj1 (list.Forall_forall _ _) (to_string_digits id Hi) c H). by destruct Hc as [-> | ->].
      - vm_compute in H. set_solver.
      - pose proof (proj1 (list.Forall_forall _ _) (to_string_digits q Hq) c H). by destruct Hc as [-> | ->].
      - vm_compute in H. set_solver.
      - apply (sanitized_plain name c); [set_solver | done]. }
    split; apply H; auto.
  - intros E%app_inv_head. apply digits_then_inj in E as [E1 E]; [| by apply to_string_digits..].
    apply digits_then_inj in E as [E2 E3]; [| by apply to_string_digits..].
    split_and!; [by apply to_string_inj | by apply to_string_inj | done].
Qed.

Lemma attachment_key_flat_witness :
  (build_attachment_key (new_layout KLocal [] (s! "att")) 7 (s! "../x y")).1 = s! "att/7_1_.._x_y" ∧
  ∃ file, (build_attachment_key (new_layout KLocal [] (s! "att")) 7 (s! "../x y")).1 = s! "att/" ++ file ∧ 47 ∉ file ∧ 92 ∉ file.
Proof.
  split; [vm_compute; reflexivity |].
  apply (attachment_key_flat (new_layout KLocal [] (s! "att")) (new_layout KLocal [] (s! "att")) 7 7 (s! "../x y") (s! "../x y"));
    first [reflexivity | lia].
Defined.
