(* ===== verification/Bcrypt.v ===== *)
(** * Password hashes

    Models [common/bcrypt.cpp]: bcrypt with its own base64, the recognition of
    the three stored formats and their verification.  Random bytes and MD5 are
    parameters.  A 32-bit word is a [Z] with [to_u32] where it can wrap. *)

From S2P Require Import Prelude CString BcryptTables.

(** ** Base64 of bcrypt *)

Definition kBase64Code : bytes := s! "./ABCDEFGHIJKLMNOPQRSTUVWXYZabcdefghijklmnopqrstuvwxyz0123456789".

Definition b64_char (n : Z) : Z := nth (Z.to_nat n) kBase64Code 0.

(** [build_b64_decode] *)
Definition kB64Dec : list Z :=
  foldl (λ t i, <[Z.to_nat (b64_char (Z.of_nat i)) := Z.of_nat i]> t) (replicate 128 255) (seq 0 64).

(** [room] is what is left of [out_chars]; a group of three writes its last
    character without looking at it. *)
Fixpoint b64_encode (src : bytes) (room : nat) : bytes :=
  match src, room with
  | [], _ | _, O => []
  | c1 :: src, S room =>
      b64_char (Z.land (Z.shiftr c1 2) 63) ::
      match room with
      | O => []
      | S room =>
          let c1 := Z.shiftl (Z.land c1 3) 4 in
          match src with
          | [] => [b64_char (Z.land c1 63)]
          | c2 :: src =>
              b64_char (Z.land (Z.lor c1 (Z.land (Z.shiftr c2 4) 15)) 63) ::
              match room with
              | O => []
              | S room =>
                  let c1 := Z.shiftl (Z.land c2 15) 2 in
                  match src with
                  | [] => [b64_char (Z.land c1 63)]
                  | c3 :: src =>
                      b64_char (Z.land (Z.lor c1 (Z.land (Z.shiftr c3 6) 3)) 63) ::
                      b64_char (Z.land c3 63) :: b64_encode src (room - 1)
                  end
              end
          end
      end
  end.

Fixpoint b64_decode (val bits : Z) (src : bytes) : bytes :=
  match src with
  | [] => []
  | c :: src =>
      let val := Z.lor (to_u32 (Z.shiftl val 6)) (if c <? 128 then nth (Z.to_nat c) kB64Dec 0 else 0) in
      let bits := bits + 6 in
      if 8 <=? bits
      then Z.land (Z.shiftr val (bits - 8)) 255 :: b64_decode val (bits - 8) src
      else b64_decode val bits src
  end.

(** ** Blowfish *)

Record BlowfishCtx := mkCtx { ctx_P : list Z; ctx_S : list (list Z) }.

Definition word (l : list Z) (i : nat) : Z := nth i l 0.
Definition box (ctx : BlowfishCtx) (b : nat) (x : Z) : Z := word (nth b (ctx_S ctx) []) (Z.to_nat x).

Definition bf_f (ctx : BlowfishCtx) (x : Z) : Z :=
  to_u32 (Z.lxor (to_u32 (box ctx 0 (Z.shiftr x 24) + box ctx 1 (Z.land (Z.shiftr x 16) 255)))
                 (box ctx 2 (Z.land (Z.shiftr x 8) 255)) +
          box ctx 3 (Z.land x 255)).

(** Two rounds of the loop. *)
Definition bf_round (ctx : BlowfishCtx) (x : Z * Z) (i : nat) : Z * Z :=
  let '(xl, xr) := x in
  let xr := Z.lxor xr (Z.lxor (bf_f ctx xl) (word (ctx_P ctx) i)) in
  let xl := Z.lxor xl (Z.lxor (bf_f ctx xr) (word (ctx_P ctx) (i + 1))) in
  (xl, xr).

Definition bf_encrypt (ctx : BlowfishCtx) (xl xr : Z) : Z * Z :=
  let '(xl, xr) := foldl (bf_round ctx) (Z.lxor xl (word (ctx_P ctx) 0), xr) [1; 3; 5; 7; 9; 11; 13; 15]%nat in
  (Z.lxor xr (word (ctx_P ctx) 17), xl).

(** ** The key setup *)

Definition stream_byte (data : bytes) (st : Z * nat) : Z * nat :=
  let '(temp, j) := st in
  let j := if (length data <=? j)%nat then 0%nat else j in
  (Z.lor (to_u32 (Z.shiftl temp 8)) (nth j data 0), (j + 1)%nat).

(** A word of the data, taken round and round from the position [j]. *)
Definition stream2word (data : bytes) (j : nat) : Z * nat :=
  stream_byte data (stream_byte data (stream_byte data (stream_byte data (0, j)))).

(** The first [n] words of the stream. *)
Fixpoint stream_words (data : bytes) (n : nat) (j : nat) : list Z :=
  match n with
  | O => []
  | S n => let '(w, j) := stream2word data j in w :: stream_words data n j
  end.

(** The loop that puts key or salt into [P]. *)
Definition xor_P (data : bytes) (ctx : BlowfishCtx) : BlowfishCtx :=
  mkCtx (zip_with Z.lxor (ctx_P ctx) (stream_words data 18 0)) (ctx_S ctx).

(** Where a pair of words goes. *)
Inductive Slot := SlotP (i : nat) | SlotS (b i : nat).

Definition slots : list Slot :=
  ((λ i, SlotP (2 * i)) <$> seq 0 9) ++
  concat ((λ b, (λ i, SlotS b (2 * i)) <$> seq 0 128) <$> seq 0 4).

Definition write_pair (s : Slot) (bl br : Z) (ctx : BlowfishCtx) : BlowfishCtx :=
  match s with
  | SlotP i => mkCtx (<[S i := br]> (<[i := bl]> (ctx_P ctx))) (ctx_S ctx)
  | SlotS b i => mkCtx (ctx_P ctx) (alter (λ t, <[S i := br]> (<[i := bl]> t)) b (ctx_S ctx))
  end.

Record Fill := mkFill { f_ctx : BlowfishCtx; f_bl : Z; f_br : Z; f_j : nat }.

(** One pair of words; [salt] is mixed into the block in the first expansion only. *)
Definition fill_step (salt : option bytes) (f : Fill) (s : Slot) : Fill :=
  let '(bl, br, j) :=
    match salt with
    | Some salt =>
        let '(w1, j) := stream2word salt (f_j f) in
        let '(w2, j) := stream2word salt j in
        (Z.lxor (f_bl f) w1, Z.lxor (f_br f) w2, j)
    | None => (f_bl f, f_br f, f_j f)
    end in
  let '(bl, br) := bf_encrypt (f_ctx f) bl br in
  mkFill (write_pair s bl br (f_ctx f)) bl br j.

Definition fill (salt : option bytes) (ctx : BlowfishCtx) : BlowfishCtx :=
  f_ctx (foldl (fill_step salt) (mkFill ctx 0 0 0) slots).

Definition expand0 (data : bytes) (ctx : BlowfishCtx) : BlowfishCtx := fill None (xor_P data ctx).

Definition eks_blowfish_setup (salt key : bytes) (cost : Z) : BlowfishCtx :=
  Z.iter (to_u32 (Z.shiftl 1 cost)) (λ ctx, expand0 salt (expand0 key ctx))
    (fill (Some salt) (xor_P key (mkCtx kInitP kInitS))).

(** ** The hash *)

(** The bytes of the password with its terminator, at most 72. *)
Definition key_of (password : bytes) : bytes :=
  let key := take 72 password in
  if (length password <? 72)%nat then key ++ [0] else key.

Definition magic : bytes := s! "OrpheanBeholderScryDoubt".

(** A word from bytes and back, big endian. *)
Definition be_word (l : bytes) : Z :=
  Z.lor (Z.lor (Z.lor (Z.shiftl (word l 0) 24) (Z.shiftl (word l 1) 16)) (Z.shiftl (word l 2) 8)) (word l 3).
Definition word_bytes (w : Z) : bytes :=
  [to_u8 (Z.shiftr w 24); to_u8 (Z.shiftr w 16); to_u8 (Z.shiftr w 8); to_u8 w].

Definition encrypt_block (ctx : BlowfishCtx) (block : Z * Z) : Z * Z := bf_encrypt ctx block.1 block.2.

(** The three blocks, all encrypted 64 times. *)
Definition cdata (ctx : BlowfishCtx) : list (Z * Z) :=
  Nat.iter 64 (fmap (encrypt_block ctx))
    ((λ b, (be_word (drop (8 * b) magic), be_word (drop (8 * b + 4) magic))) <$> [0; 1; 2]%nat).

Definition ciphertext (ctx : BlowfishCtx) : bytes :=
  concat ((λ x, word_bytes x.1 ++ word_bytes x.2) <$> cdata ctx).

(** [%02u] *)
Definition two_digits (n : Z) : bytes := if n <? 10 then s! "0" ++ to_string n else to_string n.

Definition hash_part (password salt : bytes) (cost : Z) : bytes :=
  b64_encode (take 23 (ciphertext (eks_blowfish_setup salt (key_of password) cost))) 31.

Definition bcrypt_hashpw (password salt : bytes) (cost : Z) : bytes :=
  s! "$2b$" ++ two_digits cost ++ s! "$" ++ b64_encode salt 22 ++ hash_part password salt cost.

(** [RAND_bytes] gives the salt or fails. *)
Definition bcrypt_hash (rand : option bytes) (password : bytes) (cost : Z) : bytes :=
  let cost := if cost <? 4 then 4 else cost in
  let cost := if 31 <? cost then 31 else cost in
  match rand with
  | None => []
  | Some salt => bcrypt_hashpw password salt cost
  end.

(** A [char] read as a signed number. *)
Definition schar (c : Z) : Z := if c <? 128 then c else c - 256.

Definition parse_cost (hash : bytes) : Z :=
  to_u32 ((schar (word hash 4) - 48) * 10 + (schar (word hash 5) - 48)).

(** The checks before the cost is used. *)
Definition bcrypt_shape (hash : bytes) : bool :=
  (60 <=? length hash)%nat && (word hash 0 =? 36) && (word hash 1 =? 50) && (word hash 3 =? 36) &&
  existsb (Z.eqb (word hash 2)) (s! "abxy") &&
  (4 <=? parse_cost hash) && (parse_cost hash <=? 31) && (word hash 6 =? 36).

Definition hash_salt (hash : bytes) : bytes := b64_decode 0 0 (take 22 (drop 7 hash)).

Definition bcrypt_verify (password hash : bytes) : bool :=
  if negb (bcrypt_shape hash) then false else
  let computed := bcrypt_hashpw password (hash_salt hash) (parse_cost hash) in
  if (length computed <? 60)%nat then false
  else bool_decide (take 31 (drop 29 computed) = take 31 (drop 29 hash)).

(** ** The stored formats *)

Definition is_bcrypt_hash (stored : bytes) : bool :=
  (2 <=? length stored)%nat && (word stored 0 =? 36) && (word stored 1 =? 50).

Definition looks_like_md5_hex (s : bytes) : bool :=
  (length s =? 32)%nat && forallb (λ c, (48 <=? c) && (c <=? 57) || (97 <=? c) && (c <=? 102)) s.

Definition hex_digit (n : Z) : Z := if n <? 10 then 48 + n else 87 + n.
Definition hex (digest : bytes) : bytes := concat ((λ b, [hex_digit (Z.shiftr b 4); hex_digit (Z.land b 15)]) <$> digest).

(** [md5] is [EVP_Digest] with its outcome. *)
Definition verify_password_hash (md5 : bytes → option bytes) (input stored : bytes) : bool :=
  if is_bcrypt_hash stored then bcrypt_verify input stored else
  if looks_like_md5_hex stored then
    match md5 input with
    | Some digest => if (length digest =? 16)%nat then bool_decide (stored = hex digest) else false
    | None => false
    end
  else bool_decide (stored = input).

Definition password_needs_rehash (stored : bytes) : bool := negb (is_bcrypt_hash stored).

(** ** Base64: what is encoded comes back *)

Definition b64_room (n : nat) : nat := Nat.div (4 * n + 2) 3.

Lemma b64_digit n : 0 ≤ n < 64 →
  (b64_char n <? 128) = true ∧ nth (Z.to_nat (b64_char n)) kB64Dec 0 = n.
Proof.
  intros Hn. assert (forallb (λ n, (b64_char n <? 128) && (nth (Z.to_nat (b64_char n)) kB64Dec 0 =? n)) (seqZ 0 64) = true) as H
    by (vm_compute; reflexivity).
  rewrite forallb_forall in H. assert (In n (seqZ 0 64)) as Hin by (apply list_elem_of_In, elem_of_seqZ; lia). specialize (H n Hin).
  bool_prop. by split; [apply Z.ltb_lt |].
Qed.

(** One more character: only the low bits of the accumulator matter. *)
Lemma b64_bits v v' d bits i :
  0 ≤ bits < 8 → (∀ j, 0 ≤ j < bits → Z.testbit v j = Z.testbit v' j) → 0 ≤ i < bits + 6 →
  Z.testbit (Z.lor (to_u32 (Z.shiftl v 6)) d) i = Z.testbit (Z.lor (to_u32 (Z.shiftl v' 6)) d) i.
Proof.
  intros Hb H Hi. unfold to_u32. rewrite !Z.lor_spec, !Z.mod_pow2_bits_low, !Z.shiftl_spec by lia. f_equal.
  destruct (Z.leb_spec 6 i); [apply H; lia | by rewrite !Z.testbit_neg_r by lia].
Qed.

Lemma b64_decode_agree src v v' bits :
  0 ≤ bits < 8 → (∀ j, 0 ≤ j < bits → Z.testbit v j = Z.testbit v' j) → b64_decode v bits src = b64_decode v' bits src.
Proof.
  revert v v' bits. induction src as [| c src IH]; intros v v' bits Hb H; [done |]. cbn [b64_decode].
  set (d := if c <? 128 then _ else _). pose proof (b64_bits v v' d bits) as Hd.
  destruct (Z.leb_spec 8 (bits + 6)); [| apply IH; [lia |]; intros j Hj; by apply Hd].
  f_equal; [| apply IH; [lia |]; intros j Hj; apply Hd; lia || done].
  apply Z.bits_inj'. intros i Hi. rewrite !Z.land_spec, !Z.shiftr_spec by lia.
  destruct (Z.ltb_spec i 8); [f_equal; apply Hd; lia || done |].
  replace (Z.testbit 255 i) with false; [by rewrite !andb_false_r |]. symmetry.
  change 255 with (Z.ones 8). rewrite Z.ones_spec_high by lia. done.
Qed.

Lemma b64_decode_digit v bits n src :
  0 ≤ n < 64 →
  b64_decode v bits (b64_char n :: src) =
  let val := Z.lor (to_u32 (Z.shiftl v 6)) n in
  if 8 <=? bits + 6 then Z.land (Z.shiftr val (bits - 2)) 255 :: b64_decode val (bits - 2) src
  else b64_decode val (bits + 6) src.
Proof.
  intros Hn. destruct (b64_digit n Hn) as [H1 H2]. cbn [b64_decode]. rewrite H1, H2. cbn zeta.
  replace (bits + 6 - 8) with (bits - 2) by lia. done.
Qed.

Lemma land_digit z : 0 ≤ Z.land z 63 < 64.
Proof. change 63 with (Z.ones 6). rewrite Z.land_ones by lia. apply Z.mod_pos_bound. lia. Qed.

Lemma byte_high c i : byte_ok c → 8 ≤ i → Z.testbit c i = false.
Proof.
  intros Hc Hi. unfold byte_ok in Hc. rewrite <- (Z.mod_small c (2 ^ 8)) by lia. by apply Z.mod_pow2_bits_high; lia.
Qed.

(** Equality of two bytes, bit by bit. *)
Ltac bit_step :=
  rewrite ?Z.lor_spec, ?Z.land_spec, ?Z.shiftr_spec, ?Z.shiftl_spec, ?Z.mod_pow2_bits_low by lia;
  cbn [Z.add Z.sub Z.opp Z.pos_sub Pos.add Pos.pred_double Z.double Z.succ_double Z.pred_double Pos.succ].
Ltac byte_bits :=
  let i := fresh "i" in
  apply Z.bits_inj'; intros i ?;
  destruct (Z.ltb_spec i 8);
  [ unfold to_u32;
    assert (i = 0 ∨ i = 1 ∨ i = 2 ∨ i = 3 ∨ i = 4 ∨ i = 5 ∨ i = 6 ∨ i = 7) as Hcases by lia;
    destruct Hcases as [-> | [-> | [-> | [-> | [-> | [-> | [-> | ->]]]]]]]; do 6 bit_step;
    cbn [Z.testbit Pos.testbit Pos.pred_N N.pred N.testbit Pos.pred]; rewrite ?andb_true_r, ?andb_false_r, ?orb_false_r, ?orb_false_l; try done
  | rewrite Z.land_spec; change 255 with (Z.ones 8); rewrite Z.ones_spec_high by lia; rewrite andb_false_r; symmetry;
    apply byte_high; [done | lia] ].

(** The next character of an encoded group. *)
Ltac decode_digit :=
  rewrite b64_decode_digit by apply land_digit; cbn zeta;
  match goal with |- context [8 <=? ?b + 6] => let r := eval vm_compute in (8 <=? b + 6) in change (8 <=? b + 6) with r end;
  cbv iota.

Lemma b64_group v c1 c2 c3 src n :
  byte_ok c1 → byte_ok c2 → byte_ok c3 →
  b64_decode v 0 (b64_encode (c1 :: c2 :: c3 :: src) (4 + n)) = c1 :: c2 :: c3 :: b64_decode 0 0 (b64_encode src n).
Proof.
  intros H1 H2 H3. cbn [b64_encode Nat.add].
  do 4 decode_digit.
  replace (S n - 1)%nat with n by lia. f_equal; [byte_bits |]. f_equal; [byte_bits |]. f_equal; [byte_bits |].
  apply b64_decode_agree; lia.
Qed.

Lemma b64_tail2 v c1 c2 n :
  byte_ok c1 → byte_ok c2 → b64_decode v 0 (b64_encode [c1; c2] (3 + n)) = [c1; c2].
Proof.
  intros H1 H2. cbn [b64_encode Nat.add].
  do 3 decode_digit.
  f_equal; [byte_bits |]. f_equal. byte_bits.
Qed.

Lemma b64_tail1 v c1 n : byte_ok c1 → b64_decode v 0 (b64_encode [c1] (2 + n)) = [c1].
Proof.
  intros H1. cbn [b64_encode Nat.add].
  do 2 decode_digit.
  f_equal. byte_bits.
Qed.

Lemma b64_room_group n : b64_room (3 + n) = (4 + b64_room n)%nat.
Proof. unfold b64_room. replace (4 * (3 + n) + 2)%nat with (4 * 3 + (4 * n + 2))%nat by lia. rewrite Nat.div_add_l by lia. done. Qed.

(** Lists in groups of three. *)
Lemma list_ind3 {A} (Q : list A → Prop) :
  Q [] → (∀ a, Q [a]) → (∀ a b, Q [a; b]) → (∀ a b c l, Q l → Q (a :: b :: c :: l)) → ∀ l, Q l.
Proof. intros H0 H1 H2 H3. fix IH 1. intros [| a [| b [| c l]]]; [done | apply H1 | apply H2 | apply H3, IH]. Qed.

(** The base64 of bcrypt loses nothing: decoding gives back every byte, for the
    [4/3] characters that the code asks for. *)
Theorem b64_roundtrip (src : bytes) :
  bytes_ok src → b64_decode 0 0 (b64_encode src (b64_room (length src))) = src ∧
  length (b64_encode src (b64_room (length src))) = b64_room (length src).
Proof.
  induction src as [| a | a b | a b c l IH] using list_ind3; intros Hb.
  - done.
  - apply Forall_inv in Hb. split; [by apply (b64_tail1 0 a 0) | done].
  - inversion Hb as [| ? ? Ha Hb']; subst. apply Forall_inv in Hb'. split; [by apply (b64_tail2 0 a b 0) | done].
  - inversion Hb as [| ? ? Ha Hb']; subst. inversion Hb' as [| ? ? Hb1 Hc']; subst. inversion Hc' as [| ? ? Hc Hl]; subst.
    change (length (a :: b :: c :: l)) with (3 + length l)%nat. rewrite b64_room_group. destruct (IH Hl) as [IH1 IH2].
    split; [by rewrite b64_group, IH1 |]. cbn [b64_encode Nat.add length].
    replace (S (b64_room (length l)) - 1)%nat with (b64_room (length l)) by lia. by rewrite IH2.
Qed.

Lemma b64_roundtrip_witness :
  let salt := [16; 65; 4; 16; 65; 4; 16; 65; 4; 16; 65; 4; 16; 65; 4; 16] in
  b64_encode salt 22 = s! "CCCCCCCCCCCCCCCCCCCCC." ∧ b64_decode 0 0 (b64_encode salt 22) = salt.
Proof.
  intros salt. split; [vm_compute; reflexivity |]. apply (b64_roundtrip salt). repeat (constructor; [by unfold byte_ok |]). constructor.
Defined.

(** ** The state stays a state: 18 and four times 256 words of 32 bits *)

Record ctx_wf (ctx : BlowfishCtx) : Prop := {
  wf_P : length (ctx_P ctx) = 18%nat;
  wf_P_words : Forall u32_ok (ctx_P ctx);
  wf_S : length (ctx_S ctx) = 4%nat;
  wf_S_boxes : Forall (λ t, length t = 256%nat ∧ Forall u32_ok t) (ctx_S ctx);
}.

Lemma u32_lxor a b : u32_ok a → u32_ok b → u32_ok (Z.lxor a b).
Proof.
  unfold u32_ok. intros Ha Hb. assert (0 ≤ Z.lxor a b) as H0 by (apply Z.lxor_nonneg; lia). split; [done |].
  destruct (decide (Z.lxor a b = 0)) as [-> |]; [lia |]. apply Z.log2_lt_pow2; [lia |].
  pose proof (Z.log2_lxor a b). assert (Z.log2 a < 32 ∧ Z.log2 b < 32); [| lia].
  split; (destruct (decide (0 < a)); destruct (decide (0 < b)); try (apply Z.log2_lt_pow2; lia); rewrite Z.log2_nonpos; lia).
Qed.

Lemma u32_lor_byte a b : byte_ok b → u32_ok (Z.lor (to_u32 (Z.shiftl a 8)) b).
Proof.
  intros Hb. assert (0 ≤ b) by (unfold byte_ok in Hb; lia). unfold u32_ok.
  assert (Z.lor (to_u32 (Z.shiftl a 8)) b = Z.land (Z.lor (to_u32 (Z.shiftl a 8)) b) (Z.ones 32)) as ->.
  { apply Z.bits_inj'. intros i Hi. rewrite Z.land_spec. destruct (Z.ltb_spec i 32).
    - rewrite Z.ones_spec_low by lia. by rewrite andb_true_r.
    - rewrite Z.ones_spec_high by lia. rewrite andb_false_r, Z.lor_spec. unfold to_u32.
      rewrite Z.mod_pow2_bits_high by lia. by rewrite byte_high by (done || lia). }
  rewrite Z.land_ones by lia. apply Z.mod_pos_bound. lia.
Qed.

Lemma u32_word l i : Forall u32_ok l → u32_ok (word l i).
Proof.
  intros H. unfold word. destruct (nth_in_or_default i l 0) as [Hin | ->]; [| by unfold u32_ok].
  apply list_elem_of_In in Hin. by apply (proj1 (list.Forall_forall _ _) H).
Qed.

Lemma u32_bf_f ctx x : u32_ok (bf_f ctx x).
Proof. apply to_u32_range. Qed.

Lemma bf_encrypt_u32 ctx xl xr :
  ctx_wf ctx → u32_ok xl → u32_ok xr → u32_ok (bf_encrypt ctx xl xr).1 ∧ u32_ok (bf_encrypt ctx xl xr).2.
Proof.
  intros [_ HP _ _] Hl Hr. unfold bf_encrypt.
  assert (∀ ks x, u32_ok x.1 → u32_ok x.2 → u32_ok (foldl (bf_round ctx) x ks).1 ∧ u32_ok (foldl (bf_round ctx) x ks).2) as H.
  { induction ks as [| k ks IH]; intros [a b] Ha Hb; [done |]. cbn [foldl bf_round].
    apply IH; repeat (apply u32_lxor || apply u32_bf_f || apply u32_word || done). }
  specialize (H [1; 3; 5; 7; 9; 11; 13; 15]%nat (Z.lxor xl (word (ctx_P ctx) 0), xr)).
  destruct (foldl _ _ _) as [a b]. destruct H as [Ha Hb]; cbn [fst snd] in *; [by apply u32_lxor, u32_word | done |].
  split; [by apply u32_lxor, u32_word | done].
Qed.

Lemma stream_byte_u32 data st : bytes_ok data → u32_ok (stream_byte data st).1.
Proof.
  intros Hd. destruct st as [temp j]. unfold stream_byte. cbn [fst]. apply u32_lor_byte.
  destruct (nth_in_or_default (if (length data <=? j)%nat then 0%nat else j) data 0) as [Hin | ->]; [| by unfold byte_ok].
  apply list_elem_of_In in Hin. by apply (proj1 (list.Forall_forall _ _) Hd).
Qed.

Lemma stream_words_wf data n j :
  bytes_ok data → length (stream_words data n j) = n ∧ Forall u32_ok (stream_words data n j).
Proof.
  intros Hd. revert j. induction n as [| n IH]; intros j; [by split |]. cbn [stream_words].
  destruct (stream2word data j) as [w j'] eqn:E. destruct (IH j') as [IH1 IH2]. split; [cbn [length]; by rewrite IH1 |].
  constructor; [| done]. replace w with (stream2word data j).1 by (by rewrite E). by apply stream_byte_u32.
Qed.

Lemma xor_P_wf data ctx : bytes_ok data → ctx_wf ctx → ctx_wf (xor_P data ctx).
Proof.
  intros Hd [H1 H2 H3 H4]. destruct (stream_words_wf data 18 0 Hd) as [Hl Hw].
  split; [| | exact H3 | exact H4]; unfold xor_P; cbn [ctx_P].
  - rewrite length_zip_with. lia.
  - revert H2 Hw. generalize (stream_words data 18 0) as ws. generalize (ctx_P ctx) as P. induction P as [| p P IH]; intros [| w ws] HP Hw; cbn [zip_with]; constructor.
    + apply u32_lxor; [by apply Forall_inv in HP | by apply Forall_inv in Hw].
    + apply IH; [by apply Forall_inv_tail in HP | by apply Forall_inv_tail in Hw].
Qed.

Lemma write_pair_wf s bl br ctx : u32_ok bl → u32_ok br → ctx_wf ctx → ctx_wf (write_pair s bl br ctx).
Proof.
  intros Hl Hr [H1 H2 H3 H4]. destruct s as [i | b i]; split; cbn [write_pair ctx_P ctx_S]; try done.
  - by rewrite !length_insert.
  - by apply Forall_insert; [apply Forall_insert |].
  - by rewrite length_alter.
  - apply Forall_alter; [done |]. intros t _ [Ht1 Ht2]. split; [by rewrite !length_insert |].
    by apply Forall_insert; [apply Forall_insert |].
Qed.

Definition fill_wf (f : Fill) : Prop := ctx_wf (f_ctx f) ∧ u32_ok (f_bl f) ∧ u32_ok (f_br f).

Lemma fill_step_wf salt f s :
  (∀ d, salt = Some d → bytes_ok d) → fill_wf f → fill_wf (fill_step salt f s).
Proof.
  intros Hs (Hc & Hl & Hr). unfold fill_step.
  assert (∀ bl br j, u32_ok bl → u32_ok br → fill_wf
    (let '(bl', br') := bf_encrypt (f_ctx f) bl br in mkFill (write_pair s bl' br' (f_ctx f)) bl' br' j)) as H.
  { intros bl br j H1 H2. destruct (bf_encrypt_u32 (f_ctx f) bl br Hc H1 H2) as [H3 H4].
    destruct (bf_encrypt _ _ _) as [a b]. split_and!; [by apply write_pair_wf | done | done]. }
  destruct salt as [d |]; [| by apply H]. specialize (Hs d eq_refl).
  destruct (stream2word d (f_j f)) as [w1 j1] eqn:E1. destruct (stream2word d j1) as [w2 j2] eqn:E2.
  apply H; apply u32_lxor; try done.
  - replace w1 with (stream2word d (f_j f)).1 by (by rewrite E1). by apply stream_byte_u32.
  - replace w2 with (stream2word d j1).1 by (by rewrite E2). by apply stream_byte_u32.
Qed.

Lemma fill_ctx_wf salt ctx : (∀ d, salt = Some d → bytes_ok d) → ctx_wf ctx → ctx_wf (fill salt ctx).
Proof.
  intros Hs Hc. unfold fill. assert (fill_wf (mkFill ctx 0 0 0)) as H by (split_and!; [done | by unfold u32_ok..]).
  revert H. generalize (mkFill ctx 0 0 0) as f. induction slots as [| s ss IH]; intros f Hf; [apply Hf |].
  cbn [foldl]. by apply IH, fill_step_wf.
Qed.

Lemma expand0_wf data ctx : bytes_ok data → ctx_wf ctx → ctx_wf (expand0 data ctx).
Proof. intros Hd Hc. apply fill_ctx_wf; [done | by apply xor_P_wf]. Qed.

Lemma iter_wf n f (ctx : BlowfishCtx) : (∀ c, ctx_wf c → ctx_wf (f c)) → ctx_wf ctx → ctx_wf (Z.iter n f ctx).
Proof. intros Hf Hc. destruct n as [| p | p]; [done | | done]. simpl. by apply Pos.iter_invariant. Qed.

Lemma initial_wf : ctx_wf (mkCtx kInitP kInitS).
Proof.
  assert (∀ l : list Z, forallb (λ w, (0 <=? w) && (w <? 2 ^ 32)) l = true → Forall u32_ok l) as H.
  { intros l Hl. apply list.Forall_forall. intros w Hw%list_elem_of_In. rewrite forallb_forall in Hl. specialize (Hl w Hw).
    bool_prop. by split. }
  split; cbn [ctx_P ctx_S]; [done | apply H; vm_compute; reflexivity | done |].
  repeat (constructor; [split; [reflexivity | apply H; vm_compute; reflexivity] |]). constructor.
Qed.

Lemma key_of_ok password : bytes_ok password → bytes_ok (key_of password) ∧ (1 ≤ length (key_of password) ≤ 72)%nat.
Proof.
  intros H. unfold key_of. pose proof (length_take password 72) as Hl. destruct (Nat.ltb_spec (length password) 72).
  - split; [apply Forall_app; split; [by apply Forall_take | by repeat constructor] |]. rewrite length_app. simpl. lia.
  - split; [by apply Forall_take | lia].
Qed.

(** The key setup stays inside its arrays: the state keeps its shape and its words
    32 bits through every expansion, whatever the password, the salt and the cost;
    the slots written and the table positions read all exist. *)
Theorem setup_in_bounds (password salt : bytes) (cost : Z) :
  bytes_ok password → bytes_ok salt →
  ctx_wf (eks_blowfish_setup salt (key_of password) cost) ∧
  Forall (λ s, match s with SlotP i => (S i < 18)%nat | SlotS b i => (b < 4 ∧ S i < 256)%nat end) slots ∧
  (∀ x, u32_ok x → 0 ≤ Z.shiftr x 24 < 256 ∧ 0 ≤ Z.land (Z.shiftr x 16) 255 < 256 ∧
                    0 ≤ Z.land (Z.shiftr x 8) 255 < 256 ∧ 0 ≤ Z.land x 255 < 256).
Proof.
  intros Hp Hs. pose proof (proj1 (key_of_ok password Hp)) as Hk. split_and!.
  - unfold eks_blowfish_setup. apply iter_wf; [intros c Hc; by apply expand0_wf, expand0_wf |].
    apply fill_ctx_wf; [by intros d [= <-] | apply xor_P_wf; [done | apply initial_wf]].
  - unfold slots. apply Forall_app. split; [apply Forall_fmap, list.Forall_forall; intros i Hi%elem_of_seq; simpl; lia |].
    apply Forall_concat, Forall_fmap, list.Forall_forall. intros b Hb%elem_of_seq. apply Forall_fmap, list.Forall_forall.
    intros i Hi%elem_of_seq. simpl. lia.
  - intros x Hx. unfold u32_ok in Hx. change 255 with (Z.ones 8). rewrite !Z.land_ones by lia.
    rewrite Z.shiftr_div_pow2 by lia. split; [split; [apply Z.div_pos; lia | apply Z.div_lt_upper_bound; lia] |].
    split_and!; apply Z.mod_pos_bound; lia.
Qed.

Lemma setup_in_bounds_witness : ctx_wf (eks_blowfish_setup (replicate 16 7) (key_of (s! "U*U")) 4).
Proof.
  apply (setup_in_bounds (s! "U*U") (replicate 16 7) 4).
  - repeat (constructor; [by unfold byte_ok |]). constructor.
  - repeat (constructor; [by unfold byte_ok |]). constructor.
Defined.

(** ** The hash *)

Lemma ciphertext_spec ctx : length (ciphertext ctx) = 24%nat ∧ bytes_ok (ciphertext ctx).
Proof.
  unfold ciphertext. assert (length (cdata ctx) = 3%nat) as Hl.
  { unfold cdata. generalize 64%nat as n. induction n as [| n IH]; [done |]. rewrite Nat.iter_succ. by rewrite length_fmap. }
  destruct (cdata ctx) as [| a [| b [| c [| d l]]]]; try done. simpl. split; [done |].
  repeat (constructor; [apply to_u8_range |]). constructor.
Qed.

Definition digest (password salt : bytes) (cost : Z) : bytes :=
  take 23 (ciphertext (eks_blowfish_setup salt (key_of password) cost)).

Lemma digest_spec password salt cost : length (digest password salt cost) = 23%nat ∧ bytes_ok (digest password salt cost).
Proof.
  unfold digest. destruct (ciphertext_spec (eks_blowfish_setup salt (key_of password) cost)) as [H1 H2].
  split; [rewrite length_take; lia | by apply Forall_take].
Qed.

Lemma hash_part_spec password salt cost :
  length (hash_part password salt cost) = 31%nat ∧ b64_decode 0 0 (hash_part password salt cost) = digest password salt cost.
Proof.
  unfold hash_part. fold (digest password salt cost). destruct (digest_spec password salt cost) as [H1 H2].
  pose proof (b64_roundtrip (digest password salt cost) H2) as [H3 H4]. rewrite H1 in H3, H4. by split.
Qed.

Lemma salt_part_spec salt :
  length salt = 16%nat → bytes_ok salt → length (b64_encode salt 22) = 22%nat ∧ b64_decode 0 0 (b64_encode salt 22) = salt.
Proof. intros H1 H2. pose proof (b64_roundtrip salt H2) as [H3 H4]. rewrite H1 in H3, H4. by split. Qed.

Lemma two_digits_spec cost : 4 ≤ cost ≤ 31 →
  ∃ a b, two_digits cost = [a; b] ∧ to_u32 ((schar a - 48) * 10 + (schar b - 48)) = cost.
Proof.
  intros H. assert (forallb (λ n, match two_digits n with
    | [a; b] => to_u32 ((schar a - 48) * 10 + (schar b - 48)) =? n | _ => false end) (seqZ 4 28) = true) as Hf
    by (vm_compute; reflexivity).
  assert (In cost (seqZ 4 28)) as Hin by (apply list_elem_of_In, elem_of_seqZ; lia).
  rewrite forallb_forall in Hf. specialize (Hf cost Hin). cbv beta in Hf.
  destruct (two_digits cost) as [| a [| b [| c l]]]; try discriminate. exists a, b. split; [done |]. by apply Z.eqb_eq.
Qed.

(** The hash as its fields. *)
Lemma hashpw_fields password salt cost :
  length salt = 16%nat → bytes_ok salt → 4 ≤ cost ≤ 31 →
  let h := bcrypt_hashpw password salt cost in
  length h = 60%nat ∧ bcrypt_shape h = true ∧ parse_cost h = cost ∧ hash_salt h = salt ∧ drop 29 h = hash_part password salt cost.
Proof.
  intros Hl Hb Hc h. destruct (two_digits_spec cost Hc) as (a & b & Hd & Hp).
  destruct (salt_part_spec salt Hl Hb) as [Hs1 Hs2]. destruct (hash_part_spec password salt cost) as [Hh1 _].
  assert (h = [36; 50; 98; 36; a; b; 36] ++ b64_encode salt 22 ++ hash_part password salt cost) as Eh
    by (unfold h, bcrypt_hashpw; rewrite Hd; done).
  assert (length h = 60%nat) as Hlen by (rewrite Eh, !length_app, Hs1, Hh1; done).
  assert (parse_cost h = cost) as Hpc by (rewrite Eh; exact Hp).
  split; [done |]. split; [| split; [done |]].
  - unfold bcrypt_shape. rewrite Hlen, Hpc, Eh. cbn -[Z.leb].
    replace (4 <=? cost) with true by lia. by replace (cost <=? 31) with true by lia.
  - split.
    + unfold hash_salt. assert (drop 7 h = b64_encode salt 22 ++ hash_part password salt cost) as -> by (rewrite Eh; reflexivity).
      by rewrite take_app_length'.
    + rewrite Eh, (assoc_L (++)). by rewrite drop_app_length' by (rewrite length_app, Hs1; done).
Qed.

(** What verification accepts: a text of the shape, whose last 31 characters are
    those that hashing the password with the salt and cost in the text gives. *)
Lemma verify_spec password hash :
  bytes_ok (hash_salt hash) → length (hash_salt hash) = 16%nat →
  bcrypt_verify password hash = true ↔
  bcrypt_shape hash = true ∧ take 31 (drop 29 hash) = hash_part password (hash_salt hash) (parse_cost hash).
Proof.
  intros Hb Hl. unfold bcrypt_verify. destruct (bcrypt_shape hash) eqn:Es; [| naive_solver]. cbn [negb].
  assert (4 ≤ parse_cost hash ≤ 31) as Hc by (unfold bcrypt_shape in Es; bool_prop; lia).
  destruct (hashpw_fields password (hash_salt hash) (parse_cost hash) Hl Hb Hc) as (H1 & _ & _ & _ & H5).
  rewrite H1. cbn -[take drop hash_part bcrypt_hashpw]. rewrite H5, bool_decide_eq_true.
  destruct (hash_part_spec password (hash_salt hash) (parse_cost hash)) as [Hh _].
  rewrite (take_ge (hash_part _ _ _)) by lia. naive_solver.
Qed.

Lemma bcrypt_hash_cost salt password cost :
  bcrypt_hash (Some salt) password cost = bcrypt_hashpw password salt (Z.min 31 (Z.max 4 cost)).
Proof. unfold bcrypt_hash. f_equal. destruct (Z.ltb_spec cost 4); case_match; bool_prop; lia. Qed.

(** Verification of a text that was made here compares the digests. *)
Lemma verify_hashpw other password salt cost :
  length salt = 16%nat → bytes_ok salt → 4 ≤ cost ≤ 31 →
  bcrypt_verify other (bcrypt_hashpw password salt cost) = true ↔ digest other salt cost = digest password salt cost.
Proof.
  intros Hl Hb Hc. destruct (hashpw_fields password salt cost Hl Hb Hc) as (H1 & H2 & H3 & H4 & H5).
  rewrite verify_spec by (by rewrite H4). rewrite H3, H4, H5.
  destruct (hash_part_spec password salt cost) as [Hp1 Hp2], (hash_part_spec other salt cost) as [Hq1 Hq2].
  rewrite take_ge by lia. split; [intros [_ E]; rewrite <- Hp2, <- Hq2; by rewrite E |].
  intros E. split; [done |]. unfold hash_part. fold (digest password salt cost) (digest other salt cost). by rewrite E.
Qed.

Lemma hashpw_is_bcrypt password salt cost :
  length salt = 16%nat → bytes_ok salt → 4 ≤ cost ≤ 31 → is_bcrypt_hash (bcrypt_hashpw password salt cost) = true.
Proof.
  intros Hl Hb Hc. destruct (hashpw_fields password salt cost Hl Hb Hc) as (H1 & H2 & _).
  unfold bcrypt_shape in H2. bool_prop. unfold is_bcrypt_hash. rewrite H1.
  apply andb_true_iff. split; [apply andb_true_iff; split; [done |] |]; by apply Z.eqb_eq.
Qed.

(** What the logins need of a new hash. *)
Lemma bcrypt_self md5 salt password cost :
  length salt = 16%nat → bytes_ok salt →
  verify_password_hash md5 password (bcrypt_hash (Some salt) password cost) = true ∧
  password_needs_rehash (bcrypt_hash (Some salt) password cost) = false.
Proof.
  intros Hl Hb. rewrite bcrypt_hash_cost. set (c := Z.min _ _). assert (4 ≤ c ≤ 31) as Hc by lia.
  unfold verify_password_hash, password_needs_rehash. rewrite (hashpw_is_bcrypt password salt c Hl Hb Hc).
  split; [by apply verify_hashpw | done].
Qed.

(** A password verifies against its own hash, whatever salt was drawn and cost asked
    for; the hash is 60 characters long and is recognised as one of bcrypt.  Another
    password verifies against it only if all 23 bytes of the two digests agree: the
    text does not lose any of them. *)
Theorem bcrypt_verifies (md5 : bytes → option bytes) (password other salt : bytes) (cost : Z) :
  length salt = 16%nat → bytes_ok salt →
  let h := bcrypt_hash (Some salt) password cost in
  let c := Z.min 31 (Z.max 4 cost) in
  bcrypt_verify password h = true ∧ verify_password_hash md5 password h = true ∧
  password_needs_rehash h = false ∧ length h = 60%nat ∧
  (bcrypt_verify other h = true ↔ digest other salt c = digest password salt c).
Proof.
  intros Hl Hb h c. assert (4 ≤ c ≤ 31) as Hc by lia. destruct (bcrypt_self md5 salt password cost Hl Hb) as [H1 H2].
  assert (h = bcrypt_hashpw password salt c) as Eh by apply bcrypt_hash_cost.
  split; [rewrite Eh; by apply verify_hashpw |]. split; [done |]. split; [done |]. rewrite Eh.
  split; [by apply hashpw_fields | by apply verify_hashpw].
Qed.

Lemma bcrypt_verifies_witness :
  bcrypt_verify (s! "U*U") (bcrypt_hash (Some (replicate 16 7)) (s! "U*U") 4) = true.
Proof.
  refine (proj1 (bcrypt_verifies (λ _, None) (s! "U*U") [] (replicate 16 7) 4 eq_refl _)).
  repeat (constructor; [by unfold byte_ok |]). constructor.
Defined.

Lemma iter_ext {A} (f g : A → A) n x : (∀ y, f y = g y) → Z.iter n f x = Z.iter n g x.
Proof.
  intros H. destruct n as [| p | p]; [done | | done]. cbn [Z.iter]. rewrite !Pos2Nat.inj_iter.
  induction (Pos.to_nat p) as [| n IH]; [done |]. simpl. by rewrite IH, H.
Qed.

(** The password enters the hash only as the first 18 words of its bytes repeated:
    what comes after the 72nd byte does not count, and neither does a repetition. *)
Theorem bcrypt_key_words (password other salt : bytes) (cost : Z) :
  (take 72 password = take 72 other ∧ (72 ≤ length password)%nat ∧ (72 ≤ length other)%nat) ∨
  stream_words (key_of password) 18 0 = stream_words (key_of other) 18 0 →
  bcrypt_hashpw password salt cost = bcrypt_hashpw other salt cost.
Proof.
  intros H. assert (stream_words (key_of password) 18 0 = stream_words (key_of other) 18 0) as E.
  { destruct H as [(Ht & H1 & H2) | H]; [| done]. unfold key_of. rewrite Ht.
    by rewrite (proj2 (Nat.ltb_ge _ _) H1), (proj2 (Nat.ltb_ge _ _) H2). }
  assert (∀ ctx, xor_P (key_of password) ctx = xor_P (key_of other) ctx) as Hx by (intros ctx; unfold xor_P; by rewrite E).
  assert (eks_blowfish_setup salt (key_of password) cost = eks_blowfish_setup salt (key_of other) cost) as Es.
  { unfold eks_blowfish_setup. rewrite Hx. apply iter_ext. intros ctx. exact (f_equal (expand0 salt) (f_equal (fill None) (Hx ctx))). }
  unfold bcrypt_hashpw, hash_part. by rewrite Es.
Qed.

Lemma bcrypt_key_words_witness :
  bcrypt_hashpw (s! "ab") (replicate 16 7) 12 = bcrypt_hashpw (s! "ab" ++ [0] ++ s! "ab") (replicate 16 7) 12 ∧
  bcrypt_hashpw (replicate 72 65 ++ s! "x") (replicate 16 7) 12 = bcrypt_hashpw (replicate 72 65) (replicate 16 7) 12.
Proof.
  split; apply bcrypt_key_words; [right; vm_compute; reflexivity | left; vm_compute; split; [reflexivity | lia]].
Defined.

(** A stored password in the clear that begins like a hash locks its account: it is
    taken for a hash of bcrypt, no input verifies, and it is never rehashed. *)
Theorem dollar_two_locked_out (md5 : bytes → option bytes) (stored : bytes) :
  is_bcrypt_hash stored = true → (length stored < 60)%nat →
  (∀ input, verify_password_hash md5 input stored = false) ∧ password_needs_rehash stored = false.
Proof.
  intros Hi Hl. split; [| unfold password_needs_rehash; by rewrite Hi].
  intros input. unfold verify_password_hash. rewrite Hi. unfold bcrypt_verify, bcrypt_shape.
  by replace (60 <=? length stored)%nat with false by (symmetry; apply Nat.leb_gt; lia).
Qed.

Lemma dollar_two_locked_out_witness :
  verify_password_hash (λ _, None) (s! "$2secret") (s! "$2secret") = false.
Proof. apply (dollar_two_locked_out (λ _, None) (s! "$2secret")); [reflexivity | vm_compute; lia]. Defined.

(** The cost is two characters taken as digits without a look: a colon is ten. *)
Example cost_not_digits : parse_cost (s! "$2b$0:$") = 10.
Proof. vm_compute. reflexivity. Qed.
