(* ===== verification/AccountAuth.v ===== *)
(** * Logging in

    Models [common/account_authentication.cpp], [common/password_rehash.h],
    [common/auth_cache.h], [common/credential_stamp.h] and the policy questions of
    [common/account_policy.cpp], which SMTP, IMAP, POP3 and the web share.  A login
    is a chain of posted functions and of callbacks of the repository; its stage
    says what it waits for.  Any number of logins run at once on one cache, in any
    order of events.  The repository's answers are the events' data; password
    hashing is the interface [PasswordHashing], which [Bcrypt] implements. *)

From S2P Require Import Prelude CString LruCache Bcrypt.

(** ** What the logins ask of the password formats *)

Class PasswordHashing := {
  ph_verify : bytes → bytes → bool;                    (* [verify_password_hash], the input first *)
  ph_needs_rehash : bytes → bool;                      (* [password_needs_rehash] *)
  ph_hash : option bytes → bytes → bytes;              (* [bcrypt_hash] with its random bytes *)
  ph_no_random : ∀ password, ph_hash None password = [];
  ph_self : ∀ salt password, length salt = 16%nat → bytes_ok salt → ph_verify password (ph_hash (Some salt) password) = true;
  ph_done : ∀ salt password, length salt = 16%nat → bytes_ok salt → ph_needs_rehash (ph_hash (Some salt) password) = false;
}.

#[export] Program Instance bcrypt_passwords (md5 : bytes → option bytes) : PasswordHashing := {|
  ph_verify := verify_password_hash md5;
  ph_needs_rehash := password_needs_rehash;
  ph_hash := λ rand password, bcrypt_hash rand password 12;
|}.
Next Obligation. done. Qed.
Next Obligation. intros md5 salt password Hl Hb. by apply bcrypt_self. Qed.
Next Obligation. intros md5 salt password Hl Hb. by apply bcrypt_self. Qed.

(** ** Data *)

Inductive AccountLookupStatus := found | not_found | unavailable | query_failed.

Record AccountCredentials := mkCredentials { c_user_id : Z; c_status : Z; c_stored_hash : bytes }.
Record CredentialLookup := mkLookup { lk_status : AccountLookupStatus; lk_credentials : AccountCredentials }.

Record AuthCacheEntry := mkEntry' { ce_password_hash : bytes; ce_status : Z; ce_user_id : Z; ce_shard : Z }.
Abbreviation AuthCache := (LruCache bytes AuthCacheEntry).

Record AccountAuthResult := mkResult {
  ok : bool;
  server_error : bool;
  user_id : Z;
  address : bytes;
  stamp : bytes;
  shard : Z;
}.

(** [AuthCache::lookup]: a stale entry is a miss. *)
Definition cache_lookup (now : Z) (email : bytes) (c : AuthCache) : option AuthCacheEntry * AuthCache :=
  match get now email c with
  | (Some (e, stale), c) => (if stale then None else Some e, c)
  | (None, c) => (None, c)
  end.

(** A login is waiting for: its task on a worker, an answer of the repository, or
    the worker that evaluates one. *)
Inductive Stage :=
  | Queued
  | Reading
  | Verifying (lookup : CredentialLookup)
  | Upgrading (stored new_hash : bytes) (entry : AuthCacheEntry)
  | Rereading
  | Reverifying (live : CredentialLookup)
  | Touching
  | Finished.

Record Login := mkLogin {
  l_address : bytes;
  l_password : bytes;
  l_fresh : bool;
  l_stage : Stage;
  l_out : AccountAuthResult;
  l_results : list AccountAuthResult;                  (* the calls of the callback *)
}.

Definition empty_result : AccountAuthResult := mkResult false false 0 [] [] 0.

(** [login_async] *)
Definition login_async (address password : bytes) (fresh : bool) : Login :=
  mkLogin address password fresh Queued empty_result [].

Definition at_stage (st : Stage) (l : Login) : Login :=
  mkLogin (l_address l) (l_password l) (l_fresh l) st (l_out l) (l_results l).
Definition set_out (out : AccountAuthResult) (l : Login) : Login :=
  mkLogin (l_address l) (l_password l) (l_fresh l) (l_stage l) out (l_results l).
Definition call_back (out : AccountAuthResult) (l : Login) : Login :=
  mkLogin (l_address l) (l_password l) (l_fresh l) Finished out (l_results l ++ [out]).

Definition with_ok (b : bool) (r : AccountAuthResult) : AccountAuthResult :=
  mkResult b (server_error r) (user_id r) (address r) (stamp r) (shard r).
Definition with_server_error (b : bool) (r : AccountAuthResult) : AccountAuthResult :=
  mkResult (ok r) b (user_id r) (address r) (stamp r) (shard r).
Definition with_stamp (s : bytes) (r : AccountAuthResult) : AccountAuthResult :=
  mkResult (ok r) (server_error r) (user_id r) (address r) s (shard r).

Definition is_outage (st : AccountLookupStatus) : bool := match st with query_failed | unavailable => true | _ => false end.

Section Logins.
Context {PH : PasswordHashing} (SHA256 : bytes → bytes).

Definition credential_stamp (value : bytes) : bytes := hex (SHA256 value).

(** The steps take the cache, if there is one, and give it back. *)
Definition cache_store (now : Z) (email : bytes) (e : AuthCacheEntry) (c : option AuthCache) : option AuthCache :=
  put now email e <$> c.

(** [finish], the end of both paths. *)
Definition finish (out : AccountAuthResult) (l : Login) : Login :=
  if negb (ok out) then call_back out l else at_stage Touching (set_out out l).

(** The continuation of the rehash. *)
Definition after_rehash (l : Login) : Login :=
  if negb (l_fresh l) then finish (l_out l) l else at_stage Rereading l.

(** The first function: the cache, then the repository.  [opened] says whether the
    repository gave an access. *)
Definition run_task (now route : Z) (opened : bool) (l : Login) (c : option AuthCache) : Login * option AuthCache :=
  let out := mkResult false false 0 (l_address l) [] (if route <? 0 then 0 else route) in
  let ask := if opened then at_stage Reading (set_out out l) else call_back (with_server_error true out) l in
  match c with
  | Some cache =>
      if l_fresh l then (ask, c) else
      match cache_lookup now (l_address l) cache with
      | (Some cached, cache) =>
          (call_back
             (if (ce_status cached =? 1) && ph_verify (l_password l) (ce_password_hash cached)
              then mkResult true false (ce_user_id cached) (l_address l) (credential_stamp (ce_password_hash cached)) (ce_shard cached)
              else out) l, Some cache)
      | (None, cache) => (ask, Some cache)
      end
  | None => (ask, c)
  end.

(** [rehash_password_if_needed_async] up to the database. *)
Definition rehash (rand : option bytes) (stored : bytes) (entry : AuthCacheEntry) (l : Login) : Login :=
  if negb (ph_needs_rehash stored) then after_rehash l else
  match ph_hash rand (l_password l) with
  | [] => after_rehash l
  | new_hash => at_stage (Upgrading stored new_hash entry) l
  end.

(** [verify], on a worker. *)
Definition run_verify (now : Z) (rand : option bytes) (lookup : CredentialLookup) (l : Login) (c : option AuthCache)
  : Login * option AuthCache :=
  let out := l_out l in
  match lk_status lookup with
  | found =>
      let status := to_i32 (c_status (lk_credentials lookup)) in
      if negb (status =? 1) then (call_back out l, c) else
      let stored := c_stored_hash (lk_credentials lookup) in
      let entry := mkEntry' stored status (c_user_id (lk_credentials lookup)) (shard out) in
      let c := cache_store now (l_address l) entry c in
      if negb (ph_verify (l_password l) stored) then (call_back out l, c) else
      let out := mkResult true (server_error out) (ce_user_id entry) (address out) (credential_stamp stored) (shard out) in
      (rehash rand stored entry (set_out out l), c)
  | st => (call_back (with_server_error (is_outage st) out) l, c)
  end.

(** The answer of the update of the hash. *)
Definition upgraded (now : Z) (success : bool) (new_hash : bytes) (entry : AuthCacheEntry) (l : Login) (c : option AuthCache)
  : Login * option AuthCache :=
  (after_rehash l,
   if success then cache_store now (l_address l) (mkEntry' new_hash (ce_status entry) (ce_user_id entry) (ce_shard entry)) c else c).

(** The second [verify], of a fresh login. *)
Definition run_reverify (live : CredentialLookup) (l : Login) : Login :=
  let out := l_out l in
  match lk_status live with
  | found =>
      let cr := lk_credentials live in
      if negb (c_status cr =? 1) || negb (c_user_id cr =? user_id out) then finish (with_ok false out) l else
      let s := credential_stamp (c_stored_hash cr) in
      if negb (bool_decide (s = stamp out)) && negb (ph_verify (l_password l) (c_stored_hash cr))
      then finish (with_ok false out) l
      else finish (with_stamp s out) l
  | st => finish (with_server_error (is_outage st) (with_ok false out)) l
  end.

Inductive Event :=
  | RunTask (now route : Z) (opened : bool)
  | ReadAnswer (lookup : CredentialLookup)
  | RunVerify (now : Z) (rand : option bytes)
  | UpgradeAnswer (now : Z) (success : bool)
  | RereadAnswer (live : CredentialLookup)
  | RunReverify
  | TouchAnswer (success : bool).

(** One event of one login. *)
Definition login_step (ev : Event) (l : Login) (c : option AuthCache) : Login * option AuthCache :=
  match l_stage l, ev with
  | Queued, RunTask now route opened => run_task now route opened l c
  | Reading, ReadAnswer lookup => (at_stage (Verifying lookup) l, c)
  | Verifying lookup, RunVerify now rand => run_verify now rand lookup l c
  | Upgrading _ new_hash entry, UpgradeAnswer now success => upgraded now success new_hash entry l c
  | Rereading, RereadAnswer live => (at_stage (Reverifying live) l, c)
  | Reverifying live, RunReverify => (run_reverify live l, c)
  | Touching, TouchAnswer _ => (call_back (l_out l) l, c)
  | _, _ => (l, c)
  end.

(** The logins of a process, their cache, and the credentials that the repository
    answered, with the address asked for. *)
Record World := mkWorld {
  w_cache : option AuthCache;
  w_logins : list Login;
  w_log : list (bytes * AccountCredentials);
}.

(** What an event adds to the log. *)
Definition logged (ev : Event) (l : Login) : list (bytes * AccountCredentials) :=
  match l_stage l, ev with
  | Reading, ReadAnswer (mkLookup found cr) | Rereading, RereadAnswer (mkLookup found cr) => [(l_address l, cr)]
  | _, _ => []
  end.

Definition world_step (w : World) (e : nat * Event) : World :=
  match w_logins w !! e.1 with
  | None => w
  | Some l =>
      let '(l', c) := login_step e.2 l (w_cache w) in
      mkWorld c (<[e.1 := l']> (w_logins w)) (w_log w ++ logged e.2 l)
  end.

Definition world_run (evs : list (nat * Event)) (w : World) : World := foldl world_step w evs.

Definition world_start (cache : option AuthCache) (asked : list (bytes * bytes * bool)) : World :=
  mkWorld cache ((λ a, login_async a.1.1 a.1.2 a.2) <$> asked) [].
End Logins.

(** The events a login waits for, and how many more it can wait for. *)
Definition awaited (l : Login) (ev : Event) : bool :=
  match l_stage l, ev with
  | Queued, RunTask _ _ _ | Reading, ReadAnswer _ | Verifying _, RunVerify _ _ | Upgrading _ _ _, UpgradeAnswer _ _
  | Rereading, RereadAnswer _ | Reverifying _, RunReverify | Touching, TouchAnswer _ => true
  | _, _ => false
  end.

Definition work (l : Login) : nat :=
  match l_stage l with
  | Queued => 7 | Reading => 6 | Verifying _ => 5 | Upgrading _ _ _ => 4 | Rereading => 3 | Reverifying _ => 2
  | Touching => 1 | Finished => 0
  end.

(** ** Properties *)

Section Proofs.
Context {PH : PasswordHashing} (SHA256 : bytes → bytes).
Local Abbreviation stamp_of := (credential_stamp SHA256).

(** An active account that the repository reported for the address. *)
Definition active (log : list (bytes * AccountCredentials)) (a : bytes) (cr : AccountCredentials) : Prop :=
  (a, cr) ∈ log ∧ to_i32 (c_status cr) = 1.

(** A hash of such an account, or the one that replaced it at a login. *)
Definition backed (log : list (bytes * AccountCredentials)) (a h : bytes) (user : Z) : Prop :=
  ∃ cr, active log a cr ∧ c_user_id cr = user ∧
  (h = c_stored_hash cr ∨ ∃ pw rand, ph_verify pw (c_stored_hash cr) = true ∧ h = ph_hash rand pw).

(** The password was right for the account: the first read said so. *)
Definition proved (log : list (bytes * AccountCredentials)) (l : Login) (r : AccountAuthResult) : Prop :=
  ok r = true ∧ ∃ cr, active log (l_address l) cr ∧ c_user_id cr = user_id r ∧
  ph_verify (l_password l) (c_stored_hash cr) = true ∧ stamp r = stamp_of (c_stored_hash cr).

(** A login may say yes. *)
Definition granted (log : list (bytes * AccountCredentials)) (l : Login) (r : AccountAuthResult) : Prop :=
  if l_fresh l then
    ∃ cr live, active log (l_address l) cr ∧ active log (l_address l) live ∧
      c_user_id cr = user_id r ∧ c_user_id live = user_id r ∧ c_status live = 1 ∧
      ph_verify (l_password l) (c_stored_hash cr) = true ∧ stamp r = stamp_of (c_stored_hash live) ∧
      (ph_verify (l_password l) (c_stored_hash live) = true ∨ stamp_of (c_stored_hash live) = stamp_of (c_stored_hash cr))
  else
    ∃ h, ph_verify (l_password l) h = true ∧ backed log (l_address l) h (user_id r) ∧ stamp r = stamp_of h.

Definition lookup_logged (log : list (bytes * AccountCredentials)) (a : bytes) (lk : CredentialLookup) : Prop :=
  lk_status lk = found → (a, lk_credentials lk) ∈ log.

Definition login_ok (log : list (bytes * AccountCredentials)) (l : Login) : Prop :=
  match l_stage l with
  | Queued => l_results l = []
  | Reading => l_results l = [] ∧ ok (l_out l) = false
  | Verifying lk => l_results l = [] ∧ ok (l_out l) = false ∧ lookup_logged log (l_address l) lk
  | Upgrading stored new_hash e =>
      l_results l = [] ∧ proved log l (l_out l) ∧ ce_status e = 1 ∧ backed log (l_address l) new_hash (ce_user_id e)
  | Rereading => l_results l = [] ∧ l_fresh l = true ∧ proved log l (l_out l)
  | Reverifying live => l_results l = [] ∧ l_fresh l = true ∧ proved log l (l_out l) ∧ lookup_logged log (l_address l) live
  | Touching => l_results l = [] ∧ granted log l (l_out l)
  | Finished => ∃ r, l_results l = [r] ∧ (ok r = true → granted log l r)
  end.

Definition cache_ok (log : list (bytes * AccountCredentials)) (c : option AuthCache) : Prop :=
  ∀ cache, c = Some cache → lru_wf cache ∧
  ∀ a e, lookup_value cache a = Some e → ce_status e = 1 ∧ backed log a (ce_password_hash e) (ce_user_id e).

(** *** The log only grows *)

Lemma active_mono log log' a cr : active log a cr → active (log ++ log') a cr.
Proof. intros [H1 H2]. split; [apply elem_of_app; by left | done]. Qed.

Lemma backed_mono log log' a h u : backed log a h u → backed (log ++ log') a h u.
Proof. intros (cr & H & H'). exists cr. split; [by apply active_mono | done]. Qed.

Lemma proved_mono log log' l r : proved log l r → proved (log ++ log') l r.
Proof. intros (H0 & cr & H & H'). split; [done |]. exists cr. split; [by apply active_mono | done]. Qed.

Lemma granted_mono log log' l r : granted log l r → granted (log ++ log') l r.
Proof.
  unfold granted. destruct (l_fresh l).
  - intros (cr & live & H1 & H2 & H). exists cr, live. split; [by apply active_mono |]. split; [by apply active_mono | done].
  - intros (h & H1 & H2 & H3). exists h. split_and!; [done | by apply backed_mono | done].
Qed.

Lemma logged_mono log log' a lk : lookup_logged log a lk → lookup_logged (log ++ log') a lk.
Proof. intros H E. apply elem_of_app. left. by apply H. Qed.

Lemma login_ok_mono log log' l : login_ok log l → login_ok (log ++ log') l.
Proof.
  unfold login_ok. destruct (l_stage l); naive_solver eauto using proved_mono, backed_mono, granted_mono, logged_mono.
Qed.

Lemma cache_ok_mono log log' c : cache_ok log c → cache_ok (log ++ log') c.
Proof.
  intros H cache Hc. destruct (H cache Hc) as [H1 H2]. split; [done |]. intros a e He.
  destruct (H2 a e He) as [H3 H4]. split; [done | by apply backed_mono].
Qed.

(** *** The cache *)

Lemma cache_lookup_spec log now a cache :
  cache_ok log (Some cache) →
  cache_ok log (Some (cache_lookup now a cache).2) ∧
  (∀ e, (cache_lookup now a cache).1 = Some e → ce_status e = 1 ∧ backed log a (ce_password_hash e) (ce_user_id e)).
Proof.
  intros H. destruct (H cache eq_refl) as [Hwf Hb]. destruct (get_spec now a cache Hwf) as [H1 H2].
  pose proof (get_wf now a cache Hwf) as Hwf'. unfold cache_lookup.
  destruct (get now a cache) as [[[e stale]|] cache'] eqn:E; simpl in *.
  - split; [intros ? [= <-]; split; [done |]; intros k e'; rewrite H2; apply Hb |].
    intros e' He. destruct stale; [done |]. simplify_eq. by apply Hb.
  - split; [| done]. intros ? [= <-]. split; [done |]. intros k e'. rewrite H2. apply Hb.
Qed.

Lemma cache_store_ok log now a e c :
  cache_ok log c → ce_status e = 1 → backed log a (ce_password_hash e) (ce_user_id e) → cache_ok log (cache_store now a e c).
Proof.
  intros H He Hb cache Hc. destruct c as [c0 |]; [| done]. simpl in Hc. injection Hc as <-.
  destruct (H c0 eq_refl) as [Hwf Hv]. destruct (put_spec now a e c0 Hwf) as [Hp1 Hp2].
  split; [by apply put_wf |]. intros k e'. destruct (decide (k = a)) as [-> | Hk].
  - rewrite Hp1. by intros [= <-].
  - rewrite Hp2 by done. case_bool_decide; [done |]. apply Hv.
Qed.

(** *** The steps *)

Lemma call_back_ok log out l : l_results l = [] → (ok out = true → granted log l out) → login_ok log (call_back out l).
Proof. intros Hr Hg. unfold login_ok. simpl. exists out. by rewrite Hr. Qed.

Lemma finish_ok log out l : l_results l = [] → (ok out = true → granted log l out) → login_ok log (finish out l).
Proof.
  intros Hr Hg. unfold finish. destruct (ok out) eqn:E; simpl; [split; [done | by apply Hg] |].
  apply call_back_ok; [done | congruence].
Qed.

Lemma after_rehash_ok log l : l_results l = [] → proved log l (l_out l) → login_ok log (after_rehash l).
Proof.
  intros Hr Hp. unfold after_rehash. destruct (l_fresh l) eqn:Ef; simpl; [done |].
  apply finish_ok; [done |]. intros _. unfold granted. rewrite Ef. destruct Hp as (_ & cr & Ha & Hu & Hv & Hs).
  exists (c_stored_hash cr). split_and!; [done | | done]. exists cr. split_and!; [done | done | by left].
Qed.

Lemma rehash_ok log rand stored e l :
  l_results l = [] → proved log l (l_out l) → ce_status e = 1 → ce_user_id e = user_id (l_out l) →
  login_ok log (rehash rand stored e l).
Proof.
  intros Hr Hp He Hu. unfold rehash. destruct (negb _); [by apply after_rehash_ok |].
  destruct (ph_hash rand (l_password l)) as [| b h] eqn:Eh; [by apply after_rehash_ok |].
  split_and!; [done | done | done |]. destruct Hp as (_ & cr & Ha & Hc & Hv & _).
  exists cr. split_and!; [done | by rewrite Hu | right; exists (l_password l), rand; by rewrite Eh].
Qed.

Lemma run_task_ok log now route opened l c :
  l_results l = [] → cache_ok log c →
  login_ok log (run_task SHA256 now route opened l c).1 ∧ cache_ok log (run_task SHA256 now route opened l c).2.
Proof.
  intros Hr Hc. unfold run_task. set (out := mkResult _ _ _ _ _ _).
  set (ask := if opened then _ else _).
  assert (login_ok log ask) as Hask by (unfold ask; destruct opened; [done | by apply call_back_ok]).
  destruct c as [cache |]; [| done]. destruct (l_fresh l) eqn:Ef; [done |].
  destruct (cache_lookup_spec log now (l_address l) cache Hc) as [H1 H2].
  destruct (cache_lookup now (l_address l) cache) as [[e |] cache']; [| done]. split; [| done].
  destruct (H2 e eq_refl) as [He Hb]. case_match eqn:Ev; [| by apply call_back_ok].
  apply andb_true_iff in Ev as [_ Ev]. apply call_back_ok; [done |]. intros _. unfold granted. rewrite Ef.
  by exists (ce_password_hash e).
Qed.

Lemma run_verify_ok log now rand lk l c :
  l_results l = [] → ok (l_out l) = false → lookup_logged log (l_address l) lk → cache_ok log c →
  login_ok log (run_verify SHA256 now rand lk l c).1 ∧ cache_ok log (run_verify SHA256 now rand lk l c).2.
Proof.
  intros Hr Ho Hl Hc. unfold run_verify.
  assert (∀ b, login_ok log (call_back (with_server_error b (l_out l)) l)) as Hx
    by (intros b; apply call_back_ok; [done | simpl; congruence]).
  unfold lookup_logged in Hl. destruct (lk_status lk); try (split; [apply Hx | done]).
  destruct (to_i32 _ =? 1) eqn:Es; simpl; [| split; [apply call_back_ok; [done | congruence] | done]]. bool_prop.
  set (cr := lk_credentials lk) in *. set (e := mkEntry' _ _ _ _).
  assert (active log (l_address l) cr) as Ha by (split; [by apply Hl | done]).
  assert (cache_ok log (cache_store now (l_address l) e c)) as Hst.
  { apply cache_store_ok; [done | done |]. exists cr. split_and!; [done | done | by left]. }
  destruct (ph_verify _ _) eqn:Ev; simpl; (split; [| done]); [| apply call_back_ok; [done | congruence]].
  apply rehash_ok; try done. split; [done |]. by exists cr.
Qed.

Lemma run_reverify_ok log live l :
  l_results l = [] → l_fresh l = true → proved log l (l_out l) → lookup_logged log (l_address l) live →
  login_ok log (run_reverify SHA256 live l).
Proof.
  intros Hr Hf (_ & cr & Ha & Hu & Hv & Hs) Hl. unfold run_reverify. unfold lookup_logged in Hl.
  destruct (lk_status live); try (apply finish_ok; [done | simpl; congruence]).
  set (lc := lk_credentials live) in *. destruct (negb _ || _) eqn:E1; [apply finish_ok; [done | simpl; congruence] |].
  destruct (negb (bool_decide _) && _) eqn:E2; [apply finish_ok; [done | simpl; congruence] |].
  apply orb_false_iff in E1 as [E1 E3]. bool_prop. apply finish_ok; [done |]. intros _. unfold granted. rewrite Hf. simpl.
  exists cr, lc. split_and!; try done; [split; [by apply Hl | by rewrite E1] |].
  apply andb_false_iff in E2 as [E2 | E2]; bool_prop; [right; congruence | by left].
Qed.

(** One event keeps both invariants over the longer log, and shortens the work of a
    login that waits for it. *)
Lemma login_step_ok log ev l c :
  login_ok log l → cache_ok log c →
  login_ok (log ++ logged ev l) (login_step SHA256 ev l c).1 ∧ cache_ok (log ++ logged ev l) (login_step SHA256 ev l c).2.
Proof.
  intros Hl Hc. pose proof (login_ok_mono log (logged ev l) l Hl) as Hl'. pose proof (cache_ok_mono log (logged ev l) c Hc) as Hc'.
  unfold login_step, logged in *. unfold login_ok in Hl, Hl'.
  destruct (l_stage l) eqn:Es, ev;
    try (split; [unfold login_ok; cbn [fst]; rewrite Es; exact Hl' | exact Hc']); cbn [fst snd].
  - rewrite app_nil_r in *. by apply run_task_ok.
  - destruct Hl as [Hr Ho]. split; [| done]. split_and!; [done | done |]. destruct lookup as [st cr].
    unfold lookup_logged. simpl. intros ->. apply elem_of_app. right. by apply list_elem_of_singleton.
  - rewrite app_nil_r in *. destruct Hl as (H1 & H2 & H3). by apply run_verify_ok.
  - rewrite app_nil_r in *. destruct Hl as (H1 & H2 & H3 & H4). split; [by apply after_rehash_ok |]. cbn [upgraded snd].
    destruct success; [| done]. by apply cache_store_ok.
  - destruct Hl' as (H1 & H2 & H3). split; [| done]. split_and!; [done | done | done |]. destruct live as [st cr].
    unfold lookup_logged. simpl. intros ->. apply elem_of_app. right. by apply list_elem_of_singleton.
  - rewrite app_nil_r in *. destruct Hl as (H1 & H2 & H3 & H4). split; [by apply run_reverify_ok | done].
  - rewrite app_nil_r in *. destruct Hl as [Hr Hg]. split; [by apply call_back_ok | done].
Qed.

Lemma after_rehash_work l : (work (after_rehash l) ≤ 3)%nat.
Proof. unfold after_rehash, finish, work. destruct (l_fresh l), (ok (l_out l)); simpl; lia. Qed.

Lemma login_step_work ev l c : awaited l ev = true → (work (login_step SHA256 ev l c).1 < work l)%nat.
Proof.
  unfold awaited, login_step, work at 2. pose proof (after_rehash_work l) as Ha.
  destruct (l_stage l) eqn:Es, ev; try done; intros _; cbn [fst].
  - unfold run_task, work. repeat case_match; simpl; simplify_eq/=; lia || (repeat case_match; simplify_eq/=; lia).
  - unfold work; simpl; lia.
  - unfold run_verify. destruct (lk_status lookup); try (unfold work; simpl; lia).
    destruct (negb _); [unfold work; simpl; lia |]. cbn zeta. destruct (negb _); [unfold work; simpl; lia |]. cbn [fst].
    unfold rehash. match goal with |- context [set_out ?o l] => pose proof (after_rehash_work (set_out o l)) end.
    destruct (negb _); [lia |]. destruct (ph_hash _ _); [lia | unfold work; simpl; lia].
  - unfold upgraded. cbn [fst]. lia.
  - unfold work; simpl; lia.
  - unfold run_reverify, finish, work. repeat case_match; simplify_eq/=; lia.
  - unfold work; simpl; lia.
Qed.

(** What a login was asked for. *)
Definition asked_of (l : Login) : bytes * bytes * bool := (l_address l, l_password l, l_fresh l).

Lemma login_step_asked ev l c : asked_of (login_step SHA256 ev l c).1 = asked_of l.
Proof.
  assert (∀ out, asked_of (finish out l) = asked_of l) as Hf by (intros out; unfold finish; by destruct (negb _)).
  assert (∀ l', asked_of l' = asked_of l → asked_of (after_rehash l') = asked_of l) as Ha.
  { intros l' E. rewrite <- E. unfold after_rehash, finish. by destruct (l_fresh l'), (ok (l_out l')). }
  unfold login_step. destruct (l_stage l), ev; try done; cbn [fst].
  - unfold run_task. repeat case_match; by simplify_eq/=.
  - unfold run_verify. destruct (lk_status lookup); try done. destruct (negb _); [done |]. cbn zeta. destruct (negb _); [done |].
    cbn [fst]. unfold rehash. destruct (negb _); [by apply Ha |]. destruct (ph_hash _ _); [by apply Ha | done].
  - by apply Ha.
  - unfold run_reverify. destruct (lk_status live); try apply Hf. destruct (_ || _); [apply Hf |]. destruct (_ && _); apply Hf.
Qed.

Definition world_ok (asked : list (bytes * bytes * bool)) (w : World) : Prop :=
  cache_ok (w_log w) (w_cache w) ∧ Forall (login_ok (w_log w)) (w_logins w) ∧ asked_of <$> w_logins w = asked.

Lemma world_step_ok asked w e : world_ok asked w → world_ok asked (world_step SHA256 w e).
Proof.
  intros (Hc & Hl & Ha). unfold world_step. destruct (w_logins w !! e.1) as [l |] eqn:E; [| done].
  pose proof (proj1 (Forall_lookup _ _) Hl _ _ E) as Hli. pose proof (login_step_asked e.2 l (w_cache w)) as Hk.
  destruct (login_step_ok (w_log w) e.2 l (w_cache w) Hli Hc) as [H1 H2].
  destruct (login_step SHA256 e.2 l (w_cache w)) as [l' c]. split_and!; simpl in *; [done | |].
  - apply Forall_insert; [| done]. eapply Forall_impl; [| exact Hl]. intros x. apply login_ok_mono.
  - rewrite list_fmap_insert, Hk, <- Ha. apply list_insert_id. by rewrite list_lookup_fmap, E.
Qed.

Lemma world_run_ok asked evs w : world_ok asked w → world_ok asked (world_run SHA256 evs w).
Proof. unfold world_run. revert w. induction evs as [| e evs IH]; intros w Hw; [done |]. by apply IH, world_step_ok. Qed.

Lemma world_start_ok cache asked :
  cache = None ∨ (∃ capacity ttl, cache = Some (new_lru capacity ttl)) → world_ok asked (world_start cache asked).
Proof.
  intros Hc. split_and!; simpl.
  - intros c' ->. destruct Hc as [? | (capacity & ttl & [= ->])]; [done |]. split; [apply new_lru_wf | done].
  - by apply Forall_fmap, list.Forall_forall.
  - rewrite <- list_fmap_compose. rewrite <- (list_fmap_id asked) at 2. apply list_fmap_ext. by intros _ [[a p] f] _.
Qed.
End Proofs.

(** C30: Logging in is sound, for any number of logins that share a cache, in any order
    of their steps, whatever the repository answers: the callback of a login
    is called once, when it is finished, and if it says yes then an active account
    of that address was reported by the repository and the password was right for
    its stored hash, or for the hash that a login with the right password put in its
    place.  A login that asks for a fresh check does not rest on the cache: its user
    was read twice, the first hash verified, and the stamp it returns is that of the
    second, which verified as well or has the same stamp. *)
Theorem login_sound {PH : PasswordHashing} (SHA256 : bytes → bytes) (cache : option AuthCache)
  (asked : list (bytes * bytes * bool)) (evs : list (nat * Event)) (i : nat) (a p : bytes) (f : bool) :
  cache = None ∨ (∃ capacity ttl, cache = Some (new_lru capacity ttl)) →
  asked !! i = Some (a, p, f) →
  let w := world_run SHA256 evs (world_start cache asked) in
  ∃ l, w_logins w !! i = Some l ∧ l_address l = a ∧ l_password l = p ∧ l_fresh l = f ∧
       (l_stage l = Finished → length (l_results l) = 1%nat) ∧
       (l_stage l ≠ Finished → l_results l = []) ∧
       (∀ r, r ∈ l_results l → ok r = true → granted SHA256 (w_log w) l r).
Proof.
  intros Hc Hi w. destruct (world_run_ok SHA256 asked evs _ (world_start_ok SHA256 cache asked Hc)) as (_ & Hl & Ha). fold w in Hl, Ha.
  rewrite <- Ha, list_lookup_fmap in Hi. destruct (w_logins w !! i) as [l |] eqn:El; [| done]. simpl in Hi. injection Hi as <- <- <-.
  exists l. pose proof (proj1 (Forall_lookup _ _) Hl _ _ El) as Hok. unfold login_ok in Hok.
  assert (l_stage l ≠ Finished → l_results l = []) as Hn by (intros E; destruct (l_stage l); try done; by destruct Hok).
  split_and!; try done.
  - intros E. rewrite E in Hok. by destruct Hok as (r & -> & _).
  - intros r Hr Ho. assert (l_stage l = Finished) as E.
    { destruct (l_stage l); try (rewrite Hn in Hr by done; by apply elem_of_nil in Hr). done. }
    rewrite E in Hok. destruct Hok as (r' & E' & Hg). rewrite E' in Hr. apply list_elem_of_singleton in Hr as ->. by apply Hg.
Qed.

(** A login ends: seven events that it waits for are enough, whatever the other
    logins do to the cache in between. *)
Theorem login_completes {PH : PasswordHashing} (SHA256 : bytes → bytes) (a p : bytes) (f : bool)
  (answer : Login → Event) (caches : nat → option AuthCache) :
  (∀ l, l_stage l ≠ Finished → awaited l (answer l) = true) →
  l_stage (foldl (λ l n, (login_step SHA256 (answer l) l (caches n)).1) (login_async a p f) (seq 0 7)) = Finished.
Proof.
  intros Ha.
  assert (∀ ns l, (work (foldl (λ l n, (login_step SHA256 (answer l) l (caches n)).1) l ns) ≤ work l - length ns)%nat) as H.
  { induction ns as [| n ns IH]; intros l; simpl; [lia |]. etrans; [apply IH |].
    destruct (decide (work l = 0%nat)) as [E | E].
    - assert (l_stage l = Finished) as Ef by (unfold work in E; by destruct (l_stage l)).
      unfold login_step. rewrite Ef. simpl. lia.
    - assert (l_stage l ≠ Finished) as Ef by (intros Ef; apply E; unfold work; by rewrite Ef).
      pose proof (login_step_work SHA256 (answer l) l (caches n) (Ha l Ef)). lia. }
  assert (∀ ns, length ns = 7%nat →
    l_stage (foldl (λ l n, (login_step SHA256 (answer l) l (caches n)).1) (login_async a p f) ns) = Finished) as Hf; [| by apply Hf].
  intros ns Hn. specialize (H ns (login_async a p f)). rewrite Hn in H.
  change (work (login_async a p f)) with 7%nat in H. unfold work in H. by destruct (l_stage (foldl _ _ _)); [lia.. |].
Qed.

(** ** Two logins, as an example *)

(** A toy format in place of bcrypt: a mark and the password. *)
#[export] Program Instance marked_passwords : PasswordHashing | 100 := {|
  ph_verify := λ input stored, bool_decide (stored = input) || bool_decide (stored = 36 :: 50 :: input);
  ph_needs_rehash := λ stored, negb (is_bcrypt_hash stored);
  ph_hash := λ rand password, match rand with Some _ => 36 :: 50 :: password | None => [] end;
|}.
Next Obligation. done. Qed.
Next Obligation. intros salt password _ _. simpl. rewrite (bool_decide_eq_true_2 (36 :: 50 :: password = 36 :: 50 :: password)) by done. by rewrite orb_true_r. Qed.
Next Obligation. done. Qed.

Definition row (hash : bytes) : CredentialLookup := mkLookup found (mkCredentials 7 1 hash).

(** Login 0 starts with the old password, which is stored in the clear; the password
    is reset; login 1, a fresh one, reads the new hash and puts it into the
    cache; then the update of login 0 matches no row, which is reported as success,
    and its old password goes into the cache; login 2 with the old password is
    let in at that time, login 3 with the new one is not. *)
Definition late_upgrade : list (nat * Event) :=
  [(0, RunTask 0 0 true); (0, ReadAnswer (row (s! "old"))); (0, RunVerify 1 (Some []));
   (1, RunTask 2 0 true); (1, ReadAnswer (row (s! "$2new"))); (1, RunVerify 3 None);
   (1, RereadAnswer (row (s! "$2new"))); (1, RunReverify); (1, TouchAnswer true);
   (0, UpgradeAnswer 4 true); (0, TouchAnswer true);
   (2, RunTask 5 0 true); (3, RunTask 6 0 true)]%nat.

Definition late_world : World :=
  world_run (λ x, x) late_upgrade
    (world_start (Some (new_lru 10 300))
       [(s! "a@b", s! "old", false); (s! "a@b", s! "new", true); (s! "a@b", s! "old", false); (s! "a@b", s! "new", false)]).

Example late_upgrade_revives_old_password :
  (λ l, ok <$> l_results l) <$> w_logins late_world = [[true]; [true]; [true]; [false]].
Proof. vm_compute. reflexivity. Qed.

Lemma login_sound_witness :
  ∃ l, w_logins late_world !! 1%nat = Some l ∧ ok <$> l_results l = [true] ∧
       (∀ r, r ∈ l_results l → ok r = true → granted (λ x, x) (w_log late_world) l r).
Proof.
  destruct (login_sound (λ x, x) (Some (new_lru 10 300))
    [(s! "a@b", s! "old", false); (s! "a@b", s! "new", true); (s! "a@b", s! "old", false); (s! "a@b", s! "new", false)]
    late_upgrade 1 (s! "a@b") (s! "new") true) as (l & Hl & _ & _ & _ & _ & _ & Hg).
  - right. by exists 10%nat, 300.
  - reflexivity.
  - exists l. split; [exact Hl |]. split; [| exact Hg]. revert Hl. vm_compute. intros [= <-]. reflexivity.
Defined.

Definition sample_answer (l : Login) : Event :=
  match l_stage l with
  | Queued => RunTask 0 0 true
  | Reading => ReadAnswer (row (s! "old"))
  | Verifying _ => RunVerify 1 (Some [])
  | Upgrading _ _ _ => UpgradeAnswer 2 true
  | Rereading => RereadAnswer (row (s! "$2old"))
  | Reverifying _ => RunReverify
  | _ => TouchAnswer false
  end.

Lemma login_completes_witness :
  l_stage (foldl (λ l n, (login_step (λ x, x) (sample_answer l) l ((λ _, None) n)).1)
             (login_async (s! "a@b") (s! "old") true) (seq 0 7)) = Finished.
Proof.
  apply (login_completes (λ x, x) (s! "a@b") (s! "old") true sample_answer (λ _ : nat, None)).
  intros l Hl. unfold sample_answer, awaited. by destruct (l_stage l).
Defined.
