(* ===== verification/AccountPolicy.v ===== *)
(** * What the servers ask about an address

    Models the questions of [common/account_policy.cpp]: whether a recipient exists,
    which addresses an alias stands for, whether a sender may send more today.  Each
    looks into a cache and then asks the repository; many are on their way at
    once.  The pure rules of that file are in [SmtpText]. *)

From S2P Require Import Prelude LruCache AccountAuth.

Record RecipientLookup := mkRecipient { r_status : AccountLookupStatus; r_account_status : Z }.
Record AliasLookup := mkAlias { al_success : bool; al_targets : list bytes }.
Inductive QuotaOutcome := consumed | exceeded | quota_unavailable | update_failed | count_failed.

Abbreviation AliasCache := (LruCache bytes (list bytes)).

Record AccountPolicy := mkPolicy { recipients_ : AuthCache; aliases_ : AliasCache }.

(** [user_exists_async]: the answer of the cache, if it has one. *)
Definition ask_exists (now : Z) (a : bytes) (p : AccountPolicy) : option bool * AccountPolicy :=
  let '(e, c) := cache_lookup now a (recipients_ p) in
  ((λ e, ce_status e =? 1) <$> e, mkPolicy c (aliases_ p)).

(** Its callback. *)
Definition answer_exists (now : Z) (a : bytes) (lookup : RecipientLookup) (p : AccountPolicy) : bool * AccountPolicy :=
  match r_status lookup with
  | unavailable => (false, p)
  | st =>
      let status := match st with found => to_i32 (r_account_status lookup) | _ => 0 end in
      (status =? 1, mkPolicy (put now a (mkEntry' [] status 0 0) (recipients_ p)) (aliases_ p))
  end.

(** [alias_targets_async] and its callback. *)
Definition ask_aliases (now : Z) (a : bytes) (p : AccountPolicy) : option (list bytes) * AccountPolicy :=
  match get now a (aliases_ p) with
  | (Some (targets, stale), c) => (if stale then None else Some targets, mkPolicy (recipients_ p) c)
  | (None, c) => (None, mkPolicy (recipients_ p) c)
  end.

Definition answer_aliases (now : Z) (a : bytes) (lookup : AliasLookup) (p : AccountPolicy) : list bytes * AccountPolicy :=
  (al_targets lookup, if al_success lookup then mkPolicy (recipients_ p) (put now a (al_targets lookup) (aliases_ p)) else p).

(** [check_send_quota_async]: without a limit nothing is asked. *)
Definition check_send_quota (limit : Z) (outcome : QuotaOutcome) : bool :=
  if limit <=? 0 then true else
  match outcome with consumed | quota_unavailable | update_failed => true | _ => false end.

(** Calls and callbacks in the order in which they happen. *)
Inductive PolicyEvent :=
  | AskExists (now : Z) (a : bytes)
  | AnswerExists (now : Z) (a : bytes) (lookup : RecipientLookup)
  | AskAliases (now : Z) (a : bytes)
  | AnswerAliases (now : Z) (a : bytes) (lookup : AliasLookup).

Inductive Reply := Exists (a : bytes) (b : bool) | Targets (a : bytes) (l : list bytes).

Definition policy_step (p : AccountPolicy) (ev : PolicyEvent) : option Reply * AccountPolicy :=
  match ev with
  | AskExists now a => let '(b, p) := ask_exists now a p in (Exists a <$> b, p)
  | AnswerExists now a lookup => let '(b, p) := answer_exists now a lookup p in (Some (Exists a b), p)
  | AskAliases now a => let '(l, p) := ask_aliases now a p in (Targets a <$> l, p)
  | AnswerAliases now a lookup => let '(l, p) := answer_aliases now a lookup p in (Some (Targets a l), p)
  end.

Definition policy_run (evs : list PolicyEvent) (p : AccountPolicy) : list Reply * AccountPolicy :=
  foldl (λ acc ev, let '(r, p) := policy_step acc.2 ev in (acc.1 ++ option_list r, p)) ([], p) evs.

Definition new_policy (capacity capacity' : nat) (ttl ttl' : Z) : AccountPolicy :=
  mkPolicy (new_lru capacity ttl) (new_lru capacity' ttl').

(** ** Properties *)

(** A reply rests on an answer of the repository for the same address. *)
Definition reply_backed (evs : list PolicyEvent) (r : Reply) : Prop :=
  match r with
  | Exists a true => ∃ now status, AnswerExists now a (mkRecipient found status) ∈ evs ∧ to_i32 status = 1
  | Exists a false => True
  | Targets a l => ∃ now success, AnswerAliases now a (mkAlias success l) ∈ evs
  end.

Definition policy_ok (evs : list PolicyEvent) (p : AccountPolicy) : Prop :=
  lru_wf (recipients_ p) ∧ lru_wf (aliases_ p) ∧
  (∀ a e, lookup_value (recipients_ p) a = Some e → ce_status e = 1 → reply_backed evs (Exists a true)) ∧
  (∀ a l, lookup_value (aliases_ p) a = Some l → ∃ now, AnswerAliases now a (mkAlias true l) ∈ evs).

Lemma reply_backed_mono evs evs' r : reply_backed evs r → reply_backed (evs ++ evs') r.
Proof.
  destruct r as [a [] | a l]; [| done |]; simpl.
  - intros (now & st & H & H'). exists now, st. split; [apply elem_of_app; by left | done].
  - intros (now & b & H). exists now, b. apply elem_of_app. by left.
Qed.

Lemma policy_ok_mono evs evs' p : policy_ok evs p → policy_ok (evs ++ evs') p.
Proof.
  intros (H1 & H2 & H3 & H4). split_and!; try done.
  - intros a e He Hs. by apply reply_backed_mono, (H3 a e).
  - intros a l Hl. destruct (H4 a l Hl) as [now Hn]. exists now. apply elem_of_app. by left.
Qed.

(** What [get] leaves of the lookups. *)
Lemma get_same {V} (now : Z) (a : bytes) (c : LruCache bytes V) :
  lru_wf c → lru_wf (get now a c).2 ∧ (∀ k, lookup_value (get now a c).2 k = lookup_value c k) ∧
  (∀ v stale, (get now a c).1 = Some (v, stale) → lookup_value c a = Some v).
Proof.
  intros H. destruct (get_spec now a c H) as [H1 H2]. split_and!; [by apply get_wf | done |].
  intros v stale E. rewrite E in H1. by symmetry.
Qed.

Lemma policy_step_ok evs p ev :
  policy_ok evs p →
  policy_ok (evs ++ [ev]) (policy_step p ev).2 ∧ (∀ r, (policy_step p ev).1 = Some r → reply_backed (evs ++ [ev]) r).
Proof.
  intros Hp%(policy_ok_mono evs [ev]). pose proof Hp as (H1 & H2 & H3 & H4).
  assert (ev ∈ evs ++ [ev]) as Hin by (apply elem_of_app; right; by apply list_elem_of_singleton).
  destruct ev as [now a | now a [st account] | now a | now a [success targets]]; simpl.
  - unfold ask_exists, cache_lookup. destruct (get_same now a (recipients_ p) H1) as (G1 & G2 & G3).
    destruct (get now a (recipients_ p)) as [[[e stale]|] c]; simpl in *.
    + split; [split_and!; try done; intros k e'; rewrite G2; apply H3 |].
      destruct stale; [done |]. intros r [= <-]. destruct (ce_status e =? 1) eqn:E; [| done]. bool_prop.
      by apply (H3 a e), E; apply (G3 e false).
    + split; [split_and!; try done; intros k e'; rewrite G2; apply H3 | done].
  - unfold answer_exists. simpl.
    assert (∀ s, (s = 1 → reply_backed (evs ++ [AnswerExists now a (mkRecipient st account)]) (Exists a true)) →
      policy_ok (evs ++ [AnswerExists now a (mkRecipient st account)])
        (mkPolicy (put now a (mkEntry' [] s 0 0) (recipients_ p)) (aliases_ p)) ∧
      (∀ r, Some (Exists a (s =? 1)) = Some r → reply_backed (evs ++ [AnswerExists now a (mkRecipient st account)]) r)) as Hs.
    { intros s Hs. destruct (put_spec now a (mkEntry' [] s 0 0) (recipients_ p) H1) as [P1 P2]. split.
      - split_and!; [by apply put_wf | done | | done]. intros k e. simpl. destruct (decide (k = a)) as [-> | Hk].
        + rewrite P1. by intros [= <-].
        + rewrite P2 by done. case_bool_decide; [done | apply H3].
      - intros r [= <-]. destruct (s =? 1) eqn:E; [| done]. bool_prop. by apply Hs. }
    destruct st; [apply Hs; intros E; by exists now, account | by apply Hs | | by apply Hs].
    split; [done |]. by intros r [= <-].
  - unfold ask_aliases. destruct (get_same now a (aliases_ p) H2) as (G1 & G2 & G3).
    destruct (get now a (aliases_ p)) as [[[l stale]|] c]; simpl in *.
    + split; [split_and!; try done; intros k e'; rewrite G2; apply H4 |].
      destruct stale; [done |]. intros r [= <-]. destruct (H4 a l (G3 l false eq_refl)) as [now' Hn]. by exists now', true.
    + split; [split_and!; try done; intros k e'; rewrite G2; apply H4 | done].
  - split; [| intros r [= <-]; by exists now, success]. destruct success; [| done].
    destruct (put_spec now a targets (aliases_ p) H2) as [P1 P2]. split_and!; [done | by apply put_wf | done |].
    intros k l. simpl. destruct (decide (k = a)) as [-> | Hk].
    + rewrite P1. intros [= <-]. by exists now.
    + rewrite P2 by done. case_bool_decide; [done | apply H4].
Qed.

(** Caches, evictions and overlapping questions never make anything up: a recipient
    is said to exist only if the repository reported it as active, and the targets
    of an alias are those of an answer for that alias. *)
Theorem policy_backed (capacity capacity' : nat) (ttl ttl' : Z) (evs : list PolicyEvent) :
  Forall (reply_backed evs) (policy_run evs (new_policy capacity capacity' ttl ttl')).1.
Proof.
  assert (policy_ok [] (new_policy capacity capacity' ttl ttl')) as H0 by (split_and!; [apply new_lru_wf | apply new_lru_wf | done | done]).
  assert (policy_ok evs (policy_run evs (new_policy capacity capacity' ttl ttl')).2 ∧
    Forall (reply_backed evs) (policy_run evs (new_policy capacity capacity' ttl ttl')).1) as [_ H]; [| done].
  induction evs as [| ev evs IH] using rev_ind; [by split |]. destruct IH as [IH1 IH2].
  unfold policy_run in *. rewrite foldl_app. simpl. destruct (foldl _ _ evs) as [rs p]. simpl in *.
  destruct (policy_step_ok evs p ev IH1) as [S1 S2]. destruct (policy_step p ev) as [r p']. simpl in *. split; [done |].
  apply Forall_app. split.
  - eapply Forall_impl; [| exact IH2]. intros x. apply reply_backed_mono.
  - destruct r as [r |]; simpl; [| constructor]. constructor; [by apply S2 | constructor].
Qed.

(** A recipient is remembered as missing after a failed query, not after a missing
    connection; the next question in time gets the remembered answer. *)
Example failed_query_is_remembered :
  (policy_run [AskExists 0 (s! "a@b"); AnswerExists 0 (s! "a@b") (mkRecipient query_failed 0); AskExists 1 (s! "a@b");
               AskExists 0 (s! "c@d"); AnswerExists 0 (s! "c@d") (mkRecipient unavailable 0); AskExists 1 (s! "c@d")]
    (new_policy 10 10 300 300)).1
  = [Exists (s! "a@b") false; Exists (s! "a@b") false; Exists (s! "c@d") false].
Proof. vm_compute. reflexivity. Qed.
