(* ===== verification/MimeComposer.v ===== *)
(** * Composing a message

    Models [common/mime_composer.cpp], which turns what a web user typed into a
    message and its envelope: the address grammar, encoded words, address lists,
    text parts and the assembly.  [EVP_EncodeBlock] (behind [base64_encode]),
    [gmtime_r] and [RAND_bytes] are parameters. *)

From S2P Require Import Prelude CString MailCrypto Bcrypt.

(** ** Pieces *)

Definition alnum (c : Z) : bool :=
  (97 <=? c) && (c <=? 122) || (65 <=? c) && (c <=? 90) || (48 <=? c) && (c <=? 57).

(** The calendar time that [gmtime_r] gives. *)
Record tm := mkTm { tm_sec : Z; tm_min : Z; tm_hour : Z; tm_mday : Z; tm_mon : Z; tm_year : Z; tm_wday : Z }.

Definition days : list bytes := [s! "Sun"; s! "Mon"; s! "Tue"; s! "Wed"; s! "Thu"; s! "Fri"; s! "Sat"].
Definition months : list bytes :=
  [s! "Jan"; s! "Feb"; s! "Mar"; s! "Apr"; s! "May"; s! "Jun"; s! "Jul"; s! "Aug"; s! "Sep"; s! "Oct"; s! "Nov"; s! "Dec"].

(** [%0wd] of a number that is not negative. *)
Definition padded (w : nat) (n : Z) : bytes := replicate (w - length (to_string n)) 48 ++ to_string n.

(** The buffer holds 79 characters. *)
Definition date_header (t : tm) : bytes :=
  take 79 (s! "Date: " ++ nth (Z.to_nat (tm_wday t)) days [] ++ s! ", " ++ padded 2 (tm_mday t) ++ s! " " ++
    nth (Z.to_nat (tm_mon t)) months [] ++ s! " " ++ padded 4 (tm_year t + 1900) ++ s! " " ++
    padded 2 (tm_hour t) ++ s! ":" ++ padded 2 (tm_min t) ++ s! ":" ++ padded 2 (tm_sec t) ++ s! " +0000" ++ CRLF).

Definition address_header (name : bytes) (addresses : list bytes) : bytes :=
  match addresses with
  | [] => []
  | a :: rest => name ++ s! ": " ++ (s! "<" ++ a ++ s! ">") ++
                 concat ((λ a, s! "," ++ CRLF ++ s! " " ++ s! "<" ++ a ++ s! ">") <$> rest) ++ CRLF
  end.

(** ** Addresses *)

Definition local_char (c : Z) : bool := alnum c || existsb (Z.eqb c) (s! ".!#$%&'*+-/=?^_`{|}~").

(** The loop over the domain: [rest] is the domain from [i] on, [label] where the
    current label began. *)
Fixpoint domain_ok (domain rest : bytes) (i label : nat) : bool :=
  let ends := negb ((i =? label)%nat || (63 <? i - label)%nat || (nth label domain 0 =? 45) || (nth (i - 1) domain 0 =? 45)) in
  match rest with
  | [] => ends
  | c :: rest =>
      if c =? 46 then ends && domain_ok domain rest (S i) (S i)
      else (alnum c || (c =? 45)) && domain_ok domain rest (S i) label
  end.

Definition valid_address (address : bytes) : bool :=
  if (254 <? length address)%nat then false else
  match find_char 64 address with
  | None => false
  | Some at_ =>
      if (at_ =? 0)%nat || (64 <? at_)%nat then false else
      let local := take at_ address in
      let domain := drop (S at_) address in
      negb ((nth 0 local 0 =? 46) || (nth (length local - 1) local 0 =? 46) || bool_decide (is_Some (find_sub (s! "..") local)) ||
            bool_decide (domain = []) || (253 <? length domain)%nat) &&
      forallb local_char local && domain_ok domain domain 0 0
  end.

(** ** Subject and text *)

(** [(c & 0xc0) == 0x80] *)
Definition continuation (c : Z) : bool := Z.land c 192 =? 128.

(** The loop that moves [end] off a continuation byte; below the first byte the
    index wraps around, which also ends it. *)
Fixpoint back_up (value : bytes) (e : nat) : Z :=
  if (e <? length value)%nat && continuation (nth e value 0)
  then match e with O => 2 ^ 64 - 1 | S e => back_up value e end
  else Z.of_nat e.

(** [substr] clamps its length. *)
Definition substr (s : bytes) (pos len : Z) : bytes := take (Z.to_nat (Z.min len (Z.of_nat (length s)))) (drop (Z.to_nat pos) s).

Definition kMaxBodyBytes : Z := 512 * 1024.
Definition kMaxRecipients : nat := 100.

(** Lone carriage returns and line feeds become line ends. *)
Fixpoint canonical_text (text : bytes) : bytes :=
  match text with
  | [] => []
  | 13 :: 10 :: rest => CRLF ++ canonical_text rest
  | c :: rest => (if (c =? CR) || (c =? LF) then CRLF else [c]) ++ canonical_text rest
  end.

(** Lines of 76 characters. *)
Fixpoint wrapped (fuel : nat) (encoded : bytes) : bytes :=
  match fuel, encoded with
  | S fuel, _ :: _ => take 76 encoded ++ CRLF ++ wrapped fuel (drop 76 encoded)
  | _, _ => []
  end.

Record Message := mkMessage { from : bytes; to : list bytes; cc : list bytes; subject : bytes; text : option bytes; html : option bytes }.

Record ComposedMessage := mkComposed { error_status : Z; error : bytes; raw : bytes; message_id : bytes; recipients : list bytes }.

Section Compose.
Context (EVP_EncodeBlock : bytes → option bytes).
Local Abbreviation base64 := (base64_encode EVP_EncodeBlock).

(** The loop of [encoded_subject]; [None] would be out of fuel, the empty text is
    the failure. *)
Fixpoint subject_words (fuel : nat) (value : bytes) (pos : Z) (out : bytes) : option bytes :=
  if Z.of_nat (length value) <=? pos then Some (out ++ CRLF) else
  match fuel with
  | O => None
  | S fuel =>
      let e := back_up value (Z.to_nat (Z.min (pos + 39) (Z.of_nat (length value)))) in
      if e =? pos then Some [] else
      subject_words fuel value e
        (out ++ (if pos =? 0 then [] else CRLF ++ s! " ") ++ s! "=?UTF-8?B?" ++ base64 (substr value pos (to_u64 (e - pos))) ++ s! "?=")
  end.

Definition encoded_subject (value : bytes) : bytes :=
  match value with
  | [] => s! "Subject:" ++ CRLF
  | _ => default [] (subject_words (S (length value)) value 0 (s! "Subject: "))
  end.

Definition text_part (text subtype : bytes) : bytes :=
  let encoded := base64 (canonical_text text) in
  s! "Content-Type: text/" ++ subtype ++ s! "; charset=utf-8" ++ CRLF ++ s! "Content-Transfer-Encoding: base64" ++ CRLF ++ CRLF ++
  wrapped (length encoded) encoded.

(** ** Assembly *)

Definition fail (out : list bytes) (status : Z) (e : bytes) : ComposedMessage := mkComposed status e [] [] out.

(** The loop over [to] and [cc]: the recipients so far with their lower-case keys. *)
Fixpoint envelope (addresses seen out : list bytes) : ComposedMessage + list bytes :=
  match addresses with
  | [] => inr out
  | a :: rest =>
      if negb (valid_address a) then inl (fail out 400 (s! "invalid recipient address")) else
      let key := tolower <$> a in
      if bool_decide (key ∈ seen) then envelope rest seen out else envelope rest (key :: seen) (out ++ [a])
  end.

Definition domain_of (address : bytes) : bytes :=
  match find_char 64 address with Some at_ => drop (S at_) address | None => address end.

(** [rand] are the 24 bytes of [RAND_bytes], [now] the time. *)
Definition compose (rand : option bytes) (now : tm) (m : Message) : ComposedMessage :=
  if negb (valid_address (from m)) then fail [] 400 (s! "invalid sender address") else
  let count := (length (to m) + length (cc m))%nat in
  if (count =? 0)%nat || (kMaxRecipients <? count)%nat then fail [] 400 (s! "expected 1..100 recipients") else
  match envelope (to m ++ cc m) [] [] with
  | inl failed => failed
  | inr out =>
      if (512 <? length (subject m))%nat then fail out 400 (s! "subject exceeds 512 bytes") else
      if existsb (λ c, (c <? 32) || (c =? 127)) (subject m) then fail out 400 (s! "invalid subject") else
      match text m, html m with
      | None, None => fail out 400 (s! "text or html required")
      | t, h =>
          if kMaxBodyBytes <? Z.of_nat (length (default [] t)) + Z.of_nat (length (default [] h))
          then fail out 413 (s! "message body exceeds 512 KiB") else
          let subject := encoded_subject (subject m) in
          if bool_decide (subject = []) then fail out 400 (s! "invalid UTF-8 subject") else
          match default [] (hex <$> rand) with
          | [] => fail out 500 (s! "message id generation failed")
          | nonce =>
              let id := s! "<" ++ nonce ++ s! "@" ++ domain_of (from m) ++ s! ">" in
              let head := date_header now ++ s! "Message-ID: " ++ id ++ CRLF ++ s! "From: <" ++ from m ++ s! ">" ++ CRLF ++
                          address_header (s! "To") (to m) ++ address_header (s! "Cc") (cc m) ++
                          subject ++ s! "MIME-Version: 1.0" ++ CRLF in
              let body :=
                match t, h with
                | Some t, Some h =>
                    let boundary := s! "wb_" ++ nonce in
                    s! "Content-Type: multipart/alternative; boundary=" ++ [DQUOTE] ++ boundary ++ [DQUOTE] ++ CRLF ++ CRLF ++
                    s! "--" ++ boundary ++ CRLF ++ text_part t (s! "plain") ++ CRLF ++
                    s! "--" ++ boundary ++ CRLF ++ text_part h (s! "html") ++ CRLF ++
                    s! "--" ++ boundary ++ s! "--" ++ CRLF
                | Some t, None => text_part t (s! "plain")
                | None, _ => text_part (default [] h) (s! "html")
                end in
              mkComposed 0 [] (head ++ body) id out
          end
      end
  end.
End Compose.

(** ** Addresses: the grammar *)

Definition label_char (c : Z) : bool := alnum c || (c =? 45).

(** The parts between the dots. *)
Fixpoint split_dots (cur s : bytes) : list bytes :=
  match s with
  | [] => [cur]
  | c :: s => if c =? 46 then cur :: split_dots [] s else split_dots (cur ++ [c]) s
  end.

Definition label_ok (l : bytes) : bool :=
  negb ((length l =? 0)%nat || (63 <? length l)%nat || (nth 0 l 0 =? 45) || (nth (length l - 1) l 0 =? 45)) && forallb label_char l.

Lemma nth_app_at (l r : bytes) i : nth (length l + i) (l ++ r) 0 = nth i r 0.
Proof. rewrite app_nth2 by lia. f_equal. lia. Qed.

(** The test at the end of a label, by index and by label. *)
Lemma label_ends (prefix cur rest : bytes) :
  let d := prefix ++ cur ++ rest in
  let i := (length prefix + length cur)%nat in
  ((i =? length prefix)%nat || (63 <? i - length prefix)%nat || (nth (length prefix) d 0 =? 45) || (nth (i - 1) d 0 =? 45)) =
  ((length cur =? 0)%nat || (63 <? length cur)%nat || (nth 0 cur 0 =? 45) || (nth (length cur - 1) cur 0 =? 45)).
Proof.
  intros d i. destruct cur as [| x cur].
  { unfold i. simpl length. by replace (length prefix + 0 =? length prefix)%nat with true by (symmetry; apply Nat.eqb_eq; lia). }
  pose proof (nth_app_at prefix ((x :: cur) ++ rest) 0) as E0. rewrite Nat.add_0_r in E0. fold d in E0. rewrite E0.
  replace (i - 1)%nat with (length prefix + (length (x :: cur) - 1))%nat by (unfold i; simpl; lia).
  unfold d. rewrite nth_app_at. rewrite (app_nth1 (x :: cur) _ 0 (n := length (x :: cur) - 1)) by (simpl; lia).
  replace (i - length prefix)%nat with (length (x :: cur)) by (unfold i; lia).
  by replace (i =? length prefix)%nat with (length (x :: cur) =? 0)%nat
    by (unfold i; simpl; symmetry; apply Nat.eqb_neq; lia).
Qed.

Lemma split_dots_chars s cur c : c ∈ cur → forallb label_ok (split_dots cur s) = true → label_char c = true.
Proof.
  assert (∀ l, c ∈ l → label_ok l = true → label_char c = true) as H.
  { intros l Hin Hl. unfold label_ok in Hl. bool_prop.
    match goal with H : forallb label_char _ = true |- _ => rewrite forallb_forall in H; apply H end. by apply list_elem_of_In. }
  revert cur. induction s as [| x s IH]; intros cur Hin Hs; cbn [split_dots] in Hs.
  - cbn [forallb] in Hs. bool_prop. by apply (H cur).
  - destruct (x =? 46); [cbn [forallb] in Hs; bool_prop; by apply (H cur) |].
    apply (IH (cur ++ [x])); [apply elem_of_app; by left | done].
Qed.

(** The index loop checks the labels one by one. *)
Lemma domain_ok_labels prefix cur rest :
  forallb label_char cur = true →
  domain_ok (prefix ++ cur ++ rest) rest (length prefix + length cur) (length prefix) = forallb label_ok (split_dots cur rest).
Proof.
  revert prefix cur. induction rest as [| c rest IH]; intros prefix cur Hc; cbn [domain_ok split_dots]; rewrite label_ends.
  - cbn [forallb]. unfold label_ok. by rewrite Hc, !andb_true_r.
  - destruct (c =? 46) eqn:Ec; [| destruct (label_char c) eqn:El].
    + cbn [forallb]. f_equal; [unfold label_ok; by rewrite Hc, andb_true_r |].
      replace (prefix ++ cur ++ c :: rest) with ((prefix ++ cur ++ [c]) ++ [] ++ rest) by (rewrite <- !(assoc_L (++)); done).
      replace (S (length prefix + length cur)) with (length (prefix ++ cur ++ [c]) + length ([] : bytes))%nat at 1
        by (rewrite !length_app; simpl; lia).
      replace (S (length prefix + length cur)) with (length (prefix ++ cur ++ [c])) by (rewrite !length_app; simpl; lia).
      by apply IH.
    + pose proof El as El'. unfold label_char in El'. rewrite El'. cbn [andb].
      replace (prefix ++ cur ++ c :: rest) with (prefix ++ (cur ++ [c]) ++ rest) by (rewrite <- !(assoc_L (++)); done).
      replace (S (length prefix + length cur)) with (length prefix + length (cur ++ [c]))%nat by (rewrite length_app; simpl; lia).
      apply IH. rewrite forallb_app, Hc. simpl. by rewrite El.
    + pose proof El as El'. unfold label_char in El'. rewrite El'. cbn [andb]. symmetry. apply not_true_iff_false. intros H.
      apply (split_dots_chars _ _ c) in H; [congruence |]. apply elem_of_app. right. by apply list_elem_of_singleton.
Qed.

(** An address is accepted exactly when it is a local part of at most 64 characters
    of the allowed set, without a dot at an end or two in a row, an at sign, and
    labels of 1 to 63 letters, digits and inner hyphens between dots, 254 characters
    in all. *)
Theorem valid_address_grammar (a : bytes) :
  valid_address a = true ↔
  ∃ local domain, a = local ++ 64 :: domain ∧ (1 ≤ length local ≤ 64)%nat ∧ (length a ≤ 254)%nat ∧ (length domain ≤ 253)%nat ∧
    domain ≠ [] ∧ Forall (λ c, local_char c = true) local ∧ nth 0 local 0 ≠ 46 ∧ nth (length local - 1) local 0 ≠ 46 ∧
    find_sub (s! "..") local = None ∧ Forall (λ l, label_ok l = true) (split_dots [] domain).
Proof.
  assert (∀ domain, domain_ok domain domain 0 0 = forallb label_ok (split_dots [] domain)) as Hd
    by (intros domain; by apply (domain_ok_labels [] [] domain)).
  unfold valid_address. split.
  - intros H. destruct (254 <? length a)%nat eqn:El; [done |]. destruct (find_char 64 a) as [at_ |] eqn:Ef; [| done].
    destruct ((at_ =? 0)%nat || (64 <? at_)%nat) eqn:Ea; [done |]. cbv zeta in H. rewrite Hd in H.
    apply find_char_Some in Ef as Hf. pose proof (find_char_lt _ _ _ Ef) as Hlt. bool_prop.
    assert (length (take at_ a) = at_) as Ht by (rewrite length_take; lia).
    exists (take at_ a), (drop (S at_) a). rewrite Ht in *. rewrite length_drop in *.
    split; [destruct Hf as (Hat & _); rewrite <- (take_drop_middle a at_ 64) at 1 by done; done |].
    split_and!; try lia; try done.
    + apply list.Forall_forall. intros c Hc%list_elem_of_In.
      match goal with H : forallb local_char _ = true |- _ => rewrite forallb_forall in H; by apply H end.
    + destruct (find_sub _ _) eqn:E; [| done]. match goal with H : ¬ is_Some _ |- _ => exfalso; apply H; by eexists end.
    + apply list.Forall_forall. intros c Hc%list_elem_of_In.
      match goal with H : forallb label_ok _ = true |- _ => rewrite forallb_forall in H; by apply H end.
  - intros (local & domain & -> & Hl & Hlen & Hdl & Hdn & Hc & H0 & H1 & Hdd & Hlab).
    rewrite (proj2 (Nat.ltb_ge _ _) Hlen).
    assert (64 ∉ local) as Hn.
    { intros Hin. pose proof (proj1 (list.Forall_forall _ _) Hc 64 Hin) as Hx. by vm_compute in Hx. }
    rewrite find_char_app_l by done. replace ((length local =? 0)%nat || (64 <? length local)%nat) with false.
    2:{ symmetry. apply orb_false_iff. rewrite Nat.eqb_neq, Nat.ltb_ge. lia. }
    cbv zeta. rewrite take_app_length. replace (drop (S (length local)) (local ++ 64 :: domain)) with domain
      by (rewrite cons_middle, (assoc_L (++)), drop_app_length' by (rewrite length_app; simpl; lia); done).
    rewrite Hdd, Hd, !andb_true_iff, !forallb_forall. split; [split |].
    + apply negb_true_iff, orb_false_iff. split; [| apply Nat.ltb_ge; lia]. apply orb_false_iff. split; [| by apply bool_decide_eq_false_2].
      apply orb_false_iff. split; [| by apply bool_decide_eq_false_2; intros [? ?]].
      apply orb_false_iff. by split; apply Z.eqb_neq.
    + intros c Hin%list_elem_of_In. by apply (proj1 (list.Forall_forall _ _) Hc).
    + intros c Hin%list_elem_of_In. by apply (proj1 (list.Forall_forall _ _) Hlab).
Qed.

(** ** The subject: words that join to the text *)

(** At most three continuation bytes in a row, as in UTF-8. *)
Definition short_runs (value : bytes) : Prop :=
  ∀ e, (3 ≤ e < length value)%nat → ∃ k, (k ≤ 3)%nat ∧ continuation (nth (e - k) value 0) = false.

Lemma back_up_spec (value : bytes) (e k : nat) :
  (k ≤ e)%nat → ((e - k < length value)%nat → continuation (nth (e - k) value 0) = false) →
  ∃ j, (j ≤ k)%nat ∧ back_up value e = Z.of_nat (e - j) ∧ ((e - j < length value)%nat → continuation (nth (e - j) value 0) = false).
Proof.
  revert e. induction k as [| k IH]; intros e Hk Hc.
  - rewrite Nat.sub_0_r in Hc. exists 0%nat. rewrite Nat.sub_0_r. split; [lia |]. split; [| done].
    destruct e; simpl; (destruct (_ <? _)%nat eqn:E; [| done]); bool_prop; rewrite Hc by done; done.
  - destruct ((e <? length value)%nat && continuation (nth e value 0)) eqn:E.
    + destruct e as [| e]; [lia |]. cbn [back_up]. rewrite E. destruct (IH e) as (j & Hj & Hb & Hn); [lia | done |].
      exists (S j). split; [lia |]. by split.
    + exists 0%nat. rewrite Nat.sub_0_r. split; [lia |]. split; [destruct e; cbn [back_up]; by rewrite E |].
      intros Hl. apply andb_false_iff in E as [E | E]; bool_prop; [lia | done].
Qed.

(** Where a word ends: further on, within 39 bytes, not inside a character. *)
Lemma word_end value pos :
  short_runs value → (pos < length value)%nat →
  ∃ e, back_up value (Z.to_nat (Z.min (Z.of_nat pos + 39) (Z.of_nat (length value)))) = Z.of_nat e ∧
    (pos < e ≤ length value)%nat ∧ (e ≤ pos + 39)%nat ∧ ((e < length value)%nat → continuation (nth e value 0) = false).
Proof.
  intros Hs Hp. set (e0 := Z.to_nat _). destruct (decide (length value <= pos + 39)%nat) as [Hl | Hl].
  - assert (e0 = length value) as -> by lia. exists (length value). split; [| lia].
    destruct (back_up_spec value (length value) 0) as (j & Hj & Hb & _); [lia | intros ?; lia |].
    rewrite Hb. f_equal. lia.
  - assert (e0 = (pos + 39)%nat) as -> by lia. destruct (Hs (pos + 39)%nat) as (k & Hk & Hc); [lia |].
    destruct (back_up_spec value (pos + 39) k) as (j & Hj & Hb & Hn); [lia | done |].
    exists (pos + 39 - j)%nat. split; [done |]. split; [lia |]. split; [lia |]. exact Hn.
Qed.

Section Subject.
Context (EVP_EncodeBlock : bytes → option bytes).
Local Abbreviation base64 := (base64_encode EVP_EncodeBlock).

Definition word_of (chunk : bytes) : bytes := s! "=?UTF-8?B?" ++ base64 chunk ++ s! "?=".
Definition more_words (chunks : list bytes) : bytes := concat ((λ c, CRLF ++ s! " " ++ word_of c) <$> chunks).

(** A piece of the subject: 1 to 39 bytes that do not begin inside a character. *)
Definition chunk_ok (c : bytes) : Prop := (1 ≤ length c ≤ 39)%nat ∧ continuation (nth 0 c 0) = false.

Lemma chunk_cut value pos e :
  (pos < e ≤ length value)%nat → Z.of_nat (length value) < 2 ^ 63 →
  substr value (Z.of_nat pos) (to_u64 (Z.of_nat e - Z.of_nat pos)) = take (e - pos) (drop pos value).
Proof.
  intros He Hv. unfold substr. rewrite to_u64_id by (unfold u64_ok; lia). rewrite Nat2Z.id.
  destruct (decide (e - pos ≤ length value)%nat); [| lia]. f_equal. lia.
Qed.

Lemma subject_words_spec value fuel pos out :
  short_runs value → Z.of_nat (length value) < 2 ^ 63 → (0 < pos ≤ length value)%nat → (length value - pos ≤ fuel)%nat →
  ((pos < length value)%nat → continuation (nth pos value 0) = false) →
  ∃ chunks, subject_words EVP_EncodeBlock fuel value (Z.of_nat pos) out = Some (out ++ more_words chunks ++ CRLF) ∧
            concat chunks = drop pos value ∧ Forall chunk_ok chunks.
Proof.
  intros Hs Hv. revert pos out. induction fuel as [| fuel IH]; intros pos out Hp Hf Hc; cbn [subject_words];
    destruct (Z.leb_spec (Z.of_nat (length value)) (Z.of_nat pos)) as [Hle | Hle]; try lia.
  1, 2: exists []; rewrite drop_ge by lia; done.
  destruct (word_end value pos Hs ltac:(lia)) as (e & -> & He & He' & Hce).
  replace (Z.of_nat e =? Z.of_nat pos) with false by lia. rewrite chunk_cut by (lia || done).
  replace (Z.of_nat pos =? 0) with false by lia. set (c := take (e - pos) (drop pos value)).
  destruct (IH e (out ++ (CRLF ++ s! " ") ++ s! "=?UTF-8?B?" ++ base64 c ++ s! "?=")) as (cs & E & Hcs & Hok); [lia | lia | done |].
  exists (c :: cs). split; [| split].
  - rewrite E. unfold more_words, word_of. cbn [fmap list_fmap concat]. by rewrite <- !(assoc_L (++)).
  - cbn [concat]. rewrite Hcs. unfold c. rewrite <- (take_drop (e - pos) (drop pos value)) at 2. f_equal. rewrite drop_drop. f_equal. lia.
  - constructor; [| done]. split; [unfold c; rewrite length_take, length_drop; lia |].
    unfold c. rewrite nth_firstn, (proj2 (Nat.ltb_lt 0 (e - pos))) by lia. rewrite nth_skipn, Nat.add_0_r. apply Hc. lia.
Qed.

(** The subject survives: it is cut into pieces of at most 39 bytes, none of which
    begins inside a character, each is one encoded word on a line of its own, and
    the pieces join to the subject. The loop ends. *)
Theorem subject_encoded (value : bytes) :
  value ≠ [] → short_runs value → Z.of_nat (length value) < 2 ^ 63 →
  ∃ c cs, c ++ concat cs = value ∧ (1 ≤ length c ≤ 39)%nat ∧ Forall chunk_ok cs ∧
    encoded_subject EVP_EncodeBlock value = s! "Subject: " ++ word_of c ++ more_words cs ++ CRLF.
Proof.
  intros Hne Hs Hv. assert (0 < length value)%nat as Hl by (destruct value; [done | simpl; lia]).
  destruct (word_end value 0 Hs Hl) as (e & He & Hr & Hr' & Hc).
  destruct (subject_words_spec value (length value) e (s! "Subject: " ++ word_of (take e value)) Hs Hv) as (cs & E & Hcs & Hok);
    [lia | lia | done |].
  exists (take e value), cs. rewrite Hcs, take_drop. split; [done |]. split; [rewrite length_take; lia |]. split; [done |].
  assert (encoded_subject EVP_EncodeBlock value = default [] (subject_words EVP_EncodeBlock (S (length value)) value 0 (s! "Subject: "))) as ->
    by (by destruct value).
  cbn [subject_words]. replace (Z.of_nat (length value) <=? 0) with false by lia.
  change (0 + 39) with (Z.of_nat 0 + 39). rewrite He. replace (Z.of_nat e =? 0) with false by lia.
  change (Z.of_nat e - 0) with (Z.of_nat e - Z.of_nat 0). change (substr value 0) with (substr value (Z.of_nat 0)).
  rewrite chunk_cut by (lia || done). rewrite Nat.sub_0_r, drop_0. cbn [Z.eqb app].
  change (s! "Subject: " ++ s! "=?UTF-8?B?" ++ base64 (take e value) ++ s! "?=") with (s! "Subject: " ++ word_of (take e value)).
  rewrite E. cbn [default from_option]. by rewrite <- (assoc_L (++)).
Qed.
End Subject.

(** *** The loop ends on every text, also on one that is not UTF-8 *)

(** From a place that [back_up] passed it comes to the same end. *)
Lemma back_up_between value e e' d :
  back_up value e = Z.of_nat e' → (e' ≤ d ≤ e)%nat → Z.of_nat e < 2 ^ 63 → back_up value d = Z.of_nat e'.
Proof.
  revert d. induction e as [| e IH]; intros d E Hd He; [by replace d with 0%nat by lia |].
  destruct (decide (d = S e)) as [-> | Hne]; [done |]. cbn [back_up] in E. destruct (_ && _); [apply IH; [done | lia | lia] | lia].
Qed.

Lemma back_up_cases value e :
  (e ≤ length value)%nat → back_up value e = 2 ^ 64 - 1 ∨ ∃ e', back_up value e = Z.of_nat e' ∧ (e' ≤ e)%nat.
Proof.
  induction e as [| e IH]; intros He; cbn [back_up]; destruct (_ && _); try (right; eexists; split; [reflexivity | lia]); [by left |].
  destruct IH as [IH | (e' & IH & H)]; [lia | by left |]. right. exists e'. split; [done | lia].
Qed.

Lemma subject_words_total EVP value fuel pos out :
  Z.of_nat (length value) < 2 ^ 63 - 40 → (length value - pos < fuel)%nat → is_Some (subject_words EVP fuel value (Z.of_nat pos) out).
Proof.
  intros Hv. revert pos out. induction fuel as [| fuel IH]; intros pos out Hf; [lia |]. cbn [subject_words].
  destruct (Z.leb_spec (Z.of_nat (length value)) (Z.of_nat pos)); [by eexists |].
  set (e0 := Z.to_nat (Z.min (Z.of_nat pos + 39) (Z.of_nat (length value)))).
  destruct (back_up_cases value e0 ltac:(lia)) as [E | (e' & E & He')]; rewrite E; (destruct (_ =? _) eqn:Ee; [by eexists |]); bool_prop.
  - destruct fuel; cbn [subject_words]; by replace (Z.of_nat (length value) <=? 2 ^ 64 - 1) with true by lia.
  - destruct (decide (pos < e')%nat); [apply IH; lia |].
    destruct (decide (e0 = length value)) as [El | El].
    { exfalso. rewrite El in E. assert (back_up value (length value) = Z.of_nat (length value)) as E'; [| lia].
      destruct (length value) as [| k] eqn:En; cbn [back_up]; rewrite En, Nat.ltb_irrefl; done. }
    destruct fuel as [| fuel]; [lia |]. cbn [subject_words].
    replace (Z.of_nat (length value) <=? Z.of_nat e') with false by lia.
    rewrite (back_up_between value e0 e') by (done || lia). rewrite Z.eqb_refl. by eexists.
Qed.

(** The fuel of [encoded_subject] is enough, whatever the bytes: a text whose words
    cannot be cut ends in the failure, never in a loop. *)
Theorem encoded_subject_ends (EVP : bytes → option bytes) (value : bytes) :
  Z.of_nat (length value) < 2 ^ 63 - 40 → is_Some (subject_words EVP (S (length value)) value 0 (s! "Subject: ")).
Proof. intros Hv. apply (subject_words_total EVP value (S (length value)) 0); [done | lia]. Qed.

Lemma encoded_subject_ends_witness :
  is_Some (subject_words (λ s, Some s) 101 (65 :: replicate 99 128) 0 (s! "Subject: ")) ∧
  encoded_subject (λ s, Some s) (65 :: replicate 99 128) = [].
Proof. split; [apply (encoded_subject_ends (λ s, Some s) (65 :: replicate 99 128)); vm_compute; reflexivity | vm_compute; reflexivity]. Defined.

(** ** What goes on the wire *)

Definition wire_char (c : Z) : Prop := 32 ≤ c ≤ 126.

(** A line that SMTP carries as it is: printable ASCII, at most 998 characters, and
    no dot in front that would have to be doubled or could end the message. *)
Definition wire_line (l : bytes) : Prop := Forall wire_char l ∧ (length l ≤ 998)%nat ∧ nth 0 l 0 ≠ 46.

Definition wire (s : bytes) : Prop := ∃ ls, s = concat ((λ l, l ++ CRLF) <$> ls) ∧ Forall wire_line ls.

Definition b64_standard (c : Z) : bool := alnum c || (c =? 43) || (c =? 47) || (c =? 61).

(** The documented output of [EVP_EncodeBlock]. *)
Definition encodes (EVP_EncodeBlock : bytes → option bytes) : Prop :=
  ∀ data, data ≠ [] → bytes_ok data →
  ∃ t, EVP_EncodeBlock data = Some t ∧ Forall (λ c, b64_standard c = true) t ∧ length t = (4 * ((length data + 2) / 3))%nat.

Definition tm_ok (t : tm) : Prop :=
  0 ≤ tm_sec t ≤ 60 ∧ 0 ≤ tm_min t ≤ 59 ∧ 0 ≤ tm_hour t ≤ 23 ∧ 1 ≤ tm_mday t ≤ 31 ∧ 0 ≤ tm_mon t ≤ 11 ∧
  0 ≤ tm_year t ≤ 2000 ∧ 0 ≤ tm_wday t ≤ 6.

Lemma wire_app a b : wire a → wire b → wire (a ++ b).
Proof.
  intros (la & -> & Ha) (lb & -> & Hb). exists (la ++ lb). rewrite fmap_app, concat_app. split; [done | by apply Forall_app].
Qed.

Lemma wire_one l : wire_line l → wire (l ++ CRLF).
Proof. intros H. exists [l]. split; [by rewrite concat_singleton' || (simpl; by rewrite app_nil_r) | by constructor]. Qed.

Lemma wire_nil : wire [].
Proof. by exists []. Qed.

(** A literal line of the code. *)
Definition plain_line (l : bytes) : bool :=
  forallb (λ c, (32 <=? c) && (c <=? 126)) l && (length l <=? 998)%nat && negb (nth 0 l 0 =? 46).

Lemma plain_line_wire l : plain_line l = true → wire_line l.
Proof.
  unfold plain_line. intros H. bool_prop. split_and!; [| lia | done].
  apply list.Forall_forall. intros c Hc%list_elem_of_In. match goal with H : forallb _ _ = true |- _ => rewrite forallb_forall in H; specialize (H c Hc) end.
  bool_prop. split; lia.
Qed.

Lemma alnum_wire c : alnum c = true → wire_char c ∧ c ≠ 46.
Proof. unfold alnum, wire_char. intros H. lia. Qed.

Lemma local_char_wire c : local_char c = true → wire_char c.
Proof.
  unfold local_char. intros [H | H]%orb_true_iff; [by apply alnum_wire |].
  apply existsb_exists in H as (x & Hx & ->%Z.eqb_eq).
  assert (forallb (λ c, (32 <=? c) && (c <=? 126)) (s! ".!#$%&'*+-/=?^_`{|}~") = true) as Hf by reflexivity.
  rewrite forallb_forall in Hf. specialize (Hf x Hx). bool_prop. by split.
Qed.

Lemma label_char_wire c : label_char c = true → wire_char c.
Proof. unfold label_char. intros [H | H]%orb_true_iff; [by apply alnum_wire |]. unfold wire_char. lia. Qed.

Lemma b64_standard_wire c : b64_standard c = true → wire_char c ∧ c ≠ 46.
Proof. unfold b64_standard, alnum, wire_char. intros H. lia. Qed.

Lemma domain_chars s cur : Forall (λ l, label_ok l = true) (split_dots cur s) → Forall wire_char s.
Proof.
  revert cur. induction s as [| c s IH]; intros cur H; [constructor |]. cbn [split_dots] in H. destruct (c =? 46) eqn:E.
  - bool_prop. constructor; [by subst | apply (IH []); by apply Forall_inv_tail in H].
  - constructor; [| by apply (IH (cur ++ [c]))]. apply label_char_wire, (split_dots_chars s (cur ++ [c])).
    + apply elem_of_app. right. by apply list_elem_of_singleton.
    + apply forallb_forall. intros l Hl%list_elem_of_In. by apply (proj1 (list.Forall_forall _ _) H).
Qed.

Lemma valid_address_wire a : valid_address a = true → Forall wire_char a ∧ (length a ≤ 254)%nat.
Proof.
  rewrite valid_address_grammar. intros (local & domain & -> & _ & Hl & _ & _ & Hc & _ & _ & _ & Hd). split; [| done].
  apply Forall_app. split; [eapply Forall_impl; [| exact Hc]; intros c; apply local_char_wire |].
  constructor; [unfold wire_char; lia | by apply (domain_chars domain [])].
Qed.

Lemma addresses_wire rest p :
  Forall wire_char p → (length p ≤ 400)%nat → nth 0 p 0 ≠ 46 → p ≠ [] → Forall (λ a, valid_address a = true) rest →
  wire (p ++ concat ((λ a, s! "," ++ CRLF ++ s! " " ++ s! "<" ++ a ++ s! ">") <$> rest) ++ CRLF).
Proof.
  intros Hp Hl H0 Hne Hr. revert p Hp Hl H0 Hne. induction Hr as [| a rest Ha _ IH]; intros p Hp Hl H0 Hne.
  - apply wire_one. split_and!; [done | lia | done].
  - destruct (valid_address_wire a Ha) as [Hw Hal]. cbn [fmap list_fmap concat].
    replace (p ++ ((s! "," ++ CRLF ++ s! " " ++ s! "<" ++ a ++ s! ">") ++ concat ((λ a, s! "," ++ CRLF ++ s! " " ++ s! "<" ++ a ++ s! ">") <$> rest)) ++ CRLF)
      with (((p ++ s! ",") ++ CRLF) ++ (s! " <" ++ a ++ s! ">") ++ concat ((λ a, s! "," ++ CRLF ++ s! " " ++ s! "<" ++ a ++ s! ">") <$> rest) ++ CRLF)
      by (rewrite <- !(assoc_L (++)); done).
    apply wire_app.
    + apply wire_one. split_and!; [apply Forall_app; split; [done | repeat constructor; done] | rewrite length_app; simpl; lia |].
      destruct p; [done |]. exact H0.
    + apply IH; [| rewrite !length_app; simpl; lia | done | done].
      apply Forall_app. split; [repeat constructor; done |]. apply Forall_app. split; [done | repeat constructor; done].
Qed.

Lemma address_header_wire name l :
  plain_line (name ++ s! ": ") = true → (length name ≤ 10)%nat → name ≠ [] → Forall (λ a, valid_address a = true) l →
  wire (address_header name l).
Proof.
  intros Hn Hl Hne H. destruct l as [| a rest]; [apply wire_nil |]. inversion H as [| ? ? Ha Hr]; subst.
  destruct (valid_address_wire a Ha) as [Hw Hal]. destruct (plain_line_wire _ Hn) as (Hc & _ & H0). unfold address_header.
  replace (name ++ s! ": " ++ (s! "<" ++ a ++ s! ">") ++ concat ((λ a, s! "," ++ CRLF ++ s! " " ++ s! "<" ++ a ++ s! ">") <$> rest) ++ CRLF)
    with (((name ++ s! ": ") ++ s! "<" ++ a ++ s! ">") ++ concat ((λ a, s! "," ++ CRLF ++ s! " " ++ s! "<" ++ a ++ s! ">") <$> rest) ++ CRLF)
    by (rewrite <- !(assoc_L (++)); done).
  apply addresses_wire; [| rewrite !length_app; simpl; lia | by destruct name | by destruct name | done].
  apply Forall_app. split; [done |]. apply Forall_app. split; [repeat constructor; done |].
  apply Forall_app. split; [done | repeat constructor; done].
Qed.

(** *** The date *)

Lemma padded_wire w n : 0 ≤ n → Forall wire_char (padded w n).
Proof.
  intros Hn. unfold padded. apply Forall_app. split; [apply Forall_replicate; unfold wire_char; lia |].
  eapply Forall_impl; [| by apply to_string_digits]. intros c Hc. unfold isdigit, wire_char in *. lia.
Qed.

Lemma padded_length n : (0 ≤ n < 100 → length (padded 2 n) = 2%nat) ∧ (1900 ≤ n ≤ 3900 → length (padded 4 n) = 4%nat).
Proof.
  assert (∀ w lo k, forallb (λ n, (length (padded w n) =? w)%nat) (seqZ lo k) = true → lo ≤ n < lo + k → length (padded w n) = w) as H.
  { intros w lo k Hf Hn. rewrite forallb_forall in Hf. apply Nat.eqb_eq, Hf, list_elem_of_In, elem_of_seqZ. lia. }
  split; intros Hn; [apply (H 2%nat 0 100) | apply (H 4%nat 1900 2001)]; (vm_compute; reflexivity) || lia.
Qed.

Lemma nth_plain (l : list bytes) n k i :
  forallb (λ s, forallb (λ c, (32 <=? c) && (c <=? 126)) s && (length s =? k)%nat) l = true → length l = n → (i < n)%nat →
  Forall wire_char (nth i l []) ∧ length (nth i l []) = k.
Proof.
  intros H Hl Hi. rewrite forallb_forall in H. specialize (H (nth i l [])).
  assert (In (nth i l []) l) as Hin by (apply nth_In; lia). apply H in Hin. bool_prop. split; [| done].
  apply list.Forall_forall. intros c Hc%list_elem_of_In.
  match goal with H : forallb _ (nth _ _ _) = true |- _ => rewrite forallb_forall in H; specialize (H c Hc) end. bool_prop. by split.
Qed.

Lemma date_wire t : tm_ok t → wire (date_header t).
Proof.
  intros (H1 & H2 & H3 & H4 & H5 & H6 & H7). unfold date_header.
  destruct (nth_plain days 7 3 (Z.to_nat (tm_wday t))) as [Hd Hdl]; [reflexivity | reflexivity | lia |].
  destruct (nth_plain months 12 3 (Z.to_nat (tm_mon t))) as [Hm Hml]; [reflexivity | reflexivity | lia |].
  pose proof (proj1 (padded_length (tm_mday t)) ltac:(lia)) as L1. pose proof (proj2 (padded_length (tm_year t + 1900)) ltac:(lia)) as L2.
  pose proof (proj1 (padded_length (tm_hour t)) ltac:(lia)) as L3. pose proof (proj1 (padded_length (tm_min t)) ltac:(lia)) as L4.
  pose proof (proj1 (padded_length (tm_sec t)) ltac:(lia)) as L5.
  rewrite take_ge by (rewrite !length_app, Hdl, Hml, L1, L2, L3, L4, L5; simpl; lia).
  match goal with |- wire ?x => assert (∃ l, x = l ++ CRLF ∧ wire_line l) as (l & -> & Hl); [| by apply wire_one] end.
  eexists. split; [rewrite !(assoc_L (++)); reflexivity |]. rewrite <- !(assoc_L (++)).
  split_and!; [| rewrite !length_app, Hdl, Hml, L1, L2, L3, L4, L5; simpl; lia | done].
  repeat first [exact Hd | exact Hm | apply padded_wire; lia | apply plain_line_wire; reflexivity | apply Forall_app; split].
Qed.

(** *** Subject and text *)

Section Wire.
Context (EVP_EncodeBlock : bytes → option bytes) (Henc : encodes EVP_EncodeBlock).
Local Abbreviation base64 := (base64_encode EVP_EncodeBlock).

Lemma base64_spec data : bytes_ok data →
  Forall (λ c, b64_standard c = true) (base64 data) ∧ length (base64 data) = (4 * ((length data + 2) / 3))%nat.
Proof.
  intros Hd. destruct data as [| b data]; [by split |]. destruct (Henc (b :: data)) as (t & Et & H1 & H2); [done | done |].
  unfold base64_encode. rewrite Et. by split.
Qed.

Lemma word_wire c : bytes_ok c → (length c ≤ 39)%nat → Forall wire_char (word_of EVP_EncodeBlock c) ∧ (length (word_of EVP_EncodeBlock c) ≤ 64)%nat.
Proof.
  intros Hc Hl. destruct (base64_spec c Hc) as [H1 H2]. unfold word_of. split.
  - repeat (apply Forall_app; split); try (apply plain_line_wire; reflexivity).
    eapply Forall_impl; [| exact H1]. intros x Hx. by apply b64_standard_wire.
  - rewrite !length_app, H2. assert ((length c + 2) / 3 ≤ 13)%nat by (apply Nat.lt_succ_r, Nat.Div0.div_lt_upper_bound; lia).
    set (q := ((length c + 2) / 3)%nat) in *. clearbody q. simpl. lia.
Qed.

Lemma more_words_wire cs p :
  Forall wire_char p → (length p ≤ 100)%nat → nth 0 p 0 ≠ 46 → bytes_ok (concat cs) → Forall chunk_ok cs →
  wire (p ++ more_words EVP_EncodeBlock cs ++ CRLF).
Proof.
  revert p. induction cs as [| c cs IH]; intros p Hp Hl H0 Hb Hc.
  - apply wire_one. split_and!; [done | lia | done].
  - inversion Hc as [| ? ? [Hlen _] Hcs]; subst. simpl in Hb. apply Forall_app in Hb as [Hbc Hbs].
    destruct (word_wire c Hbc) as [Hw Hwl]; [lia |]. unfold more_words. cbn [fmap list_fmap concat].
    replace (p ++ ((CRLF ++ s! " " ++ word_of EVP_EncodeBlock c) ++ concat ((λ c, CRLF ++ s! " " ++ word_of EVP_EncodeBlock c) <$> cs)) ++ CRLF)
      with ((p ++ CRLF) ++ (s! " " ++ word_of EVP_EncodeBlock c) ++ more_words EVP_EncodeBlock cs ++ CRLF)
      by (unfold more_words; rewrite <- !(assoc_L (++)); done).
    apply wire_app; [apply wire_one; split_and!; [done | lia | done] |].
    apply (IH (s! " " ++ word_of EVP_EncodeBlock c)); [apply Forall_app; split; [apply plain_line_wire; reflexivity | exact Hw] | rewrite length_app; change (length (s! " ")) with 1%nat; lia | done | done | done].
Qed.

Lemma subject_wire value :
  bytes_ok value → short_runs value → (length value ≤ 512)%nat → wire (encoded_subject EVP_EncodeBlock value) ∧ encoded_subject EVP_EncodeBlock value ≠ [].
Proof.
  intros Hb Hs Hl. destruct value as [| b value].
  { split; [| done]. apply (wire_one (s! "Subject:")), plain_line_wire. reflexivity. }
  destruct (subject_encoded EVP_EncodeBlock (b :: value)) as (c & cs & E & Hc & Hcs & ->); [done | done | lia |].
  rewrite <- E in Hb. apply Forall_app in Hb as [Hbc Hbs]. destruct (word_wire c Hbc) as [Hw Hwl]; [lia |].
  split; [| done]. rewrite (assoc_L (++)). apply more_words_wire; [| rewrite length_app; change (length (s! "Subject: ")) with 9%nat; lia | done | done | done].
  apply Forall_app. split; [apply plain_line_wire; reflexivity | done].
Qed.

Lemma wrapped_lines fuel s :
  (length s ≤ fuel)%nat → ∃ ls, wrapped fuel s = concat ((λ l, l ++ CRLF) <$> ls) ∧ concat ls = s ∧ Forall (λ l, 1 ≤ length l ≤ 76)%nat ls.
Proof.
  revert s. induction fuel as [| fuel IH]; intros [| c s] Hl; try (exists []; done); [simpl in Hl; lia |].
  destruct (IH (drop 76 (c :: s))) as (ls & E & Ec & Hf); [rewrite length_drop; simpl in *; lia |].
  exists (take 76 (c :: s) :: ls). cbn [wrapped]. rewrite E. split; [cbn [fmap list_fmap concat]; by rewrite (assoc_L (++)) |].
  split; [cbn [concat]; rewrite Ec; apply take_drop |]. constructor; [rewrite length_take; cbn [length]; lia | done].
Qed.

Lemma canonical_ok t : bytes_ok t → bytes_ok (canonical_text t).
Proof.
  intros H. remember (length t) as n eqn:En. assert (length t ≤ n)%nat as Hn by lia. clear En. revert t H Hn.
  induction n as [| n IH]; intros t H Hn; [destruct t; [constructor | simpl in Hn; lia] |].
  assert (bytes_ok CRLF) as Hcr by (repeat constructor; done).
  assert (∀ c r, bytes_ok (c :: r) → bytes_ok (if (c =? CR) || (c =? LF) then CRLF else [c])) as Hx.
  { intros c r Hcr'. destruct (_ || _); [done |]. constructor; [by apply Forall_inv in Hcr' | constructor]. }
  destruct t as [| c t]; [constructor |]. inversion H as [| ? ? Hc Ht]; subst. simpl in Hn.
  assert (bytes_ok ((if (c =? CR) || (c =? LF) then CRLF else [c]) ++ canonical_text t)) as Hd
    by (apply Forall_app; split; [by apply (Hx c t) | apply IH; [done | lia]]).
  destruct (decide (c = 13)) as [-> | Hne].
  - destruct t as [| d t]; [exact Hd |]. destruct (decide (d = 10)) as [-> | Hd10].
    + apply Forall_app. split; [done |]. apply IH; [by apply Forall_inv_tail in Ht | simpl in Hn; lia].
    + replace (canonical_text (13 :: d :: t)) with ((if (13 =? CR) || (13 =? LF) then CRLF else [13]) ++ canonical_text (d :: t)); [exact Hd |].
      cbn [canonical_text]. repeat case_match; simplify_eq; done.
  - replace (canonical_text (c :: t)) with ((if (c =? CR) || (c =? LF) then CRLF else [c]) ++ canonical_text t); [exact Hd |].
    cbn [canonical_text]. repeat case_match; simplify_eq; done.
Qed.
End Wire.

(** *** The envelope *)

Definition keys (l : list bytes) : list bytes := (λ a : bytes, tolower <$> a) <$> l.

Lemma envelope_spec addresses seen out :
  (∀ k, k ∈ seen ↔ k ∈ keys out) → NoDup (keys out) →
  match envelope addresses seen out with
  | inl f => error_status f = 400 ∧ raw f = []
  | inr out' =>
      Forall (λ a, valid_address a = true) addresses ∧ NoDup (keys out') ∧
      (∀ a, a ∈ out' → a ∈ out ∨ a ∈ addresses) ∧ (∀ k, k ∈ keys out' ↔ k ∈ keys out ∨ k ∈ keys addresses) ∧
      (length out' ≤ length out + length addresses)%nat
  end.
Proof.
  revert seen out. induction addresses as [| a rest IH]; intros seen out Hs Hn; cbn [envelope].
  { split; [constructor |]. split; [done |]. split; [by left |]. split; [| lia]. intros k. split; [by left | intros [H | H]; [done | by apply elem_of_nil in H]]. }
  destruct (valid_address a) eqn:Ea; cbn [negb]; [| done]. cbv zeta. case_bool_decide as Hk.
  - specialize (IH seen out Hs Hn). destruct (envelope rest seen out) as [f | out']; [done |].
    destruct IH as (I1 & I2 & I3 & I4 & I5). split; [by constructor |]. split; [done |]. split.
    { intros x Hx. destruct (I3 x Hx); [by left | right; by apply list_elem_of_further]. }
    split; [| simpl; lia]. intros k. rewrite I4. cbn [keys fmap list_fmap]. rewrite elem_of_cons.
    split; [intros [H | H]; [by left | by right; right] |]. intros [H | [-> | H]]; [by left | left; by apply Hs | by right].
  - assert (∀ k, k ∈ keys (out ++ [a]) ↔ k ∈ keys out ∨ k = tolower <$> a) as Hsn
      by (intros k; unfold keys; rewrite fmap_app, elem_of_app; cbn; by rewrite list_elem_of_singleton).
    assert (NoDup (keys (out ++ [a]))) as Hn'.
    { unfold keys. rewrite fmap_app. cbn. apply list.NoDup_app. split; [done |]. split; [| apply list.NoDup_singleton].
      intros k Hk1 ->%list_elem_of_singleton. by apply Hk, Hs. }
    specialize (IH ((tolower <$> a) :: seen) (out ++ [a]) ltac:(intros k; rewrite elem_of_cons, Hsn, Hs; tauto) Hn').
    destruct (envelope rest _ (out ++ [a])) as [f | out']; [done |]. destruct IH as (I1 & I2 & I3 & I4 & I5).
    split; [by constructor |]. split; [done |]. split.
    { intros x [[Hx | ->%list_elem_of_singleton]%elem_of_app | Hx]%I3; [by left | right; by left | right; by right]. }
    split; [| rewrite length_app in I5; simpl in *; lia]. intros k. rewrite I4, Hsn. cbn [keys fmap list_fmap]. rewrite elem_of_cons. tauto.
Qed.

(** *** The message *)

(** What may follow [k] characters of a line. *)
Definition follows (k : nat) (s : bytes) : Prop :=
  ∀ p, Forall wire_char p → (length p ≤ k)%nat → p ≠ [] → nth 0 p 0 ≠ 46 → wire (p ++ s).

Lemma follows_crlf k s : (k ≤ 998)%nat → wire s → follows k (CRLF ++ s).
Proof. intros Hk Hs p Hp Hl Hne H0. rewrite (assoc_L (++)). apply wire_app; [| done]. apply wire_one. split_and!; [done | lia | done]. Qed.

Lemma follows_app k m x s : Forall wire_char x → (length x ≤ m)%nat → follows (k + m) s → follows k (x ++ s).
Proof.
  intros Hx Hm Hs p Hp Hl Hne H0. rewrite (assoc_L (++)). apply Hs; [by apply Forall_app | rewrite length_app; lia | by destruct p |].
  by destruct p.
Qed.

Lemma wire_start k x s : plain_line x = true → x ≠ [] → (length x ≤ k)%nat → follows k s → wire (x ++ s).
Proof. intros Hx Hne Hl Hs. destruct (plain_line_wire x Hx) as (H1 & _ & H3). by apply Hs. Qed.

Lemma wire_crlf s : wire s → wire (CRLF ++ s).
Proof. intros H. apply wire_app; [| done]. apply (wire_one []). split_and!; [constructor | simpl; lia | done]. Qed.

Lemma hex_wire r : bytes_ok r → Forall wire_char (hex r) ∧ length (hex r) = (2 * length r)%nat.
Proof.
  induction 1 as [| b r Hb _ [IH1 IH2]]; [by split |]. unfold hex in *. cbn [fmap list_fmap concat].
  assert (∀ n, 0 ≤ n < 16 → wire_char (hex_digit n)) as Hd by (intros n Hn; unfold hex_digit, wire_char; case_match; bool_prop; lia).
  split; [| rewrite length_app, IH2; simpl; lia]. constructor; [| constructor; [| done]]; apply Hd; unfold byte_ok in Hb.
  - rewrite Z.shiftr_div_pow2 by lia. split; [apply Z.div_pos; lia | apply Z.div_lt_upper_bound; lia].
  - change 15 with (Z.ones 4). rewrite Z.land_ones by lia. apply Z.mod_pos_bound. lia.
Qed.

Lemma domain_of_wire a : valid_address a = true → Forall wire_char (domain_of a) ∧ (length (domain_of a) ≤ 254)%nat.
Proof.
  intros [H1 H2]%valid_address_wire. unfold domain_of. case_match; [| done]. split; [by apply Forall_drop | rewrite length_drop; lia].
Qed.

Section Compose.
Context (EVP_EncodeBlock : bytes → option bytes) (Henc : encodes EVP_EncodeBlock).

Lemma text_part_wire t subtype : bytes_ok t → Forall wire_char subtype → (length subtype ≤ 10)%nat → wire (text_part EVP_EncodeBlock t subtype).
Proof.
  intros Ht Hs Hl. unfold text_part. cbv zeta. set (e := base64_encode _ _).
  destruct (wrapped_lines (length e) e) as (ls & -> & Hc & Hf); [lia |].
  apply (wire_start 30); [reflexivity | done | simpl; lia |]. apply (follows_app 30 10); [done | done |].
  apply (follows_app 40 20); [by apply plain_line_wire | simpl; lia |]. apply follows_crlf; [lia |].
  apply (wire_start 40); [reflexivity | done | simpl; lia |]. apply follows_crlf; [lia |]. apply wire_crlf.
  exists ls. split; [done |]. destruct (base64_spec EVP_EncodeBlock Henc (canonical_text t) (canonical_ok t Ht)) as [He _].
  fold e in He. rewrite <- Hc in He. clear -He Hf. induction Hf as [| l ls Hl Hf IH]; [constructor |].
  cbn [concat] in He. apply Forall_app in He as [Hl1 Hl2]. constructor; [| by apply IH].
  split_and!; [eapply Forall_impl; [| exact Hl1]; intros c Hc; by apply b64_standard_wire | lia |].
  destruct l as [| c l]; [done |]. apply Forall_inv in Hl1. by apply b64_standard_wire.
Qed.

Lemma boundary_wire nonce t h :
  Forall wire_char nonce → (length nonce ≤ 100)%nat → bytes_ok t → bytes_ok h →
  wire (s! "Content-Type: multipart/alternative; boundary=" ++ [DQUOTE] ++ (s! "wb_" ++ nonce) ++ [DQUOTE] ++ CRLF ++ CRLF ++
        s! "--" ++ (s! "wb_" ++ nonce) ++ CRLF ++ text_part EVP_EncodeBlock t (s! "plain") ++ CRLF ++
        s! "--" ++ (s! "wb_" ++ nonce) ++ CRLF ++ text_part EVP_EncodeBlock h (s! "html") ++ CRLF ++
        s! "--" ++ (s! "wb_" ++ nonce) ++ s! "--" ++ CRLF).
Proof.
  intros Hn Hl Ht Hh. assert (Forall wire_char (s! "wb_" ++ nonce) ∧ (length (s! "wb_" ++ nonce) ≤ 103)%nat) as [Hb Hbl].
  { split; [apply Forall_app; split; [by apply plain_line_wire | done] | rewrite length_app; change (length (s! "wb_")) with 3%nat; lia]. }
  set (b := s! "wb_" ++ nonce) in *. clearbody b.
  assert (Forall wire_char [DQUOTE]) as Hq by (constructor; [unfold wire_char, DQUOTE; lia | constructor]).
  apply (wire_start 60); [reflexivity | done | simpl; lia |]. apply (follows_app 60 1); [done | simpl; lia |].
  apply (follows_app 61 103); [done | done |]. apply (follows_app 164 1); [done | simpl; lia |].
  apply follows_crlf; [lia |]. apply wire_crlf.
  apply (wire_start 2); [reflexivity | done | simpl; lia |]. apply (follows_app 2 103); [done | done |]. apply follows_crlf; [lia |].
  apply wire_app; [apply text_part_wire; [done | by apply plain_line_wire | simpl; lia] |]. apply wire_crlf.
  apply (wire_start 2); [reflexivity | done | simpl; lia |]. apply (follows_app 2 103); [done | done |]. apply follows_crlf; [lia |].
  apply wire_app; [apply text_part_wire; [done | by apply plain_line_wire | simpl; lia] |]. apply wire_crlf.
  apply (wire_start 2); [reflexivity | done | simpl; lia |]. apply (follows_app 2 103); [done | done |].
  apply (follows_app 105 2); [by apply plain_line_wire | simpl; lia |]. rewrite <- (app_nil_r CRLF). apply follows_crlf; [lia | apply wire_nil].
Qed.

Lemma head_wire now nonce m :
  tm_ok now → Forall wire_char nonce → (length nonce ≤ 100)%nat → valid_address (from m) = true →
  Forall (λ a, valid_address a = true) (to m ++ cc m) →
  bytes_ok (subject m) → short_runs (subject m) → (length (subject m) ≤ 512)%nat →
  wire (date_header now ++ s! "Message-ID: " ++ (s! "<" ++ nonce ++ s! "@" ++ domain_of (from m) ++ s! ">") ++ CRLF ++
        s! "From: <" ++ from m ++ s! ">" ++ CRLF ++ address_header (s! "To") (to m) ++ address_header (s! "Cc") (cc m) ++
        encoded_subject EVP_EncodeBlock (subject m) ++ s! "MIME-Version: 1.0" ++ CRLF).
Proof.
  intros Hnow Hn Hnl Hf [Hto Hcc]%Forall_app Hsb Hsr Hsl.
  destruct (domain_of_wire (from m) Hf) as [Hd Hdl]. destruct (valid_address_wire (from m) Hf) as [Hw Hwl].
  apply wire_app; [by apply date_wire |].
  apply (wire_start 12); [reflexivity | done | simpl; lia |].
  rewrite <- !(assoc_L (++)). apply (follows_app 12 1); [by apply plain_line_wire | simpl; lia |].
  apply (follows_app 13 100); [done | done |]. apply (follows_app 113 1); [by apply plain_line_wire | simpl; lia |].
  apply (follows_app 114 254); [done | done |]. apply (follows_app 368 1); [by apply plain_line_wire | simpl; lia |].
  apply follows_crlf; [lia |].
  apply (wire_start 10); [reflexivity | done | simpl; lia |]. apply (follows_app 10 254); [done | done |].
  apply (follows_app 264 1); [by apply plain_line_wire | simpl; lia |]. apply follows_crlf; [lia |].
  apply wire_app; [apply address_header_wire; [reflexivity | simpl; lia | done | done] |].
  apply wire_app; [apply address_header_wire; [reflexivity | simpl; lia | done | done] |].
  apply wire_app; [by apply subject_wire |]. apply wire_one, plain_line_wire. reflexivity.
Qed.

(** The inputs of [compose] as its callers and libraries give them. *)
Record inputs_ok (rand : option bytes) (now : tm) (m : Message) : Prop := {
  in_time : tm_ok now;
  in_random : ∀ r, rand = Some r → bytes_ok r ∧ length r = 24%nat;
  in_subject : bytes_ok (subject m) ∧ short_runs (subject m);
  in_text : bytes_ok (default [] (text m)) ∧ bytes_ok (default [] (html m));
}.

(** The envelope of a composed message against the lists of the request. *)
Definition envelope_of (m : Message) (recipients : list bytes) : Prop :=
  (1 ≤ length recipients ≤ 100)%nat ∧ Forall (λ a, valid_address a = true) recipients ∧ NoDup (keys recipients) ∧
  (∀ a, a ∈ recipients → a ∈ to m ++ cc m) ∧ (∀ k, k ∈ keys recipients ↔ k ∈ keys (to m ++ cc m)).

Lemma envelope_inr m out :
  envelope (to m ++ cc m) [] [] = inr out → (length (to m) + length (cc m) ≠ 0)%nat → (length (to m) + length (cc m) ≤ 100)%nat →
  envelope_of m out ∧ Forall (λ a, valid_address a = true) (to m ++ cc m).
Proof.
  intros E H0 H1. pose proof (envelope_spec (to m ++ cc m) [] [] ltac:(done) ltac:(by apply list.NoDup_nil)) as H. rewrite E in H.
  destruct H as (I1 & I2 & I3 & I4 & I5). split; [| done].
  assert (∀ a, a ∈ out → a ∈ to m ++ cc m) as Hin by (intros a [Ha | Ha]%I3; [by apply elem_of_nil in Ha | done]).
  assert (∀ k, k ∈ keys out ↔ k ∈ keys (to m ++ cc m)) as Hk
    by (intros k; rewrite I4; split; [intros [H | H]; [by apply elem_of_nil in H | done] | by right]).
  split_and!; try done.
  - destruct out as [| a out]; [| simpl; lia]. exfalso. destruct (to m ++ cc m) as [| a l] eqn:Ea.
    { apply (f_equal length) in Ea. rewrite length_app in Ea. simpl in Ea. lia. }
    assert ((tolower <$> a) ∈ keys []) as Hx by (apply Hk; by left). by apply elem_of_nil in Hx.
  - rewrite length_app in I5. simpl in I5. lia.
  - apply list.Forall_forall. intros a Ha%Hin. by apply (proj1 (list.Forall_forall _ _) I1).
Qed.

(** What [compose] returns at the end. *)
Lemma assembled_ok rand now m out nonce body :
  inputs_ok rand now m → valid_address (from m) = true → Forall (λ a, valid_address a = true) (to m ++ cc m) →
  (length (subject m) ≤ 512)%nat → envelope_of m out → default [] (hex <$> rand) = nonce → nonce ≠ [] →
  ((length nonce ≤ 100)%nat → Forall wire_char nonce → wire body) →
  let r := mkComposed 0 [] ((date_header now ++ s! "Message-ID: " ++ (s! "<" ++ nonce ++ s! "@" ++ domain_of (from m) ++ s! ">") ++ CRLF ++
         s! "From: <" ++ from m ++ s! ">" ++ CRLF ++ address_header (s! "To") (to m) ++ address_header (s! "Cc") (cc m) ++
         encoded_subject EVP_EncodeBlock (subject m) ++ s! "MIME-Version: 1.0" ++ CRLF) ++ body)
         (s! "<" ++ nonce ++ s! "@" ++ domain_of (from m) ++ s! ">") out in
  (error_status r = 0 → wire (raw r) ∧ raw r ≠ [] ∧ envelope_of m (recipients r)) ∧
  (error_status r ≠ 0 → raw r = [] ∧ (error_status r = 400 ∨ error_status r = 413 ∨ error_status r = 500)).
Proof.
  intros [Hnow Hr [Hsb Hsr] _] Ef Hval Hl Hout En Hne Hb r. split; [| done]. intros _. split; [| split; [discriminate | done]].
  destruct rand as [rb |]; [| simpl in En; congruence]. simpl in En. subst nonce.
  destruct (Hr rb eq_refl) as [Hr1 Hr2]. destruct (hex_wire rb Hr1) as [Hx1 Hx2].
  assert (length (hex rb) ≤ 100)%nat by lia. apply wire_app; [by apply head_wire | by apply Hb].
Qed.
End Compose.

(** C31: A message that is composed can go on the wire as it is: all of it is lines of
    printable ASCII that end in CRLF, none longer than 998 characters, none with a dot
    in front, whatever text, subject and addresses were typed; and its envelope
    has every address of the request once, up to case, and no other.  One that is not
    composed has no bytes at all, and a status of 400, 413 or 500. *)
Theorem compose_wire_safe (EVP_EncodeBlock : bytes → option bytes) (rand : option bytes) (now : tm) (m : Message) :
  encodes EVP_EncodeBlock → inputs_ok rand now m →
  let c := compose EVP_EncodeBlock rand now m in
  (error_status c = 0 → wire (raw c) ∧ raw c ≠ [] ∧ envelope_of m (recipients c)) ∧
  (error_status c ≠ 0 → raw c = [] ∧ (error_status c = 400 ∨ error_status c = 413 ∨ error_status c = 500)).
Proof.
  intros Henc Hin c. pose proof Hin as [_ _ [Hsb Hsr] [Htb Hhb]]. unfold c, compose. clear c.
  destruct (valid_address (from m)) eqn:Ef; cbn [negb]; [| split; [done | by auto]]. cbv zeta.
  destruct ((_ =? 0)%nat || _) eqn:Ec; [split; [done | by auto] |]. unfold kMaxRecipients in Ec. bool_prop.
  destruct (envelope (to m ++ cc m) [] []) as [f | out] eqn:Ee.
  { pose proof (envelope_spec (to m ++ cc m) [] [] ltac:(done) ltac:(by apply list.NoDup_nil)) as Hes. rewrite Ee in Hes.
    destruct Hes as [H1 H2]. rewrite H1. split; [done | by auto]. }
  destruct (envelope_inr m out Ee) as [Hout Hval]; [done | lia |].
  destruct (512 <? length (subject m))%nat eqn:El; [split; [done | by auto] |]. bool_prop.
  destruct (existsb _ (subject m)); [split; [done | by auto] |].
  destruct (subject_wire EVP_EncodeBlock Henc (subject m) Hsb Hsr) as [_ Hsne]; [lia |].
  destruct (text m) as [t |] eqn:Et, (html m) as [h |] eqn:Eh; simpl in Htb, Hhb; try (split; [done | by auto]);
    (destruct (kMaxBodyBytes <? _); [split; [done | by auto] |]); rewrite bool_decide_eq_false_2 by done;
    destruct (default [] (hex <$> rand)) as [| b nonce] eqn:En; try (split; [done | by auto]);
    apply (assembled_ok EVP_EncodeBlock Henc rand now m out); try done; try lia; intros Hl Hwn.
  - by apply boundary_wire.
  - apply text_part_wire; [done | done | by apply plain_line_wire | simpl; lia].
  - apply text_part_wire; [done | done | by apply plain_line_wire | simpl; lia].
Qed.

(** *** An encoder, for the witnesses *)

Definition sample_letter (n : Z) : Z :=
  nth (Z.to_nat (Z.land n 63)) (s! "ABCDEFGHIJKLMNOPQRSTUVWXYZabcdefghijklmnopqrstuvwxyz0123456789+/") 0.

Fixpoint sample_groups (s : bytes) : bytes :=
  match s with
  | [] => []
  | [a] => [sample_letter (Z.shiftr a 2); sample_letter (Z.shiftl a 4); 61; 61]
  | [a; b] => [sample_letter (Z.shiftr a 2); sample_letter (Z.lor (Z.shiftl a 4) (Z.shiftr b 4)); sample_letter (Z.shiftl b 2); 61]
  | a :: b :: c :: s =>
      sample_letter (Z.shiftr a 2) :: sample_letter (Z.lor (Z.shiftl a 4) (Z.shiftr b 4)) ::
      sample_letter (Z.lor (Z.shiftl b 2) (Z.shiftr c 6)) :: sample_letter c :: sample_groups s
  end.

Definition sample_encode (s : bytes) : option bytes := Some (sample_groups s).

Lemma sample_letter_ok n : b64_standard (sample_letter n) = true.
Proof.
  unfold sample_letter. pose proof (land_digit n) as H.
  assert (forallb (λ c, b64_standard (nth (Z.to_nat c) (s! "ABCDEFGHIJKLMNOPQRSTUVWXYZabcdefghijklmnopqrstuvwxyz0123456789+/") 0)) (seqZ 0 64) = true) as Hf
    by (vm_compute; reflexivity).
  rewrite forallb_forall in Hf. apply Hf, list_elem_of_In, elem_of_seqZ. lia.
Qed.

Lemma sample_encodes : encodes sample_encode.
Proof.
  intros data _ _. exists (sample_groups data). split; [done |].
  induction data as [| a | a b | a b c l IH] using list_ind3; [by split | | |].
  1, 2: split; [repeat (constructor; [by apply sample_letter_ok || done |]); constructor | done].
  destruct IH as [IH1 IH2]. split; [repeat (constructor; [apply sample_letter_ok |]); done |].
  cbn [sample_groups length]. rewrite IH2. replace (S (S (S (length l))) + 2)%nat with (1 * 3 + (length l + 2))%nat by lia.
  rewrite Nat.div_add_l by lia. lia.
Qed.

Definition sample_message : Message :=
  mkMessage (s! "a@b.org") [s! "x@y.net"; s! "X@Y.NET"] [] (s! "hello") (Some (s! ".dot" ++ [10])) (Some (s! "<p>")).
Definition sample_now : tm := mkTm 5 4 3 2 0 124 2.

Lemma compose_wire_safe_witness :
  wire (raw (compose sample_encode (Some (replicate 24 171)) sample_now sample_message)) ∧
  recipients (compose sample_encode (Some (replicate 24 171)) sample_now sample_message) = [s! "x@y.net"].
Proof.
  assert (inputs_ok (Some (replicate 24 171)) sample_now sample_message) as Hin.
  { split; [repeat split; vm_compute; discriminate | | | ].
    - intros r [= <-]. split; [repeat (constructor; [by unfold byte_ok |]); constructor | reflexivity].
    - split; [repeat (constructor; [by unfold byte_ok |]); constructor |]. intros e He. exists 0%nat. split; [lia |].
      vm_compute in He. destruct e as [| [| [| [| [| e]]]]]; vm_compute; first [reflexivity | lia].
    - split; repeat (constructor; [by unfold byte_ok |]); constructor. }
  split; [| vm_compute; reflexivity].
  apply (compose_wire_safe sample_encode (Some (replicate 24 171)) sample_now sample_message sample_encodes Hin). vm_compute. reflexivity.
Defined.

Lemma subject_encoded_witness :
  encoded_subject sample_encode (s! "hi") = s! "Subject: =?UTF-8?B?aGk=?=" ++ CRLF ∧
  ∃ c cs, c ++ concat cs = s! "hi" ∧ (1 ≤ length c ≤ 39)%nat ∧ Forall chunk_ok cs ∧
    encoded_subject sample_encode (s! "hi") = s! "Subject: " ++ word_of sample_encode c ++ more_words sample_encode cs ++ CRLF.
Proof.
  split; [vm_compute; reflexivity |]. apply (subject_encoded sample_encode (s! "hi")); [discriminate | | vm_compute; reflexivity].
  intros e He. vm_compute in He. lia.
Defined.

(** ** A limit that the next stage does not share *)

Definition newline_message (n : nat) : Message :=
  mkMessage (s! "a@b.org") [s! "x@y.net"] [] [] (Some (replicate n LF)) None.

Lemma canonical_newlines n : canonical_text (replicate n LF) = concat (replicate n CRLF).
Proof. induction n as [| n IH]; [done |]. cbn [replicate concat]. rewrite <- IH. reflexivity. Qed.

(** The limit of 512 KiB is on the text as typed.  A text of line feeds doubles when it
    becomes lines and grows by a third in base64: it is composed, but the message is
    larger than the 1 MiB that [Submission.on_start] takes. *)
Theorem newlines_outgrow_submission (EVP_EncodeBlock : bytes → option bytes) (now : tm) (n : nat) :
  encodes EVP_EncodeBlock → Z.of_nat n = 512 * 1024 →
  let c := compose EVP_EncodeBlock (Some (replicate 24 171)) now (newline_message n) in
  error_status c = 0 ∧ 1024 * 1024 < Z.of_nat (length (raw c)).
Proof.
  intros Henc Hn c. unfold c, compose, newline_message. clear c. cbn [from to cc subject text html app].
  change (valid_address (s! "a@b.org")) with true. cbn [negb]. cbv zeta.
  change ((length [s! "x@y.net"] + length ([] : list bytes) =? 0)%nat || (kMaxRecipients <? length [s! "x@y.net"] + length ([] : list bytes))%nat)
    with false. cbv iota.
  change (envelope [s! "x@y.net"] [] []) with (inr [s! "x@y.net"] : ComposedMessage + list bytes). cbv iota.
  change (512 <? length ([] : bytes))%nat with false. cbn [existsb default from_option length id].
  rewrite length_replicate. replace (kMaxBodyBytes <? Z.of_nat n + Z.of_nat 0) with false by (symmetry; apply Z.ltb_ge; rewrite Hn; vm_compute; discriminate).
  rewrite bool_decide_eq_false_2 by done. cbn [fmap option_fmap option_map default from_option id].
  destruct (hex (replicate 24 171)) as [| b nonce] eqn:En; [done |]. cbn [error_status raw]. split; [done |].
  rewrite length_app. assert (1024 * 1024 < Z.of_nat (length (text_part EVP_EncodeBlock (replicate n LF) (s! "plain")))); [| lia].
  unfold text_part. cbv zeta. rewrite canonical_newlines. set (e := base64_encode _ _).
  destruct (wrapped_lines (length e) e) as (ls & -> & Hc & _); [lia |]. rewrite !length_app.
  assert (length (concat (replicate n CRLF)) = (2 * n)%nat ∧ bytes_ok (concat (replicate n CRLF))) as [Hl Hb].
  { clear. induction n as [| n [IH1 IH2]]; [by split |]. cbn [replicate concat]. split; [rewrite length_app, IH1; simpl; lia |].
    apply Forall_app. split; [by repeat constructor | done]. }
  destruct (base64_spec EVP_EncodeBlock Henc _ Hb) as [_ He]. fold e in He. rewrite Hl in He.
  assert (length e ≤ length (concat ((λ l, l ++ CRLF) <$> ls)))%nat.
  { rewrite <- Hc. clear. induction ls as [| l ls IH]; [done |]. cbn [fmap list_fmap concat]. rewrite !length_app. lia. }
  pose proof (Nat.div_mod_eq (2 * n + 2) 3). pose proof (Nat.mod_upper_bound (2 * n + 2) 3). lia.
Qed.

Lemma newlines_outgrow_submission_witness :
  1024 * 1024 < Z.of_nat (length (raw (compose sample_encode (Some (replicate 24 171)) sample_now (newline_message (Z.to_nat (512 * 1024)))))).
Proof.
  apply (newlines_outgrow_submission sample_encode sample_now (Z.to_nat (512 * 1024)) sample_encodes). rewrite Z2Nat.id by lia. reflexivity.
Defined.
